(* ===== verification/_CoqProject ===== *)
-Q . S2P
Prelude.v
Errno.v
Bytes.v
RefCount.v
Address.v
Wake.v
PosixLock.v
FileLock.v
Pipe.v
MsgQueue.v
Sched.v
FdTable.v
FrameAlloc.v
FramePool.v
PageTable.v
MapArea.v
AreaSet.v
AreaPt.v
Mmap.v
Mprotect.v
Mmu.v
Fault.v
FaultIso.v
FaultInv.v
FaultWorld.v
ForkPages.v
ForkAreas.v
ForkWorld.v
Isolation.v
Seccomp.v
Path.v
Timers.v
Futex.v
FutexLife.v
Signal.v
SigSend.v
SigLife.v
ProcTree.v
ProcInv.v
ProcReach.v
ProcLife.v
Memfd.v
FileCache.v
FileCacheInv.v
FileCacheOps.v
FileCacheLoad.v
OsFile.v
OsFileSpec.v
OsFileWrite.v
OsFileRefine.v
FileCacheLife.v
Mount.v
MountSpec.v
MountLife.v
UnixSock.v
UnixInv.v
UnixOps.v
UnixSpec.v
UnixLife.v
PosixMq.v
Events.v
