(* ===== verification/Prelude.v ===== *)
(** * Ya2yOS: a verification library for the core of the kernel

    Ya2yOS is a Linux-compatible kernel in Rust for RISC-V and LoongArch.  This
    library models the parts of it that carry its own logic and proves what
    makes them correct.  It follows the default build: RISC-V, the CFS
    scheduler, release mode.  Paths below are under [src/]; [k/] abbreviates
    [os/src/].

    ** The program

    A trap enters a system-call handler ([k/syscall/]), whose result is encoded
    into the return register ([k/trap/mod.rs]).  Handlers work on objects that
    tasks share: descriptor tables, pipes, message queues, lock tables, futex
    queues.  A handler that must wait polls a future with [block_on]
    ([k/task/future/mod.rs]); the object keeps the task's waker
    ([k/utils/poll.rs], [AtomicWaker]) and wakes it, which puts the task on the
    scheduler's queue ([k/task/scheduler/cfs.rs]); the harts take tasks from it
    in [run_tasks] ([k/task/processor.rs]).  Signals ([k/signal/]) are recorded
    in the target and interrupt its wait; the way back to user mode picks the
    lowest one.  An address space ([k/mm/memory_set/]) is a list of areas over
    a page table ([k/arch/riscv64/qemu/page_table.rs]), whose frames come from a
    cache of frames ([k/mm/frame_alloc/page_cache.rs]) in front of a buddy heap
    ([crates/buddy_system_allocator]).  Regular files ([k/fs/files/os_file.rs]) are
    read and written through a cache of pages ([k/fs/page_cache.rs]) over inodes of
    the file systems that the mount table ([k/fs/mount.rs]) puts together.
    Processes talk through AF_UNIX sockets ([k/net/unix.rs]).  Before a system
    call runs, the seccomp policy of the task ([k/task/seccomp.rs]) may refuse it.

    ** The files

    - [Prelude]: results, panics, machine integers, bit sets, list and loop
      lemmas, tactics and the hint database [ya2y].
    - [Errno]: [k/utils/error.rs], the error numbers and the return register.
    - [Bytes], [RefCount]: byte sequences, and the references users hold to shared
      objects.
    - [Address]: [k/mm/address.rs] and [k/utils/simple_range.rs], addresses,
      page numbers, page ranges.
    - [Wake]: poll sets, [AtomicWaker], and [block_on] as a step relation
      between the blocked task and its wakers.
    - [PosixLock]: [k/syscall/fs/file_lock/posix.rs] and the waiting loop of
      [k/syscall/fs/fcntl.rs], record locks, deadlock detection.
    - [FileLock]: the layout of [struct flock] ([types.rs]), BSD locks
      ([bsd_flock.rs], [fd_ops.rs]) and leases ([lease.rs]).
    - [Pipe]: [k/fs/files/pipe/], fragments, reads, writes, splice and tee, and
      the sleep protocol of readers.
    - [MsgQueue]: [k/syscall/ipc/msg.rs], System V message queues.
    - [Sched]: the CFS queue and the scheduling loop of the harts.
    - [FdTable]: [k/fs/fstruct.rs] with [dup] and [dup3].
    - [FrameAlloc]: the buddy heap, contiguous ranges
      ([k/mm/frame_alloc/buddy_cma.rs]) and the page cache; the interface
      [FrameSource] and its instance.
    - [FramePool]: the interface extended by the release of frames.
    - [PageTable]: Sv39 entries, walks, [map], [unmap], [translate], huge pages
      and the fault handlers, proved against [FrameSource].
    - [MapArea]: [k/mm/map_area.rs], one area with its frames, protection and
      backing.
    - [AreaSet]: the list of areas of an address space ([k/mm/memory_set/]),
      search, insertion, splitting and merging.
    - [AreaPt]: areas together with the page table.
    - [Mmap]: [k/mm/memory_set/mmap_ops.rs], [mmap], [munmap], [mprotect] and
      [mremap] on areas.
    - [Mprotect]: the proofs about [mprotect], and closed examples.
    - [Mmu]: page-table entries as a function of the address space and the page.
    - [Fault]: [k/mm/memory_set/pagefault.rs], [k/mm/page_fault_handler.rs] and
      [k/mm/memory_set/fork_clone.rs], page faults and fork over the areas.
    - [FaultIso], [FaultInv], [FaultWorld]: who refers to a frame; the handlers of
      one page; the handler of an address space.
    - [ForkPages], [ForkAreas], [ForkWorld]: fork by pages, areas and spaces.
    - [Isolation]: systems of address spaces and the properties of faults and fork.
    - [Seccomp]: [k/task/seccomp.rs] and [k/syscall/sys/prctl.rs], the filter
      language, its checker and interpreter, and the policy of a task.
    - [Path]: [k/utils/string.rs], path strings and their normal form.
    - [Timers]: [k/timer/], time values, interval timers, the deadline heap.
    - [Futex], [FutexLife]: [k/task/futex.rs] and the system call; the second
      file has the interleavings of waiters, wakers and exits.
    - [Signal], [SigSend], [SigLife]: [k/signal/] and [k/syscall/signal.rs];
      sets, actions, masks and frames; delivery and [kill]; the life of the
      signal state of a task as a step relation.
    - [ProcTree], [ProcInv], [ProcReach]: [k/task/process/], [k/task/task/clone.rs],
      [k/task/mod.rs] and [k/syscall/task/], processes, their tree, exit, wait,
      sessions and groups; the invariant; what holds in every reachable state.
    - [ProcLife]: the same code cut at its locks, with all interleavings of
      creation, exit and wait.
    - [Memfd]: [k/fs/files/tmp_file.rs], anonymous files with shared mappings
      and seals.
    - [FileCache], [FileCacheInv], [FileCacheOps], [FileCacheLoad]:
      [k/fs/page_cache.rs], the pages of files, who holds them, eviction and loading;
      [FileCacheLife]: its histories.
    - [OsFile], [OsFileSpec], [OsFileWrite], [OsFileRefine]: [k/fs/files/os_file.rs],
      open regular files over the cache and the inode interface, and their refinement
      of flat files.
    - [Mount], [MountSpec], [MountLife]: [k/fs/mount.rs], the mount table, its
      propagation and its quotas.
    - [UnixSock], [UnixInv], [UnixOps], [UnixSpec], [UnixLife]: [k/net/unix.rs],
      AF_UNIX sockets; their invariant, what keeps it, what each operation does, and
      processes that use them.
    - [PosixMq]: [k/fs/files/mqueue.rs] and [k/syscall/fs/mqueue.rs].
    - [Events]: [k/fs/files/events.rs] and [k/fs/files/epoll/], event counters,
      interest lists and scans.

    ** How the code is modelled

    A Rust function is a Rocq function of the same name (with a prefix where two
    methods share one).  A [Result] is [result E A]; a function that may panic
    returns [comp A].  Machine integers are [Z] with the wrap-around written
    out.  A structure is a record, an [enum] an inductive type.  Shared mutable
    state is passed explicitly; where two names can alias (open file
    descriptions, page tables over one memory, tasks in the queue) the state is
    a store and the names are keys.  Code that runs under a lock is one step;
    what can interleave (several processes at a lock table, several harts,
    sleepers and wakers) is a step relation, and a statement about all
    interleavings is an invariant of its reflexive-transitive closure.  The
    clock, credentials and user memory are arguments.

    ** What the theorems show

    - Scheduler: no task is ever held by two harts, and the queue holds a task
      at most once, exactly when its flag says so; [fetch_task] picks the least
      key; virtual time is charged by weight and never goes backwards.  One
      theorem exhibits a queue head that blocks the eligible tasks behind it.
    - Memory: [map] and [unmap] change exactly one page of one address space;
      fork leaves a shared page writable by no one, and the write fault gives
      a private copy; the buddy heap allocates and merges exactly; over any
      history of the frame cache no frame is in use twice and none is lost.
      Two theorems exhibit defects: [mprotect] makes a shared copy-on-write
      page writable, and a refill cut short reports that memory is out.
    - Page faults and fork: in every state a system of address spaces reaches, a
      frame that is written through a private page is mapped by no other page;
      a fault is resolved when and only when the area permits the access (for
      anonymous memory), and changes no other page and no byte in use; an area
      grows down only above a gap; fork shares private pages copy on write and
      shared pages as they are.  A closed example shows a shared area whose
      pages shift in the child.
    - Processes: parents and children mirror each other in every reachable state,
      and the orphans of a process go to the nearest living subreaper or to
      init; [wait4] answers as the manual says, errors included, and reaps a
      child once; the status word round-trips.  With all interleavings, a
      process is in one list of children at a time and only dead ones are
      reaped.  Closed examples show a teardown that runs twice and an adoption
      that loses a wake-up.
    - Locks: [setlk] refines a specification by bytes, whatever it splits and
      merges; record locks, BSD locks and leases exclude each other as the
      manuals say, over all interleavings; the deadlock search is exact for
      the recorded graph, and prevents cycles if polls do not interleave (one
      theorem shows the race if they do).
    - Pipes and queues: reads and writes of a pipe refine a bounded FIFO of
      bytes; [msgrcv] selects what the manual prescribes; byte counters are
      exact in every reachable state.
    - Waiting: a wake after a poll is never lost by [block_on] or by a pipe with
      one reader; closed examples show lost wake-ups in [flock], message
      queues and pipes with two readers.
    - Descriptors: allocation of the lowest number, sharing by [dup],
      close-on-exec.
    - Address spaces: [munmap] and [mprotect] affect exactly the pages of the
      range, whatever they split and merge; [mmap] picks a free range.  Closed
      examples show a fixed mapping that shadows a program segment, an
      [mprotect] that moves frames to the wrong area, and an [munmap] that
      panics.
    - Futexes: a waiter is in the queue of its address in every reachable
      state; wake takes the first waiters that match.  Closed examples show a
      wake-up lost between the comparison and the queueing, one that goes to a
      thread that no longer waits, a timer that panics and a robust list that
      never ends.
    - Signals: [SIGKILL] and [SIGSTOP] cannot be masked or caught, in every
      reachable state; [kill] reaches exactly the permitted targets; sigsuspend
      loses no signal.  Closed examples show a [SIGKILL] lost by the stop
      action, a forged frame that masks [SIGSTOP], and signals above 33 that
      are accepted and dropped.
    - Anonymous files: descriptors and shared mappings together implement a flat
      sequence of bytes; a sealed file never changes, unless [mprotect] made a
      mapping writable before the seal, which one theorem exhibits.
    - Regular files: reads, writes, truncation and mappings through the page cache
      together implement a flat sequence of bytes per file; in every history the
      cache counts its pages and references exactly, evicts exactly what nobody uses,
      and gives each reader the page of the file.
    - Mounts: a mount appears at exactly the places that propagation prescribes, the
      search for them ends, an unmount takes all copies away, and quotas count
      exactly if reservations are taken back by those who made them.  Closed examples
      show a mount that becomes a peer of its parent, peers that are merged, and
      reservations that are counted twice or given back too often.
    - Sockets: over all interleavings of sends, receives and drops the queues of
      AF_UNIX sockets stay within their bound, references, bindings and peers agree,
      nothing panics, nothing leaks, and bytes and messages arrive in order.  Closed
      examples show an end of stream that is not seen, two wake-ups that are lost when
      a socket closes, and a sender that waits for a reader that is gone.
    - POSIX message queues: the call that creates one takes a spin lock twice, so
      that none ever exists; existing ones would be first in, first out.
    - Event counters: no reader or writer sleeps past its wake-up; a scan of an
      epoll instance reports the first ready entries.  Closed examples show
      starvation and edges that are not re-armed.
    - Seccomp: an accepted filter ends on every input with the verdict of the
      reference semantics, and an installed policy never changes.
    - Paths: the result of normalisation is the reference normal form, and
      splitting undoes joining.
    - Timers: an interval timer fires at exactly the polls its deadlines give;
      the heap fires what is due, in order.

    ** Bounds and fuel

    Loops over data recurse on the data.  The wait-graph search has fuel
    [S (S (size graph))], more than the nodes a depth-first search can visit;
    [would_deadlock_spec] proves that it never runs out.  [fetch_loop] runs once
    per queue entry, as the code does.  [run2] runs a loop at most [2 ^ n] times;
    [add_to_heap] uses [2 ^ 64], above the number of words of memory, and is
    proved to end.  The loop of the page cache takes two rounds, proved enough.
    [iter_collect] ends with any fuel above the length of the range.
    [map_direct_loop] takes its fuel as an argument. The loops of [munmap] and
    of the program break run under [run2] with [2 ^ 64], above the number of
    areas a list can have; merging has the length of the list as fuel, each
    round removing an area; [check_timers_loop] has the number of timers, each
    round removing one. A seccomp program runs with its length as fuel, enough
    because jumps go forward only. [handle_futex_death_entry] retries as the
    code does and takes the number of tries as an argument.  The search for a
    reaper has the process number as fuel, enough because parents have smaller
    numbers.  The theorems about faults ask for five free frames and those about
    fork for seven per page and one: a page takes at most two tables and a copy.
    The copies between pages and user buffers and the search for propagation targets
    run under [while_some] with [2 ^ 64], and a decreasing measure is proved for each
    (bytes left; table entries, at most 256).  The capacity of the page cache is a
    parameter.  The drop of a socket has the number of sockets as fuel, enough because
    waiting connections have none of their own.

    ** What is not modelled

    Drivers, sockets other than AF_UNIX, ext4 and the lookup of paths in the VFS,
    the ELF loader and exec, shared memory segments, credentials, the dentry cache,
    most special files, registers in signal frames, the LoongArch port, assembly, TLB
    maintenance and performance counters: they are calls into C or vendored code,
    hardware, or tables without a logic of their own.  Weak memory is not modelled:
    atomics are sequentially consistent.  The page-table layer does not give frames
    back to the allocator. *)

From stdpp Require Export prelude gmap list strings sorting.
From Stdlib Require Export ZArith Lia.

(** ** Notation scope of the development *)

Declare Scope ya2y_scope.
Delimit Scope ya2y_scope with ya2y.
#[global] Open Scope ya2y_scope.
#[global] Open Scope Z_scope.

(** ** Results and panics

    A Rust function that returns [Result<T, E>] is a function into
    [result E T].  A Rust function that may panic ([assert!], [unwrap],
    an index out of range) is a function into [comp T]; both are monads for
    the do-notation [x ← m; k] of stdpp. *)

Inductive result (E A : Type) : Type :=
| Ok (a : A)
| Err (e : E).
Arguments Ok {E A} a.
Arguments Err {E A} e.

Inductive comp (A : Type) : Type :=
| Done (a : A)
| Panic.
Arguments Done {A} a.
Arguments Panic {A}.

#[export] Instance result_ret E : MRet (result E) := λ A a, Ok a.
#[export] Instance result_bind E : MBind (result E) := λ A B f m,
  match m with Ok a => f a | Err e => Err e end.
#[export] Instance result_fmap E : FMap (result E) := λ A B f m,
  match m with Ok a => Ok (f a) | Err e => Err e end.
#[export] Instance comp_ret : MRet comp := λ A a, Done a.
#[export] Instance comp_bind : MBind comp := λ A B f m,
  match m with Done a => f a | Panic => Panic end.
#[export] Instance comp_fmap : FMap comp := λ A B f m,
  match m with Done a => Done (f a) | Panic => Panic end.

#[export] Instance result_eq_dec `{EqDecision E, EqDecision A} :
  EqDecision (result E A).
Proof. solve_decision. Defined.
#[export] Instance comp_eq_dec `{EqDecision A} : EqDecision (comp A).
Proof. solve_decision. Defined.

(** [assert!(b)]: continue or panic. *)
Definition assert_that (b : bool) : comp unit := if b then Done tt else Panic.
Notation "'assert!' b ; k" := (mbind (λ _, k) (assert_that b))
  (at level 20, b at level 100, k at level 200, only parsing) : ya2y_scope.

(** [opt.unwrap()], [opt.expect(_)]. *)
Definition unwrap {A} (o : option A) : comp A :=
  match o with Some a => Done a | None => Panic end.

(** [opt.ok_or(e)]. *)
Definition ok_or {E A} (e : E) (o : option A) : result E A :=
  match o with Some a => Ok a | None => Err e end.

Lemma comp_bind_done {A B} (m : comp A) (f : A → comp B) b :
  m ≫= f = Done b ↔ ∃ a, m = Done a ∧ f a = Done b.
Proof. destruct m as [a|]; simpl; split; intros; destruct_and?; [eauto|naive_solver|done|naive_solver]. Qed.

Lemma result_bind_ok {E A B} (m : result E A) (f : A → result E B) b :
  m ≫= f = Ok b ↔ ∃ a, m = Ok a ∧ f a = Ok b.
Proof. destruct m as [a|]; simpl; split; intros; [eauto|naive_solver|done|naive_solver]. Qed.

Lemma assert_that_done b u : assert_that b = Done u ↔ b = true.
Proof. destruct b, u; simpl; naive_solver. Qed.

Lemma unwrap_done {A} (o : option A) a : unwrap o = Done a ↔ o = Some a.
Proof. destruct o; simpl; naive_solver. Qed.

(** ** Machine integers

    [usize] and [u64] are [Z] values in [0, 2^64).  The kernel is compiled in
    release mode, so [+], [-] and [*] wrap around; the wrapping is written out
    with [wrap64].  Signed 64-bit values are [Z] values in [-2^63, 2^63). *)

Definition usize_max : Z := 18446744073709551615.
Definition i64_max : Z := 9223372036854775807.
Definition i64_min : Z := -9223372036854775808.
Definition i32_max : Z := 2147483647.

Definition wrap64 (z : Z) : Z := z mod 18446744073709551616.
Definition is_usize (z : Z) : Prop := 0 ≤ z ≤ usize_max.
Definition is_i64 (z : Z) : Prop := i64_min ≤ z ≤ i64_max.
Definition is_u32 (z : Z) : Prop := 0 ≤ z < 4294967296.

(** [x as isize] and [x as usize]. *)
Definition to_i64 (z : Z) : Z :=
  let u := wrap64 z in if u <? 9223372036854775808 then u else u - 18446744073709551616.

(** [x as i32] and [x as u32]. *)
Definition as_i32 (z : Z) : Z := let u := z mod 4294967296 in if u <? 2147483648 then u else u - 4294967296.
Definition as_u32 (z : Z) : Z := z mod 4294967296.

(** [a.is_power_of_two()]. *)
Definition is_power_of_two (a : Z) : bool := (0 <? a) && (Z.land a (a - 1) =? 0).

(** [a.checked_add(b)], [a.checked_mul(b)] and [a.checked_sub(b)] on [usize]. *)
Definition checked_add (a b : Z) : option Z :=
  if a + b <=? usize_max then Some (a + b) else None.
Definition checked_mul (a b : Z) : option Z :=
  if a * b <=? usize_max then Some (a * b) else None.
Definition checked_sub (a b : Z) : option Z :=
  if b <=? a then Some (a - b) else None.

(** [a.saturating_sub(b)], [a.saturating_add(b)], [a.saturating_mul(b)] on [usize]. *)
Definition saturating_sub (a b : Z) : Z := Z.max 0 (a - b).
Definition saturating_add (a b : Z) : Z := Z.min usize_max (a + b).
Definition saturating_mul (a b : Z) : Z := Z.min usize_max (a * b).

(** [a.saturating_add(b)], [a.saturating_sub(b)] and [a.saturating_neg()] on [i64]. *)
Definition sat_i64 (z : Z) : Z := Z.max i64_min (Z.min i64_max z).
Definition sat_add_i64 (a b : Z) : Z := sat_i64 (a + b).
Definition sat_sub_i64 (a b : Z) : Z := sat_i64 (a - b).
Definition sat_neg_i64 (a : Z) : Z := sat_i64 (- a).

Lemma wrap64_small z : is_usize z → wrap64 z = z.
Proof. unfold is_usize, usize_max, wrap64. intros. apply Z.mod_small. lia. Qed.

Lemma wrap64_range z : is_usize (wrap64 z).
Proof.
  unfold is_usize, usize_max, wrap64.
  pose proof (Z.mod_pos_bound z 18446744073709551616). lia.
Qed.

Lemma sat_i64_id z : is_i64 z → sat_i64 z = z.
Proof. unfold is_i64, sat_i64. lia. Qed.

Lemma sat_i64_range z : is_i64 (sat_i64 z).
Proof. unfold is_i64, sat_i64, i64_min, i64_max. lia. Qed.

(** ** Bit masks *)

Lemma land_mask z n : 0 ≤ n → Z.land z (2 ^ n - 1) = z mod 2 ^ n.
Proof. intros. rewrite <- Z.land_ones, Z.ones_equiv by done. done. Qed.

Lemma land_bit_range a b n : 0 ≤ n → 0 ≤ b < 2 ^ n → 0 ≤ Z.land a b < 2 ^ n.
Proof.
  intros Hn Hb.
  assert (Z.land a b = Z.land a b mod 2 ^ n) as ->.
  { rewrite <- Z.land_ones, <- Z.land_assoc, Z.land_ones, (Z.mod_small b) by lia. done. }
  apply Z.mod_pos_bound. lia.
Qed.

(** Two naturals with disjoint bits: [lor] is addition. *)
Lemma lor_shiftl_add a b n :
  0 ≤ n → 0 ≤ b < 2 ^ n → Z.lor (Z.shiftl a n) b = a * 2 ^ n + b.
Proof.
  intros Hn Hb. rewrite Z.shiftl_mul_pow2 by done.
  rewrite <- Z.lxor_lor, Z.add_nocarry_lxor; try done.
  all: apply Z.bits_inj'; intros i Hi; rewrite Z.land_spec, Z.bits_0, <- Z.shiftl_mul_pow2 by done.
  all: destruct (decide (i < n)).
  all: try (rewrite Z.shiftl_spec_low by lia; done).
  all: rewrite <- (Z.mod_small b (2 ^ n)) by done.
  all: rewrite Z.mod_pow2_bits_high, andb_false_r by lia; done.
Qed.

(** Sets of the [bitflags] crate: [flags.contains(m)], [flags.intersects(m)],
    [flags.insert(m)] and [flags.remove(m)]. *)
Definition contains (flags m : Z) : bool := Z.land flags m =? m.
Definition intersects (flags m : Z) : bool := negb (Z.land flags m =? 0).
Definition bits_insert (flags m : Z) : Z := Z.lor flags m.
Definition bits_remove (flags m : Z) : Z := Z.land flags (Z.lnot m).

(** A one-bit mask is contained exactly when the bit is set. *)
Lemma contains_bit f n : 0 ≤ n → contains f (2 ^ n) = Z.testbit f n.
Proof.
  intros Hn. unfold contains.
  assert (Z.land f (2 ^ n) = if Z.testbit f n then 2 ^ n else 0) as ->.
  { apply Z.bits_inj'. intros i Hi. rewrite Z.land_spec, Z.pow2_bits_eqb by done.
    destruct (Z.eqb_spec n i) as [->|Hne].
    - destruct (Z.testbit f i); [by rewrite Z.pow2_bits_true by done|by rewrite Z.bits_0].
    - rewrite andb_false_r. destruct (Z.testbit f n); [|by rewrite Z.bits_0].
      rewrite Z.pow2_bits_false; done. }
  destruct (Z.testbit f n); [apply Z.eqb_refl|]. apply Z.eqb_neq.
  pose proof (Z.pow_pos_nonneg 2 n ltac:(lia) Hn). lia.
Qed.

(** ** Options and lists shared by the components *)

(** [iter().position(p)]: index of the first element that satisfies [p]. *)
Fixpoint position {A} (p : A → bool) (l : list A) : option nat :=
  match l with
  | [] => None
  | x :: l => if p x then Some 0%nat else S <$> position p l
  end.

(** The top of a [BinaryHeap] with the order [le], as a list that is not sorted:
    a least element and the others. *)
Fixpoint pop_least {A} (le : A → A → bool) (h : list A) : option (A * list A) :=
  match h with
  | [] => None
  | x :: h =>
      match pop_least le h with
      | None => Some (x, [])
      | Some (y, h') => if le x y then Some (x, h) else Some (y, x :: h')
      end
  end.

Section pop_least.
Context {A : Type} (le : A → A → bool).
Context (le_total : ∀ a b, le a b = true ∨ le b a = true).
Context (le_trans : ∀ a b c, le a b = true → le b c = true → le a c = true).

Lemma pop_least_None h : pop_least le h = None ↔ h = [].
Proof using Type. clear. destruct h as [|x h]; simpl; [done|]. split; [|done]. repeat case_match; done. Qed.

Lemma pop_least_Some h e rest :
  pop_least le h = Some (e, rest) → h ≡ₚ e :: rest ∧ ∀ x, x ∈ h → le e x = true.
Proof using le_total le_trans.
  assert (∀ a, le a a = true) as le_refl by (intros a; by destruct (le_total a a)).
  revert e rest. induction h as [|x h IH]; intros e rest; simpl; [done|].
  destruct (pop_least le h) as [[y h']|] eqn:Ep.
  - destruct (IH y h' eq_refl) as [Hp Hmin]. destruct (le x y) eqn:Ek; intros [= <- <-].
    + split; [done|]. intros z [->|Hz]%elem_of_cons; [done|]. eapply le_trans; [exact Ek|auto].
    + split; [rewrite Hp; constructor|]. intros z [->|Hz]%elem_of_cons; [|auto].
      destruct (le_total x y); congruence.
  - intros [= <- <-]. apply pop_least_None in Ep as ->. split; [done|].
    by intros z ->%list_elem_of_singleton.
Qed.
End pop_least.

(** [Vec::retain(p)] and [iter().filter(p)]. *)
Fixpoint retain {A} (p : A → bool) (l : list A) : list A :=
  match l with
  | [] => []
  | x :: l => if p x then x :: retain p l else retain p l
  end.

(** [Vec::resize(n, d)]: truncate or pad with [d]. *)
Definition vec_resize {A} (n : nat) (d : A) (l : list A) : list A :=
  take n l ++ replicate (n - length l) d.

Section position.
Context {A : Type} (p : A → bool).
Implicit Types l : list A.

Lemma position_Some l i :
  position p l = Some i ↔
  ∃ x, l !! i = Some x ∧ p x = true ∧ ∀ j y, (j < i)%nat → l !! j = Some y → p y = false.
Proof.
  revert i. induction l as [|x l IH]; intros i; simpl.
  { split; [done | intros (?&?&?); done]. }
  destruct (p x) eqn:Hx.
  - split.
    + intros [= <-]. exists x. repeat split; auto. intros. lia.
    + intros (y&Hy&Hp&Hmin). destruct i as [|i]; [done|].
      specialize (Hmin 0%nat x ltac:(lia) eq_refl). congruence.
  - split.
    + intros (i'&Hi&->)%fmap_Some. apply IH in Hi as (y&Hy&Hp&Hmin).
      exists y. repeat split; auto. intros [|j] z ??; simplify_eq/=; auto.
      apply (Hmin j); auto; lia.
    + intros (y&Hy&Hp&Hmin). destruct i as [|i]; [simplify_eq/=; congruence|].
      apply fmap_Some. exists i. split; [|done]. apply IH.
      exists y. repeat split; auto. intros j z ??. apply (Hmin (S j) z); auto; lia.
Qed.

Lemma position_None l : position p l = None ↔ ∀ x, x ∈ l → p x = false.
Proof.
  induction l as [|x l IH]; simpl.
  { split; [|done]. intros _ x []%elem_of_nil. }
  setoid_rewrite elem_of_cons. destruct (p x) eqn:Hx.
  - split; [done|]. intros H. specialize (H x (or_introl eq_refl)). congruence.
  - rewrite fmap_None, IH. split; [intros H y [->|?]; auto | auto].
Qed.

Lemma position_lt l i : position p l = Some i → (i < length l)%nat.
Proof. intros (x&Hx&_)%position_Some. by eapply lookup_lt_Some. Qed.
End position.

Section retain.
Context {A : Type} (p : A → bool).
Implicit Types l : list A.

Lemma elem_of_retain x l : x ∈ retain p l ↔ x ∈ l ∧ p x = true.
Proof.
  induction l as [|y l IH]; simpl.
  { rewrite elem_of_nil. tauto. }
  destruct (p y) eqn:Hy; rewrite ?elem_of_cons, IH; intuition congruence.
Qed.

Lemma retain_all l : (∀ x, x ∈ l → p x = true) → retain p l = l.
Proof.
  induction l as [|y l IH]; simpl; [done|]. intros H.
  rewrite (H y) by left. f_equal. apply IH. intros x Hx. apply H. by right.
Qed.

Lemma retain_sublist l : retain p l `sublist_of` l.
Proof.
  induction l as [|y l IH]; simpl; [done|].
  destruct (p y); by constructor.
Qed.

Lemma retain_app l k : retain p (l ++ k) = retain p l ++ retain p k.
Proof. induction l as [|y l IH]; simpl; [done|]. destruct (p y); simpl; congruence. Qed.

Lemma length_retain l : (length (retain p l) ≤ length l)%nat.
Proof. apply sublist_length, retain_sublist. Qed.

Lemma retain_NoDup l : NoDup l → NoDup (retain p l).
Proof. intros. eapply sublist_NoDup; [done|]. apply retain_sublist. Qed.
End retain.

Lemma retain_ext {A} (p q : A → bool) l : (∀ x, x ∈ l → p x = q x) → retain p l = retain q l.
Proof.
  induction l as [|x l IH]; intros Hpq; simpl; [done|]. rewrite (Hpq x) by set_solver.
  rewrite IH by set_solver. done.
Qed.

Lemma existsb_elem {A} (p : A → bool) l : existsb p l = true ↔ ∃ x, x ∈ l ∧ p x = true.
Proof. rewrite existsb_exists. by setoid_rewrite <- list_elem_of_In. Qed.

Lemma existsb_none {A} (p : A → bool) l : (∀ x, x ∈ l → p x = false) → existsb p l = false.
Proof.
  intros Hl. apply not_true_is_false. rewrite existsb_elem. intros (x&Hx&Hp). rewrite Hl in Hp; done.
Qed.

Lemma elem_of_concat {A} (x : A) ls : x ∈ concat ls ↔ ∃ l, x ∈ l ∧ l ∈ ls.
Proof.
  rewrite list_elem_of_In, in_concat. setoid_rewrite list_elem_of_In. split; intros (l&?&?); eauto.
Qed.

Lemma length_vec_resize {A} n (d : A) l : length (vec_resize n d l) = n.
Proof. unfold vec_resize. rewrite length_app, length_take, length_replicate. lia. Qed.

(** Byte order on strings, the order of a [BTreeMap<String, _>]. *)
Definition string_le (p q : string) : Prop := String.leb p q = true.
#[export] Instance string_le_dec : RelDecision string_le := λ p q, bool_eq_dec _ _.

(** ** Step relations *)

(** Rule induction: an invariant of every step holds of every reachable state. *)
Lemma rtc_invariant {S} (R : relation S) (P : S → Prop) s s' :
  (∀ a b, P a → R a b → P b) → rtc R s s' → P s → P s'.
Proof. intros HP. induction 1; eauto. Qed.

(** ** Loops

    [run2 f n s] runs the body [f] of a [while] loop at most [2 ^ n] times: [f]
    returns the next state or the result.  The bound is exponential so that a
    loop over addresses needs no huge numeral as fuel. *)
Fixpoint run2 {S R} (f : S → S + R) (n : nat) (s : S) : S + R :=
  match n with
  | O => f s
  | Datatypes.S n => match run2 f n s with inl s' => run2 f n s' | inr r => inr r end
  end.

Section run2.
Context {S R : Type} (f : S → S + R) (I : S → Prop) (Q : R → Prop) (size : S → Z).
Context (Hstep : ∀ s s', I s → f s = inl s' → I s' ∧ 0 ≤ size s' < size s).
Context (Hdone : ∀ s r, I s → f s = inr r → Q r).

Lemma run2_progress n s :
  I s → match run2 f n s with
        | inl s' => I s' ∧ 0 ≤ size s' ∧ size s' + 2 ^ Z.of_nat n ≤ size s
        | inr r => Q r
        end.
Proof.
  revert s. induction n as [|n IH]; intros s HI; cbn [run2].
  - destruct (f s) eqn:Hf; [|by eapply Hdone]. destruct (Hstep s s0 HI Hf) as [? ?].
    split; [done|]. simpl. lia.
  - pose proof (IH s HI) as H1. destruct (run2 f n s) as [s1|]; [|done]. destruct H1 as (HI1&H0&H1).
    pose proof (IH s1 HI1) as H2. destruct (run2 f n s1) as [s2|]; [|done]. destruct H2 as (HI2&?&?).
    split; [done|]. split; [done|]. rewrite Nat2Z.inj_succ, Z.pow_succ_r by lia. lia.
Qed.

(** A loop whose size is below the bound ends, and the result is right. *)
Lemma run2_done n s : I s → size s < 2 ^ Z.of_nat n → ∃ r, run2 f n s = inr r ∧ Q r.
Proof.
  intros HI Hs. pose proof (run2_progress n s HI) as H. destruct (run2 f n s) as [s'|r]; [lia|eauto].
Qed.
End run2.

(** [while let Some(i) = guard { body }], cut off after [2 ^ 64] rounds. *)
Definition while_body {S I} (guard : S → option I) (body : S → I → comp S) (s : S) : S + comp S :=
  match guard s with
  | None => inr (Done s)
  | Some i => match body s i with Done s' => inl s' | Panic => inr Panic end
  end.
Definition while_some {S I} (guard : S → option I) (body : S → I → comp S) (s : S) : comp S :=
  match run2 (while_body guard body) 64 s with inl s => Done s | inr r => r end.

(** A loop whose body keeps an invariant and decreases a measure ends with the
    guard false. *)
Lemma while_some_done {S I} (guard : S → option I) (body : S → I → comp S) (Inv : S → Prop) (size : S → Z) s :
  (∀ s i, Inv s → guard s = Some i → ∃ s', body s i = Done s' ∧ Inv s' ∧ 0 ≤ size s' < size s) →
  Inv s → size s < 2 ^ 64 → ∃ s', while_some guard body s = Done s' ∧ Inv s' ∧ guard s' = None.
Proof.
  intros Hbody HI Hs. unfold while_some.
  destruct (run2_done (while_body guard body) Inv
    (λ r, ∃ s', r = Done s' ∧ Inv s' ∧ guard s' = None) size) with (n := 64%nat) (s := s) as (r&->&s'&->&?&?);
    [| |done|done|eauto].
  - intros x x' Hx. unfold while_body. destruct (guard x) as [i|] eqn:Hg; [|done].
    destruct (Hbody x i Hx Hg) as (y&->&?&?). intros [= <-]. done.
  - intros x r Hx. unfold while_body. destruct (guard x) as [i|] eqn:Hg; [|intros [= <-]; eauto].
    destruct (Hbody x i Hx Hg) as (y&->&_). done.
Qed.

(** A filter that keeps fewer elements of a list. *)
Lemma length_filter_lt {A} (P Q : A → Prop) `{!∀ x, Decision (P x), !∀ x, Decision (Q x)} (l : list A) y :
  (∀ x, x ∈ l → Q x → P x) → y ∈ l → P y → ¬ Q y → (length (filter Q l) < length (filter P l))%nat.
Proof.
  intros Himp Hy HP HQ. assert (∀ k, (∀ x, x ∈ k → Q x → P x) → (length (filter Q k) ≤ length (filter P k))%nat) as Hle.
  { induction k as [|x k IH]; intros Hk; [done|]. rewrite !filter_cons. specialize (IH ltac:(set_solver)).
    specialize (Hk x ltac:(set_solver)). repeat case_decide; simpl; tauto || lia. }
  apply list_elem_of_split in Hy as (l1&l2&->). rewrite !filter_app, !filter_cons, !length_app.
  rewrite (decide_True (P := P y)), (decide_False (P := Q y)) by done. simpl.
  pose proof (Hle l1 ltac:(set_solver)). pose proof (Hle l2 ltac:(set_solver)). lia.
Qed.

(** ** Automation *)

(** Splits the boolean guards of the code into propositions. *)
Ltac split_bools :=
  repeat match goal with
  | H : _ && _ = true |- _ => apply andb_true_iff in H as [??]
  | H : _ || _ = false |- _ => apply orb_false_iff in H as [??]
  | H : negb _ = true |- _ => apply negb_true_iff in H
  | H : negb _ = false |- _ => apply negb_false_iff in H
  | H : bool_decide _ = true |- _ => apply bool_decide_eq_true in H
  | H : bool_decide _ = false |- _ => apply bool_decide_eq_false in H
  end.

(** One step of symbolic execution: take apart a finished computation. *)
Ltac exec_step :=
  match goal with
  | H : mbind _ _ = Done _ |- _ => apply comp_bind_done in H as (?&?&?)
  | H : mbind _ _ = Ok _ |- _ => apply result_bind_ok in H as (?&?&?)
  | H : assert_that _ = Done _ |- _ => apply assert_that_done in H
  | H : unwrap _ = Done _ |- _ => apply unwrap_done in H
  | H : Done _ = Done _ |- _ => injection H as H
  | H : Ok _ = Ok _ |- _ => injection H as H
  | H : Panic = Done _ |- _ => discriminate H
  | H : Err _ = Ok _ |- _ => discriminate H
  | H : Ok _ = Err _ |- _ => discriminate H
  end.
Ltac exec := repeat (exec_step; simplify_eq/=).

Create HintDb ya2y.
#[export] Hint Resolve wrap64_range sat_i64_range : ya2y.
