(* ===== verification/Errno.v ===== *)
(** * Error numbers

    [utils/error.rs]: the [SysErrNo] enumeration, the number each variant
    stands for and its message, the result types of the system calls, and the
    encoding of a system-call result into the return register that the trap
    handler uses ([trap/mod.rs]). *)

From S2P Require Import Prelude.

Inductive SysErrNo : Set :=
| EUNDEF
| EPERM
| ENOENT
| ESRCH
| EINTR
| EIO
| ENXIO
| E2BIG
| ENOEXEC
| EBADF
| ECHILD
| EAGAIN
| ENOMEM
| EACCES
| EFAULT
| ENOTBLK
| EBUSY
| EEXIST
| EXDEV
| ENODEV
| ENOTDIR
| EISDIR
| EINVAL
| ENFILE
| EMFILE
| ENOTTY
| ETXTBSY
| EFBIG
| ENOSPC
| ESPIPE
| EROFS
| EMLINK
| EPIPE
| EDOM
| ERANGE
| EDEADLK
| ENAMETOOLONG
| ENOLCK
| ENOSYS
| ENOTEMPTY
| ELOOP
| ENOMSG
| EIDRM
| ECHRNG
| EL2NSYNC
| EL3HLT
| EL3RST
| ELNRNG
| EUNATCH
| ENOCSI
| EL2HLT
| EBADE
| EBADR
| EXFULL
| ENOANO
| EBADRQC
| EBADSLT
| EBFONT
| ENOSTR
| ENODATA
| ETIME
| ENOSR
| ENONET
| ENOPKG
| EREMOTE
| ENOLINK
| EADV
| ESRMNT
| ECOMM
| EPROTO
| EMULTIHOP
| EDOTDOT
| EBADMSG
| EOVERFLOW
| ENOTUNIQ
| EBADFD
| EREMCHG
| ELIBACC
| ELIBBAD
| ELIBSCN
| ELIBMAX
| ELIBEXEC
| EILSEQ
| ERESTART
| ESTRPIPE
| EUSERS
| ENOTSOCK
| EDESTADDRREQ
| EMSGSIZE
| EPROTOTYPE
| ENOPROTOOPT
| EPROTONOSUPPORT
| ESOCKTNOSUPPORT
| EOPNOTSUPP
| EPFNOSUPPORT
| EAFNOSUPPORT
| EADDRINUSE
| EADDRNOTAVAIL
| ENETDOWN
| ENETUNREACH
| ENETRESET
| ECONNABORTED
| ECONNRESET
| ENOBUFS
| EISCONN
| ENOTCONN
| ESHUTDOWN
| ETOOMANYREFS
| ETIMEDOUT
| ECONNREFUSED
| EHOSTDOWN
| EHOSTUNREACH
| EALREADY
| EINPROGRESS
| ESTALE
| EUCLEAN
| ENOTNAM
| ENAVAIL
| EISNAM
| EREMOTEIO
| EDQUOT
| ENOMEDIUM
| EMEDIUMTYPE
| ECANCELED
| ENOKEY
| EKEYEXPIRED
| EKEYREVOKED
| EKEYREJECTED
| EOWNERDEAD
| ENOTRECOVERABLE
| ERFKILL
| EHWPOISON
| Default_.

#[export] Instance SysErrNo_eq_dec : EqDecision SysErrNo.
Proof. solve_decision. Defined.

(** [e as i32]: the discriminant of the variant. *)
Definition errno_code (e : SysErrNo) : Z :=
  match e with
  | EUNDEF => 0
  | EPERM => 1
  | ENOENT => 2
  | ESRCH => 3
  | EINTR => 4
  | EIO => 5
  | ENXIO => 6
  | E2BIG => 7
  | ENOEXEC => 8
  | EBADF => 9
  | ECHILD => 10
  | EAGAIN => 11
  | ENOMEM => 12
  | EACCES => 13
  | EFAULT => 14
  | ENOTBLK => 15
  | EBUSY => 16
  | EEXIST => 17
  | EXDEV => 18
  | ENODEV => 19
  | ENOTDIR => 20
  | EISDIR => 21
  | EINVAL => 22
  | ENFILE => 23
  | EMFILE => 24
  | ENOTTY => 25
  | ETXTBSY => 26
  | EFBIG => 27
  | ENOSPC => 28
  | ESPIPE => 29
  | EROFS => 30
  | EMLINK => 31
  | EPIPE => 32
  | EDOM => 33
  | ERANGE => 34
  | EDEADLK => 35
  | ENAMETOOLONG => 36
  | ENOLCK => 37
  | ENOSYS => 38
  | ENOTEMPTY => 39
  | ELOOP => 40
  | ENOMSG => 42
  | EIDRM => 43
  | ECHRNG => 44
  | EL2NSYNC => 45
  | EL3HLT => 46
  | EL3RST => 47
  | ELNRNG => 48
  | EUNATCH => 49
  | ENOCSI => 50
  | EL2HLT => 51
  | EBADE => 52
  | EBADR => 53
  | EXFULL => 54
  | ENOANO => 55
  | EBADRQC => 56
  | EBADSLT => 57
  | EBFONT => 59
  | ENOSTR => 60
  | ENODATA => 61
  | ETIME => 62
  | ENOSR => 63
  | ENONET => 64
  | ENOPKG => 65
  | EREMOTE => 66
  | ENOLINK => 67
  | EADV => 68
  | ESRMNT => 69
  | ECOMM => 70
  | EPROTO => 71
  | EMULTIHOP => 72
  | EDOTDOT => 73
  | EBADMSG => 74
  | EOVERFLOW => 75
  | ENOTUNIQ => 76
  | EBADFD => 77
  | EREMCHG => 78
  | ELIBACC => 79
  | ELIBBAD => 80
  | ELIBSCN => 81
  | ELIBMAX => 82
  | ELIBEXEC => 83
  | EILSEQ => 84
  | ERESTART => 85
  | ESTRPIPE => 86
  | EUSERS => 87
  | ENOTSOCK => 88
  | EDESTADDRREQ => 89
  | EMSGSIZE => 90
  | EPROTOTYPE => 91
  | ENOPROTOOPT => 92
  | EPROTONOSUPPORT => 93
  | ESOCKTNOSUPPORT => 94
  | EOPNOTSUPP => 95
  | EPFNOSUPPORT => 96
  | EAFNOSUPPORT => 97
  | EADDRINUSE => 98
  | EADDRNOTAVAIL => 99
  | ENETDOWN => 100
  | ENETUNREACH => 101
  | ENETRESET => 102
  | ECONNABORTED => 103
  | ECONNRESET => 104
  | ENOBUFS => 105
  | EISCONN => 106
  | ENOTCONN => 107
  | ESHUTDOWN => 108
  | ETOOMANYREFS => 109
  | ETIMEDOUT => 110
  | ECONNREFUSED => 111
  | EHOSTDOWN => 112
  | EHOSTUNREACH => 113
  | EALREADY => 114
  | EINPROGRESS => 115
  | ESTALE => 116
  | EUCLEAN => 117
  | ENOTNAM => 118
  | ENAVAIL => 119
  | EISNAM => 120
  | EREMOTEIO => 121
  | EDQUOT => 122
  | ENOMEDIUM => 123
  | EMEDIUMTYPE => 124
  | ECANCELED => 125
  | ENOKEY => 126
  | EKEYEXPIRED => 127
  | EKEYREVOKED => 128
  | EKEYREJECTED => 129
  | EOWNERDEAD => 130
  | ENOTRECOVERABLE => 131
  | ERFKILL => 132
  | EHWPOISON => 133
  | Default_ => 255
  end.

(** [SysErrNo::str]; the catch-all variant panics. *)
Definition errno_str (e : SysErrNo) : comp string :=
  match e with
  | EUNDEF => Done "Undefined"
  | EPERM => Done "Operation not permitted"
  | ENOENT => Done "No such file or directory"
  | ESRCH => Done "No such process"
  | EINTR => Done "Interrupted system call"
  | EIO => Done "I/O error"
  | ENXIO => Done "No such device or address"
  | E2BIG => Done "Argument list too long"
  | ENOEXEC => Done "Exec format error"
  | EBADF => Done "Bad file number"
  | ECHILD => Done "No child processes"
  | EAGAIN => Done "Try again"
  | ENOMEM => Done "Out of memory"
  | EACCES => Done "Permission denied"
  | EFAULT => Done "Bad address"
  | ENOTBLK => Done "Block device required"
  | EBUSY => Done "Device or resource busy"
  | EEXIST => Done "File exists"
  | EXDEV => Done "Cross-device link"
  | ENODEV => Done "No such device"
  | ENOTDIR => Done "Not a directory"
  | EISDIR => Done "Is a directory"
  | EINVAL => Done "Invalid argument"
  | ENFILE => Done "File table overflow"
  | EMFILE => Done "Too many open files"
  | ENOTTY => Done "Not a typewriter"
  | ETXTBSY => Done "Text file busy"
  | EFBIG => Done "File too large"
  | ENOSPC => Done "No space left on device"
  | ESPIPE => Done "Illegal seek"
  | EROFS => Done "Read-only file system"
  | EMLINK => Done "Too many links"
  | EPIPE => Done "Broken pipe"
  | EDOM => Done "Math argument out of domain of func"
  | ERANGE => Done "Math result not representable"
  | EDEADLK => Done "Resource deadlock would occur"
  | ENAMETOOLONG => Done "File name too long"
  | ENOLCK => Done "Norecord locks available"
  | ENOSYS => Done "Function not implemented"
  | ENOTEMPTY => Done "Directory not empty"
  | ELOOP => Done "Toomany symbolic links encountereds"
  | ENOMSG => Done "No message of desired type"
  | EIDRM => Done "Identifier removed"
  | ECHRNG => Done "Channel number out of range"
  | EL2NSYNC => Done "Level 2 not synchronized"
  | EL3HLT => Done "Level 3 halted"
  | EL3RST => Done "Level 3 reset"
  | ELNRNG => Done "Link number out of range"
  | EUNATCH => Done "Protocol driver not attached"
  | ENOCSI => Done "No CSI structure available"
  | EL2HLT => Done "Level 2 halted"
  | EBADE => Done "Invalid exchange"
  | EBADR => Done "Invalid request descriptor"
  | EXFULL => Done "Exchange full"
  | ENOANO => Done "No anode"
  | EBADRQC => Done "Invalid request code"
  | EBADSLT => Done "Invalid slot"
  | EBFONT => Done "Bad font file format"
  | ENOSTR => Done "Device not a stream"
  | ENODATA => Done "No data available"
  | ETIME => Done "Timer expired"
  | ENOSR => Done "Out of streams resources"
  | ENONET => Done "Machine is not on the network"
  | ENOPKG => Done "Package not installed"
  | EREMOTE => Done "Object is remote"
  | ENOLINK => Done "Link has been severed"
  | EADV => Done "Advertise error"
  | ESRMNT => Done "Srmount error"
  | ECOMM => Done "Communication error on send"
  | EPROTO => Done "Protocol error"
  | EMULTIHOP => Done "Multihop attempted"
  | EDOTDOT => Done "RFS specific error"
  | EBADMSG => Done "Not a data message"
  | EOVERFLOW => Done "Value too large for defined data type"
  | ENOTUNIQ => Done "Name not unique on network"
  | EBADFD => Done "File descriptor in bad state"
  | EREMCHG => Done "Remote address changed"
  | ELIBACC => Done "Can not access a needed shared library"
  | ELIBBAD => Done "Accessing a corrupted shared library"
  | ELIBSCN => Done ".lib section in a.out corrupted"
  | ELIBMAX => Done "Attempting to link in too many shared libraries"
  | ELIBEXEC => Done "Cannot exec a shared library directly"
  | EILSEQ => Done "Illegal byte sequence"
  | ERESTART => Done "Interrupted system call should be restarted"
  | ESTRPIPE => Done "Streams pipe error"
  | EUSERS => Done "Too many users"
  | ENOTSOCK => Done "Socket operation on non-socket"
  | EDESTADDRREQ => Done "Destination address required"
  | EMSGSIZE => Done "Message too long"
  | EPROTOTYPE => Done "Protocol wrong type for socket"
  | ENOPROTOOPT => Done "Protocol not available"
  | EPROTONOSUPPORT => Done "Protocol not supported"
  | ESOCKTNOSUPPORT => Done "Socket type not supported"
  | EOPNOTSUPP => Done "Operation not supported on transport endpoint"
  | EPFNOSUPPORT => Done "Protocol family not supported"
  | EAFNOSUPPORT => Done "Address family not supported by protocol"
  | EADDRINUSE => Done "Address already in use"
  | EADDRNOTAVAIL => Done "Cannot assign requested address"
  | ENETDOWN => Done "Network is down"
  | ENETUNREACH => Done "Network is unreachable"
  | ENETRESET => Done "Network dropped connection because of reset"
  | ECONNABORTED => Done "Software caused connection abort"
  | ECONNRESET => Done "Connection reset by peer"
  | ENOBUFS => Done "No buffer space available"
  | EISCONN => Done "Transport endpoint is already connected"
  | ENOTCONN => Done "Transport endpoint is not connected"
  | ESHUTDOWN => Done "Cannot send after transport endpoint shutdown"
  | ETOOMANYREFS => Done "Too many references: cannot splice"
  | ETIMEDOUT => Done "Connection timed out"
  | ECONNREFUSED => Done "Connection refused"
  | EHOSTDOWN => Done "Host is down"
  | EHOSTUNREACH => Done "No route to host"
  | EALREADY => Done "Operation already in progress"
  | EINPROGRESS => Done "Operation now in progress"
  | ESTALE => Done "Stale file handle"
  | EUCLEAN => Done "Structure needs cleaning"
  | ENOTNAM => Done "Not a XENIX named type file"
  | ENAVAIL => Done "No XENIX semaphores available"
  | EISNAM => Done "Is a named type file"
  | EREMOTEIO => Done "Remote I/O error"
  | EDQUOT => Done "Quota exceeded"
  | ENOMEDIUM => Done "No medium found"
  | EMEDIUMTYPE => Done "Wrong medium type"
  | ECANCELED => Done "Operation Canceled"
  | ENOKEY => Done "Required key not available"
  | EKEYEXPIRED => Done "Key has expired"
  | EKEYREVOKED => Done "Key has been revoked"
  | EKEYREJECTED => Done "Key was rejected by service"
  | EOWNERDEAD => Done "Owner died (for robust mutexes)"
  | ENOTRECOVERABLE => Done "State not recoverable"
  | ERFKILL => Done "Operation not possible due to RF-kill"
  | EHWPOISON => Done "Memory page has hardware error"
  | Default_ => Panic
  end.

(** [SyscallRet] and [SysResult<T>]. *)
Notation SyscallRet := (result SysErrNo Z).
Notation SysResult := (result SysErrNo).

(** The value the trap handler stores in the return register:
    [Ok(ret) => ret, Err(errno) => -(errno as isize) as usize]. *)
Definition encode_ret (r : SyscallRet) : Z :=
  match r with
  | Ok ret => ret
  | Err e => wrap64 (- errno_code e)
  end.

(** ** Facts *)

(** All the variants, to decode a number again. *)
Definition all_errnos : list SysErrNo :=
  [EUNDEF; EPERM; ENOENT; ESRCH; EINTR; EIO; ENXIO; E2BIG; ENOEXEC; EBADF;
   ECHILD; EAGAIN; ENOMEM; EACCES; EFAULT; ENOTBLK; EBUSY; EEXIST; EXDEV;
   ENODEV; ENOTDIR; EISDIR; EINVAL; ENFILE; EMFILE; ENOTTY; ETXTBSY; EFBIG;
   ENOSPC; ESPIPE; EROFS; EMLINK; EPIPE; EDOM; ERANGE; EDEADLK; ENAMETOOLONG;
   ENOLCK; ENOSYS; ENOTEMPTY; ELOOP; ENOMSG; EIDRM; ECHRNG; EL2NSYNC; EL3HLT;
   EL3RST; ELNRNG; EUNATCH; ENOCSI; EL2HLT; EBADE; EBADR; EXFULL; ENOANO;
   EBADRQC; EBADSLT; EBFONT; ENOSTR; ENODATA; ETIME; ENOSR; ENONET; ENOPKG;
   EREMOTE; ENOLINK; EADV; ESRMNT; ECOMM; EPROTO; EMULTIHOP; EDOTDOT;
   EBADMSG; EOVERFLOW; ENOTUNIQ; EBADFD; EREMCHG; ELIBACC; ELIBBAD; ELIBSCN;
   ELIBMAX; ELIBEXEC; EILSEQ; ERESTART; ESTRPIPE; EUSERS; ENOTSOCK;
   EDESTADDRREQ; EMSGSIZE; EPROTOTYPE; ENOPROTOOPT; EPROTONOSUPPORT;
   ESOCKTNOSUPPORT; EOPNOTSUPP; EPFNOSUPPORT; EAFNOSUPPORT; EADDRINUSE;
   EADDRNOTAVAIL; ENETDOWN; ENETUNREACH; ENETRESET; ECONNABORTED; ECONNRESET;
   ENOBUFS; EISCONN; ENOTCONN; ESHUTDOWN; ETOOMANYREFS; ETIMEDOUT;
   ECONNREFUSED; EHOSTDOWN; EHOSTUNREACH; EALREADY; EINPROGRESS; ESTALE;
   EUCLEAN; ENOTNAM; ENAVAIL; EISNAM; EREMOTEIO; EDQUOT; ENOMEDIUM;
   EMEDIUMTYPE; ECANCELED; ENOKEY; EKEYEXPIRED; EKEYREVOKED; EKEYREJECTED;
   EOWNERDEAD; ENOTRECOVERABLE; ERFKILL; EHWPOISON; Default_].

Definition errno_of_code (c : Z) : option SysErrNo :=
  head (retain (λ e, errno_code e =? c) all_errnos).

Lemma errno_of_code_code e : errno_of_code (errno_code e) = Some e.
Proof. destruct e; reflexivity. Qed.

#[export] Instance errno_code_inj : Inj (=) (=) errno_code.
Proof.
  intros e1 e2 H. apply (f_equal errno_of_code) in H.
  rewrite !errno_of_code_code in H. by injection H.
Qed.

Lemma errno_code_range e : 0 ≤ errno_code e ≤ 255.
Proof. destruct e; simpl; lia. Qed.

Lemma encode_err e : e ≠ EUNDEF → encode_ret (Err e) = 18446744073709551616 - errno_code e.
Proof.
  intros He. simpl. unfold wrap64.
  assert (0 < errno_code e).
  { pose proof (errno_code_range e). destruct (decide (errno_code e = 0)) as [H0|]; [|lia].
    destruct He. apply (inj errno_code). done. }
  pose proof (errno_code_range e).
  symmetry. apply (Z.mod_unique _ _ (-1)); lia.
Qed.

(** The return register is unambiguous: two system-call results that put
    the same value in the register are the same result, provided a successful
    value stays below the top 255 values of [usize] and no error is the
    placeholder [EUNDEF] (number 0, which user space would read as success). *)
Theorem encode_ret_inj (r1 r2 : SyscallRet) :
  (∀ v, r1 = Ok v ∨ r2 = Ok v → 0 ≤ v < 18446744073709551616 - 255) →
  r1 ≠ Err EUNDEF → r2 ≠ Err EUNDEF →
  encode_ret r1 = encode_ret r2 → r1 = r2.
Proof.
  intros Hok H1 H2. destruct r1 as [v1|e1], r2 as [v2|e2].
  - simpl. congruence.
  - rewrite encode_err by congruence. simpl.
    pose proof (errno_code_range e2). specialize (Hok v1). intuition lia.
  - rewrite encode_err by congruence. simpl.
    pose proof (errno_code_range e1). specialize (Hok v2). intuition lia.
  - rewrite !encode_err by congruence. intros H.
    f_equal. apply (inj errno_code). lia.
Qed.

