(* ===== verification/Bytes.v ===== *)
(** * Byte sequences

    What the components that hold file data share: the parts of a sequence of
    bytes and the update of a part, as [copy_from_slice] on a subslice does it. *)

From S2P Require Import Prelude.

Definition data_len (d : list Z) : Z := Z.of_nat (length d).

(** [data[start..start + bytes.len()].copy_from_slice(bytes)]. *)
Definition splice (d : list Z) (start : Z) (bytes : list Z) : list Z :=
  take (Z.to_nat start) d ++ bytes ++ drop (Z.to_nat start + length bytes) d.
Definition slice (d : list Z) (start len : Z) : list Z := take (Z.to_nat len) (drop (Z.to_nat start) d).
Definition zeros (n : Z) : list Z := replicate (Z.to_nat n) 0.

Lemma length_splice d s b : 0 ≤ s → (Z.to_nat s + length b ≤ length d)%nat → length (splice d s b) = length d.
Proof. intros Hs Hl. unfold splice. rewrite !length_app, length_take, length_drop. lia. Qed.

Lemma lookup_splice d s b i : 0 ≤ s → (Z.to_nat s + length b ≤ length d)%nat →
  splice d s b !! i =
  (if decide (Z.to_nat s ≤ i < Z.to_nat s + length b)%nat then b !! (i - Z.to_nat s)%nat else d !! i).
Proof.
  intros Hs Hl. unfold splice. assert (length (take (Z.to_nat s) d) = Z.to_nat s) as Ht by (rewrite length_take; lia).
  destruct (decide (i < Z.to_nat s)%nat) as [Hi|Hi].
  - rewrite lookup_app_l, lookup_take_lt by lia. by rewrite decide_False by lia.
  - rewrite lookup_app_r by lia. rewrite Ht. case_decide.
    + by rewrite lookup_app_l by lia.
    + rewrite lookup_app_r by lia. rewrite lookup_drop. f_equal. lia.
Qed.

Lemma lookup_slice d s n i : 0 ≤ s → (i < Z.to_nat n)%nat → slice d s n !! i = d !! (Z.to_nat s + i)%nat.
Proof. intros Hs Hi. unfold slice. by rewrite lookup_take_lt, lookup_drop by done. Qed.

Lemma length_slice d s n : 0 ≤ s → 0 ≤ n → s + n ≤ data_len d → length (slice d s n) = Z.to_nat n.
Proof. unfold slice, data_len. intros. rewrite length_take, length_drop. lia. Qed.

Lemma length_splice_Z d s b : 0 ≤ s → s + data_len b ≤ data_len d → data_len (splice d s b) = data_len d.
Proof. intros. unfold data_len in *. rewrite length_splice; lia. Qed.


Lemma data_len_zeros n : 0 ≤ n → data_len (zeros n) = n.
Proof. intros. unfold data_len, zeros. rewrite length_replicate. lia. Qed.
