(* ===== verification/RefCount.v ===== *)
(** * Reference counts

    The references that the users of a shared object hold, as a function from its
    number to a count; used where the code counts them with an [Arc]. *)

From S2P Require Import Prelude.

Definition bump (h : Z → nat) (f : Z) : Z → nat := λ g, if decide (g = f) then S (h g) else h g.
Fixpoint bumps (h : Z → nat) (fs : list Z) : Z → nat :=
  match fs with [] => h | f :: fs => bump (bumps h fs) f end.

Lemma bump_eq h f : bump h f f = S (h f).
Proof. unfold bump. by rewrite decide_True. Qed.
Lemma bump_ne h f g : g ≠ f → bump h f g = h g.
Proof. intros. unfold bump. by rewrite decide_False. Qed.
Lemma bumps_mono h fs g : (h g ≤ bumps h fs g)%nat.
Proof. induction fs as [|f fs IH]; simpl; [lia|]. unfold bump. case_decide; lia. Qed.
Lemma bumps_elem h fs g : g ∈ fs → (0 < bumps h fs g)%nat.
Proof.
  induction fs as [|f fs IH]; [by intros ?%elem_of_nil|]. simpl. intros [->|Hg]%elem_of_cons; [rewrite bump_eq; lia|].
  specialize (IH Hg). unfold bump. case_decide; lia.
Qed.
Lemma bumps_app h fs gs g : bumps h (fs ++ gs) g = bumps (bumps h gs) fs g.
Proof. revert g. induction fs as [|f fs IH]; intros g; [done|]. simpl. unfold bump. rewrite IH. done. Qed.

Lemma bumps_NoDup h fs g : NoDup fs → bumps h fs g = ((if decide (g ∈ fs) then 1 else 0) + h g)%nat.
Proof.
  induction fs as [|f fs IH]; intros Hnd; [done|]. apply NoDup_cons in Hnd as [Hf Hnd]. simpl. unfold bump. rewrite IH by done.
  destruct (decide (g = f)) as [->|Hn]; [rewrite decide_False by done; rewrite decide_True by (by left); lia|].
  destruct (decide (g ∈ fs)); [by rewrite decide_True by (by right)|]. by rewrite decide_False by (by intros [?|?]%elem_of_cons).
Qed.

(** A reference that is there or not. *)
Definition one_if (P : Prop) `{!Decision P} : nat := if decide P then 1%nat else 0%nat.
Lemma one_if_ext (P Q : Prop) `{!Decision P, !Decision Q} : (P ↔ Q) → one_if P = one_if Q.
Proof. intros H. unfold one_if. destruct (decide P), (decide Q); tauto. Qed.
Lemma one_if_yes (P : Prop) `{!Decision P} : P → one_if P = 1%nat.
Proof. intros H. unfold one_if. by rewrite decide_True. Qed.
Lemma one_if_no (P : Prop) `{!Decision P} : ¬ P → one_if P = 0%nat.
Proof. intros H. unfold one_if. by rewrite decide_False. Qed.
Lemma bumps_count h fs g : bumps h fs g = (h g + count_occ Z.eq_dec fs g)%nat.
Proof. induction fs as [|f fs IH]; simpl; [lia|]. unfold bump. destruct (Z.eq_dec f g), (decide (g = f)); try congruence; lia. Qed.
Lemma bumps_bump h fs f g : bumps (bump h f) fs g = bump (bumps h fs) f g.
Proof. unfold bump at 2. rewrite !bumps_count. unfold bump. case_decide; lia. Qed.
(** One reference less. *)
Definition unbump (h : Z → nat) (f : Z) : Z → nat := λ g, if decide (g = f) then (h g - 1)%nat else h g.
