(* ===== verification/Address.v ===== *)
(** * Addresses and page numbers

    [mm/address.rs], [utils/simple_range.rs] and the page geometry and kernel
    offset of the RISC-V build ([arch/riscv64/page_geometry.rs],
    [arch/riscv64/qemu/memory_layout.rs]).

    The newtypes [PhysAddr], [VirtAddr], [KernelAddr], [PhysPageNum] and
    [VirtPageNum] wrap a [usize]; a value is its number.  A conversion that
    asserts returns [comp]; arithmetic wraps as in the release build. *)

From S2P Require Import Prelude.

(** ** Page geometry *)

Definition PAGE_SIZE : Z := 4096.
Definition PAGE_SIZE_BITS : Z := 12.
Definition HUGE_PAGE_SIZE : Z := 2097152.
Definition HUGE_PAGE_PAGES : Z := HUGE_PAGE_SIZE / PAGE_SIZE.
Definition KERNEL_ADDR_OFFSET : Z := 18446743798831644672.
Definition KERNEL_PGNUM_OFFSET : Z := Z.shiftr KERNEL_ADDR_OFFSET PAGE_SIZE_BITS.

Definition PA_WIDTH_SV39 : Z := 56.
Definition VA_WIDTH_SV39 : Z := 39.
Definition PPN_WIDTH_SV39 : Z := PA_WIDTH_SV39 - PAGE_SIZE_BITS.

(** ** Conversions from and to [usize] *)

(** [(v as isize >> width)] is 0 or -1. *)
Definition sign_extends (width v : Z) : bool :=
  let tmp := Z.shiftr (to_i64 v) width in (tmp =? 0) || (tmp =? -1).

Definition phys_addr_from_usize (v : Z) : comp Z :=
  assert! (sign_extends PA_WIDTH_SV39 v); mret v.

Definition phys_page_num_from_usize (v : Z) : comp Z :=
  assert! (sign_extends PPN_WIDTH_SV39 v); mret v.

(** [VirtAddr::try_from]. *)
Definition virt_addr_try_from (v : Z) : option Z :=
  if sign_extends VA_WIDTH_SV39 v then Some v else None.

Definition virt_addr_from_usize (v : Z) : comp Z :=
  assert! (sign_extends VA_WIDTH_SV39 v); mret v.

Definition virt_page_num_from_usize (v : Z) : Z := v.

(** [usize::from(VirtAddr)]: the upper half is sign-extended. *)
Definition usize_from_virt_addr (v : Z) : Z :=
  if Z.shiftl 1 (VA_WIDTH_SV39 - 1) <=? v
  then Z.lor v (wrap64 (Z.lnot (Z.shiftl 1 VA_WIDTH_SV39 - 1)))
  else v.

(** ** The direct map *)

Definition kernel_addr_from_phys (v : Z) : Z := wrap64 (v + KERNEL_ADDR_OFFSET).
Definition phys_addr_from_kernel (v : Z) : Z := wrap64 (v - KERNEL_ADDR_OFFSET).

(** ** Page arithmetic; the methods of [VirtAddr] and [PhysAddr] coincide *)

Definition floor (a : Z) : Z := a / PAGE_SIZE.
Definition ceil (a : Z) : Z :=
  if a =? 0 then 0 else wrap64 (a - 1 + PAGE_SIZE) / PAGE_SIZE.
Definition page_offset (a : Z) : Z := Z.land a (PAGE_SIZE - 1).
Definition aligned (a : Z) : bool := page_offset a =? 0.

Definition phys_page_num_from_kernel (v : Z) : Z := floor (phys_addr_from_kernel v).

(** [VirtPageNum::from(VirtAddr)] and [PhysPageNum::from(PhysAddr)]. *)
Definition page_num_from_addr (a : Z) : comp Z :=
  assert! (page_offset a =? 0); mret (floor a).

(** [VirtAddr::from(VirtPageNum)] and [PhysAddr::from(PhysPageNum)]. *)
Definition addr_from_page_num (n : Z) : Z := wrap64 (Z.shiftl n PAGE_SIZE_BITS).

(** [VirtPageNum::indexes]: the loop fills the array from the last index. *)
Fixpoint indexes_loop (i : nat) (vpn : Z) (idx : list Z) : list Z :=
  match i with
  | O => idx
  | S i => indexes_loop i (Z.shiftr vpn 9) (<[i := Z.land vpn 511]> idx)
  end.
Definition indexes (vpn : Z) : list Z := indexes_loop 3 vpn [0; 0; 0].

(** ** [SimpleRange] over page numbers *)

Record SimpleRange : Type := mkRange { range_start : Z; range_end : Z }.
Notation VPNRange := SimpleRange.

#[export] Instance SimpleRange_eq_dec : EqDecision SimpleRange.
Proof. solve_decision. Defined.

Definition range_new (start end_ : Z) : comp SimpleRange :=
  assert! (start <=? end_); mret (mkRange start end_).

Definition contains_vpn (r : SimpleRange) (vpn : Z) : bool :=
  (range_start r <=? vpn) && (vpn <? range_end r).

(** [SimpleRangeIterator]: the current position and the end. *)
Record RangeIter : Type := mkIter { it_current : Z; it_end : Z }.

(** [StepByOne::step]. *)
Definition step (n : Z) : Z := wrap64 (n + 1).

Definition into_iter (r : SimpleRange) : RangeIter := mkIter (range_start r) (range_end r).
Definition iter_next (it : RangeIter) : option Z * RangeIter :=
  if it_current it =? it_end it then (None, it)
  else (Some (it_current it), mkIter (step (it_current it)) (it_end it)).

(** [for x in range]: runs the iterator for at most [fuel] calls of [next]. *)
Fixpoint iter_collect (fuel : nat) (it : RangeIter) : option (list Z) :=
  match fuel with
  | O => None
  | S fuel =>
      match iter_next it with
      | (None, _) => Some []
      | (Some x, it') => (x ::.) <$> iter_collect fuel it'
      end
  end.

(** ** Facts *)

Ltac unfold_address :=
  unfold floor, ceil, page_offset, aligned, page_num_from_addr, addr_from_page_num,
    kernel_addr_from_phys, phys_addr_from_kernel, PAGE_SIZE, PAGE_SIZE_BITS,
    KERNEL_ADDR_OFFSET, is_usize, usize_max in *.

Lemma page_offset_mod a : page_offset a = a mod PAGE_SIZE.
Proof. apply (land_mask a 12). lia. Qed.

Lemma floor_spec a : floor a * PAGE_SIZE ≤ a < (floor a + 1) * PAGE_SIZE.
Proof. unfold_address. pose proof (Z.div_mod a 4096). pose proof (Z.mod_pos_bound a 4096). lia. Qed.

Lemma ceil_spec a : 0 ≤ a ≤ usize_max - (PAGE_SIZE - 1) → ceil a = (a + PAGE_SIZE - 1) / PAGE_SIZE.
Proof.
  unfold ceil. intros Ha. destruct (Z.eqb_spec a 0) as [->|]; [reflexivity|].
  rewrite wrap64_small; [f_equal; lia|]. unfold_address. lia.
Qed.

Lemma addr_from_page_num_small n : 0 ≤ n < 2 ^ 52 → addr_from_page_num n = n * PAGE_SIZE.
Proof.
  intros. unfold addr_from_page_num. rewrite Z.shiftl_mul_pow2 by (unfold PAGE_SIZE_BITS; lia).
  apply wrap64_small. unfold_address. lia.
Qed.

Lemma sign_extends_spec w v :
  0 < w < 63 → is_usize v →
  sign_extends w v = true ↔ v < 2 ^ w ∨ 18446744073709551616 - 2 ^ w ≤ v.
Proof.
  intros Hw Hv. unfold sign_extends, to_i64. rewrite wrap64_small by done.
  rewrite orb_true_iff, !Z.eqb_eq, Z.shiftr_div_pow2 by lia.
  unfold is_usize, usize_max in Hv.
  assert (0 < 2 ^ w < 2 ^ 63) as Hp.
  { split; [apply Z.pow_pos_nonneg; lia | apply Z.pow_lt_mono_r; lia]. }
  change (2 ^ 63) with 9223372036854775808 in Hp.
  set (p := 2 ^ w) in *. clearbody p. clear w Hw.
  set (x := if _ <? _ then _ else _).
  assert (x = v ∧ v < 9223372036854775808 ∨ x = v - 18446744073709551616 ∧ 9223372036854775808 ≤ v) as Hx.
  { subst x. case_match; lia. }
  clearbody x. pose proof (Z.div_mod x p ltac:(lia)). pose proof (Z.mod_pos_bound x p ltac:(lia)).
  split; intros.
  - nia.
  - assert (- p ≤ x < p) by lia. nia.
Qed.

Lemma indexes_eq vpn :
  indexes vpn = [Z.land (Z.shiftr vpn 18) 511; Z.land (Z.shiftr vpn 9) 511; Z.land vpn 511].
Proof.
  unfold indexes. simpl. rewrite Z.shiftr_shiftr by lia. done.
Qed.

Lemma indexes_mod vpn :
  indexes vpn = [(vpn / 2 ^ 18) mod 512; (vpn / 2 ^ 9) mod 512; vpn mod 512].
Proof.
  rewrite indexes_eq, !(land_mask _ 9), !Z.shiftr_div_pow2 by lia. done.
Qed.

Lemma indexes_range vpn i : i ∈ indexes vpn → 0 ≤ i < 512.
Proof.
  rewrite indexes_mod, !elem_of_cons, elem_of_nil.
  intros [->|[->|[->|[]]]]; apply Z.mod_pos_bound; lia.
Qed.

(** ** Properties *)

(** [VirtPageNum::indexes] is a faithful base-512 decomposition: the three
    indexes are in range for a 512-entry table and determine the low 27 bits
    of the page number, so two pages of an Sv39 space never share a slot. *)
Lemma indexes_decompose (vpn : Z) :
  ∃ i0 i1 i2, indexes vpn = [i0; i1; i2] ∧
    0 ≤ i0 < 512 ∧ 0 ≤ i1 < 512 ∧ 0 ≤ i2 < 512 ∧
    vpn mod 2 ^ 27 = i0 * 2 ^ 18 + i1 * 2 ^ 9 + i2.
Proof.
  eexists _, _, _. split; [apply indexes_mod|].
  do 3 (split; [apply Z.mod_pos_bound; lia|]).
  change (2 ^ 27) with (2 ^ 9 * (2 ^ 9 * 2 ^ 9)). change 512 with (2 ^ 9).
  rewrite !Z.rem_mul_r by lia. change (2 ^ 18) with (2 ^ 9 * 2 ^ 9).
  rewrite <- Z.div_div by lia. lia.
Qed.

(** Page numbers and page-aligned addresses are in bijection: a page
    number below 2^52 converts to an address and back without a panic, and an
    address that converts to a page number is recovered from it. *)
Lemma page_addr_round_trip (n a : Z) :
  0 ≤ n < 2 ^ 52 → is_usize a →
  page_num_from_addr (addr_from_page_num n) = Done n ∧
  (∀ m, page_num_from_addr a = Done m → addr_from_page_num m = a ∧ aligned a = true).
Proof.
  intros Hn Ha. split.
  - rewrite addr_from_page_num_small by done. unfold page_num_from_addr.
    rewrite page_offset_mod, Z.mod_mul by done. simpl. unfold mret, comp_ret, floor.
    rewrite Z.div_mul by done. done.
  - intros m Hm. unfold page_num_from_addr in Hm. exec.
    match goal with H : (page_offset _ =? 0) = true |- _ => rename H into Hoff end.
    split; [|done]. unfold mret, comp_ret in *. exec.
    apply Z.eqb_eq in Hoff. rewrite page_offset_mod in Hoff.
    assert (a = floor a * PAGE_SIZE) as Heq.
    { unfold floor. pose proof (Z.div_mod a PAGE_SIZE). unfold PAGE_SIZE in *. lia. }
    rewrite addr_from_page_num_small; [done|]. unfold_address. lia.
Qed.

(** [ceil] is the least page number whose page starts at or after the
    address, for every address up to the last page of the address space; an
    address inside the last page wraps around to page 0. *)
Lemma ceil_least (a : Z) :
  is_usize a →
  (a ≤ usize_max - (PAGE_SIZE - 1) →
     a ≤ ceil a * PAGE_SIZE ∧ ∀ n, a ≤ n * PAGE_SIZE → ceil a ≤ n) ∧
  (usize_max - (PAGE_SIZE - 1) < a → ceil a = 0).
Proof.
  intros Ha. split.
  - intros Hle. rewrite ceil_spec by (destruct Ha; lia).
    pose proof (Z.div_mod (a + PAGE_SIZE - 1) PAGE_SIZE).
    pose proof (Z.mod_pos_bound (a + PAGE_SIZE - 1) PAGE_SIZE).
    unfold PAGE_SIZE in *. split; [lia|]. intros. lia.
  - intros Hgt. unfold ceil. unfold_address. destruct (Z.eqb_spec a 0); [lia|].
    unfold wrap64. replace (a - 1 + 4096) with (a + 4095 - 18446744073709551616 + 1 * 18446744073709551616) by lia.
    rewrite Z.mod_add, Z.mod_small by lia. apply Z.div_small. lia.
Qed.

(** [VirtAddr::try_from] accepts exactly the values below 2^39 and the top
    2^39 values.  The lower half of that set reaches one bit further than a
    canonical Sv39 address: converting such an accepted address back with
    [usize::from] sign-extends it to a different number. *)
Theorem virt_addr_accepts (v : Z) :
  is_usize v →
  (virt_addr_try_from v = Some v ↔ v < 2 ^ 39 ∨ 18446744073709551616 - 2 ^ 39 ≤ v) ∧
  (2 ^ 38 ≤ v < 2 ^ 39 →
     virt_addr_try_from v = Some v ∧ usize_from_virt_addr v ≠ v).
Proof.
  intros Hv.
  assert (virt_addr_try_from v = Some v ↔ sign_extends VA_WIDTH_SV39 v = true) as Htf.
  { unfold virt_addr_try_from. destruct (sign_extends VA_WIDTH_SV39 v); naive_solver. }
  pose proof (sign_extends_spec VA_WIDTH_SV39 v ltac:(unfold VA_WIDTH_SV39; lia) Hv) as Hs.
  unfold VA_WIDTH_SV39 in *. split; [rewrite Htf, Hs; done|].
  intros Hr. split; [apply Htf, Hs; lia|].
  unfold usize_from_virt_addr, VA_WIDTH_SV39.
  change (Z.shiftl 1 (39 - 1)) with (2 ^ 38). change (Z.shiftl 1 39) with (2 ^ 39).
  rewrite (proj2 (Z.leb_le (2 ^ 38) v)) by lia.
  intros Heq. apply (f_equal (λ z, Z.testbit z 63)) in Heq.
  rewrite Z.lor_spec in Heq.
  replace (Z.testbit v 63) with false in Heq; [vm_compute in Heq; done|].
  symmetry. rewrite <- (Z.mod_small v (2 ^ 39)) by lia. apply Z.mod_pow2_bits_high. lia.
Qed.

Lemma virt_addr_accepts_witness :
  virt_addr_try_from 274877906944 = Some 274877906944 ∧
  usize_from_virt_addr 274877906944 ≠ 274877906944.
Proof. apply (virt_addr_accepts 274877906944); unfold is_usize, usize_max; lia. Defined.

Lemma iter_collect_seqZ fuel s e :
  0 ≤ s ≤ e → e ≤ usize_max → (Z.to_nat (e - s) < fuel)%nat →
  iter_collect fuel (mkIter s e) = Some (seqZ s (e - s)).
Proof.
  revert s. induction fuel as [|fuel IH]; intros s Hs He Hf; [lia|]. simpl. unfold iter_next. simpl.
  destruct (Z.eqb_spec s e) as [->|Hne].
  - rewrite Z.sub_diag. done.
  - unfold step. rewrite wrap64_small by (unfold is_usize; lia). rewrite IH by lia.
    rewrite (seqZ_cons s (e - s)) by lia. simpl. do 3 f_equal; lia.
Qed.

(** A [for] loop over a [SimpleRange] built by [new] terminates after
    exactly [end - start] steps and visits every page number of
    [start, end) once, in increasing order; [new] panics exactly when
    [start > end]. *)
Theorem range_loop_visits (s e : Z) :
  0 ≤ s → e ≤ usize_max →
  (e < s ∧ range_new s e = Panic) ∨
  (s ≤ e ∧ ∃ r, range_new s e = Done r ∧
     ∀ fuel, (Z.to_nat (e - s) < fuel)%nat →
     iter_collect fuel (into_iter r) = Some (seqZ s (e - s)) ∧
     ∀ vpn, vpn ∈ seqZ s (e - s) ↔ contains_vpn r vpn = true).
Proof.
  intros Hs He. unfold range_new. destruct (Z.leb_spec s e) as [Hle|Hgt]; simpl.
  - right. split; [done|]. exists (mkRange s e). split; [done|]. intros fuel Hf.
    split; [apply iter_collect_seqZ; lia|].
    intros vpn. rewrite elem_of_seqZ. unfold contains_vpn. simpl. lia.
  - left. split; [lia|done].
Qed.

