(* ===== verification/Wake.v ===== *)
(** * Wakers and the blocking executor

    [utils/poll.rs] ([PollSet]), the [AtomicWaker] the lock tables use, and
    [MyWaker]/[block_on] of [task/future/mod.rs].

    A [Waker] is identified by the task it wakes: [will_wake] compares tasks,
    since [block_on] makes one [MyWaker] per blocked task.  Waking is recorded
    by returning the tasks that are woken, in order. *)

From S2P Require Import Prelude.

Notation Waker := Z (only parsing).

(** ** [AtomicWaker]: one slot

    [register] runs while the table lock is held exclusively, so it finds the
    slot in state [WAITING] and stores the waker; [wake] takes the waker out. *)

Notation AtomicWaker := (option Z) (only parsing).

Definition aw_new : AtomicWaker := None.
Definition aw_register (waker : Waker) (aw : AtomicWaker) : AtomicWaker :=
  match aw with
  | Some old => if old =? waker then aw else Some waker
  | None => Some waker
  end.
Definition aw_take (aw : AtomicWaker) : option Waker * AtomicWaker := (aw, None).
(** The woken tasks and the slot afterwards. *)
Definition aw_wake (aw : AtomicWaker) : list Z * AtomicWaker :=
  match aw_take aw with
  | (Some w, aw') => ([w], aw')
  | (None, aw') => ([], aw')
  end.

(** ** [PollSet]: a bounded FIFO of wakers *)

Definition POLL_SET_CAPACITY : nat := 64.

(** [Inner::register]: the new entries and the displaced waker. *)
Definition inner_register (waker : Waker) (entries : list Z) : option Z * list Z :=
  if existsb (λ entry, entry =? waker) entries then (None, entries)
  else
    let '(displaced, entries) :=
      if Nat.eqb (length entries) POLL_SET_CAPACITY
      then (head entries, tail entries)
      else (None, entries) in
    (displaced, entries ++ [waker]).

Definition inner_unregister (waker : Waker) (entries : list Z) : list Z :=
  retain (λ entry, negb (entry =? waker)) entries.

Definition inner_take_one (entries : list Z) : option Z * list Z :=
  match entries with [] => (None, []) | w :: es => (Some w, es) end.

(** [PollSet::register]: a displaced waker is woken. *)
Definition poll_register (waker : Waker) (ps : list Z) : list Z * list Z :=
  let '(displaced, entries) := inner_register waker ps in
  (option_list displaced, entries).
Definition poll_unregister (waker : Waker) (ps : list Z) : list Z := inner_unregister waker ps.
(** [PollSet::wake_one] and [PollSet::wake]: the woken tasks and the set left. *)
Definition poll_wake_one (ps : list Z) : list Z * list Z :=
  let '(w, es) := inner_take_one ps in (option_list w, es).
Definition poll_wake (ps : list Z) : list Z * list Z := (ps, []).

(** The representation invariant of a [PollSet]. *)
Definition poll_wf (ps : list Z) : Prop :=
  NoDup ps ∧ (length ps ≤ POLL_SET_CAPACITY)%nat.

Lemma existsb_eqb_elem (x : Z) l : existsb (λ y, y =? x) l = true ↔ x ∈ l.
Proof.
  rewrite existsb_exists. setoid_rewrite Z.eqb_eq. setoid_rewrite <- list_elem_of_In.
  split; [intros (?&?&->); done | eauto].
Qed.

Lemma poll_register_wf w ps : poll_wf ps → poll_wf (poll_register w ps).2.
Proof.
  intros [Hnd Hlen]. unfold poll_register, inner_register.
  destruct (existsb (λ y, y =? w) ps) eqn:Hex; [done|].
  assert (w ∉ ps) as Hw. { rewrite <- existsb_eqb_elem. congruence. }
  destruct (Nat.eqb_spec (length ps) POLL_SET_CAPACITY) as [Heq|Hne]; simpl.
  - destruct ps as [|x ps]; simpl in *; [done|].
    apply NoDup_cons in Hnd as [??]. apply not_elem_of_cons in Hw as [??]. split.
    + apply NoDup_app. repeat split; [done| |apply NoDup_singleton].
      intros y Hy ->%list_elem_of_singleton. done.
    + rewrite length_app. simpl. lia.
  - split.
    + apply NoDup_app. repeat split; [done| |apply NoDup_singleton].
      intros y Hy ->%list_elem_of_singleton. done.
    + rewrite length_app. simpl. lia.
Qed.
#[export] Hint Resolve poll_register_wf : ya2y.

(** A [PollSet] never loses a waiter: after [register] the set still
    satisfies its invariant (no duplicates, at most 64 entries), holds the new
    waker, and every waker that was registered before is either still
    registered or has just been woken; [wake] wakes every registered waker
    exactly once and empties the set. *)
Theorem poll_set_no_lost_waiter (w : Z) (ps : list Z) :
  poll_wf ps →
  poll_wf (poll_register w ps).2 ∧
  w ∈ (poll_register w ps).2 ∧
  (∀ x, x ∈ ps → x ∈ (poll_register w ps).1 ++ (poll_register w ps).2) ∧
  poll_wake ps = (ps, []) ∧ NoDup (poll_wake ps).1.
Proof.
  intros Hwf. split; [by apply poll_register_wf|].
  split; [|split; [|split; [done|apply Hwf]]].
  - unfold poll_register, inner_register.
    destruct (existsb _ ps) eqn:Hex; simpl; [by apply existsb_eqb_elem|].
    destruct (Nat.eqb _ _); simpl; apply elem_of_app; right; apply list_elem_of_singleton; done.
  - intros x Hx. unfold poll_register, inner_register.
    destruct (existsb _ ps); simpl; [done|].
    destruct (Nat.eqb _ _); simpl; rewrite !elem_of_app.
    + destruct ps as [|y ps]; simpl in *; [by apply elem_of_nil in Hx|].
      apply elem_of_cons in Hx as [->|?]; [left; by left | by right; left].
    + by left.
Qed.


(** ** [MyWaker] and [block_on]

    The blocking task and the wakers run on different harts.  Both
    [block_current_if_not_woken] and [wake_by_ref] hold the [woke] lock for
    their whole body, so each is one atomic step; the poll of the future is
    split into its start and its return, and wakers may run in between.
    [bo_queued] says that the waker that made the task [Ready] hands it to
    [ready_queue::add_task], which it calls right after dropping the locks.
    [pending_since_poll] is ghost state: a waker ran after the last poll
    started. *)

(** [task::TaskStatus]. *)
Inductive TaskStatus : Set :=
| Ready | Running | Zombie | Blocked | Stopped | VforkBlocked.
#[export] Instance TaskStatus_eq_dec : EqDecision TaskStatus.
Proof. solve_decision. Defined.

(** Where the loop of [block_on] stands. *)
Inductive BlockPc : Set := AtPoll | InPoll | AtBlock | Returned.

Record BlockOn : Set := mkBlockOn {
  bo_pc : BlockPc;
  bo_status : TaskStatus;
  bo_woke : bool;
  bo_queued : bool;         (* a waker has taken over calling add_task for it *)
  pending_since_poll : bool (* ghost *)
}.

(** [MyWaker::wake_by_ref]. *)
Definition wake_by_ref (s : BlockOn) : BlockOn :=
  let should_ready := bool_decide (bo_status s = Blocked) in
  mkBlockOn (bo_pc s) (if should_ready then Ready else bo_status s) true
    (should_ready || bo_queued s) true.

(** [MyWaker::block_current_if_not_woken]. *)
Definition block_current_if_not_woken (s : BlockOn) : BlockOn :=
  if bo_woke s
  then mkBlockOn AtPoll (bo_status s) false (bo_queued s) (pending_since_poll s)
  else mkBlockOn AtPoll Blocked false (bo_queued s) (pending_since_poll s).

(** The loop of [block_on], the wakers and the dispatch of a ready task. *)
Inductive block_step : BlockOn → BlockOn → Prop :=
| step_poll_start s :
    bo_pc s = AtPoll → bo_status s = Running →
    block_step s (mkBlockOn InPoll Running (bo_woke s) (bo_queued s) false)
| step_poll_pending s :
    bo_pc s = InPoll → bo_status s = Running →
    block_step s (mkBlockOn AtBlock Running (bo_woke s) (bo_queued s) (pending_since_poll s))
| step_poll_ready s :
    bo_pc s = InPoll → bo_status s = Running →
    block_step s (mkBlockOn Returned Running (bo_woke s) (bo_queued s) (pending_since_poll s))
| step_block s :
    bo_pc s = AtBlock → bo_status s = Running →
    block_step s (block_current_if_not_woken s)
| step_wake s : block_step s (wake_by_ref s)
| step_dispatch s :
    bo_status s = Ready → bo_queued s = true →
    block_step s (mkBlockOn (bo_pc s) Running (bo_woke s) false (pending_since_poll s)).

(** [MyWaker::new] and the entry of the loop. *)
Definition block_on_init : BlockOn := mkBlockOn AtPoll Running false false false.

Definition block_inv (s : BlockOn) : Prop :=
  (pending_since_poll s = true → bo_pc s ≠ AtPoll → bo_woke s = true) ∧
  (bo_status s = Blocked → pending_since_poll s = false ∧ bo_queued s = false) ∧
  (bo_status s = Ready ↔ bo_queued s = true) ∧
  (bo_status s = Running ∨ bo_status s = Blocked ∨ bo_status s = Ready).

Lemma block_inv_step s s' : block_inv s → block_step s s' → block_inv s'.
Proof.
  intros (H1&H2&H3&H4) Hstep.
  destruct Hstep as [s Hpc Hst|s Hpc Hst|s Hpc Hst|s Hpc Hst|s|s Hst Hq];
    destruct s as [pc st w q g]; unfold block_inv, block_current_if_not_woken, wake_by_ref;
    simpl in *; subst.
  1-3: destruct w, q, g; intuition congruence.
  - destruct w, q, g; simpl; intuition congruence.
  - destruct st, q, g; simpl; intuition congruence.
  - destruct w, g; intuition congruence.
Qed.

(** [C35] [block_on] never loses a wakeup: in every interleaving of the blocking
    task with any number of wakers, if the task is asleep then no waker has run
    since it last started polling its future and nobody has enqueued it; a task
    is [Ready] exactly when one waker has taken over enqueueing it, so it will
    be dispatched, and never twice. *)
Theorem block_on_no_lost_wakeup (s : BlockOn) :
  rtc block_step block_on_init s →
  (bo_status s = Blocked → pending_since_poll s = false ∧ bo_queued s = false) ∧
  (bo_status s = Ready ↔ bo_queued s = true).
Proof.
  intros Hr.
  assert (block_inv s) as (?&?&?&?); [|done].
  apply (rtc_invariant _ _ _ _ block_inv_step Hr).
  unfold block_inv. simpl. intuition congruence.
Qed.

Lemma block_on_no_lost_wakeup_witness :
  rtc block_step block_on_init (wake_by_ref block_on_init) ∧
  bo_queued (wake_by_ref block_on_init) = false.
Proof.
  assert (rtc block_step block_on_init (wake_by_ref block_on_init)) as Hr.
  { apply rtc_once, step_wake. }
  split; [exact Hr|].
  destruct (block_on_no_lost_wakeup _ Hr) as [_ Hq].
  destruct (bo_queued (wake_by_ref block_on_init)); [|reflexivity].
  discriminate (proj2 Hq eq_refl).
Defined.
