(* ===== verification/PosixLock.v ===== *)
(** * POSIX record locks

    [syscall/fs/file_lock/posix.rs] and the blocking loop [setlk_blocking] of
    [syscall/fs/fcntl.rs]: the table of byte-range locks, [F_SETLK],
    [F_SETLKW], [F_GETLK], release on close and exit, and deadlock detection
    over the wait graph.

    The abstract specification is the relation [holds]: which process holds a
    lock of which type on which byte.  [setlk] refines an update of that
    relation, whatever splitting and merging the table goes through. *)

From S2P Require Import Prelude Errno Wake.

(** ** ABI constants and types *)

Definition F_RDLCK : Z := 0.
Definition F_WRLCK : Z := 1.
Definition F_UNLCK : Z := 2.
Definition SEEK_SET : Z := 0.
Definition SEEK_CUR : Z := 1.
Definition SEEK_END : Z := 2.

(** The user's [struct flock] ([file_lock/types.rs]). *)
Record Flock : Type := mkFlock {
  fl_type : Z; fl_whence : Z; fl_start : Z; fl_len : Z; fl_pid : Z
}.
#[export] Instance Flock_eq_dec : EqDecision Flock.
Proof. solve_decision. Defined.

Record PosixLock : Type := mkLock {
  l_type : Z; l_start : Z; l_end : Z; l_pid : Z
}.
#[export] Instance PosixLock_eq_dec : EqDecision PosixLock.
Proof. solve_decision. Defined.

(** The three global tables, and the tasks woken so far. *)
Record LockState : Type := mkLockState {
  FILE_LOCKS : gmap string (list PosixLock);
  POSIX_LOCK_WAITERS : gmap string (option Z);
  POSIX_LOCK_WAITS : gmap Z (list Z);
  woken : list Z
}.

(** ** Range arithmetic *)

Definition to_absolute (fl : Flock) (file_size current_offset : Z) : SysResult (Z * Z) :=
  start ←
    (if fl_whence fl =? SEEK_SET then Ok (fl_start fl)
     else if fl_whence fl =? SEEK_CUR then Ok (sat_add_i64 current_offset (fl_start fl))
     else if fl_whence fl =? SEEK_END then Ok (sat_add_i64 file_size (fl_start fl))
     else Err EINVAL);
  if start <? 0 then Err EINVAL
  else if fl_len fl =? 0 then Ok (start, i64_max)
  else if fl_len fl <? 0 then
    let lock_start := sat_add_i64 (sat_add_i64 start (fl_len fl)) 1 in
    if lock_start <? 0 then Err EINVAL else Ok (lock_start, start)
  else Ok (start, sat_sub_i64 (sat_add_i64 start (fl_len fl)) 1).

Definition locks_conflict (l1 l2 : PosixLock) : bool :=
  if (l_type l1 =? F_RDLCK) && (l_type l2 =? F_RDLCK) then false
  else (l_start l1 <=? l_end l2) && (l_start l2 <=? l_end l1).

Definition ranges_overlap (start1 end1 start2 end2 : Z) : bool :=
  (start1 <=? end2) && (start2 <=? end1).

Definition ranges_touch_or_overlap (start1 end1 start2 end2 : Z) : bool :=
  (start1 <=? sat_add_i64 end2 1) && (start2 <=? sat_add_i64 end1 1).

(** [split_owned_lock]: the pieces it pushes to [out]. *)
Definition split_owned_lock (existing : PosixLock) (start end_ : Z) : list PosixLock :=
  (if l_start existing <? start
   then [mkLock (l_type existing) (l_start existing) (sat_sub_i64 start 1) (l_pid existing)]
   else []) ++
  (if negb (end_ =? i64_max) && (end_ <? l_end existing)
   then [mkLock (l_type existing) (sat_add_i64 end_ 1) (l_end existing) (l_pid existing)]
   else []).

(** [sort_by_key(|lock| (l_start, l_end, l_pid, l_type))]. *)
Definition lock_key_le (a b : PosixLock) : Prop :=
  l_start a < l_start b ∨ (l_start a = l_start b ∧
  (l_end a < l_end b ∨ (l_end a = l_end b ∧
  (l_pid a < l_pid b ∨ (l_pid a = l_pid b ∧ l_type a ≤ l_type b))))).
#[export] Instance lock_key_le_dec a b : Decision (lock_key_le a b).
Proof. unfold lock_key_le. apply _. Defined.

(** The merge loop of [normalize_locks]; [merged] is the vector, last first. *)
Fixpoint merge_loop (merged locks : list PosixLock) : list PosixLock :=
  match locks with
  | [] => reverse merged
  | lock :: locks =>
      match merged with
      | last :: rest =>
          if (l_pid last =? l_pid lock) && (l_type last =? l_type lock)
             && ranges_touch_or_overlap (l_start last) (l_end last) (l_start lock) (l_end lock)
          then merge_loop (mkLock (l_type last) (l_start last)
                             (Z.max (l_end last) (l_end lock)) (l_pid last) :: rest) locks
          else merge_loop (lock :: merged) locks
      | [] => merge_loop [lock] locks
      end
  end.

Definition normalize_locks (locks : list PosixLock) : list PosixLock :=
  merge_loop [] (merge_sort lock_key_le locks).

(** ** Conflicts and the wait graph *)

Fixpoint conflicting_owners_locked (owners : list Z) (entry : list PosixLock)
    (new_lock : PosixLock) : list Z :=
  match entry with
  | [] => owners
  | existing :: entry =>
      let owners :=
        if negb (l_pid existing =? l_pid new_lock) && locks_conflict existing new_lock
        then if bool_decide (l_pid existing ∈ owners) then owners
             else owners ++ [l_pid existing]
        else owners in
      conflicting_owners_locked owners entry new_lock
  end.

Definition conflicting_owners (st : LockState) (path : string) (fl : Flock)
    (file_size current_offset owner_pid : Z) : list Z :=
  if fl_type fl =? F_UNLCK then []
  else match to_absolute fl file_size current_offset with
       | Err _ => []
       | Ok (start, end_) =>
           let new_lock := mkLock (fl_type fl) start end_ owner_pid in
           match FILE_LOCKS st !! path with
           | Some entry => conflicting_owners_locked [] entry new_lock
           | None => []
           end
       end.

(** [next.iter().any(f)] where [f] also updates [visited]. *)
Fixpoint any_visiting (f : Z → list Z → option (bool * list Z)) (next : list Z)
    (visited : list Z) : option (bool * list Z) :=
  match next with
  | [] => Some (false, visited)
  | pid :: next =>
      match f pid visited with
      | Some (true, visited) => Some (true, visited)
      | Some (false, visited) => any_visiting f next visited
      | None => None
      end
  end.

(** [wait_path_reaches]; [fuel] bounds the recursion depth. *)
Fixpoint wait_path_reaches (fuel : nat) (graph : gmap Z (list Z)) (target current : Z)
    (visited : list Z) : option (bool * list Z) :=
  match fuel with
  | O => None
  | S fuel =>
      if current =? target then Some (true, visited)
      else if bool_decide (current ∈ visited) then Some (false, visited)
      else
        let visited := visited ++ [current] in
        match graph !! current with
        | Some next => any_visiting (wait_path_reaches fuel graph target) next visited
        | None => Some (false, visited)
        end
  end.

(** One more call than there are nodes with outgoing edges, and one for a leaf. *)
Definition wait_fuel (graph : gmap Z (list Z)) : nat := S (S (size graph)).

(** [would_deadlock]: every starting point gets a fresh [visited]. *)
Fixpoint would_deadlock (graph : gmap Z (list Z)) (owner_pid : Z) (waiting_for : list Z) : bool :=
  match waiting_for with
  | [] => false
  | pid :: waiting_for =>
      match wait_path_reaches (wait_fuel graph) graph owner_pid pid [] with
      | Some (true, _) => true
      | _ => would_deadlock graph owner_pid waiting_for
      end
  end.

(** ** State updates *)

Definition set_locks (st : LockState) (m : gmap string (list PosixLock)) : LockState :=
  mkLockState m (POSIX_LOCK_WAITERS st) (POSIX_LOCK_WAITS st) (woken st).
Definition set_waits (st : LockState) (g : gmap Z (list Z)) : LockState :=
  mkLockState (FILE_LOCKS st) (POSIX_LOCK_WAITERS st) g (woken st).

Definition record_wait (st : LockState) (owner_pid : Z) (waiting_for : list Z) : LockState :=
  match waiting_for with
  | [] => set_waits st (delete owner_pid (POSIX_LOCK_WAITS st))
  | _ => set_waits st (<[owner_pid := waiting_for]> (POSIX_LOCK_WAITS st))
  end.

Definition clear_wait (st : LockState) (owner_pid : Z) : LockState :=
  set_waits st (delete owner_pid (POSIX_LOCK_WAITS st)).

Definition wake_posix_waiters (st : LockState) (path : string) : LockState :=
  match POSIX_LOCK_WAITERS st !! path with
  | Some aw =>
      let '(ws, aw') := aw_wake aw in
      mkLockState (FILE_LOCKS st) (<[path := aw']> (POSIX_LOCK_WAITERS st))
        (POSIX_LOCK_WAITS st) (woken st ++ ws)
  | None => st
  end.

Definition register_posix_waker (st : LockState) (path : string) (waker : Z) : LockState :=
  let aw := default aw_new (POSIX_LOCK_WAITERS st !! path) in
  mkLockState (FILE_LOCKS st) (<[path := aw_register waker aw]> (POSIX_LOCK_WAITERS st))
    (POSIX_LOCK_WAITS st) (woken st).

(** [entry.retain(|lock| lock.l_pid != owner_pid)]. *)
Definition drop_owner (owner_pid : Z) (entry : list PosixLock) : list PosixLock :=
  retain (λ lock, negb (l_pid lock =? owner_pid)) entry.

Definition release_posix_locks (st : LockState) (path : string) (owner_pid : Z) : LockState :=
  let '(st, changed) :=
    match FILE_LOCKS st !! path with
    | Some entry =>
        let entry' := drop_owner owner_pid entry in
        let changed := negb (Nat.eqb (length entry') (length entry)) in
        (set_locks st (match entry' with
                       | [] => delete path (FILE_LOCKS st)
                       | _ => <[path := entry']> (FILE_LOCKS st)
                       end), changed)
    | None => (st, false)
    end in
  let st := clear_wait st owner_pid in
  if changed then wake_posix_waiters st path else st.

(** The paths whose list shrinks when [owner_pid] leaves, in the order of the
    [BTreeMap]. *)
Definition changed_paths (st : LockState) (owner_pid : Z) : list string :=
  merge_sort string_le
    ((map_to_list (FILE_LOCKS st)) ≫= λ '(path, entry),
      if Nat.eqb (length (drop_owner owner_pid entry)) (length entry) then [] else [path]).

Definition release_posix_locks_by_owner (st : LockState) (owner_pid : Z) : LockState :=
  let paths := changed_paths st owner_pid in
  let st' := set_locks st
    (filter (λ '(_, entry), entry ≠ []) (drop_owner owner_pid <$> FILE_LOCKS st)) in
  foldl wake_posix_waiters (clear_wait st' owner_pid) paths.

(** The loop of [setlk] that cuts the owner's locks around the new range. *)
Fixpoint cut_owned (owner_pid start end_ : Z) (entry : list PosixLock) : list PosixLock :=
  match entry with
  | [] => []
  | existing :: entry =>
      (if (l_pid existing =? owner_pid)
          && ranges_overlap (l_start existing) (l_end existing) start end_
       then split_owned_lock existing start end_
       else [existing]) ++ cut_owned owner_pid start end_ entry
  end.

(** [setlk]: the new state and the result. *)
Definition setlk (st : LockState) (path : string) (fl : Flock)
    (file_size current_offset owner_pid : Z) : LockState * SyscallRet :=
  if negb (fl_type fl =? F_RDLCK) && negb (fl_type fl =? F_WRLCK) && negb (fl_type fl =? F_UNLCK)
  then (st, Err EINVAL)
  else match to_absolute fl file_size current_offset with
  | Err e => (st, Err e)
  | Ok (start, end_) =>
      let new_lock := mkLock (fl_type fl) start end_ owner_pid in
      let entry := default [] (FILE_LOCKS st !! path) in
      if negb (fl_type fl =? F_UNLCK)
         && existsb (λ existing, negb (l_pid existing =? owner_pid)
                                 && locks_conflict existing new_lock) entry
      then (set_locks st (<[path := entry]> (FILE_LOCKS st)), Err EAGAIN)
      else
        let updated := cut_owned owner_pid start end_ entry in
        let updated := if negb (fl_type fl =? F_UNLCK) then updated ++ [new_lock] else updated in
        let st := set_locks st (<[path := normalize_locks updated]> (FILE_LOCKS st)) in
        (wake_posix_waiters st path, Ok 0)
  end.

(** [iter().min_by_key(|l| (l.l_start, l.l_end))]: the first minimum. *)
Definition range_lt (a b : PosixLock) : bool :=
  (l_start a <? l_start b) || ((l_start a =? l_start b) && (l_end a <? l_end b)).
Fixpoint min_by_range (best : option PosixLock) (l : list PosixLock) : option PosixLock :=
  match l with
  | [] => best
  | x :: l =>
      match best with
      | None => min_by_range (Some x) l
      | Some b => min_by_range (Some (if range_lt x b then x else b)) l
      end
  end.

(** [getlk]: the updated [flock] and the result. *)
Definition getlk (st : LockState) (path : string) (fl : Flock)
    (file_size current_offset owner_pid : Z) : Flock * SyscallRet :=
  if negb (fl_type fl =? F_RDLCK) && negb (fl_type fl =? F_WRLCK) then (fl, Err EINVAL)
  else match to_absolute fl file_size current_offset with
  | Err e => (fl, Err e)
  | Ok (start, end_) =>
      let probe := mkLock (fl_type fl) start end_ 0 in
      let unlocked := mkFlock F_UNLCK (fl_whence fl) (fl_start fl) (fl_len fl) (fl_pid fl) in
      match FILE_LOCKS st !! path with
      | None => (unlocked, Ok 0)
      | Some entry =>
          match min_by_range None
                  (retain (λ existing, negb (l_pid existing =? owner_pid)
                                       && locks_conflict existing probe) entry) with
          | Some existing =>
              (mkFlock (l_type existing) SEEK_SET (l_start existing)
                 (if l_end existing =? i64_max then 0
                  else l_end existing - l_start existing + 1)
                 (l_pid existing), Ok 0)
          | None => (unlocked, Ok 0)
          end
      end
  end.

(** One poll of the future of [setlk_blocking], in two parts: up to the
    deadlock check, and from [record_wait] on.  The tables are unlocked between
    the parts, so other tasks may run there.  [task] is the waker of the calling
    context. *)
Inductive PollCheck : Type :=
| CheckReady (r : SyscallRet)
| CheckWait (owners : list Z).

Definition poll_check (st : LockState) (path : string) (fl : Flock)
    (file_size current_offset owner_pid : Z) : LockState * PollCheck :=
  match setlk st path fl file_size current_offset owner_pid with
  | (st, Ok ret) => (clear_wait st owner_pid, CheckReady (Ok ret))
  | (st, Err EAGAIN) =>
      let owners := conflicting_owners st path fl file_size current_offset owner_pid in
      if would_deadlock (POSIX_LOCK_WAITS st) owner_pid owners
      then (clear_wait st owner_pid, CheckReady (Err EDEADLK))
      else (st, CheckWait owners)
  | (st, Err e) => (clear_wait st owner_pid, CheckReady (Err e))
  end.

(** [None] is [Poll::Pending]. *)
Definition poll_commit (st : LockState) (path : string) (fl : Flock)
    (file_size current_offset owner_pid task : Z) (owners : list Z) :
    LockState * option SyscallRet :=
  let st := record_wait st owner_pid owners in
  let st := register_posix_waker st path task in
  match setlk st path fl file_size current_offset owner_pid with
  | (st, Ok ret) => (clear_wait st owner_pid, Some (Ok ret))
  | (st, Err EAGAIN) => (st, None)
  | (st, Err e) => (clear_wait st owner_pid, Some (Err e))
  end.

(** A poll during which no other task touches the tables. *)
Definition setlk_poll (st : LockState) (path : string) (fl : Flock)
    (file_size current_offset owner_pid task : Z) : LockState * option SyscallRet :=
  match poll_check st path fl file_size current_offset owner_pid with
  | (st, CheckReady r) => (st, Some r)
  | (st, CheckWait owners) =>
      poll_commit st path fl file_size current_offset owner_pid task owners
  end.

(** The end of [setlk_blocking]: [output] is the result of [block_on],
    [None] when a signal interrupted it. *)
Definition setlk_blocking_return (st : LockState) (owner_pid : Z) (output : option SyscallRet) :
    LockState * SyscallRet :=
  (clear_wait st owner_pid, default (Err EINTR) output).

(** ** The abstract view: who holds what on which byte *)

Definition covers (l : PosixLock) (b : Z) : Prop := l_start l ≤ b ≤ l_end l.

Definition holds (ls : list PosixLock) (pid b t : Z) : Prop :=
  ∃ l, l ∈ ls ∧ l_pid l = pid ∧ l_type l = t ∧ covers l b.

(** Shape of one table entry. *)
Definition lock_ok (l : PosixLock) : Prop :=
  (l_type l = F_RDLCK ∨ l_type l = F_WRLCK) ∧ 0 ≤ l_start l ∧ l_start l ≤ l_end l ∧ l_end l ≤ i64_max.

(** The invariant of the locks of one file: entries are well formed, a process
    holds at most one type of lock on a byte, and a write lock excludes every
    other process. *)
Record locks_wf (ls : list PosixLock) : Prop := {
  wf_ok : Forall lock_ok ls;
  wf_functional p b t1 t2 : holds ls p b t1 → holds ls p b t2 → t1 = t2;
  wf_exclusive p q b t1 t2 :
    p ≠ q → holds ls p b t1 → holds ls q b t2 → t1 = F_RDLCK ∧ t2 = F_RDLCK
}.

Definition state_wf (st : LockState) : Prop :=
  ∀ path ls, FILE_LOCKS st !! path = Some ls → locks_wf ls.

Ltac unfold_locks :=
  unfold lock_ok, covers, F_RDLCK, F_WRLCK, F_UNLCK, sat_add_i64, sat_sub_i64, sat_i64,
    i64_max, i64_min in *; simpl in *.

Section holds.
Implicit Types (ls : list PosixLock) (l : PosixLock).

Lemma holds_nil p b t : holds [] p b t ↔ False.
Proof. split; [|done]. intros (l&H%elem_of_nil&_). done. Qed.

Lemma holds_cons l ls p b t :
  holds (l :: ls) p b t ↔ (l_pid l = p ∧ l_type l = t ∧ covers l b) ∨ holds ls p b t.
Proof.
  unfold holds. split.
  - intros (x&[->|Hx]%elem_of_cons&?); [by left | right; eauto].
  - intros [?|(x&?&?)]; [exists l | exists x]; rewrite elem_of_cons; eauto.
Qed.

Lemma holds_app ls1 ls2 p b t :
  holds (ls1 ++ ls2) p b t ↔ holds ls1 p b t ∨ holds ls2 p b t.
Proof.
  induction ls1 as [|l ls1 IH]; simpl; rewrite ?holds_cons, ?holds_nil; [tauto|]. rewrite IH. tauto.
Qed.

#[export] Instance holds_proper : Proper ((≡ₚ) ==> (=) ==> (=) ==> (=) ==> iff) holds.
Proof.
  intros ls1 ls2 Hp ? p -> ? b -> ? t ->. unfold holds.
  split; intros (l&Hl&?); exists l; (rewrite Hp in Hl || rewrite <- Hp in Hl); done.
Qed.
End holds.

#[export] Instance lock_key_le_trans : Transitive lock_key_le.
Proof. intros a b c. unfold lock_key_le. lia. Qed.
#[export] Instance lock_key_le_total : Total lock_key_le.
Proof. intros a b. unfold lock_key_le. lia. Qed.

(** Two touching ranges of one owner and type cover the same bytes as their hull. *)
Lemma hull_covers last lock b :
  lock_ok last → lock_ok lock → l_start last ≤ l_start lock →
  ranges_touch_or_overlap (l_start last) (l_end last) (l_start lock) (l_end lock) = true →
  (l_start last ≤ b ≤ Z.max (l_end last) (l_end lock)) ↔ covers last b ∨ covers lock b.
Proof. unfold ranges_touch_or_overlap. unfold_locks. lia. Qed.

Lemma merge_loop_spec locks : ∀ merged,
  Forall lock_ok merged → Forall lock_ok locks → StronglySorted lock_key_le locks →
  (∀ last x, head merged = Some last → x ∈ locks → l_start last ≤ l_start x) →
  Forall lock_ok (merge_loop merged locks) ∧
  ∀ p b t, holds (merge_loop merged locks) p b t ↔ holds (merged ++ locks) p b t.
Proof.
  induction locks as [|lock locks IH]; intros merged Hm Hl Hs Hhd; simpl.
  { split; [by rewrite reverse_Permutation|].
    intros. by rewrite reverse_Permutation, app_nil_r. }
  apply Forall_cons in Hl as [Hlock Hl]. apply StronglySorted_cons in Hs as [Hall Hs].
  assert (∀ x, x ∈ locks → l_start lock ≤ l_start x) as Hlk.
  { intros x Hx. rewrite Forall_forall in Hall. specialize (Hall x Hx).
    unfold lock_key_le in Hall. lia. }
  destruct merged as [|last rest]; simpl.
  { destruct (IH [lock]) as [IHok IHh]; [by apply Forall_cons|done|done|naive_solver|].
    split; [done|]. intros. by rewrite IHh. }
  destruct (_ && _ && _) eqn:E.
  - split_bools. apply Forall_cons in Hm as [Hlast Hrest].
    assert (l_start last ≤ l_start lock) by (apply Hhd; [done|left]).
    assert (l_pid last = l_pid lock ∧ l_type last = l_type lock) as [Hpid Hty] by lia.
    destruct (IH (mkLock (l_type last) (l_start last) (Z.max (l_end last) (l_end lock)) (l_pid last) :: rest))
      as [IHok IHh]; [|done|done| |].
    { apply Forall_cons. split; [|done]. unfold_locks. lia. }
    { intros ? x [= <-] Hx. simpl. apply (Hhd last); [done|by right]. }
    split; [done|]. intros p b t. rewrite IHh. simpl.
    rewrite !holds_cons, !holds_app, holds_cons. simpl. unfold covers at 1. simpl.
    rewrite (hull_covers last lock b) by done. rewrite <- Hpid, <- Hty. tauto.
  - destruct (IH (lock :: last :: rest)) as [IHok IHh]; [by apply Forall_cons|done|done|naive_solver|].
    split; [done|]. intros p b t. rewrite IHh. simpl.
    rewrite !holds_cons, !holds_app, holds_cons. tauto.
Qed.

Lemma normalize_locks_spec ls :
  Forall lock_ok ls →
  Forall lock_ok (normalize_locks ls) ∧
  ∀ p b t, holds (normalize_locks ls) p b t ↔ holds ls p b t.
Proof.
  intros Hok. unfold normalize_locks.
  destruct (merge_loop_spec (merge_sort lock_key_le ls) []) as [IHok IHh].
  - done.
  - by rewrite merge_sort_Permutation.
  - apply (StronglySorted_merge_sort _).
  - done.
  - split; [done|]. intros. rewrite IHh. simpl. by rewrite merge_sort_Permutation.
Qed.

(** ** Cutting the owner's locks *)

Lemma split_owned_lock_spec l s e :
  lock_ok l → 0 ≤ s ≤ e → e ≤ i64_max →
  ranges_overlap (l_start l) (l_end l) s e = true →
  Forall lock_ok (split_owned_lock l s e) ∧
  ∀ p b t, holds (split_owned_lock l s e) p b t ↔
    (l_pid l = p ∧ l_type l = t ∧ covers l b) ∧ ¬ s ≤ b ≤ e.
Proof.
  intros Hok Hse He Hov. unfold ranges_overlap in Hov. unfold split_owned_lock. split.
  - apply Forall_app. split; case_match; constructor; try constructor; unfold_locks; lia.
  - intros p b t. rewrite holds_app.
    destruct (Z.ltb_spec (l_start l) s); destruct (negb _ && _) eqn:E;
      rewrite ?holds_cons, ?holds_nil; unfold_locks; lia.
Qed.

Lemma cut_owned_spec owner s e ls :
  Forall lock_ok ls → 0 ≤ s ≤ e → e ≤ i64_max →
  Forall lock_ok (cut_owned owner s e ls) ∧
  ∀ p b t, holds (cut_owned owner s e ls) p b t ↔
    holds ls p b t ∧ ¬ (p = owner ∧ s ≤ b ≤ e).
Proof.
  intros Hok Hse He. induction Hok as [|l ls Hl Hls [IHok IHh]]; simpl.
  { split; [done|]. intros. rewrite holds_nil. tauto. }
  rewrite Forall_app. destruct (_ && _) eqn:E.
  - split_bools. destruct (split_owned_lock_spec l s e) as [Hs1 Hs2]; [done..|].
    split; [done|]. intros p b t. rewrite holds_app, holds_cons, Hs2, IHh.
    assert (l_pid l = p ↔ p = owner) as Hp by lia. tauto.
  - split; [split; [by apply Forall_singleton|done]|]. intros p b t.
    rewrite holds_app, !holds_cons, holds_nil, IHh.
    assert (¬ (l_pid l = p ∧ covers l b ∧ p = owner ∧ s ≤ b ≤ e)).
    { unfold ranges_overlap in E. unfold covers. lia. }
    tauto.
Qed.

(** A request conflicts with a well-formed lock exactly when they share a byte
    and are not both read locks. *)
Lemma locks_conflict_spec l1 l2 :
  lock_ok l1 → l_start l2 ≤ l_end l2 →
  locks_conflict l1 l2 = true ↔
  ¬ (l_type l1 = F_RDLCK ∧ l_type l2 = F_RDLCK) ∧ ∃ b, covers l1 b ∧ covers l2 b.
Proof.
  intros Hok H2. unfold locks_conflict.
  destruct (_ && _) eqn:E; [split; [done|]; intros [? _]; lia|].
  split.
  - intros Hov. split; [lia|]. exists (Z.max (l_start l1) (l_start l2)). unfold_locks. lia.
  - intros [_ (b&?&?)]. unfold covers in *. lia.
Qed.

(** ** [setlk] as an update of the abstract view *)

Definition entry_of (st : LockState) (path : string) : list PosixLock :=
  default [] (FILE_LOCKS st !! path).

Lemma entry_of_wf st path : state_wf st → locks_wf (entry_of st path).
Proof.
  intros Hwf. unfold entry_of. destruct (FILE_LOCKS st !! path) eqn:E; [by eapply Hwf|].
  split; [done|..]; intros *; rewrite !holds_nil; tauto.
Qed.

Lemma wake_FILE_LOCKS st path : FILE_LOCKS (wake_posix_waiters st path) = FILE_LOCKS st.
Proof. unfold wake_posix_waiters. repeat case_match; done. Qed.

Lemma wake_WAITS st path : POSIX_LOCK_WAITS (wake_posix_waiters st path) = POSIX_LOCK_WAITS st.
Proof. unfold wake_posix_waiters. repeat case_match; done. Qed.

(** Some other process blocks the request on some byte. *)
Definition blocked_by (ls : list PosixLock) (t s e owner : Z) : Prop :=
  ∃ q b t', q ≠ owner ∧ s ≤ b ≤ e ∧ holds ls q b t' ∧ ¬ (t' = F_RDLCK ∧ t = F_RDLCK).

Lemma setlk_conflict_spec ls t s e owner :
  Forall lock_ok ls → s ≤ e →
  existsb (λ x, negb (l_pid x =? owner) && locks_conflict x (mkLock t s e owner)) ls = true ↔
  blocked_by ls t s e owner.
Proof.
  intros Hok Hse. rewrite existsb_elem. rewrite Forall_forall in Hok. unfold blocked_by. split.
  - intros (x&Hx&Hc). split_bools.
    match goal with H : locks_conflict _ _ = true |- _ =>
      apply locks_conflict_spec in H as [Hty (b&Hb1&Hb2)]; [|by apply Hok|done] end.
    exists (l_pid x), b, (l_type x). unfold covers in Hb2. simpl in *.
    repeat split; [lia|lia|lia| |done]. exists x. done.
  - intros (q&b&t'&Hq&Hb&(x&Hx&<-&<-&Hcov)&Hty). exists x. split; [done|].
    apply andb_true_iff. split; [lia|]. apply locks_conflict_spec; [by apply Hok|done|].
    split; [done|]. exists b. split; done.
Qed.

(** The three outcomes of [setlk] on a request with a valid, non-empty range. *)
Lemma setlk_cases st path fl size off owner s e :
  state_wf st → to_absolute fl size off = Ok (s, e) → 0 ≤ s ≤ e → e ≤ i64_max →
  (fl_type fl = F_RDLCK ∨ fl_type fl = F_WRLCK ∨ fl_type fl = F_UNLCK) →
  let '(st', r) := setlk st path fl size off owner in
  if bool_decide (fl_type fl ≠ F_UNLCK)
     && existsb (λ x, negb (l_pid x =? owner)
                      && locks_conflict x (mkLock (fl_type fl) s e owner)) (entry_of st path)
  then r = Err EAGAIN ∧ FILE_LOCKS st' = <[path := entry_of st path]> (FILE_LOCKS st)
  else r = Ok 0 ∧ ∃ ls', FILE_LOCKS st' = <[path := ls']> (FILE_LOCKS st) ∧ Forall lock_ok ls' ∧
    ∀ p b t, holds ls' p b t ↔
      (p = owner ∧ s ≤ b ≤ e ∧ t = fl_type fl ∧ t ≠ F_UNLCK) ∨
      (holds (entry_of st path) p b t ∧ ¬ (p = owner ∧ s ≤ b ≤ e)).
Proof.
  intros Hwf Habs Hse He Hty. unfold setlk. rewrite Habs.
  destruct (_ && _ && _) eqn:Ety; [unfold F_RDLCK, F_WRLCK, F_UNLCK in *; lia|]. clear Ety.
  fold (entry_of st path).
  assert (bool_decide (fl_type fl ≠ F_UNLCK) = negb (fl_type fl =? F_UNLCK)) as ->.
  { destruct (Z.eqb_spec (fl_type fl) F_UNLCK); simpl; by case_bool_decide. }
  destruct (_ && existsb _ _) eqn:Ec; [done|].
  split; [done|]. rewrite wake_FILE_LOCKS. eexists. split; [done|].
  destruct (cut_owned_spec owner s e (entry_of st path)) as [Hc1 Hc2];
    [by apply entry_of_wf|done|done|].
  destruct (Z.eqb_spec (fl_type fl) F_UNLCK) as [Hu|Hu]; simpl.
  - destruct (normalize_locks_spec _ Hc1) as [Hn1 Hn2]. split; [done|].
    intros p b t. rewrite Hn2, Hc2. intuition congruence.
  - destruct (normalize_locks_spec (cut_owned owner s e (entry_of st path) ++
      [mkLock (fl_type fl) s e owner])) as [Hn1 Hn2].
    { apply Forall_app. split; [done|]. apply Forall_singleton. unfold_locks. lia. }
    split; [done|]. intros p b t. rewrite Hn2, holds_app, holds_cons, holds_nil, Hc2.
    simpl. unfold covers. simpl. intuition congruence.
Qed.

(** A request the user can express: 64-bit fields. *)
Definition flock_in_range (fl : Flock) (size off : Z) : Prop :=
  is_i64 (fl_start fl) ∧ is_i64 (fl_len fl) ∧ is_i64 size ∧ is_i64 off.

(** The first byte named by [l_whence] and [l_start]. *)
Definition flock_origin (fl : Flock) (size off : Z) : Z :=
  if fl_whence fl =? SEEK_SET then fl_start fl
  else if fl_whence fl =? SEEK_CUR then sat_add_i64 off (fl_start fl)
  else sat_add_i64 size (fl_start fl).

(** What [to_absolute] computes.  It fails with [EINVAL] exactly for an
    unknown whence or a range that starts before byte 0.  Otherwise a zero
    length reaches to the end, a positive one covers [l_len] bytes from the
    origin (clipped below the last offset), and a negative one covers the
    [-l_len] bytes that END AT the origin, origin included.  The range is never
    empty, with one exception: a positive length at origin [i64::MAX] yields
    the inverted range [i64::MAX, i64::MAX - 1]. *)
Theorem to_absolute_spec (fl : Flock) (size off : Z) :
  flock_in_range fl size off →
  let o := flock_origin fl size off in
  match to_absolute fl size off with
  | Err e => e = EINVAL ∧
      ((fl_whence fl ≠ SEEK_SET ∧ fl_whence fl ≠ SEEK_CUR ∧ fl_whence fl ≠ SEEK_END) ∨
       o < 0 ∨ (fl_len fl < 0 ∧ o + fl_len fl + 1 < 0))
  | Ok (s, e) => 0 ≤ s ∧ e ≤ i64_max ∧ 0 ≤ o ∧
      (fl_len fl = 0 → s = o ∧ e = i64_max) ∧
      (0 < fl_len fl → s = o ∧ e = Z.min (o + fl_len fl) i64_max - 1) ∧
      (fl_len fl < 0 → s = o + fl_len fl + 1 ∧ e = o) ∧
      (s ≤ e ∨ (o = i64_max ∧ 0 < fl_len fl ∧ s = i64_max ∧ e = i64_max - 1))
  end.
Proof.
  intros (H1&H2&H3&H4). unfold to_absolute, flock_origin.
  unfold is_i64, sat_add_i64, sat_sub_i64, sat_i64, i64_max, i64_min in *.
  destruct (Z.eqb_spec (fl_whence fl) SEEK_SET) as [?|];
    [|destruct (Z.eqb_spec (fl_whence fl) SEEK_CUR) as [?|];
      [|destruct (Z.eqb_spec (fl_whence fl) SEEK_END) as [?|]]]; simpl; [..|naive_solver].
  all: repeat case_match; simplify_eq/=; first [lia | split; [done|lia]].
Qed.

Lemma to_absolute_spec_witness :
  to_absolute (mkFlock F_WRLCK SEEK_SET 10 (-4) 0) 100 0 = Ok (7, 10) ∧
  to_absolute (mkFlock F_WRLCK SEEK_SET i64_max 1 0) 100 0 = Ok (i64_max, i64_max - 1) ∧ 0 ≤ 7.
Proof.
  split; [reflexivity|]. split; [reflexivity|].
  pose proof (to_absolute_spec (mkFlock F_WRLCK SEEK_SET 10 (-4) 0) 100 0) as H.
  destruct H as [H _]; [|exact H].
  unfold flock_in_range, is_i64, i64_min, i64_max. simpl. lia.
Defined.

(** A request whose range is not the inverted one. *)
Definition valid_request (fl : Flock) (size off : Z) : Prop :=
  flock_in_range fl size off ∧ ¬ (flock_origin fl size off = i64_max ∧ 0 < fl_len fl).

Lemma valid_request_range fl size off s e :
  valid_request fl size off → to_absolute fl size off = Ok (s, e) → 0 ≤ s ≤ e ∧ e ≤ i64_max.
Proof.
  intros [(H1&H2&H3&H4) Hne]. revert Hne. unfold to_absolute, flock_origin.
  unfold is_i64, sat_add_i64, sat_sub_i64, sat_i64, i64_max, i64_min in *.
  intros Hne Habs. exec. repeat case_match; simplify_eq/=; lia.
Qed.

Definition lock_type_ok (t : Z) : Prop := t = F_RDLCK ∨ t = F_WRLCK ∨ t = F_UNLCK.

(** What a request means for the bytes of the file. *)
Definition view_after (ls : list PosixLock) (t s e owner p b t' : Z) : Prop :=
  (p = owner ∧ s ≤ b ≤ e ∧ t' = t ∧ t' ≠ F_UNLCK) ∨
  (holds ls p b t' ∧ ¬ (p = owner ∧ s ≤ b ≤ e)).

Lemma blocked_dec_spec st path fl s e owner :
  state_wf st → s ≤ e →
  bool_decide (fl_type fl ≠ F_UNLCK)
     && existsb (λ x, negb (l_pid x =? owner)
                      && locks_conflict x (mkLock (fl_type fl) s e owner)) (entry_of st path) = true
  ↔ fl_type fl ≠ F_UNLCK ∧ blocked_by (entry_of st path) (fl_type fl) s e owner.
Proof.
  intros Hwf Hse. rewrite andb_true_iff, bool_decide_eq_true.
  rewrite setlk_conflict_spec; [done| |done]. by apply wf_ok, entry_of_wf.
Qed.


Lemma view_after_wf ls ls' t s e owner :
  locks_wf ls → Forall lock_ok ls' →
  ¬ (t ≠ F_UNLCK ∧ blocked_by ls t s e owner) →
  (∀ p b t', holds ls' p b t' ↔ view_after ls t s e owner p b t') →
  locks_wf ls'.
Proof.
  intros [Hok Hfun Hex] Hok' Hnb Hview. unfold view_after in Hview. split; [done|..].
  - intros p b t1 t2 [?|[H1 ?]]%Hview [?|[H2 ?]]%Hview; [intuition congruence|tauto|tauto|eauto].
  - assert (∀ q b t2, s ≤ b ≤ e → t ≠ F_UNLCK → q ≠ owner → holds ls q b t2 →
              t = F_RDLCK ∧ t2 = F_RDLCK) as Hnew.
    { intros q b t2 Hb Ht Hq Hh. destruct (decide (t2 = F_RDLCK ∧ t = F_RDLCK)) as [?|Hn]; [tauto|].
      destruct Hnb. split; [done|]. exists q, b, t2. done. }
    intros p q b t1 t2 Hpq [H1|[H1 ?]]%Hview [H2|[H2 ?]]%Hview.
    + intuition congruence.
    + destruct H1 as (->&Hb&->&?). apply (Hnew q b t2); auto.
    + destruct H2 as (->&Hb&->&?). destruct (Hnew p b t1); auto.
    + eauto.
Qed.

Lemma setlk_wf st path fl size off owner :
  state_wf st → valid_request fl size off →
  state_wf (setlk st path fl size off owner).1.
Proof.
  intros Hwf Hreq. destruct (setlk _ _ _ _ _ _) as [st' r] eqn:Hset. simpl.
  assert (FILE_LOCKS st' = FILE_LOCKS st ∨ (lock_type_ok (fl_type fl) ∧
    ∃ s e, to_absolute fl size off = Ok (s, e))) as [Heq|[Hty (s&e&Habs)]].
  { revert Hset. unfold setlk. destruct (_ && _ && _) eqn:E; [intros [= <- _]; by left|].
    assert (lock_type_ok (fl_type fl)) by (unfold lock_type_ok; lia).
    destruct (to_absolute _ _ _) as [[s e]|]; [right; eauto|intros [= <- _]; by left]. }
  { intros p ls. rewrite Heq. apply Hwf. }
  destruct (valid_request_range _ _ _ _ _ Hreq Habs) as [Hse He].
  pose proof (setlk_cases st path fl size off owner s e Hwf Habs Hse He Hty) as Hc.
  pose proof (blocked_dec_spec st path fl s e owner Hwf ltac:(lia)) as Hb.
  rewrite Hset in Hc. intros path' ls Hls.
  destruct (decide (path' = path)) as [->|Hne].
  - destruct (bool_decide _ && _).
    + destruct Hc as [_ Hl]. rewrite Hl, lookup_insert_eq in Hls. injection Hls as <-.
      by apply entry_of_wf.
    + destruct Hc as (_ & ls' & Hl & Hok & Hh). rewrite Hl, lookup_insert_eq in Hls.
      injection Hls as <-. eapply view_after_wf; [by apply (entry_of_wf st path)|done| |exact Hh].
      intros ?%Hb. done.
  - apply (Hwf path'). destruct (bool_decide _ && _);
      [destruct Hc as [_ Hl] | destruct Hc as (_ & ls' & Hl & _)];
      rewrite Hl, lookup_insert_ne in Hls by done; done.
Qed.

Definition locks_init : LockState := mkLockState ∅ ∅ ∅ [].

Lemma locks_init_wf : state_wf locks_init.
Proof. intros path ls H. cbn in H. by rewrite lookup_empty in H. Qed.

(** Process 1 write-locks bytes 0..9 of a file, then unlocks 3..5. *)
Definition demo_wr : Flock := mkFlock F_WRLCK SEEK_SET 0 10 0.
Definition demo_un : Flock := mkFlock F_UNLCK SEEK_SET 3 3 0.
Definition demo_state : LockState := (setlk locks_init "a" demo_wr 0 0 1).1.

Ltac solve_request :=
  split; [unfold flock_in_range, is_i64, i64_min, i64_max; simpl; lia
         | unfold flock_origin, i64_max; simpl; lia].

Lemma demo_state_wf : state_wf demo_state.
Proof. apply setlk_wf; [apply locks_init_wf|]. solve_request. Qed.


(** ** Release on close and on exit *)

Lemma holds_drop_owner o ls p b t :
  holds (drop_owner o ls) p b t ↔ holds ls p b t ∧ p ≠ o.
Proof.
  unfold holds, drop_owner. setoid_rewrite elem_of_retain. split.
  - intros (l&[Hl Hp]&<-&?). split; [eauto|]. lia.
  - intros [(l&Hl&<-&?) Hp]. exists l. split; [|done]. split; [done|]. lia.
Qed.

Lemma drop_owner_wf o ls : locks_wf ls → locks_wf (drop_owner o ls).
Proof.
  intros [Hok Hf He]. split.
  - rewrite Forall_forall in *. intros l [Hl _]%elem_of_retain. auto.
  - intros p b t1 t2. rewrite !holds_drop_owner. intros [? _] [? _]. eauto.
  - intros p q b t1 t2 Hpq. rewrite !holds_drop_owner. intros [? _] [? _]. eauto.
Qed.

Lemma foldl_wake_FILE_LOCKS paths st :
  FILE_LOCKS (foldl wake_posix_waiters st paths) = FILE_LOCKS st.
Proof. revert st. induction paths as [|p ps IH]; intros st; simpl; [done|]. by rewrite IH, wake_FILE_LOCKS. Qed.

Lemma foldl_wake_WAITS paths st :
  POSIX_LOCK_WAITS (foldl wake_posix_waiters st paths) = POSIX_LOCK_WAITS st.
Proof. revert st. induction paths as [|p ps IH]; intros st; simpl; [done|]. by rewrite IH, wake_WAITS. Qed.

Lemma release_path_entry st path owner path' :
  entry_of (release_posix_locks st path owner) path' =
  if bool_decide (path' = path) then drop_owner owner (entry_of st path) else entry_of st path'.
Proof.
  unfold release_posix_locks, entry_of.
  destruct (FILE_LOCKS st !! path) as [ls|] eqn:E; simpl.
  - assert (FILE_LOCKS (if negb (length (drop_owner owner ls) =? length ls)%nat
      then wake_posix_waiters (clear_wait (set_locks st (match drop_owner owner ls with
             | [] => delete path (FILE_LOCKS st) | _ :: _ => <[path:=drop_owner owner ls]> (FILE_LOCKS st)
             end)) owner) path
      else clear_wait (set_locks st (match drop_owner owner ls with
             | [] => delete path (FILE_LOCKS st) | _ :: _ => <[path:=drop_owner owner ls]> (FILE_LOCKS st)
             end)) owner) = match drop_owner owner ls with
             | [] => delete path (FILE_LOCKS st) | _ :: _ => <[path:=drop_owner owner ls]> (FILE_LOCKS st)
             end) as ->.
    { destruct (negb _); by rewrite ?wake_FILE_LOCKS. }
    case_bool_decide as Hp; [subst path'|].
    + destruct (drop_owner owner ls) eqn:Ed; [by rewrite lookup_delete_eq|by rewrite lookup_insert_eq].
    + destruct (drop_owner owner ls) eqn:Ed; [by rewrite lookup_delete_ne|by rewrite lookup_insert_ne].
  - case_bool_decide as Hp; [subst path'; by rewrite E|done].
Qed.

Lemma release_owner_entry st owner path :
  entry_of (release_posix_locks_by_owner st owner) path = drop_owner owner (entry_of st path).
Proof.
  unfold release_posix_locks_by_owner, entry_of. rewrite foldl_wake_FILE_LOCKS. simpl.
  rewrite map_lookup_filter, lookup_fmap.
  destruct (FILE_LOCKS st !! path) as [ls|] eqn:E; simpl; [|done].
  case_guard as Hg; simpl; [done|]. by destruct (drop_owner owner ls); [|destruct Hg].
Qed.

Lemma state_wf_entries st : (∀ path, locks_wf (entry_of st path)) → state_wf st.
Proof. intros H path ls Hl. specialize (H path). unfold entry_of in H. by rewrite Hl in H. Qed.

(** Closing a descriptor of a file releases exactly the closing process's
    locks on that file, and process exit exactly its locks on every file:
    nobody else's lock changes, and the table stays well formed. *)
Theorem release_exact st path owner :
  state_wf st →
  state_wf (release_posix_locks st path owner) ∧
  state_wf (release_posix_locks_by_owner st owner) ∧
  (∀ path' p b t, holds (entry_of (release_posix_locks st path owner) path') p b t ↔
     holds (entry_of st path') p b t ∧ ¬ (path' = path ∧ p = owner)) ∧
  (∀ path' p b t, holds (entry_of (release_posix_locks_by_owner st owner) path') p b t ↔
     holds (entry_of st path') p b t ∧ p ≠ owner) ∧
  POSIX_LOCK_WAITS (release_posix_locks_by_owner st owner) !! owner = None.
Proof.
  intros Hwf. split_and!.
  - apply state_wf_entries. intros p. rewrite release_path_entry.
    case_bool_decide; [apply drop_owner_wf|]; by apply entry_of_wf.
  - apply state_wf_entries. intros p. rewrite release_owner_entry.
    by apply drop_owner_wf, entry_of_wf.
  - intros path' p b t. rewrite release_path_entry.
    case_bool_decide as E; [subst path'; rewrite holds_drop_owner|]; tauto.
  - intros path' p b t. by rewrite release_owner_entry, holds_drop_owner.
  - unfold release_posix_locks_by_owner. rewrite foldl_wake_WAITS. simpl. apply lookup_delete_eq.
Qed.

Lemma release_exact_witness :
  state_wf demo_state ∧ ¬ holds (entry_of (release_posix_locks demo_state "a" 1) "a") 1 4 F_WRLCK.
Proof.
  split; [apply demo_state_wf|].
  destruct (release_exact demo_state "a" 1 demo_state_wf) as (_&_&H&_).
  intros Hh%H. tauto.
Defined.

(** ** Every interleaving keeps the locks exclusive *)

(** The steps by which tasks touch the tables.  A blocking request contributes
    its two halves separately, with the owners of some earlier check, and its
    return; every other call is one step under the table's mutex. *)
Inductive lock_step : LockState → LockState → Prop :=
| lstep_setlk st path fl size off owner :
    valid_request fl size off → lock_step st (setlk st path fl size off owner).1
| lstep_check st path fl size off owner :
    valid_request fl size off → lock_step st (poll_check st path fl size off owner).1
| lstep_commit st path fl size off owner task owners :
    valid_request fl size off →
    lock_step st (poll_commit st path fl size off owner task owners).1
| lstep_return st owner output : lock_step st (setlk_blocking_return st owner output).1
| lstep_close st path owner : lock_step st (release_posix_locks st path owner)
| lstep_exit st owner : lock_step st (release_posix_locks_by_owner st owner).

Lemma state_wf_locks st st' : FILE_LOCKS st' = FILE_LOCKS st → state_wf st → state_wf st'.
Proof. intros H Hwf path ls. rewrite H. apply Hwf. Qed.

Lemma poll_check_locks st path fl size off owner :
  FILE_LOCKS (poll_check st path fl size off owner).1 =
  FILE_LOCKS (setlk st path fl size off owner).1.
Proof. unfold poll_check. destruct (setlk _ _ _ _ _ _) as [st' [?|[]]]; repeat case_match; done. Qed.

Lemma poll_commit_locks st path fl size off owner task owners :
  FILE_LOCKS (poll_commit st path fl size off owner task owners).1 =
  FILE_LOCKS (setlk (register_posix_waker (record_wait st owner owners) path task)
                path fl size off owner).1.
Proof. unfold poll_commit. destruct (setlk _ _ _ _ _ _) as [st' [?|[]]]; done. Qed.

Lemma lock_step_wf st st' : state_wf st → lock_step st st' → state_wf st'.
Proof.
  intros Hwf Hs. destruct Hs; [by apply setlk_wf|..|done| |].
  - eapply state_wf_locks; [apply poll_check_locks|]. by apply setlk_wf.
  - eapply state_wf_locks; [apply poll_commit_locks|]. apply setlk_wf; [|done].
    eapply state_wf_locks; [|exact Hwf]. by destruct owners.
  - apply state_wf_entries. intros p. rewrite release_path_entry.
    case_bool_decide; [apply drop_owner_wf|]; by apply entry_of_wf.
  - apply state_wf_entries. intros p. rewrite release_owner_entry.
    by apply drop_owner_wf, entry_of_wf.
Qed.

(** [C28] Mutual exclusion of record locks: in every state reachable from the
    empty table by any interleaving of lock, unlock, blocking lock, close and
    exit steps, two different processes hold locks on the same byte of a file
    only if both are read locks, and one process never holds two types on a
    byte. *)
Theorem locks_exclusive st path p q b t1 t2 :
  rtc lock_step locks_init st →
  holds (entry_of st path) p b t1 → holds (entry_of st path) q b t2 →
  t1 = t2 ∧ (p ≠ q → t1 = F_RDLCK).
Proof.
  intros Hr H1 H2.
  assert (state_wf st) as Hwf by (eapply rtc_invariant; eauto using lock_step_wf, locks_init_wf).
  destruct (entry_of_wf st path Hwf) as [_ Hf He].
  destruct (decide (p = q)) as [->|Hpq]; [split; [by eapply Hf|done]|].
  destruct (He p q b t1 t2 Hpq H1 H2) as [-> ->]. done.
Qed.

Definition demo_rd : Flock := mkFlock F_RDLCK SEEK_SET 0 0 0.
Definition demo_shared : LockState :=
  (setlk (setlk locks_init "a" demo_rd 0 0 1).1 "a" demo_rd 0 0 2).1.

Lemma locks_exclusive_witness :
  rtc lock_step locks_init demo_shared ∧
  entry_of demo_shared "a" = [mkLock F_RDLCK 0 i64_max 1; mkLock F_RDLCK 0 i64_max 2] ∧
  F_RDLCK = F_RDLCK.
Proof.
  assert (rtc lock_step locks_init demo_shared) as Hr.
  { eapply rtc_l; [apply lstep_setlk with (path := "a") (fl := demo_rd) (size := 0) (off := 0) (owner := 1); solve_request|].
    apply rtc_once. apply lstep_setlk. solve_request. }
  split; [exact Hr|]. split; [reflexivity|].
  refine (proj2 (locks_exclusive demo_shared "a" 1 2 5 F_RDLCK F_RDLCK Hr _ _) _); [| |lia].
  - exists (mkLock F_RDLCK 0 i64_max 1). split; [apply list_elem_of_here|].
    unfold covers, i64_max; simpl; lia.
  - exists (mkLock F_RDLCK 0 i64_max 2). split; [apply list_elem_of_further, list_elem_of_here|].
    unfold covers, i64_max; simpl; lia.
Defined.

(** ** [F_GETLK] *)

Definition range_key (l : PosixLock) : Z * Z := (l_start l, l_end l).

Lemma min_by_range_spec ls : ∀ best,
  match min_by_range best ls with
  | None => best = None ∧ ls = []
  | Some m => (best = Some m ∨ m ∈ ls) ∧
      (∀ x, best = Some x ∨ x ∈ ls → range_lt x m = false)
  end.
Proof.
  induction ls as [|x ls IH]; intros best; simpl.
  { destruct best as [b|]; [|done]. split; [by left|].
    intros x [[= ->]|[]%elem_of_nil]. unfold range_lt. lia. }
  destruct best as [b|].
  - specialize (IH (Some (if range_lt x b then x else b))).
    destruct (min_by_range _ ls) as [m|]; [|destruct IH; done]. destruct IH as [Hin Hmin].
    split.
    + destruct Hin as [[= <-]|]; [|right; by right]. destruct (range_lt x b); [right; left|by left].
    + pose proof (Hmin _ (or_introl eq_refl)) as Hb. intros y [[= <-]|[->|Hy]%elem_of_cons].
      * destruct (range_lt x b) eqn:E; [unfold range_lt in *; lia|done].
      * destruct (range_lt x b) eqn:E; [done|unfold range_lt in *; lia].
      * apply Hmin. by right.
  - specialize (IH (Some x)). destruct (min_by_range _ ls) as [m|]; [|destruct IH; done].
    destruct IH as [Hin Hmin]. split.
    + right. destruct Hin as [[= <-]|]; [left|by right].
    + intros y [?|[->|Hy]%elem_of_cons]; [done|apply Hmin; by left|apply Hmin; by right].
Qed.

(** [F_GETLK] tells the truth: it reports [F_UNLCK], leaving the rest of
    the request alone, exactly when the request would not be blocked, and
    otherwise describes a lock another process really holds, that conflicts
    with the request, and whose range no other conflicting lock precedes; the
    reported start and length denote exactly that lock's bytes. *)
Theorem getlk_truthful st path fl size off owner s e :
  state_wf st → valid_request fl size off →
  (fl_type fl = F_RDLCK ∨ fl_type fl = F_WRLCK) →
  to_absolute fl size off = Ok (s, e) →
  match getlk st path fl size off owner with
  | (fl', Ok _) =>
      if fl_type fl' =? F_UNLCK
      then ¬ blocked_by (entry_of st path) (fl_type fl) s e owner ∧
           fl' = mkFlock F_UNLCK (fl_whence fl) (fl_start fl) (fl_len fl) (fl_pid fl)
      else ∃ l, l ∈ entry_of st path ∧ l_pid l ≠ owner ∧
           locks_conflict l (mkLock (fl_type fl) s e owner) = true ∧
           (∀ x, x ∈ entry_of st path → l_pid x ≠ owner →
              locks_conflict x (mkLock (fl_type fl) s e owner) = true → range_lt x l = false) ∧
           fl_type fl' = l_type l ∧ fl_pid fl' = l_pid l ∧
           to_absolute fl' size off = Ok (l_start l, l_end l)
  | (_, Err _) => False
  end.
Proof.
  intros Hwf Hreq Hty Habs. destruct (valid_request_range _ _ _ _ _ Hreq Habs) as [Hse He].
  destruct (entry_of_wf st path Hwf) as [Hok _ _].
  unfold getlk. rewrite Habs.
  destruct (_ && _) eqn:E; [lia|]. clear E.
  assert (getlk_probe : ∀ x, locks_conflict x (mkLock (fl_type fl) s e 0) =
    locks_conflict x (mkLock (fl_type fl) s e owner)) by done.
  unfold entry_of in *. destruct (FILE_LOCKS st !! path) as [ls|]; simpl in *.
  2:{ split; [|done]. intros (q&b&t&_&_&[]%holds_nil&_). }
  set (sel := retain _ ls).
  assert (∀ x, x ∈ sel ↔ x ∈ ls ∧ l_pid x ≠ owner ∧
    locks_conflict x (mkLock (fl_type fl) s e owner) = true) as Hsel.
  { intros x. unfold sel. rewrite elem_of_retain, getlk_probe, andb_true_iff, negb_true_iff.
    by rewrite Z.eqb_neq. }
  pose proof (min_by_range_spec sel None) as Hm. clearbody sel.
  destruct (min_by_range None sel) as [m|]; simpl.
  - destruct Hm as [[?|Hin] Hmin]; [done|]. apply Hsel in Hin as (Hin&Hp&Hc).
    rewrite Forall_forall in Hok. pose proof (Hok m Hin) as Hm.
    destruct (Z.eqb_spec (l_type m) F_UNLCK); [unfold_locks; lia|].
    exists m. split_and!; try done.
    + intros x Hx Hxp Hxc. apply Hmin. right. by apply Hsel.
    + unfold to_absolute. simpl. unfold_locks.
      destruct (Z.ltb_spec (l_start m) 0); [lia|]. destruct (Z.eqb_spec (l_end m) 9223372036854775807) as [Ee|Ee]; simpl.
      * by rewrite Ee.
      * destruct (Z.eqb_spec (l_end m - l_start m + 1) 0); [lia|].
        destruct (Z.ltb_spec (l_end m - l_start m + 1) 0); [lia|].
        do 2 f_equal. lia.
  - split; [|done]. destruct Hm as [_ ->]. intros Hb.
    apply setlk_conflict_spec in Hb; [|done|lia]. apply existsb_elem in Hb as (x&Hx&Hc).
    split_bools. destruct (not_elem_of_nil x). apply Hsel. split; [done|]. split; [lia|done].
Qed.

Lemma getlk_truthful_witness :
  getlk demo_state "a" demo_rd 0 0 2 = (mkFlock F_WRLCK SEEK_SET 0 10 1, Ok 0) ∧
  ∃ l, l ∈ entry_of demo_state "a" ∧ l_pid l ≠ 2.
Proof.
  split; [reflexivity|].
  pose proof (getlk_truthful demo_state "a" demo_rd 0 0 2 0 i64_max demo_state_wf
    ltac:(solve_request) ltac:(left; reflexivity) eq_refl) as H.
  destruct H as (l&H1&H2&_). exists l. split; [exact H1|exact H2].
Defined.

(** ** Deadlock detection *)

(** [x] waits for [y]. *)
Definition waits_for (graph : gmap Z (list Z)) (x y : Z) : Prop :=
  ∃ next, graph !! x = Some next ∧ y ∈ next.

Section reaches.
Context (graph : gmap Z (list Z)) (target : Z).

(** What a search that did not find [target] leaves in [visited]. *)
Definition explored (V V' : list Z) : Prop :=
  V ⊆ V' ∧ (target ∉ V → target ∉ V') ∧
  ∀ x, x ∈ V' → x ∈ V ∨ ∀ y, waits_for graph x y → y ∈ V'.

Lemma explored_refl V : explored V V.
Proof. split_and!; auto. Qed.

Lemma explored_trans V1 V2 V3 : explored V1 V2 → explored V2 V3 → explored V1 V3.
Proof.
  intros (Hs1&Ht1&Hc1) (Hs2&Ht2&Hc2). split_and!; [by etrans|auto|].
  intros x [Hx|?]%Hc2; [|by right]. apply Hc1 in Hx as [?|Hx]; [by left|right; auto].
Qed.

Definition search_ok (V : list Z) (c : Z) (r : option (bool * list Z)) : Prop :=
  match r with
  | None => True
  | Some (true, _) => rtc (waits_for graph) c target
  | Some (false, V') => explored V V' ∧ c ∈ V'
  end.

Lemma any_visiting_ok f next : ∀ V,
  (∀ c V, search_ok V c (f c V)) →
  match any_visiting f next V with
  | None => True
  | Some (true, _) => ∃ c, c ∈ next ∧ rtc (waits_for graph) c target
  | Some (false, V') => explored V V' ∧ next ⊆ V'
  end.
Proof.
  induction next as [|c next IH]; intros V Hf; simpl.
  { split; [apply explored_refl|]. intros x []%elem_of_nil. }
  pose proof (Hf c V) as Hc. destruct (f c V) as [[[] V1]|]; simpl in Hc; [|..|done].
  { exists c. split; [left|done]. }
  destruct Hc as [He Hc]. specialize (IH V1 Hf).
  destruct (any_visiting f next V1) as [[[] V2]|]; [|..|done].
  - destruct IH as (c'&?&?). exists c'. split; [by right|done].
  - destruct IH as [He' Hn]. split; [by eapply explored_trans|].
    intros x [->|Hx]%elem_of_cons; [|auto]. by apply He'.
Qed.

Lemma wait_path_reaches_ok fuel : ∀ c V,
  search_ok V c (wait_path_reaches fuel graph target c V).
Proof.
  induction fuel as [|fuel IH]; intros c V; simpl; [done|].
  destruct (Z.eqb_spec c target) as [->|Hne]; simpl; [done|].
  case_bool_decide as HV; simpl; [split; [apply explored_refl|done]|].
  assert (Hc : ∀ V', explored (V ++ [c]) V' → (∀ y, waits_for graph c y → y ∈ V') →
    explored V V' ∧ c ∈ V').
  { intros V' (Hs&Ht&Hcl) Hy. split; [split_and!|].
    - intros x Hx. apply Hs, elem_of_app. by left.
    - intros Ht'. apply Ht. rewrite elem_of_app, list_elem_of_singleton. naive_solver.
    - intros x Hx. apply Hcl in Hx as [[?|Hx]%elem_of_app|?]; auto.
      apply list_elem_of_singleton in Hx as ->. auto.
    - apply Hs, elem_of_app. right. by apply list_elem_of_singleton. }
  destruct (graph !! c) as [next|] eqn:E.
  - pose proof (any_visiting_ok _ next (V ++ [c]) IH) as H.
    destruct (any_visiting _ _ _) as [[[] V']|]; simpl; [|..|done].
    + destruct H as (c'&Hc'&Hr). eapply rtc_l; [|exact Hr]. exists next. done.
    + destruct H as [He Hn]. apply Hc; [done|]. intros y (n&?&Hy). simplify_eq. auto.
  - simpl. apply Hc; [apply explored_refl|]. intros y (n&?&_). simplify_eq.
Qed.

Lemma search_false_unreachable V c :
  explored [] V → c ∈ V → ¬ rtc (waits_for graph) c target.
Proof.
  intros (_&Ht&Hcl) Hc Hr. apply Ht; [apply not_elem_of_nil|].
  induction Hr as [|x y z Hxy _ IH]; [done|]. apply IH; [done|].
  apply Hcl in Hc as [[]%elem_of_nil|Hc]; auto.
Qed.

Lemma any_visiting_grows f next : ∀ V V' b,
  (∀ c V V' b, f c V = Some (b, V') → V ⊆ V') → any_visiting f next V = Some (b, V') → V ⊆ V'.
Proof.
  induction next as [|c next IH]; intros V V' b Hf; simpl; [by intros [= <- <-]|].
  destruct (f c V) as [[[] V1]|] eqn:E; [|..|done].
  - intros [= <- <-]. eauto.
  - intros H. etrans; [by eapply Hf|]. by eapply IH.
Qed.

Lemma wait_path_reaches_grows fuel : ∀ c V V' b,
  wait_path_reaches fuel graph target c V = Some (b, V') → V ⊆ V'.
Proof.
  induction fuel as [|fuel IH]; intros c V V' b; simpl; [done|].
  destruct (_ =? _); [by intros [= <- <-]|].
  case_bool_decide; [by intros [= <- <-]|].
  intros H'. transitivity (V ++ [c]); [intros x ?; apply elem_of_app; by left|].
  destruct (graph !! c); [|by simplify_eq]. eapply any_visiting_grows; [|exact H']. eauto.
Qed.

(** Nodes that still have unexplored outgoing edges. *)
Definition unvisited (V : list Z) : nat := size (dom graph ∖ list_to_set V : gset Z).

Lemma unvisited_mono V V' : V ⊆ V' → (unvisited V' ≤ unvisited V)%nat.
Proof.
  intros H. unfold unvisited. apply subseteq_size. intros x. rewrite !elem_of_difference, !elem_of_list_to_set. 
  intros [? Hn]. split; [done|auto].
Qed.

Lemma unvisited_step V c : c ∉ V → is_Some (graph !! c) → (unvisited (V ++ [c]) < unvisited V)%nat.
Proof.
  intros HV Hc. unfold unvisited. apply subset_size. split.
  - intros x. rewrite !elem_of_difference, !elem_of_list_to_set, elem_of_app. tauto.
  - intros H. specialize (H c). rewrite !elem_of_difference, !elem_of_list_to_set, elem_of_app in H.
    apply elem_of_dom in Hc. rewrite list_elem_of_singleton in H. naive_solver.
Qed.

Lemma any_visiting_total f next n : ∀ V,
  (∀ c V V' b, f c V = Some (b, V') → V ⊆ V') →
  (∀ c V, (unvisited V < n)%nat → is_Some (f c V)) →
  (unvisited V < n)%nat → is_Some (any_visiting f next V).
Proof.
  induction next as [|c next IH]; intros V Hg Hf HV; simpl; [done|].
  destruct (Hf c V HV) as [[[] V1] E]; rewrite E; [done|].
  apply IH; auto. pose proof (unvisited_mono V V1 (Hg _ _ _ _ E)). lia.
Qed.

Lemma wait_path_reaches_total fuel : ∀ c V,
  (unvisited V < fuel)%nat → is_Some (wait_path_reaches fuel graph target c V).
Proof.
  induction fuel as [|fuel IH]; intros c V HV; [lia|]. simpl.
  destruct (_ =? _); [done|]. case_bool_decide as Hc; [done|].
  destruct (graph !! c) as [next|] eqn:E; [|done].
  apply (any_visiting_total _ _ fuel); [apply wait_path_reaches_grows|apply IH|].
  pose proof (unvisited_step V c Hc (mk_is_Some _ _ E)). lia.
Qed.

Lemma wait_path_reaches_spec c :
  ∃ b V, wait_path_reaches (wait_fuel graph) graph target c [] = Some (b, V) ∧
    (b = true ↔ rtc (waits_for graph) c target).
Proof.
  destruct (wait_path_reaches_total (wait_fuel graph) c []) as [[b V] E].
  { unfold wait_fuel, unvisited. rewrite <- (size_dom (D := gset Z)).
    assert (size (dom graph ∖ list_to_set [] : gset Z) ≤ size (dom graph : gset Z))%nat
      by (apply subseteq_size; set_solver). lia. }
  exists b, V. split; [done|]. pose proof (wait_path_reaches_ok (wait_fuel graph) c []) as H.
  rewrite E in H. simpl in H. destruct b; [done|]. destruct H as [He Hc].
  split; [done|]. intros Hr. by destruct (search_false_unreachable V c He Hc).
Qed.
End reaches.

Lemma would_deadlock_reaches graph owner waiting_for :
  would_deadlock graph owner waiting_for = true ↔
  ∃ w, w ∈ waiting_for ∧ rtc (waits_for graph) w owner.
Proof.
  induction waiting_for as [|w W IH]; cbn [would_deadlock].
  { split; [done|]. intros (w&[]%elem_of_nil&_). }
  destruct (wait_path_reaches_spec graph owner w) as (b&V&E&Hb). rewrite E.
  setoid_rewrite elem_of_cons. destruct b.
  - split; [|done]. intros _. exists w. split; [by left|]. by apply Hb.
  - rewrite IH. split; [intros (x&?&?); eauto|]. intros (x&[->|?]&Hr); [|eauto].
    apply Hb in Hr. done.
Qed.

(** The deadlock check is exact on the recorded wait graph, and its
    search always finishes: it answers [true] if and only if some process the
    caller is about to wait for already waits, directly or through a chain of
    recorded waits, for the caller. *)
Theorem would_deadlock_spec graph owner waiting_for :
  (∀ start, is_Some (wait_path_reaches (wait_fuel graph) graph owner start [])) ∧
  (would_deadlock graph owner waiting_for = true ↔
   ∃ w, w ∈ waiting_for ∧ rtc (waits_for graph) w owner).
Proof.
  split; [|apply would_deadlock_reaches].
  intros start. destruct (wait_path_reaches_spec graph owner start) as (b&V&->&_). done.
Qed.

(** ** The wait graph stays acyclic when polls do not interleave *)

Definition acyclic (graph : gmap Z (list Z)) : Prop := ∀ x, ¬ tc (waits_for graph) x x.

Lemma waits_for_insert_ne graph p W x y :
  x ≠ p → waits_for (<[p := W]> graph) x y ↔ waits_for graph x y.
Proof. intros. unfold waits_for. by rewrite lookup_insert_ne. Qed.

(** A path to [p] need not use [p]'s own new edges. *)
Lemma path_to_inserted graph p W x :
  rtc (waits_for (<[p := W]> graph)) x p → rtc (waits_for graph) x p.
Proof.
  intros H. remember p as q eqn:Hq in H at 2. revert Hq.
  induction H as [|x y z Hxy _ IH]; intros Hq; [by subst|].
  destruct (decide (x = p)) as [->|Hx]; [done|].
  eapply rtc_l; [|by apply IH]. by apply (waits_for_insert_ne graph p W).
Qed.

(** A path either avoids the new edges or leaves [p] by one of them. *)
Lemma path_inserted graph p W x y :
  tc (waits_for (<[p := W]> graph)) x y →
  tc (waits_for graph) x y ∨
  ∃ w, w ∈ W ∧ rtc (waits_for (<[p := W]> graph)) x p ∧ rtc (waits_for (<[p := W]> graph)) w y.
Proof.
  assert (∀ x y, waits_for (<[p := W]> graph) x y →
    waits_for graph x y ∨ (x = p ∧ y ∈ W)) as Hedge.
  { intros a b H. destruct (decide (a = p)) as [->|Ha].
    - right. destruct H as (n&Hn&?). rewrite lookup_insert_eq in Hn. by simplify_eq.
    - left. by apply (waits_for_insert_ne graph p W). }
  induction 1 as [x y Hxy|x y z Hxy Hyz IH].
  - destruct (Hedge _ _ Hxy) as [?|[-> ?]]; [left; by constructor|right; eauto using rtc_refl].
  - destruct (Hedge _ _ Hxy) as [?|[-> ?]].
    + destruct IH as [?|(w&?&?&?)]; [left; by eapply tc_l|right; eauto using rtc_l].
    + right. exists y. eauto using rtc_refl, tc_rtc.
Qed.

Lemma acyclic_insert graph p W :
  acyclic graph → (∀ w, w ∈ W → ¬ rtc (waits_for graph) w p) → acyclic (<[p := W]> graph).
Proof.
  intros Hac HW x [?|(w&Hw&Hxp&Hwx)]%path_inserted; [by eapply Hac|].
  eapply HW; [done|]. apply (path_to_inserted _ _ W). by etrans.
Qed.

Lemma acyclic_delete graph p : acyclic graph → acyclic (delete p graph).
Proof.
  assert (∀ a b, waits_for (delete p graph) a b → waits_for graph a b) as Hsub.
  { intros a b (n&Hn&?). apply lookup_delete_Some in Hn as [_ ?]. by exists n. }
  assert (∀ a b, tc (waits_for (delete p graph)) a b → tc (waits_for graph) a b) as Htc.
  { induction 1; eauto using tc_once, tc_l. }
  intros Hac x Hx. apply (Hac x), Htc, Hx.
Qed.

Lemma setlk_WAITS st path fl size off owner :
  POSIX_LOCK_WAITS (setlk st path fl size off owner).1 = POSIX_LOCK_WAITS st.
Proof. unfold setlk. repeat case_match; simpl; by rewrite ?wake_WAITS. Qed.

Lemma release_WAITS st path owner :
  POSIX_LOCK_WAITS (release_posix_locks st path owner) = delete owner (POSIX_LOCK_WAITS st).
Proof.
  unfold release_posix_locks. destruct (FILE_LOCKS st !! path); simpl; [|done].
  destruct (negb _); by rewrite ?wake_WAITS.
Qed.

Lemma acyclic_record_wait st owner W :
  acyclic (POSIX_LOCK_WAITS st) →
  would_deadlock (POSIX_LOCK_WAITS st) owner W = false →
  acyclic (POSIX_LOCK_WAITS (record_wait st owner W)).
Proof.
  intros Hac Hd. destruct W as [|w W]; simpl; [by apply acyclic_delete|].
  apply acyclic_insert; [done|]. intros w' Hw' Hr.
  assert (would_deadlock (POSIX_LOCK_WAITS st) owner (w :: W) = true); [|congruence].
  apply would_deadlock_reaches. eauto.
Qed.

Lemma setlk_poll_acyclic st path fl size off owner task :
  acyclic (POSIX_LOCK_WAITS st) →
  acyclic (POSIX_LOCK_WAITS (setlk_poll st path fl size off owner task).1).
Proof.
  intros Hac. unfold setlk_poll, poll_check.
  pose proof (setlk_WAITS st path fl size off owner) as Hw.
  assert (∀ st1 e, setlk st path fl size off owner = (st1, e) → acyclic (POSIX_LOCK_WAITS st1)) as Hac1.
  { intros st1 e E. rewrite E in Hw. simpl in Hw. by rewrite Hw. }
  destruct (setlk st path fl size off owner) as [st1 [ret|e]] eqn:E; simpl in *.
  { apply acyclic_delete. eauto. }
  destruct (decide (e = EAGAIN)) as [->|Hne].
  2:{ destruct e; try done; simpl; apply acyclic_delete; eauto. }
  destruct (would_deadlock _ _ _) eqn:Ed; simpl; [apply acyclic_delete; eauto|].
  unfold poll_commit.
  set (st2 := register_posix_waker _ _ _).
  assert (acyclic (POSIX_LOCK_WAITS st2)) as Hac2.
  { unfold st2. apply acyclic_record_wait; [by eauto|done]. }
  pose proof (setlk_WAITS st2 path fl size off owner) as Hw2.
  destruct (setlk st2 path fl size off owner) as [st3 [ret|e]]; simpl in *.
  - apply acyclic_delete. by rewrite Hw2.
  - destruct e; simpl; try apply acyclic_delete; by rewrite Hw2.
Qed.

(** The steps of tasks whose blocking requests are polled without another task
    touching the tables in between (one hart). *)
Inductive atomic_step : LockState → LockState → Prop :=
| astep_setlk st path fl size off owner :
    atomic_step st (setlk st path fl size off owner).1
| astep_poll st path fl size off owner task :
    atomic_step st (setlk_poll st path fl size off owner task).1
| astep_return st owner output : atomic_step st (setlk_blocking_return st owner output).1
| astep_close st path owner : atomic_step st (release_posix_locks st path owner)
| astep_exit st owner : atomic_step st (release_posix_locks_by_owner st owner).

(** With polls that do not interleave, deadlock detection is complete: in
    every reachable state the recorded wait graph has no cycle, so no set of
    processes waits on itself. *)
Theorem atomic_polls_never_deadlock st :
  rtc atomic_step locks_init st → acyclic (POSIX_LOCK_WAITS st).
Proof.
  intros Hr. eapply (rtc_invariant _ (λ st, acyclic (POSIX_LOCK_WAITS st))); [|exact Hr|].
  - intros a b Hac Hs. destruct Hs; simpl.
    + by rewrite setlk_WAITS.
    + by apply setlk_poll_acyclic.
    + by apply acyclic_delete.
    + rewrite release_WAITS. by apply acyclic_delete.
    + unfold release_posix_locks_by_owner. rewrite foldl_wake_WAITS. by apply acyclic_delete.
  - intros x Hx. inversion Hx as [? ? (n&Hn&_)|? ? ? (n&Hn&_)];
      cbn in Hn; by rewrite lookup_empty in Hn.
Qed.

(** Processes 1 and 2 hold files [a] and [b] and each wants the other's. *)
Definition demo_cross : LockState :=
  (setlk (setlk locks_init "a" demo_wr 0 0 1).1 "b" demo_wr 0 0 2).1.
Definition demo_first_wait : LockState := (setlk_poll demo_cross "b" demo_wr 0 0 1 101).1.

Lemma atomic_polls_never_deadlock_witness :
  rtc atomic_step locks_init demo_first_wait ∧
  POSIX_LOCK_WAITS demo_first_wait !! 1 = Some [2] ∧
  (setlk_poll demo_first_wait "a" demo_wr 0 0 2 102).2 = Some (Err EDEADLK) ∧
  acyclic (POSIX_LOCK_WAITS demo_first_wait).
Proof.
  assert (rtc atomic_step locks_init demo_first_wait) as Hr.
  { eapply rtc_l; [apply (astep_setlk _ "a" demo_wr 0 0 1)|].
    eapply rtc_l; [apply (astep_setlk _ "b" demo_wr 0 0 2)|]. apply rtc_once, astep_poll. }
  split; [exact Hr|]. split; [reflexivity|]. split; [reflexivity|].
  exact (atomic_polls_never_deadlock _ Hr).
Defined.

(** The same two requests when the second check runs between the first
    request's check and its [record_wait]. *)
Definition race_check1 := poll_check demo_cross "b" demo_wr 0 0 1.
Definition race_check2 := poll_check race_check1.1 "a" demo_wr 0 0 2.
Definition race_commit1 := poll_commit race_check2.1 "b" demo_wr 0 0 1 101 [2].
Definition race_commit2 := poll_commit race_commit1.1 "a" demo_wr 0 0 2 102 [1].

(** Across harts the deadlock check can miss: the check and the recording
    of the wait are separate critical sections.  When both checks run before
    either wait is recorded, both requests go to sleep and the wait graph has
    the cycle 1 -> 2 -> 1 that no later step of theirs will report. *)
Theorem deadlock_check_races :
  race_check1.2 = CheckWait [2] ∧ race_check2.2 = CheckWait [1] ∧
  race_commit1.2 = None ∧ race_commit2.2 = None ∧
  rtc lock_step locks_init race_commit2.1 ∧
  ¬ acyclic (POSIX_LOCK_WAITS race_commit2.1).
Proof.
  split_and!; try reflexivity.
  - eapply rtc_l; [apply (lstep_setlk _ "a" demo_wr 0 0 1); solve_request|].
    eapply rtc_l; [apply (lstep_setlk _ "b" demo_wr 0 0 2); solve_request|].
    eapply rtc_l; [apply (lstep_check _ "b" demo_wr 0 0 1); solve_request|].
    eapply rtc_l; [apply (lstep_check _ "a" demo_wr 0 0 2); solve_request|].
    eapply rtc_l; [apply (lstep_commit _ "b" demo_wr 0 0 1 101 [2]); solve_request|].
    apply rtc_once. apply (lstep_commit _ "a" demo_wr 0 0 2 102 [1]). solve_request.
  - intros Hac. apply (Hac 1). eapply tc_l; [|apply tc_once].
    + exists [2]. split; [reflexivity|left].
    + exists [1]. split; [reflexivity|left].
Qed.
