(* ===== verification/FileLock.v ===== *)
(** * Whole-file locks, leases and the user layout of [struct flock]

    [syscall/fs/file_lock/types.rs] (the byte layout copied from and to user
    space), [bsd_flock.rs] with [sys_flock] of [syscall/fs/fd_ops.rs]
    ([flock(2)] on open file descriptions), and [lease.rs]
    ([fcntl(F_SETLEASE)]). *)

From S2P Require Import Prelude Errno Wake PosixLock.

(** ** The byte layout of [struct flock] *)

(** [to_ne_bytes] of an [n]-byte integer on a little-endian machine. *)
Fixpoint le_bytes (n : nat) (z : Z) : list Z :=
  match n with
  | O => []
  | S n => z mod 256 :: le_bytes n (z / 256)
  end.

(** [from_ne_bytes] of the unsigned, then of the signed [n]-byte integer. *)
Fixpoint le_value (bs : list Z) : Z :=
  match bs with
  | [] => 0
  | b :: bs => b + 256 * le_value bs
  end.
Definition from_ne_bytes (bs : list Z) : Z :=
  let m := 2 ^ (8 * Z.of_nat (length bs)) in
  let u := le_value bs in
  if u <? m / 2 then u else u - m.

(** [bytes[a..b]]. *)
Definition slice (bs : list Z) (a b : nat) : list Z := take (b - a) (drop a bs).

Definition flock_from_bytes (bytes : list Z) : option Flock :=
  if (length bytes <? 28)%nat then None
  else Some (mkFlock (from_ne_bytes (slice bytes 0 2)) (from_ne_bytes (slice bytes 2 4))
               (from_ne_bytes (slice bytes 8 16)) (from_ne_bytes (slice bytes 16 24))
               (from_ne_bytes (slice bytes 24 28))).

(** [bytes[a..].copy_from_slice(src)] on a buffer long enough. *)
Definition copy_at (a : nat) (src bytes : list Z) : list Z :=
  take a bytes ++ src ++ drop (a + length src) bytes.

Definition flock_to_bytes (fl : Flock) : list Z :=
  let bytes := replicate 32 0 in
  let bytes := copy_at 0 (le_bytes 2 (fl_type fl)) bytes in
  let bytes := copy_at 2 (le_bytes 2 (fl_whence fl)) bytes in
  let bytes := copy_at 8 (le_bytes 8 (fl_start fl)) bytes in
  let bytes := copy_at 16 (le_bytes 8 (fl_len fl)) bytes in
  let bytes := copy_at 24 (le_bytes 4 (fl_pid fl)) bytes in
  copy_at 28 (le_bytes 4 (fl_pid fl)) bytes.

Lemma length_le_bytes n z : length (le_bytes n z) = n.
Proof. revert z. induction n as [|n IH]; intros z; simpl; [done|]. by rewrite IH. Qed.

Lemma le_value_bytes n : ∀ z, le_value (le_bytes n z) = z mod 256 ^ Z.of_nat n.
Proof.
  induction n as [|n IH]; intros z; [by rewrite Z.mod_1_r|]. cbn [le_bytes le_value]. rewrite IH.
  rewrite Nat2Z.inj_succ, Z.pow_succ_r by lia.
  rewrite Z.rem_mul_r by lia. lia.
Qed.

Lemma from_to_ne_bytes n z :
  (0 < n)%nat → - 2 ^ (8 * Z.of_nat n - 1) ≤ z < 2 ^ (8 * Z.of_nat n - 1) →
  from_ne_bytes (le_bytes n z) = z.
Proof.
  intros Hn Hz. unfold from_ne_bytes. rewrite length_le_bytes, le_value_bytes.
  replace (256 ^ Z.of_nat n) with (2 ^ (8 * Z.of_nat n)) by (by rewrite Z.pow_mul_r by lia).
  set (h := 2 ^ (8 * Z.of_nat n - 1)) in *.
  assert (2 ^ (8 * Z.of_nat n) = 2 * h) as ->.
  { unfold h. rewrite <- Z.pow_succ_r by lia. f_equal. lia. }
  assert (0 < h) by (unfold h; lia).
  replace (2 * h / 2) with h by (rewrite Z.mul_comm, Z.div_mul; lia).
  destruct (decide (0 ≤ z)).
  - rewrite Z.mod_small by lia. destruct (Z.ltb_spec z h); lia.
  - replace (z mod (2 * h)) with (z + 2 * h).
    2:{ rewrite <- (Z.mod_small (z + 2 * h) (2 * h)) by lia.
        rewrite <- (Z.mod_add z 1 (2 * h)) by lia. f_equal. lia. }
    destruct (Z.ltb_spec (z + 2 * h) h); lia.
Qed.

(** The fields of a [struct flock] fit their C types. *)
Definition flock_fits (fl : Flock) : Prop :=
  -32768 ≤ fl_type fl < 32768 ∧ -32768 ≤ fl_whence fl < 32768 ∧
  is_i64 (fl_start fl) ∧ is_i64 (fl_len fl) ∧ -2147483648 ≤ fl_pid fl < 2147483648.

(** The layout of [to_bytes] as one concatenation. *)
Lemma flock_to_bytes_layout fl :
  flock_to_bytes fl = le_bytes 2 (fl_type fl) ++ le_bytes 2 (fl_whence fl) ++ replicate 4 0 ++
    le_bytes 8 (fl_start fl) ++ le_bytes 8 (fl_len fl) ++ le_bytes 4 (fl_pid fl) ++
    le_bytes 4 (fl_pid fl).
Proof. reflexivity. Qed.

(** The user layout round-trips: what [to_bytes] writes into the 32-byte
    C structure, [from_bytes] reads back, for every value the C types can
    hold. *)
Theorem flock_bytes_round_trip fl :
  flock_fits fl →
  length (flock_to_bytes fl) = 32%nat ∧ flock_from_bytes (flock_to_bytes fl) = Some fl.
Proof.
  intros (H1&H2&H3&H4&H5). rewrite flock_to_bytes_layout. split; [reflexivity|].
  unfold is_i64, i64_min, i64_max in *.
  transitivity (Some (mkFlock (from_ne_bytes (le_bytes 2 (fl_type fl)))
    (from_ne_bytes (le_bytes 2 (fl_whence fl))) (from_ne_bytes (le_bytes 8 (fl_start fl)))
    (from_ne_bytes (le_bytes 8 (fl_len fl))) (from_ne_bytes (le_bytes 4 (fl_pid fl))))); [reflexivity|].
  rewrite !from_to_ne_bytes by (simpl; lia). by destruct fl.
Qed.


(** ** [flock(2)] *)

Definition LOCK_SH : Z := 1.
Definition LOCK_EX : Z := 2.
Definition LOCK_NB : Z := 4.
Definition LOCK_UN : Z := 8.

Record FlockOwner : Type := mkOwner { lock_type : Z; file_ptr : Z }.
Record FlockInodeState : Type := mkInodeState { locks : list FlockOwner; waker : option Z }.

(** [FLOCK_TABLE] and the tasks woken so far. *)
Record FlockState : Type := mkFlockState {
  FLOCK_TABLE : gmap string FlockInodeState; flock_woken : list Z }.

Definition remove_ptr (fp : Z) (l : list FlockOwner) : list FlockOwner :=
  retain (λ e, negb (file_ptr e =? fp)) l.

Definition flock_try_lock (st : FlockState) (path : string) (fp ty : Z) :
    FlockState * SysResult unit :=
  let state := default (mkInodeState [] aw_new) (FLOCK_TABLE st !! path) in
  let rest := remove_ptr fp (locks state) in
  let put ls := mkFlockState (<[path := mkInodeState ls (waker state)]> (FLOCK_TABLE st))
                  (flock_woken st) in
  if existsb (λ existing, (lock_type existing =? LOCK_EX) || (ty =? LOCK_EX)) rest
  then (put rest, Err EAGAIN)
  else (put (rest ++ [mkOwner ty fp]), Ok tt).

Definition flock_unlock (st : FlockState) (path : string) (fp : Z) : FlockState :=
  match FLOCK_TABLE st !! path with
  | Some state =>
      let '(ws, aw) := aw_wake (waker state) in
      mkFlockState (<[path := mkInodeState (remove_ptr fp (locks state)) aw]> (FLOCK_TABLE st))
        (flock_woken st ++ ws)
  | None => st
  end.

Definition flock_register_waker (st : FlockState) (path : string) (w : Z) : FlockState :=
  match FLOCK_TABLE st !! path with
  | Some state =>
      mkFlockState (<[path := mkInodeState (locks state) (aw_register w (waker state))]>
                      (FLOCK_TABLE st)) (flock_woken st)
  | None => st
  end.

(** The decoding of [op] in [sys_flock]. *)
Inductive FlockCmd : Type := CmdUnlock | CmdTry (ty : Z) | CmdBlock (ty : Z).
Definition sys_flock_decode (op : Z) : SysResult FlockCmd :=
  let valid_mask := Z.lor LOCK_SH (Z.lor LOCK_EX (Z.lor LOCK_NB LOCK_UN)) in
  if negb (Z.land op (Z.lnot valid_mask) =? 0) then Err EINVAL
  else if negb (Z.land op LOCK_UN =? 0) then Ok CmdUnlock
  else
    let ty := Z.land op (Z.lor LOCK_SH LOCK_EX) in
    if negb (ty =? LOCK_SH) && negb (ty =? LOCK_EX) then Err EINVAL
    else if negb (Z.land op LOCK_NB =? 0) then Ok (CmdTry ty) else Ok (CmdBlock ty).

(** The steps by which tasks touch the table: a try, an unlock, and the
    registration that follows a failed blocking try. *)
Inductive flock_step : FlockState → FlockState → Prop :=
| fstep_try st path fp ty :
    ty = LOCK_SH ∨ ty = LOCK_EX → flock_step st (flock_try_lock st path fp ty).1
| fstep_unlock st path fp : flock_step st (flock_unlock st path fp)
| fstep_register st path w : flock_step st (flock_register_waker st path w).

Definition flock_init : FlockState := mkFlockState ∅ [].

Definition flock_locks (st : FlockState) (path : string) : list FlockOwner :=
  default [] (locks <$> FLOCK_TABLE st !! path).

(** One entry per open file description, and an exclusive lock is alone. *)
Definition flock_list_wf (l : list FlockOwner) : Prop :=
  NoDup (file_ptr <$> l) ∧ (∀ o, o ∈ l → lock_type o = LOCK_EX → l = [o]) ∧
  Forall (λ o, lock_type o = LOCK_SH ∨ lock_type o = LOCK_EX) l.

Lemma remove_ptr_wf fp l :
  flock_list_wf l → flock_list_wf (remove_ptr fp l) ∧ fp ∉ file_ptr <$> remove_ptr fp l.
Proof.
  unfold remove_ptr. intros (Hnd&Hex&Hty). split_and!; [split_and!|].
  - eapply sublist_NoDup; [exact Hnd|]. apply fmap_sublist, retain_sublist.
  - intros o [Ho Hp]%elem_of_retain He. rewrite (Hex o Ho He). simpl. by rewrite Hp.
  - rewrite Forall_forall in *. intros o [Ho _]%elem_of_retain. auto.
  - intros (o&->&[_ Ho]%elem_of_retain)%list_elem_of_fmap. lia.
Qed.

Lemma flock_push_wf fp ty l :
  flock_list_wf l → fp ∉ file_ptr <$> l → ty = LOCK_SH ∨ ty = LOCK_EX →
  existsb (λ e, (lock_type e =? LOCK_EX) || (ty =? LOCK_EX)) l = false →
  flock_list_wf (l ++ [mkOwner ty fp]).
Proof.
  intros (Hnd&Hex&Hty) Hfp Ht Hc.
  assert (∀ o, o ∈ l → lock_type o ≠ LOCK_EX ∧ ty ≠ LOCK_EX) as Hc'.
  { intros o Ho. destruct (decide (lock_type o ≠ LOCK_EX ∧ ty ≠ LOCK_EX)) as [?|Hn]; [done|].
    enough (existsb (λ e, (lock_type e =? LOCK_EX) || (ty =? LOCK_EX)) l = true) by congruence.
    apply existsb_elem. exists o. split; [done|]. lia. }
  split_and!.
  - rewrite fmap_app. apply NoDup_app. split_and!; [done| |apply NoDup_singleton].
    intros x Hx ->%list_elem_of_singleton. done.
  - intros o [Ho|Ho]%elem_of_app He; [destruct (Hc' o Ho); done|].
    apply list_elem_of_singleton in Ho as ->. simpl in He. destruct l as [|o' l]; [done|].
    destruct (Hc' o' ltac:(left)); done.
  - apply Forall_app. split; [done|]. by apply Forall_singleton.
Qed.

Lemma flock_step_wf st st' :
  (∀ path, flock_list_wf (flock_locks st path)) → flock_step st st' →
  ∀ path, flock_list_wf (flock_locks st' path).
Proof.
  intros Hwf Hs path'. unfold flock_locks in *. destruct Hs as [st path fp ty Hty|st path fp|st path w].
  - specialize (Hwf path) as Hp. destruct (decide (path' = path)) as [->|Hne].
    2:{ unfold flock_try_lock. case_match; simpl; rewrite lookup_insert_ne by done; apply Hwf. }
    assert (locks (default (mkInodeState [] aw_new) (FLOCK_TABLE st !! path)) =
      default [] (locks <$> FLOCK_TABLE st !! path)) as Hl by by destruct (FLOCK_TABLE st !! path).
    unfold flock_try_lock. rewrite Hl.
    destruct (remove_ptr_wf fp _ Hp) as [Hr Hfp].
    destruct (existsb _ _) eqn:E; simpl; rewrite lookup_insert_eq; simpl; [done|].
    by apply flock_push_wf.
  - unfold flock_unlock. destruct (FLOCK_TABLE st !! path) as [state|] eqn:E; [|apply Hwf].
    destruct (aw_wake _). simpl. destruct (decide (path' = path)) as [->|Hne].
    + rewrite lookup_insert_eq. simpl. apply remove_ptr_wf. specialize (Hwf path). by rewrite E in Hwf.
    + rewrite lookup_insert_ne by done. apply Hwf.
  - unfold flock_register_waker. destruct (FLOCK_TABLE st !! path) as [state|] eqn:E; [|apply Hwf].
    simpl. destruct (decide (path' = path)) as [->|Hne].
    + rewrite lookup_insert_eq. specialize (Hwf path). by rewrite E in Hwf.
    + rewrite lookup_insert_ne by done. apply Hwf.
Qed.

(** [flock(2)] keeps its promise in every reachable state: each open file
    description holds at most one lock on a file, and if any of them holds an
    exclusive lock then it is the only lock on that file. *)
Theorem flock_exclusive st path :
  rtc flock_step flock_init st →
  NoDup (file_ptr <$> flock_locks st path) ∧
  ∀ o, o ∈ flock_locks st path → lock_type o = LOCK_EX → flock_locks st path = [o].
Proof.
  intros Hr. assert (∀ path, flock_list_wf (flock_locks st path)) as Hwf.
  { eapply (rtc_invariant _ (λ st, ∀ path, flock_list_wf (flock_locks st path)));
      [exact flock_step_wf|exact Hr|]. intros p.
    assert (flock_locks flock_init p = []) as -> by reflexivity.
    split_and!; [constructor|intros o []%elem_of_nil|constructor]. }
  destruct (Hwf path) as (?&?&?). done.
Qed.

Definition demo_flock : FlockState := (flock_try_lock flock_init "f" 7 LOCK_EX).1.

Lemma flock_exclusive_witness :
  rtc flock_step flock_init demo_flock ∧ (flock_try_lock demo_flock "f" 8 LOCK_SH).2 = Err EAGAIN ∧
  flock_locks demo_flock "f" = [mkOwner LOCK_EX 7].
Proof.
  assert (rtc flock_step flock_init demo_flock) as Hr by (apply rtc_once, fstep_try; by right).
  split; [exact Hr|]. split; [reflexivity|].
  refine (proj2 (flock_exclusive demo_flock "f" Hr) (mkOwner LOCK_EX 7) _ eq_refl).
  apply list_elem_of_here.
Defined.

(** A blocking [flock] can sleep on a free lock.  Task 9 fails to lock,
    the holder unlocks before task 9 registers its waker, and task 9 then
    sleeps: the lock is free and nobody was woken.  Likewise a holder that
    downgrades from exclusive to shared wakes nobody, although a sleeping
    shared request could now be granted. *)
Theorem flock_lost_wakeup :
  let st1 := (flock_try_lock demo_flock "f" 8 LOCK_SH).1 in
  let st2 := flock_unlock st1 "f" 7 in
  let st3 := flock_register_waker st2 "f" 9 in
  let down := (flock_try_lock (flock_register_waker st1 "f" 9) "f" 7 LOCK_SH).1 in
  (flock_try_lock demo_flock "f" 8 LOCK_SH).2 = Err EAGAIN ∧
  flock_locks st3 "f" = [] ∧ flock_woken st3 = [] ∧
  (flock_try_lock st3 "f" 8 LOCK_SH).2 = Ok tt ∧
  flock_woken down = [] ∧ (flock_try_lock down "f" 8 LOCK_SH).2 = Ok tt.
Proof. vm_compute. done. Qed.

(** ** File leases *)

Record FileLease : Type := mkLease {
  ls_type : Z; ls_pid : Z; break_write_requested : bool; break_notified : bool }.
#[export] Instance FileLease_eq_dec : EqDecision FileLease.
Proof. solve_decision. Defined.

(** [FILE_LEASES], and the processes [SIGIO] was sent to. *)
Record LeaseState : Type := mkLeaseState {
  FILE_LEASES : gmap string (list FileLease); sigio_sent : list Z }.

Definition file_leases_conflict (existing new_lease : FileLease) : bool :=
  negb (ls_pid existing =? ls_pid new_lease)
  && ((ls_type existing =? F_WRLCK) || (ls_type new_lease =? F_WRLCK)).

Definition lease_breaks_on_access (ty : Z) (write_access : bool) : bool :=
  (ty =? F_WRLCK) || write_access.

(** The closure of [notify_file_lease_break]: the updated lease and the holder
    to notify. *)
Definition break_lease (requester : Z) (write_access : bool) (l : FileLease) :
    FileLease * option Z :=
  if (ls_pid l =? requester) || negb (lease_breaks_on_access (ls_type l) write_access)
  then (l, None)
  else
    let bw := break_write_requested l || write_access in
    if break_notified l then (mkLease (ls_type l) (ls_pid l) bw true, None)
    else (mkLease (ls_type l) (ls_pid l) bw true, Some (ls_pid l)).

Definition notify_file_lease_break (st : LeaseState) (path : string) (requester : Z)
    (write_access : bool) : LeaseState :=
  match FILE_LEASES st !! path with
  | Some entry =>
      let holders := omap (λ l, (break_lease requester write_access l).2) entry in
      mkLeaseState (<[path := (λ l, (break_lease requester write_access l).1) <$> entry]>
                      (FILE_LEASES st))
        (sigio_sent st ++ retain (λ pid, 0 <? pid) holders)
  | None => st
  end.

Definition put_leases (st : LeaseState) (path : string) (entry : list FileLease) : LeaseState :=
  mkLeaseState (<[path := entry]> (FILE_LEASES st)) (sigio_sent st).
Definition put_or_remove (st : LeaseState) (path : string) (entry : list FileLease) : LeaseState :=
  match entry with
  | [] => mkLeaseState (delete path (FILE_LEASES st)) (sigio_sent st)
  | _ => put_leases st path entry
  end.
Definition drop_lease_owner (owner : Z) (entry : list FileLease) : list FileLease :=
  retain (λ l, negb (ls_pid l =? owner)) entry.

Definition set_file_lease (st : LeaseState) (path : string) (lease_type owner : Z)
    (fd_opened_for_write : bool) : LeaseState * SyscallRet :=
  if negb (lease_type =? F_RDLCK) && negb (lease_type =? F_WRLCK) && negb (lease_type =? F_UNLCK)
  then (st, Err EINVAL)
  else if (lease_type =? F_RDLCK) && fd_opened_for_write then (st, Err EAGAIN)
  else
    let entry := default [] (FILE_LEASES st !! path) in
    if lease_type =? F_UNLCK then (put_or_remove st path (drop_lease_owner owner entry), Ok 0)
    else
      let new_lease := mkLease lease_type owner false false in
      if existsb (λ existing, file_leases_conflict existing new_lease) entry
      then (put_leases st path entry, Err EAGAIN)
      else match position (λ l, ls_pid l =? owner) entry with
           | Some i =>
               match entry !! i with
               | Some existing =>
                   if (ls_type existing =? F_WRLCK) && (lease_type =? F_RDLCK)
                      && break_write_requested existing
                   then (put_leases st path entry, Err EAGAIN)
                   else (put_leases st path
                           (<[i := mkLease lease_type (ls_pid existing) false false]> entry), Ok 0)
               | None => (put_leases st path entry, Ok 0)
               end
           | None => (put_leases st path (entry ++ [new_lease]), Ok 0)
           end.

Definition get_file_lease (st : LeaseState) (path : string) (owner : Z) : Z :=
  match FILE_LEASES st !! path with
  | Some entry =>
      match position (λ l, ls_pid l =? owner) entry with
      | Some i => default F_UNLCK (ls_type <$> entry !! i)
      | None => F_UNLCK
      end
  | None => F_UNLCK
  end.

Definition release_file_leases (st : LeaseState) (path : string) (owner : Z) : LeaseState :=
  match FILE_LEASES st !! path with
  | Some entry => put_or_remove st path (drop_lease_owner owner entry)
  | None => st
  end.

Definition release_file_leases_by_owner (st : LeaseState) (owner : Z) : LeaseState :=
  mkLeaseState (filter (λ '(_, entry), entry ≠ []) (drop_lease_owner owner <$> FILE_LEASES st))
    (sigio_sent st).

Definition leases_of (st : LeaseState) (path : string) : list FileLease :=
  default [] (FILE_LEASES st !! path).

(** One lease per process, and a write lease is alone. *)
Definition leases_wf (l : list FileLease) : Prop :=
  NoDup (ls_pid <$> l) ∧
  ∀ a b, a ∈ l → b ∈ l → ls_pid a ≠ ls_pid b → ls_type a = F_RDLCK ∧ ls_type b = F_RDLCK.
Definition lease_types_ok (l : list FileLease) : Prop :=
  Forall (λ a, ls_type a = F_RDLCK ∨ ls_type a = F_WRLCK) l.

Inductive lease_step : LeaseState → LeaseState → Prop :=
| lease_set st path ty owner w : lease_step st (set_file_lease st path ty owner w).1
| lease_break st path req w : lease_step st (notify_file_lease_break st path req w)
| lease_release st path owner : lease_step st (release_file_leases st path owner)
| lease_exit st owner : lease_step st (release_file_leases_by_owner st owner).

Lemma leases_of_put st path entry path' :
  leases_of (put_leases st path entry) path' =
  if decide (path' = path) then entry else leases_of st path'.
Proof.
  unfold leases_of, put_leases. simpl. destruct (decide (path' = path)) as [->|?].
  - by rewrite lookup_insert_eq.
  - by rewrite lookup_insert_ne by done.
Qed.

Lemma leases_of_put_or_remove st path entry path' :
  leases_of (put_or_remove st path entry) path' =
  if decide (path' = path) then entry else leases_of st path'.
Proof.
  destruct entry as [|l entry]; [|apply leases_of_put].
  unfold leases_of. simpl. destruct (decide (path' = path)) as [->|?].
  - by rewrite lookup_delete_eq.
  - by rewrite lookup_delete_ne by done.
Qed.

Definition leases_ok (l : list FileLease) : Prop := leases_wf l ∧ lease_types_ok l.

Lemma leases_ok_sublist l k : k `sublist_of` l → leases_ok l → leases_ok k.
Proof.
  intros Hs [[Hnd Hex] Hty]. split; [split|].
  - eapply sublist_NoDup; [exact Hnd|by apply fmap_sublist].
  - intros a b Ha Hb. apply Hex; by eapply elem_of_sublist.
  - unfold lease_types_ok in *. rewrite Forall_forall in *. intros a Ha. apply Hty. by eapply elem_of_sublist.
Qed.

(** Flags do not matter for the invariant. *)
Lemma leases_ok_fmap f l :
  (∀ a, ls_pid (f a) = ls_pid a ∧ ls_type (f a) = ls_type a) → leases_ok l → leases_ok (f <$> l).
Proof.
  intros Hf [[Hnd Hex] Hty]. split; [split|].
  - rewrite <- list_fmap_compose. erewrite list_fmap_ext; [exact Hnd|]. intros ? a _. simpl. apply Hf.
  - intros a b (a'&->&Ha)%list_elem_of_fmap (b'&->&Hb)%list_elem_of_fmap.
    destruct (Hf a') as [-> ->], (Hf b') as [-> ->]. by apply Hex.
  - apply Forall_fmap. eapply Forall_impl; [exact Hty|]. intros a ?. simpl. by destruct (Hf a) as [_ ->].
Qed.

Lemma no_lease_conflict entry ty owner :
  existsb (λ x, file_leases_conflict x (mkLease ty owner false false)) entry = false →
  lease_types_ok entry → ty = F_RDLCK ∨ ty = F_WRLCK →
  ∀ a, a ∈ entry → ls_pid a ≠ owner → ls_type a = F_RDLCK ∧ ty = F_RDLCK.
Proof.
  intros Hc Hty Ht a Ha Hp. unfold lease_types_ok in Hty. rewrite Forall_forall in Hty.
  specialize (Hty a Ha).
  destruct (decide (ls_type a = F_RDLCK ∧ ty = F_RDLCK)) as [?|Hn]; [done|].
  enough (existsb (λ x, file_leases_conflict x (mkLease ty owner false false)) entry = true)
    by congruence.
  apply existsb_elem. exists a. split; [done|]. unfold file_leases_conflict. simpl.
  unfold F_RDLCK, F_WRLCK in *. lia.
Qed.

(** Replacing the owner's lease, or appending one, keeps the invariant. *)
Lemma leases_ok_with entry entry' new :
  leases_ok entry → NoDup (ls_pid <$> entry') →
  ls_type new = F_RDLCK ∨ ls_type new = F_WRLCK →
  (∀ a, a ∈ entry → ls_pid a ≠ ls_pid new → ls_type a = F_RDLCK ∧ ls_type new = F_RDLCK) →
  (∀ a, a ∈ entry' → a = new ∨ (a ∈ entry ∧ ls_pid a ≠ ls_pid new)) →
  leases_ok entry'.
Proof.
  intros [[_ Hex] Hty] Hnd Ht Hn Hin. split; [split; [done|]|].
  - intros a b [->|[Ha Hap]]%Hin [->|[Hb Hbp]]%Hin Hab; [done|..].
    + destruct (Hn b Hb); auto.
    + auto.
    + auto.
  - unfold lease_types_ok in *. rewrite Forall_forall in *. intros a [->|[Ha _]]%Hin; auto.
Qed.

Lemma set_file_lease_ok st path ty owner w :
  (∀ p, leases_ok (leases_of st p)) → ∀ p, leases_ok (leases_of (set_file_lease st path ty owner w).1 p).
Proof.
  intros Hok p. unfold set_file_lease. fold (leases_of st path). specialize (Hok path) as Hp.
  destruct (_ && _ && _) eqn:Et; [apply Hok|]. destruct (_ && w); [apply Hok|].
  destruct (Z.eqb_spec ty F_UNLCK).
  { cbn [fst]. rewrite leases_of_put_or_remove. case_decide; [|apply Hok].
    eapply leases_ok_sublist; [apply retain_sublist|done]. }
  assert (ty = F_RDLCK ∨ ty = F_WRLCK) as Ht by lia.
  destruct (existsb _ _) eqn:Ec; [cbn [fst]; rewrite leases_of_put; by case_decide|].
  pose proof (no_lease_conflict _ _ _ Ec (proj2 Hp) Ht) as Hn.
  destruct (position _ _) as [i|] eqn:Ei.
  - apply position_Some in Ei as (x&Hx&Hxp&_). rewrite Hx.
    destruct ((ls_type x =? _) && _ && _); cbn [fst]; rewrite leases_of_put; case_decide; try done; try apply Hok.
    assert (ls_pid x = owner) as Hxo by lia.
    eapply (leases_ok_with _ _ (mkLease ty (ls_pid x) false false)); [exact Hp| |done| |].
    + rewrite list_fmap_insert. simpl. rewrite list_insert_id; [apply Hp|].
      by rewrite list_lookup_fmap, Hx.
    + intros a Ha Hap. apply Hn; [done|]. simpl in Hap. congruence.
    + intros a (j&Hj)%list_elem_of_lookup. destruct (decide (i = j)) as [->|Hij].
      * rewrite list_lookup_insert_eq in Hj by (by eapply lookup_lt_Some). simplify_eq. by left.
      * rewrite list_lookup_insert_ne in Hj by done. right. split; [by eapply list_elem_of_lookup_2|].
        simpl. intros Hpid. apply Hij. destruct Hp as [[Hnd _] _].
        eapply NoDup_lookup; [exact Hnd| |]; rewrite list_lookup_fmap; [by rewrite Hx|].
        rewrite Hj. simpl. by rewrite Hpid.
  - cbn [fst]. rewrite leases_of_put. case_decide; [|apply Hok].
    assert (∀ a, a ∈ leases_of st path → ls_pid a ≠ owner) as Hnot.
    { intros a Ha. pose proof (proj1 (position_None _ _) Ei a Ha). simpl in *. lia. }
    eapply (leases_ok_with _ _ (mkLease ty owner false false)); [exact Hp| |done|exact Hn|].
    + rewrite fmap_app. apply NoDup_app. split_and!; [apply Hp| |apply NoDup_singleton].
      intros y (a&->&Ha)%list_elem_of_fmap Hy%list_elem_of_singleton. simpl in Hy.
      by apply (Hnot a Ha).
    + intros a [Ha|Ha]%elem_of_app; [right; simpl; auto|left; by apply list_elem_of_singleton in Ha].
Qed.

Lemma break_lease_same req w a :
  ls_pid (break_lease req w a).1 = ls_pid a ∧ ls_type (break_lease req w a).1 = ls_type a.
Proof. unfold break_lease. repeat case_match; done. Qed.

Lemma lease_step_ok st st' :
  (∀ p, leases_ok (leases_of st p)) → lease_step st st' → ∀ p, leases_ok (leases_of st' p).
Proof.
  intros Hok Hs p. destruct Hs as [|st path req w|st path owner|st owner]; [by apply set_file_lease_ok|..].
  - unfold notify_file_lease_break. destruct (FILE_LEASES st !! path) as [entry|] eqn:E; [|apply Hok].
    unfold leases_of. simpl. destruct (decide (p = path)) as [->|?].
    + rewrite lookup_insert_eq. simpl. apply leases_ok_fmap; [apply break_lease_same|].
      specialize (Hok path). unfold leases_of in Hok. by rewrite E in Hok.
    + rewrite lookup_insert_ne by done. apply Hok.
  - unfold release_file_leases. destruct (FILE_LEASES st !! path) as [entry|] eqn:E; [|apply Hok].
    rewrite leases_of_put_or_remove. case_decide; [|apply Hok].
    eapply leases_ok_sublist; [apply retain_sublist|]. specialize (Hok path).
    unfold leases_of in Hok. by rewrite E in Hok.
  - specialize (Hok p). unfold leases_of in *. simpl. rewrite map_lookup_filter, lookup_fmap.
    destruct (FILE_LEASES st !! p) as [entry|]; simpl; [|done].
    case_guard; simpl; [|split; [split; [constructor|intros a b []%elem_of_nil]|constructor]].
    eapply leases_ok_sublist; [apply retain_sublist|done].
Qed.

Definition lease_init : LeaseState := mkLeaseState ∅ [].

(** Leases exclude each other in every reachable state: a process has at
    most one lease on a file, and two processes hold leases on the same file
    only if both are read leases, through any sequence of set, break, close
    and exit. *)
Theorem leases_exclusive st path :
  rtc lease_step lease_init st →
  NoDup (ls_pid <$> leases_of st path) ∧
  ∀ a b, a ∈ leases_of st path → b ∈ leases_of st path → ls_pid a ≠ ls_pid b →
    ls_type a = F_RDLCK ∧ ls_type b = F_RDLCK.
Proof.
  intros Hr.
  apply (rtc_invariant _ (λ st, ∀ p, leases_ok (leases_of st p)) _ _ lease_step_ok Hr).
  intros p. assert (leases_of lease_init p = []) as -> by reflexivity.
  split; [split; [constructor|intros a b []%elem_of_nil]|constructor].
Qed.

Definition demo_leases : LeaseState :=
  (set_file_lease (set_file_lease lease_init "f" F_RDLCK 1 false).1 "f" F_RDLCK 2 false).1.

Lemma leases_exclusive_witness :
  rtc lease_step lease_init demo_leases ∧
  (set_file_lease demo_leases "f" F_WRLCK 1 false).2 = Err EAGAIN ∧
  get_file_lease demo_leases "f" 2 = F_RDLCK ∧
  NoDup (ls_pid <$> leases_of demo_leases "f").
Proof.
  assert (rtc lease_step lease_init demo_leases) as Hr.
  { eapply rtc_l; [apply (lease_set _ "f" F_RDLCK 1 false)|]. apply rtc_once, lease_set. }
  split; [exact Hr|]. split; [reflexivity|]. split; [reflexivity|].
  exact (proj1 (leases_exclusive demo_leases "f" Hr)).
Defined.
