(* ===== verification/Pipe.v ===== *)
(** * Pipes

    [fs/files/pipe/]: the queue of data fragments ([buffer.rs],
    [ring_buffer.rs]), the critical sections of [read], [write],
    [write_kernel_bytes], [poll] ([file_impl.rs]), [splice] and [tee]
    ([splice.rs]), capacity changes and end points ([mod.rs]), and the sleep
    protocol of a blocked reader.

    The abstract specification is a bounded FIFO of bytes: [contents] is the
    byte sequence a pipe holds, and every operation is an update of it.

    Lengths and offsets are [nat]; the one subtraction that could wrap,
    [capacity - bytes], is written with [usize_sub].  Bytes are [Z]. *)

From S2P Require Import Prelude Errno Address Wake.

(** [a - b] on [usize] in release mode. *)
Definition usize_sub (a b : nat) : nat :=
  if (b <=? a)%nat then (a - b)%nat else Z.to_nat (wrap64 (Z.of_nat a - Z.of_nat b)).

Lemma usize_sub_le a b : (b ≤ a)%nat → usize_sub a b = (a - b)%nat.
Proof. intros. unfold usize_sub. by rewrite (proj2 (Nat.leb_le b a)). Qed.

(** ** Fragments *)

(** [FilePage] frames are shared: a fragment names one by its id, and the bytes
    are read from the frame [mem id] when the pipe is read. *)
Inductive PipeBufStorage : Type :=
| Bytes (data : list Z)
| FilePage (page : Z).

Record PipeBuf : Type := mkBuf { storage : PipeBufStorage; offset : nat; buf_len : nat }.

Definition pipebuf_new (bytes : list Z) : PipeBuf := mkBuf (Bytes bytes) 0 (length bytes).
Definition from_file_page (page : Z) (off len : nat) : PipeBuf := mkBuf (FilePage page) off len.

(** The cut-off head and the remaining fragment. *)
Definition split_to (b : PipeBuf) (len : nat) : PipeBuf * PipeBuf :=
  let len := Nat.min len (buf_len b) in
  (mkBuf (storage b) (offset b) len, mkBuf (storage b) (offset b + len) (usize_sub (buf_len b) len)).

Definition storage_bytes (mem : Z → list Z) (s : PipeBufStorage) : list Z :=
  match s with Bytes data => data | FilePage page => mem page end.

(** [&data[offset..offset + len]] panics out of range. *)
Definition as_slice (mem : Z → list Z) (b : PipeBuf) : comp (list Z) :=
  let data := storage_bytes mem (storage b) in
  assert! (offset b + buf_len b <=? length data)%nat;
  Done (take (buf_len b) (drop (offset b) data)).

(** ** The shared buffer *)

Record PipeRingBuffer : Type := mkRing {
  bufs : list PipeBuf;
  ring_bytes : nat;
  capacity : nat;
  write_end_count : nat;
  read_end_count : nat;
  read_waiters : list Z;
  write_waiters : list Z;
  read_poll : list Z;
  write_poll : list Z
}.

Definition PIPE_DEFAULT_SIZE : nat := Z.to_nat 65536.
Definition PIPE_MAX_SIZE : nat := Z.to_nat 65536.

Definition with_capacity (cap : nat) : PipeRingBuffer := mkRing [] 0 cap 0 0 [] [] [] [].

Definition set_queue (r : PipeRingBuffer) (q : list PipeBuf) (n : nat) : PipeRingBuffer :=
  mkRing q n (capacity r) (write_end_count r) (read_end_count r)
    (read_waiters r) (write_waiters r) (read_poll r) (write_poll r).

Definition available_read (r : PipeRingBuffer) : nat := ring_bytes r.
Definition available_write (r : PipeRingBuffer) : nat := usize_sub (capacity r) (ring_bytes r).
Definition all_read_ends_closed (r : PipeRingBuffer) : bool := (read_end_count r =? 0)%nat.
Definition all_write_ends_closed (r : PipeRingBuffer) : bool := (write_end_count r =? 0)%nat.

Definition write_bytes (r : PipeRingBuffer) (bytes : list Z) (len : nat) : comp PipeRingBuffer :=
  assert! (len <=? available_write r)%nat;
  let len := Nat.min len (length bytes) in
  if (len =? 0)%nat then Done r
  else Done (set_queue r (bufs r ++ [pipebuf_new (take len bytes)]) (ring_bytes r + len)).

Definition write_byte (r : PipeRingBuffer) (byte : Z) : comp PipeRingBuffer :=
  write_bytes r [byte] 1.

Definition write_owned_bytes (r : PipeRingBuffer) (bytes : list Z) : comp (PipeRingBuffer * nat) :=
  let len := length bytes in
  assert! (len <=? available_write r)%nat;
  if (len =? 0)%nat then Done (r, 0%nat)
  else Done (set_queue r (bufs r ++ [pipebuf_new bytes]) (ring_bytes r + len), len).

(** The loop of [pop_bufs]: [out] are the fragments popped so far. *)
Fixpoint pop_loop (q : list PipeBuf) (n remaining : nat) (out : list PipeBuf) :
    comp (list PipeBuf * nat * list PipeBuf) :=
  if (remaining =? 0)%nat then Done (q, n, out)
  else match q with
  | [] => Panic
  | front :: q =>
      if (buf_len front <=? remaining)%nat
      then pop_loop q (usize_sub n (buf_len front)) (remaining - buf_len front) (out ++ [front])
      else let '(head, front) := split_to front remaining in
           Done (front :: q, usize_sub n remaining, out ++ [head])
  end.

Definition pop_bufs (r : PipeRingBuffer) (len : nat) : comp (PipeRingBuffer * list PipeBuf) :=
  let remaining := Nat.min len (available_read r) in
  '(q, n, out) ← pop_loop (bufs r) (ring_bytes r) remaining [];
  Done (set_queue r q n, out).

Fixpoint clone_loop (q : list PipeBuf) (remaining : nat) : list PipeBuf :=
  match q with
  | [] => []
  | b :: q =>
      if (remaining =? 0)%nat then []
      else let copy_len := Nat.min remaining (buf_len b) in
           mkBuf (storage b) (offset b) copy_len :: clone_loop q (remaining - copy_len)
  end.
Definition clone_bufs (r : PipeRingBuffer) (len : nat) : list PipeBuf :=
  clone_loop (bufs r) (Nat.min len (available_read r)).

Definition sum_len (q : list PipeBuf) : nat := foldr (λ b n, buf_len b + n)%nat 0%nat q.

Definition push_bufs (r : PipeRingBuffer) (new : list PipeBuf) : comp PipeRingBuffer :=
  let len := sum_len new in
  assert! (len <=? available_write r)%nat;
  Done (set_queue r (bufs r ++ retain (λ b, 0 <? buf_len b)%nat new) (ring_bytes r + len)).

(** Appending the slices of the fragments. *)
Fixpoint slices (mem : Z → list Z) (q : list PipeBuf) : comp (list Z) :=
  match q with
  | [] => Done []
  | b :: q => x ← as_slice mem b; y ← slices mem q; Done (x ++ y)
  end.

Definition read_bytes (mem : Z → list Z) (r : PipeRingBuffer) (len : nat) :
    comp (PipeRingBuffer * list Z) :=
  let len := Nat.min len (available_read r) in
  '(r, out) ← pop_bufs r len;
  data ← slices mem out;
  Done (r, data).

Definition read_byte (mem : Z → list Z) (r : PipeRingBuffer) : comp (PipeRingBuffer * Z) :=
  '(r, data) ← read_bytes mem r 1;
  b ← unwrap (head data);
  Done (r, b).

(** [read_into] with a user buffer of [user_len] bytes: the bytes that reach
    it.  [UserBuffer] is the user's area as one byte sequence. *)
Definition read_into (mem : Z → list Z) (r : PipeRingBuffer) (user_len len : nat) :
    comp (PipeRingBuffer * list Z) :=
  let len := Nat.min len (available_read r) in
  if (len =? 0)%nat then Done (r, [])
  else
    '(r, out) ← pop_bufs r len;
    data ← slices mem out;
    Done (r, take (Nat.min user_len len) data).

(** ** Waking *)

(** The tasks the pipe touches: their status (a dropped task is absent, its
    [Weak] no longer upgrades), the ready queue, the wakers woken through the
    poll sets, and the tasks that were sent [SIGPIPE]. *)
Record PipeWorld : Type := mkWorld {
  task_status : gmap Z TaskStatus; ready_tasks : list Z; poll_woken : list Z; sigpipes : list Z }.

Definition set_status (w : PipeWorld) (t : Z) (s : TaskStatus) : PipeWorld :=
  mkWorld (<[t := s]> (task_status w)) (ready_tasks w) (poll_woken w) (sigpipes w).
Definition enqueue_ready (w : PipeWorld) (t : Z) : PipeWorld :=
  mkWorld (task_status w) (ready_tasks w ++ [t]) (poll_woken w) (sigpipes w).
Definition add_woken (w : PipeWorld) (ws : list Z) : PipeWorld :=
  mkWorld (task_status w) (ready_tasks w) (poll_woken w ++ ws) (sigpipes w).
Definition add_sigpipe (w : PipeWorld) (t : Z) : PipeWorld :=
  mkWorld (task_status w) (ready_tasks w) (poll_woken w) (sigpipes w ++ [t]).

(** [push_reader]/[push_writer]: a live task already queued is not queued twice. *)
Definition push_waiter (w : PipeWorld) (task : Z) (waiters : list Z) : list Z :=
  if existsb (λ waiter, bool_decide (is_Some (task_status w !! waiter)) && (waiter =? task)) waiters
  then waiters else waiters ++ [task].

Fixpoint wake_waiters (w : PipeWorld) (waiters : list Z) (wake_one : bool) :
    PipeWorld * list Z * nat :=
  match waiters with
  | [] => (w, [], 0%nat)
  | waiter :: waiters =>
      match task_status w !! waiter with
      | Some Blocked =>
          let w := enqueue_ready (set_status w waiter Ready) waiter in
          if wake_one then (w, waiters, 1%nat)
          else let '(w, waiters, woken) := wake_waiters w waiters wake_one in
               (w, waiters, S woken)
      | _ => wake_waiters w waiters wake_one
      end
  end.

Definition set_read_wait (r : PipeRingBuffer) (waiters poll : list Z) : PipeRingBuffer :=
  mkRing (bufs r) (ring_bytes r) (capacity r) (write_end_count r) (read_end_count r)
    waiters (write_waiters r) poll (write_poll r).
Definition set_write_wait (r : PipeRingBuffer) (waiters poll : list Z) : PipeRingBuffer :=
  mkRing (bufs r) (ring_bytes r) (capacity r) (write_end_count r) (read_end_count r)
    (read_waiters r) waiters (read_poll r) poll.

(** [wake_reader] ([one = true]) and [wake_all_readers]. *)
Definition wake_readers (one : bool) (w : PipeWorld) (r : PipeRingBuffer) : PipeWorld * PipeRingBuffer :=
  let '(w, waiters, _) := wake_waiters w (read_waiters r) one in
  let '(ws, poll) := poll_wake (read_poll r) in
  (add_woken w ws, set_read_wait r waiters poll).
(** [wake_writer] and [wake_all_writers]. *)
Definition wake_writers (one : bool) (w : PipeWorld) (r : PipeRingBuffer) : PipeWorld * PipeRingBuffer :=
  let '(w, waiters, _) := wake_waiters w (write_waiters r) one in
  let '(ws, poll) := poll_wake (write_poll r) in
  (add_woken w ws, set_write_wait r waiters poll).

(** ** The critical sections of the system calls *)

(** How one pass under the pipe lock ends: with a result, or on the way to
    sleep. *)
Inductive IoStep (A : Type) : Type := IoRet (res : SysResult A) | IoBlock.
Arguments IoRet {A} res.
Arguments IoBlock {A}.

(** [for _ in 0..loop_read]: the byte loop of short reads. *)
Fixpoint read_byte_loop (mem : Z → list Z) (k : nat) (r : PipeRingBuffer) :
    comp (PipeRingBuffer * list Z) :=
  match k with
  | O => Done (r, [])
  | S k => '(r, b) ← read_byte mem r; '(r, bs) ← read_byte_loop mem k r; Done (r, b :: bs)
  end.

Fixpoint write_byte_loop (r : PipeRingBuffer) (bytes : list Z) : comp PipeRingBuffer :=
  match bytes with
  | [] => Done r
  | b :: bytes => r ← write_byte r b; write_byte_loop r bytes
  end.

(** [read]: the bytes stored in a user buffer of [requested] bytes. *)
Definition pipe_read (mem : Z → list Z) (w : PipeWorld) (r : PipeRingBuffer)
    (nonblocking : bool) (requested : nat) :
    comp (PipeWorld * PipeRingBuffer * IoStep (list Z)) :=
  let loop_read := available_read r in
  if (loop_read =? 0)%nat then
    if all_write_ends_closed r then Done (w, r, IoRet (Ok []))
    else if nonblocking then Done (w, r, IoRet (Err EAGAIN))
    else Done (w, r, IoBlock)
  else
    '(r, data) ←
      (if (requested <=? 10)%nat then read_byte_loop mem (Nat.min loop_read requested) r
       else read_into mem r requested (Nat.min loop_read requested));
    let '(w, r) := wake_writers true w r in
    Done (w, r, IoRet (Ok data)).

(** [write] of the user bytes [buf] by task [tid]. *)
Definition pipe_write (w : PipeWorld) (r : PipeRingBuffer) (nonblocking : bool) (tid : Z)
    (buf : list Z) : comp (PipeWorld * PipeRingBuffer * IoStep nat) :=
  if all_read_ends_closed r then Done (add_sigpipe w tid, r, IoRet (Err EPIPE))
  else
    let loop_write := available_write r in
    if (loop_write =? 0)%nat then
      if nonblocking then Done (w, r, IoRet (Err EAGAIN)) else Done (w, r, IoBlock)
    else
      let requested := length buf in
      '(r, write_size) ←
        (if (requested <=? 10)%nat then
           let bytes := take loop_write buf in
           r ← write_byte_loop r bytes; Done (r, length bytes)
         else write_owned_bytes r (take (Nat.min loop_write requested) buf));
      let '(w, r) := wake_readers true w r in
      Done (w, r, IoRet (Ok write_size)).

Definition write_kernel_bytes (w : PipeWorld) (r : PipeRingBuffer) (tid : Z) (buf : list Z) :
    comp (PipeWorld * PipeRingBuffer * SyscallRet) :=
  if all_read_ends_closed r then Done (add_sigpipe w tid, r, Err EPIPE)
  else if (available_write r <? length buf)%nat then Done (w, r, Err ENOBUFS)
  else
    r ← write_bytes r buf (length buf);
    let '(w, r) := wake_readers true w r in
    Done (w, r, Ok (Z.of_nat (length buf))).

(** The closure of [splice_to_pipe] under both locks. *)
Definition splice_locked (w : PipeWorld) (input output : PipeRingBuffer) (len : nat) :
    comp (PipeWorld * PipeRingBuffer * PipeRingBuffer * SysResult nat) :=
  if all_read_ends_closed output then Done (w, input, output, Err EPIPE)
  else
    let len := Nat.min (Nat.min len (available_read input)) (available_write output) in
    if (len =? 0)%nat then Done (w, input, output, Ok 0%nat)
    else
      '(input, moved) ← pop_bufs input len;
      output ← push_bufs output moved;
      let '(w, input) := wake_writers true w input in
      let '(w, output) := wake_readers true w output in
      Done (w, input, output, Ok len).

(** The closure of [tee_to_pipe] under both locks. *)
Definition tee_locked (w : PipeWorld) (input output : PipeRingBuffer) (len : nat) :
    comp (PipeWorld * PipeRingBuffer * SysResult nat) :=
  if all_read_ends_closed output then Done (w, output, Err EPIPE)
  else
    let len := Nat.min (Nat.min len (available_read input)) (available_write output) in
    if (len =? 0)%nat then Done (w, output, Ok 0%nat)
    else
      output ← push_bufs output (clone_bufs input len);
      let '(w, output) := wake_readers true w output in
      Done (w, output, Ok len).

(** [push_file_page] once [wait_writable] has returned. *)
Definition push_file_page (w : PipeWorld) (r : PipeRingBuffer) (page : Z) (page_offset len : nat) :
    comp (PipeWorld * PipeRingBuffer * SysResult nat) :=
  if (len =? 0)%nat then Done (w, r, Ok 0%nat)
  else if all_read_ends_closed r then Done (w, r, Err EPIPE)
  else
    let len := Nat.min len (available_write r) in
    if (len =? 0)%nat then Done (w, r, Ok 0%nat)
    else
      r ← push_bufs r [from_file_page page page_offset len];
      let '(w, r) := wake_readers true w r in
      Done (w, r, Ok len).

(** [page_round_up] ([utils/mod.rs]); the callers bound [v] by 2^31. *)
Definition page_round_up (v : nat) : nat :=
  let page := Z.to_nat PAGE_SIZE in
  if (v mod page =? 0)%nat then v else (v - v mod page + page)%nat.

Definition set_capacity (w : PipeWorld) (r : PipeRingBuffer) (cap_sys_resource : bool)
    (pipe_max_size requested : nat) : PipeWorld * PipeRingBuffer * SysResult nat :=
  let cap := if (requested =? 0)%nat then Z.to_nat PAGE_SIZE else page_round_up requested in
  if (PIPE_MAX_SIZE <? cap)%nat || (negb cap_sys_resource && (pipe_max_size <? cap)%nat)
  then (w, r, Err EPERM)
  else if (cap <? available_read r)%nat then (w, r, Err EBUSY)
  else
    let r := mkRing (bufs r) (ring_bytes r) cap (write_end_count r) (read_end_count r)
               (read_waiters r) (write_waiters r) (read_poll r) (write_poll r) in
    let '(w, r) := wake_writers false w r in
    (w, r, Ok cap).

(** [Pipe::with_buffer] and [Drop for Pipe]: end points come and go. *)
Definition open_end (r : PipeRingBuffer) (readable writable : bool) : PipeRingBuffer :=
  mkRing (bufs r) (ring_bytes r) (capacity r)
    (write_end_count r + if writable then 1 else 0) (read_end_count r + if readable then 1 else 0)
    (read_waiters r) (write_waiters r) (read_poll r) (write_poll r).

Definition drop_end (w : PipeWorld) (r : PipeRingBuffer) (readable writable : bool) :
    PipeWorld * PipeRingBuffer :=
  let '(w, r) :=
    if readable then
      wake_writers false w
        (mkRing (bufs r) (ring_bytes r) (capacity r) (write_end_count r) (read_end_count r - 1)
           (read_waiters r) (write_waiters r) (read_poll r) (write_poll r))
    else (w, r) in
  if writable then
    wake_readers false w
      (mkRing (bufs r) (ring_bytes r) (capacity r) (write_end_count r - 1) (read_end_count r)
         (read_waiters r) (write_waiters r) (read_poll r) (write_poll r))
  else (w, r).

(** [make_pipe]: a fresh buffer with one end of each kind. *)
Definition make_pipe (cap_sys_resource : bool) (pipe_max_size : nat) : PipeRingBuffer :=
  let cap := if cap_sys_resource then PIPE_DEFAULT_SIZE else Nat.min PIPE_DEFAULT_SIZE pipe_max_size in
  open_end (open_end (with_capacity cap) true false) false true.

(** [poll]: (IN, OUT, HUP, ERR). *)
Definition pipe_poll (r : PipeRingBuffer) (readable writable want_in want_out : bool) :
    bool * bool * bool * bool :=
  (want_in && readable && (0 <? available_read r)%nat,
   want_out && writable && (0 <? available_write r)%nat,
   readable && all_write_ends_closed r,
   writable && all_read_ends_closed r).

(** ** The bytes in a pipe *)

Section contents.
Context (mem : Z → list Z).
Implicit Types (b : PipeBuf) (q : list PipeBuf) (r : PipeRingBuffer).

Definition bytes_of b : list Z := take (buf_len b) (drop (offset b) (storage_bytes mem (storage b))).

Definition contents r : list Z := bufs r ≫= bytes_of.

Definition buf_ok b : Prop :=
  (0 < buf_len b)%nat ∧ (offset b + buf_len b ≤ length (storage_bytes mem (storage b)))%nat.

(** The representation invariant: fragments are non-empty windows inside their
    storage, the byte counter is exact, and the capacity is respected. *)
Record ring_wf r : Prop := {
  wf_bufs : Forall buf_ok (bufs r);
  wf_bytes : ring_bytes r = sum_len (bufs r);
  wf_capacity : (ring_bytes r ≤ capacity r)%nat
}.

Lemma sum_len_app q1 q2 : sum_len (q1 ++ q2) = (sum_len q1 + sum_len q2)%nat.
Proof. induction q1 as [|b q1 IH]; simpl; [done|]. rewrite IH. lia. Qed.

Lemma length_bytes_of b : buf_ok b → length (bytes_of b) = buf_len b.
Proof. intros [_ H]. unfold bytes_of. rewrite length_take, length_drop. lia. Qed.

Lemma length_bytes q : Forall buf_ok q → length (q ≫= bytes_of) = sum_len q.
Proof.
  induction 1 as [|b q Hb _ IH]; csimpl; [done|]. by rewrite length_app, length_bytes_of, IH.
Qed.

Lemma length_contents r : ring_wf r → length (contents r) = available_read r.
Proof. intros [H1 H2 _]. unfold contents, available_read. by rewrite length_bytes, H2. Qed.

Lemma as_slice_ok b : buf_ok b → as_slice mem b = Done (bytes_of b).
Proof. intros [_ H]. unfold as_slice. by rewrite (proj2 (Nat.leb_le _ _) H). Qed.

Lemma slices_ok q : Forall buf_ok q → slices mem q = Done (q ≫= bytes_of).
Proof. induction 1 as [|b q Hb _ IH]; csimpl; [done|]. by rewrite as_slice_ok, IH by done. Qed.

(** Cutting a fragment cuts its bytes. *)
Lemma bytes_of_split b n :
  buf_ok b → (0 < n < buf_len b)%nat →
  let '(head, rest) := split_to b n in
  buf_ok head ∧ buf_ok rest ∧ buf_len head = n ∧ buf_len rest = (buf_len b - n)%nat ∧
  bytes_of head = take n (bytes_of b) ∧ bytes_of rest = drop n (bytes_of b).
Proof.
  intros [Hl Hb] Hn. unfold split_to. rewrite Nat.min_l, usize_sub_le by lia.
  unfold buf_ok, bytes_of; simpl. split_and!; try lia.
  - rewrite take_take. f_equal. lia.
  - rewrite <- drop_drop, take_drop_commute. do 2 f_equal. lia.
Qed.

Lemma pop_loop_ok q : ∀ n k out,
  Forall buf_ok q → n = sum_len q → (k ≤ n)%nat →
  ∃ q' new, pop_loop q n k out = Done (q', (n - k)%nat, out ++ new) ∧
    Forall buf_ok q' ∧ Forall buf_ok new ∧ sum_len q' = (n - k)%nat ∧ sum_len new = k ∧
    new ≫= bytes_of = take k (q ≫= bytes_of) ∧ q' ≫= bytes_of = drop k (q ≫= bytes_of).
Proof.
  induction q as [|b q IH]; intros n k out Hq -> Hk.
  { simpl in *. assert (k = 0%nat) as -> by lia. exists [], []. by rewrite app_nil_r. }
  cbn [pop_loop]. destruct (Nat.eqb_spec k 0) as [->|Hk0].
  { exists (b :: q), []. rewrite app_nil_r, Nat.sub_0_r, drop_0. done. }
  apply Forall_cons in Hq as [Hb Hq]. cbn [sum_len foldr mbind list_bind] in *. fold (sum_len q) in *.
  fold (mbind (M := list) bytes_of q). pose proof (length_bytes_of b Hb) as Hlen.
  destruct (Nat.leb_spec (buf_len b) k).
  - rewrite usize_sub_le by lia.
    destruct (IH (sum_len q) (k - buf_len b)%nat (out ++ [b]) Hq eq_refl ltac:(lia))
      as (q'&new&E&Hq'&Hnew&Hs1&Hs2&Ht&Hd).
    exists q', (b :: new). replace (buf_len b + sum_len q - buf_len b)%nat with (sum_len q) by lia.
    rewrite E, <- app_assoc. split_and!; [do 3 f_equal; lia|done|by apply Forall_cons|lia|simpl; lia|..].
    + cbn [mbind list_bind]. fold (mbind (M := list) bytes_of new). rewrite Ht, take_app_ge by lia.
      by rewrite Hlen.
    + by rewrite drop_app_ge, Hlen, Hd by lia.
  - pose proof (bytes_of_split b k Hb ltac:(lia)) as Hs. destruct (split_to b k) as [head rest].
    destruct Hs as (Hh&Hr&Hlh&Hlr&Hth&Hdr). rewrite usize_sub_le by lia.
    exists (rest :: q), [head]. split_and!; [done|by apply Forall_cons|by apply Forall_singleton|..].
    + simpl. lia.
    + simpl. lia.
    + simpl. by rewrite app_nil_r, Hth, take_app_le by lia.
    + cbn [mbind list_bind]. fold (mbind (M := list) bytes_of q). by rewrite Hdr, drop_app_le by lia.
Qed.

Lemma clone_loop_ok q : ∀ k,
  Forall buf_ok q → (k ≤ sum_len q)%nat →
  Forall buf_ok (clone_loop q k) ∧ sum_len (clone_loop q k) = k ∧
  clone_loop q k ≫= bytes_of = take k (q ≫= bytes_of).
Proof.
  induction q as [|b q IH]; intros k Hq Hk.
  { simpl in *. assert (k = 0%nat) as -> by lia. done. }
  cbn [clone_loop]. destruct (Nat.eqb_spec k 0) as [->|Hk0]; [done|].
  apply Forall_cons in Hq as [Hb Hq]. cbn [sum_len foldr mbind list_bind] in *. fold (sum_len q) in *.
  fold (mbind (M := list) bytes_of q). pose proof (length_bytes_of b Hb) as Hlen.
  destruct (IH (k - Nat.min k (buf_len b))%nat Hq ltac:(lia)) as (Hc&Hs&Ht).
  fold (mbind (M := list) bytes_of (clone_loop q (k - Nat.min k (buf_len b)))).
  destruct Hb as [Hb1 Hb2]. split_and!.
  - apply Forall_cons. split; [|done]. split; simpl; lia.
  - simpl. fold (sum_len (clone_loop q (k - Nat.min k (buf_len b)))). rewrite Hs. simpl. lia.
  - rewrite Ht, take_app. unfold bytes_of at 1. simpl. rewrite Hlen. f_equal.
    + unfold bytes_of. rewrite take_take. f_equal.
    + f_equal. lia.
Qed.
End contents.

(** ** Every operation as an update of the byte sequence *)

(** [r'] differs from [r] at most in its queue and its waiters. *)
Definition same_pipe (r r' : PipeRingBuffer) : Prop :=
  capacity r' = capacity r ∧ write_end_count r' = write_end_count r ∧
  read_end_count r' = read_end_count r.

#[export] Instance same_pipe_refl : Reflexive same_pipe.
Proof. done. Qed.
#[export] Instance same_pipe_trans : Transitive same_pipe.
Proof. unfold same_pipe. intros a b c. intuition congruence. Qed.

Section operations.
Context (mem : Z → list Z).
Implicit Types (r : PipeRingBuffer) (q : list PipeBuf).

Lemma ring_wf_queue r r' :
  bufs r' = bufs r → ring_bytes r' = ring_bytes r → capacity r' = capacity r →
  ring_wf mem r → ring_wf mem r'.
Proof. intros H1 H2 H3 [W1 W2 W3]. split; rewrite ?H1, ?H2, ?H3; done. Qed.

Lemma available_write_wf r : ring_wf mem r → available_write r = (capacity r - ring_bytes r)%nat.
Proof. intros [_ _ H]. by apply usize_sub_le. Qed.

(** Waking readers or writers leaves the data alone. *)
Lemma wake_readers_ring one w r :
  ∃ ws, (wake_readers one w r).2 = set_read_wait r ws [].
Proof. unfold wake_readers. destruct (wake_waiters _ _ _) as [[w' ws] n]. simpl. eauto. Qed.
Lemma wake_writers_ring one w r :
  ∃ ws, (wake_writers one w r).2 = set_write_wait r ws [].
Proof. unfold wake_writers. destruct (wake_waiters _ _ _) as [[w' ws] n]. simpl. eauto. Qed.

Lemma pop_bufs_ok r len :
  ring_wf mem r →
  ∃ r' out, pop_bufs r len = Done (r', out) ∧ ring_wf mem r' ∧ same_pipe r r' ∧
    Forall (buf_ok mem) out ∧ sum_len out = Nat.min len (available_read r) ∧
    out ≫= bytes_of mem = take len (contents mem r) ∧
    contents mem r' = drop len (contents mem r).
Proof.
  intros Hwf. pose proof (length_contents mem r Hwf) as Hlen. unfold pop_bufs.
  destruct Hwf as [W1 W2 W3]. set (k := Nat.min len (available_read r)).
  destruct (pop_loop_ok mem (bufs r) (ring_bytes r) k [] W1 W2) as (q'&new&E&Hq&Hn&Hs1&Hs2&Ht&Hd).
  { unfold k, available_read. lia. }
  rewrite E. simpl. eexists _, _. split; [done|]. split; [|split; [done|]].
  { split; simpl; [done|by rewrite Hs1|lia]. }
  split_and!; [done|done|..].
  - rewrite Ht. fold (contents mem r). unfold k. rewrite <- Hlen.
    destruct (decide (len ≤ length (contents mem r))%nat); [by rewrite Nat.min_l by done|].
    by rewrite Nat.min_r, !take_ge by lia.
  - unfold contents at 1. simpl. rewrite Hd. fold (contents mem r). unfold k. rewrite <- Hlen.
    destruct (decide (len ≤ length (contents mem r))%nat); [by rewrite Nat.min_l by done|].
    by rewrite Nat.min_r, !drop_ge by lia.
Qed.

Lemma push_bufs_ok r new :
  ring_wf mem r → Forall (buf_ok mem) new → (sum_len new ≤ available_write r)%nat →
  ∃ r', push_bufs r new = Done r' ∧ ring_wf mem r' ∧ same_pipe r r' ∧
    contents mem r' = contents mem r ++ (new ≫= bytes_of mem).
Proof.
  intros Hwf Hnew Hle. unfold push_bufs. rewrite (proj2 (Nat.leb_le _ _) Hle). simpl.
  rewrite available_write_wf in Hle by done. destruct Hwf as [W1 W2 W3].
  rewrite (retain_all _ new).
  2:{ intros b Hb. rewrite Forall_forall in Hnew. apply Nat.ltb_lt, Hnew, Hb. }
  eexists. split; [done|]. split_and!; [|done|].
  - split; simpl; [by apply Forall_app|rewrite sum_len_app; lia|lia].
  - unfold contents. simpl. by rewrite bind_app.
Qed.

Lemma read_bytes_ok r len :
  ring_wf mem r →
  ∃ r', read_bytes mem r len = Done (r', take len (contents mem r)) ∧ ring_wf mem r' ∧
    same_pipe r r' ∧ contents mem r' = drop len (contents mem r).
Proof.
  intros Hwf. unfold read_bytes. pose proof (length_contents mem r Hwf) as Hlen.
  destruct (pop_bufs_ok r (Nat.min len (available_read r)) Hwf) as (r'&out&E&Hwf'&Hs&Ho&_&Ht&Hd).
  rewrite E. simpl. rewrite (slices_ok mem out Ho). simpl. exists r'. rewrite Ht, Hd, <- Hlen.
  destruct (decide (len ≤ length (contents mem r))%nat).
  - rewrite Nat.min_l by done. done.
  - rewrite Nat.min_r, !take_ge, !drop_ge by lia. done.
Qed.

Lemma read_byte_loop_ok k : ∀ r,
  ring_wf mem r → (k ≤ length (contents mem r))%nat →
  ∃ r', read_byte_loop mem k r = Done (r', take k (contents mem r)) ∧ ring_wf mem r' ∧
    same_pipe r r' ∧ contents mem r' = drop k (contents mem r).
Proof.
  induction k as [|k IH]; intros r Hwf Hk; cbn [read_byte_loop].
  { exists r. by rewrite drop_0. }
  unfold read_byte. destruct (read_bytes_ok r 1 Hwf) as (r1&E&Hwf1&Hs1&Hd1). rewrite E.
  destruct (contents mem r) as [|x xs] eqn:Ec; [simpl in Hk; lia|].
  simpl in Hd1. simpl. destruct (IH r1 Hwf1) as (r2&E2&Hwf2&Hs2&Hd2).
  { rewrite Hd1, drop_0. simpl in Hk. lia. }
  rewrite E2. simpl. exists r2. rewrite Hd1, drop_0 in *. split_and!; [done|done|by etrans|done].
Qed.

Lemma read_into_ok r n len :
  ring_wf mem r → (len ≤ n)%nat →
  ∃ r', read_into mem r n len = Done (r', take len (contents mem r)) ∧ ring_wf mem r' ∧
    same_pipe r r' ∧ contents mem r' = drop len (contents mem r).
Proof.
  intros Hwf Hn. unfold read_into. pose proof (length_contents mem r Hwf) as Hlen.
  destruct (Nat.eqb_spec (Nat.min len (available_read r)) 0) as [E0|E0].
  { exists r. split_and!; [|done|done|].
    - rewrite <- Hlen in E0. destruct (contents mem r); [by rewrite take_nil|].
      simpl in E0. by destruct len.
    - rewrite <- Hlen in E0. destruct (contents mem r); [by rewrite drop_nil|].
      simpl in E0. by destruct len. }
  destruct (pop_bufs_ok r (Nat.min len (available_read r)) Hwf) as (r'&out&E&Hwf'&Hs&Ho&_&Ht&Hd).
  rewrite E. simpl. rewrite (slices_ok mem out Ho). simpl. exists r'. rewrite Ht, Hd, <- Hlen.
  rewrite take_take. split_and!; [|done|done|].
  - do 2 f_equal. destruct (decide (len ≤ length (contents mem r))%nat); [f_equal; lia|].
    rewrite !take_ge by lia. done.
  - destruct (decide (len ≤ length (contents mem r))%nat); [f_equal; lia|].
    by rewrite !drop_ge by lia.
Qed.

Lemma write_bytes_ok r bytes :
  ring_wf mem r → (length bytes ≤ available_write r)%nat →
  ∃ r', write_bytes r bytes (length bytes) = Done r' ∧ ring_wf mem r' ∧ same_pipe r r' ∧
    contents mem r' = contents mem r ++ bytes.
Proof.
  intros Hwf Hle. unfold write_bytes. rewrite (proj2 (Nat.leb_le _ _) Hle). simpl.
  rewrite Nat.min_id, (take_ge bytes) by done.
  destruct (Nat.eqb_spec (length bytes) 0) as [E|E].
  { destruct bytes; [|done]. exists r. by rewrite app_nil_r. }
  rewrite available_write_wf in Hle by done. destruct Hwf as [W1 W2 W3].
  eexists. split; [done|]. split_and!; [|done|].
  - split; simpl; [|rewrite sum_len_app; simpl; lia|lia]. apply Forall_app. split; [done|].
    apply Forall_singleton. split; simpl; lia.
  - unfold contents. simpl. rewrite bind_app. f_equal. simpl. rewrite app_nil_r.
    unfold bytes_of. simpl. by rewrite drop_0, firstn_all.
Qed.

Lemma write_owned_ok r bytes :
  ring_wf mem r → (length bytes ≤ available_write r)%nat →
  ∃ r', write_owned_bytes r bytes = Done (r', length bytes) ∧ ring_wf mem r' ∧ same_pipe r r' ∧
    contents mem r' = contents mem r ++ bytes.
Proof.
  intros Hwf Hle. destruct (write_bytes_ok r bytes Hwf Hle) as (r'&E&H).
  exists r'. split; [|done]. revert E. unfold write_owned_bytes, write_bytes.
  destruct (assert_that _); simpl; [|done]. rewrite Nat.min_id, take_ge by done.
  destruct (Nat.eqb_spec (length bytes) 0) as [->|]; by intros [= ->].
Qed.

Lemma write_byte_loop_ok bytes : ∀ r,
  ring_wf mem r → (length bytes ≤ available_write r)%nat →
  ∃ r', write_byte_loop r bytes = Done r' ∧ ring_wf mem r' ∧ same_pipe r r' ∧
    contents mem r' = contents mem r ++ bytes.
Proof.
  induction bytes as [|b bytes IH]; intros r Hwf Hle; cbn [write_byte_loop].
  { exists r. by rewrite app_nil_r. }
  simpl in Hle. destruct (write_bytes_ok r [b] Hwf ltac:(simpl; lia)) as (r1&E1&Hwf1&Hs1&Hc1).
  unfold write_byte. simpl length in E1. rewrite E1. simpl.
  destruct (IH r1 Hwf1) as (r2&E2&Hwf2&Hs2&Hc2).
  { rewrite available_write_wf in * by done. destruct Hs1 as (->&_).
    pose proof (length_contents mem r Hwf) as L. pose proof (length_contents mem r1 Hwf1) as L1.
    rewrite Hc1, length_app in L1. unfold available_read in *. simpl in L1. lia. }
  exists r2. rewrite E2, Hc2, Hc1, <- app_assoc. split_and!; [done|done|by etrans|done].
Qed.
End operations.

Lemma pipe_read_ok mem w r nonblocking n :
  ring_wf mem r →
  ∃ w' r' st, pipe_read mem w r nonblocking n = Done (w', r', st) ∧
    ring_wf mem r' ∧ same_pipe r r' ∧
    match st with
    | IoRet (Ok data) =>
        data = take n (contents mem r) ∧ contents mem r' = drop n (contents mem r) ∧
        (contents mem r = [] → all_write_ends_closed r = true)
    | IoRet (Err e) => e = EAGAIN ∧ nonblocking = true ∧ r' = r ∧ contents mem r = []
    | IoBlock => nonblocking = false ∧ r' = r ∧ contents mem r = [] ∧
        all_write_ends_closed r = false
    end.
Proof.
  intros Hwf. unfold pipe_read. pose proof (length_contents mem r Hwf) as Hlen.
  destruct (Nat.eqb_spec (available_read r) 0) as [E0|E0].
  - assert (contents mem r = []) as Hc by (apply length_zero_iff_nil; lia).
    destruct (all_write_ends_closed r) eqn:Ew; [|destruct nonblocking];
      eexists _, _, _; (split; [done|]); rewrite ?Hc, ?take_nil, ?drop_nil; done.
  - assert (∃ r1, (if (n <=? 10)%nat then read_byte_loop mem (Nat.min (available_read r) n) r
      else read_into mem r n (Nat.min (available_read r) n)) = Done (r1, take n (contents mem r)) ∧
      ring_wf mem r1 ∧ same_pipe r r1 ∧ contents mem r1 = drop n (contents mem r)) as (r1&E&W&S&D).
    { assert (∀ f : list Z, length f = available_read r →
        take (Nat.min (available_read r) n) f = take n f ∧
        drop (Nat.min (available_read r) n) f = drop n f) as Hmin.
      { intros f Hf. destruct (decide (n ≤ length f)%nat); [by rewrite Nat.min_r by lia|].
        rewrite !take_ge, !drop_ge by lia. done. }
      destruct (Hmin _ Hlen) as [<- <-]. case_match.
      - apply read_byte_loop_ok; [done|lia].
      - apply read_into_ok; [done|lia]. }
    rewrite E. simpl. destruct (wake_writers_ring true w r1) as [ws Hw].
    destruct (wake_writers true w r1) as [w2 r2]. simpl in Hw. subst r2.
    eexists _, _, _. split; [done|]. split; [by eapply ring_wf_queue; [..|exact W]|].
    split; [exact S|]. split_and!; [done|exact D|]. intros Hc. rewrite Hc in Hlen. simpl in Hlen. lia.
Qed.

(** [C38] A pipe is a byte FIFO for readers.  On a well-formed pipe [read] never
    panics and does one of three things.  With data present it returns the
    first [n] bytes (or all, if fewer) in order and removes exactly those.  On
    an empty pipe it reports end of file if every write end is closed, fails
    with [EAGAIN] if non-blocking, and goes to sleep otherwise; the pipe is
    then unchanged.  This holds for the byte-wise path of short reads and the
    fragment path of long ones alike. *)
Theorem pipe_read_fifo mem w r nonblocking n :
  ring_wf mem r →
  ∃ w' r' st, pipe_read mem w r nonblocking n = Done (w', r', st) ∧
    ring_wf mem r' ∧ same_pipe r r' ∧
    match st with
    | IoRet (Ok data) =>
        data = take n (contents mem r) ∧ contents mem r' = drop n (contents mem r) ∧
        (contents mem r = [] → all_write_ends_closed r = true)
    | IoRet (Err e) => e = EAGAIN ∧ nonblocking = true ∧ r' = r ∧ contents mem r = []
    | IoBlock => nonblocking = false ∧ r' = r ∧ contents mem r = [] ∧
        all_write_ends_closed r = false
    end.
Proof. apply pipe_read_ok. Qed.

Lemma pipe_write_ok mem w r nonblocking tid buf :
  ring_wf mem r →
  ∃ w' r' st, pipe_write w r nonblocking tid buf = Done (w', r', st) ∧
    ring_wf mem r' ∧ same_pipe r r' ∧
    let space := (capacity r - length (contents mem r))%nat in
    match st with
    | IoRet (Ok k) => k = Nat.min space (length buf) ∧
        contents mem r' = contents mem r ++ take space buf ∧
        (length (contents mem r') ≤ capacity r)%nat ∧ (0 < space)%nat
    | IoRet (Err e) => r' = r ∧
        (e = EPIPE ∧ all_read_ends_closed r = true ∧ sigpipes w' = sigpipes w ++ [tid] ∨
         e = EAGAIN ∧ nonblocking = true ∧ space = 0%nat)
    | IoBlock => r' = r ∧ nonblocking = false ∧ space = 0%nat
    end.
Proof.
  intros Hwf. unfold pipe_write. pose proof (length_contents mem r Hwf) as Hlen.
  pose proof (available_write_wf mem r Hwf) as Haw. unfold available_read in Hlen. rewrite <- Hlen in Haw.
  destruct (all_read_ends_closed r) eqn:Er.
  { eexists _, _, _. split; [done|]. split_and!; [done..|]. by left. }
  destruct (Nat.eqb_spec (available_write r) 0) as [E0|E0].
  { destruct nonblocking; eexists _, _, _; (split; [done|]); (split_and!; [done..|]); simpl; rewrite <- Haw; auto. }
  cbv zeta. assert (∃ r1, (if (length buf <=? 10)%nat
     then r0 ← write_byte_loop r (take (available_write r) buf);
          Done (r0, length (take (available_write r) buf))
     else write_owned_bytes r (take (Nat.min (available_write r) (length buf)) buf))
    = Done (r1, Nat.min (available_write r) (length buf)) ∧
    ring_wf mem r1 ∧ same_pipe r r1 ∧
    contents mem r1 = contents mem r ++ take (available_write r) buf) as (r1&E&W&S&D).
  { case_match; simpl.
    - destruct (write_byte_loop_ok mem (take (available_write r) buf) r Hwf) as (r1&->&?&?&?).
      { rewrite length_take. lia. }
      exists r1. simpl. rewrite length_take. done.
    - destruct (write_owned_ok mem r (take (Nat.min (available_write r) (length buf)) buf) Hwf)
        as (r1&->&?&?&Hc).
      { rewrite length_take. lia. }
      exists r1. rewrite length_take. split_and!; [do 2 f_equal; lia|done..|]. rewrite Hc. f_equal.
      destruct (decide (available_write r ≤ length buf)%nat); [f_equal; lia|].
      rewrite !take_ge by lia. done. }
  rewrite E. simpl. destruct (wake_readers_ring true w r1) as [ws Hw].
  destruct (wake_readers true w r1) as [w2 r2]. simpl in Hw. subst r2.
  eexists _, _, _. split; [done|].
  split; [by eapply ring_wf_queue; [..|exact W]|]. split; [exact S|]. simpl. rewrite <- Haw.
  split_and!; [done|exact D| |lia].
  assert (length (contents mem r1) ≤ capacity r)%nat; [|done]. rewrite D, length_app, length_take. lia.
Qed.

(** A pipe is a byte FIFO for writers.  On a well-formed pipe [write] never
    panics: with no reader left it sends [SIGPIPE] and fails with [EPIPE]; on a
    full pipe it fails with [EAGAIN] or goes to sleep; otherwise it appends the
    longest prefix of the data that fits and returns its length, never
    exceeding the capacity. *)
Theorem pipe_write_fifo mem w r nonblocking tid buf :
  ring_wf mem r →
  ∃ w' r' st, pipe_write w r nonblocking tid buf = Done (w', r', st) ∧
    ring_wf mem r' ∧ same_pipe r r' ∧
    let space := (capacity r - length (contents mem r))%nat in
    match st with
    | IoRet (Ok k) => k = Nat.min space (length buf) ∧
        contents mem r' = contents mem r ++ take space buf ∧
        (length (contents mem r') ≤ capacity r)%nat ∧ (0 < space)%nat
    | IoRet (Err e) => r' = r ∧
        (e = EPIPE ∧ all_read_ends_closed r = true ∧ sigpipes w' = sigpipes w ++ [tid] ∨
         e = EAGAIN ∧ nonblocking = true ∧ space = 0%nat)
    | IoBlock => r' = r ∧ nonblocking = false ∧ space = 0%nat
    end.
Proof. apply pipe_write_ok. Qed.

(** [splice] moves and [tee] copies: under both locks, on well-formed pipes,
    neither panics, and unless the output has no readers the first
    [min(len, bytes in, space out)] bytes of the input are appended to the
    output in order.  [splice] removes exactly those bytes from the input, so
    nothing is lost or duplicated; [tee] leaves the input as it was. *)
Theorem splice_tee_conserve mem w i o len :
  ring_wf mem i → ring_wf mem o →
  let k := Nat.min (Nat.min len (length (contents mem i))) (capacity o - length (contents mem o)) in
  (∃ w' i' o' res, splice_locked w i o len = Done (w', i', o', res) ∧
     ring_wf mem i' ∧ ring_wf mem o' ∧
     if all_read_ends_closed o then res = Err EPIPE ∧ i' = i ∧ o' = o
     else res = Ok k ∧ contents mem i' = drop k (contents mem i) ∧
          contents mem o' = contents mem o ++ take k (contents mem i)) ∧
  (∃ w' o' res, tee_locked w i o len = Done (w', o', res) ∧ ring_wf mem o' ∧
     if all_read_ends_closed o then res = Err EPIPE ∧ o' = o
     else res = Ok k ∧ contents mem o' = contents mem o ++ take k (contents mem i)).
Proof.
  intros Hi Ho k.
  assert (Nat.min (Nat.min len (available_read i)) (available_write o) = k) as Hk.
  { unfold k. rewrite !length_contents, (available_write_wf mem o) by done. done. }
  assert (k ≤ available_read i ∧ k ≤ available_write o)%nat as [Hki Hko] by lia.
  unfold splice_locked, tee_locked. rewrite Hk. clearbody k. split.
  - destruct (all_read_ends_closed o) eqn:Ec; [by eexists _, _, _, _|].
    destruct (Nat.eqb_spec k 0) as [->|Hk0].
    { eexists _, _, _, _. split; [done|]. by rewrite drop_0, app_nil_r. }
    destruct (pop_bufs_ok mem i k Hi) as (i1&out&E1&W1&S1&Fo&So&To&Di). rewrite E1. simpl.
    destruct (push_bufs_ok mem o out Ho Fo) as (o1&E2&W2&S2&C2); [rewrite So; lia|]. rewrite E2. simpl.
    destruct (wake_writers_ring true w i1) as [ws1 Hw1]. destruct (wake_writers true w i1) as [w1 i2].
    simpl in Hw1. subst i2. destruct (wake_readers_ring true w1 o1) as [ws2 Hw2].
    destruct (wake_readers true w1 o1) as [w2 o2]. simpl in Hw2. subst o2.
    eexists _, _, _, _. split; [done|]. split_and!;
      [by eapply ring_wf_queue; [..|exact W1]|by eapply ring_wf_queue; [..|exact W2]|done|exact Di|].
    transitivity (contents mem o1); [done|]. by rewrite C2, To.
  - destruct (all_read_ends_closed o) eqn:Ec; [by eexists _, _, _|].
    destruct (Nat.eqb_spec k 0) as [->|Hk0].
    { eexists _, _, _. split; [done|]. by rewrite app_nil_r. }
    destruct (clone_loop_ok mem (bufs i) k) as (Fc&Sc&Tc);
      [apply Hi|rewrite <- (wf_bytes mem i Hi); done|].
    unfold clone_bufs. rewrite Nat.min_l by done.
    destruct (push_bufs_ok mem o _ Ho Fc) as (o1&E2&W2&S2&C2); [by rewrite Sc|]. rewrite E2. simpl.
    destruct (wake_readers_ring true w o1) as [ws2 Hw2].
    destruct (wake_readers true w o1) as [w2 o2]. simpl in Hw2. subst o2.
    eexists _, _, _. split; [done|]. split_and!; [by eapply ring_wf_queue; [..|exact W2]|done|].
    transitivity (contents mem o1); [done|]. by rewrite C2, Tc.
Qed.

(** *** A concrete pipe *)

Definition no_pages : Z → list Z := λ _, [].
Definition idle_world : PipeWorld := mkWorld ∅ [] [] [].
(** Two fragments, 8 bytes of room left. *)
Definition demo_pipe : PipeRingBuffer :=
  mkRing [mkBuf (Bytes [1; 2; 3; 4]) 1 3; mkBuf (Bytes [5; 6; 7; 8; 9]) 0 5] 8 16 1 1 [] [] [] [].

Lemma demo_pipe_wf : ring_wf no_pages demo_pipe.
Proof. split; [repeat constructor; simpl; lia|done|simpl; lia]. Qed.

Lemma pipe_read_fifo_witness :
  ring_wf no_pages demo_pipe ∧
  ∃ w' r', pipe_read no_pages idle_world demo_pipe false 4 = Done (w', r', IoRet (Ok [2; 3; 4; 5])) ∧
    contents no_pages r' = [6; 7; 8; 9].
Proof.
  split; [exact demo_pipe_wf|].
  destruct (pipe_read_fifo no_pages idle_world demo_pipe false 4 demo_pipe_wf)
    as (w'&r'&st&E&_&_&H).
  vm_compute in E. injection E as <- <- <-. destruct H as (_&H&_).
  eexists _, _. split; [reflexivity|]. exact H.
Defined.

Lemma pipe_write_fifo_witness :
  ring_wf no_pages demo_pipe ∧
  ∃ w' r', pipe_write idle_world demo_pipe false 7 [10; 11; 12; 13; 14; 15; 16; 17; 18; 19; 20]
             = Done (w', r', IoRet (Ok 8%nat)) ∧
    contents no_pages r' = [2; 3; 4; 5; 6; 7; 8; 9; 10; 11; 12; 13; 14; 15; 16; 17].
Proof.
  split; [exact demo_pipe_wf|].
  destruct (pipe_write_fifo no_pages idle_world demo_pipe false 7
    [10; 11; 12; 13; 14; 15; 16; 17; 18; 19; 20] demo_pipe_wf) as (w'&r'&st&E&_&_&H).
  vm_compute in E. injection E as <- <- <-. destruct H as (_&H&_).
  eexists _, _. split; [reflexivity|]. exact H.
Defined.

Lemma splice_tee_conserve_witness :
  ring_wf no_pages demo_pipe ∧ ∃ w' i' o', splice_locked idle_world demo_pipe
    (make_pipe false 4096) 5 = Done (w', i', o', Ok 5%nat).
Proof.
  split; [exact demo_pipe_wf|].
  assert (ring_wf no_pages (make_pipe false 4096)) as Hm by (split; [constructor|done|apply Nat.le_0_l]).
  destruct (splice_tee_conserve no_pages idle_world demo_pipe (make_pipe false 4096) 5
    demo_pipe_wf Hm) as [(w'&i'&o'&res&E&_&_&H) _].
  exists w', i', o'. rewrite E. destruct H as [-> _]. reflexivity.
Defined.

(** ** The invariant over every operation *)

(** What any number of tasks can do to one pipe.  [push_file_page] is given a
    window inside the page. *)
Inductive pipe_step (mem : Z → list Z) : PipeWorld * PipeRingBuffer → PipeWorld * PipeRingBuffer → Prop :=
| pstep_read w r nb n w' r' st :
    pipe_read mem w r nb n = Done (w', r', st) → pipe_step mem (w, r) (w', r')
| pstep_write w r nb tid buf w' r' st :
    pipe_write w r nb tid buf = Done (w', r', st) → pipe_step mem (w, r) (w', r')
| pstep_kernel w r tid buf w' r' st :
    write_kernel_bytes w r tid buf = Done (w', r', st) → pipe_step mem (w, r) (w', r')
| pstep_page w r page off len w' r' st :
    (off + len ≤ length (mem page))%nat →
    push_file_page w r page off len = Done (w', r', st) → pipe_step mem (w, r) (w', r')
| pstep_capacity w r cap max n w' r' st :
    set_capacity w r cap max n = (w', r', st) → pipe_step mem (w, r) (w', r')
| pstep_open w r rd wr : pipe_step mem (w, r) (w, open_end r rd wr)
| pstep_close w r rd wr : pipe_step mem (w, r) (drop_end w r rd wr).

Definition pipe_inv (mem : Z → list Z) (s : PipeWorld * PipeRingBuffer) : Prop :=
  ring_wf mem s.2 ∧ (capacity s.2 ≤ PIPE_MAX_SIZE)%nat.

Lemma pipe_inv_wait mem w r w' r' :
  bufs r' = bufs r → ring_bytes r' = ring_bytes r → capacity r' = capacity r →
  pipe_inv mem (w, r) → pipe_inv mem (w', r').
Proof. intros H1 H2 H3 [Hw Hc]. split; [by eapply ring_wf_queue|]. simpl in *. lia. Qed.

Lemma drop_end_queue w r rd wr :
  bufs (drop_end w r rd wr).2 = bufs r ∧ ring_bytes (drop_end w r rd wr).2 = ring_bytes r ∧
  capacity (drop_end w r rd wr).2 = capacity r.
Proof.
  unfold drop_end, wake_writers, wake_readers.
  destruct rd, wr; repeat (case_match; simplify_eq/=); done.
Qed.

Lemma write_kernel_wf mem w r tid buf w' r' st :
  ring_wf mem r → write_kernel_bytes w r tid buf = Done (w', r', st) →
  ring_wf mem r' ∧ capacity r' = capacity r.
Proof.
  intros Hwf. unfold write_kernel_bytes.
  destruct (all_read_ends_closed r); [by intros [= <- <- <-]|].
  destruct (Nat.ltb_spec (available_write r) (length buf)); [by intros [= <- <- <-]|].
  destruct (write_bytes_ok mem r buf Hwf) as (r1&->&W&S&_); [done|]. simpl.
  destruct (wake_readers_ring true w r1) as [ws Hw]. destruct (wake_readers true w r1) as [w2 r2].
  simpl in Hw. subst r2. intros [= <- <- <-]. split; [by eapply ring_wf_queue; [..|exact W]|apply S].
Qed.

Lemma push_file_page_wf mem w r page off len w' r' st :
  ring_wf mem r → (off + len ≤ length (mem page))%nat →
  push_file_page w r page off len = Done (w', r', st) →
  ring_wf mem r' ∧ capacity r' = capacity r.
Proof.
  intros Hwf Hlen. unfold push_file_page.
  destruct (len =? 0)%nat; [by intros [= <- <- <-]|].
  destruct (all_read_ends_closed r); [by intros [= <- <- <-]|].
  destruct (Nat.eqb_spec (Nat.min len (available_write r)) 0); [by intros [= <- <- <-]|].
  destruct (push_bufs_ok mem r [from_file_page page off (Nat.min len (available_write r))] Hwf)
    as (r1&->&W&S&_); [|simpl; lia|].
  { apply Forall_singleton. split; simpl; lia. }
  simpl. destruct (wake_readers_ring true w r1) as [ws Hw]. destruct (wake_readers true w r1) as [w2 r2].
  simpl in Hw. subst r2. intros [= <- <- <-]. split; [by eapply ring_wf_queue; [..|exact W]|apply S].
Qed.

Lemma set_capacity_wf mem w r c m n w' r' st :
  pipe_inv mem (w, r) → set_capacity w r c m n = (w', r', st) → pipe_inv mem (w', r').
Proof.
  intros [[W1 W2 W3] Hc]. unfold set_capacity. set (cap := if (n =? 0)%nat then _ else _).
  destruct (_ || _) eqn:E; [by intros [= <- <- <-]|].
  destruct (Nat.ltb_spec cap (available_read r)); [by intros [= <- <- <-]|].
  set (r1 := mkRing _ _ _ _ _ _ _ _ _).
  destruct (wake_writers_ring false w r1) as [ws Hw]. destruct (wake_writers false w r1) as [w2 r2].
  simpl in Hw. subst r2. intros [= <- <- <-].
  apply orb_false_iff in E as [E _]. apply Nat.ltb_ge in E.
  split; [split; simpl; [done|done|]|simpl; done]. done.
Qed.

Lemma pipe_step_inv mem s s' : pipe_inv mem s → pipe_step mem s s' → pipe_inv mem s'.
Proof.
  intros Hinv Hs. destruct Hs as [w r nb n w' r' st E|w r nb tid buf w' r' st E|w r tid buf w' r' st E
    |w r page off len w' r' st Hl E|w r c m n w' r' st E|w r rd wr|w r rd wr].
  - destruct (pipe_read_ok mem w r nb n) as (?&?&?&E'&W&S&_); [apply Hinv|].
    rewrite E in E'. simplify_eq. split; [done|]. simpl. destruct S as (->&_). apply Hinv.
  - destruct (pipe_write_ok mem w r nb tid buf) as (?&?&?&E'&W&S&_); [apply Hinv|].
    rewrite E in E'. simplify_eq. split; [done|]. simpl. destruct S as (->&_). apply Hinv.
  - destruct Hinv as [W Hc]. destruct (write_kernel_wf mem _ _ _ _ _ _ _ W E). split; simpl in *; [done|lia].
  - destruct Hinv as [W Hc]. destruct (push_file_page_wf mem _ _ _ _ _ _ _ _ W Hl E).
    split; simpl in *; [done|lia].
  - by eapply set_capacity_wf.
  - eapply pipe_inv_wait; [..|exact Hinv]; done.
  - destruct (drop_end_queue w r rd wr) as (?&?&?). destruct (drop_end w r rd wr).
    by eapply pipe_inv_wait; [..|exact Hinv].
Qed.

(** The pipe's counters never lie: through any sequence of reads, writes,
    page splices, resizes, opens and closes from [make_pipe] on, the byte
    counter equals the bytes queued, never exceeds the capacity, which never
    exceeds [PIPE_MAX_SIZE]; so the unchecked [capacity - bytes] never wraps,
    and every read or write from there on runs to completion without a
    panic. *)
Theorem pipe_accounting mem cap_sys_resource max w w' r :
  rtc (pipe_step mem) (w, make_pipe cap_sys_resource max) (w', r) →
  ring_bytes r = length (contents mem r) ∧
  (ring_bytes r ≤ capacity r ≤ PIPE_MAX_SIZE)%nat ∧
  available_write r = (capacity r - ring_bytes r)%nat ∧
  (∀ nb n, ∃ x, pipe_read mem w' r nb n = Done x) ∧
  (∀ nb tid buf, ∃ x, pipe_write w' r nb tid buf = Done x).
Proof.
  intros Hr. assert (pipe_inv mem (w', r)) as [W Hc].
  { eapply rtc_invariant; [apply pipe_step_inv|exact Hr|].
    split; [split; [constructor|done|apply Nat.le_0_l]|].
    destruct cap_sys_resource; [apply Nat.le_refl|apply Nat.le_min_l]. }
  cbn [snd] in *. pose proof (length_contents mem r W) as Hl. split_and!; [symmetry; exact Hl|apply W|exact Hc|..].
  - by apply (available_write_wf mem).
  - intros nb n. destruct (pipe_read_ok mem w' r nb n W) as (?&?&?&E&_). eauto.
  - intros nb tid buf. destruct (pipe_write_ok mem w' r nb tid buf W) as (?&?&?&E&_). eauto.
Qed.

Lemma pipe_accounting_witness :
  ∃ w r, rtc (pipe_step no_pages) (idle_world, make_pipe false 16) (w, r) ∧ ring_bytes r = 2%nat ∧
    available_write r = (capacity r - ring_bytes r)%nat.
Proof.
  destruct (pipe_write idle_world (make_pipe false 16) false 7 [1; 2]) as [[[w r] st]|] eqn:E;
    [|vm_compute in E; discriminate].
  exists w, r. assert (rtc (pipe_step no_pages) (idle_world, make_pipe false 16) (w, r)) as Hr
    by (apply rtc_once; eapply pstep_write; exact E).
  split; [exact Hr|]. split; [vm_compute in E; injection E as <- <- <-; reflexivity|].
  exact (proj1 (proj2 (proj2 (pipe_accounting no_pages false 16 idle_world w r Hr)))).
Defined.

(** ** Sleeping readers *)

(** Where a task is inside [read] of an empty pipe. *)
Inductive ReaderPc : Type := RCheck | RPublish | RRecheck | RSleep | RDone.

Record ReaderSys : Type := mkSys { sys_w : PipeWorld; sys_r : PipeRingBuffer; sys_pc : gmap Z ReaderPc }.

(** The part of [read] between publishing [Blocked] and sleeping. *)
Definition reader_recheck (w : PipeWorld) (r : PipeRingBuffer) (t : Z) :
    PipeWorld * PipeRingBuffer * ReaderPc :=
  if (0 <? available_read r)%nat || all_write_ends_closed r
  then (set_status w t Running, r, RCheck)
  else (w, set_read_wait r (push_waiter w t (read_waiters r)) (read_poll r), RSleep).

(** The steps of the readers (each a critical section of its own), of the
    scheduler, and of writers. *)
Inductive reader_step (mem : Z → list Z) (n : nat) : ReaderSys → ReaderSys → Prop :=
| rstep_check w r pc t w' r' st :
    pc !! t = Some RCheck → pipe_read mem w r false n = Done (w', r', st) →
    reader_step mem n (mkSys w r pc)
      (mkSys w' r' (<[t := match st with IoBlock => RPublish | IoRet _ => RDone end]> pc))
| rstep_signal w r pc t p' : (* an ignorable signal: again; another: EINTR *)
    pc !! t = Some RPublish → p' = RCheck ∨ p' = RDone →
    reader_step mem n (mkSys w r pc) (mkSys w r (<[t := p']> pc))
| rstep_publish w r pc t :
    pc !! t = Some RPublish →
    reader_step mem n (mkSys w r pc) (mkSys (set_status w t Blocked) r (<[t := RRecheck]> pc))
| rstep_recheck w r pc t w' r' p' :
    pc !! t = Some RRecheck → reader_recheck w r t = (w', r', p') →
    reader_step mem n (mkSys w r pc) (mkSys w' r' (<[t := p']> pc))
| rstep_dispatch w r pc t :
    pc !! t = Some RSleep → task_status w !! t = Some Ready →
    reader_step mem n (mkSys w r pc) (mkSys (set_status w t Running) r (<[t := RCheck]> pc))
| rstep_write w r pc nb tid buf w' r' st :
    pipe_write w r nb tid buf = Done (w', r', st) →
    reader_step mem n (mkSys w r pc) (mkSys w' r' pc)
| rstep_close w r pc :
    reader_step mem n (mkSys w r pc)
      (mkSys (drop_end w r false true).1 (drop_end w r false true).2 pc).

(** Writers only touch the queue before they wake. *)
Lemma write_byte_loop_queue bytes : ∀ r r',
  write_byte_loop r bytes = Done r' → ∃ q k, r' = set_queue r q k.
Proof.
  induction bytes as [|b bytes IH]; intros r r'; cbn [write_byte_loop].
  { intros [= <-]. exists (bufs r), (ring_bytes r). by destruct r. }
  unfold write_byte, write_bytes. intros H. exec.
  match goal with H : write_byte_loop _ _ = _ |- _ => apply IH in H as (q&k&->) end.
  exists q, k. done.
Qed.

Lemma pipe_write_shape w r nb tid buf w' r' st :
  pipe_write w r nb tid buf = Done (w', r', st) →
  (task_status w' = task_status w ∧ r' = r) ∨
  ∃ q k, (w', r') = wake_readers true w (set_queue r q k).
Proof.
  unfold pipe_write. destruct (all_read_ends_closed r); [intros [= <- <- <-]; by left|].
  destruct (available_write r =? 0)%nat; [destruct nb; intros [= <- <- <-]; by left|].
  intros H. right. apply comp_bind_done in H as ([r1 k1]&Hr&H).
  destruct (wake_readers true w r1) as [w2 r2] eqn:Ew. injection H as <- <- <-.
  assert (∃ q k, r1 = set_queue r q k) as (q&k&->); [|by exists q, k].
  destruct (length buf <=? 10)%nat.
  - apply comp_bind_done in Hr as (r0&Hr&[= <- _]). by eapply write_byte_loop_queue.
  - unfold write_owned_bytes in Hr. exec. case_match; simplify_eq; [|eauto].
    exists (bufs r1), (ring_bytes r1). by destruct r1.
Qed.

Lemma pipe_read_shape mem w r n w' r' st :
  pipe_read mem w r false n = Done (w', r', st) →
  write_waiters r = [] → read_waiters r' = read_waiters r ∧ task_status w' = task_status w ∧
  write_waiters r' = [] ∧
  (st = IoBlock → r' = r).
Proof.
  unfold pipe_read. intros H Hw.
  destruct (available_read r =? 0)%nat; [destruct (all_write_ends_closed r); by simplify_eq|].
  apply comp_bind_done in H as ([r1 data]&Hr&H).
  assert (read_waiters r1 = read_waiters r ∧ write_waiters r1 = write_waiters r) as [E1 E2].
  { assert (∀ r n r' out, pop_bufs r n = Done (r', out) →
      read_waiters r' = read_waiters r ∧ write_waiters r' = write_waiters r) as Hpop.
    { intros r0 k r0' out Hp. unfold pop_bufs in Hp. exec. by destruct x as [[??]?]; simplify_eq. }
    destruct (n <=? 10)%nat.
    - revert Hr. generalize (Nat.min (available_read r) n) as k. clear -Hpop. intros k.
      revert r r1 data. induction k as [|k IH]; intros r r1 data H; simpl in H; [by simplify_eq|].
      unfold read_byte, read_bytes in H. exec. destruct_and?.
      repeat match goal with x : _ * _ |- _ => destruct x; simplify_eq/= end. exec.
      repeat match goal with x : _ * _ |- _ => destruct x; simplify_eq/= end. exec.
      match goal with H : read_byte_loop _ _ _ = _ |- _ => apply IH in H as [-> ->] end.
      match goal with H : pop_bufs _ _ = _ |- _ => apply Hpop in H as [-> ->] end. done.
    - unfold read_into in Hr. cbv zeta in Hr. destruct (_ =? 0)%nat; [by simplify_eq|]. exec.
      repeat match goal with x : _ * _ |- _ => destruct x; simplify_eq/= end. exec. by eapply Hpop. }
  unfold wake_writers in H. rewrite E2, Hw in H. simpl in H. simplify_eq/=. done.
Qed.

(** A queue that holds only [t]: waking it makes a blocked [t] ready. *)
Lemma wake_only t one waiters : ∀ w,
  (∀ x, x ∈ waiters → x = t) →
  let '(w', ws, _) := wake_waiters w waiters one in
  (∀ x, x ∈ ws → x = t) ∧
  (if bool_decide (task_status w !! t = Some Blocked ∧ t ∈ waiters)
   then task_status w' !! t = Some Ready else task_status w' = task_status w).
Proof.
  induction waiters as [|x waiters IH]; intros w Hx; simpl.
  { split; [done|]. rewrite bool_decide_eq_false_2; [done|]. intros [_ []%elem_of_nil]. }
  assert (x = t) as -> by (apply Hx; left).
  assert (∀ y, y ∈ waiters → y = t) as Hx' by (intros y Hy; apply Hx; by right).
  destruct (task_status w !! t) as [s|] eqn:Es; [destruct s|];
    try (specialize (IH w Hx'); destruct (wake_waiters w waiters one) as [[w' ws] k];
         destruct IH as [IH1 IH2]; split; [done|];
         rewrite bool_decide_eq_false_2 in IH2 by (rewrite Es; intros [? _]; done);
         rewrite bool_decide_eq_false_2 by (intros [? _]; done); done).
  rewrite bool_decide_eq_true_2 by (split; [done|left]).
  destruct one; [split; [done|apply lookup_insert_eq]|].
  specialize (IH (enqueue_ready (set_status w t Ready) t) Hx').
  destruct (wake_waiters _ waiters false) as [[w' ws] k]. destruct IH as [IH1 IH2]. split; [done|].
  rewrite bool_decide_eq_false_2 in IH2.
  - rewrite IH2. apply lookup_insert_eq.
  - simpl. rewrite lookup_insert_eq. intros [? _]. done.
Qed.

(** The invariant for a pipe with a single reader [t]. *)
Record reader_inv (t : Z) (s : ReaderSys) : Prop := {
  ri_only : ∀ t', is_Some (sys_pc s !! t') → t' = t;
  ri_waiters : ∀ x, x ∈ read_waiters (sys_r s) → x = t;
  ri_writers : write_waiters (sys_r s) = [];
  ri_sleep : sys_pc s !! t = Some RSleep → task_status (sys_w s) !! t = Some Blocked →
    t ∈ read_waiters (sys_r s) ∧ available_read (sys_r s) = 0%nat ∧
    all_write_ends_closed (sys_r s) = false
}.

Lemma reader_inv_pc t w r w' r' pc t' p' :
  reader_inv t (mkSys w r pc) → is_Some (pc !! t') →
  (∀ x, x ∈ read_waiters r' → x = t) → write_waiters r' = [] →
  (p' = RSleep → task_status w' !! t = Some Blocked →
     t ∈ read_waiters r' ∧ available_read r' = 0%nat ∧ all_write_ends_closed r' = false) →
  reader_inv t (mkSys w' r' (<[t' := p']> pc)).
Proof.
  intros [H1 H2 H3 H4] Ht' Hw Hww Hs. apply H1 in Ht' as ->. split; simpl in *; [|done|done|].
  - intros x Hx. destruct (decide (x = t)) as [->|]; [done|]. rewrite lookup_insert_ne in Hx by done. auto.
  - rewrite lookup_insert_eq. intros [= ->]. auto.
Qed.

(** Readers are woken by [wake_readers] whenever they sleep. *)
Lemma reader_inv_wake t one w r pc r1 w2 r2 :
  reader_inv t (mkSys w r pc) → read_waiters r1 = read_waiters r → write_waiters r1 = write_waiters r →
  wake_readers one w r1 = (w2, r2) → reader_inv t (mkSys w2 r2 pc).
Proof.
  intros [H1 H2 H3 H4] E1 E2. unfold wake_readers. simpl in *. rewrite E1.
  pose proof (wake_only t one (read_waiters r) w H2) as Hw.
  destruct (wake_waiters w (read_waiters r) one) as [[w' ws] k]. destruct Hw as [Hws Hst].
  intros [= <- <-]. split; simpl; [done|done|by rewrite E2|].
  intros Hpc Hb. case_bool_decide as Hd.
  - congruence.
  - rewrite Hst in Hb. destruct Hd. split; [done|]. by apply H4.
Qed.

Lemma reader_step_inv mem n t s s' : reader_inv t s → reader_step mem n s s' → reader_inv t s'.
Proof.
  intros Hi Hs. pose proof Hi as [H1 H2 H3 H4]. destruct Hs as [w r pc t' w' r' st Hpc Hr|w r pc t' p' Hpc Hp|w r pc t' Hpc
    |w r pc t' w' r' p' Hpc Hr|w r pc t' Hpc Hst|w r pc nb tid buf w' r' st Hw|w r pc]; simpl in *.
  - destruct (pipe_read_shape _ _ _ _ _ _ _ Hr H3) as (E1&E2&E3&E4).
    eapply reader_inv_pc; [exact Hi|by rewrite Hpc|by rewrite E1|done|by destruct st].
  - eapply reader_inv_pc; [exact Hi|by rewrite Hpc|done|done|by destruct Hp as [-> | ->]].
  - eapply reader_inv_pc; [exact Hi|by rewrite Hpc|done|done|done].
  - assert (t' = t) as -> by (apply H1; by rewrite Hpc). unfold reader_recheck in Hr.
    destruct (_ || _) eqn:Ec; simplify_eq.
    + eapply reader_inv_pc; [exact Hi|by rewrite Hpc|done|done|done].
    + apply orb_false_iff in Ec as [Ea Ec]. apply Nat.ltb_ge in Ea.
      eapply reader_inv_pc; [exact Hi|by rewrite Hpc|..]; simpl; [|done|].
      * unfold push_waiter. case_match; [done|]. intros x [?|?%list_elem_of_singleton]%elem_of_app; auto.
      * intros _ _. split_and!; [|unfold available_read in *; simpl; lia|done].
        unfold push_waiter. destruct (existsb _ _) eqn:Ex.
        -- apply existsb_elem in Ex as (x&Hx&?). split_bools. assert (x = t) as -> by lia. done.
        -- apply elem_of_app. right. by apply list_elem_of_singleton.
  - eapply reader_inv_pc; [exact Hi|by rewrite Hpc|done|done|done].
  - destruct (pipe_write_shape _ _ _ _ _ _ _ _ Hw) as [[E ->]|(q&k&E)].
    + split; simpl; [done|done|done|]. by rewrite E.
    + symmetry in E. by eapply reader_inv_wake; [exact Hi|..|exact E].
  - unfold drop_end. set (r1 := mkRing _ _ _ _ _ _ _ _ _).
    destruct (wake_readers false w r1) as [w2 r2] eqn:E.
    by eapply reader_inv_wake; [exact Hi|..|exact E].
Qed.

(** A running task about to read, on a new pipe. *)
Definition reader_init (t : Z) (r : PipeRingBuffer) : ReaderSys :=
  mkSys (mkWorld {[t := Running]} [] [] []) r {[t := RCheck]}.

(** A single reader never sleeps through its wakeup.  In every
    interleaving of the reader's critical sections with writes and closes, a
    reader that is asleep and still marked [Blocked] is on the pipe's wait
    queue, and the pipe is empty with a write end open: as soon as data
    arrives or the last writer leaves, it has been made ready. *)
Theorem pipe_reader_no_lost_wakeup mem n t max s :
  rtc (reader_step mem n) (reader_init t (make_pipe false max)) s →
  sys_pc s !! t = Some RSleep → task_status (sys_w s) !! t = Some Blocked →
  t ∈ read_waiters (sys_r s) ∧ available_read (sys_r s) = 0%nat ∧
  all_write_ends_closed (sys_r s) = false.
Proof.
  intros Hr. assert (reader_inv t s) as [_ _ _ H]; [|exact H].
  eapply rtc_invariant; [apply reader_step_inv|exact Hr|]. split; simpl.
  - intros t' [? H]. by apply lookup_singleton_Some in H as [-> _].
  - intros x []%elem_of_nil.
  - done.
  - rewrite lookup_singleton_eq. intros [=].
Qed.

Ltac reader_check t := eapply rtc_l; [eapply (rstep_check _ _ _ _ _ t); [reflexivity|vm_compute; reflexivity]|].
Ltac reader_sleep t :=
  reader_check t;
  eapply rtc_l; [eapply (rstep_publish _ _ _ _ _ t); reflexivity|];
  eapply rtc_l; [eapply (rstep_recheck _ _ _ _ _ t); [reflexivity|vm_compute; reflexivity]|].

Lemma pipe_reader_no_lost_wakeup_witness :
  ∃ s, rtc (reader_step no_pages 3) (reader_init 1 (make_pipe false 16)) s ∧
    sys_pc s !! 1 = Some RSleep ∧ task_status (sys_w s) !! 1 = Some Blocked ∧
    available_read (sys_r s) = 0%nat.
Proof.
  eassert (Hr : rtc (reader_step no_pages 3) (reader_init 1 (make_pipe false 16)) _).
  { reader_sleep 1. apply rtc_refl. }
  eexists. split; [exact Hr|]. split; [reflexivity|]. split; [reflexivity|].
  exact (proj1 (proj2 (pipe_reader_no_lost_wakeup no_pages 3 1 16 _ Hr eq_refl eq_refl))).
Defined.

(** With two readers a wakeup can be lost: a write wakes one sleeping
    reader, that reader takes less than what was written and returns without
    waking the next, and the other reader stays blocked on a pipe that has
    data and no runnable reader. *)
Theorem pipe_second_reader_stranded :
  ∃ s, rtc (reader_step no_pages 3)
         (mkSys (mkWorld {[1 := Running; 2 := Running]} [] [] []) (make_pipe false 16)
            {[1 := RCheck; 2 := RCheck]}) s ∧
    sys_pc s !! 1 = Some RDone ∧ sys_pc s !! 2 = Some RSleep ∧
    task_status (sys_w s) !! 2 = Some Blocked ∧ available_read (sys_r s) = 9%nat.
Proof.
  eassert (Hr : rtc (reader_step no_pages 3)
         (mkSys (mkWorld {[1 := Running; 2 := Running]} [] [] []) (make_pipe false 16)
            {[1 := RCheck; 2 := RCheck]}) _).
  { reader_sleep 1. reader_sleep 2.
    eapply rtc_l; [eapply (rstep_write _ _ _ _ _ true 9 [1;2;3;4;5;6;7;8;9;10;11;12]); vm_compute; reflexivity|].
    eapply rtc_l; [eapply (rstep_dispatch _ _ _ _ _ 1); reflexivity|].
    reader_check 1. apply rtc_refl. }
  eexists. split; [exact Hr|]. repeat split; reflexivity.
Qed.
