(* ===== verification/MsgQueue.v ===== *)
(** * System V message queues

    [syscall/ipc/msg.rs]: the queue state with [try_send], [find_message] and
    [try_receive], the blocking wrappers [wait_send] and [wait_receive], the
    manager with its id and key tables, and [msgget], [msgsnd], [msgrcv] and
    [msgctl] above them.

    A queue object is named by its id: ids are never reused, so a task that
    still holds a removed queue is a task that still uses its id.  The wall
    clock is the argument [now]; the caller's credentials are arguments. *)

From S2P Require Import Prelude Errno Wake.

Definition IPC_PRIVATE : Z := 0.
Definition IPC_CREAT : Z := 512.
Definition IPC_EXCL : Z := 1024.
Definition IPC_NOWAIT : Z := 2048.
Definition MSG_NOERROR : Z := 4096.
Definition MSG_EXCEPT : Z := 8192.
Definition MSG_COPY : Z := 16384.
Definition MSGMNI : Z := 32000.
Definition MSGMAX : Z := 8192.
Definition MSGMNB : Z := 16384.

Record IpcPerm : Type := mkPerm {
  p_key : Z; p_uid : Z; p_gid : Z; p_cuid : Z; p_cgid : Z; p_mode : Z; p_seq : Z }.
Record Message : Type := mkMsg { kind : Z; text : list Z }.
Record QueueState : Type := mkQueue {
  perm : IpcPerm; messages : list Message; q_bytes : Z; qbytes : Z;
  stime : Z; rtime : Z; ctime : Z; lspid : Z; lrpid : Z; removed : bool }.

(** [flags & mask != 0]. *)
Definition has_flag (flags mask : Z) : bool := negb (Z.land flags mask =? 0).
Definition text_len (m : Message) : Z := Z.of_nat (length (text m)).

(** ** Permissions *)

Definition has_cap_or_root (uid : Z) : bool := uid =? 0.

Definition access_allowed (p : IpcPerm) (uid gid : Z) (read write : bool) : bool :=
  if has_cap_or_root uid then true
  else
    let bits :=
      if uid =? p_uid p then Z.land (Z.shiftr (p_mode p) 6) 7
      else if gid =? p_gid p then Z.land (Z.shiftr (p_mode p) 3) 7
      else Z.land (p_mode p) 7 in
    (negb read || has_flag bits 4) && (negb write || has_flag bits 2).

Definition owner_allowed (p : IpcPerm) (uid : Z) : bool :=
  has_cap_or_root uid || (uid =? p_uid p) || (uid =? p_cuid p).

(** ** One queue *)

(** [filter(kind <= limit).min_by_key((kind, index))] over the enumerated
    messages: [i] is the index of the head of the list. *)
Fixpoint min_kind (limit : Z) (i : nat) (best : option (Z * nat)) (ms : list Message) :
    option (Z * nat) :=
  match ms with
  | [] => best
  | m :: ms =>
      let best :=
        if kind m <=? limit then
          match best with
          | Some (k, j) =>
              if (kind m <? k) || ((kind m =? k) && (i <? j)%nat) then Some (kind m, i) else best
          | None => Some (kind m, i)
          end
        else best in
      min_kind limit (S i) best ms
  end.

Definition find_message (st : QueueState) (msgtyp flags : Z) : option nat :=
  if has_flag flags MSG_COPY then
    if msgtyp <? 0 then None
    else if msgtyp <? Z.of_nat (length (messages st)) then Some (Z.to_nat msgtyp) else None
  else if msgtyp =? 0 then
    match messages st with [] => None | _ => Some 0%nat end
  else if 0 <? msgtyp then
    position (λ m, if has_flag flags MSG_EXCEPT then negb (kind m =? msgtyp) else kind m =? msgtyp)
      (messages st)
  else snd <$> min_kind (sat_neg_i64 msgtyp) 0 None (messages st).

Definition try_send (st : QueueState) (m : Message) (now pid : Z) : QueueState * SysResult bool :=
  if removed st then (st, Err EIDRM)
  else
    let size := text_len m in
    if (saturating_sub (qbytes st) (q_bytes st) <? size)
       || (qbytes st <=? Z.of_nat (length (messages st)))
    then (st, Ok false)
    else (mkQueue (perm st) (messages st ++ [m]) (wrap64 (q_bytes st + size)) (qbytes st)
            now (rtime st) (ctime st) pid (lrpid st) false, Ok true).

Definition try_receive (st : QueueState) (msgtyp msgflg msgsz now pid : Z) :
    QueueState * SysResult (option Message) :=
  if removed st then (st, Err EIDRM)
  else match find_message st msgtyp msgflg with
  | None => (st, Ok None)
  | Some index =>
      match messages st !! index with
      | None => (st, Err EIDRM)
      | Some m =>
          if negb (has_flag msgflg MSG_COPY) && (msgsz <? text_len m)
             && negb (has_flag msgflg MSG_NOERROR)
          then (st, Err E2BIG)
          else if has_flag msgflg MSG_COPY then (st, Ok (Some m))
          else (mkQueue (perm st) (delete index (messages st))
                  (saturating_sub (q_bytes st) (text_len m)) (qbytes st)
                  (stime st) now (ctime st) (lspid st) pid false, Ok (Some m))
      end
  end.

(** ** The manager *)

Record MsgQueue : Type := mkMsgQueue { q_state : QueueState; recv_wait : list Z; send_wait : list Z }.

(** [objects] holds every queue ever made, [queues] the ids still registered,
    [keys] the key table, [msg_woken] the tasks woken so far. *)
Record MsgManager : Type := mkManager {
  next_id : Z; objects : gmap Z MsgQueue; queues : gset Z; keys : gmap Z Z; msg_woken : list Z }.

Definition manager_new : MsgManager := mkManager 1 ∅ ∅ ∅ [].

Definition get_queue (m : MsgManager) (msqid : Z) : SysResult MsgQueue :=
  if msqid <? 0 then Err EINVAL
  else if bool_decide (msqid ∈ queues m) then ok_or EINVAL (objects m !! msqid) else Err EINVAL.

Definition put_queue (m : MsgManager) (id : Z) (q : MsgQueue) : MsgManager :=
  mkManager (next_id m) (<[id := q]> (objects m)) (queues m) (keys m) (msg_woken m).
Definition put_state (m : MsgManager) (id : Z) (q : MsgQueue) (st : QueueState) : MsgManager :=
  put_queue m id (mkMsgQueue st (recv_wait q) (send_wait q)).

(** [queue.recv_wait.wake()] and [queue.send_wait.wake()]. *)
Definition wake_recv (m : MsgManager) (id : Z) : MsgManager :=
  match objects m !! id with
  | Some q =>
      let '(ws, es) := poll_wake (recv_wait q) in
      mkManager (next_id m) (<[id := mkMsgQueue (q_state q) es (send_wait q)]> (objects m))
        (queues m) (keys m) (msg_woken m ++ ws)
  | None => m
  end.
Definition wake_send (m : MsgManager) (id : Z) : MsgManager :=
  match objects m !! id with
  | Some q =>
      let '(ws, es) := poll_wake (send_wait q) in
      mkManager (next_id m) (<[id := mkMsgQueue (q_state q) (recv_wait q) es]> (objects m))
        (queues m) (keys m) (msg_woken m ++ ws)
  | None => m
  end.
(** [register(cx.waker())] on either set. *)
Definition register_recv (m : MsgManager) (id task : Z) : MsgManager :=
  match objects m !! id with
  | Some q =>
      let '(ws, es) := poll_register task (recv_wait q) in
      mkManager (next_id m) (<[id := mkMsgQueue (q_state q) es (send_wait q)]> (objects m))
        (queues m) (keys m) (msg_woken m ++ ws)
  | None => m
  end.
Definition register_send (m : MsgManager) (id task : Z) : MsgManager :=
  match objects m !! id with
  | Some q =>
      let '(ws, es) := poll_register task (send_wait q) in
      mkManager (next_id m) (<[id := mkMsgQueue (q_state q) (recv_wait q) es]> (objects m))
        (queues m) (keys m) (msg_woken m ++ ws)
  | None => m
  end.

Definition create_queue (m : MsgManager) (key msgflg uid gid now : Z) : MsgManager * SyscallRet :=
  if MSGMNI <=? Z.of_nat (size (queues m)) then (m, Err ENOSPC)
  else if i32_max <? next_id m + 1 then (m, Err ENOSPC)
  else
    let id := next_id m in
    let p := mkPerm key uid gid uid gid (Z.land msgflg 511) 0 in
    let q := mkMsgQueue (mkQueue p [] 0 MSGMNB 0 0 now 0 0 false) [] [] in
    (mkManager (id + 1) (<[id := q]> (objects m)) ({[id]} ∪ queues m)
       (if key =? IPC_PRIVATE then keys m else <[key := id]> (keys m)) (msg_woken m), Ok id).

(** The first critical section of [sys_msgget]: [None] sends the caller on to
    [create_queue]. *)
Definition msgget_lookup (m : MsgManager) (key msgflg uid gid : Z) : option SyscallRet :=
  if key =? IPC_PRIVATE then None
  else match keys m !! key with
  | Some msqid =>
      Some (match get_queue m msqid with
            | Err e => Err e
            | Ok q =>
                if has_flag msgflg IPC_CREAT && has_flag msgflg IPC_EXCL then Err EEXIST
                else if negb (access_allowed (perm (q_state q)) uid gid
                                (has_flag msgflg 292) (has_flag msgflg 146))
                then Err EACCES else Ok msqid
            end)
  | None => if has_flag msgflg IPC_CREAT then None else Some (Err ENOENT)
  end.

Definition sys_msgget (m : MsgManager) (key msgflg uid gid now : Z) : MsgManager * SyscallRet :=
  match msgget_lookup m key msgflg uid gid with
  | Some r => (m, r)
  | None => create_queue m key msgflg uid gid now
  end.

(** How a system call goes on: it returns, or waits on the queue. *)
Inductive MsgStep (A : Type) : Type := MsgRet (res : SysResult A) | MsgWait.
Arguments MsgRet {A} res.
Arguments MsgWait {A}.

(** [sys_msgsnd] once the message is copied in. *)
Definition sys_msgsnd (m : MsgManager) (msqid : Z) (msg : Message) (msgflg uid gid pid now : Z) :
    MsgManager * MsgStep Z :=
  if MSGMAX <? text_len msg then (m, MsgRet (Err EINVAL))
  else match get_queue m msqid with
  | Err e => (m, MsgRet (Err e))
  | Ok q =>
      if negb (access_allowed (perm (q_state q)) uid gid false true) then (m, MsgRet (Err EACCES))
      else if kind msg <=? 0 then (m, MsgRet (Err EINVAL))
      else match try_send (q_state q) msg now pid with
      | (_, Err e) => (m, MsgRet (Err e))
      | (st, Ok true) => (wake_recv (put_state m msqid q st) msqid, MsgRet (Ok 0))
      | (_, Ok false) =>
          if has_flag msgflg IPC_NOWAIT then (m, MsgRet (Err EAGAIN)) else (m, MsgWait)
      end
  end.

(** One poll of [wait_send]; [task] is the waker.  The queue is unlocked between
    the two tries; the poll as a whole is the case without interference. *)
Definition wait_send_try (m : MsgManager) (id : Z) (msg : Message) (pid now : Z) :
    MsgManager * option (SysResult bool) :=
  match objects m !! id with
  | Some q => let '(st, r) := try_send (q_state q) msg now pid in (put_state m id q st, Some r)
  | None => (m, None)
  end.
Definition wait_send_poll (m : MsgManager) (id : Z) (msg : Message) (pid now task : Z) :
    MsgManager * MsgStep Z :=
  match wait_send_try m id msg pid now with
  | (m, Some (Ok true)) => (m, MsgRet (Ok 0))
  | (m, Some (Ok false)) =>
      match wait_send_try (register_send m id task) id msg pid now with
      | (m, Some (Ok true)) => (m, MsgRet (Ok 0))
      | (m, Some (Err e)) => (m, MsgRet (Err e))
      | (m, _) => (m, MsgWait)
      end
  | (m, Some (Err e)) => (m, MsgRet (Err e))
  | (m, None) => (m, MsgWait)
  end.

Definition wait_receive_try (m : MsgManager) (id msgtyp msgflg msgsz pid now : Z) :
    MsgManager * option (SysResult (option Message)) :=
  match objects m !! id with
  | Some q =>
      let '(st, r) := try_receive (q_state q) msgtyp msgflg msgsz now pid in
      (put_state m id q st, Some r)
  | None => (m, None)
  end.
Definition wait_receive_poll (m : MsgManager) (id msgtyp msgflg msgsz pid now task : Z) :
    MsgManager * MsgStep Message :=
  match wait_receive_try m id msgtyp msgflg msgsz pid now with
  | (m, Some (Ok (Some msg))) => (m, MsgRet (Ok msg))
  | (m, Some (Ok None)) =>
      match wait_receive_try (register_recv m id task) id msgtyp msgflg msgsz pid now with
      | (m, Some (Ok (Some msg))) => (m, MsgRet (Ok msg))
      | (m, Some (Err e)) => (m, MsgRet (Err e))
      | (m, _) => (m, MsgWait)
      end
  | (m, Some (Err e)) => (m, MsgRet (Err e))
  | (m, None) => (m, MsgWait)
  end.

(** The end of [sys_msgrcv]: the bytes for the user and the wakeup of senders. *)
Definition msgrcv_finish (m : MsgManager) (msqid : Z) (msg : Message) (msgflg msgsz : Z) :
    MsgManager * (Z * list Z) :=
  let copy_len := Z.min (text_len msg) msgsz in
  ((if has_flag msgflg MSG_COPY then m else wake_send m msqid),
   (kind msg, take (Z.to_nat copy_len) (text msg))).

(** [sys_msgrcv] up to the wait. *)
Definition sys_msgrcv (m : MsgManager) (msqid msgsz msgtyp msgflg uid gid pid now : Z) :
    MsgManager * MsgStep (Z * list Z) :=
  if (MSGMAX <? msgsz) || (has_flag msgflg MSG_COPY && negb (has_flag msgflg IPC_NOWAIT))
     || (has_flag msgflg MSG_COPY && has_flag msgflg MSG_EXCEPT)
  then (m, MsgRet (Err EINVAL))
  else match get_queue m msqid with
  | Err e => (m, MsgRet (Err e))
  | Ok q =>
      if negb (access_allowed (perm (q_state q)) uid gid true false) then (m, MsgRet (Err EACCES))
      else if negb (has_flag msgflg IPC_NOWAIT) then (m, MsgWait)
      else match try_receive (q_state q) msgtyp msgflg msgsz now pid with
      | (_, Err e) => (m, MsgRet (Err e))
      | (_, Ok None) => (m, MsgRet (Err ENOMSG))
      | (st, Ok (Some msg)) =>
          let '(m, out) := msgrcv_finish (put_state m msqid q st) msqid msg msgflg msgsz in
          (m, MsgRet (Ok out))
      end
  end.

(** [IPC_SET] with the fields the user asks for. *)
Definition msgctl_set (m : MsgManager) (msqid uid new_uid new_gid new_mode new_qbytes now : Z) :
    MsgManager * SyscallRet :=
  match get_queue m msqid with
  | Err e => (m, Err e)
  | Ok q =>
      let st := q_state q in
      if negb (owner_allowed (perm st) uid) then (m, Err EPERM)
      else if negb (new_uid =? p_uid (perm st)) && negb (has_cap_or_root uid) then (m, Err EPERM)
      else if negb (new_gid =? p_gid (perm st)) && negb (has_cap_or_root uid) then (m, Err EPERM)
      else if (MSGMNB <? new_qbytes) && negb (has_cap_or_root uid) then (m, Err EPERM)
      else
        let queue_was_full :=
          (qbytes st <=? q_bytes st) || (qbytes st <=? Z.of_nat (length (messages st))) in
        let p := perm st in
        let st := mkQueue (mkPerm (p_key p) new_uid new_gid (p_cuid p) (p_cgid p)
                             (Z.land new_mode 511) (p_seq p))
                    (messages st) (q_bytes st) new_qbytes (stime st) (rtime st) now
                    (lspid st) (lrpid st) (removed st) in
        let m := put_state m msqid q st in
        ((if queue_was_full then wake_send m msqid else m), Ok 0)
  end.

(** [IPC_RMID]. *)
Definition msgctl_rmid (m : MsgManager) (msqid uid : Z) : MsgManager * SyscallRet :=
  match get_queue m msqid with
  | Err e => (m, Err e)
  | Ok q =>
      let st := q_state q in
      if negb (owner_allowed (perm st) uid) then (m, Err EPERM)
      else
        let m := mkManager (next_id m) (objects m) (queues m ∖ {[msqid]})
                   (if p_key (perm st) =? IPC_PRIVATE then keys m else delete (p_key (perm st)) (keys m))
                   (msg_woken m) in
        let st := mkQueue (perm st) (messages st) (q_bytes st) (qbytes st) (stime st) (rtime st)
                    (ctime st) (lspid st) (lrpid st) true in
        (wake_send (wake_recv (put_state m msqid q st) msqid) msqid, Ok 0)
  end.

(** The fields of the [IPC_STAT] snapshot that describe the contents:
    (msg_cbytes, msg_qnum, msg_qbytes). *)
Definition queue_snapshot (st : QueueState) : Z * Z * Z :=
  (q_bytes st, Z.of_nat (length (messages st)), qbytes st).

(** ** Which message [msgrcv] takes *)

Lemma min_kind_spec limit ms : ∀ i best,
  (∀ k j, best = Some (k, j) → (j < i)%nat) →
  match min_kind limit i best ms with
  | None => best = None ∧ ∀ m, m ∈ ms → limit < kind m
  | Some (k, j) =>
      (best = Some (k, j) ∨ ∃ p m, j = (i + p)%nat ∧ ms !! p = Some m ∧ kind m = k ∧ k ≤ limit) ∧
      (∀ k' j', best = Some (k', j') → k < k' ∨ (k = k' ∧ (j ≤ j')%nat)) ∧
      (∀ p m, ms !! p = Some m → kind m ≤ limit → k < kind m ∨ (k = kind m ∧ (j ≤ i + p)%nat))
  end.
Proof.
  induction ms as [|m ms IH]; intros i best Hb; cbn [min_kind].
  { destruct best as [[k j]|].
    - split_and!; [by left| |done]. intros ?? [= <- <-]. lia.
    - split; [done|]. intros m []%elem_of_nil. }
  set (best' := if kind m <=? limit then _ else best).
  assert ((best' = best ∧ (kind m ≤ limit → ∃ k j, best = Some (k, j) ∧ k ≤ kind m)) ∨
          (best' = Some (kind m, i) ∧ kind m ≤ limit ∧ ∀ k j, best = Some (k, j) → kind m < k)) as Hb'.
  { unfold best'. destruct (Z.leb_spec (kind m) limit); [|left; split; [done|lia]].
    destruct best as [[k j]|]; [|by right]. pose proof (Hb k j eq_refl).
    destruct (_ || _) eqn:E.
    - right. split_and!; [done|done|]. intros ?? [= <- <-].
      destruct (Nat.ltb_spec i j); [lia|]. rewrite andb_false_r in E. lia.
    - left. split; [done|]. intros _. exists k, j. split; [done|]. lia. }
  assert (∀ k j, best' = Some (k, j) → (j < S i)%nat) as Hlt.
  { intros k j Hk. destruct Hb' as [[-> _]|[E _]]; [specialize (Hb k j Hk); lia|].
    rewrite E in Hk. simplify_eq. lia. }
  specialize (IH (S i) best' Hlt). clearbody best'.
  destruct (min_kind limit (S i) best' ms) as [[k j]|].
  - destruct IH as (H1&H2&H3). split_and!.
    + destruct H1 as [H1|(p&m'&->&Hm&?&?)].
      * destruct Hb' as [[-> _]|(E&?&_)]; [by left|]. rewrite E in H1. simplify_eq.
        right. exists 0%nat, m. split_and!; [lia|done..].
      * right. exists (S p), m'. split_and!; [lia|done..].
    + intros k' j' Hbest. destruct Hb' as [[-> _]|(E&_&Hlt')]; [by apply H2|].
      specialize (Hlt' _ _ Hbest). destruct (H2 _ _ E); lia.
    + intros [|p] m' Hm Hk; simpl in Hm; [|destruct (H3 p m' Hm Hk); [by left|right; lia]].
      simplify_eq. destruct Hb' as [[-> He]|(E&_&_)].
      * destruct (He Hk) as (k0&j0&Hb0&?). pose proof (Hb _ _ Hb0). destruct (H2 _ _ Hb0); [lia|].
        destruct (decide (k0 = kind m')); [right; lia|left; lia].
      * destruct (H2 _ _ E); [by left|right; lia].
  - destruct IH as [Hn Hm]. destruct Hb' as [[E He]|(E&_&_)]; [|congruence]. split; [congruence|].
    intros m' [->|?]%elem_of_cons; [|auto].
    destruct (decide (kind m ≤ limit)) as [Hle|]; [|lia].
    destruct (He Hle) as (?&?&?&_). congruence.
Qed.

(** What [msgtyp] and the flags ask for: [i] is the right message. *)
Definition wanted (ms : list Message) (msgtyp flags : Z) (i : nat) : Prop :=
  ∃ m, ms !! i = Some m ∧
  if has_flag flags MSG_COPY then Z.of_nat i = msgtyp
  else if msgtyp =? 0 then i = 0%nat
  else if 0 <? msgtyp then
    let hit m := if has_flag flags MSG_EXCEPT then kind m ≠ msgtyp else kind m = msgtyp in
    hit m ∧ ∀ j m', (j < i)%nat → ms !! j = Some m' → ¬ hit m'
  else
    kind m ≤ sat_neg_i64 msgtyp ∧
    ∀ j m', ms !! j = Some m' → kind m' ≤ sat_neg_i64 msgtyp →
      kind m < kind m' ∨ (kind m = kind m' ∧ (i ≤ j)%nat).

Lemma find_message_wanted st msgtyp flags i :
  find_message st msgtyp flags = Some i → wanted (messages st) msgtyp flags i.
Proof.
  unfold find_message, wanted. intros H.
  destruct (has_flag flags MSG_COPY).
  { destruct (Z.ltb_spec msgtyp 0); [done|]. destruct (Z.ltb_spec msgtyp (Z.of_nat (length (messages st)))); [|done].
    simplify_eq. destruct (lookup_lt_is_Some_2 (messages st) (Z.to_nat msgtyp)) as [m Hm]; [lia|].
    exists m. split; [done|lia]. }
  destruct (Z.eqb_spec msgtyp 0).
  { destruct (messages st) as [|m ms]; simplify_eq/=. by exists m. }
  destruct (Z.ltb_spec 0 msgtyp).
  { apply position_Some in H as (m&Hm&Hp&Hmin). exists m. split; [done|].
    destruct (has_flag flags MSG_EXCEPT).
    - split; [lia|]. intros j m' Hj Hm'. specialize (Hmin j m' Hj Hm'). simpl in Hmin. lia.
    - split; [lia|]. intros j m' Hj Hm'. specialize (Hmin j m' Hj Hm'). simpl in Hmin. lia. }
  pose proof (min_kind_spec (sat_neg_i64 msgtyp) (messages st) 0 None ltac:(done)) as Hs.
  destruct (min_kind _ _ _ _) as [[k j]|]; simplify_eq/=.
  destruct Hs as ([?|(p&m&->&Hm&Hk&Hl)]&_&H3); [done|]. exists m. split; [done|].
  rewrite Hk. split; [done|]. intros j m' Hm' Hk'. destruct (H3 j m' Hm' Hk'); [by left|right; lia].
Qed.

Lemma find_message_none st msgtyp flags i :
  find_message st msgtyp flags = None → ¬ wanted (messages st) msgtyp flags i.
Proof.
  unfold find_message, wanted. intros H (m&Hm&Hw). pose proof (lookup_lt_Some _ _ _ Hm).
  destruct (has_flag flags MSG_COPY).
  { subst msgtyp. destruct (Z.ltb_spec (Z.of_nat i) 0); [lia|].
    destruct (Z.ltb_spec (Z.of_nat i) (Z.of_nat (length (messages st)))); [done|lia]. }
  destruct (msgtyp =? 0); [by destruct (messages st)|].
  destruct (0 <? msgtyp).
  { pose proof (proj1 (position_None _ _) H m (list_elem_of_lookup_2 _ _ _ Hm)) as Hp. simpl in Hp.
    destruct Hw as [Hw _]. destruct (has_flag flags MSG_EXCEPT); lia. }
  pose proof (min_kind_spec (sat_neg_i64 msgtyp) (messages st) 0 None ltac:(done)) as Hs.
  destruct (min_kind _ _ _ _) as [[k j]|]; simplify_eq/=. destruct Hs as [_ Hs].
  specialize (Hs m (list_elem_of_lookup_2 _ _ _ Hm)). lia.
Qed.

(** [msgrcv] takes the right message: on a live queue [try_receive] reports
    no message exactly when none qualifies; otherwise it picks the one the
    manual prescribes (the first of the queue for type 0, the first of that
    type or, with [MSG_EXCEPT], of another type for a positive one, the first
    of the lowest type not above the bound for a negative one, the given index
    with [MSG_COPY]).  It fails with [E2BIG] only if the text is too long and
    [MSG_NOERROR] is off, and then removes nothing; a successful receive
    removes exactly that message and keeps the order of the others; [MSG_COPY]
    removes nothing. *)
Theorem try_receive_spec st msgtyp msgflg msgsz now pid :
  removed st = false →
  let '(st', r) := try_receive st msgtyp msgflg msgsz now pid in
  match r with
  | Ok None => st' = st ∧ ∀ i, ¬ wanted (messages st) msgtyp msgflg i
  | Ok (Some m) => ∃ i, wanted (messages st) msgtyp msgflg i ∧ messages st !! i = Some m ∧
      if has_flag msgflg MSG_COPY then st' = st
      else messages st' = take i (messages st) ++ drop (S i) (messages st) ∧
           (has_flag msgflg MSG_NOERROR = true ∨ text_len m ≤ msgsz)
  | Err e => e = E2BIG ∧ st' = st ∧ has_flag msgflg MSG_NOERROR = false ∧
      ∃ i m, wanted (messages st) msgtyp msgflg i ∧ messages st !! i = Some m ∧ msgsz < text_len m
  end.
Proof.
  intros Hrem. unfold try_receive. rewrite Hrem.
  destruct (find_message st msgtyp msgflg) as [i|] eqn:Ef.
  2:{ split; [done|]. intros i. by apply find_message_none. }
  pose proof (find_message_wanted _ _ _ _ Ef) as Hw. destruct Hw as (m&Hm&Hw'). rewrite Hm.
  assert (wanted (messages st) msgtyp msgflg i) as Hw by (exists m; done).
  destruct (_ && _ && _) eqn:E.
  { split_bools. split_and!; [done|done|done|]. exists i, m. split_and!; [done|done|lia]. }
  destruct (has_flag msgflg MSG_COPY) eqn:Ec.
  { exists i. done. }
  exists i. split_and!; [done|done|simpl; by rewrite delete_take_drop|].
  destruct (has_flag msgflg MSG_NOERROR); [by left|right]. simpl in E. lia.
Qed.

Definition demo_perm : IpcPerm := mkPerm 5 1 1 1 1 384 0.
Definition demo_queue : QueueState :=
  mkQueue demo_perm [mkMsg 3 [1]; mkMsg 2 [2; 2]; mkMsg 2 [3]] 4 MSGMNB 0 0 0 0 0 false.

Lemma try_receive_spec_witness :
  try_receive demo_queue (-2) 0 10 100 7 =
    (mkQueue demo_perm [mkMsg 3 [1]; mkMsg 2 [3]] 2 MSGMNB 0 100 0 0 7 false, Ok (Some (mkMsg 2 [2; 2]))) ∧
  ∃ i, wanted (messages demo_queue) (-2) 0 i.
Proof.
  split; [reflexivity|].
  pose proof (try_receive_spec demo_queue (-2) 0 10 100 7 eq_refl) as H.
  destruct H as (i&H&_). exists i. exact H.
Defined.

(** ** Accounting *)

Definition total_text (ms : list Message) : Z := foldr (λ m n, text_len m + n) 0 ms.

Lemma total_text_app ms1 ms2 : total_text (ms1 ++ ms2) = total_text ms1 + total_text ms2.
Proof. induction ms1 as [|m ms1 IH]; simpl; [done|]. rewrite IH. lia. Qed.

Lemma total_text_nonneg ms : 0 ≤ total_text ms.
Proof. induction ms as [|m ms IH]; simpl; unfold text_len; lia. Qed.

Lemma total_text_delete ms i m :
  ms !! i = Some m → total_text (delete i ms) = total_text ms - text_len m.
Proof.
  intros Hm. rewrite delete_take_drop. rewrite <- (take_drop_middle ms i m Hm) at 3.
  rewrite !total_text_app. simpl. lia.
Qed.

(** The byte counter is exact and every message has a positive type. *)
Definition queue_ok (st : QueueState) : Prop :=
  q_bytes st = total_text (messages st) ∧ is_usize (q_bytes st) ∧ is_usize (qbytes st) ∧
  Forall (λ m, 0 < kind m) (messages st).

Lemma try_send_ok st m now pid :
  queue_ok st → 0 < kind m →
  let '(st', r) := try_send st m now pid in
  queue_ok st' ∧ removed st' = removed st ∧
  match r with
  | Ok true => messages st' = messages st ++ [m] ∧
      (text_len m = 0 ∨ q_bytes st' ≤ qbytes st')
  | Ok false => st' = st ∧
      (qbytes st < q_bytes st + text_len m ∨ qbytes st ≤ Z.of_nat (length (messages st)))
  | Err e => e = EIDRM ∧ st' = st ∧ removed st = true
  end.
Proof.
  intros (Hb&Hu&Hq&Hk) Hm. unfold try_send. destruct (removed st) eqn:Er; [done|].
  assert (0 ≤ text_len m) by (unfold text_len; lia).
  unfold saturating_sub. destruct (_ || _) eqn:E.
  - split_and!; [done..|done|]. apply orb_true_iff in E. lia.
  - apply orb_false_iff in E. unfold is_usize, usize_max in *.
    rewrite wrap64_small by (unfold is_usize, usize_max; lia). simpl. split_and!; [|done|done|lia].
    unfold queue_ok, is_usize, usize_max; simpl. rewrite total_text_app. simpl.
    split_and!; try lia. apply Forall_app. split; [done|]. by apply Forall_singleton.
Qed.

Lemma try_receive_ok st msgtyp msgflg msgsz now pid :
  queue_ok st →
  queue_ok (try_receive st msgtyp msgflg msgsz now pid).1 ∧
  removed (try_receive st msgtyp msgflg msgsz now pid).1 = removed st.
Proof.
  intros Hok. unfold try_receive. destruct (removed st) eqn:Er; [done|].
  destruct (find_message _ _ _) as [i|]; [|done]. destruct (messages st !! i) as [m|] eqn:Em; [|done].
  destruct (_ && _ && _); [done|]. destruct (has_flag msgflg MSG_COPY); [done|].
  destruct Hok as (Hb&Hu&Hq&Hk). simpl. split; [|done].
  pose proof (total_text_delete _ _ _ Em) as Hd.
  pose proof (total_text_nonneg (delete i (messages st))).
  unfold queue_ok, saturating_sub, is_usize, usize_max in *. simpl.
  assert (0 ≤ text_len m) by (unfold text_len; lia).
  split_and!; try lia. rewrite Forall_forall in *. intros x Hx. apply Hk.
  eapply elem_of_sublist; [exact Hx|apply sublist_delete].
Qed.

Record manager_ok (m : MsgManager) : Prop := {
  mo_objects id q : objects m !! id = Some q →
    queue_ok (q_state q) ∧ id < next_id m ∧ (id ∈ queues m ↔ removed (q_state q) = false);
  mo_queues id : id ∈ queues m → is_Some (objects m !! id)
}.

Lemma manager_ok_put m id q q' :
  manager_ok m → objects m !! id = Some q → queue_ok (q_state q') →
  removed (q_state q') = removed (q_state q) →
  ∀ ws, manager_ok (mkManager (next_id m) (<[id := q']> (objects m)) (queues m) (keys m) ws).
Proof.
  intros [H1 H2] Hq Hok Hrem ws. destruct (H1 id q Hq) as (_&Hid&Hin). split; simpl.
  - intros id' q0. destruct (decide (id' = id)) as [->|Hne].
    + rewrite lookup_insert_eq. intros [= <-]. by rewrite Hrem.
    + rewrite lookup_insert_ne by done. apply H1.
  - intros id' Hid'. destruct (decide (id' = id)) as [->|Hne]; [by rewrite lookup_insert_eq|].
    rewrite lookup_insert_ne by done. by apply H2.
Qed.

(** Waking and registering touch only the wait sets. *)
Lemma wait_sets_ok m id task :
  manager_ok m →
  manager_ok (wake_recv m id) ∧ manager_ok (wake_send m id) ∧
  manager_ok (register_recv m id task) ∧ manager_ok (register_send m id task).
Proof.
  intros Hok. unfold wake_recv, wake_send, register_recv, register_send.
  destruct (objects m !! id) as [q|] eqn:Eq; [|done].
  destruct (mo_objects m Hok id q Eq) as (?&_&_).
  destruct (poll_register task (recv_wait q)), (poll_register task (send_wait q)).
  split_and!; eapply manager_ok_put; eauto.
Qed.

Lemma get_queue_ok m id q : get_queue m id = Ok q → objects m !! id = Some q ∧ id ∈ queues m.
Proof.
  unfold get_queue, ok_or. destruct (_ <? _); [done|]. case_bool_decide; [|done].
  destruct (objects m !! id); intros [= ->]. done.
Qed.

(** What tasks can do to the queues: the system calls, and the tries,
    registrations and wakeups of the blocking ones, each under its lock. *)
Inductive msg_step : MsgManager → MsgManager → Prop :=
| mstep_get m key flg uid gid now : msg_step m (sys_msgget m key flg uid gid now).1
| mstep_create m key flg uid gid now : msg_step m (create_queue m key flg uid gid now).1
| mstep_send m id msg flg uid gid pid now : msg_step m (sys_msgsnd m id msg flg uid gid pid now).1
| mstep_wait_send m id msg pid now :
    0 < kind msg → msg_step m (wait_send_try m id msg pid now).1
| mstep_wait_recv m id typ flg sz pid now : msg_step m (wait_receive_try m id typ flg sz pid now).1
| mstep_recv m id sz typ flg uid gid pid now :
    msg_step m (sys_msgrcv m id sz typ flg uid gid pid now).1
| mstep_finish m id msg flg sz : msg_step m (msgrcv_finish m id msg flg sz).1
| mstep_register_recv m id task : msg_step m (register_recv m id task)
| mstep_register_send m id task : msg_step m (register_send m id task)
| mstep_set m id uid nuid ngid mode qb now :
    is_usize qb → msg_step m (msgctl_set m id uid nuid ngid mode qb now).1
| mstep_rmid m id uid : msg_step m (msgctl_rmid m id uid).1.

Lemma create_queue_ok m key flg uid gid now :
  manager_ok m → manager_ok (create_queue m key flg uid gid now).1.
Proof.
  intros [H1 H2]. unfold create_queue. case_match; [done|]. case_match; [done|]. split; simpl.
  - intros id q. destruct (decide (id = next_id m)) as [->|Hne].
    + rewrite lookup_insert_eq. intros [= <-]. split_and!; [|lia|simpl; set_solver].
      unfold queue_ok, is_usize, usize_max, MSGMNB; simpl. split_and!; try lia. constructor.
    + rewrite lookup_insert_ne by done. intros Hq. destruct (H1 id q Hq) as (?&?&?).
      split_and!; [done|lia|]. rewrite elem_of_union, elem_of_singleton. tauto.
  - intros id. rewrite elem_of_union, elem_of_singleton. destruct (decide (id = next_id m)) as [->|Hne].
    + by rewrite lookup_insert_eq.
    + rewrite lookup_insert_ne by done. intros [?|?]; [done|auto].
Qed.

Lemma put_state_ok m id q st :
  manager_ok m → objects m !! id = Some q → queue_ok st → removed st = removed (q_state q) →
  manager_ok (put_state m id q st).
Proof. intros. by eapply manager_ok_put. Qed.

Lemma msgsnd_ok m id msg flg uid gid pid now :
  manager_ok m → manager_ok (sys_msgsnd m id msg flg uid gid pid now).1.
Proof.
  intros Hok. unfold sys_msgsnd. destruct (_ <? _); [done|].
  destruct (get_queue m id) as [q|] eqn:Eq; [|done]. apply get_queue_ok in Eq as [Eq _].
  destruct (negb _); [done|]. destruct (Z.leb_spec (kind msg) 0); [done|].
  destruct (mo_objects m Hok id q Eq) as (Hq&_&_).
  pose proof (try_send_ok (q_state q) msg now pid Hq ltac:(lia)) as Ht.
  destruct (try_send _ _ _ _) as [st [[]|]]; simpl; [|by case_match|done].
  destruct Ht as (?&?&_). apply wait_sets_ok; [done|]. by apply put_state_ok.
Qed.

Lemma msgrcv_ok m id sz typ flg uid gid pid now :
  manager_ok m → manager_ok (sys_msgrcv m id sz typ flg uid gid pid now).1.
Proof.
  intros Hok. unfold sys_msgrcv. destruct (_ || _); [done|].
  destruct (get_queue m id) as [q|] eqn:Eq; [|done]. apply get_queue_ok in Eq as [Eq _].
  destruct (negb _); [done|]. destruct (negb _); [done|].
  destruct (mo_objects m Hok id q Eq) as (Hq&_&_).
  pose proof (try_receive_ok (q_state q) typ flg sz now pid Hq) as [Ht1 Ht2].
  destruct (try_receive _ _ _ _ _ _) as [st [[msg|]|]]; simpl in *; [|done|done].
  assert (manager_ok (put_state m id q st)) by (by apply put_state_ok).
  destruct (has_flag flg MSG_COPY); [done|]. by apply wait_sets_ok.
Qed.

Lemma msgctl_set_ok m id uid nuid ngid mode qb now :
  manager_ok m → is_usize qb → manager_ok (msgctl_set m id uid nuid ngid mode qb now).1.
Proof.
  intros Hok Hqb. unfold msgctl_set.
  destruct (get_queue m id) as [q|] eqn:Eq; [|done]. apply get_queue_ok in Eq as [Eq _].
  destruct (negb _); [done|]. do 3 (destruct (_ && _); [done|]).
  destruct (mo_objects m Hok id q Eq) as ((?&?&?&?)&_&_).
  match goal with |- context [put_state m id q ?st] =>
    assert (manager_ok (put_state m id q st)) by (by apply put_state_ok) end.
  simpl. destruct (_ || _); [by apply wait_sets_ok|done].
Qed.

Lemma msgctl_rmid_ok m id uid : manager_ok m → manager_ok (msgctl_rmid m id uid).1.
Proof.
  intros Hok. unfold msgctl_rmid.
  destruct (get_queue m id) as [q|] eqn:Eq; [|done]. apply get_queue_ok in Eq as [Eq _].
  destruct (negb _); [done|]. cbn [fst]. do 2 (apply wait_sets_ok; [done|]).
  destruct Hok as [H1 H2]. destruct (H1 id q Eq) as ((?&?&?&?)&?&?). split; simpl.
  - intros id' q'. destruct (decide (id' = id)) as [->|Hne].
    + rewrite lookup_insert_eq. intros [= <-]. simpl. split_and!; [done|done|].
      split; [|done]. intros [_ Hn]%elem_of_difference. by rewrite elem_of_singleton in Hn.
    + rewrite lookup_insert_ne by done. intros Hq. destruct (H1 id' q' Hq) as (?&?&<-).
      split_and!; [done|done|]. rewrite elem_of_difference, elem_of_singleton. tauto.
  - intros id' [Hid _]%elem_of_difference. destruct (decide (id' = id)) as [->|Hne];
      [by rewrite lookup_insert_eq|]. rewrite lookup_insert_ne by done. auto.
Qed.

Lemma msg_step_ok m m' : manager_ok m → msg_step m m' → manager_ok m'.
Proof.
  intros Hok Hs. destruct Hs as [m key flg uid gid now| | |m id msg pid now Hk|m id typ flg sz pid now| |m id msg flg sz| | | |].
  - unfold sys_msgget. destruct (msgget_lookup _ _ _ _ _); [done|]. by apply create_queue_ok.
  - by apply create_queue_ok.
  - by apply msgsnd_ok.
  - unfold wait_send_try. destruct (objects m !! id) as [q|] eqn:Eq; [|done].
    destruct (mo_objects m Hok id q Eq) as (Hq&_&_).
    pose proof (try_send_ok (q_state q) msg now pid Hq Hk) as Ht.
    destruct (try_send _ _ _ _) as [st r]. destruct Ht as (?&?&_). by apply put_state_ok.
  - unfold wait_receive_try. destruct (objects m !! id) as [q|] eqn:Eq; [|done].
    destruct (mo_objects m Hok id q Eq) as (Hq&_&_).
    pose proof (try_receive_ok (q_state q) typ flg sz now pid Hq) as [??].
    destruct (try_receive _ _ _ _ _ _) as [st r]. by apply put_state_ok.
  - by apply msgrcv_ok.
  - simpl. destruct (has_flag _ _); [done|by apply wait_sets_ok].
  - by apply wait_sets_ok.
  - by apply wait_sets_ok.
  - by apply msgctl_set_ok.
  - by apply msgctl_rmid_ok.
Qed.

(** Queue accounting is exact in every reachable state of the subsystem:
    the byte counter of each queue, which [IPC_STAT] reports and senders are
    admitted by, equals the text bytes queued (so its saturating subtraction
    never saturates and its addition never wraps), every queued type is
    positive, and a queue is registered if and only if it has not been
    removed. *)
Theorem msg_accounting m id q :
  rtc msg_step manager_new m → objects m !! id = Some q →
  queue_snapshot (q_state q) = (total_text (messages (q_state q)),
     Z.of_nat (length (messages (q_state q))), qbytes (q_state q)) ∧
  is_usize (total_text (messages (q_state q))) ∧
  Forall (λ msg, 0 < kind msg) (messages (q_state q)) ∧
  (id ∈ queues m ↔ removed (q_state q) = false).
Proof.
  intros Hr Hq. assert (manager_ok m) as Hok.
  { eapply rtc_invariant; [apply msg_step_ok|exact Hr|]. split; cbn.
    - intros id' q'. by rewrite lookup_empty.
    - set_solver. }
  destruct (mo_objects m Hok id q Hq) as ((Hb&?&?&?)&_&?).
  unfold queue_snapshot. rewrite Hb in *. done.
Qed.

Definition demo_mgr : MsgManager := (sys_msgget manager_new 5 (IPC_CREAT + 438) 0 0 1).1.
Definition demo_mgr2 : MsgManager := (sys_msgsnd demo_mgr 1 (mkMsg 3 [7; 8]) 0 0 0 10 2).1.

Lemma msg_accounting_witness :
  ∃ q, rtc msg_step manager_new demo_mgr2 ∧ objects demo_mgr2 !! 1 = Some q ∧
    queue_snapshot (q_state q) = (2, 1, MSGMNB) ∧ 1 ∈ queues demo_mgr2.
Proof.
  eexists. assert (rtc msg_step manager_new demo_mgr2) as Hr.
  { eapply rtc_l; [apply (mstep_get _ 5 (IPC_CREAT + 438) 0 0 1)|]. apply rtc_once, mstep_send. }
  split; [exact Hr|]. split; [reflexivity|]. split; [reflexivity|].
  exact (proj2 (proj2 (proj2 (proj2 (msg_accounting demo_mgr2 1 _ Hr eq_refl)))) eq_refl).
Defined.

(** ** Wakeups that are missing *)

(** A queue limited to two bytes and full; task 60 waits for type 9, task 50
    waits to send a message of type 9; then the old message is received. *)
Definition wake_full : MsgManager := (msgctl_set demo_mgr2 1 0 0 0 438 2 3).1.
Definition wake_recv_wait := wait_receive_poll wake_full 1 9 0 100 20 4 60.
Definition wake_send_wait := wait_send_poll wake_recv_wait.1 1 (mkMsg 9 [1]) 30 5 50.
Definition wake_after_rcv := sys_msgrcv wake_send_wait.1 1 100 3 IPC_NOWAIT 0 0 40 6.
Definition wake_sent := wait_send_poll wake_after_rcv.1 1 (mkMsg 9 [1]) 30 7 50.

(** Task 50 waits to send two bytes into a queue with one byte of two used; the
    limit is then raised to ten. *)
Definition raise_start : MsgManager :=
  (msgctl_set (sys_msgsnd demo_mgr 1 (mkMsg 3 [7]) 0 0 0 10 2).1 1 0 0 0 438 2 3).1.
Definition raise_wait := wait_send_poll raise_start 1 (mkMsg 9 [1; 2]) 30 5 50.
Definition raise_done := msgctl_set raise_wait.1 1 0 0 0 438 10 6.

(** Two missing wakeups.  A blocked sender that succeeds later does not
    wake receivers: task 60 waits for type 9, the message of type 9 is queued,
    only task 50 was ever woken, and task 60 would find its message if it were
    polled.  And raising [msg_qbytes] wakes senders only if the queue was
    exactly full: task 50's message now fits, and nobody woke it. *)
Theorem msg_lost_wakeups :
  wake_recv_wait.2 = MsgWait ∧ wake_send_wait.2 = MsgWait ∧
  wake_sent.2 = MsgRet (Ok 0) ∧ msg_woken wake_sent.1 = [50] ∧
  (wait_receive_poll wake_sent.1 1 9 0 100 20 8 60).2 = MsgRet (Ok (mkMsg 9 [1])) ∧
  raise_wait.2 = MsgWait ∧ raise_done.2 = Ok 0 ∧ msg_woken raise_done.1 = [] ∧
  (wait_send_poll raise_done.1 1 (mkMsg 9 [1; 2]) 30 7 50).2 = MsgRet (Ok 0).
Proof. vm_compute. repeat split; reflexivity. Qed.

(** Two tasks create the queue of key 5: both look it up before either
    creates it. *)
Definition race_first := create_queue manager_new 5 IPC_CREAT 0 0 1.
Definition race_second := create_queue race_first.1 5 IPC_CREAT 0 0 2.
Definition race_removed := msgctl_rmid race_second.1 1 0.

(** The lookup and the creation of [msgget] are separate critical sections,
    so a key can get two queues: both callers are told to create, and receive
    different ids for one key.  Removing the first queue then deletes the key
    of the second, which stays registered but can no longer be found. *)
Theorem msgget_key_race :
  msgget_lookup manager_new 5 IPC_CREAT 0 0 = None ∧
  race_first.2 = Ok 1 ∧ race_second.2 = Ok 2 ∧
  keys race_second.1 !! 5 = Some 2 ∧
  race_removed.2 = Ok 0 ∧ 2 ∈ queues race_removed.1 ∧
  (sys_msgget race_removed.1 5 0 0 0 3).2 = Err ENOENT.
Proof.
  split_and!; vm_compute; reflexivity.
Qed.
