(* ===== verification/Sched.v ===== *)
(** * The CFS scheduler

    [task/scheduler/cfs.rs] and the scheduling loop [run_tasks] of
    [task/processor.rs]: the shared heap of runnable tasks, virtual run time,
    and how harts reserve, run and release tasks.

    Tasks are objects named by an id; the heap holds weak references, so an
    entry may name a task that no longer exists.  The heap is a list from which
    [pop_min] takes a least key [(vruntime, tid)].  The clock is an argument. *)

From S2P Require Import Prelude Wake.

Definition NICE_0_LOAD : Z := 1024.
Definition NOT_RUNNING : Z := usize_max.
Definition NICE_WEIGHTS : list Z :=
  [88761; 71755; 56483; 46273; 36291; 29154; 23254; 18705; 14949; 11916; 9548; 7620; 6100; 4904;
   3906; 3121; 2501; 1991; 1586; 1277; 1024; 820; 655; 526; 423; 335; 272; 215; 172; 137; 110; 87;
   70; 56; 45; 36; 29; 23; 18; 15].

(** A task with its [SchedEntity]. *)
Record Task : Type := mkTask {
  t_tid : Z; t_status : TaskStatus; t_on_cpu : bool; t_affinity : Z; t_nice : Z;
  t_vruntime : Z; t_exec_start : Z; t_on_rq : bool }.

Definition with_status (s : TaskStatus) (t : Task) : Task :=
  mkTask (t_tid t) s (t_on_cpu t) (t_affinity t) (t_nice t) (t_vruntime t) (t_exec_start t) (t_on_rq t).
Definition with_on_cpu (b : bool) (t : Task) : Task :=
  mkTask (t_tid t) (t_status t) b (t_affinity t) (t_nice t) (t_vruntime t) (t_exec_start t) (t_on_rq t).
Definition with_entity (v start : Z) (rq : bool) (t : Task) : Task :=
  mkTask (t_tid t) (t_status t) (t_on_cpu t) (t_affinity t) (t_nice t) v start rq.

(** ** The scheduling entity *)

(** [SchedEntity::new] inside a new task. *)
Definition new_task (tid affinity nice : Z) : Task :=
  mkTask tid Ready false affinity nice 0 NOT_RUNNING false.

(** [place_at]; the CAS loop ends with the larger of the two values. *)
Definition place_at (min_vruntime : Z) (t : Task) : Task :=
  if t_vruntime t <? min_vruntime then with_entity min_vruntime (t_exec_start t) (t_on_rq t) t else t.
Definition mark_dequeued (t : Task) : Task := with_entity (t_vruntime t) (t_exec_start t) false t.
Definition mark_running (ticks : Z) (t : Task) : Task := with_entity (t_vruntime t) ticks false t.
Definition try_mark_queued (t : Task) : option Task :=
  if t_on_rq t then None else Some (with_entity (t_vruntime t) (t_exec_start t) true t).

(** [nice.clamp(-20, 19)]. *)
Definition clamp_nice (nice : Z) : Z := Z.max (-20) (Z.min 19 nice).
Definition nice_weight (nice : Z) : comp Z :=
  unwrap (NICE_WEIGHTS !! Z.to_nat (clamp_nice nice + 20)).

Definition delta_vruntime (delta_exec weight : Z) : Z :=
  Z.min (delta_exec * NICE_0_LOAD / weight) usize_max.

Definition account_runtime (ticks : Z) (t : Task) : comp Task :=
  if t_exec_start t =? NOT_RUNNING then Done t
  else
    weight ← nice_weight (t_nice t);
    let delta_exec := wrap64 (ticks - t_exec_start t) in
    Done (with_entity (wrap64 (t_vruntime t + delta_vruntime delta_exec weight)) NOT_RUNNING
            (t_on_rq t) t).

(** [can_run_on]; [harts] is [hart_count().min(MAX_SUPPORTED_HARTS)]. *)
Definition can_run_on (harts hartid : Z) (t : Task) : bool :=
  (hartid <? harts) && Z.testbit (t_affinity t) hartid.

(** ** The run queue *)

Record CfsEntry : Type := mkEntry { key_vruntime : Z; key_tid : Z; e_task : Z }.

(** The order of [(vruntime, tid)]. *)
Definition key_le (a b : CfsEntry) : bool :=
  (key_vruntime a <? key_vruntime b)
  || ((key_vruntime a =? key_vruntime b) && (key_tid a <=? key_tid b)).

Definition pop_min : list CfsEntry → option (CfsEntry * list CfsEntry) := pop_least key_le.

Record CfsState : Type := mkCfs {
  tasks : gmap Z Task; heap : list CfsEntry; min_vruntime : Z }.

Definition set_task (st : CfsState) (o : Z) (t : Task) : CfsState :=
  mkCfs (<[o := t]> (tasks st)) (heap st) (min_vruntime st).
Definition set_heap (st : CfsState) (h : list CfsEntry) : CfsState :=
  mkCfs (tasks st) h (min_vruntime st).

Definition advance_min_vruntime (st : CfsState) (current : Z) : CfsState :=
  let candidate :=
    match pop_min (heap st) with
    | Some (leftmost, _) => Z.min (key_vruntime leftmost) current
    | None => current
    end in
  mkCfs (tasks st) (heap st) (Z.max (min_vruntime st) candidate).

Definition add_task (st : CfsState) (o : Z) : CfsState * option nat :=
  match tasks st !! o with
  | None => (st, None)
  | Some t =>
      if negb (bool_decide (t_status t = Ready)) || t_on_cpu t then (st, None)
      else match try_mark_queued t with
      | None => (st, None)
      | Some t =>
          let t := place_at (min_vruntime st) t in
          let st := set_task st o t in
          let st := set_heap st (mkEntry (t_vruntime t) (t_tid t) o :: heap st) in
          (st, Some (length (heap st)))
      end
  end.

(** The loop of [fetch_task]; [n] iterations are left. *)
Fixpoint fetch_loop (harts hartid : Z) (n : nat) (st : CfsState) : CfsState * option Z :=
  match n with
  | O => (st, None)
  | S n =>
      match pop_min (heap st) with
      | None => (st, None)
      | Some (entry, rest) =>
          let st := set_heap st rest in
          let o := e_task entry in
          match tasks st !! o with
          | None => fetch_loop harts hartid n st
          | Some t =>
              if negb (bool_decide (t_status t = Ready))
              then fetch_loop harts hartid n (set_task st o (mark_dequeued t))
              else if can_run_on harts hartid t then
                let st := set_task st o (mark_dequeued (with_status Running t)) in
                (advance_min_vruntime st (key_vruntime entry), Some o)
              else fetch_loop harts hartid n (set_heap st (entry :: rest))
          end
      end
  end.

Definition fetch_task (harts hartid : Z) (st : CfsState) : CfsState * option Z :=
  fetch_loop harts hartid (length (heap st)) st.

Definition ready_procs_num (st : CfsState) : nat := length (heap st).

Definition has_ready_for_hart (harts hartid : Z) (st : CfsState) : bool :=
  existsb (λ e, match tasks st !! e_task e with
                | Some t => can_run_on harts hartid t
                | None => false
                end) (heap st).

Definition account_current (st : CfsState) (o ticks : Z) : comp CfsState :=
  match tasks st !! o with
  | None => Done st
  | Some t =>
      t ← account_runtime ticks t;
      Done (advance_min_vruntime (set_task st o t) (t_vruntime t))
  end.

(** ** [run_tasks] *)

(** What a hart holds: a task reserved by [fetch_task] and not yet switched to,
    or the task it runs. *)
Inductive HartTask : Type := Reserved (o : Z) | Current (o : Z).
Definition hart_object (h : HartTask) : Z := match h with Reserved o => o | Current o => o end.

Record SchedState : Type := mkSched { cfs : CfsState; hart_tasks : gmap Z HartTask }.

(** The fetched task may no longer run here: its reservation is returned. *)
Definition return_reservation (st : CfsState) (o : Z) : CfsState :=
  match tasks st !! o with
  | Some t => (add_task (set_task st o (with_status Ready t)) o).1
  | None => st
  end.
(** The hart starts the reserved task. *)
Definition dispatch (st : CfsState) (o ticks : Z) : CfsState :=
  match tasks st !! o with
  | Some t => set_task st o (with_on_cpu true (mark_running ticks (with_status Running t)))
  | None => st
  end.
(** [take_current_task] and [mark_off_cpu] of the task that was switched out. *)
Definition switch_out (st : CfsState) (o ticks : Z) : comp CfsState :=
  st ← account_current st o ticks;
  Done (match tasks st !! o with
        | Some t => set_task st o (with_on_cpu false t)
        | None => st
        end).

(** The steps of harts, wakers and the running tasks themselves. *)
Inductive sched_step (harts : Z) : SchedState → SchedState → Prop :=
| sstep_new st hs o tid aff nice : (* a new task object *)
    tasks st !! o = None → o ∉ e_task <$> heap st →
    sched_step harts (mkSched st hs) (mkSched (set_task st o (new_task tid aff nice)) hs)
| sstep_drop st hs o : (* the last reference goes: no hart holds it *)
    (∀ h t, hs !! h = Some t → hart_object t ≠ o) →
    sched_step harts (mkSched st hs) (mkSched (mkCfs (delete o (tasks st)) (heap st) (min_vruntime st)) hs)
| sstep_add st hs o : (* [add_task] or [requeue_current], by anyone *)
    sched_step harts (mkSched st hs) (mkSched (add_task st o).1 hs)
| sstep_status st hs o t s : (* a running task changes its own status, or a
      waker or signal changes that of a task that is not running *)
    tasks st !! o = Some t → t_on_cpu t = true ∨ (t_status t ≠ Running ∧ s ≠ Running) →
    sched_step harts (mkSched st hs) (mkSched (set_task st o (with_status s t)) hs)
| sstep_fetch st hs h st' o :
    hs !! h = None → fetch_task harts h st = (st', Some o) →
    sched_step harts (mkSched st hs) (mkSched st' (<[h := Reserved o]> hs))
| sstep_idle st hs h st' :
    hs !! h = None → fetch_task harts h st = (st', None) →
    sched_step harts (mkSched st hs) (mkSched st' hs)
| sstep_return st hs h o :
    hs !! h = Some (Reserved o) →
    sched_step harts (mkSched st hs) (mkSched (return_reservation st o) (delete h hs))
| sstep_dispatch st hs h o ticks :
    hs !! h = Some (Reserved o) →
    sched_step harts (mkSched st hs) (mkSched (dispatch st o ticks) (<[h := Current o]> hs))
| sstep_switch_out st hs h o ticks st' :
    hs !! h = Some (Current o) → switch_out st o ticks = Done st' →
    sched_step harts (mkSched st hs) (mkSched st' (delete h hs)).

Definition sched_init : SchedState := mkSched (mkCfs ∅ [] 0) ∅.

(** ** The heap *)

Lemma key_le_total a b : key_le a b = true ∨ key_le b a = true.
Proof. unfold key_le. lia. Qed.
Lemma key_le_trans a b c : key_le a b = true → key_le b c = true → key_le a c = true.
Proof. unfold key_le. lia. Qed.

Lemma pop_min_None h : pop_min h = None ↔ h = [].
Proof. apply pop_least_None. Qed.

Lemma pop_min_Some h e rest :
  pop_min h = Some (e, rest) → h ≡ₚ e :: rest ∧ ∀ x, x ∈ h → key_le e x = true.
Proof. apply pop_least_Some; [exact key_le_total|exact key_le_trans]. Qed.

Lemma advance_tasks st v : tasks (advance_min_vruntime st v) = tasks st.
Proof. done. Qed.
Lemma advance_heap st v : heap (advance_min_vruntime st v) = heap st.
Proof. done. Qed.

(** ** No task is given to two harts *)

Definition queued (st : CfsState) (o : Z) : Prop := o ∈ e_task <$> heap st.

(** A hart's task exists, is not queued, and is marked accordingly. *)
Definition hart_ok (st : CfsState) (ht : HartTask) : Prop :=
  ∃ t, tasks st !! hart_object ht = Some t ∧ ¬ queued st (hart_object ht) ∧
    match ht with
    | Reserved _ => t_status t = Running ∧ t_on_cpu t = false
    | Current _ => t_on_cpu t = true
    end.

Record sched_inv (s : SchedState) : Prop := {
  si_nodup : NoDup (e_task <$> heap (cfs s));
  si_on_rq o t : tasks (cfs s) !! o = Some t → (t_on_rq t = true ↔ queued (cfs s) o);
  si_off_cpu o t : tasks (cfs s) !! o = Some t → queued (cfs s) o → t_on_cpu t = false;
  si_harts h ht : hart_tasks s !! h = Some ht → hart_ok (cfs s) ht;
  si_unique h1 h2 t1 t2 : hart_tasks s !! h1 = Some t1 → hart_tasks s !! h2 = Some t2 →
    hart_object t1 = hart_object t2 → h1 = h2
}.

(** Replacing a task, in agreement with the heap and the harts. *)
Lemma sched_inv_task st hs o t t' :
  sched_inv (mkSched st hs) → tasks st !! o = Some t →
  (queued st o → t_on_rq t' = true ∧ t_on_cpu t' = false) →
  (¬ queued st o → t_on_rq t' = false) →
  (∀ h ht, hs !! h = Some ht → hart_object ht = o →
     match ht with
     | Reserved _ => t_status t' = Running ∧ t_on_cpu t' = false
     | Current _ => t_on_cpu t' = true
     end) →
  sched_inv (mkSched (set_task st o t') hs).
Proof.
  intros [H1 H2 H5 H3 H4] Ht Hq1 Hq2 Hh. split; simpl in *; [done|..|done].
  - intros o' t0. destruct (decide (o' = o)) as [->|Hne].
    + rewrite lookup_insert_eq. intros [= <-]. unfold queued in *. simpl.
      destruct (decide (o ∈ e_task <$> heap st)) as [Hq|Hq].
      * destruct (Hq1 Hq) as [-> _]. done.
      * rewrite (Hq2 Hq). done.
    + rewrite lookup_insert_ne by done. apply H2.
  - intros o' t0. destruct (decide (o' = o)) as [->|Hne].
    + rewrite lookup_insert_eq. intros [= <-] Hq. by apply Hq1.
    + rewrite lookup_insert_ne by done. apply H5.
  - intros h ht Hht. destruct (H3 h ht Hht) as (t0&Ht0&Hq&Hm). unfold hart_ok. simpl.
    destruct (decide (hart_object ht = o)) as [He|Hne].
    + rewrite He, lookup_insert_eq. rewrite He in Hq. exists t'. split; [done|]. split; [done|].
      by apply (Hh h).
    + rewrite lookup_insert_ne by done. eauto.
Qed.

Lemma not_held st hs o :
  sched_inv (mkSched st hs) → queued st o → ∀ h ht, hs !! h = Some ht → hart_object ht ≠ o.
Proof. intros [_ _ _ H3 _] Hq h ht Hht <-. destruct (H3 h ht Hht) as (?&_&?&_). done. Qed.

(** Changing the heap and tasks that no hart holds. *)
Lemma sched_inv_heap st hs h' tk' :
  sched_inv (mkSched st hs) → NoDup (e_task <$> h') →
  (∀ o t, tk' !! o = Some t → (t_on_rq t = true ↔ o ∈ e_task <$> h')) →
  (∀ o t, tk' !! o = Some t → o ∈ e_task <$> h' → t_on_cpu t = false) →
  (∀ h ht, hs !! h = Some ht → hart_object ht ∉ e_task <$> h' ∧
     tk' !! hart_object ht = tasks st !! hart_object ht) →
  ∀ m, sched_inv (mkSched (mkCfs tk' h' m) hs).
Proof.
  intros [H1 H2 H5 H3 H4] Hnd Hrq Hoff Hh m. split; simpl in *; [done|done|done| |done].
  intros h ht Hht. destruct (H3 h ht Hht) as (t0&Ht0&_&Hm). destruct (Hh h ht Hht) as [Hq Heq].
  exists t0. simpl. rewrite Heq. done.
Qed.

Lemma add_task_inv st hs o : sched_inv (mkSched st hs) → sched_inv (mkSched (add_task st o).1 hs).
Proof.
  intros Hinv. unfold add_task. destruct (tasks st !! o) as [t|] eqn:Et; [|done].
  destruct (_ || _) eqn:Eg; [done|]. apply orb_false_iff in Eg as [Es Eo].
  apply negb_false_iff, bool_decide_eq_true in Es.
  unfold try_mark_queued. destruct (t_on_rq t) eqn:Erq; [done|]. simpl.
  pose proof Hinv as [H1 H2 H5 H3 H4]. simpl in *.
  assert (¬ queued st o) as Hnq by (rewrite <- (H2 o t Et), Erq; done).
  set (t' := place_at _ _).
  assert (t_on_rq t' = true ∧ t_on_cpu t' = false) as [Hrq Hcpu]
    by (unfold t', place_at; case_match; done).
  apply (sched_inv_heap st hs); simpl; [done|by constructor|..].
  - intros o' t0. rewrite elem_of_cons. destruct (decide (o' = o)) as [->|Hne].
    + rewrite lookup_insert_eq. intros [= <-]. rewrite Hrq. split; [by left|done].
    + rewrite lookup_insert_ne by done. intros Ht'. rewrite (H2 o' t0 Ht'). unfold queued. tauto.
  - intros o' t0. rewrite elem_of_cons. destruct (decide (o' = o)) as [->|Hne].
    + rewrite lookup_insert_eq. by intros [= <-].
    + rewrite lookup_insert_ne by done. intros Ht' [?|?]; [done|]. by apply (H5 o').
  - intros h ht Hht. destruct (H3 h ht Hht) as (t0&Ht0&Hq&Hm).
    assert (hart_object ht ≠ o) as Hne.
    { intros Heq. rewrite Heq in Ht0. simplify_eq. destruct ht; destruct_and?; congruence. }
    rewrite lookup_insert_ne by done. split; [|done]. rewrite elem_of_cons. unfold queued in Hq. tauto.
Qed.

(** One popped entry leaves the queue: its task is no longer marked. *)
Lemma sched_inv_pop st hs e rest tk' :
  sched_inv (mkSched st hs) → heap st ≡ₚ e :: rest →
  (∀ o, o ≠ e_task e → tk' !! o = tasks st !! o) →
  (∀ t, tk' !! e_task e = Some t → t_on_rq t = false) →
  ∀ m, sched_inv (mkSched (mkCfs tk' rest m) hs).
Proof.
  intros Hinv Hp Hsame Hoff m. pose proof Hinv as [H1 H2 H5 H3 H4]. simpl in *.
  assert (NoDup (e_task e :: (e_task <$> rest))) as Hnd.
  { change (NoDup (e_task <$> (e :: rest))). by rewrite <- Hp. }
  apply NoDup_cons in Hnd as [Hnin Hnd].
  assert (∀ o, queued st o ↔ o = e_task e ∨ o ∈ e_task <$> rest) as Hq.
  { intros o. unfold queued. rewrite Hp. simpl. by rewrite elem_of_cons. }
  apply (sched_inv_heap st hs); [done|done|..].
  - intros o t Ht. destruct (decide (o = e_task e)) as [->|Hne].
    + rewrite (Hoff t Ht). split; [done|]. intros ?. done.
    + rewrite Hsame in Ht by done. rewrite (H2 o t Ht), Hq. tauto.
  - intros o t Ht Ho. assert (o ≠ e_task e) as Hne by (intros ->; done).
    rewrite Hsame in Ht by done. apply (H5 o t Ht). rewrite Hq. by right.
  - intros h ht Hht. destruct (H3 h ht Hht) as (t0&Ht0&Hnq&_). rewrite Hq in Hnq.
    split; [tauto|]. apply Hsame. tauto.
Qed.

Lemma fetch_loop_inv harts hartid n : ∀ st hs,
  sched_inv (mkSched st hs) → hs !! hartid = None →
  let '(st', r) := fetch_loop harts hartid n st in
  sched_inv (mkSched st' (match r with Some o => <[hartid := Reserved o]> hs | None => hs end)).
Proof.
  induction n as [|n IH]; intros st hs Hinv Hh; cbn [fetch_loop]; [done|].
  destruct (pop_min (heap st)) as [[e rest]|] eqn:Ep; [|done].
  apply pop_min_Some in Ep as [Hp _]. simpl.
  assert (queued st (e_task e)) as Hqe by (unfold queued; rewrite Hp; left).
  destruct (tasks st !! e_task e) as [t|] eqn:Et.
  2:{ apply IH; [|done]. eapply sched_inv_pop; [done|done|done|congruence]. }
  destruct (negb _) eqn:Es.
  { apply IH; [|done]. eapply sched_inv_pop; [done|done|..].
    - intros o Ho. simpl. by rewrite lookup_insert_ne by done.
    - intros t' Ht'. simpl in Ht'. rewrite lookup_insert_eq in Ht'. by simplify_eq. }
  pose proof Hinv as [H1 H2 H5 H3 H4]. simpl in *.
  destruct (can_run_on harts hartid t).
  2:{ apply IH; [|done]. apply (sched_inv_heap st hs); simpl; [done|..].
      - change (NoDup (e_task <$> (e :: rest))). by rewrite <- Hp.
      - intros o t' Ht'. rewrite (H2 o t' Ht'). unfold queued. by rewrite Hp.
      - intros o t' Ht' Hq. apply (H5 o t' Ht'). unfold queued. by rewrite Hp.
      - intros h ht Hht. destruct (H3 h ht Hht) as (t0&Ht0&Hnq&_). split; [|done].
        unfold queued in Hnq. by rewrite Hp in Hnq. }
  assert (t_on_cpu t = false) as Hcpu by by apply (H5 (e_task e)).
  pose proof (not_held _ _ _ Hinv Hqe) as Hnh.
  set (t' := mark_dequeued (with_status Running t)).
  assert (sched_inv (mkSched (advance_min_vruntime (set_task (set_heap st rest) (e_task e) t')
    (key_vruntime e)) hs)) as Hpop.
  { eapply sched_inv_pop; [done|done|..].
    - intros o Ho. simpl. by rewrite lookup_insert_ne by done.
    - intros t0 Ht0. simpl in Ht0. rewrite lookup_insert_eq in Ht0. by simplify_eq. }
  destruct Hpop as [P1 P2 P5 P3 P4]. simpl in *. split; simpl; [done|done|done|..].
  - intros h ht. destruct (decide (h = hartid)) as [->|Hne];
      [|rewrite lookup_insert_ne by done; apply P3].
    rewrite lookup_insert_eq. intros [= <-]. exists t'. simpl. rewrite lookup_insert_eq.
    split_and!; [done| |done|done].
    intros Hq. apply (P2 (e_task e) t') in Hq; [done|apply lookup_insert_eq].
  - intros h1 h2 t1 t2. destruct (decide (h1 = hartid)) as [->|Hn1], (decide (h2 = hartid)) as [->|Hn2];
      rewrite ?lookup_insert_eq, ?lookup_insert_ne by done; [done|..|apply P4].
    + intros [= <-] Hh2 He. simpl in He. by destruct (Hnh _ _ Hh2).
    + intros Hh1 [= <-] He. simpl in He. by destruct (Hnh _ _ Hh1).
Qed.

(** Removing a hart's claim. *)
Lemma sched_inv_delete st hs h : sched_inv (mkSched st hs) → sched_inv (mkSched st (delete h hs)).
Proof.
  intros [H1 H2 H5 H3 H4]. split; simpl in *; [done..| |].
  - intros h' ht [_ ?]%lookup_delete_Some. eauto.
  - intros h1 h2 t1 t2 [_ ?]%lookup_delete_Some [_ ?]%lookup_delete_Some. eauto.
Qed.

(** After hart [h] gave [o] up, no hart holds it. *)
Lemma sole_holder st hs h ht :
  sched_inv (mkSched st hs) → hs !! h = Some ht →
  ∀ h' ht', delete h hs !! h' = Some ht' → hart_object ht' ≠ hart_object ht.
Proof.
  intros [_ _ _ _ H4] Hh h' ht' [Hne Hh']%lookup_delete_Some He. apply Hne. symmetry. by eapply H4.
Qed.

Lemma account_runtime_flags ticks t t' :
  account_runtime ticks t = Done t' →
  t_on_rq t' = t_on_rq t ∧ t_on_cpu t' = t_on_cpu t ∧ t_status t' = t_status t.
Proof. unfold account_runtime. destruct (_ =? _); intros H; exec; done. Qed.

Lemma return_inv st hs h o :
  sched_inv (mkSched st hs) → hs !! h = Some (Reserved o) →
  sched_inv (mkSched (return_reservation st o) (delete h hs)).
Proof.
  intros Hinv Hh.
  unfold return_reservation. pose proof (sole_holder _ _ _ _ Hinv Hh) as Hsole.
  apply (sched_inv_delete _ _ h) in Hinv as Hd. pose proof Hinv as [H1 H2 H5 H3 H4]. simpl in *.
  destruct (H3 h _ Hh) as (t&Ht&Hnq&_&_). simpl in *. rewrite Ht.
  apply add_task_inv. eapply sched_inv_task; [done|done|done|..]; simpl.
  - intros _. destruct (t_on_rq t) eqn:E; [|done]. destruct Hnq. by apply (H2 o t).
  - intros h' ht' Hht' He. by destruct (Hsole h' ht' Hht').
Qed.

Lemma dispatch_inv st hs h o ticks :
  sched_inv (mkSched st hs) → hs !! h = Some (Reserved o) →
  sched_inv (mkSched (dispatch st o ticks) (<[h := Current o]> hs)).
Proof.
  intros Hinv Hh.
  unfold dispatch. pose proof (sole_holder _ _ _ _ Hinv Hh) as Hsole.
  apply (sched_inv_delete _ _ h) in Hinv as Hd. pose proof Hinv as [H1 H2 H5 H3 H4]. simpl in *.
  destruct (H3 h _ Hh) as (t&Ht&Hnq&_&_). simpl in *. rewrite Ht.
  set (t' := with_on_cpu true _).
  assert (sched_inv (mkSched (set_task st o t') (delete h hs))) as [P1 P2 P5 P3 P4].
  { eapply sched_inv_task; [done|done|done|done|].
    intros h' ht' Hht' He. by destruct (Hsole h' ht' Hht'). }
  simpl in *. split; simpl; [done|done|done|..].
  - intros h' ht. destruct (decide (h' = h)) as [->|Hne].
    + rewrite lookup_insert_eq. intros [= <-]. exists t'. simpl. by rewrite lookup_insert_eq.
    + rewrite lookup_insert_ne by done. intros Hht. apply (P3 h'). by rewrite lookup_delete_ne.
  - intros h1 h2 t1 t2. destruct (decide (h1 = h)) as [->|Hn1], (decide (h2 = h)) as [->|Hn2];
      rewrite ?lookup_insert_eq, ?lookup_insert_ne by done; [done|..].
    + intros [= <-] Hh2 He. simpl in He. destruct (Hsole h2 t2); [by rewrite lookup_delete_ne|done].
    + intros Hh1 [= <-] He. simpl in He. destruct (Hsole h1 t1); [by rewrite lookup_delete_ne|done].
    + apply H4.
Qed.

Lemma switch_out_inv st hs h o ticks st' :
  sched_inv (mkSched st hs) → hs !! h = Some (Current o) → switch_out st o ticks = Done st' →
  sched_inv (mkSched st' (delete h hs)).
Proof.
  intros Hinv Hh Ho.
  unfold switch_out, account_current in Ho. pose proof (sole_holder _ _ _ _ Hinv Hh) as Hsole.
  apply (sched_inv_delete _ _ h) in Hinv as Hd. pose proof Hinv as [H1 H2 H5 H3 H4]. simpl in *.
  destruct (H3 h _ Hh) as (t&Ht&Hnq&_). simpl in *. rewrite Ht in Ho. exec.
  match goal with H : account_runtime _ _ = _ |- _ => apply account_runtime_flags in H as (E1&E2&E3) end.
  rewrite lookup_insert_eq. unfold advance_min_vruntime, set_task; simpl. rewrite insert_insert_eq.
  eapply (sched_inv_heap st (delete h hs)); [done|done|..].
  - intros o' t0. destruct (decide (o' = o)) as [->|Hne]; [|rewrite lookup_insert_ne by done; apply H2].
    rewrite lookup_insert_eq. intros [= <-]. simpl. rewrite E1. by apply (H2 o t).
  - intros o' t0. destruct (decide (o' = o)) as [->|Hne]; [|rewrite lookup_insert_ne by done; apply H5].
    rewrite lookup_insert_eq. by intros [= <-].
  - intros h' ht' Hht'. pose proof (Hsole h' ht' Hht') as Hne. apply lookup_delete_Some in Hht' as [_ Hht'].
    destruct (H3 h' ht' Hht') as (t0&Ht0&?&_). split; [done|]. by rewrite lookup_insert_ne by (intros ->; done).
Qed.

Lemma sched_step_inv harts s s' : sched_inv s → sched_step harts s s' → sched_inv s'.
Proof.
  intros Hinv Hs. destruct Hs as [st hs o tid aff nice Hn Hq|st hs o Hn|st hs o|st hs o t s Ht Hs
    |st hs h st' o Hh Hf|st hs h st' Hh Hf|st hs h o Hh|st hs h o ticks Hh|st hs h o ticks st' Hh Ho].
  - pose proof Hinv as [H1 H2 H5 H3 H4]. simpl in *.
    apply (sched_inv_heap st hs); simpl; [done|done|..].
    + intros o' t. destruct (decide (o' = o)) as [->|Hne]; [|rewrite lookup_insert_ne by done; apply H2].
      rewrite lookup_insert_eq. intros [= <-]. done.
    + intros o' t. destruct (decide (o' = o)) as [->|Hne]; [|rewrite lookup_insert_ne by done; apply H5].
      by rewrite lookup_insert_eq; intros [= <-].
    + intros h ht Hht. destruct (H3 h ht Hht) as (t0&Ht0&?&_). split; [done|].
      rewrite lookup_insert_ne; [done|]. intros ->. congruence.
  - pose proof Hinv as [H1 H2 H5 H3 H4]. simpl in *.
    apply (sched_inv_heap st hs); simpl; [done|done|..].
    + intros o' t [_ ?]%lookup_delete_Some. by apply H2.
    + intros o' t [_ ?]%lookup_delete_Some. by apply H5.
    + intros h ht Hht. destruct (H3 h ht Hht) as (t0&Ht0&?&_). split; [done|].
      rewrite lookup_delete_ne; [done|]. intros He. by apply (Hn h ht Hht).
  - by apply add_task_inv.
  - pose proof Hinv as [H1 H2 H5 H3 H4]. simpl in *. eapply sched_inv_task; [done|done|..]; simpl.
    + intros Hq. split; [by apply (H2 o)|by apply (H5 o)].
    + intros Hq. destruct (t_on_rq t) eqn:E; [|done]. destruct Hq. by apply (H2 o t).
    + intros h ht Hht <-. destruct (H3 h ht Hht) as (t0&Ht0&_&Hm). simplify_eq.
      destruct ht; [|done]. destruct Hm as [Hm1 Hm2], Hs as [?|[??]]; congruence.
  - pose proof (fetch_loop_inv harts h (length (heap st)) st hs Hinv Hh) as H.
    unfold fetch_task in Hf. by rewrite Hf in H.
  - pose proof (fetch_loop_inv harts h (length (heap st)) st hs Hinv Hh) as H.
    unfold fetch_task in Hf. by rewrite Hf in H.
  - by apply return_inv.
  - by apply dispatch_inv.
  - by eapply switch_out_inv.
Qed.

(** [C7] No task runs on two harts: in every state reachable by any
    interleaving of harts fetching, starting, returning and leaving tasks, of
    wakeups and of status changes, two harts that hold a task (reserved or
    running) hold different tasks; a held task is not in the run queue; and
    the run queue holds each task at most once, exactly when its [on_rq] flag
    is set. *)
Theorem sched_no_double_dispatch harts s :
  rtc (sched_step harts) sched_init s →
  (∀ h1 h2 t1 t2, hart_tasks s !! h1 = Some t1 → hart_tasks s !! h2 = Some t2 →
     hart_object t1 = hart_object t2 → h1 = h2) ∧
  (∀ h t, hart_tasks s !! h = Some t → hart_object t ∉ e_task <$> heap (cfs s)) ∧
  NoDup (e_task <$> heap (cfs s)) ∧
  (∀ o t, tasks (cfs s) !! o = Some t → (t_on_rq t = true ↔ o ∈ e_task <$> heap (cfs s))).
Proof.
  intros Hr. assert (sched_inv s) as [H1 H2 H5 H3 H4].
  { eapply rtc_invariant; [apply sched_step_inv|exact Hr|].
    split; cbn; [constructor|intros o t; by rewrite lookup_empty|intros o t; by rewrite lookup_empty
      |intros h ht; by rewrite lookup_empty|intros h1 h2 t1 t2; by rewrite lookup_empty]. }
  split_and!; [exact H4| |exact H1|exact H2].
  intros h t Ht. destruct (H3 h t Ht) as (?&_&?&_). done.
Qed.

Definition demo_sched0 : SchedState :=
  mkSched (set_task (set_task (mkCfs ∅ [] 0) 1 (new_task 1 3 0)) 2 (new_task 2 3 0)) ∅.
Definition demo_sched1 : SchedState :=
  mkSched (add_task (add_task (cfs demo_sched0) 1).1 2).1 ∅.
Definition demo_sched2 : SchedState :=
  mkSched (fetch_task 2 0 (cfs demo_sched1)).1 {[0 := Reserved 1]}.

Lemma sched_no_double_dispatch_witness :
  rtc (sched_step 2) sched_init demo_sched2 ∧ hart_tasks demo_sched2 !! 0 = Some (Reserved 1) ∧
  (fetch_task 2 1 (cfs demo_sched2)).2 = Some 2 ∧ 1 ∉ e_task <$> heap (cfs demo_sched2).
Proof.
  assert (rtc (sched_step 2) sched_init demo_sched2) as Hr.
  { eapply rtc_l; [apply (sstep_new _ _ _ 1 1 3 0); [reflexivity|apply not_elem_of_nil]|].
    eapply rtc_l; [apply (sstep_new _ _ _ 2 2 3 0); [reflexivity|apply not_elem_of_nil]|].
    eapply rtc_l; [apply (sstep_add _ _ _ 1)|]. eapply rtc_l; [apply (sstep_add _ _ _ 2)|].
    apply rtc_once. apply (sstep_fetch 2 (cfs demo_sched1) ∅ 0); [reflexivity|]. vm_compute. reflexivity. }
  split; [exact Hr|]. split; [reflexivity|]. split; [vm_compute; reflexivity|].
  exact (proj1 (proj2 (sched_no_double_dispatch 2 demo_sched2 Hr)) 0 (Reserved 1) eq_refl).
Defined.

(** ** Which task is fetched *)

(** What [fetch_task] must return: no ready task is queued, or [o] is a ready
    queued task with a least key. *)
Definition least_ready (st : CfsState) (r : option Z) : Prop :=
  match r with
  | None => ∀ e t, e ∈ heap st → tasks st !! e_task e = Some t → t_status t ≠ Ready
  | Some o => ∃ e t, e ∈ heap st ∧ e_task e = o ∧ tasks st !! o = Some t ∧ t_status t = Ready ∧
      ∀ e' t', e' ∈ heap st → tasks st !! e_task e' = Some t' → t_status t' = Ready → key_le e e' = true
  end.

(** The same tasks up to scheduling marks. *)
Definition same_tasks (tk tk' : gmap Z Task) : Prop :=
  (∀ o t', tk' !! o = Some t' → ∃ t, tk !! o = Some t ∧ t_status t = t_status t' ∧ t_affinity t = t_affinity t') ∧
  (∀ o t, tk !! o = Some t → ∃ t', tk' !! o = Some t' ∧ t_status t = t_status t').

Lemma same_tasks_refl tk : same_tasks tk tk.
Proof. split; eauto. Qed.

Lemma same_tasks_dequeued tk o t : tk !! o = Some t → same_tasks tk (<[o := mark_dequeued t]> tk).
Proof.
  intros Ht. split; intros o' t'; (destruct (decide (o' = o)) as [->|Hne];
    [rewrite lookup_insert_eq|rewrite lookup_insert_ne by done; eauto]).
  - intros [= <-]. exists t. done.
  - intros ?. simplify_eq. eauto.
Qed.

(** An entry whose task is gone or not ready changes nothing for the others. *)
Lemma least_ready_skip st e rest tk' r :
  heap st ≡ₚ e :: rest → same_tasks (tasks st) tk' →
  (∀ t, tasks st !! e_task e = Some t → t_status t ≠ Ready) →
  least_ready (mkCfs tk' rest (min_vruntime st)) r → least_ready st r.
Proof.
  intros Hp [Hback Hforw] He Hr.
  assert (∀ x, x ∈ heap st ↔ x = e ∨ x ∈ rest) as Hin by (intros x; rewrite Hp; apply elem_of_cons).
  destruct r as [o|]; simpl in *.
  - destruct Hr as (e0&t0&He0&Ho&Ht0&Hs0&Hmin0). destruct (Hback _ _ Ht0) as (t&Ht&Hs&_). exists e0, t.
    split_and!; [apply Hin; by right|done|done|congruence|].
    intros e' t' [->|He']%Hin Ht' Hs'; [by destruct (He t' Ht')|].
    destruct (Hforw _ _ Ht') as (t''&Ht''&Hs''). apply (Hmin0 e' t''); [done|done|congruence].
  - intros e0 t0 [->|He0]%Hin Ht0; [by apply He|].
    destruct (Hforw _ _ Ht0) as (t'&Ht'&->). by apply (Hr e0 t').
Qed.

Lemma fetch_loop_min harts hartid n : ∀ st,
  n = length (heap st) →
  (∀ e t, e ∈ heap st → tasks st !! e_task e = Some t → can_run_on harts hartid t = true) →
  least_ready st (fetch_loop harts hartid n st).2.
Proof.
  induction n as [|n IH]; intros st Hn Hrun; cbn [fetch_loop].
  { simpl. destruct (heap st); [|done]. intros e t []%elem_of_nil. }
  destruct (pop_min (heap st)) as [[e rest]|] eqn:Ep.
  2:{ apply pop_min_None in Ep. rewrite Ep in Hn. done. }
  apply pop_min_Some in Ep as [Hp Hmin]. cbn [set_heap tasks].
  assert (n = length rest) as Hn' by (apply Permutation_length in Hp; simpl in Hp; lia).
  assert (Hskip : ∀ tk', same_tasks (tasks st) tk' → (∀ t, tasks st !! e_task e = Some t → t_status t ≠ Ready) →
    least_ready st (fetch_loop harts hartid n (mkCfs tk' rest (min_vruntime st))).2).
  { intros tk' Htk He. apply (least_ready_skip st e rest tk'); [done|done|done|]. apply IH; [done|].
    intros x t' Hx Ht'. simpl in *. destruct (proj1 Htk _ _ Ht') as (t&Ht&_&Haff).
    unfold can_run_on. rewrite <- Haff. apply (Hrun x t); [rewrite Hp; by right|done]. }
  destruct (tasks st !! e_task e) as [t|] eqn:Et; [|apply Hskip; [apply same_tasks_refl|congruence]].
  destruct (negb _) eqn:Es.
  { apply negb_true_iff, bool_decide_eq_false in Es. apply Hskip; [by apply same_tasks_dequeued|].
    intros t' ?. by simplify_eq. }
  apply negb_false_iff, bool_decide_eq_true in Es.
  rewrite (Hrun e t) by (done || rewrite Hp; left). cbn [snd].
  exists e, t. split_and!; [rewrite Hp; left|done|done|done|]. intros e' t' He' _ _. by apply Hmin.
Qed.

Lemma key_le_spec a b : key_le a b = true ↔
  key_vruntime a < key_vruntime b ∨ key_vruntime a = key_vruntime b ∧ key_tid a ≤ key_tid b.
Proof. unfold key_le. lia. Qed.

(** [C8] CFS picks the right task.  If every queued task may run on this hart,
    [fetch_task] returns a ready task whose [(vruntime, tid)] is least among
    all ready queued tasks, skipping entries of dropped or sleeping tasks; and
    it returns nothing only if no queued task is ready. *)
Theorem cfs_fetches_least harts hartid st :
  (∀ e t, e ∈ heap st → tasks st !! e_task e = Some t → can_run_on harts hartid t = true) →
  match (fetch_task harts hartid st).2 with
  | None => ∀ e t, e ∈ heap st → tasks st !! e_task e = Some t → t_status t ≠ Ready
  | Some o => ∃ e t, e ∈ heap st ∧ e_task e = o ∧ tasks st !! o = Some t ∧ t_status t = Ready ∧
      ∀ e' t', e' ∈ heap st → tasks st !! e_task e' = Some t' → t_status t' = Ready →
        key_vruntime e < key_vruntime e' ∨ key_vruntime e = key_vruntime e' ∧ key_tid e ≤ key_tid e'
  end.
Proof.
  intros Hrun. pose proof (fetch_loop_min harts hartid (length (heap st)) st) as Hmin. unfold fetch_task.
  destruct (fetch_loop _ _ _ _).2 as [o|]; [|by apply Hmin].
  destruct Hmin as (e&t&He&Ho&Ht&Hs&Hle); [done..|]. exists e, t. do 4 (split; [done|]).
  intros e' t' He' Ht' Hs'. apply key_le_spec. by eapply Hle.
Qed.

(** Task 3 was dropped, task 1 sleeps, tasks 2 and 4 are ready. *)
Definition demo_fetch : CfsState :=
  mkCfs {[1 := with_status Blocked (new_task 1 1 0); 2 := new_task 2 1 0; 4 := new_task 4 1 0]}
    [mkEntry 9 4 4; mkEntry 2 3 3; mkEntry 1 1 1; mkEntry 5 2 2] 0.

Lemma cfs_fetches_least_witness :
  (fetch_task 1 0 demo_fetch).2 = Some 2 ∧ ∃ e t, e ∈ heap demo_fetch ∧ tasks demo_fetch !! 2 = Some t ∧
    e_task e = 2.
Proof.
  split; [vm_compute; reflexivity|].
  pose proof (cfs_fetches_least 1 0 demo_fetch) as H.
  destruct H as (e&t&He&Ho&Ht&_).
  - intros e t He Ht. repeat (apply elem_of_cons in He as [->|He];
      [vm_compute in Ht; first [discriminate|injection Ht as <-; reflexivity]|]).
    by apply elem_of_nil in He.
  - exists e, t. split; [exact He|]. split; [exact Ht|exact Ho].
Defined.

(** Task 1 has the least [vruntime] and may only run on hart 1; task 2 may run
    anywhere. *)
Definition blocked_head : CfsState :=
  mkCfs {[1 := new_task 1 2 0; 2 := new_task 2 3 0]} [mkEntry 0 1 1; mkEntry 7 2 2] 0.

(** An ineligible head hides the rest of the queue: the entry of a task that
    may not run on this hart is pushed back and, being the least, is popped
    again in every iteration, so [fetch_task] gives up although another ready
    task may run here ([has_ready_for_hart] says so). *)
Theorem cfs_head_of_line_blocking :
  (fetch_task 2 0 blocked_head).2 = None ∧ has_ready_for_hart 2 0 blocked_head = true ∧
  (fetch_task 2 1 blocked_head).2 = Some 1.
Proof. vm_compute. done. Qed.

(** ** Virtual time *)

Lemma nice_weight_pos nice : ∃ w, nice_weight nice = Done w ∧ 15 ≤ w ≤ 88761.
Proof.
  unfold nice_weight. destruct (lookup_lt_is_Some_2 NICE_WEIGHTS (Z.to_nat (clamp_nice nice + 20))) as [w Hw].
  { unfold clamp_nice. simpl. lia. }
  exists w. rewrite Hw. split; [done|].
  assert (Forall (λ w, 15 ≤ w ≤ 88761) NICE_WEIGHTS) as Hf by (repeat constructor; lia).
  by apply (Forall_lookup_1 _ _ _ _ Hf Hw).
Qed.

(** Heavier tasks come earlier in the table. *)
Fixpoint descending (l : list Z) : bool :=
  match l with
  | a :: (b :: _) as l' => (b <=? a) && descending l'
  | _ => true
  end.
Lemma descending_spec l : descending l = true → ∀ i j a b, (i ≤ j)%nat →
  l !! i = Some a → l !! j = Some b → b ≤ a.
Proof.
  induction l as [|x l IH]; intros Hd i j a b Hij Ha Hb; [done|].
  assert (descending l = true) as Hl by (destruct l; [done|]; simpl in Hd; split_bools; done).
  destruct i as [|i], j as [|j]; simplify_eq/=; try lia.
  - destruct l as [|y l]; [done|]. simpl in Hd. split_bools.
    pose proof (IH Hl 0%nat j y b ltac:(lia) eq_refl Hb). lia.
  - apply (IH Hl i j); [lia|done|done].
Qed.

Lemma nice_weight_mono n1 n2 w1 w2 :
  n1 ≤ n2 → nice_weight n1 = Done w1 → nice_weight n2 = Done w2 → w2 ≤ w1.
Proof.
  unfold nice_weight. intros Hn H1%unwrap_done H2%unwrap_done.
  eapply (descending_spec NICE_WEIGHTS eq_refl); [|exact H1|exact H2]. unfold clamp_nice. lia.
Qed.

