(* ===== verification/FdTable.v ===== *)
(** * File descriptor tables

    [fs/fstruct.rs] with [dup] and [dup3] of [syscall/fs/fd_ops.rs]: slots and
    reservations, limits, descriptors that share an open file description,
    close-on-exec, fork and exit.

    An open file description ([Arc<RwLock<OpenFileStatus>>]) is a cell of a
    store shared by all tables; a descriptor names its cell, so that two
    descriptors with the same cell alias each other.  File objects are named by
    ids.  Descriptor numbers are [nat]; flags are bit sets in [Z]. *)

From S2P Require Import Prelude Errno.

Definition O_ACCMODE : Z := 3.
Definition O_APPEND : Z := 1024.
Definition O_NONBLOCK : Z := 2048.
Definition O_DSYNC : Z := 4096.
Definition O_SYNC : Z := 1052672.
Definition O_RSYNC : Z := 1052672.
Definition O_ASYNC : Z := 8192.
Definition O_DIRECT : Z := 16384.
Definition O_LARGEFILE : Z := 32768.
Definition O_NOATIME : Z := 262144.
Definition O_CLOEXEC : Z := 524288.
Definition O_PATH : Z := 2097152.

Definition getfl_visible_flags : Z :=
  foldr Z.lor 0 [O_ACCMODE; O_APPEND; O_NONBLOCK; O_DSYNC; O_SYNC; O_RSYNC; O_ASYNC; O_DIRECT;
                 O_LARGEFILE; O_NOATIME; O_PATH].
(** The flags [F_SETFL] may change. *)
Definition mutable_flags : Z :=
  foldr Z.lor 0 [O_APPEND; O_NONBLOCK; O_ASYNC; O_DIRECT; O_NOATIME].

Record OpenFileStatus : Type := mkStatus { st_flags : Z; file_rw_hint : Z }.
(** The cells of all open file descriptions. *)
Notation StatusStore := (gmap Z OpenFileStatus).

Record FileDescriptor : Type := mkFd {
  descriptor_flags : Z; status_cell : Z; file_object : Z; is_socket : bool }.

(** [FileDescriptor::new], with a fresh cell. *)
Definition fd_new (ss : StatusStore) (cell flags file : Z) (socket : bool) :
    StatusStore * FileDescriptor :=
  (<[cell := mkStatus (Z.land flags getfl_visible_flags) 0]> ss,
   mkFd (Z.land flags O_CLOEXEC) cell file socket).

Definition getfl_flags (ss : StatusStore) (fd : FileDescriptor) : Z :=
  default 0 (st_flags <$> ss !! status_cell fd).
Definition fd_flags (ss : StatusStore) (fd : FileDescriptor) : Z :=
  Z.lor (descriptor_flags fd) (getfl_flags ss fd).
Definition fd_cloexec (fd : FileDescriptor) : bool := contains (descriptor_flags fd) O_CLOEXEC.
Definition fd_non_block (ss : StatusStore) (fd : FileDescriptor) : bool :=
  contains (getfl_flags ss fd) O_NONBLOCK.
Definition fd_set_cloexec (fd : FileDescriptor) : FileDescriptor :=
  mkFd (bits_insert (descriptor_flags fd) O_CLOEXEC) (status_cell fd) (file_object fd) (is_socket fd).
Definition fd_unset_cloexec (fd : FileDescriptor) : FileDescriptor :=
  mkFd (bits_remove (descriptor_flags fd) O_CLOEXEC) (status_cell fd) (file_object fd) (is_socket fd).
Definition fd_set_nonblock (ss : StatusStore) (fd : FileDescriptor) : StatusStore :=
  alter (λ s, mkStatus (bits_insert (st_flags s) O_NONBLOCK) (file_rw_hint s)) (status_cell fd) ss.
Definition fd_unset_nonblock (ss : StatusStore) (fd : FileDescriptor) : StatusStore :=
  alter (λ s, mkStatus (bits_remove (st_flags s) O_NONBLOCK) (file_rw_hint s)) (status_cell fd) ss.
(** [FileDescriptor::set_status_flags]. *)
Definition fd_set_status_flags (ss : StatusStore) (fd : FileDescriptor) (flags : Z) : StatusStore :=
  alter (λ s, mkStatus (bits_insert (bits_remove (st_flags s) mutable_flags)
                          (Z.land flags mutable_flags)) (file_rw_hint s)) (status_cell fd) ss.
Definition same_open_file_description (a b : FileDescriptor) : bool := status_cell a =? status_cell b.

Record FdTable : Type := mkTable {
  soft_limit : nat; hard_limit : nat; files : list (option FileDescriptor);
  reserved : list bool; owners : nat }.

Definition set_slots (t : FdTable) (fs : list (option FileDescriptor)) (rs : list bool) : FdTable :=
  mkTable (soft_limit t) (hard_limit t) fs rs (owners t).

Definition table_new (soft hard : nat) (fs : list (option FileDescriptor)) : FdTable :=
  mkTable soft hard fs (replicate (length fs) false) 1.

(** [from_another]: fork copies the descriptors but no reservation. *)
Definition from_another (t : FdTable) : FdTable :=
  mkTable (soft_limit t) (hard_limit t) (files t) (replicate (length (files t)) false) 1.

Definition acquire_owner (t : FdTable) : FdTable :=
  mkTable (soft_limit t) (hard_limit t) (files t) (reserved t) (S (owners t)).
Definition clear (t : FdTable) : FdTable := set_slots t [] [].
(** The table afterwards and whether the caller was the last owner. *)
Definition release_owner (t : FdTable) : FdTable * bool :=
  let previous := owners t in
  let t := mkTable (soft_limit t) (hard_limit t) (files t) (reserved t) (previous - 1) in
  if (previous =? 1)%nat then (clear t, true) else (t, false).

(** [slot.is_none() && !reserved]. *)
Definition vacant (p : option FileDescriptor * bool) : bool :=
  match p with (None, false) => true | _ => false end.

(** Push a reserved slot at the end. *)
Definition push_reserved (t : FdTable) : FdTable * SysResult nat :=
  if (soft_limit t <=? length (files t))%nat then (t, Err EMFILE)
  else (set_slots t (files t ++ [None]) (reserved t ++ [true]), Ok (length (files t))).

Definition alloc_fd (t : FdTable) : FdTable * SysResult nat :=
  match position vacant (zip (files t) (reserved t)) with
  | Some fd => (set_slots t (files t) (<[fd := true]> (reserved t)), Ok fd)
  | None => push_reserved t
  end.

Definition alloc_fd_larger_than (t : FdTable) (arg : nat) : FdTable * SysResult nat :=
  if (soft_limit t <=? arg)%nat then (t, Err EINVAL)
  else
    let t := if (length (files t) <? arg)%nat
             then set_slots t (vec_resize arg None (files t)) (vec_resize arg false (reserved t))
             else t in
    match position vacant (drop arg (zip (files t) (reserved t))) with
    | Some fd => let fd := (fd + arg)%nat in
                 (set_slots t (files t) (<[fd := true]> (reserved t)), Ok fd)
    | None => push_reserved t
    end.

Definition try_get (t : FdTable) (fd : nat) : option FileDescriptor := mjoin (files t !! fd).
Definition get (t : FdTable) (fd : nat) : SysResult FileDescriptor := ok_or EBADF (try_get t fd).

Definition resize (t : FdTable) (size : nat) : FdTable * SysResult unit :=
  if (soft_limit t <? size)%nat then (t, Err EMFILE)
  else (set_slots t (vec_resize size None (files t)) (vec_resize size false (reserved t)), Ok tt).

(** Does another slot hold the same socket? *)
Definition has_fd_alias (d : FileDescriptor) (fs : list (option FileDescriptor)) : bool :=
  is_socket d && existsb (λ s, match s with
                               | Some d' => is_socket d' && (file_object d' =? file_object d)
                               | None => false
                               end) fs.

(** [set]: the table, the result, and the replaced descriptor if no other slot
    aliases its socket (which is then shut down unless referenced elsewhere). *)
Definition fdt_set (t : FdTable) (fd : nat) (file : FileDescriptor) :
    comp (FdTable * SysResult unit * option FileDescriptor) :=
  let res := default false (reserved t !! fd) in
  if (soft_limit t <=? fd)%nat && negb res then Done (t, Err EMFILE, None)
  else
    let t := if (length (files t) <=? fd)%nat
             then set_slots t (vec_resize (S fd) None (files t)) (vec_resize (S fd) false (reserved t))
             else t in
    old ← unwrap (files t !! fd);
    assert! (fd <? length (reserved t))%nat;
    let t := set_slots t (<[fd := Some file]> (files t)) (<[fd := false]> (reserved t)) in
    Done (t, Ok tt, match old with
                    | Some d => if has_fd_alias d (files t) then None else Some d
                    | None => None
                    end).

Definition fdt_take (t : FdTable) (fd : nat) : FdTable * option FileDescriptor :=
  (set_slots t (<[fd := None]> (files t)) (<[fd := false]> (reserved t)), try_get t fd).

(** [close]: the closed descriptor, and whether no other slot aliases its socket. *)
Definition fdt_close (t : FdTable) (fd : nat) : FdTable * option (FileDescriptor * bool) :=
  match try_get t fd with
  | None => (t, None)
  | Some d =>
      let t := set_slots t (<[fd := None]> (files t)) (reserved t) in
      (t, Some (d, negb (has_fd_alias d (files t))))
  end.

(** The descriptors with close-on-exec, collected before any is closed. *)
Fixpoint cloexec_fds (i : nat) (fs : list (option FileDescriptor)) : list nat :=
  match fs with
  | [] => []
  | Some d :: fs => if fd_cloexec d then i :: cloexec_fds (S i) fs else cloexec_fds (S i) fs
  | None :: fs => cloexec_fds (S i) fs
  end.
Definition close_on_exec (t : FdTable) : FdTable :=
  foldl (λ t fd, (fdt_close t fd).1) t (cloexec_fds 0 (files t)).

Definition fdt_set_cloexec (t : FdTable) (fd : nat) : FdTable * SyscallRet :=
  match try_get t fd with
  | Some d => (set_slots t (<[fd := Some (fd_set_cloexec d)]> (files t)) (reserved t), Ok 0)
  | None => (t, Err EBADF)
  end.
Definition fdt_unset_cloexec (t : FdTable) (fd : nat) : FdTable * SyscallRet :=
  match try_get t fd with
  | Some d => (set_slots t (<[fd := Some (fd_unset_cloexec d)]> (files t)) (reserved t), Ok 0)
  | None => (t, Err EBADF)
  end.
Definition fdt_set_status_flags (ss : StatusStore) (t : FdTable) (fd : nat) (flags : Z) :
    StatusStore * SyscallRet :=
  match try_get t fd with
  | Some d => (fd_set_status_flags ss d flags, Ok 0)
  | None => (ss, Err EBADF)
  end.
Definition set_limit (t : FdTable) (soft hard : nat) : FdTable :=
  mkTable soft hard (files t) (reserved t) (owners t).

(** [dup_fd], its two table locks taken back to back. *)
Definition dup_fd (t : FdTable) (old_fd : nat) (cloexec : bool) : comp (FdTable * SysResult nat) :=
  match get t old_fd with
  | Err e => Done (t, Err e)
  | Ok d =>
      let d := if cloexec then fd_set_cloexec d else fd_unset_cloexec d in
      match alloc_fd t with
      | (t, Err e) => Done (t, Err e)
      | (t, Ok new_fd) =>
          '(t, r, _) ← fdt_set t new_fd d;
          match r with
          | Err e => Done ((fdt_take t new_fd).1, Err e)
          | Ok _ => Done (t, Ok new_fd)
          end
      end
  end.

(** [sys_dup3]. *)
Definition sys_dup3 (t : FdTable) (old new : nat) (flags : Z) : comp (FdTable * SysResult nat) :=
  if (old =? new)%nat then Done (t, Err EINVAL)
  else if (length (files t) <=? old)%nat || (soft_limit t <=? new)%nat then Done (t, Err EMFILE)
  else match try_get t old with
  | None => Done (t, Err EINVAL)
  | Some _ =>
      let '(t, r) := if (length (files t) <=? new)%nat then resize t (S new) else (t, Ok tt) in
      match r with
      | Err e => Done (t, Err e)
      | Ok _ =>
          match get t old with
          | Err e => Done (t, Err e)
          | Ok file =>
              if negb (Z.land flags (Z.lnot O_CLOEXEC) =? 0) then Done (t, Err EINVAL)
              else
                let file := if negb (Z.land flags O_CLOEXEC =? 0)
                            then fd_set_cloexec file else fd_unset_cloexec file in
                '(t, _, _) ← fdt_set t new file;
                Done (t, Ok new)
          end
      end
  end.

(** ** The invariant *)

(** Both vectors have the same length, and an occupied slot is not reserved. *)
Definition table_wf (t : FdTable) : Prop :=
  length (reserved t) = length (files t) ∧
  ∀ fd d, files t !! fd = Some (Some d) → reserved t !! fd = Some false.

Lemma table_wf_zip t fd s :
  table_wf t → files t !! fd = Some s → ∃ r, reserved t !! fd = Some r ∧
    zip (files t) (reserved t) !! fd = Some (s, r).
Proof.
  intros [Hl _] Hs. destruct (lookup_lt_is_Some_2 (reserved t) fd) as [r Hr].
  { rewrite Hl. by eapply lookup_lt_Some. }
  exists r. split; [done|]. apply lookup_zip_Some. done.
Qed.

Lemma reserve_wf t fd :
  table_wf t → files t !! fd = Some None →
  table_wf (set_slots t (files t) (<[fd := true]> (reserved t))).
Proof.
  intros [Hl Hr] Hf. split; simpl; [by rewrite length_insert|]. intros fd' d Hd.
  rewrite list_lookup_insert_ne by (intros ->; congruence). eauto.
Qed.

Lemma resize_slots_wf t n :
  table_wf t → (length (files t) ≤ n)%nat →
  table_wf (set_slots t (vec_resize n None (files t)) (vec_resize n false (reserved t))).
Proof.
  intros [Hl Hr] Hn. split; simpl; [by rewrite !length_vec_resize|].
  unfold vec_resize. rewrite !take_ge by lia. intros fd d Hd.
  apply lookup_app_Some in Hd as [Hd|[_ Hd]].
  - rewrite lookup_app_l by (rewrite Hl; by eapply lookup_lt_Some). eauto.
  - apply lookup_replicate in Hd as [? _]. done.
Qed.

Lemma push_reserved_wf t : table_wf t → table_wf (push_reserved t).1.
Proof.
  intros [Hl Hr]. unfold push_reserved. case_match; [done|].
  split; simpl; [rewrite !length_app; simpl; lia|].
  intros fd d Hd. apply lookup_app_Some in Hd as [Hd|[_ Hd]].
  - rewrite lookup_app_l by (rewrite Hl; by eapply lookup_lt_Some). eauto.
  - by apply list_lookup_singleton_Some in Hd as [_ ?].
Qed.

(** A slot is free if nobody uses or reserved it, or it is past the end. *)
Definition slot_free (t : FdTable) (fd : nat) : Prop :=
  (files t !! fd = Some None ∧ reserved t !! fd = Some false) ∨ (length (files t) ≤ fd)%nat.

Lemma position_vacant t i :
  position vacant (drop i (zip (files t) (reserved t))) = None → table_wf t →
  ∀ fd, (i ≤ fd < length (files t))%nat → ¬ slot_free t fd.
Proof.
  intros Hp Hwf fd Hfd [[Hf Hr]|?]; [|lia].
  assert (drop i (zip (files t) (reserved t)) !! (fd - i)%nat = Some (None, false)) as Hz.
  { rewrite lookup_drop. replace (i + (fd - i))%nat with fd by lia. apply lookup_zip_Some. done. }
  apply list_elem_of_lookup_2 in Hz. by apply (proj1 (position_None _ _) Hp) in Hz.
Qed.

Lemma position_vacant_Some t i k :
  position vacant (drop i (zip (files t) (reserved t))) = Some k →
  files t !! (i + k)%nat = Some None ∧ reserved t !! (i + k)%nat = Some false ∧
  ∀ fd, (i ≤ fd < i + k)%nat → ¬ slot_free t fd.
Proof.
  intros (p&Hp&Hv&Hmin)%position_Some. rewrite lookup_drop in Hp.
  destruct p as [[d|] []]; try done. pose proof Hp as [Hf Hr]%lookup_zip_Some. split_and!; [done|done|].
  intros fd Hfd [[Hf' Hr']|Hlen].
  - assert (drop i (zip (files t) (reserved t)) !! (fd - i)%nat = Some (None, false)) as Hz.
    { rewrite lookup_drop. replace (i + (fd - i))%nat with fd by lia. apply lookup_zip_Some. done. }
    specialize (Hmin (fd - i)%nat _ ltac:(lia) Hz). done.
  - apply lookup_lt_Some in Hf. lia.
Qed.

(** What both allocators do, once the table reaches [i]. *)
Lemma alloc_from_spec t i t' r :
  table_wf t → (i ≤ length (files t))%nat →
  match position vacant (drop i (zip (files t) (reserved t))) with
  | Some fd => (set_slots t (files t) (<[(i + fd)%nat := true]> (reserved t)), Ok (i + fd)%nat)
  | None => push_reserved t
  end = (t', r) →
  table_wf t' ∧ soft_limit t' = soft_limit t ∧
  match r with
  | Ok fd => (i ≤ fd)%nat ∧ slot_free t fd ∧ (∀ fd', (i ≤ fd' < fd)%nat → ¬ slot_free t fd') ∧
      reserved t' !! fd = Some true ∧ files t' !! fd = Some None ∧
      (∀ fd', fd' ≠ fd → slot_free t' fd' ↔ slot_free t fd') ∧
      (length (files t) ≤ fd → fd < soft_limit t)%nat
  | Err e => e = EMFILE ∧ t' = t ∧ (soft_limit t ≤ length (files t))%nat ∧
      ∀ fd, (i ≤ fd < length (files t))%nat → ¬ slot_free t fd
  end.
Proof.
  intros Hwf Hi. pose proof Hwf as [Hl Hocc].
  destruct (position vacant _) as [k|] eqn:Ep.
  - apply position_vacant_Some in Ep as (Hf&Hr&Hmin). intros [= <- <-].
    pose proof (lookup_lt_Some _ _ _ Hf). split; [by apply reserve_wf|]. split; [done|].
    split; [lia|]. split; [by left|]. split; [done|]. split; [|split; [done|split; [|lia]]].
    + simpl. apply list_lookup_insert_eq. lia.
    + intros fd' Hne. unfold slot_free. simpl. by rewrite list_lookup_insert_ne by done.
  - pose proof (position_vacant t i Ep Hwf) as Hno.
    pose proof (push_reserved_wf t Hwf) as Hwf'. unfold push_reserved in *.
    destruct (Nat.leb_spec (soft_limit t) (length (files t))); intros [= <- <-]; [done|].
    split; [done|]. split; [done|]. simpl. split; [done|]. split; [by right|]. split; [done|].
    split; [|split; [|split; [|lia]]].
    + rewrite lookup_app_r, Hl, Nat.sub_diag by lia. done.
    + rewrite lookup_app_r, Nat.sub_diag by lia. done.
    + intros fd' Hne. unfold slot_free. simpl. rewrite length_app. simpl.
      destruct (decide (fd' < length (files t))%nat).
      * rewrite !lookup_app_l by lia. split; (intros [?|?]; [by left|lia]).
      * rewrite !(lookup_ge_None_2 _ fd') by (rewrite ?length_app; simpl; lia).
        split; (intros _; right; lia).
Qed.

(** The table [alloc_fd_larger_than] searches: padded up to the argument. *)
Lemma grown_table t arg :
  table_wf t →
  let t1 := if (length (files t) <? arg)%nat
            then set_slots t (vec_resize arg None (files t)) (vec_resize arg false (reserved t)) else t in
  table_wf t1 ∧ soft_limit t1 = soft_limit t ∧ (arg ≤ length (files t1))%nat ∧
  (length (files t) ≤ length (files t1))%nat ∧
  (length (files t1) = length (files t) ∨ length (files t1) = arg) ∧
  ∀ fd, (arg ≤ fd)%nat → slot_free t1 fd ↔ slot_free t fd.
Proof.
  intros Hwf. destruct (Nat.ltb_spec (length (files t)) arg); cbv zeta.
  - split; [apply resize_slots_wf; [done|lia]|]. simpl. rewrite length_vec_resize.
    split; [done|]. split; [done|]. split; [lia|]. split; [by right|]. intros fd Hfd.
    unfold slot_free. simpl. rewrite length_vec_resize. split; (intros _; right; lia).
  - split; [done|]. split; [done|]. split; [done|]. split; [done|]. split; [by left|done].
Qed.

(** The allocators hand out the lowest free descriptor.  [alloc_fd] and
    [alloc_fd_larger_than] return the least slot (at or above the argument)
    that is neither occupied nor reserved, reserve it, and leave every other
    slot's availability alone, so a second caller cannot be given the same
    number before the first installs its file.  They fail with [EMFILE] only if
    no slot is free and the table has reached the soft limit, with [EINVAL] if
    the lower bound itself is past it, and then change no existing slot. *)
Theorem fd_alloc_lowest t arg :
  table_wf t →
  (let '(t', r) := alloc_fd t in
   table_wf t' ∧
   match r with
   | Ok fd => slot_free t fd ∧ (∀ fd', (fd' < fd)%nat → ¬ slot_free t fd') ∧
       ¬ slot_free t' fd ∧ (∀ fd', fd' ≠ fd → slot_free t' fd' ↔ slot_free t fd') ∧
       (alloc_fd t').2 ≠ Ok fd
   | Err e => e = EMFILE ∧ t' = t ∧ (soft_limit t ≤ length (files t))%nat ∧
       ∀ fd, (fd < length (files t))%nat → ¬ slot_free t fd
   end) ∧
  (let '(t', r) := alloc_fd_larger_than t arg in
   table_wf t' ∧
   match r with
   | Ok fd => (arg ≤ fd)%nat ∧ slot_free t fd ∧ (∀ fd', (arg ≤ fd' < fd)%nat → ¬ slot_free t fd') ∧
       ¬ slot_free t' fd
   | Err e => (e = EINVAL ∧ (soft_limit t ≤ arg)%nat) ∨
       (e = EMFILE ∧ (soft_limit t ≤ length (files t))%nat ∧
        ∀ fd, (arg ≤ fd < length (files t))%nat → ¬ slot_free t fd)
   end).
Proof.
  intros Hwf.
  assert (∀ t, alloc_fd t = match position vacant (drop 0 (zip (files t) (reserved t))) with
    | Some fd => (set_slots t (files t) (<[(0 + fd)%nat := true]> (reserved t)), Ok (0 + fd)%nat)
    | None => push_reserved t end) as Heq by (intros t0; unfold alloc_fd; by rewrite drop_0).
  assert (∀ t' fd, files t' !! fd = Some None → reserved t' !! fd = Some true → ¬ slot_free t' fd) as Hnf.
  { intros t' fd Hf Hr [[_ ?]|Hlen]; [congruence|]. apply lookup_lt_Some in Hf. lia. }
  split.
  - destruct (alloc_fd t) as [t' r] eqn:E. rewrite Heq in E.
    destruct (alloc_from_spec t 0 t' r Hwf ltac:(lia) E) as (Hwf'&_&Hr). split; [done|].
    destruct r as [fd|e].
    + destruct Hr as (_&Hfree&Hmin&Hres&Hfile&Hoth&_).
      split; [done|]. split; [intros fd' ?; apply Hmin; lia|]. split; [by apply Hnf|]. split; [done|].
      destruct (alloc_fd t') as [t'' r'] eqn:E'. rewrite Heq in E'.
      destruct (alloc_from_spec t' 0 t'' r' Hwf' ltac:(lia) E') as (_&_&Hr').
      simpl. intros ->. destruct Hr' as (_&Hfree'&_). by apply (Hnf t' fd).
    + destruct Hr as (?&?&?&Hno). split; [done|]. split; [done|]. split; [done|].
      intros fd ?. apply Hno. lia.
  - unfold alloc_fd_larger_than. destruct (Nat.leb_spec (soft_limit t) arg); [split; [done|by left]|].
    set (t1 := if (length (files t) <? arg)%nat then _ else t).
    destruct (grown_table t arg Hwf) as (Hwf1&Hs1&Hl1&Hl2&Hl3&Hfr). fold t1 in Hwf1, Hs1, Hl1, Hl2, Hl3, Hfr.
    clearbody t1.
    destruct (match position vacant (drop arg (zip (files t1) (reserved t1))) with
      | Some fd => (set_slots t1 (files t1) (<[(fd + arg)%nat := true]> (reserved t1)), Ok (fd + arg)%nat)
      | None => push_reserved t1 end) as [t' r] eqn:E.
    destruct (alloc_from_spec t1 arg t' r Hwf1 Hl1) as (Hwf'&_&Hr).
    { rewrite <- E. destruct (position _ _); [|done]. by rewrite Nat.add_comm. }
    split; [done|]. destruct r as [fd|e].
    + destruct Hr as (Hge&Hfree&Hmin&Hres&Hfile&_&_). split; [done|].
      split; [by apply Hfr|]. split; [|by apply Hnf].
      intros fd' Hfd'. rewrite <- Hfr by lia. by apply Hmin.
    + destruct Hr as (->&_&Hlen&Hno). right. split; [done|]. rewrite Hs1 in Hlen.
      split; [destruct Hl3; lia|]. intros fd Hfd. rewrite <- Hfr by lia. apply Hno. lia.
Qed.

Definition demo_fd (cell : Z) : FileDescriptor := mkFd 0 cell cell false.
(** Slot 1 is vacant, slot 2 reserved. *)
Definition demo_table : FdTable :=
  mkTable 4 8 [Some (demo_fd 10); None; None] [false; false; true] 1.

Lemma demo_table_wf : table_wf demo_table.
Proof. split; [done|]. intros [|[|[|fd]]] d; by intros [= <-]. Qed.

Lemma fd_alloc_lowest_witness :
  table_wf demo_table ∧ (alloc_fd demo_table).2 = Ok 1%nat ∧
  (alloc_fd_larger_than demo_table 2).2 = Ok 3%nat ∧ slot_free demo_table 1.
Proof.
  split; [exact demo_table_wf|]. split; [reflexivity|]. split; [reflexivity|].
  exact (proj1 (proj2 (proj1 (fd_alloc_lowest demo_table 2 demo_table_wf)))).
Defined.

(** Lowering the limit does not bind [alloc_fd]: documented to allocate
    within the soft limit, it returns a vacant slot past it when the table is
    already longer, and [set] then accepts the slot because it is reserved. *)
Theorem alloc_fd_ignores_lowered_limit :
  let t := set_limit (table_new 4 8 [Some (demo_fd 10); Some (demo_fd 11); None]) 1 8 in
  (alloc_fd t).2 = Ok 2%nat ∧ soft_limit t = 1%nat ∧
  ∃ t', fdt_set (alloc_fd t).1 2 (demo_fd 12) = Done (t', Ok tt, None).
Proof. split; [reflexivity|]. split; [reflexivity|]. eexists. reflexivity. Qed.

(** ** Installing, closing and duplicating *)

Lemma try_get_Some t fd d : try_get t fd = Some d ↔ files t !! fd = Some (Some d).
Proof.
  unfold try_get. destruct (files t !! fd) as [[d'|]|]; simpl; split; congruence.
Qed.

Lemma fdt_set_ok t fd file :
  table_wf t → (fd < soft_limit t)%nat ∨ reserved t !! fd = Some true →
  ∃ t' old, fdt_set t fd file = Done (t', Ok tt, old) ∧ table_wf t' ∧
    soft_limit t' = soft_limit t ∧ try_get t' fd = Some file ∧
    ∀ fd', fd' ≠ fd → try_get t' fd' = try_get t fd'.
Proof.
  intros Hwf Hfd. unfold fdt_set.
  destruct (_ && _) eqn:Eg.
  { split_bools. apply Nat.leb_le in H. destruct Hfd as [?|Hr]; [lia|]. by rewrite Hr in H0. }
  set (t1 := if (length (files t) <=? fd)%nat then _ else t).
  assert (table_wf t1 ∧ soft_limit t1 = soft_limit t ∧ (fd < length (files t1))%nat ∧
    ∀ fd', try_get t1 fd' = try_get t fd') as (Hwf1&Hs1&Hl1&Hg1).
  { unfold t1. destruct (Nat.leb_spec (length (files t)) fd); [|done].
    split; [apply resize_slots_wf; [done|lia]|]. simpl. split; [done|].
    rewrite length_vec_resize. split; [lia|]. intros fd'. unfold try_get. simpl.
    unfold vec_resize. rewrite take_ge by lia.
    destruct (decide (fd' < length (files t))%nat); [by rewrite lookup_app_l by done|].
    rewrite lookup_app_r, (lookup_ge_None_2 (files t)) by lia. simpl.
    destruct (replicate _ _ !! _) eqn:E; [|done]. by apply lookup_replicate in E as [-> _]. }
  clearbody t1. destruct (lookup_lt_is_Some_2 (files t1) fd Hl1) as [old Hold]. rewrite Hold. simpl.
  destruct Hwf1 as [Hl Hocc].
  rewrite (proj2 (Nat.ltb_lt fd (length (reserved t1)))) by lia. simpl.
  eexists _, _. split; [done|]. split; [|split; [done|split]].
  - split; simpl; [by rewrite !length_insert|]. intros fd' d Hd.
    destruct (decide (fd' = fd)) as [->|Hne]; [apply list_lookup_insert_eq; lia|].
    simpl in Hd. rewrite list_lookup_insert_ne in Hd by done. rewrite list_lookup_insert_ne by done. eauto.
  - unfold try_get. simpl. by rewrite list_lookup_insert_eq.
  - intros fd' Hne. rewrite <- Hg1. unfold try_get. simpl. by rewrite list_lookup_insert_ne by done.
Qed.

Lemma fdt_close_get t fd fd' :
  try_get (fdt_close t fd).1 fd' = if decide (fd' = fd) then None else try_get t fd'.
Proof.
  unfold fdt_close. destruct (try_get t fd) as [d|] eqn:E.
  - unfold try_get in *. simpl. destruct (decide (fd' = fd)) as [->|Hne].
    + destruct (files t !! fd) eqn:Ef; [|done]. by rewrite list_lookup_insert_eq by (by eapply lookup_lt_Some).
    + by rewrite list_lookup_insert_ne by done.
  - destruct (decide (fd' = fd)) as [->|]; done.
Qed.

Lemma fdt_close_wf t fd : table_wf t → table_wf (fdt_close t fd).1.
Proof.
  intros [Hl Hocc]. unfold fdt_close. destruct (try_get t fd); [|done].
  split; simpl; [by rewrite length_insert|]. intros fd' d' Hd.
  apply (Hocc fd' d'). by apply list_lookup_insert_Some in Hd as [(?&?&?)|[_ ?]].
Qed.

Lemma cloexec_fds_spec fs : ∀ i fd,
  fd ∈ cloexec_fds i fs ↔ ∃ d, (i ≤ fd)%nat ∧ fs !! (fd - i)%nat = Some (Some d) ∧ fd_cloexec d = true.
Proof.
  induction fs as [|s fs IH]; intros i fd; simpl.
  { rewrite elem_of_nil. split; [done|]. intros (d&_&?&_). by rewrite lookup_nil in *. }
  assert (fd ∈ cloexec_fds (S i) fs ↔ ∃ d, (i < fd)%nat ∧ (s :: fs) !! (fd - i)%nat = Some (Some d) ∧
    fd_cloexec d = true) as IH'.
  { rewrite IH. split; intros (d&?&Hd&?); exists d; (split; [lia|]); (split; [|done]);
      replace (fd - i)%nat with (S (fd - S i)) in * by lia; done. }
  assert ((∃ d, (i ≤ fd)%nat ∧ (s :: fs) !! (fd - i)%nat = Some (Some d) ∧ fd_cloexec d = true) ↔
    (fd = i ∧ ∃ d, s = Some d ∧ fd_cloexec d = true) ∨ fd ∈ cloexec_fds (S i) fs) as ->.
  { rewrite IH'. split.
    - intros (d&?&Hd&?). destruct (decide (fd = i)) as [->|].
      + left. rewrite Nat.sub_diag in Hd. simplify_eq/=. eauto.
      + right. exists d. split; [lia|done].
    - intros [[-> (d&->&?)]|(d&?&?&?)]; exists d; [|split; [lia|done]].
      rewrite Nat.sub_diag. done. }
  destruct s as [d|]; [destruct (fd_cloexec d) eqn:Ec|].
  - rewrite elem_of_cons. split; (intros [?|?]; [left|by right]); [eauto|by destruct_and?].
  - split; [by right|]. intros [[_ (d'&?&?)]|?]; [congruence|done].
  - split; [by right|]. intros [[_ (d'&?&?)]|?]; [done|done].
Qed.

Lemma foldl_close_get fds : ∀ t fd,
  try_get (foldl (λ t fd, (fdt_close t fd).1) t fds) fd =
  if decide (fd ∈ fds) then None else try_get t fd.
Proof.
  induction fds as [|x fds IH]; intros t fd; cbn [foldl].
  { rewrite decide_False by apply not_elem_of_nil. done. }
  rewrite IH, fdt_close_get. destruct (decide (fd ∈ fds)) as [Hin|Hin].
  - rewrite decide_True by (by right). done.
  - destruct (decide (fd = x)) as [->|Hne].
    + rewrite decide_True by left. done.
    + rewrite decide_False; [done|]. rewrite elem_of_cons. tauto.
Qed.

Lemma foldl_close_wf fds : ∀ t, table_wf t → table_wf (foldl (λ t fd, (fdt_close t fd).1) t fds).
Proof. induction fds as [|x fds IH]; intros t Hwf; cbn [foldl]; [done|]. by apply IH, fdt_close_wf. Qed.

(** [exec] closes exactly the close-on-exec descriptors: afterwards each of
    them is closed, and every other descriptor is as it was. *)
Theorem close_on_exec_exact t fd :
  table_wf t →
  table_wf (close_on_exec t) ∧
  try_get (close_on_exec t) fd =
    match try_get t fd with
    | Some d => if fd_cloexec d then None else Some d
    | None => None
    end.
Proof.
  intros Hwf. split; [by apply foldl_close_wf|]. unfold close_on_exec. rewrite foldl_close_get.
  destruct (decide (fd ∈ cloexec_fds 0 (files t))) as [Hin|Hin]; rewrite cloexec_fds_spec in Hin;
    rewrite Nat.sub_0_r in Hin.
  - destruct Hin as (d&_&Hd&Hc). apply try_get_Some in Hd. by rewrite Hd, Hc.
  - destruct (try_get t fd) as [d|] eqn:E; [|done]. apply try_get_Some in E.
    destruct (fd_cloexec d) eqn:Ec; [|done]. destruct Hin. exists d. split; [lia|done].
Qed.

Definition demo_exec_table : FdTable :=
  table_new 4 8 [Some (demo_fd 10); Some (fd_set_cloexec (demo_fd 11))].
Lemma close_on_exec_exact_witness :
  table_wf demo_exec_table ∧ try_get (close_on_exec demo_exec_table) 0 = Some (demo_fd 10) ∧
  try_get (close_on_exec demo_exec_table) 1 = None.
Proof.
  assert (table_wf demo_exec_table) as Hwf by (split; [done|]; intros [|[|fd]] d; by intros [= <-]).
  split; [exact Hwf|]. split; [reflexivity|].
  exact (proj2 (close_on_exec_exact demo_exec_table 1 Hwf)).
Defined.

Lemma set_cloexec_spec d : fd_cloexec (fd_set_cloexec d) = true.
Proof.
  unfold fd_cloexec, contains, fd_set_cloexec, bits_insert. simpl. apply Z.eqb_eq.
  rewrite Z.land_lor_distr_l, Z.land_diag. apply Z.bits_inj'. intros n _.
  rewrite Z.lor_spec, Z.land_spec. by destruct (Z.testbit (descriptor_flags d) n), (Z.testbit O_CLOEXEC n).
Qed.
Lemma unset_cloexec_spec d : fd_cloexec (fd_unset_cloexec d) = false.
Proof.
  unfold fd_cloexec, contains, fd_unset_cloexec, bits_remove. simpl. apply Z.eqb_neq.
  rewrite <- Z.land_assoc, (Z.land_comm (Z.lnot _)), Z.land_lnot_diag, Z.land_0_r. done.
Qed.

(** [dup] duplicates the descriptor, not the file: on success the new
    number was free, every old descriptor is untouched, and the new one names
    the same open file description and file, so status flags set through
    either ([F_SETFL]) are seen through both in every later store, while its
    close-on-exec flag is its own and is what the caller asked for. *)
Theorem dup_shares_description t old cloexec t' new :
  table_wf t → dup_fd t old cloexec = Done (t', Ok new) →
  slot_free t new ∧ table_wf t' ∧
  ∃ d d', try_get t old = Some d ∧ try_get t' old = Some d ∧ try_get t' new = Some d' ∧ new ≠ old ∧
    same_open_file_description d d' = true ∧ file_object d' = file_object d ∧
    fd_cloexec d' = cloexec ∧
    (∀ ss flags, getfl_flags (fdt_set_status_flags ss t' old flags).1 d' =
                 getfl_flags (fdt_set_status_flags ss t' old flags).1 d) ∧
    (∀ fd, fd ≠ new → try_get t' fd = try_get t fd).
Proof.
  intros Hwf. unfold dup_fd, get, ok_or. destruct (try_get t old) as [d|] eqn:Ed; [|done].
  set (dn := if cloexec then _ else _). destruct (alloc_fd t) as [t1 [fd|e]] eqn:Ea; [|done].
  assert (Ea' := Ea). unfold alloc_fd in Ea'. rewrite <- (drop_0 (zip (files t) (reserved t))) in Ea'.
  destruct (alloc_from_spec t 0 t1 (Ok fd) Hwf ltac:(lia) Ea') as (Hwf1&Hs1&_&Hfree&_&Hres&Hnone&_&_).
  assert (∀ fd', try_get t1 fd' = try_get t fd') as Hsame.
  { intros fd'. unfold alloc_fd, push_reserved in Ea. unfold try_get.
    destruct (position _ _); [by simplify_eq|]. case_match; simplify_eq. simpl.
    destruct (decide (fd' < length (files t))%nat); [by rewrite lookup_app_l by done|].
    rewrite lookup_app_r, (lookup_ge_None_2 (files t)) by lia.
    destruct (fd' - length (files t))%nat; done. }
  destruct (fdt_set_ok t1 fd dn Hwf1) as (t2&oldd&E&Hwf2&Hs2&Hnew&Hoth); [by right|].
  rewrite E. simpl. intros [= <- <-]. split; [done|]. split; [done|].
  assert (fd ≠ old) as Hne.
  { intros ->. apply try_get_Some in Ed. destruct Hfree as [[? _]|?]; [congruence|].
    apply lookup_lt_Some in Ed. lia. }
  exists d, dn. assert (status_cell dn = status_cell d ∧ file_object dn = file_object d) as [Hc Hf]
    by (unfold dn; by destruct cloexec).
  split; [done|]. split; [by rewrite Hoth, Hsame by done|]. split; [done|]. split; [done|].
  split; [unfold same_open_file_description; rewrite Hc; lia|]. split; [done|].
  split; [unfold dn; destruct cloexec; [apply set_cloexec_spec|apply unset_cloexec_spec]|].
  split; [|intros fd' ?; by rewrite Hoth, Hsame by done].
  intros ss flags. unfold getfl_flags. by rewrite Hc.
Qed.

Lemma dup_shares_description_witness :
  ∃ t', dup_fd demo_table 0 true = Done (t', Ok 1%nat) ∧ table_wf t' ∧ slot_free demo_table 1.
Proof.
  eexists. split; [reflexivity|].
  pose proof (dup_shares_description demo_table 0 true _ 1 demo_table_wf eq_refl) as (H1&H2&_).
  split; [exact H2|exact H1].
Defined.
