(* ===== verification/FrameAlloc.v ===== *)
(** * Physical frames: the buddy heap, the page cache and their interface

    [crates/buddy_system_allocator/src/lib.rs] (the heap of power-of-two
    blocks), [mm/frame_alloc/buddy_cma.rs] (contiguous page ranges on top of
    it) and [mm/frame_alloc/page_cache.rs] (the cache of single frames in
    front of it).

    The intrusive free list of a size class is a list of block addresses, its
    head first.  Every heap operation runs under the owner lock of
    [CmaAllocator] and every cache operation under the lock of its list, so an
    operation is one step. *)

From S2P Require Import Prelude Errno Address.

(** ** The interface of the frame allocator *)

(** [fs_free s f]: the source may still hand out frame [f]. *)
Class FrameSource (Src : Type) : Type := {
  fs_ok : Src → Prop;
  fs_free : Src → Z → Prop;
  fs_alloc : Src → option (Z * Src);
  fs_alloc_law s f s' : fs_ok s → fs_alloc s = Some (f, s') →
    fs_ok s' ∧ fs_free s f ∧ ¬ fs_free s' f ∧ (∀ g, fs_free s' g → fs_free s g) ∧ 0 ≤ f < 2 ^ 44
}.

(** A pool of distinct frames: the simplest frame source. *)
#[export, refine] Instance pool_source : FrameSource (list Z) := {
  fs_ok l := NoDup l ∧ Forall (λ f, 0 ≤ f < 2 ^ 44) l;
  fs_free l f := f ∈ l;
  fs_alloc l := match l with [] => None | f :: l => Some (f, l) end
}.
Proof.
  intros [|f l] f' s' [Hnd Hr]; [done|]. intros [= <- <-].
  apply NoDup_cons in Hnd as [Hf Hnd]. apply Forall_cons in Hr as [Hf' Hr].
  split; [done|]. split; [left|]. split; [done|]. split; [by right|done].
Defined.

(** ** The buddy heap *)

Definition MAX_ORDER : nat := 35.

Record Heap : Type := mkHeap {
  free_list : list (list Z); h_user : Z; h_allocated : Z; h_total : Z }.

Definition heap_new : Heap := mkHeap (replicate MAX_ORDER []) 0 0 0.

Definition set_class (h : Heap) (i : nat) (l : list Z) : Heap :=
  mkHeap (<[i := l]> (free_list h)) (h_user h) (h_allocated h) (h_total h).

(** [self.free_list[i].push(a)]; an index out of range panics. *)
Definition push (h : Heap) (i : nat) (a : Z) : comp Heap :=
  match free_list h !! i with Some l => Done (set_class h i (a :: l)) | None => Panic end.

(** [self.free_list[i].pop()]. *)
Definition pop (h : Heap) (i : nat) : comp (option Z * Heap) :=
  match free_list h !! i with
  | None => Panic
  | Some [] => Done (None, h)
  | Some (a :: l) => Done (Some a, set_class h i l)
  end.

(** [usize::trailing_zeros]. *)
Fixpoint pos_trailing_zeros (p : positive) : nat :=
  match p with xO p => S (pos_trailing_zeros p) | _ => O end.
Definition trailing_zeros (z : Z) : nat :=
  match z with Zpos p => pos_trailing_zeros p | _ => 64%nat end.

(** [usize::next_power_of_two]. *)
Definition next_power_of_two (n : Z) : Z := 2 ^ Z.log2_up n.
(** [1 << (64 - leading_zeros - 1)] of a positive number. *)
Definition prev_power_of_two (n : Z) : Z := 2 ^ Z.log2 n.
(** [x & (!x + 1)]. *)
Definition lowbit (x : Z) : Z := Z.land x (wrap64 (wrap64 (Z.lnot x) + 1)).

(** One iteration of the loop of [add_to_heap]; the state is the heap,
    [current_start] and [total]. *)
Definition add_step (end_ : Z) (s : Heap * Z * Z) : Heap * Z * Z + comp (Heap * Z) :=
  let '(h, current_start, total) := s in
  if wrap64 (current_start + 8) <=? end_ then
    let size := Z.min (lowbit current_start) (prev_power_of_two (end_ - current_start)) in
    match push h (trailing_zeros size) current_start with
    | Done h => inl (h, wrap64 (current_start + size), total + size)
    | Panic => inr Panic
    end
  else inr (Done (h, total)).

(** [2 ^ 64] iterations are more than the 8-byte words of the address space. *)
Definition add_to_heap (h : Heap) (start end_ : Z) : comp Heap :=
  let start := Z.land (wrap64 (start + 8 - 1)) (wrap64 (-8)) in
  let end_ := Z.land end_ (wrap64 (-8)) in
  assert! (start <=? end_);
  match run2 (add_step end_) 64 (h, start, 0) with
  | inr r => '(h, total) ← r;
      Done (mkHeap (free_list h) (h_user h) (h_allocated h) (wrap64 (h_total h + total)))
  | inl _ => Panic
  end.

(** The size of the block for a layout. *)
Definition block_size (size align : Z) : Z := Z.max (next_power_of_two size) (Z.max align 8).

(** The first non-empty class from [i] on, among [n] classes. *)
Fixpoint find_class (h : Heap) (i n : nat) : option nat :=
  match n with
  | O => None
  | S n =>
      match free_list h !! i with
      | Some (_ :: _) => Some i
      | _ => find_class h (S i) n
      end
  end.

(** [for j in (class + 1..i + 1).rev()] with [n = i - class]: split a block of
    class [j] into two of class [j - 1].  [false] is the [Err] of an empty class. *)
Fixpoint split_loop (h : Heap) (class n : nat) : comp (Heap * bool) :=
  match n with
  | O => Done (h, true)
  | S n =>
      let j := (class + S n)%nat in
      '(block, h) ← pop h j;
      match block with
      | None => Done (h, false)
      | Some block =>
          h ← push h (j - 1) (wrap64 (block + 2 ^ (Z.of_nat j - 1)));
          h ← push h (j - 1) block;
          split_loop h class n
      end
  end.

(** [Heap::alloc]; [None] is [Err(())]. *)
Definition heap_alloc (h : Heap) (size align : Z) : comp (Heap * option Z) :=
  let bsize := block_size size align in
  let class := trailing_zeros bsize in
  match find_class h class (length (free_list h) - class) with
  | None => Done (h, None)
  | Some i =>
      '(h, ok) ← split_loop h class (i - class);
      if negb ok then Done (h, None) else
      '(block, h) ← pop h class;
      a ← unwrap block;
      if a =? 0 then Done (h, None)
      else Done (mkHeap (free_list h) (wrap64 (h_user h + size)) (wrap64 (h_allocated h + bsize))
                   (h_total h), Some a)
  end.

(** [for block in free_list[c].iter_mut()]: unlink the first block equal to
    [buddy]; [None] when there is none. *)
Fixpoint unlink (buddy : Z) (l : list Z) : option (list Z) :=
  match l with
  | [] => None
  | b :: l => if b =? buddy then Some l else (b ::.) <$> unlink buddy l
  end.

(** The same with at most [remaining] blocks inspected; also returns what is
    left of the budget. *)
Fixpoint unlink_bounded (remaining : nat) (buddy : Z) (l : list Z) : option (list Z) * nat :=
  match l with
  | [] => (None, remaining)
  | b :: l =>
      match remaining with
      | O => (None, O)
      | S remaining =>
          if b =? buddy then (Some l, remaining)
          else let '(r, remaining) := unlink_bounded remaining buddy l in ((b ::.) <$> r, remaining)
      end
  end.

(** A merge: [l] is the class without the buddy; drop the head, which is the
    current block, and push the merged block one class up. *)
Definition merge_into (h : Heap) (class : nat) (l : list Z) (merged : Z) : comp Heap :=
  '(_, h) ← pop (set_class h class l) class;
  push h (S class) merged.

(** The merge loop of [dealloc]; [n] bounds the classes above [class]. *)
Fixpoint merge_buddies (n : nat) (h : Heap) (current_ptr : Z) (class : nat) : comp Heap :=
  match n with
  | O => Done h
  | S n =>
      let buddy := Z.lxor current_ptr (2 ^ Z.of_nat class) in
      match unlink buddy (default [] (free_list h !! class)) with
      | None => Done h
      | Some l =>
          h ← merge_into h class l (Z.min current_ptr buddy);
          merge_buddies n h (Z.min current_ptr buddy) (S class)
      end
  end.

(** The merge loop of [dealloc_with_bounded_merge]. *)
Fixpoint bounded_merge_loop (n : nat) (h : Heap) (remaining : nat) (current_ptr : Z) (class : nat) :
    comp Heap :=
  match n with
  | O => Done h
  | S n =>
      if (remaining =? 0)%nat then Done h else
      let buddy := Z.lxor current_ptr (2 ^ Z.of_nat class) in
      match unlink_bounded remaining buddy (default [] (free_list h !! class)) with
      | (None, _) => Done h
      | (Some l, remaining) =>
          '(head, h) ← pop (set_class h class l) class;
          _ ← unwrap head;
          h ← push h (S class) (Z.min current_ptr buddy);
          bounded_merge_loop n h remaining (Z.min current_ptr buddy) (S class)
      end
  end.

(** The two deallocation functions: [limit] is [None] for [dealloc] and
    [Some max_buddy_scan] for [dealloc_with_bounded_merge]. *)
Definition heap_dealloc (h : Heap) (ptr size align : Z) (limit : option nat) : comp Heap :=
  let bsize := block_size size align in
  let class := trailing_zeros bsize in
  h ← push h class ptr;
  let n := (length (free_list h) - 1 - class)%nat in
  h ← (match limit with
       | None => merge_buddies n h ptr class
       | Some max_buddy_scan => bounded_merge_loop n h max_buddy_scan ptr class
       end);
  Done (mkHeap (free_list h) (wrap64 (h_user h - size)) (wrap64 (h_allocated h - bsize)) (h_total h)).

(** ** Contiguous page ranges *)

(** [Layout::from_size_align(size, align).is_ok()]. *)
Definition layout_ok (size align : Z) : bool :=
  is_power_of_two align && (size <=? i64_max - (align - 1)).

Definition CMA_PAGE_BUDDY_SCAN_LIMIT : nat := 256.

(** [cma_alloc_aligned]; the result is a physical address. *)
Definition cma_alloc_aligned (h : Heap) (pages align_pages : Z) : comp (Heap * option Z) :=
  if (pages =? 0) || (align_pages =? 0) then Done (h, None) else
  match checked_mul pages PAGE_SIZE, checked_mul align_pages PAGE_SIZE with
  | Some size, Some align =>
      if negb (layout_ok size align) then Done (h, None) else
      '(h, r) ← heap_alloc h size align;
      match r with
      | None => Done (h, None)
      | Some ptr => assert! (ptr mod PAGE_SIZE =? 0); Done (h, Some (phys_addr_from_kernel ptr))
      end
  | _, _ => Done (h, None)
  end.
Definition cma_alloc (h : Heap) (pages : Z) : comp (Heap * option Z) := cma_alloc_aligned h pages 1.

Definition cma_dealloc_aligned (h : Heap) (paddr pages align_pages : Z) : comp Heap :=
  assert! (0 <? pages);
  assert! (paddr mod PAGE_SIZE =? 0);
  size ← unwrap (checked_mul pages PAGE_SIZE);
  align ← unwrap (checked_mul align_pages PAGE_SIZE);
  assert! (layout_ok size align);
  let va := kernel_addr_from_phys paddr in
  assert! (negb (va =? 0));
  heap_dealloc h va size align (if pages =? 1 then Some CMA_PAGE_BUDDY_SCAN_LIMIT else None).
Definition cma_dealloc (h : Heap) (paddr pages : Z) : comp Heap := cma_dealloc_aligned h paddr pages 1.

(** [init_cma_heap] and [init_cma_late] of the RISC-V build: the RAM range
    [physical_start, physical_start + physical_size) above the kernel image. *)
Definition BOOTSTRAP_PHYSICAL_MEMORY_SIZE : Z := 1073741824.
Definition init_cma_heap (h : Heap) (ekernel_va physical_start physical_size : Z) : comp (Heap * Z) :=
  let used := wrap64 (ekernel_va - physical_start - KERNEL_ADDR_OFFSET) in
  let bootstrap_size := Z.min BOOTSTRAP_PHYSICAL_MEMORY_SIZE physical_size in
  assert! (used <? bootstrap_size);
  let size := bootstrap_size - used in
  let left := wrap64 (KERNEL_ADDR_OFFSET + physical_start + used) in
  h ← add_to_heap h left (wrap64 (left + size));
  Done (h, size).
Definition init_cma_late (h : Heap) (physical_start physical_size : Z) : comp Heap :=
  let bootstrap_size := Z.min BOOTSTRAP_PHYSICAL_MEMORY_SIZE physical_size in
  let start := wrap64 (KERNEL_ADDR_OFFSET + physical_start + bootstrap_size) in
  add_to_heap h start (wrap64 (KERNEL_ADDR_OFFSET + physical_start + physical_size)).

(** ** The page cache *)

(** [pc_list] is the [Vec] [free_list], its last element first. *)
Record PageCache : Type := mkCache {
  pc_list : list Z; pc_count : Z; pc_allocated : Z; pc_deallocated : Z;
  high_watermark : Z; low_watermark : Z; refill_batch : Z; flush_batch : Z }.

Definition MAX_WATERMARK : Z := 65536.
Definition MAX_BATCH : Z := 4096.
Definition cache_new : PageCache := mkCache [] 0 0 0 128 32 16 64.

Definition configure (pc : PageCache) (high low refill flush : Z) : result SysErrNo PageCache :=
  if (low =? 0) || (high <? low) || (MAX_WATERMARK <? high) || (refill =? 0) || (flush =? 0)
     || (MAX_BATCH <? refill) || (MAX_BATCH <? flush)
  then Err EINVAL
  else Ok (mkCache (pc_list pc) (pc_count pc) (pc_allocated pc) (pc_deallocated pc) high low refill flush).

Definition with_list (pc : PageCache) (l : list Z) (count : Z) : PageCache :=
  mkCache l (wrap64 count) (pc_allocated pc) (pc_deallocated pc)
    (high_watermark pc) (low_watermark pc) (refill_batch pc) (flush_batch pc).

(** The cache and the heap behind it. *)
Record Frames : Type := mkFrames { cache : PageCache; heap : Heap }.

(** [for _ in 0..refill_batch]: [false] is the early return when the heap has no
    page; pages already pushed stay in the list. *)
Fixpoint refill (n : nat) (s : Frames) : comp (Frames * bool) :=
  match n with
  | O => Done (s, true)
  | S n =>
      '(h, r) ← cma_alloc (heap s) 1;
      match r with
      | None => Done (mkFrames (cache s) h, false)
      | Some addr =>
          ppn ← page_num_from_addr addr;
          let pc := cache s in
          refill n (mkFrames (with_list pc (ppn :: pc_list pc) (pc_count pc)) h)
      end
  end.

(** The [loop] of [PageCache::alloc], at most [fuel] rounds. *)
Fixpoint cache_alloc_loop (fuel : nat) (s : Frames) : option (comp (Frames * option Z)) :=
  match fuel with
  | O => None
  | S fuel =>
      let pc := cache s in
      match pc_list pc with
      | ppn :: l =>
          let pc := with_list pc l (pc_count pc - 1) in
          Some (Done (mkFrames (mkCache (pc_list pc) (pc_count pc) (wrap64 (pc_allocated pc + 1))
            (pc_deallocated pc) (high_watermark pc) (low_watermark pc) (refill_batch pc) (flush_batch pc))
            (heap s), Some ppn))
      | [] =>
          match refill (Z.to_nat (refill_batch pc)) s with
          | Panic => Some Panic
          | Done (s, false) => Some (Done (s, None))
          | Done (s, true) =>
              let pc := cache s in
              cache_alloc_loop fuel (mkFrames (with_list pc (pc_list pc) (pc_count pc + refill_batch pc)) (heap s))
          end
      end
  end.
(** Two rounds are enough once [refill_batch] is positive. *)
Definition cache_alloc (s : Frames) : option (comp (Frames * option Z)) := cache_alloc_loop 2 s.

(** [for i in flush_pages { cma_dealloc(i, 1) }]. *)
Fixpoint flush_pages (h : Heap) (l : list Z) : comp Heap :=
  match l with
  | [] => Done h
  | ppn :: l => h ← cma_dealloc h (addr_from_page_num ppn) 1; flush_pages h l
  end.

Definition cache_dealloc (s : Frames) (ppn : Z) : comp Frames :=
  let pc := cache s in
  let list := ppn :: pc_list pc in
  let count := wrap64 (pc_count pc + 1) in
  let pc := mkCache list count (pc_allocated pc) (wrap64 (pc_deallocated pc + 1))
              (high_watermark pc) (low_watermark pc) (refill_batch pc) (flush_batch pc) in
  if high_watermark pc <=? count then
    if Z.of_nat (length list) <=? low_watermark pc then Done (mkFrames pc (heap s))
    else
      let n := Z.to_nat (Z.min (flush_batch pc) (Z.of_nat (length list) - low_watermark pc)) in
      h ← flush_pages (heap s) (take n list);
      Done (mkFrames (with_list pc (drop n list) (count - Z.of_nat n)) h)
  else Done (mkFrames pc (heap s)).

(** ** Which bytes are free *)

Definition class_blocks (h : Heap) (i : nat) : list Z := default [] (free_list h !! i).
Definition block_at (i : nat) (b x : Z) : Prop := b ≤ x < b + 2 ^ Z.of_nat i.
#[export] Instance block_at_dec i b x : Decision (block_at i b x).
Proof. unfold block_at. apply _. Defined.
Definition free_byte (h : Heap) (x : Z) : Prop := ∃ i b, b ∈ class_blocks h i ∧ block_at i b x.

(** A block the heap may hold: aligned to its size, inside the address space,
    not at address 0. *)
Definition block_ok (i : nat) (b : Z) : Prop :=
  0 < b ∧ (2 ^ Z.of_nat i | b) ∧ b + 2 ^ Z.of_nat i ≤ 2 ^ 64.

Record heap_wf (h : Heap) : Prop := {
  wf_classes : length (free_list h) = MAX_ORDER;
  wf_blocks i b : b ∈ class_blocks h i → block_ok i b;
  wf_nodup i : NoDup (class_blocks h i);
  wf_disjoint i b j c x : b ∈ class_blocks h i → c ∈ class_blocks h j →
    block_at i b x → block_at j c x → i = j ∧ b = c
}.

Lemma pow2_pos n : 0 < 2 ^ Z.of_nat n.
Proof. apply Z.pow_pos_nonneg; lia. Qed.

Lemma block_start i b : block_at i b b.
Proof. unfold block_at. pose proof (pow2_pos i). lia. Qed.

Lemma class_set_eq h i l : (i < length (free_list h))%nat → class_blocks (set_class h i l) i = l.
Proof. intros. unfold class_blocks, set_class. simpl. by rewrite list_lookup_insert_eq. Qed.

Lemma class_set_ne h i j l : i ≠ j → class_blocks (set_class h i l) j = class_blocks h j.
Proof. intros. unfold class_blocks, set_class. simpl. by rewrite list_lookup_insert_ne. Qed.

Lemma class_lookup h i : heap_wf h → (i < MAX_ORDER)%nat → free_list h !! i = Some (class_blocks h i).
Proof.
  intros Hwf Hi. unfold class_blocks. rewrite <- (wf_classes _ Hwf) in Hi.
  destruct (lookup_lt_is_Some_2 _ _ Hi) as [l ->]. done.
Qed.

Lemma class_elem_lt h i b : heap_wf h → b ∈ class_blocks h i → (i < MAX_ORDER)%nat.
Proof.
  intros Hwf Hb. rewrite <- (wf_classes _ Hwf). unfold class_blocks in Hb.
  destruct (free_list h !! i) eqn:Hl; [by eapply lookup_lt_Some|]. by apply elem_of_nil in Hb.
Qed.

(** Taking one block out of a class. *)
Lemma remove_block h i b l :
  heap_wf h → (i < MAX_ORDER)%nat → class_blocks h i ≡ₚ b :: l →
  heap_wf (set_class h i l) ∧ block_ok i b ∧ (∀ x, block_at i b x → free_byte h x) ∧
  (∀ x, free_byte (set_class h i l) x ↔ free_byte h x ∧ ¬ block_at i b x).
Proof.
  intros Hwf Hi Hp. pose proof (wf_classes _ Hwf) as Hlen.
  assert (∀ c, c ∈ class_blocks h i ↔ c = b ∨ c ∈ l) as Hin by (intros; rewrite Hp; apply elem_of_cons).
  assert (∀ j c, c ∈ class_blocks (set_class h i l) j ↔ c ∈ class_blocks h j ∧ (j, c) ≠ (i, b)) as Hset.
  { intros j c. destruct (decide (j = i)) as [->|Hne].
    - rewrite class_set_eq by (rewrite Hlen; done). rewrite Hin. split; [|naive_solver].
      intros Hc. split; [by right|]. intros [= ->].
      pose proof (wf_nodup _ Hwf i) as Hnd. rewrite Hp in Hnd. by apply NoDup_cons in Hnd as [? _].
    - rewrite class_set_ne by done. naive_solver. }
  assert (b ∈ class_blocks h i) as Hb by (apply Hin; by left).
  split; [split|split; [by eapply wf_blocks|split]].
  - by rewrite <- Hlen; unfold set_class; simpl; rewrite length_insert.
  - intros j c [Hc _]%Hset. by eapply wf_blocks.
  - intros j. destruct (decide (j = i)) as [->|Hne]; [|rewrite class_set_ne by done; apply Hwf].
    rewrite class_set_eq by (rewrite Hlen; done). pose proof (wf_nodup _ Hwf i) as Hnd. rewrite Hp in Hnd.
    by apply NoDup_cons in Hnd as [_ ?].
  - intros j c j' c' x [Hc _]%Hset [Hc' _]%Hset. by eapply (wf_disjoint _ Hwf).
  - intros x Hx. by exists i, b.
  - intros x. split.
    + intros (j&c&[Hc Hne]%Hset&Hx). split; [by exists j, c|]. intros Hbx. apply Hne.
      destruct (wf_disjoint _ Hwf j c i b x) as [-> ->]; done.
    + intros [(j&c&Hc&Hx) Hn]. exists j, c. split; [|done]. apply Hset. split; [done|]. intros [= -> ->]. done.
Qed.

(** Adding a block whose bytes are not free. *)
Lemma add_block h i b :
  heap_wf h → (i < MAX_ORDER)%nat → block_ok i b → (∀ x, block_at i b x → ¬ free_byte h x) →
  heap_wf (set_class h i (b :: class_blocks h i)) ∧
  (∀ x, free_byte (set_class h i (b :: class_blocks h i)) x ↔ free_byte h x ∨ block_at i b x).
Proof.
  intros Hwf Hi Hok Hnew. pose proof (wf_classes _ Hwf) as Hlen. set (h' := set_class _ _ _).
  assert (∀ j c, c ∈ class_blocks h' j ↔ c ∈ class_blocks h j ∨ (j, c) = (i, b)) as Hset.
  { intros j c. unfold h'. destruct (decide (j = i)) as [->|Hne].
    - rewrite class_set_eq, elem_of_cons by (rewrite Hlen; done). naive_solver.
    - rewrite class_set_ne by done. naive_solver. }
  assert (∀ j c x, c ∈ class_blocks h j → block_at j c x → ¬ block_at i b x) as Hdis.
  { intros j c x Hc Hx Hbx. eapply Hnew; [done|]. by exists j, c. }
  split; [split|].
  - unfold h', set_class. simpl. by rewrite length_insert.
  - intros j c [Hc|[= -> ->]]%Hset; [by eapply wf_blocks|done].
  - intros j. unfold h'. destruct (decide (j = i)) as [->|Hne]; [|rewrite class_set_ne by done; apply Hwf].
    rewrite class_set_eq by (rewrite Hlen; done). apply NoDup_cons. split; [|apply Hwf].
    intros Hb. eapply Hdis; [done|apply block_start|apply block_start].
  - intros j c j' c' x [Hc|[= -> ->]]%Hset [Hc'|[= -> ->]]%Hset Hx Hx'; [by eapply (wf_disjoint _ Hwf)| | |done].
    + by destruct (Hdis j c x).
    + by destruct (Hdis j' c' x).
  - intros x. split.
    + intros (j&c&[Hc|[= -> ->]]%Hset&Hx); [left; by exists j, c|by right].
    + intros [(j&c&Hc&Hx)|Hx]; [exists j, c|exists i, b]; (split; [apply Hset|done]); [by left|by right].
Qed.

(** [push] and [pop] of the code. *)
Lemma push_spec h i b :
  heap_wf h → (i < MAX_ORDER)%nat → block_ok i b → (∀ x, block_at i b x → ¬ free_byte h x) →
  ∃ h', push h i b = Done h' ∧ h' = set_class h i (b :: class_blocks h i) ∧ heap_wf h' ∧
    (∀ x, free_byte h' x ↔ free_byte h x ∨ block_at i b x).
Proof.
  intros Hwf Hi Hok Hnew. unfold push. rewrite class_lookup by done.
  destruct (add_block h i b) as [? ?]; [done..|]. by eexists.
Qed.

Lemma pop_spec h i b l :
  heap_wf h → (i < MAX_ORDER)%nat → class_blocks h i = b :: l →
  pop h i = Done (Some b, set_class h i l) ∧ heap_wf (set_class h i l) ∧ block_ok i b ∧
  (∀ x, block_at i b x → free_byte h x) ∧
  (∀ x, free_byte (set_class h i l) x ↔ free_byte h x ∧ ¬ block_at i b x).
Proof.
  intros Hwf Hi Hc. unfold pop. rewrite class_lookup, Hc by done.
  destruct (remove_block h i b l) as (?&?&?&?); [done|done|by rewrite Hc|]. done.
Qed.

(** ** Powers of two *)

Lemma trailing_zeros_pow2 k : trailing_zeros (2 ^ Z.of_nat k) = k.
Proof.
  induction k as [|k IH]; [done|]. rewrite Nat2Z.inj_succ, Z.pow_succ_r by lia.
  pose proof (pow2_pos k). destruct (2 ^ Z.of_nat k) as [|p|p]; [lia| |lia].
  change (2 * Z.pos p) with (Z.pos p~0). cbn [trailing_zeros pos_trailing_zeros] in *. by rewrite IH.
Qed.

Lemma is_power_of_two_spec a : is_power_of_two a = true → ∃ k, a = 2 ^ Z.of_nat k.
Proof.
  unfold is_power_of_two. rewrite andb_true_iff, Z.ltb_lt, Z.eqb_eq. intros [Ha Hl].
  exists (Z.to_nat (Z.log2 a)). pose proof (Z.log2_nonneg a). rewrite Z2Nat.id by done.
  pose proof (Z.log2_spec a Ha) as [H1 H2]. destruct (decide (a = 2 ^ Z.log2 a)) as [|Hne]; [done|exfalso].
  assert (Z.log2 (a - 1) = Z.log2 a) as Hlog by (apply Z.log2_unique; lia).
  apply (f_equal (λ z, Z.testbit z (Z.log2 a))) in Hl. cbv beta in Hl. rewrite Z.land_spec, Z.bits_0 in Hl.
  rewrite Z.bit_log2 in Hl by done. rewrite <- Hlog, Z.bit_log2 in Hl; [done|].
  pose proof (Z.pow_pos_nonneg 2 (Z.log2 a)). lia.
Qed.

Lemma pow2_max a b : ∃ c, Z.max (2 ^ Z.of_nat a) (2 ^ Z.of_nat b) = 2 ^ Z.of_nat c ∧ (a ≤ c)%nat ∧ (b ≤ c)%nat.
Proof.
  exists (Nat.max a b). destruct (Nat.max_spec a b) as [[? ->]|[? ->]].
  - rewrite Z.max_r; [auto with lia|]. apply Z.pow_le_mono_r; lia.
  - rewrite Z.max_l; [auto with lia|]. apply Z.pow_le_mono_r; lia.
Qed.

(** The block for a layout is a power of two that holds it and is as aligned. *)
Lemma block_size_pow2 size align :
  0 < size → layout_ok size align = true →
  ∃ k, block_size size align = 2 ^ Z.of_nat k ∧ (3 ≤ k)%nat ∧ size ≤ 2 ^ Z.of_nat k ∧ (align | 2 ^ Z.of_nat k).
Proof.
  intros Hs [Ha _]%andb_true_iff. apply is_power_of_two_spec in Ha as [a ->].
  unfold block_size, next_power_of_two. change 8 with (2 ^ Z.of_nat 3).
  replace (Z.log2_up size) with (Z.of_nat (Z.to_nat (Z.log2_up size)))
    by (rewrite Z2Nat.id; [done|apply Z.log2_up_nonneg]).
  destruct (pow2_max a 3) as (c&->&Hac&H3c). destruct (pow2_max (Z.to_nat (Z.log2_up size)) c) as (k&Hk&Hsk&Hck).
  exists k. split; [done|]. split; [lia|]. split.
  - transitivity (2 ^ Z.of_nat (Z.to_nat (Z.log2_up size))); [|apply Z.pow_le_mono_r; lia].
    rewrite Z2Nat.id by apply Z.log2_up_nonneg. by apply Z.log2_up_le_pow2.
  - exists (2 ^ Z.of_nat (k - a)). rewrite <- Z.pow_add_r by lia. f_equal. lia.
Qed.

(** ** Allocation *)

Lemma halves k b :
  block_ok (S k) b →
  block_ok k b ∧ block_ok k (b + 2 ^ Z.of_nat k) ∧ wrap64 (b + 2 ^ Z.of_nat k) = b + 2 ^ Z.of_nat k ∧
  (∀ x, block_at (S k) b x ↔ block_at k b x ∨ block_at k (b + 2 ^ Z.of_nat k) x).
Proof.
  unfold block_ok, block_at. rewrite Nat2Z.inj_succ, Z.pow_succ_r by lia. pose proof (pow2_pos k).
  set (p := 2 ^ Z.of_nat k) in *. intros (Hb&[q Hq]&Hle). split; [|split; [|split]].
  - split; [done|]. split; [exists (2 * q); lia|lia].
  - split; [lia|]. split; [exists (2 * q + 1); lia|lia].
  - apply wrap64_small. unfold is_usize, usize_max. lia.
  - intros x. lia.
Qed.

Lemma split_loop_spec n h class :
  heap_wf h → (class + n < MAX_ORDER)%nat → class_blocks h (class + n) ≠ [] →
  ∃ h', split_loop h class n = Done (h', true) ∧ heap_wf h' ∧ class_blocks h' class ≠ [] ∧
    (∀ x, free_byte h' x ↔ free_byte h x).
Proof.
  revert h. induction n as [|n IH]; intros h Hwf Hlt Hne; cbn [split_loop].
  { rewrite Nat.add_0_r in Hne. by exists h. }
  destruct (class_blocks h (class + S n)) as [|b l] eqn:Hc; [done|].
  destruct (pop_spec h (class + S n) b l) as (->&Hwf1&Hok&Hfree&Hf1); [done..|]. cbn [mbind comp_bind].
  set (h1 := set_class h _ l) in *. rewrite Nat.add_succ_r in *. replace (S (class + n) - 1)%nat with (class + n)%nat by lia.
  replace (Z.of_nat (S (class + n)) - 1) with (Z.of_nat (class + n)) by lia.
  destruct (halves _ _ Hok) as (Hok1&Hok2&->&Hhalf). pose proof (pow2_pos (class + n)) as Hpos.
  destruct (push_spec h1 (class + n) (b + 2 ^ Z.of_nat (class + n))) as (h2&->&_&Hwf2&Hf2); [done|lia|done| |].
  { intros x Hx [_ Hn]%Hf1. apply Hn, Hhalf. by right. }
  cbn [mbind comp_bind].
  destruct (push_spec h2 (class + n) b) as (h3&->&Heq&Hwf3&Hf3); [done|lia|done| |].
  { intros x Hx [[_ Hn]%Hf1|Hx2]%Hf2; [apply Hn, Hhalf; by left|]. unfold block_at in *. lia. }
  cbn [mbind comp_bind]. destruct (IH h3 Hwf3) as (h4&->&Hwf4&Hne4&Hf4); [lia| |].
  { rewrite Heq, class_set_eq; [done|]. rewrite (wf_classes _ Hwf2). lia. }
  exists h4. split; [done|]. split; [done|]. split; [done|]. intros x. rewrite Hf4, Hf3, Hf2, Hf1, Hhalf.
  pose proof (Hfree x) as Hfx. rewrite Hhalf in Hfx.
  destruct (decide (block_at (class + n) b x)); [tauto|].
  destruct (decide (block_at (class + n) (b + 2 ^ Z.of_nat (class + n)) x)); tauto.
Qed.

Lemma find_class_spec h n i :
  match find_class h i n with
  | Some j => (i ≤ j < i + n)%nat ∧ class_blocks h j ≠ []
  | None => ∀ j, (i ≤ j < i + n)%nat → class_blocks h j = []
  end.
Proof.
  revert i. induction n as [|n IH]; intros i; cbn [find_class]; [intros; lia|].
  assert (class_blocks h i = [] → match find_class h (S i) n with
    | Some j => (i ≤ j < i + S n)%nat ∧ class_blocks h j ≠ []
    | None => ∀ j, (i ≤ j < i + S n)%nat → class_blocks h j = [] end) as Hnext.
  { intros Hi. specialize (IH (S i)). destruct (find_class h (S i) n) as [j|].
    - destruct IH. split; [lia|done].
    - intros j Hj. destruct (decide (j = i)) as [->|]; [done|]. apply IH. lia. }
  unfold class_blocks in *. destruct (free_list h !! i) as [[|b l]|] eqn:Hl; [by apply Hnext| |by apply Hnext].
  split; [lia|]. by rewrite Hl.
Qed.

(** Statistics do not matter for the blocks. *)
Lemma heap_wf_stats h u a t : heap_wf h → heap_wf (mkHeap (free_list h) u a t).
Proof. intros [? Hb Hn Hd]. by split. Qed.

Lemma heap_alloc_spec h size align k :
  heap_wf h → block_size size align = 2 ^ Z.of_nat k →
  ∃ h' r, heap_alloc h size align = Done (h', r) ∧ heap_wf h' ∧
    match r with
    | Some p => block_ok k p ∧ (∀ x, block_at k p x → free_byte h x) ∧
        (∀ x, free_byte h' x ↔ free_byte h x ∧ ¬ block_at k p x)
    | None => h' = h ∧ ∀ i, (k ≤ i)%nat → class_blocks h i = []
    end.
Proof.
  intros Hwf Hk. unfold heap_alloc. rewrite Hk, trailing_zeros_pow2.
  pose proof (find_class_spec h (length (free_list h) - k) k) as Hfind.
  destruct (find_class h k _) as [i|].
  - destruct Hfind as [Hi Hne]. pose proof (wf_classes _ Hwf) as Hlen.
    destruct (split_loop_spec (i - k) h k) as (h1&->&Hwf1&Hne1&Hf1); [done|lia|by replace (k + (i - k))%nat with i by lia|].
    cbn [mbind comp_bind negb]. destruct (class_blocks h1 k) as [|p l] eqn:Hc; [done|].
    destruct (pop_spec h1 k p l) as (->&Hwf2&Hok&Hfree&Hf2); [done|lia|done|]. cbn [mbind comp_bind unwrap].
    destruct (Z.eqb_spec p 0) as [->|Hp0]; [destruct Hok; lia|].
    eexists _, (Some p). split; [done|]. split; [by apply heap_wf_stats|]. split; [done|]. split.
    + intros x Hx. by apply Hf1, Hfree.
    + intros x. rewrite <- Hf1, <- Hf2. done.
  - exists h, None. split; [done|]. split; [done|]. split; [done|]. intros i Hi.
    destruct (decide (i < length (free_list h))%nat); [apply Hfind; lia|].
    unfold class_blocks. by rewrite lookup_ge_None_2 by lia.
Qed.

(** ** Deallocation *)

Lemma buddy_spec c p :
  block_ok c p → let b := Z.lxor p (2 ^ Z.of_nat c) in
  b ≠ p ∧ (2 ^ Z.of_nat (S c) | Z.min p b) ∧
  (∀ x, block_at (S c) (Z.min p b) x ↔ block_at c p x ∨ block_at c b x).
Proof.
  intros (_&[q ->]&_) b. pose proof (pow2_pos c) as Hpos.
  assert (b = Z.lxor q 1 * 2 ^ Z.of_nat c) as ->.
  { unfold b. rewrite <- (Z.mul_1_l (2 ^ Z.of_nat c)) at 2. rewrite <- !Z.shiftl_mul_pow2, Z.shiftl_lxor by lia. done. }
  assert (Z.lxor q 1 = q + 1 ∧ (2 | q) ∨ Z.lxor q 1 = q - 1 ∧ (2 | q - 1)) as Hq.
  { pose proof (Z.div2_odd q) as Hd. destruct (Z.odd q) eqn:Ho; simpl in Hd.
    - right. split; [|exists (Z.div2 q); lia].
      assert (q - 1 = 2 * Z.div2 q) as Hq1 by lia. apply Z.bits_inj'. intros n Hn. rewrite Z.lxor_spec, Hq1.
      destruct (decide (n = 0)) as [->|]; [by rewrite Z.bit0_odd, Ho, Z.testbit_even_0|].
      replace n with (Z.succ (n - 1)) by lia. rewrite Z.testbit_even_succ by lia. rewrite Hd at 1.
      rewrite Z.testbit_odd_succ by lia. change 1 with (2 * 0 + 1) at 2. rewrite Z.testbit_odd_succ, Z.bits_0 by lia.
      apply xorb_false_r.
    - left. split; [|exists (Z.div2 q); lia]. rewrite Z.add_0_r in Hd. rewrite Hd at 2.
      apply Z.bits_inj'. intros n Hn. rewrite Z.lxor_spec.
      destruct (decide (n = 0)) as [->|]; [by rewrite Z.bit0_odd, Ho, Z.testbit_odd_0|].
      replace n with (Z.succ (n - 1)) by lia. rewrite Z.testbit_odd_succ by lia. rewrite Hd at 1.
      rewrite Z.testbit_even_succ by lia. change 1 with (2 * 0 + 1) at 2. rewrite Z.testbit_odd_succ, Z.bits_0 by lia.
      apply xorb_false_r. }
  unfold block_at. rewrite Nat2Z.inj_succ, Z.pow_succ_r by lia. set (P := 2 ^ Z.of_nat c) in *.
  destruct Hq as [[-> [r Hr]]|[-> [r Hr]]].
  - rewrite Z.min_l by nia. split; [nia|]. split; [exists r; nia|]. intros x. nia.
  - rewrite Z.min_r by nia. split; [nia|]. split; [exists r; nia|]. intros x. nia.
Qed.

Lemma unlink_spec b l l' : unlink b l = Some l' → ∃ l1 l2, l = l1 ++ b :: l2 ∧ l' = l1 ++ l2.
Proof.
  revert l'. induction l as [|a l IH]; intros l'; simpl; [done|]. destruct (Z.eqb_spec a b) as [->|].
  - intros [= <-]. by exists [], l.
  - intros (k&Hk&->)%fmap_Some. apply IH in Hk as (l1&l2&->&->). by exists (a :: l1), l2.
Qed.

Lemma unlink_bounded_spec r b l l' r' :
  unlink_bounded r b l = (Some l', r') → ∃ l1 l2, l = l1 ++ b :: l2 ∧ l' = l1 ++ l2.
Proof.
  revert r l' r'. induction l as [|a l IH]; intros [|r] l' r'; cbn [unlink_bounded]; try done.
  destruct (Z.eqb_spec a b) as [->|].
  - intros [= <- <-]. by exists [], l.
  - destruct (unlink_bounded r b l) as [[k|] r1] eqn:Hu; simpl; [|done].
    intros [= <- <-]. destruct (IH _ _ _ Hu) as (l1&l2&->&->). by exists (a :: l1), l2.
Qed.

(** One merge: the current block heads its class and the buddy was unlinked. *)
Lemma merge_spec h c p l0 l1 l2 :
  let b := Z.lxor p (2 ^ Z.of_nat c) in
  heap_wf h → (S c < MAX_ORDER)%nat → class_blocks h c = p :: l0 → p :: l0 = l1 ++ b :: l2 →
  ∃ h2 h3, pop (set_class h c (l1 ++ l2)) c = Done (Some p, h2) ∧ push h2 (S c) (Z.min p b) = Done h3 ∧
    heap_wf h3 ∧ (∀ x, free_byte h3 x ↔ free_byte h x) ∧ ∃ l, class_blocks h3 (S c) = Z.min p b :: l.
Proof.
  intros b Hwf Hc Hcl Hl. assert (block_ok c p) as Hok by (eapply wf_blocks; [done|]; rewrite Hcl; left).
  destruct (buddy_spec c p Hok) as (Hbp&Hal&Hun). fold b in Hbp, Hal, Hun.
  destruct l1 as [|q l1]; simpl in Hl; injection Hl as Hq Hl0; [congruence|]. subst q l0. simpl.
  destruct (remove_block h c b (p :: l1 ++ l2)) as (Hwf1&Hbok&Hbfree&Hf1); [done|lia|by rewrite Hcl; solve_Permutation|].
  set (h1 := set_class h c _) in *.
  assert (class_blocks h1 c = p :: l1 ++ l2) as Hc1 by (apply class_set_eq; rewrite (wf_classes _ Hwf); lia).
  destruct (pop_spec h1 c p (l1 ++ l2)) as (->&Hwf2&_&Hpfree&Hf2); [done|lia|done|].
  set (h2 := set_class h1 c _) in *. exists h2.
  assert (block_ok (S c) (Z.min p b)) as Hmok.
  { destruct Hok as (?&_&Hle), Hbok as (?&_&Hble). split; [lia|]. split; [done|].
    pose proof (proj1 (Hun (Z.min p b + 2 ^ Z.of_nat (S c) - 1))) as Hx. unfold block_at in Hx.
    pose proof (pow2_pos (S c)). lia. }
  destruct (push_spec h2 (S c) (Z.min p b)) as (h3&Hpush&Heq&Hwf3&Hf3); [done|done|done| |].
  { intros x [Hx|Hx]%Hun [[_ Hnb]%Hf1 Hnp]%Hf2; done. }
  exists h3. split; [done|]. split; [done|]. split; [done|]. split.
  - intros x. rewrite Hf3, Hf2, Hun, Hf1. pose proof (Hbfree x). pose proof (Hpfree x) as Hpx. rewrite Hf1 in Hpx.
    destruct (decide (block_at c p x)); [tauto|]. destruct (decide (block_at c b x)); tauto.
  - eexists. rewrite Heq. apply class_set_eq. rewrite (wf_classes _ Hwf2). lia.
Qed.

Lemma merge_buddies_spec n h p c l :
  heap_wf h → (c + n < MAX_ORDER)%nat → class_blocks h c = p :: l →
  ∃ h', merge_buddies n h p c = Done h' ∧ heap_wf h' ∧ ∀ x, free_byte h' x ↔ free_byte h x.
Proof.
  revert h p c l. induction n as [|n IH]; intros h p c l Hwf Hlt Hc; cbn [merge_buddies]; [by exists h|].
  fold (class_blocks h c). rewrite Hc. destruct (unlink _ _) as [l'|] eqn:Hu; [|by exists h].
  apply unlink_spec in Hu as (l1&l2&Hl&->).
  destruct (merge_spec h c p l l1 l2) as (h2&h3&Hpop&Hpush&Hwf3&Hf&lm&Hm); [done|lia|done|done|].
  unfold merge_into. rewrite Hpop. cbn [mbind comp_bind]. rewrite Hpush. cbn [mbind comp_bind].
  destruct (IH h3 (Z.min p (Z.lxor p (2 ^ Z.of_nat c))) (S c) lm) as (h'&->&?&Hf'); [done|lia|done|].
  exists h'. split; [done|]. split; [done|]. intros x. by rewrite Hf', Hf.
Qed.

Lemma bounded_merge_loop_spec n h r p c l :
  heap_wf h → (c + n < MAX_ORDER)%nat → class_blocks h c = p :: l →
  ∃ h', bounded_merge_loop n h r p c = Done h' ∧ heap_wf h' ∧ ∀ x, free_byte h' x ↔ free_byte h x.
Proof.
  revert h r p c l. induction n as [|n IH]; intros h r p c l Hwf Hlt Hc; cbn [bounded_merge_loop]; [by exists h|].
  destruct (_ =? _)%nat; [by exists h|]. fold (class_blocks h c). rewrite Hc.
  destruct (unlink_bounded _ _ _) as [[l'|] r'] eqn:Hu; [|by exists h].
  apply unlink_bounded_spec in Hu as (l1&l2&Hl&->).
  destruct (merge_spec h c p l l1 l2) as (h2&h3&Hpop&Hpush&Hwf3&Hf&lm&Hm); [done|lia|done|done|].
  rewrite Hpop. cbn [mbind comp_bind unwrap]. rewrite Hpush. cbn [mbind comp_bind].
  destruct (IH h3 r' (Z.min p (Z.lxor p (2 ^ Z.of_nat c))) (S c) lm) as (h'&->&?&Hf'); [done|lia|done|].
  exists h'. split; [done|]. split; [done|]. intros x. by rewrite Hf', Hf.
Qed.

Lemma heap_dealloc_spec h p size align k limit :
  heap_wf h → block_size size align = 2 ^ Z.of_nat k → (k < MAX_ORDER)%nat → block_ok k p →
  (∀ x, block_at k p x → ¬ free_byte h x) →
  ∃ h', heap_dealloc h p size align limit = Done h' ∧ heap_wf h' ∧
    ∀ x, free_byte h' x ↔ free_byte h x ∨ block_at k p x.
Proof.
  intros Hwf Hk Hlt Hok Hnew. unfold heap_dealloc. rewrite Hk, trailing_zeros_pow2.
  destruct (push_spec h k p) as (h1&->&Heq&Hwf1&Hf1); [done..|]. cbn [mbind comp_bind].
  assert (class_blocks h1 k = p :: class_blocks h k) as Hc.
  { rewrite Heq. apply class_set_eq. by rewrite (wf_classes _ Hwf). }
  rewrite (wf_classes _ Hwf1).
  assert (∃ h2, (match limit with
    | None => merge_buddies (MAX_ORDER - 1 - k) h1 p k
    | Some r => bounded_merge_loop (MAX_ORDER - 1 - k) h1 r p k end) = Done h2 ∧ heap_wf h2 ∧
    ∀ x, free_byte h2 x ↔ free_byte h1 x) as (h2&->&Hwf2&Hf2).
  { destruct limit; [eapply bounded_merge_loop_spec|eapply merge_buddies_spec]; try done; lia. }
  eexists. split; [done|]. split; [by apply heap_wf_stats|]. intros x. rewrite <- Hf1, <- Hf2. done.
Qed.

(** ** Filling the heap *)

Lemma odd_part x : 0 < x → ∃ (k : nat) q, 0 ≤ q ∧ x = (2 * q + 1) * 2 ^ Z.of_nat k.
Proof.
  intros Hx. destruct x as [|p|]; [lia| |lia]. clear Hx. induction p as [p _|p (k&q&Hq&IH)|].
  - exists 0%nat, (Z.pos p). simpl. lia.
  - exists (S k), q. split; [done|]. rewrite Nat2Z.inj_succ, Z.pow_succ_r by lia. lia.
  - exists 0%nat, 0. done.
Qed.

Lemma land_neg x : 0 < x → ∃ k, Z.land x (- x) = 2 ^ Z.of_nat k ∧ (2 ^ Z.of_nat k | x) ∧
  ∀ j, (2 ^ Z.of_nat j | x) → (j ≤ k)%nat.
Proof.
  intros Hx. destruct (odd_part x Hx) as (k&q&Hq&Heq). exists k. split; [|split].
  - rewrite Heq. replace (- ((2 * q + 1) * 2 ^ Z.of_nat k)) with ((2 * (- q - 1) + 1) * 2 ^ Z.of_nat k) by lia.
    rewrite <- !Z.shiftl_mul_pow2, <- Z.shiftl_land by lia.
    assert (Z.land (2 * q + 1) (2 * (- q - 1) + 1) = 1) as ->; [|by rewrite Z.shiftl_1_l].
    apply Z.bits_inj'. intros n Hn. rewrite Z.land_spec. destruct (decide (n = 0)) as [->|].
    + by rewrite !Z.testbit_odd_0.
    + replace n with (Z.succ (n - 1)) by lia. rewrite !Z.testbit_odd_succ by lia.
      change 1 with (2 * 0 + 1) at 4. rewrite Z.testbit_odd_succ, Z.bits_0 by lia.
      replace (- q - 1) with (Z.lnot q) by (unfold Z.lnot; lia). rewrite Z.lnot_spec by lia. apply andb_negb_r.
  - by exists (2 * q + 1).
  - intros j [r Hr]. destruct (decide (j ≤ k)%nat); [done|exfalso].
    rewrite Heq in Hr. replace (Z.of_nat j) with (Z.of_nat (j - k - 1) + 1 + Z.of_nat k) in Hr by lia.
    rewrite !Z.pow_add_r in Hr by lia. pose proof (pow2_pos k). change (2 ^ 1) with 2 in Hr.
    assert (2 * q + 1 = r * 2 ^ Z.of_nat (j - k - 1) * 2) by nia. lia.
Qed.

Lemma lowbit_spec x : 0 < x < 2 ^ 64 → ∃ k, lowbit x = 2 ^ Z.of_nat k ∧ (2 ^ Z.of_nat k | x) ∧
  ∀ j, (2 ^ Z.of_nat j | x) → (j ≤ k)%nat.
Proof.
  intros Hx. destruct (land_neg x) as (k&Hk&Hrest); [lia|]. exists k. split; [|done]. rewrite <- Hk.
  unfold lowbit.
  assert (wrap64 (wrap64 (Z.lnot x) + 1) = (- x) mod 2 ^ 64) as ->.
  { unfold wrap64, Z.lnot. change 18446744073709551616 with (2 ^ 64).
    rewrite Z.add_mod_idemp_l by lia. f_equal. lia. }
  rewrite <- Z.land_ones by lia. rewrite (Z.land_comm (- x)), Z.land_assoc, Z.land_ones, (Z.mod_small x) by lia. done.
Qed.

(** Rounding down to 8 bytes. *)
Lemma land_align8 x : 0 ≤ x < 2 ^ 64 → Z.land x (wrap64 (-8)) = 8 * (x / 8).
Proof.
  intros Hx. change (wrap64 (-8)) with (Z.shiftl (Z.ones 61) 3).
  change 8 with (2 ^ 3). rewrite Z.mul_comm, <- Z.shiftr_div_pow2, <- Z.shiftl_mul_pow2 by lia.
  apply Z.bits_inj'. intros n Hn. rewrite Z.land_spec. destruct (decide (n < 3)).
  { rewrite !Z.shiftl_spec_low by lia. apply andb_false_r. }
  rewrite !Z.shiftl_spec, Z.shiftr_spec by lia. replace (n - 3 + 3) with n by lia.
  destruct (decide (n < 64)); [by rewrite Z.ones_spec_low, andb_true_r by lia|].
  rewrite Z.ones_spec_high, andb_false_r by lia. rewrite <- (Z.mod_small x (2 ^ 64)) by lia.
  by rewrite Z.mod_pow2_bits_high by lia.
Qed.

Section add_to_heap.
Context (h0 : Heap) (start end_ : Z).
Context (Hwf0 : heap_wf h0) (Hs : 0 < start) (He : end_ < 2 ^ 64 - 8).
Context (Hsize : end_ - start < 2 ^ 35) (Hs8 : (8 | start)) (He8 : (8 | end_)).
Context (Hnew : ∀ x, start ≤ x < end_ → ¬ free_byte h0 x).

Definition filled (h : Heap) (cur : Z) : Prop :=
  heap_wf h ∧ start ≤ cur ≤ end_ ∧ (8 | cur) ∧ ∀ x, free_byte h x ↔ free_byte h0 x ∨ start ≤ x < cur.

(** The block the loop cuts off at [cur]. *)
Lemma next_block cur :
  start ≤ cur → cur + 8 ≤ end_ → (8 | cur) →
  ∃ k, Z.min (lowbit cur) (prev_power_of_two (end_ - cur)) = 2 ^ Z.of_nat k ∧ (k < MAX_ORDER)%nat ∧
    block_ok k cur ∧ cur + 2 ^ Z.of_nat k ≤ end_ ∧ (8 | 2 ^ Z.of_nat k).
Proof.
  intros Hcs Hce Hc8. destruct (lowbit_spec cur) as (a&->&Ha&Hmax); [lia|]. pose proof (Hmax 3%nat Hc8) as Ha3.
  unfold prev_power_of_two. pose proof (Z.log2_spec (end_ - cur) ltac:(lia)) as [Hlo _].
  pose proof (Z.log2_le_mono 8 (end_ - cur) ltac:(lia)) as Hl3. change (Z.log2 8) with 3 in Hl3.
  set (b := Z.log2 (end_ - cur)) in *. clearbody b.
  assert (∃ k, Z.min (2 ^ Z.of_nat a) (2 ^ b) = 2 ^ Z.of_nat k ∧ (3 ≤ k ≤ a)%nat ∧ Z.of_nat k ≤ b) as (k&->&Hka&Hkb).
  { destruct (decide (Z.of_nat a ≤ b)).
    - exists a. rewrite Z.min_l by (apply Z.pow_le_mono_r; lia). lia.
    - exists (Z.to_nat b). rewrite Z.min_r by (apply Z.pow_le_mono_r; lia). rewrite Z2Nat.id by lia. lia. }
  assert (2 ^ Z.of_nat k ≤ end_ - cur) as Hfit by (etransitivity; [|done]; apply Z.pow_le_mono_r; lia).
  exists k. split; [done|]. split; [|split; [|split; [lia|]]].
  - apply Nat2Z.inj_lt. apply (Z.pow_lt_mono_r_iff 2); [lia|unfold MAX_ORDER; lia|].
    change (2 ^ Z.of_nat MAX_ORDER) with (2 ^ 35). lia.
  - split; [lia|]. split; [|lia]. etransitivity; [|done]. exists (2 ^ Z.of_nat (a - k)).
    rewrite <- Z.pow_add_r by lia. f_equal. lia.
  - exists (2 ^ Z.of_nat (k - 3)). change 8 with (2 ^ 3). rewrite <- Z.pow_add_r by lia. f_equal. lia.
Qed.

Lemma add_step_spec h cur t :
  filled h cur →
  match add_step end_ (h, cur, t) with
  | inl (h', cur', _) => filled h' cur' ∧ 0 ≤ end_ - cur' < end_ - cur
  | inr r => ∃ h' t', r = Done (h', t') ∧ filled h' end_
  end.
Proof.
  intros (Hwf&Hc&Hc8&Hf). unfold add_step.
  rewrite (wrap64_small (cur + 8)) by (unfold is_usize, usize_max; lia).
  destruct (Z.leb_spec (cur + 8) end_) as [Hle|Hgt].
  - destruct (next_block cur) as (k&->&Hk&Hok&Hfit&Hk8); [lia|done|done|]. rewrite trailing_zeros_pow2.
    pose proof (pow2_pos k). destruct (push_spec h k cur) as (h'&->&_&Hwf'&Hf'); [done|done|done| |].
    { intros x Hx [Hx0|Hx0]%Hf; [eapply (Hnew x); [|done]|]; unfold block_at in Hx; lia. }
    rewrite wrap64_small by (unfold is_usize, usize_max; lia). split; [|lia].
    split; [done|]. split; [lia|]. split; [by apply Z.divide_add_r|]. intros x. rewrite Hf', Hf. unfold block_at.
    destruct (decide (x < cur)); intuition lia.
  - assert (cur = end_) as -> by (destruct Hc8 as [u ->], He8 as [v Hv]; lia). by exists h, t.
Qed.

Lemma add_to_heap_spec :
  start ≤ end_ →
  ∃ h, add_to_heap h0 start end_ = Done h ∧ heap_wf h ∧
    ∀ x, free_byte h x ↔ free_byte h0 x ∨ start ≤ x < end_.
Proof.
  intros Hse. unfold add_to_heap.
  rewrite (wrap64_small (start + 8 - 1)) by (unfold is_usize, usize_max; lia).
  rewrite !land_align8 by lia.
  assert (8 * ((start + 8 - 1) / 8) = start) as ->.
  { destruct Hs8 as [u ->]. replace (u * 8 + 8 - 1) with (u * 8 + 7) by lia.
    rewrite Z.div_add_l, (Z.div_small 7) by lia. lia. }
  assert (8 * (end_ / 8) = end_) as -> by (destruct He8 as [v ->]; rewrite Z.div_mul by lia; lia).
  rewrite (proj2 (Z.leb_le start end_)) by done. cbn [assert_that mbind comp_bind].
  destruct (run2_done (add_step end_) (λ s, filled s.1.1 s.1.2)
    (λ r, ∃ h' t', r = Done (h', t') ∧ filled h' end_) (λ s, end_ - s.1.2)) with (n := 64%nat) (s := (h0, start, 0))
    as (r&->&h'&t'&->&Hwf'&_&_&Hf').
  - intros [[h cur] t] [[h' cur'] t'] Hi Hst. pose proof (add_step_spec h cur t Hi) as H. rewrite Hst in H. done.
  - intros [[h cur] t] r Hi Hst. pose proof (add_step_spec h cur t Hi) as H. rewrite Hst in H. done.
  - split; [done|]. split; [simpl; lia|]. split; [done|]. intros x. simpl. split; [by left|]. intros [?|?]; [done|lia].
  - simpl. lia.
  - cbn [mbind comp_bind]. eexists. split; [done|]. split; [by apply heap_wf_stats|]. exact Hf'.
Qed.
End add_to_heap.

Lemma heap_new_wf : heap_wf heap_new ∧ ∀ x, ¬ free_byte heap_new x.
Proof.
  assert (∀ i, class_blocks heap_new i = []) as Hc.
  { intros i. unfold class_blocks, heap_new. cbn [free_list].
    destruct (replicate MAX_ORDER [] !! i) eqn:Hl; [|done]. apply lookup_replicate in Hl as [-> _]. done. }
  split; [split|].
  - done.
  - intros i b. rewrite Hc. by intros ?%elem_of_nil.
  - intros i. rewrite Hc. constructor.
  - intros i b j c x. rewrite Hc. by intros ?%elem_of_nil.
  - intros x (i&b&Hb&_). rewrite Hc in Hb. by apply elem_of_nil in Hb.
Qed.

(** ** Frames *)

(** The kernel address of frame [f], and its bytes. *)
Definition frame_addr (f : Z) : Z := KERNEL_ADDR_OFFSET + f * PAGE_SIZE.
Definition frame_at (f x : Z) : Prop := frame_addr f ≤ x < frame_addr f + PAGE_SIZE.
(** The frames of the direct map. *)
Definition frame_ok (f : Z) : Prop := 0 ≤ f < 2 ^ 26.
(** The heap holds only bytes of the direct map. *)
Definition heap_kernel (h : Heap) : Prop := ∀ x, free_byte h x → KERNEL_ADDR_OFFSET ≤ x.

#[export] Instance frame_at_dec f x : Decision (frame_at f x).
Proof. unfold frame_at. apply _. Defined.

Lemma frame_at_inj f g x : frame_at f x → frame_at g x → f = g.
Proof. unfold frame_at, frame_addr, PAGE_SIZE. lia. Qed.

Lemma frame_at_start f : frame_at f (frame_addr f).
Proof. unfold frame_at, PAGE_SIZE. lia. Qed.

Lemma frame_block f : frame_ok f → block_ok 12 (frame_addr f) ∧ ∀ x, block_at 12 (frame_addr f) x ↔ frame_at f x.
Proof.
  unfold frame_ok, block_ok, block_at, frame_at, frame_addr, KERNEL_ADDR_OFFSET, PAGE_SIZE. intros Hf.
  change (2 ^ Z.of_nat 12) with 4096. split; [|done]. split; [lia|]. split; [|lia].
  exists (4503599560261632 + f). lia.
Qed.

(** A page-sized block of the direct map is a frame. *)
Lemma block_frame h p :
  heap_kernel h → block_ok 12 p → (∀ x, block_at 12 p x → free_byte h x) →
  ∃ f, frame_ok f ∧ p = frame_addr f ∧ phys_addr_from_kernel p = f * PAGE_SIZE.
Proof.
  intros Hk (Hp&[q Hq]&Hle) Hfree. change (2 ^ Z.of_nat 12) with 4096 in *.
  pose proof (Hk p (Hfree p (block_start 12 p))) as Hlow. unfold KERNEL_ADDR_OFFSET in Hlow.
  exists (q - 4503599560261632). unfold frame_ok, frame_addr, phys_addr_from_kernel, KERNEL_ADDR_OFFSET, PAGE_SIZE.
  split; [lia|]. split; [lia|]. rewrite wrap64_small by (unfold is_usize, usize_max; lia). lia.
Qed.

Lemma page_block_size : block_size PAGE_SIZE PAGE_SIZE = 2 ^ Z.of_nat 12.
Proof. reflexivity. Qed.

Lemma frame_page_num f : frame_ok f → page_num_from_addr (f * PAGE_SIZE) = Done f.
Proof.
  intros Hf. unfold page_num_from_addr. rewrite page_offset_mod, Z.mod_mul by done. simpl.
  unfold mret, comp_ret, floor. by rewrite Z.div_mul.
Qed.

Lemma cma_alloc_page h :
  heap_wf h → heap_kernel h →
  ∃ h' r, cma_alloc h 1 = Done (h', r) ∧ heap_wf h' ∧ heap_kernel h' ∧
    match r with
    | Some pa => ∃ f, frame_ok f ∧ pa = f * PAGE_SIZE ∧ (∀ x, frame_at f x → free_byte h x) ∧
        (∀ x, free_byte h' x ↔ free_byte h x ∧ ¬ frame_at f x)
    | None => h' = h
    end.
Proof.
  intros Hwf Hk. unfold cma_alloc, cma_alloc_aligned. change ((1 =? 0) || (1 =? 0)) with false.
  change (checked_mul 1 PAGE_SIZE) with (Some PAGE_SIZE). change (layout_ok PAGE_SIZE PAGE_SIZE) with true. cbn [negb].
  destruct (heap_alloc_spec h PAGE_SIZE PAGE_SIZE 12) as (h'&[p|]&->&Hwf'&Hr); [done|apply page_block_size| |].
  - destruct Hr as (Hok&Hfree&Hf'). destruct (block_frame h p) as (f&Hfok&->&Hpa); [done..|].
    destruct (frame_block f Hfok) as [_ Hat]. cbn [mbind comp_bind].
    assert (frame_addr f mod PAGE_SIZE = 0) as ->.
    { unfold frame_addr. rewrite Z.mod_add by done. reflexivity. }
    cbn. rewrite Hpa. eexists _, _. split; [done|]. split; [done|]. split.
    { intros x [Hx _]%Hf'. by apply Hk. }
    exists f. split; [done|]. split; [done|]. split; intros x; [rewrite <- Hat; apply Hfree|rewrite <- Hat; apply Hf'].
  - destruct Hr as [-> _]. cbn. eexists _, None. done.
Qed.

Lemma cma_dealloc_page h f :
  heap_wf h → heap_kernel h → frame_ok f → (∀ x, frame_at f x → ¬ free_byte h x) →
  ∃ h', cma_dealloc h (addr_from_page_num f) 1 = Done h' ∧ heap_wf h' ∧ heap_kernel h' ∧
    ∀ x, free_byte h' x ↔ free_byte h x ∨ frame_at f x.
Proof.
  intros Hwf Hk Hf Hnew. destruct (frame_block f Hf) as [Hok Hat]. unfold frame_ok in Hf.
  unfold cma_dealloc, cma_dealloc_aligned. rewrite addr_from_page_num_small by lia.
  change (checked_mul 1 PAGE_SIZE) with (Some PAGE_SIZE). change (layout_ok PAGE_SIZE PAGE_SIZE) with true.
  rewrite Z.mod_mul by done. cbn [assert_that unwrap mbind comp_bind Z.ltb Z.compare Z.eqb Pos.eqb].
  assert (kernel_addr_from_phys (f * PAGE_SIZE) = frame_addr f) as ->.
  { unfold kernel_addr_from_phys, frame_addr, KERNEL_ADDR_OFFSET, PAGE_SIZE.
    rewrite wrap64_small; [lia|]. unfold is_usize, usize_max. lia. }
  destruct (Z.eqb_spec (frame_addr f) 0) as [H0|_]; [destruct Hok; lia|]. cbn [negb assert_that mbind comp_bind].
  destruct (heap_dealloc_spec h (frame_addr f) PAGE_SIZE PAGE_SIZE 12 (Some CMA_PAGE_BUDDY_SCAN_LIMIT))
    as (h'&->&Hwf'&Hf'); [done|apply page_block_size|unfold MAX_ORDER; lia|done|by intros x ?%Hat; apply Hnew|].
  exists h'. split; [done|]. split; [done|]. split.
  - intros x [Hx|Hx]%Hf'; [by apply Hk|]. rewrite Hat in Hx. unfold frame_at, frame_addr, PAGE_SIZE in Hx. lia.
  - intros x. by rewrite Hf', Hat.
Qed.

(** ** The cache *)

(** A byte no one owns: in the heap or in a cached frame. *)
Definition free_any (s : Frames) (x : Z) : Prop :=
  free_byte (heap s) x ∨ ∃ f, f ∈ pc_list (cache s) ∧ frame_at f x.

Record frames_ok (s : Frames) : Prop := {
  fr_heap : heap_wf (heap s);
  fr_kernel : heap_kernel (heap s);
  fr_nodup : NoDup (pc_list (cache s));
  fr_frames f : f ∈ pc_list (cache s) → frame_ok f;
  fr_disjoint f x : f ∈ pc_list (cache s) → frame_at f x → ¬ free_byte (heap s) x;
  fr_batch : 0 < refill_batch (cache s)
}.

Lemma refill_spec n s :
  frames_ok s →
  ∃ s' b, refill n s = Done (s', b) ∧ frames_ok s' ∧ (∀ x, free_any s' x ↔ free_any s x) ∧
    (b = true → length (pc_list (cache s')) = (length (pc_list (cache s)) + n)%nat).
Proof.
  revert s. induction n as [|n IH]; intros s Hs; cbn [refill].
  { eexists _, true. split; [done|]. split; [done|]. split; [done|]. lia. }
  destruct (cma_alloc_page (heap s)) as (h'&r&->&Hwf'&Hk'&Hr); [apply Hs..|]. cbn [mbind comp_bind].
  destruct r as [pa|].
  - destruct Hr as (f&Hf&->&Hfree&Hf'). rewrite frame_page_num by done. cbn [mbind comp_bind].
    set (s1 := mkFrames _ h'). assert (frames_ok s1) as Hs1.
    { split; simpl; [done|done| | | |apply Hs].
      - apply NoDup_cons. split; [|apply Hs]. intros Hin.
        apply (fr_disjoint s Hs f (frame_addr f) Hin (frame_at_start f)). apply Hfree, frame_at_start.
      - intros g [->|Hg]%elem_of_cons; [done|by apply Hs].
      - intros g x [->|Hg]%elem_of_cons Hx [Hfx Hn]%Hf'; [done|]. by eapply (fr_disjoint s Hs g). }
    destruct (IH s1 Hs1) as (s'&b&->&Hs'&Hany&Hlen). exists s', b. split; [done|]. split; [done|]. split.
    + intros x. rewrite Hany. unfold free_any. simpl. rewrite Hf'. setoid_rewrite elem_of_cons.
      pose proof (Hfree x). destruct (decide (frame_at f x)); naive_solver.
    + intros Hb. rewrite (Hlen Hb). simpl. lia.
  - subst h'. eexists _, false. split; [done|]. destruct s as [pc h]. done.
Qed.

(** Taking the last cached frame. *)
Lemma cache_pop_ok s f l count a :
  frames_ok s → pc_list (cache s) = f :: l →
  let pc := with_list (cache s) l count in
  let s' := mkFrames (mkCache (pc_list pc) (pc_count pc) a (pc_deallocated pc) (high_watermark pc)
              (low_watermark pc) (refill_batch pc) (flush_batch pc)) (heap s) in
  frames_ok s' ∧ frame_ok f ∧ (∀ x, frame_at f x → free_any s x) ∧
  (∀ x, free_any s' x ↔ free_any s x ∧ ¬ frame_at f x).
Proof.
  intros Hs Hl pc s'. pose proof (fr_nodup _ Hs) as Hnd. rewrite Hl in Hnd. apply NoDup_cons in Hnd as [Hfl Hnd].
  assert (∀ g, g ∈ l → g ∈ pc_list (cache s)) as Hsub by (intros; rewrite Hl; by right).
  assert (f ∈ pc_list (cache s)) as Hf by (rewrite Hl; left).
  split; [|split; [by apply Hs|split]].
  - split; simpl; try apply Hs; [done| |].
    + intros g Hg. by apply Hs, Hsub.
    + intros g x Hg. by apply (fr_disjoint _ Hs), Hsub.
  - intros x Hx. right. by exists f.
  - intros x. unfold free_any. simpl. rewrite Hl. setoid_rewrite elem_of_cons. split.
    + intros [Hx|(g&Hg&Hx)].
      * split; [by left|]. intros Hfx. by eapply (fr_disjoint _ Hs f x).
      * split; [right; eauto|]. intros Hfx. destruct Hfl. by rewrite (frame_at_inj f g x).
    + intros [[Hx|(g&[->|Hg]&Hx)] Hn]; [by left|done|right; eauto].
Qed.

Lemma cache_alloc_spec s :
  frames_ok s →
  ∃ s' r, cache_alloc s = Some (Done (s', r)) ∧ frames_ok s' ∧
    match r with
    | Some f => frame_ok f ∧ (∀ x, frame_at f x → free_any s x) ∧ (∀ x, free_any s' x ↔ free_any s x ∧ ¬ frame_at f x)
    | None => ∀ x, free_any s' x ↔ free_any s x
    end.
Proof.
  intros Hs. unfold cache_alloc. cbn [cache_alloc_loop]. destruct (pc_list (cache s)) as [|f l] eqn:Hl.
  - destruct (refill_spec (Z.to_nat (refill_batch (cache s))) s Hs) as (s1&[]&->&Hs1&Hany&Hlen).
    + set (s2 := mkFrames (with_list (cache s1) _ _) (heap s1)).
      assert (frames_ok s2) as Hs2 by (destruct Hs1; by split).
      assert (∀ x, free_any s2 x ↔ free_any s x) as Hany2 by exact Hany.
      change (pc_list (with_list (cache s1) (pc_list (cache s1)) _)) with (pc_list (cache s2)).
      destruct (pc_list (cache s2)) as [|f l] eqn:Hl2.
      { specialize (Hlen eq_refl). rewrite Hl in Hlen. change (pc_list (cache s1)) with (pc_list (cache s2)) in Hlen.
        rewrite Hl2 in Hlen. pose proof (fr_batch _ Hs). simpl in Hlen. lia. }
      destruct (cache_pop_ok s2 f l (pc_count (cache s2) - 1)
        (wrap64 (pc_allocated (with_list (cache s2) l (pc_count (cache s2) - 1)) + 1)) Hs2 Hl2) as (?&?&Hfree&Hrest).
      eexists _, (Some f). split; [reflexivity|]. split; [done|]. split; [done|].
      split; [intros x Hx; by apply Hany2, Hfree|]. intros x. by rewrite Hrest, Hany2.
    + eexists _, None. done.
  - destruct (cache_pop_ok s f l (pc_count (cache s) - 1)
      (wrap64 (pc_allocated (with_list (cache s) l (pc_count (cache s) - 1)) + 1)) Hs Hl) as (?&?&?&?).
    eexists _, (Some f). split; [reflexivity|]. done.
Qed.

Lemma flush_pages_spec l h :
  heap_wf h → heap_kernel h → NoDup l → (∀ f, f ∈ l → frame_ok f) →
  (∀ f x, f ∈ l → frame_at f x → ¬ free_byte h x) →
  ∃ h', flush_pages h l = Done h' ∧ heap_wf h' ∧ heap_kernel h' ∧
    ∀ x, free_byte h' x ↔ free_byte h x ∨ ∃ f, f ∈ l ∧ frame_at f x.
Proof.
  revert h. induction l as [|f l IH]; intros h Hwf Hk Hnd Hok Hdis; cbn [flush_pages].
  { exists h. do 3 (split; [done|]). setoid_rewrite elem_of_nil. naive_solver. }
  apply NoDup_cons in Hnd as [Hfl Hnd].
  destruct (cma_dealloc_page h f) as (h1&->&Hwf1&Hk1&Hf1); [done|done|apply Hok; left|intros x; apply Hdis; left|].
  cbn [mbind comp_bind]. destruct (IH h1) as (h'&->&Hwf'&Hk'&Hf'); [done|done|done| | |].
  - intros g Hg. apply Hok. by right.
  - intros g x Hg Hx [Hx1|Hx1]%Hf1; [eapply Hdis; [by right|done|done]|].
    apply Hfl. by rewrite (frame_at_inj f g x).
  - exists h'. do 3 (split; [done|]). intros x. rewrite Hf', Hf1. setoid_rewrite elem_of_cons. naive_solver.
Qed.

Lemma cache_dealloc_spec s f :
  frames_ok s → frame_ok f → (∀ x, frame_at f x → ¬ free_any s x) →
  ∃ s', cache_dealloc s f = Done s' ∧ frames_ok s' ∧ ∀ x, free_any s' x ↔ free_any s x ∨ frame_at f x.
Proof.
  intros Hs Hf Hused. set (list := f :: pc_list (cache s)).
  assert (NoDup list) as Hnd.
  { apply NoDup_cons. split; [|apply Hs]. intros Hin. apply (Hused (frame_addr f) (frame_at_start f)).
    right. exists f. split; [done|apply frame_at_start]. }
  assert (∀ g, g ∈ list → frame_ok g) as Hok by (intros g [->|Hg]%elem_of_cons; [done|by apply Hs]).
  assert (∀ g x, g ∈ list → frame_at g x → ¬ free_byte (heap s) x) as Hdis.
  { intros g x [->|Hg]%elem_of_cons Hx Hfx; [eapply Hused; [done|by left]|]. by eapply (fr_disjoint _ Hs g). }
  assert (∀ x, (free_byte (heap s) x ∨ ∃ g, g ∈ list ∧ frame_at g x) ↔ free_any s x ∨ frame_at f x) as Hany.
  { intros x. unfold free_any, list. setoid_rewrite elem_of_cons. naive_solver. }
  unfold cache_dealloc. fold list. cbn [high_watermark low_watermark flush_batch pc_list].
  destruct (_ <=? _); [destruct (_ <=? _)|].
  - eexists. split; [done|]. split; [|exact Hany]. split; simpl; try done; apply Hs.
  - set (n := Z.to_nat _). pose proof Hnd as Hnd'. rewrite <- (take_drop n list) in Hnd'.
    apply NoDup_app in Hnd' as (Hnt&Hntd&Hndr).
    assert (∀ g, g ∈ list ↔ g ∈ take n list ∨ g ∈ drop n list) as Hsplit.
    { intros g. rewrite <- elem_of_app. by rewrite take_drop. }
    destruct (flush_pages_spec (take n list) (heap s)) as (h'&->&Hwf'&Hk'&Hf'); [apply Hs..|done| | |].
    { intros g Hg. apply Hok, Hsplit. by left. }
    { intros g x Hg. apply Hdis, Hsplit. by left. }
    cbn [mbind comp_bind]. eexists. split; [done|]. split; [split; simpl; [done|done|done| | |apply Hs]|].
    + intros g Hg. apply Hok, Hsplit. by right.
    + intros g x Hg Hx [Hx1|(g'&Hg'&Hx1)]%Hf'; [eapply Hdis; [apply Hsplit; by right|done|done]|].
      apply (Hntd g'); [done|]. by rewrite (frame_at_inj g' g x).
    + intros x. rewrite <- Hany. unfold free_any. simpl. rewrite Hf'. setoid_rewrite Hsplit. naive_solver.
  - eexists. split; [done|]. split; [|exact Hany]. split; simpl; try done; apply Hs.
Qed.

(** ** The frame source the page tables use *)

(** The allocator discharges the interface.  A failed allocation may move free
    frames from the heap to the cache; the frames stay free, and the interface
    keeps the old state. *)
Definition frames_alloc (s : Frames) : option (Z * Frames) :=
  match cache_alloc s with Some (Done (s', Some f)) => Some (f, s') | _ => None end.

#[export, refine] Instance frames_source : FrameSource Frames := {
  fs_ok := frames_ok;
  fs_free s f := frame_ok f ∧ ∀ x, frame_at f x → free_any s x;
  fs_alloc := frames_alloc
}.
Proof.
  intros s f s' Hs. unfold frames_alloc.
  destruct (cache_alloc_spec s Hs) as (s1&r&->&Hs1&Hr). destruct r as [g|]; [|done].
  intros [= -> ->]. destruct Hr as (Hok&Hfree&Hany). split; [done|]. split; [done|]. split; [|split].
  - intros [_ Hf]. destruct (proj1 (Hany (frame_addr f)) (Hf _ (frame_at_start f))) as [_ Hn].
    apply Hn, frame_at_start.
  - intros g [Hgok Hg]. split; [done|]. intros x Hx. by apply Hany, Hg.
  - unfold frame_ok in Hok. lia.
Defined.

(** ** Sequences of allocations and releases *)

(** The second component lists the frames that are in use. *)
Inductive frames_step : Frames * list Z → Frames * list Z → Prop :=
| step_alloc s s' f live :
    cache_alloc s = Some (Done (s', Some f)) → frames_step (s, live) (s', f :: live)
| step_oom s s' live : cache_alloc s = Some (Done (s', None)) → frames_step (s, live) (s', live)
| step_free s s' f l1 l2 : cache_dealloc s f = Done s' → frames_step (s, l1 ++ f :: l2) (s', l1 ++ l2)
| step_configure s pc live high low refill flush :
    configure (cache s) high low refill flush = Ok pc → 0 ≤ refill →
    frames_step (s, live) (mkFrames pc (heap s), live).

Definition live_byte (live : list Z) (x : Z) : Prop := ∃ f, f ∈ live ∧ frame_at f x.

(** [P] is the memory that was given to the allocator. *)
Record frames_inv (P : Z → Prop) (s : Frames) (live : list Z) : Prop := {
  inv_ok : frames_ok s;
  inv_nodup : NoDup live;
  inv_live f : f ∈ live → frame_ok f;
  inv_disjoint x : live_byte live x → ¬ free_any s x;
  inv_conserve x : P x ↔ free_any s x ∨ live_byte live x
}.

Lemma live_byte_app l1 f l2 x : live_byte (l1 ++ f :: l2) x ↔ live_byte (l1 ++ l2) x ∨ frame_at f x.
Proof. unfold live_byte. setoid_rewrite elem_of_app. setoid_rewrite elem_of_cons. naive_solver. Qed.

Lemma frames_inv_step P a b : frames_inv P a.1 a.2 → frames_step a b → frames_inv P b.1 b.2.
Proof.
  intros [Hok Hnd Hlive Hdis Hcons] Hst. destruct Hst as [s s' f live Ha|s s' live Ha|s s' f l1 l2 Hd|s pc live hi lo re fl Hc Hre]; simpl in *.
  - destruct (cache_alloc_spec s Hok) as (s1&r&Heq&Hs1&Hr). rewrite Ha in Heq. injection Heq as <- <-.
    destruct Hr as (Hf&Hfree&Hany). pose proof (live_byte_app [] f live) as Happ. simpl in Happ. split; try done.
    + apply NoDup_cons. split; [|done]. intros Hin. apply (Hdis (frame_addr f)).
      * exists f. split; [done|apply frame_at_start].
      * apply Hfree, frame_at_start.
    + intros g [->|Hg]%elem_of_cons; auto.
    + intros x Hx [Hs Hn]%Hany. apply Happ in Hx as [Hx|Hx]; [by eapply Hdis|done].
    + intros x. rewrite Hany, Happ, Hcons. pose proof (Hfree x). pose proof (Hdis x).
      destruct (decide (frame_at f x)); tauto.
  - destruct (cache_alloc_spec s Hok) as (s1&r&Heq&Hs1&Hr). rewrite Ha in Heq. injection Heq as <- <-.
    split; try done; intros x; rewrite Hr; [apply Hdis|apply Hcons].
  - assert (f ∈ l1 ++ f :: l2) as Hin by (apply elem_of_app; right; left).
    assert (f ∉ l1 ++ l2 ∧ NoDup (l1 ++ l2)) as [Hfl Hnd'].
    { apply NoDup_cons. by rewrite Permutation_middle. }
    destruct (cache_dealloc_spec s f) as (s1&Heq&Hs1&Hany); [done|by apply Hlive|by intros x Hx; apply Hdis; exists f|].
    rewrite Hd in Heq. injection Heq as <-. split; try done.
    + intros g Hg. apply Hlive. rewrite elem_of_app, elem_of_cons in *. naive_solver.
    + intros x Hx [Hx1|Hx1]%Hany; [eapply Hdis; [|done]; apply live_byte_app; by left|].
      destruct Hx as (g&Hg&Hx). apply Hfl. by rewrite (frame_at_inj f g x).
    + intros x. rewrite Hany, Hcons, live_byte_app. tauto.
  - unfold configure in Hc. destruct (_ || _) eqn:Hg in Hc; [done|]. injection Hc as <-.
    assert (0 < re) by (repeat (apply orb_false_iff in Hg as [Hg ?]); lia).
    split; try done. destruct Hok. by split.
Qed.

(** ** Properties *)

(** [C26] The buddy heap hands out exactly what it says: for every valid layout
    the block is aligned to the size class and large enough, all of its bytes
    were free, exactly these bytes stop being free, and the heap stays well
    formed.  It refuses only if no class holds a block of that size, and then
    nothing changes. *)
Theorem buddy_alloc_exact (h : Heap) (size align : Z) :
  heap_wf h → 0 < size → layout_ok size align = true →
  ∃ h' r k, block_size size align = 2 ^ Z.of_nat k ∧ heap_alloc h size align = Done (h', r) ∧ heap_wf h' ∧
    match r with
    | Some p => size ≤ 2 ^ Z.of_nat k ∧ (align | p) ∧ (∀ x, block_at k p x → free_byte h x) ∧
        (∀ x, free_byte h' x ↔ free_byte h x ∧ ¬ block_at k p x)
    | None => h' = h ∧ ∀ i, (k ≤ i)%nat → class_blocks h i = []
    end.
Proof.
  intros Hwf Hs Hl. destruct (block_size_pow2 size align) as (k&Hk&_&Hsk&Hak); [done..|].
  destruct (heap_alloc_spec h size align k) as (h'&r&Ha&Hwf'&Hr); [done..|].
  exists h', r, k. split; [done|]. split; [done|]. split; [done|]. destruct r as [p|]; [|done].
  destruct Hr as ((_&Hp&_)&Hfree&Hf). split; [done|]. split; [by etransitivity|done].
Qed.

(** [C27] Returning a block, with the full or with the bounded search for
    buddies and whatever merging happens, makes exactly its bytes free again
    and keeps the heap well formed: no two free blocks overlap. *)
Theorem buddy_dealloc_exact (h : Heap) (p size align : Z) (k : nat) (limit : option nat) :
  heap_wf h → block_size size align = 2 ^ Z.of_nat k → (k < MAX_ORDER)%nat → block_ok k p →
  (∀ x, block_at k p x → ¬ free_byte h x) →
  ∃ h', heap_dealloc h p size align limit = Done h' ∧ heap_wf h' ∧
    (∀ x, free_byte h' x ↔ free_byte h x ∨ block_at k p x) ∧
    ∀ i b j c x, b ∈ class_blocks h' i → c ∈ class_blocks h' j → block_at i b x → block_at j c x → i = j ∧ b = c.
Proof.
  intros Hwf Hk Hlt Hok Hnew. destruct (heap_dealloc_spec h p size align k limit) as (h'&Hd&Hwf'&Hf); [done..|].
  exists h'. split; [done|]. split; [done|]. split; [done|]. apply Hwf'.
Qed.

(** [C25] From a heap filled with a range of the direct map on, over every
    sequence of frame allocations, failed allocations, releases of frames in
    use and reconfigurations: no frame is in use twice, no byte of a frame in
    use is free, every byte of the range is free or in a frame in use (nothing
    leaks, nothing is made up), and neither allocating nor releasing a frame
    in use can panic or hang. *)
Theorem frames_never_shared (start end_ : Z) :
  KERNEL_ADDR_OFFSET ≤ start ≤ end_ → end_ < 2 ^ 64 - 8 → end_ - start < 2 ^ 35 → (8 | start) → (8 | end_) →
  ∃ h, add_to_heap heap_new start end_ = Done h ∧
    ∀ s live, rtc frames_step (mkFrames cache_new h, []) (s, live) →
      NoDup live ∧ (∀ x, live_byte live x → ¬ free_any s x) ∧
      (∀ x, start ≤ x < end_ ↔ free_any s x ∨ live_byte live x) ∧
      (∃ s' r, cache_alloc s = Some (Done (s', r))) ∧ (∀ f, f ∈ live → ∃ s', cache_dealloc s f = Done s').
Proof.
  intros Hst He Hsz Hs8 He8. destruct heap_new_wf as [Hwf0 Hf0].
  destruct (add_to_heap_spec heap_new start end_) as (h&Ha&Hwf&Hf); try done; [unfold KERNEL_ADDR_OFFSET in Hst; lia|lia|].
  exists h. split; [done|]. intros s live Hrtc.
  assert (∀ x, free_any (mkFrames cache_new h) x ↔ start ≤ x < end_) as Hany.
  { intros x. unfold free_any. simpl. rewrite Hf. setoid_rewrite elem_of_nil. pose proof (Hf0 x). naive_solver. }
  assert (frames_inv (λ x, start ≤ x < end_) s live) as [Hok Hnd Hlive Hdis Hcons].
  { apply (rtc_invariant frames_step (λ a, frames_inv (λ x, start ≤ x < end_) a.1 a.2) _ _ (frames_inv_step _) Hrtc).
    split; simpl; [|constructor| | |].
    - split; simpl; [done| |constructor| | |lia]; [|intros f []%elem_of_nil|intros f x []%elem_of_nil].
      intros x [?|?]%Hf; [by destruct (Hf0 x)|lia].
    - intros f []%elem_of_nil.
    - intros x (f&[]%elem_of_nil&_).
    - intros x. rewrite Hany. split; [by left|]. intros [?|(f&[]%elem_of_nil&_)]. done. }
  split; [done|]. split; [done|]. split; [done|]. split.
  - destruct (cache_alloc_spec s Hok) as (s'&r&?&_). eauto.
  - intros f Hin. destruct (cache_dealloc_spec s f) as (s'&?&_); [done|by apply Hlive| |eauto].
    intros x Hx. apply Hdis. by exists f.
Qed.

(** Five pages of memory behind a fresh cache. *)
Definition five_pages : comp Frames :=
  h ← add_to_heap heap_new (KERNEL_ADDR_OFFSET + 4096 * 524289) (KERNEL_ADDR_OFFSET + 4096 * 524294);
  Done (mkFrames cache_new h).

(** A refill that runs out of memory part of the way reports that there is
    no frame although it has just put some into the cache: with five free
    frames the first allocation fails.  The second succeeds, and the counter of
    cached frames, which the failed refill did not raise, wraps around to the
    largest [usize], so that from then on the high watermark is always
    reached. *)
Theorem cache_refill_spurious_oom :
  ∃ s0 s1 s2 f, five_pages = Done s0 ∧
    (∀ g, 524289 ≤ g < 524294 → ∀ x, frame_at g x → free_any s0 x) ∧
    cache_alloc s0 = Some (Done (s1, None)) ∧ length (pc_list (cache s1)) = 5%nat ∧
    cache_alloc s1 = Some (Done (s2, Some f)) ∧ pc_count (cache s2) = usize_max ∧
    high_watermark (cache s2) ≤ pc_count (cache s2).
Proof.
  destruct (add_to_heap_spec heap_new (frame_addr 524289) (frame_addr 524294)) as (h&Ha&_&Hf);
    [apply heap_new_wf|by vm_compute|by vm_compute|by vm_compute|by exists (frame_addr 524289 / 8)|
     by exists (frame_addr 524294 / 8)|intros x _; apply heap_new_wf|by vm_compute|].
  destruct five_pages as [s0|] eqn:H0; [|by vm_compute in H0].
  assert (s0 = mkFrames cache_new h) as ->.
  { assert (five_pages = Done (mkFrames cache_new h)) as H1; [|congruence].
    unfold five_pages. change (KERNEL_ADDR_OFFSET + 4096 * 524289) with (frame_addr 524289).
    change (KERNEL_ADDR_OFFSET + 4096 * 524294) with (frame_addr 524294). by rewrite Ha. }
  vm_compute in H0. injection H0 as <-.
  eexists _, _, _, _. split; [done|]. split.
  { intros g Hg x Hx. left. apply Hf. right. unfold frame_at, frame_addr, PAGE_SIZE in *. lia. }
  split; [vm_compute; reflexivity|]. split; [reflexivity|]. split; [vm_compute; reflexivity|].
  split; [vm_compute; reflexivity|]. vm_compute. discriminate.
Qed.

Lemma buddy_alloc_exact_witness :
  ∃ s0 h' p, five_pages = Done s0 ∧ heap_alloc (heap s0) 4096 4096 = Done (h', Some p) ∧ (4096 | p).
Proof.
  destruct (add_to_heap_spec heap_new (frame_addr 524289) (frame_addr 524294)) as (h&Ha&Hwf&_);
    [apply heap_new_wf|by vm_compute|by vm_compute|by vm_compute|by exists (frame_addr 524289 / 8)|
     by exists (frame_addr 524294 / 8)|intros x _; apply heap_new_wf|by vm_compute|].
  destruct (buddy_alloc_exact h 4096 4096 Hwf) as (h'&r&k&_&Hal&_&Hr); [lia|reflexivity|].
  assert (five_pages = Done (mkFrames cache_new h)) as H5.
  { unfold five_pages. change (KERNEL_ADDR_OFFSET + 4096 * 524289) with (frame_addr 524289).
    change (KERNEL_ADDR_OFFSET + 4096 * 524294) with (frame_addr 524294). by rewrite Ha. }
  destruct r as [p|].
  - exists (mkFrames cache_new h), h', p. split; [exact H5|]. split; [exact Hal|]. apply Hr.
  - exfalso. vm_compute in Ha. injection Ha as <-. vm_compute in Hal. discriminate Hal.
Defined.

Lemma buddy_dealloc_exact_witness :
  ∃ h', heap_dealloc heap_new (frame_addr 7) 4096 4096 (Some 256%nat) = Done h' ∧ free_byte h' (frame_addr 7).
Proof.
  destruct (buddy_dealloc_exact heap_new (frame_addr 7) 4096 4096 12 (Some 256%nat)) as (h'&Hd&_&Hf&_).
  - apply heap_new_wf.
  - reflexivity.
  - unfold MAX_ORDER. lia.
  - apply frame_block. unfold frame_ok. lia.
  - intros x _. apply heap_new_wf.
  - exists h'. split; [exact Hd|]. apply Hf. right. apply block_start.
Defined.

Lemma frames_never_shared_witness :
  ∃ h s' f, add_to_heap heap_new (frame_addr 524289) (frame_addr 525313) = Done h ∧
    cache_alloc (mkFrames cache_new h) = Some (Done (s', Some f)) ∧ ∀ x, live_byte [f] x → ¬ free_any s' x.
Proof.
  destruct (frames_never_shared (frame_addr 524289) (frame_addr 525313)) as (h&Ha&Hinv);
    [by vm_compute|by vm_compute|by vm_compute|by exists (frame_addr 524289 / 8)|by exists (frame_addr 525313 / 8)|].
  destruct (Hinv (mkFrames cache_new h) [] (rtc_refl _ _)) as (_&_&_&(s'&r&Hal)&_).
  destruct r as [f|].
  - exists h, s', f. split; [exact Ha|]. split; [exact Hal|].
    apply (Hinv s' [f]). apply rtc_once. by apply step_alloc.
  - exfalso. vm_compute in Ha. injection Ha as <-. vm_compute in Hal. discriminate Hal.
Defined.
