(* ===== verification/FramePool.v ===== *)
(** * Frames that are given back

    The interface [FrameSource] of [FrameAlloc] extended by the release of a
    frame ([Drop] of [FrameTracker] in [mm/frame_alloc/frame_tracker.rs]), with
    its two instances: a pool of distinct frames and the frame cache in front of
    the buddy heap. *)

From S2P Require Import Prelude FrameAlloc.

(** [fs_used s f]: [f] was handed out and not given back. *)
Class FramePool (Src : Type) `{!FrameSource Src} : Type := {
  fs_used : Src → Z → Prop;
  fs_dealloc : Src → Z → Src;
  fs_alloc_used s f s' : fs_ok s → fs_alloc s = Some (f, s') →
    fs_used s' f ∧ (∀ g, fs_used s g → g ≠ f ∧ fs_used s' g);
  fs_dealloc_law s f : fs_ok s → fs_used s f →
    fs_ok (fs_dealloc s f) ∧ (∀ g, fs_free (fs_dealloc s f) g ↔ fs_free s g ∨ g = f) ∧
    (∀ g, fs_used s g → g ≠ f → fs_used (fs_dealloc s f) g)
}.

#[export, refine] Instance pool_pool : FramePool (list Z) := {
  fs_used l f := f ∉ l ∧ 0 ≤ f < 2 ^ 44;
  fs_dealloc l f := f :: l
}.
Proof.
  - intros [|f l] f' s' [Hnd Hr]; [done|]. intros [= <- <-]. apply NoDup_cons in Hnd as [Hf Hnd].
    apply Forall_cons in Hr as [Hf' Hr]. split; [done|]. intros g [Hg ?]. apply not_elem_of_cons in Hg as [? ?]. done.
  - intros l f [Hnd Hr] [Hf Hrange]. split; [split; [by constructor|by constructor]|]. split.
    + intros g. simpl. rewrite elem_of_cons. tauto.
    + intros g [? ?] ?. split; [|done]. apply not_elem_of_cons. done.
Defined.

(** A release that the allocator refuses by a panic keeps the state; the law
    says that it does not happen for a frame in use. *)
Definition frames_dealloc (s : Frames) (f : Z) : Frames :=
  match cache_dealloc s f with Done s' => s' | Panic => s end.

#[export, refine] Instance frames_pool : FramePool Frames := {
  fs_used s f := frame_ok f ∧ ∀ x, frame_at f x → ¬ free_any s x;
  fs_dealloc := frames_dealloc
}.
Proof.
  - intros s f s' Hs. simpl. unfold frames_alloc.
    destruct (cache_alloc_spec s Hs) as (s1&r&->&Hs1&Hr). destruct r as [g|]; [|done].
    intros [= -> ->]. destruct Hr as (Hok&Hfree&Hany). split.
    + split; [done|]. intros x Hx [_ Hn]%Hany. done.
    + intros g [Hg Hn]. split.
      * intros ->. apply (Hn (frame_addr f) (frame_at_start f)). apply Hfree, frame_at_start.
      * split; [done|]. intros x Hx [H _]%Hany. by apply (Hn x).
  - intros s f Hs [Hf Hn]. simpl. unfold frames_dealloc.
    destruct (cache_dealloc_spec s f Hs Hf Hn) as (s'&->&Hs'&Hany). split; [done|]. split.
    + intros g. split.
      * intros [Hg Hx]. destruct (decide (g = f)) as [->|Hne]; [by right|]. left. split; [done|].
        intros x Hgx. destruct (proj1 (Hany x) (Hx x Hgx)) as [?|Hfx]; [done|]. by destruct Hne; apply (frame_at_inj g f x).
      * intros [[Hg Hx]|Hgf]; [split; [done|]; intros x Hgx; apply Hany; left; by apply Hx|].
        rewrite Hgf. split; [done|]. intros x Hx. apply Hany. by right.
    + intros g [Hg Hgn] Hne. split; [done|]. intros x Hgx [Hx|Hx]%Hany; [by eapply Hgn|]. by destruct Hne; apply (frame_at_inj g f x).
Defined.
