(* ===== verification/PageTable.v ===== *)
(** * Sv39 page tables

    [arch/riscv64/qemu/page_table.rs] over [address.rs]: page table entries,
    the walk, [map], [unmap], [translate], mega- and gigapages, and the fault
    handlers that install, share and split pages (copy on write).

    Physical memory has two views.  [entries] are the 8-byte words of frames
    used as tables, addressed by frame and index (a missing word is 0);
    [pages] are the bytes of frames used as data.  A frame is handed out by a
    frame source, the interface [FrameSource] that the frame allocator
    implements; [FrameTracker::new] clears it.  Reference counts of data frames
    ([Arc::strong_count]) are a map. *)

From S2P Require Import Prelude Address FrameAlloc.

(** ** Entries *)

Definition VALID : Z := 1.
Definition READABLE : Z := 2.
Definition WRITEABLE : Z := 4.
Definition EXECUTABLE : Z := 8.
Definition USER : Z := 16.
Definition GLOBAL : Z := 32.
Definition ACCESSED : Z := 64.
Definition DIRTY : Z := 128.
Definition COW : Z := 512.
Definition RESERVED_10 : Z := 1024.
(** The flags that exist, [RVPTEFlags::all()]; bit 8 is not one of them. *)
Definition ALL_FLAGS : Z := 1791.
Definition RWX : Z := 14.

(** [MapPermission]. *)
Definition PERM_R : Z := 2.
Definition PERM_W : Z := 4.
Definition PERM_X : Z := 8.
Definition PERM_U : Z := 16.

(** [RVPTEFlags::from(MapPermission)]. *)
Definition flags_from_perm (perm : Z) : Z :=
  let flags := Z.lor VALID ACCESSED in
  let flags := if contains perm PERM_R then bits_insert flags READABLE else flags in
  let flags := if contains perm PERM_W
               then bits_insert (bits_insert flags READABLE) WRITEABLE else flags in
  let flags := if contains perm PERM_X then bits_insert flags EXECUTABLE else flags in
  if contains perm PERM_U then bits_insert flags USER else flags.

(** [MapPermission::from(RVPTEFlags)]. *)
Definition perm_from_flags (flags : Z) : Z :=
  let perm := 0 in
  let perm := if contains flags READABLE then bits_insert perm PERM_R else perm in
  let perm := if contains flags WRITEABLE then bits_insert perm PERM_W else perm in
  let perm := if contains flags EXECUTABLE then bits_insert perm PERM_X else perm in
  if contains flags USER then bits_insert perm PERM_U else perm.

Definition pte_new (ppn flags : Z) : Z := Z.lor (wrap64 (Z.shiftl ppn 10)) flags.
Definition get_ppn (bits : Z) : Z := Z.land (Z.shiftr bits 10) (2 ^ 44 - 1).
(** [from_bits(bits & 0x3FF).unwrap()] panics on a bit that is not a flag. *)
Definition get_flags (bits : Z) : comp Z :=
  let f := Z.land bits 1023 in
  assert! (Z.land f (Z.lnot ALL_FLAGS) =? 0);
  Done f.
Definition set_flags (bits flags : Z) : Z := Z.lor (Z.land bits (Z.lnot 1023)) flags.

(** ** Memory *)

Section page_table.
Context `{FrameSource Src}.

Record PhysMem : Type := mkMem {
  entries : gmap (Z * Z) Z; pages : gmap Z (list Z); source : Src }.

Record PageTable : Type := mkPt { root_ppn : Z; pt_frames : list Z }.

Definition rd (m : PhysMem) (ppn idx : Z) : Z := default 0 (entries m !! (ppn, idx)).
Definition wr (m : PhysMem) (ppn idx bits : Z) : PhysMem :=
  mkMem (<[(ppn, idx) := bits]> (entries m)) (pages m) (source m).

(** The bytes of a data frame; a frame that was never written reads as zeros. *)
Definition zero_bytes : list Z := replicate (Z.to_nat PAGE_SIZE) 0.
Definition bytes_array (m : PhysMem) (ppn : Z) : list Z := default zero_bytes (pages m !! ppn).

(** [FrameTracker::alloc]: take a frame and clear it. *)
Definition frame_alloc (m : PhysMem) : option (Z * PhysMem) :=
  match fs_alloc (source m) with
  | None => None
  | Some (f, s) =>
      Some (f, mkMem (filter (λ '((p, _), _), p ≠ f) (entries m)) (<[f := zero_bytes]> (pages m)) s)
  end.

(** One iteration of the loop of [find_pte_create] above the last level: the
    table below entry [idx] of table [ppn], allocated if missing. *)
Definition ensure_table (m : PhysMem) (pt : PageTable) (ppn idx : Z) : comp (PhysMem * PageTable * Z) :=
  flags ← get_flags (rd m ppn idx);
  if negb (contains flags VALID) then
    '(frame, m) ← unwrap (frame_alloc m);
    let m := wr m ppn idx (pte_new frame VALID) in
    Done (m, mkPt (root_ppn pt) (pt_frames pt ++ [frame]), get_ppn (rd m ppn idx))
  else Done (m, pt, get_ppn (rd m ppn idx)).

Fixpoint create_loop (m : PhysMem) (pt : PageTable) (i : nat) (ppn : Z) (idxs : list Z) :
    comp (PhysMem * PageTable * option (Z * Z)) :=
  match idxs with
  | [] => Done (m, pt, None)
  | idx :: idxs =>
      if (i =? 2)%nat then Done (m, pt, Some (ppn, idx))
      else '(m, pt, child) ← ensure_table m pt ppn idx; create_loop m pt (S i) child idxs
  end.
(** The location of the entry: its table and index. *)
Definition find_pte_create (m : PhysMem) (pt : PageTable) (vpn : Z) :
    comp (PhysMem * PageTable * option (Z * Z)) :=
  create_loop m pt 0 (root_ppn pt) (indexes vpn).

Fixpoint find_loop (m : PhysMem) (i : nat) (ppn : Z) (idxs : list Z) : comp (option (Z * Z)) :=
  match idxs with
  | [] => Done None
  | idx :: idxs =>
      flags ← get_flags (rd m ppn idx);
      if (i =? 2)%nat || ((i <? 2)%nat && contains flags VALID && intersects flags RWX)
      then Done (Some (ppn, idx))
      else if negb (contains flags VALID) then Done None
      else find_loop m (S i) (get_ppn (rd m ppn idx)) idxs
  end.
Definition find_pte (m : PhysMem) (pt : PageTable) (vpn : Z) : comp (option (Z * Z)) :=
  find_loop m 0 (root_ppn pt) (indexes vpn).

(** The location and the bits of a valid entry. *)
Definition find_valid_pte (m : PhysMem) (pt : PageTable) (vpn : Z) : comp (option (Z * Z * Z)) :=
  loc ← find_pte m pt vpn;
  match loc with
  | None => Done None
  | Some (t, i) =>
      flags ← get_flags (rd m t i);
      Done (if contains flags VALID then Some (t, i, rd m t i) else None)
  end.

Definition map_by_pte_flags (m : PhysMem) (pt : PageTable) (vpn ppn pte_flags : Z) :
    comp (PhysMem * PageTable) :=
  '(m, pt, loc) ← find_pte_create m pt vpn;
  '(t, i) ← unwrap loc;
  flags ← get_flags (rd m t i);
  assert! (negb (contains flags VALID));
  Done (wr m t i (pte_new ppn (Z.lor pte_flags VALID)), pt).

Definition map (m : PhysMem) (pt : PageTable) (vpn ppn perm : Z) : comp (PhysMem * PageTable) :=
  map_by_pte_flags m pt vpn ppn (flags_from_perm perm).

Definition MEGA_PAGE_NUM : Z := Z.shiftl 1 (21 - PAGE_SIZE_BITS).
Definition GIGA_PAGE_NUM : Z := Z.shiftl 1 (30 - PAGE_SIZE_BITS).

(** [child.iter().all(|entry| !VALID)] over the 512 entries. *)
Fixpoint all_invalid (m : PhysMem) (t : Z) (n : nat) : comp bool :=
  match n with
  | O => Done true
  | S n =>
      flags ← get_flags (rd m t (511 - Z.of_nat n));
      if contains flags VALID then Done false else all_invalid m t n
  end.

Definition map_mega_page (m : PhysMem) (pt : PageTable) (vpn ppn pte_flags : Z) :
    comp (PhysMem * PageTable) :=
  assert! (vpn mod MEGA_PAGE_NUM =? 0);
  assert! (ppn mod MEGA_PAGE_NUM =? 0);
  i0 ← unwrap (indexes vpn !! 0%nat);
  i1 ← unwrap (indexes vpn !! 1%nat);
  '(m, pt, table) ← ensure_table m pt (root_ppn pt) i0;
  root_flags ← get_flags (rd m (root_ppn pt) i0);
  assert! (negb (intersects root_flags RWX));
  flags ← get_flags (rd m table i1);
  m ← (if contains flags VALID && negb (intersects flags RWX) then
         empty ← all_invalid m (get_ppn (rd m table i1)) 512;
         Done (if (empty : bool) then wr m table i1 0 else m)
       else Done m);
  flags ← get_flags (rd m table i1);
  assert! (negb (contains flags VALID));
  Done (wr m table i1 (pte_new ppn (Z.lor pte_flags VALID)), pt).

Definition map_giga_page (m : PhysMem) (pt : PageTable) (vpn ppn pte_flags : Z) :
    comp (PhysMem * PageTable) :=
  assert! (vpn mod GIGA_PAGE_NUM =? 0);
  assert! (ppn mod GIGA_PAGE_NUM =? 0);
  i0 ← unwrap (indexes vpn !! 0%nat);
  flags ← get_flags (rd m (root_ppn pt) i0);
  assert! (negb (contains flags VALID));
  Done (wr m (root_ppn pt) i0 (pte_new ppn (Z.lor pte_flags VALID)), pt).

Definition unmap (m : PhysMem) (pt : PageTable) (vpn : Z) : comp PhysMem :=
  loc ← find_pte m pt vpn;
  match loc with
  | None => Done m
  | Some (t, i) =>
      flags ← get_flags (rd m t i);
      Done (if contains flags VALID then wr m t i 0 else m)
  end.

Fixpoint translate_loop (m : PhysMem) (vpn : Z) (level : nat) (table_ppn : Z) (idxs : list Z) :
    comp (option Z) :=
  match idxs with
  | [] => Done None
  | idx :: idxs =>
      let pte := rd m table_ppn idx in
      flags ← get_flags pte;
      if negb (contains flags VALID) then Done None
      else if intersects flags RWX then
        let lower_vpn_bits := (2 - Z.of_nat level) * 9 in
        let lower_vpn := Z.land vpn (Z.shiftl 1 lower_vpn_bits - 1) in
        Done (Some (get_ppn pte + lower_vpn))
      else translate_loop m vpn (S level) (get_ppn pte) idxs
  end.
Definition translate (m : PhysMem) (pt : PageTable) (vpn : Z) : comp (option Z) :=
  translate_loop m vpn 0 (root_ppn pt) (indexes vpn).

(** A predicate on the flags of the valid leaf of [vpn]. *)
Definition leaf_has (m : PhysMem) (pt : PageTable) (vpn : Z) (p : Z → bool) : comp bool :=
  pte ← find_valid_pte m pt vpn;
  match pte with
  | None => Done false
  | Some (_, _, bits) => flags ← get_flags bits; Done (p flags)
  end.
Definition is_cow_page (m : PhysMem) (pt : PageTable) (vpn : Z) : comp bool :=
  leaf_has m pt vpn (λ f, contains f COW).
Definition is_user_readable (m : PhysMem) (pt : PageTable) (vpn : Z) : comp bool :=
  leaf_has m pt vpn (λ f, contains f (Z.lor READABLE USER)).
Definition is_user_executable (m : PhysMem) (pt : PageTable) (vpn : Z) : comp bool :=
  leaf_has m pt vpn (λ f, contains f (Z.lor EXECUTABLE USER)).
Definition is_user_writable (m : PhysMem) (pt : PageTable) (vpn : Z) : comp bool :=
  leaf_has m pt vpn (λ f, contains f (Z.lor WRITEABLE USER) && negb (contains f COW)).

(** ** Fault handlers *)

Definition handle_mprotect (m : PhysMem) (pt : PageTable) (vpn add_flags : Z) : comp PhysMem :=
  pte ← find_valid_pte m pt vpn;
  match pte with
  | None => Done m
  | Some (t, i, bits) =>
      old_flags ← get_flags bits;
      let requested := Z.land add_flags ALL_FLAGS in
      let requested := if contains requested WRITEABLE then bits_insert requested READABLE else requested in
      Done (wr m t i (set_flags bits (Z.lor requested old_flags)))
  end.

(** [handle_write_protect_page_fault] with [vpn] for [va.floor()]; [frames] is the area's [data_frames] (the
    frame of a page) and [refcnt] the reference counts of frames (1 where the map
    has none: the area's own reference).  The copy drops the area's reference to
    the old frame and holds the only one to the new frame.  The result says
    whether the fault was handled. *)
Definition handle_write_protect_page_fault (m : PhysMem) (pt : PageTable) (vpn : Z)
    (frames : gmap Z Z) (refcnt : gmap Z nat) : comp (PhysMem * gmap Z Z * gmap Z nat * bool) :=
  pte ← find_valid_pte m pt vpn;
  match pte with
  | None => Done (m, frames, refcnt, false)
  | Some (t, i, bits) =>
      flags ← get_flags bits;
      if negb (contains flags COW) then
        if contains flags WRITEABLE
        then Done (wr m t i (set_flags bits (bits_insert flags DIRTY)), frames, refcnt, true)
        else Done (m, frames, refcnt, false)
      else
        let count := match frames !! vpn with
                     | Some f => default 1%nat (refcnt !! f)
                     | None => 2%nat
                     end in
        if (count =? 1)%nat then
          let flags := bits_insert (bits_insert (bits_insert (bits_remove flags COW) WRITEABLE)
                                      READABLE) DIRTY in
          Done (wr m t i (set_flags bits flags), frames, refcnt, true)
        else
          src ← translate m pt vpn;
          let src_ppn := default (get_ppn bits) src in
          if match frames !! vpn with Some f => negb (f =? src_ppn) | None => false end
          then Done (m, frames, refcnt, false)
          else match frame_alloc m with
          | None => Done (m, frames, refcnt, false)
          | Some (new_ppn, m) =>
              let m := mkMem (entries m) (<[new_ppn := bytes_array m src_ppn]> (pages m))
                         (source m) in
              let flags := bits_insert (bits_insert (bits_remove flags COW) WRITEABLE) DIRTY in
              let refcnt := match frames !! vpn with
                            | Some f => <[f := (count - 1)%nat]> refcnt
                            | None => refcnt
                            end in
              Done (wr m t i (pte_new new_ppn flags), <[vpn := new_ppn]> frames,
                    <[new_ppn := 1%nat]> refcnt, true)
          end
  end.

(** [handle_cow_mapping_from_exited_user]: share one page of [pt] with the
    child's table [child]. *)
Definition handle_cow_mapping_from_exited_user (m : PhysMem) (pt child : PageTable) (vpn : Z) :
    comp (PhysMem * PageTable) :=
  src ← translate m pt vpn;
  match src with
  | None => Done (m, child)
  | Some src_ppn =>
      pte ← find_valid_pte m pt vpn;
      match pte with
      | None => Done (m, child)
      | Some (t, i, bits) =>
          flags ← get_flags bits;
          let flags := if contains flags WRITEABLE
                       then bits_insert (bits_remove (bits_remove flags WRITEABLE) DIRTY) COW
                       else flags in
          map_by_pte_flags (wr m t i (set_flags bits flags)) child vpn src_ppn flags
      end
  end.

(** The flags both mmap fault handlers compute. *)
Definition mmap_fault_flags (vma_perm : Z) (map_shared : bool) : Z :=
  let flags := flags_from_perm vma_perm in
  if map_shared then if contains flags WRITEABLE then bits_insert flags DIRTY else flags
  else if contains flags WRITEABLE
       then bits_insert (bits_remove (bits_remove flags WRITEABLE) DIRTY) COW else flags.
Definition handle_mmap_read_page_fault (m : PhysMem) (pt : PageTable) (vpn ppn vma_perm : Z)
    (map_shared : bool) : comp (PhysMem * PageTable) :=
  map_by_pte_flags m pt vpn ppn (mmap_fault_flags vma_perm map_shared).
Definition handle_mmap_write_page_fault (m : PhysMem) (pt : PageTable) (vpn vma_perm : Z)
    (map_shared : bool) : comp PhysMem :=
  pte ← find_valid_pte m pt vpn;
  match pte with
  | None => Panic
  | Some (t, i, bits) =>
      old ← get_flags bits;
      Done (wr m t i (set_flags bits (Z.lor (mmap_fault_flags vma_perm map_shared) old)))
  end.

(** [translate_va]. *)
Definition translate_va (m : PhysMem) (pt : PageTable) (va : Z) : comp (option Z) :=
  ppn ← translate m pt (floor va);
  match ppn with
  | None => Done None
  | Some p =>
      pa ← phys_addr_from_usize (wrap64 (addr_from_page_num p + page_offset va));
      Done (Some pa)
  end.

(** [PageTable::new]. *)
Definition page_table_new (m : PhysMem) : comp (PhysMem * PageTable) :=
  '(f, m) ← unwrap (frame_alloc m);
  Done (m, mkPt f [f]).

(** [copy_from_slice] of the entries [index..512] of one table into another. *)
Fixpoint copy_entries (m : PhysMem) (dst src : Z) (n : nat) : PhysMem :=
  match n with
  | O => m
  | S n => let i := 511 - Z.of_nat n in copy_entries (wr m dst i (rd m src i)) dst src n
  end.
(** [PageTable::new_from_kernel]; [kernel] is the kernel's page table. *)
Definition kernel_index : Z := default 0 (indexes (virt_page_num_from_usize KERNEL_PGNUM_OFFSET) !! 0%nat).
Definition new_from_kernel (m : PhysMem) (kernel : PageTable) : comp (PhysMem * PageTable) :=
  '(f, m) ← unwrap (frame_alloc m);
  Done (copy_entries m f (root_ppn kernel) (Z.to_nat (512 - kernel_index)), mkPt f [f]).

(** [PageTable::clear]; the frames go back to the allocator when dropped. *)
Definition clear_frames (pt : PageTable) : PageTable := mkPt (root_ppn pt) [].

(** [map_direct_range]: the largest aligned leaf that fits at each step; the
    loop runs for at most [fuel] steps. *)
Fixpoint map_direct_loop (fuel : nat) (m : PhysMem) (pt : PageTable) (vpn end_vpn pte_flags : Z) :
    option (comp (PhysMem * PageTable)) :=
  if negb (vpn <? end_vpn) then Some (Done (m, pt)) else
  match fuel with
  | O => None
  | S fuel =>
      let remaining := end_vpn - vpn in
      let ppn := wrap64 (vpn - KERNEL_PGNUM_OFFSET) in
      let '(res, n) :=
        if (vpn mod GIGA_PAGE_NUM =? 0) && (GIGA_PAGE_NUM <=? remaining)
        then (map_giga_page m pt vpn ppn pte_flags, GIGA_PAGE_NUM)
        else if (vpn mod MEGA_PAGE_NUM =? 0) && (MEGA_PAGE_NUM <=? remaining)
        then (map_mega_page m pt vpn ppn pte_flags, MEGA_PAGE_NUM)
        else (map_by_pte_flags m pt vpn ppn pte_flags, 1) in
      match res with
      | Panic => Some Panic
      | Done (m, pt) => map_direct_loop fuel m pt (wrap64 (vpn + n)) end_vpn pte_flags
      end
  end.
Definition map_direct_range (fuel : nat) (m : PhysMem) (pt : PageTable) (start_vpn end_vpn perm : Z) :
    option (comp (PhysMem * PageTable)) :=
  map_direct_loop fuel m pt start_vpn end_vpn (flags_from_perm perm).
End page_table.

Arguments PhysMem : clear implicits.

(** ** The entry codec *)

Definition pte_flags_of (bits : Z) : Z := Z.land bits 1023.
Definition pte_valid (bits : Z) : bool := contains (pte_flags_of bits) VALID.
Definition pte_leaf (bits : Z) : bool := intersects (pte_flags_of bits) RWX.
(** A pointer to a table of the next level. *)
Definition pte_table (bits : Z) : bool := pte_valid bits && negb (pte_leaf bits).
(** The bit that is not a flag is clear, so reading the flags does not panic. *)
Definition pte_ok (bits : Z) : Prop := Z.testbit bits 8 = false.

Lemma land_bit b n : 0 ≤ n → Z.land b (2 ^ n) =? 0 = negb (Z.testbit b n).
Proof.
  intros Hn. pose proof (contains_bit b n Hn) as Hc. unfold contains in Hc.
  pose proof (Z.pow_pos_nonneg 2 n ltac:(lia) Hn).
  destruct (Z.testbit b n); simpl; [apply Z.eqb_eq in Hc; lia|].
  apply Z.eqb_eq, Z.bits_inj'. intros i Hi. rewrite Z.land_spec, Z.bits_0, Z.pow2_bits_eqb by done.
  destruct (Z.eqb_spec n i) as [<-|]; [|by rewrite andb_false_r].
  destruct (Z.testbit b n) eqn:Hb; [|done].
  exfalso. rewrite <- contains_bit in Hb by done. unfold contains in Hb. congruence.
Qed.

Lemma get_flags_ok bits : pte_ok bits → get_flags bits = Done (pte_flags_of bits).
Proof.
  intros Hb. unfold get_flags. rewrite <- Z.land_assoc.
  change (Z.land 1023 (Z.lnot ALL_FLAGS)) with (2 ^ 8). rewrite land_bit, Hb by lia. done.
Qed.

Lemma pte_valid_bit bits : pte_valid bits = Z.testbit bits 0.
Proof.
  unfold pte_valid, pte_flags_of. change VALID with (2 ^ 0). rewrite contains_bit by lia.
  rewrite Z.land_spec. apply andb_true_r.
Qed.

Section pte_new.
Context (ppn flags : Z) (Hppn : 0 ≤ ppn < 2 ^ 44) (Hflags : 0 ≤ flags < 1024).

Lemma pte_new_eq : pte_new ppn flags = ppn * 1024 + flags.
Proof.
  unfold pte_new. rewrite Z.shiftl_mul_pow2, wrap64_small by (unfold is_usize, usize_max; lia).
  rewrite <- Z.shiftl_mul_pow2 by lia. apply (lor_shiftl_add _ _ 10); lia.
Qed.

Lemma get_ppn_new : get_ppn (pte_new ppn flags) = ppn.
Proof.
  unfold get_ppn. rewrite pte_new_eq, land_mask, Z.shiftr_div_pow2 by lia.
  change (2 ^ 10) with 1024. rewrite Z.div_add_l, (Z.div_small flags), Z.add_0_r by lia.
  by apply Z.mod_small.
Qed.

Lemma pte_flags_of_new : pte_flags_of (pte_new ppn flags) = flags.
Proof.
  unfold pte_flags_of. rewrite pte_new_eq, (land_mask _ 10) by lia. change (2 ^ 10) with 1024.
  rewrite Z.add_comm, Z.mod_add by lia. by apply Z.mod_small.
Qed.

Lemma pte_new_ok : Z.testbit flags 8 = false → pte_ok (pte_new ppn flags).
Proof.
  intros Hf. pose proof (f_equal (λ z, Z.testbit z 8) pte_flags_of_new) as E. cbv beta in E.
  unfold pte_flags_of in E. rewrite Z.land_spec, Hf, andb_true_r in E. exact E.
Qed.
End pte_new.

Lemma get_ppn_range bits : 0 ≤ get_ppn bits < 2 ^ 44.
Proof. apply land_bit_range; lia. Qed.

(** [set_flags] keeps the frame and replaces the flags. *)
Lemma set_flags_ppn bits flags : 0 ≤ flags < 1024 → get_ppn (set_flags bits flags) = get_ppn bits.
Proof.
  intros Hf. unfold get_ppn, set_flags. f_equal. apply Z.bits_inj'. intros i Hi.
  rewrite !Z.shiftr_spec, Z.lor_spec, Z.land_spec, Z.lnot_spec by lia.
  assert (∀ z, 0 ≤ z < 1024 → Z.testbit z (i + 10) = false) as Hhigh.
  { intros z Hz. rewrite <- (Z.mod_small z (2 ^ 10)) by lia. apply Z.mod_pow2_bits_high. lia. }
  rewrite (Hhigh flags), (Hhigh 1023) by lia. simpl. by rewrite andb_true_r, orb_false_r.
Qed.

Lemma set_flags_flags bits flags : 0 ≤ flags < 1024 → pte_flags_of (set_flags bits flags) = flags.
Proof.
  intros Hf. unfold pte_flags_of, set_flags. rewrite Z.land_lor_distr_l.
  rewrite <- Z.land_assoc, (Z.land_comm (Z.lnot _)), Z.land_lnot_diag, Z.land_0_r, Z.lor_0_l.
  rewrite (land_mask _ 10) by lia. by apply Z.mod_small.
Qed.

(** ** Flags bit by bit *)

Lemma contains_spec f k : contains f k = true ↔ ∀ n, 0 ≤ n → Z.testbit k n = true → Z.testbit f n = true.
Proof.
  unfold contains. rewrite Z.eqb_eq. split.
  - intros <- n Hn. rewrite Z.land_spec. by intros [? ?]%andb_true_iff.
  - intros Hk. apply Z.bits_inj'. intros n Hn. rewrite Z.land_spec.
    destruct (Z.testbit k n) eqn:Hkn; [by rewrite Hk|by rewrite andb_false_r].
Qed.

Lemma contains_lor f a b : contains f (Z.lor a b) = contains f a && contains f b.
Proof.
  apply eq_true_iff_eq. rewrite andb_true_iff, !contains_spec. split.
  - intros Hf. split; intros n Hn Hb; apply Hf; try done; rewrite Z.lor_spec, Hb; [done|apply orb_true_r].
  - intros [Ha Hb] n Hn. rewrite Z.lor_spec. intros [?|?]%orb_true_iff; auto.
Qed.

Lemma intersects_bit f k n : 0 ≤ n → Z.testbit f n = true → Z.testbit k n = true → intersects f k = true.
Proof.
  intros Hn Hf Hk. unfold intersects. apply negb_true_iff, Z.eqb_neq. intros Heq.
  apply (f_equal (λ z, Z.testbit z n)) in Heq. cbv beta in Heq. by rewrite Z.land_spec, Hf, Hk, Z.bits_0 in Heq.
Qed.

Lemma flag_bit f : contains f VALID = Z.testbit f 0 ∧ contains f READABLE = Z.testbit f 1 ∧
  contains f WRITEABLE = Z.testbit f 2 ∧ contains f USER = Z.testbit f 4 ∧
  contains f COW = Z.testbit f 9.
Proof. repeat split; [apply (contains_bit f 0)|apply (contains_bit f 1)|apply (contains_bit f 2)|
  apply (contains_bit f 4)|apply (contains_bit f 9)]; lia. Qed.

Ltac flag_bits :=
  unfold bits_insert, bits_remove in *;
  repeat match goal with
  | |- context [contains ?f VALID] => rewrite (proj1 (flag_bit f))
  | |- context [contains ?f READABLE] => rewrite (proj1 (proj2 (flag_bit f)))
  | |- context [contains ?f WRITEABLE] => rewrite (proj1 (proj2 (proj2 (flag_bit f))))
  | |- context [contains ?f USER] => rewrite (proj1 (proj2 (proj2 (proj2 (flag_bit f)))))
  | |- context [contains ?f COW] => rewrite (proj2 (proj2 (proj2 (proj2 (flag_bit f)))))
  end;
  rewrite ?Z.lor_spec, ?Z.land_spec, ?Z.lnot_spec by lia.

Definition flags_ok (flags : Z) : Prop := 0 ≤ flags < 1024 ∧ Z.testbit flags 8 = false.

Lemma flags_ok_lor a b : flags_ok a → flags_ok b → flags_ok (Z.lor a b).
Proof.
  intros [Ha Ha8] [Hb Hb8]. split; [|by rewrite Z.lor_spec, Ha8, Hb8].
  rewrite <- (Z.mod_small a (2 ^ 10)), <- (Z.mod_small b (2 ^ 10)) by lia.
  rewrite <- !Z.land_ones, <- Z.land_lor_distr_l, Z.land_ones by lia. apply Z.mod_pos_bound. lia.
Qed.

Lemma flags_ok_land a b : flags_ok a → flags_ok (Z.land a b).
Proof.
  intros [Ha Ha8]. split; [|by rewrite Z.land_spec, Ha8]. rewrite Z.land_comm. apply (land_bit_range _ _ 10); lia.
Qed.

#[export] Hint Resolve flags_ok_lor flags_ok_land : ya2y.

Lemma flags_ok_of bits : pte_ok bits → flags_ok (pte_flags_of bits).
Proof.
  intros Hok. unfold pte_flags_of. split; [apply (land_bit_range bits 1023 10); lia|].
  by rewrite Z.land_spec, Hok.
Qed.

Lemma set_flags_ok bits flags : flags_ok flags → pte_ok (set_flags bits flags).
Proof.
  intros [Hf Hf8]. unfold pte_ok, set_flags. rewrite Z.lor_spec, Z.land_spec, Z.lnot_spec, Hf8 by lia.
  by rewrite andb_false_r.
Qed.

#[export] Hint Resolve flags_ok_of set_flags_ok : ya2y.
#[export] Hint Extern 0 (flags_ok ?c) => (is_const c; done) : ya2y.

(** The flags of a page shared copy on write. *)
Definition cow_flags (flags : Z) : Z := bits_insert (bits_remove (bits_remove flags WRITEABLE) DIRTY) COW.

Lemma cow_flags_spec flags :
  flags_ok flags → contains flags VALID = true → contains flags READABLE = true →
  flags_ok (cow_flags flags) ∧ contains (cow_flags flags) VALID = true ∧
  intersects (cow_flags flags) RWX = true ∧ contains (cow_flags flags) WRITEABLE = false ∧
  contains (cow_flags flags) COW = true.
Proof.
  intros Hok Hv Hr. destruct (flag_bit flags) as (Ev&Er&_). rewrite Ev in Hv. rewrite Er in Hr.
  unfold cow_flags. split; [unfold bits_insert, bits_remove; auto with ya2y|].
  split; [flag_bits; by rewrite Hv|].
  split; [apply (intersects_bit _ _ 1); [lia|flag_bits; by rewrite Hr|done]|].
  split; flag_bits; [by rewrite andb_false_r, andb_false_l|apply orb_true_r].
Qed.

Lemma new_leaf ppn flags :
  0 ≤ ppn < 2 ^ 44 → flags_ok flags → intersects flags RWX = true →
  let b := pte_new ppn (Z.lor flags VALID) in
  pte_flags_of b = Z.lor flags VALID ∧ pte_ok b ∧ pte_valid b = true ∧ pte_leaf b = true ∧ get_ppn b = ppn.
Proof.
  intros Hp Hf Hrwx b.
  assert (flags_ok (Z.lor flags VALID)) as [Hfl Hfl8] by auto with ya2y.
  assert (pte_flags_of b = Z.lor flags VALID) as Hb by (by apply pte_flags_of_new).
  split; [done|]. split; [by apply pte_new_ok|]. unfold pte_valid, pte_leaf. rewrite Hb.
  split; [flag_bits; apply orb_true_r|]. split; [|by apply get_ppn_new].
  unfold intersects in *. rewrite Z.land_lor_distr_l. change (Z.land VALID RWX) with 0. by rewrite Z.lor_0_r.
Qed.
(** ** Trees of tables

    A table is reached from a root along a path of indexes.  The upper half of
    every root is shared with the kernel ([new_from_kernel]), so the invariant
    and the theorems speak about user paths: those whose first index is below
    [kernel_index]. *)

Section tree.
Context `{FrameSource Src}.
Implicit Types m : PhysMem Src.

Fixpoint table_at m (p : Z) (path : list Z) : option Z :=
  match path with
  | [] => Some p
  | i :: path => if pte_table (rd m p i) then table_at m (get_ppn (rd m p i)) path else None
  end.

Definition user_path (path : list Z) : Prop :=
  match path with [] => True | i :: _ => i < kernel_index end.
(** The pages below the kernel half of an Sv39 space. *)
Definition user_vpn (vpn : Z) : Prop := 0 ≤ vpn < 2 ^ 26.

Definition reaches m (roots : list Z) (r : Z) (path : list Z) (t : Z) : Prop :=
  r ∈ roots ∧ user_path path ∧ (length path ≤ 2)%nat ∧ table_at m r path = Some t.

(** The invariant of the page tables with these roots: different user paths
    lead to different tables, the entries have no undefined flag, and no table
    is in the free frames. *)
Record tree_wf m (roots : list Z) : Prop := {
  wf_source : fs_ok (source m);
  wf_inj r r' p p' t : reaches m roots r p t → reaches m roots r' p' t → r = r' ∧ p = p';
  wf_entry r p t i : reaches m roots r p t → user_path (p ++ [i]) → pte_ok (rd m t i);
  wf_used r p t : reaches m roots r p t → ¬ fs_free (source m) t
}.

(** The walk from table [p] ends at an invalid entry. *)
Fixpoint slot_vacant m (p : Z) (idxs : list Z) : bool :=
  match idxs with
  | [] => false
  | i :: idxs =>
      if negb (pte_valid (rd m p i)) then true
      else if pte_leaf (rd m p i) then false
      else slot_vacant m (get_ppn (rd m p i)) idxs
  end.

(** The number of indexes the walk from table [p] uses to end at a leaf. *)
Fixpoint leaf_depth m (p : Z) (idxs : list Z) : option nat :=
  match idxs with
  | [] => None
  | i :: idxs =>
      if negb (pte_valid (rd m p i)) then None
      else if pte_leaf (rd m p i) then Some 1%nat
      else S <$> leaf_depth m (get_ppn (rd m p i)) idxs
  end.

(** The source can hand out [n] more frames. *)
Fixpoint has_frames (n : nat) (s : Src) : Prop :=
  match n with
  | O => True
  | S n => ∃ f s', fs_alloc s = Some (f, s') ∧ has_frames n s'
  end.

(** *** Reads, writes and walks *)

Lemma rd_wr_eq m t i b : rd (wr m t i b) t i = b.
Proof. unfold rd, wr. simpl. by rewrite lookup_insert_eq. Qed.

Lemma rd_wr_ne m t i b q j : (q, j) ≠ (t, i) → rd (wr m t i b) q j = rd m q j.
Proof. intros. unfold rd, wr. simpl. by rewrite lookup_insert_ne. Qed.

Lemma table_at_app m p l k : table_at m p (l ++ k) = table_at m p l ≫= λ q, table_at m q k.
Proof.
  revert p. induction l as [|i l IH]; intros p; simpl; [done|].
  destruct (pte_table _); [apply IH|done].
Qed.

Lemma table_at_ext m m' p path :
  (∀ l j k q, path = l ++ j :: k → table_at m p l = Some q → rd m' q j = rd m q j) →
  table_at m' p path = table_at m p path.
Proof.
  revert p. induction path as [|i path IH]; intros p Hext; simpl; [done|].
  rewrite (Hext [] i path p) by done. destruct (pte_table (rd m p i)) eqn:Ht; [|done].
  apply IH. intros l j k q -> Hq. apply (Hext (i :: l) j k q); [done|]. simpl. by rewrite Ht.
Qed.

Lemma translate_loop_ext m m' vpn lvl p idxs :
  (∀ l j k q, idxs = l ++ j :: k → table_at m p l = Some q → rd m' q j = rd m q j) →
  (∀ l j k q, idxs = l ++ j :: k → table_at m p l = Some q → pte_ok (rd m q j)) →
  translate_loop m' vpn lvl p idxs = translate_loop m vpn lvl p idxs.
Proof.
  revert lvl p. induction idxs as [|i idxs IH]; intros lvl p Hext Hok; [done|].
  cbn [translate_loop]. rewrite (Hext [] i idxs p), get_flags_ok by (done || by apply (Hok [] i idxs p)).
  cbn [mbind comp_bind]. destruct (negb _) eqn:Hv; [done|]. destruct (intersects _ _) eqn:Hl; [done|].
  assert (pte_table (rd m p i) = true) as Ht.
  { unfold pte_table, pte_valid, pte_leaf. apply negb_false_iff in Hv. by rewrite Hv, Hl. }
  apply IH; intros l j k q -> Hq; [apply (Hext (i :: l) j k q)|apply (Hok (i :: l) j k q)];
    simpl; by rewrite ?Ht.
Qed.

Lemma translate_loop_app m vpn lvl p q l k :
  table_at m p l = Some q →
  (∀ l1 j l2 t, l = l1 ++ j :: l2 → table_at m p l1 = Some t → pte_ok (rd m t j)) →
  translate_loop m vpn lvl p (l ++ k) = translate_loop m vpn (lvl + length l) q k.
Proof.
  revert lvl p. induction l as [|i l IH]; intros lvl p Hq Hok; simpl in *.
  { simplify_eq. by rewrite Nat.add_0_r. }
  destruct (pte_table (rd m p i)) eqn:Ht; [|done].
  rewrite get_flags_ok by by apply (Hok [] i l p). cbn [mbind comp_bind].
  pose proof Ht as Hvl. unfold pte_table, pte_valid, pte_leaf in Hvl.
  apply andb_true_iff in Hvl as [Hv Hl%negb_true_iff]. rewrite Hv, Hl. simpl.
  rewrite IH; [by rewrite Nat.add_succ_r|done|].
  intros l1 j l2 t -> Hl1. apply (Hok (i :: l1) j l2 t); [done|]. simpl. by rewrite Ht.
Qed.

(** *** Changing one entry *)

(** [m'] agrees with [m] on every entry of every table but entry [i] of the
    table that [path0] leads to from [r0]. *)
Definition off_site m m' (roots : list Z) (r0 : Z) (path0 : list Z) (i : Z) : Prop :=
  ∀ r p q j, reaches m roots r p q → (r, p, j) ≠ (r0, path0, i) → rd m' q j = rd m q j.

Definition through (r0 : Z) (site : list Z) (r : Z) (path : list Z) : Prop :=
  r = r0 ∧ site `prefix_of` path.
#[local] Instance through_dec r0 site r path : Decision (through r0 site r path).
Proof. unfold through. apply _. Defined.

Lemma user_path_prefix l k : user_path (l ++ k) → user_path l.
Proof. by destruct l. Qed.

Lemma user_path_snoc l j k : user_path (l ++ j :: k) → user_path (l ++ [j]).
Proof. by destruct l. Qed.

Lemma walk_reaches m roots r path l j k q :
  r ∈ roots → user_path path → (length path ≤ 3)%nat → path = l ++ j :: k →
  table_at m r l = Some q → reaches m roots r l q.
Proof.
  intros Hr Hu Hlen -> Hq. rewrite length_app in Hlen. simpl in Hlen.
  split; [done|]. split; [by eapply user_path_prefix|]. split; [lia|done].
Qed.

Section site.
Context (m m' : PhysMem Src) (roots : list Z) (r0 : Z) (path0 : list Z) (i : Z).
Context (Hwf : tree_wf m roots) (Hoff : off_site m m' roots r0 path0 i).

Lemma off_site_read r path l j k q :
  r ∈ roots → user_path path → (length path ≤ 3)%nat → ¬ through r0 (path0 ++ [i]) r path →
  path = l ++ j :: k → table_at m r l = Some q → rd m' q j = rd m q j.
Proof.
  intros Hr Hu Hlen Hnt Hpath Hq. apply (Hoff r l); [by eapply walk_reaches|].
  intros [= -> -> ->]. apply Hnt. split; [done|]. exists k. by rewrite <- app_assoc.
Qed.

Lemma off_site_table r path :
  r ∈ roots → user_path path → (length path ≤ 3)%nat → ¬ through r0 (path0 ++ [i]) r path →
  table_at m' r path = table_at m r path.
Proof. intros. apply table_at_ext. intros. by eapply off_site_read. Qed.

Lemma off_site_translate vpn r idxs :
  r ∈ roots → user_path idxs → (length idxs ≤ 3)%nat → ¬ through r0 (path0 ++ [i]) r idxs →
  translate_loop m' vpn 0 r idxs = translate_loop m vpn 0 r idxs.
Proof.
  intros Hr Hu Hlen Hnt. apply translate_loop_ext; intros l j k q -> Hq; [by eapply off_site_read|].
  eapply wf_entry; [done|by eapply walk_reaches|by eapply user_path_snoc].
Qed.

(** A walk that passes the site continues from the entry there. *)
Lemma site_translate vpn k t :
  r0 ∈ roots → user_path (path0 ++ i :: k) → (length path0 ≤ 2)%nat → table_at m r0 path0 = Some t →
  translate_loop m vpn 0 r0 (path0 ++ i :: k) = translate_loop m vpn (length path0) t (i :: k) ∧
  translate_loop m' vpn 0 r0 (path0 ++ i :: k) = translate_loop m' vpn (length path0) t (i :: k).
Proof.
  intros Hr Hu Hlen Ht. pose proof (user_path_prefix _ _ Hu) as Hu0.
  assert (∀ l, l `prefix_of` path0 → ¬ through r0 (path0 ++ [i]) r0 l) as Hnot.
  { intros l [k' ->] [_ [k'' Heq]]. apply (f_equal length) in Heq.
    rewrite !length_app in Heq. simpl in Heq. lia. }
  split; apply translate_loop_app; [done| | |].
  - intros l1 j l2 q Hl Hq. eapply wf_entry; [done|eapply (walk_reaches m roots r0 path0); [done|done|lia|done|done]|].
    rewrite Hl in Hu0. by eapply user_path_snoc.
  - rewrite off_site_table; auto; lia.
  - intros l1 j l2 q Hl. assert (user_path (l1 ++ [j])) by (rewrite Hl in Hu0; by eapply user_path_snoc).
    rewrite off_site_table; [|done|by eapply user_path_prefix|subst; rewrite length_app in Hlen; lia|].
    + intros Hq. rewrite (off_site_read r0 path0 l1 j l2); [|done|done|lia|by apply Hnot|done|done].
      eapply wf_entry; [done|eapply (walk_reaches m roots r0 path0); [done|done|lia|done|done]|done].
    + apply Hnot. rewrite Hl. by eexists.
Qed.
End site.

(** The path to the site itself does not pass it. *)
Lemma off_site_path0 {m m' roots r0 path0 i} :
  off_site m m' roots r0 path0 i → r0 ∈ roots → user_path path0 → (length path0 ≤ 2)%nat →
  table_at m' r0 path0 = table_at m r0 path0.
Proof.
  intros Hoff Hr Hu Hlen. apply (off_site_table m m' roots r0 path0 i Hoff); [done|done|lia|].
  intros [_ [k Heq]]. apply (f_equal length) in Heq. rewrite !length_app in Heq. simpl in Heq. lia.
Qed.

(** Writing an entry at the last level, or replacing an entry that is not a
    table pointer by another, moves no table. *)
Section write_entry.
Context (m : PhysMem Src) (roots : list Z) (r0 : Z) (path0 : list Z) (t i b : Z).
Context (Hwf : tree_wf m roots) (Hreach : reaches m roots r0 path0 t).

Lemma wr_off_site : off_site m (wr m t i b) roots r0 path0 i.
Proof.
  intros r p q j Hq Hne. apply rd_wr_ne. intros [= -> ->].
  destruct (wf_inj _ _ Hwf _ _ _ _ _ Hq Hreach) as [-> ->]. done.
Qed.

Context (Hsite : length path0 = 2%nat ∨ pte_table (rd m t i) = false ∧ pte_table b = false).

Lemma wr_reaches r p q : reaches (wr m t i b) roots r p q ↔ reaches m roots r p q.
Proof.
  enough (r ∈ roots → user_path p → (length p ≤ 2)%nat →
          table_at (wr m t i b) r p = table_at m r p) as Heq.
  { unfold reaches. split; intros (Hr&Hu&Hl&Hq); rewrite Heq in * by done; done. }
  intros Hr Hu Hlen. destruct (decide (through r0 (path0 ++ [i]) r p)) as [[-> [k ->]]|Hnt].
  - destruct Hsite as [H2|[Hb Hb']]; [rewrite !length_app in Hlen; simpl in Hlen; lia|].
    destruct Hreach as (_&Hu0&Hl0&Ht). rewrite <- app_assoc, !table_at_app.
    rewrite (off_site_path0 wr_off_site), Ht by (done || lia). simpl. by rewrite rd_wr_eq, Hb, Hb'.
  - apply (off_site_table m _ roots r0 path0 i wr_off_site); (done || lia).
Qed.

Lemma wr_wf : pte_ok b → tree_wf (wr m t i b) roots.
Proof.
  intros Hb. split.
  - apply Hwf.
  - intros r r' p p' q Hp%wr_reaches Hp'%wr_reaches. by eapply (wf_inj _ _ Hwf).
  - intros r p q j Hp%wr_reaches Hu. destruct (decide ((q, j) = (t, i))) as [[= -> ->]|Hne].
    + by rewrite rd_wr_eq.
    + rewrite rd_wr_ne by done. by eapply (wf_entry _ _ Hwf).
  - intros r p q Hp%wr_reaches. by eapply (wf_used _ _ Hwf).
Qed.
End write_entry.

(** *** Adding a table *)

Section add_table.
Context (m m1 : PhysMem Src) (roots : list Z) (r0 : Z) (path0 : list Z) (t i f : Z).
Context (Hwf : tree_wf m roots) (Hreach : reaches m roots r0 path0 t) (Hlen : (length path0 ≤ 1)%nat).
Context (Hu : user_path (path0 ++ [i])) (Hinv : pte_valid (rd m t i) = false).
Context (Halloc : frame_alloc m = Some (f, m1)).
Notation m' := (wr m1 t i (pte_new f VALID)).

Lemma alloc_facts :
  fs_ok (source m1) ∧ fs_free (source m) f ∧ ¬ fs_free (source m1) f ∧
  (∀ g, fs_free (source m1) g → fs_free (source m) g) ∧ 0 ≤ f < 2 ^ 44 ∧
  (∀ q j, rd m1 q j = if decide (q = f) then 0 else rd m q j) ∧
  (∀ q, q ≠ f → pages m1 !! q = pages m !! q).
Proof.
  unfold frame_alloc in Halloc. destruct (fs_alloc (source m)) as [[g s]|] eqn:Hs; [|done].
  simplify_eq/=. apply fs_alloc_law in Hs as (?&?&?&?&?); [|apply Hwf].
  do 5 (split; [done|]). split.
  - intros q j. unfold rd. simpl. rewrite map_lookup_filter.
    destruct (decide (q = f)) as [->|]; destruct (entries m !! _); simpl; try done.
    + rewrite option_guard_False by tauto. done.
    + rewrite option_guard_True by done. done.
  - intros q Hq. by rewrite lookup_insert_ne.
Qed.

Lemma fresh_unreached r p q : reaches m roots r p q → q ≠ f.
Proof. intros Hq ->. apply (wf_used _ _ Hwf _ _ _ Hq). by destruct alloc_facts as (_&?&_). Qed.

Lemma add_off_site : off_site m m' roots r0 path0 i.
Proof.
  intros r p q j Hq Hne. rewrite rd_wr_ne.
  - destruct alloc_facts as (_&_&_&_&_&->&_). rewrite decide_False; [done|]. by eapply fresh_unreached.
  - intros [= -> ->]. destruct (wf_inj _ _ Hwf _ _ _ _ _ Hq Hreach) as [-> ->]. done.
Qed.

Lemma fresh_entries j : rd m' f j = 0.
Proof.
  rewrite rd_wr_ne by (intros [= Hf _]; by apply (fresh_unreached _ _ _ Hreach)).
  destruct alloc_facts as (_&_&_&_&_&->&_). by rewrite decide_True.
Qed.

Lemma fresh_table k : table_at m' f k = if decide (k = []) then Some f else None.
Proof. destruct k as [|j k]; [done|]. simpl. by rewrite fresh_entries. Qed.

Lemma new_pointer : pte_table (pte_new f VALID) = true ∧ get_ppn (pte_new f VALID) = f.
Proof.
  assert (0 ≤ f < 2 ^ 44) by apply alloc_facts. unfold pte_table, pte_valid, pte_leaf.
  rewrite pte_flags_of_new, get_ppn_new by (unfold VALID; lia). done.
Qed.

Lemma invalid_no_table : pte_table (rd m t i) = false.
Proof. unfold pte_table. by rewrite Hinv. Qed.

(** The walks through the site: nowhere before, into the fresh table after. *)
Lemma site_table k :
  table_at m r0 (path0 ++ i :: k) = None ∧
  table_at m' r0 (path0 ++ i :: k) = if decide (k = []) then Some f else None.
Proof.
  destruct Hreach as (Hr&Hu0&Hl0&Ht). rewrite !table_at_app.
  rewrite (off_site_path0 add_off_site), Ht by (done || lia).
  simpl. rewrite invalid_no_table, rd_wr_eq. destruct new_pointer as [-> ->]. by rewrite fresh_table.
Qed.

Lemma add_reaches r p q :
  reaches m' roots r p q ↔ reaches m roots r p q ∨ r = r0 ∧ p = path0 ++ [i] ∧ q = f.
Proof.
  unfold reaches. destruct (decide (through r0 (path0 ++ [i]) r p)) as [[-> [k ->]]|Hnt].
  - rewrite <- app_assoc. simpl. destruct (site_table k) as [-> ->]. split.
    + intros (Hr&Hup&Hl&Hq). right. case_decide; simplify_eq. done.
    + intros [(_&_&_&?)|(_&Heq&->)]; [done|]. apply app_inv_head in Heq. simplify_eq.
      split; [apply Hreach|]. split; [done|]. split; [rewrite length_app; simpl; lia|done].
  - split.
    + intros (Hr&Hup&Hl&Hq). left.
      rewrite (off_site_table m _ roots r0 path0 i add_off_site) in Hq by (done || lia). done.
    + intros [(Hr&Hup&Hl&Hq)|(->&->&->)]; [|by destruct Hnt; split].
      by rewrite (off_site_table m _ roots r0 path0 i add_off_site) by (done || lia).
Qed.

Lemma add_wf : tree_wf m' roots.
Proof.
  pose proof alloc_facts as (Hok&Hf&Hnf&Hmono&Hr&Hrd&_). split.
  - done.
  - intros r r' p p' q [Hp|(->&->&->)]%add_reaches [Hp'|(->&->&?)]%add_reaches; [|..].
    + by eapply (wf_inj _ _ Hwf).
    + subst. by destruct (fresh_unreached _ _ _ Hp).
    + by destruct (fresh_unreached _ _ _ Hp').
    + done.
  - intros r p q j [Hp|(->&->&->)]%add_reaches Huj; [|by rewrite fresh_entries].
    destruct (decide ((q, j) = (t, i))) as [[= -> ->]|Hne].
    + rewrite rd_wr_eq. apply pte_new_ok; [done|unfold VALID; lia|done].
    + rewrite rd_wr_ne, Hrd, decide_False by (done || by eapply fresh_unreached).
      by eapply (wf_entry _ _ Hwf).
  - simpl. intros r p q [Hp|(->&->&->)]%add_reaches; [|done].
    intros Hq%Hmono. by eapply (wf_used _ _ Hwf).
Qed.

Lemma add_translate vpn r idxs :
  r ∈ roots → user_path idxs → length idxs = 3%nat →
  translate_loop m' vpn 0 r idxs = translate_loop m vpn 0 r idxs.
Proof.
  intros Hr Hui Hl. destruct (decide (through r0 (path0 ++ [i]) r idxs)) as [[-> [k ->]]|Hnt].
  - rewrite <- app_assoc in *. simpl in *. destruct Hreach as (_&_&_&Ht).
    destruct (site_translate m m' roots r0 path0 i Hwf add_off_site vpn k t) as [-> ->]; [done|done|lia|done|].
    destruct k as [|j k]; [rewrite length_app in Hl; simpl in Hl; lia|]. cbn [translate_loop].
    rewrite rd_wr_eq. destruct new_pointer as [Hp Hg].
    rewrite (get_flags_ok (rd m t i)), (get_flags_ok (pte_new f VALID)).
    + cbn [mbind comp_bind].
      fold (pte_valid (rd m t i)). rewrite Hinv. cbn [negb].
      fold (pte_valid (pte_new f VALID)) (pte_leaf (pte_new f VALID)).
      unfold pte_table in Hp. apply andb_true_iff in Hp as [-> Hnl%negb_true_iff]. rewrite Hnl. cbn [negb].
      rewrite Hg, fresh_entries. done.
    + apply pte_new_ok; [apply alloc_facts|unfold VALID; lia|done].
    + by eapply (wf_entry _ _ Hwf).
  - apply (off_site_translate m m' roots r0 path0 i Hwf add_off_site); [done|done|lia|done].
Qed.
End add_table.

(** *** Growing the tree *)

(** [m'] has the tables of [m] and perhaps more: every translation, every
    valid entry and every page in use is as before, and no leaf is new. *)
Record extends m m' (roots : list Z) : Prop := {
  ext_wf : tree_wf m' roots;
  ext_reaches r p q : reaches m roots r p q → reaches m' roots r p q;
  ext_reads r p q j : reaches m roots r p q → pte_valid (rd m q j) = true → rd m' q j = rd m q j;
  ext_leaves r p q j : reaches m' roots r p q → pte_valid (rd m' q j) = true →
    length p = 2%nat ∨ pte_leaf (rd m' q j) = true → reaches m roots r p q ∧ rd m q j = rd m' q j;
  ext_translate vpn r idxs : r ∈ roots → user_path idxs → length idxs = 3%nat →
    translate_loop m' vpn 0 r idxs = translate_loop m vpn 0 r idxs;
  ext_free g : fs_free (source m') g → fs_free (source m) g;
  ext_pages q : ¬ fs_free (source m) q → pages m' !! q = pages m !! q
}.

Lemma extends_refl m roots : tree_wf m roots → extends m m roots.
Proof. intros Hwf. by split. Qed.

Lemma extends_trans m m1 m2 roots : extends m m1 roots → extends m1 m2 roots → extends m m2 roots.
Proof.
  intros H1 H2. split.
  - apply H2.
  - intros. by eapply ext_reaches, ext_reaches.
  - intros r p q j Hq Hv. pose proof (ext_reads _ _ _ H1 _ _ _ _ Hq Hv) as He.
    rewrite <- He. eapply ext_reads; [done|by eapply ext_reaches|by rewrite He].
  - intros r p q j Hq Hv Hl. destruct (ext_leaves _ _ _ H2 _ _ _ _ Hq Hv Hl) as [Hq1 He].
    rewrite <- He in *. by eapply ext_leaves.
  - intros. rewrite (ext_translate _ _ _ H2), (ext_translate _ _ _ H1); done.
  - intros. by eapply ext_free, ext_free.
  - intros q Hq. rewrite (ext_pages _ _ _ H2), (ext_pages _ _ _ H1); [done|done|].
    intros Hf. by eapply Hq, ext_free.
Qed.

Lemma add_extends m m1 roots r0 path0 t i f :
  tree_wf m roots → reaches m roots r0 path0 t → (length path0 ≤ 1)%nat → user_path (path0 ++ [i]) →
  pte_valid (rd m t i) = false → frame_alloc m = Some (f, m1) →
  extends m (wr m1 t i (pte_new f VALID)) roots.
Proof.
  intros Hwf Hreach Hlen Hu Hinv Ha.
  pose proof (alloc_facts m m1 roots f Hwf Ha) as (_&Hf&_&Hmono&_&_&Hpages). split.
  - by eapply add_wf.
  - intros. eapply add_reaches; [done..|]. by left.
  - intros r p q j Hq Hv. eapply add_off_site; [done..|]. intros [= -> -> ->].
    destruct Hreach as (?&?&?&Ht), Hq as (?&?&?&Hq). congruence.
  - intros r p q j Hq Hv Hl. apply (add_reaches m m1 roots r0 path0 t i f) in Hq as [Hq|(->&->&->)];
      [|by erewrite fresh_entries in Hv by done|done..]. split; [done|]. destruct (decide ((r, p, j) = (r0, path0, i))) as [[= -> -> ->]|Hne].
    + assert (q = t) as -> by (destruct Hreach as (_&_&_&?), Hq as (_&_&_&?); congruence). rewrite rd_wr_eq in Hl.
      destruct (new_pointer m m1 roots path0 f Hwf Hlen Ha) as [Hp _]. unfold pte_table in Hp.
      destruct Hl as [?|Hl]; [lia|]. by rewrite Hl, andb_false_r in Hp.
    + symmetry. by eapply add_off_site.
  - intros. by eapply add_translate.
  - done.
  - simpl. intros q Hq. apply Hpages. by intros ->.
Qed.

Lemma has_frames_pred n s : has_frames (S n) s → has_frames n s.
Proof.
  revert s. induction n as [|n IH]; intros s (f&s'&Hs&Hn); [done|]. exists f, s'. split; [done|by apply IH].
Qed.

Lemma ensure_table_step m pt roots path0 p i rest n :
  tree_wf m roots → reaches m roots (root_ppn pt) path0 p → (length path0 ≤ 1)%nat →
  user_path (path0 ++ [i]) → slot_vacant m p (i :: rest) = true → rest ≠ [] → has_frames (S n) (source m) →
  ∃ m' pt' c, ensure_table m pt p i = Done (m', pt', c) ∧ root_ppn pt' = root_ppn pt ∧
    extends m m' roots ∧ reaches m' roots (root_ppn pt) (path0 ++ [i]) c ∧
    slot_vacant m' c rest = true ∧ has_frames n (source m').
Proof.
  intros Hwf Hreach Hlen Hu Hslot Hrest Hfr. unfold ensure_table.
  rewrite get_flags_ok by (by eapply (wf_entry _ _ Hwf)). cbn [mbind comp_bind].
  fold (pte_valid (rd m p i)). cbn [slot_vacant] in Hslot. destruct (pte_valid (rd m p i)) eqn:Hv; cbn [negb] in *.
  - destruct (pte_leaf (rd m p i)) eqn:Hl; [done|]. eexists _, _, _. split; [done|]. split; [done|].
    split; [by apply extends_refl|]. split; [|split; [done|by apply has_frames_pred]].
    destruct Hreach as (Hr&_&_&Hp). split; [done|]. split; [done|].
    split; [rewrite length_app; simpl; lia|]. rewrite table_at_app, Hp. simpl.
    unfold pte_table. by rewrite Hv, Hl.
  - destruct Hfr as (f&s'&Hs&Hn). unfold frame_alloc at 1. rewrite Hs. cbn [unwrap mbind comp_bind].
    set (m1 := mkMem _ _ _). assert (frame_alloc m = Some (f, m1)) as Ha.
    { unfold frame_alloc. by rewrite Hs. }
    eexists _, _, _. split; [done|]. split; [done|]. split; [by eapply add_extends|].
    rewrite rd_wr_eq. destruct (new_pointer m m1 roots path0 f Hwf Hlen Ha) as [_ ->].
    split; [eapply add_reaches; [done..|by right]|]. split; [|done].
    destruct rest as [|j rest]; [done|]. cbn [slot_vacant].
    by erewrite fresh_entries by done.
Qed.

(** [find_pte_create] on a free slot: the location of an invalid entry at the
    last level, in a tree that extends the old one. *)
Lemma create_loop_spec rest m pt roots path0 p n :
  tree_wf m roots → reaches m roots (root_ppn pt) path0 p → (length path0 + length rest = 3)%nat →
  user_path (path0 ++ rest) → rest ≠ [] → slot_vacant m p rest = true →
  has_frames (length rest - 1 + n) (source m) →
  ∃ m' pt' path t i, create_loop m pt (length path0) p rest = Done (m', pt', Some (t, i)) ∧
    root_ppn pt' = root_ppn pt ∧ extends m m' roots ∧ path ++ [i] = path0 ++ rest ∧
    length path = 2%nat ∧ reaches m' roots (root_ppn pt) path t ∧ pte_valid (rd m' t i) = false ∧
    has_frames n (source m').
Proof.
  revert m pt path0 p. induction rest as [|i rest IH]; intros m pt path0 p Hwf Hreach Hlen Hu Hne Hslot Hfr; [done|].
  cbn [create_loop]. destruct (Nat.eqb_spec (length path0) 2) as [H2|H2].
  - destruct rest as [|j rest]; [|simpl in Hlen; lia].
    exists m, pt, path0, p, i. split; [done|]. split; [done|]. split; [by apply extends_refl|].
    do 3 (split; [done|]). split; [|done]. cbn [slot_vacant] in Hslot. destruct (pte_valid _); [|done]. by destruct (pte_leaf _).
  - simpl in Hlen. destruct rest as [|j rest]; [simpl in Hlen; destruct Hreach as (_&_&?&_); lia|].
    destruct (ensure_table_step m pt roots path0 p i (j :: rest) (length (j :: rest) - 1 + n))
      as (m1&pt1&c&->&Hroot&Hext&Hc&Hs&Hn); [done|done|lia|by eapply user_path_snoc|done|done| |].
    { simpl in *. by rewrite Nat.sub_0_r. }
    cbn [mbind comp_bind]. specialize (IH m1 pt1 (path0 ++ [i]) c).
    rewrite length_app, <- app_assoc, Nat.add_1_r, Hroot in IH.
    destruct IH as (m2&pt2&path&t&k&Heq&Hroot2&Hext2&Hrest); try done; [apply Hext|simpl in *; lia|].
    exists m2, pt2, path, t, k. split; [done|]. split; [done|].
    split; [by eapply extends_trans|done].
Qed.

(** *** [map_by_pte_flags] *)

Lemma user_vpn_path vpn : user_vpn vpn → user_path (indexes vpn).
Proof.
  unfold user_vpn. intros Hv. rewrite indexes_mod. cbn [user_path]. change kernel_index with 256.
  rewrite Z.mod_small by (split; [apply Z.div_pos|apply Z.div_lt_upper_bound]; lia).
  apply Z.div_lt_upper_bound; lia.
Qed.

Lemma user_vpn_indexes vpn vpn' : user_vpn vpn → user_vpn vpn' → indexes vpn = indexes vpn' → vpn = vpn'.
Proof.
  unfold user_vpn. rewrite !indexes_mod. intros Hv Hv' [= H0 H1 H2].
  change (2 ^ 18) with (2 ^ 9 * 512) in *. change (2 ^ 9) with 512 in *. rewrite <- !Z.div_div in H0 by lia.
  pose proof (Z.div_mod vpn 512 ltac:(lia)). pose proof (Z.div_mod vpn' 512 ltac:(lia)).
  pose proof (Z.div_mod (vpn / 512) 512 ltac:(lia)). pose proof (Z.div_mod (vpn' / 512) 512 ltac:(lia)).
  assert (∀ z, 0 ≤ z < 2 ^ 26 → (z / 512 / 512) mod 512 = z / 512 / 512) as Hs.
  { intros z Hz. apply Z.mod_small. rewrite Z.div_div by lia.
    split; [apply Z.div_pos|apply Z.div_lt_upper_bound]; lia. }
  rewrite !Hs in H0 by done. lia.
Qed.

Lemma length_indexes vpn : length (indexes vpn) = 3%nat.
Proof. by rewrite indexes_eq. Qed.

Lemma ext_translate_page m m' roots r fr vpn :
  extends m m' roots → r ∈ roots → user_vpn vpn →
  translate m' (mkPt r fr) vpn = translate m (mkPt r fr) vpn.
Proof.
  intros Hext Hr Hu. apply (ext_translate _ _ _ Hext); [done|by apply user_vpn_path|apply length_indexes].
Qed.

(** *** The walk to a leaf *)

Lemma find_loop_leaf rest m roots r path0 p k :
  tree_wf m roots → reaches m roots r path0 p → (length path0 + length rest = 3)%nat →
  user_path (path0 ++ rest) → leaf_depth m p rest = Some k →
  ∃ path t i, find_loop m (length path0) p rest = Done (Some (t, i)) ∧ path ++ [i] = path0 ++ take k rest ∧
    reaches m roots r path t ∧ pte_valid (rd m t i) = true ∧ pte_leaf (rd m t i) = true.
Proof.
  intros Hwf. revert path0 p k. induction rest as [|i rest IH]; intros path0 p k Hreach Hlen Hu Hk; [done|].
  cbn [find_loop]. rewrite get_flags_ok by (eapply (wf_entry _ _ Hwf); [done|by eapply user_path_snoc]).
  cbn [mbind comp_bind leaf_depth] in *. fold (pte_valid (rd m p i)) (pte_leaf (rd m p i)).
  destruct (pte_valid (rd m p i)) eqn:Hv; [|done]. cbn [negb] in *.
  destruct (pte_leaf (rd m p i)) eqn:Hl.
  - simplify_eq. rewrite andb_true_r. exists path0, p, i. split; [|by destruct rest].
    destruct (Nat.eqb_spec (length path0) 2); [done|]. simpl in Hlen.
    destruct Hreach as (_&_&?&_). by destruct (Nat.ltb_spec (length path0) 2); [|lia].
  - apply fmap_Some in Hk as (k'&Hk&->). destruct (Nat.eqb_spec (length path0) 2) as [H2|H2].
    { destruct rest; [done|simpl in Hlen; lia]. }
    rewrite !andb_false_r. cbn [orb]. specialize (IH (path0 ++ [i]) (get_ppn (rd m p i)) k').
    rewrite length_app, <- !app_assoc, Nat.add_1_r in IH. apply IH; [|simpl in *; lia|done|done].
    destruct Hreach as (Hr&_&Hl0&Ht). split; [done|]. split; [by eapply user_path_snoc|].
    split; [rewrite length_app; simpl; lia|]. rewrite table_at_app, Ht. simpl.
    unfold pte_table. by rewrite Hv, Hl.
Qed.

(** The leaf of a page: its table, index and path, as [find_valid_pte] gives it. *)
Lemma find_valid_pte_leaf m pt roots vpn k :
  tree_wf m roots → root_ppn pt ∈ roots → user_vpn vpn →
  leaf_depth m (root_ppn pt) (indexes vpn) = Some k →
  ∃ path t i, find_pte m pt vpn = Done (Some (t, i)) ∧
    find_valid_pte m pt vpn = Done (Some (t, i, rd m t i)) ∧
    path ++ [i] = take k (indexes vpn) ∧ reaches m roots (root_ppn pt) path t ∧
    pte_ok (rd m t i) ∧ pte_valid (rd m t i) = true ∧ pte_leaf (rd m t i) = true.
Proof.
  intros Hwf Hroot Hu%user_vpn_path Hk.
  destruct (find_loop_leaf (indexes vpn) m roots (root_ppn pt) [] (root_ppn pt) k)
    as (path&t&i&Hf&Hpath&Hreach&Hv&Hl); [done|by repeat split; simpl; auto with lia|apply length_indexes|done|done|].
  assert (pte_ok (rd m t i)) as Hok.
  { eapply (wf_entry _ _ Hwf); [done|]. simpl in Hpath. rewrite Hpath.
    apply (user_path_prefix _ (drop k (indexes vpn))). by rewrite take_drop. }
  exists path, t, i. unfold find_valid_pte, find_pte. change 0%nat with (length (@nil Z)). rewrite Hf.
  cbn [mbind comp_bind]. rewrite get_flags_ok by done. cbn [mbind comp_bind].
  fold (pte_valid (rd m t i)). rewrite Hv. done.
Qed.

Lemma prefix_take {A} (l k : list A) n : length l = n → (n ≤ length k)%nat → l `prefix_of` k ↔ take n k = l.
Proof.
  intros <- Hk. split.
  - intros [k' ->]. by rewrite take_app_length.
  - intros Heq. exists (drop (length l) k). by rewrite <- Heq at 1; rewrite take_drop.
Qed.

Lemma leaf_depth_bound m p idxs k : leaf_depth m p idxs = Some k → (1 ≤ k ≤ length idxs)%nat.
Proof.
  revert p k. induction idxs as [|i idxs IH]; intros p k; [done|]. cbn [leaf_depth length].
  destruct (negb _); [done|]. destruct (pte_leaf _); [intros [= <-]; lia|].
  intros (k'&Hk'&->)%fmap_Some. apply IH in Hk'. lia.
Qed.

(** *** Leaves at the last level *)

(** Entry [i] of table [t] is the last entry of the walk for [vpn] from [r]. *)
Definition slot_of m (roots : list Z) (r vpn t i : Z) : Prop :=
  ∃ path, length path = 2%nat ∧ path ++ [i] = indexes vpn ∧ reaches m roots r path t.

Lemma find_loop_app m lvl p q l k :
  table_at m p l = Some q → (lvl + length l ≤ 2)%nat →
  (∀ l1 j l2 t, l = l1 ++ j :: l2 → table_at m p l1 = Some t → pte_ok (rd m t j)) →
  find_loop m lvl p (l ++ k) = find_loop m (lvl + length l) q k.
Proof.
  revert lvl p. induction l as [|i l IH]; intros lvl p Hq Hlen Hok; simpl in *.
  { simplify_eq. by rewrite Nat.add_0_r. }
  destruct (pte_table (rd m p i)) eqn:Ht; [|done].
  rewrite get_flags_ok by by apply (Hok [] i l p). cbn [mbind comp_bind].
  pose proof Ht as Hvl. unfold pte_table, pte_valid, pte_leaf in Hvl.
  apply andb_true_iff in Hvl as [Hv Hl%negb_true_iff]. rewrite Hv, Hl, andb_false_r.
  destruct (Nat.eqb_spec lvl 2); [lia|]. cbn [orb negb].
  rewrite IH; [by rewrite Nat.add_succ_r|done|lia|].
  intros l1 j l2 t -> Hl1. apply (Hok (i :: l1) j l2 t); [done|]. simpl. by rewrite Ht.
Qed.

Section slot.
Context (m : PhysMem Src) (roots : list Z) (pt : PageTable) (vpn t i : Z).
Context (Hwf : tree_wf m roots) (Hu : user_vpn vpn) (Hslot : slot_of m roots (root_ppn pt) vpn t i).

Lemma slot_ok : pte_ok (rd m t i).
Proof.
  destruct Hslot as (path&_&Hpath&Hreach). eapply (wf_entry _ _ Hwf); [done|].
  rewrite Hpath. by apply user_vpn_path.
Qed.

Lemma slot_path_ok path : length path = 2%nat → path ++ [i] = indexes vpn → root_ppn pt ∈ roots →
  ∀ l1 j l2 q, path = l1 ++ j :: l2 → table_at m (root_ppn pt) l1 = Some q → pte_ok (rd m q j).
Proof.
  intros Hlen Hpath Hr l1 j l2 q Hl Hq. pose proof (user_vpn_path vpn Hu) as Hup. rewrite <- Hpath in Hup.
  apply user_path_prefix in Hup. eapply (wf_entry _ _ Hwf).
  - eapply (walk_reaches m roots (root_ppn pt) path); [done|done|lia|done|done].
  - rewrite Hl in Hup. by eapply user_path_snoc.
Qed.

Lemma slot_find : pte_valid (rd m t i) = true → find_valid_pte m pt vpn = Done (Some (t, i, rd m t i)).
Proof.
  intros Hv. pose proof slot_ok as Hok. destruct Hslot as (path&Hlen&Hpath&(Hr&_&_&Ht)).
  unfold find_valid_pte, find_pte. rewrite <- Hpath.
  rewrite (find_loop_app _ _ _ t) by (done || lia || by eapply slot_path_ok). rewrite Hlen.
  cbn [find_loop]. rewrite get_flags_ok by done. cbn. rewrite get_flags_ok by done. cbn.
  by fold (pte_valid (rd m t i)); rewrite Hv.
Qed.

Lemma slot_translate : pte_valid (rd m t i) = true → pte_leaf (rd m t i) = true →
  translate m pt vpn = Done (Some (get_ppn (rd m t i))).
Proof.
  intros Hv Hl. pose proof slot_ok as Hok. destruct Hslot as (path&Hlen&Hpath&(Hr&_&_&Ht)).
  unfold translate. rewrite <- Hpath.
  rewrite (translate_loop_app _ _ _ _ t) by (done || by eapply slot_path_ok). rewrite Hlen.
  cbn [translate_loop]. rewrite get_flags_ok by done. cbn [mbind comp_bind].
  fold (pte_valid (rd m t i)) (pte_leaf (rd m t i)). rewrite Hv, Hl. simpl. by rewrite Z.land_0_r, Z.add_0_r.
Qed.

Lemma slot_leaf_has p : pte_valid (rd m t i) = true → leaf_has m pt vpn p = Done (p (pte_flags_of (rd m t i))).
Proof.
  intros Hv. unfold leaf_has. rewrite slot_find by done. cbn [mbind comp_bind].
  by rewrite get_flags_ok by apply slot_ok.
Qed.

(** Rewriting the entry keeps the slot and the rest of the tree. *)
Lemma slot_write b : pte_ok b →
  tree_wf (wr m t i b) roots ∧ slot_of (wr m t i b) roots (root_ppn pt) vpn t i ∧
  (∀ r p q, reaches (wr m t i b) roots r p q ↔ reaches m roots r p q) ∧
  (∀ r fr vpn', r ∈ roots → user_vpn vpn' → (r, vpn') ≠ (root_ppn pt, vpn) →
     translate (wr m t i b) (mkPt r fr) vpn' = translate m (mkPt r fr) vpn').
Proof.
  intros Hb. destruct Hslot as (path&Hlen&Hpath&Hreach).
  assert (∀ r p q, reaches (wr m t i b) roots r p q ↔ reaches m roots r p q) as Hiff.
  { intros. eapply wr_reaches; [done|done|by left]. }
  split; [by eapply wr_wf; [..|left|]|]. split; [exists path; by rewrite Hiff|]. split; [done|].
  intros r fr vpn' Hr Hu' Hne. unfold translate. cbn [root_ppn].
  apply (off_site_translate m _ roots (root_ppn pt) path i);
    [done|by apply wr_off_site|done|by apply user_vpn_path|by rewrite length_indexes|].
  intros [-> Hpre]. apply Hne. f_equal. apply user_vpn_indexes; [done|done|].
  rewrite Hpath in Hpre. rewrite (prefix_take _ _ 3) in Hpre by (by rewrite length_indexes).
  rewrite <- Hpre. by rewrite take_ge by (by rewrite length_indexes).
Qed.

(** Two slots of different pages are different entries. *)
Lemma slot_other pt' vpn' t' i' : slot_of m roots (root_ppn pt') vpn' t' i' → user_vpn vpn' →
  (root_ppn pt', vpn') ≠ (root_ppn pt, vpn) → (t', i') ≠ (t, i).
Proof.
  intros (path'&_&Hpath'&Hreach') Hu' Hne [= -> ->]. destruct Hslot as (path&_&Hpath&Hreach).
  destruct (wf_inj _ _ Hwf _ _ _ _ _ Hreach' Hreach) as [Hr ->]. apply Hne. rewrite Hr. f_equal.
  apply user_vpn_indexes; [done|done|]. congruence.
Qed.
End slot.

Lemma slot_reaches m m' roots r vpn t i : (∀ r p q, reaches m roots r p q → reaches m' roots r p q) →
  slot_of m roots r vpn t i → slot_of m' roots r vpn t i.
Proof. intros Hr (path&?&?&?). exists path. auto. Qed.

(** A page with a 4 KiB leaf has a slot. *)
Lemma leaf_slot m pt roots vpn :
  tree_wf m roots → root_ppn pt ∈ roots → user_vpn vpn →
  leaf_depth m (root_ppn pt) (indexes vpn) = Some 3%nat →
  ∃ t i, slot_of m roots (root_ppn pt) vpn t i ∧ pte_valid (rd m t i) = true ∧ pte_leaf (rd m t i) = true.
Proof.
  intros Hwf Hroot Hu Hk. destruct (find_valid_pte_leaf m pt roots vpn 3) as (path&t&i&_&_&Hpath&Hreach&_&Hv&Hl); [done..|].
  exists t, i. split; [|done]. exists path. rewrite take_ge in Hpath by (by rewrite length_indexes).
  split; [|done]. apply (f_equal length) in Hpath. rewrite length_app, length_indexes in Hpath. simpl in Hpath. lia.
Qed.

(** Taking a frame for data touches no table. *)
Lemma alloc_extends m m1 roots f : tree_wf m roots → frame_alloc m = Some (f, m1) → extends m m1 roots.
Proof.
  intros Hwf Ha. pose proof (alloc_facts m m1 roots f Hwf Ha) as (Hok&Hf&Hnf&Hmono&_&Hrd&Hpages).
  assert (∀ r p q j, reaches m roots r p q → rd m1 q j = rd m q j) as Hsame.
  { intros r p q j Hq. rewrite Hrd, decide_False; [done|]. by eapply fresh_unreached. }
  assert (∀ r p q, reaches m1 roots r p q ↔ reaches m roots r p q) as Hiff.
  { intros r p q. enough (r ∈ roots → user_path p → (length p ≤ 2)%nat → table_at m1 r p = table_at m r p) as Heq.
    { unfold reaches. split; intros (Hr&Hu&Hl&Hq); rewrite Heq in * by done; done. }
    intros Hr Hu Hl. apply table_at_ext. intros l j k t Hp Ht. eapply Hsame.
    eapply (walk_reaches m roots r p); [done|done|lia|done|done]. }
  split; [split|..]; try done.
  - intros r r' p p' q Hp%Hiff Hp'%Hiff. by eapply (wf_inj _ _ Hwf).
  - intros r p q j Hp%Hiff Hu. erewrite Hsame by done. by eapply (wf_entry _ _ Hwf).
  - intros r p q Hp%Hiff Hfree%Hmono. by eapply (wf_used _ _ Hwf).
  - intros. by apply Hiff.
  - intros. by eapply Hsame.
  - intros r p q j Hq%Hiff _ _. split; [done|]. symmetry. by eapply Hsame.
  - intros vpn r idxs Hr Hu Hl. apply translate_loop_ext; intros l j k q -> Hq.
    + eapply Hsame. eapply (walk_reaches m roots r (l ++ j :: k)); [done|done|lia|done|done].
    + eapply (wf_entry _ _ Hwf); [eapply (walk_reaches m roots r (l ++ j :: k)); [done|done|lia|done|done]|].
      by eapply user_path_snoc.
  - intros q Hq. apply Hpages. by intros ->.
Qed.

(** The tables do not depend on the contents of data pages. *)
Definition set_pages m (P : gmap Z (list Z)) : PhysMem Src := mkMem (entries m) P (source m).

Lemma set_pages_table m P p l : table_at (set_pages m P) p l = table_at m p l.
Proof. by apply table_at_ext. Qed.

Lemma set_pages_wf m P roots : tree_wf m roots → tree_wf (set_pages m P) roots.
Proof.
  intros Hwf. assert (∀ r p q, reaches (set_pages m P) roots r p q ↔ reaches m roots r p q) as Hiff.
  { intros. unfold reaches. by rewrite set_pages_table. }
  split; [apply Hwf|..].
  - intros r r' p p' q Hp%Hiff Hp'%Hiff. by eapply (wf_inj _ _ Hwf).
  - intros r p q j Hp%Hiff. by apply (wf_entry _ _ Hwf _ _ _ _ Hp).
  - intros r p q Hp%Hiff. by apply (wf_used _ _ Hwf _ _ _ Hp).
Qed.

Lemma set_pages_slot m P roots r vpn t i : slot_of m roots r vpn t i → slot_of (set_pages m P) roots r vpn t i.
Proof. apply slot_reaches. intros r' p q. unfold reaches. by rewrite set_pages_table. Qed.

Lemma set_pages_translate m P pt vpn : translate (set_pages m P) pt vpn = translate m pt vpn.
Proof.
  unfold translate. generalize 0%nat as lvl, (root_ppn pt) as p.
  induction (indexes vpn) as [|i idxs IH]; intros lvl p; [done|]. cbn [translate_loop].
  change (rd (set_pages m P) p i) with (rd m p i). destruct (get_flags _); [|done]. cbn [mbind comp_bind].
  by rewrite IH.
Qed.

(** What the MMU checks for a store. *)
Definition hw_writable m (pt : PageTable) (vpn : Z) : comp bool :=
  leaf_has m pt vpn (λ f, contains f WRITEABLE).

Lemma slot_vacant_ext m m' p idxs :
  (∀ l j k q, idxs = l ++ j :: k → table_at m p l = Some q → rd m' q j = rd m q j) →
  slot_vacant m' p idxs = slot_vacant m p idxs.
Proof.
  revert p. induction idxs as [|i idxs IH]; intros p Hext; [done|]. cbn [slot_vacant].
  rewrite (Hext [] i idxs p) by done. destruct (negb _) eqn:Hv; [done|]. destruct (pte_leaf _) eqn:Hl; [done|].
  apply IH. intros l j k q -> Hq. apply (Hext (i :: l) j k q); [done|]. simpl.
  unfold pte_table. apply negb_false_iff in Hv. by rewrite Hv, Hl.
Qed.

(** A write in one address space leaves the free slots of the others. *)
Lemma slot_vacant_other m roots r r' vpn vpn' t i b :
  tree_wf m roots → slot_of m roots r vpn t i → r' ∈ roots → r' ≠ r → user_vpn vpn' →
  slot_vacant (wr m t i b) r' (indexes vpn') = slot_vacant m r' (indexes vpn').
Proof.
  intros Hwf (path&Hlen&Hpath&Hreach) Hr' Hne Hu. apply slot_vacant_ext. intros l j k q Hl Hq.
  eapply (off_site_read m _ roots r path i); [by apply wr_off_site|done|by apply user_vpn_path|
    by rewrite length_indexes|by intros [? _]|done|done].
Qed.

(** *** The effect of [map_by_pte_flags] *)

Lemma map_by_pte_flags_room m pt roots vpn ppn flags n :
  tree_wf m roots → root_ppn pt ∈ roots → user_vpn vpn →
  slot_vacant m (root_ppn pt) (indexes vpn) = true → has_frames (2 + n) (source m) →
  ∃ m1 pt' t i,
    map_by_pte_flags m pt vpn ppn flags = Done (wr m1 t i (pte_new ppn (Z.lor flags VALID)), pt') ∧
    root_ppn pt' = root_ppn pt ∧ extends m m1 roots ∧ slot_of m1 roots (root_ppn pt) vpn t i ∧
    has_frames n (source m1).
Proof.
  intros Hwf Hroot Hu%user_vpn_path Hslot Hfr. unfold map_by_pte_flags, find_pte_create.
  destruct (create_loop_spec (indexes vpn) m pt roots [] (root_ppn pt) n)
    as (m1&pt'&path&t&i&Heq&Hr&Hext&Hpath&Hlen&Hreach&Hv&Hroom);
    [done|by repeat split; simpl; auto with lia|apply length_indexes|done|by rewrite indexes_eq|done|done|].
  change 0%nat with (length (@nil Z)). rewrite Heq. cbn [mbind comp_bind unwrap].
  rewrite get_flags_ok.
  - cbn [mbind comp_bind]. fold (pte_valid (rd m1 t i)). rewrite Hv. simpl.
    exists m1, pt', t, i. split; [done|]. split; [done|]. split; [done|]. split; [by exists path|done].
  - eapply wf_entry; [apply Hext|done|]. rewrite Hpath. done.
Qed.

Lemma map_by_pte_flags_spec m pt roots vpn ppn flags :
  tree_wf m roots → root_ppn pt ∈ roots → user_vpn vpn →
  slot_vacant m (root_ppn pt) (indexes vpn) = true → has_frames 2 (source m) →
  ∃ m1 pt' t i,
    map_by_pte_flags m pt vpn ppn flags = Done (wr m1 t i (pte_new ppn (Z.lor flags VALID)), pt') ∧
    root_ppn pt' = root_ppn pt ∧ extends m m1 roots ∧ slot_of m1 roots (root_ppn pt) vpn t i.
Proof.
  intros. destruct (map_by_pte_flags_room m pt roots vpn ppn flags 0) as (m1&pt'&t&i&?&?&?&?&_); [done..|].
  by exists m1, pt', t, i.
Qed.

End tree.

(** ** Properties of [map], [unmap] and [translate] *)

(** Mapping a free slot with two frames to spare for tables cannot fail:
    afterwards the page translates to the frame, no other page of this or any
    other address space with a root in [roots] translates differently, no page
    in use is overwritten, and the tables are well formed again. *)
Theorem map_installs `{FrameSource Src} (m : PhysMem Src) (pt : PageTable) (roots : list Z) (vpn ppn flags : Z) :
  tree_wf m roots → root_ppn pt ∈ roots → user_vpn vpn → 0 ≤ ppn < 2 ^ 44 →
  flags_ok flags → intersects flags RWX = true →
  slot_vacant m (root_ppn pt) (indexes vpn) = true → has_frames 2 (source m) →
  ∃ m' pt', map_by_pte_flags m pt vpn ppn flags = Done (m', pt') ∧ root_ppn pt' = root_ppn pt ∧
    tree_wf m' roots ∧ translate m' pt' vpn = Done (Some ppn) ∧
    (∀ r fr vpn', r ∈ roots → user_vpn vpn' → (r, vpn') ≠ (root_ppn pt, vpn) →
       translate m' (mkPt r fr) vpn' = translate m (mkPt r fr) vpn') ∧
    (∀ q, ¬ fs_free (source m) q → pages m' !! q = pages m !! q).
Proof.
  intros Hwf Hroot Hu Hp Hf Hrwx Hslot Hfr.
  destruct (map_by_pte_flags_spec m pt roots vpn ppn flags)
    as (m1&pt'&t&i&->&Hr&Hext&Hslot1); try done.
  destruct (new_leaf ppn flags) as (Hb&Hok&Hv&Hl&Hg); [done..|].
  destruct (slot_write m1 roots pt vpn t i (ext_wf _ _ _ Hext) Hu Hslot1 _ Hok) as (Hwf'&Hslot'&_&Hother).
  eexists _, pt'. split; [done|]. split; [done|]. split; [done|]. split; [|split].
  - rewrite <- Hr in Hslot'. rewrite (slot_translate _ roots pt' vpn t i), rd_wr_eq by (rewrite ?rd_wr_eq; done).
    by rewrite Hg.
  - intros r fr vpn' Hr' Hu' Hne. rewrite Hother by done. by eapply ext_translate_page.
  - apply Hext.
Qed.

(** Unmapping a mapped page, of whatever leaf size, removes exactly that
    leaf: the pages under it no longer translate and every other page of every
    address space with a root in [roots] translates as before. *)
Theorem unmap_exact `{FrameSource Src} (m : PhysMem Src) (pt : PageTable) (roots : list Z) (vpn : Z) (k : nat) :
  tree_wf m roots → root_ppn pt ∈ roots → user_vpn vpn →
  leaf_depth m (root_ppn pt) (indexes vpn) = Some k →
  ∃ m', unmap m pt vpn = Done m' ∧ tree_wf m' roots ∧ pages m' = pages m ∧
    ∀ r fr vpn', r ∈ roots → user_vpn vpn' →
      translate m' (mkPt r fr) vpn' =
        if decide (r = root_ppn pt ∧ take k (indexes vpn') = take k (indexes vpn)) then Done None
        else translate m (mkPt r fr) vpn'.
Proof.
  intros Hwf Hroot Hu Hk.
  destruct (find_valid_pte_leaf m pt roots vpn k) as (path&t&i&Hfind&_&Hpath&Hreach&Hok&Hv&Hl); [done..|].
  pose proof (leaf_depth_bound _ _ _ _ Hk) as Hkb. rewrite length_indexes in Hkb.
  unfold unmap. rewrite Hfind. cbn [mbind comp_bind]. rewrite get_flags_ok by done. cbn [mbind comp_bind].
  fold (pte_valid (rd m t i)). rewrite Hv. eexists. split; [done|].
  split.
  { eapply wr_wf; [done|done| |done]. right. unfold pte_table. by rewrite Hl, andb_false_r. }
  split; [done|]. intros r fr vpn' Hr Hu'. apply user_vpn_path in Hu'. unfold translate. cbn [root_ppn].
  assert (through (root_ppn pt) (path ++ [i]) r (indexes vpn') ↔
          r = root_ppn pt ∧ take k (indexes vpn') = take k (indexes vpn)) as Hthrough.
  { unfold through. rewrite Hpath, (prefix_take _ _ k); [done|rewrite length_take|]; rewrite length_indexes; lia. }
  case_decide as Hd; apply Hthrough in Hd || rewrite <- Hthrough in Hd.
  - destruct Hd as [-> [k' Hk']]. rewrite <- app_assoc in Hk'. simpl in Hk'. rewrite Hk' in *.
    destruct Hreach as (_&?&?&Ht).
    destruct (site_translate m (wr m t i 0) roots (root_ppn pt) path i Hwf) with (vpn := vpn') (k := k') (t := t)
      as [_ ->]; [by apply wr_off_site|done|done|done|done|].
    cbn [translate_loop]. by rewrite rd_wr_eq.
  - apply (off_site_translate m _ roots (root_ppn pt) path i); [done|by apply wr_off_site|done|done| |done].
    by rewrite length_indexes.
Qed.

(** ** Copy on write *)

(** A leaf for [ppn] with the given writable and copy-on-write bits. *)
Definition leaf_with (w c : bool) (ppn b : Z) : Prop :=
  pte_ok b ∧ pte_valid b = true ∧ pte_leaf b = true ∧ get_ppn b = ppn ∧
  contains (pte_flags_of b) WRITEABLE = w ∧ contains (pte_flags_of b) COW = c.
Notation cow_leaf := (leaf_with false true).
Notation private_leaf := (leaf_with true false).

(** The entries fork writes for the parent and for the child. *)
Lemma cow_leaf_entries bits :
  pte_ok bits → pte_valid bits = true → contains (pte_flags_of bits) READABLE = true →
  let fl := cow_flags (pte_flags_of bits) in
  cow_leaf (get_ppn bits) (set_flags bits fl) ∧ cow_leaf (get_ppn bits) (pte_new (get_ppn bits) (Z.lor fl VALID)).
Proof.
  intros Hok Hv Hr fl. pose proof (flags_ok_of _ Hok) as Hfok.
  destruct (cow_flags_spec (pte_flags_of bits)) as (Hcok&Hcv&Hcl&Hcw&Hcc); [done..|]. fold fl in Hcok, Hcv, Hcl, Hcw, Hcc.
  split.
  - unfold leaf_with, pte_valid, pte_leaf.
    rewrite set_flags_ppn, set_flags_flags by apply Hcok. pose proof (set_flags_ok bits fl Hcok). done.
  - destruct (new_leaf (get_ppn bits) fl) as (Hnf&Hnok&Hnv&Hnl&Hng); [apply get_ppn_range|done..|].
    unfold leaf_with. do 4 (split; [done|]). rewrite Hnf. destruct (flag_bit fl) as (_&_&Ew&_&Ec).
    rewrite Ew in Hcw. rewrite Ec in Hcc. split; flag_bits; [by rewrite Hcw|by rewrite Hcc].
Qed.

Lemma leaf_with_seen `{FrameSource Src} (m : PhysMem Src) roots pt vpn t i w c ppn :
  tree_wf m roots → user_vpn vpn → slot_of m roots (root_ppn pt) vpn t i → leaf_with w c ppn (rd m t i) →
  translate m pt vpn = Done (Some ppn) ∧ hw_writable m pt vpn = Done w ∧ is_cow_page m pt vpn = Done c.
Proof.
  intros Hwf Hu Hslot (Hok&Hv&Hl&Hp&Hw&Hc). unfold hw_writable, is_cow_page.
  rewrite (slot_translate _ roots pt vpn t i), Hp by done. split; [done|].
  rewrite !(slot_leaf_has _ roots pt vpn t i) by done. by rewrite Hw, Hc.
Qed.

(** What fork does to one page of the parent. *)
Lemma handle_cow_mapping_eq `{FrameSource Src} (m : PhysMem Src) pt child roots vpn t i :
  tree_wf m roots → user_vpn vpn → slot_of m roots (root_ppn pt) vpn t i →
  pte_valid (rd m t i) = true → pte_leaf (rd m t i) = true → contains (pte_flags_of (rd m t i)) WRITEABLE = true →
  handle_cow_mapping_from_exited_user m pt child vpn =
    map_by_pte_flags (wr m t i (set_flags (rd m t i) (cow_flags (pte_flags_of (rd m t i))))) child vpn
      (get_ppn (rd m t i)) (cow_flags (pte_flags_of (rd m t i))).
Proof.
  intros Hwf Hu Hslot Hv Hl Hw. unfold handle_cow_mapping_from_exited_user.
  rewrite (slot_translate _ roots pt vpn t i) by done. cbn [mbind comp_bind].
  rewrite (slot_find _ roots pt vpn t i) by done. cbn [mbind comp_bind].
  rewrite get_flags_ok by (by eapply slot_ok). cbn [mbind comp_bind]. by rewrite Hw.
Qed.

(** Fork shares a writable page copy on write: afterwards parent and child
    translate it to the frame the parent had, neither may store to it without a
    fault, both are marked copy on write, and no other page of any address
    space and no byte in use has changed. *)
Theorem fork_shares_cow `{FrameSource Src} (m : PhysMem Src) (pt child : PageTable) (roots : list Z) (vpn : Z) :
  tree_wf m roots → root_ppn pt ∈ roots → root_ppn child ∈ roots → root_ppn pt ≠ root_ppn child →
  user_vpn vpn → leaf_depth m (root_ppn pt) (indexes vpn) = Some 3%nat →
  is_user_writable m pt vpn = Done true → is_user_readable m pt vpn = Done true →
  slot_vacant m (root_ppn child) (indexes vpn) = true → has_frames 2 (source m) →
  ∃ m' child' ppn, handle_cow_mapping_from_exited_user m pt child vpn = Done (m', child') ∧
    root_ppn child' = root_ppn child ∧ tree_wf m' roots ∧ translate m pt vpn = Done (Some ppn) ∧
    (∀ p, p = pt ∨ p = child' → translate m' p vpn = Done (Some ppn) ∧
       hw_writable m' p vpn = Done false ∧ is_cow_page m' p vpn = Done true) ∧
    (∀ r fr vpn', r ∈ roots → user_vpn vpn' →
       (r, vpn') ≠ (root_ppn pt, vpn) → (r, vpn') ≠ (root_ppn child, vpn) →
       translate m' (mkPt r fr) vpn' = translate m (mkPt r fr) vpn') ∧
    (∀ q, ¬ fs_free (source m) q → pages m' !! q = pages m !! q).
Proof.
  intros Hwf Hr Hrc Hne Hu Hk Hw Hrd Hfree Hfr.
  destruct (leaf_slot m pt roots vpn) as (t&i&Hslot&Hv&Hl); [done..|].
  assert (pte_ok (rd m t i)) as Hok by (by eapply slot_ok).
  unfold is_user_writable, is_user_readable in Hw, Hrd.
  rewrite (slot_leaf_has _ roots pt vpn t i), !contains_lor in Hw by done.
  rewrite (slot_leaf_has _ roots pt vpn t i), contains_lor in Hrd by done.
  injection Hw as Hw. injection Hrd as Hrd. split_bools.
  rewrite (handle_cow_mapping_eq m pt child roots vpn t i) by done.
  destruct (cow_leaf_entries (rd m t i)) as [Hb Hc]; [done..|].
  set (fl := cow_flags _) in *. set (ppn := get_ppn (rd m t i)) in *.
  set (b := set_flags (rd m t i) fl) in *. set (c := pte_new ppn (Z.lor fl VALID)) in *.
  destruct (slot_write m roots pt vpn t i Hwf Hu Hslot b (proj1 Hb)) as (Hwf1&Hslot1&Hiff1&Hother1).
  destruct (map_by_pte_flags_spec (wr m t i b) child roots vpn ppn fl)
    as (m2&child'&tc&ic&->&Hrc'&Hext&Hslotc); [done..|by erewrite slot_vacant_other|done|].
  pose proof (ext_wf _ _ _ Hext) as Hwf2.
  assert (slot_of m2 roots (root_ppn pt) vpn t i) as Hslot2.
  { eapply slot_reaches; [|done]. intros. by eapply ext_reaches. }
  destruct (slot_write m2 roots child vpn tc ic Hwf2 Hu Hslotc c (proj1 Hc)) as (Hwf3&Hslot3&Hiff3&Hother3).
  exists (wr m2 tc ic c), child', ppn. split; [done|]. split; [done|]. split; [done|].
  split; [by apply (slot_translate _ roots)|]. split; [|split; [|apply Hext]].
  - intros p [-> | ->]; [apply (leaf_with_seen _ roots _ _ t i)|apply (leaf_with_seen _ roots _ _ tc ic)]; try done.
    + eapply slot_reaches; [|exact Hslot2]. intros. by apply Hiff3.
    + rewrite rd_wr_ne by (eapply (slot_other m2 roots child vpn tc ic); [done..|by intros [= ?]]).
      destruct Hslot1 as (path&_&_&Hreach1).
      rewrite (ext_reads _ _ _ Hext _ _ _ _ Hreach1); rewrite rd_wr_eq; [done|apply Hb].
    + by rewrite Hrc'.
    + by rewrite rd_wr_eq.
  - intros r fr vpn' Hr' Hu' Hn1 Hn2. rewrite Hother3, <- (Hother1 r fr vpn') by done. by eapply ext_translate_page.
Qed.

(** The flags a write fault gives to a page it made private. *)
Lemma private_flags flags :
  flags_ok flags → contains flags VALID = true →
  let fl := bits_insert (bits_insert (bits_remove flags COW) WRITEABLE) DIRTY in
  let fl1 := bits_insert (bits_insert (bits_insert (bits_remove flags COW) WRITEABLE) READABLE) DIRTY in
  ∀ f, f = fl ∨ f = fl1 →
    flags_ok f ∧ contains f VALID = true ∧ intersects f RWX = true ∧
    contains f WRITEABLE = true ∧ contains f COW = false.
Proof.
  intros Hok Hv fl fl1 f Hf. destruct (flag_bit flags) as (Ev&_). rewrite Ev in Hv.
  assert (flags_ok f) as Hfok.
  { destruct Hf as [-> | ->]; unfold fl, fl1, bits_insert, bits_remove; auto with ya2y. }
  split; [done|].
  assert (contains f WRITEABLE = true) as Hw.
  { destruct Hf as [-> | ->]; unfold fl, fl1; flag_bits; by rewrite ?orb_true_r. }
  split; [|split; [|split; [done|]]].
  - destruct Hf as [-> | ->]; unfold fl, fl1; flag_bits; by rewrite Hv.
  - apply (intersects_bit _ _ 2); [lia| |done]. destruct (flag_bit f) as (_&_&<-&_). done.
  - destruct Hf as [-> | ->]; unfold fl, fl1; flag_bits; by rewrite andb_false_r.
Qed.

(** The entries a write fault leaves: the old frame made writable, or a new one. *)
Lemma private_leaf_entries bits dst :
  pte_ok bits → pte_valid bits = true → 0 ≤ dst < 2 ^ 44 →
  let fl := bits_remove (pte_flags_of bits) COW in
  private_leaf (get_ppn bits)
    (set_flags bits (bits_insert (bits_insert (bits_insert fl WRITEABLE) READABLE) DIRTY)) ∧
  private_leaf dst (pte_new dst (bits_insert (bits_insert fl WRITEABLE) DIRTY)).
Proof.
  intros Hok Hv Hdst fl. pose proof (private_flags (pte_flags_of bits) (flags_ok_of _ Hok) Hv) as Hpriv.
  cbv zeta in Hpriv. fold fl in Hpriv. unfold leaf_with, pte_valid, pte_leaf. split.
  - edestruct Hpriv as (Hf&?&?&?&?); [by right|]. rewrite set_flags_ppn, set_flags_flags by apply Hf.
    by split; [apply set_flags_ok|].
  - edestruct Hpriv as (Hf&?&?&?&?); [by left|]. rewrite get_ppn_new, pte_flags_of_new by (done || apply Hf).
    split; [by apply pte_new_ok; [|apply Hf..]|done].
Qed.

(** The handler on a tracked copy-on-write page, evaluated. *)
Lemma write_fault_eq `{FrameSource Src} (m : PhysMem Src) pt roots vpn t i src frames refcnt :
  tree_wf m roots → user_vpn vpn → slot_of m roots (root_ppn pt) vpn t i →
  pte_valid (rd m t i) = true → contains (pte_flags_of (rd m t i)) COW = true →
  translate m pt vpn = Done (Some src) → frames !! vpn = Some src →
  let fl := bits_remove (pte_flags_of (rd m t i)) COW in
  let n := default 1%nat (refcnt !! src) in
  handle_write_protect_page_fault m pt vpn frames refcnt =
    if (n =? 1)%nat then
      Done (wr m t i (set_flags (rd m t i) (bits_insert (bits_insert (bits_insert fl WRITEABLE) READABLE) DIRTY)),
            frames, refcnt, true)
    else match frame_alloc m with
    | None => Done (m, frames, refcnt, false)
    | Some (dst, m1) =>
        Done (set_pages (wr m1 t i (pte_new dst (bits_insert (bits_insert fl WRITEABLE) DIRTY)))
                (<[dst := bytes_array m1 src]> (pages m1)),
              <[vpn := dst]> frames, <[dst := 1%nat]> (<[src := (n - 1)%nat]> refcnt), true)
    end.
Proof.
  intros Hwf Hu Hslot Hv Hcow Htr Hframe fl n. unfold handle_write_protect_page_fault.
  rewrite (slot_find _ roots pt vpn t i) by done. cbn [mbind comp_bind].
  rewrite get_flags_ok by (by eapply slot_ok). cbn [mbind comp_bind]. rewrite Hcow, Hframe, Htr.
  cbn [negb mbind comp_bind default from_option id]. by rewrite Z.eqb_refl.
Qed.

(** A store to a tracked copy-on-write page ends the sharing.  With one
    reference the page becomes writable in place.  Otherwise the area gets a
    frame that was free, holding the bytes of the old one, mapped writable and
    tracked with a single reference, and the old frame loses one reference; with
    no frame left the fault is refused and nothing changes.  No other page of
    any address space is remapped, and no other frame in use changes a byte. *)
Theorem cow_fault_private `{FrameSource Src} (m : PhysMem Src) (pt : PageTable) (roots : list Z) (vpn src : Z)
    (frames : gmap Z Z) (refcnt : gmap Z nat) :
  tree_wf m roots → root_ppn pt ∈ roots → user_vpn vpn →
  leaf_depth m (root_ppn pt) (indexes vpn) = Some 3%nat → is_cow_page m pt vpn = Done true →
  translate m pt vpn = Done (Some src) → frames !! vpn = Some src → ¬ fs_free (source m) src →
  let n := default 1%nat (refcnt !! src) in
  (n ≠ 1%nat ∧ frame_alloc m = None ∧
   handle_write_protect_page_fault m pt vpn frames refcnt = Done (m, frames, refcnt, false)) ∨
  (∃ m' frames' refcnt' dst,
     handle_write_protect_page_fault m pt vpn frames refcnt = Done (m', frames', refcnt', true) ∧
     (n = 1%nat ∧ dst = src ∧ frames' = frames ∧ refcnt' = refcnt ∨
      n ≠ 1%nat ∧ fs_free (source m) dst ∧ ¬ fs_free (source m') dst ∧ frames' = <[vpn := dst]> frames ∧
      refcnt' = <[dst := 1%nat]> (<[src := (n - 1)%nat]> refcnt)) ∧
     tree_wf m' roots ∧ translate m' pt vpn = Done (Some dst) ∧ bytes_array m' dst = bytes_array m src ∧
     hw_writable m' pt vpn = Done true ∧ is_cow_page m' pt vpn = Done false ∧
     (∀ r fr vpn', r ∈ roots → user_vpn vpn' → (r, vpn') ≠ (root_ppn pt, vpn) →
        translate m' (mkPt r fr) vpn' = translate m (mkPt r fr) vpn') ∧
     (∀ q, ¬ fs_free (source m) q → bytes_array m' q = bytes_array m q)).
Proof.
  intros Hwf Hroot Hu Hk Hcow Htr Hframe Hused n.
  destruct (leaf_slot m pt roots vpn) as (t&i&Hslot&Hv&Hl); [done..|].
  assert (pte_ok (rd m t i)) as Hok by (by eapply slot_ok).
  unfold is_cow_page in Hcow. rewrite (slot_leaf_has _ roots pt vpn t i) in Hcow by done. injection Hcow as Hcow.
  pose proof Htr as Htr'. rewrite (slot_translate _ roots pt vpn t i) in Htr' by done. injection Htr' as Hsrc.
  rewrite (write_fault_eq m pt roots vpn t i src) by done. fold n. destruct (Nat.eqb_spec n 1) as [Hn|Hn].
  - right. destruct (private_leaf_entries (rd m t i) 0) as [Hb _]; [done|done|lia|].
    set (b := set_flags _ _) in *. rewrite Hsrc in Hb.
    destruct (slot_write m roots pt vpn t i Hwf Hu Hslot b (proj1 Hb)) as (Hwf'&Hslot'&_&Hother).
    destruct (leaf_with_seen (wr m t i b) roots pt vpn t i true false src) as (?&?&?);
      [done..|by rewrite rd_wr_eq|].
    eexists _, _, _, src. split; [done|]. split; [by left|]. done.
  - destruct (frame_alloc m) as [[dst m1]|] eqn:Ha; [right|by left].
    pose proof (alloc_facts m m1 roots dst Hwf Ha) as (_&Hfree&Hnfree&_&Hdst&_&_).
    pose proof (alloc_extends m m1 roots dst Hwf Ha) as Hext.
    assert (slot_of m1 roots (root_ppn pt) vpn t i) as Hslot1.
    { eapply slot_reaches; [|done]. intros. by eapply ext_reaches. }
    destruct (private_leaf_entries (rd m t i) dst) as [_ Hb]; [done..|]. set (b := pte_new _ _) in *.
    destruct (slot_write m1 roots pt vpn t i (ext_wf _ _ _ Hext) Hu Hslot1 b (proj1 Hb)) as (Hwf'&Hslot'&_&Hother).
    set (P := <[dst := _]> (pages m1)).
    destruct (leaf_with_seen (set_pages (wr m1 t i b) P) roots pt vpn t i true false dst) as (?&?&?);
      [by apply set_pages_wf|done|by apply set_pages_slot|by rewrite (rd_wr_eq m1 t i b : rd (set_pages _ P) t i = b)|].
    eexists _, _, _, dst. split; [done|]. split; [right; by repeat split|]. split; [by apply set_pages_wf|].
    split; [done|]. split; [|do 2 (split; [done|]); split].
    + unfold bytes_array, P. simpl. rewrite lookup_insert_eq. simpl. unfold bytes_array. by rewrite (ext_pages _ _ _ Hext).
    + intros r fr vpn' Hr' Hu' Hne. rewrite set_pages_translate, Hother by done. by eapply ext_translate_page.
    + intros q Hq. unfold bytes_array, P. simpl. rewrite lookup_insert_ne by (by intros <-).
      by rewrite (ext_pages _ _ _ Hext).
Qed.

(** [handle_mprotect] adds permissions to the entry without looking at the
    copy-on-write mark: giving write permission to a page that is shared copy
    on write makes its leaf writable for the hardware while it still maps the
    shared frame.  A store then takes no fault and is seen by every address
    space that shares the frame. *)
Theorem mprotect_breaks_cow `{FrameSource Src} (m : PhysMem Src) (pt : PageTable) (roots : list Z) (vpn ppn perm : Z) :
  tree_wf m roots → root_ppn pt ∈ roots → user_vpn vpn →
  leaf_depth m (root_ppn pt) (indexes vpn) = Some 3%nat → is_cow_page m pt vpn = Done true →
  translate m pt vpn = Done (Some ppn) → 0 ≤ perm < 32 → contains perm PERM_W = true →
  ∃ m', handle_mprotect m pt vpn perm = Done m' ∧ tree_wf m' roots ∧
    hw_writable m' pt vpn = Done true ∧ is_cow_page m' pt vpn = Done true ∧
    (∀ r fr vpn', r ∈ roots → user_vpn vpn' →
       translate m' (mkPt r fr) vpn' = translate m (mkPt r fr) vpn').
Proof.
  intros Hwf Hroot Hu Hk Hcow Htr Hperm Hw.
  destruct (leaf_slot m pt roots vpn) as (t&i&Hslot&Hv&Hl); [done..|].
  assert (pte_ok (rd m t i)) as Hok by (by eapply slot_ok).
  unfold is_cow_page in Hcow. rewrite (slot_leaf_has _ roots pt vpn t i) in Hcow by done. injection Hcow as Hcow.
  pose proof Htr as Htr'. rewrite (slot_translate _ roots pt vpn t i) in Htr' by done. injection Htr' as Hppn.
  unfold handle_mprotect. rewrite (slot_find _ roots pt vpn t i) by done. cbn [mbind comp_bind].
  rewrite get_flags_ok by done. cbn [mbind comp_bind].
  assert (Z.land perm ALL_FLAGS = perm) as ->.
  { replace ALL_FLAGS with (Z.lor 31 1760) by reflexivity. rewrite Z.land_lor_distr_r.
    change 31 with (Z.ones 5). rewrite Z.land_ones, Z.mod_small by lia.
    rewrite <- (Z.mod_small perm (2 ^ 5)) by lia. rewrite <- Z.land_ones, <- Z.land_assoc by lia.
    change (Z.land (Z.ones 5) 1760) with 0. by rewrite Z.land_0_r, Z.lor_0_r. }
  change WRITEABLE with PERM_W. rewrite Hw. set (fl := Z.lor _ _). eexists. split; [done|].
  assert (leaf_with true true ppn (set_flags (rd m t i) fl)) as Hb.
  { assert (flags_ok fl) as Hf.
    { repeat apply flags_ok_lor; [|done|by apply flags_ok_of]. split; [lia|].
      rewrite <- (Z.mod_small perm (2 ^ 5)) by lia. apply Z.mod_pow2_bits_high. lia. }
    change PERM_W with (2 ^ 2) in Hw. rewrite contains_bit in Hw by lia. pose proof (flag_bit (pte_flags_of (rd m t i))) as (Ev&_&_&_&Ec).
    unfold pte_valid in Hv. rewrite Ev in Hv. rewrite Ec in Hcow.
    unfold leaf_with, pte_valid, pte_leaf. rewrite set_flags_ppn, set_flags_flags by apply Hf.
    split; [by apply set_flags_ok|]. unfold fl. split; [flag_bits; by rewrite Hv, orb_true_r|].
    split; [apply (intersects_bit _ _ 2); [lia|flag_bits; by rewrite Hw|done]|]. split; [done|].
    split; flag_bits; [by rewrite Hw|by rewrite Hcow, orb_true_r]. }
  destruct (slot_write m roots pt vpn t i Hwf Hu Hslot _ (proj1 Hb)) as (Hwf'&Hslot'&_&Hother).
  destruct (leaf_with_seen _ roots pt vpn t i true true ppn Hwf' Hu Hslot') as (Htr''&?&?); [by rewrite rd_wr_eq|].
  do 3 (split; [done|]). intros r fr vpn' Hr Hu'.
  destruct (decide ((r, vpn') = (root_ppn pt, vpn))) as [[= -> ->]|Hne]; [|by apply Hother].
  unfold translate in *. cbn [root_ppn]. by rewrite Htr, Htr''.
Qed.

(** ** A concrete machine *)

Lemma empty_wf `{FrameSource Src} (m : PhysMem Src) roots :
  entries m = ∅ → fs_ok (source m) → (∀ r, r ∈ roots → ¬ fs_free (source m) r) → tree_wf m roots.
Proof.
  intros He Hs Hr. assert (∀ q j, rd m q j = 0) as Hrd by (intros; unfold rd; by rewrite He).
  assert (∀ r p q, reaches m roots r p q → p = [] ∧ q = r ∧ r ∈ roots) as Hreach.
  { intros r [|j p] q (?&_&_&Hq); simpl in Hq; [by simplify_eq|]. by rewrite Hrd in Hq. }
  split; [done|..].
  - by intros r r' p p' q (->&->&_)%Hreach (->&->&_)%Hreach.
  - intros. by rewrite Hrd.
  - intros r p q (->&->&?)%Hreach. auto.
Qed.

Lemma map_wf `{FrameSource Src} (m : PhysMem Src) pt roots vpn ppn flags m' pt' :
  tree_wf m roots → root_ppn pt ∈ roots → user_vpn vpn → 0 ≤ ppn < 2 ^ 44 →
  flags_ok flags → intersects flags RWX = true →
  slot_vacant m (root_ppn pt) (indexes vpn) = true → has_frames 2 (source m) →
  map_by_pte_flags m pt vpn ppn flags = Done (m', pt') → tree_wf m' roots.
Proof.
  intros Hwf Hroot Hu Hp Hf Hrwx Hslot Hfr.
  destruct (map_by_pte_flags_spec m pt roots vpn ppn flags) as (m1&pt1&t&i&->&_&Hext&Hslot1); try done.
  intros [= <- <-]. destruct (new_leaf ppn flags) as (_&Hok&_); [done..|].
  eapply (slot_write m1 roots pt vpn t i); [apply Hext|done|done|done].
Qed.

(** Two address spaces with empty tables at frames 50 and 51. *)
Definition demo_pt (r : Z) : PageTable := mkPt r [r].
Definition demo_roots : list Z := [50; 51].
Definition demo_mem : PhysMem (list Z) := mkMem ∅ {[7 := [1; 2; 3]]} [101; 102; 103; 104; 105; 106; 107].
Definition demo_map (m : PhysMem (list Z)) (r vpn ppn flags : Z) : PhysMem (list Z) :=
  match map_by_pte_flags m (demo_pt r) vpn ppn flags with Done (m', _) => m' | Panic => m end.
(** Page 5 of the first space on frame 7: readable and writable by the user. *)
Definition demo_rw : PhysMem (list Z) := demo_map demo_mem 50 5 7 (flags_from_perm (Z.lor PERM_W PERM_U)).
(** Page 5 of both spaces on frame 7, copy on write. *)
Definition demo_cow : PhysMem (list Z) :=
  let fl := cow_flags (flags_from_perm (Z.lor PERM_W PERM_U)) in demo_map (demo_map demo_mem 50 5 7 fl) 51 5 7 fl.

Lemma demo_mem_wf : tree_wf demo_mem demo_roots.
Proof.
  apply empty_wf; [done| |].
  - split; [by apply (bool_decide_unpack _); vm_compute|repeat constructor; lia].
  - intros r Hr Hf. revert Hr Hf. simpl. set_solver.
Qed.

Lemma demo_map_wf m r vpn ppn flags :
  tree_wf m demo_roots → r ∈ demo_roots → user_vpn vpn → 0 ≤ ppn < 2 ^ 44 → flags_ok flags →
  intersects flags RWX = true → slot_vacant m r (indexes vpn) = true → has_frames 2 (source m) →
  tree_wf (demo_map m r vpn ppn flags) demo_roots.
Proof.
  intros. unfold demo_map. destruct (map_by_pte_flags _ _ _ _ _) as [[m' pt']|] eqn:Hm; [|done].
  eapply (map_wf m (demo_pt r)); done.
Qed.

Lemma demo_rw_wf : tree_wf demo_rw demo_roots.
Proof.
  apply demo_map_wf; [apply demo_mem_wf|left|done|done|done|done|by vm_compute|]. by repeat eexists.
Qed.

Lemma demo_cow_wf : tree_wf demo_cow demo_roots.
Proof.
  apply demo_map_wf; [apply demo_map_wf; [apply demo_mem_wf|left|done|done|done|done|by vm_compute|by repeat eexists]
    |right; left|done|done|done|done|by vm_compute|]. by repeat eexists; vm_compute.
Qed.

Lemma map_installs_witness :
  ∃ m' pt', map_by_pte_flags demo_rw (demo_pt 51) 5 9 (flags_from_perm PERM_R) = Done (m', pt') ∧
    translate m' pt' 5 = Done (Some 9) ∧ translate m' (demo_pt 50) 5 = Done (Some 7).
Proof.
  destruct (map_installs demo_rw (demo_pt 51) demo_roots 5 9 (flags_from_perm PERM_R)) as (m'&pt'&Hm&_&_&Ht&Ho&_);
    [apply demo_rw_wf|right; left|done|done|done|done|by vm_compute|by repeat eexists; vm_compute|].
  exists m', pt'. split; [exact Hm|]. split; [exact Ht|].
  unfold demo_pt; rewrite (Ho 50 [50] 5); [vm_compute; reflexivity|left|unfold user_vpn; lia|discriminate].
Defined.

Lemma unmap_exact_witness :
  ∃ m', unmap demo_cow (demo_pt 50) 5 = Done m' ∧ translate m' (demo_pt 50) 5 = Done None ∧
    translate m' (demo_pt 51) 5 = Done (Some 7).
Proof.
  destruct (unmap_exact demo_cow (demo_pt 50) demo_roots 5 3) as (m'&Hm&_&_&Ht);
    [apply demo_cow_wf|left|done|by vm_compute|].
  exists m'. split; [exact Hm|]. split.
  - unfold demo_pt; rewrite (Ht 50 [50] 5); [vm_compute; reflexivity|left|unfold user_vpn; lia].
  - unfold demo_pt; rewrite (Ht 51 [51] 5); [vm_compute; reflexivity|right; left|unfold user_vpn; lia].
Defined.

Lemma fork_shares_cow_witness :
  ∃ m' child', handle_cow_mapping_from_exited_user demo_rw (demo_pt 50) (demo_pt 51) 5 = Done (m', child') ∧
    hw_writable m' (demo_pt 50) 5 = Done false ∧ translate m' child' 5 = Done (Some 7).
Proof.
  destruct (fork_shares_cow demo_rw (demo_pt 50) (demo_pt 51) demo_roots 5) as (m'&c&ppn&Hm&_&_&Hp&Hs&_&_);
    [apply demo_rw_wf|left|right; left|done|done|by vm_compute|by vm_compute|by vm_compute|by vm_compute|
     by repeat eexists; vm_compute|].
  assert (ppn = 7) as -> by (vm_compute in Hp; congruence).
  exists m', c. split; [exact Hm|]. split; [apply Hs; by left|apply Hs; by right].
Defined.

Lemma cow_fault_private_witness :
  ∃ m' frames' refcnt' dst,
    handle_write_protect_page_fault demo_cow (demo_pt 51) 5 {[5 := 7]} {[7 := 2%nat]} = Done (m', frames', refcnt', true) ∧
    translate m' (demo_pt 51) 5 = Done (Some dst) ∧ bytes_array m' dst = [1; 2; 3] ∧
    translate m' (demo_pt 50) 5 = Done (Some 7).
Proof.
  destruct (cow_fault_private demo_cow (demo_pt 51) demo_roots 5 7 {[5 := 7]} {[7 := 2%nat]})
    as [(_&Ha&_)|(m'&fr&rc&dst&Hm&_&_&Ht&Hb&_&_&Ho&_)];
    [apply demo_cow_wf|right; left|done|by vm_compute|by vm_compute|by vm_compute|done| |by vm_compute in Ha|].
  - intros Hf. vm_compute in Hf. by repeat (apply list_elem_of_In in Hf; simpl in Hf; naive_solver).
  - exists m', fr, rc, dst. split; [exact Hm|]. split; [exact Ht|]. split; [exact Hb|].
    unfold demo_pt; rewrite (Ho 50 [50] 5); [vm_compute; reflexivity|left|unfold user_vpn; lia|discriminate].
Defined.

Lemma mprotect_breaks_cow_witness :
  ∃ m', handle_mprotect demo_cow (demo_pt 51) 5 (Z.lor PERM_W PERM_U) = Done m' ∧
    hw_writable m' (demo_pt 51) 5 = Done true ∧
    translate m' (demo_pt 51) 5 = Done (Some 7) ∧ translate m' (demo_pt 50) 5 = Done (Some 7).
Proof.
  destruct (mprotect_breaks_cow demo_cow (demo_pt 51) demo_roots 5 7 (Z.lor PERM_W PERM_U)) as (m'&Hm&_&Hw&_&Ht);
    [apply demo_cow_wf|right; left|done|by vm_compute|by vm_compute|by vm_compute|done|done|].
  exists m'. split; [exact Hm|]. split; [exact Hw|]. split.
  - unfold demo_pt; rewrite (Ht 51 [51] 5); [vm_compute; reflexivity|right; left|unfold user_vpn; lia].
  - unfold demo_pt; rewrite (Ht 50 [50] 5); [vm_compute; reflexivity|left|unfold user_vpn; lia].
Defined.
