(* ===== verification/MapArea.v ===== *)
(** * Memory areas

    [mm/map_area.rs] and [mm/group.rs]: a [MapArea] is a range of virtual pages
    with one set of attributes and the frames of its resident pages; the areas
    of a [MAP_SHARED] mapping form a group, counted by [GROUP_SHARE].

    A frame is its physical page number; the reference count of [Arc] is not
    part of this file.  An area drops its group reference when it is dropped:
    the operations that drop areas call [drop_area] where the code's [Drop]
    runs.  The page table is used through the interface [PageTableOps]. *)

From S2P Require Import Prelude Address PageTable.

(** ** Flags and types *)

Definition MAP_SHARED : Z := 1.
Definition MAP_PRIVATE : Z := 2.
Definition MAP_SHARED_VALIDATE : Z := 3.
Definition MAP_FIXED : Z := 16.
Definition MAP_ANONYMOUS : Z := 32.
Definition MAP_GROWSDOWN : Z := 256.
Definition MAP_LOCKED : Z := 8192.
Definition MAP_STACK : Z := 131072.
Definition MAP_HUGETLB : Z := 262144.
Definition MAP_FIXED_NOREPLACE : Z := 1048576.

Inductive MapType : Type := Direct | Framed.
Inductive MapAreaType : Type := Elf | Stack | Brk | Mmap | Trap | Shm | Physical | MMIO.

(** A file or a special backing object is known by a number. *)
Inductive MmapSource : Type := Anonymous | Inode (file : Z) | Special (backing : Z).
Record MmapFile : Type := mkFile { mf_source : MmapSource; mf_offset : Z }.

#[export] Instance MapType_eq_dec : EqDecision MapType.
Proof. solve_decision. Defined.
#[export] Instance MapAreaType_eq_dec : EqDecision MapAreaType.
Proof. solve_decision. Defined.
#[export] Instance MmapSource_eq_dec : EqDecision MmapSource.
Proof. solve_decision. Defined.
#[export] Instance MmapFile_eq_dec : EqDecision MmapFile.
Proof. solve_decision. Defined.

Definition file_empty : MmapFile := mkFile Anonymous 0.
Definition inode_file (f : MmapFile) : option Z :=
  match mf_source f with Inode i => Some i | _ => None end.
Definition special_backing (f : MmapFile) : option Z :=
  match mf_source f with Special b => Some b | _ => None end.
Definition is_special (f : MmapFile) : bool :=
  match mf_source f with Special _ => true | _ => false end.
Definition is_anonymous (f : MmapFile) : bool :=
  match mf_source f with Anonymous => true | _ => false end.
Definition page_index (f : MmapFile) (vpn start_vpn : Z) : option Z :=
  d ← checked_sub vpn start_vpn;
  b ← checked_mul d PAGE_SIZE;
  o ← checked_add b (mf_offset f);
  Some (o / PAGE_SIZE).

Record MapArea : Type := mkArea {
  vpn_range : VPNRange;
  data_frames : gmap Z Z;
  map_type : MapType;
  map_perm : Z;
  area_type : MapAreaType;
  mmap_file : MmapFile;
  mmap_flags : Z;
  groupid : Z
}.

Definition area_start (a : MapArea) : Z := range_start (vpn_range a).
Definition area_end (a : MapArea) : Z := range_end (vpn_range a).

Definition set_range (a : MapArea) (r : VPNRange) : MapArea :=
  mkArea r (data_frames a) (map_type a) (map_perm a) (area_type a) (mmap_file a) (mmap_flags a) (groupid a).
Definition set_frames (a : MapArea) (d : gmap Z Z) : MapArea :=
  mkArea (vpn_range a) d (map_type a) (map_perm a) (area_type a) (mmap_file a) (mmap_flags a) (groupid a).
Definition set_perm (a : MapArea) (p : Z) : MapArea :=
  mkArea (vpn_range a) (data_frames a) (map_type a) p (area_type a) (mmap_file a) (mmap_flags a) (groupid a).
Definition set_mflags (a : MapArea) (f : Z) : MapArea :=
  mkArea (vpn_range a) (data_frames a) (map_type a) (map_perm a) (area_type a) (mmap_file a) f (groupid a).
(** [area.mmap_file.offset += n * PAGE_SIZE]. *)
Definition add_offset (a : MapArea) (n : Z) : MapArea :=
  mkArea (vpn_range a) (data_frames a) (map_type a) (map_perm a) (area_type a)
    (mkFile (mf_source (mmap_file a)) (wrap64 (mf_offset (mmap_file a) + wrap64 (n * PAGE_SIZE))))
    (mmap_flags a) (groupid a).

Definition is_huge (a : MapArea) : bool := contains (mmap_flags a) MAP_HUGETLB.

(** ** Groups of shared areas *)

Definition GROUP_SIZE : Z := 4096.
Record GroupInner : Type := mkGroup { shared_frames : gmap Z Z; maparea_num : Z }.
Record GroupManager : Type := mkGm { unused_id : list Z; groups : gmap Z GroupInner }.

Definition group_new : GroupManager := mkGm (seqZ 1 (GROUP_SIZE - 1)) ∅.

(** [Vec::pop]. *)
Definition vec_pop {A} (l : list A) : option (A * list A) :=
  match reverse l with [] => None | x :: r => Some (x, reverse r) end.

Definition alloc_id (g : GroupManager) : GroupManager * Z :=
  match vec_pop (unused_id g) with
  | Some (id, l) => (mkGm l (groups g), id)
  | None => (g, 0)
  end.

Definition add_area (g : GroupManager) (id : Z) : GroupManager :=
  if id =? 0 then g
  else
    let inner := default (mkGroup ∅ 0) (groups g !! id) in
    mkGm (unused_id g) (<[id := mkGroup (shared_frames inner) (wrap64 (maparea_num inner + 1))]> (groups g)).

Definition del_area (g : GroupManager) (id : Z) : comp GroupManager :=
  if id =? 0 then Done g
  else
    inner ← unwrap (groups g !! id);
    let num := wrap64 (maparea_num inner - 1) in
    if num =? 0 then Done (mkGm (unused_id g ++ [id]) (delete id (groups g)))
    else Done (mkGm (unused_id g) (<[id := mkGroup (shared_frames inner) num]> (groups g))).

Definition add_frame (g : GroupManager) (id vpn frame : Z) : comp GroupManager :=
  inner ← unwrap (groups g !! id);
  Done (mkGm (unused_id g)
          (<[id := mkGroup (<[vpn := frame]> (shared_frames inner)) (maparea_num inner)]> (groups g))).

Definition group_find (g : GroupManager) (id vpn : Z) : comp (option Z) :=
  if id =? 0 then Done None
  else inner ← unwrap (groups g !! id); Done (shared_frames inner !! vpn).

(** [Drop for MapArea]. *)
Definition drop_area (g : GroupManager) (a : MapArea) : comp GroupManager := del_area g (groupid a).

(** ** Constructors *)

Definition area_new (start_va end_va : Z) (t : MapType) (perm : Z) (k : MapAreaType) : comp MapArea :=
  r ← range_new (floor start_va) (ceil end_va);
  Done (mkArea r ∅ t perm k file_empty 0 0).

Definition new_mmap (g : GroupManager) (start_va end_va : Z) (t : MapType) (perm : Z) (k : MapAreaType)
    (flags : Z) (file : MmapFile) : comp (GroupManager * MapArea) :=
  let '(g, id) :=
    if contains flags MAP_SHARED then let '(g, id) := alloc_id g in (add_area g id, id) else (g, 0) in
  r ← range_new (floor start_va) (ceil end_va);
  Done (g, mkArea r ∅ t perm k file flags id).

(** The vacant copy has the same attributes and no frames. *)
Definition area_from_another (a : MapArea) : MapArea := set_frames a ∅.

(** ** The page table, as the areas see it *)

Class PageTableOps (PT : Type) : Type := {
  pt_map : PT → Z → Z → Z → comp PT;
  pt_unmap : PT → Z → comp PT;
  pt_translate : PT → Z → comp (option Z);
  pt_handle_mprotect : PT → Z → Z → comp PT;
  pt_map_huge : PT → Z → Z → Z → comp PT;
  pt_map_direct_range : PT → Z → Z → Z → comp PT;
  pt_frame_alloc : PT → option (Z * PT);
  pt_huge_alloc : PT → option (Z * PT);
  pt_copy_page : PT → Z → Z → PT
}.

Section area_ops.
Context `{PageTableOps PT}.
Implicit Types (pt : PT) (a : MapArea) (g : GroupManager).

Definition MMIO_MAP_OFFSET : Z := KERNEL_ADDR_OFFSET.

Definition map_one pt a (vpn : Z) : comp (PT * MapArea * option Z) :=
  if decide (area_type a = MMIO) then
    let ppn := wrap64 (vpn - Z.shiftr MMIO_MAP_OFFSET PAGE_SIZE_BITS) in
    pt ← pt_map pt vpn ppn (map_perm a); Done (pt, a, Some ppn)
  else
    match map_type a with
    | Direct =>
        let ppn := wrap64 (vpn - KERNEL_PGNUM_OFFSET) in
        pt ← pt_map pt vpn ppn (map_perm a); Done (pt, a, Some ppn)
    | Framed =>
        match pt_frame_alloc pt with
        | None => Done (pt, a, None)
        | Some (ppn, pt) =>
            let a := set_frames a (<[vpn := ppn]> (data_frames a)) in
            pt ← pt_map pt vpn ppn (map_perm a); Done (pt, a, Some ppn)
        end
    end.

Definition unmap_one pt a (vpn : Z) : comp (PT * MapArea) :=
  let a := if decide (map_type a = Framed) then set_frames a (delete vpn (data_frames a)) else a in
  pt ← pt_unmap pt vpn; Done (pt, a).

(** [for vpn in range { area.unmap_one(page_table, vpn) }]. *)
Fixpoint unmap_pages pt a (vpns : list Z) : comp (PT * MapArea) :=
  match vpns with
  | [] => Done (pt, a)
  | vpn :: vpns => '(pt, a) ← unmap_one pt a vpn; unmap_pages pt a vpns
  end.
(** The page numbers of a range, in the order of its iterator
    ([range_loop_visits] of [Address]). *)
Definition range_pages (r : VPNRange) : list Z := seqZ (range_start r) (range_end r - range_start r).

Definition area_unmap pt a : comp (PT * MapArea) := unmap_pages pt a (range_pages (vpn_range a)).

(** [MapArea::map]; [false] is [Err(())]. *)
Fixpoint map_pages pt a (vpns : list Z) : comp (PT * MapArea * bool) :=
  match vpns with
  | [] => Done (pt, a, true)
  | vpn :: vpns =>
      '(pt, a, ppn) ← map_one pt a vpn;
      match ppn with None => Done (pt, a, false) | Some _ => map_pages pt a vpns end
  end.
Definition area_map pt a : comp (PT * MapArea * bool) :=
  if decide (map_type a = Direct ∧ area_type a = Physical) then
    pt ← pt_map_direct_range pt (area_start a) (area_end a) (map_perm a); Done (pt, a, true)
  else map_pages pt a (range_pages (vpn_range a)).

(** [zip] stops at the shorter of the range and the frames. *)
Fixpoint map_given pt a (vf : list (Z * Z)) : comp (PT * MapArea) :=
  match vf with
  | [] => Done (pt, a)
  | (vpn, frame) :: vf =>
      pt ← pt_map pt vpn frame (map_perm a);
      map_given pt (set_frames a (<[vpn := frame]> (data_frames a))) vf
  end.
Definition map_given_frames pt a (frames : list Z) : comp (PT * MapArea) :=
  map_given pt a (zip (range_pages (vpn_range a)) frames).

(** The 512 frames of a huge block at [base], for the pages from [vpn]. *)
Fixpoint insert_block (d : gmap Z Z) (vpn base : Z) (n : nat) : gmap Z Z :=
  match n with
  | O => d
  | S n => <[vpn + Z.of_nat n := base + Z.of_nat n]> (insert_block d vpn base n)
  end.

(** The loop of [map_huge]; one iteration per chunk of the range. *)
Fixpoint map_huge_loop pt a (vpn : Z) (n : nat) : comp (PT * MapArea * bool) :=
  match n with
  | O => Done (pt, a, true)
  | S n =>
      match pt_huge_alloc pt with
      | None => '(pt, a) ← area_unmap pt a; Done (pt, a, false)
      | Some (base, pt) =>
          let a := set_frames a (insert_block (data_frames a) vpn base (Z.to_nat HUGE_PAGE_PAGES)) in
          pt ← pt_map_huge pt vpn base (map_perm a);
          map_huge_loop pt a (vpn + HUGE_PAGE_PAGES) n
      end
  end.
Definition map_huge pt a : comp (PT * MapArea * bool) :=
  if negb (bool_decide (map_type a = Framed))
     || negb (area_start a mod HUGE_PAGE_PAGES =? 0)
     || negb (area_end a mod HUGE_PAGE_PAGES =? 0)
     || (map_perm a =? 0)
  then Done (pt, a, false)
  else map_huge_loop pt a (area_start a) (Z.to_nat ((area_end a - area_start a) / HUGE_PAGE_PAGES)).

(** The loop of [map_huge_given_frames] over the frames that are left. *)
Fixpoint insert_frames (d : gmap Z Z) (vpn : Z) (frames : list Z) : gmap Z Z :=
  match frames with
  | [] => d
  | f :: frames => insert_frames (<[vpn := f]> d) (vpn + 1) frames
  end.
Fixpoint map_huge_given_loop pt a (vpn : Z) (frames : list Z) (n : nat) : comp (PT * MapArea * bool) :=
  match n with
  | O => Done (pt, a, true)
  | S n =>
      base ← unwrap (head frames);
      if negb (base mod HUGE_PAGE_PAGES =? 0) then Done (pt, a, false)
      else
        let chunk := take (Z.to_nat HUGE_PAGE_PAGES) frames in
        assert! (length chunk =? Z.to_nat HUGE_PAGE_PAGES)%nat;
        let a := set_frames a (insert_frames (data_frames a) vpn chunk) in
        pt ← pt_map_huge pt vpn base (map_perm a);
        map_huge_given_loop pt a (vpn + HUGE_PAGE_PAGES) (drop (Z.to_nat HUGE_PAGE_PAGES) frames) n
  end.
Definition map_huge_given_frames pt a (frames : list Z) : comp (PT * MapArea * bool) :=
  let page_count := area_end a - area_start a in
  if negb (bool_decide (map_type a = Framed))
     || (map_perm a =? 0)
     || negb (page_count =? Z.of_nat (length frames))
     || negb (area_start a mod HUGE_PAGE_PAGES =? 0)
     || negb (page_count mod HUGE_PAGE_PAGES =? 0)
  then Done (pt, a, false)
  else map_huge_given_loop pt a (area_start a) frames (Z.to_nat (page_count / HUGE_PAGE_PAGES)).

End area_ops.

(** ** Laws of the interface

    What the areas rely on: unmapping and changing the protection of one user
    page never fail and affect that page only. *)

Class PageTableLaws (PT : Type) `{PageTableOps PT} : Type := {
  pt_ok : PT → Prop;
  pt_unmap_law pt v : pt_ok pt → user_vpn v →
    ∃ pt', pt_unmap pt v = Done pt' ∧ pt_ok pt' ∧
      ∀ v', user_vpn v' → pt_translate pt' v' = if decide (v' = v) then Done None else pt_translate pt v';
  pt_mprotect_law pt v perm : pt_ok pt → user_vpn v → Z.land perm 30 = perm →
    ∃ pt', pt_handle_mprotect pt v perm = Done pt' ∧ pt_ok pt' ∧
      ∀ v', user_vpn v' → v' ≠ v ∨ pt_translate pt v' ≠ Done None → pt_translate pt' v' = pt_translate pt v'
}.

Lemma elem_of_range_pages r v : v ∈ range_pages r ↔ contains_vpn r v = true.
Proof. unfold range_pages, contains_vpn. rewrite elem_of_seqZ. lia. Qed.

Section laws.
Context `{PageTableLaws PT}.
Implicit Types (pt : PT) (a : MapArea).

(** Unmapping pages of a framed area forgets their frames and translations. *)
Lemma unmap_pages_spec pt a vpns :
  pt_ok pt → map_type a = Framed → Forall user_vpn vpns →
  ∃ pt' d, unmap_pages pt a vpns = Done (pt', set_frames a d) ∧ pt_ok pt' ∧
    (∀ v, d !! v = if decide (v ∈ vpns) then None else data_frames a !! v) ∧
    (∀ v, user_vpn v → pt_translate pt' v = if decide (v ∈ vpns) then Done None else pt_translate pt v).
Proof.
  intros Hok Ht Hu. revert pt a Hok Ht. induction Hu as [|v vpns Hv Hu IH]; intros pt a Hok Ht.
  { exists pt, (data_frames a). cbn [unmap_pages]. split; [by destruct a|]. split; [done|].
    split; intros; by rewrite decide_False by apply not_elem_of_nil. }
  cbn [unmap_pages]. unfold unmap_one. rewrite decide_True by done.
  destruct (pt_unmap_law pt v Hok Hv) as (pt1&->&Hok1&Ht1). cbn [mbind comp_bind].
  destruct (IH pt1 (set_frames a (delete v (data_frames a))) Hok1 Ht) as (pt'&d&->&Hok'&Hd&Ht').
  exists pt', d. split; [by destruct a|]. split; [done|]. split.
  - intros w. rewrite Hd. simpl. destruct (decide (w = v)) as [->|Hne].
    + rewrite lookup_delete_eq, (decide_True (P := v ∈ v :: vpns)) by set_solver. by case_decide.
    + rewrite lookup_delete_ne by done. repeat case_decide; set_solver.
  - intros w Hw. rewrite Ht', Ht1 by done. repeat case_decide; set_solver.
Qed.
End laws.

(** ** Group counts *)

(** Every group that areas refer to is counted at least that often. *)
Definition group_ok (g : GroupManager) (refs : Z → nat) : Prop :=
  ∀ id, id ≠ 0 → (0 < refs id)%nat →
    ∃ inner, groups g !! id = Some inner ∧ Z.of_nat (refs id) ≤ maparea_num inner ≤ usize_max.

Lemma group_ok_ext g refs refs' : (∀ id, id ≠ 0 → refs' id = refs id) → group_ok g refs → group_ok g refs'.
Proof. intros Heq Hok id Hid. rewrite Heq by done. by apply Hok. Qed.

Lemma drop_area_ok g a refs refs' :
  group_ok g refs → (groupid a ≠ 0 → refs (groupid a) = S (refs' (groupid a))) →
  (∀ id, id ≠ 0 → id ≠ groupid a → refs' id = refs id) →
  ∃ g', drop_area g a = Done g' ∧ group_ok g' refs'.
Proof.
  intros Hok Hself Hother. unfold drop_area, del_area. destruct (Z.eqb_spec (groupid a) 0) as [H0|H0].
  { exists g. split; [done|]. apply (group_ok_ext _ refs); [|done]. intros id Hid. apply Hother; congruence. }
  specialize (Hself H0). destruct (Hok _ H0 ltac:(lia)) as (inner&Hi&Hn). rewrite Hi. cbn [unwrap mbind comp_bind].
  rewrite wrap64_small by (unfold is_usize; lia). destruct (Z.eqb_spec (maparea_num inner - 1) 0).
  - eexists. split; [done|]. intros id Hid Hr. simpl. destruct (decide (id = groupid a)) as [->|Hne]; [lia|].
    rewrite lookup_delete_ne by done. rewrite Hother in * by done. by apply Hok.
  - eexists. split; [done|]. intros id Hid Hr. simpl. destruct (decide (id = groupid a)) as [->|Hne].
    + rewrite lookup_insert_eq. eexists. split; [done|]. simpl. lia.
    + rewrite lookup_insert_ne by done. rewrite Hother in * by done. by apply Hok.
Qed.
