(* ===== verification/AreaSet.v ===== *)
(** * The areas of an address space

    [mm/memory_set/types.rs], [mm/memory_set/area_ops.rs] and the searches of
    [mm/memory_set/accessors.rs]: the vector of areas of a [MemorySetInner],
    kept sorted by first page, with insertion, merging, the search for free
    ranges and the program break.

    Insertions, splits and merges are measured against the page view
    ([attr_at], [frame_at]): what each virtual page is, whatever the areas that
    hold it. *)

From S2P Require Import Prelude Errno Address PageTable MapArea.

(** ** The address space *)

Definition THREAD_MAX_NUM : Z := 3000.
Definition USER_STACK_SIZE : Z := 8388608.
Definition USER_SPACE_SIZE : Z := 206158430208.
Definition USER_TRAP_CONTEXT_TOP : Z := USER_SPACE_SIZE.
Definition MMAP_TOP : Z :=
  USER_TRAP_CONTEXT_TOP - PAGE_SIZE * THREAD_MAX_NUM - USER_STACK_SIZE * THREAD_MAX_NUM - PAGE_SIZE.
Definition USER_HEAP_SIZE : Z := 2147483648.
Definition MAX_MMAP_SIZE : Z := 2147483648.

Record MemorySetInner (PT : Type) : Type := mkMs {
  page_table : PT; areas : list MapArea; total_mmap_size : Z; mmap_hint : Z }.
Arguments mkMs {PT} _ _ _ _.
Arguments page_table {PT} _.
Arguments areas {PT} _.
Arguments total_mmap_size {PT} _.
Arguments mmap_hint {PT} _.

(** ** Insertion and merging *)

Definition vec_insert {A} (i : nat) (x : A) (l : list A) : list A := take i l ++ x :: drop i l.
Definition vec_remove {A} (i : nat) (l : list A) : list A := take i l ++ drop (S i) l.

(** [binary_search_by_key(..).unwrap_or_else(|i| i)]: the place of the first
    area that does not start before [start_vpn].  On a vector sorted by distinct
    starts it is the only result the search can have. *)
Definition search_start (l : list MapArea) (start_vpn : Z) : nat :=
  default (length l) (position (λ a, start_vpn <=? area_start a) l).

Definition insert_area_sorted_unmerged (l : list MapArea) (a : MapArea) : list MapArea * nat :=
  let index := search_start l (area_start a) in (vec_insert index a l, index).

Definition can_merge_areas (left right : MapArea) : bool :=
  (area_end left =? area_start right)
  && bool_decide (map_type left = map_type right)
  && (map_perm left =? map_perm right)
  && bool_decide (area_type left = area_type right)
  && (mmap_flags left =? mmap_flags right)
  && (groupid left =? 0) && (groupid right =? 0)
  && is_anonymous (mmap_file left) && is_anonymous (mmap_file right)
  && contains (mmap_flags left) MAP_PRIVATE && contains (mmap_flags left) MAP_ANONYMOUS.

(** The union of two areas; frames of [right] win, as in [BTreeMap::append].
    The dropped right area has no group. *)
Definition merge_two (left right : MapArea) : comp MapArea :=
  r ← range_new (area_start left) (area_end right);
  Done (set_frames (set_range left r) (data_frames right ∪ data_frames left)).

(** The loop of [merge_adjacent_areas], for at most [fuel] merges. *)
Fixpoint merge_adjacent_areas (fuel : nat) (l : list MapArea) (index : nat) : comp (list MapArea) :=
  match fuel with
  | O => Done l
  | S fuel =>
      cur ← unwrap (l !! index);
      let step_right :=
        match l !! S index with
        | Some next =>
            if can_merge_areas cur next
            then m ← merge_two cur next; merge_adjacent_areas fuel (<[index := m]> (vec_remove (S index) l)) index
            else Done l
        | None => Done l
        end in
      match index with
      | O => step_right
      | S prev =>
          before ← unwrap (l !! prev);
          if can_merge_areas before cur
          then m ← merge_two before cur; merge_adjacent_areas fuel (<[prev := m]> (vec_remove index l)) prev
          else step_right
      end
  end.

(** [push_lazily]. *)
Definition insert_area_sorted (l : list MapArea) (a : MapArea) : comp (list MapArea) :=
  let '(l, index) := insert_area_sorted_unmerged l a in
  merge_adjacent_areas (length l) l index.

(** ** Searches *)

Definition overlaps (a : MapArea) (start_vpn end_vpn : Z) : bool :=
  (area_start a <? end_vpn) && (start_vpn <? area_end a).

(** The loop of [find_insert_addr] over the areas from the last to the first. *)
Fixpoint find_insert_loop (l : list MapArea) (pages start_vpn end_vpn : Z) : option Z :=
  match l with
  | [] => Some start_vpn
  | a :: l =>
      if area_end a <=? start_vpn then Some start_vpn
      else if end_vpn <=? area_start a then find_insert_loop l pages start_vpn end_vpn
      else
        end_vpn ← checked_sub (area_start a) 1;
        start_vpn ← checked_sub end_vpn pages;
        find_insert_loop l pages start_vpn end_vpn
  end.

Definition find_insert_addr (l : list MapArea) (hint size : Z) : comp Z :=
  match checked_add size (PAGE_SIZE - 1) with
  | None => Done 0
  | Some size =>
      let pages := size / PAGE_SIZE in
      if pages =? 0 then Done 0
      else
        hint ← virt_addr_from_usize hint;
        let end_vpn := floor hint in
        match checked_sub end_vpn pages with
        | None => Done 0
        | Some start_vpn =>
            match find_insert_loop (reverse l) pages start_vpn end_vpn with
            | None => Done 0
            | Some start_vpn => Done (addr_from_page_num start_vpn)
            end
        end
  end.

Section memory_set.
Context {PT : Type} `{!PageTableOps PT}.
Implicit Types ms : MemorySetInner PT.

Definition set_areas ms (l : list MapArea) : MemorySetInner PT :=
  mkMs (page_table ms) l (total_mmap_size ms) (mmap_hint ms).
Definition set_pt ms (pt : PT) : MemorySetInner PT :=
  mkMs pt (areas ms) (total_mmap_size ms) (mmap_hint ms).
Definition set_total ms (n : Z) : MemorySetInner PT :=
  mkMs (page_table ms) (areas ms) n (mmap_hint ms).
Definition set_hint ms (h : Z) : MemorySetInner PT :=
  mkMs (page_table ms) (areas ms) (total_mmap_size ms) h.

Definition new_bare (pt : PT) : MemorySetInner PT := mkMs pt [] 0 MMAP_TOP.

Definition push_lazily ms (a : MapArea) : comp (MemorySetInner PT) :=
  l ← insert_area_sorted (areas ms) a; Done (set_areas ms l).

(** [push] without initial data: map all pages now. *)
Definition push_area ms (a : MapArea) : comp (MemorySetInner PT * bool) :=
  '(pt, a, ok) ← area_map (page_table ms) a;
  if (ok : bool) then ms ← push_lazily (set_pt ms pt) a; Done (ms, true)
  else Done (set_pt ms pt, false).

Definition push_with_given_frames ms (a : MapArea) (frames : list Z) : comp (MemorySetInner PT) :=
  '(pt, a) ← map_given_frames (page_table ms) a frames;
  push_lazily (set_pt ms pt) a.

Definition find_mmap_addr ms (size : Z) : comp (MemorySetInner PT * Z) :=
  let hint := Z.min (Z.max (mmap_hint ms) PAGE_SIZE) MMAP_TOP in
  addr ← find_insert_addr (areas ms) hint size;
  addr ← (if (addr =? 0) && negb (hint =? MMAP_TOP)
          then find_insert_addr (areas ms) MMAP_TOP size else Done addr);
  Done (if addr =? 0 then ms else set_hint ms addr, addr).

Definition try_mmap_hint ms (hint size : Z) : comp (MemorySetInner PT * option Z) :=
  if hint =? 0 then Done (ms, None)
  else
    let start := Z.land hint (wrap64 (Z.lnot (PAGE_SIZE - 1))) in
    match checked_add start size with
    | None => Done (ms, None)
    | Some end_ =>
        if (start =? 0) || (MMAP_TOP <? end_) then Done (ms, None)
        else
          s ← virt_addr_from_usize start;
          e ← virt_addr_from_usize end_;
          if existsb (λ a, overlaps a (floor s) (ceil e)) (areas ms) then Done (ms, None)
          else Done (set_hint ms start, Some start)
    end.


(** The loop over the two search hints. *)
Fixpoint aligned_loop ms (hints : list Z) (hint search_size size align : Z) : comp (MemorySetInner PT * Z) :=
  match hints with
  | [] => Done (ms, 0)
  | search_hint :: hints =>
      let next := aligned_loop ms hints hint search_size size align in
      if negb (search_hint =? MMAP_TOP) && (search_hint =? hint) && (hint =? MMAP_TOP) then next
      else
        candidate ← find_insert_addr (areas ms) search_hint search_size;
        if candidate =? 0 then next
        else
          match checked_add candidate (align - 1) with
          | None => next
          | Some addr_base =>
              let addr := Z.land addr_base (wrap64 (Z.lnot (align - 1))) in
              match checked_add addr size with
              | None => next
              | Some end_ =>
                  if (search_hint <? end_) || (MMAP_TOP <? end_) then next
                  else Done (set_hint ms addr, addr)
              end
          end
  end.
Definition find_mmap_addr_aligned ms (size align : Z) : comp (MemorySetInner PT * Z) :=
  if (align =? 0) || negb (is_power_of_two align) then Done (ms, 0)
  else
    match checked_add size (align - 1) with
    | None => Done (ms, 0)
    | Some search_size =>
        let hint := Z.min (Z.max (mmap_hint ms) PAGE_SIZE) MMAP_TOP in
        aligned_loop ms [hint; MMAP_TOP] hint search_size size align
    end.

(** ** The program break *)

(** The frames of a page number from [k] on, and below [k]. *)
Definition frames_from (d : gmap Z Z) (k : Z) : gmap Z Z := filter (λ '(v, _), k ≤ v) d.
Definition frames_below (d : gmap Z Z) (k : Z) : gmap Z Z := filter (λ '(v, _), v < k) d.

(** Take the area at [idx] out of the vector and drop it. *)
Definition remove_area (g : GroupManager) (l : list MapArea) (idx : nat) : comp (GroupManager * list MapArea) :=
  a ← unwrap (l !! idx);
  g ← drop_area g a;
  Done (g, vec_remove idx l).

Definition brk_overlaps (start_vpn end_vpn : Z) (a : MapArea) : bool :=
  bool_decide (area_type a = Brk) && ((area_start a <? end_vpn) && (start_vpn <? area_end a)).

(** What remains of the area [a] at [idx] without the pages of the range. *)
Definition remove_brk_step (g : GroupManager) (pt : PT) (l : list MapArea) (idx : nat) (a : MapArea)
    (start_vpn end_vpn : Z) : comp (GroupManager * PT * list MapArea) :=
  let s := area_start a in
  let e := area_end a in
  r ← range_new (Z.max s start_vpn) (Z.min e end_vpn);
  '(pt, a) ← unmap_pages pt a (range_pages r);
  if (start_vpn <=? s) && (e <=? end_vpn) then
    '(g, l) ← remove_area g (<[idx := a]> l) idx; Done (g, pt, l)
  else if (s <? start_vpn) && (e <=? end_vpn) then
    r ← range_new s start_vpn; Done (g, pt, <[idx := set_range a r]> l)
  else if (start_vpn <=? s) && (end_vpn <? e) then
    r ← range_new end_vpn e; Done (g, pt, <[idx := set_range a r]> l)
  else
    rr ← range_new end_vpn e;
    let right_area := set_frames (set_range (area_from_another a) rr) (frames_from (data_frames a) end_vpn) in
    lr ← range_new s start_vpn;
    let a := set_range (set_frames a (frames_below (data_frames a) end_vpn)) lr in
    Done (g, pt, fst (insert_area_sorted_unmerged (<[idx := a]> l) right_area)).

Definition remove_brk_range (g : GroupManager) ms (start_vpn end_vpn : Z) :
    comp (GroupManager * MemorySetInner PT) :=
  if end_vpn <=? start_vpn then Done (g, ms)
  else
    '(g, pt, l) ← while_some (λ '(_, _, l), position (brk_overlaps start_vpn end_vpn) l)
      (λ '(g, pt, l) idx, a ← unwrap (l !! idx); remove_brk_step g pt l idx a start_vpn end_vpn)
      (g, page_table ms, areas ms);
    Done (g, set_areas (set_pt ms pt) l).

(** The loop of [grow] that collects the free parts of the new range; the
    second component is the final cursor. *)
Fixpoint free_ranges (l : list MapArea) (cursor new_vpn : Z) : list (Z * Z) * Z :=
  match l with
  | [] => ([], cursor)
  | a :: l =>
      if bool_decide (area_type a = Brk) then free_ranges l cursor new_vpn
      else if (area_end a <=? cursor) || (new_vpn <=? area_start a) then free_ranges l cursor new_vpn
      else
        let here := if cursor <? area_start a then [(cursor, Z.min (area_start a) new_vpn)] else [] in
        let cursor := if cursor <? area_end a then Z.min (area_end a) new_vpn else cursor in
        if new_vpn <=? cursor then (here, cursor)
        else let '(rest, c) := free_ranges l cursor new_vpn in (here ++ rest, c)
  end.

Definition brk_area (start end_ : Z) : comp MapArea :=
  area_new (addr_from_page_num start) (addr_from_page_num end_) Framed
    (Z.lor (Z.lor PERM_R PERM_W) PERM_U) Brk.

Fixpoint push_brk ms (rs : list (Z * Z)) : comp (MemorySetInner PT) :=
  match rs with
  | [] => Done ms
  | (start, end_) :: rs =>
      if start <? end_
      then a ← brk_area start end_; ms ← push_lazily ms a; push_brk ms rs
      else push_brk ms rs
  end.

(** [a.checked_add_signed(b)] on [usize]. *)
Definition checked_add_signed (a b : Z) : option Z :=
  if (0 <=? a + b) && (a + b <=? usize_max) then Some (a + b) else None.

Definition grow (g : GroupManager) ms (grow_size user_heappoint user_heapbottom : Z) :
    comp (GroupManager * MemorySetInner PT * option Z) :=
  match checked_add_signed user_heappoint grow_size with
  | None => Done (g, ms, None)
  | Some new_addr =>
      n ← virt_addr_from_usize new_addr;
      o ← virt_addr_from_usize user_heappoint;
      let new_vpn := ceil n in
      let old_vpn := ceil o in
      if 0 <? grow_size then
        let user_vpn_top := wrap64 (user_heapbottom + USER_HEAP_SIZE) / PAGE_SIZE in
        if user_vpn_top <=? new_vpn then Done (g, ms, None)
        else if new_vpn <=? old_vpn then Done (g, ms, Some new_addr)
        else
          let '(rs, cursor) := free_ranges (areas ms) old_vpn new_vpn in
          let rs := if cursor <? new_vpn then rs ++ [(cursor, new_vpn)] else rs in
          ms ← push_brk ms rs;
          Done (g, ms, Some new_addr)
      else if grow_size <? 0 then
        if new_addr <? user_heapbottom then Done (g, ms, None)
        else '(g, ms) ← remove_brk_range g ms new_vpn old_vpn; Done (g, ms, Some new_addr)
      else Done (g, ms, Some new_addr)
  end.

(** ** Queries *)

Definition find_area_by_range ms (l r : Z) : option MapArea :=
  find (λ a, (area_start a =? l) && (area_end a =? r)) (areas ms).

(** [remove_area_with_start_vpn]. *)
Definition remove_area_with_start_vpn (g : GroupManager) ms (start_vpn : Z) :
    comp (GroupManager * MemorySetInner PT) :=
  match position (λ a, area_start a =? start_vpn) (areas ms) with
  | None => Done (g, ms)
  | Some idx =>
      a ← unwrap (areas ms !! idx);
      '(pt, a) ← area_unmap (page_table ms) a;
      '(g, l) ← remove_area g (<[idx := a]> (areas ms)) idx;
      Done (g, set_areas (set_pt ms pt) l)
  end.

(** The loop of [check_user_range]: the cursor, or [None] for an early [false]. *)
Fixpoint check_user_loop (l : list MapArea) (current end_vpn wanted : Z) : option Z :=
  match l with
  | [] => Some current
  | a :: l =>
      if area_end a <=? current then check_user_loop l current end_vpn wanted
      else if negb (contains_vpn (vpn_range a) current) then None
      else if negb (contains (map_perm a) wanted) then None
      else
        let current := Z.min (area_end a) end_vpn in
        if end_vpn <=? current then Some current
        else check_user_loop l current end_vpn wanted
  end.
Definition check_user_range ms (r : VPNRange) (wanted : Z) : bool :=
  match check_user_loop (areas ms) (range_start r) (range_end r) wanted with
  | None => false
  | Some current => negb (current <? range_end r)
  end.

Definition virtual_size_kb ms : Z :=
  foldr (λ a n, (area_end a - area_start a) * PAGE_SIZE / 1024 + n) 0 (areas ms).
Definition locked_size_kb ms : Z :=
  foldr (λ a n, if contains (mmap_flags a) MAP_LOCKED
                then (area_end a - area_start a) * PAGE_SIZE / 1024 + n else n) 0 (areas ms).
Definition resident_size_kb ms : Z :=
  foldr (λ a n, Z.of_nat (size (data_frames a)) * PAGE_SIZE / 1024 + n) 0 (areas ms).

End memory_set.

(** ** The page view *)

(** What a page is, whatever area holds it.  The position in the file matters
    only for a mapping with a source. *)
Record PageAttr : Type := mkAttr {
  at_map : MapType; at_perm : Z; at_area : MapAreaType; at_flags : Z; at_group : Z;
  at_file : option (MmapSource * Z) }.

Definition page_attr (a : MapArea) (vpn : Z) : PageAttr :=
  mkAttr (map_type a) (map_perm a) (area_type a) (mmap_flags a) (groupid a)
    (match mf_source (mmap_file a) with
     | Anonymous => None
     | src => Some (src, wrap64 (mf_offset (mmap_file a) + (vpn - area_start a) * PAGE_SIZE))
     end).

Definition holds (a : MapArea) (vpn : Z) : bool := contains_vpn (vpn_range a) vpn.
Definition lookup_area (l : list MapArea) (vpn : Z) : option MapArea := find (λ a, holds a vpn) l.
Definition attr_at (l : list MapArea) (vpn : Z) : option PageAttr :=
  (λ a, page_attr a vpn) <$> lookup_area l vpn.
Definition frame_at (l : list MapArea) (vpn : Z) : option Z :=
  a ← lookup_area l vpn; data_frames a !! vpn.

(** An area of a user space is a non-empty range of user pages on frames. *)
Definition area_ok (a : MapArea) : Prop :=
  0 ≤ area_start a < area_end a ∧ area_end a ≤ 2 ^ 26 ∧ map_type a = Framed.
Definition area_before (a b : MapArea) : Prop := area_end a ≤ area_start b.
Definition apart (a b : MapArea) : Prop := area_end a ≤ area_start b ∨ area_end b ≤ area_start a.

(** The layout invariant: areas are non-empty, sorted and pairwise disjoint. *)
Record areas_wf (l : list MapArea) : Prop := {
  wf_areas : Forall area_ok l;
  wf_sorted : StronglySorted area_before l
}.

(** Every resident page of an area lies in its range. *)
Definition frames_in (a : MapArea) : Prop := ∀ vpn f, data_frames a !! vpn = Some f → holds a vpn = true.
Definition frames_wf (l : list MapArea) : Prop := Forall frames_in l.

(** *** Lookup *)

Lemma holds_spec a vpn : holds a vpn = true ↔ area_start a ≤ vpn < area_end a.
Proof. unfold holds, contains_vpn, area_start, area_end. lia. Qed.

Lemma overlaps_spec a s e : overlaps a s e = true ↔ area_start a < e ∧ s < area_end a.
Proof. unfold overlaps. lia. Qed.

Lemma lookup_area_Some l vpn a : lookup_area l vpn = Some a → a ∈ l ∧ holds a vpn = true.
Proof.
  intros Hf. apply find_some in Hf as [Hin Hh]. split; [by apply list_elem_of_In|done].
Qed.

Lemma lookup_area_None l vpn : lookup_area l vpn = None ↔ ∀ a, a ∈ l → holds a vpn = false.
Proof.
  unfold lookup_area. split.
  - intros Hf a Hin. eapply find_none in Hf; [done|by apply list_elem_of_In].
  - induction l as [|b l IH]; simpl; [done|]. intros Hall. rewrite (Hall b) by set_solver. apply IH. set_solver.
Qed.

Lemma attr_at_None l vpn : attr_at l vpn = None ↔ ∀ a, a ∈ l → holds a vpn = false.
Proof. unfold attr_at. by rewrite fmap_None, lookup_area_None. Qed.

Lemma lookup_area_app l k vpn :
  lookup_area (l ++ k) vpn = match lookup_area l vpn with Some a => Some a | None => lookup_area k vpn end.
Proof. unfold lookup_area. induction l as [|a l IH]; simpl; [done|]. by destruct (holds a vpn). Qed.

(** A list of areas no two of which share a page. *)
Definition all_apart (l : list MapArea) : Prop := StronglySorted apart l.

Lemma areas_wf_apart l : areas_wf l → all_apart l.
Proof.
  intros [_ Hs]. induction Hs as [|a l Hs IH Ha]; constructor; [done|].
  eapply Forall_impl; [done|]. intros b Hb. by left.
Qed.

Lemma all_apart_cons a l : all_apart (a :: l) ↔ Forall (apart a) l ∧ all_apart l.
Proof. split; [intros Hs; inversion Hs; subst; done|intros [??]; by constructor]. Qed.

Lemma apart_sym a b : apart a b → apart b a.
Proof. unfold apart. tauto. Qed.

#[export] Instance all_apart_proper : Proper ((≡ₚ) ==> iff) all_apart.
Proof.
  assert (∀ l k, l ≡ₚ k → all_apart l → all_apart k) as Hp; [|split; apply Hp; done].
  induction 1 as [|a l k Hlk IH|a b l|l k j _ IH1 _ IH2]; intros Hl; [done| | |tauto].
  - apply all_apart_cons in Hl as [Ha Hl]. apply all_apart_cons. split; [by rewrite <- Hlk|auto].
  - rewrite !all_apart_cons, !Forall_cons in *. destruct Hl as ([? ?]&?&?). eauto using apart_sym.
Qed.

Lemma apart_holds a b vpn : apart a b → holds a vpn = true → holds b vpn = true → False.
Proof. rewrite !holds_spec. unfold apart. lia. Qed.

Lemma lookup_area_apart l a vpn : all_apart l → a ∈ l → holds a vpn = true → lookup_area l vpn = Some a.
Proof.
  intros Hap Hin Hh. induction l as [|b l IH]; [by apply elem_of_nil in Hin|].
  apply all_apart_cons in Hap as [Hb Hap]. unfold lookup_area. simpl.
  apply elem_of_cons in Hin as [<-|Hin]; [by rewrite Hh|].
  destruct (holds b vpn) eqn:Hbv; [|by apply IH]. exfalso.
  eapply Forall_forall in Hb; [|done]. by eapply apart_holds.
Qed.

(** Lookup in disjoint areas does not depend on their order. *)
Lemma lookup_area_perm l k vpn : all_apart l → l ≡ₚ k → lookup_area l vpn = lookup_area k vpn.
Proof.
  intros Hap Hp. destruct (lookup_area l vpn) as [a|] eqn:Hl.
  - apply lookup_area_Some in Hl as [Hin Hh]. symmetry. apply lookup_area_apart; [by rewrite <- Hp| |done].
    by rewrite <- Hp.
  - rewrite lookup_area_None in Hl. symmetry. apply lookup_area_None. intros a. rewrite <- Hp. apply Hl.
Qed.

(** *** Sorted vectors *)

Lemma areas_wf_cons a l : areas_wf (a :: l) ↔ area_ok a ∧ Forall (area_before a) l ∧ areas_wf l.
Proof.
  split.
  - intros [Hok Hs]. inversion Hok; inversion Hs; subst. done.
  - intros (?&?&[??]). split; by constructor.
Qed.

Lemma areas_wf_nil : areas_wf [].
Proof. split; constructor. Qed.

Lemma areas_wf_single a : area_ok a → areas_wf [a].
Proof. intros. apply areas_wf_cons. split; [done|]. split; [constructor|apply areas_wf_nil]. Qed.

Lemma areas_wf_app l k :
  areas_wf (l ++ k) ↔ areas_wf l ∧ areas_wf k ∧ ∀ a b, a ∈ l → b ∈ k → area_before a b.
Proof.
  induction l as [|a l IH]; simpl.
  - split; [|by intros (_&?&_)]. intros ?. split; [repeat constructor|]. split; [done|].
    intros ? ? []%elem_of_nil.
  - rewrite !areas_wf_cons, IH, Forall_app, !Forall_forall. setoid_rewrite elem_of_cons.
    split; [|naive_solver]. intros (?&[? ?]&?&?&?). split_and!; naive_solver.
Qed.

(** *** Insertion *)

Lemma search_start_split l start :
  StronglySorted area_before l → Forall area_ok l →
  ∃ l1 l2, l = l1 ++ l2 ∧ search_start l start = length l1 ∧
    (∀ b, b ∈ l1 → area_start b < start) ∧ (∀ b, b ∈ l2 → start ≤ area_start b).
Proof.
  intros Hs Hok. induction Hs as [|a l Hs IH Hb].
  - exists [], []. repeat split; intros ? []%elem_of_nil.
  - apply Forall_cons in Hok as [Ha Hok]. unfold search_start. simpl.
    destruct (Z.leb_spec start (area_start a)) as [Hle|Hgt].
    + exists [], (a :: l). repeat split; [intros ? []%elem_of_nil|].
      intros b [->|Hin]%elem_of_cons; [done|].
      eapply Forall_forall in Hb; [|done]. unfold area_before, area_ok in *. lia.
    + destruct (IH Hok) as (l1&l2&->&Hlen&H1&H2). exists (a :: l1), l2. simpl.
      repeat split; [| |done].
      * rewrite <- Hlen. unfold search_start. by destruct (position _ _).
      * intros b [->|?]%elem_of_cons; [lia|auto].
Qed.

Lemma vec_insert_app {A} (l1 l2 : list A) x : vec_insert (length l1) x (l1 ++ l2) = l1 ++ x :: l2.
Proof. unfold vec_insert. by rewrite take_app_length, drop_app_length. Qed.

Lemma insert_unmerged_spec l a :
  areas_wf l → area_ok a → (∀ b, b ∈ l → apart a b) →
  ∃ l1 l2, insert_area_sorted_unmerged l a = (l1 ++ a :: l2, length l1) ∧ l = l1 ++ l2 ∧
    areas_wf (l1 ++ a :: l2).
Proof.
  intros Hwf Ha Hap. destruct (search_start_split l (area_start a)) as (l1&l2&->&Hi&H1&H2); [apply Hwf..|].
  exists l1, l2. unfold insert_area_sorted_unmerged. rewrite Hi, vec_insert_app.
  split; [done|]. split; [done|].
  apply areas_wf_app in Hwf as (Hw1&Hw2&H12). apply areas_wf_app. split; [done|].
  assert (∀ b, b ∈ l1 → area_before b a) as Hb1.
  { intros b Hin. specialize (H1 b Hin). destruct (Hap b) as [?|?]; [set_solver| |done].
    unfold area_before, area_ok in *. lia. }
  split.
  - apply areas_wf_cons. split; [done|]. split; [|done]. apply Forall_forall. intros b Hin.
    specialize (H2 b Hin). destruct (Hap b) as [?|?]; [set_solver|done|].
    pose proof (wf_areas _ Hw2) as Hok. eapply Forall_forall in Hok; [|done]. unfold area_before, area_ok in *. lia.
  - intros b c Hb [->|Hc]%elem_of_cons; auto.
Qed.

(** *** Merging changes no page *)

Definition group_refs (l : list MapArea) (id : Z) : nat := length (filter (λ a, groupid a = id) l).

Record same_pages (l k : list MapArea) : Prop := {
  sp_wf : areas_wf l → areas_wf k;
  sp_attr vpn : attr_at k vpn = attr_at l vpn;
  sp_frames : frames_wf l → frames_wf k ∧ ∀ vpn, frame_at k vpn = frame_at l vpn;
  sp_groups id : id ≠ 0 → group_refs k id = group_refs l id
}.

#[export] Instance same_pages_refl : Reflexive same_pages.
Proof. intros l. by split. Qed.
#[export] Instance same_pages_trans : Transitive same_pages.
Proof.
  intros l k j [W1 A1 F1 G1] [W2 A2 F2 G2]. split; [auto| | |].
  - intros vpn. by rewrite A2.
  - intros Hl. destruct (F1 Hl) as [Hk E1]. destruct (F2 Hk) as [Hj E2]. split; [done|].
    intros vpn. by rewrite E2.
  - intros id Hid. by rewrite G2, G1.
Qed.

Lemma can_merge_spec x y :
  can_merge_areas x y = true →
  area_end x = area_start y ∧ (∀ vpn, page_attr x vpn = page_attr y vpn) ∧
  groupid x = 0 ∧ groupid y = 0 ∧ mf_source (mmap_file x) = Anonymous.
Proof.
  unfold can_merge_areas. intros. split_bools. unfold page_attr, is_anonymous in *.
  repeat match goal with H : (_ =? _) = true |- _ => apply Z.eqb_eq in H end.
  destruct (mf_source (mmap_file x)), (mf_source (mmap_file y)); try done.
  split; [done|]. split; [|done]. intros. congruence.
Qed.

Lemma merge_two_spec x y :
  area_ok x → area_ok y → can_merge_areas x y = true →
  ∃ m, merge_two x y = Done m ∧ area_start m = area_start x ∧ area_end m = area_end y ∧
    (∀ vpn, page_attr m vpn = page_attr x vpn) ∧ groupid m = 0 ∧
    data_frames m = data_frames y ∪ data_frames x ∧ map_type m = map_type x.
Proof.
  intros Hx Hy Hm. apply can_merge_spec in Hm as (He&_&Hg&_&Hsrc). unfold merge_two, range_new, area_ok in *.
  rewrite (proj2 (Z.leb_le (area_start x) (area_end y))) by lia. simpl. eexists. split; [done|].
  split; [done|]. split; [done|]. split; [|done].
  intros vpn. unfold page_attr. simpl. by rewrite Hsrc.
Qed.

Section merge_step.
Context (x y m : MapArea) (l1 l2 : list MapArea).
Context (Hx : area_ok x) (Hy : area_ok y) (Hm : can_merge_areas x y = true) (Hd : merge_two x y = Done m).

Lemma merge_facts : area_start m = area_start x ∧ area_end m = area_end y ∧ area_end x = area_start y ∧
  (∀ vpn, page_attr m vpn = page_attr x vpn) ∧ (∀ vpn, page_attr x vpn = page_attr y vpn) ∧
  groupid x = 0 ∧ groupid y = 0 ∧ groupid m = 0 ∧ data_frames m = data_frames y ∪ data_frames x ∧
  map_type m = map_type x.
Proof.
  destruct (merge_two_spec x y Hx Hy Hm) as (m'&Hm'&?&?&?&?&?&?). rewrite Hd in Hm'. simplify_eq.
  apply can_merge_spec in Hm as (?&?&?&?&_). done.
Qed.

Lemma merge_holds vpn : holds m vpn = holds x vpn || holds y vpn.
Proof.
  destruct merge_facts as (Hs&He&Hxy&_). apply eq_true_iff_eq. rewrite orb_true_iff, !holds_spec.
  unfold area_ok in *. lia.
Qed.

Lemma merge_frames vpn : frames_in x → frames_in y →
  data_frames m !! vpn = if holds x vpn then data_frames x !! vpn else data_frames y !! vpn.
Proof.
  intros Fx Fy. destruct merge_facts as (_&_&Hxy&_&_&_&_&_&->&_). rewrite lookup_union.
  destruct (data_frames x !! vpn) eqn:Ex, (data_frames y !! vpn) eqn:Ey; simpl.
  - apply Fx in Ex. apply Fy in Ey. rewrite holds_spec in *. lia.
  - by rewrite (Fx _ _ Ex).
  - destruct (holds x vpn) eqn:Hh; [|done]. apply Fy in Ey. rewrite holds_spec in *. lia.
  - by destruct (holds x vpn).
Qed.

Lemma lookup_area_merge vpn :
  lookup_area (l1 ++ m :: l2) vpn = lookup_area (l1 ++ x :: y :: l2) vpn ∨
  lookup_area (l1 ++ m :: l2) vpn = Some m ∧
    lookup_area (l1 ++ x :: y :: l2) vpn = Some (if holds x vpn then x else y).
Proof.
  rewrite !lookup_area_app. destruct (lookup_area l1 vpn) as [a|] eqn:H1; [by left|].
  unfold lookup_area. simpl. rewrite merge_holds.
  destruct (holds x vpn) eqn:Ex; simpl; [by right|]. destruct (holds y vpn) eqn:Ey; simpl; [by right|by left].
Qed.

Lemma merge_step_same : same_pages (l1 ++ x :: y :: l2) (l1 ++ m :: l2).
Proof.
  destruct merge_facts as (Hs&He&Hxy&Ha&Hab&Gx&Gy&Gm&_&Ht). split.
  - rewrite !areas_wf_app, !areas_wf_cons, !Forall_forall. unfold area_before, area_ok in *.
    setoid_rewrite elem_of_cons. intros (?&(?&?&?&?&?)&H12). split; [done|].
    split; [split; [rewrite Ht; split; [lia|split; [lia|apply Hx]]|]|].
    + split; [|done]. intros b Hb. rewrite He. auto.
    + intros a b Hin [->|Hb]; [rewrite Hs|]; apply H12; rewrite ?elem_of_cons; auto.
  - intros vpn. unfold attr_at. destruct (lookup_area_merge vpn) as [->|[-> ->]]; [done|].
    simpl. f_equal. rewrite Ha. by destruct (holds x vpn).
  - unfold frames_wf. rewrite !Forall_app, !Forall_cons. intros (F1&Fx&Fy&F2). split.
    + split; [done|]. split; [|done]. intros vpn f. rewrite (merge_frames vpn Fx Fy), merge_holds.
      destruct (holds x vpn); [done|]. apply Fy.
    + intros vpn. unfold frame_at. destruct (lookup_area_merge vpn) as [->|[-> ->]]; [done|].
      simpl. rewrite (merge_frames vpn Fx Fy). by destruct (holds x vpn).
  - intros id Hid. unfold group_refs. rewrite !filter_app, !filter_cons, Gx, Gy, Gm.
    by rewrite !decide_False by done.
Qed.
End merge_step.

Lemma vec_remove_app {A} (l1 l2 : list A) x : vec_remove (length l1) (l1 ++ x :: l2) = l1 ++ l2.
Proof.
  unfold vec_remove. rewrite take_app_length. f_equal. replace (S (length l1)) with (length l1 + 1)%nat by lia.
  by rewrite drop_app_add.
Qed.

(** One merge at the two positions of a pair. *)
Lemma merge_pair_eq {A} (l1 l2 : list A) x y m :
  <[length l1 := m]> (vec_remove (S (length l1)) (l1 ++ x :: y :: l2)) = l1 ++ m :: l2.
Proof.
  replace (S (length l1)) with (length (l1 ++ [x])) by (rewrite length_app; simpl; lia).
  replace (l1 ++ x :: y :: l2) with ((l1 ++ [x]) ++ y :: l2) by by rewrite <- app_assoc.
  rewrite vec_remove_app, <- app_assoc. simpl. by rewrite insert_app_r_alt, Nat.sub_diag by lia.
Qed.

(** The loop ends within the length of the vector and changes no page. *)
Lemma merge_adjacent_spec fuel l index :
  areas_wf l → (index < length l)%nat → ∃ k, merge_adjacent_areas fuel l index = Done k ∧ same_pages l k.
Proof.
  revert l index. induction fuel as [|fuel IH]; intros l index Hwf Hi; cbn [merge_adjacent_areas].
  { by exists l. }
  destruct (lookup_lt_is_Some_2 l index Hi) as [cur Hcur]. rewrite Hcur. cbn [unwrap mbind comp_bind].
  assert (∀ l1 x y l2, l = l1 ++ x :: y :: l2 → can_merge_areas x y = true →
    ∃ k, (m ← merge_two x y; merge_adjacent_areas fuel
           (<[length l1 := m]> (vec_remove (S (length l1)) l)) (length l1)) = Done k ∧ same_pages l k) as Hpair.
  { intros l1 x y l2 -> Hm. pose proof (wf_areas _ Hwf) as Hok. rewrite !Forall_app, !Forall_cons in Hok.
    destruct (merge_two_spec x y) as (m&Hd&_); [tauto..|done|]. rewrite Hd. cbn [mbind comp_bind].
    rewrite merge_pair_eq. pose proof (merge_step_same x y m l1 l2 ltac:(tauto) ltac:(tauto) Hm Hd) as Hsame.
    destruct (IH (l1 ++ m :: l2) (length l1)) as (k&Hk&?); [by apply Hsame|rewrite length_app; simpl; lia|].
    exists k. split; [done|]. by etrans. }
  set (step_right := match l !! S index with Some _ => _ | None => _ end).
  assert (∃ k, step_right = Done k ∧ same_pages l k) as Hright.
  { subst step_right. destruct (l !! S index) as [nxt|] eqn:Hn; [|by exists l].
    destruct (can_merge_areas cur nxt) eqn:Hm; [|by exists l].
    destruct (list_elem_of_split_length l index cur Hcur) as (l1&l2&->&->).
    destruct l2 as [|b l2]; [by rewrite lookup_app_r, Nat.sub_succ_l, Nat.sub_diag in Hn by lia|].
    rewrite lookup_app_r, Nat.sub_succ_l, Nat.sub_diag in Hn by lia. simplify_eq/=. by apply (Hpair l1 cur nxt l2). }
  clearbody step_right. destruct index as [|prev]; [done|].
  destruct (lookup_lt_is_Some_2 l prev ltac:(lia)) as [before Hb]. rewrite Hb. cbn [unwrap mbind comp_bind].
  destruct (can_merge_areas before cur) eqn:Hm; [|done].
  destruct (list_elem_of_split_length l prev before Hb) as (l1&l2&->&->).
  rewrite lookup_app_r, Nat.sub_succ_l, Nat.sub_diag in Hcur by lia.
  destruct l2 as [|b l2]; [done|]. simplify_eq/=. by apply (Hpair l1 before cur l2).
Qed.

(** More fuel than areas changes nothing: the loop has ended by itself. *)
Lemma merge_adjacent_fuel fuel l index :
  (index < length l ≤ fuel)%nat →
  merge_adjacent_areas (S fuel) l index = merge_adjacent_areas fuel l index.
Proof.
  revert l index. induction fuel as [|fuel IH]; intros l index Hi; [lia|].
  remember (S fuel) as n. cbn [merge_adjacent_areas].
  match goal with |- ?L = _ => set (lhs := L) end. rewrite Heqn. cbn [merge_adjacent_areas]. subst lhs n.
  assert (∀ i m, (S i < length l)%nat → merge_adjacent_areas (S fuel) (<[i := m]> (vec_remove (S i) l)) i =
    merge_adjacent_areas fuel (<[i := m]> (vec_remove (S i) l)) i) as Hstep.
  { intros i m Hlt. apply IH. rewrite length_insert. unfold vec_remove. rewrite length_app, length_take, length_drop. lia. }
  destruct (l !! index) as [cur|]; [|done]. cbn [unwrap mbind comp_bind].
  assert (∀ i x y, (S i < length l)%nat →
    (m ← merge_two x y; merge_adjacent_areas (S fuel) (<[i := m]> (vec_remove (S i) l)) i) =
    (m ← merge_two x y; merge_adjacent_areas fuel (<[i := m]> (vec_remove (S i) l)) i)) as Hpair.
  { intros i x y Hlt. destruct (merge_two x y); [|done]. by apply Hstep. }
  destruct index as [|prev].
  - destruct (l !! 1%nat) eqn:Hn; [|done]. apply lookup_lt_Some in Hn. destruct (can_merge_areas _ _); [|done]. by apply Hpair.
  - destruct (l !! prev); [|done]. cbn [unwrap mbind comp_bind]. destruct (can_merge_areas _ _); [apply Hpair; lia|].
    destruct (l !! S (S prev)) eqn:Hn; [|done]. apply lookup_lt_Some in Hn. destruct (can_merge_areas _ _); [|done]. by apply Hpair.
Qed.

(** *** The effect of an insertion on the pages *)

Record inserted (l : list MapArea) (a : MapArea) (k : list MapArea) : Prop := {
  ins_wf : areas_wf k;
  ins_attr vpn : attr_at k vpn = if holds a vpn then Some (page_attr a vpn) else attr_at l vpn;
  ins_frames : frames_wf l → frames_in a → frames_wf k ∧
    ∀ vpn, frame_at k vpn = if holds a vpn then data_frames a !! vpn else frame_at l vpn;
  ins_groups id : id ≠ 0 → group_refs k id = group_refs (a :: l) id
}.

Lemma free_apart l a :
  areas_wf l → area_ok a → (∀ vpn, holds a vpn = true → attr_at l vpn = None) → ∀ b, b ∈ l → apart a b.
Proof.
  intros Hwf Ha Hfree b Hb. pose proof (wf_areas _ Hwf) as Hok. eapply Forall_forall in Hok; [|done].
  unfold apart. destruct (decide (area_end a ≤ area_start b ∨ area_end b ≤ area_start a)) as [|Hn]; [done|].
  exfalso. set (v := Z.max (area_start a) (area_start b)).
  assert (holds a v = true) as Hav by (rewrite holds_spec; unfold area_ok in *; lia).
  assert (holds b v = true) as Hbv by (rewrite holds_spec; unfold area_ok in *; lia).
  specialize (Hfree v Hav). rewrite attr_at_None in Hfree. specialize (Hfree b Hb). congruence.
Qed.

Lemma lookup_area_middle l1 a l2 vpn :
  all_apart (l1 ++ a :: l2) →
  lookup_area (l1 ++ a :: l2) vpn = if holds a vpn then Some a else lookup_area (l1 ++ l2) vpn.
Proof.
  intros Hap. rewrite (lookup_area_perm _ (a :: l1 ++ l2)); [|done|by rewrite Permutation_middle].
  unfold lookup_area. simpl. done.
Qed.

Lemma insert_unmerged_inserted l a :
  areas_wf l → area_ok a → (∀ vpn, holds a vpn = true → attr_at l vpn = None) →
  ∃ k i, insert_area_sorted_unmerged l a = (k, i) ∧ k !! i = Some a ∧ inserted l a k.
Proof.
  intros Hwf Ha Hfree. destruct (insert_unmerged_spec l a) as (l1&l2&Heq&->&Hw); [done|done|by apply free_apart|].
  exists (l1 ++ a :: l2), (length l1). split; [done|]. split; [by apply list_lookup_middle|].
  pose proof (areas_wf_apart _ Hw) as Hap. split; [done| | |].
  - intros vpn. unfold attr_at. rewrite lookup_area_middle by done. by destruct (holds a vpn).
  - intros Hf Hfa. unfold frames_wf in *. rewrite Forall_app in *. rewrite Forall_cons. split; [tauto|].
    intros vpn. unfold frame_at. rewrite lookup_area_middle by done. by destruct (holds a vpn).
  - intros id Hid. unfold group_refs. by rewrite <- Permutation_middle.
Qed.

Lemma insert_area_inserted l a :
  areas_wf l → area_ok a → (∀ vpn, holds a vpn = true → attr_at l vpn = None) →
  ∃ k, insert_area_sorted l a = Done k ∧ inserted l a k.
Proof.
  intros Hwf Ha Hfree. destruct (insert_unmerged_inserted l a) as (k0&i&Heq&Hi&Hins); [done..|].
  unfold insert_area_sorted. rewrite Heq.
  destruct (merge_adjacent_spec (length k0) k0 i) as (k&->&[Sw Sa Sf Sg]);
    [apply Hins|by eapply lookup_lt_Some|].
  exists k. split; [done|]. destruct Hins as [Iw Ia If Ig]. split; [auto| | |].
  - intros vpn. by rewrite Sa.
  - intros Hl Hfa. destruct (If Hl Hfa) as [Hk0 E0]. destruct (Sf Hk0) as [Hk E1]. split; [done|].
    intros vpn. by rewrite E1.
  - intros id Hid. by rewrite Sg, Ig.
Qed.

(** *** Replacing one area by parts of it *)

Lemma replace_area l1 a l2 ps :
  areas_wf (l1 ++ a :: l2) → areas_wf ps →
  (∀ p, p ∈ ps → area_start a ≤ area_start p ∧ area_end p ≤ area_end a) →
  areas_wf (l1 ++ ps ++ l2) ∧
  ∀ vpn, lookup_area (l1 ++ ps ++ l2) vpn =
    if holds a vpn then lookup_area ps vpn else lookup_area (l1 ++ a :: l2) vpn.
Proof.
  intros Hwf Hps Hin. assert (areas_wf (l1 ++ ps ++ l2)) as Hw.
  { rewrite !areas_wf_app, areas_wf_cons in *. rewrite Forall_forall in Hwf.
    destruct Hwf as (H1&(Ha&Ha2&H2)&H12). unfold area_before in *. split; [done|]. split.
    - split; [done|]. split; [done|]. intros p b Hp Hb. specialize (Hin p Hp). specialize (Ha2 b Hb). lia.
    - intros x b Hx [Hb|Hb]%elem_of_app.
      + specialize (Hin b Hb). specialize (H12 x a Hx ltac:(set_solver)). lia.
      + apply H12; set_solver. }
  split; [done|]. intros vpn. pose proof (areas_wf_apart _ Hwf) as Hap.
  rewrite (lookup_area_perm (l1 ++ ps ++ l2) (ps ++ l1 ++ l2));
    [|by apply areas_wf_apart|by rewrite !(assoc_L (++)), (Permutation_app_comm l1 ps)].
  rewrite lookup_area_app, lookup_area_middle by done.
  destruct (holds a vpn) eqn:Hh.
  - destruct (lookup_area ps vpn) as [p|] eqn:Hp; [done|]. apply lookup_area_None. intros b Hb.
    destruct (holds b vpn) eqn:Hbv; [|done]. exfalso. eapply (apart_holds a b); [|done|done].
    rewrite <- Permutation_middle in Hap. apply all_apart_cons in Hap as [Hap _].
    eapply Forall_forall in Hap; done.
  - destruct (lookup_area ps vpn) as [p|] eqn:Hp; [|done]. exfalso.
    apply lookup_area_Some in Hp as [Hp Hpv]. specialize (Hin p Hp).
    apply holds_spec in Hpv. assert (holds a vpn = true) by (apply holds_spec; lia). congruence.
Qed.

(** ** The search for a free range *)

Lemma find_insert_loop_spec k pages s :
  0 < pages → 0 ≤ s → StronglySorted (λ a b, area_before b a) k → Forall area_ok k →
  let r := find_insert_loop k pages s (s + pages) in
  (∀ s', r = Some s' → 0 ≤ s' ≤ s ∧ ∀ a, a ∈ k → overlaps a s' (s' + pages) = false) ∧
  (∀ t, 0 ≤ t → default (-1) r < t ≤ s →
     ∃ a, a ∈ k ∧ area_start a < Z.min (s + pages) (t + pages + 1) ∧ t < area_end a).
Proof.
  intros Hp Hs Hsort Hok. revert s Hs. induction Hsort as [|a k Hsort IH Ha]; intros s Hs; simpl.
  { split; [|lia]. intros s' [= <-]. split; [lia|]. intros a []%elem_of_nil. }
  apply Forall_cons in Hok as [Hoka Hok]. specialize (IH Hok).
  assert (∀ b, b ∈ k → area_end b ≤ area_start a) as Hbelow by (intros; by eapply Forall_forall in Ha).
  destruct (Z.leb_spec (area_end a) s) as [Hle|Hgt].
  { split; simpl; [|lia]. intros s' [= <-]. split; [lia|]. unfold overlaps, area_ok in *.
    intros b [->|Hb]%elem_of_cons; [lia|]. specialize (Hbelow b Hb). lia. }
  destruct (Z.leb_spec (s + pages) (area_start a)) as [Hle|Hgt'].
  { destruct (IH s Hs) as [H1 H2]. split.
    - intros s' Hs'. destruct (H1 s' Hs') as [? Hall]. split; [done|].
      intros b [->|Hb]%elem_of_cons; [|auto]. unfold overlaps. lia.
    - intros t ? Ht. destruct (H2 t) as (b&?&?); [done|done|]. exists b. set_solver. }
  unfold checked_sub. assert (∀ t, area_start a - 1 - pages < t ≤ s →
    ∃ b, b ∈ a :: k ∧ area_start b < Z.min (s + pages) (t + pages + 1) ∧ t < area_end b) as Hnear.
  { intros t Ht. exists a. split; [set_solver|]. lia. }
  destruct (Z.leb_spec 1 (area_start a)) as [H1|H1]; simpl; [|split; [done|intros t ??; apply Hnear; lia]].
  destruct (Z.leb_spec pages (area_start a - 1)) as [H2|H2]; simpl; [|split; [done|intros t ??; apply Hnear; lia]].
  destruct (IH (area_start a - 1 - pages)) as [Hfree Hmax]; [lia|].
  replace (area_start a - 1 - pages + pages) with (area_start a - 1) in * by lia. split.
  - intros s' Hs'. destruct (Hfree s' Hs') as [? Hall]. split; [lia|].
    intros b [->|Hb]%elem_of_cons; [|auto]. unfold overlaps. lia.
  - intros t ? Ht. destruct (decide (t ≤ area_start a - 1 - pages)) as [Hlow|]; [|apply Hnear; lia].
    destruct (Hmax t) as (b&?&?&?); [done|lia|]. exists b. split; [set_solver|]. lia.
Qed.

Lemma reverse_sorted {A} (R : A → A → Prop) l :
  StronglySorted R l → StronglySorted (λ a b, R b a) (reverse l).
Proof.
  induction 1 as [|a l Hs IH Ha]; [constructor|]. rewrite reverse_cons.
  apply StronglySorted_app_2; [|done|repeat constructor].
  intros x y Hx Hy%list_elem_of_singleton. subst y. rewrite elem_of_reverse in Hx. by eapply Forall_forall in Ha.
Qed.

Lemma div_page_bounds a : a / PAGE_SIZE * PAGE_SIZE ≤ a < (a / PAGE_SIZE + 1) * PAGE_SIZE.
Proof. apply floor_spec. Qed.

(** The top-down search returns a page-aligned range below the hint that
    meets no area, or 0; and it returns the highest such place with a spare page
    above it: every higher range of that size, together with the page after it,
    meets an area. *)
Lemma find_insert_addr_highest (l : list MapArea) (hint size : Z) :
  areas_wf l → 0 ≤ hint ≤ USER_SPACE_SIZE → 0 < size ≤ USER_SPACE_SIZE →
  let n := (size + PAGE_SIZE - 1) / PAGE_SIZE in
  ∃ s, find_insert_addr l hint size = Done (s * PAGE_SIZE) ∧ 0 ≤ s ∧
    (0 < s → s + n ≤ floor hint ∧ (∀ a, a ∈ l → overlaps a s (s + n) = false)) ∧
    (∀ t, s < t → t + n + 1 ≤ floor hint → ∃ a, a ∈ l ∧ overlaps a t (t + n + 1) = true).
Proof.
  intros Hwf Hh Hsz n. unfold find_insert_addr, checked_add.
  assert (1 ≤ n ≤ 2 ^ 26) as Hn by (subst n; pose proof (div_page_bounds (size + PAGE_SIZE - 1));
    unfold USER_SPACE_SIZE, PAGE_SIZE in *; lia).
  rewrite (proj2 (Z.leb_le (size + (PAGE_SIZE - 1)) usize_max))
    by (unfold PAGE_SIZE, USER_SPACE_SIZE, usize_max in *; lia).
  replace (size + (PAGE_SIZE - 1)) with (size + PAGE_SIZE - 1) by lia. fold n.
  rewrite (proj2 (Z.eqb_neq n 0)) by lia.
  assert (sign_extends VA_WIDTH_SV39 hint = true) as Hse.
  { apply sign_extends_spec; unfold VA_WIDTH_SV39, is_usize, usize_max, USER_SPACE_SIZE in *; lia. }
  unfold virt_addr_from_usize. rewrite Hse. cbn [mbind comp_bind assert_that].
  assert (0 ≤ floor hint ≤ 2 ^ 26) as Hf by (pose proof (floor_spec hint); unfold PAGE_SIZE, USER_SPACE_SIZE in *; lia).
  change (mret hint) with (Done (A:=Z) hint). cbn [mbind comp_bind]. unfold checked_sub.
  destruct (Z.leb_spec n (floor hint)) as [Hle|Hgt].
  2: { exists 0. split; [done|]. split; [lia|]. split; lia. }
  destruct (find_insert_loop_spec (reverse l) n (floor hint - n)) as [Hfree Hmax]; [lia|lia| | |].
  { apply reverse_sorted, Hwf. }
  { apply Forall_reverse, Hwf. }
  replace (floor hint - n + n) with (floor hint) in * by lia.
  destruct (find_insert_loop _ _ _ _) as [s|] eqn:Hr; simpl in Hmax.
  - destruct (Hfree s eq_refl) as [Hs Hall]. exists s.
    rewrite addr_from_page_num_small by lia. split; [done|]. split; [lia|]. split.
    + intros _. split; [lia|]. intros a Ha. apply Hall. by rewrite elem_of_reverse.
    + intros t Ht Hb. destruct (Hmax t) as (a&Ha&?&?); [lia|lia|]. rewrite elem_of_reverse in Ha.
      exists a. split; [done|]. unfold overlaps. lia.
  - exists 0. split; [done|]. split; [lia|]. split; [lia|].
    intros t Ht Hb. destruct (Hmax t) as (a&Ha&?&?); [lia|lia|]. rewrite elem_of_reverse in Ha.
    exists a. split; [done|]. unfold overlaps. lia.
Qed.

(** ** Taking a range out of one area *)

Definition in_range (s e vpn : Z) : bool := (s <=? vpn) && (vpn <? e).

Record removed (l : list MapArea) (a : MapArea) (s e : Z) (k : list MapArea) : Prop := {
  rm_wf : areas_wf k;
  rm_attr vpn : attr_at k vpn = if holds a vpn && in_range s e vpn then None else attr_at l vpn;
  rm_frames : frames_wf l → frames_wf k ∧
    ∀ vpn, frame_at k vpn = if holds a vpn && in_range s e vpn then None else frame_at l vpn
}.

(** A part of an area: a sub-range with the same pages and frames. *)
Record part_of (a p : MapArea) : Prop := {
  part_ok : area_ok p;
  part_start : area_start a ≤ area_start p;
  part_end : area_end p ≤ area_end a;
  part_attr vpn : page_attr p vpn = page_attr a vpn;
  part_frames : frames_in a → frames_in p ∧
    ∀ vpn, holds p vpn = true → data_frames p !! vpn = data_frames a !! vpn
}.

Lemma in_range_spec s e vpn : in_range s e vpn = true ↔ s ≤ vpn < e.
Proof. unfold in_range. lia. Qed.

Lemma part_holds a p vpn : part_of a p → holds p vpn = true → holds a vpn = true.
Proof. intros [_ ? ? _ _]. rewrite !holds_spec. lia. Qed.

Lemma lookup_whole l1 a l2 vpn :
  areas_wf (l1 ++ a :: l2) → holds a vpn = true → lookup_area (l1 ++ a :: l2) vpn = Some a.
Proof. intros Hwf Hh. apply lookup_area_apart; [by apply areas_wf_apart| |done]. apply elem_of_app. right. left. Qed.

Section replace.
Context (l1 : list MapArea) (a : MapArea) (l2 ps : list MapArea) (s e : Z).
Context (Hwf : areas_wf (l1 ++ a :: l2)) (Hps : areas_wf ps) (Hparts : Forall (part_of a) ps).
Context (Hcover : ∀ vpn, holds a vpn = true →
  (∃ p, p ∈ ps ∧ holds p vpn = true) ↔ in_range s e vpn = false).

Lemma lookup_parts vpn : holds a vpn = true → in_range s e vpn = false →
  ∃ p, lookup_area ps vpn = Some p ∧ part_of a p ∧ holds p vpn = true.
Proof.
  intros Ha Hr. destruct (proj2 (Hcover vpn Ha) Hr) as (p&Hp&Hh). exists p.
  split; [apply lookup_area_apart; [by apply areas_wf_apart|done|done]|]. split; [|done].
  by eapply Forall_forall in Hparts.
Qed.

Lemma lookup_no_part vpn : holds a vpn = true → in_range s e vpn = true → lookup_area ps vpn = None.
Proof.
  intros Ha Hr. apply lookup_area_None. intros p Hp. destruct (holds p vpn) eqn:Hh; [|done].
  assert (in_range s e vpn = false) by (apply Hcover; eauto). congruence.
Qed.

Lemma replace_removed : removed (l1 ++ a :: l2) a s e (l1 ++ ps ++ l2).
Proof.
  destruct (replace_area l1 a l2 ps Hwf Hps) as [Hw Hl].
  { intros p Hp. eapply Forall_forall in Hparts; [|done]. split; apply Hparts. }
  split; [done| |].
  - intros vpn. unfold attr_at. rewrite Hl. destruct (holds a vpn) eqn:Ha; [|done].
    destruct (in_range s e vpn) eqn:Hr; cbn [andb]; [by rewrite lookup_no_part|].
    rewrite lookup_whole by done. destruct (lookup_parts vpn Ha Hr) as (p&->&Hp&_). simpl. by rewrite (part_attr _ _ Hp).
  - unfold frames_wf. rewrite !Forall_app, Forall_cons. intros (F1&Fa&F2). split.
    + split; [done|]. split; [|done]. eapply Forall_impl; [done|]. intros p Hp. by apply Hp.
    + intros vpn. unfold frame_at. rewrite Hl. destruct (holds a vpn) eqn:Ha; [|done].
      destruct (in_range s e vpn) eqn:Hr; cbn [andb]; [by rewrite lookup_no_part|].
      rewrite lookup_whole by done. destruct (lookup_parts vpn Ha Hr) as (p&->&Hp&Hh). simpl.
      by apply Hp.
Qed.
End replace.

(** The hole in the middle: the right part is inserted after the left part has
    taken the place of the area. *)
Lemma split_removed l1 a l2 p q k s e :
  areas_wf (l1 ++ a :: l2) → part_of a p → part_of a q →
  area_start p = area_start a → area_end p = s → area_start q = e → area_end q = area_end a → s < e →
  inserted (l1 ++ p :: l2) q k → removed (l1 ++ a :: l2) a s e k.
Proof.
  intros Hwf Hp Hq H1 H2 H3 H4 Hlt [Iw Ia If _].
  destruct (replace_removed l1 a l2 [p] s (area_end a) Hwf) as [_ Ra Rf].
  { apply areas_wf_single, Hp. }
  { by apply Forall_singleton. }
  { intros vpn Ha. rewrite <- not_true_iff_false, in_range_spec. rewrite holds_spec in Ha. split.
    - intros (x&->%list_elem_of_singleton&Hh%holds_spec). lia.
    - intros Hr. exists p. split; [set_solver|]. apply holds_spec. lia. }
  assert (∀ vpn, holds q vpn = holds a vpn && in_range e (area_end a) vpn) as Hhq.
  { intros vpn. apply eq_true_iff_eq. rewrite andb_true_iff, !holds_spec, in_range_spec.
    pose proof (part_start _ _ Hq). lia. }
  assert (∀ vpn, holds a vpn = true → lookup_area (l1 ++ a :: l2) vpn = Some a) as Hla.
  { intros vpn. by apply lookup_whole. }
  assert (∀ vpn, (if holds q vpn then false else holds a vpn && in_range s (area_end a) vpn) =
    holds a vpn && in_range s e vpn) as Hcase.
  { intros vpn. rewrite Hhq. destruct (holds a vpn) eqn:Ha; [|done]. apply holds_spec in Ha.
    unfold in_range. destruct (_ <=? _) eqn:?, (_ <? _) eqn:?; simpl; lia. }
  split; [done| |].
  - intros vpn. rewrite Ia, <- Hcase. destruct (holds q vpn) eqn:Hqv; [|by rewrite <- Ra].
    unfold attr_at. rewrite Hla by (rewrite Hhq in Hqv; by split_bools). simpl. by rewrite (part_attr _ _ Hq).
  - intros Fl. destruct (Rf Fl) as [Fp Ep]. assert (frames_in a) as Fa.
    { unfold frames_wf in Fl. rewrite Forall_app, Forall_cons in Fl. tauto. }
    destruct (If Fp) as [Fk Ek]; [by apply Hq|]. split; [done|].
    intros vpn. rewrite Ek, <- Hcase. destruct (holds q vpn) eqn:Hqv; [|by rewrite <- Ep].
    unfold frame_at. rewrite Hla by (rewrite Hhq in Hqv; by split_bools). simpl. by apply Hq.
Qed.

(** Parts by construction. *)
Lemma part_sub a p :
  area_ok p → area_start a ≤ area_start p → area_end p ≤ area_end a → (∀ vpn, page_attr p vpn = page_attr a vpn) →
  (∀ v, holds a v = true → data_frames p !! v = if holds p v then data_frames a !! v else None) →
  (∀ v f, data_frames p !! v = Some f → data_frames a !! v = Some f) →
  part_of a p.
Proof.
  intros Hok Hs He Hattr Hin Hsub. split; [done..|]. intros Fa. split.
  - intros v f Hf. pose proof (Fa v f (Hsub v f Hf)) as Ha. rewrite Hin in Hf by done. by destruct (holds p v).
  - intros v Hv. rewrite Hin, Hv; [done|]. rewrite holds_spec in *. lia.
Qed.

Lemma page_attr_frames a d vpn : page_attr (set_frames a d) vpn = page_attr a vpn.
Proof. done. Qed.

Lemma page_attr_left a e vpn : page_attr (set_range a (mkRange (area_start a) e)) vpn = page_attr a vpn.
Proof. done. Qed.

Lemma wrap64_add a b : wrap64 (wrap64 a + b) = wrap64 (a + b).
Proof. unfold wrap64. apply Zplus_mod_idemp_l. Qed.

(** Moving the start of an area and its file offset together moves no page. *)
Lemma page_attr_shift a s e vpn :
  page_attr (add_offset (set_range a (mkRange s e)) (s - area_start a)) vpn = page_attr a vpn.
Proof.
  unfold page_attr, add_offset, set_range, area_start. simpl. f_equal.
  assert (∀ o, wrap64 (wrap64 (o + wrap64 ((s - range_start (vpn_range a)) * PAGE_SIZE)) + (vpn - s) * PAGE_SIZE)
    = wrap64 (o + (vpn - range_start (vpn_range a)) * PAGE_SIZE)) as Heq.
  { intros o. rewrite wrap64_add, (Z.add_comm o), <- Z.add_assoc, wrap64_add. f_equal. lia. }
  destruct (mf_source (mmap_file a)); rewrite ?Heq; done.
Qed.

Lemma insert_middle {A} (l1 l2 : list A) x y : <[length l1 := y]> (l1 ++ x :: l2) = l1 ++ y :: l2.
Proof. by rewrite insert_app_r_alt, Nat.sub_diag by lia. Qed.

Lemma range_new_ok s e : s ≤ e → range_new s e = Done (mkRange s e).
Proof. intros. unfold range_new. by rewrite (proj2 (Z.leb_le s e)) by lia. Qed.

Lemma group_refs_middle l1 x l2 id :
  group_refs (l1 ++ x :: l2) id = ((if decide (groupid x = id) then 1 else 0) + group_refs (l1 ++ l2) id)%nat.
Proof. unfold group_refs. rewrite <- Permutation_middle, filter_cons. by case_decide. Qed.

(** Swapping an area for one of the same group keeps the counts. *)
Lemma group_refs_swap l1 x y l2 id : groupid x = groupid y → group_refs (l1 ++ x :: l2) id = group_refs (l1 ++ y :: l2) id.
Proof. intros He. by rewrite !group_refs_middle, He. Qed.

Lemma frames_from_lookup d k v : frames_from d k !! v = if decide (k ≤ v) then d !! v else None.
Proof.
  unfold frames_from. rewrite map_lookup_filter. destruct (d !! v); simpl; by repeat case_decide || case_guard.
Qed.
Lemma frames_below_lookup d k v : frames_below d k !! v = if decide (v < k) then d !! v else None.
Proof.
  unfold frames_below. rewrite map_lookup_filter. destruct (d !! v); simpl; by repeat case_decide || case_guard.
Qed.

Section trim.
Context (a : MapArea) (d : gmap Z Z) (s e : Z).
Context (Ha : area_ok a) (Hlt : s < e) (Hs : area_start a < e) (He : s < area_end a).
Context (Hd : ∀ v, d !! v =
  if decide (v ∈ range_pages (mkRange (Z.max (area_start a) s) (Z.min (area_end a) e))) then None
  else data_frames a !! v).

Lemma trim_pages v :
  v ∈ range_pages (mkRange (Z.max (area_start a) s) (Z.min (area_end a) e)) ↔
  holds a v && in_range s e v = true.
Proof. rewrite elem_of_range_pages, andb_true_iff, holds_spec, in_range_spec. unfold contains_vpn. simpl. lia. Qed.

(** The frames that [keep] selects, once the range is gone. *)
Lemma trim_part p x y (keep : Z → Prop) `{!∀ v, Decision (keep v)} :
  vpn_range p = mkRange x y → area_start a ≤ x < y → y ≤ area_end a → map_type p = map_type a →
  (∀ vpn, page_attr p vpn = page_attr a vpn) → y ≤ s ∨ e ≤ x →
  (∀ v, data_frames p !! v = if decide (keep v) then d !! v else None) →
  (∀ v, holds a v = true → in_range s e v = false → keep v ↔ x ≤ v < y) →
  part_of a p.
Proof.
  intros Hr Hx Hy Ht Hattr Hout Hf Hkeep. unfold area_ok in Ha.
  assert (area_start p = x ∧ area_end p = y) as [Hps Hpe] by (unfold area_start, area_end; by rewrite Hr).
  apply part_sub; rewrite ?Hps, ?Hpe; try (done || lia).
  - unfold area_ok. rewrite Hps, Hpe, Ht. repeat (split; [lia|]). apply Ha.
  - intros v Hv. rewrite Hf, Hd.
    assert (holds p v = true ↔ x ≤ v < y) as Hp by (rewrite holds_spec, Hps, Hpe; done).
    destruct (decide (v ∈ range_pages _)) as [Hin|Hin]; rewrite trim_pages, Hv in Hin; simpl in Hin.
    + apply in_range_spec in Hin. destruct (holds p v); [|by case_decide]. naive_solver lia.
    + apply not_true_is_false in Hin. specialize (Hkeep v Hv Hin). destruct (holds p v); case_decide; naive_solver.
  - intros v f. rewrite Hf, Hd. repeat case_decide; done.
Qed.

Lemma trim_left : area_start a < s → area_end a ≤ e →
  part_of a (set_range (set_frames a d) (mkRange (area_start a) s)).
Proof.
  intros. apply (trim_part _ (area_start a) s (λ _, True)); try (done || lia).
  intros v. rewrite holds_spec, <- not_true_iff_false, in_range_spec. lia.
Qed.

Lemma trim_right p : s ≤ area_start a → e < area_end a → vpn_range p = mkRange e (area_end a) →
  map_type p = map_type a → (∀ vpn, page_attr p vpn = page_attr a vpn) → data_frames p = d → part_of a p.
Proof.
  intros ?? Hr ?? Hf. apply (trim_part _ e (area_end a) (λ _, True)); try (done || lia).
  - by rewrite Hf.
  - intros v. rewrite holds_spec, <- not_true_iff_false, in_range_spec. lia.
Qed.

Lemma trim_left_of_two : area_start a < s → e < area_end a →
  part_of a (set_range (set_frames (set_frames a d) (frames_below d e)) (mkRange (area_start a) s)).
Proof.
  intros. apply (trim_part _ (area_start a) s (λ v, v < e)); try (done || lia).
  - intros v. simpl. by rewrite frames_below_lookup.
  - intros v. rewrite holds_spec, <- not_true_iff_false, in_range_spec. lia.
Qed.

Lemma trim_right_of_two p : area_start a < s → e < area_end a → vpn_range p = mkRange e (area_end a) →
  map_type p = map_type a → (∀ vpn, page_attr p vpn = page_attr a vpn) →
  data_frames p = frames_from d e → part_of a p.
Proof.
  intros ?? Hr ?? Hf. apply (trim_part _ e (area_end a) (λ v, e ≤ v)); try (done || lia).
  - intros v. by rewrite Hf, frames_from_lookup.
  - intros v. rewrite holds_spec, <- not_true_iff_false, in_range_spec. lia.
Qed.

End trim.

(** The whole area goes, or one part stays. *)
Lemma removed_all a s e l1 l2 : areas_wf (l1 ++ a :: l2) → s ≤ area_start a → area_end a ≤ e →
  removed (l1 ++ a :: l2) a s e (l1 ++ l2).
Proof.
  intros Hwf ??. apply (replace_removed l1 a l2 []); [done|apply areas_wf_nil|constructor|].
  intros v. rewrite holds_spec, <- not_true_iff_false, in_range_spec. intros Hv.
  split; [by intros (p&[]%elem_of_nil&_)|]. lia.
Qed.

Lemma removed_to_part a s e l1 l2 p : areas_wf (l1 ++ a :: l2) → part_of a p →
  area_start p = area_start a ∧ area_end p = s ∧ area_end a ≤ e ∨
  area_end p = area_end a ∧ area_start p = e ∧ s ≤ area_start a →
  removed (l1 ++ a :: l2) a s e (l1 ++ p :: l2).
Proof.
  intros Hwf Hp Hcase. apply (replace_removed l1 a l2 [p]);
    [done|apply areas_wf_single, Hp|by apply Forall_singleton|].
  intros v. rewrite holds_spec, <- not_true_iff_false, in_range_spec. intros Hv. split.
  - intros (q&->%list_elem_of_singleton&Hq%holds_spec). lia.
  - intros. exists p. split; [set_solver|]. apply holds_spec. lia.
Qed.

(** The vacancy that the left part leaves for the right part. *)
Lemma right_free a s e l1 l2 p q : s < e → areas_wf (l1 ++ a :: l2) → part_of a p → part_of a q →
  area_end p ≤ s → area_start q = e → ∀ vpn, holds q vpn = true → attr_at (l1 ++ p :: l2) vpn = None.
Proof.
  intros Hlt Hwf Hp Hq Hpe Hqs vpn Hh. pose proof (part_holds _ _ _ Hq Hh) as Hav. apply attr_at_None.
  intros b Hb. destruct (holds b vpn) eqn:Hbv; [|done]. exfalso.
  apply elem_of_app in Hb as [Hb|[->|Hb]%elem_of_cons].
  all: try (rewrite holds_spec in *; lia).
  all: apply areas_wf_apart in Hwf; rewrite <- Permutation_middle in Hwf; apply all_apart_cons in Hwf as [Hall _].
  all: eapply (apart_holds a b); [|done|done]; eapply Forall_forall in Hall; [done|set_solver].
Qed.
