(* ===== verification/AreaPt.v ===== *)
(** * The Sv39 page tables behind the areas

    The interface [PageTableOps] of [MapArea] implemented by the page tables of
    [PageTable], and a proof that they satisfy [PageTableLaws] as long as the
    user half of the address space has no huge leaves. *)

From S2P Require Import Prelude Address FrameAlloc PageTable MapArea.

Section sv39.
Context `{FrameSource Src}.
(** [cma_alloc_aligned(512, 512)], which the source of single frames does not offer. *)
Context (huge_alloc : Src → option (Z * Src)).

Notation Space := (PhysMem Src * PageTable.PageTable)%type.

Definition copy_page (m : PhysMem Src) (dst src : Z) : PhysMem Src :=
  mkMem (entries m) (<[dst := bytes_array m src]> (pages m)) (source m).

#[global] Instance sv39_ops : PageTableOps Space := {|
  pt_map '(m, pt) vpn ppn perm := PageTable.map m pt vpn ppn perm;
  pt_unmap '(m, pt) vpn := m ← unmap m pt vpn; Done (m, pt);
  pt_translate '(m, pt) vpn := translate m pt vpn;
  pt_handle_mprotect '(m, pt) vpn perm := m ← handle_mprotect m pt vpn perm; Done (m, pt);
  pt_map_huge '(m, pt) vpn ppn perm := map_mega_page m pt vpn ppn (flags_from_perm perm);
  pt_map_direct_range '(m, pt) s e perm := default Panic (map_direct_range (Z.to_nat (e - s)) m pt s e perm);
  pt_frame_alloc '(m, pt) := '(f, m) ← frame_alloc m; Some (f, (m, pt));
  pt_huge_alloc '(m, pt) :=
    '(f, s) ← huge_alloc (source m); Some (f, (mkMem (entries m) (pages m) s, pt));
  pt_copy_page '(m, pt) dst src := (copy_page m dst src, pt)
|}.

(** ** The walk in tables without huge leaves *)

Definition small_leaves (m : PhysMem Src) (roots : list Z) (r : Z) : Prop :=
  ∀ path q i, reaches m roots r path q → (length path ≤ 1)%nat → user_path (path ++ [i]) →
    pte_valid (rd m q i) = true → pte_leaf (rd m q i) = false.

Definition space_ok (roots : list Z) (sp : Space) : Prop :=
  tree_wf sp.1 roots ∧ root_ppn sp.2 ∈ roots ∧ small_leaves sp.1 roots (root_ppn sp.2).

Section walk.
Context (m : PhysMem Src) (roots : list Z) (pt : PageTable.PageTable).
Context (Hwf : tree_wf m roots) (Hroot : root_ppn pt ∈ roots) (Hsmall : small_leaves m roots (root_ppn pt)).

(** From a table on the way down, the walk stops at an invalid entry or goes on. *)
Lemma walk_step path q i idxs vpn :
  reaches m roots (root_ppn pt) path q → (length path ≤ 1)%nat → user_path (path ++ [i]) →
  find_loop m (length path) q (i :: idxs) = Done None ∧
    translate_loop m vpn (length path) q (i :: idxs) = Done None ∨
  ∃ q', reaches m roots (root_ppn pt) (path ++ [i]) q' ∧
    find_loop m (length path) q (i :: idxs) = find_loop m (S (length path)) q' idxs ∧
    translate_loop m vpn (length path) q (i :: idxs) = translate_loop m vpn (S (length path)) q' idxs.
Proof.
  intros Hreach Hlen Hu. cbn [find_loop translate_loop].
  rewrite get_flags_ok by by eapply (wf_entry _ _ Hwf). cbn [mbind comp_bind].
  fold (pte_valid (rd m q i)) (pte_leaf (rd m q i)).
  destruct (Nat.eqb_spec (length path) 2) as [?|_]; [lia|]. cbn [orb].
  destruct (pte_valid (rd m q i)) eqn:Hv; cbn [negb]; [|left; by rewrite andb_false_r].
  rewrite (Hsmall path q i Hreach Hlen Hu Hv), !andb_false_r. right.
  exists (get_ppn (rd m q i)). split; [|done]. destruct Hreach as (?&?&?&Ht).
  split; [done|]. split; [done|]. split; [rewrite length_app; simpl; lia|].
  rewrite table_at_app, Ht. simpl. unfold pte_table. by rewrite Hv, (Hsmall path q i).
Qed.

Lemma walk_cases vpn : user_vpn vpn →
  find_pte m pt vpn = Done None ∧ translate m pt vpn = Done None ∨
  ∃ t i, slot_of m roots (root_ppn pt) vpn t i.
Proof.
  intros Hu%user_vpn_path. destruct (indexes vpn) as [|i0 [|i1 [|i2 [|]]]] eqn:Hi;
    try (apply (f_equal length) in Hi; by rewrite length_indexes in Hi).
  unfold find_pte, translate. rewrite Hi.
  destruct (walk_step [] (root_ppn pt) i0 [i1; i2] vpn) as [F|(q1&Hq1&E1&E2)];
    [by repeat split; simpl; auto with lia|simpl; lia|done|by left|].
  destruct (walk_step [i0] q1 i1 [i2] vpn) as [[F1 F2]|(q2&Hq2&_&_)]; [done|simpl; lia|done| |].
  - left. cbn [length] in *. rewrite E1, E2. done.
  - right. exists q2, i2. exists [i0; i1]. by rewrite Hi.
Qed.

Lemma slot_pte vpn t i : user_vpn vpn → slot_of m roots (root_ppn pt) vpn t i →
  find_pte m pt vpn = Done (Some (t, i)).
Proof.
  intros Hu Hslot. pose proof (slot_ok m roots pt vpn t i Hwf Hu Hslot) as Hok.
  pose proof (slot_path_ok m roots pt vpn i Hwf Hu) as Hpo. destruct Hslot as (path&Hlen&Hpath&(Hr&_&_&Ht)).
  unfold find_pte. rewrite <- Hpath. rewrite (find_loop_app _ _ _ t) by (done || lia || by eapply Hpo).
  rewrite Hlen. cbn [find_loop]. by rewrite get_flags_ok by done.
Qed.

Lemma slot_untranslated vpn t i : user_vpn vpn → slot_of m roots (root_ppn pt) vpn t i →
  pte_valid (rd m t i) && pte_leaf (rd m t i) = false → translate m pt vpn = Done None.
Proof.
  intros Hu Hslot Hvl. pose proof (slot_ok m roots pt vpn t i Hwf Hu Hslot) as Hok.
  pose proof (slot_path_ok m roots pt vpn i Hwf Hu) as Hpo. destruct Hslot as (path&Hlen&Hpath&(Hr&_&_&Ht)).
  unfold translate. rewrite <- Hpath. rewrite (translate_loop_app _ _ _ _ t) by (done || by eapply Hpo).
  rewrite Hlen. cbn [translate_loop]. rewrite get_flags_ok by done. cbn [mbind comp_bind].
  fold (pte_valid (rd m t i)) (pte_leaf (rd m t i)).
  destruct (pte_valid (rd m t i)); [|done]. cbn [negb andb] in *. by rewrite Hvl.
Qed.

(** Rewriting the entry of one page. *)
Lemma slot_set vpn t i b : user_vpn vpn → slot_of m roots (root_ppn pt) vpn t i → pte_ok b →
  space_ok roots (wr m t i b, pt) ∧
  ∀ v', user_vpn v' → v' ≠ vpn → translate (wr m t i b) pt v' = translate m pt v'.
Proof.
  intros Hu Hslot Hb. destruct (slot_write m roots pt vpn t i Hwf Hu Hslot b Hb) as (Hwf'&_&Hiff&Hother). split.
  - split; [done|]. split; [done|]. intros path q j Hq%Hiff Hlen Hup. simpl.
    rewrite rd_wr_ne; [by eapply Hsmall|]. intros [= -> ->]. destruct Hslot as (path2&Hl2&_&Hr2).
    destruct (wf_inj _ _ Hwf _ _ _ _ _ Hq Hr2) as [_ ->]. lia.
  - intros v' Hv' Hne. destruct pt as [r fr]. apply Hother; [done|done|]. congruence.
Qed.
End walk.

Lemma sv39_unmap roots (sp : Space) v : space_ok roots sp → user_vpn v →
  ∃ sp', pt_unmap sp v = Done sp' ∧ space_ok roots sp' ∧
    ∀ v', user_vpn v' → pt_translate sp' v' = if decide (v' = v) then Done None else pt_translate sp v'.
Proof.
  destruct sp as [m pt]. intros (Hwf&Hroot&Hsmall) Hu. simpl in *. unfold unmap.
  destruct (walk_cases m roots pt Hwf Hroot Hsmall v Hu) as [[-> Htr]|(t&i&Hslot)]; cbn [mbind comp_bind].
  { exists (m, pt). split; [done|]. split; [done|]. intros v' _. by case_decide; subst. }
  rewrite (slot_pte m roots pt Hwf v t i Hu Hslot). cbn [mbind comp_bind].
  rewrite get_flags_ok by by apply (slot_ok m roots pt v). cbn [mbind comp_bind]. fold (pte_valid (rd m t i)).
  destruct (pte_valid (rd m t i)) eqn:Hv.
  - assert (pte_ok 0) as H0 by done.
    destruct (slot_set m roots pt Hwf Hroot Hsmall v t i 0 Hu Hslot H0) as [Hok Hother].
    eexists. split; [done|]. split; [done|]. intros v' Hv'. case_decide as Hd; [subst v'|by apply Hother].
    apply (slot_untranslated (wr m t i 0) roots pt (proj1 Hok) v t i Hu); [|by rewrite rd_wr_eq].
    by apply (slot_write m roots pt v t i Hwf Hu Hslot).
  - eexists. split; [done|]. split; [done|]. intros v' _. case_decide; [subst v'|done].
    apply (slot_untranslated m roots pt Hwf v t i Hu Hslot). by rewrite Hv.
Qed.

(** [handle_mprotect] on one entry: the frame stays, the leaf stays a leaf. *)
Lemma mprotect_entry bits perm : pte_ok bits → pte_valid bits = true → Z.land perm 30 = perm →
  let req := if contains (Z.land perm ALL_FLAGS) WRITEABLE
             then bits_insert (Z.land perm ALL_FLAGS) READABLE else Z.land perm ALL_FLAGS in
  let b := set_flags bits (Z.lor req (pte_flags_of bits)) in
  pte_ok b ∧ pte_valid b = true ∧ get_ppn b = get_ppn bits ∧ (pte_leaf bits = true → pte_leaf b = true).
Proof.
  intros Hok Hv Hperm req b. assert (flags_ok perm) as Hp.
  { rewrite <- Hperm, Z.land_comm. apply flags_ok_land. split; [lia|done]. }
  assert (flags_ok req) as Hr.
  { subst req. assert (flags_ok (Z.land perm ALL_FLAGS)) by by apply flags_ok_land.
    destruct (contains _ _); [|done]. apply flags_ok_lor; [done|]. split; [unfold READABLE; lia|done]. }
  assert (flags_ok (Z.lor req (pte_flags_of bits))) as Hf by (apply flags_ok_lor; [done|by apply flags_ok_of]).
  assert (pte_flags_of b = Z.lor req (pte_flags_of bits)) as Hfl by (apply set_flags_flags, Hf).
  split; [by apply set_flags_ok|]. split; [|split; [apply set_flags_ppn, Hf|]].
  - unfold pte_valid. rewrite Hfl. apply contains_spec. intros n Hn Hb. rewrite Z.lor_spec, orb_true_iff. right.
    unfold pte_valid in Hv. rewrite contains_spec in Hv. auto.
  - unfold pte_leaf. rewrite Hfl. unfold intersects. rewrite !negb_true_iff, !Z.eqb_neq.
    intros Hl Hz. apply Hl. apply Z.bits_inj'. intros n Hn. apply (f_equal (λ z, Z.testbit z n)) in Hz.
    rewrite Z.land_spec, Z.lor_spec, Z.bits_0 in Hz. rewrite Z.land_spec, Z.bits_0.
    destruct (Z.testbit (pte_flags_of bits) n); [|done]. by rewrite orb_true_r in Hz.
Qed.

Lemma sv39_mprotect roots (sp : Space) v perm : space_ok roots sp → user_vpn v → Z.land perm 30 = perm →
  ∃ sp', pt_handle_mprotect sp v perm = Done sp' ∧ space_ok roots sp' ∧
    ∀ v', user_vpn v' → v' ≠ v ∨ pt_translate sp v' ≠ Done None → pt_translate sp' v' = pt_translate sp v'.
Proof.
  destruct sp as [m pt]. intros (Hwf&Hroot&Hsmall) Hu Hperm. simpl in *. unfold handle_mprotect, find_valid_pte.
  destruct (walk_cases m roots pt Hwf Hroot Hsmall v Hu) as [[-> Htr]|(t&i&Hslot)]; cbn [mbind comp_bind].
  { by exists (m, pt). }
  rewrite (slot_pte m roots pt Hwf v t i Hu Hslot). cbn [mbind comp_bind].
  pose proof (slot_ok m roots pt v t i Hwf Hu Hslot) as Hok.
  rewrite get_flags_ok by done. cbn [mbind comp_bind]. fold (pte_valid (rd m t i)).
  destruct (pte_valid (rd m t i)) eqn:Hv; [|by exists (m, pt)]. rewrite get_flags_ok by done. cbn [mbind comp_bind].
  destruct (mprotect_entry (rd m t i) perm Hok Hv Hperm) as (Hb&Hbv&Hbp&Hbl).
  set (b := set_flags _ _) in *. destruct (slot_set m roots pt Hwf Hroot Hsmall v t i b Hu Hslot Hb) as [Hok' Hother].
  exists (wr m t i b, pt). split; [done|]. split; [done|]. intros v' Hv' Hcase.
  destruct (decide (v' = v)) as [->|Hne]; [|by apply Hother].
  destruct (pte_leaf (rd m t i)) eqn:Hl.
  2: { destruct Hcase as [?|Hn]; [done|]. destruct Hn. apply (slot_untranslated m roots pt Hwf v t i Hu Hslot).
       by rewrite Hv, Hl. }
  rewrite (slot_translate m roots pt v t i Hwf Hu Hslot Hv Hl).
  rewrite (slot_translate (wr m t i b) roots pt v t i (proj1 Hok') Hu), rd_wr_eq, Hbp; [done| | |].
  - by apply (slot_write m roots pt v t i Hwf Hu Hslot).
  - by rewrite rd_wr_eq.
  - rewrite rd_wr_eq. by apply Hbl.
Qed.

(** A check on the entries of a finite memory: [U] are the tables above the last level. *)
Definition entry_small (r : Z) (U : list Z) (k : Z * Z) (b : Z) : Prop :=
  (k.1 = r → pte_table b = true → get_ppn b ∈ U) ∧ (k.1 ∈ U → pte_valid b = true → pte_leaf b = false).
#[global] Instance entry_small_dec r U k b : Decision (entry_small r U k b).
Proof. apply _. Defined.

Lemma small_leaves_check (m : PhysMem Src) roots r U :
  r ∈ U → map_Forall (entry_small r U) (entries m) → small_leaves m roots r.
Proof.
  intros HrU Hall. assert (∀ q i, pte_valid (rd m q i) = true → entry_small r U (q, i) (rd m q i)) as Hrd.
  { intros q i. unfold rd. destruct (entries m !! (q, i)) as [b|] eqn:Hb; [|done]. intros _. by apply Hall. }
  intros path q i (_&_&_&Ht) Hlen _ Hv. destruct (Hrd q i Hv) as [_ Hleaf]. apply Hleaf; [|done]. simpl.
  destruct path as [|j [|]]; simpl in *; [by simplify_eq| |lia].
  destruct (pte_table (rd m r j)) eqn:Hp; simplify_eq/=.
  apply (Hrd r j); [|done|done]. unfold pte_table in Hp. by split_bools.
Qed.

Definition sv39_laws (roots : list Z) : PageTableLaws Space := {|
  pt_ok := space_ok roots;
  pt_unmap_law := sv39_unmap roots;
  pt_mprotect_law := sv39_mprotect roots
|}.
End sv39.

(** ** An example space: page 5 of root 50 on frame 7 *)

Definition no_huge (l : list Z) : option (Z * list Z) := None.
Definition demo_space : PhysMem (list Z) * PageTable.PageTable := (demo_rw, demo_pt 50).

Lemma demo_space_ok : space_ok demo_roots demo_space.
Proof.
  split; [apply demo_rw_wf|]. split; [left|]. apply (small_leaves_check _ _ _ [50; 101]); [left|].
  apply (bool_decide_unpack (map_Forall (entry_small 50 [50; 101]) (entries demo_rw))). vm_compute. exact I.
Qed.
