(* ===== verification/Mmap.v ===== *)
(** * [mmap], [munmap], [mprotect] and [mremap]

    [mm/memory_set/mmap_ops.rs]: the operations that create, remove, protect and
    move the areas of a user address space, on top of [AreaSet].

    The group manager [GROUP_SHARE] is global; it is threaded beside the address
    space.  Arithmetic is that of the release build.  [allows_write] is the
    method of [MmapBacking] of that name. *)

From S2P Require Import Prelude Errno Address FrameAlloc PageTable MapArea AreaSet AreaPt.

Definition is_mmap_vma (a : MapArea) : bool :=
  bool_decide (area_type a = Mmap)
  || bool_decide (area_type a = Stack) && contains (mmap_flags a) MAP_STACK.

(** [iter().any(p)] for a predicate that may panic. *)
Fixpoint any_comp {A} (p : A → comp bool) (l : list A) : comp bool :=
  match l with
  | [] => Done false
  | x :: l => b ← p x; if (b : bool) then Done true else any_comp p l
  end.

(** [VirtAddr::from(addr).floor()] and [.ceil()]. *)
Definition vpn_floor (addr : Z) : comp Z := v ← virt_addr_from_usize addr; Done (floor v).
Definition vpn_ceil (addr : Z) : comp Z := v ← virt_addr_from_usize addr; Done (ceil v).

Definition FIXED_FLAGS : Z := Z.lor MAP_FIXED MAP_FIXED_NOREPLACE.

Section mmap.
Context {PT : Type} `{!PageTableOps PT}.
Context (allows_write : Z → bool).
Implicit Types (ms : MemorySetInner PT) (g : GroupManager).

(** ** [munmap] *)

Definition mmap_overlaps (start_vpn end_vpn : Z) (a : MapArea) : bool :=
  is_mmap_vma a && ((area_start a <? end_vpn) && (start_vpn <? area_end a)).

(** What remains of the area [a] at [idx], whose pages in the range are gone. *)
Definition munmap_cut (start_vpn end_vpn : Z) g ms (idx : nat) (a : MapArea) :
    comp (GroupManager * MemorySetInner PT) :=
  let s := area_start a in
  let e := area_end a in
  if (start_vpn <=? s) && (e <=? end_vpn) then
    '(g, l) ← remove_area g (areas ms) idx; Done (g, set_areas ms l)
  else if (s <? start_vpn) && (e <=? end_vpn) then
    r ← range_new s start_vpn;
    Done (g, set_areas ms (<[idx := set_range a r]> (areas ms)))
  else if (start_vpn <=? s) && (end_vpn <? e) then
    r ← range_new end_vpn e;
    Done (g, set_areas ms (<[idx := add_offset (set_range a r) (end_vpn - s)]> (areas ms)))
  else
    rr ← range_new end_vpn e;
    let right_area := add_offset (set_range (area_from_another a) rr) (end_vpn - s) in
    let right_area := set_frames right_area (frames_from (data_frames a) end_vpn) in
    lr ← range_new s start_vpn;
    let a := set_range (set_frames a (frames_below (data_frames a) end_vpn)) lr in
    ms ← push_lazily (set_areas ms (<[idx := a]> (areas ms))) right_area;
    Done (g, ms).

(** The body of the loop for the area at [idx]. *)
Definition munmap_step (start_vpn end_vpn : Z) '(g, ms) (idx : nat) : comp (GroupManager * MemorySetInner PT) :=
  a ← unwrap (areas ms !! idx);
  let unmap_start := Z.max (area_start a) start_vpn in
  let unmap_end := Z.min (area_end a) end_vpn in
  r ← range_new unmap_start unmap_end;
  '(pt, a) ← unmap_pages (page_table ms) a (range_pages r);
  let ms := set_areas (set_pt ms pt) (<[idx := a]> (areas ms)) in
  let ms :=
    if negb (intersects (mmap_flags a) FIXED_FLAGS)
    then set_total ms (saturating_sub (total_mmap_size ms) (wrap64 ((unmap_end - unmap_start) * PAGE_SIZE)))
    else ms in
  munmap_cut start_vpn end_vpn g ms idx a.

Definition munmap_loop (start_vpn end_vpn : Z) : GroupManager * MemorySetInner PT →
    comp (GroupManager * MemorySetInner PT) :=
  while_some (λ '(_, ms), position (mmap_overlaps start_vpn end_vpn) (areas ms))
    (munmap_step start_vpn end_vpn).

Definition munmap g ms (addr len : Z) : comp (GroupManager * MemorySetInner PT * SyscallRet) :=
  match checked_add addr len with
  | None => Done (g, ms, Err EINVAL)
  | Some end_addr =>
      huge ← any_comp (λ a,
        if negb (is_huge a) then Done false
        else
          v ← vpn_floor addr;
          if contains_vpn (vpn_range a) v then Done true
          else if len =? 0 then Done false
          else v ← vpn_floor (wrap64 (end_addr - 1)); Done (contains_vpn (vpn_range a) v)) (areas ms);
      if (huge : bool) && (negb (addr mod HUGE_PAGE_SIZE =? 0) || negb (len mod HUGE_PAGE_SIZE =? 0))
      then Done (g, ms, Err EINVAL)
      else
        start_vpn ← vpn_floor addr;
        end_vpn ← vpn_ceil end_addr;
        if end_vpn <=? start_vpn then Done (g, ms, Err EINVAL)
        else
          '(g, ms) ← munmap_loop start_vpn end_vpn (g, ms);
          let ms := if mmap_hint ms <? end_addr then set_hint ms (Z.min end_addr MMAP_TOP) else ms in
          Done (g, ms, Ok 0)
  end.

(** ** [mmap] *)

Definition any_overlap (l : list MapArea) (start_vpn end_vpn : Z) : bool :=
  existsb (λ a, overlaps a start_vpn end_vpn) l.

(** The range of a fixed huge mapping is made free; 0 refuses. *)
Definition huge_fixed g ms (addr len flags : Z) : comp (GroupManager * MemorySetInner PT * Z) :=
  if negb (addr mod HUGE_PAGE_SIZE =? 0) then Done (g, ms, 0)
  else
    match checked_add addr len with
    | None => Done (g, ms, 0)
    | Some end_ =>
        if (USER_SPACE_SIZE <? end_)
           || negb (bool_decide (is_Some (virt_addr_try_from addr)))
           || negb (bool_decide (is_Some (virt_addr_try_from (wrap64 (end_ - 1)))))
        then Done (g, ms, 0)
        else
          start_vpn ← vpn_floor addr;
          end_vpn ← vpn_ceil end_;
          if contains flags MAP_FIXED_NOREPLACE && any_overlap (areas ms) start_vpn end_vpn then Done (g, ms, 0)
          else if contains flags MAP_FIXED then
            if existsb (brk_overlaps start_vpn end_vpn) (areas ms) then Done (g, ms, 0)
            else
              '(g, ms, r) ← munmap g ms addr len;
              Done (g, ms, match r with Err _ => 0 | Ok _ => addr end)
          else Done (g, ms, addr)
    end.

Definition mmap_huge g ms (addr len perm flags : Z) (file : MmapFile) :
    comp (GroupManager * MemorySetInner PT * Z) :=
  if negb (is_anonymous file) || (len =? 0) || negb (len mod HUGE_PAGE_SIZE =? 0) || (perm =? 0)
  then Done (g, ms, 0)
  else
    let fixed := intersects flags FIXED_FLAGS in
    '(g, ms, start) ←
      (if fixed then huge_fixed g ms addr len flags
       else
         match checked_add (total_mmap_size ms) len with
         | None => Done (g, ms, 0)
         | Some total =>
             if MAX_MMAP_SIZE <? total then Done (g, ms, 0)
             else '(ms, a) ← find_mmap_addr_aligned ms len HUGE_PAGE_SIZE; Done (g, ms, a)
         end);
    if start =? 0 then Done (g, ms, 0)
    else
      sv ← virt_addr_from_usize start;
      ev ← virt_addr_from_usize (wrap64 (start + len));
      '(g, a) ← new_mmap g sv ev Framed perm Mmap flags file;
      '(pt, a, ok) ← map_huge (page_table ms) a;
      if negb ok then
        '(pt, a) ← area_unmap pt a;
        g ← drop_area g a;
        Done (g, set_pt ms pt, 0)
      else
        ms ← push_lazily (set_pt ms pt) a;
        Done (g, if fixed then ms else set_total ms (wrap64 (total_mmap_size ms + len)), start).

(** [MAP_FIXED] and [MAP_FIXED_NOREPLACE]. *)
Definition mmap_fixed g ms (addr len perm flags : Z) (file : MmapFile) :
    comp (GroupManager * MemorySetInner PT * Z) :=
  match checked_add addr len with
  | None => Done (g, ms, 0)
  | Some end_addr =>
      if end_addr <? addr then Done (g, ms, 0)
      else
        start_vpn ← vpn_floor addr;
        end_vpn ← vpn_ceil end_addr;
        if contains flags MAP_FIXED_NOREPLACE && any_overlap (areas ms) start_vpn end_vpn then Done (g, ms, 0)
        else
          '(g, ms) ←
            (if contains flags MAP_FIXED then
               '(g, ms) ← remove_brk_range g ms start_vpn end_vpn;
               '(g, ms, _) ← munmap g ms addr len;
               Done (g, ms)
             else Done (g, ms));
          sv ← virt_addr_from_usize addr;
          ev ← virt_addr_from_usize end_addr;
          '(g, a) ← new_mmap g sv ev Framed perm Mmap flags file;
          ms ← push_lazily ms a;
          Done (g, ms, addr)
  end.

Definition mmap g ms (addr len perm flags : Z) (file : MmapFile) :
    comp (GroupManager * MemorySetInner PT * Z) :=
  if contains flags MAP_HUGETLB then mmap_huge g ms addr len perm flags file
  else if contains flags MAP_FIXED || contains flags MAP_FIXED_NOREPLACE then
    mmap_fixed g ms addr len perm flags file
  else if MAX_MMAP_SIZE <? wrap64 (total_mmap_size ms + len) then Done (g, ms, 0)
  else
    '(ms, hinted) ← try_mmap_hint ms addr len;
    '(ms, addr) ← match hinted with Some a => Done (ms, a) | None => find_mmap_addr ms len end;
    if addr =? 0 then Done (g, ms, 0)
    else
      let k := if contains flags MAP_STACK then Stack else Mmap in
      sv ← virt_addr_from_usize addr;
      ev ← virt_addr_from_usize (wrap64 (addr + len));
      '(g, a) ← new_mmap g sv ev Framed perm k flags file;
      ms ← push_lazily ms a;
      Done (g, set_total ms (wrap64 (total_mmap_size ms + len)), addr).

(** ** System V shared memory *)

(** [shm]; an explicit address panics. *)
Definition shm ms (addr size perm : Z) (pages : list Z) : comp (MemorySetInner PT * Z) :=
  if addr =? 0 then
    '(ms, va) ← find_mmap_addr ms size;
    sv ← virt_addr_from_usize va;
    ev ← virt_addr_from_usize (wrap64 (va + size));
    a ← area_new sv ev Framed perm Shm;
    ms ← push_with_given_frames ms a pages;
    Done (ms, va)
  else Panic.

Definition shm_detach g ms (addr : Z) : comp (GroupManager * MemorySetInner PT * SyscallRet) :=
  if negb (addr mod PAGE_SIZE =? 0) then Done (g, ms, Err EINVAL)
  else
    start_vpn ← vpn_floor addr;
    match position (λ a, bool_decide (area_type a = Shm) && (area_start a =? start_vpn)) (areas ms) with
    | None => Done (g, ms, Err EINVAL)
    | Some idx =>
        a ← unwrap (areas ms !! idx);
        '(pt, a) ← area_unmap (page_table ms) a;
        g ← drop_area g a;
        Done (g, set_areas (set_pt ms pt) (vec_remove idx (areas ms)), Ok 0)
    end.

(** ** [madvise] *)

(** The loop of [validate_madvise_range]: [None] once a page has no area. *)
Definition madvise_walk (l : list MapArea) (start_vpn end_vpn : Z) : comp (option Z) :=
  while_some
    (λ c, match c with Some cursor => if cursor <? end_vpn then Some cursor else None | None => None end)
    (λ _ cursor, Done (area_end <$> find (λ a, (area_start a <=? cursor) && (cursor <? area_end a)) l))
    (Some start_vpn).

Definition validate_madvise_range ms (addr len : Z) : comp SyscallRet :=
  if negb (addr mod PAGE_SIZE =? 0) then Done (Err EINVAL)
  else
    match checked_add addr len with
    | None => Done (Err EINVAL)
    | Some end_addr =>
        if len =? 0 then Done (Ok 0)
        else if negb (bool_decide (is_Some (virt_addr_try_from addr)))
                || negb (bool_decide (is_Some (virt_addr_try_from (wrap64 (end_addr - 1)))))
        then Done (Err EINVAL)
        else
          start_vpn ← vpn_floor addr;
          end_vpn ← vpn_ceil end_addr;
          c ← madvise_walk (areas ms) start_vpn end_vpn;
          Done (match c with Some _ => Ok 0 | None => Err ENOMEM end)
    end.

(** The loop over the areas of [discard_madvise_pages]. *)
Fixpoint discard_loop (pt : PT) (l : list MapArea) (start_vpn end_vpn : Z) : comp (PT * list MapArea) :=
  match l with
  | [] => Done (pt, [])
  | a :: l =>
      let discard_start := Z.max (area_start a) start_vpn in
      let discard_end := Z.min (area_end a) end_vpn in
      '(pt, a) ←
        (if (discard_end <=? discard_start)
            || negb (bool_decide (area_type a = Brk) || is_mmap_vma a)
            || contains (mmap_flags a) MAP_SHARED
         then Done (pt, a)
         else r ← range_new discard_start discard_end; unmap_pages pt a (range_pages r));
      '(pt, l) ← discard_loop pt l start_vpn end_vpn;
      Done (pt, a :: l)
  end.

Definition discard_madvise_pages ms (addr len : Z) : comp (MemorySetInner PT * SyscallRet) :=
  v ← validate_madvise_range ms addr len;
  match v with
  | Err e => Done (ms, Err e)
  | Ok _ =>
      if len =? 0 then Done (ms, Ok 0)
      else
        match checked_add addr len with
        | None => Done (ms, Err EINVAL)
        | Some end_addr =>
            start_vpn ← vpn_floor addr;
            end_vpn ← vpn_ceil end_addr;
            if existsb (λ a, is_huge a && overlaps a start_vpn end_vpn) (areas ms) then Done (ms, Err EOPNOTSUPP)
            else
              '(pt, l) ← discard_loop (page_table ms) (areas ms) start_vpn end_vpn;
              Done (set_areas (set_pt ms pt) l, Ok 0)
        end
  end.

(** ** [mprotect] *)

(** [BTreeMap::pop_last] and [BTreeMap::pop_first]. *)
Definition pop_key (better : Z → Z → Z) (d : gmap Z Z) : option (Z * Z * gmap Z Z) :=
  match map_to_list d with
  | [] => None
  | (v0, _) :: r =>
      let v := foldr (λ p m, better p.1 m) v0 r in
      f ← d !! v; Some (v, f, delete v d)
  end.
Definition pop_last : gmap Z Z → option (Z * Z * gmap Z Z) := pop_key Z.max.
Definition pop_first : gmap Z Z → option (Z * Z * gmap Z Z) := pop_key Z.min.

(** Case 2: frames from the last one down to that of page [k]. *)
Fixpoint move_down_to (fuel : nat) (k : Z) (d moved : gmap Z Z) : gmap Z Z * gmap Z Z :=
  match fuel with
  | O => (d, moved)
  | S fuel =>
      match pop_last d with
      | None => (d, moved)
      | Some (v, f, d) =>
          let moved := <[v := f]> moved in
          if v =? k then (d, moved) else move_down_to fuel k d moved
      end
  end.
(** Frames from the first one up, as long as their page is below [k]; the one
    that is not goes back. *)
Fixpoint move_below (fuel : nat) (k : Z) (d moved : gmap Z Z) : gmap Z Z * gmap Z Z :=
  match fuel with
  | O => (d, moved)
  | S fuel =>
      match pop_first d with
      | None => (d, moved)
      | Some (v, f, d) =>
          if k <=? v then (<[v := f]> d, moved) else move_below fuel k d (<[v := f]> moved)
      end
  end.
(** Frames from the last one down, as long as their page is not below [k]. *)
Fixpoint move_from (fuel : nat) (k : Z) (d moved : gmap Z Z) : gmap Z Z * gmap Z Z :=
  match fuel with
  | O => (d, moved)
  | S fuel =>
      match pop_last d with
      | None => (d, moved)
      | Some (v, f, d) =>
          if v <? k then (<[v := f]> d, moved) else move_from fuel k d (<[v := f]> moved)
      end
  end.

(** The four cases for one area: the area in place and the new areas. *)
Definition protect_area g (a : MapArea) (start_vpn end_vpn perm : Z) :
    comp (GroupManager * MapArea * list MapArea) :=
  let s := area_start a in
  let e := area_end a in
  let d := data_frames a in
  if (start_vpn <=? s) && (e <=? end_vpn) then Done (g, set_perm a perm, [])
  else if (s <? start_vpn) && (start_vpn <? e) && (e <=? end_vpn) then
    nr ← range_new start_vpn e;
    let new_area := add_offset (set_range (set_perm (area_from_another a) perm) nr) (start_vpn - s) in
    r ← range_new s start_vpn;
    let g := add_area g (groupid new_area) in
    let '(stay, moved) := move_down_to (size d) start_vpn d ∅ in
    Done (g, set_frames (set_range a r) stay, [set_frames new_area moved])
  else if (start_vpn <=? s) && (s <? end_vpn) && (end_vpn <? e) then
    nr ← range_new s end_vpn;
    let new_area := set_range (set_perm (area_from_another a) perm) nr in
    r ← range_new end_vpn e;
    let g := add_area g (groupid new_area) in
    let '(stay, moved) := move_below (size d) end_vpn d ∅ in
    Done (g, set_frames (add_offset (set_range a r) (end_vpn - s)) stay, [set_frames new_area moved])
  else if (s <? start_vpn) && (end_vpn <? e) then
    fr ← range_new s start_vpn;
    br ← range_new end_vpn e;
    r ← range_new start_vpn end_vpn;
    let front_area := set_range (area_from_another a) fr in
    let back_area := add_offset (set_range (area_from_another a) br) (end_vpn - s) in
    let g := add_area (add_area g (groupid front_area)) (groupid back_area) in
    let '(d, front) := move_below (size d) start_vpn d ∅ in
    let '(d, back) := move_from (size d) end_vpn d ∅ in
    Done (g, set_frames (add_offset (set_range (set_perm a perm) r) (start_vpn - s)) d,
          [set_frames front_area front; set_frames back_area back])
  else Done (g, a, []).

Fixpoint protect_areas g (l : list MapArea) (start_vpn end_vpn perm : Z) :
    comp (GroupManager * list MapArea * list MapArea) :=
  match l with
  | [] => Done (g, [], [])
  | a :: l =>
      '(g, a, new) ← protect_area g a start_vpn end_vpn perm;
      '(g, l, news) ← protect_areas g l start_vpn end_vpn perm;
      Done (g, a :: l, new ++ news)
  end.

Fixpoint push_all ms (l : list MapArea) : comp (MemorySetInner PT) :=
  match l with
  | [] => Done ms
  | a :: l => ms ← push_lazily ms a; push_all ms l
  end.

Fixpoint protect_pages (pt : PT) (vpns : list Z) (perm : Z) : comp PT :=
  match vpns with
  | [] => Done pt
  | v :: vpns => pt ← pt_handle_mprotect pt v perm; protect_pages pt vpns perm
  end.

Definition mprotect g ms (start_vpn end_vpn perm : Z) : comp (GroupManager * MemorySetInner PT * SyscallRet) :=
  if end_vpn <=? start_vpn then Done (g, ms, Err EINVAL)
  else if existsb (λ a, is_huge a && (overlaps a start_vpn end_vpn
            && ((perm =? 0) || negb ((start_vpn <=? area_start a) && (area_end a <=? end_vpn))))) (areas ms)
  then Done (g, ms, Err EOPNOTSUPP)
  else if contains perm PERM_W && existsb (λ a, overlaps a start_vpn end_vpn
            && match special_backing (mmap_file a) with Some b => negb (allows_write b) | None => false end) (areas ms)
  then Done (g, ms, Err EPERM)
  else
    '(g, l, news) ← protect_areas g (areas ms) start_vpn end_vpn perm;
    ms ← push_all (set_areas ms l) news;
    pt ← protect_pages (page_table ms) (seqZ start_vpn (end_vpn - start_vpn)) perm;
    Done (g, set_pt ms pt, Ok 0).

(** ** [mremap] *)

Definition covers_range (old_start old_end : Z) (a : MapArea) : bool :=
  (is_mmap_vma a || bool_decide (area_type a = Shm))
  && (area_start a <=? old_start) && (old_end <=? area_end a).

(** The front of the area at [idx] becomes an area of its own; the result is
    the new place of the rest. *)
Definition split_front g ms (idx : nat) (old_start : Z) : comp (GroupManager * MemorySetInner PT * nat) :=
  a ← unwrap (areas ms !! idx);
  let s := area_start a in
  let e := area_end a in
  if s <? old_start then
    fr ← range_new s old_start;
    let front := set_frames (set_range (area_from_another a) fr) (frames_below (data_frames a) old_start) in
    r ← range_new old_start e;
    let a := add_offset (set_range (set_frames a (frames_from (data_frames a) old_start)) r) (old_start - s) in
    let g := if groupid front =? 0 then g else add_area g (groupid front) in
    let '(l, front_idx) := insert_area_sorted_unmerged (<[idx := a]> (areas ms)) front in
    Done (g, set_areas ms l, if (front_idx <=? idx)%nat then S idx else idx)
  else Done (g, ms, idx).

(** The tail after [old_end], up to [area_end], becomes an area of its own. *)
Definition split_tail g ms (idx : nat) (old_start old_end area_end : Z) : comp (GroupManager * MemorySetInner PT) :=
  if old_end <? area_end then
    a ← unwrap (areas ms !! idx);
    tr ← range_new old_end area_end;
    let tail := add_offset (set_range (area_from_another a) tr) (old_end - old_start) in
    let tail := set_frames tail (frames_from (data_frames a) old_end) in
    r ← range_new old_start old_end;
    let a := set_range (set_frames a (frames_below (data_frames a) old_end)) r in
    let g := if groupid tail =? 0 then g else add_area g (groupid tail) in
    Done (g, set_areas ms (fst (insert_area_sorted_unmerged (<[idx := a]> (areas ms)) tail)))
  else Done (g, ms).

(** The first half of both variants: the area of the old range is cut to it. *)
Definition mremap_isolate g ms (old_start old_end : Z) :
    comp (GroupManager * MemorySetInner PT * result SysErrNo nat) :=
  match position (covers_range old_start old_end) (areas ms) with
  | None => Done (g, ms, Err EFAULT)
  | Some idx =>
      a ← unwrap (areas ms !! idx);
      if is_huge a then Done (g, ms, Err EOPNOTSUPP)
      else
        '(g, ms, idx) ← split_front g ms idx old_start;
        '(g, ms) ← split_tail g ms idx old_start old_end (area_end a);
        Done (g, ms, Ok idx)
  end.

Definition mremap_in_place g ms (old_addr old_len new_len : Z) :
    comp (GroupManager * MemorySetInner PT * SyscallRet) :=
  match checked_add old_addr old_len with
  | None => Done (g, ms, Err EINVAL)
  | Some old_end_addr =>
      old_start ← vpn_floor old_addr;
      old_end ← vpn_ceil old_end_addr;
      '(g, ms, r) ← mremap_isolate g ms old_start old_end;
      match r with
      | Err e => Done (g, ms, Err e)
      | Ok idx =>
          let old_len := wrap64 ((old_end - old_start) * PAGE_SIZE) in
          if new_len =? old_len then Done (g, ms, Ok old_addr)
          else if new_len <? old_len then
            match checked_add old_addr new_len with
            | None => Done (g, ms, Err EINVAL)
            | Some trim_addr =>
                '(g, ms, r) ← munmap g ms trim_addr (old_len - new_len);
                Done (g, ms, match r with Err e => Err e | Ok _ => Ok old_addr end)
            end
          else
            match checked_add old_addr new_len with
            | None => Done (g, ms, Err EINVAL)
            | Some new_end_addr =>
                if (USER_SPACE_SIZE <? new_end_addr)
                   || negb (bool_decide (is_Some (virt_addr_try_from old_addr)))
                   || negb (bool_decide (is_Some (virt_addr_try_from (wrap64 (new_end_addr - 1)))))
                then Done (g, ms, Err EINVAL)
                else
                  new_end ← vpn_ceil new_end_addr;
                  if existsb (λ '(i, a), negb (i =? idx)%nat
                       && ((area_start a <? new_end) && (old_end <? area_end a)))
                       (imap pair (areas ms))
                  then Done (g, ms, Err ENOMEM)
                  else
                    a ← unwrap (areas ms !! idx);
                    let accounted := negb (intersects (mmap_flags a) FIXED_FLAGS) in
                    match (if accounted then checked_add (total_mmap_size ms) (new_len - old_len)
                           else Some (total_mmap_size ms)) with
                    | None => Done (g, ms, Err ENOMEM)
                    | Some total =>
                        if MAX_MMAP_SIZE <? total then Done (g, ms, Err ENOMEM)
                        else
                          r ← range_new old_start new_end;
                          Done (g, set_total (set_areas ms (<[idx := set_range a r]> (areas ms))) total, Ok old_addr)
                    end
            end
      end
  end.

(** One page of the copy loop; [None] goes on, an error undoes the new area. *)
Definition copy_one (l : list MapArea) (old_a new_area : MapArea) (pt : PT) (old_vpn new_vpn : Z) :
    comp (PT * MapArea * option SysErrNo) :=
  t ← pt_translate pt old_vpn;
  match t with
  | None => Done (pt, new_area, None)
  | Some old_ppn =>
      if bool_decide (data_frames old_a !! old_vpn = Some old_ppn)
         || existsb (λ a, existsb (λ p, p.2 =? old_ppn) (map_to_list (data_frames a))) l
      then
        '(pt, new_area, r) ← map_one pt new_area new_vpn;
        match r with
        | None => '(pt, new_area) ← area_unmap pt new_area; Done (pt, new_area, Some ENOMEM)
        | Some new_ppn => Done (pt_copy_page pt new_ppn old_ppn, new_area, None)
        end
      else '(pt, new_area) ← area_unmap pt new_area; Done (pt, new_area, Some EFAULT)
  end.
Fixpoint copy_pages (l : list MapArea) (old_a new_area : MapArea) (pt : PT) (old_vpn new_vpn : Z) (n : nat) :
    comp (PT * MapArea * option SysErrNo) :=
  match n with
  | O => Done (pt, new_area, None)
  | S n =>
      '(pt, new_area, err) ← copy_one l old_a new_area pt old_vpn new_vpn;
      match err with
      | Some e => Done (pt, new_area, Some e)
      | None => copy_pages l old_a new_area pt (old_vpn + 1) (new_vpn + 1) n
      end
  end.

(** The target of [MREMAP_FIXED] is checked and cleared. *)
Definition mremap_target g ms (idx : nat) (fixed : bool)
    (old_addr old_end_addr old_start old_end new_addr new_len : Z) :
    comp (GroupManager * MemorySetInner PT * result SysErrNo nat) :=
  if negb fixed then Done (g, ms, Ok idx)
  else
    match checked_add new_addr new_len with
    | None => Done (g, ms, Err EINVAL)
    | Some new_end =>
        if (USER_SPACE_SIZE <? new_end)
           || negb (bool_decide (is_Some (virt_addr_try_from new_addr)))
           || negb (bool_decide (is_Some (virt_addr_try_from (wrap64 (new_end - 1)))))
        then Done (g, ms, Err EINVAL)
        else if (new_addr <? old_end_addr) && (old_addr <? new_end) then Done (g, ms, Err EINVAL)
        else
          '(g, ms, r) ← munmap g ms new_addr new_len;
          match r with
          | Err e => Done (g, ms, Err e)
          | Ok _ =>
              Done (g, ms, match position (covers_range old_start old_end) (areas ms) with
                           | None => Err EFAULT
                           | Some idx => Ok idx
                           end)
          end
    end.

(** The new total, or the error that refuses it. *)
Definition mremap_total (total flags old_len new_len : Z) : result SysErrNo Z :=
  base ← (if negb (intersects flags FIXED_FLAGS) then ok_or EINVAL (checked_sub total old_len) else Ok total);
  t ← ok_or ENOMEM (checked_add base new_len);
  if MAX_MMAP_SIZE <? t then Err ENOMEM else Ok t.

(** The move itself: build the new area, copy, then tear the old one down. *)
Definition mremap_move g ms (idx : nat) (old_start old_end new_len dest_addr total : Z) :
    comp (GroupManager * MemorySetInner PT * SyscallRet) :=
  match checked_add dest_addr new_len with
  | None => Done (g, ms, Err ENOMEM)
  | Some new_end_addr =>
      new_start ← vpn_floor dest_addr;
      new_end ← vpn_ceil new_end_addr;
      a ← unwrap (areas ms !! idx);
      r ← range_new new_start new_end;
      let new_area := set_mflags (set_range (area_from_another a) r) (bits_remove (mmap_flags a) FIXED_FLAGS) in
      let g := if groupid new_area =? 0 then g else add_area g (groupid new_area) in
      '(pt, new_area, err) ← copy_pages (areas ms) a new_area (page_table ms) old_start new_start
                               (Z.to_nat (Z.min (old_end - old_start) (new_end - new_start)));
      let ms := set_pt ms pt in
      match err with
      | Some e => g ← drop_area g new_area; Done (g, ms, Err e)
      | None =>
          '(pt, old_area) ← area_unmap (page_table ms) a;
          ms ← push_lazily (set_areas (set_pt ms pt) (vec_remove idx (areas ms))) new_area;
          g ← drop_area g old_area;
          Done (g, set_total ms total, Ok dest_addr)
      end
  end.

Definition mremap_maymove g ms (old_addr old_len new_len new_addr : Z) (fixed : bool) :
    comp (GroupManager * MemorySetInner PT * SyscallRet) :=
  match checked_add old_addr old_len with
  | None => Done (g, ms, Err EINVAL)
  | Some old_end_addr =>
      old_start ← vpn_floor old_addr;
      old_end ← vpn_ceil old_end_addr;
      '(g, ms, r) ← mremap_isolate g ms old_start old_end;
      match r with
      | Err e => Done (g, ms, Err e)
      | Ok idx =>
          '(g, ms, r) ← mremap_target g ms idx fixed old_addr old_end_addr old_start old_end new_addr new_len;
          match r with
          | Err e => Done (g, ms, Err e)
          | Ok idx =>
              a ← unwrap (areas ms !! idx);
              if contains (mmap_flags a) MAP_SHARED_VALIDATE then Done (g, ms, Err ENOSYS)
              else
                let old_len := wrap64 ((old_end - old_start) * PAGE_SIZE) in
                if (new_len =? old_len) && negb fixed then Done (g, ms, Ok old_addr)
                else
                  match mremap_total (total_mmap_size ms) (mmap_flags a) old_len new_len with
                  | Err e => Done (g, ms, Err e)
                  | Ok total =>
                      '(ms, dest_addr) ← (if fixed then Done (ms, new_addr) else find_mmap_addr ms new_len);
                      if dest_addr =? 0 then Done (g, ms, Err ENOMEM)
                      else mremap_move g ms idx old_start old_end new_len dest_addr total
                  end
          end
      end
  end.

End mmap.

(** ** [munmap] removes exactly the mapped pages of the range *)

Section munmap_proofs.
Context `{PageTableLaws PT}.
Implicit Types (ms : MemorySetInner PT) (g : GroupManager).

Lemma mmap_overlaps_spec s e a :
  mmap_overlaps s e a = true ↔ is_mmap_vma a = true ∧ area_start a < e ∧ s < area_end a.
Proof. unfold mmap_overlaps. by rewrite !andb_true_iff, !Z.ltb_lt. Qed.

Lemma range_user a s e : area_ok a → Forall user_vpn (range_pages (mkRange (Z.max (area_start a) s) (Z.min (area_end a) e))).
Proof.
  intros Ha. apply Forall_forall. intros v Hv%elem_of_range_pages. unfold contains_vpn, area_ok, user_vpn in *.
  simpl in Hv. lia.
Qed.

(** *** Cutting the range out of one area *)

Section cut.
Context (a : MapArea) (d : gmap Z Z) (l1 l2 : list MapArea) (s e : Z) (g : GroupManager).
Context (pt : PT) (tot hint : Z).
Context (Hwf : areas_wf (l1 ++ a :: l2)) (Ha : area_ok a) (Hlt : s < e) (Hs : area_start a < e) (He : s < area_end a).
Context (Hd : ∀ v, d !! v =
  if decide (v ∈ range_pages (mkRange (Z.max (area_start a) s) (Z.min (area_end a) e))) then None
  else data_frames a !! v).
Context (Hg : group_ok g (group_refs (l1 ++ a :: l2))).

(** [k] has no new area around the range. *)
Definition no_new_around (l k : list MapArea) : Prop :=
  ∀ b, b ∈ k → area_start b < s → e < area_end b → b ∈ l.

Definition cut_done (r : comp (GroupManager * MemorySetInner PT)) : Prop :=
  ∃ g' k, r = Done (g', mkMs pt k tot hint) ∧ removed (l1 ++ a :: l2) a s e k ∧ group_ok g' (group_refs k) ∧
    no_new_around (l1 ++ a :: l2) k.

Lemma cut_whole : s ≤ area_start a → area_end a ≤ e →
  cut_done ('(g, l) ← remove_area g (l1 ++ set_frames a d :: l2) (length l1); Done (g, mkMs pt l tot hint)).
Proof.
  intros H1 H2. unfold remove_area. rewrite list_lookup_middle by done. cbn [unwrap mbind comp_bind].
  destruct (drop_area_ok g (set_frames a d) (group_refs (l1 ++ a :: l2)) (group_refs (l1 ++ l2)) Hg) as (g'&->&Hg').
  - intros _. rewrite group_refs_middle. simpl. by rewrite decide_True.
  - intros id _ Hne. rewrite group_refs_middle, decide_False; [done|]. simpl in Hne. congruence.
  - cbn [mbind comp_bind]. rewrite vec_remove_app. eexists _, _. split; [done|]. split; [by apply removed_all|].
    split; [done|]. intros b. set_solver.
Qed.

(** One part [p] of the same group takes the place of the area. *)
Lemma cut_part p : part_of a p → groupid p = groupid a →
  area_start p = area_start a ∧ area_end p = s ∧ area_end a ≤ e ∨
  area_end p = area_end a ∧ area_start p = e ∧ s ≤ area_start a →
  cut_done (Done (g, mkMs pt (l1 ++ p :: l2) tot hint)).
Proof.
  intros Hp Hgp Hcase. eexists _, _. split; [done|]. split; [by apply removed_to_part|]. split.
  - eapply group_ok_ext; [|done]. intros id _. by apply group_refs_swap.
  - intros b [?|[->|?]%elem_of_cons]%elem_of_app ??; [set_solver|lia|set_solver].
Qed.

(** A hole: the left part stays in place, the right part is inserted. *)
Lemma cut_hole p q : groupid a = 0 → part_of a p → part_of a q → groupid p = 0 → groupid q = 0 →
  area_start p = area_start a → area_end p = s → area_start q = e → area_end q = area_end a →
  cut_done (ms ← push_lazily (mkMs pt (l1 ++ p :: l2) tot hint) q; Done (g, ms)).
Proof.
  intros Hga Hp Hq Hgp Hgq H1 H2 H3 H4. unfold push_lazily, set_areas. cbn [areas].
  destruct (replace_area l1 a l2 [p] Hwf) as [Hwp _]; [apply areas_wf_single, Hp| |].
  { intros x ->%list_elem_of_singleton. split; apply Hp. }
  destruct (insert_area_inserted (l1 ++ p :: l2) q) as (k&->&Hk); [done|apply Hq| |].
  { apply (right_free a s e); [done..|lia|done]. }
  cbn [mbind comp_bind page_table total_mmap_size mmap_hint]. eexists _, _. split; [done|].
  assert (removed (l1 ++ a :: l2) a s e k) as Hrem by by apply (split_removed l1 a l2 p q).
  split; [done|]. split.
  - eapply group_ok_ext; [|done]. intros id Hid. rewrite (ins_groups _ _ _ Hk) by done.
    unfold group_refs at 1. rewrite filter_cons, decide_False by congruence.
    fold (group_refs (l1 ++ p :: l2) id). apply group_refs_swap. congruence.
  - intros b Hb Hbs Hbe. exfalso. assert (attr_at k s = None) as Hn.
    { rewrite (rm_attr _ _ _ _ _ Hrem), (proj2 (holds_spec a s)), (proj2 (in_range_spec s e s)); [done|lia|].
      pose proof (part_ok _ _ Hp) as (?&_). pose proof (part_ok _ _ Hq) as (?&_). lia. }
    rewrite attr_at_None in Hn. specialize (Hn b Hb). rewrite (proj2 (holds_spec b s)) in Hn; [done|lia].
Qed.

Lemma munmap_cut_spec :
  (area_start a < s → e < area_end a → groupid a = 0) →
  cut_done (munmap_cut s e g (mkMs pt (l1 ++ set_frames a d :: l2) tot hint) (length l1) (set_frames a d)).
Proof.
  intros Hshare. unfold munmap_cut, set_areas. cbn [areas page_table total_mmap_size mmap_hint].
  change (area_start (set_frames a d)) with (area_start a). change (area_end (set_frames a d)) with (area_end a).
  assert (0 ≤ area_start a < area_end a) as Hrng by apply Ha.
  destruct (Z.leb_spec s (area_start a)) as [H1|H1], (Z.leb_spec (area_end a) e) as [H2|H2];
    cbn [andb]; rewrite ?(proj2 (Z.ltb_lt _ _) H1), ?(proj2 (Z.ltb_lt _ _) H2),
      ?(proj2 (Z.ltb_ge _ _) H1), ?(proj2 (Z.ltb_ge _ _) H2); cbn [andb].
  - by apply cut_whole.
  - rewrite range_new_ok by lia. cbn [mbind comp_bind]. rewrite insert_middle. apply cut_part; [|done|by right].
    apply (trim_right a d s e); try done. intros vpn. apply (page_attr_shift (set_frames a d)).
  - rewrite range_new_ok by lia. cbn [mbind comp_bind]. rewrite insert_middle. apply cut_part; [|done|by left].
    by apply (trim_left a d s e).
  - rewrite !range_new_ok by lia. cbn [mbind comp_bind]. rewrite insert_middle. specialize (Hshare H1 H2).
    apply cut_hole; try done.
    + by apply (trim_left_of_two a d s e).
    + apply (trim_right_of_two a d s e); try done. intros vpn. rewrite page_attr_frames.
      apply (page_attr_shift (area_from_another (set_frames a d))).
Qed.
End cut.

(** One round of the loop takes the range out of one area. *)
Record munmap_stepped (s e : Z) (a : MapArea) ms g' ms' : Prop := {
  st_removed : removed (areas ms) a s e (areas ms');
  st_pt_ok : pt_ok (page_table ms');
  st_pt v : user_vpn v → pt_translate (page_table ms') v =
    if holds a v && in_range s e v then Done None else pt_translate (page_table ms) v;
  st_groups : group_ok g' (group_refs (areas ms'));
  st_around : no_new_around s e (areas ms) (areas ms');
  st_hint : mmap_hint ms' = mmap_hint ms
}.

Lemma munmap_step_spec s e g ms idx :
  pt_ok (page_table ms) → areas_wf (areas ms) → s < e →
  (∀ a, a ∈ areas ms → area_start a < s → e < area_end a → groupid a = 0) →
  group_ok g (group_refs (areas ms)) →
  position (mmap_overlaps s e) (areas ms) = Some idx →
  ∃ a g' ms', a ∈ areas ms ∧ mmap_overlaps s e a = true ∧
    munmap_step s e (g, ms) idx = Done (g', ms') ∧ munmap_stepped s e a ms g' ms'.
Proof.
  intros Hpt Hwf Hlt Hshare Hg Hidx. destruct ms as [pt l tot hint]. simpl in *.
  apply position_Some in Hidx as (a&Hi&Hov&_). exists a.
  apply list_elem_of_split_length in Hi as (l1&l2&->&->).
  pose proof (proj1 (mmap_overlaps_spec _ _ _) Hov) as (_&Hs&He).
  assert (area_ok a) as Ha by (pose proof (wf_areas _ Hwf) as Hok; rewrite Forall_app, Forall_cons in Hok; tauto).
  assert (0 ≤ area_start a < area_end a) as Hrng by apply Ha.
  unfold munmap_step. cbn [areas page_table]. rewrite list_lookup_middle by done. cbn [unwrap mbind comp_bind].
  rewrite range_new_ok by lia. cbn [mbind comp_bind].
  destruct (unmap_pages_spec pt a _ Hpt (proj2 (proj2 Ha)) (range_user a s e Ha)) as (pt'&d&->&Hpt'&Hd&Htr).
  cbn [mbind comp_bind]. set (ms1 := if negb _ then _ else _).
  assert (∃ tot', ms1 = mkMs pt' (l1 ++ set_frames a d :: l2) tot' hint) as [tot' ->].
  { subst ms1. destruct (negb _); unfold set_areas, set_pt, set_total; cbn [areas page_table mmap_hint];
      rewrite insert_middle; eauto. }
  destruct (munmap_cut_spec a d l1 l2 s e g pt' tot' hint) as (g'&k&->&Hrem&Hg'&Hnew); try done.
  { apply Hshare. set_solver. }
  eexists _, _. split; [set_solver|]. split; [done|]. split; [done|]. split; simpl; try done.
  intros v Hv. rewrite Htr by done. pose proof (trim_pages a s e v) as Hp.
  destruct (decide _) as [Hin|Hin], (holds a v && in_range s e v) eqn:?; naive_solver.
Qed.
(** *** The loop *)

Definition is_mmap_attr (t : PageAttr) : bool :=
  bool_decide (at_area t = Mmap) || bool_decide (at_area t = Stack) && contains (at_flags t) MAP_STACK.
Definition mmap_page (l : list MapArea) (v : Z) : bool :=
  match attr_at l v with Some t => is_mmap_attr t | None => false end.

(** What [munmap] does to a page. *)
Definition page_kept ms ms' (v : Z) : Prop :=
  attr_at (areas ms') v = attr_at (areas ms) v ∧ frame_at (areas ms') v = frame_at (areas ms) v ∧
  (user_vpn v → pt_translate (page_table ms') v = pt_translate (page_table ms) v).
Definition page_gone ms' (v : Z) : Prop :=
  attr_at (areas ms') v = None ∧ frame_at (areas ms') v = None ∧
  (user_vpn v → pt_translate (page_table ms') v = Done None).

Record munmap_inv (s e : Z) ms0 g ms : Prop := {
  mi_pt : pt_ok (page_table ms);
  mi_wf : areas_wf (areas ms);
  mi_frames : frames_wf (areas ms);
  mi_groups : group_ok g (group_refs (areas ms));
  mi_around a : a ∈ areas ms → area_start a < s → e < area_end a → groupid a = 0;
  mi_page v : page_kept ms0 ms v ∨ in_range s e v = true ∧ mmap_page (areas ms0) v = true ∧ page_gone ms v;
  mi_hint : mmap_hint ms = mmap_hint ms0
}.

(** The pages of the range that are still mapped. *)
Definition pages_left (s e : Z) (l : list MapArea) : Z :=
  Z.of_nat (length (filter (λ v, is_Some (attr_at l v)) (seqZ s (e - s)))).

Lemma lookup_attr l a v : areas_wf l → a ∈ l → holds a v = true → attr_at l v = Some (page_attr a v).
Proof. intros. unfold attr_at. by erewrite lookup_area_apart by (try apply areas_wf_apart; done). Qed.

Lemma munmap_round s e ms0 g ms idx :
  s < e → munmap_inv s e ms0 g ms → position (mmap_overlaps s e) (areas ms) = Some idx →
  ∃ g' ms', munmap_step s e (g, ms) idx = Done (g', ms') ∧ munmap_inv s e ms0 g' ms' ∧
    0 ≤ pages_left s e (areas ms') < pages_left s e (areas ms).
Proof.
  intros Hlt [Hpt Hwf Hfr Hg Har Hpage Hh] Hidx.
  destruct (munmap_step_spec s e g ms idx) as (a&g'&ms'&Hin&Hov&Heq&[[Rw Ra Rf] Rpt Rtr Rg Rar Rh]); [done..|].
  apply mmap_overlaps_spec in Hov as (Hm&H1&H2). destruct (Rf Hfr) as [Hfr' Rfr].
  exists g', ms'. split; [done|]. split.
  - split; [done..| | |by rewrite Rh].
    + intros b Hb Hbs Hbe. apply Har; [by apply Rar|done|done].
    + intros v. unfold page_kept, page_gone. rewrite Ra, Rfr.
      destruct (holds a v && in_range s e v) eqn:Hav.
      * right. apply andb_true_iff in Hav as [Hav Hr]. split; [done|]. split.
        -- pose proof (lookup_attr _ _ _ Hwf Hin Hav) as Hl. unfold mmap_page.
           destruct (Hpage v) as [(Ha&_)|(_&_&Hn&_)]; [|congruence]. by rewrite <- Ha, Hl.
        -- split; [done|]. split; [done|]. intros Hu. by rewrite Rtr, Hav, Hr.
      * destruct (Hpage v) as [(?&?&Ht)|(?&?&?&?&Ht)]; [left|right]; repeat (split; [done|]);
          intros Hu; rewrite Rtr, Hav by done; auto.
  - split; [unfold pages_left; lia|]. apply inj_lt. set (v := Z.max (area_start a) s).
    pose proof (wf_areas _ Hwf) as Hok. eapply Forall_forall in Hok as [Hok _]; [|done].
    assert (holds a v = true) as Hv by (apply holds_spec; lia).
    assert (in_range s e v = true) as Hr by (apply in_range_spec; lia).
    apply (length_filter_lt _ _ _ v).
    + intros x _. rewrite Ra. destruct (holds a x && in_range s e x); [|done]. by intros [? ?].
    + apply elem_of_seqZ. lia.
    + rewrite (lookup_attr _ _ _ Hwf Hin Hv). eauto.
    + rewrite Ra, Hv, Hr. by intros [? ?].
Qed.

(** The loop ends, and every page of a mapping in the range is gone. *)
Lemma munmap_loop_spec s e g ms :
  0 ≤ s < e → e ≤ 2 ^ 52 → pt_ok (page_table ms) → areas_wf (areas ms) → frames_wf (areas ms) →
  group_ok g (group_refs (areas ms)) →
  (∀ a, a ∈ areas ms → area_start a < s → e < area_end a → groupid a = 0) →
  ∃ g' ms', munmap_loop s e (g, ms) = Done (g', ms') ∧ munmap_inv s e ms g' ms' ∧
    ∀ v, if in_range s e v && mmap_page (areas ms) v then page_gone ms' v else page_kept ms ms' v.
Proof.
  intros Hse Hle Hpt Hwf Hfr Hg Har.
  destruct (while_some_done (λ '(_, ms), position (mmap_overlaps s e) (areas ms)) (munmap_step s e)
    (λ '(g, ms1), munmap_inv s e ms g ms1) (λ '(_, ms), pages_left s e (areas ms)) (g, ms))
    as ([g' ms']&Heq&Hinv&Hpos).
  - intros [g1 ms1] i HI Hi. destruct (munmap_round s e ms g1 ms1 i) as (g2&ms2&?&?&?); [lia|done|done|].
    by exists (g2, ms2).
  - split; try done. intros v. by left.
  - unfold pages_left. assert (length (filter (λ v, is_Some (attr_at (areas ms) v)) (seqZ s (e - s))) ≤
      length (seqZ s (e - s)))%nat as Hl by apply length_filter. rewrite length_seqZ in Hl. lia.
  - exists g', ms'. split; [done|]. split; [done|]. intros v. destruct Hinv as [_ Hwf' _ _ _ Hpage _].
    destruct (Hpage v) as [Hk|(->&->&Hgone)]; [|done].
    destruct (in_range s e v) eqn:Hr; [|done]. destruct (mmap_page (areas ms) v) eqn:Hm; [|done]. exfalso.
    unfold mmap_page, attr_at in Hm. destruct Hk as (Hk&_). unfold attr_at in Hk. rewrite <- Hk in Hm.
    destruct (lookup_area (areas ms') v) as [a|] eqn:Hl; [|done]. apply lookup_area_Some in Hl as [Hin Hh].
    rewrite position_None in Hpos. specialize (Hpos a Hin). apply not_true_iff_false in Hpos. apply Hpos.
    apply holds_spec in Hh. apply in_range_spec in Hr. apply mmap_overlaps_spec. split; [done|lia].
Qed.
Lemma vpn_floor_ok addr : 0 ≤ addr ≤ USER_SPACE_SIZE → vpn_floor addr = Done (floor addr).
Proof.
  intros Ha. unfold vpn_floor, virt_addr_from_usize.
  rewrite (proj2 (sign_extends_spec VA_WIDTH_SV39 addr ltac:(unfold VA_WIDTH_SV39; lia)
    ltac:(unfold is_usize, usize_max, USER_SPACE_SIZE in *; lia))); [done|].
  unfold VA_WIDTH_SV39, USER_SPACE_SIZE in *. lia.
Qed.

Lemma vpn_ceil_ok addr : 0 ≤ addr ≤ USER_SPACE_SIZE → vpn_ceil addr = Done (ceil addr).
Proof.
  intros Ha. pose proof (vpn_floor_ok addr Ha) as Hf. unfold vpn_floor, vpn_ceil in *.
  destruct (virt_addr_from_usize addr) eqn:Hv; [|done]. cbn [mbind comp_bind] in *.
  unfold virt_addr_from_usize in Hv. destruct (sign_extends _ _); [|done]. cbv in Hv. by simplify_eq.
Qed.

Lemma any_comp_false {A} (p : A → comp bool) l : (∀ x, x ∈ l → p x = Done false) → any_comp p l = Done false.
Proof. induction l as [|x l IH]; intros Hl; cbn [any_comp]; [done|]. rewrite Hl by set_solver. apply IH. set_solver. Qed.

(** The pages from [addr] to [addr + len]. *)
Lemma byte_range_pages addr len : 0 ≤ addr → 0 < len → addr + len ≤ USER_SPACE_SIZE →
  0 ≤ floor addr < ceil (addr + len) ∧ ceil (addr + len) ≤ 2 ^ 26.
Proof.
  intros Ha Hl He. rewrite ceil_spec by (unfold usize_max, PAGE_SIZE, USER_SPACE_SIZE in *; lia).
  pose proof (floor_spec addr). pose proof (div_page_bounds (addr + len + PAGE_SIZE - 1)).
  unfold PAGE_SIZE, USER_SPACE_SIZE in *. lia.
Qed.

(** The conditions on an address space without huge pages. *)
Record space_wf g ms : Prop := {
  sw_pt : pt_ok (page_table ms);
  sw_areas : areas_wf (areas ms);
  sw_frames : frames_wf (areas ms);
  sw_groups : group_ok g (group_refs (areas ms));
  sw_small a : a ∈ areas ms → is_huge a = false
}.
End munmap_proofs.


(** A space with one private anonymous mapping of the pages 4 to 7; page 5 is
    resident on frame 7. *)
Definition demo_area : MapArea :=
  mkArea (mkRange 4 8) {[5 := 7]} Framed (Z.lor PERM_R PERM_W) Mmap file_empty (Z.lor MAP_PRIVATE MAP_ANONYMOUS) 0.
Definition demo_ms : MemorySetInner (PhysMem (list Z) * PageTable.PageTable) :=
  mkMs demo_space [demo_area] 16384 MMAP_TOP.

Lemma demo_space_wf :
  @space_wf _ _ (sv39_laws no_huge demo_roots) group_new demo_ms.
Proof.
  split.
  - apply demo_space_ok.
  - apply areas_wf_single. split; [|split; [|done]]; unfold area_start, area_end; simpl; lia.
  - apply Forall_singleton. intros v f Hv. simpl in Hv. apply lookup_singleton_Some in Hv as [<- _]. reflexivity.
  - intros id Hid. unfold group_refs. simpl. rewrite filter_cons_False by (simpl; congruence). simpl. lia.
  - intros a ->%list_elem_of_singleton. reflexivity.
Qed.



(** ** [mmap] maps a free range *)

Section mmap_proofs.
Context `{PageTableLaws PT}.
Implicit Types (ms : MemorySetInner PT) (g : GroupManager).

Definition page_count (len : Z) : Z := (len + PAGE_SIZE - 1) / PAGE_SIZE.

Lemma page_count_bounds len : 0 < len → 0 < page_count len ∧ (page_count len - 1) * PAGE_SIZE < len ≤ page_count len * PAGE_SIZE.
Proof.
  intros Hl. pose proof (div_page_bounds (len + PAGE_SIZE - 1)) as Hb. unfold page_count, PAGE_SIZE in *. lia.
Qed.

(** A free, page-aligned place for [len] bytes below [MMAP_TOP]. *)
Definition free_place (l : list MapArea) (addr len : Z) : Prop :=
  ∃ s, addr = s * PAGE_SIZE ∧ 0 < s ∧ s * PAGE_SIZE + len ≤ MMAP_TOP ∧
    ∀ v, s ≤ v < s + page_count len → attr_at l v = None.

Lemma no_overlap_free l s n : (∀ a, a ∈ l → overlaps a s (s + n) = false) → ∀ v, s ≤ v < s + n → attr_at l v = None.
Proof.
  intros Hall v Hv. apply attr_at_None. intros a Ha. specialize (Hall a Ha). apply not_true_is_false.
  rewrite holds_spec. intros ?. apply not_true_iff_false in Hall. apply Hall, overlaps_spec. lia.
Qed.

Lemma find_insert_place l hint len : areas_wf l → 0 ≤ hint ≤ MMAP_TOP → 0 < len ≤ USER_SPACE_SIZE →
  ∃ addr, find_insert_addr l hint len = Done addr ∧ (addr = 0 ∨ free_place l addr len).
Proof.
  intros Hwf Hh Hl. pose proof (page_count_bounds len) as Hn.
  destruct (find_insert_addr_highest l hint len) as (s&Heq&Hs&Hfree&_);
    [done|unfold MMAP_TOP, USER_TRAP_CONTEXT_TOP, THREAD_MAX_NUM, USER_STACK_SIZE, PAGE_SIZE in *; lia|done|].
  exists (s * PAGE_SIZE). split; [done|]. destruct (decide (s = 0)) as [->|]; [by left|right].
  destruct (Hfree ltac:(lia)) as [Hle Hall]. exists s. split; [done|]. split; [lia|]. fold (page_count len) in *. split.
  - pose proof (floor_spec hint). unfold PAGE_SIZE in *. lia.
  - by apply no_overlap_free.
Qed.

Lemma find_mmap_place ms len : areas_wf (areas ms) → 0 < len ≤ USER_SPACE_SIZE →
  ∃ h addr, find_mmap_addr ms len = Done (set_hint ms h, addr) ∧ (addr = 0 ∨ free_place (areas ms) addr len).
Proof.
  intros Hwf Hl. unfold find_mmap_addr. set (hint := Z.min _ _).
  assert (0 ≤ hint ≤ MMAP_TOP) as Hh.
  { subst hint. assert (0 < MMAP_TOP) by reflexivity. unfold PAGE_SIZE. lia. }
  destruct (find_insert_place (areas ms) hint len) as (a1&->&H1); [done..|]. cbn [mbind comp_bind].
  assert (∃ a2, (if (a1 =? 0) && negb (hint =? MMAP_TOP) then find_insert_addr (areas ms) MMAP_TOP len else Done a1)
    = Done a2 ∧ (a2 = 0 ∨ free_place (areas ms) a2 len)) as (a2&->&H2).
  { destruct (_ && _); [|eauto]. apply find_insert_place; [done| |done]. split; [|done]. by vm_compute. }
  cbn [mbind comp_bind]. destruct (Z.eqb_spec a2 0).
  - exists (mmap_hint ms), a2. by destruct ms.
  - by exists a2, a2.
Qed.

Lemma page_mask hint : 0 ≤ hint ≤ usize_max → Z.land hint (wrap64 (Z.lnot (PAGE_SIZE - 1))) = floor hint * PAGE_SIZE.
Proof.
  intros Hh. replace (wrap64 (Z.lnot (PAGE_SIZE - 1))) with (Z.ldiff (Z.ones 64) (Z.ones 12)) by reflexivity.
  assert (∀ a b, Z.land hint (Z.ldiff a b) = Z.ldiff (Z.land hint a) b) as ->.
  { intros a b. apply Z.bits_inj'. intros n _. by rewrite Z.ldiff_spec, !Z.land_spec, Z.ldiff_spec, andb_assoc. }
  rewrite Z.land_ones, Z.mod_small by (change (2 ^ 64) with (usize_max + 1); lia).
  rewrite Z.ldiff_ones_r, Z.shiftl_mul_pow2, Z.shiftr_div_pow2 by lia. reflexivity.
Qed.

Lemma try_hint_place ms hint len : areas_wf (areas ms) → 0 ≤ hint ≤ usize_max → 0 < len ≤ USER_SPACE_SIZE →
  ∃ h r, try_mmap_hint ms hint len = Done (set_hint ms h, r) ∧
    match r with None => True | Some addr => free_place (areas ms) addr len end.
Proof.
  intros Hwf Hh Hl. assert (∀ r : option Z, match r with None => True | Some addr => free_place (areas ms) addr len end →
    ∃ h r', Done (ms, r) = Done (set_hint ms h, r') ∧ match r' with None => True | Some addr => free_place (areas ms) addr len end) as Hkeep.
  { intros r Hr. exists (mmap_hint ms), r. by destruct ms. }
  unfold try_mmap_hint. destruct (hint =? 0); [by apply Hkeep|]. rewrite page_mask by done.
  unfold checked_add. destruct (_ <=? usize_max); [|by apply Hkeep].
  destruct (Z.eqb_spec (floor hint * PAGE_SIZE) 0) as [|Hs]; [by apply Hkeep|].
  destruct (Z.ltb_spec MMAP_TOP (floor hint * PAGE_SIZE + len)) as [|Ht]; [by apply Hkeep|]. cbn [orb].
  pose proof (floor_spec hint) as Hf. pose proof (page_count_bounds len ltac:(lia)) as Hn.
  assert (MMAP_TOP ≤ USER_SPACE_SIZE) as Htop by (vm_compute; discriminate).
  assert (0 < floor hint) by (unfold PAGE_SIZE in *; lia).
  pose proof (vpn_floor_ok (floor hint * PAGE_SIZE) ltac:(unfold PAGE_SIZE in *; lia)) as E1.
  pose proof (vpn_ceil_ok (floor hint * PAGE_SIZE + len) ltac:(unfold PAGE_SIZE in *; lia)) as E2.
  unfold vpn_floor, vpn_ceil in *. destruct (virt_addr_from_usize (floor hint * PAGE_SIZE)) as [sv|]; [|done].
  destruct (virt_addr_from_usize (floor hint * PAGE_SIZE + len)) as [ev|]; [|done].
  cbn [mbind comp_bind] in *. injection E1 as ->. injection E2 as ->.
  destruct (existsb _ _) eqn:Hex; [by apply Hkeep|].
  eexists _, (Some _). split; [done|]. exists (floor hint). split; [done|]. split; [lia|]. split; [done|].
  replace (floor (floor hint * PAGE_SIZE)) with (floor hint) in Hex.
  2: { unfold floor. by rewrite Z.div_mul. }
  apply no_overlap_free. intros a Ha. apply not_true_is_false. intros Hov. apply not_true_iff_false in Hex.
  apply Hex, existsb_elem. exists a. split; [done|]. rewrite ceil_spec by (unfold PAGE_SIZE, usize_max, USER_SPACE_SIZE in *; lia).
  replace (floor hint * PAGE_SIZE + len + PAGE_SIZE - 1) with ((len + PAGE_SIZE - 1) + floor hint * PAGE_SIZE) by lia.
  rewrite Z.div_add by done. fold (page_count len). by rewrite Z.add_comm.
Qed.
Lemma ceil_place s len : 0 < s → 0 < len → s * PAGE_SIZE + len ≤ MMAP_TOP → ceil (s * PAGE_SIZE + len) = s + page_count len.
Proof.
  intros Hs Hl Ht. assert (MMAP_TOP ≤ USER_SPACE_SIZE) by (vm_compute; discriminate).
  rewrite ceil_spec by (unfold PAGE_SIZE, usize_max, USER_SPACE_SIZE in *; lia).
  replace (s * PAGE_SIZE + len + PAGE_SIZE - 1) with ((len + PAGE_SIZE - 1) + s * PAGE_SIZE) by lia.
  rewrite Z.div_add by done. unfold page_count. lia.
Qed.

(** The new area of a free place, and its insertion. *)
Lemma map_place g ms addr len perm k flags file : areas_wf (areas ms) → frames_wf (areas ms) →
  0 < len → free_place (areas ms) addr len →
  ∃ sv ev g' a ms', virt_addr_from_usize addr = Done sv ∧ virt_addr_from_usize (wrap64 (addr + len)) = Done ev ∧
    new_mmap g sv ev Framed perm k flags file = Done (g', a) ∧ push_lazily ms a = Done ms' ∧
    total_mmap_size ms' = total_mmap_size ms ∧ page_table ms' = page_table ms ∧ inserted (areas ms) a (areas ms') ∧
    frames_wf (areas ms') ∧ addr = area_start a * PAGE_SIZE ∧ area_end a = area_start a + page_count len ∧
    page_attr a (area_start a) = mkAttr Framed perm k flags (groupid a)
      (match mf_source file with Anonymous => None | src => Some (src, wrap64 (mf_offset file)) end).
Proof.
  intros Hwf Hfr Hl (s&->&Hs&Ht&Hfree). pose proof (page_count_bounds len Hl) as Hn.
  assert (MMAP_TOP ≤ USER_SPACE_SIZE) as Htop by (vm_compute; discriminate).
  assert (s + page_count len ≤ 2 ^ 26) as Hend by (unfold PAGE_SIZE, USER_SPACE_SIZE in *; lia).
  rewrite wrap64_small by (unfold is_usize, PAGE_SIZE, USER_SPACE_SIZE, usize_max in *; lia).
  pose proof (vpn_floor_ok (s * PAGE_SIZE) ltac:(unfold PAGE_SIZE in *; lia)) as E1.
  pose proof (vpn_ceil_ok (s * PAGE_SIZE + len) ltac:(unfold PAGE_SIZE in *; lia)) as E2.
  rewrite ceil_place in E2 by done. unfold vpn_floor, vpn_ceil in *.
  destruct (virt_addr_from_usize (s * PAGE_SIZE)) as [sv|]; [|done].
  destruct (virt_addr_from_usize (s * PAGE_SIZE + len)) as [ev|]; [|done].
  cbn [mbind comp_bind] in *. injection E1 as E1. injection E2 as E2.
  replace (floor (s * PAGE_SIZE)) with s in E1 by (unfold floor; by rewrite Z.div_mul).
  assert (∃ g' id, new_mmap g sv ev Framed perm k flags file =
    Done (g', mkArea (mkRange s (s + page_count len)) ∅ Framed perm k file flags id)) as (g'&id&Hnew).
  { unfold new_mmap. destruct (if contains flags MAP_SHARED then _ else _) as [g' id].
    rewrite E1, E2, range_new_ok by lia. by exists g', id. }
  set (a := mkArea _ _ _ _ _ _ _ _) in *.
  destruct (insert_area_inserted (areas ms) a) as (l&Hins&Hinsd); [done| |intros v Hv%holds_spec; by apply Hfree|].
  { split; [|split; [|done]]; unfold area_start, area_end; simpl; lia. }
  exists sv, ev, g', a, (set_areas ms l). unfold push_lazily. rewrite Hins. repeat (split; [done|]). split; [|split; [done|split; [done|]]].
  - apply (ins_frames _ _ _ Hinsd); [done|]. intros v f Hf. simpl in Hf. by rewrite lookup_empty in Hf.
  - unfold page_attr. rewrite Z.sub_diag, Z.mul_0_l, Z.add_0_r. done.
Qed.
End mmap_proofs.


