(* ===== verification/Mprotect.v ===== *)
(** * What [mprotect] does to the pages

    The proofs about [mprotect] of [Mmap]: the areas are split so that exactly
    the pages of the range get the new permission; and where the frames go. *)

From S2P Require Import Prelude Errno Address FrameAlloc PageTable MapArea AreaSet AreaPt Mmap.

(** ** Moving frames *)

Section pop.
Context (better : Z → Z → Z) (le : Z → Z → Prop).
Context (le_refl : ∀ x, le x x) (le_trans : ∀ x y z, le x y → le y z → le x z).
Context (le_l : ∀ x y, le x (better x y)) (le_r : ∀ x y, le y (better x y)).
Context (sel : ∀ x y, better x y = x ∨ better x y = y).

Lemma fold_best (r : list (Z * Z)) v0 :
  let v := foldr (λ p m, better p.1 m) v0 r in
  (v = v0 ∨ v ∈ r.*1) ∧ le v0 v ∧ ∀ w, w ∈ r.*1 → le w v.
Proof.
  induction r as [|[w f] r (Hin&H0&Hall)]; simpl; [split; [by left|]; split; [done|intros ? []%elem_of_nil]|].
  set (v := foldr _ _ _) in *. destruct (sel w v) as [E|E]; rewrite E.
  - split; [right; left|]. pose proof (le_r w v) as Hr. rewrite E in Hr. split; [by eapply le_trans|].
    intros x [->|Hx]%elem_of_cons; [done|]. eapply le_trans; [by apply Hall|done].
  - split; [destruct Hin; [by left|right; by right]|]. split; [done|].
    intros x [->|Hx]%elem_of_cons; [|by apply Hall]. rewrite <- E. apply le_l.
Qed.

Lemma pop_key_spec d :
  match pop_key better d with
  | None => d = ∅
  | Some (v, f, d') => d !! v = Some f ∧ d' = delete v d ∧ ∀ w g, d !! w = Some g → le w v
  end.
Proof.
  unfold pop_key. destruct (map_to_list d) as [|[v0 f0] r] eqn:Hl; [by apply map_to_list_empty_iff|].
  destruct (fold_best r v0) as (Hin&H0&Hall). set (v := foldr _ _ _) in *.
  assert (∀ w g, d !! w = Some g ↔ (w, g) ∈ (v0, f0) :: r) as Hm.
  { intros w g. by rewrite <- Hl, elem_of_map_to_list. }
  assert (is_Some (d !! v)) as [f Hf].
  { destruct Hin as [->|((w&g)&Hw&Hin)%list_elem_of_fmap]; [exists f0; apply Hm; left|].
    simpl in Hw. subst w. exists g. apply Hm. by right. }
  rewrite Hf. simpl. split; [done|]. split; [done|].
  intros w g [[= -> ->]|Hw]%Hm%elem_of_cons; [done|]. apply Hall. by apply (list_elem_of_fmap_2 fst r (w, g)).
Qed.
End pop.

Lemma pop_last_spec d :
  match pop_last d with
  | None => d = ∅
  | Some (v, f, d') => d !! v = Some f ∧ d' = delete v d ∧ ∀ w g, d !! w = Some g → w ≤ v
  end.
Proof. apply (pop_key_spec Z.max Z.le); lia. Qed.

Lemma pop_first_spec d :
  match pop_first d with
  | None => d = ∅
  | Some (v, f, d') => d !! v = Some f ∧ d' = delete v d ∧ ∀ w g, d !! w = Some g → v ≤ w
  end.
Proof. apply (pop_key_spec Z.min (λ x y, y ≤ x)); lia. Qed.

Lemma size_delete_lt (d : gmap Z Z) v f n : d !! v = Some f → (size d ≤ S n)%nat → (size (delete v d) ≤ n)%nat.
Proof. intros Hv Hs. rewrite map_size_delete_Some by eauto. lia. Qed.

(** The loops sort the frames by the boundary. *)
Ltac by_pages :=
  apply map_eq; intros w; rewrite ?lookup_union, ?frames_from_lookup, ?frames_below_lookup, ?lookup_empty.

Lemma sort_empty k moved : frames_from ∅ k = ∅ ∧ frames_below ∅ k = ∅ ∧ ∅ ∪ moved = (moved : gmap Z Z).
Proof. split; [apply map_filter_empty|]. split; [apply map_filter_empty|]. apply (left_id_L ∅ (∪)). Qed.

Lemma move_below_spec fuel k d moved :
  (size d ≤ fuel)%nat → move_below fuel k d moved = (frames_from d k, frames_below d k ∪ moved).
Proof.
  revert d moved. induction fuel as [|fuel IH]; intros d moved Hs; cbn [move_below].
  { assert (d = ∅) as -> by (apply map_size_empty_inv; lia).
    destruct (sort_empty k moved) as (->&->&->). done. }
  pose proof (pop_first_spec d) as Hp. destruct (pop_first d) as [[[v f] d']|].
  2: { subst d. destruct (sort_empty k moved) as (->&->&->). done. }
  destruct Hp as (Hv&->&Hmin). destruct (Z.leb_spec k v) as [Hle|Hlt].
  - rewrite insert_delete_id by done.
    assert (∀ w, w < k → d !! w = None) as Hn.
    { intros w Hw. destruct (d !! w) eqn:E; [|done]. apply Hmin in E. lia. }
    f_equal; by_pages; case_decide; rewrite ?Hn by lia; try done; by destruct (moved !! w).
  - rewrite IH by by eapply size_delete_lt. f_equal; by_pages.
    + case_decide; [|done]. by rewrite lookup_delete_ne by lia.
    + destruct (decide (w = v)) as [->|]; rewrite ?lookup_delete_eq, ?lookup_insert_eq, ?lookup_delete_ne,
        ?lookup_insert_ne by done; [|done].
      rewrite Hv, !decide_True by lia. by destruct (moved !! v).
Qed.

Lemma move_from_spec fuel k d moved :
  (size d ≤ fuel)%nat → move_from fuel k d moved = (frames_below d k, frames_from d k ∪ moved).
Proof.
  revert d moved. induction fuel as [|fuel IH]; intros d moved Hs; cbn [move_from].
  { assert (d = ∅) as -> by (apply map_size_empty_inv; lia).
    destruct (sort_empty k moved) as (->&->&->). done. }
  pose proof (pop_last_spec d) as Hp. destruct (pop_last d) as [[[v f] d']|].
  2: { subst d. destruct (sort_empty k moved) as (->&->&->). done. }
  destruct Hp as (Hv&->&Hmax). destruct (Z.ltb_spec v k) as [Hlt|Hle].
  - rewrite insert_delete_id by done.
    assert (∀ w, k ≤ w → d !! w = None) as Hn.
    { intros w Hw. destruct (d !! w) eqn:E; [|done]. apply Hmax in E. lia. }
    f_equal; by_pages; case_decide; rewrite ?Hn by lia; try done; by destruct (moved !! w).
  - rewrite IH by by eapply size_delete_lt. f_equal; by_pages.
    + case_decide; [|done]. by rewrite lookup_delete_ne by lia.
    + destruct (decide (w = v)) as [->|]; rewrite ?lookup_delete_eq, ?lookup_insert_eq, ?lookup_delete_ne,
        ?lookup_insert_ne by done; [|done].
      rewrite Hv, !decide_True by lia. by destruct (moved !! v).
Qed.

(** The loop of case 2 stops at the boundary only if the boundary page is
    resident; otherwise it takes every frame. *)
Lemma move_down_spec fuel k d moved :
  (size d ≤ fuel)%nat →
  move_down_to fuel k d moved =
    if decide (is_Some (d !! k)) then (frames_below d k, frames_from d k ∪ moved) else (∅, d ∪ moved).
Proof.
  revert d moved. induction fuel as [|fuel IH]; intros d moved Hs; cbn [move_down_to].
  { assert (d = ∅) as -> by (apply map_size_empty_inv; lia). rewrite decide_False by (by intros [? ?]).
    by rewrite (left_id_L ∅ (∪)). }
  pose proof (pop_last_spec d) as Hp. destruct (pop_last d) as [[[v f] d']|].
  2: { subst d. rewrite decide_False by (by intros [? ?]). by rewrite (left_id_L ∅ (∪)). }
  destruct Hp as (Hv&->&Hmax). destruct (Z.eqb_spec v k) as [->|Hne].
  - rewrite decide_True by eauto. f_equal; by_pages.
    + destruct (decide (w = k)) as [->|]; [rewrite lookup_delete_eq, decide_False by lia; done|].
      rewrite lookup_delete_ne by done. case_decide; [done|]. destruct (d !! w) eqn:E; [apply Hmax in E; lia|done].
    + destruct (decide (w = k)) as [->|].
      { rewrite lookup_insert_eq, decide_True, Hv by lia. by destruct (moved !! k). }
      rewrite lookup_insert_ne by done. case_decide; [|by destruct (moved !! w)].
      destruct (d !! w) eqn:E; [apply Hmax in E; lia|by destruct (moved !! w)].
  - rewrite IH by by eapply size_delete_lt. rewrite lookup_delete_ne by done.
    assert (∀ w, (delete v d ∪ <[v := f]> moved) !! w = (d ∪ moved) !! w) as Hu.
    { intros w. rewrite !lookup_union. destruct (decide (w = v)) as [->|].
      - rewrite lookup_delete_eq, lookup_insert_eq, Hv. by destruct (moved !! v).
      - by rewrite lookup_delete_ne, lookup_insert_ne. }
    case_decide as Hk; [|f_equal; by apply map_eq]. destruct Hk as [fk Hfk].
    assert (k < v) by (apply Hmax in Hfk; lia). f_equal; by_pages.
    + destruct (decide (w = v)) as [->|]; [|by rewrite lookup_delete_ne].
      rewrite !decide_False by lia. done.
    + destruct (decide (w = v)) as [->|].
      * rewrite lookup_delete_eq, lookup_insert_eq, Hv. case_decide; [|lia]. by destruct (moved !! v).
      * by rewrite lookup_delete_ne, lookup_insert_ne.
Qed.

(** ** The parts of one area *)

Definition with_perm (perm : Z) (t : PageAttr) : PageAttr :=
  mkAttr (at_map t) perm (at_area t) (at_flags t) (at_group t) (at_file t).
Definition protect (s e perm v : Z) (t : PageAttr) : PageAttr :=
  if in_range s e v then with_perm perm t else t.

(** The condition under which the frames follow their pages: an area cut at [s]
    has the page [s] resident, or no page before it. *)
Definition cut_resident (s e : Z) (a : MapArea) : Prop :=
  area_start a < s → s < area_end a → area_end a ≤ e →
  is_Some (data_frames a !! s) ∨ ∀ v f, data_frames a !! v = Some f → s ≤ v.

Record tiles (s e perm : Z) (a : MapArea) (ps : list MapArea) : Prop := {
  ti_ok : Forall area_ok ps;
  ti_apart : all_apart ps;
  ti_in p : p ∈ ps → area_start a ≤ area_start p ∧ area_end p ≤ area_end a;
  ti_cover v : holds a v = true → ∃ p, p ∈ ps ∧ holds p v = true;
  ti_attr p v : p ∈ ps → holds p v = true → page_attr p v = protect s e perm v (page_attr a v);
  ti_frames : frames_in a → cut_resident s e a → Forall frames_in ps ∧
    ∀ p v, p ∈ ps → holds p v = true → data_frames p !! v = data_frames a !! v
}.

(** One tile: a sub-range on one side of the boundaries. *)
Record tile (s e perm : Z) (a : MapArea) (x y : Z) (p : MapArea) : Prop := {
  tl_range : vpn_range p = mkRange x y;
  tl_sub : area_start a ≤ x < y ∧ y ≤ area_end a;
  tl_type : map_type p = map_type a;
  tl_attr v : x ≤ v < y → page_attr p v = protect s e perm v (page_attr a v);
  tl_frames : frames_in a → cut_resident s e a →
    ∀ v, data_frames p !! v = if decide (x ≤ v < y) then data_frames a !! v else None
}.

Lemma tile_bounds s e perm a x y p : tile s e perm a x y p → area_start p = x ∧ area_end p = y.
Proof. intros Ht. unfold area_start, area_end. by rewrite (tl_range _ _ _ _ _ _ _ Ht). Qed.

Lemma tile_holds s e perm a x y p v : tile s e perm a x y p → holds p v = true ↔ x ≤ v < y.
Proof. intros Ht. destruct (tile_bounds _ _ _ _ _ _ _ Ht) as [E1 E2]. by rewrite holds_spec, E1, E2. Qed.

Lemma tile_ok s e perm a x y p : area_ok a → tile s e perm a x y p → area_ok p.
Proof.
  intros (?&?&?) Ht. destruct (tile_bounds _ _ _ _ _ _ _ Ht) as [E1 E2]. destruct Ht as [_ ? Hty _ _].
  unfold area_ok. rewrite E1, E2, Hty. split; [lia|]. split; [lia|done].
Qed.

(** Consecutive tiles from the start to the end of the area cover it. *)
Inductive tiled (s e perm : Z) (a : MapArea) : Z → list MapArea → Prop :=
| tiled_nil : tiled s e perm a (area_end a) []
| tiled_cons x y p ps : tile s e perm a x y p → tiled s e perm a y ps → tiled s e perm a x (p :: ps).

Lemma tiled_facts s e perm a x ps : area_ok a → tiled s e perm a x ps →
  Forall area_ok ps ∧ all_apart ps ∧
  (∀ p, p ∈ ps → x ≤ area_start p ∧ area_start a ≤ area_start p ∧ area_end p ≤ area_end a) ∧
  (∀ v, x ≤ v < area_end a → ∃ p, p ∈ ps ∧ holds p v = true) ∧
  ∀ p, p ∈ ps → ∃ x y, tile s e perm a x y p.
Proof.
  intros Ha. induction 1 as [|x y p ps Ht _ (Hok&Hap&Hin&Hcov&Hall)].
  { split; [constructor|]. split; [constructor|]. split; [by intros ? []%elem_of_nil|].
    split; [lia|by intros ? []%elem_of_nil]. }
  destruct (tile_bounds _ _ _ _ _ _ _ Ht) as [E1 E2]. pose proof (tl_sub _ _ _ _ _ _ _ Ht) as Hsub.
  split; [constructor; [by eapply tile_ok|done]|]. split; [|split; [|split]].
  - apply all_apart_cons. split; [|done]. apply Forall_forall. intros q Hq. left. specialize (Hin q Hq). lia.
  - intros q [->|Hq]%elem_of_cons; [lia|]. specialize (Hin q Hq). lia.
  - intros v Hv. destruct (decide (v < y)).
    + exists p. split; [left|]. apply (tile_holds _ _ _ _ _ _ _ v Ht). lia.
    + destruct (Hcov v ltac:(lia)) as (q&?&?). exists q. split; [by right|done].
  - intros q [->|Hq]%elem_of_cons; eauto.
Qed.

Lemma tiled_tiles s e perm a ps : area_ok a → tiled s e perm a (area_start a) ps → tiles s e perm a ps.
Proof.
  intros Ha Ht. destruct (tiled_facts _ _ _ _ _ _ Ha Ht) as (Hok&Hap&Hin&Hcov&Hall). split; [done|done| | | |].
  - intros p Hp. specialize (Hin p Hp). lia.
  - intros v Hv%holds_spec. by apply Hcov.
  - intros p v Hp Hv. destruct (Hall p Hp) as (x&y&Hpt). apply (tl_attr _ _ _ _ _ _ _ Hpt).
    by apply (tile_holds _ _ _ _ _ _ _ v Hpt).
  - intros Hf Hc. split.
    + apply Forall_forall. intros p Hp v f Hpf. destruct (Hall p Hp) as (x&y&Hpt).
      rewrite (tl_frames _ _ _ _ _ _ _ Hpt Hf Hc) in Hpf. apply (tile_holds _ _ _ _ _ _ _ v Hpt).
      by case_decide.
    + intros p v Hp Hv. destruct (Hall p Hp) as (x&y&Hpt). rewrite (tl_frames _ _ _ _ _ _ _ Hpt Hf Hc).
      apply (tile_holds _ _ _ _ _ _ _ v Hpt) in Hv. by rewrite decide_True.
Qed.

(** The order of the parts does not matter. *)
Lemma tiles_perm s e perm a ps qs : ps ≡ₚ qs → tiles s e perm a ps → tiles s e perm a qs.
Proof.
  intros Hp [Hok Hap Hin Hcov Hat Hfr]. split.
  - by rewrite <- Hp.
  - by rewrite <- Hp.
  - intros p. rewrite <- Hp. apply Hin.
  - intros v Hv. setoid_rewrite <- Hp. by apply Hcov.
  - intros p v. rewrite <- Hp. apply Hat.
  - intros Hf Hc. destruct (Hfr Hf Hc) as [H1 H2]. split; [by rewrite <- Hp|]. intros p v. rewrite <- Hp. apply H2.
Qed.

Lemma protect_in s e perm v t : s ≤ v < e → with_perm perm t = protect s e perm v t.
Proof. intros Hv. unfold protect. by rewrite (proj2 (in_range_spec s e v)). Qed.

Lemma protect_out s e perm v t : ¬ s ≤ v < e → t = protect s e perm v t.
Proof. intros Hv. unfold protect. destruct (in_range s e v) eqn:Hr; [|done]. by apply in_range_spec in Hr. Qed.

(** Frames selected by a condition that agrees with the tile inside the area. *)
Lemma tile_frames_eq a (keep : Z → Prop) `{!∀ v, Decision (keep v)} x y v :
  frames_in a → (holds a v = true → keep v ↔ x ≤ v < y) →
  (if decide (keep v) then data_frames a !! v else None) = if decide (x ≤ v < y) then data_frames a !! v else None.
Proof.
  intros Hf Hk. destruct (data_frames a !! v) as [f|] eqn:E; [|by repeat case_decide].
  specialize (Hk (Hf v f E)). repeat case_decide; tauto || done.
Qed.

Section protect_area.
Context (g : GroupManager) (a : MapArea) (s e perm : Z) (Ha : area_ok a) (Hse : s < e).
Let d := data_frames a.

Lemma tile_whole p : s ≤ area_start a → area_end a ≤ e → p = set_perm a perm →
  tile s e perm a (area_start a) (area_end a) p.
Proof.
  intros H1 H2 ->. pose proof (proj1 Ha). split; [by destruct a as [[]]|lia|done| |].
  - intros v Hv. change (page_attr (set_perm a perm) v) with (with_perm perm (page_attr a v)). apply protect_in. lia.
  - intros Hf _ v. simpl. rewrite <- (tile_frames_eq a (λ _, True) (area_start a) (area_end a) v); [by rewrite decide_True|done|].
    rewrite holds_spec. tauto.
Qed.

Lemma tile_untouched : area_end a ≤ s ∨ e ≤ area_start a → tile s e perm a (area_start a) (area_end a) a.
Proof.
  intros Hout. pose proof (proj1 Ha). split; [by destruct a as [[]]|lia|done| |].
  - intros v Hv. apply protect_out. lia.
  - intros Hf _ v. rewrite <- (tile_frames_eq a (λ _, True) (area_start a) (area_end a) v); [by rewrite decide_True|done|].
    rewrite holds_spec. tauto.
Qed.

(** A tile between [x] and [y], with the new permission if it is in the range. *)
Lemma tile_intro p x y (q : Z) (keep : Z → Prop) `{!∀ v, Decision (keep v)} :
  vpn_range p = mkRange x y → area_start a ≤ x < y → y ≤ area_end a → map_type p = map_type a →
  s ≤ x ∧ y ≤ e ∧ q = perm ∨ (y ≤ s ∨ e ≤ x) ∧ q = map_perm a →
  (∀ v, page_attr p v = with_perm q (page_attr a v)) →
  (frames_in a → cut_resident s e a → ∀ v, data_frames p !! v = if decide (keep v) then d !! v else None) →
  (∀ v, holds a v = true → keep v ↔ x ≤ v < y) →
  tile s e perm a x y p.
Proof.
  intros Hr Hx Hy Ht Hq Hattr Hf Hk. split; [done|lia|done| |].
  - intros v Hv. rewrite Hattr. destruct Hq as [(?&?&->)|(?&->)].
    + apply protect_in. lia.
    + rewrite <- protect_out by lia. by destruct a as [? ? ? ? ? ? ? ?].
  - intros Fa Hc v. rewrite Hf by done. apply tile_frames_eq; [done|]. apply Hk.
Qed.

Lemma attr_kept v : page_attr a v = with_perm (map_perm a) (page_attr a v).
Proof. done. Qed.

Lemma case2_tiles : area_start a < s → s < area_end a → area_end a ≤ e →
  ∃ g' a' p, protect_area g a s e perm = Done (g', a', [p]) ∧ tiled s e perm a (area_start a) [a'; p].
Proof.
  intros H1 H2 H3. unfold protect_area. rewrite (proj2 (Z.leb_gt s (area_start a))) by lia.
  rewrite (proj2 (Z.ltb_lt (area_start a) s)), (proj2 (Z.ltb_lt s (area_end a))), (proj2 (Z.leb_le (area_end a) e)) by lia.
  cbn [andb]. rewrite !range_new_ok by lia. cbn [mbind comp_bind]. rewrite move_down_spec by done. fold d.
  assert (cut_resident s e a → frames_in a → ¬ is_Some (d !! s) → ∀ v, holds a v = true → d !! v = None ∨ s ≤ v) as Hb.
  { intros Hc Hf Hn v Hv. destruct (d !! v) as [f|] eqn:E; [|by left]. right.
    destruct (Hc H1 H2 H3) as [?|Hall]; [done|]. by eapply Hall. }
  set (l := if decide _ then _ else _). destruct l as [stay moved] eqn:El. subst l.
  eexists _, _, _. split; [done|].
  assert (cut_resident s e a → frames_in a →
    (∀ v, stay !! v = if decide (v < s) then d !! v else None) ∧
    (∀ v, moved !! v = if decide (s ≤ v) then d !! v else None)) as Hsm.
  { intros Hc Hf. destruct (decide (is_Some (d !! s))) as [Hr|Hr]; injection El as <- <-.
    - split; intros v; [by rewrite frames_below_lookup|]. by rewrite lookup_union, frames_from_lookup, lookup_empty,
        (right_id_L None (∪)).
    - specialize (Hb Hc Hf Hr).
      assert (∀ v, ¬ s ≤ v → d !! v = None) as Hlow.
      { intros v Hv. destruct (d !! v) as [f|] eqn:E; [|done]. destruct (Hb v (Hf v f E)); [congruence|lia]. }
      split; intros v; rewrite ?lookup_union, ?lookup_empty, ?(right_id_L None (∪)); case_decide; try done;
        rewrite Hlow by lia; done. }
  eapply tiled_cons; [|eapply tiled_cons; [|constructor]].
  - apply (tile_intro _ _ s (map_perm a) (λ v, v < s)); try done; try lia.
    + intros Hf Hc. apply (Hsm Hc Hf).
    + intros v. rewrite holds_spec. lia.
  - apply (tile_intro _ s _ perm (λ v, s ≤ v)); try done; try lia.
    + intros v. rewrite page_attr_frames. apply (page_attr_shift (set_perm (area_from_another a) perm)).
    + intros Hf Hc. apply (Hsm Hc Hf).
    + intros v. rewrite holds_spec. lia.
Qed.

Lemma case3_tiles : s ≤ area_start a → area_start a < e → e < area_end a →
  ∃ g' a' p, protect_area g a s e perm = Done (g', a', [p]) ∧ tiled s e perm a (area_start a) [p; a'].
Proof.
  intros H1 H2 H3. unfold protect_area.
  rewrite (proj2 (Z.leb_le s (area_start a))), (proj2 (Z.leb_gt (area_end a) e)) by lia.
  rewrite (proj2 (Z.ltb_ge (area_start a) s)), (proj2 (Z.ltb_lt (area_start a) e)), (proj2 (Z.ltb_lt e (area_end a))) by lia.
  cbn [andb]. rewrite !range_new_ok by lia. cbn [mbind comp_bind]. rewrite move_below_spec by done. fold d.
  eexists _, _, _. split; [done|]. eapply tiled_cons; [|eapply tiled_cons; [|constructor]].
  - apply (tile_intro _ _ e perm (λ v, v < e)); try done; try lia.
    + intros _ _ v. simpl. by rewrite lookup_union, frames_below_lookup, lookup_empty, (right_id_L None (∪)).
    + intros v. rewrite holds_spec. lia.
  - apply (tile_intro _ e _ (map_perm a) (λ v, e ≤ v)); try done; try lia.
    + intros v. rewrite page_attr_frames, page_attr_shift. apply attr_kept.
    + intros _ _ v. simpl. by rewrite frames_from_lookup.
    + intros v. rewrite holds_spec. lia.
Qed.

Lemma case4_tiles : area_start a < s → e < area_end a →
  ∃ g' a' p q, protect_area g a s e perm = Done (g', a', [p; q]) ∧ tiled s e perm a (area_start a) [p; a'; q].
Proof.
  intros H1 H2. unfold protect_area.
  rewrite (proj2 (Z.leb_gt s (area_start a))), (proj2 (Z.leb_gt (area_end a) e)) by lia. rewrite !andb_false_r.
  rewrite (proj2 (Z.ltb_lt (area_start a) s)), (proj2 (Z.ltb_lt e (area_end a))) by lia.
  cbn [andb]. rewrite !range_new_ok by lia. cbn [mbind comp_bind]. rewrite move_below_spec by done. fold d.
  rewrite move_from_spec by done.
  eexists _, _, _, _. split; [done|]. eapply tiled_cons; [|eapply tiled_cons; [|eapply tiled_cons; [|constructor]]].
  - apply (tile_intro _ _ s (map_perm a) (λ v, v < s)); try done; try lia.
    + intros _ _ v. simpl. by rewrite lookup_union, frames_below_lookup, lookup_empty, (right_id_L None (∪)).
    + intros v. rewrite holds_spec. lia.
  - apply (tile_intro _ s e perm (λ v, s ≤ v < e)); try done; try lia.
    + intros v. rewrite page_attr_frames. apply (page_attr_shift (set_perm a perm)).
    + intros _ _ v. simpl. rewrite frames_below_lookup, frames_from_lookup. repeat case_decide; lia || done.
  - apply (tile_intro _ e _ (map_perm a) (λ v, e ≤ v)); try done; try lia.
    + intros v. rewrite page_attr_frames. rewrite (page_attr_shift (area_from_another a)). apply attr_kept.
    + intros _ _ v. simpl. rewrite lookup_union, !frames_from_lookup, lookup_empty, (right_id_L None (∪)).
      repeat case_decide; lia || done.
    + intros v. rewrite holds_spec. lia.
Qed.

(** In every case the area in place and the new ones tile the old area. *)
Lemma protect_area_tiles :
  ∃ g' a' new, protect_area g a s e perm = Done (g', a', new) ∧ tiles s e perm a (a' :: new) ∧
    area_start a ≤ area_start a' ∧ area_end a' ≤ area_end a.
Proof.
  assert (∀ g' a' new ps, protect_area g a s e perm = Done (g', a', new) →
    tiled s e perm a (area_start a) ps → ps ≡ₚ a' :: new →
    ∃ g' a' new, protect_area g a s e perm = Done (g', a', new) ∧ tiles s e perm a (a' :: new) ∧
      area_start a ≤ area_start a' ∧ area_end a' ≤ area_end a) as Hdone.
  { intros g' a' new ps Heq Ht Hp. exists g', a', new. split; [done|].
    assert (tiles s e perm a (a' :: new)) as Hti by (eapply tiles_perm; [done|by apply tiled_tiles]).
    split; [done|]. apply (ti_in _ _ _ _ _ Hti). left. }
  pose proof (proj1 Ha) as Hrng.
  destruct (decide (s ≤ area_start a)) as [H1|H1], (decide (area_end a ≤ e)) as [H2|H2].
  - eapply Hdone; [|eapply tiled_cons; [by eapply tile_whole|constructor]|done]. unfold protect_area.
    by rewrite (proj2 (Z.leb_le s (area_start a))), (proj2 (Z.leb_le (area_end a) e)) by lia.
  - destruct (decide (area_start a < e)) as [H3|H3].
    + destruct case3_tiles as (g'&a'&p&Heq&Ht); [lia..|]. eapply Hdone; [done|done|]. apply Permutation_swap.
    + eapply Hdone; [|eapply tiled_cons; [apply tile_untouched; lia|constructor]|done]. unfold protect_area.
      rewrite (proj2 (Z.leb_gt (area_end a) e)), (proj2 (Z.ltb_ge (area_start a) s)), (proj2 (Z.ltb_ge (area_start a) e)) by lia.
      rewrite !andb_false_r. done.
  - destruct (decide (s < area_end a)) as [H3|H3].
    + destruct case2_tiles as (g'&a'&p&Heq&Ht); [lia..|]. by eapply Hdone.
    + eapply Hdone; [|eapply tiled_cons; [apply tile_untouched; lia|constructor]|done]. unfold protect_area.
      rewrite (proj2 (Z.leb_gt s (area_start a))), (proj2 (Z.ltb_ge s (area_end a))), (proj2 (Z.ltb_ge e (area_end a))) by lia.
      rewrite !andb_false_r. done.
  - destruct case4_tiles as (g'&a'&p&q&Heq&Ht); [lia..|]. eapply Hdone; [done|done|]. apply Permutation_swap.
Qed.
End protect_area.

(** ** All areas *)

Lemma areas_wf_shrink l l' :
  areas_wf l → Forall2 (λ a a', area_ok a' ∧ area_start a ≤ area_start a' ∧ area_end a' ≤ area_end a) l l' → areas_wf l'.
Proof.
  intros Hwf Hsh. induction Hsh as [|a a' l l' (Hok&Hs&He) Hsh IH]; [apply areas_wf_nil|].
  apply areas_wf_cons in Hwf as (_&Hb&Hwf). apply areas_wf_cons. split; [done|]. split; [|auto].
  rewrite Forall_forall in *. intros b' Hb'. apply list_elem_of_lookup in Hb' as [i Hi].
  destruct (Forall2_lookup_r _ _ _ _ _ Hsh Hi) as (b&Hbi&_&?&_).
  specialize (Hb b ltac:(by eapply list_elem_of_lookup_2)). unfold area_before in *. lia.
Qed.

Section tiling.
Context (s e perm : Z).

Lemma protect_areas_spec g l :
  areas_wf l → s < e →
  ∃ g' l' news pss, protect_areas g l s e perm = Done (g', l', news) ∧ areas_wf l' ∧
    Forall2 (tiles s e perm) l pss ∧ l' ++ news ≡ₚ concat pss.
Proof.
  intros Hwf Hse. assert (∃ g' l' news pss, protect_areas g l s e perm = Done (g', l', news) ∧
    Forall2 (λ a a', area_ok a' ∧ area_start a ≤ area_start a' ∧ area_end a' ≤ area_end a) l l' ∧
    Forall2 (tiles s e perm) l pss ∧ l' ++ news ≡ₚ concat pss) as (g'&l'&news&pss&?&?&?&?).
  { pose proof (wf_areas _ Hwf) as Hok. clear Hwf. revert g. induction Hok as [|a l Ha Hok IH]; intros g; cbn [protect_areas].
    { by exists g, [], [], []. }
    destruct (protect_area_tiles g a s e perm Ha Hse) as (g1&a'&new&->&Hti&Hs&He). cbn [mbind comp_bind].
    destruct (IH g1) as (g'&l'&news&pss&->&Hsh&Hall&Hp). cbn [mbind comp_bind].
    exists g', (a' :: l'), (new ++ news), ((a' :: new) :: pss). split; [done|].
    split; [constructor; [|done]|split; [by constructor|]].
    - split; [|done]. pose proof (ti_ok _ _ _ _ _ Hti) as Hoks. by apply Forall_cons in Hoks as [? _].
    - simpl. rewrite <- Hp, !(assoc_L (++)), (Permutation_app_comm l' new). done. }
  exists g', l', news, pss. split; [done|]. split; [by eapply areas_wf_shrink|done].
Qed.

Lemma tiles_holds a ps p v : tiles s e perm a ps → p ∈ ps → holds p v = true → holds a v = true.
Proof. intros Ht Hp Hv%holds_spec. apply holds_spec. pose proof (ti_in _ _ _ _ _ Ht p Hp). lia. Qed.

Lemma concat_apart l pss : areas_wf l → Forall2 (tiles s e perm) l pss → all_apart (concat pss).
Proof.
  intros Hwf Hall. induction Hall as [|a ps l pss Ht Hall IH]; [constructor|].
  apply areas_wf_cons in Hwf as (_&Hb&Hwf). simpl. apply StronglySorted_app_2; [|apply Ht|by apply IH].
  intros p q Hp Hq. apply elem_of_concat in Hq as (qs&Hq&Hqs). apply list_elem_of_lookup in Hqs as [i Hi].
  destruct (Forall2_lookup_r _ _ _ _ _ Hall Hi) as (b&Hbi&Htb). left.
  pose proof (ti_in _ _ _ _ _ Ht p Hp). pose proof (ti_in _ _ _ _ _ Htb q Hq).
  rewrite Forall_forall in Hb. specialize (Hb b ltac:(by eapply list_elem_of_lookup_2)). unfold area_before in *. lia.
Qed.

(** The page of a tile is the page of its area. *)
Lemma lookup_concat l pss v :
  areas_wf l → Forall2 (tiles s e perm) l pss →
  match lookup_area l v with
  | None => lookup_area (concat pss) v = None
  | Some a => ∃ ps p, tiles s e perm a ps ∧ p ∈ ps ∧ holds p v = true ∧ lookup_area (concat pss) v = Some p
  end.
Proof.
  intros Hwf Hall. pose proof (concat_apart l pss Hwf Hall) as Hap. destruct (lookup_area l v) as [a|] eqn:Hl.
  - apply lookup_area_Some in Hl as [Hin Hv]. apply list_elem_of_lookup in Hin as [i Hi].
    destruct (Forall2_lookup_l _ _ _ _ _ Hall Hi) as (ps&Hps&Ht).
    destruct (ti_cover _ _ _ _ _ Ht v Hv) as (p&Hp&Hpv). exists ps, p. split; [done|]. split; [done|]. split; [done|].
    apply lookup_area_apart; [done| |done]. apply elem_of_concat. exists ps. split; [done|]. by eapply list_elem_of_lookup_2.
  - apply lookup_area_None. rewrite lookup_area_None in Hl. intros p Hp. destruct (holds p v) eqn:Hpv; [|done].
    apply elem_of_concat in Hp as (ps&Hp&Hps). apply list_elem_of_lookup in Hps as [i Hi].
    destruct (Forall2_lookup_r _ _ _ _ _ Hall Hi) as (a&Hai&Ht). specialize (Hl a ltac:(by eapply list_elem_of_lookup_2)).
    by rewrite (tiles_holds a ps p v Ht Hp Hpv) in Hl.
Qed.

Lemma concat_attr l pss v : areas_wf l → Forall2 (tiles s e perm) l pss →
  attr_at (concat pss) v = protect s e perm v <$> attr_at l v.
Proof.
  intros Hwf Hall. pose proof (lookup_concat l pss v Hwf Hall) as Hl. unfold attr_at.
  destruct (lookup_area l v) as [a|]; [|by rewrite Hl]. destruct Hl as (ps&p&Ht&Hp&Hv&->). simpl. f_equal.
  by apply (ti_attr _ _ _ _ _ Ht).
Qed.

Lemma concat_frames l pss : areas_wf l → Forall2 (tiles s e perm) l pss →
  frames_wf l → Forall (cut_resident s e) l →
  frames_wf (concat pss) ∧ ∀ v, frame_at (concat pss) v = frame_at l v.
Proof.
  intros Hwf Hall Hf Hc. split.
  - clear Hwf. unfold frames_wf in *. induction Hall as [|a ps l pss Ht Hall IH]; [constructor|]. simpl.
    apply Forall_cons in Hf as [Ha Hf]. apply Forall_cons in Hc as [Hca Hc]. apply Forall_app. split; [|auto]. by apply Ht.
  - intros v. pose proof (lookup_concat l pss v Hwf Hall) as Hl. unfold frame_at.
    destruct (lookup_area l v) as [a|] eqn:Hla; [|by rewrite Hl]. destruct Hl as (ps&p&Ht&Hp&Hv&->). simpl.
    apply lookup_area_Some in Hla as [Hin _]. unfold frames_wf in Hf. rewrite Forall_forall in Hf, Hc.
    destruct (ti_frames _ _ _ _ _ Ht) as [_ E]; [by apply Hf|by apply Hc|]. by apply E.
Qed.
End tiling.

(** ** Inserting the new areas *)

Section push.
Context `{PageTableLaws PT}.
Implicit Types ms : MemorySetInner PT.

Lemma push_all_spec ms news :
  areas_wf (areas ms) → Forall area_ok news → all_apart news →
  (∀ b v, b ∈ news → holds b v = true → attr_at (areas ms) v = None) →
  ∃ k, push_all ms news = Done (set_areas ms k) ∧ areas_wf k ∧
    (∀ v, attr_at k v = attr_at (news ++ areas ms) v) ∧
    (frames_wf (areas ms) → Forall frames_in news → frames_wf k ∧ ∀ v, frame_at k v = frame_at (news ++ areas ms) v).
Proof.
  revert ms. induction news as [|a news IH]; intros ms Hwf Hok Hap Hfree; cbn [push_all].
  { exists (areas ms). destruct ms. split; [done|]. by split. }
  apply Forall_cons in Hok as [Ha Hok]. apply all_apart_cons in Hap as [Hapa Hap].
  destruct (insert_area_inserted (areas ms) a) as (k1&Hk1&[Iw Ia If _]); [done|done|intros; eapply Hfree; [left|done]|].
  unfold push_lazily. rewrite Hk1. cbn [mbind comp_bind].
  assert (∀ b v, b ∈ news → holds a v = true → holds b v = false) as Hdis.
  { intros b v Hb Hav. destruct (holds b v) eqn:Hbv; [|done]. exfalso. rewrite Forall_forall in Hapa.
    by eapply (apart_holds a b); [apply Hapa|..]. }
  destruct (IH (set_areas ms k1)) as (k&->&Hwk&Hak&Hfk); [done|done|done| |].
  { intros b v Hb Hbv. simpl. rewrite Ia. destruct (holds a v) eqn:Hav; [by rewrite (Hdis b v Hb Hav) in Hbv|].
    apply (Hfree b); [by right|done]. }
  simpl in *. exists k. split; [by destruct ms|]. split; [done|].
  assert (∀ v, holds a v = true → lookup_area news v = None) as Hnone.
  { intros v Hav. apply lookup_area_None. intros b Hb. by apply Hdis. }
  assert (∀ v, lookup_area (a :: news ++ areas ms) v = if holds a v then Some a else lookup_area (news ++ areas ms) v) as Hcons.
  { intros v. done. }
  split.
  - intros v. rewrite Hak. unfold attr_at in *. rewrite Hcons, !lookup_area_app. specialize (Ia v).
    destruct (holds a v) eqn:Hav; [by rewrite (Hnone v Hav), Ia|]. by destruct (lookup_area news v).
  - intros Hf Hfn. apply Forall_cons in Hfn as [Hfa Hfn]. destruct (If Hf Hfa) as [Hf1 E1].
    destruct (Hfk Hf1 Hfn) as [Hfk' E]. split; [done|]. intros v. rewrite E. unfold frame_at in *.
    rewrite Hcons, !lookup_area_app. specialize (E1 v).
    destruct (holds a v) eqn:Hav; [by rewrite (Hnone v Hav), E1|]. by destruct (lookup_area news v).
Qed.

Lemma protect_pages_spec (pt : PT) vpns perm :
  pt_ok pt → Forall user_vpn vpns → Z.land perm 30 = perm →
  ∃ pt', protect_pages pt vpns perm = Done pt' ∧ pt_ok pt' ∧
    ∀ v, user_vpn v → v ∉ vpns ∨ pt_translate pt v ≠ Done None → pt_translate pt' v = pt_translate pt v.
Proof.
  intros Hok Hu Hp. revert pt Hok. induction Hu as [|w vpns Hw Hu IH]; intros pt Hok; cbn [protect_pages].
  { by exists pt. }
  destruct (pt_mprotect_law pt w perm Hok Hw Hp) as (pt1&->&Hok1&H1). cbn [mbind comp_bind].
  destruct (IH pt1 Hok1) as (pt'&->&Hok'&H2). exists pt'. split; [done|]. split; [done|].
  intros v Hv Hcase. assert (pt_translate pt1 v = pt_translate pt v) as E.
  { apply H1; [done|]. destruct Hcase as [Hn|?]; [left; set_solver|by right]. }
  rewrite <- E. apply H2; [done|]. rewrite E. destruct Hcase; [left; set_solver|by right].
Qed.
End push.



(** [mprotect] on the tail of an area whose first protected page is not
    resident moves the frames of the pages before it into the new area as well.
    Here page 5 is resident and pages 6 and 7 are protected, then unmapped:
    page 5 still translates to frame 7, but no area of the address space owns
    that frame any more, so it is free for another use. *)
Theorem mprotect_steals_frames :
  ∃ g1 ms1 g2 ms2,
    frame_at (areas demo_ms) 5 = Some 7 ∧
    @mprotect _ (sv39_ops no_huge) (λ _, true) group_new demo_ms 6 8 PERM_R = Done (g1, ms1, Ok 0) ∧
    frame_at (areas ms1) 5 = None ∧
    @munmap _ (sv39_ops no_huge) g1 ms1 (6 * 4096) (2 * 4096) = Done (g2, ms2, Ok 0) ∧
    Forall (λ a, data_frames a = ∅) (areas ms2) ∧
    @pt_translate _ (sv39_ops no_huge) (page_table ms2) 5 = Done (Some 7).
Proof.
  eexists _, _, _, _. split; [vm_compute; reflexivity|]. split; [vm_compute; reflexivity|].
  split; [vm_compute; reflexivity|]. split; [vm_compute; reflexivity|].
  split; [vm_compute; repeat constructor|vm_compute; reflexivity].
Qed.

(** An address space without areas, on the page table of the examples. *)
Definition empty_ms : MemorySetInner (PhysMem (list Z) * PageTable.PageTable) := new_bare demo_space.

(** Unmapping the middle of a shared mapping makes two areas of one but
    counts the group once: unmapping the first of them deletes the group, and
    unmapping the second one panics in the kernel. *)
Theorem munmap_split_group_panics :
  ∃ g1 ms1 g2 ms2 g3 ms3,
    @mmap _ (sv39_ops no_huge) group_new empty_ms 65536 12288 PERM_R (Z.lor MAP_SHARED MAP_ANONYMOUS) file_empty =
      Done (g1, ms1, 65536) ∧
    @munmap _ (sv39_ops no_huge) g1 ms1 69632 4096 = Done (g2, ms2, Ok 0) ∧
    @munmap _ (sv39_ops no_huge) g2 ms2 65536 4096 = Done (g3, ms3, Ok 0) ∧
    @munmap _ (sv39_ops no_huge) g3 ms3 73728 4096 = Panic.
Proof.
  eexists _, _, _, _, _, _. split; [vm_compute; reflexivity|]. split; [vm_compute; reflexivity|].
  split; [vm_compute; reflexivity|]. vm_compute. reflexivity.
Qed.

(** The same space with page 5 in a segment of the executable. *)
Definition elf_ms : MemorySetInner (PhysMem (list Z) * PageTable.PageTable) :=
  mkMs demo_space [mkArea (mkRange 4 8) {[5 := 7]} Framed (Z.lor PERM_R PERM_W) Elf file_empty 0 0] 0 MMAP_TOP.

(** [MAP_FIXED] over a segment of the executable replaces nothing: the call
    succeeds, two areas hold the page, and the page still shows the old frame. *)
Theorem mmap_fixed_shadows_elf :
  ∃ g1 ms1 a b,
    @mmap _ (sv39_ops no_huge) group_new elf_ms (5 * 4096) 4096 PERM_R
      (Z.lor MAP_FIXED (Z.lor MAP_PRIVATE MAP_ANONYMOUS)) file_empty = Done (g1, ms1, 5 * 4096) ∧
    areas ms1 = [a; b] ∧ area_type a = Elf ∧ area_type b = Mmap ∧ holds a 5 = true ∧ holds b 5 = true ∧
    @pt_translate _ (sv39_ops no_huge) (page_table ms1) 5 = Done (Some 7).
Proof.
  eexists _, _, _, _. split; [vm_compute; reflexivity|]. split; [vm_compute; reflexivity|].
  repeat (split; [vm_compute; reflexivity|]). vm_compute. reflexivity.
Qed.
