(* ===== verification/Mmu.v ===== *)
(** * Page-table entries as the fault handlers see them

    The entry of a page as a function of the root and the page number, and the
    effect of every operation of [PageTable] that the fault handlers and fork use
    on that function: each changes the entry of one page of one address space. *)

From S2P Require Import Prelude Address FrameAlloc PageTable MapArea AreaPt.

Section mmu.
Context `{FrameSource Src}.
Implicit Types (m : PhysMem Src) (pt : PageTable.PageTable).

(** The last-level entry on the walk; 0 where the walk ends before. *)
Fixpoint walk_bits m (p : Z) (idxs : list Z) : Z :=
  match idxs with
  | [] => 0
  | i :: idxs =>
      match idxs with
      | [] => rd m p i
      | _ => if pte_table (rd m p i) then walk_bits m (get_ppn (rd m p i)) idxs else 0
      end
  end.
Definition pte_at m (r vpn : Z) : Z := walk_bits m r (indexes vpn).
(** The entry if it is valid. *)
Definition entry_at m (r vpn : Z) : option Z := if pte_valid (pte_at m r vpn) then Some (pte_at m r vpn) else None.
Definition live_leaf (bits : Z) : bool := pte_valid bits && pte_leaf bits.

Record mem_ok (roots : list Z) m : Prop := {
  mo_wf : tree_wf m roots;
  mo_small r : r ∈ roots → small_leaves m roots r }.

Lemma mem_ok_space roots m pt : mem_ok roots m → root_ppn pt ∈ roots → space_ok roots (m, pt).
Proof. intros [Hwf Hs] Hr. by split; [|split; [|apply Hs]]. Qed.

Lemma walk_bits_path m p l i q : table_at m p l = Some q → walk_bits m p (l ++ [i]) = rd m q i.
Proof.
  revert p. induction l as [|j l IH]; intros p Ht; simpl in *; [by simplify_eq|].
  destruct (pte_table (rd m p j)); [|done]. destruct (l ++ [i]) eqn:E; [by destruct l|]. by apply IH.
Qed.

Lemma pte_at_slot m roots r v t i : slot_of m roots r v t i → pte_at m r v = rd m t i.
Proof. intros (path & _ & Hp & (_ & _ & _ & Ht)). unfold pte_at. rewrite <- Hp. by apply walk_bits_path. Qed.

Lemma pte_at_none m r v : (∀ path i, length path = 2%nat → path ++ [i] = indexes v → table_at m r path = None) → pte_at m r v = 0.
Proof.
  unfold pte_at. rewrite indexes_eq. intros Hn. specialize (Hn [_; _] _ eq_refl eq_refl). cbn [table_at walk_bits] in *.
  destruct (pte_table (rd m r _)); [|done]. by destruct (pte_table _).
Qed.

(** The walk ends early, or the page has a slot. *)
Lemma pte_cases roots m pt v : mem_ok roots m → root_ppn pt ∈ roots → user_vpn v →
  pte_at m (root_ppn pt) v = 0 ∧ find_pte m pt v = Done None ∧ translate m pt v = Done None ∨
  ∃ t i, slot_of m roots (root_ppn pt) v t i ∧ pte_at m (root_ppn pt) v = rd m t i.
Proof.
  intros Hm Hr Hu. destruct (mem_ok_space _ _ pt Hm Hr) as (Hwf & _ & Hs). simpl in *.
  destruct (walk_cases m roots pt Hwf Hr Hs v Hu) as [[Hf Ht]|(t & i & Hslot)].
  - left. split; [|done]. apply pte_at_none. intros path i Hl Hp.
    destruct (table_at m (root_ppn pt) path) as [t|] eqn:Hta; [|done]. exfalso.
    assert (slot_of m roots (root_ppn pt) v t i) as Hslot.
    { exists path. split_and!; [done|done|]. split; [done|]. split; [|split; [lia|done]].
      eapply user_path_prefix. rewrite Hp. by apply user_vpn_path. }
    by rewrite (slot_pte m roots pt Hwf v t i) in Hf.
  - right. exists t, i. split; [done|]. by eapply pte_at_slot.
Qed.

Lemma pte_at_ok roots m r v : mem_ok roots m → r ∈ roots → user_vpn v → pte_ok (pte_at m r v).
Proof.
  intros Hm Hr Hu. destruct (pte_cases roots m (mkPt r []) v Hm Hr Hu) as [(E & _)|(t & i & Hslot & E)]; simpl in E; rewrite E; [done|].
  by apply (slot_ok m roots (mkPt r []) v t i (mo_wf _ _ Hm) Hu).
Qed.

Lemma translate_pte roots m pt v : mem_ok roots m → root_ppn pt ∈ roots → user_vpn v →
  translate m pt v = Done (if live_leaf (pte_at m (root_ppn pt) v) then Some (get_ppn (pte_at m (root_ppn pt) v)) else None).
Proof.
  intros Hm Hr Hu. destruct (pte_cases roots m pt v Hm Hr Hu) as [(-> & _ & ->)|(t & i & Hslot & ->)]; [done|].
  destruct (live_leaf (rd m t i)) eqn:Hl; unfold live_leaf in Hl.
  - apply andb_prop in Hl as [Hv Hl]. by apply (slot_translate m roots pt v t i (mo_wf _ _ Hm)).
  - by apply (slot_untranslated m roots pt (mo_wf _ _ Hm) v t i).
Qed.

Lemma find_valid_pte_at roots m pt v : mem_ok roots m → root_ppn pt ∈ roots → user_vpn v →
  pte_valid (pte_at m (root_ppn pt) v) = false ∧ find_valid_pte m pt v = Done None ∨
  pte_valid (pte_at m (root_ppn pt) v) = true ∧
  ∃ t i, slot_of m roots (root_ppn pt) v t i ∧ pte_at m (root_ppn pt) v = rd m t i ∧
    find_valid_pte m pt v = Done (Some (t, i, pte_at m (root_ppn pt) v)).
Proof.
  intros Hm Hr Hu. destruct (pte_cases roots m pt v Hm Hr Hu) as [(-> & Hf & _)|(t & i & Hslot & ->)].
  - left. split; [done|]. unfold find_valid_pte. by rewrite Hf.
  - destruct (pte_valid (rd m t i)) eqn:Hv.
    + right. split; [done|]. exists t, i. split_and!; [done|done|]. by apply (slot_find m roots pt v t i (mo_wf _ _ Hm)).
    + left. split; [done|]. unfold find_valid_pte. rewrite (slot_pte m roots pt (mo_wf _ _ Hm) v t i) by done. cbn [mbind comp_bind].
      rewrite get_flags_ok by (by apply (slot_ok m roots pt v t i (mo_wf _ _ Hm))). cbn [mbind comp_bind].
      fold (pte_valid (rd m t i)). by rewrite Hv.
Qed.

(** ** What the operations do *)

(** The entry of page [v] below root [r] becomes [b] and no other changes; no page
    in use is written, no frame becomes free, and at most two are taken. *)
Record pte_set (roots : list Z) m (r v b : Z) m' : Prop := {
  ps_ok : mem_ok roots m';
  ps_pte r' v' : r' ∈ roots → user_vpn v' → entry_at m' r' v' = if decide (r' = r ∧ v' = v) then Some b else entry_at m r' v';
  ps_free f : fs_free (source m') f → fs_free (source m) f;
  ps_pages f : ¬ fs_free (source m) f → pages m' !! f = pages m !! f;
  ps_room n : has_frames (2 + n) (source m) → has_frames n (source m') }.

Lemma wr_set roots m pt v t i b : mem_ok roots m → root_ppn pt ∈ roots → user_vpn v → slot_of m roots (root_ppn pt) v t i → pte_ok b →
  pte_valid b = true → pte_set roots m (root_ppn pt) v b (wr m t i b).
Proof.
  intros Hm Hr Hu Hslot Hb Hvb. destruct (slot_write m roots pt v t i (mo_wf _ _ Hm) Hu Hslot b Hb) as (Hwf' & Hslot' & Hiff & _).
  assert (mem_ok roots (wr m t i b)) as Hm'.
  { split; [done|]. intros r' Hr' path q j Hq%Hiff Hlen Hup. rewrite rd_wr_ne; [by eapply (mo_small _ _ Hm)|].
    intros [= -> ->]. destruct Hslot as (path2 & Hl2 & _ & Hr2). destruct (wf_inj _ _ (mo_wf _ _ Hm) _ _ _ _ _ Hq Hr2) as [_ ->]. lia. }
  split; [done| |done|done|by intros n ?; do 2 apply has_frames_pred]. intros r' v' Hr' Hu'. unfold entry_at. case_decide as Hd.
  { destruct Hd as [-> ->]. by rewrite (pte_at_slot _ _ _ _ _ _ Hslot'), rd_wr_eq, Hvb. }
  enough (pte_at (wr m t i b) r' v' = pte_at m r' v') as -> by done.
  destruct (pte_cases roots m (mkPt r' []) v' Hm Hr' Hu') as [(E & Hf & _)|(t' & i' & Hs' & E)]; simpl in E.
  - rewrite E. apply pte_at_none. intros path j Hl Hp. destruct (table_at _ r' path) as [q|] eqn:Hq; [|done]. exfalso.
      assert (reaches m roots r' path q) as Hreach.
      { apply Hiff. split; [done|]. split; [|split; [lia|done]]. eapply user_path_prefix. rewrite Hp. by apply user_vpn_path. }
      assert (slot_of m roots r' v' q j) as Hs' by (by exists path).
      by rewrite (slot_pte m roots (mkPt r' []) (mo_wf _ _ Hm) v' q j) in Hf.
  - rewrite E. erewrite pte_at_slot; [|eapply slot_reaches; [|exact Hs']; intros; by apply Hiff].
      apply rd_wr_ne. eapply (slot_other m roots pt v t i (mo_wf _ _ Hm) Hu Hslot (mkPt r' []) v'); [done|done|]. simpl. naive_solver.
Qed.

(** Taking a frame, or writing data pages, changes no entry. *)
Record pte_same (roots : list Z) m m' : Prop := {
  pe_ok : mem_ok roots m';
  pe_pte r v : r ∈ roots → user_vpn v → entry_at m' r v = entry_at m r v;
  pe_free f : fs_free (source m') f → fs_free (source m) f }.

(** Entries in a tree with more tables. *)
Lemma ext_small roots m m' : mem_ok roots m → extends m m' roots → mem_ok roots m'.
Proof.
  intros Hm He. split; [apply He|]. intros r Hr path q i Hq Hlen Hup Hv.
  destruct (pte_leaf (rd m' q i)) eqn:Hl; [|done]. destruct (ext_leaves _ _ _ He _ _ _ _ Hq Hv) as [Hq' E]; [by right|].
  rewrite <- E in *. by rewrite (mo_small _ _ Hm r Hr path q i) in Hl.
Qed.

Lemma ext_pte roots m m' r v : mem_ok roots m → extends m m' roots → r ∈ roots → user_vpn v → entry_at m' r v = entry_at m r v.
Proof.
  intros Hm He Hr Hu. pose proof (ext_small _ _ _ Hm He) as Hm'.
  assert (pte_valid (pte_at m r v) || pte_valid (pte_at m' r v) = true → pte_at m' r v = pte_at m r v) as Heq.
  2: { unfold entry_at. destruct (pte_valid (pte_at m r v)) eqn:H1, (pte_valid (pte_at m' r v)) eqn:H2; try done;
       specialize (Heq eq_refl); congruence. }
  intros Hv. assert (pte_valid 0 = false) as H0 by done.
  destruct (pte_cases roots m' (mkPt r []) v Hm' Hr Hu) as [(E & Hf & _)|(t & i & Hslot & E)]; simpl in E; rewrite E in *.
  - rewrite H0, orb_false_r in Hv. exfalso.
    destruct (pte_cases roots m (mkPt r []) v Hm Hr Hu) as [(E1 & _)|(t1 & i1 & Hslot1 & E1)]; simpl in E1; rewrite E1 in Hv; [done|].
    destruct Hslot1 as (path & Hl & Hp & Hreach). pose proof (ext_reaches _ _ _ He _ _ _ Hreach) as Hreach'.
    assert (slot_of m' roots (root_ppn (mkPt r [])) v t1 i1) as Hs' by (by exists path).
    by rewrite (slot_pte m' roots (mkPt r []) (mo_wf _ _ Hm') v t1 i1) in Hf.
  - destruct Hslot as (path & Hl & Hp & Hreach). destruct (pte_valid (rd m' t i)) eqn:Hv'.
    + destruct (ext_leaves _ _ _ He _ _ _ _ Hreach Hv') as [Hreach0 E0]; [by left|]. rewrite <- E0. symmetry.
      eapply (pte_at_slot m roots). by exists path.
    + rewrite orb_false_r in Hv.
      destruct (pte_cases roots m (mkPt r []) v Hm Hr Hu) as [(E1 & _)|(t1 & i1 & Hslot1 & E1)]; simpl in E1; rewrite E1 in *; [done|].
      destruct Hslot1 as (path1 & Hl1 & Hp1 & Hreach1). rewrite <- Hp1 in Hp. apply app_inj_tail in Hp as [-> ->].
      pose proof (ext_reaches _ _ _ He _ _ _ Hreach1) as (_ & _ & _ & T1). destruct Hreach as (_ & _ & _ & T2). simpl in *.
      rewrite T1 in T2. injection T2 as <-. by rewrite (ext_reads _ _ _ He _ _ _ _ Hreach1) in Hv' |- *.
Qed.

Lemma alloc_same roots m f m' : mem_ok roots m → frame_alloc m = Some (f, m') →
  pte_same roots m m' ∧ fs_free (source m) f ∧ ¬ fs_free (source m') f ∧ 0 ≤ f < 2 ^ 44 ∧
  (∀ q, q ≠ f → pages m' !! q = pages m !! q) ∧ bytes_array m' f = zero_bytes ∧
  (∀ n, has_frames (S n) (source m) → has_frames n (source m')).
Proof.
  intros Hm Ha. pose proof (alloc_facts m m' roots f (mo_wf _ _ Hm) Ha) as (_ & Hf & Hnf & Hmono & Hr & _ & Hp).
  pose proof (alloc_extends m m' roots f (mo_wf _ _ Hm) Ha) as He. split_and!; try done; try apply Hr.
  - split; [by eapply ext_small|intros; by eapply ext_pte|done].
  - unfold frame_alloc in Ha. destruct (fs_alloc (source m)) as [[g s]|]; [|done]. simplify_eq. unfold bytes_array. simpl. by rewrite lookup_insert_eq.
  - unfold frame_alloc in Ha. intros n (g & s & Hs & Hn). rewrite Hs in Ha. by simplify_eq.
Qed.

Lemma alloc_some m n : has_frames (S n) (source m) → ∃ f m', frame_alloc m = Some (f, m').
Proof. intros (f & s & Hs & _). unfold frame_alloc. rewrite Hs. eauto. Qed.

Lemma pages_same roots m P : mem_ok roots m → pte_same roots m (set_pages m P).
Proof.
  intros Hm. assert (∀ r v, pte_at (set_pages m P) r v = pte_at m r v) as Hp.
  { intros r v. unfold pte_at. generalize r. induction (indexes v) as [|i l IH]; intros p; [done|].
    cbn [walk_bits]. change (rd (set_pages m P) p i) with (rd m p i). destruct l; [done|]. by rewrite IH. }
  split; [|intros; unfold entry_at; by rewrite Hp|done]. split; [apply set_pages_wf, Hm|].
  intros r Hr path q i Hq. apply (mo_small _ _ Hm r Hr path q i). unfold reaches in *. by rewrite set_pages_table in Hq.
Qed.

Lemma same_then_set roots m m1 m2 r v b : pte_same roots m m1 → (∀ f, ¬ fs_free (source m) f → pages m1 !! f = pages m !! f) →
  (∀ n, has_frames n (source m) → has_frames n (source m1)) →
  pte_set roots m1 r v b m2 → pte_set roots m r v b m2.
Proof.
  intros [H1 H2 H3] Hp Hn [G1 G2 G3 G4 G5]. split; [done|intros; by rewrite G2, H2|auto| |auto].
  intros f Hf. rewrite G4; [by apply Hp|]. intros ?. by apply Hf, H3.
Qed.

Lemma vacant_slot roots m r v : mem_ok roots m → r ∈ roots → user_vpn v → entry_at m r v = None → slot_vacant m r (indexes v) = true.
Proof.
  intros Hm Hr Hu He. unfold entry_at, pte_at in He. apply user_vpn_path in Hu.
  pose proof (length_indexes v) as Hlen. destruct (indexes v) as [|a [|b [|c [|]]]]; try done. cbn [slot_vacant walk_bits] in *.
  assert (reaches m roots r [] r) as Hreach by (repeat split; simpl; auto with lia).
  destruct (pte_valid (rd m r a)) eqn:Hva; [|done]. cbn [negb].
  pose proof (mo_small _ _ Hm r Hr [] r a Hreach ltac:(simpl; lia) Hu Hva) as Hla. rewrite Hla.
  assert (pte_table (rd m r a) = true) as Hta by (unfold pte_table; by rewrite Hva, Hla). rewrite Hta in He.
  assert (reaches m roots r [a] (get_ppn (rd m r a))) as Hreach1.
  { split; [done|]. split; [done|]. split; [simpl; lia|]. simpl. by rewrite Hta. }
  destruct (pte_valid (rd m (get_ppn (rd m r a)) b)) eqn:Hvb; [|done]. cbn [negb].
  pose proof (mo_small _ _ Hm r Hr [a] _ b Hreach1 ltac:(simpl; lia) Hu Hvb) as Hlb. rewrite Hlb.
  assert (pte_table (rd m (get_ppn (rd m r a)) b) = true) as Htb by (unfold pte_table; by rewrite Hvb, Hlb). rewrite Htb in He.
  by destruct (pte_valid (rd m _ c)).
Qed.

(** A new leaf in a free slot. *)
Lemma map_set roots m pt v ppn flags : mem_ok roots m → root_ppn pt ∈ roots → user_vpn v → entry_at m (root_ppn pt) v = None →
  0 ≤ ppn < 2 ^ 44 → flags_ok flags → has_frames 2 (source m) →
  ∃ m' pt', map_by_pte_flags m pt v ppn flags = Done (m', pt') ∧ root_ppn pt' = root_ppn pt ∧
    pte_set roots m (root_ppn pt) v (pte_new ppn (Z.lor flags VALID)) m'.
Proof.
  intros Hm Hr Hu He Hp Hf Hfr. pose proof (vacant_slot _ _ _ _ Hm Hr Hu He) as Hvac.
  destruct (map_by_pte_flags_room m pt roots v ppn flags 0) as (m1 & pt' & t & i & Heq & Hroot & Hext & Hslot & _); [apply Hm|done..|].
  exists (wr m1 t i (pte_new ppn (Z.lor flags VALID))), pt'. split_and!; [done|done|].
  assert (flags_ok (Z.lor flags VALID)) as Hfv by (apply flags_ok_lor; [done|split; [unfold VALID; lia|done]]).
  assert (pte_ok (pte_new ppn (Z.lor flags VALID))) as Hok by (apply pte_new_ok; [done|apply Hfv|apply Hfv]).
  assert (pte_valid (pte_new ppn (Z.lor flags VALID)) = true) as Hv.
  { unfold pte_valid. rewrite pte_flags_of_new by (done || apply Hfv). rewrite contains_spec. intros n Hn Hb. by rewrite Z.lor_spec, Hb, orb_true_r. }
  pose proof (ext_small _ _ _ Hm Hext) as Hm1.
  destruct (wr_set roots m1 pt v t i _ Hm1 Hr Hu Hslot Hok Hv) as [G1 G2 G3 G4 G5]. split; [done| | | |].
  - intros r' v' Hr' Hu'. rewrite G2 by done. case_decide; [done|]. by eapply ext_pte.
  - intros f Hfree. by eapply ext_free, G3.
  - intros f Hused. rewrite G4; [by apply (ext_pages _ _ _ Hext)|]. intros Hfree. by eapply Hused, ext_free.
  - intros n Hn. destruct (map_by_pte_flags_room m pt roots v ppn flags n) as (m2 & pt2 & t2 & i2 & Heq2 & _ & _ & _ & Hroom); [apply Hm|done..|].
    rewrite Heq in Heq2. simpl. assert (source m1 = source m2) as -> by (by injection Heq2). done.
Qed.

(** ** The handlers *)

Lemma entry_pte m r v b : entry_at m r v = Some b → pte_at m r v = b ∧ pte_valid b = true.
Proof. unfold entry_at. destruct (pte_valid _) eqn:Hv; [|done]. by intros [= <-]. Qed.

Lemma find_entry roots m pt v : mem_ok roots m → root_ppn pt ∈ roots → user_vpn v →
  match entry_at m (root_ppn pt) v with
  | None => find_valid_pte m pt v = Done None
  | Some b => pte_ok b ∧ pte_valid b = true ∧
      ∃ t i, slot_of m roots (root_ppn pt) v t i ∧ find_valid_pte m pt v = Done (Some (t, i, b))
  end.
Proof.
  intros Hm Hr Hu. unfold entry_at. destruct (find_valid_pte_at roots m pt v Hm Hr Hu) as [[-> Hf]|[Hv (t & i & Hs & E & Hf)]]; [done|].
  rewrite Hv. split; [by eapply pte_at_ok|]. split; [done|]. eauto.
Qed.

Lemma translate_entry roots m pt v : mem_ok roots m → root_ppn pt ∈ roots → user_vpn v →
  translate m pt v = Done (b ← entry_at m (root_ppn pt) v; if pte_leaf b then Some (get_ppn b) else None).
Proof.
  intros Hm Hr Hu. rewrite (translate_pte roots) by done. unfold entry_at, live_leaf.
  destruct (pte_valid _); [|done]. simpl. by destruct (pte_leaf _).
Qed.

Lemma set_flags_valid bits flags : flags_ok flags → contains flags VALID = true → pte_valid (set_flags bits flags) = true.
Proof. intros [Hf _] Hv. unfold pte_valid. by rewrite set_flags_flags. Qed.

Lemma perm_flags_ok perm : flags_ok (flags_from_perm perm).
Proof. unfold flags_from_perm, bits_insert. repeat match goal with |- context [if ?b then _ else _] => destruct b end; done. Qed.

(** The flags of an entry after the handlers of [mmap] faults: writable for a
    shared writable mapping, copy on write for a private one. *)
Lemma fault_flags_ok perm shared : flags_ok (mmap_fault_flags perm shared) ∧ contains (mmap_fault_flags perm shared) VALID = true.
Proof.
  unfold mmap_fault_flags, flags_from_perm, bits_insert, bits_remove.
  repeat match goal with |- context [if ?b then _ else _] => destruct b end; done.
Qed.
End mmu.
