(* ===== verification/Fault.v ===== *)
(** * Page faults and fork over the areas

    [mm/memory_set/pagefault.rs], [mm/page_fault_handler.rs] and
    [mm/memory_set/fork_clone.rs] over the areas of [MapArea] and the Sv39 tables
    of [PageTable].  The caches of file pages and the backings of special files
    are arguments: what the handlers get from them is a frame or the bytes of a
    page. *)

From S2P Require Import Prelude Address FrameAlloc PageTable MapArea AreaPt AreaSet.

(** ** What the handlers work on *)

Record FilePage : Type := mkFilePage { fp_file : Z; fp_index : Z; fp_frame : Z; fp_valid_len : Z }.

(** The page cache, and [page_valid_len], [shared_page] and [load_page] of a
    special backing. *)
Record Backings : Type := mkBackings {
  bk_cached : Z → Z → option FilePage;
  bk_valid_len : Z → Z → option Z;
  bk_shared : Z → Z → option Z;
  bk_load : Z → Z → option (list Z) }.

(** The references to frames: 1 where the map has none. *)
Definition rc_get (rc : gmap Z nat) (f : Z) : nat := default 1%nat (rc !! f).
Definition rc_clone (rc : gmap Z nat) (f : Z) : gmap Z nat := <[f := S (rc_get rc f)]> rc.
Definition rc_drop (rc : gmap Z nat) (f : Z) : gmap Z nat := <[f := (rc_get rc f - 1)%nat]> rc.

Inductive Cause : Type := LoadPageFault | StorePageFault | FetchInstructionPageFault | PageModifyFault | PagePrivilegeIllegal.
#[export] Instance Cause_eq_dec : EqDecision Cause.
Proof. solve_decision. Defined.

Definition STACK_GUARD_GAP_PAGES : Z := 256.

Section fault.
Context `{FrameSource Src} (huge_alloc : Src → option (Z * Src)) (bk : Backings).

Record Mach : Type := mkMach { mc_mem : PhysMem Src; mc_groups : GroupManager; mc_rc : gmap Z nat }.
Implicit Types (s : Mach) (pt : PageTable.PageTable) (a : MapArea).

Definition with_mem s (m : PhysMem Src) : Mach := mkMach m (mc_groups s) (mc_rc s).
Definition with_rc s (rc : gmap Z nat) : Mach := mkMach (mc_mem s) (mc_groups s) rc.
Definition with_groups s (g : GroupManager) : Mach := mkMach (mc_mem s) g (mc_rc s).

(** [bytes_array_mut().copy_from_slice]. *)
Definition fill_page s (ppn : Z) (bytes : list Z) : Mach :=
  with_mem s (mkMem (entries (mc_mem s)) (<[ppn := bytes]> (pages (mc_mem s))) (source (mc_mem s))).

(** [vma.data_frames.insert(vpn, frame)], with a clone of an [Arc] or a new one;
    the frame it replaces is dropped. *)
Definition put_frame s a (vpn f : Z) : Mach * MapArea :=
  let rc := match data_frames a !! vpn with Some g => rc_drop (mc_rc s) g | None => mc_rc s end in
  (with_rc s rc, set_frames a (<[vpn := f]> (data_frames a))).

(** [FrameTracker::alloc]. *)
Definition tracker_alloc s : option (Z * Mach) :=
  '(f, m) ← frame_alloc (mc_mem s); Some (f, mkMach m (mc_groups s) (<[f := 1%nat]> (mc_rc s))).

(** [area.map_one(page_table, vpn)] on these tables. *)
Definition area_map_one s pt a (vpn : Z) : comp (Mach * PageTable.PageTable * MapArea * option Z) :=
  let rc := match data_frames a !! vpn with Some g => rc_drop (mc_rc s) g | None => mc_rc s end in
  '(m, pt, a, ppn) ← map_one (H := sv39_ops huge_alloc) (mc_mem s, pt) a vpn;
  Done (mkMach m (mc_groups s) (match ppn with Some f => <[f := 1%nat]> rc | None => mc_rc s end), pt, a, ppn).

(** ** [mm/page_fault_handler.rs] *)

Definition file_page_index a (va : Z) : option Z :=
  _ ← inode_file (mmap_file a);
  d ← checked_sub va (addr_from_page_num (area_start a));
  o ← checked_add d (mf_offset (mmap_file a));
  Some (o / PAGE_SIZE).

Definition special_page_index a (vpn : Z) : option Z :=
  b ← special_backing (mmap_file a);
  i ← page_index (mmap_file a) vpn (area_start a);
  _ ← bk_valid_len bk b i;
  Some i.

Definition cached_file_page (vpn : Z) a : option FilePage :=
  i ← file_page_index a (addr_from_page_num vpn);
  file ← inode_file (mmap_file a);
  page ← bk_cached bk file i;
  if 0 <? fp_valid_len page then Some page else None.

Definition prepared_file_page (vpn : Z) a (prepared : option FilePage) : option FilePage :=
  page ← prepared;
  i ← file_page_index a (addr_from_page_num vpn);
  file ← inode_file (mmap_file a);
  if (fp_file page =? file) && (fp_index page =? i) && (0 <? fp_valid_len page) then Some page else None.

Definition file_page_for_fault (vpn : Z) a (prepared : option FilePage) : option FilePage :=
  match prepared_file_page vpn a prepared with Some p => Some p | None => cached_file_page vpn a end.

Definition is_shared a : bool := contains (mmap_flags a) MAP_SHARED.

(** What a handler returns: the new state and whether it succeeded. *)
Notation HRet := (comp (Mach * PageTable.PageTable * MapArea * bool)).

(** Install a frame that another holder keeps. *)
Definition install_shared s pt a (vpn f : Z) : HRet :=
  let '(s, a) := put_frame (with_rc s (rc_clone (mc_rc s) f)) a vpn f in
  '(m, pt) ← handle_mmap_read_page_fault (mc_mem s) pt vpn f (map_perm a) (is_shared a);
  Done (with_mem s m, pt, a, true).

Definition map_file_page (vpn : Z) s pt a (prepared : option FilePage) : HRet :=
  match file_page_for_fault vpn a prepared with
  | None => Done (s, pt, a, false)
  | Some page => install_shared s pt a vpn (fp_frame page)
  end.

Definition map_special_shared_page (vpn : Z) s pt a : HRet :=
  match (b ← special_backing (mmap_file a); i ← special_page_index a vpn; bk_shared bk b i) with
  | None => Done (s, pt, a, false)
  | Some f => install_shared s pt a vpn f
  end.

Definition map_special_private_page (vpn : Z) s pt a : HRet :=
  match (b ← special_backing (mmap_file a); i ← special_page_index a vpn; Some (b, i)) with
  | None => Done (s, pt, a, false)
  | Some (b, i) =>
      match tracker_alloc s with
      | None => Done (s, pt, a, false)
      | Some (f, s') =>
          match bk_load bk b i with
          | None => Done (s', pt, a, false)
          | Some bytes =>
              let '(s, a) := put_frame (fill_page s' f bytes) a vpn f in
              '(m, pt) ← PageTable.map (mc_mem s) pt vpn f (map_perm a);
              m ← handle_mmap_write_page_fault m pt vpn (map_perm a) (is_shared a);
              Done (with_mem s m, pt, a, true)
          end
      end
  end.

(** The bytes of a private copy of a file page: its valid part, then zeros. *)
Definition private_copy (m : PhysMem Src) (page : FilePage) : list Z :=
  let n := Z.to_nat (fp_valid_len page) in
  take n (bytes_array m (fp_frame page)) ++ replicate (Z.to_nat PAGE_SIZE - n) 0.

Definition mmap_write_page_fault (vpn : Z) s pt a (prepared : option FilePage) : HRet :=
  if is_special (mmap_file a) then
    if is_shared a then map_special_shared_page vpn s pt a else map_special_private_page vpn s pt a
  else
    let cached := _ ← inode_file (mmap_file a); file_page_for_fault vpn a prepared in
    if bool_decide (is_Some (inode_file (mmap_file a))) && bool_decide (cached = None) then Done (s, pt, a, false)
    else
      '(s, pt, a, mapped) ← (if is_shared a then map_file_page vpn s pt a prepared else Done (s, pt, a, false));
      if (mapped : bool) then Done (s, pt, a, true)
      else
        '(s, pt, a, ppn) ← area_map_one s pt a vpn;
        match ppn with
        | None => Done (s, pt, a, false)
        | Some ppn =>
            let s := match cached with Some page => fill_page s ppn (private_copy (mc_mem s) page) | None => s end in
            m ← handle_mmap_write_page_fault (mc_mem s) pt vpn (map_perm a) (is_shared a);
            Done (with_mem s m, pt, a, true)
        end.

Definition mmap_read_page_fault (vpn : Z) s pt a (prepared : option FilePage) : HRet :=
  frame ← group_find (mc_groups s) (groupid a) vpn;
  match frame with
  | Some f => install_shared s pt a vpn f
  | None =>
      if is_special (mmap_file a) then
        if is_shared a then map_special_shared_page vpn s pt a else map_special_private_page vpn s pt a
      else
        '(s, pt, a, mapped) ← map_file_page vpn s pt a prepared;
        if (mapped : bool) then Done (s, pt, a, true)
        else
          '(s, pt, a, ok) ← mmap_write_page_fault vpn s pt a prepared;
          if negb ok then Done (s, pt, a, false)
          else if groupid a =? 0 then Done (s, pt, a, true)
          else
            f ← unwrap (data_frames a !! vpn);
            g ← add_frame (mc_groups s) (groupid a) vpn f;
            Done (mkMach (mc_mem s) g (rc_clone (mc_rc s) f), pt, a, true)
  end.

Definition lazy_page_fault (vpn : Z) s pt a : HRet :=
  '(s, pt, a, ppn) ← area_map_one s pt a vpn; Done (s, pt, a, bool_decide (is_Some ppn)).

Definition write_protect_page_fault (vpn : Z) s pt a : HRet :=
  '(m, d, rc, ok) ← handle_write_protect_page_fault (mc_mem s) pt vpn (data_frames a) (mc_rc s);
  Done (mkMach m (mc_groups s) rc, pt, set_frames a d, ok).

(** ** [mm/memory_set/pagefault.rs] *)

Definition handle_mmap_not_present_page_fault s pt a (vpn : Z) (scause : Cause) (prepared : option FilePage) : HRet :=
  let perm := map_perm a in
  let refuse := Done (s, pt, a, false) in
  match scause with
  | LoadPageFault => if contains perm PERM_R then mmap_read_page_fault vpn s pt a prepared else refuse
  | FetchInstructionPageFault => if contains perm PERM_X then mmap_read_page_fault vpn s pt a prepared else refuse
  | PagePrivilegeIllegal =>
      if intersects perm (Z.lor PERM_R PERM_X) then mmap_read_page_fault vpn s pt a prepared
      else if contains perm PERM_W then mmap_write_page_fault vpn s pt a prepared else refuse
  | StorePageFault | PageModifyFault => if contains perm PERM_W then mmap_write_page_fault vpn s pt a prepared else refuse
  end.

Notation Space := (MemorySetInner PageTable.PageTable).

(** [iter_mut().filter(p).find(contains vpn)]: the first such area, by its index. *)
Definition area_index (p : MapArea → bool) (l : list MapArea) (vpn : Z) : option nat :=
  position (λ a, p a && holds a vpn) l.
Definition is_mmap_area a : bool := bool_decide (area_type a = Mmap).
Definition is_lazy_area a : bool := bool_decide (area_type a = Brk ∨ area_type a = Stack ∨ area_type a = Elf).
Definition is_cow_area a : bool :=
  bool_decide (area_type a = Elf ∨ area_type a = Brk ∨ area_type a = Mmap ∨ area_type a = Stack).

(** Run a handler on the area at an index. *)
Definition on_area s (ms : Space) (i : nat) (h : Mach → PageTable.PageTable → MapArea → HRet) : comp (Mach * Space * bool) :=
  a ← unwrap (areas ms !! i);
  '(s, pt, a, ok) ← h s (page_table ms) a;
  Done (s, mkMs pt (<[i := a]> (areas ms)) (total_mmap_size ms) (mmap_hint ms), ok).

Definition lazy_allowed a (scause : Cause) : bool :=
  match scause with
  | LoadPageFault => contains (map_perm a) PERM_R
  | FetchInstructionPageFault => contains (map_perm a) PERM_X
  | PagePrivilegeIllegal => intersects (map_perm a) (Z.lor (Z.lor PERM_R PERM_W) PERM_X)
  | StorePageFault | PageModifyFault => contains (map_perm a) PERM_W
  end.

(** The growing area for a page below it: the one with the lowest start. *)
Definition grows_down (vpn : Z) a : bool :=
  is_mmap_area a && contains (mmap_flags a) MAP_GROWSDOWN && contains (mmap_flags a) MAP_PRIVATE
  && is_anonymous (mmap_file a) && (vpn <? area_start a).
Fixpoint growdown_from (i : nat) (l : list MapArea) (vpn : Z) (best : option (nat * MapArea)) : option (nat * MapArea) :=
  match l with
  | [] => best
  | a :: l =>
      let best := if grows_down vpn a
                  then match best with
                       | Some (j, b) => if area_start a <? area_start b then Some (i, a) else best
                       | None => Some (i, a)
                       end
                  else best in
      growdown_from (S i) l vpn best
  end.
Definition others (i : nat) (l : list MapArea) : list MapArea := vec_remove i l.

Fixpoint max_end (l : list MapArea) : option Z :=
  match l with
  | [] => None
  | a :: l => Some (match max_end l with Some e => Z.max (area_end a) e | None => area_end a end)
  end.

(** The checks before an area grows down to [vpn]. *)
Definition growth_blocked (l : list MapArea) (i : nat) (start vpn : Z) : bool :=
  existsb (λ a, (area_start a <? start) && (vpn <? area_end a)) (others i l)
  || match max_end (List.filter (λ a, area_end a <=? vpn) (others i l)) with
     | Some end_ => vpn - end_ <? STACK_GUARD_GAP_PAGES
     | None => false
     end.

Definition handle_not_present_page_fault s (ms : Space) (vpn : Z) (scause : Cause) (prepared : option FilePage) :
    comp (Mach * Space * bool) :=
  ppn ← translate (mc_mem s) (page_table ms) vpn;
  match ppn with
  | Some _ => Done (s, ms, false)
  | None =>
      match area_index is_mmap_area (areas ms) vpn with
      | Some i => on_area s ms i (λ s pt a, handle_mmap_not_present_page_fault s pt a vpn scause prepared)
      | None =>
          match area_index is_lazy_area (areas ms) vpn with
          | Some i => on_area s ms i (λ s pt a, if lazy_allowed a scause then lazy_page_fault vpn s pt a else Done (s, pt, a, false))
          | None =>
              if existsb (λ a, holds a vpn) (areas ms) then Done (s, ms, false)
              else
                match growdown_from 0 (areas ms) vpn None with
                | None => Done (s, ms, false)
                | Some (i, g) =>
                    if growth_blocked (areas ms) i (area_start g) vpn then Done (s, ms, false)
                    else on_area s ms i (λ s pt a,
                           '(s, pt, a, ok) ← handle_mmap_not_present_page_fault s pt a vpn scause prepared;
                           if negb ok then Done (s, pt, a, false)
                           else r ← range_new vpn (area_end g); Done (s, pt, set_range a r, true))
                end
          end
      end
  end.

Definition handle_write_protect_fault s (ms : Space) (vpn : Z) (scause : Cause) : comp (Mach * Space * bool) :=
  if bool_decide (scause = LoadPageFault ∨ scause = FetchInstructionPageFault) then Done (s, ms, false)
  else
    match area_index is_cow_area (areas ms) vpn with
    | None => Done (s, ms, false)
    | Some i => on_area s ms i (write_protect_page_fault vpn)
    end.

Definition handle_page_fault s (ms : Space) (vpn : Z) (scause : Cause) (prepared : option FilePage) : comp (Mach * Space * bool) :=
  '(s, ms, ok) ← handle_not_present_page_fault s ms vpn scause prepared;
  if (ok : bool) then Done (s, ms, true) else handle_write_protect_fault s ms vpn scause.

(** Whether a store to a present copy-on-write page needs a new frame. *)
Definition cow_fault_requires_frame_copy s (ms : Space) (vpn : Z) (scause : Cause) : comp (option bool) :=
  if bool_decide (scause = LoadPageFault ∨ scause = FetchInstructionPageFault) then Done None
  else
    cow ← is_cow_page (mc_mem s) (page_table ms) vpn;
    if negb cow then Done None
    else match area_index is_cow_area (areas ms) vpn with
    | None => Done None
    | Some i =>
        a ← unwrap (areas ms !! i);
        Done (Some (match data_frames a !! vpn with Some f => (1 <? rc_get (mc_rc s) f)%nat | None => true end))
    end.

(** ** [mm/memory_set/fork_clone.rs] *)

Definition is_dynamic_mmap_stack a : bool := bool_decide (area_type a = Stack) && contains (mmap_flags a) MAP_STACK.
Definition is_mmap_vma a : bool := is_mmap_area a || is_dynamic_mmap_stack a.

(** The entries of a [BTreeMap] in the order of its keys. *)
Definition entry_le (x y : Z * Z) : Prop := x.1 < y.1 ∨ x.1 = y.1 ∧ x.2 ≤ y.2.
#[global] Instance entry_le_dec x y : Decision (entry_le x y).
Proof. unfold entry_le. apply _. Defined.
Definition in_order (d : gmap Z Z) : list (Z * Z) := merge_sort entry_le (map_to_list d).

(** The file page that was loaded for page [vpn] before the lock was taken. *)
Definition prefetched (prepared : Z → Z → option FilePage) a (vpn : Z) : option FilePage :=
  file ← inode_file (mmap_file a);
  d ← checked_mul (vpn - area_start a) PAGE_SIZE;
  o ← checked_add d (mf_offset (mmap_file a));
  prepared file (o / PAGE_SIZE).

(** Frames for the pages of a shared area that have none; failures are ignored. *)
Fixpoint prefault_pages (prepared : Z → Z → option FilePage) s pt a (vpns : list Z) :
    comp (Mach * PageTable.PageTable * MapArea) :=
  match vpns with
  | [] => Done (s, pt, a)
  | vpn :: vpns =>
      '(s, pt, a) ← (
        if bool_decide (is_Some (data_frames a !! vpn)) then Done (s, pt, a)
        else if is_anonymous (mmap_file a) then fst <$> area_map_one s pt a vpn
        else if bool_decide (is_Some (inode_file (mmap_file a)))
             then fst <$> mmap_write_page_fault vpn s pt a (prefetched prepared a vpn)
             else fst <$> mmap_write_page_fault vpn s pt a None);
      prefault_pages prepared s pt a vpns
  end.
Fixpoint prefault_areas (prepared : Z → Z → option FilePage) s pt (l : list MapArea) :
    comp (Mach * PageTable.PageTable * list MapArea) :=
  match l with
  | [] => Done (s, pt, [])
  | a :: l =>
      '(s, pt, a) ← (if is_mmap_vma a && is_shared a then prefault_pages prepared s pt a (range_pages (vpn_range a))
                     else Done (s, pt, a));
      '(s, pt, l) ← prefault_areas prepared s pt l;
      Done (s, pt, a :: l)
  end.

Fixpoint share_pages s pt (cpt : PageTable.PageTable) (vpns : list Z) : comp (Mach * PageTable.PageTable) :=
  match vpns with
  | [] => Done (s, cpt)
  | vpn :: vpns =>
      '(m, cpt) ← handle_cow_mapping_from_exited_user (mc_mem s) pt cpt vpn;
      share_pages (with_mem s m) pt cpt vpns
  end.
(** The same where the loop looks for a translation first. *)
Fixpoint share_mapped s pt (cpt : PageTable.PageTable) (vpns : list Z) : comp (Mach * PageTable.PageTable) :=
  match vpns with
  | [] => Done (s, cpt)
  | vpn :: vpns =>
      ppn ← translate (mc_mem s) pt vpn;
      '(m, cpt) ← (match ppn with
                   | Some _ => handle_cow_mapping_from_exited_user (mc_mem s) pt cpt vpn
                   | None => Done (mc_mem s, cpt)
                   end);
      share_mapped (with_mem s m) pt cpt vpns
  end.

(** [copy_from_slice] of every page both spaces translate; [strict] where a
    missing translation panics. *)
Fixpoint copy_pages (strict : bool) s pt cpt (vpns : list Z) : comp Mach :=
  match vpns with
  | [] => Done s
  | vpn :: vpns =>
      src ← translate (mc_mem s) pt vpn;
      dst ← translate (mc_mem s) cpt vpn;
      match src, dst with
      | Some src, Some dst => copy_pages strict (fill_page s dst (bytes_array (mc_mem s) src)) pt cpt vpns
      | _, _ => if strict then Panic else copy_pages strict s pt cpt vpns
      end
  end.

Definition rc_clone_all (rc : gmap Z nat) (l : list Z) : gmap Z nat := foldl rc_clone rc l.
Definition rc_fresh (rc : gmap Z nat) (l : list Z) : gmap Z nat := foldl (λ rc f, <[f := 1%nat]> rc) rc l.
Definition give_area s (child : Space) cpt a : comp (Mach * Space) :=
  child ← push_lazily (set_pt child cpt) a; Done (s, child).
(** The new area is dropped. *)
Definition refuse_area s (child : Space) cpt a : comp (Mach * Space) :=
  g ← drop_area (mc_groups s) a; Done (with_groups s g, set_pt child cpt).

Definition fork_huge s pt (child : Space) a na : comp (Mach * Space) :=
  if is_shared a then
    let frames := (in_order (data_frames a)).*2 in
    '(m, cpt, na, ok) ← map_huge_given_frames (H := sv39_ops huge_alloc) (mc_mem s, page_table child) na frames;
    if (ok : bool) then give_area (mkMach m (mc_groups s) (rc_clone_all (mc_rc s) frames)) child cpt na
    else refuse_area (with_mem s m) child cpt na
  else
    '(m, cpt, na, ok) ← map_huge (H := sv39_ops huge_alloc) (mc_mem s, page_table child) na;
    let s := mkMach m (mc_groups s) (rc_fresh (mc_rc s) (in_order (data_frames na)).*2) in
    if negb ok then refuse_area s child cpt na
    else s ← copy_pages false s pt cpt (range_pages (vpn_range a)); give_area s child cpt na.

(** A shared area: the frames in order, from the start of the range. *)
Definition fork_given s (child : Space) a na : comp (Mach * Space) :=
  let frames := (in_order (data_frames a)).*2 in
  '(m, cpt, na) ← map_given_frames (H := sv39_ops huge_alloc) (mc_mem s, page_table child) na frames;
  give_area (mkMach m (mc_groups s) (rc_clone_all (mc_rc s) (take (length (range_pages (vpn_range a))) frames))) child cpt na.

(** A private area: its frames with another reference each, copy on write. *)
Definition fork_private s pt (child : Space) a na (vpns : list Z) (mapped_only : bool) : comp (Mach * Space) :=
  let s := with_rc s (rc_clone_all (mc_rc s) (in_order (data_frames a)).*2) in
  '(s, cpt) ← (if mapped_only then share_mapped s pt (page_table child) vpns else share_pages s pt (page_table child) vpns);
  give_area s child cpt (set_frames na (data_frames a)).

Definition fork_area s pt (child : Space) a : comp (Mach * Space) :=
  if (bool_decide (area_type a = Stack) && negb (is_dynamic_mmap_stack a)) || bool_decide (area_type a = Trap)
  then Done (s, child)
  else
    let na := area_from_another a in
    let s := if is_mmap_vma a && is_shared a then with_groups s (add_area (mc_groups s) (groupid na)) else s in
    if is_huge a then fork_huge s pt child a na
    else if is_mmap_vma a || bool_decide (area_type a = Brk) then
      if is_shared a then fork_given s child a na
      else
        let vpns := if bool_decide (area_type a = Brk) then range_pages (vpn_range a) else (in_order (data_frames a)).*1 in
        fork_private s pt child a na vpns true
    else if bool_decide (area_type a = Elf) then fork_private s pt child a na (range_pages (vpn_range a)) false
    else if bool_decide (area_type a = Shm) then fork_given s child a na
    else
      '(m, cpt, na, ok) ← area_map (H := sv39_ops huge_alloc) (mc_mem s, page_table child) na;
      let s := mkMach m (mc_groups s) (rc_fresh (mc_rc s) (in_order (data_frames na)).*2) in
      '(s, child) ← (if (ok : bool) then give_area s child cpt na else refuse_area s child cpt na);
      s ← copy_pages true s pt (page_table child) (range_pages (vpn_range a));
      Done (s, child).

Fixpoint fork_areas s pt (child : Space) (l : list MapArea) : comp (Mach * Space) :=
  match l with
  | [] => Done (s, child)
  | a :: l => '(s, child) ← fork_area s pt child a; fork_areas s pt child l
  end.

(** [from_existed_user]: the parent and the child. *)
Definition from_existed_user (prepared : Z → Z → option FilePage) (kernel : PageTable.PageTable) s (ms : Space) :
    comp (Mach * Space * Space) :=
  '(m, cpt) ← new_from_kernel (mc_mem s) kernel;
  '(s, pt, l) ← prefault_areas prepared (with_mem s m) (page_table ms) (areas ms);
  let ms := mkMs pt l (total_mmap_size ms) (mmap_hint ms) in
  '(s, child) ← fork_areas s pt (new_bare cpt) l;
  Done (s, ms, child).

(** [lazy_clone_area]: the copy of the fixed stack. *)
Definition source_pages s (ms : Space) (start_vpn : Z) : comp (list (Z * Z)) :=
  match find (λ a, area_start a =? start_vpn) (areas ms) with
  | None => Done []
  | Some a =>
      foldr (λ '(v, f) rest,
        l ← rest; ppn ← translate (mc_mem s) (page_table ms) v;
        Done (if bool_decide (ppn = Some f) then (v, f) :: l else l)) (Done []) (in_order (data_frames a))
  end.
Fixpoint clone_pages s pt a (l : list (Z * Z)) : comp (Mach * PageTable.PageTable * MapArea) :=
  match l with
  | [] => Done (s, pt, a)
  | (vpn, src) :: l =>
      if negb (contains_vpn (vpn_range a) vpn) then clone_pages s pt a l
      else
        ppn ← translate (mc_mem s) pt vpn;
        '(s, pt, a, dst) ← (match ppn with Some p => Done (s, pt, a, Some p) | None => area_map_one s pt a vpn end);
        match dst with
        | None => clone_pages s pt a l
        | Some dst => clone_pages (fill_page s dst (bytes_array (mc_mem s) src)) pt a l
        end
  end.
Definition lazy_clone_area s (ms : Space) (start_vpn : Z) (another : Space) : comp (Mach * Space) :=
  l ← source_pages s another start_vpn;
  match position (λ a, area_start a =? start_vpn) (areas ms) with
  | None => Done (s, ms)
  | Some i =>
      a ← unwrap (areas ms !! i);
      '(s, pt, a) ← clone_pages s (page_table ms) a l;
      Done (s, mkMs pt (<[i := a]> (areas ms)) (total_mmap_size ms) (mmap_hint ms))
  end.
End fault.
