(* ===== verification/FaultIso.v ===== *)
(** * Who refers to a frame

    Frames are referred to by the pages of address spaces, by the groups of shared
    areas and by the caches of files.  The invariant [iso] ties the page-table
    entries, the reference counts and these references together, and says that a
    frame a private page may store to has no other reference.  Each lemma is one
    thing a fault handler or fork does to a page. *)

From S2P Require Import Prelude Address FrameAlloc PageTable MapArea AreaPt AreaSet Mmu Fault.

Inductive Key : Type := KPage (r v : Z) | KGroup (id v : Z).
#[export] Instance Key_eq_dec : EqDecision Key.
Proof. solve_decision. Defined.

Definition frames_put (F : Key → option Z) (k : Key) (f : Z) : Key → option Z := λ k', if decide (k' = k) then Some f else F k'.

(** The writable bit of an entry. *)
Definition writes (b : Z) : bool := contains (pte_flags_of b) WRITEABLE.

Section iso.
Context `{FrameSource Src} (ext : Z → nat).
Implicit Types (m : PhysMem Src) (rc : gmap Z nat) (F : Key → option Z) (P : Z → Z → bool) (Q : Z → Z → Z → Prop).

(** [P] are the private pages, [Q] the entries a page may have. *)
Record iso (roots : list Z) m rc F P Q : Prop := {
  is_mem : mem_ok roots m;
  is_track r v b : r ∈ roots → user_vpn v → entry_at m r v = Some b → F (KPage r v) = Some (get_ppn b);
  is_adm r v b : r ∈ roots → user_vpn v → entry_at m r v = Some b → Q r v b;
  is_used f : (∃ k, F k = Some f) ∨ (0 < ext f)%nat → ¬ fs_free (source m) f ∧ 0 ≤ f < 2 ^ 44;
  is_count f l : NoDup l → (∀ k, k ∈ l → F k = Some f) → (length l + ext f ≤ rc_get rc f)%nat;
  is_sole r v b : r ∈ roots → user_vpn v → entry_at m r v = Some b → writes b = true → P r v = true →
    (∀ k, F k = Some (get_ppn b) → k = KPage r v) ∧ ext (get_ppn b) = 0%nat }.

(** No private page may store to the frame. *)
Definition unwritten (roots : list Z) m P (f : Z) : Prop :=
  ∀ r v b, r ∈ roots → user_vpn v → entry_at m r v = Some b → writes b = true → P r v = true → get_ppn b ≠ f.

Lemma rc_get_insert rc f n g : rc_get (<[f := n]> rc) g = if decide (g = f) then n else rc_get rc g.
Proof. unfold rc_get. destruct (decide (g = f)) as [->|]; [by rewrite lookup_insert_eq|by rewrite lookup_insert_ne]. Qed.

(** A list of keys for the frames after [frames_put], without the new one. *)
Lemma count_put F k f l : NoDup l → (∀ k', k' ∈ l → frames_put F k f k' = Some f) →
  ∃ l', NoDup l' ∧ (∀ k', k' ∈ l' → F k' = Some f ∧ k' ≠ k) ∧ (length l ≤ S (length l'))%nat.
Proof.
  intros Hnd Hl. exists (filter (λ k', k' ≠ k) l). split_and!; [by apply NoDup_filter| |].
  - intros k' [Hne Hk']%list_elem_of_filter. split; [|done]. specialize (Hl k' Hk'). unfold frames_put in Hl. by rewrite decide_False in Hl.
  - change (S (length (filter (λ k', k' ≠ k) l))) with (length (k :: filter (λ k', k' ≠ k) l)).
    apply submseteq_length, NoDup_submseteq; [done|]. intros x Hx. destruct (decide (x = k)) as [->|]; [left|right].
    by apply list_elem_of_filter.
Qed.

Lemma count_other F k f g l : f ≠ g → NoDup l → (∀ k', k' ∈ l → frames_put F k f k' = Some g) →
  (∀ k', k' ∈ l → F k' = Some g ∧ k' ≠ k).
Proof.
  intros Hne _ Hl k' Hk'. specialize (Hl k' Hk'). unfold frames_put in Hl. case_decide; [congruence|done].
Qed.

(** Taking a frame or writing data pages. *)
Lemma iso_same roots m m' rc F P Q : iso roots m rc F P Q → pte_same roots m m' → iso roots m' rc F P Q.
Proof.
  intros [I1 I2 I3 I4 I5 I6] [S1 S2 S3]. split; [done|..].
  - intros r v b Hr Hu. rewrite S2 by done. by apply I2.
  - intros r v b Hr Hu. rewrite S2 by done. by apply I3.
  - intros f Hf. destruct (I4 f Hf) as [Hn Hr]. split; [|done]. by intros ?%S3.
  - done.
  - intros r v b Hr Hu. rewrite S2 by done. by apply I6.
Qed.

(** The counts of frames nobody refers to do not matter. *)
Lemma iso_rc_unused roots m rc F P Q f n : iso roots m rc F P Q → (∀ k, F k ≠ Some f) → ext f = 0%nat →
  iso roots m (<[f := n]> rc) F P Q.
Proof.
  intros [I1 I2 I3 I4 I5 I6] Hf He. split; try done. intros g l Hnd Hl. rewrite rc_get_insert. destruct (decide (g = f)) as [->|]; [|by apply I5].
  destruct l as [|k l]; [simpl; lia|]. exfalso. by apply (Hf k), Hl; left.
Qed.

(** The private pages and permissions matter only where entries are. *)
Lemma iso_ext roots m rc F F' P P' Q Q' : iso roots m rc F P Q → (∀ k, F' k = F k) →
  (∀ r v b, r ∈ roots → user_vpn v → entry_at m r v = Some b → P' r v = P r v ∧ (Q r v b → Q' r v b)) → iso roots m rc F' P' Q'.
Proof.
  intros [I1 I2 I3 I4 I5 I6] HF HP. split; [done|..].
  - intros r v b Hr Hu Hb. rewrite HF. by apply I2.
  - intros r v b Hr Hu Hb. destruct (HP r v b Hr Hu Hb) as [_ E]. by apply E, I3.
  - intros f [[k Hk]|He]; apply I4; [left; exists k; by rewrite <- HF|by right].
  - intros f l Hnd Hl. apply I5; [done|]. intros k Hk. rewrite <- HF. by apply Hl.
  - intros r v b Hr Hu Hb Hw Hp. destruct (HP r v b Hr Hu Hb) as [E _].
    destruct (I6 r v b Hr Hu Hb Hw) as [Hs He]; [congruence|]. split; [|done]. intros k. rewrite HF. apply Hs.
Qed.

(** A new frame for a page that has none. *)
Lemma iso_new roots m m1 m1' m2 rc F P Q r v f b : iso roots m rc F P Q → r ∈ roots → user_vpn v → F (KPage r v) = None →
  frame_alloc m = Some (f, m1) → pte_same roots m1 m1' → pte_set roots m1' r v b m2 → get_ppn b = f → Q r v b →
  iso roots m2 (<[f := 1%nat]> rc) (frames_put F (KPage r v) f) P Q.
Proof.
  intros Hi Hr Hu Hnone Ha [_ R2 R3] [T1 T2 T3' _ _] Hppn Hleaf. pose proof (is_mem _ _ _ _ _ _ Hi) as Hm.
  destruct (alloc_same roots m f m1 Hm Ha) as (Hsame & Hfree & Hnfree & Hrange & _).
  destruct Hi as [I1 I2 I3 I4 I5 I6]. destruct Hsame as [S1 S2 S3].
  assert (∀ q, fs_free (source m2) q → fs_free (source m1) q) as T3 by (intros q ?%T3'%R3; done).
  assert (∀ k, F k ≠ Some f) as Hfresh by (intros k Hk; by destruct (I4 f) as [? _]; [left; eauto|]).
  assert (ext f = 0%nat) as He by (destruct (ext f) eqn:E; [done|]; destruct (I4 f) as [? _]; [right; lia|done]).
  assert (∀ r' v' b', r' ∈ roots → user_vpn v' → entry_at m2 r' v' = Some b' →
    (r' = r ∧ v' = v ∧ b' = b) ∨ ((r', v') ≠ (r, v) ∧ entry_at m r' v' = Some b')) as Hold.
  { intros r' v' b' Hr' Hu'. rewrite T2 by done. destruct (decide (r' = r ∧ v' = v)) as [[-> ->]|Hne].
    - intros [= <-]. by left.
    - rewrite R2, S2 by done. right. split; [|done]. intros [= -> ->]. by apply Hne. }
  split; [done|..].
  - intros r' v' b' Hr' Hu' Hb'. unfold frames_put. destruct (Hold r' v' b' Hr' Hu' Hb') as [(-> & -> & ->)|[Hne Hb]].
    + by rewrite decide_True, Hppn.
    + rewrite decide_False by congruence. by apply I2.
  - intros r' v' b' Hr' Hu' Hb'. destruct (Hold r' v' b' Hr' Hu' Hb') as [(-> & -> & ->)|[Hne Hb]]; [done|by apply (I3 r' v')].
  - intros g [[k Hk]|Hg].
    + unfold frames_put in Hk. case_decide as Hd; [simplify_eq; split; [|done]; by intros ?%T3|].
      destruct (I4 g) as [Hn ?]; [left; eauto|]. split; [|done]. by intros ?%T3%S3.
    + destruct (I4 g) as [Hn ?]; [by right|]. split; [|done]. by intros ?%T3%S3.
  - intros g l Hnd Hl. rewrite rc_get_insert. destruct (decide (g = f)) as [->|Hne].
    + destruct (count_put F (KPage r v) f l Hnd Hl) as (l' & _ & Hl' & Hlen). destruct l' as [|k l']; [simpl in Hlen; lia|].
      exfalso. apply (Hfresh k), Hl'. by left.
    + apply I5; [done|]. intros k Hk. by eapply (count_other F (KPage r v) f g l).
  - intros r' v' b' Hr' Hu' Hb' Hw Hp. destruct (Hold r' v' b' Hr' Hu' Hb') as [(-> & -> & ->)|[Hne Hb]].
    + rewrite Hppn. split; [|done]. intros k. unfold frames_put. case_decide; [done|]. by intros ?%Hfresh.
    + destruct (I6 r' v' b' Hr' Hu' Hb Hw Hp) as [Hs He']. split; [|done]. intros k. unfold frames_put. case_decide; [|apply Hs].
      intros [= Hf]. exfalso. apply (Hfresh (KPage r' v')). rewrite Hf. by apply I2.
Qed.

(** Another reference to a frame in use. *)
Lemma iso_ref roots m rc F P Q k f : iso roots m rc F P Q → F k = None → (∃ k, F k = Some f) ∨ (0 < ext f)%nat →
  unwritten roots m P f → iso roots m (rc_clone rc f) (frames_put F k f) P Q.
Proof.
  intros [I1 I2 I3 I4 I5 I6] Hk Hf Hun. split; try done.
  - intros r v b Hr Hu Hb. unfold frames_put. case_decide; [|by apply I2]. subst k. by rewrite (I2 r v b) in Hk.
  - intros g [[k' Hk']|Hg]; [|apply I4; by right]. unfold frames_put in Hk'. case_decide; [simplify_eq; by apply I4|]. apply I4. left. eauto.
  - intros g l Hnd Hl. unfold rc_clone. rewrite rc_get_insert. destruct (decide (g = f)) as [->|Hne].
    + destruct (count_put F k f l Hnd Hl) as (l' & Hnd' & Hl' & Hlen). specialize (I5 f l' Hnd'). assert (length l' + ext f ≤ rc_get rc f)%nat; [|lia].
      apply I5. intros k' ?. by apply Hl'.
    + apply I5; [done|]. intros k' Hk'. by eapply (count_other F k f g l).
  - intros r v b Hr Hu Hb Hw Hp. destruct (I6 r v b Hr Hu Hb Hw Hp) as [Hs He]. split; [|done]. intros k'. unfold frames_put. case_decide; [|apply Hs].
    intros [= Hf']. by destruct (Hun r v b Hr Hu Hb Hw Hp).
Qed.

(** The entry of a page that has the frame. *)
Lemma iso_entry roots m m' rc F P Q r v b : iso roots m rc F P Q → pte_set roots m r v b m' → F (KPage r v) = Some (get_ppn b) →
  Q r v b →
  (writes b = true → P r v = true → (∀ k, F k = Some (get_ppn b) → k = KPage r v) ∧ ext (get_ppn b) = 0%nat) →
  iso roots m' rc F P Q.
Proof.
  intros [I1 I2 I3 I4 I5 I6] [T1 T2 T3 _ _] HF Hl Hw. split; try done.
  - intros r' v' b' Hr' Hu'. rewrite T2 by done. destruct (decide (r' = r ∧ v' = v)) as [[-> ->]|]; [by intros [= <-]|by apply I2].
  - intros r' v' b' Hr' Hu'. rewrite T2 by done. destruct (decide (r' = r ∧ v' = v)) as [[-> ->]|]; [by intros [= <-]|by apply I3].
  - intros f Hf. destruct (I4 f Hf) as [Hn ?]. split; [|done]. by intros ?%T3.
  - intros r' v' b' Hr' Hu'. rewrite T2 by done. destruct (decide (r' = r ∧ v' = v)) as [[-> ->]|]; [by intros [= <-]|by apply I6].
Qed.

(** A frame with one reference. *)
Lemma iso_single roots m rc F P Q k f : iso roots m rc F P Q → F k = Some f → rc_get rc f = 1%nat →
  (∀ k', F k' = Some f → k' = k) ∧ ext f = 0%nat.
Proof.
  intros Hi Hk Hrc. split.
  - intros k' Hk'. destruct (decide (k' = k)) as [|Hne]; [done|]. exfalso.
    assert (length [k; k'] + ext f ≤ rc_get rc f)%nat; [|simpl in *; lia]. apply (is_count _ _ _ _ _ _ Hi).
    + apply NoDup_cons. split; [by intros ?%list_elem_of_singleton|apply NoDup_singleton].
    + intros x [->|Hx]%elem_of_cons; [done|]. apply list_elem_of_singleton in Hx as ->. done.
  - assert (length [k] + ext f ≤ rc_get rc f)%nat; [|simpl in *; lia]. apply (is_count _ _ _ _ _ _ Hi); [apply NoDup_singleton|].
    by intros x ->%list_elem_of_singleton.
Qed.

(** A page leaves its frame for a new one. *)
Lemma iso_copy roots m m1 m2 rc F P Q r v f dst b Pg : iso roots m rc F P Q → r ∈ roots → user_vpn v → F (KPage r v) = Some f →
  frame_alloc m = Some (dst, m1) → pte_set roots (set_pages m1 Pg) r v b m2 → get_ppn b = dst → Q r v b →
  iso roots m2 (<[dst := 1%nat]> (rc_drop rc f)) (frames_put F (KPage r v) dst) P Q.
Proof.
  intros Hi Hr Hu Hk Ha Hs Hppn Hleaf. pose proof (is_mem _ _ _ _ _ _ Hi) as Hm.
  destruct (alloc_same roots m dst m1 Hm Ha) as (Hsame & Hfree & Hnfree & Hrange & _).
  pose proof (iso_same _ _ _ _ _ _ _ (iso_same _ _ _ _ _ _ _ Hi Hsame) (pages_same roots m1 Pg (pe_ok _ _ _ Hsame))) as Hi1.
  assert (∀ k, F k ≠ Some dst) as Hfresh by (intros k Hk'; by destruct (is_used _ _ _ _ _ _ Hi dst) as [? _]; [left; eauto|]).
  assert (ext dst = 0%nat) as He by (destruct (ext dst) eqn:E; [done|]; destruct (is_used _ _ _ _ _ _ Hi dst) as [? _]; [right; lia|done]).
  destruct Hi1 as [I1 I2 I3 I4 I5 I6]. destruct Hs as [T1 T2 T3 _ _].
  assert (∀ r' v' b', r' ∈ roots → user_vpn v' → entry_at m2 r' v' = Some b' →
    (r' = r ∧ v' = v ∧ b' = b) ∨ ((r', v') ≠ (r, v) ∧ entry_at (set_pages m1 Pg) r' v' = Some b')) as Hold.
  { intros r' v' b' Hr' Hu'. rewrite T2 by done. destruct (decide (r' = r ∧ v' = v)) as [[-> ->]|Hne].
    - intros [= <-]. by left.
    - right. split; [|done]. intros [= -> ->]. by apply Hne. }
  assert (f ≠ dst) as Hfd by (intros ->; by apply (Hfresh (KPage r v))).
  split; [done|..].
  - intros r' v' b' Hr' Hu' Hb'. unfold frames_put. destruct (Hold r' v' b' Hr' Hu' Hb') as [(-> & -> & ->)|[Hne Hb]].
    + by rewrite decide_True, Hppn.
    + rewrite decide_False by congruence. by apply I2.
  - intros r' v' b' Hr' Hu' Hb'. destruct (Hold r' v' b' Hr' Hu' Hb') as [(-> & -> & ->)|[Hne Hb]]; [done|by apply (I3 r' v')].
  - intros g [[k Hk']|Hg].
    + unfold frames_put in Hk'. case_decide as Hd; [simplify_eq; split; [|done]; by intros ?%T3|].
      destruct (I4 g) as [Hn ?]; [left; eauto|]. split; [|done]. by intros ?%T3.
    + destruct (I4 g) as [Hn ?]; [by right|]. split; [|done]. by intros ?%T3.
  - intros g l Hnd Hl. rewrite rc_get_insert. unfold rc_drop. rewrite rc_get_insert. destruct (decide (g = dst)) as [->|Hne].
    { destruct (count_put F (KPage r v) dst l Hnd Hl) as (l' & _ & Hl' & Hlen). destruct l' as [|k l']; [simpl in Hlen; lia|].
      exfalso. apply (Hfresh k), Hl'. by left. }
    pose proof (count_other F (KPage r v) dst g l ltac:(congruence) Hnd Hl) as Ho. destruct (decide (g = f)) as [->|].
    + assert (length (KPage r v :: l) + ext f ≤ rc_get rc f)%nat; [|simpl in *; lia]. apply I5.
      * apply NoDup_cons. split; [|done]. intros Hin. by destruct (Ho _ Hin).
      * intros k [->|Hin]%elem_of_cons; [done|]. by apply Ho.
    + apply I5; [done|]. intros k Hin. by apply Ho.
  - intros r' v' b' Hr' Hu' Hb' Hw Hp. destruct (Hold r' v' b' Hr' Hu' Hb') as [(-> & -> & ->)|[Hne Hb]].
    + rewrite Hppn. split; [|done]. intros k. unfold frames_put. case_decide; [done|]. by intros ?%Hfresh.
    + destruct (I6 r' v' b' Hr' Hu' Hb Hw Hp) as [Hs He']. split; [|done]. intros k. unfold frames_put. case_decide; [|apply Hs].
      intros [= Hf]. exfalso. apply (Hfresh (KPage r' v')). rewrite Hf. by apply I2.
Qed.

(** A new address space without user pages. *)
Lemma iso_root roots m m' rc F P Q r0 : iso roots m rc F P Q → mem_ok (r0 :: roots) m' → (∀ f, fs_free (source m') f → fs_free (source m) f) →
  (∀ r v, r ∈ roots → user_vpn v → entry_at m' r v = entry_at m r v) → (∀ v, user_vpn v → entry_at m' r0 v = None) →
  iso (r0 :: roots) m' rc F P Q.
Proof.
  intros [I1 I2 I3 I4 I5 I6] Hm Hfree Hold Hnew.
  assert (∀ r v b, r ∈ r0 :: roots → user_vpn v → entry_at m' r v = Some b → r ∈ roots ∧ entry_at m r v = Some b) as Hr.
  { intros r v b [->|Hr]%elem_of_cons Hu Hb; [by rewrite Hnew in Hb|]. by rewrite Hold in Hb. }
  split; try done.
  - intros r v b H1 H2 H3. destruct (Hr r v b H1 H2 H3). by apply I2.
  - intros r v b H1 H2 H3. destruct (Hr r v b H1 H2 H3). by apply I3.
  - intros f Hf. destruct (I4 f Hf) as [Hn ?]. split; [|done]. by intros ?%Hfree.
  - intros r v b H1 H2 H3. destruct (Hr r v b H1 H2 H3). by apply I6.
Qed.
End iso.
