(* ===== verification/FaultInv.v ===== *)
(** * The effect of the fault handlers

    Every handler of [Fault] on one page of one area: it does not panic while
    there are frames for tables, it keeps the invariant of [FaultIso], it changes
    the entry of that page only and no byte of a frame in use, and when it reports
    success the entry allows the access. *)

From S2P Require Import Prelude Address FrameAlloc PageTable MapArea AreaPt AreaSet Mmu Fault FaultIso.

(** ** Entries and permissions *)

Definition leafy (perm : Z) : bool := contains perm PERM_R || contains perm PERM_W || contains perm PERM_X.
Definition cows (b : Z) : bool := contains (pte_flags_of b) COW.

(** The entries a page with these permissions may have. *)
Definition adm (perm b : Z) : Prop :=
  (leafy perm = true → pte_leaf b = true) ∧
  (writes b || cows b = true → contains perm PERM_W = true ∧ contains (pte_flags_of b) READABLE = true) ∧
  (contains perm PERM_W = true → writes b || cows b = true).

(** What the hardware allows. *)
Definition allows (b : Z) (c : Cause) : bool :=
  match c with
  | LoadPageFault => contains (pte_flags_of b) READABLE
  | FetchInstructionPageFault => contains (pte_flags_of b) EXECUTABLE
  | StorePageFault | PageModifyFault => contains (pte_flags_of b) WRITEABLE
  | PagePrivilegeIllegal => true
  end.
(** What the area allows. *)
Definition permits (perm : Z) (c : Cause) : bool :=
  match c with
  | LoadPageFault => contains perm PERM_R
  | FetchInstructionPageFault => contains perm PERM_X
  | StorePageFault | PageModifyFault => contains perm PERM_W
  | PagePrivilegeIllegal => leafy perm
  end.

Ltac perm_cases perm :=
  unfold mmap_fault_flags, flags_from_perm, leafy, permits in *;
  destruct (contains perm PERM_R), (contains perm PERM_W), (contains perm PERM_X), (contains perm PERM_U).

Lemma intersects_lor p x y : intersects p (Z.lor x y) = intersects p x || intersects p y.
Proof.
  unfold intersects. rewrite Z.land_lor_distr_r. destruct (Z.eqb_spec (Z.lor (Z.land p x) (Z.land p y)) 0) as [E|E].
  - apply Z.lor_eq_0_iff in E as [-> ->]. done.
  - destruct (Z.eqb_spec (Z.land p x) 0) as [Ex|]; [|done]. destruct (Z.eqb_spec (Z.land p y) 0) as [Ey|]; [|done].
    exfalso. apply E. by rewrite Ex, Ey.
Qed.
Lemma intersects_single p n : 0 ≤ n → intersects p (2 ^ n) = contains p (2 ^ n).
Proof.
  intros Hn. rewrite contains_bit by done. unfold intersects. destruct (Z.testbit p n) eqn:E.
  - apply negb_true_iff, Z.eqb_neq. intros E0. assert (Z.testbit (Z.land p (2 ^ n)) n = true) as E1 by (rewrite Z.land_spec, E, Z.pow2_bits_true; done).
    by rewrite E0, Z.bits_0 in E1.
  - apply negb_false_iff, Z.eqb_eq. apply Z.bits_inj'. intros k Hk. rewrite Z.land_spec, Z.bits_0, Z.pow2_bits_eqb by done.
    destruct (Z.eqb_spec n k) as [<-|]; [by rewrite E|by rewrite andb_false_r].
Qed.
Lemma intersects_perms p : intersects p (Z.lor PERM_R PERM_X) = contains p PERM_R || contains p PERM_X ∧
  intersects p (Z.lor (Z.lor PERM_R PERM_W) PERM_X) = leafy p.
Proof.
  unfold leafy. change PERM_R with (2 ^ 1). change PERM_W with (2 ^ 2). change PERM_X with (2 ^ 3).
  by rewrite !intersects_lor, !intersects_single by done.
Qed.

(** An entry made from the permissions. *)
Lemma new_entry perm f : 0 ≤ f < 2 ^ 44 → let b := pte_new f (Z.lor (flags_from_perm perm) VALID) in
  get_ppn b = f ∧ adm perm b ∧ (∀ c, permits perm c = true → allows b c = true).
Proof.
  intros Hf b. assert (pte_flags_of b = Z.lor (flags_from_perm perm) VALID) as Hb.
  { apply pte_flags_of_new; [done|]. perm_cases perm; done. }
  split; [apply get_ppn_new; [done|perm_cases perm; done]|]. unfold adm, allows, writes, cows, pte_leaf. rewrite Hb.
  split; [perm_cases perm; done|]. intros []; perm_cases perm; done.
Qed.

Lemma fault_entry perm shared f : 0 ≤ f < 2 ^ 44 → let b := pte_new f (Z.lor (mmap_fault_flags perm shared) VALID) in
  get_ppn b = f ∧ adm perm b ∧ (writes b = true → shared = true) ∧
  (∀ c, permits perm c = true → (c = StorePageFault ∨ c = PageModifyFault → shared = true) → allows b c = true).
Proof.
  intros Hf b. assert (pte_flags_of b = Z.lor (mmap_fault_flags perm shared) VALID) as Hb.
  { apply pte_flags_of_new; [done|]. destruct shared; perm_cases perm; (split; [apply Z.leb_le|apply Z.ltb_lt]; reflexivity). }
  split; [apply get_ppn_new; [done|destruct shared; perm_cases perm; (split; [apply Z.leb_le|apply Z.ltb_lt]; reflexivity)]|]. unfold adm, allows, writes, cows, pte_leaf. rewrite Hb.
  split; [destruct shared; perm_cases perm; done|]. split; [destruct shared; perm_cases perm; done|].
  intros [] Hp Hs; destruct shared; try (specialize (Hs ltac:(auto)); done); perm_cases perm; done.
Qed.

(** A private copy stays readable. *)
Lemma private_readable b : pte_ok b → contains (pte_flags_of b) READABLE = true →
  let fl := bits_remove (pte_flags_of b) COW in
  contains (pte_flags_of (set_flags b (bits_insert (bits_insert (bits_insert fl WRITEABLE) READABLE) DIRTY))) READABLE = true ∧
  ∀ dst, 0 ≤ dst < 2 ^ 44 → contains (pte_flags_of (pte_new dst (bits_insert (bits_insert fl WRITEABLE) DIRTY))) READABLE = true.
Proof.
  intros Hok Hr fl. pose proof (flags_ok_of b Hok) as Hfok. destruct (flag_bit (pte_flags_of b)) as (_ & Er & _). rewrite Er in Hr.
  assert (∀ f, flags_ok f → flags_ok (bits_insert f DIRTY) ∧ flags_ok (bits_insert f WRITEABLE) ∧ flags_ok (bits_insert f READABLE)) as Hins.
  { intros f Hf. unfold bits_insert. auto with ya2y. }
  assert (flags_ok fl) as Hfl by (unfold fl, bits_remove; auto with ya2y). unfold fl in *. split.
  - rewrite set_flags_flags by (apply Hins, Hins, Hins, Hfl). flag_bits. by rewrite Hr.
  - intros dst Hd. rewrite pte_flags_of_new by (done || apply Hins, Hins, Hfl). flag_bits. by rewrite Hr.
Qed.

(** The handler of write faults adds flags to an entry made from the permissions. *)
Lemma write_entry perm shared b : pte_ok b → pte_valid b = true → adm perm b →
  let b' := set_flags b (Z.lor (mmap_fault_flags perm shared) (pte_flags_of b)) in
  pte_ok b' ∧ pte_valid b' = true ∧ get_ppn b' = get_ppn b ∧ adm perm b' ∧ (writes b' = true → writes b = true ∨ shared = true) ∧
  (∀ c, allows b c = true → allows b' c = true).
Proof.
  intros Hok Hv (Hl & Hw & Hww) b'. pose proof (flags_ok_of b Hok) as Hfb. destruct (fault_flags_ok perm shared) as [Hff _].
  assert (flags_ok (Z.lor (mmap_fault_flags perm shared) (pte_flags_of b))) as Hfl by (by apply flags_ok_lor).
  assert (pte_flags_of b' = Z.lor (mmap_fault_flags perm shared) (pte_flags_of b)) as Hb by (apply set_flags_flags, Hfl).
  assert (∀ k, contains (pte_flags_of b) k = true → contains (pte_flags_of b') k = true) as Hmono.
  { intros k. rewrite Hb, !contains_spec. intros Hk n Hn Hkn. rewrite Z.lor_spec, Hk by done. apply orb_true_r. }
  split_and!; [by apply set_flags_ok|by apply Hmono|apply set_flags_ppn, Hfl| | |].
  - split; [|split].
    + intros Hp%Hl. unfold pte_leaf in *. rewrite Hb. unfold intersects in *. rewrite Z.land_lor_distr_l.
      apply negb_true_iff, Z.eqb_neq. intros E%Z.lor_eq_0_iff. apply negb_true_iff, Z.eqb_neq in Hp. tauto.
    + intros Hwc. destruct (contains perm PERM_W) eqn:Ew.
      { split; [done|]. rewrite Hb. destruct (flag_bit (Z.lor (mmap_fault_flags perm shared) (pte_flags_of b))) as (_ & -> & _).
        assert (contains (mmap_fault_flags perm shared) READABLE = true) as E1.
        { destruct shared; unfold mmap_fault_flags, flags_from_perm; rewrite Ew; destruct (contains perm PERM_R), (contains perm PERM_X), (contains perm PERM_U); done. }
        destruct (flag_bit (mmap_fault_flags perm shared)) as (_ & F1 & _). rewrite F1 in E1. by rewrite Z.lor_spec, E1. }
      exfalso. enough (writes b || cows b = true) as [? _]%Hw by done. unfold writes, cows in *.
      assert (contains (mmap_fault_flags perm shared) WRITEABLE = false ∧ contains (mmap_fault_flags perm shared) COW = false) as [E1 E2].
      { destruct shared; unfold mmap_fault_flags, flags_from_perm; rewrite Ew; destruct (contains perm PERM_R), (contains perm PERM_X), (contains perm PERM_U); done. }
      rewrite Hb in Hwc. destruct (flag_bit (mmap_fault_flags perm shared)) as (_ & _ & F1 & _ & F2). rewrite F1 in E1. rewrite F2 in E2.
      revert Hwc. flag_bits. rewrite E1, E2. done.
    + intros [E|E]%Hww%orb_true_iff; apply orb_true_iff; [left|right]; by apply Hmono.
  - unfold writes. rewrite Hb. destruct shared; [auto|]. intros Hwr. left.
    assert (contains (mmap_fault_flags perm false) WRITEABLE = false) as E1 by (perm_cases perm; done).
    destruct (flag_bit (mmap_fault_flags perm false)) as (_ & _ & F1 & _). rewrite F1 in E1. revert Hwr. flag_bits. by rewrite E1.
  - intros []; unfold allows; auto.
Qed.

(** ** What a handler may do *)

Definition keyF (pf : Z → Z → option Z) (g : GroupManager) (k : Key) : option Z :=
  match k with KPage r v => pf r v | KGroup id v => inner ← groups g !! id; shared_frames inner !! v end.
Definition pf_set (pf : Z → Z → option Z) (r v : Z) (o : option Z) : Z → Z → option Z :=
  λ r' v', if decide (r' = r ∧ v' = v) then o else pf r' v'.

Lemma keyF_put pf g r v f k : keyF (pf_set pf r v (Some f)) g k = frames_put (keyF pf g) (KPage r v) f k.
Proof.
  unfold frames_put. destruct k as [r' v'|id v']; [|done]. simpl. unfold pf_set.
  destruct (decide (r' = r ∧ v' = v)) as [[-> ->]|Hn]; [by rewrite decide_True|rewrite decide_False; [done|]]. intros [= -> ->]. by apply Hn.
Qed.
Lemma pf_set_same pf r v r' v' : pf_set pf r v (pf r v) r' v' = pf r' v'.
Proof. unfold pf_set. by destruct (decide _) as [[-> ->]|]. Qed.

Section handlers.
Context `{FrameSource Src} (huge_alloc : Src → option (Z * Src)) (bk : Backings) (ext : Z → nat) (roots : list Z).
(** The frames of file pages and of special backings are held by them. *)
Context (Hcached : ∀ file i p, bk_cached bk file i = Some p → (0 < ext (fp_frame p))%nat).
Context (Hshared : ∀ b i f, bk_shared bk b i = Some f → (0 < ext f)%nat).
Implicit Types (s : @Mach Src) (pt : PageTable.PageTable) (a : MapArea) (pf : Z → Z → option Z) (P : Z → Z → bool) (Q : Z → Z → Z → Prop).

Definition hinv s pf P Q : Prop := iso ext roots (mc_mem s) (mc_rc s) (keyF pf (mc_groups s)) P Q.

(** Only the entry of page [v] below [r] changes, no byte of a frame in use does,
    and at most five frames are taken. *)
Record page_step (m m' : PhysMem Src) (r v : Z) : Prop := {
  sp_pte r' v' : r' ∈ roots → user_vpn v' → (r', v') ≠ (r, v) → entry_at m' r' v' = entry_at m r' v';
  sp_free f : fs_free (source m') f → fs_free (source m) f;
  sp_pages f : ¬ fs_free (source m) f → pages m' !! f = pages m !! f;
  sp_room n : has_frames (5 + n) (source m) → has_frames n (source m') }.

Lemma has_frames_drop n k (s : Src) : has_frames (k + n) s → has_frames n s.
Proof. induction k as [|k IH]; [done|]. intros ?%has_frames_pred. by apply IH. Qed.

Lemma page_step_refl m r v : page_step m m r v.
Proof. split; try done. intros n. apply (has_frames_drop n 5). Qed.

(** The result of a handler: [o] is the frame the page got. *)
Record handled s a pf P Q (r v : Z) (good : Z → Prop) s' a' (ok : bool) (o : option Z) : Prop := {
  hd_area : a' = match o with Some f => set_frames a (<[v := f]> (data_frames a)) | None => a end;
  hd_inv : hinv s' (pf_set pf r v o) P Q;
  hd_step : page_step (mc_mem s) (mc_mem s') r v;
  hd_groups id : is_Some (groups (mc_groups s') !! id) ↔ is_Some (groups (mc_groups s) !! id);
  hd_ok : if ok then is_Some o ∧ ∃ b, entry_at (mc_mem s') r v = Some b ∧ good b else o = None }.

(** The page a handler is called for. *)
Record ready s pt a pf P Q (r v : Z) : Prop := {
  rd_root : root_ppn pt = r;
  rd_in : r ∈ roots;
  rd_user : user_vpn v;
  rd_none : pf r v = None;
  rd_frames : data_frames a !! v = None;
  rd_framed : map_type a = Framed;
  rd_mmio : area_type a ≠ MMIO;
  rd_adm b : adm (map_perm a) b → Q r v b;
  rd_room : has_frames 5 (source (mc_mem s)) }.

Lemma ready_vacant s pt a pf P Q r v : hinv s pf P Q → ready s pt a pf P Q r v → entry_at (mc_mem s) r v = None.
Proof.
  intros Hi Hr. destruct (entry_at (mc_mem s) r v) as [b|] eqn:Hb; [|done].
  pose proof (is_track _ _ _ _ _ _ _ Hi r v b (rd_in _ _ _ _ _ _ _ _ Hr) (rd_user _ _ _ _ _ _ _ _ Hr) Hb) as E. simpl in E.
  by rewrite (rd_none _ _ _ _ _ _ _ _ Hr) in E.
Qed.

Lemma handled_refuse s a pf P Q r v good : hinv s pf P Q → pf r v = None → handled s a pf P Q r v good s a false None.
Proof.
  intros Hi Hn. split; try done; [|apply page_step_refl].
  eapply iso_ext; [exact Hi| |done]. intros [r' v'|]; [|done]. simpl. rewrite <- Hn. apply pf_set_same.
Qed.

(** The flags a write fault adds. *)
Lemma write_fault_ok s pt pf P Q r v perm shared b : hinv s pf P Q → root_ppn pt = r → r ∈ roots → user_vpn v →
  entry_at (mc_mem s) r v = Some b → adm perm b → (∀ b, adm perm b → Q r v b) → (P r v = true → shared = false) →
  ∃ m2 b', handle_mmap_write_page_fault (mc_mem s) pt v perm shared = Done m2 ∧ hinv (with_mem s m2) pf P Q ∧
    pte_set roots (mc_mem s) r v b' m2 ∧ (∀ c, allows b c = true → allows b' c = true).
Proof.
  intros Hi <- Hr Hu Hb Hadm HQ Hsh. pose proof (find_entry roots (mc_mem s) pt v (is_mem _ _ _ _ _ _ _ Hi) Hr Hu) as Hf. rewrite Hb in Hf.
  destruct Hf as (Hok & Hv & t & i & Hslot & Hfind). unfold handle_mmap_write_page_fault. rewrite Hfind. cbn [mbind comp_bind].
  rewrite get_flags_ok by done. cbn [mbind comp_bind]. fold (pte_flags_of b).
  destruct (write_entry perm shared b Hok Hv Hadm) as (Hok' & Hv' & Hppn & Hadm' & Hwr & Hal). set (b' := set_flags b _) in *.
  pose proof (wr_set roots (mc_mem s) pt v t i b' (is_mem _ _ _ _ _ _ _ Hi) Hr Hu Hslot Hok' Hv') as Hset.
  exists (wr (mc_mem s) t i b'), b'. split_and!; [done| |done|done].
  eapply (iso_entry ext roots (mc_mem s)); [exact Hi|exact Hset|rewrite Hppn; by apply (is_track _ _ _ _ _ _ _ Hi)|by apply HQ|].
  intros Hw Hp. rewrite Hppn. destruct (Hwr Hw) as [Hwb|Hs]; [by apply (is_sole _ _ _ _ _ _ _ Hi)|]. specialize (Hsh Hp). congruence.
Qed.

Section page.
Context (s : @Mach Src) (pt : PageTable.PageTable) (a : MapArea) (pf : Z → Z → option Z) (P : Z → Z → bool) (Q : Z → Z → Z → Prop) (r v : Z).
Context (Hi : hinv s pf P Q) (Hrd : ready s pt a pf P Q r v).
Let m := mc_mem s.
Let g := mc_groups s.
Let rc := mc_rc s.

Lemma page_mem : mem_ok roots m.
Proof using Hi. apply Hi. Qed.

(** A new frame with an entry made from the permissions. *)
Lemma new_page (fl : Z) (bytes : option (list Z)) :
  flags_ok fl → ∃ f m1, frame_alloc m = Some (f, m1) ∧
  let m1' := match bytes with Some l => set_pages m1 (<[f := l]> (pages m1)) | None => m1 end in
  let b := pte_new f (Z.lor fl VALID) in
  ∃ m2 pt', map_by_pte_flags m1' pt v f fl = Done (m2, pt') ∧ root_ppn pt' = r ∧ fs_free (source m) f ∧ 0 ≤ f < 2 ^ 44 ∧
    (get_ppn b = f → Q r v b → hinv (mkMach m2 g (<[f := 1%nat]> rc)) (pf_set pf r v (Some f)) P Q) ∧
    entry_at m2 r v = Some b ∧ mem_ok roots m2 ∧ has_frames 2 (source m2) ∧
    (∀ r' v', r' ∈ roots → user_vpn v' → (r', v') ≠ (r, v) → entry_at m2 r' v' = entry_at m r' v') ∧
    (∀ q, fs_free (source m2) q → fs_free (source m) q) ∧
    (∀ q, ¬ fs_free (source m) q → pages m2 !! q = pages m !! q) ∧
    (∀ n, has_frames (3 + n) (source m) → has_frames n (source m2)).
Proof using Hi Hrd.
  intros Hfl. pose proof page_mem as Hm. pose proof (ready_vacant _ _ _ _ _ _ _ _ Hi Hrd) as Hvac. fold m in Hvac.
  pose proof (rd_room _ _ _ _ _ _ _ _ Hrd) as Hroom. fold m in Hroom.
  destruct (alloc_some m 4 Hroom) as (f & m1 & Ha). exists f, m1. split; [done|]. intros m1' b.
  destruct (alloc_same roots m f m1 Hm Ha) as (Hsame & Hfree & Hnfree & Hrange & Hpages & _ & Hroom1).
  assert (pte_same roots m1 m1') as Hsame1.
  { unfold m1'. destruct bytes; [by apply pages_same, Hsame|]. split; [apply Hsame|done|done]. }
  pose proof (rd_root _ _ _ _ _ _ _ _ Hrd) as Hroot. pose proof (rd_in _ _ _ _ _ _ _ _ Hrd) as Hin. pose proof (rd_user _ _ _ _ _ _ _ _ Hrd) as Hu.
  assert (source m1' = source m1) as Hsrc by (unfold m1'; by destruct bytes).
  destruct (map_set roots m1' pt v f fl) as (m2 & pt' & Hmap & Hroot' & Hset);
    [apply Hsame1|by rewrite Hroot|done| |done|done| |].
  { rewrite Hroot, (pe_pte _ _ _ Hsame1), (pe_pte _ _ _ Hsame) by done. done. }
  { rewrite Hsrc. apply Hroom1, (has_frames_drop 3 2), Hroom. }
  rewrite Hroot in Hroot', Hset. fold b in Hset. exists m2, pt'. do 4 (split; [done|]).
  destruct Hset as [T1 T2 T3 T4 T5]. split_and!.
  - intros Hppn HQ. eapply iso_ext; [|intros k; apply keyF_put|done]. simpl.
    eapply iso_new; [exact Hi|done|done|apply (rd_none _ _ _ _ _ _ _ _ Hrd)|exact Ha|exact Hsame1|by split|done|done].
  - rewrite T2 by done. by rewrite decide_True.
  - done.
  - apply T5. rewrite Hsrc. by apply Hroom1.
  - intros r' v' Hr' Hu' Hne. rewrite T2, decide_False by (done || by intros [-> ->]). by rewrite (pe_pte _ _ _ Hsame1), (pe_pte _ _ _ Hsame).
  - intros q Hq. by apply (pe_free _ _ _ Hsame), (pe_free _ _ _ Hsame1), T3.
  - intros q Hq. assert (q ≠ f) as Hqf by congruence. rewrite T4.
    + transitivity (pages m1 !! q); [|by apply Hpages]. unfold m1'. destruct bytes; [|done]. simpl. by apply lookup_insert_ne.
    + intros Hf. by apply Hq, (pe_free _ _ _ Hsame), (pe_free _ _ _ Hsame1).
  - intros n Hn. apply T5. rewrite Hsrc. by apply Hroom1.
Qed.

Lemma map_one_ok : ∃ s' pt' f, let a' := set_frames a (<[v := f]> (data_frames a)) in
  area_map_one huge_alloc s pt a v = Done (s', pt', a', Some f) ∧ root_ppn pt' = r ∧ mc_groups s' = g ∧ fs_free (source m) f ∧
  (∃ b, entry_at (mc_mem s') r v = Some b ∧ adm (map_perm a) b ∧ ∀ c, permits (map_perm a) c = true → allows b c = true) ∧
  hinv s' (pf_set pf r v (Some f)) P Q ∧
  (∀ r' v', r' ∈ roots → user_vpn v' → (r', v') ≠ (r, v) → entry_at (mc_mem s') r' v' = entry_at m r' v') ∧
  (∀ q, fs_free (source (mc_mem s')) q → fs_free (source m) q) ∧
  (∀ q, ¬ fs_free (source m) q → pages (mc_mem s') !! q = pages m !! q) ∧
  (∀ n, has_frames (3 + n) (source m) → has_frames n (source (mc_mem s'))).
Proof using Hi Hrd.
  destruct (new_page (flags_from_perm (map_perm a)) None (perm_flags_ok _)) as (f & m1 & Ha & m2 & pt' & Hmap & Hroot & Hfree & Hrange & Hinv & Hb & _ & _ & H1 & H2 & H3 & H4).
  destruct (new_entry (map_perm a) f Hrange) as (Hppn & Hadm & Hal).
  exists (mkMach m2 g (<[f := 1%nat]> rc)), pt', f. split_and!; try done.
  - unfold area_map_one, map_one. rewrite decide_False by apply (rd_mmio _ _ _ _ _ _ _ _ Hrd). rewrite (rd_framed _ _ _ _ _ _ _ _ Hrd).
    cbn [pt_frame_alloc sv39_ops]. fold m. rewrite Ha. simpl. unfold PageTable.map. rewrite Hmap, (rd_frames _ _ _ _ _ _ _ _ Hrd). done.
  - eauto.
  - apply Hinv; [done|]. by apply (rd_adm _ _ _ _ _ _ _ _ Hrd).
Qed.

(** A frame that a cache, a backing or a group holds. *)
Lemma install_ok f : (∃ k, keyF pf g k = Some f) ∨ (0 < ext f)%nat → unwritten roots m P f → (P r v = true → is_shared a = false) →
  ∃ s' pt' a', install_shared s pt a v f = Done (s', pt', a', true) ∧ root_ppn pt' = r ∧ mc_groups s' = g ∧
    handled s a pf P Q r v (λ b, ∀ c, permits (map_perm a) c = true → (c = StorePageFault ∨ c = PageModifyFault → is_shared a = true) → allows b c = true)
      s' a' true (Some f).
Proof using Hi Hrd.
  intros Hf Hun Hsh. pose proof (ready_vacant _ _ _ _ _ _ _ _ Hi Hrd) as Hvac.
  destruct (is_used _ _ _ _ _ _ _ Hi f Hf) as [Hnf Hrange]. destruct (fault_entry (map_perm a) (is_shared a) f Hrange) as (Hppn & Hadm & Hw & Hal).
  destruct (fault_flags_ok (map_perm a) (is_shared a)) as [Hfl _].
  pose proof (rd_root _ _ _ _ _ _ _ _ Hrd) as Hroot. pose proof (rd_in _ _ _ _ _ _ _ _ Hrd) as Hin. pose proof (rd_user _ _ _ _ _ _ _ _ Hrd) as Hu.
  pose proof (rd_room _ _ _ _ _ _ _ _ Hrd) as Hroom.
  destruct (map_set roots m pt v f (mmap_fault_flags (map_perm a) (is_shared a))) as (m' & pt' & Hmap & Hroot' & Hset);
    [apply page_mem|by rewrite Hroot|done|by rewrite Hroot|done|done|by apply (has_frames_drop 2 3)|].
  rewrite Hroot in Hroot', Hset. set (b := pte_new f _) in *.
  exists (mkMach m' g (rc_clone rc f)), pt', (set_frames a (<[v := f]> (data_frames a))). split_and!; [|done|done|].
  - unfold install_shared, put_frame, handle_mmap_read_page_fault. simpl. rewrite (rd_frames _ _ _ _ _ _ _ _ Hrd). fold m.
    assert (∀ d, is_shared (set_frames a d) = is_shared a) as -> by done. by rewrite Hmap.
  - destruct Hset as [T1 T2 T3 T4 T5]. split; try done.
    + eapply iso_ext; [|intros k; apply keyF_put|done]. simpl.
      eapply (iso_entry ext roots m); [|by split|unfold frames_put; by rewrite decide_True, Hppn|by apply (rd_adm _ _ _ _ _ _ _ _ Hrd)|].
      * apply iso_ref; [exact Hi|apply (rd_none _ _ _ _ _ _ _ _ Hrd)|done|done].
      * intros Hwb%Hw Hp%Hsh. congruence.
    + split; [|done|done|].
      * intros r' v' Hr' Hu' Hne. rewrite T2, decide_False; [done| |done|done]. intros [-> ->]. done.
      * intros n Hn. apply T5. by apply (has_frames_drop _ 3).
    + split; [eauto|]. exists b. split; [|done]. simpl. rewrite T2, decide_True by done. done.
Qed.

(** The access the page was asked for. *)
Definition granted (c : Cause) (b : Z) : Prop := permits (map_perm a) c = true → allows b c = true.
Definition is_store (c : Cause) : Prop := c = StorePageFault ∨ c = PageModifyFault.

Lemma unwritten_ext f : (0 < ext f)%nat → unwritten roots m P f.
Proof using Hi. intros Hf r' v' b Hr' Hu' Hb Hw Hp <-. destruct (is_sole _ _ _ _ _ _ _ Hi r' v' b Hr' Hu' Hb Hw Hp) as [_ He]. lia. Qed.

Lemma handled_weaken (good good' : Z → Prop) s' a' ok o : (∀ b, good b → good' b) →
  handled s a pf P Q r v good s' a' ok o → handled s a pf P Q r v good' s' a' ok o.
Proof using. intros Hg [h1 h2 h3 h4 h5]. split; try done. destruct ok; [|done]. destruct h5 as [h5 (b & ? & ?)]. eauto. Qed.

Context (Hpriv : P r v = true → is_shared a = false).

Lemma file_page_ok c prepared : (∀ p, prepared = Some p → (0 < ext (fp_frame p))%nat) → (is_store c → is_shared a = true) →
  ∃ s' pt' a' ok o, map_file_page bk v s pt a prepared = Done (s', pt', a', ok) ∧ root_ppn pt' = r ∧ mc_groups s' = g ∧
    handled s a pf P Q r v (granted c) s' a' ok o ∧ (ok = false → s' = s ∧ pt' = pt ∧ a' = a) ∧
    (ok = true ↔ is_Some (file_page_for_fault bk v a prepared)).
Proof using Hi Hrd Hcached Hpriv.
  intros Hprep Hst. unfold map_file_page. destruct (file_page_for_fault bk v a prepared) as [page|] eqn:Hpage.
  - assert (0 < ext (fp_frame page))%nat as He.
    { unfold file_page_for_fault in Hpage. destruct (prepared_file_page v a prepared) as [p|] eqn:Hp; simplify_eq.
      - unfold prepared_file_page in Hp. destruct prepared as [p|]; [|done]. simpl in Hp.
        destruct (file_page_index _ _); [|done]. simpl in Hp. destruct (inode_file _); [|done]. simpl in Hp. destruct (_ && _); [|done].
        simplify_eq. by apply Hprep.
      - unfold cached_file_page in Hpage. destruct (file_page_index _ _); [|done]. simpl in Hpage. destruct (inode_file _); [|done]. simpl in Hpage.
        destruct (bk_cached bk _ _) eqn:Hc; [|done]. simpl in Hpage. destruct (0 <? _); [|done]. simplify_eq. by eapply Hcached. }
    destruct (install_ok (fp_frame page)) as (s' & pt' & a' & Heq & Hroot & Hg & Hh); [by right|by apply unwritten_ext|done|].
    exists s', pt', a', true, (Some (fp_frame page)). split_and!; try done. eapply handled_weaken; [|exact Hh]. intros b Hb Hp. by apply Hb.
  - exists s, pt, a, false, None. split_and!; try done; [apply Hrd|apply handled_refuse; [done|apply Hrd]].
Qed.

Lemma special_shared_ok c : (is_store c → is_shared a = true) →
  ∃ s' pt' a' ok o, map_special_shared_page bk v s pt a = Done (s', pt', a', ok) ∧ root_ppn pt' = r ∧ mc_groups s' = g ∧
    handled s a pf P Q r v (granted c) s' a' ok o.
Proof using Hi Hrd Hshared Hpriv.
  intros Hst. unfold map_special_shared_page. destruct (special_backing (mmap_file a)) as [b|] eqn:Hb; simpl;
    [destruct (special_page_index bk a v) as [i|] eqn:Hix; simpl; [destruct (bk_shared bk b i) as [f|] eqn:Hf|]|].
  2-4: exists s, pt, a, false, None; split_and!; try done; [apply Hrd|apply handled_refuse; [done|apply Hrd]].
  destruct (install_ok f) as (s' & pt' & a' & Heq & Hroot & Hg & Hh); [right; by eapply Hshared|eapply unwritten_ext; by eapply Hshared|done|].
  exists s', pt', a', true, (Some f). split_and!; try done. eapply handled_weaken; [|exact Hh]. intros b' Hb' Hp. by apply Hb'.
Qed.

(** A new page after its entry got the flags of a write fault. *)
Lemma finish_new c s1 pt1 f b : mc_groups s1 = g → root_ppn pt1 = r → hinv s1 (pf_set pf r v (Some f)) P Q →
  entry_at (mc_mem s1) r v = Some b → adm (map_perm a) b → (permits (map_perm a) c = true → allows b c = true) →
  (∀ r' v', r' ∈ roots → user_vpn v' → (r', v') ≠ (r, v) → entry_at (mc_mem s1) r' v' = entry_at m r' v') →
  (∀ q, fs_free (source (mc_mem s1)) q → fs_free (source m) q) →
  (∀ q, ¬ fs_free (source m) q → pages (mc_mem s1) !! q = pages m !! q) →
  (∀ n, has_frames (3 + n) (source m) → has_frames n (source (mc_mem s1))) →
  ∃ m2, handle_mmap_write_page_fault (mc_mem s1) pt1 v (map_perm a) (is_shared a) = Done m2 ∧
    handled s a pf P Q r v (granted c) (with_mem s1 m2) (set_frames a (<[v := f]> (data_frames a))) true (Some f).
Proof using Hi Hrd Hpriv.
  intros Hg Hroot Hi1 Hb Hadm Hal H1 H2 H3 H4. pose proof (rd_in _ _ _ _ _ _ _ _ Hrd) as Hin. pose proof (rd_user _ _ _ _ _ _ _ _ Hrd) as Hu.
  destruct (write_fault_ok s1 pt1 _ P Q r v (map_perm a) (is_shared a) b Hi1 Hroot Hin Hu Hb Hadm) as (m2 & b' & Heq & Hi2 & [T1 T2 T3 T4 T5] & Hal');
    [apply Hrd|done|].
  exists m2. split; [done|]. split; try done.
  - split; simpl.
    + intros r' v' Hr' Hu' Hne. rewrite T2, decide_False; [by apply H1| |done|done]. intros [-> ->]. done.
    + intros q Hq. by apply H2, T3.
    + intros q Hq. rewrite T4; [by apply H3|]. intros ?%H2. done.
    + intros n Hn. apply T5, H4. exact Hn.
  - intros id. simpl. by rewrite Hg.
  - split; [eauto|]. exists b'. split; [|by intros ?; apply Hal', Hal]. simpl. rewrite T2, decide_True by done. done.
Qed.

Lemma special_private_ok c :
  ∃ s' pt' a' ok o, map_special_private_page bk v s pt a = Done (s', pt', a', ok) ∧ root_ppn pt' = r ∧ mc_groups s' = g ∧
    handled s a pf P Q r v (granted c) s' a' ok o.
Proof using Hi Hrd Hpriv.
  assert (∃ s' pt' a' ok o, Done (s, pt, a, false) = Done (s', pt', a', ok) ∧ root_ppn pt' = r ∧ mc_groups s' = g ∧
    handled s a pf P Q r v (granted c) s' a' ok o) as Hno.
  { exists s, pt, a, false, None. split_and!; try done; [apply Hrd|apply handled_refuse; [done|apply Hrd]]. }
  unfold map_special_private_page. destruct (special_backing (mmap_file a)) as [b|]; simpl; [|done].
  destruct (special_page_index bk a v) as [i|]; simpl; [|done].
  destruct (bk_load bk b i) as [bytes|] eqn:Hload.
  - destruct (new_page (flags_from_perm (map_perm a)) (Some bytes) (perm_flags_ok _)) as (f & m1 & Ha & m2 & pt' & Hmap & Hroot & Hfree & Hrange & Hinv & Hb & _ & _ & H1 & H2 & H3 & H4).
    destruct (new_entry (map_perm a) f Hrange) as (Hppn & Hadm & Hal).
    unfold tracker_alloc. fold m. rewrite Ha. simpl. unfold put_frame. rewrite (rd_frames _ _ _ _ _ _ _ _ Hrd).
    unfold PageTable.map. simpl. unfold set_pages in Hmap. rewrite Hmap. cbn [mbind comp_bind].
    destruct (finish_new c (mkMach m2 g (<[f := 1%nat]> rc)) pt' f (pte_new f (Z.lor (flags_from_perm (map_perm a)) VALID)) eq_refl Hroot)
      as (m3 & Heq & Hh); try done.
    + apply Hinv; [done|]. by apply (rd_adm _ _ _ _ _ _ _ _ Hrd).
    + by apply Hal.
    + assert (∀ d, is_shared (set_frames a d) = is_shared a) as -> by done. simpl in Heq. rewrite Heq. cbn [mbind comp_bind].
      eexists _, pt', _, true, (Some f). split; [done|]. split; [done|]. split; [done|]. exact Hh.
  - unfold tracker_alloc. fold m. destruct (frame_alloc m) as [[f m1]|] eqn:Ha; simpl; [|done].
    destruct (alloc_same roots m f m1 page_mem Ha) as (Hsame & Hfree & Hnfree & Hrange & Hpages & _ & Hroom1).
    eexists _, pt, a, false, None. split; [done|]. split; [apply Hrd|]. split; [done|]. split; try done.
    + eapply (iso_ext _ _ _ _ (keyF pf g)); [|intros [r' v'|]; [|done]; simpl; rewrite <- (rd_none _ _ _ _ _ _ _ _ Hrd); apply pf_set_same|done]. simpl.
      apply iso_rc_unused; [eapply iso_same; [exact Hi|done]| |].
      * intros k Hk. destruct (is_used _ _ _ _ _ _ _ Hi f) as [? _]; [left; eauto|done].
      * destruct (ext f) eqn:E; [done|]. destruct (is_used _ _ _ _ _ _ _ Hi f) as [? _]; [right; lia|done].
    + split; simpl.
      * intros r' v' Hr' Hu' _. by apply (pe_pte _ _ _ Hsame).
      * apply (pe_free _ _ _ Hsame).
      * intros q Hq. apply Hpages. by intros ->.
      * intros n Hn. apply Hroom1. by apply (has_frames_drop _ 4).
Qed.

(** [mmap_write_page_fault] and [mmap_read_page_fault]. *)
Lemma write_page_ok c prepared : (∀ p, prepared = Some p → (0 < ext (fp_frame p))%nat) →
  ∃ s' pt' a' ok o, mmap_write_page_fault huge_alloc bk v s pt a prepared = Done (s', pt', a', ok) ∧ root_ppn pt' = r ∧ mc_groups s' = g ∧
    handled s a pf P Q r v (granted c) s' a' ok o.
Proof using Hi Hrd Hcached Hshared Hpriv.
  intros Hprep. unfold mmap_write_page_fault. destruct (is_special (mmap_file a)) eqn:Hsp.
  { pose proof (special_shared_ok c) as H1. pose proof (special_private_ok c) as H2. clear Hpriv. destruct (is_shared a); auto. }
  cbn zeta. set (cached := (_ ← inode_file (mmap_file a); _) : option FilePage).
  destruct (bool_decide (is_Some (inode_file (mmap_file a))) && bool_decide (cached = None)) eqn:Hmiss.
  { exists s, pt, a, false, None. split_and!; try done; [apply Hrd|apply handled_refuse; [done|apply Hrd]]. }
  assert (∃ s1 pt1 a1 mapped o, (if is_shared a then map_file_page bk v s pt a prepared else Done (s, pt, a, false)) = Done (s1, pt1, a1, mapped) ∧
    root_ppn pt1 = r ∧ mc_groups s1 = g ∧ handled s a pf P Q r v (granted c) s1 a1 mapped o ∧ (mapped = false → s1 = s ∧ pt1 = pt ∧ a1 = a))
    as (s1 & pt1 & a1 & mapped & o & -> & Hroot1 & Hg1 & Hh1 & Hsame).
  { pose proof (file_page_ok c prepared Hprep) as Hfile. clear Hpriv. destruct (is_shared a) eqn:Hsh.
    - destruct Hfile as (s1 & pt1 & a1 & ok & o & H1 & H2 & H3 & H4 & H5 & _); [done|].
      exists s1, pt1, a1, ok, o. done.
    - exists s, pt, a, false, None. split_and!; try done; [apply Hrd|apply handled_refuse; [done|apply Hrd]]. }
  cbn [mbind comp_bind]. destruct mapped.
  { exists s1, pt1, a1, true, o. done. }
  destruct Hsame as (-> & -> & ->); [done|].
  destruct map_one_ok as (s2 & pt2 & f & -> & Hroot2 & Hg2 & Hfree & (b & Hb & Hadm & Hal) & Hi2 & H1 & H2 & H3 & H4). cbn [mbind comp_bind].
  set (s3 := match cached with Some page => fill_page s2 f (private_copy (mc_mem s2) page) | None => s2 end).
  assert (pte_same roots (mc_mem s2) (mc_mem s3)) as Hps.
  { unfold s3. destruct cached; [apply (pages_same roots (mc_mem s2)); apply Hi2|split; [apply Hi2|done|done]]. }
  assert (mc_groups s3 = g ∧ mc_rc s3 = mc_rc s2 ∧ source (mc_mem s3) = source (mc_mem s2)) as (Hg3 & Hrc3 & Hsrc3) by (unfold s3; by destruct cached).
  destruct (finish_new c s3 pt2 f b Hg3 Hroot2) as (m4 & Heq & Hh); try done.
  - unfold hinv. rewrite Hrc3, Hg3, <- Hg2. by eapply iso_same.
  - rewrite (pe_pte _ _ _ Hps); [done|apply Hrd|apply Hrd].
  - apply Hal.
  - intros r' v' Hr' Hu' Hne. rewrite (pe_pte _ _ _ Hps) by done. by apply H1.
  - by rewrite Hsrc3.
  - intros q Hq. rewrite <- H3 by done. unfold s3. destruct cached; [|done]. simpl. apply lookup_insert_ne. by intros <-.
  - by rewrite Hsrc3.
  - assert (∀ d, is_shared (set_frames a d) = is_shared a) as -> by done. simpl. rewrite Heq. cbn [mbind comp_bind].
    eexists _, pt2, _, true, (Some f). split; [done|]. split; [done|]. split; [done|exact Hh].
Qed.

Lemma read_page_ok c prepared : (∀ p, prepared = Some p → (0 < ext (fp_frame p))%nat) → ¬ is_store c →
  (groupid a ≠ 0 → is_Some (groups g !! groupid a) ∧ P r v = false) →
  ∃ s' pt' a' ok o, mmap_read_page_fault huge_alloc bk v s pt a prepared = Done (s', pt', a', ok) ∧ root_ppn pt' = r ∧
    handled s a pf P Q r v (granted c) s' a' ok o.
Proof using Hi Hrd Hcached Hshared Hpriv.
  intros Hprep Hst Hgr. unfold mmap_read_page_fault.
  assert (∃ o, group_find (mc_groups s) (groupid a) v = Done o ∧ (groupid a ≠ 0 → keyF pf g (KGroup (groupid a) v) = o) ∧ (groupid a = 0 → o = None))
    as (o & -> & Hkey & Hzero).
  { unfold group_find. destruct (Z.eqb_spec (groupid a) 0) as [E|E]; [exists None; done|]. destruct Hgr as [[inner Hin] _]; [done|].
    fold g. rewrite Hin. cbn [unwrap mbind comp_bind]. exists (shared_frames inner !! v). split_and!; try done. intros _. simpl. by rewrite Hin. }
  cbn [mbind comp_bind]. destruct o as [f|].
  { assert (groupid a ≠ 0) as Hne by (intros E; by specialize (Hzero E)). specialize (Hkey Hne).
    destruct (install_ok f) as (s' & pt' & a' & Heq & Hroot & Hg & Hh); [left; eauto| |done|].
    { intros r' v' b Hr' Hu' Hb Hw Hp Hf. destruct (is_sole _ _ _ _ _ _ _ Hi r' v' b Hr' Hu' Hb Hw Hp) as [Hs _].
      rewrite Hf in Hs. by specialize (Hs _ Hkey). }
    exists s', pt', a', true, (Some f). split_and!; try done. eapply handled_weaken; [|exact Hh]. intros b Hb Hp. by apply Hb. }
  destruct (is_special (mmap_file a)) eqn:Hsp.
  { assert (∃ s' pt' a' ok o, (if is_shared a then map_special_shared_page bk v s pt a else map_special_private_page bk v s pt a) = Done (s', pt', a', ok) ∧
      root_ppn pt' = r ∧ mc_groups s' = g ∧ handled s a pf P Q r v (granted c) s' a' ok o) as (s' & pt' & a' & ok & o & ? & ? & ? & ?).
    { pose proof (special_shared_ok c) as H1. pose proof (special_private_ok c) as H2. clear Hpriv. destruct (is_shared a); auto. }
    exists s', pt', a', ok, o. done. }
  destruct (file_page_ok c prepared Hprep) as (s1 & pt1 & a1 & ok & o & -> & Hroot1 & Hg1 & Hh1 & Hsame & _); [done|].
  cbn [mbind comp_bind]. destruct ok; [exists s1, pt1, a1, true, o; done|]. destruct Hsame as (-> & -> & ->); [done|].
  destruct (write_page_ok c prepared Hprep) as (s2 & pt2 & a2 & ok & o2 & -> & Hroot2 & Hg2 & Hh2). cbn [mbind comp_bind].
  destruct ok; cbn [negb]; [|exists s2, pt2, a2, false, o2; done].
  destruct Hh2 as [h1 h2 h3 h4 [[f ->] (b & Hb & Hgood)]]. subst a2. simpl.
  destruct (Z.eqb_spec (groupid a) 0) as [E|E]; [exists s2, pt2, (set_frames a (<[v := f]> (data_frames a))), true, (Some f); split_and!; try done; split; eauto|].
  rewrite lookup_insert_eq. cbn [unwrap mbind comp_bind]. destruct Hgr as [[inner Hin] HP]; [done|].
  unfold add_frame. rewrite Hg2, Hin. cbn [unwrap mbind comp_bind]. specialize (Hkey E). simpl in Hkey. rewrite Hin in Hkey. simpl in Hkey.
  eexists _, pt2, (set_frames a (<[v := f]> (data_frames a))), true, (Some f). split; [done|]. split; [done|]. split; try done.
  - unfold hinv. simpl. eapply (iso_ext _ _ _ _ (frames_put (keyF (pf_set pf r v (Some f)) g) (KGroup (groupid a) v) f)); [| |done].
    + apply iso_ref; [unfold hinv in h2; by rewrite Hg2 in h2|simpl; by rewrite Hin|left; exists (KPage r v); simpl; unfold pf_set; by rewrite decide_True|].
      intros r' v' b' Hr' Hu' Hb' Hw Hp Hf. destruct (is_sole _ _ _ _ _ _ _ h2 r' v' b' Hr' Hu' Hb' Hw Hp) as [Hs _].
      assert (KPage r v = KPage r' v') as [= <- <-]; [|congruence]. apply Hs. rewrite Hf. simpl. unfold pf_set. by rewrite decide_True.
    + intros [r' v'|id v']; [done|]. unfold frames_put. simpl. destruct (decide (id = groupid a)) as [->|Hid].
      * rewrite lookup_insert_eq, Hin. simpl. destruct (decide (KGroup (groupid a) v' = KGroup (groupid a) v)) as [[= ->]|Hv]; [by rewrite lookup_insert_eq|].
        apply lookup_insert_ne. congruence.
      * rewrite lookup_insert_ne by done. rewrite decide_False by congruence. done.
  - intros id. simpl. destruct (decide (id = groupid a)) as [->|]; [rewrite lookup_insert_eq; fold g; rewrite Hin; split; eauto|by rewrite lookup_insert_ne].
  - split; eauto.
Qed.

Lemma not_present_ok c prepared : (∀ p, prepared = Some p → (0 < ext (fp_frame p))%nat) →
  (groupid a ≠ 0 → is_Some (groups g !! groupid a) ∧ P r v = false) →
  ∃ s' pt' a' ok o, handle_mmap_not_present_page_fault huge_alloc bk s pt a v c prepared = Done (s', pt', a', ok) ∧ root_ppn pt' = r ∧
    handled s a pf P Q r v (λ b, allows b c = true) s' a' ok o ∧ (ok = true → permits (map_perm a) c = true).
Proof using Hi Hrd Hcached Hshared Hpriv.
  intros Hprep Hgr.
  assert (∃ s' pt' a' ok o, Done (s, pt, a, false) = Done (s', pt', a', ok) ∧ root_ppn pt' = r ∧
    handled s a pf P Q r v (λ b, allows b c = true) s' a' ok o ∧ (ok = true → permits (map_perm a) c = true)) as Hno.
  { exists s, pt, a, false, None. split_and!; try done; [apply Hrd|apply handled_refuse; [done|apply Hrd]]. }
  assert (permits (map_perm a) c = true → ∃ s' pt' a' ok o, mmap_write_page_fault huge_alloc bk v s pt a prepared = Done (s', pt', a', ok) ∧ root_ppn pt' = r ∧
    handled s a pf P Q r v (λ b, allows b c = true) s' a' ok o ∧ (ok = true → permits (map_perm a) c = true)) as Hwrite.
  { intros Hp. destruct (write_page_ok c prepared Hprep) as (s' & pt' & a' & ok & o & ? & ? & ? & Hh). exists s', pt', a', ok, o. split_and!; try done.
    eapply handled_weaken; [|exact Hh]. intros b Hb. by apply Hb. }
  assert (permits (map_perm a) c = true → ¬ is_store c → ∃ s' pt' a' ok o, mmap_read_page_fault huge_alloc bk v s pt a prepared = Done (s', pt', a', ok) ∧
    root_ppn pt' = r ∧ handled s a pf P Q r v (λ b, allows b c = true) s' a' ok o ∧ (ok = true → permits (map_perm a) c = true)) as Hread.
  { intros Hp Hc. destruct (read_page_ok c prepared Hprep Hc Hgr) as (s' & pt' & a' & ok & o & ? & ? & Hh). exists s', pt', a', ok, o. split_and!; try done.
    eapply handled_weaken; [|exact Hh]. intros b Hb. by apply Hb. }
  assert (∀ q : bool, permits (map_perm a) c = q → ∃ s' pt' a' ok o, (if q then mmap_write_page_fault huge_alloc bk v s pt a prepared else Done (s, pt, a, false)) =
    Done (s', pt', a', ok) ∧ root_ppn pt' = r ∧ handled s a pf P Q r v (λ b, allows b c = true) s' a' ok o ∧ (ok = true → permits (map_perm a) c = true)) as Hw.
  { intros []; auto. }
  assert (¬ is_store c → ∀ q : bool, permits (map_perm a) c = q → ∃ s' pt' a' ok o, (if q then mmap_read_page_fault huge_alloc bk v s pt a prepared else Done (s, pt, a, false)) =
    Done (s', pt', a', ok) ∧ root_ppn pt' = r ∧ handled s a pf P Q r v (λ b, allows b c = true) s' a' ok o ∧ (ok = true → permits (map_perm a) c = true)) as Hr.
  { intros Hc []; auto. }
  unfold handle_mmap_not_present_page_fault. destruct c; try (apply Hw; done); try (apply Hr; [by intros [|]|done]).
  destruct (intersects (map_perm a) (Z.lor PERM_R PERM_X)) eqn:Hx.
  - apply Hread; [|by intros [|]]. rewrite (proj1 (intersects_perms _)) in Hx. simpl. unfold leafy. apply orb_true_iff in Hx as [-> | ->]; [done|apply orb_true_r].
  - destruct (contains (map_perm a) PERM_W) eqn:Hpw; [|done]. apply Hwrite. simpl. unfold leafy. rewrite Hpw. by rewrite orb_true_r.
Qed.

(** Anonymous memory is always given. *)
Lemma anonymous_source : is_anonymous (mmap_file a) = true → is_special (mmap_file a) = false ∧ inode_file (mmap_file a) = None ∧ ∀ p, file_page_for_fault bk v a p = None.
Proof using.
  unfold is_anonymous, is_special, inode_file. intros E. unfold file_page_for_fault, prepared_file_page, cached_file_page, file_page_index, inode_file.
  destruct (mf_source (mmap_file a)) eqn:Es; try done. split_and!; try done. by intros [p|].
Qed.

Lemma write_page_live prepared s' pt' a' ok : is_anonymous (mmap_file a) = true →
  mmap_write_page_fault huge_alloc bk v s pt a prepared = Done (s', pt', a', ok) → ok = true.
Proof using Hi Hrd.
  intros (E1 & E2 & E3)%anonymous_source. unfold mmap_write_page_fault, map_file_page. rewrite E1, E2, E3. cbn [mbind option_bind].
  rewrite (bool_decide_eq_false_2 (is_Some None)) by (by intros [? ?]). cbn [andb].
  assert (∀ x : bool, (if x then Done (s, pt, a, false) else Done (s, pt, a, false)) = Done (s, pt, a, false)) as -> by (by intros []). cbn [mbind comp_bind].
  destruct map_one_ok as (s2 & pt2 & f & -> & _). cbn [mbind comp_bind].
  destruct (handle_mmap_write_page_fault _ _ _ _ _); cbn [mbind comp_bind]; by intros [= <-].
Qed.

Lemma read_page_live prepared s' pt' a' ok : is_anonymous (mmap_file a) = true →
  mmap_read_page_fault huge_alloc bk v s pt a prepared = Done (s', pt', a', ok) → ok = true.
Proof using Hi Hrd.
  intros Han. pose proof (anonymous_source Han) as (E1 & E2 & E3). unfold mmap_read_page_fault, map_file_page. rewrite E1, E3.
  destruct (group_find _ _ _) as [[f|]|]; cbn [mbind comp_bind]; [| |done].
  - unfold install_shared. destruct (put_frame _ _ _ _). destruct (handle_mmap_read_page_fault _ _ _ _ _ _) as [[??]|]; cbn [mbind comp_bind]; by intros [= <-].
  - destruct (mmap_write_page_fault _ _ _ _ _ _ _) as [[[[s1 pt1] a1] ok1]|] eqn:Hw; cbn [mbind comp_bind]; [|done].
    rewrite (write_page_live _ _ _ _ _ Han Hw). cbn [negb]. destruct (groupid a1 =? 0); [by intros [= <-]|].
    destruct (unwrap _); cbn [mbind comp_bind]; [|done]. destruct (add_frame _ _ _ _); cbn [mbind comp_bind]; by intros [= <-].
Qed.

Lemma not_present_live c prepared s' pt' a' ok : is_anonymous (mmap_file a) = true → permits (map_perm a) c = true →
  handle_mmap_not_present_page_fault huge_alloc bk s pt a v c prepared = Done (s', pt', a', ok) → ok = true.
Proof using Hi Hrd.
  intros Han Hp. pose proof (write_page_live prepared s' pt' a' ok Han) as Hw. pose proof (read_page_live prepared s' pt' a' ok Han) as Hr.
  unfold handle_mmap_not_present_page_fault. destruct c; simpl in Hp; try (rewrite Hp; done).
  rewrite (proj1 (intersects_perms _)). unfold leafy in Hp. destruct (contains (map_perm a) PERM_R), (contains (map_perm a) PERM_W), (contains (map_perm a) PERM_X); done.
Qed.
End page.

(** A lazily allocated page of the heap, the stack or a program. *)
Lemma lazy_page_ok s pt a pf P Q r v c : hinv s pf P Q → ready s pt a pf P Q r v → permits (map_perm a) c = true →
  ∃ s' pt' a' o, lazy_page_fault huge_alloc v s pt a = Done (s', pt', a', true) ∧ root_ppn pt' = r ∧
    handled s a pf P Q r v (λ b, allows b c = true) s' a' true o.
Proof.
  intros Hi Hrd Hp. destruct (map_one_ok s pt a pf P Q r v Hi Hrd) as (s' & pt' & f & Heq & Hroot & Hg & _ & (b & Hb & _ & Hal) & Hi' & H1 & H2 & H3 & H4).
  unfold lazy_page_fault. rewrite Heq. cbn [mbind comp_bind]. eexists s', pt', _, (Some f). split; [done|]. split; [done|]. split; try done.
  - split; try done. intros n Hn. apply H4. by apply (has_frames_drop _ 2).
  - intros id. by rewrite Hg.
  - split; [eauto|]. exists b. split; [done|]. by apply Hal.
Qed.

(** A store to a present page: what the handler leaves.  It refuses only where the
    entry is neither writable nor copy on write, or where no frame is left. *)
Definition stored s a pf P Q (r v : Z) s' (d : gmap Z Z) (ok : bool) : Prop :=
  mc_groups s' = mc_groups s ∧ hinv s' (pf_set pf r v (d !! v)) P Q ∧ (∀ v', v' ≠ v → d !! v' = data_frames a !! v') ∧
  page_step (mc_mem s) (mc_mem s') r v ∧
  if ok then contains (map_perm a) PERM_W = true ∧ ∃ b, entry_at (mc_mem s') r v = Some b ∧ allows b StorePageFault = true
  else s' = s ∧ d = data_frames a ∧ ((∀ b, entry_at (mc_mem s) r v = Some b → writes b || cows b = false) ∨ frame_alloc (mc_mem s) = None).

Section store.
Context (s : @Mach Src) (pt : PageTable.PageTable) (a : MapArea) (pf : Z → Z → option Z) (P : Z → Z → bool) (Q : Z → Z → Z → Prop) (r v : Z).
Context (Hi : hinv s pf P Q) (Hroot : root_ppn pt = r) (Hin : r ∈ roots) (Hu : user_vpn v) (Hpf : pf r v = data_frames a !! v).
Context (HQ : ∀ b, Q r v b ↔ adm (map_perm a) b).
Let m := mc_mem s.

Lemma store_refuse : (∀ b, entry_at m r v = Some b → writes b || cows b = false) ∨ frame_alloc m = None →
  stored s a pf P Q r v s (data_frames a) false.
Proof using Hi Hpf.
  intros Hst. split_and!; try done; [|apply page_step_refl].
  eapply iso_ext; [exact Hi| |done]. intros [r' v'|]; [|done]. simpl. rewrite <- Hpf. apply pf_set_same.
Qed.

(** The entry of the page keeps its frame. *)
Lemma store_flags b b' m' : entry_at m r v = Some b → pte_set roots m r v b' m' → get_ppn b' = get_ppn b → Q r v b' →
  (writes b' = true → P r v = true → (∀ k, keyF pf (mc_groups s) k = Some (get_ppn b) → k = KPage r v) ∧ ext (get_ppn b) = 0%nat) →
  contains (map_perm a) PERM_W = true → allows b' StorePageFault = true → stored s a pf P Q r v (with_mem s m') (data_frames a) true.
Proof using Hi Hin Hu Hpf.
  intros Hb Hset Hppn HQ' Hsole Hpw Hal. pose proof (is_track _ _ _ _ _ _ _ Hi r v b Hin Hu Hb) as Hfr. simpl in Hfr. split_and!; try done.
  - eapply iso_ext; [eapply (iso_entry ext roots m); [exact Hi|exact Hset|simpl; by rewrite Hfr, Hppn|done|by rewrite Hppn]| |done].
    intros [r' v'|]; [|done]. simpl. rewrite <- Hpf. apply pf_set_same.
  - destruct Hset as [T1 T2 T3 T4 T5]. split; [|done|done|intros n Hn; apply T5; by apply (has_frames_drop _ 3)].
    intros r' v' Hr' Hu' Hne. rewrite T2, decide_False; [done| |done|done]. by intros [-> ->].
  - simpl. rewrite (ps_pte _ _ _ _ _ _ Hset), decide_True by done. eauto.
Qed.

Section entry.
Context (b t i : Z) (Hb : entry_at m r v = Some b) (Hok : pte_ok b) (Hv : pte_valid b = true) (Hslot : slot_of m roots r v t i).

Lemma entry_adm : adm (map_perm a) b.
Proof using Hi Hin Hu HQ Hb. apply HQ. by apply (is_adm _ _ _ _ _ _ _ Hi). Qed.

Lemma slot_set_entry b' : pte_ok b' → pte_valid b' = true → pte_set roots m r v b' (wr m t i b').
Proof using Hi Hroot Hin Hu Hslot. intros. rewrite <- Hroot. apply wr_set; [apply Hi|by rewrite Hroot|done|by rewrite Hroot|done|done]. Qed.

(** A writable entry becomes dirty. *)
Lemma store_dirty : contains (pte_flags_of b) WRITEABLE = true →
  stored s a pf P Q r v (with_mem s (wr m t i (set_flags b (bits_insert (pte_flags_of b) DIRTY)))) (data_frames a) true.
Proof using Hi Hroot Hin Hu Hpf HQ Hb Hok Hv Hslot.
  intros Hwr. pose proof (flags_ok_of b Hok) as Hfok. destruct entry_adm as (Hl & Hw & _). destruct Hw as [Hpw Hrd]; [unfold writes; by rewrite Hwr|].
  assert (flags_ok (bits_insert (pte_flags_of b) DIRTY)) as Hfd by (unfold bits_insert; auto with ya2y).
  set (b' := set_flags b _). assert (pte_flags_of b' = bits_insert (pte_flags_of b) DIRTY) as Hb' by (apply set_flags_flags, Hfd).
  assert (∀ k, contains (pte_flags_of b) k = true → contains (pte_flags_of b') k = true) as Hmono.
  { intros k. rewrite Hb'. unfold bits_insert. rewrite !contains_spec. intros Hk n Hn Hkn. by rewrite Z.lor_spec, Hk. }
  apply (store_flags b b'); [done|apply slot_set_entry; [by apply set_flags_ok|by apply Hmono]|apply set_flags_ppn, Hfd| | |done|by apply Hmono].
  - apply HQ. split; [|split; [by auto|intros _; unfold writes; by rewrite (Hmono WRITEABLE)]]. intros Hlf. unfold pte_leaf. rewrite Hb'.
    apply (intersects_bit _ _ 2); [lia| |done]. destruct (flag_bit (pte_flags_of b)) as (_ & _ & Ew & _). unfold bits_insert.
    rewrite Z.lor_spec, <- Ew, Hwr. done.
  - intros _ Hp. apply (is_sole _ _ _ _ _ _ _ Hi r v b); done.
Qed.

Context (Hcow : contains (pte_flags_of b) COW = true).
Let fl := bits_remove (pte_flags_of b) COW.

Lemma store_adm b' : pte_leaf b' = true → contains (pte_flags_of b') READABLE = true → writes b' = true → Q r v b' ∧ contains (map_perm a) PERM_W = true.
Proof using Hi Hin Hu HQ Hb Hcow.
  intros Hl Hr Hw. destruct entry_adm as (_ & Hpw & _). destruct Hpw as [Hpw _]; [unfold cows; by rewrite Hcow, orb_true_r|].
  split; [|done]. apply HQ. split; [done|]. split; [done|]. intros _. by rewrite Hw.
Qed.
Lemma store_readable : contains (pte_flags_of b) READABLE = true.
Proof using Hi Hin Hu HQ Hb Hcow. destruct entry_adm as (_ & Hpw & _). apply Hpw. unfold cows. by rewrite Hcow, orb_true_r. Qed.

(** The only holder of the frame keeps it. *)
Lemma store_single : rc_get (mc_rc s) (get_ppn b) = 1%nat →
  stored s a pf P Q r v (with_mem s (wr m t i (set_flags b (bits_insert (bits_insert (bits_insert fl WRITEABLE) READABLE) DIRTY)))) (data_frames a) true.
Proof using Hi Hroot Hin Hu Hpf HQ Hb Hok Hv Hslot Hcow.
  intros Hone. destruct (private_leaf_entries b 0) as [(Q1 & Q2 & Q3 & Q4 & Q5 & Q6) _]; [done|done|lia|]. destruct (private_readable b Hok store_readable) as [Hr _].
  fold fl in Q1, Q2, Q3, Q4, Q5, Q6, Hr. set (b' := set_flags b _) in *. destruct (store_adm b' Q3 Hr Q5) as [HQ' Hpw].
  apply (store_flags b b'); [done|by apply slot_set_entry|done|done| |done|done].
  intros _ _. pose proof (is_track _ _ _ _ _ _ _ Hi r v b Hin Hu Hb). by apply (iso_single ext roots m (mc_rc s) _ P Q).
Qed.

(** The page gets a copy. *)
Lemma store_copy dst m1 : frame_alloc m = Some (dst, m1) →
  let m2 := set_pages m1 (<[dst := bytes_array m1 (get_ppn b)]> (pages m1)) in
  stored s a pf P Q r v (mkMach (wr m2 t i (pte_new dst (bits_insert (bits_insert fl WRITEABLE) DIRTY))) (mc_groups s)
    (<[dst := 1%nat]> (rc_drop (mc_rc s) (get_ppn b)))) (<[v := dst]> (data_frames a)) true.
Proof using Hi Hroot Hin Hu Hpf HQ Hb Hok Hv Hslot Hcow.
  intros Ha m2. pose proof (is_mem _ _ _ _ _ _ _ Hi) as Hm. destruct (alloc_same roots m dst m1 Hm Ha) as (Hsame & Hfree & Hnfree & Hrange & Hpages & _ & Hroom).
  destruct (private_leaf_entries b dst) as [_ (Q1 & Q2 & Q3 & Q4 & Q5 & Q6)]; [done|done|done|]. destruct (private_readable b Hok store_readable) as [_ Hr].
  specialize (Hr dst Hrange). fold fl in Q1, Q2, Q3, Q4, Q5, Q6, Hr. set (b' := pte_new dst _) in *. destruct (store_adm b' Q3 Hr Q5) as [HQ' Hpw].
  pose proof (pages_same roots m1 (<[dst := bytes_array m1 (get_ppn b)]> (pages m1)) (pe_ok _ _ _ Hsame)) as Hsame2. fold m2 in Hsame2.
  assert (slot_of m2 roots r v t i) as Hslot2.
  { apply set_pages_slot. eapply slot_reaches; [|exact Hslot]. intros. eapply ext_reaches; [|done]. by eapply alloc_extends; [apply Hm|]. }
  pose proof (wr_set roots m2 pt v t i b' (pe_ok _ _ _ Hsame2) ltac:(by rewrite Hroot) Hu ltac:(by rewrite Hroot) Q1 Q2) as Hset. rewrite Hroot in Hset.
  pose proof (is_track _ _ _ _ _ _ _ Hi r v b Hin Hu Hb) as Hfr. split_and!; try done.
  - rewrite lookup_insert_eq. eapply iso_ext; [|intros k; apply keyF_put|done]. by eapply iso_copy.
  - intros v' Hv'. by rewrite lookup_insert_ne.
  - destruct Hset as [T1 T2 T3 T4 T5]. split.
    + intros r' v' Hr' Hu' Hne. simpl. rewrite T2, decide_False by (done || by intros [-> ->]). by rewrite (pe_pte _ _ _ Hsame2), (pe_pte _ _ _ Hsame).
    + intros q Hq. by apply (pe_free _ _ _ Hsame), (pe_free _ _ _ Hsame2), T3.
    + intros q Hq. simpl. rewrite lookup_insert_ne by (by intros <-). by apply Hpages; intros ->.
    + intros n Hn. apply T5, Hroom. by apply (has_frames_drop _ 2).
  - simpl. rewrite (ps_pte _ _ _ _ _ _ Hset), decide_True by done. eauto.
Qed.
End entry.

Lemma write_protect_ok : ∃ s' d ok, write_protect_page_fault v s pt a = Done (s', pt, set_frames a d, ok) ∧ stored s a pf P Q r v s' d ok.
Proof using Hi Hroot Hin Hu Hpf HQ.
  pose proof (is_mem _ _ _ _ _ _ _ Hi) as Hm. fold m in Hm. pose proof store_refuse as Href.
  enough (∃ s' d ok, handle_write_protect_page_fault m pt v (data_frames a) (mc_rc s) = Done (mc_mem s', d, mc_rc s', ok) ∧ stored s a pf P Q r v s' d ok) as (s' & d & ok & Heq & Hst).
  { exists s', d, ok. split; [|done]. unfold write_protect_page_fault. fold m. rewrite Heq. cbn [mbind comp_bind]. rewrite <- (proj1 Hst). by destruct s'. }
  unfold handle_write_protect_page_fault. pose proof (find_entry roots m pt v Hm ltac:(by rewrite Hroot) Hu) as Hf. rewrite Hroot in Hf.
  destruct (entry_at m r v) as [b|] eqn:Hb; [|exists s, (data_frames a), false; rewrite Hf; split; [done|apply Href; by left]].
  destruct Hf as (Hok & Hv & t & i & Hslot & ->). cbn [mbind comp_bind]. rewrite get_flags_ok by done. cbn [mbind comp_bind]. fold (pte_flags_of b).
  pose proof (is_track _ _ _ _ _ _ _ Hi r v b Hin Hu Hb) as Hfr. simpl in Hfr. rewrite Hpf in Hfr.
  destruct (contains (pte_flags_of b) COW) eqn:Hcow; cbn [negb].
  2: { destruct (contains (pte_flags_of b) WRITEABLE) eqn:Hwr; [eexists (with_mem s _), _, true; split; [done|by apply store_dirty]|].
    exists s, (data_frames a), false. split; [done|]. apply Href. left. intros b0 [= <-]. unfold writes, cows. by rewrite Hwr, Hcow. }
  rewrite Hfr. fold (rc_get (mc_rc s) (get_ppn b)).
  destruct (Nat.eqb_spec (rc_get (mc_rc s) (get_ppn b)) 1) as [Hone|Hmany]; [eexists (with_mem s _), _, true; split; [done|by apply store_single]|].
  rewrite (translate_entry roots m pt v Hm ltac:(by rewrite Hroot) Hu), Hroot, Hb. simpl.
  assert (default (get_ppn b) (if pte_leaf b then Some (get_ppn b) else None) = get_ppn b) as -> by (by destruct (pte_leaf b)).
  rewrite Z.eqb_refl. cbn [negb]. destruct (frame_alloc m) as [[dst m1]|] eqn:Ha; [|exists s, (data_frames a), false; split; [done|apply Href; by right]].
  eexists (mkMach _ (mc_groups s) _), _, true. split; [done|]. exact (store_copy b t i Hb Hok Hv Hslot Hcow dst m1 Ha).
Qed.
End store.
End handlers.
