(* ===== verification/FaultWorld.v ===== *)
(** * Page faults in a system of address spaces

    The invariant of [FaultIso] over the areas of every address space, and the
    theorem about [handle_page_fault]: it returns, keeps the invariant, changes no
    other page and no byte in use, and reports success only where the area
    permits the access and the hardware now allows it. *)

From S2P Require Import Prelude Address FrameAlloc PageTable MapArea AreaPt AreaSet Mmu Fault FaultIso FaultInv.

(** ** Pages and their attributes *)

Notation Attrs := (Z → Z → option PageAttr).

(** A page whose stores no other address space may see. *)
Definition attr_private (t : PageAttr) : bool := negb (contains (at_flags t) MAP_SHARED) && negb (bool_decide (at_area t = Shm)).
Definition private_in (A : Attrs) (r v : Z) : bool := match A r v with Some t => attr_private t | None => false end.
Definition adm_in (A : Attrs) (r v b : Z) : Prop := match A r v with Some t => adm (at_perm t) b | None => False end.

(** Areas of user spaces on small pages; only [mmap] makes shared ones, and a
    group is one of a shared area. *)
Definition attr_ok (g : GroupManager) (t : PageAttr) : Prop :=
  at_map t = Framed ∧ at_area t ≠ Physical ∧ at_area t ≠ MMIO ∧ contains (at_flags t) MAP_HUGETLB = false ∧
  (contains (at_flags t) MAP_SHARED = true → at_area t = Mmap ∨ at_area t = Stack) ∧
  (at_group t ≠ 0 → contains (at_flags t) MAP_SHARED = true ∧ is_Some (groups g !! at_group t)).

Lemma attr_ok_groups g g' t : (∀ id, is_Some (groups g !! id) → is_Some (groups g' !! id)) → attr_ok g t → attr_ok g' t.
Proof. intros Hg (Q1 & Q2 & Q3 & Q4 & Q5 & Q6). do 5 (split; [done|]). intros [? ?]%Q6. split; [done|]. by apply Hg. Qed.

Lemma permits_leafy perm c : permits perm c = true → leafy perm = true.
Proof. unfold leafy. destruct c; simpl; intros E; rewrite ?E, ?orb_true_r; done. Qed.

Section pages.
Context `{FrameSource Src} (ext : Z → nat).
Implicit Types (s : @Mach Src) (A : Attrs) (pf : Z → Z → option Z) (roots : list Z).

Record pages_ok roots s A pf : Prop := {
  po_iso : hinv ext roots s pf (private_in A) (adm_in A);
  po_in r v f : pf r v = Some f → is_Some (A r v);
  po_user r v t : A r v = Some t → r ∈ roots ∧ user_vpn v ∧ attr_ok (mc_groups s) t;
  po_back r v f : pf r v = Some f → is_Some (entry_at (mc_mem s) r v);
  po_leafy r v f t : pf r v = Some f → A r v = Some t → attr_private t = true → leafy (at_perm t) = true }.

Lemma pages_ok_ext roots s A A' pf pf' : pages_ok roots s A pf → (∀ r v, A' r v = A r v) → (∀ r v, pf' r v = pf r v) →
  pages_ok roots s A' pf'.
Proof.
  intros [P1 P2 P3 P4 P5] HA Hpf. split.
  - eapply iso_ext; [exact P1|by intros [r v|]; [apply Hpf|]|]. intros r v b _ _ _. unfold private_in, adm_in. by rewrite HA.
  - intros r v f. rewrite Hpf, HA. apply P2.
  - intros r v t. rewrite HA. apply P3.
  - intros r v f. rewrite Hpf. apply P4.
  - intros r v f t. rewrite Hpf, HA. apply P5.
Qed.

(** Attributes of pages without a frame. *)
Lemma pages_ok_attrs roots s A A' pf : pages_ok roots s A pf → (∀ r v, is_Some (pf r v) → A' r v = A r v) →
  (∀ r v t, A' r v = Some t → r ∈ roots ∧ user_vpn v ∧ attr_ok (mc_groups s) t) → pages_ok roots s A' pf.
Proof.
  intros [P1 P2 P3 P4 P5] HA Hok. split; try done.
  - eapply iso_ext; [exact P1|done|]. intros r v b Hr Hu Hb. unfold private_in, adm_in.
    rewrite HA; [done|]. exists (get_ppn b). by apply (is_track _ _ _ _ _ _ _ P1 r v b).
  - intros r v f Hf. rewrite HA by eauto. by eapply P2.
  - intros r v f t Hf. rewrite HA by eauto. by eapply P5.
Qed.

(** What a handler that gave the page [o] leaves. *)
Lemma pages_ok_handled roots s A pf r v t a good s' a' ok o : pages_ok roots s A pf → A r v = Some t → pf r v = None →
  handled ext roots s a pf (private_in A) (adm_in A) r v good s' a' ok o → (ok = true → attr_private t = true → leafy (at_perm t) = true) →
  pages_ok roots s' A (pf_set pf r v o).
Proof.
  intros [P1 P2 P3 P4 P5] Ht Hnone [h1 h2 h3 h4 h5] Hl.
  assert (∀ r' v' f, pf_set pf r v o r' v' = Some f → r' = r ∧ v' = v ∧ ok = true ∨ (r', v') ≠ (r, v) ∧ pf r' v' = Some f) as Hcase.
  { intros r' v' f. unfold pf_set. destruct (decide _) as [[-> ->]|Hn]; [intros ->; left; by destruct ok|]. right. split; [|done]. intros [= -> ->]. by apply Hn. }
  split; [done|..].
  - intros r' v' f [(-> & -> & _)|[_ Hf]]%Hcase; [eauto|by eapply P2].
  - intros r' v' t' Ht'. destruct (P3 r' v' t' Ht') as (? & ? & Q). do 2 (split; [done|]). eapply attr_ok_groups; [intros id; apply h4|done].
  - intros r' v' f [(-> & -> & ->)|[Hne Hf]]%Hcase; [destruct h5 as [_ (b & -> & _)]; eauto|].
    destruct (P2 _ _ _ Hf) as [t' Ht']. destruct (P3 _ _ _ Ht') as (? & ? & _). rewrite (sp_pte _ _ _ _ _ h3) by done. by eapply P4.
  - intros r' v' f t' [(-> & -> & ->)|[Hne Hf]]%Hcase Ht' Hp; [|by eapply P5]. rewrite Ht in Ht'. injection Ht' as <-. by apply Hl.
Qed.
End pages.

(** ** Areas and their pages *)

Lemma update_frames l1 a l2 d : areas_wf (l1 ++ a :: l2) → frames_wf (l1 ++ a :: l2) → (∀ v, is_Some (d !! v) → holds a v = true) →
  let l' := l1 ++ set_frames a d :: l2 in
  areas_wf l' ∧ frames_wf l' ∧ (∀ v, attr_at l' v = attr_at (l1 ++ a :: l2) v) ∧
  (∀ v, frame_at l' v = if holds a v then d !! v else frame_at (l1 ++ a :: l2) v).
Proof.
  intros Hw Hf Hd l'. assert (areas_wf l') as Hw'.
  { apply areas_wf_app. apply areas_wf_app in Hw as (W1 & W2 & W3). apply areas_wf_cons in W2 as (W4 & W5 & W6). split; [done|]. split.
    - apply areas_wf_cons. done.
    - intros x y Hx [->|Hy]%elem_of_cons; [change (area_before x a); apply W3; [done|left]|]. apply W3; [done|by right]. }
  assert (∀ v, lookup_area l' v = if holds a v then Some (set_frames a d) else lookup_area (l1 ++ l2) v) as Hl'.
  { intros v. unfold l'. rewrite lookup_area_middle by (by apply areas_wf_apart). done. }
  assert (∀ v, lookup_area (l1 ++ a :: l2) v = if holds a v then Some a else lookup_area (l1 ++ l2) v) as Hl.
  { intros v. by rewrite lookup_area_middle by (by apply areas_wf_apart). }
  split; [done|]. split.
  - unfold frames_wf, l' in *. rewrite Forall_app, Forall_cons in Hf |- *. destruct Hf as (F1 & F2 & F3). split; [done|]. split; [|done].
    intros v f Hv. apply Hd. eauto.
  - split; intros v; unfold attr_at, frame_at; rewrite Hl', Hl; by destruct (holds a v).
Qed.

Lemma attr_at_area l1 a l2 v : areas_wf (l1 ++ a :: l2) → holds a v = true →
  attr_at (l1 ++ a :: l2) v = Some (page_attr a v) ∧ frame_at (l1 ++ a :: l2) v = data_frames a !! v.
Proof. intros Hw Hh. unfold attr_at, frame_at. by rewrite lookup_whole. Qed.

Lemma area_index_spec p l v i : area_index p l v = Some i → ∃ l1 a l2, l = l1 ++ a :: l2 ∧ i = length l1 ∧ p a = true ∧ holds a v = true.
Proof.
  unfold area_index. revert i. induction l as [|b l IH]; intros i; simpl; [done|].
  destruct (p b && holds b v) eqn:E; [intros [= <-]; apply andb_prop in E as [??]; by exists [], b, l|].
  destruct (position _ l) as [j|]; simpl; [|done]. intros [= <-]. destruct (IH j eq_refl) as (l1 & a & l2 & -> & -> & ? & ?).
  by exists (b :: l1), a, l2.
Qed.

Lemma lazy_allowed_permits a c : lazy_allowed a c = permits (map_perm a) c.
Proof. destruct c; try done. apply intersects_perms. Qed.

Lemma not_present_refused `{FrameSource Src} huge_alloc bk (s : @Mach Src) pt a v c prepared : permits (map_perm a) c = false →
  handle_mmap_not_present_page_fault huge_alloc bk s pt a v c prepared = Done (s, pt, a, false).
Proof.
  unfold handle_mmap_not_present_page_fault. destruct c; simpl; intros E; rewrite ?E; try done.
  destruct (intersects_perms (map_perm a)) as [-> _]. unfold leafy in E. apply orb_false_iff in E as [[E1 E2]%orb_false_iff E3].
  by rewrite E1, E2, E3.
Qed.

Lemma area_index_at p l1 a l2 v : areas_wf (l1 ++ a :: l2) → holds a v = true →
  area_index p (l1 ++ a :: l2) v = if p a then Some (length l1) else None.
Proof.
  intros Hw Hh. assert (∀ b, b ∈ l1 ++ l2 → holds b v = false) as Ho.
  { intros b Hb. destruct (holds b v) eqn:E; [|done]. exfalso. apply areas_wf_apart in Hw. rewrite <- Permutation_middle in Hw.
    apply all_apart_cons in Hw as [Hap _]. eapply Forall_forall in Hap; [|exact Hb]. by eapply apart_holds. }
  clear Hw. unfold area_index. induction l1 as [|b l1 IH]; simpl.
  - rewrite Hh, andb_true_r. destruct (p a); [done|]. apply fmap_None. simpl in Ho. clear -Ho. induction l2 as [|b l2 IH]; [done|]. simpl.
    rewrite (Ho b), andb_false_r by left. apply fmap_None, IH. intros x Hx. apply Ho. by right.
  - rewrite (Ho b), andb_false_r by left. rewrite IH by (intros x Hx; apply Ho; by right). by destruct (p a).
Qed.

(** *** Growing down *)

Lemma growdown_spec l v : ∀ i best j g, growdown_from i l v best = Some (j, g) →
  best = Some (j, g) ∨ ∃ l1 l2, l = l1 ++ g :: l2 ∧ j = (i + length l1)%nat ∧ grows_down v g = true.
Proof.
  induction l as [|b l IH]; intros i best j g; simpl; [by left|]. intros [E|(l1 & l2 & -> & -> & Hg)]%IH.
  - destruct (grows_down v b) eqn:Hb; [|by left]. assert ((i, b) = (j, g) ∨ best = Some (j, g)) as [[= -> ->]|Hbest].
    { destruct best as [[k x]|]; [destruct (_ <? _)|]; [left|right|left]; by simplify_eq. }
    + right. exists [], l. simpl. by rewrite Nat.add_0_r.
    + by left.
  - right. exists (b :: l1), l2. simpl. split_and!; [done|lia|done].
Qed.

Lemma max_end_spec l b : b ∈ l → ∃ e, max_end l = Some e ∧ area_end b ≤ e.
Proof.
  induction l as [|x l IH]; [by intros ?%not_elem_of_nil|]. intros [->|Hb]%elem_of_cons; simpl.
  - eexists. split; [done|]. destruct (max_end l); lia.
  - destruct (IH Hb) as (e & -> & ?). eexists. split; [done|]. lia.
Qed.

(** An area may grow where nothing is in the way, and the pages between it and
    the area below it are the guard gap. *)
Lemma growth_allowed l1 g l2 v : growth_blocked (l1 ++ g :: l2) (length l1) (area_start g) v = false →
  ∀ b, b ∈ l1 ++ l2 → (area_start g ≤ area_start b ∨ area_end b ≤ v) ∧ (area_end b ≤ v → STACK_GUARD_GAP_PAGES ≤ v - area_end b).
Proof.
  unfold growth_blocked, others. rewrite vec_remove_app. intros [E1 E2]%orb_false_iff b Hb. split.
  - destruct ((area_start b <? area_start g) && (v <? area_end b)) eqn:E; [|lia]. exfalso.
    assert (existsb (λ a, (area_start a <? area_start g) && (v <? area_end a)) (l1 ++ l2) = true); [|congruence].
    apply existsb_exists. exists b. split; [by apply list_elem_of_In|done].
  - intros Hv. destruct (max_end_spec (List.filter (λ a, area_end a <=? v) (l1 ++ l2)) b) as (e & He & Hle).
    { apply list_elem_of_In, filter_In. split; [by apply list_elem_of_In|lia]. }
    rewrite He in E2. lia.
Qed.

Section grown.
Context (l1 : list MapArea) (g : MapArea) (l2 : list MapArea) (v : Z).
Context (Hwf : areas_wf (l1 ++ g :: l2)) (Hfr : frames_wf (l1 ++ g :: l2)) (Hg : grows_down v g = true) (Hv : 0 ≤ v).
Context (Hb : growth_blocked (l1 ++ g :: l2) (length l1) (area_start g) v = false).
Let g' := set_range g (mkRange v (area_end g)).
Let l := l1 ++ g :: l2.
Let l' := l1 ++ g' :: l2.

Lemma grown_start : v < area_start g.
Proof using Hg. unfold grows_down in Hg. lia. Qed.

Lemma grown_attr w : page_attr g' w = page_attr g w.
Proof using Hg.
  unfold grows_down, is_anonymous in Hg. unfold page_attr. simpl. by destruct (mf_source (mmap_file g)); simpl in Hg; rewrite ?andb_false_r in Hg.
Qed.

Lemma grown_wf : areas_wf l'.
Proof using Hwf Hg Hv Hb.
  pose proof grown_start as Hs. apply areas_wf_app in Hwf as (W1 & W2 & W3). apply areas_wf_cons in W2 as (W4 & W5 & W6).
  unfold l'. apply areas_wf_app. split; [done|]. split.
  - apply areas_wf_cons. split; [|done]. destruct W4 as (E1 & E2 & E3). split_and!; try done; simpl; unfold area_start, area_end in *; simpl; lia.
  - intros x y Hx [->|Hy]%elem_of_cons; [|apply W3; [done|by right]].
    destruct (growth_allowed l1 g l2 v Hb x) as [[E|E] _]; [apply elem_of_app; by left| |done].
    specialize (W3 x g Hx ltac:(by left)). unfold area_before in W3. apply wf_areas in W1. eapply Forall_forall in W1; [|done]. unfold area_ok in W1. lia.
Qed.

Lemma grown_holds w : holds g' w = holds g w || in_range v (area_start g) w.
Proof using Hwf Hg.
  pose proof grown_start as Hs. apply areas_wf_app in Hwf as (_ & W2 & _). apply areas_wf_cons in W2 as (W4 & _).
  apply eq_true_iff_eq. rewrite orb_true_iff, !holds_spec, in_range_spec. change (area_start g') with v. change (area_end g') with (area_end g).
  destruct W4 as (? & _ & _). lia.
Qed.

(** The pages below the old start get the attributes of the area; nothing else changes. *)
Lemma grown_view : frames_wf l' ∧ ∀ w, frame_at l' w = frame_at l w ∧
  attr_at l' w = (if in_range v (area_start g) w then Some (page_attr g w) else attr_at l w) ∧
  (in_range v (area_start g) w = true → attr_at l w = None).
Proof using Hwf Hfr Hg Hv Hb.
  pose proof grown_wf as Hwf'. pose proof (areas_wf_apart _ Hwf') as Hap. pose proof (areas_wf_apart _ Hwf) as Hap0. split.
  - unfold frames_wf, l' in *. rewrite Forall_app, Forall_cons in Hfr |- *. destruct Hfr as (F1 & F2 & F3). split; [done|]. split; [|done].
    intros w f Hw. specialize (F2 w f Hw). by rewrite grown_holds, F2.
  - assert (∀ w, in_range v (area_start g) w = true → lookup_area (l1 ++ l2) w = None ∧ holds g w = false) as Hnew.
    { intros w Hr. assert (holds g' w = true) as Hw by (rewrite grown_holds, Hr; apply orb_true_r). split.
      - apply lookup_area_None. intros b Hbin. destruct (holds b w) eqn:Hbw; [|done]. exfalso. eapply (apart_holds g' b); [|done|done].
        unfold l' in Hap. rewrite <- Permutation_middle in Hap. apply all_apart_cons in Hap as [Hap _]. by eapply Forall_forall in Hap.
      - apply in_range_spec in Hr. destruct (holds g w) eqn:E; [|done]. apply holds_spec in E. lia. }
    intros w. unfold frame_at, attr_at, l', l. rewrite !lookup_area_middle by done. rewrite grown_holds.
    destruct (in_range v (area_start g) w) eqn:Hr; [|rewrite orb_false_r; destruct (holds g w); [simpl; by rewrite grown_attr|done]].
    destruct (Hnew w Hr) as [-> ->]. simpl. rewrite grown_attr. split; [|done]. assert (frames_in g) as Hing by (unfold frames_wf in Hfr; by rewrite Forall_app, Forall_cons in Hfr; destruct Hfr as (_ & ? & _)).
    destruct (data_frames g !! w) as [f|] eqn:E; [|done]. apply Hing in E. apply in_range_spec in Hr. apply holds_spec in E. lia.
Qed.
End grown.

(** ** The fault handler *)

Section fault.
Context `{FrameSource Src} (huge_alloc : Src → option (Z * Src)) (bk : Backings) (ext : Z → nat) (roots : list Z).
Context (Hcached : ∀ file i p, bk_cached bk file i = Some p → (0 < ext (fp_frame p))%nat).
Context (Hshared : ∀ b i f, bk_shared bk b i = Some f → (0 < ext f)%nat).
Implicit Types (s : @Mach Src) (L : Z → list MapArea) (ms : MemorySetInner PageTable.PageTable).

Definition attrs_of L : Attrs := λ r v, attr_at (L r) v.
Definition frames_of L : Z → Z → option Z := λ r v, frame_at (L r) v.
Definition spaces_ok s L : Prop := (∀ r, areas_wf (L r) ∧ frames_wf (L r)) ∧ pages_ok ext roots s (attrs_of L) (frames_of L).

(** The parts of a step that concern other pages and the bytes in memory. *)
Definition quiet (m m' : PhysMem Src) (r v : Z) : Prop :=
  (∀ r' v', r' ∈ roots → user_vpn v' → (r', v') ≠ (r, v) → entry_at m' r' v' = entry_at m r' v') ∧
  (∀ q, fs_free (source m') q → fs_free (source m) q) ∧
  (∀ q, ¬ fs_free (source m) q → pages m' !! q = pages m !! q).

Lemma quiet_refl m r v : quiet m m r v.
Proof. done. Qed.
Lemma quiet_trans m1 m2 m3 r v : quiet m1 m2 r v → quiet m2 m3 r v → quiet m1 m3 r v.
Proof.
  intros (A1 & A2 & A3) (B1 & B2 & B3). split; [|split].
  - intros r' v' ???. rewrite B1, A1 by done. done.
  - auto.
  - intros q Hq. rewrite B3, A3; auto.
Qed.
Lemma step_quiet m m' r v : page_step roots m m' r v → quiet m m' r v.
Proof. intros [h1 h2 h3 _]. done. Qed.

Definition with_areas L (r : Z) (l : list MapArea) : Z → list MapArea := λ r', if decide (r' = r) then l else L r'.

(** The pages of an area that changes its frames in place. *)
Lemma spaces_ok_area s s' L r l1 a l2 d pf' : spaces_ok s L → L r = l1 ++ a :: l2 → (∀ v, is_Some (d !! v) → holds a v = true) →
  pages_ok ext roots s' (attrs_of L) pf' →
  (∀ r' v', pf' r' v' = if decide (r' = r) then (if holds a v' then d !! v' else frames_of L r v') else frames_of L r' v') →
  spaces_ok s' (with_areas L r (l1 ++ set_frames a d :: l2)).
Proof.
  intros [Hw Hp] HL Hd Hp' Hpf. destruct (Hw r) as [Hwr Hfr]. rewrite HL in Hwr, Hfr.
  destruct (update_frames l1 a l2 d Hwr Hfr Hd) as (W1 & W2 & W3 & W4). split.
  - intros r'. unfold with_areas. by destruct (decide (r' = r)) as [->|Hne].
  - eapply pages_ok_ext; [exact Hp'| |]; intros r' v'; rewrite ?Hpf; unfold attrs_of, frames_of, with_areas;
      (destruct (decide (r' = r)) as [->|Hne]; [rewrite HL; auto|done]).
Qed.

Lemma spaces_ok_ext s L L' : spaces_ok s L → (∀ r, L' r = L r) → spaces_ok s L'.
Proof.
  intros [Hw Hp] HL. split; [intros r; rewrite HL; apply Hw|].
  eapply pages_ok_ext; [exact Hp| |]; intros r v; unfold attrs_of, frames_of; by rewrite HL.
Qed.
Lemma spaces_ok_same s L r : spaces_ok s L → spaces_ok s (with_areas L r (L r)).
Proof. intros Hok. eapply spaces_ok_ext; [exact Hok|]. intros r'. unfold with_areas. by destruct (decide (r' = r)) as [->|]. Qed.
Lemma spaces_ok_again s L r l l' : spaces_ok s (with_areas (with_areas L r l) r l') → spaces_ok s (with_areas L r l').
Proof. intros Hok. eapply spaces_ok_ext; [exact Hok|]. intros r'. unfold with_areas. by destruct (decide (r' = r)). Qed.

Section page.
Context (s : @Mach Src) (L : Z → list MapArea) (r v : Z) (pt : PageTable.PageTable) (l1 : list MapArea) (a : MapArea) (l2 : list MapArea).
Context (Hok : spaces_ok s L) (Hroot : root_ppn pt = r) (HL : L r = l1 ++ a :: l2) (Hh : holds a v = true).

Lemma page_attrs : attrs_of L r v = Some (page_attr a v) ∧ frames_of L r v = data_frames a !! v ∧ r ∈ roots ∧ user_vpn v ∧
  attr_ok (mc_groups s) (page_attr a v).
Proof using Hok HL Hh.
  destruct Hok as [Hw Hp]. destruct (Hw r) as [Hwr _]. rewrite HL in Hwr. destruct (attr_at_area l1 a l2 v Hwr Hh) as [E1 E2].
  unfold attrs_of, frames_of. rewrite HL, E1, E2. do 2 (split; [done|]). apply (po_user _ _ _ _ _ Hp). unfold attrs_of. by rewrite HL.
Qed.

Lemma page_ready c : translate (mc_mem s) pt v = Done None → permits (map_perm a) c = true → has_frames 5 (source (mc_mem s)) →
  ready roots s pt a (frames_of L) (private_in (attrs_of L)) (adm_in (attrs_of L)) r v.
Proof using Hok Hroot HL Hh.
  intros Htr Hp Hroom. destruct page_attrs as (Ha & Hf & Hr & Hu & Hfr & _ & Hmm & _). pose proof (po_iso _ _ _ _ _ (proj2 Hok)) as Hi.
  assert (frames_of L r v = None) as Hnone.
  { destruct (frames_of L r v) as [f|] eqn:E; [|done]. exfalso.
    destruct (po_back _ _ _ _ _ (proj2 Hok) r v f E) as [b Hb]. rewrite (translate_entry roots), Hroot, Hb in Htr by (done || apply Hi || by rewrite Hroot).
    pose proof (is_adm _ _ _ _ _ _ _ Hi r v b Hr Hu Hb) as Hadm. unfold adm_in in Hadm. rewrite Ha in Hadm.
    destruct Hadm as [Hl _]. simpl in Htr. rewrite Hl in Htr by (by eapply permits_leafy). done. }
  split; try done.
  - by rewrite <- Hf.
  - intros b Hb. unfold adm_in. by rewrite Ha.
Qed.

(** The area after a handler, in its place. *)
Lemma area_handled good s' a' ok o : (attr_private (page_attr a v) = true → leafy (map_perm a) = true) → frames_of L r v = None →
  handled ext roots s a (frames_of L) (private_in (attrs_of L)) (adm_in (attrs_of L)) r v good s' a' ok o →
  spaces_ok s' (with_areas L r (l1 ++ a' :: l2)) ∧ (∀ v', attr_at (l1 ++ a' :: l2) v' = attr_at (L r) v') ∧ quiet (mc_mem s) (mc_mem s') r v ∧
  (ok = true → ∃ b, entry_at (mc_mem s') r v = Some b ∧ good b).
Proof using Hok HL Hh.
  intros Hp Hnone Hd. destruct page_attrs as (Ha & Hf & Hr & Hu & _). destruct (proj1 Hok r) as [Hwr Hfr]. rewrite HL in Hwr, Hfr.
  assert (∃ d, a' = set_frames a d ∧ (∀ v', is_Some (d !! v') → holds a v' = true) ∧ ∀ v', d !! v' = if decide (v' = v) then o else data_frames a !! v')
    as (d & -> & Hd1 & Hd2).
  { assert (frames_in a) as Hin by (unfold frames_wf in Hfr; by rewrite Forall_app, Forall_cons in Hfr; destruct Hfr as (_ & ? & _)).
    destruct o as [f|]; [exists (<[v := f]> (data_frames a))|exists (data_frames a)]; rewrite (hd_area _ _ _ _ _ _ _ _ _ _ _ _ _ _ Hd); split_and!; try done.
    - intros v' [f' Hf']. destruct (decide (v' = v)) as [->|]; [done|]. rewrite lookup_insert_ne in Hf' by done. by eapply Hin.
    - intros v'. destruct (decide (v' = v)) as [->|]; [by rewrite lookup_insert_eq|by rewrite lookup_insert_ne].
    - by destruct a.
    - intros v' [f' Hf']. by eapply Hin.
    - intros v'. destruct (decide (v' = v)) as [->|]; [by rewrite <- Hf|done]. }
  split; [|split; [|split]].
  - eapply (spaces_ok_area s); [exact Hok|done|done|eapply pages_ok_handled; [apply Hok|exact Ha|exact Hnone|exact Hd|intros _; exact Hp]|].
    intros r' v'. unfold pf_set. destruct (decide (r' = r)) as [->|Hne]; [|rewrite decide_False by (by intros [??]); done].
    destruct (decide (v' = v)) as [->|Hv]; [rewrite decide_True, Hh, Hd2, decide_True by done; done|].
    rewrite decide_False by (by intros [??]). destruct (holds a v') eqn:Hh'; [|done]. rewrite Hd2, decide_False by done.
    unfold frames_of. rewrite HL. by apply attr_at_area.
  - intros v'. rewrite HL. by apply (update_frames l1 a l2 d).
  - apply step_quiet, Hd.
  - intros ->. apply (hd_ok _ _ _ _ _ _ _ _ _ _ _ _ _ _ Hd).
Qed.
End page.

(** A store to a present page, in the areas. *)
Lemma store_ok s L r v ms c : spaces_ok s L → root_ppn (page_table ms) = r → areas ms = L r →
  ∃ s' ms' ok, handle_write_protect_fault s ms v c = Done (s', ms', ok) ∧ root_ppn (page_table ms') = r ∧
    spaces_ok s' (with_areas L r (areas ms')) ∧ quiet (mc_mem s) (mc_mem s') r v ∧ (∀ v', attr_at (areas ms') v' = attr_at (areas ms) v') ∧
    (ok = true → ∃ t b, attr_at (areas ms') v = Some t ∧ permits (at_perm t) c = true ∧ entry_at (mc_mem s') r v = Some b ∧ allows b c = true).
Proof.
  intros Hok Hroot HL. assert (∃ s' ms' ok, Done (s, ms, false) = Done (s', ms', ok) ∧ root_ppn (page_table ms') = r ∧
    spaces_ok s' (with_areas L r (areas ms')) ∧ quiet (mc_mem s) (mc_mem s') r v ∧ (∀ v', attr_at (areas ms') v' = attr_at (areas ms) v') ∧
    (ok = true → ∃ t b, attr_at (areas ms') v = Some t ∧ permits (at_perm t) c = true ∧ entry_at (mc_mem s') r v = Some b ∧ allows b c = true)) as Hno.
  { exists s, ms, false. split_and!; try done. rewrite HL. by apply spaces_ok_same. }
  unfold handle_write_protect_fault. destruct (bool_decide _) eqn:Hc; [done|]. apply bool_decide_eq_false in Hc.
  destruct (area_index is_cow_area (areas ms) v) as [i|] eqn:Hi; [|done]. clear Hno.
  apply area_index_spec in Hi as (l1 & a & l2 & E & -> & _ & Hh). rewrite HL in E. unfold on_area. rewrite HL, E, list_lookup_middle by done.
  cbn [unwrap mbind comp_bind]. destruct (page_attrs s L r v l1 a l2 Hok E Hh) as (Ha & Hf & Hr & Hu & Hao).
  destruct (write_protect_ok ext roots s (page_table ms) a (frames_of L) (private_in (attrs_of L)) (adm_in (attrs_of L)) r v) as
    (s' & d & ok & -> & Hgr & Hi' & Hd & Hstep & Hres); [apply Hok|done|done|done|done|intros b; unfold adm_in; by rewrite Ha|].
  cbn [mbind comp_bind]. rewrite insert_middle. destruct (proj1 Hok r) as [Hwr Hfr]. rewrite E in Hwr, Hfr.
  assert (frames_in a) as Hin by (unfold frames_wf in Hfr; by rewrite Forall_app, Forall_cons in Hfr; destruct Hfr as (_ & ? & _)).
  assert (∀ v', is_Some (d !! v') → holds a v' = true) as Hdh.
  { intros v' [f Hf']. destruct (decide (v' = v)) as [->|Hne]; [done|]. rewrite Hd in Hf' by done. by eapply Hin. }
  destruct (update_frames l1 a l2 d Hwr Hfr Hdh) as (_ & _ & Hattr & _).
  eexists s', _, ok. split; [done|]. simpl. split; [done|]. split; [|split; [by apply step_quiet|split]].
  - apply (spaces_ok_area s s' L r l1 a l2 d (pf_set (frames_of L) r v (d !! v))); [exact Hok|exact E|done| |].
    + destruct Hok as [_ [P1 P2 P3 P4 P5]]. split; [done|..].
      * intros r' v' f. unfold pf_set. case_decide as Hd'; [destruct Hd' as [-> ->]; rewrite Ha; eauto|apply P2].
      * rewrite Hgr. exact P3.
      * intros r' v' f. unfold pf_set. case_decide as Hd'; [destruct Hd' as [-> ->]|].
        { intros Hdv. destruct ok; [destruct Hres as [_ (b & -> & _)]; eauto|]. destruct Hres as (-> & -> & _). apply (P4 r v f). by rewrite Hf. }
        intros Hf'. destruct (P2 _ _ _ Hf') as [t' Ht']. destruct (P3 _ _ _ Ht') as (? & ? & _).
        rewrite (sp_pte _ _ _ _ _ Hstep) by (done || intros [= -> ->]; by apply Hd'). by eapply P4.
      * intros r' v' f t. unfold pf_set. case_decide as Hd'; [destruct Hd' as [-> ->]|apply P5].
        intros Hdv Ht Hp. destruct ok; [|destruct Hres as (-> & -> & _); eapply (P5 r v f); [by rewrite Hf|done|done]].
        rewrite Ha in Ht. injection Ht as <-. destruct Hres as [Hw _]. simpl. unfold leafy. rewrite Hw. by rewrite orb_true_r.
    + intros r' v'. unfold pf_set. destruct (decide (r' = r)) as [->|Hne]; [|rewrite decide_False by (by intros [??]); done].
      destruct (decide (v' = v)) as [->|Hv]; [by rewrite decide_True, Hh by done|]. rewrite decide_False by (by intros [??]).
      destruct (holds a v') eqn:Hh'; [|done]. rewrite Hd by done. unfold frames_of. rewrite E. by apply attr_at_area.
  - intros v'. by rewrite Hattr.
  - intros ->. destruct Hres as [Hw (b & Hb & Hal)]. exists (page_attr a v), b. rewrite Hattr, <- E. split; [exact Ha|]. split; [|split; [done|]].
    + simpl. destruct c; simpl; try done; [naive_solver|naive_solver|]. unfold leafy. rewrite Hw. by rewrite orb_true_r.
    + destruct c; try done; naive_solver.
Qed.

(** What a fault leaves. *)
Record resolved s L (r v : Z) (c : Cause) s' ms' (ok : bool) : Prop := {
  rs_root : root_ppn (page_table ms') = r;
  rs_ok : spaces_ok s' (with_areas L r (areas ms'));
  rs_quiet : quiet (mc_mem s) (mc_mem s') r v;
  rs_allowed : ok = true → ∃ t b, attr_at (areas ms') v = Some t ∧ permits (at_perm t) c = true ∧
    entry_at (mc_mem s') r v = Some b ∧ allows b c = true }.

Context (s : @Mach Src) (L : Z → list MapArea) (ms : MemorySetInner PageTable.PageTable) (r v : Z) (c : Cause).
Context (Hok : spaces_ok s L) (Hroot : root_ppn (page_table ms) = r) (HL : areas ms = L r).

Lemma resolved_refuse : resolved s L r v c s ms false.
Proof using Hok Hroot HL. split; [done|rewrite HL; by apply spaces_ok_same|apply quiet_refl|done]. Qed.

(** A handler of one area that refuses, or that is [handled]. *)
Lemma on_area_ok i p h : area_index p (areas ms) v = Some i →
  (∀ l1 a l2, L r = l1 ++ a :: l2 → i = length l1 → p a = true → holds a v = true →
     h s (page_table ms) a = Done (s, page_table ms, a, false) ∨
     permits (map_perm a) c = true ∧ frames_of L r v = None ∧ ∃ s' pt' a' ok o, h s (page_table ms) a = Done (s', pt', a', ok) ∧ root_ppn pt' = r ∧
       handled ext roots s a (frames_of L) (private_in (attrs_of L)) (adm_in (attrs_of L)) r v (λ b, allows b c = true) s' a' ok o) →
  ∃ s' ms' ok, on_area s ms i h = Done (s', ms', ok) ∧ resolved s L r v c s' ms' ok ∧ ∀ v', attr_at (areas ms') v' = attr_at (areas ms) v'.
Proof using Hok Hroot HL.
  intros (l1 & a & l2 & E & -> & Hpa & Hh)%area_index_spec Hcase. rewrite HL in E. unfold on_area. rewrite HL, E, list_lookup_middle by done.
  cbn [unwrap mbind comp_bind].
  destruct (Hcase l1 a l2 E eq_refl Hpa Hh) as [->|(Hp & Hnone & s' & pt' & a' & ok & o & -> & Hr' & Hd)]; cbn [mbind comp_bind]; rewrite insert_middle.
  - exists s, (mkMs (page_table ms) (l1 ++ a :: l2) (total_mmap_size ms) (mmap_hint ms)), false. split_and!; try done.
    split; [done|simpl; rewrite <- E; by apply spaces_ok_same|apply quiet_refl|done].
  - destruct (area_handled s L r v l1 a l2 Hok E Hh _ s' a' ok o (λ _, permits_leafy _ _ Hp) Hnone Hd) as (H1 & H2 & H3 & H4).
    eexists s', _, ok. split; [done|]. split; [|intros v'; simpl; rewrite H2, E; done]. split; try done. intros Ht.
    destruct (H4 Ht) as (b & ? & ?). exists (page_attr a v), b. simpl. split; [|done]. rewrite H2.
    apply (page_attrs s L r v l1 a l2 Hok E Hh).
Qed.

Context (prepared : option FilePage) (Hprep : ∀ p, prepared = Some p → (0 < ext (fp_frame p))%nat).
Context (Hu : user_vpn v) (Hin : r ∈ roots) (Hroom : has_frames 5 (source (mc_mem s))).

Lemma area_facts A a : attr_ok (mc_groups s) (page_attr a v) → A r v = Some (page_attr a v) →
  (private_in A r v = true → is_shared a = false) ∧
  (groupid a ≠ 0 → is_Some (groups (mc_groups s) !! groupid a) ∧ private_in A r v = false).
Proof using.
  intros (_ & _ & _ & _ & _ & Hg) Ha. unfold private_in. rewrite Ha. unfold attr_private, is_shared. simpl in *. split.
  - by intros [?%negb_true_iff _]%andb_prop.
  - intros [E1 E2]%Hg. split; [done|]. by rewrite E1.
Qed.

Lemma mmap_fault_ok i : translate (mc_mem s) (page_table ms) v = Done None → area_index is_mmap_area (areas ms) v = Some i →
  ∃ s' ms' ok, on_area s ms i (λ s pt a, handle_mmap_not_present_page_fault huge_alloc bk s pt a v c prepared) = Done (s', ms', ok) ∧
    resolved s L r v c s' ms' ok ∧ ∀ v', attr_at (areas ms') v' = attr_at (areas ms) v'.
Proof using All.
  intros Htr Hi. eapply on_area_ok; [done|]. intros l1 a l2 E _ _ Hh. destruct (permits (map_perm a) c) eqn:Hp; [right|left; by apply not_present_refused].
  split; [done|]. pose proof (page_ready s L r v (page_table ms) l1 a l2 Hok Hroot E Hh c Htr Hp Hroom) as Hrd.
  split; [apply (rd_none _ _ _ _ _ _ _ _ _ Hrd)|]. destruct (page_attrs s L r v l1 a l2 Hok E Hh) as (Ha & _ & _ & _ & Hao).
  destruct (area_facts _ a Hao Ha) as [Hpriv Hgr].
  edestruct (not_present_ok huge_alloc bk ext roots) as (s' & pt' & a' & ok & o & Heq & Hr' & Hd & _);
    [exact Hcached|exact Hshared|apply Hok|exact Hrd|exact Hpriv|exact Hprep|exact Hgr|]. exists s', pt', a', ok, o. done.
Qed.

Lemma lazy_fault_ok i : translate (mc_mem s) (page_table ms) v = Done None → area_index is_lazy_area (areas ms) v = Some i →
  ∃ s' ms' ok, on_area s ms i (λ s pt a, if lazy_allowed a c then lazy_page_fault huge_alloc v s pt a else Done (s, pt, a, false)) = Done (s', ms', ok) ∧
    resolved s L r v c s' ms' ok ∧ ∀ v', attr_at (areas ms') v' = attr_at (areas ms) v'.
Proof using All.
  intros Htr Hi. eapply on_area_ok; [done|]. intros l1 a l2 E _ _ Hh. rewrite lazy_allowed_permits.
  destruct (permits (map_perm a) c) eqn:Hp; [right|by left].
  split; [done|]. pose proof (page_ready s L r v (page_table ms) l1 a l2 Hok Hroot E Hh c Htr Hp Hroom) as Hrd.
  split; [apply (rd_none _ _ _ _ _ _ _ _ _ Hrd)|].
  destruct (lazy_page_ok huge_alloc ext roots s (page_table ms) a _ _ _ r v c (po_iso _ _ _ _ _ (proj2 Hok)) Hrd Hp) as (s' & pt' & a' & o & Heq & Hr' & Hd).
  exists s', pt', a', true, o. done.
Qed.

(** The areas stay, or one that grows down now starts at the page, above the guard gap. *)
Definition layout_kept (l l' : list MapArea) : Prop := ∀ w, attr_at l' w = attr_at l w.
Definition layout_grown (l l' : list MapArea) : Prop :=
  ∃ g, g ∈ l ∧ contains (mmap_flags g) MAP_GROWSDOWN = true ∧ v < area_start g ∧
    (∀ w, attr_at l' w = if in_range v (area_start g) w then Some (page_attr g w) else attr_at l w) ∧
    (∀ w, v - STACK_GUARD_GAP_PAGES ≤ w < v → attr_at l' w = None).

Section growth.
Context (l1 : list MapArea) (g : MapArea) (l2 : list MapArea).
Context (HLg : L r = l1 ++ g :: l2) (Hg : grows_down v g = true).
Context (Hb : growth_blocked (l1 ++ g :: l2) (length l1) (area_start g) v = false).
Let g' := set_range g (mkRange v (area_end g)).
Let l' := l1 ++ g' :: l2.

Lemma growth_layout : layout_grown (l1 ++ g :: l2) l'.
Proof using Hok HLg Hg Hb Hu.
  destruct (proj1 Hok r) as [Hwf Hfr]. rewrite HLg in Hwf, Hfr.
  destruct (grown_view l1 g l2 v Hwf Hfr Hg ltac:(unfold user_vpn in Hu; lia) Hb) as [_ Hview]. pose proof (grown_start g v Hg) as Hs.
  exists g. split; [apply elem_of_app; right; left|]. split; [by unfold grows_down in Hg; destruct (contains (mmap_flags g) MAP_GROWSDOWN); [|rewrite !andb_false_r in Hg]|].
  split; [done|]. split; [intros w; apply Hview|]. intros w Hw. destruct (Hview w) as (_ & E & _). unfold l', g'. rewrite E.
  assert (in_range v (area_start g) w = false) as -> by (apply not_true_is_false; rewrite in_range_spec; lia).
  apply attr_at_None. intros b Hbin. destruct (holds b w) eqn:Hbw; [|done]. exfalso. apply holds_spec in Hbw.
  apply elem_of_app in Hbin. rewrite elem_of_cons in Hbin.
  assert (b ∈ l1 ++ l2) as Hbl by (apply elem_of_app; destruct Hbin as [?|[->|?]]; [by left|lia|by right]).
  destruct (growth_allowed l1 g l2 v Hb b) as [[E1|E1] E2]; [done|lia|]. specialize (E2 E1). lia.
Qed.

Lemma growth_ok : spaces_ok s (with_areas L r l') ∧ (∀ r' v', frames_of (with_areas L r l') r' v' = frames_of L r' v').
Proof using Hok HLg Hg Hb Hu Hin.
  destruct (proj1 Hok r) as [Hwf Hfr]. rewrite HLg in Hwf, Hfr. assert (0 ≤ v) as Hv by (unfold user_vpn in Hu; lia).
  destruct (grown_view l1 g l2 v Hwf Hfr Hg Hv Hb) as [Hfr' Hview]. pose proof (grown_wf l1 g l2 v Hwf Hg Hv Hb) as Hwf'. fold g' l' in Hfr', Hview, Hwf'.
  assert (∀ r' v', frames_of (with_areas L r l') r' v' = frames_of L r' v') as Hfo.
  { intros r' v'. unfold frames_of, with_areas. destruct (decide (r' = r)) as [->|]; [|done]. rewrite HLg. apply Hview. }
  split; [|done]. split; [intros r'; pose proof (proj1 Hok r'); unfold with_areas; by destruct (decide (r' = r))|].
  assert (attr_ok (mc_groups s) (page_attr g (area_start g))) as Hao.
  { apply (po_user _ _ _ _ _ (proj2 Hok) r (area_start g)). unfold attrs_of. rewrite HLg.
    apply attr_at_area; [done|]. apply holds_spec. apply wf_areas in Hwf. rewrite Forall_app, Forall_cons in Hwf. unfold area_ok in Hwf. lia. }
  eapply pages_ok_ext; [|done|exact Hfo]. eapply pages_ok_attrs; [apply Hok| |].
  - intros r' v' [f Hf]. unfold attrs_of, with_areas. destruct (decide (r' = r)) as [->|]; [|done]. rewrite HLg. destruct (Hview v') as (_ & -> & Hn).
    destruct (in_range v (area_start g) v'); [|done]. exfalso. apply (po_in _ _ _ _ _ (proj2 Hok)) in Hf as [t Ht]. unfold attrs_of in Ht. rewrite HLg, Hn in Ht; done.
  - intros r' v' t. unfold attrs_of, with_areas. destruct (decide (r' = r)) as [->|]; [|apply (po_user _ _ _ _ _ (proj2 Hok))].
    destruct (Hview v') as (_ & -> & _). destruct (in_range v (area_start g) v') eqn:Hr; [|rewrite <- HLg; apply (po_user _ _ _ _ _ (proj2 Hok))].
    intros [= <-]. split; [done|]. split; [|exact Hao]. apply in_range_spec in Hr. apply wf_areas in Hwf. rewrite Forall_app, Forall_cons in Hwf. unfold area_ok, user_vpn in *. lia.
Qed.

Lemma growth_fault_ok : translate (mc_mem s) (page_table ms) v = Done None →
  ∃ s' ms' ok, on_area s ms (length l1) (λ s pt a,
      '(s, pt, a, ok) ← handle_mmap_not_present_page_fault huge_alloc bk s pt a v c prepared;
      if negb ok then Done (s, pt, a, false) else r ← range_new v (area_end g); Done (s, pt, set_range a r, true)) = Done (s', ms', ok) ∧
    resolved s L r v c s' ms' ok ∧ (layout_kept (areas ms) (areas ms') ∨ layout_grown (areas ms) (areas ms')).
Proof using All.
  intros Htr. unfold on_area. rewrite HL, HLg, list_lookup_middle by done. cbn [unwrap mbind comp_bind].
  destruct (permits (map_perm g) c) eqn:Hp.
  2: { rewrite not_present_refused by done. cbn [mbind comp_bind negb]. rewrite insert_middle.
    eexists s, _, false. split; [done|]. split; [|by left]. split; [done|simpl; rewrite <- HLg; by apply spaces_ok_same|apply quiet_refl|done]. }
  destruct growth_ok as [Hok1 Hfo]. pose proof growth_layout as Hlay. destruct (proj1 Hok r) as [Hwf _]. rewrite HLg in Hwf.
  assert (with_areas L r l' r = l') as HL1 by (unfold with_areas; by rewrite decide_True).
  assert (holds g' v = true) as Hh by (unfold g'; rewrite (grown_holds l1 g l2 v Hwf Hg); apply orb_true_iff; right; apply in_range_spec; pose proof (grown_start g v Hg); lia).
  pose proof (page_ready s _ r v (page_table ms) l1 g' l2 Hok1 Hroot HL1 Hh c Htr Hp Hroom) as Hrd.
  assert (ready roots s (page_table ms) g (frames_of (with_areas L r l')) (private_in (attrs_of (with_areas L r l'))) (adm_in (attrs_of (with_areas L r l'))) r v) as Hrd0
    by (destruct Hrd; by split).
  destruct (page_attrs s _ r v l1 g' l2 Hok1 HL1 Hh) as (Ha & Hf & _ & _ & Hao).
  destruct (area_facts _ g' Hao Ha) as [Hpriv Hgr].
  edestruct (not_present_ok huge_alloc bk ext roots) as (s' & pt' & a' & ok & o & Heq & Hr' & Hd & _);
    [exact Hcached|exact Hshared|apply Hok1|exact Hrd0|exact Hpriv|exact Hprep|exact Hgr|].
  rewrite Heq. cbn [mbind comp_bind].
  assert (handled ext roots s g' (frames_of (with_areas L r l')) (private_in (attrs_of (with_areas L r l'))) (adm_in (attrs_of (with_areas L r l'))) r v
    (λ b, allows b c = true) s' (set_range a' (mkRange v (area_end g))) ok o) as Hd'.
  { destruct Hd as [d1 d2 d3 d4 d5]. split; try done. rewrite d1. by destruct o. }
  pose proof (rd_none _ _ _ _ _ _ _ _ _ Hrd) as Hnone.
  destruct (area_handled s _ r v l1 g' l2 Hok1 HL1 Hh _ _ _ _ _ (λ _, permits_leafy _ _ Hp) Hnone Hd') as (H1 & H2 & H3 & H4).
  destruct ok; cbn [negb].
  - rewrite range_new_ok by (pose proof (grown_start g v Hg); apply wf_areas in Hwf; rewrite Forall_app, Forall_cons in Hwf; unfold area_ok in Hwf; lia).
    cbn [mbind comp_bind]. rewrite insert_middle. eexists s', _, true. split; [done|]. simpl in *. split; [split; simpl; [done| |done|]|].
    + by eapply spaces_ok_again.
    + intros _. destruct (H4 eq_refl) as (b & ? & ?). exists (page_attr g' v), b. rewrite H2, HL1. split; [|done]. rewrite <- HL1. exact Ha.
    + right. destruct Hlay as (x & G1 & G2 & G3 & G4 & G5). rewrite HL1 in H2. exists x. split_and!; try done; intros w; [rewrite H2; apply G4|intros Hw; rewrite H2; by apply G5].
  - assert (a' = g) as -> by (destruct Hd as [d1 _ _ _ d5]; by rewrite d5 in d1). cbn [mbind comp_bind]. rewrite insert_middle.
    eexists s', _, false. split; [done|]. split; [|by left]. split; [done| |done|done]. simpl. rewrite <- HLg. apply spaces_ok_same.
    split; [apply Hok|].
    assert (pages_ok ext roots s' (attrs_of (with_areas L r l')) (frames_of L)) as Hp1.
    { eapply pages_ok_ext; [eapply pages_ok_handled; [apply Hok1|exact Ha|exact Hnone|exact Hd'|done]|done|]. intros r' v'.
      assert (o = None) as -> by apply Hd. rewrite <- Hnone, pf_set_same. by rewrite Hfo. }
    eapply pages_ok_attrs; [exact Hp1| |].
    + intros r' v' Hs. unfold attrs_of, with_areas. destruct (decide (r' = r)) as [->|]; [|done]. destruct Hlay as (x & G1 & G2 & G3 & G4 & G5).
      destruct Hs as [f Hf']. apply (po_in _ _ _ _ _ (proj2 Hok)) in Hf' as [t Ht]. unfold attrs_of in Ht.
      destruct (grown_view l1 g l2 v Hwf) as [_ Hview]; [rewrite <- HLg; apply Hok|done|unfold user_vpn in Hu; lia|done|].
      destruct (Hview v') as (_ & E & Hn). unfold l', g'. rewrite E. destruct (in_range v (area_start g) v'); [|by rewrite HLg]. rewrite HLg, Hn in Ht; done.
    + intros r' v' t Ht. destruct (po_user _ _ _ _ _ (proj2 Hok) r' v' t Ht) as (? & ? & Q). do 2 (split; [done|]).
      eapply attr_ok_groups; [intros id; apply (hd_groups _ _ _ _ _ _ _ _ _ _ _ _ _ _ Hd)|done].
Qed.
End growth.

Lemma not_present_fault_ok : ∃ s' ms' ok, handle_not_present_page_fault huge_alloc bk s ms v c prepared = Done (s', ms', ok) ∧
  resolved s L r v c s' ms' ok ∧ (layout_kept (areas ms) (areas ms') ∨ layout_grown (areas ms) (areas ms')).
Proof using All.
  assert (∃ s' ms' ok, Done (s, ms, false) = Done (s', ms', ok) ∧ resolved s L r v c s' ms' ok ∧
    (layout_kept (areas ms) (areas ms') ∨ layout_grown (areas ms) (areas ms'))) as Hno.
  { exists s, ms, false. split_and!; [done|apply resolved_refuse|by left]. }
  assert (∀ x : comp (@Mach Src * MemorySetInner PageTable.PageTable * bool),
    (∃ s' ms' ok, x = Done (s', ms', ok) ∧ resolved s L r v c s' ms' ok ∧ ∀ v', attr_at (areas ms') v' = attr_at (areas ms) v') →
    ∃ s' ms' ok, x = Done (s', ms', ok) ∧ resolved s L r v c s' ms' ok ∧ (layout_kept (areas ms) (areas ms') ∨ layout_grown (areas ms) (areas ms'))) as Hkeep.
  { intros x (s' & ms' & ok & ? & ? & ?). exists s', ms', ok. split_and!; try done. by left. }
  unfold handle_not_present_page_fault. pose proof (is_mem _ _ _ _ _ _ _ (po_iso _ _ _ _ _ (proj2 Hok))) as Hm.
  destruct (translate (mc_mem s) (page_table ms) v) as [tr|] eqn:Htr; [|by rewrite (translate_entry roots) in Htr by (done || by rewrite Hroot)].
  cbn [mbind comp_bind]. destruct tr as [p|]; [done|].
  destruct (area_index is_mmap_area (areas ms) v) as [i|] eqn:Hi; [apply Hkeep; by apply mmap_fault_ok|].
  destruct (area_index is_lazy_area (areas ms) v) as [i|] eqn:Hi2; [apply Hkeep; by apply lazy_fault_ok|].
  destruct (existsb _ (areas ms)); [done|]. destruct (growdown_from 0 (areas ms) v None) as [[i g]|] eqn:Hg; [|done].
  apply growdown_spec in Hg as [|(l1 & l2 & E & -> & Hg)]; [done|]. destruct (growth_blocked _ _ _ _) eqn:Hb; [done|]. simpl in Hb |- *.
  rewrite E in Hb. rewrite HL in E. by apply (growth_fault_ok l1 g l2).
Qed.

Lemma page_fault_ok : ∃ s' ms' ok, handle_page_fault huge_alloc bk s ms v c prepared = Done (s', ms', ok) ∧
  resolved s L r v c s' ms' ok ∧ (layout_kept (areas ms) (areas ms') ∨ layout_grown (areas ms) (areas ms')).
Proof using All.
  unfold handle_page_fault. destruct not_present_fault_ok as (s1 & ms1 & ok1 & -> & Hres1 & Hlay1). cbn [mbind comp_bind].
  destruct ok1; [by exists s1, ms1, true|]. destruct Hres1 as [R1 R2 R3 _].
  destruct (store_ok s1 (with_areas L r (areas ms1)) r v ms1 c R2 R1) as (s2 & ms2 & ok2 & -> & H1 & H2 & H3 & H4 & H5).
  { unfold with_areas. by rewrite decide_True. }
  exists s2, ms2, ok2. split; [done|]. split.
  - split; [done|by eapply spaces_ok_again|by eapply quiet_trans|done].
  - destruct Hlay1 as [Hk|(x & G1 & G2 & G3 & G4 & G5)]; [left|right].
    + intros w. by rewrite H4.
    + exists x. split_and!; try done; intros w; [rewrite H4; apply G4|intros Hw; rewrite H4; by apply G5].
Qed.

(** A permitted access to anonymous memory, or a store to a page that is there,
    is never refused. *)
Lemma page_fault_live l1 a l2 s' ms' ok : L r = l1 ++ a :: l2 → holds a v = true →
  is_mmap_area a && is_anonymous (mmap_file a) || is_lazy_area a = true → permits (map_perm a) c = true →
  is_store c ∨ entry_at (mc_mem s) r v = None → handle_page_fault huge_alloc bk s ms v c prepared = Done (s', ms', ok) → ok = true.
Proof using All.
  intros E Hh Hkind Hp Hcase. destruct (page_attrs s L r v l1 a l2 Hok E Hh) as (Ha & Hf & _ & _ & Hao). destruct (proj1 Hok r) as [Hwr _]. rewrite E in Hwr.
  pose proof (po_iso _ _ _ _ _ (proj2 Hok)) as Hi. unfold handle_page_fault, handle_not_present_page_fault, handle_write_protect_fault, on_area.
  rewrite (translate_entry roots), Hroot, HL, E, !area_index_at by (done || apply Hi || by rewrite Hroot).
  destruct (entry_at (mc_mem s) r v) as [b|] eqn:Hb; cbn [mbind option_bind].
  - destruct Hcase as [Hst|]; [|done]. pose proof (is_adm _ _ _ _ _ _ _ Hi r v b Hin Hu Hb) as Hadm. unfold adm_in in Hadm. rewrite Ha in Hadm.
    destruct Hadm as (Hlf & _ & Hww). rewrite Hlf by (by eapply permits_leafy). cbn [mbind comp_bind].
    rewrite bool_decide_eq_false_2 by (destruct Hst as [-> | ->]; intros [?|?]; done).
    rewrite HL, E, area_index_at by done.
    assert (is_cow_area a = true) as ->.
    { unfold is_cow_area, is_mmap_area, is_lazy_area in *. apply bool_decide_eq_true. apply orb_true_iff in Hkind as [[Hk _]%andb_prop|Hk]; apply bool_decide_eq_true in Hk; tauto. }
    rewrite list_lookup_middle by done. cbn [unwrap mbind comp_bind].
    destruct (write_protect_ok ext roots s (page_table ms) a (frames_of L) (private_in (attrs_of L)) (adm_in (attrs_of L)) r v) as
      (s1 & d & ok1 & -> & _ & _ & _ & _ & Hres); [apply Hok|done|done|done|done|intros b'; unfold adm_in; by rewrite Ha|].
    cbn [mbind comp_bind]. intros [= _ _ <-]. destruct ok1; [done|]. exfalso. destruct Hres as (_ & _ & [Hno|Hno]).
    + specialize (Hno b Hb). rewrite Hww in Hno; [done|]. by destruct Hst as [-> | ->].
    + destruct (alloc_some (mc_mem s) 4 Hroom) as (f & m' & Hal). by rewrite Hal in Hno.
  - assert (translate (mc_mem s) (page_table ms) v = Done None) as Htr by (rewrite (translate_entry roots), Hroot, Hb by (done || apply Hi || by rewrite Hroot); done).
    pose proof (page_ready s L r v (page_table ms) l1 a l2 Hok Hroot E Hh c Htr Hp Hroom) as Hrd.
    cbn [mbind comp_bind]. destruct (is_mmap_area a) eqn:Hm; [|destruct (is_lazy_area a) eqn:Hlz; [|done]]; rewrite list_lookup_middle by done; cbn [unwrap mbind comp_bind].
    + assert (is_anonymous (mmap_file a) = true) as Han.
      { apply orb_true_iff in Hkind as [Hk|Hk]; [done|]. unfold is_mmap_area, is_lazy_area in *. apply bool_decide_eq_true in Hk, Hm. rewrite Hm in Hk. by destruct Hk as [?|[?|?]]. }
      destruct (handle_mmap_not_present_page_fault _ _ _ _ _ _ _ _) as [[[[s1 pt1] a1] ok1]|] eqn:Hh1; cbn [mbind comp_bind]; [|done].
      rewrite (not_present_live huge_alloc bk ext roots s (page_table ms) a _ _ _ r v Hi Hrd c prepared s1 pt1 a1 ok1 Han Hp Hh1). by intros [= _ _ <-].
    + rewrite lazy_allowed_permits, Hp.
      destruct (lazy_page_ok huge_alloc ext roots s (page_table ms) a _ _ _ r v c Hi Hrd Hp) as (s1 & pt1 & a1 & o & -> & _). cbn [mbind comp_bind]. by intros [= _ _ <-].
Qed.
End fault.
