(* ===== verification/ForkPages.v ===== *)
(** * What fork does to pages

    The new page table of the child, a page shared copy on write and a page of a
    shared area given to the child, each as a step of the invariant of
    [FaultWorld]. *)

From S2P Require Import Prelude Address FrameAlloc PageTable MapArea AreaPt AreaSet Mmu Fault FaultIso FaultInv FaultWorld.

(** ** The table of the child *)

Section root.
Context `{FrameSource Src}.
Implicit Types (m : PhysMem Src).

Lemma copy_entries_facts n : ∀ m dst src, (n ≤ 512)%nat →
  let m' := copy_entries m dst src n in
  source m' = source m ∧ pages m' = pages m ∧ ∀ q j, q ≠ dst ∨ j < 512 - Z.of_nat n → rd m' q j = rd m q j.
Proof.
  induction n as [|n IH]; intros m dst src Hn; [done|]. cbn [copy_entries].
  destruct (IH (wr m dst (511 - Z.of_nat n) (rd m src (511 - Z.of_nat n))) dst src) as (-> & -> & Hrd); [lia|].
  split; [done|]. split; [done|]. intros q j Hq. rewrite Hrd by (destruct Hq; [by left|right; lia]).
  apply rd_wr_ne. intros [= -> ->]. lia.
Qed.

Lemma kernel_entries : Z.of_nat (Z.to_nat (512 - kernel_index)) = 256.
Proof. vm_compute. done. Qed.

Lemma new_root_ok roots m kernel : mem_ok roots m → has_frames 1 (source m) →
  ∃ r0 m', new_from_kernel m kernel = Done (m', mkPt r0 [r0]) ∧ r0 ∉ roots ∧ mem_ok (r0 :: roots) m' ∧
    (∀ r v, r ∈ roots → user_vpn v → entry_at m' r v = entry_at m r v) ∧ (∀ v, user_vpn v → entry_at m' r0 v = None) ∧
    (∀ f, fs_free (source m') f → fs_free (source m) f) ∧ (∀ f, ¬ fs_free (source m) f → pages m' !! f = pages m !! f) ∧
    (∀ n, has_frames (S n) (source m) → has_frames n (source m')).
Proof.
  intros Hm Hroom. destruct (alloc_some m 0 Hroom) as (r0 & m1 & Ha). pose proof (alloc_facts m m1 roots r0 (mo_wf _ _ Hm) Ha) as (Hs & Hfree & Hnf & Hmono & _ & Hrd1 & _).
  destruct (alloc_same roots m r0 m1 Hm Ha) as (_ & _ & _ & _ & Hpages & _ & Hroom1).
  unfold new_from_kernel. rewrite Ha. cbn [unwrap mbind comp_bind]. pose proof kernel_entries as Hn. generalize dependent (Z.to_nat (512 - kernel_index)). intros n Hn.
  destruct (copy_entries_facts n m1 r0 (root_ppn kernel)) as (Esrc & Epg & Erd); [lia|]. generalize dependent (copy_entries m1 r0 (root_ppn kernel) n).
  intros m' Esrc Epg Erd. exists r0, m'. split; [done|].
  assert (∀ q j, q ≠ r0 → rd m' q j = rd m q j) as Hold by (intros q j Hq; rewrite Erd by (by left); rewrite Hrd1; by rewrite decide_False).
  assert (∀ j, j < kernel_index → rd m' r0 j = 0) as Hnew.
  { intros j Hj. change kernel_index with 256 in Hj. rewrite Erd by (right; lia). rewrite Hrd1. by rewrite decide_True. }
  assert (r0 ∉ roots) as Hr0.
  { intros Hin. apply (wf_used _ _ (mo_wf _ _ Hm) r0 [] r0); [|done]. split; [done|]. split; [done|]. split; [simpl; lia|done]. }
  assert (∀ r p, r ∈ roots → user_path p → (length p ≤ 3)%nat → table_at m' r p = table_at m r p) as Htab.
  { intros r p Hr Hp Hlen. apply table_at_ext. intros l j k q -> Hq. apply Hold. intros ->.
    apply (wf_used _ _ (mo_wf _ _ Hm) r l r0); [|done]. by eapply walk_reaches. }
  assert (∀ r p q, reaches m' (r0 :: roots) r p q → reaches m roots r p q ∨ (r = r0 ∧ p = [] ∧ q = r0)) as Hreach.
  { intros r p q (Hr & Hp & Hlen & Ht). apply elem_of_cons in Hr as [->|Hr]; [right|left; split; [done|]; split; [done|]; split; [done|]; rewrite <- Ht; symmetry; apply Htab; [done|done|lia]].
    destruct p as [|i p]; simpl in Ht; [by simplify_eq|]. rewrite Hnew in Ht by done. done. }
  assert (∀ r p q, reaches m roots r p q → q ≠ r0) as Hne by (intros r p q Hq ->; by apply (wf_used _ _ (mo_wf _ _ Hm) r p r0)).
  split; [done|]. split; [|split; [|split; [|split; [|split]]]].
  - split; [split|].
    + by rewrite Esrc.
    + intros r r' p p' t H1 H2. destruct (Hreach _ _ _ H1) as [R1|(-> & -> & ->)], (Hreach _ _ _ H2) as [R2|(-> & -> & E)]; try done.
      * by eapply (wf_inj _ _ (mo_wf _ _ Hm)).
      * subst t. by destruct (Hne _ _ _ R1).
      * by destruct (Hne _ _ _ R2).
    + intros r p t i H1 Hu. destruct (Hreach _ _ _ H1) as [R1|(-> & -> & ->)]; [|by rewrite Hnew].
      rewrite Hold by (by eapply Hne). by eapply (wf_entry _ _ (mo_wf _ _ Hm)).
    + intros r p t H1. rewrite Esrc. destruct (Hreach _ _ _ H1) as [R1|(-> & -> & ->)]; [|done]. intros ?%Hmono. by eapply (wf_used _ _ (mo_wf _ _ Hm)).
    + intros r _ path q i H1 Hlen Hu. destruct (Hreach _ _ _ H1) as [R1|(-> & -> & ->)]; [|by rewrite Hnew].
      rewrite Hold by (by eapply Hne). eapply (mo_small _ _ Hm r); [apply R1|done|done|done].
  - intros r v Hr Hu. enough (pte_at m' r v = pte_at m r v) as E by (unfold entry_at; by rewrite E).
    pose proof (user_vpn_path v Hu) as Hp. unfold pte_at. rewrite indexes_eq in *. set (l := [_; _; _]) in *.
    assert (∀ k1 k2 q, l = k1 ++ k2 → table_at m r k1 = Some q → (length k1 ≤ 2)%nat → q ≠ r0) as Hw.
    { intros k1 k2 q E Hq Hl. apply (Hne r k1). split; [done|]. split; [by eapply user_path_prefix; rewrite <- E|done]. }
    unfold l in *. cbn [walk_bits]. rewrite (Hold r) by (by apply (Hw [] _ r eq_refl); [|simpl; lia]). destruct (pte_table (rd m r _)) eqn:T1; [|done].
    rewrite Hold by (eapply (Hw [_] [_; _]); [done|simpl; by rewrite T1|simpl; lia]). destruct (pte_table (rd m (get_ppn _) _)) eqn:T2; [|done].
    rewrite Hold by (eapply (Hw [_; _] [_]); [done|simpl; by rewrite T1, T2|simpl; lia]). done.
  - intros v Hu. pose proof (user_vpn_path v Hu) as Hp. unfold entry_at, pte_at. rewrite indexes_eq in *. cbn [walk_bits user_path] in *.
    by rewrite Hnew.
  - intros f. rewrite Esrc. apply Hmono.
  - intros f Hf. rewrite Epg. apply Hpages. by intros ->.
  - intros k Hk. rewrite Esrc. by apply Hroom1.
Qed.
End root.

(** ** The entries of a page shared copy on write *)

Lemma lor_valid fl : flags_ok fl → flags_ok (Z.lor fl VALID) ∧
  contains (Z.lor fl VALID) WRITEABLE = contains fl WRITEABLE ∧ contains (Z.lor fl VALID) COW = contains fl COW ∧
  contains (Z.lor fl VALID) READABLE = contains fl READABLE ∧ contains (Z.lor fl VALID) VALID = true ∧ intersects (Z.lor fl VALID) RWX = intersects fl RWX.
Proof.
  intros Hf. split; [apply flags_ok_lor; [done|split; [unfold VALID; lia|done]]|].
  destruct (flag_bit fl) as (Ev & Er & Ew & _ & Ec). destruct (flag_bit (Z.lor fl VALID)) as (Ev' & Er' & Ew' & _ & Ec').
  rewrite Ev', Er', Ew', Ec', Er, Ew, Ec, !Z.lor_spec. split_and!; try (apply orb_false_r); [apply orb_true_r|].
  unfold intersects. rewrite Z.land_lor_distr_l. change (Z.land VALID RWX) with 0. by rewrite Z.lor_0_r.
Qed.

Definition shared_flags (b : Z) : Z := let fl := pte_flags_of b in if contains fl WRITEABLE then cow_flags fl else fl.

Lemma shared_entries perm b : pte_ok b → pte_valid b = true → pte_leaf b = true → adm perm b →
  flags_ok (shared_flags b) ∧ ∀ x, x = set_flags b (shared_flags b) ∨ x = pte_new (get_ppn b) (Z.lor (shared_flags b) VALID) →
    pte_ok x ∧ pte_valid x = true ∧ get_ppn x = get_ppn b ∧ writes x = false ∧ adm perm x.
Proof.
  intros Hok Hv Hl (_ & Hw & Hww). pose proof (flags_ok_of b Hok) as Hfok. set (fl := shared_flags b).
  assert (flags_ok fl ∧ contains fl VALID = true ∧ intersects fl RWX = true ∧ contains fl WRITEABLE = false ∧
    (contains fl COW = true → contains perm PERM_W = true ∧ contains fl READABLE = true) ∧
    (contains perm PERM_W = true → contains fl COW = true)) as (F1 & F2 & F3 & F4 & F5 & F6).
  { unfold fl, shared_flags. destruct (contains (pte_flags_of b) WRITEABLE) eqn:Ew.
    - destruct Hw as [Hpw Hr]; [unfold writes; by rewrite Ew|]. destruct (cow_flags_spec (pte_flags_of b)) as (C1 & C2 & C3 & C4 & C5); [done..|].
      do 4 (split; [done|]). split; [|done]. intros _. split; [done|]. destruct (flag_bit (pte_flags_of b)) as (_ & Er & _). rewrite Er in Hr.
      unfold cow_flags. flag_bits. by rewrite Hr.
    - split_and!; try done; [intros Hc; apply Hw; unfold cows; by rewrite Hc, orb_true_r|].
      intros Hpw. specialize (Hww Hpw). unfold writes, cows in Hww. by rewrite Ew in Hww. }
  destruct (lor_valid fl F1) as (V1 & V2 & V3 & V4 & V5 & V6). split; [done|]. intros x Hx.
  assert (∃ fx, flags_ok fx ∧ pte_flags_of x = fx ∧ pte_ok x ∧ get_ppn x = get_ppn b ∧ contains fx VALID = true ∧ intersects fx RWX = true ∧
    contains fx WRITEABLE = false ∧ contains fx COW = contains fl COW ∧ contains fx READABLE = contains fl READABLE) as (fx & _ & Hfx & X1 & X2 & X3 & X4 & X5 & X6 & X7).
  { destruct Hx as [-> | ->]; [exists fl|exists (Z.lor fl VALID)].
    - split_and!; try done; [apply set_flags_flags, F1|by apply set_flags_ok|apply set_flags_ppn, F1].
    - pose proof (get_ppn_range b) as Hr. split_and!; try done; [apply pte_flags_of_new; [done|apply V1]|apply pte_new_ok; [done|apply V1|apply V1]|apply get_ppn_new; [done|apply V1]|congruence..]. }
  unfold pte_valid, pte_leaf, writes, adm, cows, pte_leaf, writes. rewrite Hfx. split_and!; try done.
  - rewrite X5, X6, X7. exact F5.
  - rewrite X5, X6. exact F6.
Qed.

(** ** Steps of the invariant *)

Section steps.
Context `{FrameSource Src} (ext : Z → nat).
Implicit Types (s : @Mach Src) (A : Attrs) (pf : Z → Z → option Z) (roots : list Z).
Notation pages_ok := (pages_ok ext).

Lemma iso_rc_more roots (m : PhysMem Src) rc rc' F P Q : iso ext roots m rc F P Q → (∀ f, (rc_get rc f ≤ rc_get rc' f)%nat) → iso ext roots m rc' F P Q.
Proof. intros [I1 I2 I3 I4 I5 I6] Hle. split; try done. intros f l Hnd Hl. specialize (I5 f l Hnd Hl). specialize (Hle f). lia. Qed.

Lemma pages_ok_rc roots m g rc rc' A pf : pages_ok roots (mkMach m g rc) A pf → (∀ f, (rc_get rc f ≤ rc_get rc' f)%nat) → pages_ok roots (mkMach m g rc') A pf.
Proof. intros [P1 P2 P3 P4 P5] Hle. split; try done. unfold hinv in *. simpl in *. by eapply iso_rc_more. Qed.

(** A group has one more area. *)
Lemma pages_ok_group roots s A pf id : pages_ok roots s A pf → pages_ok roots (with_groups s (add_area (mc_groups s) id)) A pf.
Proof.
  intros Hp. unfold add_area. destruct (Z.eqb_spec id 0) as [->|Hne]; [by destruct s|].
  destruct Hp as [P1 P2 P3 P4 P5]. split; try done.
  - eapply iso_ext; [exact P1| |done]. intros [r v|id' v]; [done|]. simpl. destruct (decide (id' = id)) as [->|]; [|by rewrite lookup_insert_ne].
    rewrite lookup_insert_eq. by destruct (groups (mc_groups s) !! id).
  - intros r v t Ht. destruct (P3 r v t Ht) as (? & ? & Q). do 2 (split; [done|]). eapply attr_ok_groups; [|done]. simpl. intros id' Hs.
    destruct (decide (id' = id)) as [->|]; [rewrite lookup_insert_eq; eauto|by rewrite lookup_insert_ne].
Qed.

(** A new address space. *)
Lemma pages_ok_root roots s m' A pf r0 : pages_ok roots s A pf → r0 ∉ roots → mem_ok (r0 :: roots) m' →
  (∀ f, fs_free (source m') f → fs_free (source (mc_mem s)) f) →
  (∀ r v, r ∈ roots → user_vpn v → entry_at m' r v = entry_at (mc_mem s) r v) → (∀ v, user_vpn v → entry_at m' r0 v = None) →
  pages_ok (r0 :: roots) (with_mem s m') A pf.
Proof.
  intros [P1 P2 P3 P4 P5] Hr0 Hm Hfree Hold Hnew. split; try done.
  - by eapply iso_root.
  - intros r v t Ht. destruct (P3 r v t Ht) as (? & ? & ?). split; [by right|done].
  - intros r v f Hf. destruct (P2 r v f Hf) as [t Ht]. destruct (P3 r v t Ht) as (? & ? & _). simpl. rewrite Hold by done. by eapply P4.
Qed.

(** A page got a frame. *)
Lemma pages_ok_put roots s A pf s' r v t f : pages_ok roots s A pf → A r v = Some t → hinv ext roots s' (pf_set pf r v (Some f)) (private_in A) (adm_in A) →
  mc_groups s' = mc_groups s → is_Some (entry_at (mc_mem s') r v) → (attr_private t = true → leafy (at_perm t) = true) →
  (∀ r' v', r' ∈ roots → user_vpn v' → is_Some (entry_at (mc_mem s) r' v') → is_Some (entry_at (mc_mem s') r' v')) →
  pages_ok roots s' A (pf_set pf r v (Some f)).
Proof.
  intros [P1 P2 P3 P4 P5] Ht Hi Hg He Hl Hold.
  assert (∀ r' v' f', pf_set pf r v (Some f) r' v' = Some f' → r' = r ∧ v' = v ∨ pf r' v' = Some f') as Hcase.
  { intros r' v' f'. unfold pf_set. destruct (decide _) as [[-> ->]|Hn]; auto. }
  split; [done|..].
  - intros r' v' f' [[-> ->]|Hf]%Hcase; [by rewrite Ht|by eapply P2].
  - rewrite Hg. exact P3.
  - intros r' v' f' [[-> ->]|Hf]%Hcase; [done|]. destruct (P2 _ _ _ Hf) as [t' Ht']. destruct (P3 _ _ _ Ht') as (? & ? & _). apply Hold; [done|done|]. by eapply P4.
  - intros r' v' f' t' [[-> ->]|Hf]%Hcase Ht' Hp; [|by eapply P5]. rewrite Ht in Ht'. injection Ht' as <-. by apply Hl.
Qed.

(** What every step of fork keeps: the bytes in use, and the frames that are not taken. *)
Definition calm (m m' : PhysMem Src) : Prop :=
  (∀ q, fs_free (source m') q → fs_free (source m) q) ∧ (∀ q, ¬ fs_free (source m) q → pages m' !! q = pages m !! q).
Lemma calm_refl m : calm m m.
Proof. done. Qed.
Lemma calm_trans m1 m2 m3 : calm m1 m2 → calm m2 m3 → calm m1 m3.
Proof. intros [A1 A2] [B1 B2]. split; [auto|]. intros q Hq. rewrite B2, A2; auto. Qed.

(** The frame of a shared page. *)
Lemma give_page_ok roots s A pf r v t f cpt r1 v1 : pages_ok roots s A pf → A r v = Some t → attr_private t = false → pf r v = None →
  root_ppn cpt = r → pf r1 v1 = Some f → private_in A r1 v1 = false → has_frames 2 (source (mc_mem s)) →
  ∃ m' cpt', PageTable.map (mc_mem s) cpt v f (at_perm t) = Done (m', cpt') ∧ root_ppn cpt' = r ∧ calm (mc_mem s) m' ∧
    (∀ n, has_frames (2 + n) (source (mc_mem s)) → has_frames n (source m')) ∧
    pages_ok roots (mkMach m' (mc_groups s) (rc_clone (mc_rc s) f)) A (pf_set pf r v (Some f)).
Proof.
  intros Hp Ht Hsh Hnone Hroot Hf Hpriv Hroom. pose proof (po_iso _ _ _ _ _ Hp) as Hi. destruct (po_user _ _ _ _ _ Hp r v t Ht) as (Hr & Hu & _).
  assert (entry_at (mc_mem s) r v = None) as Hvac.
  { destruct (entry_at (mc_mem s) r v) as [b|] eqn:Hb; [|done]. pose proof (is_track _ _ _ _ _ _ _ Hi r v b Hr Hu Hb) as E. simpl in E. by rewrite Hnone in E. }
  assert (keyF pf (mc_groups s) (KPage r1 v1) = Some f) as Hk by done.
  destruct (is_used _ _ _ _ _ _ _ Hi f) as [_ Hrange]; [eauto|]. destruct (new_entry (at_perm t) f Hrange) as (Hppn & Hadm & _).
  destruct (map_set roots (mc_mem s) cpt v f (flags_from_perm (at_perm t))) as (m' & cpt' & Hmap & Hroot' & Hset);
    [apply Hi|by rewrite Hroot|done|by rewrite Hroot|done|apply perm_flags_ok|done|]. rewrite Hroot in Hroot', Hset. set (b := pte_new f _) in *.
  exists m', cpt'. split; [done|]. split; [done|]. split; [split; apply Hset|]. split; [apply Hset|].
  eapply pages_ok_put; [exact Hp|exact Ht| |done| |by rewrite Hsh|].
  - eapply iso_ext; [|intros k; apply keyF_put|done]. simpl.
    eapply (iso_entry ext roots (mc_mem s)); [|exact Hset|unfold frames_put; by rewrite decide_True, Hppn|by unfold adm_in; rewrite Ht|].
    + apply iso_ref; [exact Hi|done|eauto|]. intros r' v' b' Hr' Hu' Hb' Hw Hp' E. destruct (is_sole _ _ _ _ _ _ _ Hi r' v' b' Hr' Hu' Hb' Hw Hp') as [Hs _].
      rewrite E in Hs. specialize (Hs _ Hk). injection Hs as -> ->. congruence.
    + intros _. unfold private_in. by rewrite Ht, Hsh.
  - simpl. rewrite (ps_pte _ _ _ _ _ _ Hset), decide_True by done. eauto.
  - intros r' v' Hr' Hu' Hs. simpl. rewrite (ps_pte _ _ _ _ _ _ Hset) by done. destruct (decide _); [eauto|done].
Qed.

(** A page of the parent that has a frame, given to the child copy on write. *)
Lemma share_page_ok roots s A pf r r0 v t t0 f pt cpt : pages_ok roots s A pf → A r v = Some t → A r0 v = Some t0 → at_perm t0 = at_perm t →
  attr_private t = true → pf r v = Some f → pf r0 v = None → root_ppn pt = r → root_ppn cpt = r0 → r ≠ r0 → has_frames 2 (source (mc_mem s)) →
  ∃ m' cpt', handle_cow_mapping_from_exited_user (mc_mem s) pt cpt v = Done (m', cpt') ∧ root_ppn cpt' = r0 ∧ calm (mc_mem s) m' ∧
    (∀ n, has_frames (2 + n) (source (mc_mem s)) → has_frames n (source m')) ∧
    pages_ok roots (mkMach m' (mc_groups s) (rc_clone (mc_rc s) f)) A (pf_set pf r0 v (Some f)).
Proof.
  intros Hp Ht Ht0 Hperm Hpriv Hf Hnone Hroot Hroot0 Hne Hroom. pose proof (po_iso _ _ _ _ _ Hp) as Hi. pose proof (is_mem _ _ _ _ _ _ _ Hi) as Hm.
  destruct (po_user _ _ _ _ _ Hp r v t Ht) as (Hr & Hu & _). destruct (po_user _ _ _ _ _ Hp r0 v t0 Ht0) as (Hr0 & _).
  destruct (po_back _ _ _ _ _ Hp r v f Hf) as [b Hb]. pose proof (is_track _ _ _ _ _ _ _ Hi r v b Hr Hu Hb) as E. simpl in E. rewrite Hf in E. injection E as E.
  pose proof (is_adm _ _ _ _ _ _ _ Hi r v b Hr Hu Hb) as Hadm. unfold adm_in in Hadm. rewrite Ht in Hadm.
  assert (pte_leaf b = true) as Hl by (apply Hadm; by eapply (po_leafy _ _ _ _ _ Hp r v)).
  pose proof (find_entry roots (mc_mem s) pt v Hm ltac:(by rewrite Hroot) Hu) as Hfe. rewrite Hroot, Hb in Hfe. destruct Hfe as (Hok & Hv & tt & i & Hslot & Hfind).
  destruct (shared_entries (at_perm t) b Hok Hv Hl Hadm) as [Hfl Hx].
  destruct (Hx _ (or_introl eq_refl)) as (X1 & X2 & X3 & X4 & X5). destruct (Hx _ (or_intror eq_refl)) as (_ & _ & Y3 & Y4 & Y5).
  set (b' := set_flags b (shared_flags b)) in *. set (c := pte_new (get_ppn b) (Z.lor (shared_flags b) VALID)) in *.
  pose proof (wr_set roots (mc_mem s) pt v tt i b' Hm ltac:(by rewrite Hroot) Hu ltac:(by rewrite Hroot) X1 X2) as Hset1. rewrite Hroot in Hset1.
  set (m1 := wr (mc_mem s) tt i b') in *.
  assert (entry_at (mc_mem s) r0 v = None) as Hvac.
  { destruct (entry_at (mc_mem s) r0 v) as [b0|] eqn:Hb0; [|done]. pose proof (is_track _ _ _ _ _ _ _ Hi r0 v b0 Hr0 Hu Hb0) as E0. simpl in E0. by rewrite Hnone in E0. }
  assert (entry_at m1 r0 v = None) as Hvac1 by (rewrite (ps_pte _ _ _ _ _ _ Hset1), decide_False by (done || by intros [? _]); done).
  destruct (map_set roots m1 cpt v f (shared_flags b)) as (m2 & cpt' & Hmap & Hroot' & Hset2);
    [apply Hset1|by rewrite Hroot0|done|by rewrite Hroot0|rewrite E; apply get_ppn_range|done|done|]. rewrite Hroot0 in Hroot', Hset2. rewrite E in Hset2 at 1. fold c in Hset2.
  exists m2, cpt'. split.
  { unfold handle_cow_mapping_from_exited_user. rewrite (translate_entry roots), Hroot, Hb by (done || by rewrite Hroot). simpl. rewrite Hl. cbn [mbind comp_bind].
    rewrite Hfind. cbn [mbind comp_bind]. rewrite get_flags_ok by done. cbn [mbind comp_bind]. rewrite <- E. exact Hmap. }
  split; [done|]. assert (calm (mc_mem s) m2) as Hcalm by (apply (calm_trans _ m1); split; [apply Hset1|apply Hset1|apply Hset2|apply Hset2]).
  split; [done|]. split; [apply Hset2|].
  assert (hinv ext roots (with_mem s m1) pf (private_in A) (adm_in A)) as Hi1.
  { eapply (iso_entry ext roots (mc_mem s)); [exact Hi|exact Hset1|simpl; by rewrite Hf, X3, E|unfold adm_in; by rewrite Ht|by rewrite X4]. }
  eapply pages_ok_put; [exact Hp|exact Ht0| |done| | |].
  - eapply iso_ext; [|intros k; apply keyF_put|done]. simpl.
    eapply (iso_entry ext roots m1); [|exact Hset2|unfold frames_put; by rewrite decide_True, Y3, E|unfold adm_in; by rewrite Ht0, Hperm|by rewrite Y4].
    apply iso_ref; [exact Hi1|done|left; exists (KPage r v); exact Hf|].
    intros r' v' b1 Hr' Hu' Hb1 Hw Hp' Eb. destruct (is_sole _ _ _ _ _ _ _ Hi1 r' v' b1 Hr' Hu' Hb1 Hw Hp') as [Hs _].
    specialize (Hs (KPage r v)). rewrite Eb in Hs. specialize (Hs Hf). injection Hs as <- <-. simpl in Hb1.
    rewrite (ps_pte _ _ _ _ _ _ Hset1), decide_True in Hb1 by done. injection Hb1 as <-. congruence.
  - simpl. rewrite (ps_pte _ _ _ _ _ _ Hset2), decide_True by done. eauto.
  - intros _. rewrite Hperm. by eapply (po_leafy _ _ _ _ _ Hp r v).
  - intros r' v' Hr' Hu' Hs. simpl. rewrite (ps_pte _ _ _ _ _ _ Hset2) by done. destruct (decide _); [eauto|].
    rewrite (ps_pte _ _ _ _ _ _ Hset1) by done. destruct (decide _); [eauto|done].
Qed.
End steps.
