(* ===== verification/ForkAreas.v ===== *)
(** * Fork over the areas of an address space

    The loops of [from_existed_user] over the pages of an area and over the areas:
    the child gets every area but the fixed stack and the trap context, private
    pages copy on write, and the invariant of [FaultWorld] holds for the system
    with the child. *)

From S2P Require Import Prelude Address FrameAlloc PageTable MapArea AreaPt AreaSet Mmu Fault FaultIso FaultInv FaultWorld ForkPages.

(** ** Reference counts *)

Lemma rc_clone_all_get l : ∀ rc f, rc_get (rc_clone_all rc l) f = (rc_get rc f + length (filter (λ g, g = f) l))%nat.
Proof.
  induction l as [|g l IH]; intros rc f; simpl; [by rewrite Nat.add_0_r|]. unfold rc_clone_all in IH. rewrite IH, filter_cons. unfold rc_clone.
  rewrite rc_get_insert. destruct (decide (g = f)) as [->|Hne]; [rewrite decide_True by done; simpl; lia|by rewrite decide_False].
Qed.

(** The frames of some pages of a map are among the frames of all. *)
Lemma frames_submseteq (d : gmap Z Z) vpns : NoDup vpns → omap (d !!.) vpns ⊆+ (in_order d).*2.
Proof.
  intros Hnd. set (l := omap (λ v, pair v <$> d !! v) vpns).
  assert (omap (d !!.) vpns = l.*2) as ->.
  { unfold l. clear. induction vpns as [|v vpns IH]; [done|]. simpl. destruct (d !! v); simpl; [by f_equal|done]. }
  apply fmap_submseteq. unfold in_order. rewrite merge_sort_Permutation. apply NoDup_submseteq.
  - assert (NoDup (l.*1)) as Hn; [|by eapply NoDup_fmap_1]. assert (l.*1 = filter (λ v, is_Some (d !! v)) vpns) as ->; [|by apply NoDup_filter].
    unfold l. clear. induction vpns as [|v vpns IH]; [done|]. simpl. rewrite filter_cons. case_decide as Hd.
    + destruct Hd as [f ->]. simpl. by f_equal.
    + destruct (d !! v) as [f|] eqn:E; [by destruct Hd|done].
  - intros [v f] Hin. apply list_elem_of_omap in Hin as (v' & _ & Hv'). destruct (d !! v') as [f'|] eqn:E; simplify_eq/=. by apply elem_of_map_to_list.
Qed.

Lemma rc_clone_all_le rc l k f : l ⊆+ k → (rc_get (rc_clone_all rc l) f ≤ rc_get (rc_clone_all rc k) f)%nat.
Proof. intros Hs. rewrite !rc_clone_all_get. apply Nat.add_le_mono_l. apply submseteq_Permutation in Hs as (k' & ->). rewrite filter_app, length_app. lia. Qed.

Lemma has_frames_le `{FrameSource Src} n k (s : Src) : has_frames k s → (n ≤ k)%nat → has_frames n s.
Proof. intros Hk Hle. apply (has_frames_drop n (k - n)). by replace (k - n + n)%nat with k by lia. Qed.

Section loops.
Context `{FrameSource Src} (huge_alloc : Src → option (Z * Src)) (ext : Z → nat) (roots : list Z).
Context (A : Attrs) (r r0 : Z) (pt : PageTable.PageTable) (Hroot : root_ppn pt = r) (Hne : r ≠ r0).
Implicit Types (s : @Mach Src) (pf : Z → Z → option Z) (cpt : PageTable.PageTable).
Notation pages_ok := (pages_ok ext roots).

Lemma share_mapped_eq s cpt vpns : share_mapped s pt cpt vpns = share_pages s pt cpt vpns.
Proof using.
  revert s cpt. induction vpns as [|v vpns IH]; intros s cpt; [done|]. cbn [share_mapped share_pages].
  unfold handle_cow_mapping_from_exited_user at 2. destruct (translate (mc_mem s) pt v) as [[p|]|] eqn:E; cbn [mbind comp_bind]; [|by rewrite IH|done].
  unfold handle_cow_mapping_from_exited_user. rewrite E. cbn [mbind comp_bind].
  destruct (_ ← find_valid_pte (mc_mem s) pt v; _) as [[m cpt']|]; cbn [mbind comp_bind]; [apply IH|done].
Qed.

Definition pf_child pf (vpns : list Z) : Z → Z → option Z := λ r' v', if decide (r' = r0 ∧ v' ∈ vpns) then pf r v' else pf r' v'.

Lemma share_pages_ok vpns : ∀ s rc pf cpt, pages_ok (mkMach (mc_mem s) (mc_groups s) rc) A pf → root_ppn cpt = r0 → NoDup vpns →
  (∀ v, v ∈ vpns → pf r0 v = None ∧ ∃ t, A r v = Some t ∧ A r0 v = Some t ∧ attr_private t = true) → has_frames (2 * length vpns) (source (mc_mem s)) →
  ∃ m' cpt', share_pages s pt cpt vpns = Done (with_mem s m', cpt') ∧ root_ppn cpt' = r0 ∧ calm (mc_mem s) m' ∧
    (∀ n, has_frames (2 * length vpns + n) (source (mc_mem s)) → has_frames n (source m')) ∧
    pages_ok (mkMach m' (mc_groups s) (rc_clone_all rc (omap (pf r) vpns))) A (pf_child pf vpns).
Proof using Hroot Hne.
  induction vpns as [|v vpns IH]; intros s rc pf cpt Hp Hr0 Hnd Hall Hroom.
  { exists (mc_mem s), cpt. split; [by destruct s|]. split; [done|]. split; [apply calm_refl|]. split; [done|]. eapply pages_ok_ext; [exact Hp|done|].
    intros r' v'. unfold pf_child. rewrite decide_False; [done|]. by intros [_ ?%not_elem_of_nil]. }
  apply NoDup_cons in Hnd as [Hv Hnd]. destruct (Hall v ltac:(by left)) as (Hnone & t & Ht & Ht0 & Hpriv).
  assert (∀ v', v' ∈ vpns → pf r0 v' = None ∧ ∃ t, A r v' = Some t ∧ A r0 v' = Some t ∧ attr_private t = true) as Hall' by (intros v' Hv'; apply Hall; by right).
  cbn [share_pages length] in *. replace (2 * S (length vpns))%nat with (2 + 2 * length vpns)%nat in * by lia.
  assert (∀ s1 cpt1 rc1 pf1, pages_ok (mkMach (mc_mem s1) (mc_groups s) rc1) A pf1 → root_ppn cpt1 = r0 → mc_groups s1 = mc_groups s → mc_rc s1 = mc_rc s →
    calm (mc_mem s) (mc_mem s1) → (∀ n, has_frames (2 + n) (source (mc_mem s)) → has_frames n (source (mc_mem s1))) →
    (∀ r' v', pf1 r' v' = if decide (r' = r0 ∧ v' = v) then pf r v else pf r' v') →
    rc_clone_all rc1 (omap (pf r) vpns) = rc_clone_all rc (omap (pf r) (v :: vpns)) →
    ∃ m' cpt', share_pages s1 pt cpt1 vpns = Done (with_mem s m', cpt') ∧ root_ppn cpt' = r0 ∧ calm (mc_mem s) m' ∧
      (∀ n, has_frames (2 + 2 * length vpns + n) (source (mc_mem s)) → has_frames n (source m')) ∧
      pages_ok (mkMach m' (mc_groups s) (rc_clone_all rc (omap (pf r) (v :: vpns)))) A (pf_child pf (v :: vpns))) as Hgo.
  { intros s1 cpt1 rc1 pf1 Hp1 Hc1 Hg1 Hrc1 Hcalm Hroom1 Hpf1 Hrc. destruct (IH s1 rc1 pf1 cpt1) as (m' & cpt' & Heq & Hc' & Hcalm' & Hroom' & Hp'); try done.
    - by rewrite Hg1.
    - intros v' Hv'. rewrite Hpf1, decide_False by (intros [_ ->]; done). by apply Hall'.
    - by apply Hroom1.
    - exists m', cpt'. split; [rewrite Heq; unfold with_mem; by rewrite Hg1, Hrc1|]. split; [done|]. split; [by eapply calm_trans|].
      split; [intros n Hn; apply Hroom', Hroom1; by rewrite Nat.add_assoc|]. rewrite <- Hrc, <- Hg1.
      assert (omap (pf1 r) vpns = omap (pf r) vpns) as <-.
      { assert (∀ v', pf1 r v' = pf r v') as E by (intros v'; rewrite Hpf1, decide_False; [done|]; by intros [? _]).
        clear -E. induction vpns as [|v' vpns IH]; [done|]. simpl. rewrite E. destruct (pf r v'); [f_equal|]; exact IH. }
      eapply pages_ok_ext; [exact Hp'|done|]. intros r' v'. unfold pf_child. rewrite !Hpf1.
      destruct (decide (r' = r0 ∧ v' ∈ v :: vpns)) as [[-> Hin]|Hn].
      + destruct (decide (r0 = r0 ∧ v' ∈ vpns)) as [_|Hn]; [rewrite decide_False by (by intros [? _]); done|].
        apply elem_of_cons in Hin as [->|Hin]; [by rewrite decide_True|]. by destruct Hn.
      + rewrite !decide_False; [done| |]; intros [-> Hin]; apply Hn; (split; [done|]); [subst; by left|by right]. }
  destruct (pf r v) as [f|] eqn:Hf.
  - destruct (share_page_ok ext roots (mkMach (mc_mem s) (mc_groups s) rc) A pf r r0 v t t f pt cpt) as (m1 & cpt1 & Heq & Hc1 & Hcalm & Hroom1 & Hp1); try done.
    { simpl. by apply (has_frames_le 2 (2 + 2 * length vpns)); [|lia]. }
    simpl in Heq. rewrite Heq. cbn [mbind comp_bind]. eapply (Hgo (with_mem s m1)); try done. simpl. by rewrite Hf.
  - assert (handle_cow_mapping_from_exited_user (mc_mem s) pt cpt v = Done (mc_mem s, cpt)) as ->.
    { unfold handle_cow_mapping_from_exited_user. pose proof (po_iso _ _ _ _ _ Hp) as Hi. destruct (po_user _ _ _ _ _ Hp r v t Ht) as (Hr & Hu & _).
      rewrite (translate_entry roots), Hroot by (done || apply Hi || by rewrite Hroot). simpl. destruct (entry_at (mc_mem s) r v) as [b|] eqn:Hb; [|done].
      pose proof (is_track _ _ _ _ _ _ _ Hi r v b Hr Hu Hb) as E. simpl in E. by rewrite Hf in E. }
    cbn [mbind comp_bind]. eapply (Hgo (with_mem s (mc_mem s))); try done; [intros n; apply (has_frames_drop n 2)| |simpl; by rewrite Hf].
    intros r' v'. destruct (decide (r' = r0 ∧ v' = v)) as [[-> ->]|]; [done|done].
Qed.

(** [map_given_frames]: the frames of other pages that are not private. *)
Definition d_put (d : gmap Z Z) (vf : list (Z * Z)) : gmap Z Z := foldl (λ d '(v, f), <[v := f]> d) d vf.
Lemma d_put_notin vf : ∀ d v, v ∉ vf.*1 → d_put d vf !! v = d !! v.
Proof using.
  unfold d_put. induction vf as [|[v f] vf IH]; intros d w Hw; [done|]. simpl in *. rewrite IH by (intros ?; apply Hw; by right).
  apply lookup_insert_ne. intros ->. apply Hw. by left.
Qed.
Lemma d_put_in vf : ∀ d v f, NoDup vf.*1 → (v, f) ∈ vf → d_put d vf !! v = Some f.
Proof using.
  induction vf as [|[v f] vf IH]; intros d w g Hnd; [by intros ?%not_elem_of_nil|]. simpl in Hnd. apply NoDup_cons in Hnd as [Hv Hnd].
  intros [[= -> ->]|Hin]%elem_of_cons; [|by apply IH]. simpl. unfold d_put in *. simpl. rewrite (d_put_notin vf) by done. apply lookup_insert_eq.
Qed.

Definition pf_given pf (d : gmap Z Z) (vpns : list Z) : Z → Z → option Z := λ r' v', if decide (r' = r0 ∧ v' ∈ vpns) then d !! v' else pf r' v'.

Lemma map_given_ok vf : ∀ s pf cpt a, pages_ok s A pf → root_ppn cpt = r0 → NoDup vf.*1 →
  (∀ v f, (v, f) ∈ vf → pf r0 v = None ∧ (∃ t, A r0 v = Some t ∧ attr_private t = false ∧ at_perm t = map_perm a) ∧
     ∃ r1 v1, pf r1 v1 = Some f ∧ private_in A r1 v1 = false) → has_frames (2 * length vf) (source (mc_mem s)) →
  ∃ m' cpt', map_given (H := sv39_ops huge_alloc) (mc_mem s, cpt) a vf = Done (m', cpt', set_frames a (d_put (data_frames a) vf)) ∧
    root_ppn cpt' = r0 ∧ calm (mc_mem s) m' ∧ (∀ n, has_frames (2 * length vf + n) (source (mc_mem s)) → has_frames n (source m')) ∧
    pages_ok (mkMach m' (mc_groups s) (rc_clone_all (mc_rc s) vf.*2)) A (pf_given pf (d_put (data_frames a) vf) vf.*1).
Proof using Hroot Hne.
  induction vf as [|[v f] vf IH]; intros s pf cpt a Hp Hr0 Hnd Hall Hroom.
  { exists (mc_mem s), cpt. split; [by destruct a|]. split; [done|]. split; [apply calm_refl|]. split; [done|]. eapply pages_ok_ext; [by destruct s; exact Hp|done|].
    intros r' v'. unfold pf_given. rewrite decide_False; [done|]. by intros [_ ?%not_elem_of_nil]. }
  rewrite fmap_cons in Hnd. apply NoDup_cons in Hnd as [Hv Hnd]. cbn [fst] in Hv. destruct (Hall v f ltac:(by left)) as (Hnone & (t & Ht & Hpriv & Hperm) & r1 & v1 & Hf & Hp1).
  cbn [map_given length] in *. replace (2 * S (length vf))%nat with (2 + 2 * length vf)%nat in * by lia.
  destruct (give_page_ok ext roots s A pf r0 v t f cpt r1 v1 Hp Ht Hpriv Hnone Hr0 Hf Hp1) as (m1 & cpt1 & Heq & Hc1 & Hcalm & Hroom1 & Hp2).
  { eapply has_frames_le; [exact Hroom|lia]. }
  rewrite Hperm in Heq. cbn [pt_map sv39_ops]. rewrite Heq. cbn [mbind comp_bind].
  destruct (IH (mkMach m1 (mc_groups s) (rc_clone (mc_rc s) f)) (pf_set pf r0 v (Some f)) cpt1 (set_frames a (<[v := f]> (data_frames a)))) as
    (m' & cpt' & Heq' & Hc' & Hcalm' & Hroom' & Hp'); try done.
  - intros v' f' Hin. assert (v' ≠ v) as Hne' by (intros ->; apply Hv, list_elem_of_fmap; by exists (v, f')).
    destruct (Hall v' f' ltac:(by right)) as (Hn' & Ht' & r1' & v1' & Hf' & Hp1'). split; [unfold pf_set; rewrite decide_False; [done|]; by intros [_ ?]|].
    split; [done|]. exists r1', v1'. split; [|done]. unfold pf_set. destruct (decide _) as [[-> ->]|]; [congruence|done].
  - simpl. by apply Hroom1.
  - exists m', cpt'. simpl in Heq'. split; [exact Heq'|]. split; [done|]. split; [by eapply calm_trans|].
    split; [intros n Hn; apply Hroom', Hroom1; by rewrite Nat.add_assoc|].
    eapply pages_ok_ext; [exact Hp'|done|]. intros r' v'. unfold pf_given, pf_set. rewrite fmap_cons. cbn [fst data_frames set_frames].
    destruct (decide (r' = r0 ∧ v' ∈ v :: vf.*1)) as [[-> Hin]|Hn].
    + destruct (decide (r0 = r0 ∧ v' ∈ vf.*1)) as [[_ ?]|Hn]; [reflexivity|]. apply elem_of_cons in Hin as [->|Hin]; [|by destruct Hn].
      rewrite decide_True by done. unfold d_put. simpl. change (d_put (<[v:=f]> (data_frames a)) vf !! v = Some f). rewrite d_put_notin by done. apply lookup_insert_eq.
    + rewrite !decide_False; [done| |]; intros [-> Hin]; apply Hn; (split; [done|]); [subst; by left|by right].
Qed.
End loops.

(** The frames in the order of the pages are the frames of the range where every page has one. *)
Lemma seqZ_sorted n k : StronglySorted Z.le (seqZ n k).
Proof.
  destruct (decide (0 ≤ k)) as [Hk|]; [|rewrite seqZ_nil by lia; constructor]. revert n. pattern k. apply natlike_ind; [| |done]; clear.
  - intros n. rewrite seqZ_nil by lia. constructor.
  - intros k Hk IH n. rewrite seqZ_cons by lia. rewrite Z.pred_succ. constructor; [apply IH|]. apply Forall_forall. intros x ?%elem_of_seqZ. lia.
Qed.

Lemma in_order_fst d : (in_order d).*1 ≡ₚ (map_to_list d).*1 ∧ StronglySorted Z.le (in_order d).*1.
Proof.
  unfold in_order. split; [by rewrite merge_sort_Permutation|].
  assert (Transitive entry_le) as Htr by (intros [] [] []; unfold entry_le; simpl; lia).
  assert (Total entry_le) as Hto by (intros [] []; unfold entry_le; simpl; lia).
  pose proof (StronglySorted_merge_sort entry_le (map_to_list d)) as Hs. revert Hs. generalize (merge_sort entry_le (map_to_list d)). clear.
  induction 1 as [|x l Hs IH Hall]; simpl; constructor; [done|]. apply Forall_fmap. eapply Forall_impl; [exact Hall|]. unfold entry_le. simpl. lia.
Qed.

Lemma given_dense a d v : (∀ w, is_Some (d !! w) ↔ holds a w = true) → d_put ∅ (zip (range_pages (vpn_range a)) (in_order d).*2) !! v = d !! v.
Proof.
  intros Hd. destruct (in_order_fst d) as [Hperm Hsort]. assert (range_pages (vpn_range a) = (in_order d).*1) as ->.
  { apply (StronglySorted_unique Z.le); [apply seqZ_sorted|done|]. rewrite Hperm. apply NoDup_Permutation; [apply NoDup_seqZ|apply NoDup_fst_map_to_list|].
    intros w. rewrite elem_of_range_pages. change (contains_vpn (vpn_range a) w) with (holds a w). rewrite <- Hd, list_elem_of_fmap. split.
    - intros [f Hf]. exists (w, f). split; [done|]. by apply elem_of_map_to_list.
    - intros ([w' f] & -> & Hf%elem_of_map_to_list). eauto. }
  rewrite zip_fst_snd. assert (NoDup (in_order d).*1) as Hnd by (rewrite Hperm; apply NoDup_fst_map_to_list).
  destruct (d !! v) as [f|] eqn:Hv.
  - apply d_put_in; [done|]. unfold in_order. rewrite merge_sort_Permutation. by apply elem_of_map_to_list.
  - rewrite d_put_notin; [done|]. rewrite Hperm, list_elem_of_fmap. intros ([w f] & -> & Hf%elem_of_map_to_list). simpl in Hv. congruence.
Qed.

(** ** One area *)

(** The areas the child gets. *)
Definition inherits (t : PageAttr) : bool :=
  negb (bool_decide (at_area t = Stack) && negb (contains (at_flags t) MAP_STACK)) && negb (bool_decide (at_area t = Trap)).

Section area.
Context `{FrameSource Src} (huge_alloc : Src → option (Z * Src)) (ext : Z → nat) (roots : list Z).
Context (L : Z → list MapArea) (r r0 : Z) (pt : PageTable.PageTable) (Hroot : root_ppn pt = r) (Hne : r ≠ r0) (Hin0 : r0 ∈ roots).
Context (l1 : list MapArea) (a : MapArea) (l2 : list MapArea) (HL : L r = l1 ++ a :: l2).
Implicit Types (s : @Mach Src) (child : MemorySetInner PageTable.PageTable) (d : gmap Z Z).

(** What the area becomes in the child. *)
Record given s child s' child' (d : gmap Z Z) : Prop := {
  gv_root : root_ppn (page_table child') = r0;
  gv_ok : spaces_ok ext roots s' (with_areas L r0 (areas child'));
  gv_attr v : attr_at (areas child') v = if holds a v then Some (page_attr a v) else attr_at (areas child) v;
  gv_frame v : frame_at (areas child') v = if holds a v then d !! v else frame_at (areas child) v;
  gv_calm : calm (mc_mem s) (mc_mem s') }.

Section one.
Context (s : @Mach Src) (child : MemorySetInner PageTable.PageTable).
Context (Hok : spaces_ok ext roots s (with_areas L r0 (areas child))) (Hroot0 : root_ppn (page_table child) = r0).
Context (Hfree : ∀ v, holds a v = true → attr_at (areas child) v = None).
Let L0 := with_areas L r0 (areas child).

(** The attributes with the new area. *)
Definition with_new : Attrs := λ r' v', if decide (r' = r0 ∧ holds a v' = true) then Some (page_attr a v') else attrs_of L0 r' v'.

Lemma parent_areas : L0 r = l1 ++ a :: l2.
Proof using HL Hne. unfold L0, with_areas. by rewrite decide_False. Qed.
Lemma child_areas : L0 r0 = areas child.
Proof using. unfold L0, with_areas. by rewrite decide_True. Qed.

Lemma with_new_parent v : holds a v = true → with_new r v = Some (page_attr a v) ∧ with_new r0 v = Some (page_attr a v) ∧
  frames_of L0 r v = data_frames a !! v ∧ frames_of L0 r0 v = None ∧ attr_ok (mc_groups s) (page_attr a v) ∧ user_vpn v.
Proof using Hok HL Hne Hfree.
  intros Hh. destruct (page_attrs ext roots s L0 r v l1 a l2 Hok parent_areas Hh) as (Ha & Hf & _ & Hu & Hao). unfold with_new.
  rewrite decide_False by (by intros [? _]). rewrite decide_True by done. split_and!; try done.
  destruct (frames_of L0 r0 v) as [f|] eqn:E; [|done]. exfalso. apply (po_in _ _ _ _ _ (proj2 Hok)) in E as [t Ht].
  change (attr_at (L0 r0) v = Some t) in Ht. rewrite child_areas, Hfree in Ht; done.
Qed.

Lemma with_new_ok s0 : pages_ok ext roots s0 (attrs_of L0) (frames_of L0) → mc_groups s0 = mc_groups s → pages_ok ext roots s0 with_new (frames_of L0).
Proof using Hok HL Hne Hfree Hin0.
  intros Hp Hg. eapply pages_ok_attrs; [exact Hp| |].
  - intros r' v' [f Hf]. unfold with_new. destruct (decide _) as [[-> Hh]|]; [|done]. destruct (with_new_parent v' Hh) as (_ & _ & _ & E & _). congruence.
  - intros r' v' t. unfold with_new. destruct (decide _) as [[-> Hh]|]; [|apply (po_user _ _ _ _ _ Hp)].
    intros [= <-]. rewrite Hg. split; [done|]. by destruct (with_new_parent v' Hh) as (_ & _ & _ & _ & ? & ?).
Qed.

Lemma give_ok s' cpt d pf' : root_ppn cpt = r0 → (∀ v, is_Some (d !! v) → holds a v = true) → calm (mc_mem s) (mc_mem s') →
  pages_ok ext roots s' with_new pf' →
  (∀ r' v', pf' r' v' = if decide (r' = r0 ∧ holds a v' = true) then d !! v' else frames_of L0 r' v') →
  ∃ child', give_area s' child cpt (set_frames (area_from_another a) d) = Done (s', child') ∧ given s child s' child' d.
Proof using Hok HL Hne Hfree.
  intros Hcpt Hd Hcalm Hp Hpf. destruct (proj1 Hok r0) as [Hwc Hfc]. fold L0 in Hwc, Hfc. rewrite child_areas in Hwc, Hfc.
  destruct (proj1 Hok r) as [Hwr _]. fold L0 in Hwr. rewrite parent_areas in Hwr.
  set (na := set_frames (area_from_another a) d). assert (∀ v, holds na v = holds a v) as Hna by done.
  destruct (insert_area_inserted (areas child) na) as (k & Hk & [I1 I2 I3 I4]); [done| |done|].
  { apply wf_areas in Hwr. rewrite Forall_app, Forall_cons in Hwr. destruct Hwr as (_ & ? & _). done. }
  destruct I3 as [I3 I3']; [done|intros v f Hf; apply Hd; eauto|].
  exists (set_areas (set_pt child cpt) k). split; [unfold give_area, push_lazily; simpl; by rewrite Hk|]. split; [done| | | |done].
  - split.
    + intros r'. unfold with_areas. destruct (decide (r' = r0)) as [->|Hr]; [done|]. pose proof (proj1 Hok r') as W. unfold with_areas in W. by rewrite decide_False in W.
    + eapply pages_ok_ext; [exact Hp| |]; intros r' v'; rewrite ?Hpf; unfold with_new, attrs_of, frames_of, L0, with_areas; simpl;
        (destruct (decide (r' = r0)) as [->|Hr]; [|by rewrite decide_False by (by intros [? _])]).
      * rewrite I2, Hna. destruct (holds a v') eqn:Hh; [by rewrite decide_True|by rewrite decide_False by (by intros [_ ?])].
      * rewrite I3', Hna. destruct (holds a v') eqn:Hh; [by rewrite decide_True|by rewrite decide_False by (by intros [_ ?])].
  - intros v. apply I2.
  - intros v. apply I3'.
Qed.

Lemma fork_private_ok vpns mapped_only : (∀ v, holds a v = true → attr_private (page_attr a v) = true) →
  NoDup vpns → (∀ v, v ∈ vpns → holds a v = true) → (∀ v, is_Some (data_frames a !! v) → v ∈ vpns) →
  has_frames (2 * length vpns) (source (mc_mem s)) →
  ∃ s' child', fork_private s pt child a (area_from_another a) vpns mapped_only = Done (s', child') ∧ given s child s' child' (data_frames a) ∧
    ∀ n, has_frames (2 * length vpns + n) (source (mc_mem s)) → has_frames n (source (mc_mem s')).
Proof using Hok Hroot HL Hne Hfree Hin0 Hroot0.
  intros Hpriv Hnd Hhold Hall Hroom. set (s1 := with_rc s (rc_clone_all (mc_rc s) (in_order (data_frames a)).*2)).
  assert (pages_ok ext roots s with_new (frames_of L0)) as Hp by (apply with_new_ok; [apply Hok|done]).
  destruct (share_pages_ok ext roots with_new r r0 pt Hroot Hne vpns s1 (mc_rc s) (frames_of L0) (page_table child)) as (m' & cpt' & Heq & Hc' & Hcalm & Hroom' & Hp'); try done.
  { by destruct s. }
  { intros v Hv. destruct (with_new_parent v (Hhold v Hv)) as (E1 & E2 & _ & E4 & _). split; [done|]. exists (page_attr a v). split_and!; try done. by apply Hpriv, Hhold. }
  assert (omap (frames_of L0 r) vpns = omap (data_frames a !!.) vpns) as Hom.
  { clear -Hhold Hok HL Hne Hfree. induction vpns as [|v vpns IH]; [done|]. simpl. destruct (with_new_parent v) as (_ & _ & -> & _); [apply Hhold; left|].
    destruct (data_frames a !! v); [f_equal|]; apply IH; intros; apply Hhold; by right. }
  destruct (give_ok (with_mem s1 m') cpt' (data_frames a) (pf_child r r0 (frames_of L0) vpns)) as (child' & Hg & Hgv).
  - done.
  - intros v Hv. by apply Hhold, Hall.
  - exact Hcalm.
  - rewrite Hom in Hp'. eapply (pages_ok_rc ext roots m' (mc_groups s)); [exact Hp'|]. intros f. by apply rc_clone_all_le, frames_submseteq.
  - intros r' v'. unfold pf_child. destruct (decide (r' = r0 ∧ holds a v' = true)) as [[-> Hh]|Hn].
    + destruct (with_new_parent v' Hh) as (_ & _ & E3 & E4 & _). destruct (decide (r0 = r0 ∧ v' ∈ vpns)) as [_|Hv]; [done|].
      rewrite E4. destruct (data_frames a !! v') eqn:Ed; [|done]. exfalso. apply Hv. split; [done|]. apply Hall. eauto.
    + rewrite decide_False; [done|]. intros [-> Hv]. apply Hn. split; [done|]. by apply Hhold.
  - exists (with_mem s1 m'), child'. split; [|done]. unfold fork_private. fold s1. rewrite share_mapped_eq. destruct mapped_only; rewrite Heq; exact Hg.
Qed.

Lemma zip_snd {X Y} (l : list X) (k : list Y) : (zip l k).*2 = take (length l) k.
Proof using. revert k. induction l as [|x l IH]; intros [|y k]; [done..|]. simpl. f_equal. apply IH. Qed.
Lemma zip_fst {X Y} (l : list X) (k : list Y) : (zip l k).*1 = take (length k) l.
Proof using. revert k. induction l as [|x l IH]; intros [|y k]; [done..|]. simpl. f_equal. apply IH. Qed.

Lemma fork_given_ok : (∀ v, holds a v = true → attr_private (page_attr a v) = false) → frames_in a →
  let vf := zip (range_pages (vpn_range a)) (in_order (data_frames a)).*2 in
  has_frames (2 * length vf) (source (mc_mem s)) →
  ∃ s' child', fork_given huge_alloc s child a (area_from_another a) = Done (s', child') ∧ given s child s' child' (d_put ∅ vf) ∧
    ∀ n, has_frames (2 * length vf + n) (source (mc_mem s)) → has_frames n (source (mc_mem s')).
Proof using Hok Hroot HL Hne Hfree Hin0 Hroot0.
  intros Hpriv Hfi vf Hroom. assert (pages_ok ext roots s with_new (frames_of L0)) as Hp by (apply with_new_ok; [apply Hok|done]).
  assert (∀ v, v ∈ vf.*1 → holds a v = true) as Hvh.
  { intros v. unfold vf. rewrite zip_fst. intros Hv. apply elem_of_range_pages. by eapply subseteq_take. }
  assert (NoDup vf.*1) as Hnd.
  { unfold vf. rewrite zip_fst. eapply sublist_NoDup; [apply NoDup_seqZ|apply sublist_take]. }
  destruct (map_given_ok huge_alloc ext roots with_new r r0 pt Hroot Hne vf s (frames_of L0) (page_table child) (area_from_another a)) as (m' & cpt' & Heq & Hc' & Hcalm & Hroom' & Hp'); try done.
  { intros v f Hvf. assert (holds a v = true) as Hh by (apply Hvh, list_elem_of_fmap; by exists (v, f)).
    destruct (with_new_parent v Hh) as (_ & E2 & _ & E4 & _). split; [done|]. split; [exists (page_attr a v); split_and!; try done; by apply Hpriv|].
    apply elem_of_zip_r in Hvf. apply list_elem_of_fmap in Hvf as ([v1 f1] & -> & Hd). simpl. unfold in_order in Hd. rewrite merge_sort_Permutation in Hd.
    apply elem_of_map_to_list in Hd. pose proof (Hfi v1 f1 Hd) as Hh1. exists r, v1. destruct (with_new_parent v1 Hh1) as (E5 & _ & E6 & _). split; [by rewrite E6|].
    unfold private_in. rewrite E5. by apply Hpriv. }
  simpl in Heq, Hp'. set (s' := mkMach m' (mc_groups s) (rc_clone_all (mc_rc s) vf.*2)) in *.
  destruct (give_ok s' cpt' (d_put ∅ vf) (pf_given r0 (frames_of L0) (d_put ∅ vf) vf.*1)) as (child' & Hg & Hgv); try done.
  - intros v [f Hf]. apply Hvh. destruct (decide (v ∈ vf.*1)); [done|]. by rewrite d_put_notin in Hf.
  - intros r' v'. unfold pf_given. destruct (decide (r' = r0 ∧ holds a v' = true)) as [[-> Hh]|Hn].
    + destruct (decide (r0 = r0 ∧ v' ∈ vf.*1)) as [_|Hv]; [done|]. rewrite d_put_notin by (intros ?; by apply Hv).
      by destruct (with_new_parent v' Hh) as (_ & _ & _ & -> & _).
    + rewrite decide_False; [done|]. intros [-> Hv]. apply Hn. split; [done|]. by apply Hvh.
  - exists s', child'. split; [|done]. unfold fork_given, map_given_frames. cbn zeta. change (vpn_range (area_from_another a)) with (vpn_range a). fold vf.
    rewrite Heq. cbn [mbind comp_bind]. rewrite <- zip_snd. fold vf. exact Hg.
Qed.
End one.

Definition area_pages : nat := length (range_pages (vpn_range a)).

(** What fork does with the area: skip it, or give it to the child. *)
Definition forked s child s' child' : Prop :=
  root_ppn (page_table child') = r0 ∧ spaces_ok ext roots s' (with_areas L r0 (areas child')) ∧ calm (mc_mem s) (mc_mem s') ∧
  (∀ v, attr_at (areas child') v = if holds a v && inherits (page_attr a v) then Some (page_attr a v) else attr_at (areas child) v) ∧
  (∀ v, holds a v = false → frame_at (areas child') v = frame_at (areas child) v) ∧
  (∀ v, holds a v = true → inherits (page_attr a v) = true →
     attr_private (page_attr a v) = true ∨ (∀ w, holds a w = true → is_Some (data_frames a !! w)) → frame_at (areas child') v = data_frames a !! v).

Lemma inherits_area v : inherits (page_attr a v) =
  negb ((bool_decide (area_type a = Stack) && negb (is_dynamic_mmap_stack a)) || bool_decide (area_type a = Trap)).
Proof using.
  unfold inherits, is_dynamic_mmap_stack. simpl. destruct (bool_decide (area_type a = Stack)), (contains (mmap_flags a) MAP_STACK), (bool_decide (area_type a = Trap)); done.
Qed.

Lemma forked_given s s0 child s' child' d : given s0 child s' child' d → mc_mem s0 = mc_mem s → (∀ v, inherits (page_attr a v) = true) →
  (∀ v, attr_private (page_attr a v) = true ∨ (∀ w, holds a w = true → is_Some (data_frames a !! w)) → d !! v = data_frames a !! v) →
  forked s child s' child'.
Proof using.
  intros [G1 G2 G3 G4 G5] Hm Hinh Hd. split; [done|]. split; [done|]. split; [by rewrite <- Hm|]. split; [|split].
  - intros v. rewrite G3, Hinh, andb_true_r. done.
  - intros v Hh. by rewrite G4, Hh.
  - intros v Hh _ Hp. rewrite G4, Hh. by apply Hd.
Qed.

Section kinds.
Context (s s0 : @Mach Src) (child : MemorySetInner PageTable.PageTable).
Context (Hok0 : spaces_ok ext roots s0 (with_areas L r0 (areas child))) (Hm0 : mc_mem s0 = mc_mem s) (Hroot0 : root_ppn (page_table child) = r0).
Context (Hfree : ∀ v, holds a v = true → attr_at (areas child) v = None) (Hroom : has_frames (2 * area_pages) (source (mc_mem s))).
Context (Hin : frames_in a) (Hinh : ∀ v, inherits (page_attr a v) = true).

Definition forks (x : comp (@Mach Src * MemorySetInner PageTable.PageTable)) : Prop :=
  ∃ s' child', x = Done (s', child') ∧ forked s child s' child' ∧ ∀ n, has_frames (2 * area_pages + n) (source (mc_mem s)) → has_frames n (source (mc_mem s')).

Lemma fork_shared_area : (∀ v, attr_private (page_attr a v) = false) → forks (fork_given huge_alloc s0 child a (area_from_another a)).
Proof using All.
  intros Hsh. assert (length (zip (range_pages (vpn_range a)) (in_order (data_frames a)).*2) ≤ area_pages)%nat as Hlen by (rewrite length_zip; unfold area_pages; lia).
  destruct (fork_given_ok s0 child Hok0 Hroot0 Hfree) as (s' & child' & Heq & Hgv & Hrm); [by intros v _|done|rewrite Hm0; eapply has_frames_le; [exact Hroom|lia]|].
  exists s', child'. split; [done|]. split.
  - eapply forked_given; [exact Hgv|done|done|]. intros v [Hp|Hdense]; [by rewrite Hsh in Hp|]. apply given_dense. intros w. split; [intros [f Hf]; by eapply Hin|apply Hdense].
  - intros n Hn. apply Hrm. rewrite Hm0. eapply has_frames_le; [exact Hn|lia].
Qed.

Lemma fork_private_area vpns mo : (∀ v, attr_private (page_attr a v) = true) → NoDup vpns → (∀ v, v ∈ vpns → holds a v = true) → (∀ v, is_Some (data_frames a !! v) → v ∈ vpns) →
  forks (fork_private s0 pt child a (area_from_another a) vpns mo).
Proof using All.
  intros Hpriv Hnd Hv1 Hv2. assert (length vpns ≤ area_pages)%nat as Hl.
  { apply submseteq_length, NoDup_submseteq; [done|]. intros v Hv. apply elem_of_range_pages. by apply Hv1. }
  destruct (fork_private_ok s0 child Hok0 Hroot0 Hfree vpns mo) as (s' & child' & Heq & Hgv & Hrm); [by intros v _|done..|rewrite Hm0; eapply has_frames_le; [exact Hroom|lia]|].
  exists s', child'. split; [done|]. split; [by eapply forked_given|]. intros n Hn. apply Hrm. rewrite Hm0. eapply has_frames_le; [exact Hn|lia].
Qed.

(** The pages of the whole range, and those with a frame. *)
Lemma fork_private_range mo : (∀ v, attr_private (page_attr a v) = true) →
  forks (fork_private s0 pt child a (area_from_another a) (range_pages (vpn_range a)) mo).
Proof using All.
  intros Hpriv. apply fork_private_area; [done|apply NoDup_seqZ|intros v; by rewrite elem_of_range_pages|].
  intros v [f Hf]. apply elem_of_range_pages. by eapply Hin.
Qed.
Lemma fork_private_resident mo : (∀ v, attr_private (page_attr a v) = true) →
  forks (fork_private s0 pt child a (area_from_another a) (in_order (data_frames a)).*1 mo).
Proof using All.
  intros Hpriv. destruct (in_order_fst (data_frames a)) as [Hperm _]. apply fork_private_area; [done|rewrite Hperm; apply NoDup_fst_map_to_list|..].
  - intros v. rewrite Hperm, list_elem_of_fmap. intros ([w f] & -> & Hf%elem_of_map_to_list). by eapply Hin.
  - intros v [f Hf]. rewrite Hperm, list_elem_of_fmap. exists (v, f). split; [done|]. by apply elem_of_map_to_list.
Qed.
End kinds.

Lemma fork_area_ok s child : spaces_ok ext roots s (with_areas L r0 (areas child)) → root_ppn (page_table child) = r0 →
  (∀ v, holds a v = true → attr_at (areas child) v = None) → has_frames (2 * area_pages) (source (mc_mem s)) →
  forks s child (fork_area huge_alloc s pt child a).
Proof using Hroot HL Hne Hin0.
  intros Hok Hroot0 Hfree Hroom. pose proof (parent_areas child) as HL0. destruct (proj1 Hok r) as [Hwr Hfr]. rewrite HL0 in Hwr, Hfr.
  assert (frames_in a) as Hin by (unfold frames_wf in Hfr; by rewrite Forall_app, Forall_cons in Hfr; destruct Hfr as (_ & ? & _)).
  assert (holds a (area_start a) = true) as Hh0 by (apply holds_spec; apply wf_areas in Hwr; rewrite Forall_app, Forall_cons in Hwr; unfold area_ok in Hwr; lia).
  destruct (page_attrs ext roots s _ r (area_start a) l1 a l2 Hok HL0 Hh0) as (_ & _ & _ & _ & Hmt & Hph & Hmm & Hhuge & Hshr & _). simpl in Hmt, Hph, Hmm, Hhuge, Hshr.
  unfold fork_area. destruct (_ || bool_decide (area_type a = Trap)) eqn:Hskip.
  { exists s, child. split; [done|]. assert (∀ v, inherits (page_attr a v) = false) as Hni by (intros v; by rewrite inherits_area, Hskip). split.
    - split; [done|]. split; [done|]. split; [apply calm_refl|]. split; [intros v; by rewrite Hni, andb_false_r|]. split; [done|]. intros v _. by rewrite Hni.
    - intros n. apply (has_frames_drop n (2 * area_pages)). }
  assert (∀ v, inherits (page_attr a v) = true) as Hinh by (intros v; by rewrite inherits_area, Hskip).
  cbn zeta. unfold is_huge. rewrite Hhuge. change (groupid (area_from_another a)) with (groupid a).
  set (s0 := if is_mmap_vma a && is_shared a then _ else s).
  assert (spaces_ok ext roots s0 (with_areas L r0 (areas child)) ∧ mc_mem s0 = mc_mem s) as [Hok0 Hm0].
  { unfold s0. destruct (is_mmap_vma a && is_shared a); [|done]. split; [|done]. split; [apply Hok|]. apply pages_ok_group, Hok. }
  destruct (is_mmap_vma a || bool_decide (area_type a = Brk)) eqn:Hmb.
  { destruct (is_shared a) eqn:Hsh.
    - apply fork_shared_area; try done. intros v. unfold attr_private, is_shared in *. simpl. by rewrite Hsh.
    - assert (∀ v, attr_private (page_attr a v) = true) as Hpriv.
      { intros v. unfold attr_private, is_shared in *. simpl. rewrite Hsh. simpl. rewrite bool_decide_eq_false_2; [done|]. intros E.
        unfold is_mmap_vma, is_mmap_area, is_dynamic_mmap_stack in Hmb. by rewrite E in Hmb. }
      destruct (bool_decide (area_type a = Brk)); [by apply fork_private_range|by apply fork_private_resident]. }
  destruct (decide (area_type a = Elf)) as [E|HnE]; [rewrite bool_decide_eq_true_2 by done|rewrite bool_decide_eq_false_2 by done].
  { apply fork_private_range; try done. intros v. unfold attr_private. simpl. rewrite E. destruct (contains (mmap_flags a) MAP_SHARED) eqn:Hs; [|done].
    destruct Hshr as [Hx|Hx]; [done|congruence..]. }
  destruct (decide (area_type a = Shm)) as [E|HnS]; [rewrite bool_decide_eq_true_2 by done|exfalso].
  { apply fork_shared_area; try done. intros v. unfold attr_private. simpl. rewrite E. apply andb_false_r. }
  apply orb_false_iff in Hskip as [Hs1 Hs2]. apply orb_false_iff in Hmb as [Hm1 Hm2]. unfold is_mmap_vma, is_mmap_area in Hm1.
  destruct (area_type a); try done. destruct (is_dynamic_mmap_stack a); done.
Qed.
End area.

(** ** All areas *)

Definition total_pages (l : list MapArea) : nat := sum_list ((λ a, length (range_pages (vpn_range a))) <$> l).
Definition child_attr (l : list MapArea) (v : Z) : option PageAttr := t ← attr_at l v; if inherits t then Some t else None.
(** The pages whose frame the child must have: private ones, and those of shared areas with a frame for every page. *)
Definition must_share (a : MapArea) (v : Z) : Prop :=
  inherits (page_attr a v) = true ∧ (attr_private (page_attr a v) = true ∨ ∀ w, holds a w = true → is_Some (data_frames a !! w)).

Section areas.
Context `{FrameSource Src} (huge_alloc : Src → option (Z * Src)) (ext : Z → nat) (roots : list Z).
Context (L : Z → list MapArea) (r r0 : Z) (pt : PageTable.PageTable) (Hroot : root_ppn pt = r) (Hne : r ≠ r0) (Hin0 : r0 ∈ roots).
Context (Hwr : areas_wf (L r)).
Implicit Types (s : @Mach Src) (child : MemorySetInner PageTable.PageTable).

Definition forked_all (l : list MapArea) s child : Prop :=
  root_ppn (page_table child) = r0 ∧ spaces_ok ext roots s (with_areas L r0 (areas child)) ∧
  (∀ v, attr_at (areas child) v = child_attr l v) ∧
  (∀ b v, b ∈ l → holds b v = true → must_share b v → frame_at (areas child) v = data_frames b !! v).

Lemma others_apart l1 a l2 b v : L r = l1 ++ a :: l2 → b ∈ l1 ++ l2 → holds a v = true → holds b v = false.
Proof using Hwr.
  intros E Hb Ha. destruct (holds b v) eqn:Hbv; [|done]. exfalso. pose proof (areas_wf_apart _ Hwr) as Hap. rewrite E, <- Permutation_middle in Hap.
  apply all_apart_cons in Hap as [Hap _]. eapply Forall_forall in Hap; [|exact Hb]. by eapply (apart_holds a b).
Qed.

Lemma fork_step l1 a l2 s child : L r = l1 ++ a :: l2 → forked_all l1 s child → has_frames (2 * area_pages a) (source (mc_mem s)) →
  ∃ s' child', fork_area huge_alloc s pt child a = Done (s', child') ∧ forked_all (l1 ++ [a]) s' child' ∧ calm (mc_mem s) (mc_mem s') ∧
    ∀ n, has_frames (2 * area_pages a + n) (source (mc_mem s)) → has_frames n (source (mc_mem s')).
Proof using Hroot Hne Hin0 Hwr.
  intros HL (Hr0 & Hok & Hat & Hfr) Hroom.
  assert (∀ v, holds a v = true → lookup_area l1 v = None) as Hnone.
  { intros v Hh. apply lookup_area_None. intros b Hb. eapply others_apart; [exact HL|apply elem_of_app; by left|done]. }
  destruct (fork_area_ok huge_alloc ext roots L r r0 pt Hroot Hne Hin0 l1 a l2 HL s child Hok Hr0) as (s' & child' & Heq & (F1 & F2 & F3 & F4 & F5 & F6) & Hrm); [|done|].
  { intros v Hh. rewrite Hat. unfold child_attr, attr_at. by rewrite (Hnone v Hh). }
  exists s', child'. split; [done|]. split; [|done]. split; [done|]. split; [done|]. split.
  - intros v. rewrite F4, Hat. unfold child_attr, attr_at. rewrite lookup_area_app. destruct (holds a v) eqn:Hh.
    + rewrite (Hnone v Hh). unfold lookup_area. simpl. rewrite Hh. simpl. by destruct (inherits _).
    + unfold lookup_area at 3. simpl. rewrite Hh. simpl. by destruct (lookup_area l1 v).
  - intros b v [Hb|Hb]%elem_of_app Hh Hm; [|apply list_elem_of_singleton in Hb as ->; apply F6; [done|apply Hm|apply Hm]].
    rewrite F5; [by apply Hfr|]. destruct (holds a v) eqn:Ha; [|done]. rewrite (others_apart l1 a l2 b v) in Hh; [done|done|apply elem_of_app; by left|done].
Qed.

Lemma fork_areas_ok l : ∀ l1 s child, L r = l1 ++ l → forked_all l1 s child → has_frames (2 * total_pages l) (source (mc_mem s)) →
  ∃ s' child', fork_areas huge_alloc s pt child l = Done (s', child') ∧ forked_all (L r) s' child' ∧ calm (mc_mem s) (mc_mem s').
Proof using Hroot Hne Hin0 Hwr.
  induction l as [|a l IH]; intros l1 s child HL Hf Hroom.
  { rewrite app_nil_r in HL. exists s, child. split; [done|]. rewrite HL. split; [done|apply calm_refl]. }
  change (total_pages (a :: l)) with (area_pages a + total_pages l)%nat in Hroom. rewrite Nat.mul_add_distr_l in Hroom.
  destruct (fork_step l1 a l s child HL Hf) as (s1 & child1 & Heq & Hf1 & Hc1 & Hrm); [eapply has_frames_le; [exact Hroom|lia]|].
  destruct (IH (l1 ++ [a]) s1 child1) as (s' & child' & Heq' & Hf' & Hc'); [by rewrite <- app_assoc|done|by apply Hrm|].
  exists s', child'. split; [cbn [fork_areas]; rewrite Heq; exact Heq'|]. split; [done|]. by eapply calm_trans.
Qed.
End areas.
