(* ===== verification/ForkWorld.v ===== *)
(** * Fork in a system of address spaces

    [from_existed_user] as a whole, and the histories of faults and forks. *)

From S2P Require Import Prelude Address FrameAlloc PageTable MapArea AreaPt AreaSet Mmu Fault FaultIso FaultInv FaultWorld ForkPages ForkAreas.

(** ** Frames for shared pages before fork *)

Section prefault.
Context `{FrameSource Src} (huge_alloc : Src → option (Z * Src)) (bk : Backings) (ext : Z → nat) (roots : list Z).
Context (Hcached : ∀ file i p, bk_cached bk file i = Some p → (0 < ext (fp_frame p))%nat).
Context (Hshared : ∀ b i f, bk_shared bk b i = Some f → (0 < ext f)%nat).
Context (prepared : Z → Z → option FilePage) (Hprep : ∀ file i p, prepared file i = Some p → (0 < ext (fp_frame p))%nat).
Context (r : Z).
Implicit Types (s : @Mach Src) (L : Z → list MapArea) (pt : PageTable.PageTable) (a : MapArea).

Lemma prefetched_ok a v p : prefetched prepared a v = Some p → (0 < ext (fp_frame p))%nat.
Proof using Hprep.
  unfold prefetched. destruct (inode_file _); simpl; [|done]. destruct (checked_mul _ _); simpl; [|done]. destruct (checked_add _ _); simpl; [|done]. apply Hprep.
Qed.

Section one.
Context (L : Z → list MapArea) (l1 : list MapArea) (a : MapArea) (l2 : list MapArea) (s : @Mach Src) (pt : PageTable.PageTable) (v : Z).
Context (Hok : spaces_ok ext roots s L) (HL : L r = l1 ++ a :: l2) (Hroot : root_ppn pt = r) (Hh : holds a v = true) (Hsh : is_shared a = true).
Context (Hroom : has_frames 5 (source (mc_mem s))).

(** What the page has afterwards. *)
Definition prefaulted s' pt' a' : Prop :=
  ∃ d, a' = set_frames a d ∧ root_ppn pt' = r ∧ spaces_ok ext roots s' (with_areas L r (l1 ++ set_frames a d :: l2)) ∧
    (∀ w f, data_frames a !! w = Some f → d !! w = Some f) ∧ (is_anonymous (mmap_file a) = true → is_Some (d !! v)) ∧
    calm (mc_mem s) (mc_mem s') ∧ ∀ n, has_frames (5 + n) (source (mc_mem s)) → has_frames n (source (mc_mem s')).

Lemma prefault_one_ok : ∃ s' pt' a', (
    if bool_decide (is_Some (data_frames a !! v)) then Done (s, pt, a)
    else if is_anonymous (mmap_file a) then fst <$> area_map_one huge_alloc s pt a v
    else if bool_decide (is_Some (inode_file (mmap_file a)))
         then fst <$> mmap_write_page_fault huge_alloc bk v s pt a (prefetched prepared a v)
         else fst <$> mmap_write_page_fault huge_alloc bk v s pt a None) = Done (s', pt', a') ∧ prefaulted s' pt' a'.
Proof using All.
  destruct (page_attrs ext roots s L r v l1 a l2 Hok HL Hh) as (Ha & Hf & Hr & Hu & Hao).
  destruct (bool_decide (is_Some (data_frames a !! v))) eqn:Hres.
  { apply bool_decide_eq_true in Hres. exists s, pt, a. split; [done|]. exists (data_frames a). assert (set_frames a (data_frames a) = a) as -> by (by destruct a).
    split_and!; try done; [rewrite <- HL; by apply spaces_ok_same|intros n; apply (has_frames_drop n 5)]. }
  apply bool_decide_eq_false in Hres. assert (data_frames a !! v = None) as Hnone by (destruct (data_frames a !! v); [by destruct Hres; eauto|done]).
  assert (ready roots s pt a (frames_of L) (private_in (attrs_of L)) (adm_in (attrs_of L)) r v) as Hrd.
  { destruct Hao as (Hmt & _ & Hmm & _). split; try done; [by rewrite Hf|]. intros b Hb. unfold adm_in. by rewrite Ha. }
  assert (private_in (attrs_of L) r v = false) as Hpv by (unfold private_in, attr_private; rewrite Ha; unfold is_shared in Hsh; simpl; by rewrite Hsh).
  assert (∀ good s' pt' a' ok o, handled ext roots s a (frames_of L) (private_in (attrs_of L)) (adm_in (attrs_of L)) r v good s' a' ok o → root_ppn pt' = r →
    (is_anonymous (mmap_file a) = true → ok = true) → prefaulted s' pt' a') as Hfin.
  { intros good s' pt' a' ok o Hd Hroot' Hanon. destruct (area_handled ext roots s L r v l1 a l2 Hok HL Hh good s' a' ok o) as (H1 & _ & H3 & _); [|by rewrite Hf|done|].
    { unfold attr_private. unfold is_shared in Hsh. simpl. by rewrite Hsh. }
    exists (match o with Some f => <[v := f]> (data_frames a) | None => data_frames a end).
    assert (a' = set_frames a (match o with Some f => <[v := f]> (data_frames a) | None => data_frames a end)) as <-.
    { rewrite (hd_area _ _ _ _ _ _ _ _ _ _ _ _ _ _ Hd). destruct o; [done|by destruct a]. }
    split_and!; try done; [| |split; apply H3|apply Hd].
    - intros w f Hw. destruct o as [g|]; [|done]. rewrite lookup_insert_ne; [done|]. intros <-. congruence.
    - intros Han. pose proof (hd_ok _ _ _ _ _ _ _ _ _ _ _ _ _ _ Hd) as Ho. rewrite (Hanon Han) in Ho. destruct Ho as [[f ->] _]. rewrite lookup_insert_eq. eauto. }
  assert (∀ prep, (∀ p, prep = Some p → (0 < ext (fp_frame p))%nat) → is_anonymous (mmap_file a) = false →
    ∃ s' pt' a', fst <$> mmap_write_page_fault huge_alloc bk v s pt a prep = Done (s', pt', a') ∧ prefaulted s' pt' a') as Hw.
  { intros prep Hp Han. edestruct (write_page_ok huge_alloc bk ext roots) with (c := LoadPageFault) as (s' & pt' & a' & ok & o & Heq & Hroot' & _ & Hd);
      [exact Hcached|exact Hshared|apply Hok|exact Hrd|intros E; by rewrite Hpv in E|exact Hp|]. exists s', pt', a'. rewrite Heq. split; [done|].
    eapply Hfin; [exact Hd|done|]. by rewrite Han. }
  destruct (is_anonymous (mmap_file a)) eqn:Han.
  - destruct (map_one_ok huge_alloc ext roots s pt a _ _ _ r v (po_iso _ _ _ _ _ (proj2 Hok)) Hrd) as (s' & pt' & f & Heq & Hroot' & Hg & _ & (b & Hb & _) & Hi' & H1 & H2 & H3 & H4).
    exists s', pt', (set_frames a (<[v := f]> (data_frames a))). rewrite Heq. split; [done|]. eapply (Hfin (λ _, True) s' pt' _ true (Some f)); [|done|done].
    split; try done.
    + split; try done. intros n Hn. apply H4. by apply (has_frames_drop _ 2).
    + intros id. by rewrite Hg.
    + split; [eauto|]. eauto.
  - destruct (bool_decide _); apply Hw; try done. intros p. apply prefetched_ok.
Qed.
End one.

Lemma prefault_pages_ok vpns : ∀ L l1 a l2 s pt, spaces_ok ext roots s L → L r = l1 ++ a :: l2 → root_ppn pt = r → is_shared a = true →
  (∀ v, v ∈ vpns → holds a v = true) → has_frames (5 * length vpns) (source (mc_mem s)) →
  ∃ s' pt' d, prefault_pages huge_alloc bk prepared s pt a vpns = Done (s', pt', set_frames a d) ∧ root_ppn pt' = r ∧
    spaces_ok ext roots s' (with_areas L r (l1 ++ set_frames a d :: l2)) ∧ (∀ w f, data_frames a !! w = Some f → d !! w = Some f) ∧
    (is_anonymous (mmap_file a) = true → ∀ v, v ∈ vpns → is_Some (d !! v)) ∧ calm (mc_mem s) (mc_mem s') ∧
    ∀ n, has_frames (5 * length vpns + n) (source (mc_mem s)) → has_frames n (source (mc_mem s')).
Proof using All.
  induction vpns as [|v vpns IH]; intros L l1 a l2 s pt Hok HL Hroot Hsh Hh Hroom.
  { exists s, pt, (data_frames a). assert (set_frames a (data_frames a) = a) as -> by (by destruct a). split_and!; try done.
    - rewrite <- HL. by apply spaces_ok_same.
    - by intros _ v ?%not_elem_of_nil. }
  cbn [length] in *. replace (5 * S (length vpns))%nat with (5 + 5 * length vpns)%nat in * by lia.
  destruct (prefault_one_ok L l1 a l2 s pt v Hok HL Hroot) as (s1 & pt1 & a1 & Heq & d & -> & Hroot1 & Hok1 & Hk1 & Han1 & Hc1 & Hrm1);
    [apply Hh; by left|done|by eapply has_frames_le; [exact Hroom|lia]|].
  cbn [prefault_pages]. rewrite Heq. cbn [mbind comp_bind].
  destruct (IH (with_areas L r (l1 ++ set_frames a d :: l2)) l1 (set_frames a d) l2 s1 pt1) as (s' & pt' & d' & Heq' & Hroot' & Hok' & Hk' & Han' & Hc' & Hrm'); try done.
  - unfold with_areas. by rewrite decide_True.
  - intros w Hw. apply Hh. by right.
  - by apply Hrm1.
  - exists s', pt', d'. split; [exact Heq'|]. split; [done|]. split; [by eapply spaces_ok_again|]. split; [by intros w f ?%Hk1%Hk'|]. split; [|split].
    + intros Han w [->|Hw]%elem_of_cons; [destruct (Han1 Han) as [f ?%Hk']; eauto|]. by apply Han'.
    + by eapply calm_trans.
    + intros n Hn. apply Hrm', Hrm1. by rewrite Nat.add_assoc.
Qed.

(** An area before and after: shared anonymous pages all have frames now. *)
Definition prefaulted_area (a a' : MapArea) : Prop :=
  ∃ d, a' = set_frames a d ∧ (∀ w f, data_frames a !! w = Some f → d !! w = Some f) ∧ (is_mmap_vma a && is_shared a = false → d = data_frames a) ∧
    (is_mmap_vma a = true → is_shared a = true → is_anonymous (mmap_file a) = true → ∀ v, holds a v = true → is_Some (d !! v)).

Lemma prefault_areas_ok l : ∀ L l1 s pt, spaces_ok ext roots s L → L r = l1 ++ l → root_ppn pt = r → has_frames (5 * total_pages l) (source (mc_mem s)) →
  ∃ s' pt' l', prefault_areas huge_alloc bk prepared s pt l = Done (s', pt', l') ∧ root_ppn pt' = r ∧
    spaces_ok ext roots s' (with_areas L r (l1 ++ l')) ∧ Forall2 prefaulted_area l l' ∧ calm (mc_mem s) (mc_mem s') ∧
    ∀ n, has_frames (5 * total_pages l + n) (source (mc_mem s)) → has_frames n (source (mc_mem s')).
Proof using All.
  induction l as [|a l IH]; intros L l1 s pt Hok HL Hroot Hroom.
  { exists s, pt, []. split_and!; try done. rewrite <- HL. by apply spaces_ok_same. }
  change (total_pages (a :: l)) with (area_pages a + total_pages l)%nat in *. rewrite Nat.mul_add_distr_l in *.
  assert (∃ s1 pt1 a1, (if is_mmap_vma a && is_shared a then prefault_pages huge_alloc bk prepared s pt a (range_pages (vpn_range a)) else Done (s, pt, a)) = Done (s1, pt1, a1) ∧
    root_ppn pt1 = r ∧ spaces_ok ext roots s1 (with_areas L r (l1 ++ a1 :: l)) ∧ prefaulted_area a a1 ∧ calm (mc_mem s) (mc_mem s1) ∧
    ∀ n, has_frames (5 * area_pages a + n) (source (mc_mem s)) → has_frames n (source (mc_mem s1))) as (s1 & pt1 & a1 & Heq & Hroot1 & Hok1 & Hpre & Hc1 & Hrm1).
  { destruct (is_mmap_vma a && is_shared a) eqn:Hms.
    - apply andb_prop in Hms as [Hm Hs]. destruct (prefault_pages_ok (range_pages (vpn_range a)) L l1 a l s pt) as (s1 & pt1 & d & Heq & H1 & H2 & H3 & H4 & H5 & H6); try done.
      { intros v Hv. by apply elem_of_range_pages. }
      { eapply has_frames_le; [exact Hroom|]. unfold area_pages. lia. }
      exists s1, pt1, (set_frames a d). split_and!; try done. exists d. split_and!; try done; [by rewrite Hm, Hs|]. intros _ _ Han v Hv. apply H4; [done|]. by apply elem_of_range_pages.
    - exists s, pt, a. split_and!; try done; [rewrite <- HL; by apply spaces_ok_same| |intros n; apply (has_frames_drop n (5 * area_pages a))].
      exists (data_frames a). split_and!; try done; [by destruct a|]. intros E1 E2. by rewrite E1, E2 in Hms. }
  destruct (IH (with_areas L r (l1 ++ a1 :: l)) (l1 ++ [a1]) s1 pt1) as (s' & pt' & l' & Heq' & Hroot' & Hok' & Hpre' & Hc' & Hrm'); try done.
  - unfold with_areas. rewrite decide_True by done. by rewrite <- app_assoc.
  - by apply Hrm1.
  - exists s', pt', (a1 :: l'). split; [cbn [prefault_areas]; rewrite Heq; cbn [mbind comp_bind]; by rewrite Heq'|]. split; [done|].
    split; [rewrite <- app_assoc in Hok'; by eapply spaces_ok_again|]. split; [by constructor|]. split; [by eapply calm_trans|].
    intros n Hn. apply Hrm', Hrm1. by rewrite Nat.add_assoc.
Qed.
End prefault.

(** Areas that only got frames. *)
Lemma prefaulted_view l l' v : Forall2 prefaulted_area l l' → attr_at l' v = attr_at l v ∧ (∀ f, frame_at l v = Some f → frame_at l' v = Some f) ∧
  (∀ a, lookup_area l v = Some a → is_mmap_vma a && is_shared a = false → frame_at l' v = frame_at l v).
Proof.
  induction 1 as [|a a' l l' (d & -> & Hk & Hs & _) Hall IH]; [done|]. unfold attr_at, frame_at, lookup_area in *. simpl.
  change (holds (set_frames a d) v) with (holds a v). destruct (holds a v) eqn:Hh; [|exact IH]. simpl. split; [done|]. split; [apply Hk|].
  intros x [= <-] E. by rewrite Hs.
Qed.
Lemma prefaulted_lookup l l' v a : Forall2 prefaulted_area l l' → lookup_area l v = Some a → ∃ a', lookup_area l' v = Some a' ∧ prefaulted_area a a'.
Proof.
  induction 1 as [|x x' l l' Hx Hall IH]; [done|]. unfold lookup_area in *. simpl. pose proof Hx as (d & -> & _).
  change (holds (set_frames x d) v) with (holds x v). destruct (holds x v); [|exact IH]. intros [= <-]. eauto.
Qed.
Lemma prefaulted_total l l' : Forall2 prefaulted_area l l' → total_pages l' = total_pages l.
Proof. unfold total_pages. induction 1 as [|a a' l l' (d & -> & _) Hall IH]; [done|]. rewrite !fmap_cons. cbn [sum_list]. by rewrite IH. Qed.

Lemma no_attrs_nil l : areas_wf l → (∀ v, attr_at l v = None) → l = [].
Proof.
  destruct l as [|a l]; [done|]. intros Hw Hn. specialize (Hn (area_start a)). apply wf_areas in Hw. apply Forall_cons in Hw as [(Ha & _) _].
  unfold attr_at, lookup_area in Hn. simpl in Hn. assert (holds a (area_start a) = true) as E by (apply holds_spec; lia). by rewrite E in Hn.
Qed.

Section fork.
Context `{FrameSource Src} (huge_alloc : Src → option (Z * Src)) (bk : Backings) (ext : Z → nat) (roots : list Z).
Context (Hcached : ∀ file i p, bk_cached bk file i = Some p → (0 < ext (fp_frame p))%nat).
Context (Hshared : ∀ b i f, bk_shared bk b i = Some f → (0 < ext f)%nat).
Implicit Types (s : @Mach Src) (L : Z → list MapArea) (ms child : MemorySetInner PageTable.PageTable).

Definition fork_room (l : list MapArea) : nat := S (7 * total_pages l).

(** A new root among the spaces. *)
Lemma spaces_ok_root s L kernel : spaces_ok ext roots s L → has_frames 1 (source (mc_mem s)) →
  ∃ r0 m', new_from_kernel (mc_mem s) kernel = Done (m', mkPt r0 [r0]) ∧ r0 ∉ roots ∧ L r0 = [] ∧ spaces_ok ext (r0 :: roots) (with_mem s m') L ∧
    calm (mc_mem s) m' ∧ (∀ n, has_frames (S n) (source (mc_mem s)) → has_frames n (source m')).
Proof using.
  intros Hok Hroom. destruct (new_root_ok roots (mc_mem s) kernel) as (r0 & m' & Heq & Hr0 & Hm & Hold & Hnew & Hfree & Hpg & Hrm); [apply (po_iso _ _ _ _ _ (proj2 Hok))|done|].
  exists r0, m'. split; [done|]. split; [done|]. split.
  { apply no_attrs_nil; [apply Hok|]. intros v. destruct (attr_at (L r0) v) as [t|] eqn:E; [|done]. exfalso. apply Hr0, (po_user _ _ _ _ _ (proj2 Hok) r0 v t E). }
  split; [|done]. split; [apply Hok|]. by apply pages_ok_root; [apply Hok|..].
Qed.

Lemma from_existed_user_ok prepared kernel s L ms r : (∀ file i p, prepared file i = Some p → (0 < ext (fp_frame p))%nat) →
  spaces_ok ext roots s L → r ∈ roots → root_ppn (page_table ms) = r → areas ms = L r → has_frames (fork_room (areas ms)) (source (mc_mem s)) →
  ∃ s' ms' child r0, from_existed_user huge_alloc bk prepared kernel s ms = Done (s', ms', child) ∧
    r0 ∉ roots ∧ root_ppn (page_table child) = r0 ∧ root_ppn (page_table ms') = r ∧
    spaces_ok ext (r0 :: roots) s' (with_areas (with_areas L r (areas ms')) r0 (areas child)) ∧
    Forall2 prefaulted_area (areas ms) (areas ms') ∧ (∀ v, attr_at (areas child) v = child_attr (areas ms) v) ∧
    (∀ b v, b ∈ areas ms' → holds b v = true → must_share b v → frame_at (areas child) v = data_frames b !! v) ∧
    calm (mc_mem s) (mc_mem s').
Proof using Hcached Hshared.
  intros Hprep Hok Hr Hroot HL Hroom. unfold fork_room in Hroom.
  destruct (spaces_ok_root s L kernel Hok) as (r0 & m1 & Heq & Hr0 & Hnil & Hok1 & Hc1 & Hrm1); [eapply has_frames_le; [exact Hroom|lia]|].
  assert (r ≠ r0) as Hne by congruence. apply Hrm1 in Hroom.
  destruct (prefault_areas_ok huge_alloc bk ext (r0 :: roots) Hcached Hshared prepared Hprep r (areas ms) L [] (with_mem s m1) (page_table ms)) as
    (s2 & pt2 & l2 & Heq2 & Hroot2 & Hok2 & Hpre & Hc2 & Hrm2); [done|done|done|by eapply has_frames_le; [exact Hroom|lia]|].
  simpl in Hok2. set (L2 := with_areas L r l2) in *. assert (L2 r = l2) as HL2 by (unfold L2, with_areas; by rewrite decide_True).
  destruct (fork_areas_ok huge_alloc ext (r0 :: roots) L2 r r0 pt2 Hroot2 Hne ltac:(by left) (proj1 (proj1 Hok2 r)) l2 [] s2 (new_bare (mkPt r0 [r0]))) as
    (s3 & child & Heq3 & (F1 & F2 & F3 & F4) & Hc3); [done| | |].
  { split; [done|]. split; [|split; [done|by intros b v ?%not_elem_of_nil]]. eapply spaces_ok_ext; [exact Hok2|]. intros r'. unfold with_areas at 1. simpl.
    destruct (decide (r' = r0)) as [->|]; [|done]. unfold L2, with_areas. rewrite decide_False by done. done. }
  { rewrite (prefaulted_total _ _ Hpre). apply Hrm2. eapply has_frames_le; [exact Hroom|lia]. }
  exists s3, (mkMs pt2 l2 (total_mmap_size ms) (mmap_hint ms)), child, r0. simpl. rewrite HL2 in F3, F4. split; [|split_and!; try done].
  - unfold from_existed_user. rewrite Heq. cbn [mbind comp_bind]. rewrite Heq2. cbn [mbind comp_bind]. rewrite Heq3. done.
  - intros v. rewrite F3. unfold child_attr. by destruct (prefaulted_view _ _ v Hpre) as [-> _].
  - eapply calm_trans; [exact Hc1|]. eapply calm_trans; [exact Hc2|exact Hc3].
Qed.
End fork.
