(* ===== verification/Isolation.v ===== *)
(** * Isolation of private memory

    A system of address spaces that run through any history of new spaces,
    mappings, page faults and forks.  In every state of it a frame that one
    address space may store to through a private page is mapped by no other page
    of any address space and held by no cache. *)

From S2P Require Import Prelude Address FrameAlloc PageTable MapArea AreaPt AreaSet Mmu Fault FaultIso FaultInv FaultWorld ForkPages ForkAreas ForkWorld.

(** ** The system *)

Inductive Op : Type :=
| NewSpace
| MapRange (r start_va end_va perm flags : Z) (file : MmapFile)
| PageFault (r vpn : Z) (scause : Cause) (prepared : option FilePage)
| ForkSpace (r : Z) (prepared : Z → Z → option FilePage).

Section system.
Context `{FrameSource Src} (huge_alloc : Src → option (Z * Src)) (bk : Backings) (kernel : PageTable.PageTable) (ext : Z → nat).
Notation Space := (MemorySetInner PageTable.PageTable).

Record World : Type := mkWorld { w_mach : @Mach Src; w_spaces : gmap Z Space }.

Definition run (w : World) (op : Op) : comp World :=
  match op with
  | NewSpace =>
      '(m, pt) ← new_from_kernel (mc_mem (w_mach w)) kernel;
      Done (mkWorld (with_mem (w_mach w) m) (<[root_ppn pt := new_bare pt]> (w_spaces w)))
  | MapRange r start_va end_va perm flags file =>
      ms ← unwrap (w_spaces w !! r);
      '(g, a) ← new_mmap (mc_groups (w_mach w)) start_va end_va Framed perm Mmap flags file;
      ms ← push_lazily ms a;
      Done (mkWorld (with_groups (w_mach w) g) (<[r := ms]> (w_spaces w)))
  | PageFault r vpn scause prepared =>
      ms ← unwrap (w_spaces w !! r);
      '(s, ms, _) ← handle_page_fault huge_alloc bk (w_mach w) ms vpn scause prepared;
      Done (mkWorld s (<[r := ms]> (w_spaces w)))
  | ForkSpace r prepared =>
      ms ← unwrap (w_spaces w !! r);
      '(s, ms, child) ← from_existed_user huge_alloc bk prepared kernel (w_mach w) ms;
      Done (mkWorld s (<[root_ppn (page_table child) := child]> (<[r := ms]> (w_spaces w))))
  end.

(** What the callers see to: ranges that are free and of small pages, user
    addresses, file pages that the caches hold, and frames to spare. *)
Definition allowed (w : World) (op : Op) : Prop :=
  match op with
  | NewSpace => has_frames 1 (source (mc_mem (w_mach w)))
  | MapRange r start_va end_va perm flags file =>
      floor start_va < ceil end_va ∧ ceil end_va ≤ 2 ^ 26 ∧ 0 ≤ floor start_va ∧ contains flags MAP_HUGETLB = false ∧
      ∃ ms, w_spaces w !! r = Some ms ∧ Forall (λ b, ceil end_va ≤ area_start b ∨ area_end b ≤ floor start_va) (areas ms)
  | PageFault r vpn scause prepared =>
      user_vpn vpn ∧ is_Some (w_spaces w !! r) ∧ (∀ p, prepared = Some p → (0 < ext (fp_frame p))%nat) ∧
      has_frames 5 (source (mc_mem (w_mach w)))
  | ForkSpace r prepared =>
      (∀ file i p, prepared file i = Some p → (0 < ext (fp_frame p))%nat) ∧
      ∃ ms, w_spaces w !! r = Some ms ∧ has_frames (fork_room (areas ms)) (source (mc_mem (w_mach w)))
  end.

Definition world_step (w w' : World) : Prop := ∃ op, allowed w op ∧ run w op = Done w'.

(** No address space and no group; the caches may hold frames. *)
Definition world_init (src : Src) (rc : gmap Z nat) : World := mkWorld (mkMach (mkMem ∅ ∅ src) group_new rc) ∅.
Definition init_ok (src : Src) (rc : gmap Z nat) : Prop :=
  fs_ok src ∧ ∀ f, (ext f ≤ rc_get rc f)%nat ∧ ((0 < ext f)%nat → ¬ fs_free src f ∧ 0 ≤ f < 2 ^ 44).

(** The frames of cached file pages and of special backings are held by them. *)
Definition caches_ok : Prop :=
  (∀ file i p, bk_cached bk file i = Some p → (0 < ext (fp_frame p))%nat) ∧ (∀ b i f, bk_shared bk b i = Some f → (0 < ext f)%nat).

(** ** The invariant *)

Definition w_areas (w : World) (r : Z) : list MapArea := default [] (areas <$> w_spaces w !! r).

Definition world_ok (w : World) : Prop := ∃ roots,
  (∀ r, r ∈ roots ↔ is_Some (w_spaces w !! r)) ∧ (∀ r ms, w_spaces w !! r = Some ms → root_ppn (page_table ms) = r) ∧
  spaces_ok ext roots (w_mach w) (w_areas w).

Context (Hcaches : caches_ok).

(** One space of a good world after a step that left the others. *)
Lemma world_put roots w s r ms : (∀ r, r ∈ roots ↔ is_Some (w_spaces w !! r)) → (∀ r ms, w_spaces w !! r = Some ms → root_ppn (page_table ms) = r) →
  r ∈ roots → root_ppn (page_table ms) = r → spaces_ok ext roots s (with_areas (w_areas w) r (areas ms)) → world_ok (mkWorld s (<[r := ms]> (w_spaces w))).
Proof using.
  intros Hr Hpt Hin Hroot Hok. exists roots. split; [|split].
  - intros r'. simpl. destruct (decide (r' = r)) as [->|]; [rewrite lookup_insert_eq; split; eauto|by rewrite lookup_insert_ne].
  - intros r' ms'. simpl. destruct (decide (r' = r)) as [->|]; [rewrite lookup_insert_eq; by intros [= <-]|rewrite lookup_insert_ne by done; apply Hpt].
  - eapply spaces_ok_ext; [exact Hok|]. intros r'. unfold w_areas, with_areas. simpl. destruct (decide (r' = r)) as [->|]; [by rewrite lookup_insert_eq|by rewrite lookup_insert_ne].
Qed.

(** A new space. *)
Lemma world_add roots s (sp : gmap Z Space) r ms L : (∀ r, r ∈ roots ↔ is_Some (sp !! r)) → (∀ r ms, sp !! r = Some ms → root_ppn (page_table ms) = r) →
  root_ppn (page_table ms) = r → (∀ r' ms', sp !! r' = Some ms' → L r' = areas ms') → (∀ r', r' ∉ roots → L r' = []) → r ∉ roots →
  spaces_ok ext (r :: roots) s (with_areas L r (areas ms)) → world_ok (mkWorld s (<[r := ms]> sp)).
Proof using.
  intros Hr Hpt Hroot HL Hnil Hin Hok. exists (r :: roots). split; [|split].
  - intros r'. simpl. rewrite elem_of_cons, Hr. destruct (decide (r' = r)) as [->|]; [rewrite lookup_insert_eq; split; eauto|rewrite lookup_insert_ne by done; tauto].
  - intros r' ms'. simpl. destruct (decide (r' = r)) as [->|]; [rewrite lookup_insert_eq; by intros [= <-]|rewrite lookup_insert_ne by done; apply Hpt].
  - eapply spaces_ok_ext; [exact Hok|]. intros r'. unfold w_areas, with_areas. simpl. destruct (decide (r' = r)) as [->|Hne]; [by rewrite lookup_insert_eq|].
    rewrite lookup_insert_ne by done. destruct (sp !! r') as [ms'|] eqn:E; [by rewrite (HL r' ms')|]. symmetry. apply Hnil. rewrite Hr, E. by intros [? ?].
Qed.

Lemma new_space_ok w : world_ok w → allowed w NewSpace → ∃ w', run w NewSpace = Done w' ∧ world_ok w'.
Proof using.
  intros (roots & Hr & Hpt & Hok) Hroom. destruct (spaces_ok_root ext roots (w_mach w) (w_areas w) kernel Hok Hroom) as (r0 & m' & Heq & Hr0 & Hnil & Hok' & _).
  eexists. split; [simpl; rewrite Heq; done|]. simpl. eapply (world_add roots _ _ _ _ (w_areas w)); try done.
  - intros r' ms' E. unfold w_areas. by rewrite E.
  - intros r' E. unfold w_areas. destruct (w_spaces w !! r') eqn:E'; [|done]. destruct E. apply Hr. eauto.
  - eapply spaces_ok_ext; [exact Hok'|]. intros r'. unfold with_areas. destruct (decide (r' = r0)) as [->|]; [by rewrite Hnil|done].
Qed.

(** [new_mmap]: the area, its group and what stays. *)
Lemma new_mmap_ok roots s L start_va end_va perm flags file : spaces_ok ext roots s L → floor start_va < ceil end_va → contains flags MAP_HUGETLB = false →
  ∃ g a, new_mmap (mc_groups s) start_va end_va Framed perm Mmap flags file = Done (g, a) ∧ spaces_ok ext roots (with_groups s g) L ∧
    vpn_range a = mkRange (floor start_va) (ceil end_va) ∧ data_frames a = ∅ ∧ map_type a = Framed ∧ ∀ v, attr_ok g (page_attr a v).
Proof using.
  intros [Hw Hp] Hlt Hh. unfold new_mmap.
  assert (∃ g id, (if contains flags MAP_SHARED then let '(g, id) := alloc_id (mc_groups s) in (add_area g id, id) else (mc_groups s, 0)) = (g, id) ∧
    pages_ok ext roots (with_groups s g) (attrs_of L) (frames_of L) ∧ (id ≠ 0 → contains flags MAP_SHARED = true ∧ is_Some (groups g !! id))) as (g & id & -> & Hg & Hid).
  { destruct (contains flags MAP_SHARED); [|exists (mc_groups s), 0; split; [done|]; split; [by destruct s|done]].
    destruct (alloc_id (mc_groups s)) as [g1 id] eqn:Ha. exists (add_area g1 id), id. split; [done|].
    assert (groups g1 = groups (mc_groups s)) as Hg1 by (unfold alloc_id in Ha; destruct (vec_pop _) as [[??]|]; by simplify_eq). split.
    - assert (pages_ok ext roots (with_groups s g1) (attrs_of L) (frames_of L)) as Hp1; [|exact (pages_ok_group ext roots _ _ _ id Hp1)].
      destruct Hp as [P1 P2 P3 P4 P5]. split; try done.
      + eapply iso_ext; [exact P1| |done]. intros [r v|id' v]; [done|]. simpl. by rewrite Hg1.
      + intros r v t Ht. destruct (P3 r v t Ht) as (? & ? & Q). do 2 (split; [done|]). eapply attr_ok_groups; [|done]. simpl. by rewrite Hg1.
    - intros Hne. split; [done|]. unfold add_area. destruct (Z.eqb_spec id 0); [done|]. simpl. rewrite lookup_insert_eq. eauto. }
  cbv zeta. rewrite range_new_ok by lia. cbn [mbind comp_bind]. eexists g, _. split; [done|]. split; [done|]. do 3 (split; [done|]).
  intros v. do 4 (split; [done|]). split; [by left|exact Hid].
Qed.

Lemma map_range_ok w r start_va end_va perm flags file : world_ok w → allowed w (MapRange r start_va end_va perm flags file) →
  ∃ w', run w (MapRange r start_va end_va perm flags file) = Done w' ∧ world_ok w'.
Proof using.
  intros (roots & Hr & Hpt & Hok) (Hlt & Hmax & Hpos & Hh & ms & Hms & Hfree). simpl. rewrite Hms. cbn [unwrap mbind comp_bind].
  destruct (new_mmap_ok roots (w_mach w) (w_areas w) start_va end_va perm flags file Hok Hlt Hh) as (g & a & -> & [Hw Hp] & Hrng & Hd & Hmt & Hao). cbn [mbind comp_bind].
  assert (w_areas w r = areas ms) as HL by (unfold w_areas; by rewrite Hms). destruct (Hw r) as [Hwr Hfr]. rewrite HL in Hwr, Hfr.
  assert (∀ v, holds a v = true ↔ floor start_va ≤ v < ceil end_va) as Hhold by (intros v; rewrite holds_spec; unfold area_start, area_end; by rewrite Hrng).
  assert (∀ v, holds a v = true → attr_at (areas ms) v = None) as Hn.
  { intros v Hv%Hhold. apply attr_at_None. intros b Hb. eapply Forall_forall in Hfree; [|exact Hb]. destruct (holds b v) eqn:E; [|done]. apply holds_spec in E. lia. }
  destruct (insert_area_inserted (areas ms) a) as (k & Hk & [I1 I2 I3 _]); [done|unfold area_ok, area_start, area_end; rewrite Hrng; simpl; split; [lia|split; [lia|done]]|done|].
  destruct I3 as [I3 I3']; [done|intros v f; by rewrite Hd, lookup_empty|].
  unfold push_lazily. rewrite Hk. cbn [mbind comp_bind]. eexists. split; [done|]. eapply (world_put roots); [done|done|apply Hr; eauto|exact (Hpt r ms Hms)|]. simpl.
  assert (∀ r' v', frames_of (with_areas (w_areas w) r k) r' v' = frames_of (w_areas w) r' v') as Hfo.
  { intros r' v'. unfold frames_of, with_areas. destruct (decide (r' = r)) as [->|]; [|done]. rewrite I3', HL. destruct (holds a v') eqn:E; [|done].
    rewrite Hd, lookup_empty. specialize (Hn v' E). unfold attr_at, frame_at in *. by destruct (lookup_area (areas ms) v'). }
  split; [intros r'; specialize (Hw r'); unfold with_areas; by destruct (decide (r' = r))|].
  eapply pages_ok_ext; [|done|exact Hfo]. eapply pages_ok_attrs; [exact Hp| |].
  - intros r' v' [f Hf]. unfold attrs_of, with_areas. destruct (decide (r' = r)) as [->|]; [|done]. rewrite I2, HL. destruct (holds a v') eqn:E; [|done].
    apply (po_in _ _ _ _ _ Hp) in Hf as [t Ht]. unfold attrs_of in Ht. by rewrite HL, Hn in Ht.
  - intros r' v' t. unfold attrs_of, with_areas. destruct (decide (r' = r)) as [->|]; [|apply (po_user _ _ _ _ _ Hp)]. rewrite I2.
    destruct (holds a v') eqn:E; [|rewrite <- HL; apply (po_user _ _ _ _ _ Hp)]. intros [= <-]. split; [apply Hr; eauto|]. split; [|apply Hao].
    apply Hhold in E. unfold user_vpn. lia.
Qed.

Lemma fault_step_ok w r vpn scause prepared : world_ok w → allowed w (PageFault r vpn scause prepared) →
  ∃ w', run w (PageFault r vpn scause prepared) = Done w' ∧ world_ok w'.
Proof using Hcaches.
  intros (roots & Hr & Hpt & Hok) (Hu & [ms Hms] & Hprep & Hroom). simpl. rewrite Hms. cbn [unwrap mbind comp_bind].
  assert (areas ms = w_areas w r) as HL by (unfold w_areas; by rewrite Hms). assert (r ∈ roots) as Hin by (apply Hr; eauto).
  destruct (page_fault_ok huge_alloc bk ext roots (proj1 Hcaches) (proj2 Hcaches) (w_mach w) (w_areas w) ms r vpn scause Hok (Hpt r ms Hms) HL prepared Hprep Hu Hin Hroom)
    as (s' & ms' & ok & -> & [R1 R2 R3 _] & _). cbn [mbind comp_bind]. eexists. split; [done|]. by eapply (world_put roots).
Qed.

Lemma fork_step_ok w r prepared : world_ok w → allowed w (ForkSpace r prepared) → ∃ w', run w (ForkSpace r prepared) = Done w' ∧ world_ok w'.
Proof using Hcaches.
  intros (roots & Hr & Hpt & Hok) (Hprep & ms & Hms & Hroom). simpl. rewrite Hms. cbn [unwrap mbind comp_bind].
  assert (areas ms = w_areas w r) as HL by (unfold w_areas; by rewrite Hms). assert (r ∈ roots) as Hin by (apply Hr; eauto).
  destruct (from_existed_user_ok huge_alloc bk ext roots (proj1 Hcaches) (proj2 Hcaches) prepared kernel (w_mach w) (w_areas w) ms r Hprep Hok Hin (Hpt r ms Hms) HL Hroom)
    as (s' & ms' & child & r0 & -> & Hr0 & Hrc & Hrp & Hok' & _). cbn [mbind comp_bind]. eexists. split; [done|]. rewrite Hrc.
  eapply (world_add roots); [| |done| | |done|exact Hok'].
  - intros r'. rewrite Hr. destruct (decide (r' = r)) as [->|]; [rewrite lookup_insert_eq; split; eauto|by rewrite lookup_insert_ne].
  - intros r' ms1. destruct (decide (r' = r)) as [->|]; [rewrite lookup_insert_eq; by intros [= <-]|rewrite lookup_insert_ne by done; apply Hpt].
  - intros r' ms1. unfold with_areas. destruct (decide (r' = r)) as [->|]; [rewrite lookup_insert_eq; by intros [= <-]|].
    rewrite lookup_insert_ne by done. intros E. unfold w_areas. by rewrite E.
  - intros r' Hn. unfold with_areas. rewrite decide_False by (by intros ->). unfold w_areas. destruct (w_spaces w !! r') eqn:E; [|done]. destruct Hn. apply Hr. eauto.
Qed.

Lemma step_ok w op : world_ok w → allowed w op → ∃ w', run w op = Done w' ∧ world_ok w'.
Proof using Hcaches. destruct op; [apply new_space_ok|apply map_range_ok|apply fault_step_ok|apply fork_step_ok]. Qed.

Lemma world_init_ok src rc : init_ok src rc → world_ok (world_init src rc).
Proof using.
  intros [Hs He]. exists []. assert (∀ r, w_areas (world_init src rc) r = []) as Hnil by (intros r; unfold w_areas; simpl; by rewrite lookup_empty).
  split; [intros r; simpl; rewrite lookup_empty; split; [by intros ?%not_elem_of_nil|by intros [? ?]]|].
  split; [intros r ms; simpl; by rewrite lookup_empty|]. split; [intros r; rewrite Hnil; split; [apply areas_wf_nil|constructor]|].
  assert (∀ k, keyF (frames_of (w_areas (world_init src rc))) group_new k = None) as Hk.
  { intros [r v|id v]; simpl; [unfold frames_of; by rewrite Hnil|by rewrite lookup_empty]. }
  split; [| |intros r v t; unfold attrs_of; by rewrite Hnil| |]; try (intros r v f; unfold frames_of; by rewrite Hnil).
  split; simpl.
  - split; [split; [done|..]|].
    + by intros r r' p p' t (?%not_elem_of_nil & _).
    + by intros r p t i (?%not_elem_of_nil & _).
    + by intros r p t (?%not_elem_of_nil & _).
    + by intros r ?%not_elem_of_nil.
  - by intros r v b ?%not_elem_of_nil.
  - by intros r v b ?%not_elem_of_nil.
  - intros f [[k Hf]|Hf]; [by rewrite Hk in Hf|by apply He].
  - intros f l Hnd Hl. destruct l as [|k l]; [apply He|]. specialize (Hl k ltac:(by left)). by rewrite Hk in Hl.
  - by intros r v b ?%not_elem_of_nil.
Qed.

Lemma reachable_ok src rc w : init_ok src rc → rtc world_step (world_init src rc) w → world_ok w.
Proof using Hcaches.
  intros Hinit Hr. eapply (rtc_invariant world_step world_ok); [|exact Hr|by apply world_init_ok].
  intros w1 w2 Hw (op & Hal & Hrun). destruct (step_ok w1 op Hw Hal) as (w3 & E & Hw3). rewrite Hrun in E. by injection E as <-.
Qed.
End system.

(** ** Properties *)

Section properties.
Context `{FrameSource Src} (huge_alloc : Src → option (Z * Src)) (bk : Backings) (kernel : PageTable.PageTable) (ext : Z → nat).
Notation world_ok := (@world_ok Src _ ext).
Notation allowed := (@allowed Src _ ext).
Notation entry w r v := (entry_at (mc_mem (w_mach w)) r v).

Lemma sole_writer w : world_ok w → ∀ r ms v t b, w_spaces w !! r = Some ms → attr_at (areas ms) v = Some t → attr_private t = true →
  entry w r v = Some b → writes b = true →
  ext (get_ppn b) = 0%nat ∧ ∀ r' v' b', is_Some (w_spaces w !! r') → user_vpn v' → entry w r' v' = Some b' → get_ppn b' = get_ppn b → r' = r ∧ v' = v.
Proof.
  intros (roots & Hr & Hpt & Hw & Hp) r ms v t b Hms Ht Hpriv Hb Hwr. pose proof (po_iso _ _ _ _ _ Hp) as Hi.
  assert (attrs_of (w_areas w) r v = Some t) as Hat by (unfold attrs_of, w_areas; by rewrite Hms). destruct (po_user _ _ _ _ _ Hp r v t Hat) as (Hin & Hu & _).
  destruct (is_sole _ _ _ _ _ _ _ Hi r v b Hin Hu Hb Hwr) as [Hs He]; [unfold private_in; by rewrite Hat|]. split; [done|].
  intros r' v' b' Hr' Hu' Hb' Eb. rewrite <- Eb in Hs. apply Hr in Hr'. pose proof (is_track _ _ _ _ _ _ _ Hi r' v' b' Hr' Hu' Hb') as Htr.
  apply Hs in Htr. by injection Htr as -> ->.
Qed.

(** [C1] Copy on write isolates: in every state that a system of address spaces
    reaches by new spaces, mappings, page faults and forks, a frame to which one
    space may store through a private page is mapped by no other page of any
    space and held by no file cache. *)
Theorem private_memory_isolated src rc w : caches_ok bk ext → init_ok ext src rc →
  rtc (world_step huge_alloc bk kernel ext) (world_init src rc) w →
  ∀ r ms v t b, w_spaces w !! r = Some ms → attr_at (areas ms) v = Some t → attr_private t = true → entry w r v = Some b → writes b = true →
    ext (get_ppn b) = 0%nat ∧
    ∀ r' v' b', is_Some (w_spaces w !! r') → user_vpn v' → entry w r' v' = Some b' → get_ppn b' = get_ppn b → r' = r ∧ v' = v.
Proof. intros Hc Hi Hr. by apply sole_writer, (reachable_ok huge_alloc bk kernel ext Hc src rc). Qed.

(** [C2] The page fault handler: with five frames to spare it returns, keeps the
    invariant of the system, changes the entry of no other page and no byte of a
    frame in use; when it reports success the area permits the access and the
    entry allows it; and the areas are as before, unless one that grows down now
    starts at the page with 256 free pages below. *)
Theorem page_fault_correct w r ms v c prepared : caches_ok bk ext → world_ok w → allowed w (PageFault r v c prepared) → w_spaces w !! r = Some ms →
  ∃ s' ms' ok, handle_page_fault huge_alloc bk (w_mach w) ms v c prepared = Done (s', ms', ok) ∧
    world_ok (mkWorld s' (<[r := ms']> (w_spaces w))) ∧
    (ok = true → ∃ t b, attr_at (areas ms') v = Some t ∧ permits (at_perm t) c = true ∧ entry_at (mc_mem s') r v = Some b ∧ allows b c = true) ∧
    (∀ r' v', is_Some (w_spaces w !! r') → user_vpn v' → (r', v') ≠ (r, v) → entry_at (mc_mem s') r' v' = entry w r' v') ∧
    (∀ q, ¬ fs_free (source (mc_mem (w_mach w))) q → pages (mc_mem s') !! q = pages (mc_mem (w_mach w)) !! q) ∧
    (layout_kept (areas ms) (areas ms') ∨ layout_grown v (areas ms) (areas ms')).
Proof.
  intros [Hc1 Hc2] (roots & Hr & Hpt & Hok) (Hu & _ & Hprep & Hroom) Hms. assert (r ∈ roots) as Hin by (apply Hr; eauto).
  assert (areas ms = w_areas w r) as HL by (unfold w_areas; by rewrite Hms).
  destruct (page_fault_ok huge_alloc bk ext roots Hc1 Hc2 (w_mach w) (w_areas w) ms r v c Hok (Hpt r ms Hms) HL prepared Hprep Hu Hin Hroom)
    as (s' & ms' & ok & Heq & [R1 R2 (Q1 & _ & Q3) R4] & Hlay). exists s', ms', ok. split; [done|]. split; [by eapply world_put|].
  split; [done|]. split; [|done]. intros r' v' Hr'. by apply Q1, Hr.
Qed.

(** [C23] No permitted access is refused: a fault on a page of the heap, the stack,
    the program or anonymous memory that has no entry, and a store to such a page
    that has one, is resolved when the area permits the access and five frames are
    left. *)
Theorem permitted_access_resolved w r ms v c prepared a : caches_ok bk ext → world_ok w → allowed w (PageFault r v c prepared) →
  w_spaces w !! r = Some ms → lookup_area (areas ms) v = Some a →
  is_mmap_area a && is_anonymous (mmap_file a) || is_lazy_area a = true → permits (map_perm a) c = true →
  is_store c ∨ entry w r v = None →
  ∃ s' ms', handle_page_fault huge_alloc bk (w_mach w) ms v c prepared = Done (s', ms', true).
Proof.
  intros [Hc1 Hc2] (roots & Hr & Hpt & Hok) (Hu & _ & Hprep & Hroom) Hms Ha Hkind Hp Hcase. assert (r ∈ roots) as Hin by (apply Hr; eauto).
  assert (areas ms = w_areas w r) as HL by (unfold w_areas; by rewrite Hms). apply lookup_area_Some in Ha as [Hel Hh].
  apply list_elem_of_split in Hel as (l1 & l2 & E). rewrite HL in E.
  destruct (page_fault_ok huge_alloc bk ext roots Hc1 Hc2 (w_mach w) (w_areas w) ms r v c Hok (Hpt r ms Hms) HL prepared Hprep Hu Hin Hroom)
    as (s' & ms' & ok & Heq & _). exists s', ms'. rewrite Heq. repeat f_equal.
  exact (page_fault_live huge_alloc bk ext roots Hc1 Hc2 (w_mach w) (w_areas w) ms r v c Hok (Hpt r ms Hms) HL prepared Hprep Hu Hin Hroom l1 a l2 s' ms' ok E Hh Hkind Hp Hcase Heq).
Qed.

(** Two pages with one frame. *)
Lemma same_frame roots s L r r0 v f : spaces_ok ext roots s L → r ≠ r0 → frame_at (L r) v = Some f → frame_at (L r0) v = Some f →
  ∃ b b0, entry_at (mc_mem s) r v = Some b ∧ entry_at (mc_mem s) r0 v = Some b0 ∧ get_ppn b = f ∧ get_ppn b0 = f ∧
    (private_in (attrs_of L) r v = true → writes b = false) ∧ (private_in (attrs_of L) r0 v = true → writes b0 = false).
Proof.
  intros [Hw Hp] Hne Hf Hf0. pose proof (po_iso _ _ _ _ _ Hp) as Hi.
  assert (∀ r, frame_at (L r) v = Some f → ∃ b, r ∈ roots ∧ user_vpn v ∧ entry_at (mc_mem s) r v = Some b ∧ get_ppn b = f) as Hent.
  { intros x Hx. destruct (po_back _ _ _ _ _ Hp x v f Hx) as [b Hb]. destruct (po_in _ _ _ _ _ Hp x v f Hx) as [t Ht]. destruct (po_user _ _ _ _ _ Hp x v t Ht) as (Hin & Hu & _).
    exists b. split_and!; try done. pose proof (is_track _ _ _ _ _ _ _ Hi x v b Hin Hu Hb) as E. simpl in E. unfold frames_of in E. congruence. }
  destruct (Hent r Hf) as (b & Hin & Hu & Hb & Eb). destruct (Hent r0 Hf0) as (b0 & Hin0 & _ & Hb0 & Eb0). exists b, b0. split_and!; try done.
  - intros Hpv. destruct (writes b) eqn:E; [|done]. exfalso. destruct (is_sole _ _ _ _ _ _ _ Hi r v b Hin Hu Hb E Hpv) as [Hs _].
    specialize (Hs (KPage r0 v)). rewrite Eb in Hs. specialize (Hs Hf0). injection Hs as ->. done.
  - intros Hpv. destruct (writes b0) eqn:E; [|done]. exfalso. destruct (is_sole _ _ _ _ _ _ _ Hi r0 v b0 Hin0 Hu Hb0 E Hpv) as [Hs _].
    specialize (Hs (KPage r v)). rewrite Eb0 in Hs. specialize (Hs Hf). injection Hs as ->. done.
Qed.

(** The pages of the parent [l'] and of the child [lc] after the loops. *)
Lemma fork_pages roots s L r r0 l l' lc : spaces_ok ext roots s (with_areas (with_areas L r l') r0 lc) → r ≠ r0 → Forall2 prefaulted_area l l' →
  (∀ v, attr_at lc v = child_attr l v) → (∀ b v, b ∈ l' → holds b v = true → must_share b v → frame_at lc v = data_frames b !! v) →
  ∀ v a, lookup_area l v = Some a → inherits (page_attr a v) = true → ∀ d f, prefaulted_area a (set_frames a d) →
  lookup_area l' v = Some (set_frames a d) → d !! v = Some f → attr_private (page_attr a v) = true ∨ (∀ w, holds a w = true → is_Some (d !! w)) →
  ∃ b b0, entry_at (mc_mem s) r v = Some b ∧ entry_at (mc_mem s) r0 v = Some b0 ∧ get_ppn b = f ∧ get_ppn b0 = f ∧
    (attr_private (page_attr a v) = true → writes b = false ∧ writes b0 = false).
Proof.
  intros Hok Hne Hpre Hat Hsh v a Ha Hinh d f _ Ha' Hf Hcase. pose proof (lookup_area_Some _ _ _ Ha') as [Hel Hh].
  set (L' := with_areas (with_areas L r l') r0 lc) in *.
  assert (L' r = l' ∧ L' r0 = lc) as [EL EL0] by (unfold L', with_areas; by rewrite decide_False, !decide_True by done).
  destruct (same_frame roots s L' r r0 v f Hok Hne) as (b & b0 & E1 & E2 & E3 & E4 & E5 & E6).
  - rewrite EL. unfold frame_at. by rewrite Ha'.
  - rewrite EL0, (Hsh _ v Hel Hh) by (by split). exact Hf.
  - exists b, b0. do 4 (split; [done|]). intros Hp. split; [apply E5|apply E6]; unfold private_in, attrs_of; rewrite ?EL, ?EL0.
    + unfold attr_at. by rewrite Ha'.
    + rewrite Hat. unfold child_attr, attr_at. rewrite Ha. simpl. by rewrite Hinh.
Qed.

(** [C3] Fork: with frames for every page it returns a parent and a child for which
    the invariant holds; the child has the parent's pages but those of the fixed
    stack and the trap context; a private page with a frame is mapped by both to
    that frame, and neither may store to it without a fault; a page of a shared
    anonymous mapping has one frame, mapped by both; and no byte in use changes. *)
Theorem fork_correct w r ms prepared : caches_ok bk ext → world_ok w → allowed w (ForkSpace r prepared) → w_spaces w !! r = Some ms →
  ∃ s' ms' child, from_existed_user huge_alloc bk prepared kernel (w_mach w) ms = Done (s', ms', child) ∧
    let r0 := root_ppn (page_table child) in
    w_spaces w !! r0 = None ∧ world_ok (mkWorld s' (<[r0 := child]> (<[r := ms']> (w_spaces w)))) ∧
    (∀ v, attr_at (areas ms') v = attr_at (areas ms) v ∧ attr_at (areas child) v = child_attr (areas ms) v) ∧
    (∀ v t f, attr_at (areas ms) v = Some t → inherits t = true → attr_private t = true → frame_at (areas ms) v = Some f →
       ∃ b b0, entry_at (mc_mem s') r v = Some b ∧ entry_at (mc_mem s') r0 v = Some b0 ∧ get_ppn b = f ∧ get_ppn b0 = f ∧ writes b = false ∧ writes b0 = false) ∧
    (∀ v a, lookup_area (areas ms) v = Some a → is_mmap_vma a && is_shared a && is_anonymous (mmap_file a) = true →
       ∃ f b b0, entry_at (mc_mem s') r v = Some b ∧ entry_at (mc_mem s') r0 v = Some b0 ∧ get_ppn b = f ∧ get_ppn b0 = f) ∧
    (∀ q, ¬ fs_free (source (mc_mem (w_mach w))) q → pages (mc_mem s') !! q = pages (mc_mem (w_mach w)) !! q).
Proof.
  intros Hc Hw Hal Hms. pose proof (fork_step_ok huge_alloc bk kernel ext Hc w r prepared Hw Hal) as (w' & Hrun & Hw').
  destruct Hw as (roots & Hr & Hpt & Hok). destruct Hal as (Hprep & ms0 & Hms0 & Hroom). rewrite Hms in Hms0. injection Hms0 as <-.
  assert (r ∈ roots) as Hin by (apply Hr; eauto). assert (areas ms = w_areas w r) as HL by (unfold w_areas; by rewrite Hms).
  destruct (from_existed_user_ok huge_alloc bk ext roots (proj1 Hc) (proj2 Hc) prepared kernel (w_mach w) (w_areas w) ms r Hprep Hok Hin (Hpt r ms Hms) HL Hroom)
    as (s' & ms' & child & r0 & Heq & Hr0 & Hrc & Hrp & Hok' & Hpre & Hat & Hsh & Hcalm).
  simpl in Hrun. rewrite Hms in Hrun. cbn [unwrap mbind comp_bind] in Hrun. rewrite Heq in Hrun. cbn [mbind comp_bind] in Hrun. injection Hrun as <-.
  exists s', ms', child. split; [done|]. cbn zeta. assert (r ≠ r0) as Hne by congruence. rewrite Hrc in Hw' |- *.
  pose proof (fork_pages _ _ _ r r0 _ _ _ Hok' Hne Hpre Hat Hsh) as Hpages.
  split; [destruct (w_spaces w !! r0) eqn:E; [destruct Hr0; apply Hr; eauto|done]|]. split; [done|].
  split; [intros v; split; [by destruct (prefaulted_view _ _ v Hpre)|done]|]. split; [|split; [|apply Hcalm]].
  - intros v t f Ht Hinh Hpriv Hf. unfold attr_at, frame_at in Ht, Hf. destruct (lookup_area (areas ms) v) as [a|] eqn:Ha; [|done]. simpl in Ht, Hf. injection Ht as <-.
    destruct (prefaulted_lookup _ _ _ _ Hpre Ha) as (a' & Ha' & Hpa). pose proof Hpa as (d & -> & Hk & _).
    destruct (Hpages v a Ha Hinh d f Hpa Ha' (Hk _ _ Hf) (or_introl Hpriv)) as (b & b0 & E1 & E2 & E3 & E4 & E5). destruct (E5 Hpriv). by exists b, b0.
  - intros v a Ha [[Hm Hs]%andb_prop Han]%andb_prop. destruct (prefaulted_lookup _ _ _ _ Hpre Ha) as (a' & Ha' & Hpa). pose proof Hpa as (d & -> & _ & _ & Hall).
    specialize (Hall Hm Hs Han). destruct (Hall v) as [f Hf]; [apply (lookup_area_Some _ _ _ Ha)|].
    assert (inherits (page_attr a v) = true) as Hinh by (rewrite inherits_area; unfold is_mmap_vma, is_mmap_area, is_dynamic_mmap_stack in *; by destruct (area_type a), (contains (mmap_flags a) MAP_STACK)).
    destruct (Hpages v a Ha Hinh d f Hpa Ha' Hf (or_intror Hall)) as (b & b0 & E1 & E2 & E3 & E4 & _). by exists f, b, b0.
Qed.
End properties.

(** ** A history

    A process maps two pages of private memory, stores to the first, forks, and
    the child stores to its copy. *)

Definition demo_bk : Backings := mkBackings (λ _ _, None) (λ _ _, None) (λ _ _, None) (λ _ _, None).
Definition demo_ext (f : Z) : nat := 0.
Definition demo_kernel : PageTable.PageTable := mkPt 1 [].
Definition demo_init : @World (list Z) := world_init (seqZ 1000 40) ∅.
Definition demo_ops : list Op :=
  [NewSpace; MapRange 1000 65536 73728 22 (Z.lor MAP_PRIVATE MAP_ANONYMOUS) file_empty; PageFault 1000 16 StorePageFault None;
   ForkSpace 1000 (λ _ _, None); PageFault 1004 16 StorePageFault None].
Fixpoint run_all (w : @World (list Z)) (ops : list Op) : comp World :=
  match ops with [] => Done w | op :: ops => w ← run no_huge demo_bk demo_kernel w op; run_all w ops end.
Definition demo_at (n : nat) : World := match run_all demo_init (take n demo_ops) with Done w => w | Panic => demo_init end.
Definition demo_ms (n : nat) (r : Z) : MemorySetInner PageTable.PageTable := default (new_bare demo_kernel) (w_spaces (demo_at n) !! r).

Lemma pool_frames n (l : list Z) : (n <=? length l)%nat = true → has_frames n l.
Proof. revert l. induction n as [|n IH]; intros [|f l]; try done. intros E. exists f, l. split; [done|]. by apply IH. Qed.

Lemma run_all_snoc ops op w : run_all w (ops ++ [op]) = (w ← run_all w ops; run no_huge demo_bk demo_kernel w op).
Proof.
  revert w. induction ops as [|o ops IH]; intros w; simpl; [by destruct (run _ _ _ w op)|]. destruct (run _ _ _ w o); simpl; [apply IH|done].
Qed.

Definition is_done {A} (x : comp A) : bool := match x with Done _ => true | Panic => false end.
Lemma demo_done n : (n ≤ 5)%nat → is_done (run_all demo_init (take n demo_ops)) = true.
Proof. intros Hn. destruct n as [|[|[|[|[|[|n]]]]]]; [vm_compute; reflexivity..|lia]. Qed.

Lemma demo_run n : (n < 5)%nat → ∃ op, demo_ops !! n = Some op ∧ run no_huge demo_bk demo_kernel (demo_at n) op = Done (demo_at (S n)).
Proof.
  intros Hn. destruct (lookup_lt_is_Some_2 demo_ops n Hn) as [op Hop]. exists op. split; [done|].
  pose proof (demo_done n ltac:(lia)) as H1. pose proof (demo_done (S n) ltac:(lia)) as H2. unfold demo_at.
  rewrite (take_S_r _ _ _ Hop), run_all_snoc in *. destruct (run_all demo_init (take n demo_ops)); [|done]. cbn [mbind comp_bind] in *. by destruct (run _ _ _ _ op).
Qed.

Lemma demo_space n r : match n with 0%nat => False | 1%nat | 2%nat | 3%nat => r = 1000 | _ => n = 4%nat ∧ (r = 1000 ∨ r = 1004) end →
  w_spaces (demo_at n) !! r = Some (demo_ms n r).
Proof.
  destruct n as [|[|[|[|n]]]]; [done|intros ->; vm_compute; reflexivity..|]. intros [[= ->] [-> | ->]]; vm_compute; reflexivity.
Qed.

Lemma demo_allowed n op : demo_ops !! n = Some op → allowed demo_ext (demo_at n) op.
Proof.
  destruct n as [|[|[|[|[|n]]]]]; [intros [= <-]..|done].
  - apply pool_frames. vm_compute. reflexivity.
  - assert (floor 65536 = 16 ∧ ceil 73728 = 18) as [E1 E2] by (split; reflexivity). unfold allowed. rewrite E1, E2. split_and!; try done.
    exists (demo_ms 1 1000). split; [by apply demo_space|]. assert (areas (demo_ms 1 1000) = []) as -> by (vm_compute; reflexivity). constructor.
  - split_and!; [done|exists (demo_ms 2 1000); by apply demo_space|done|apply pool_frames; vm_compute; reflexivity].
  - split; [done|]. exists (demo_ms 3 1000). split; [by apply demo_space|]. apply pool_frames. vm_compute. reflexivity.
  - split_and!; [done|exists (demo_ms 4 1004); apply demo_space; auto|done|apply pool_frames; vm_compute; reflexivity].
Qed.

Lemma demo_reached n : (n ≤ 5)%nat → rtc (world_step no_huge demo_bk demo_kernel demo_ext) demo_init (demo_at n).
Proof.
  induction n as [|n IH]; intros Hn; [apply rtc_refl|]. eapply rtc_r; [apply IH; lia|]. destruct (demo_run n) as (op & Hop & Hrun); [lia|].
  exists op. split; [by apply demo_allowed|done].
Qed.

Lemma demo_caches : caches_ok demo_bk demo_ext.
Proof. done. Qed.
Lemma demo_init_ok : init_ok demo_ext (seqZ 1000 40) ∅.
Proof.
  split; [|intros f; split; [unfold demo_ext; lia|unfold demo_ext; lia]]. split; [apply NoDup_seqZ|]. apply Forall_forall. intros f ?%elem_of_seqZ. lia.
Qed.
Lemma demo_ok n : (n ≤ 5)%nat → world_ok demo_ext (demo_at n).
Proof. intros Hn. exact (reachable_ok no_huge demo_bk demo_kernel demo_ext demo_caches _ _ _ demo_init_ok (demo_reached n Hn)). Qed.

(** The entries of page 16 of the parent after its store, and of the child after its own. *)
Definition demo_entry (n : nat) (r : Z) : Z := default 0 (entry_at (mc_mem (w_mach (demo_at n))) r 16).

Lemma private_memory_isolated_witness : demo_ext (get_ppn (demo_entry 5 1004)) = 0%nat ∧
  ∀ r' v' b', is_Some (w_spaces (demo_at 5) !! r') → user_vpn v' → entry_at (mc_mem (w_mach (demo_at 5))) r' v' = Some b' →
    get_ppn b' = get_ppn (demo_entry 5 1004) → r' = 1004 ∧ v' = 16.
Proof.
  refine (private_memory_isolated no_huge demo_bk demo_kernel demo_ext (seqZ 1000 40) ∅ (demo_at 5) demo_caches demo_init_ok (demo_reached 5 ltac:(lia))
    1004 (demo_ms 5 1004) 16 (mkAttr Framed 22 Mmap 34 0 None) (demo_entry 5 1004) _ _ _ _ _); vm_compute; reflexivity.
Defined.

Lemma page_fault_correct_witness : ∃ s' ms' ok, handle_page_fault no_huge demo_bk (w_mach (demo_at 4)) (demo_ms 4 1004) 16 StorePageFault None = Done (s', ms', ok) ∧
  world_ok demo_ext (mkWorld s' (<[1004 := ms']> (w_spaces (demo_at 4)))).
Proof.
  destruct (page_fault_correct no_huge demo_bk demo_ext (demo_at 4) 1004 (demo_ms 4 1004) 16 StorePageFault None demo_caches (demo_ok 4 ltac:(lia))
    (demo_allowed 4 (PageFault 1004 16 StorePageFault None) eq_refl)) as (s' & ms' & ok & H1 & H2 & _); [apply demo_space; auto|]. exists s', ms', ok. exact (conj H1 H2).
Defined.

(** The area that holds page 16. *)
Definition demo_area (n : nat) (r : Z) : MapArea :=
  default (mkArea (mkRange 0 0) ∅ Framed 0 Mmap file_empty 0 0) (lookup_area (areas (demo_ms n r)) 16).
Lemma demo_area_at : lookup_area (areas (demo_ms 4 1004)) 16 = Some (demo_area 4 1004).
Proof. vm_compute. reflexivity. Qed.

Lemma permitted_access_resolved_witness : ∃ s' ms', handle_page_fault no_huge demo_bk (w_mach (demo_at 4)) (demo_ms 4 1004) 16 StorePageFault None = Done (s', ms', true).
Proof.
  apply (permitted_access_resolved no_huge demo_bk demo_ext (demo_at 4) 1004 (demo_ms 4 1004) 16 StorePageFault None
    (demo_area 4 1004) demo_caches (demo_ok 4 ltac:(lia))
    (demo_allowed 4 (PageFault 1004 16 StorePageFault None) eq_refl)); [apply demo_space; auto|exact demo_area_at|vm_compute; reflexivity|vm_compute; reflexivity|by left; left].
Defined.

Lemma fork_correct_witness : ∃ s' ms' child, from_existed_user no_huge demo_bk (λ _ _, None) demo_kernel (w_mach (demo_at 3)) (demo_ms 3 1000) = Done (s', ms', child) ∧
  world_ok demo_ext (mkWorld s' (<[root_ppn (page_table child) := child]> (<[1000 := ms']> (w_spaces (demo_at 3))))).
Proof.
  destruct (fork_correct no_huge demo_bk demo_kernel demo_ext (demo_at 3) 1000 (demo_ms 3 1000) (λ _ _, None) demo_caches (demo_ok 3 ltac:(lia))
    (demo_allowed 3 (ForkSpace 1000 (λ _ _, None)) eq_refl)) as (s' & ms' & child & H1 & _ & H2 & _); [by apply demo_space|]. exists s', ms', child. exact (conj H1 H2).
Defined.

(** ** A shared area with a missing page

    A file of two pages, the first of which could not be read: the prefetch before
    fork skips it. *)
Definition shift_page (file i : Z) : option FilePage := if i =? 1 then Some (mkFilePage file 1 7 4096) else None.
Definition shift_bk : Backings := mkBackings shift_page (λ _ _, None) (λ _ _, None) (λ _ _, None).
(** Fork a space and look at the frames of some pages of both. *)
Definition forked_frames (w : @World (list Z)) (r : Z) (vpns : list Z) : comp (list (option Z) * list (option Z)) :=
  ms ← unwrap (w_spaces w !! r);
  '(_, ms, child) ← from_existed_user no_huge shift_bk shift_page demo_kernel (w_mach w) ms;
  Done (frame_at (areas ms) <$> vpns, frame_at (areas child) <$> vpns).

(** Fork gives the frames of a shared area to the child from the start of the
    range on ([data_frames.values()] zipped with the range): where the first page
    has no frame, the child's first page maps the parent's second page and its
    second page maps nothing. *)
Theorem fork_shifts_shared_pages :
  (w ← run no_huge shift_bk demo_kernel demo_init NewSpace;
   w ← run no_huge shift_bk demo_kernel w (MapRange 1000 65536 73728 22 MAP_SHARED (mkFile (Inode 1) 0));
   forked_frames w 1000 [16; 17]) = Done ([None; Some 7], [Some 7; None]).
Proof. vm_compute. reflexivity. Qed.
