(* ===== verification/Seccomp.v ===== *)
(** * Seccomp policies

    [task/seccomp.rs] and the installation of a policy by [seccomp(2)] and
    [prctl(2)] ([syscall/sys/prctl.rs]): the subset of classic BPF that filters
    may use, its check and its interpreter, and the life of a policy.

    Registers and instruction fields are [Z] in the range of their types.  User
    memory is given by the functions that read it. *)

From S2P Require Import Prelude Errno.

Definition SECCOMP_FILTER_MAX_INSNS : nat := 4096.
Definition BPF_LD_W_ABS : Z := 32.
Definition BPF_JMP_JEQ_K : Z := 21.
Definition BPF_RET_K : Z := 6.
Definition SECCOMP_RET_ACTION : Z := 2147418112.
Definition SECCOMP_RET_ALLOW : Z := 2147418112.
Definition NR_exit : Z := 93.

Record SockFilter : Type := mkInsn { code : Z; jt : Z; jf : Z; k : Z }.

Inductive SeccompAction : Type := Allow | Kill | TrapAction | Fail_.

Inductive SeccompState : Type :=
| Disabled
| Strict
| Filter (program : list SockFilter)
| StrictFail
| WhiteLists (syscalls : list Z).

#[export] Instance SockFilter_eq_dec : EqDecision SockFilter.
Proof. solve_decision. Defined.
#[export] Instance SeccompState_eq_dec : EqDecision SeccompState.
Proof. solve_decision. Defined.

(** ** The check and the interpreter *)

Definition insn_ok (len : nat) (pc : nat) (i : SockFilter) : bool :=
  if (code i =? BPF_LD_W_ABS) && (k i =? 0) then true
  else if code i =? BPF_JMP_JEQ_K then
    negb ((Z.of_nat len <=? Z.of_nat pc + 1 + jt i) || (Z.of_nat len <=? Z.of_nat pc + 1 + jf i))
  else code i =? BPF_RET_K.

(** [for (pc, instruction) in program.iter().enumerate()]. *)
Fixpoint insns_ok (len pc : nat) (l : list SockFilter) : bool :=
  match l with
  | [] => true
  | i :: l => insn_ok len pc i && insns_ok len (S pc) l
  end.

Definition validate_filter (program : list SockFilter) : bool :=
  if (length program =? 0)%nat || (SECCOMP_FILTER_MAX_INSNS <? length program)%nat then false
  else insns_ok (length program) 0 program
       && match last program with Some i => code i =? BPF_RET_K | None => false end.

(** The loop of [run_filter], [fuel] rounds at most; [pc] indexes the program. *)
Fixpoint run_loop (fuel : nat) (program : list SockFilter) (syscall_nr accumulator : Z) (pc : nat) : option Z :=
  match fuel with
  | O => None
  | S fuel =>
      i ← program !! pc;
      if (code i =? BPF_LD_W_ABS) && (k i =? 0) then run_loop fuel program syscall_nr syscall_nr (S pc)
      else if code i =? BPF_JMP_JEQ_K then
        let offset := if accumulator =? k i then jt i else jf i in
        next ← checked_add (Z.of_nat pc) (1 + offset);
        run_loop fuel program syscall_nr accumulator (Z.to_nat next)
      else if code i =? BPF_RET_K then Some (k i)
      else None
  end.
Definition run_filter (program : list SockFilter) (syscall_nr : Z) : option Z :=
  run_loop (length program) program syscall_nr 0 0.

(** ** The policy *)

Definition mode (s : SeccompState) : Z :=
  match s with Disabled => 0 | Strict => 1 | Filter _ => 2 | StrictFail => 3 | WhiteLists _ => 4 end.
Definition is_disabled (s : SeccompState) : bool := match s with Disabled => true | _ => false end.
Definition new_filter (program : list SockFilter) : option SeccompState :=
  if validate_filter program then Some (Filter program) else None.
Definition new_white_list (l : list Z) : option SeccompState := Some (WhiteLists l).

Definition action_for_syscall (s : SeccompState) (syscall_nr : Z) : SeccompAction :=
  match s with
  | Disabled => Allow
  | Strict => if existsb (Z.eqb syscall_nr) [63; 64; 93; 139] then Allow else Kill
  | Filter program =>
      match run_filter program (as_u32 syscall_nr) with
      | Some ret => if Z.land ret SECCOMP_RET_ACTION =? SECCOMP_RET_ALLOW then Allow else TrapAction
      | None => TrapAction
      end
  | StrictFail => if existsb (Z.eqb syscall_nr) [63; 64; 93] then Allow else Fail_
  | WhiteLists l =>
      if as_u32 syscall_nr =? NR_exit then Allow
      else if existsb (Z.eqb (as_u32 syscall_nr)) l then Allow else Fail_
  end.

(** ** Installation *)

Definition SECCOMP_MODE_STRICT : Z := 1.
Definition SECCOMP_MODE_FILTER : Z := 2.
Definition SECCOMP_SET_MODE_STRICT : Z := 0.
Definition SECCOMP_SET_MODE_FILTER : Z := 1.
Definition SECCOMP_SET_MODE_STRICT_FAIL : Z := 256.
Definition SECCOMP_SET_MODE_WHITELIST : Z := 257.

Section install.
(** [if_bad_address] and [copy_from_user] for a [SockFprog] (length and
    pointer), for instructions and for a white list. *)
Context (bad_address : Z → bool) (read_header : Z → result SysErrNo (Z * Z)).
Context (read_insns : Z → Z → result SysErrNo (list SockFilter)) (read_list : Z → Z → result SysErrNo (list Z)).

(** The part common to both system calls: the policy to install. *)
Definition load_filter (privileged : bool) (uargs : Z) : result SysErrNo SeccompState :=
  if negb privileged then Err EACCES
  else if (uargs =? 0) || bad_address uargs then Err EFAULT
  else
    '(len, filter) ← read_header uargs;
    if (len =? 0) || (Z.of_nat SECCOMP_FILTER_MAX_INSNS <? len) then Err EINVAL
    else if (filter =? 0) || bad_address filter then Err EFAULT
    else insns ← read_insns filter len; ok_or EINVAL (new_filter insns).

Definition load_white_list (privileged : bool) (uargs : Z) : result SysErrNo SeccompState :=
  if negb privileged then Err EACCES
  else if (uargs =? 0) || bad_address uargs then Err EFAULT
  else
    '(len, syscalls) ← read_header uargs;
    if (syscalls =? 0) || bad_address syscalls then Err EFAULT
    else l ← read_list syscalls len; ok_or EINVAL (new_white_list l).

(** Install unless a policy is already there; the state is that of the calling
    thread, which no one else writes. *)
Definition install (s : SeccompState) (policy : result SysErrNo SeccompState) : SeccompState * SyscallRet :=
  if negb (is_disabled s) then (s, Err EINVAL)
  else match policy with Ok p => (p, Ok 0) | Err e => (s, Err e) end.

(** [privileged] is [no_new_privs || CAP_SYS_ADMIN]. *)
Definition sys_seccomp (s : SeccompState) (privileged : bool) (operation flags uargs : Z) :
    SeccompState * SyscallRet :=
  if negb (flags =? 0) then (s, Err EINVAL)
  else if operation =? SECCOMP_SET_MODE_STRICT then
    if negb (uargs =? 0) then (s, Err EINVAL) else install s (Ok Strict)
  else if operation =? SECCOMP_SET_MODE_FILTER then install s (load_filter privileged uargs)
  else if operation =? SECCOMP_SET_MODE_STRICT_FAIL then
    if negb (uargs =? 0) then (s, Err EINVAL) else install s (Ok StrictFail)
  else if operation =? SECCOMP_SET_MODE_WHITELIST then install s (load_white_list privileged uargs)
  else (s, Err EINVAL).

(** [prctl(PR_SET_SECCOMP, arg2, arg3)]. *)
Definition prctl_set_seccomp (s : SeccompState) (privileged : bool) (arg2 arg3 : Z) :
    SeccompState * SyscallRet :=
  if arg2 =? SECCOMP_MODE_STRICT then install s (Ok Strict)
  else if arg2 =? SECCOMP_MODE_FILTER then install s (load_filter privileged arg3)
  else (s, Err EINVAL).

(** The life of a thread's policy; a child starts with its parent's. *)
Inductive policy_step : SeccompState → SeccompState → Prop :=
| step_seccomp s privileged operation flags uargs :
    policy_step s (sys_seccomp s privileged operation flags uargs).1
| step_prctl s privileged arg2 arg3 : policy_step s (prctl_set_seccomp s privileged arg2 arg3).1.
End install.

(** ** Reference semantics of filters

    What a program means, independently of the interpreter: [evaluates pc acc r]
    if execution from [pc] with accumulator [acc] returns [r]. *)

Inductive evaluates (program : list SockFilter) (nr : Z) : nat → Z → Z → Prop :=
| ev_load pc acc i r : program !! pc = Some i → code i = BPF_LD_W_ABS → k i = 0 →
    evaluates program nr (S pc) nr r → evaluates program nr pc acc r
| ev_jump pc acc i r : program !! pc = Some i → code i = BPF_JMP_JEQ_K →
    evaluates program nr (S pc + Z.to_nat (if acc =? k i then jt i else jf i)) acc r →
    evaluates program nr pc acc r
| ev_ret pc acc i : program !! pc = Some i → code i = BPF_RET_K → evaluates program nr pc acc (k i).

(** The fields of an instruction are bytes. *)
Definition insn_typed (i : SockFilter) : Prop := 0 ≤ jt i < 256 ∧ 0 ≤ jf i < 256.

Lemma evaluates_fun program nr pc acc r r' :
  evaluates program nr pc acc r → evaluates program nr pc acc r' → r = r'.
Proof.
  induction 1; inversion 1; simplify_eq; unfold BPF_LD_W_ABS, BPF_JMP_JEQ_K, BPF_RET_K in *; try congruence; auto.
Qed.

Lemma insns_ok_lookup len l pc j i : insns_ok len pc l = true → l !! j = Some i → insn_ok len (pc + j) i = true.
Proof.
  revert pc j. induction l as [|x l IH]; intros pc j; [done|]. simpl. intros Hok Hj. split_bools.
  destruct j as [|j]; simplify_eq/=; [by rewrite Nat.add_0_r|]. rewrite Nat.add_succ_r. by apply (IH (S pc)).
Qed.

(** Instructions of a checked program, by place. *)
Lemma validated_insn program pc i :
  validate_filter program = true → program !! pc = Some i → insn_typed i →
  (code i = BPF_LD_W_ABS ∧ k i = 0 ∧ (S pc < length program)%nat) ∨
  (code i = BPF_JMP_JEQ_K ∧ (S pc + Z.to_nat (jt i) < length program)%nat ∧ (S pc + Z.to_nat (jf i) < length program)%nat) ∨
  code i = BPF_RET_K.
Proof.
  unfold validate_filter. destruct (_ || _) eqn:Hlen; [done|]. intros [Hins Hret]%andb_true_iff Hi [Hjt Hjf].
  pose proof (insns_ok_lookup _ _ _ _ _ Hins Hi) as Hok.
  simpl in Hok. pose proof (lookup_lt_Some _ _ _ Hi) as Hlt.
  unfold insn_ok in Hok. destruct ((code i =? BPF_LD_W_ABS) && (k i =? 0)) eqn:Hl.
  - left. apply andb_true_iff in Hl as [Hc%Z.eqb_eq Hk%Z.eqb_eq]. split; [done|]. split; [done|].
    destruct (decide (S pc = length program)) as [Hlast|]; [|lia]. exfalso.
    rewrite last_lookup in Hret. replace (Nat.pred (length program)) with pc in Hret by lia.
    rewrite Hi, Hc in Hret. done.
  - destruct (Z.eqb_spec (code i) BPF_JMP_JEQ_K) as [Hj|].
    + right; left. split_bools. split; [done|]. lia.
    + right; right. by apply Z.eqb_eq.
Qed.

(** The interpreter follows the reference semantics from every place. *)
Lemma run_loop_evaluates program nr fuel pc acc :
  validate_filter program = true → Forall insn_typed program → (length program ≤ SECCOMP_FILTER_MAX_INSNS)%nat →
  (pc < length program ≤ pc + fuel)%nat →
  ∃ r, run_loop fuel program nr acc pc = Some r ∧ evaluates program nr pc acc r.
Proof.
  intros Hv Hty Hmax. revert pc acc. induction fuel as [|fuel IH]; intros pc acc Hpc; [lia|]. cbn [run_loop].
  destruct (lookup_lt_is_Some_2 program pc ltac:(lia)) as [i Hi]. rewrite Hi. cbn [mbind option_bind].
  assert (insn_typed i) as Hti by (eapply Forall_lookup_1; done).
  destruct (validated_insn program pc i Hv Hi Hti) as [(Hc&Hk&Hn)|[(Hc&Ht&Hf)|Hc]]; rewrite Hc.
  - rewrite Hk. simpl. destruct (IH (S pc) nr ltac:(lia)) as (r&->&He). exists r. split; [done|]. by eapply ev_load.
  - simpl. set (off := if acc =? k i then jt i else jf i).
    assert (0 ≤ off < 256 ∧ (S pc + Z.to_nat off < length program)%nat) as [Ho Hlt].
    { subst off. destruct Hti. destruct (acc =? k i); lia. }
    unfold checked_add. unfold SECCOMP_FILTER_MAX_INSNS in Hmax.
    rewrite (proj2 (Z.leb_le _ _)) by (unfold usize_max; lia). cbn [mbind option_bind].
    replace (Z.to_nat (Z.of_nat pc + (1 + off))) with (S pc + Z.to_nat off)%nat by lia.
    destruct (IH (S pc + Z.to_nat off)%nat acc ltac:(lia)) as (r&->&He). exists r. split; [done|]. by eapply ev_jump.
  - simpl. exists (k i). split; [done|]. by eapply ev_ret.
Qed.

(** [C39] A filter that passes the check always decides: on every system call
    the interpreter ends within the length of the program with the one result
    that the reference semantics gives it, and the call is allowed exactly when
    the action bits of that result say so.  No accepted program can run out of
    the program or out of steps. *)
Theorem filter_decides (program : list SockFilter) (s : SeccompState) (syscall_nr : Z) :
  Forall insn_typed program → new_filter program = Some s →
  ∃ r, run_filter program (as_u32 syscall_nr) = Some r ∧
    (∀ r', evaluates program (as_u32 syscall_nr) 0 0 r' ↔ r' = r) ∧
    action_for_syscall s syscall_nr =
      if Z.land r SECCOMP_RET_ACTION =? SECCOMP_RET_ALLOW then Allow else TrapAction.
Proof.
  unfold new_filter. destruct (validate_filter program) eqn:Hv; [|done]. intros Hty [= <-].
  assert (0 < length program ≤ SECCOMP_FILTER_MAX_INSNS)%nat as Hlen.
  { unfold validate_filter in Hv. destruct (_ || _) eqn:Hl; [done|].
    apply orb_false_iff in Hl as [Hl1%Nat.eqb_neq Hl2%Nat.ltb_ge]. lia. }
  destruct (run_loop_evaluates program (as_u32 syscall_nr) (length program) 0 0) as (r&Hr&He); [done|done|lia|lia|].
  exists r. unfold run_filter. split; [done|]. split.
  - intros r'. split; [|by intros ->]. intros He'. by eapply evaluates_fun.
  - cbn [action_for_syscall]. unfold run_filter. by rewrite Hr.
Qed.

(** Load the number; allow [write] (64), trap the rest. *)
Definition demo_filter : list SockFilter :=
  [mkInsn BPF_LD_W_ABS 0 0 0; mkInsn BPF_JMP_JEQ_K 0 1 64; mkInsn BPF_RET_K 0 0 SECCOMP_RET_ALLOW;
   mkInsn BPF_RET_K 0 0 0].

Lemma filter_decides_witness :
  ∃ r, run_filter demo_filter (as_u32 64) = Some r ∧ action_for_syscall (Filter demo_filter) 64 = Allow.
Proof.
  destruct (filter_decides demo_filter (Filter demo_filter) 64) as (r&Hr&_&Ha);
    [repeat constructor; simpl; lia|reflexivity|].
  exists r. split; [exact Hr|]. vm_compute in Hr. injection Hr as <-. exact Ha.
Defined.

(** A policy in force has passed the check. *)
Definition checked (s : SeccompState) : Prop := ∀ p, s = Filter p → validate_filter p = true.

Lemma install_checked s policy :
  checked s → (∀ p, policy = Ok p → checked p) → checked (install s policy).1.
Proof. intros Hs Hp. unfold install. destruct (is_disabled s), policy; simpl; auto. Qed.

Lemma install_kept s policy : s ≠ Disabled → (install s policy).1 = s.
Proof. by destruct s. Qed.

Lemma load_filter_checked bad header insns privileged uargs p :
  load_filter bad header insns privileged uargs = Ok p → checked p.
Proof.
  unfold load_filter. destruct (negb privileged); [done|]. destruct ((uargs =? 0) || bad uargs); [done|]. intros Hp. exec.
  repeat match goal with x : _ * _ |- _ => destruct x end.
  repeat case_match; try done. exec. unfold new_filter, ok_or in *. repeat case_match; simplify_eq.
  intros q [= <-]. done.
Qed.

Lemma load_white_list_checked bad header l privileged uargs p :
  load_white_list bad header l privileged uargs = Ok p → checked p.
Proof.
  unfold load_white_list. destruct (negb privileged); [done|]. destruct ((uargs =? 0) || bad uargs); [done|]. intros Hp. exec.
  repeat match goal with x : _ * _ |- _ => destruct x end.
  repeat case_match; try done. exec. unfold new_white_list, ok_or in *. simplify_eq. done.
Qed.

Lemma policy_step_facts bad header insns l s t :
  policy_step bad header insns l s t → (s ≠ Disabled → t = s) ∧ (checked s → checked t).
Proof.
  intros Hstep. destruct Hstep; unfold sys_seccomp, prctl_set_seccomp; repeat case_match; simpl;
    (split; [intros; first [done|by apply install_kept]|intros Hs; first [done|apply install_checked; [done|]]]).
  all: intros p Hp; simplify_eq; try done; eauto using load_filter_checked, load_white_list_checked.
Qed.

(** A policy, once installed, is for life and always decides: whatever
    calls a thread makes, with whatever user memory, a policy other than
    [Disabled] never changes again, and every filter in force has passed the
    check. *)
Theorem policy_one_way bad_address read_header read_insns read_list (s s' : SeccompState) :
  rtc (policy_step bad_address read_header read_insns read_list) s s' →
  (s ≠ Disabled → s' = s) ∧ (checked s → checked s').
Proof.
  induction 1 as [s|s t s' Hstep _ [IH1 IH2]]; [done|].
  destruct (policy_step_facts _ _ _ _ _ _ Hstep) as [H1 H2].
  split; [|auto]. intros Hs. rewrite IH1; [auto|]. by rewrite H1.
Qed.

Lemma policy_one_way_witness :
  (sys_seccomp (λ _, false) (λ _, Err EFAULT) (λ _ _, Err EFAULT) (λ _ _, Err EFAULT) Strict true 256 0 0).1 = Strict.
Proof.
  refine (proj1 (policy_one_way (λ _, false) (λ _, Err EFAULT) (λ _ _, Err EFAULT) (λ _ _, Err EFAULT) Strict _ _) _).
  - apply rtc_once. apply step_seccomp.
  - discriminate.
Defined.
