(* ===== verification/Path.v ===== *)
(** * Path strings

    [utils/string.rs]: splitting, normalising and joining of path names.  A
    Rust string is the list of its bytes; the separator is an ASCII byte, so
    splitting by characters and by bytes is the same. *)

From Stdlib Require Import Ascii.
From S2P Require Import Prelude.

Notation str := (list ascii).
Definition slash : ascii := "/"%char.
Definition dot : str := ["."%char].
Definition dotdot : str := ["."%char; "."%char].

(** [s.split('/')]: the pieces between the separators. *)
Fixpoint split (s : str) : list str :=
  match s with
  | [] => [[]]
  | c :: s =>
      if decide (c = slash) then [] :: split s
      else match split s with p :: ps => (c :: p) :: ps | [] => [[c]] end
  end.

Definition path2vec (path : str) : list str := filter (λ p, p ≠ []) (split path).

(** [v.join("/")]. *)
Fixpoint join (v : list str) : str :=
  match v with
  | [] => []
  | [p] => p
  | p :: v => p ++ slash :: join v
  end.

(** [v.pop()] on a vector, whose last element is the end of the list. *)
Definition vec_drop_last {A} (v : list A) : list A := take (Nat.pred (length v)) v.

Definition push_element (cwdv : list str) (e : str) : list str :=
  if decide (e = dot) then cwdv
  else if decide (e = dotdot) then vec_drop_last cwdv
  else cwdv ++ [e].

Definition path2abs (cwdv pathv : list str) : str := slash :: join (foldl push_element cwdv pathv).

(** [path.starts_with("/")]. *)
Definition is_abs_path (path : str) : bool :=
  match path with c :: _ => bool_decide (c = slash) | [] => false end.

Definition get_abs_path (base_path path : str) : str :=
  if is_abs_path path then path2abs [] (path2vec path)
  else
    let wpath := if decide (base_path = [slash]) then [] else path2vec base_path in
    path2abs wpath (path2vec path).

(** [s.trim_start_matches('/')] and [trim_start_slash]. *)
Fixpoint trim_start_matches (s : str) : str :=
  match s with c :: s' => if decide (c = slash) then trim_start_matches s' else s | [] => [] end.
Fixpoint leading_slashes (s : str) : nat :=
  match s with c :: s' => if decide (c = slash) then S (leading_slashes s') else 0 | [] => 0 end.
Definition trim_start_slash (s : str) : str :=
  if (2 <=? leading_slashes s)%nat then slash :: trim_start_matches s else s.

(** [s.rsplit_once('/')]: around the last separator. *)
Fixpoint rsplit_last (s : str) : option (str * str) :=
  match s with
  | [] => None
  | c :: s =>
      match rsplit_last s with
      | Some (a, b) => Some (c :: a, b)
      | None => if decide (c = slash) then Some ([], s) else None
      end
  end.
Definition rsplit_once (s : str) : comp (str * str) :=
  '(parent, child) ← unwrap (rsplit_last s);
  Done (if decide (parent = []) then [slash] else parent, child).

(** ** Names and normal paths *)

(** A name is what a directory entry can be called. *)
Definition is_name (p : str) : Prop := p ≠ [] ∧ slash ∉ p ∧ p ≠ dot ∧ p ≠ dotdot.
(** The pieces that [split] can give. *)
Definition is_piece (p : str) : Prop := p ≠ [] ∧ slash ∉ p.
Definition render (v : list str) : str := slash :: join v.
Definition normal (s : str) : Prop := ∃ v, Forall is_name v ∧ s = render v.

Lemma name_piece p : is_name p → is_piece p.
Proof. by intros (?&?&_). Qed.

Lemma split_nonempty s : split s ≠ [].
Proof. destruct s as [|c s]; simpl; [done|]. case_decide; [done|]. by destruct (split s). Qed.

Lemma split_piece p s : slash ∉ p → split (p ++ slash :: s) = p :: split s.
Proof.
  induction p as [|c p IH]; intros Hp; simpl; [done|].
  rewrite not_elem_of_cons in Hp. destruct Hp as [Hc Hp]. rewrite decide_False by congruence. by rewrite IH.
Qed.

Lemma split_last p : slash ∉ p → split p = [p].
Proof.
  induction p as [|c p IH]; intros Hp; simpl; [done|]. rewrite not_elem_of_cons in Hp. destruct Hp as [Hc Hp].
  rewrite decide_False by congruence. by rewrite IH.
Qed.

Lemma split_pieces s : Forall (λ p, slash ∉ p) (split s).
Proof.
  induction s as [|c s IH]; simpl; [repeat constructor; apply not_elem_of_nil|].
  case_decide as Hc; [constructor; [apply not_elem_of_nil|done]|].
  destruct (split s) as [|p ps]; [constructor; [|constructor]; apply not_elem_of_cons; split; [congruence|apply not_elem_of_nil]|].
  apply Forall_cons in IH as [Hp Hps]. constructor; [|done]. apply not_elem_of_cons. split; [congruence|done].
Qed.

Lemma path2vec_pieces s : Forall is_piece (path2vec s).
Proof.
  apply Forall_forall. intros p Hp. unfold path2vec in Hp. apply list_elem_of_filter in Hp as [Hne Hp].
  split; [done|]. pose proof (split_pieces s) as Hs. rewrite Forall_forall in Hs. by apply Hs.
Qed.

Lemma path2vec_join v : Forall is_piece v → path2vec (join v) = v.
Proof.
  induction 1 as [|p v [Hne Hs] Hv IH]; [done|]. destruct v as [|q v].
  - simpl. unfold path2vec. by rewrite split_last, filter_cons_True.
  - change (join (p :: q :: v)) with (p ++ slash :: join (q :: v)). unfold path2vec in *.
    by rewrite split_piece, filter_cons_True, IH.
Qed.

Lemma path2vec_render v : Forall is_piece v → path2vec (render v) = v.
Proof.
  intros Hv. rewrite <- (path2vec_join v Hv) at 2. unfold path2vec, render. done.
Qed.

Lemma pop_Forall {A} (P : A → Prop) v : Forall P v → Forall P (vec_drop_last v).
Proof. apply Forall_take. Qed.

Lemma push_names v e : Forall is_name v → is_piece e → Forall is_name (push_element v e).
Proof.
  intros Hv [Hne Hs]. unfold push_element. case_decide; [done|]. case_decide; [by apply pop_Forall|].
  apply Forall_app. split; [done|]. by repeat constructor.
Qed.

Lemma fold_names v ps : Forall is_name v → Forall is_piece ps → Forall is_name (foldl push_element v ps).
Proof. intros Hv Hps. revert v Hv. induction Hps as [|p ps Hp Hps IH]; intros v Hv; simpl; [done|]. apply IH. by apply push_names. Qed.

Lemma fold_push_names v ps : Forall is_name ps → foldl push_element v ps = v ++ ps.
Proof.
  revert v. induction ps as [|p ps IH]; intros v Hps; simpl; [by rewrite app_nil_r|].
  apply Forall_cons in Hps as [(Hne&_&Hd&Hdd) Hps]. unfold push_element at 2.
  rewrite !decide_False by done. rewrite IH by done. by rewrite <- app_assoc.
Qed.

Lemma render_abs v : is_abs_path (render v) = true.
Proof. reflexivity. Qed.

Lemma base_vec base v : Forall is_name v → base = render v →
  (if decide (base = [slash]) then [] else path2vec base) = v.
Proof.
  intros Hv ->. assert (path2vec (render v) = v) as E.
  { apply path2vec_render. eapply Forall_impl; [done|]. apply name_piece. }
  case_decide as Hd; [|done]. rewrite Hd in E. by rewrite <- E.
Qed.

(** Lexical resolution, the specification: walk down by names, stay at a dot,
    and go up, but not above the root, at two dots. *)
Fixpoint resolve (dir : list str) (ps : list str) : list str :=
  match ps with
  | [] => dir
  | p :: ps =>
      if decide (p = dot) then resolve dir ps
      else if decide (p = dotdot) then resolve (reverse (tail (reverse dir))) ps
      else resolve (dir ++ [p]) ps
  end.

Lemma pop_tail {A} (v : list A) : vec_drop_last v = reverse (tail (reverse v)).
Proof.
  destruct v as [|x v] using rev_ind; [done|]. unfold vec_drop_last. rewrite reverse_snoc, length_app. simpl.
  rewrite Nat.add_1_r. simpl. by rewrite take_app_length, reverse_involutive.
Qed.

Lemma fold_resolve v ps : foldl push_element v ps = resolve v ps.
Proof.
  revert v. induction ps as [|p ps IH]; intros v; simpl; [done|]. unfold push_element at 2.
  repeat case_decide; rewrite IH; [done|by rewrite pop_tail|done].
Qed.

(** [C40] Absolute paths are computed as their specification says: from a normal
    working directory the result is normal (it starts with a slash and its
    components are names, never empty, a dot or two dots), its components are
    those of lexical resolution, and resolving it again, from anywhere,
    changes nothing. *)
Theorem abs_path_normal (base path : str) (v : list str) :
  Forall is_name v → base = render v →
  let w := if is_abs_path path then [] else v in
  normal (get_abs_path base path) ∧
  path2vec (get_abs_path base path) = resolve w (path2vec path) ∧
  ∀ base', get_abs_path base' (get_abs_path base path) = get_abs_path base path.
Proof.
  intros Hv Hb w. assert (get_abs_path base path = render (resolve w (path2vec path))) as Hg.
  { unfold get_abs_path, path2abs. subst w. destruct (is_abs_path path).
    - by rewrite fold_resolve.
    - by rewrite (base_vec base v Hv Hb), fold_resolve. }
  assert (Forall is_name (resolve w (path2vec path))) as Hn.
  { rewrite <- fold_resolve. apply fold_names; [subst w; by destruct (is_abs_path path)|apply path2vec_pieces]. }
  assert (path2vec (render (resolve w (path2vec path))) = resolve w (path2vec path)) as Hpv.
  { apply path2vec_render. eapply Forall_impl; [done|]. apply name_piece. }
  rewrite Hg. split; [by eexists|]. split; [done|]. intros base'.
  unfold get_abs_path. rewrite render_abs, Hpv. unfold path2abs. by rewrite fold_push_names.
Qed.

(** The path of a directory [/a] and the relative path [../b]. *)
Definition demo_base : str := [slash; "a"%char].
Definition demo_path : str := ["."%char; "."%char; slash; "b"%char].

Lemma abs_path_normal_witness :
  normal (get_abs_path demo_base demo_path) ∧ get_abs_path demo_base demo_path = [slash; "b"%char].
Proof.
  destruct (abs_path_normal demo_base demo_path [["a"%char]]) as (Hn&_); [|reflexivity|].
  - repeat constructor; try discriminate. intros [Ha|Ha]%elem_of_cons; [discriminate|by apply elem_of_nil in Ha].
  - split; [exact Hn|reflexivity].
Defined.

(** ** Parent and child *)

Lemma rsplit_last_none p : slash ∉ p → rsplit_last p = None.
Proof.
  induction p as [|c p IH]; intros Hp; simpl; [done|]. rewrite not_elem_of_cons in Hp. destruct Hp as [Hc Hp].
  rewrite IH by done. by rewrite decide_False by congruence.
Qed.

Lemma rsplit_last_app a b : slash ∉ b → rsplit_last (a ++ slash :: b) = Some (a, b).
Proof.
  intros Hb. induction a as [|c a IH]; simpl; [by rewrite rsplit_last_none|]. by rewrite IH.
Qed.

Lemma join_snoc v p : v ≠ [] → join (v ++ [p]) = join v ++ slash :: p.
Proof.
  induction v as [|q v IH]; [done|]. intros _. destruct v as [|r v]; [done|].
  change (join ((q :: r :: v) ++ [p])) with (q ++ slash :: join ((r :: v) ++ [p])). rewrite IH by done.
  change (join (q :: r :: v)) with (q ++ slash :: join (r :: v)). by rewrite <- app_assoc.
Qed.

(** Splitting a normal path into parent and name and putting them together
    is the identity: [rsplit_once] never panics on the path of an entry below the
    root, its parent is normal, its second part is the name, and
    [get_abs_path] of the two gives the path back. *)
Theorem parent_child_round_trip (v : list str) (p : str) :
  Forall is_name v → is_name p →
  rsplit_once (render (v ++ [p])) = Done (render v, p) ∧ get_abs_path (render v) p = render (v ++ [p]).
Proof.
  intros Hv Hp. split.
  - assert (rsplit_last (render (v ++ [p])) = Some (if decide (v = []) then [] else render v, p)) as E.
    { unfold render. case_decide as Hd; [subst v; apply (rsplit_last_app [] p), Hp|]. rewrite join_snoc by done.
      apply (rsplit_last_app (slash :: join v) p), Hp. }
    unfold rsplit_once. rewrite E. cbn [unwrap mbind comp_bind]. do 2 f_equal. case_decide as Hd; [by subst v|].
    by rewrite decide_False.
  - unfold get_abs_path. destruct Hp as (Hne&Hs&Hd&Hdd). destruct p as [|c p]; [done|].
    simpl is_abs_path. rewrite bool_decide_eq_false_2 by (rewrite not_elem_of_cons in Hs; naive_solver).
    rewrite (base_vec (render v) v Hv eq_refl). unfold path2abs, path2vec. rewrite split_last by done.
    rewrite filter_cons_True by done. simpl. unfold push_element. by rewrite !decide_False.
Qed.

Lemma parent_child_round_trip_witness :
  rsplit_once (render [["a"%char]; ["b"%char]]) = Done (render [["a"%char]], ["b"%char]).
Proof.
  apply (parent_child_round_trip [["a"%char]] ["b"%char]); repeat constructor; try discriminate;
    intros [Ha|Ha]%elem_of_cons; try discriminate; by apply elem_of_nil in Ha.
Defined.
