(* ===== verification/Timers.v ===== *)
(** * Time values and timers

    [timer/timespec.rs], [timer/timeval.rs], [timer/mod.rs], [timer/itimerval.rs],
    [timer/timedata.rs] and [timer/timer_condvar.rs]: arithmetic of the two time
    formats, the clocks derived from the tick counter, interval timers, and the
    heap of deadlines.

    The tick counter and the clock frequency are arguments.  Fields of the time
    structures are [usize]; the kernel does not require them to be normalised. *)

From S2P Require Import Prelude.

Definition NSEC_PER_SEC : Z := 1000000000.
Definition NSEC_PER_USEC : Z := 1000.
Definition NANOS_PER_SEC : Z := 1000000000.
Definition USEC_PER_SEC : Z := 1000000.
Definition MSEC_PER_SEC : Z := 1000.
Definition TICKS_PER_SEC : Z := 100.
Definition TIMER_INTERVAL_MS : Z := MSEC_PER_SEC / TICKS_PER_SEC.
Definition NOW_TIME_STAMP : Z := 1777593600.

(** ** [struct timespec] *)

Record Timespec : Type := mkTs { tv_sec : Z; tv_nsec : Z }.
(** [core::time::Duration]; its nanoseconds are below one second. *)
Record Duration : Type := mkDur { as_secs : Z; subsec_nanos : Z }.

(** [Duration::new(secs, nanos)] panics if the carry overflows. *)
Definition duration_new (secs nanos : Z) : comp Duration :=
  s ← unwrap (checked_add secs (nanos / NANOS_PER_SEC));
  Done (mkDur s (nanos mod NANOS_PER_SEC)).
Definition to_duration (ts : Timespec) : comp Duration :=
  duration_new (tv_sec ts) (tv_nsec ts mod 4294967296).
Definition from_duration (d : Duration) : Timespec := mkTs (as_secs d) (subsec_nanos d).

Definition ts_add_duration (ts : Timespec) (d : Duration) : Timespec :=
  let sec := wrap64 (tv_sec ts + as_secs d) in
  let nsec := wrap64 (tv_nsec ts + subsec_nanos d) in
  if 1000000000 <=? nsec then mkTs (wrap64 (sec + 1)) (nsec - 1000000000) else mkTs sec nsec.

Definition to_tick (clock_freq : Z) (ts : Timespec) : Z :=
  wrap64 (wrap64 (tv_sec ts * clock_freq) + wrap64 (tv_nsec ts * clock_freq) / NSEC_PER_SEC).

Definition from_nanos (nanos : Z) : Timespec := mkTs (nanos / NANOS_PER_SEC) (nanos mod NANOS_PER_SEC).
Definition from_micros (micros : Z) : Timespec :=
  mkTs (micros / USEC_PER_SEC) ((micros mod USEC_PER_SEC) * NSEC_PER_USEC).

Definition ts_add (a b : Timespec) : Timespec :=
  let nsec := wrap64 (tv_nsec a + tv_nsec b) in
  mkTs (wrap64 (wrap64 (tv_sec a + tv_sec b) + nsec / 1000000000)) (nsec mod 1000000000).

(** [a <= b]: seconds first, then nanoseconds. *)
Definition ts_le (a b : Timespec) : bool :=
  (tv_sec a <? tv_sec b) || ((tv_sec a =? tv_sec b) && (tv_nsec a <=? tv_nsec b)).

(** ** [struct timeval] *)

Record TimeVal : Type := mkTv { tm_sec : Z; tm_usec : Z }.

Definition tv_now (time_ms : Z) : TimeVal := mkTv (time_ms / 1000) ((time_ms mod 1000) * 1000).
Definition tv_is_empty (t : TimeVal) : bool := (tm_sec t =? 0) && (tm_usec t =? 0).
Definition tv_le (a b : TimeVal) : bool :=
  (tm_sec a <? tm_sec b) || ((tm_sec a =? tm_sec b) && (tm_usec a <=? tm_usec b)).
Definition tv_saturating_sub (a b : TimeVal) : TimeVal :=
  if tv_le a b then mkTv 0 0
  else if tm_usec b <=? tm_usec a
  then mkTv (wrap64 (tm_sec a - tm_sec b)) (tm_usec a - tm_usec b)
  else mkTv (wrap64 (wrap64 (tm_sec a - tm_sec b) - 1)) (wrap64 (wrap64 (tm_usec a + USEC_PER_SEC) - tm_usec b)).
Definition tv_add (a b : TimeVal) : TimeVal :=
  let usec := wrap64 (tm_usec a + tm_usec b) in
  mkTv (wrap64 (wrap64 (tm_sec a + tm_sec b) + usec / USEC_PER_SEC)) (usec mod USEC_PER_SEC).

(** ** Clocks *)

(** Division of unsigned integers panics when the divisor is zero. *)
Definition div_or_panic (a b : Z) : comp Z := if b =? 0 then Panic else Done (a / b).

Definition get_time_ms (clock_freq ticks : Z) : comp Z := div_or_panic ticks (clock_freq / MSEC_PER_SEC).
Definition get_time_ns (clock_freq ticks : Z) : comp Z :=
  ns ← div_or_panic (ticks * NANOS_PER_SEC) clock_freq; Done (wrap64 ns).
(** [offset] is [CLOCK_REALTIME_OFFSET]. *)
Definition realtime_nanos (time_ns offset : Z) : Z :=
  let nanos := time_ns + NOW_TIME_STAMP * NANOS_PER_SEC + offset * NANOS_PER_SEC in
  if nanos <=? 0 then 0 else if usize_max <? nanos then usize_max else nanos.
Definition realtime (time_ns offset : Z) : Timespec := from_nanos (realtime_nanos time_ns offset).
Definition get_time_spec (time_ms : Z) : Timespec := mkTs (time_ms / 1000) ((time_ms mod 1000) * 1000000).

Definition calculate_left_timespec (nowtime endtime : Timespec) : Timespec :=
  let nsec := to_i64 (to_i64 (tv_nsec endtime) - to_i64 (tv_nsec nowtime)) in
  let '(endsec, nsec) :=
    if nsec <? 0 then (wrap64 (tv_sec endtime - 1), to_i64 (nsec + 1000000000)) else (tv_sec endtime, nsec) in
  mkTs (wrap64 (endsec - tv_sec nowtime)) (wrap64 nsec).

(** One pass of timer maintenance per 10 ms, by one hart at a time. *)
Record Maintenance : Type := mkMaint { maint_active : bool; last_tick : Z }.
Definition claim_global_timer_maintenance (m : Maintenance) (time_ms : Z) : Maintenance * bool :=
  if maint_active m then (m, false)
  else
    let tick := time_ms / TIMER_INTERVAL_MS in
    if last_tick m =? tick then (mkMaint false (last_tick m), false) else (mkMaint true tick, true).
(** [Drop for GlobalTimerMaintenanceGuard]. *)
Definition drop_guard (m : Maintenance) : Maintenance := mkMaint false (last_tick m).

(** ** CPU time of a thread *)

Record TimeData : Type := mkTd { utime : Z; stime : Z; cutime : Z; cstime : Z; cmaxrss : Z; lasttime : Z }.
Definition td_new (time_ms : Z) : TimeData := mkTd 0 0 0 0 0 (to_i64 time_ms).
Definition update_utime (d : TimeData) (time_ms : Z) : TimeData :=
  let now := to_i64 time_ms in
  mkTd (to_i64 (utime d + to_i64 (now - lasttime d))) (stime d) (cutime d) (cstime d) (cmaxrss d) now.
Definition update_stime (d : TimeData) (time_ms : Z) : TimeData :=
  let now := to_i64 time_ms in
  mkTd (utime d) (to_i64 (stime d + to_i64 (now - lasttime d))) (cutime d) (cstime d) (cmaxrss d) now.
Definition td_clear (d : TimeData) (time_ms : Z) : TimeData := mkTd 0 0 0 0 0 (to_i64 time_ms).

(** ** Interval timers *)

Record Itimerval : Type := mkItv { it_interval : TimeVal; it_value : TimeVal }.
Record TimerInner : Type := mkTimer { itimer : Itimerval; last_time : TimeVal }.

Definition timer_new : TimerInner := mkTimer (mkItv (mkTv 0 0) (mkTv 0 0)) (mkTv 0 0).
(** [Timer::timer], what [getitimer] reports. *)
Definition timer_get (t : TimerInner) (now : TimeVal) : Itimerval :=
  let v := it_value (itimer t) in
  if negb (tv_is_empty v)
  then mkItv (it_interval (itimer t)) (tv_saturating_sub v (tv_saturating_sub now (last_time t)))
  else itimer t.
Definition set_itimer (t : TimerInner) (new : Itimerval) (now : TimeVal) : TimerInner := mkTimer new now.
Definition take_expired_signal (t : TimerInner) (now : TimeVal) : TimerInner * bool :=
  let v := it_value (itimer t) in
  let i := it_interval (itimer t) in
  if tv_is_empty v then (t, false)
  else if tv_le now (tv_add (last_time t) v) then (t, false)
  else if tv_is_empty i then (mkTimer (mkItv i (mkTv 0 0)) (last_time t), true)
  else (mkTimer (mkItv i i) now, true).

(** ** The heap of deadlines *)

Inductive TimerType : Type := TimerFutex | TimerStoppedTask | TimerSigTimedWait.
(** A weak reference to a task is its number. *)
Record TimerCondVar : Type := mkTimerCv { expire : Timespec; timer_task : Z; timer_kind : TimerType; extra_data : Z }.

Section heap.
(** What the expiry of a timer does: whether the task still exists, and the
    handlers of [task/futex.rs]. *)
Context {St : Type} (upgrade : St → Z → bool) (handle_timer : St → Z → Z → comp St).
Context (handle_sigtimedwait_timer : St → Z → St).
Context (clock_freq : Z).
Implicit Types (st : St) (timers : list TimerCondVar).

Definition add_futex_timer timers (expire : Timespec) (task futex_key : Z) : list TimerCondVar :=
  mkTimerCv expire task TimerFutex futex_key :: timers.
Definition add_stopped_task_timer timers (expire : Timespec) (task : Z) : list TimerCondVar :=
  mkTimerCv expire task TimerStoppedTask 0 :: timers.
Definition add_sigtimedwait_timer timers (expire : Timespec) (task : Z) : list TimerCondVar :=
  mkTimerCv expire task TimerSigTimedWait 0 :: timers.

(** [Ord for TimerCondVar], reversed: the heap's top has the least tick.  Which
    of several with the same tick is on top is not specified by the heap. *)
Definition timer_le (a b : TimerCondVar) : bool :=
  to_tick clock_freq (expire a) <=? to_tick clock_freq (expire b).

(** The body of the loop for one expired timer; [todo!()] panics. *)
Definition fire_timer st (t : TimerCondVar) : comp St :=
  if upgrade st (timer_task t) then
    match timer_kind t with
    | TimerFutex => handle_timer st (timer_task t) (extra_data t)
    | TimerSigTimedWait => Done (handle_sigtimedwait_timer st (timer_task t))
    | TimerStoppedTask => Panic
    end
  else Done st.

(** The loop; every round removes a timer, so [fuel] is their number. *)
Fixpoint check_timers_loop (fuel : nat) st timers (current : Timespec) : comp (St * list TimerCondVar) :=
  match fuel with
  | O => Done (st, timers)
  | S fuel =>
      match pop_least timer_le timers with
      | None => Done (st, timers)
      | Some (t, rest) =>
          if ts_le (expire t) current then st ← fire_timer st t; check_timers_loop fuel st rest current
          else Done (st, timers)
      end
  end.
Definition check_futex_timer st timers (current : Timespec) : comp (St * list TimerCondVar) :=
  check_timers_loop (length timers) st timers current.
End heap.

(** ** Exactness of the arithmetic *)

Definition ts_ns (t : Timespec) : Z := tv_sec t * NANOS_PER_SEC + tv_nsec t.
Definition tv_us (t : TimeVal) : Z := tm_sec t * USEC_PER_SEC + tm_usec t.
(** Times that are normalised and below [2 ^ 40] seconds. *)
Definition ts_ok (t : Timespec) : Prop := 0 ≤ tv_sec t < 2 ^ 40 ∧ 0 ≤ tv_nsec t < NANOS_PER_SEC.
Definition tv_ok (t : TimeVal) : Prop := 0 ≤ tm_sec t < 2 ^ 40 ∧ 0 ≤ tm_usec t < USEC_PER_SEC.

Ltac time_crush :=
  unfold ts_ok, tv_ok, ts_ns, tv_us, NANOS_PER_SEC, USEC_PER_SEC, NSEC_PER_SEC, is_usize, usize_max, wrap64 in *;
  simpl in *; Z.to_euclidean_division_equations; lia.

Lemma tv_le_us a b : tv_ok a → tv_ok b → tv_le a b = (tv_us a <=? tv_us b).
Proof. intros. unfold tv_le. apply eq_bool_prop_intro. rewrite !Is_true_true. unfold tv_ok, tv_us, USEC_PER_SEC in *. lia. Qed.

Lemma tv_empty_us t : tv_ok t → tv_is_empty t = (tv_us t =? 0).
Proof. intros. unfold tv_is_empty. apply eq_bool_prop_intro. rewrite !Is_true_true. unfold tv_ok, tv_us, USEC_PER_SEC in *. lia. Qed.

Lemma tv_add_us a b : tv_ok a → tv_ok b →
  tv_us (tv_add a b) = tv_us a + tv_us b ∧ 0 ≤ tm_usec (tv_add a b) < USEC_PER_SEC.
Proof. intros. unfold tv_add. split; time_crush. Qed.

Lemma tv_sub_us a b : tv_ok a → tv_ok b →
  tv_us (tv_saturating_sub a b) = Z.max 0 (tv_us a - tv_us b) ∧ tv_ok (tv_saturating_sub a b).
Proof.
  intros Ha Hb. unfold tv_saturating_sub. rewrite tv_le_us by done.
  destruct (Z.leb_spec (tv_us a) (tv_us b)); [split; time_crush|].
  destruct (Z.leb_spec (tm_usec b) (tm_usec a)); split; time_crush.
Qed.

Lemma tv_add_le now a b : tv_ok now → tv_ok a → tv_ok b →
  tv_le now (tv_add a b) = (tv_us now <=? tv_us a + tv_us b).
Proof.
  intros Hn Ha Hb. destruct (tv_add_us a b Ha Hb) as [<- Hu]. unfold tv_le.
  apply eq_bool_prop_intro. rewrite !Is_true_true. unfold tv_ok, tv_us, USEC_PER_SEC in *. lia.
Qed.

(** [ts_add] and [from_nanos] are exact, and normalise. *)
Lemma ts_add_ns a b : ts_ok a → ts_ok b →
  ts_ns (ts_add a b) = ts_ns a + ts_ns b ∧ 0 ≤ tv_nsec (ts_add a b) < NANOS_PER_SEC.
Proof. intros. unfold ts_add. split; time_crush. Qed.

Lemma from_nanos_ns n : ts_ns (from_nanos n) = n ∧ 0 ≤ tv_nsec (from_nanos n) < NANOS_PER_SEC.
Proof. unfold from_nanos. split; time_crush. Qed.

Lemma to_i64_id z : is_i64 z → to_i64 z = z.
Proof.
  unfold is_i64, to_i64, wrap64, i64_min, i64_max. intros Hz.
  destruct (Z.ltb_spec (z mod 18446744073709551616) 9223372036854775808); Z.to_euclidean_division_equations; lia.
Qed.

Lemma calculate_left_ns now fin : ts_ok now → ts_ok fin → ts_ns now ≤ ts_ns fin →
  ts_ns (calculate_left_timespec now fin) = ts_ns fin - ts_ns now ∧ ts_ok (calculate_left_timespec now fin).
Proof.
  intros Hn Hf Hle. unfold calculate_left_timespec.
  rewrite !to_i64_id by
    (unfold ts_ok, is_i64, i64_min, i64_max, NANOS_PER_SEC in *; rewrite ?to_i64_id;
     unfold is_i64, i64_min, i64_max; lia).
  destruct (Z.ltb_spec (tv_nsec fin - tv_nsec now) 0); split; time_crush.
Qed.

(** ** Interval timers against a specification by deadlines *)

(** The polls at which a timer fires. *)
Fixpoint firings (t : TimerInner) (polls : list TimeVal) : list TimeVal :=
  match polls with
  | [] => []
  | now :: polls => let '(t, b) := take_expired_signal t now in
                    if b then now :: firings t polls else firings t polls
  end.

(** In microseconds: the first poll after the deadline fires; a periodic timer
    starts again from that poll, a single-shot timer is over. *)
Fixpoint due (deadline interval : Z) (polls : list Z) : list Z :=
  match polls with
  | [] => []
  | now :: polls =>
      if deadline <? now then now :: (if interval =? 0 then [] else due (now + interval) interval polls)
      else due deadline interval polls
  end.

Lemma firings_empty t polls : tv_is_empty (it_value (itimer t)) = true → firings t polls = [].
Proof. intros He. induction polls as [|now polls IH]; simpl; [done|]. unfold take_expired_signal. by rewrite He. Qed.

(** Interval timers behave as their specification by deadlines: after
    [setitimer] with a non-zero value, whatever the times at which the timer is
    polled, it fires at exactly the polls that [due] gives: at the first poll
    after the deadline, then, if it has an interval, at the first poll more
    than one interval after the previous one, and never again if it has not.
    In between, [getitimer] reports the time that is left. *)
Theorem itimer_due (t0 : TimerInner) (new : Itimerval) (start : TimeVal) (polls : list TimeVal) :
  tv_ok (it_value new) → tv_ok (it_interval new) → tv_ok start → Forall tv_ok polls →
  tv_us (it_value new) ≠ 0 →
  tv_us <$> firings (set_itimer t0 new start) polls =
    due (tv_us start + tv_us (it_value new)) (tv_us (it_interval new)) (tv_us <$> polls) ∧
  ∀ now, tv_ok now →
    tv_us (it_value (timer_get (set_itimer t0 new start) now)) =
      Z.max 0 (tv_us (it_value new) - Z.max 0 (tv_us now - tv_us start)).
Proof.
  intros Hv Hi Hs Hp Hne. unfold set_itimer. split.
  - revert start new Hv Hi Hs Hne. induction Hp as [|now polls Hnow Hp IH]; intros start new Hv Hi Hs Hne; [done|].
    cbn [firings fmap list_fmap due]. unfold take_expired_signal at 1. cbn [itimer last_time].
    rewrite tv_empty_us by done. rewrite (proj2 (Z.eqb_neq _ _) Hne). rewrite tv_add_le by done.
    rewrite Z.leb_antisym. destruct (Z.ltb_spec (tv_us start + tv_us (it_value new)) (tv_us now)); cbn [negb].
    2: { apply IH; done. }
    rewrite tv_empty_us by done. destruct (Z.eqb_spec (tv_us (it_interval new)) 0) as [E|Hni].
    + rewrite firings_empty by done. done.
    + cbn [fmap list_fmap]. f_equal. apply (IH now (mkItv (it_interval new) (it_interval new))); done.
  - intros now Hnow. unfold timer_get. cbn [itimer last_time]. rewrite tv_empty_us by done.
    rewrite (proj2 (Z.eqb_neq _ _) Hne). cbn [negb it_value].
    destruct (tv_sub_us now start Hnow Hs) as [E Ho]. destruct (tv_sub_us (it_value new) _ Hv Ho) as [-> _]. by rewrite E.
Qed.

(** One second, then every half second, polled every 700 ms. *)
Lemma itimer_due_witness :
  tv_us <$> firings (set_itimer timer_new (mkItv (mkTv 0 500000) (mkTv 1 0)) (mkTv 5 0))
              [mkTv 5 700000; mkTv 6 400000; mkTv 7 100000; mkTv 7 300000] = [6400000; 7100000].
Proof.
  rewrite (proj1 (itimer_due timer_new (mkItv (mkTv 0 500000) (mkTv 1 0)) (mkTv 5 0)
    [mkTv 5 700000; mkTv 6 400000; mkTv 7 100000; mkTv 7 300000]
    ltac:(unfold tv_ok; simpl; unfold USEC_PER_SEC; lia) ltac:(unfold tv_ok; simpl; unfold USEC_PER_SEC; lia)
    ltac:(unfold tv_ok; simpl; unfold USEC_PER_SEC; lia)
    ltac:(repeat constructor; unfold USEC_PER_SEC; simpl; lia) ltac:(discriminate))).
  reflexivity.
Defined.

(** ** The deadline heap *)

Section heap_proofs.
Context {St : Type} (upgrade : St → Z → bool) (handle_timer : St → Z → Z → comp St).
Context (handle_sigtimedwait_timer : St → Z → St) (clock_freq : Z).
Implicit Types (st : St) (timers : list TimerCondVar).

Local Notation fire := (fire_timer upgrade handle_timer handle_sigtimedwait_timer).
Local Notation tick := (to_tick clock_freq).

Fixpoint fire_all st timers : comp St :=
  match timers with [] => Done st | t :: timers => st ← fire st t; fire_all st timers end.

Lemma timer_le_total a b : timer_le clock_freq a b = true ∨ timer_le clock_freq b a = true.
Proof. unfold timer_le. lia. Qed.
Lemma timer_le_trans a b c :
  timer_le clock_freq a b = true → timer_le clock_freq b c = true → timer_le clock_freq a c = true.
Proof. unfold timer_le. lia. Qed.

(** A deadline whose tick count fits a machine word. *)
Definition tick_fits (t : Timespec) : Prop :=
  0 ≤ tv_sec t ∧ 0 ≤ tv_nsec t < NANOS_PER_SEC ∧ (tv_sec t + 1) * clock_freq ≤ usize_max ∧
  NANOS_PER_SEC * clock_freq ≤ usize_max.

Lemma to_tick_fits t : 0 < clock_freq → tick_fits t → tick t = ts_ns t * clock_freq / NANOS_PER_SEC.
Proof.
  intros Hf (Hs&Hn&Hm&Hnf). unfold to_tick, ts_ns, NSEC_PER_SEC, NANOS_PER_SEC in *.
  assert (0 ≤ tv_nsec t * clock_freq / 1000000000 < clock_freq) as Hd.
  { split; [apply Z.div_pos; nia|]. apply Z.div_lt_upper_bound; nia. }
  rewrite (wrap64_small (tv_sec t * clock_freq)), (wrap64_small (tv_nsec t * clock_freq)) by (unfold is_usize; nia).
  rewrite wrap64_small by (unfold is_usize; nia).
  replace ((tv_sec t * 1000000000 + tv_nsec t) * clock_freq)
    with (tv_nsec t * clock_freq + (tv_sec t * clock_freq) * 1000000000) by ring.
  rewrite Z.div_add by lia. ring.
Qed.

Lemma tick_mono a b : 0 < clock_freq → tick_fits a → tick_fits b → ts_ns a ≤ ts_ns b → tick a ≤ tick b.
Proof. intros Hf Ha Hb Hle. rewrite !to_tick_fits by done. apply Z.div_le_mono; [done|nia]. Qed.

Lemma ts_le_ns a b : tick_fits a → tick_fits b → ts_le a b = (ts_ns a <=? ts_ns b).
Proof.
  intros (?&?&_) (?&?&_). unfold ts_le. apply eq_bool_prop_intro. rewrite !Is_true_true.
  unfold ts_ns, NANOS_PER_SEC in *. lia.
Qed.


Lemma check_timers_spec n st timers current :
  0 < clock_freq → tick_fits current → Forall (λ t, tick_fits (expire t)) timers → length timers = n →
  ∃ fired rest, timers ≡ₚ fired ++ rest ∧
    check_timers_loop upgrade handle_timer handle_sigtimedwait_timer clock_freq n st timers current =
      (st' ← fire_all st fired; Done (st', rest)) ∧
    StronglySorted (λ a b, tick (expire a) ≤ tick (expire b)) fired ∧
    (∀ t, t ∈ fired → ts_ns (expire t) ≤ ts_ns current) ∧
    (∀ t, t ∈ rest → tick current ≤ tick (expire t)).
Proof.
  intros Hf Hc. revert st timers. induction n as [|n IH]; intros st timers Hall Hn.
  { apply length_zero_iff_nil in Hn as ->. exists [], []. repeat split; try done; [constructor|set_solver..]. }
  cbn [check_timers_loop]. destruct (pop_least (timer_le clock_freq) timers) as [[t rest]|] eqn:Ep.
  2: { apply pop_least_None in Ep. by subst. }
  apply pop_least_Some in Ep as [Hp Hmin]; [|exact timer_le_total|exact timer_le_trans].
  assert (tick_fits (expire t) ∧ Forall (λ t, tick_fits (expire t)) rest ∧ length rest = n) as (Ht&Hr&Hl).
  { rewrite Hp in Hall, Hn. apply Forall_cons in Hall as [? ?]. simpl in Hn. split; [done|]. split; [done|lia]. }
  assert (∀ x, x ∈ timers → tick (expire t) ≤ tick (expire x)) as Hmr by (intros x Hx; by apply Z.leb_le, (Hmin x)).
  rewrite ts_le_ns by done. destruct (Z.leb_spec (ts_ns (expire t)) (ts_ns current)) as [Hle|Hgt].
  - destruct (fire st t) as [st1|] eqn:Ef.
    + destruct (IH st1 rest Hr Hl) as (fired&rest'&Hp'&He&Hs&Hfi&Hre). exists (t :: fired), rest'.
      split; [by rewrite Hp, Hp'|]. cbn [fire_all]. rewrite Ef. cbn [mbind comp_bind]. split; [exact He|].
      split; [constructor; [done|]; apply Forall_forall; intros x Hx; apply Hmr; rewrite Hp, Hp'; set_solver|].
      split; [intros x [->|Hx]%elem_of_cons; auto|done].
    + destruct (IH st rest Hr Hl) as (fired&rest'&Hp'&He&Hs&Hfi&Hre). exists (t :: fired), rest'.
      split; [by rewrite Hp, Hp'|]. cbn [fire_all]. rewrite Ef. cbn [mbind comp_bind]. split; [done|].
      split; [constructor; [done|]; apply Forall_forall; intros x Hx; apply Hmr; rewrite Hp, Hp'; set_solver|].
      split; [intros x [->|Hx]%elem_of_cons; auto|done].
  - exists [], timers. split; [done|]. split; [done|]. split; [constructor|]. split; [set_solver|].
    intros x Hx. etrans; [|apply Hmr, Hx]. apply tick_mono; [done..|lia].
Qed.
End heap_proofs.

(** Maintenance of the deadline heap: if the ticks of all deadlines fit a
    machine word, one call fires, in the order of their ticks, a set of timers
    whose deadlines have passed, and leaves exactly the others, none of which
    has a tick before the current one; it panics only if a handler does. *)
Theorem timers_fire_due {St} (upgrade : St → Z → bool) (handle_timer : St → Z → Z → comp St)
    (handle_sigtimedwait_timer : St → Z → St) (clock_freq : Z) (st : St) (timers : list TimerCondVar)
    (current : Timespec) :
  0 < clock_freq → tick_fits clock_freq current → Forall (λ t, tick_fits clock_freq (expire t)) timers →
  ∃ fired rest, timers ≡ₚ fired ++ rest ∧
    check_futex_timer upgrade handle_timer handle_sigtimedwait_timer clock_freq st timers current =
      (st' ← fire_all upgrade handle_timer handle_sigtimedwait_timer st fired; Done (st', rest)) ∧
    StronglySorted (λ a b, to_tick clock_freq (expire a) ≤ to_tick clock_freq (expire b)) fired ∧
    (∀ t, t ∈ fired → ts_ns (expire t) ≤ ts_ns current) ∧
    (∀ t, t ∈ rest → to_tick clock_freq current ≤ to_tick clock_freq (expire t)).
Proof. intros Hf Hc Hall. by apply check_timers_spec. Qed.

(** The clock of the QEMU board, and two timers at one and three seconds. *)
Definition demo_freq : Z := 10000000.
Definition demo_timers : list TimerCondVar :=
  [mkTimerCv (mkTs 3 0) 1 TimerFutex 7; mkTimerCv (mkTs 1 0) 2 TimerFutex 8].

Lemma timers_fire_due_witness :
  ∃ fired rest, demo_timers ≡ₚ fired ++ rest ∧
    check_futex_timer (λ _ _, true) (λ l _ k, Done (k :: l)) (λ l _, l) demo_freq [] demo_timers (mkTs 2 0) =
      (st' ← fire_all (λ _ _, true) (λ l _ k, Done (k :: l)) (λ l _, l) [] fired; Done (st', rest)).
Proof.
  destruct (timers_fire_due (λ _ _, true) (λ l _ k, Done (k :: l)) (λ l _, l) demo_freq [] demo_timers (mkTs 2 0))
    as (fired&rest&Hp&He&_).
  - reflexivity.
  - unfold tick_fits, demo_freq, NANOS_PER_SEC, usize_max. simpl. lia.
  - repeat constructor; unfold tick_fits, demo_freq, NANOS_PER_SEC, usize_max; simpl; lia.
  - exists fired, rest. split; [exact Hp|exact He].
Defined.

(** A deadline in the far future stops all others: its tick count wraps
    around to a small number, so it is at the top of the heap, and it has not
    expired.  Here one thread waits for [2 ^ 64 / 10^7] seconds; the timer of
    the other, due after one second, is never looked at while the machine is
    up for less than that. *)
Theorem far_deadline_blocks_timers (current : Timespec) :
  tv_sec current < 1844674407371 →
  let far := mkTimerCv (mkTs 1844674407371 0) 1 TimerFutex 7 in
  let near := mkTimerCv (mkTs 1 0) 2 TimerFutex 8 in
  check_futex_timer (λ (_ : list Z) _, true) (λ l _ k, Done (k :: l)) (λ l _, l) demo_freq [] [near; far] current =
    Done ([], [near; far]).
Proof.
  intros Hc far near. unfold check_futex_timer. cbn [length check_timers_loop].
  assert (pop_least (timer_le demo_freq) [near; far] = Some (far, [near])) as -> by reflexivity.
  assert (ts_le (expire far) current = false) as ->; [|done].
  unfold ts_le. cbn [expire far tv_sec]. lia.
Qed.

Lemma far_deadline_blocks_timers_witness :
  ts_le (mkTs 1 0) (mkTs 100 0) = true ∧
  check_futex_timer (λ (_ : list Z) _, true) (λ l _ k, Done (k :: l)) (λ l _, l) demo_freq []
    [mkTimerCv (mkTs 1 0) 2 TimerFutex 8; mkTimerCv (mkTs 1844674407371 0) 1 TimerFutex 7] (mkTs 100 0) =
  Done ([], [mkTimerCv (mkTs 1 0) 2 TimerFutex 8; mkTimerCv (mkTs 1844674407371 0) 1 TimerFutex 7]).
Proof. split; [reflexivity|]. apply (far_deadline_blocks_timers (mkTs 100 0)). simpl. lia. Defined.
