(* ===== verification/Futex.v ===== *)
(** * Futexes

    [task/futex.rs] and the wake-up primitives of [task/manager.rs]: queues of
    waiters by key, wait, wake, requeue, time-out, the robust list, and the
    decoding of [futex(2)].

    A task is known by its number; a waiter's weak reference upgrades as long as
    the task is in [fx_tasks].  Of a task's signals only whether one is pending
    and not masked matters here.  The parts of [futex_wait_bitset] that hold no
    common lock are separate steps of [futex_step], which interleave with those
    of other threads and with the stores of user programs. *)

From S2P Require Import Prelude Errno Wake Timers.

Definition FUTEX_WAITERS : Z := 2147483648.
Definition FUTEX_OWNER_DIED : Z := 1073741824.
Definition FUTEX_TID_MASK : Z := 1073741823.
Definition ROBUST_LIST_LIMIT : nat := 2048.
Definition u32_max : Z := 4294967295.

Record FutexWaiter : Type := mkWaiter { w_task : Z; w_bitset : Z; w_key : Z }.

(** The fields of [TaskControlBlockInner] that futexes use; [ft_signalled] is
    [!sig_pending.difference(sig_mask).is_empty()]. *)
Record FutexTask : Type := mkFt {
  ft_status : TaskStatus; futex_key : Z; futex_pa : Z; futex_timedout : bool;
  ft_signalled : bool; sigtimedwait_timedout : bool }.

(** [FUTEX_QUEUE_BITMAP], [FUTEX_QUEUE_VERSION], [FUTEX_KEY_COUNTER], the tasks,
    and the tasks handed to [ready_queue::add_task]. *)
Record FutexState : Type := mkFx {
  fx_queues : gmap Z (list FutexWaiter); fx_version : Z; fx_counter : Z;
  fx_tasks : gmap Z FutexTask; fx_ready : list Z }.

Definition fx_set_queues (st : FutexState) (q : gmap Z (list FutexWaiter)) : FutexState :=
  mkFx q (fx_version st) (fx_counter st) (fx_tasks st) (fx_ready st).
Definition fx_set_task (st : FutexState) (t : Z) (tk : FutexTask) : FutexState :=
  mkFx (fx_queues st) (fx_version st) (fx_counter st) (<[t := tk]> (fx_tasks st)) (fx_ready st).
Definition fx_add_ready (st : FutexState) (t : Z) : FutexState :=
  mkFx (fx_queues st) (fx_version st) (fx_counter st) (fx_tasks st) (fx_ready st ++ [t]).

Definition bump_futex_queue_version (st : FutexState) : FutexState :=
  mkFx (fx_queues st) (wrap64 (fx_version st + 1)) (fx_counter st) (fx_tasks st) (fx_ready st).
Definition new_futex_key (st : FutexState) : FutexState * Z :=
  (mkFx (fx_queues st) (fx_version st) (wrap64 (fx_counter st + 1)) (fx_tasks st) (fx_ready st),
   wrap64 (fx_counter st + 1)).

(** ** Completing a wait *)

Definition waits_with (tk : FutexTask) (key : Z) : bool :=
  bool_decide (ft_status tk = Blocked) && (futex_key tk =? key).
Definition woken (tk : FutexTask) : FutexTask :=
  mkFt Ready 0 0 (futex_timedout tk) (ft_signalled tk) (sigtimedwait_timedout tk).
Definition timed_out (tk : FutexTask) : FutexTask :=
  mkFt Ready 0 0 true (ft_signalled tk) (sigtimedwait_timedout tk).
Definition moved_to (tk : FutexTask) (pa : Z) : FutexTask :=
  mkFt (ft_status tk) (futex_key tk) pa (futex_timedout tk) (ft_signalled tk) (sigtimedwait_timedout tk).

(** The three primitives take the task behind an upgraded reference. *)
Definition wakeup_futex_task (st : FutexState) (t : Z) (tk : FutexTask) (key : Z) : FutexState * bool :=
  if waits_with tk key then (fx_add_ready (fx_set_task st t (woken tk)) t, true) else (st, false).
Definition timeout_futex_task (st : FutexState) (t : Z) (tk : FutexTask) (key : Z) : FutexState * bool :=
  if waits_with tk key then (fx_add_ready (fx_set_task st t (timed_out tk)) t, true) else (st, false).
Definition requeue_futex_task (st : FutexState) (t : Z) (tk : FutexTask) (key new_pa : Z) : FutexState * bool :=
  if waits_with tk key then (fx_set_task st t (moved_to tk new_pa), true) else (st, false).

(** ** Wake *)

(** The loop of [futex_wake_up_bitset]; [n] is [queue_len - cnt]. *)
Fixpoint wake_loop (n : nat) (st : FutexState) (queue : list FutexWaiter) (num max_num bitset : Z) :
    FutexState * list FutexWaiter * Z :=
  match n with
  | O => (st, queue, num)
  | S n =>
      if num <? max_num then
        match queue with
        | [] => (st, [], num)
        | w :: queue =>
            match fx_tasks st !! w_task w with
            | None => wake_loop n st queue num max_num bitset
            | Some tk =>
                if negb (Z.land bitset (w_bitset w) =? 0) then
                  let '(st, b) := wakeup_futex_task st (w_task w) tk (w_key w) in
                  wake_loop n st queue (if b then num + 1 else num) max_num bitset
                else wake_loop n st (queue ++ [w]) num max_num bitset
            end
        end
      else (st, queue, num)
  end.

Definition futex_wake_up_bitset (st : FutexState) (pa max_num bitset : Z) : FutexState * Z :=
  if bitset =? 0 then (st, 0)
  else
    let max_num := if max_num <=? 0 then 1 else max_num in
    let st := bump_futex_queue_version st in
    match fx_queues st !! pa with
    | None => (st, 0)
    | Some queue =>
        let '(st, queue, num) := wake_loop (length queue) st queue 0 max_num bitset in
        (fx_set_queues st (<[pa := queue]> (fx_queues st)), num)
    end.
Definition futex_wake_up (st : FutexState) (pa max_num : Z) : FutexState * Z :=
  futex_wake_up_bitset st pa max_num u32_max.

(** ** Requeue *)

Fixpoint requeue_loop (st : FutexState) (old_queue : list FutexWaiter) (woken_n wake_limit requeued requeue_limit new_pa : Z)
    (moved retained : list FutexWaiter) : FutexState * Z * list FutexWaiter * list FutexWaiter :=
  match old_queue with
  | [] => (st, woken_n, moved, retained)
  | w :: old_queue =>
      match fx_tasks st !! w_task w with
      | None => requeue_loop st old_queue woken_n wake_limit requeued requeue_limit new_pa moved retained
      | Some tk =>
          if woken_n <? wake_limit then
            let '(st, b) := wakeup_futex_task st (w_task w) tk (w_key w) in
            requeue_loop st old_queue (if b then woken_n + 1 else woken_n) wake_limit requeued requeue_limit new_pa
              moved retained
          else if requeued <? requeue_limit then
            let '(st, b) := requeue_futex_task st (w_task w) tk (w_key w) new_pa in
            if b then requeue_loop st old_queue woken_n wake_limit (requeued + 1) requeue_limit new_pa (moved ++ [w]) retained
            else requeue_loop st old_queue woken_n wake_limit requeued requeue_limit new_pa moved retained
          else requeue_loop st old_queue woken_n wake_limit requeued requeue_limit new_pa moved (retained ++ [w])
      end
  end.

Definition insert_nonempty (pa : Z) (q : list FutexWaiter) (m : gmap Z (list FutexWaiter)) : gmap Z (list FutexWaiter) :=
  match q with [] => m | _ => <[pa := q]> m end.
(** [entry(pa).or_default().extend(q)]. *)
Definition extend_queue (pa : Z) (q : list FutexWaiter) (m : gmap Z (list FutexWaiter)) : gmap Z (list FutexWaiter) :=
  <[pa := default [] (m !! pa) ++ q]> m.

Definition futex_requeue (st : FutexState) (old_pa max_wakeup new_pa max_requeue : Z) : FutexState * Z :=
  let st := bump_futex_queue_version st in
  match fx_queues st !! old_pa with
  | None => (st, 0)
  | Some old_queue =>
      let st := fx_set_queues st (delete old_pa (fx_queues st)) in
      let '(st, woken_n, moved, retained) :=
        requeue_loop st old_queue 0 (Z.max max_wakeup 0) 0 (Z.max max_requeue 0) new_pa [] [] in
      let queues :=
        if old_pa =? new_pa then insert_nonempty old_pa (retained ++ moved) (fx_queues st)
        else
          let m := insert_nonempty old_pa retained (fx_queues st) in
          match moved with [] => m | _ => extend_queue new_pa moved m end in
      (fx_set_queues st queues, woken_n)
  end.

(** ** Wait *)

(** Taking one's own entry out of a queue: [position] by key and [remove]. *)
Definition remove_waiter (st : FutexState) (pa key : Z) : FutexState :=
  match fx_queues st !! pa with
  | None => st
  | Some queue =>
      match position (λ w, w_key w =? key) queue with
      | None => st
      | Some i => fx_set_queues st (<[pa := take i queue ++ drop (S i) queue]> (fx_queues st))
      end
  end.

(** The critical section of [futex_wait_bitset] after the version was read. *)
Inductive enqueue_result : Type := Retry | Interrupted | Asleep (st : FutexState).
Definition wait_enqueue (st : FutexState) (t : Z) (tk : FutexTask) (version queue_key key bitset : Z) : enqueue_result :=
  if negb (fx_version st =? version) then Retry
  else if ft_signalled tk then Interrupted
  else
    let queue := default [] (fx_queues st !! queue_key) in
    Asleep (fx_set_task (fx_set_queues st (<[queue_key := queue ++ [mkWaiter t bitset key]]> (fx_queues st)))
              t (mkFt Blocked key queue_key false (ft_signalled tk) (sigtimedwait_timedout tk))).

(** After the task runs again: the result, and the queue entry to take out, if
    any, in a second critical section. *)
Definition wait_resume (tk : FutexTask) : FutexTask * SyscallRet * option (Z * Z) :=
  let entry := if futex_key tk =? 0 then None else Some (futex_pa tk, futex_key tk) in
  if ft_signalled tk then (tk, Err EINTR, entry)
  else if futex_timedout tk then
    (mkFt (ft_status tk) (futex_key tk) (futex_pa tk) false (ft_signalled tk) (sigtimedwait_timedout tk),
     Err ETIMEDOUT, entry)
  else (tk, Ok 0, None).
Definition wait_cleanup (st : FutexState) (entry : Z * Z) : FutexState :=
  remove_waiter (bump_futex_queue_version st) entry.1 entry.2.

(** [handle_timer]; the task is alive, as the caller upgraded it. *)
Definition handle_timer (st : FutexState) (t key : Z) : comp FutexState :=
  let st := bump_futex_queue_version st in
  tk ← unwrap (fx_tasks st !! t);
  if negb (futex_key tk =? key) then Done st
  else
    queue ← unwrap (fx_queues st !! futex_pa tk);
    match position (λ w, w_key w =? key) queue with
    | None => Done st
    | Some i =>
        let st := fx_set_queues st (<[futex_pa tk := take i queue ++ drop (S i) queue]> (fx_queues st)) in
        Done (timeout_futex_task st t tk key).1
    end.
(** The task's [interrupt], which wakes its [block_on], belongs to [Wake]. *)
Definition handle_sigtimedwait_timer (st : FutexState) (t : Z) : FutexState :=
  match fx_tasks st !! t with
  | None => st
  | Some tk => fx_set_task st t (mkFt (ft_status tk) (futex_key tk) (futex_pa tk) (futex_timedout tk) (ft_signalled tk) true)
  end.

(** [check_futex_timer] with these handlers. *)
Definition futex_timers (clock_freq : Z) (st : FutexState) (timers : list TimerCondVar) (current : Timespec) :
    comp (FutexState * list TimerCondVar) :=
  check_futex_timer (λ st t, bool_decide (is_Some (fx_tasks st !! t))) handle_timer handle_sigtimedwait_timer
    clock_freq st timers current.

(** [exit_group] and the exit of a leader make a blocked sibling runnable and
    take its entry out of the queue (a second critical section). *)
Definition release_sibling (st : FutexState) (t : Z) (tk : FutexTask) : FutexState * option (Z * Z) :=
  if bool_decide (ft_status tk = Blocked) then
    (fx_add_ready (fx_set_task st t (woken tk)) t,
     if futex_key tk =? 0 then None else Some (futex_pa tk, futex_key tk))
  else (st, None).

(** ** The system call *)

Inductive FutexCmd : Type :=
| CmdWait | CmdWake | CmdFd | CmdRequeue | CmdCmpRequeue | CmdWakeOp | CmdLockPi | CmdUnlockPi | CmdTrylockPi
| CmdWaitBitset | CmdWakeBitset.
#[export] Instance FutexCmd_eq_dec : EqDecision FutexCmd.
Proof. solve_decision. Defined.
Definition futex_cmd_try_from (value : Z) : option FutexCmd :=
  [CmdWait; CmdWake; CmdFd; CmdRequeue; CmdCmpRequeue; CmdWakeOp; CmdLockPi; CmdUnlockPi; CmdTrylockPi;
   CmdWaitBitset; CmdWakeBitset] !! Z.to_nat value.

Definition FUTEX_PRIVATE_FLAG : Z := 128.
Definition FUTEX_CLOCK_REALTIME : Z := 256.
Definition futex_queue_key (opt memory_token uaddr pa : Z) : Z :=
  if contains opt FUTEX_PRIVATE_FLAG then Z.lxor memory_token uaddr else pa.

(** What [sys_futex] dispatches to. *)
Inductive FutexCall : Type :=
| CallWait (queue_key uaddr expected bitset : Z) (timeout : option Timespec)
| CallWake (queue_key max_num bitset : Z)
| CallRequeue (queue_key max_wakeup queue_key2 max_requeue : Z).

Section sys_futex.
(** [translate_user_va_safe] and [copy_from_user] of a [Timespec], the token of
    the address space and the monotonic time. *)
Context (translate_user_va_safe : Z → result SysErrNo Z) (copy_timespec : Z → result SysErrNo Timespec).
Context (token : Z) (now : Timespec).

Definition futex_timeout (cmd : FutexCmd) (opt timeout : Z) : result SysErrNo (option Timespec) :=
  if (timeout =? 0) || negb (bool_decide (cmd = CmdWait) || bool_decide (cmd = CmdWaitBitset)) then Ok None
  else if timeout =? usize_max then Err EINVAL
  else
    t ← copy_timespec timeout;
    Ok (Some (if contains opt FUTEX_CLOCK_REALTIME then mkTs (wrap64 (tv_sec t - NOW_TIME_STAMP)) (tv_nsec t)
              else ts_add t now)).

Definition sys_futex (uaddr futex_op val timeout uaddr2 val3 : Z) : result SysErrNo FutexCall :=
  cmd ← ok_or EINVAL (futex_cmd_try_from (Z.land futex_op (u32_max - 384)));
  let opt := Z.land futex_op (Z.lor FUTEX_PRIVATE_FLAG FUTEX_CLOCK_REALTIME) in
  if contains opt FUTEX_CLOCK_REALTIME && negb (bool_decide (cmd = CmdWaitBitset)) then Err ENOSYS
  else if negb (uaddr mod 4 =? 0) then Err EINVAL
  else
    pa ← translate_user_va_safe uaddr;
    queue_key2 ← (if bool_decide (cmd = CmdRequeue)
                  then pa2 ← translate_user_va_safe uaddr2; Ok (Some (futex_queue_key opt token uaddr2 pa2))
                  else Ok None);
    timeout_opt ← futex_timeout cmd opt timeout;
    let queue_key := futex_queue_key opt token uaddr pa in
    match cmd with
    | CmdWait => Ok (CallWait queue_key uaddr val u32_max timeout_opt)
    | CmdWaitBitset =>
        if as_u32 val3 =? 0 then Err EINVAL else Ok (CallWait queue_key uaddr val (as_u32 val3) timeout_opt)
    | CmdWake => Ok (CallWake queue_key val u32_max)
    | CmdWakeBitset => if as_u32 val3 =? 0 then Err EINVAL else Ok (CallWake queue_key val (as_u32 val3))
    | CmdRequeue =>
        match queue_key2 with
        | Some key2 => Ok (CallRequeue queue_key val key2 (as_i32 timeout))
        | None => Err EINVAL
        end
    | _ => Err ENOSYS
    end.
End sys_futex.

(** ** Robust lists *)

(** User memory, as the exit path uses it: reads may fail, and the result of a
    write is ignored. *)
Class UserMemory (M : Type) : Type := {
  try_read_u32 : M → Z → option Z;
  write_u32 : M → Z → Z → M;
  try_read_usize : M → Z → option Z;
  write_usize : M → Z → Z → M
}.

Section robust.
Context `{UserMemory M} (translate_user_va_safe : Z → result SysErrNo Z) (token : Z).
Implicit Types (m : M) (st : FutexState).

Definition futex_wake_robust_user_addr st (uaddr max_num : Z) : FutexState * Z :=
  let '(st, n1) :=
    match translate_user_va_safe uaddr with
    | Ok pa => futex_wake_up_bitset st pa max_num u32_max
    | Err _ => (st, 0)
    end in
  let '(st, n2) := futex_wake_up_bitset st (Z.lxor token uaddr) max_num u32_max in
  (st, n1 + n2).

(** The retry loop; [None] when [fuel] rounds were not enough. *)
Fixpoint handle_futex_death_entry (fuel : nat) m st (uaddr pid : Z) : option (M * FutexState * bool) :=
  match fuel with
  | O => None
  | S fuel =>
      match try_read_u32 m uaddr with
      | None => Some (m, st, false)
      | Some uval =>
          if negb (Z.land uval FUTEX_TID_MASK =? pid) then Some (m, st, false)
          else
            let newval := Z.lor (Z.land uval FUTEX_WAITERS) FUTEX_OWNER_DIED in
            let m := write_u32 m uaddr newval in
            match try_read_u32 m uaddr with
            | None => Some (m, st, false)
            | Some after =>
                if negb (after =? newval) then handle_futex_death_entry fuel m st uaddr pid
                else if negb (Z.land uval FUTEX_WAITERS =? 0)
                then Some (m, (futex_wake_robust_user_addr st uaddr 1).1, true)
                else Some (m, st, true)
            end
      end
  end.

(** [(entry as isize).wrapping_add(futex_offset) as usize]. *)
Definition futex_word_addr (entry futex_offset : Z) : Z := wrap64 (entry + futex_offset).

(** The walk over the list, at most [limit] entries. *)
Fixpoint robust_walk (fuel limit : nat) m st (head entry futex_offset pid : Z) : option (M * FutexState) :=
  match limit with
  | O => Some (m, st)
  | S limit =>
      if entry =? head then Some (m, st)
      else
        match try_read_usize m entry with
        | None => Some (m, st)
        | Some raw_next =>
            '(m, st, _) ← handle_futex_death_entry fuel m st (futex_word_addr entry futex_offset) pid;
            robust_walk fuel limit m st head (Z.ldiff raw_next 1) futex_offset pid
        end
  end.

Definition handle_futex_when_exit (fuel : nat) m st (head pid : Z) : option (M * FutexState) :=
  if head =? 0 then Some (m, st)
  else
    match try_read_usize m (wrap64 (head + 8)), try_read_usize m (wrap64 (head + 16)) with
    | Some futex_offset, Some list_op_pending =>
        '(m, st) ←
          (if list_op_pending =? 0 then Some (m, st)
           else
             '(m, st, _) ← handle_futex_death_entry fuel m st (futex_word_addr list_op_pending futex_offset) pid;
             Some (write_usize m (wrap64 (head + 16)) 0, st));
        match try_read_usize m head with
        | None => Some (m, st)
        | Some entry => robust_walk fuel ROBUST_LIST_LIMIT m st head entry futex_offset pid
        end
    | _, _ => Some (m, st)
    end.
End robust.

(** ** What wake and requeue do to a queue *)

(** A waiter whose task sleeps in this very wait. *)
Definition live (tasks : gmap Z FutexTask) (w : FutexWaiter) : bool :=
  match tasks !! w_task w with Some tk => waits_with tk (w_key w) | None => false end.
Definition alive (tasks : gmap Z FutexTask) (w : FutexWaiter) : bool := bool_decide (is_Some (tasks !! w_task w)).
Definition matching (bitset : Z) (w : FutexWaiter) : bool := negb (Z.land bitset (w_bitset w) =? 0).

(** Keys name waits: they are not zero and differ within a queue. *)
Definition keys_ok (q : list FutexWaiter) : Prop := NoDup (w_key <$> q) ∧ Forall (λ w, w_key w ≠ 0) q.

(** [tasks'] is [tasks] with [f] applied to the tasks of [ws]. *)
Definition updated (f : FutexTask → FutexTask) (ws : list FutexWaiter) (tasks tasks' : gmap Z FutexTask) : Prop :=
  ∀ t, tasks' !! t = if decide (t ∈ w_task <$> ws) then f <$> tasks !! t else tasks !! t.

Lemma keys_ok_cons w q : keys_ok (w :: q) → w_key w ≠ 0 ∧ keys_ok q ∧ ∀ w', w' ∈ q → w_key w' ≠ w_key w.
Proof.
  intros [Hnd Hz]. apply NoDup_cons in Hnd as [Hn Hnd]. apply Forall_cons in Hz as [? ?].
  split; [done|]. split; [done|]. intros w' Hw' E. apply Hn, list_elem_of_fmap. eauto.
Qed.

Lemma waits_with_spec tk key : waits_with tk key = true ↔ ft_status tk = Blocked ∧ futex_key tk = key.
Proof. unfold waits_with. rewrite andb_true_iff, bool_decide_eq_true, Z.eqb_eq. done. Qed.

(** Changing the task of a waiter so that it no longer waits with another key
    does not change whether the waiters with other keys are live. *)
Lemma live_other tasks w tk tk' w' :
  tasks !! w_task w = Some tk → waits_with tk (w_key w) = true → w_key w' ≠ w_key w →
  waits_with tk' (w_key w') = false → live (<[w_task w := tk']> tasks) w' = live tasks w'.
Proof.
  intros Ht Hw Hne Hw'. unfold live. destruct (decide (w_task w' = w_task w)) as [->|Hd].
  - rewrite lookup_insert_eq, Ht, Hw'. apply waits_with_spec in Hw as [_ Hk].
    destruct (waits_with tk (w_key w')) eqn:E; [|done]. apply waits_with_spec in E as [_ ?]. congruence.
  - by rewrite lookup_insert_ne by done.
Qed.

Lemma alive_insert tasks w tk tk' w' :
  tasks !! w_task w = Some tk → alive (<[w_task w := tk']> tasks) w' = alive tasks w'.
Proof.
  intros Ht. unfold alive. apply bool_decide_ext. destruct (decide (w_task w' = w_task w)) as [->|Hd].
  - rewrite lookup_insert_eq, Ht. split; eauto.
  - by rewrite lookup_insert_ne.
Qed.

Lemma waits_woken tk key : waits_with (woken tk) key = false.
Proof. reflexivity. Qed.

Lemma updated_cons f w ws tasks tk tasks' :
  tasks !! w_task w = Some tk → w_task w ∉ w_task <$> ws →
  updated f ws (<[w_task w := f tk]> tasks) tasks' → updated f (w :: ws) tasks tasks'.
Proof.
  intros Ht Hn Hu t. rewrite Hu. cbn [fmap list_fmap]. destruct (decide (t = w_task w)) as [->|Hd].
  - rewrite decide_False, decide_True by (done || set_solver). by rewrite lookup_insert_eq, Ht.
  - rewrite lookup_insert_ne by done. repeat case_decide; set_solver.
Qed.

Lemma updated_nil f tasks : updated f [] tasks tasks.
Proof. intros t. by rewrite decide_False by set_solver. Qed.

(** The queue [rest ++ sk] after the waiters [r1] were looked at: those that do
    not match have moved behind, the others are gone. *)
Record wake_post (max_num bitset : Z) (st : FutexState) (rest sk : list FutexWaiter) (num : Z)
    (st' : FutexState) (q' : list FutexWaiter) (num' : Z) (r1 r2 : list FutexWaiter) : Prop := {
  wp_rest : rest = r1 ++ r2;
  wp_queue : q' = r2 ++ sk ++ retain (λ w, alive (fx_tasks st) w && negb (matching bitset w)) r1;
  wp_num : num' = num + Z.of_nat (length (retain (λ w, live (fx_tasks st) w && matching bitset w) r1));
  wp_max : num ≤ max_num → num' ≤ max_num;
  wp_end : r2 = [] ∨ max_num ≤ num';
  wp_tasks : updated woken (retain (λ w, live (fx_tasks st) w && matching bitset w) r1) (fx_tasks st) (fx_tasks st');
  wp_ready : fx_ready st' = fx_ready st ++ (w_task <$> retain (λ w, live (fx_tasks st) w && matching bitset w) r1);
  wp_frame : fx_queues st' = fx_queues st ∧ fx_version st' = fx_version st ∧ fx_counter st' = fx_counter st
}.

(** One more waiter in front. *)
Lemma wake_post_drop max_num bitset st w rest sk num st' q' num' r1 r2 :
  alive (fx_tasks st) w && negb (matching bitset w) = false → live (fx_tasks st) w && matching bitset w = false →
  wake_post max_num bitset st rest sk num st' q' num' r1 r2 →
  wake_post max_num bitset st (w :: rest) sk num st' q' num' (w :: r1) r2.
Proof. intros E1 E2 []. split; cbn [retain app]; rewrite ?E1, ?E2; try done. by subst. Qed.

Lemma wake_post_skip max_num bitset st w rest sk num st' q' num' r1 r2 :
  alive (fx_tasks st) w = true → matching bitset w = false →
  wake_post max_num bitset st rest (sk ++ [w]) num st' q' num' r1 r2 →
  wake_post max_num bitset st (w :: rest) sk num st' q' num' (w :: r1) r2.
Proof.
  intros E1 E2 []. split; cbn [retain app]; rewrite ?E1, ?E2, ?andb_false_r; cbn [andb negb]; try done; [by subst|].
  subst q'. by rewrite <- (app_assoc sk).
Qed.

Lemma wake_post_wake max_num bitset st w tk rest sk num st' q' num' r1 r2 :
  num < max_num → fx_tasks st !! w_task w = Some tk → waits_with tk (w_key w) = true → matching bitset w = true →
  (∀ w', w' ∈ rest → w_key w' ≠ w_key w) →
  wake_post max_num bitset (fx_add_ready (fx_set_task st (w_task w) (woken tk)) (w_task w)) rest sk (num + 1)
    st' q' num' r1 r2 →
  wake_post max_num bitset st (w :: rest) sk num st' q' num' (w :: r1) r2.
Proof.
  intros Hlt Et Hw Hm Hne [Hr Hq Hn Hmax Hend Hts Hrd Hfr]. simpl in *.
  assert (live (fx_tasks st) w = true) as El by (unfold live; by rewrite Et).
  assert (∀ w', w' ∈ r1 → live (<[w_task w := woken tk]> (fx_tasks st)) w' = live (fx_tasks st) w') as Hl.
  { intros w' Hw'. eapply live_other; [done..| |apply waits_woken]. apply Hne. subst rest. set_solver. }
  assert (retain (λ w', live (<[w_task w := woken tk]> (fx_tasks st)) w' && matching bitset w') r1
    = retain (λ w', live (fx_tasks st) w' && matching bitset w') r1) as E1.
  { apply retain_ext. intros w' Hw'. by rewrite Hl. }
  assert (retain (λ w', alive (<[w_task w := woken tk]> (fx_tasks st)) w' && negb (matching bitset w')) r1
    = retain (λ w', alive (fx_tasks st) w' && negb (matching bitset w')) r1) as E2.
  { apply retain_ext. intros w' Hw'. by rewrite (alive_insert _ _ tk). }
  rewrite E1 in *. rewrite E2 in *.
  split; cbn [retain app]; rewrite ?El, ?Hm, ?andb_false_r; cbn [andb negb app length fmap list_fmap]; try done.
  - by subst.
  - lia.
  - intros. apply Hmax. lia.
  - eapply updated_cons; [done| |done]. intros (w'&Ew&[Hw' [Hlw _]%andb_true_iff]%elem_of_retain)%list_elem_of_fmap.
    unfold live in Hlw. rewrite <- Ew, Et in Hlw. apply waits_with_spec in Hlw as [_ Hk], Hw as [_ Hk'].
    apply (Hne w'); [subst rest; set_solver|congruence].
  - rewrite Hrd. by rewrite <- app_assoc.
Qed.

Lemma wake_loop_spec max_num bitset rest sk st num :
  keys_ok rest →
  ∃ st' q' num' r1 r2, wake_loop (length rest) st (rest ++ sk) num max_num bitset = (st', q', num') ∧
    wake_post max_num bitset st rest sk num st' q' num' r1 r2.
Proof.
  revert sk st num. induction rest as [|w rest IH]; intros sk st num Hk.
  { exists st, sk, num, [], []. split; [done|]. split; simpl; rewrite ?app_nil_r; first [done|lia|auto|apply updated_nil]. }
  apply keys_ok_cons in Hk as (Hz&Hk&Hne). cbn [length wake_loop app].
  destruct (Z.ltb_spec num max_num) as [Hlt|Hge].
  2: { exists st, (w :: rest ++ sk), num, [], (w :: rest). split; [done|].
       split; simpl; rewrite ?app_nil_r; first [done|lia|by right|apply updated_nil]. }
  destruct (fx_tasks st !! w_task w) as [tk|] eqn:Et.
  2: { destruct (IH sk st num Hk) as (st'&q'&num'&r1&r2&->&Hp). exists st', q', num', (w :: r1), r2. split; [done|].
       apply wake_post_drop; [|by unfold live; rewrite Et|done].
       unfold alive. rewrite Et. by rewrite bool_decide_eq_false_2 by (intros []; done). }
  assert (alive (fx_tasks st) w = true) as Ea by (apply bool_decide_eq_true; rewrite Et; eauto).
  assert (live (fx_tasks st) w = waits_with tk (w_key w)) as El by (unfold live; by rewrite Et).
  fold (matching bitset w). destruct (matching bitset w) eqn:Em.
  - unfold wakeup_futex_task. destruct (waits_with tk (w_key w)) eqn:Ew.
    + set (st1 := fx_add_ready _ _). destruct (IH sk st1 (num + 1) Hk) as (st'&q'&num'&r1&r2&->&Hp).
      exists st', q', num', (w :: r1), r2. split; [done|]. by eapply wake_post_wake.
    + destruct (IH sk st num Hk) as (st'&q'&num'&r1&r2&->&Hp). exists st', q', num', (w :: r1), r2. split; [done|].
      apply wake_post_drop; [by rewrite Em, andb_false_r|by rewrite El|done].
  - rewrite <- app_assoc. destruct (IH (sk ++ [w]) st num Hk) as (st'&q'&num'&r1&r2&->&Hp).
    exists st', q', num', (w :: r1), r2. split; [done|]. by apply wake_post_skip.
Qed.


(** Two waiters on one key with different bitsets. *)
Definition demo_ft (key : Z) : FutexTask := mkFt Blocked key 100 false false false.
Definition demo_queue : list FutexWaiter := [mkWaiter 1 1 11; mkWaiter 2 2 12; mkWaiter 3 1 13].
Definition demo_futexes : FutexState :=
  mkFx {[100 := demo_queue]} 0 13 {[1 := demo_ft 11; 2 := demo_ft 12; 3 := demo_ft 13]} [].

Lemma demo_keys : keys_ok demo_queue.
Proof. split; [vm_compute; repeat (constructor; [set_solver|]); constructor|]. repeat constructor; discriminate. Qed.


(** Skipping a waiter because of its bitset costs it its place: the queue of
    threads 1, 2 and 3, after one wake-up that only thread 2 matches, has
    thread 3 in front of thread 1, so the next wake-up for both passes over
    the one that has waited longest. *)
Theorem wake_bitset_reorders :
  ∃ st1 st2,
    futex_wake_up_bitset demo_futexes 100 1 2 = (st1, 1) ∧ fx_ready st1 = [2] ∧
    (∃ q, fx_queues st1 !! 100 = Some q ∧ map w_task demo_queue = [1; 2; 3] ∧ map w_task q = [3; 1]) ∧
    futex_wake_up st1 100 1 = (st2, 1) ∧ fx_ready st2 = [2; 3].
Proof.
  eexists _, _. split; [vm_compute; reflexivity|]. split; [reflexivity|].
  split; [eexists; split; [reflexivity|]; split; reflexivity|]. split; [vm_compute; reflexivity|reflexivity].
Qed.

(** ** Requeue *)

(** The tasks of [ws] are woken, those of [ms] wait at [pa]. *)
Definition requeued (pa : Z) (ws ms : list FutexWaiter) (tasks tasks' : gmap Z FutexTask) : Prop :=
  ∀ t, tasks' !! t =
    if decide (t ∈ w_task <$> ws) then woken <$> tasks !! t
    else if decide (t ∈ w_task <$> ms) then (λ tk, moved_to tk pa) <$> tasks !! t
    else tasks !! t.

(** [ws], [ms] and [rs] are the waiters of [q] that the loop wakes, moves and keeps. *)
Record requeue_post (st : FutexState) (q : list FutexWaiter) (a b : nat) (pa : Z) (st' : FutexState)
    (ws ms rs : list FutexWaiter) : Prop := {
  rp_woken : ws = take a (retain (live (fx_tasks st)) q);
  rp_moved : ms = take b (drop a (retain (live (fx_tasks st)) q));
  rp_kept : rs `sublist_of` q;
  rp_sub : ws ++ ms ++ rs ⊆+ q;
  rp_all : ∀ w, w ∈ q → live (fx_tasks st) w = true → w ∈ ws ∨ w ∈ ms ∨ w ∈ rs;
  rp_tasks : requeued pa ws ms (fx_tasks st) (fx_tasks st');
  rp_ready : fx_ready st' = fx_ready st ++ (w_task <$> ws);
  rp_frame : fx_queues st' = fx_queues st ∧ fx_version st' = fx_version st ∧ fx_counter st' = fx_counter st
}.

Section requeue_cons.
Context (st : FutexState) (w : FutexWaiter) (q : list FutexWaiter) (pa : Z).
Context (Hne : ∀ w', w' ∈ q → w_key w' ≠ w_key w).

Lemma requeue_post_drop a b st' ws ms rs :
  live (fx_tasks st) w = false → requeue_post st q a b pa st' ws ms rs →
  requeue_post st (w :: q) a b pa st' ws ms rs.
Proof using Type.
  clear Hne. intros El []. split; cbn [retain]; rewrite ?El; try done; [by constructor|by apply submseteq_cons|].
  intros w' [->|Hw']%elem_of_cons Hl; [congruence|auto].
Qed.

Lemma requeue_post_keep st' ws ms rs :
  requeue_post st q 0 0 pa st' ws ms rs → requeue_post st (w :: q) 0 0 pa st' ws ms (w :: rs).
Proof using Type.
  clear Hne. intros []. split; try done; [by constructor| |].
  { by rewrite !app_assoc, <- Permutation_middle, <- !app_assoc; apply submseteq_skip. }
  intros w' [->|Hw']%elem_of_cons Hl; [set_solver|].
  destruct (rp_all0 w' Hw' Hl) as [?|[?|?]]; set_solver.
Qed.

Context (tk : FutexTask) (Et : fx_tasks st !! w_task w = Some tk) (Hw : waits_with tk (w_key w) = true).

Lemma retain_live_set tk' st1 :
  fx_tasks st1 = <[w_task w := tk']> (fx_tasks st) → (∀ w', w' ∈ q → waits_with tk' (w_key w') = false) →
  retain (live (fx_tasks st1)) q = retain (live (fx_tasks st)) q ∧
  w_task w ∉ w_task <$> retain (live (fx_tasks st)) q.
Proof using All.
  intros -> Hk. split.
  - apply retain_ext. intros w' Hw'. by apply (live_other _ _ tk); auto.
  - intros (w'&Ew&[Hw' Hlw]%elem_of_retain)%list_elem_of_fmap. unfold live in Hlw. rewrite <- Ew, Et in Hlw.
    apply waits_with_spec in Hlw as [_ Hk1], Hw as [_ Hk2]. apply (Hne w'); [done|congruence].
Qed.

Lemma elem_of_take_task k l w' : w' ∈ w_task <$> take k l → w' ∈ w_task <$> l.
Proof using Type.
  clear. intros (x&->&Hx)%list_elem_of_fmap. apply list_elem_of_fmap. exists x. split; [done|].
  rewrite <- (take_drop k l). set_solver.
Qed.
Lemma elem_of_drop_task k l w' : w' ∈ w_task <$> drop k l → w' ∈ w_task <$> l.
Proof using Type.
  clear. intros (x&->&Hx)%list_elem_of_fmap. apply list_elem_of_fmap. exists x. split; [done|].
  rewrite <- (take_drop k l). set_solver.
Qed.

Lemma requeue_post_wake a b st' ws ms rs :
  requeue_post (fx_add_ready (fx_set_task st (w_task w) (woken tk)) (w_task w)) q a b pa st' ws ms rs →
  requeue_post st (w :: q) (S a) b pa st' (w :: ws) ms rs.
Proof using All.
  intros [Hws Hms Hrs Hsub Hall Hts Hrd Hfr].
  assert (live (fx_tasks st) w = true) as El by (unfold live; by rewrite Et).
  destruct (retain_live_set (woken tk) (fx_add_ready (fx_set_task st (w_task w) (woken tk)) (w_task w)))
    as [E Hn]; [done|done|]. rewrite E in *. clear E.
  split; cbn [retain]; rewrite ?El; cbn [take drop fmap list_fmap]; try done; [by rewrite Hws|by constructor|by apply submseteq_skip|..].
  - intros w' [->|Hw']%elem_of_cons Hl; [set_solver|].
    destruct (Hall w' Hw') as [?|[?|?]]; [|set_solver..].
    simpl. rewrite (live_other _ _ tk); auto.
  - intros t. rewrite Hts. simpl. destruct (decide (t = w_task w)) as [->|Hd].
    + rewrite lookup_insert_eq, Et, (decide_True (P := _ ∈ _ :: _)) by set_solver.
      rewrite !decide_False; [done|subst ms|subst ws].
      * intros Hin%elem_of_take_task%elem_of_drop_task. done.
      * intros Hin%elem_of_take_task. done.
    + rewrite lookup_insert_ne by done. repeat case_decide; set_solver.
  - rewrite Hrd. simpl. by rewrite <- app_assoc.
Qed.

Lemma requeue_post_move b st' ws ms rs :
  requeue_post (fx_set_task st (w_task w) (moved_to tk pa)) q 0 b pa st' ws ms rs →
  requeue_post st (w :: q) 0 (S b) pa st' ws (w :: ms) rs.
Proof using All.
  intros [Hws Hms Hrs Hsub Hall Hts Hrd Hfr].
  assert (live (fx_tasks st) w = true) as El by (unfold live; by rewrite Et).
  assert (∀ w', w' ∈ q → waits_with (moved_to tk pa) (w_key w') = false) as Hk.
  { intros w' Hw'. destruct (waits_with (moved_to tk pa) (w_key w')) eqn:E; [|done].
    apply waits_with_spec in E as [_ E], Hw as [_ Hk]. simpl in E. destruct (Hne w' Hw'). congruence. }
  destruct (retain_live_set (moved_to tk pa) (fx_set_task st (w_task w) (moved_to tk pa))) as [E Hn]; [done|done|].
  rewrite E in *. clear E. simpl in Hws. subst ws.
  split; cbn [retain]; rewrite ?El; cbn [take drop fmap list_fmap]; try done; [by rewrite Hms|by constructor|by apply submseteq_skip|..].
  - intros w' [->|Hw']%elem_of_cons Hl; [set_solver|].
    destruct (Hall w' Hw') as [?|[?|?]]; [|set_solver..].
    simpl. rewrite (live_other _ _ tk); auto.
  - intros t. rewrite Hts. cbn [fx_set_task fx_tasks]. rewrite !(decide_False (P := t ∈ w_task <$> [])) by set_solver.
    cbn [fmap list_fmap].
    destruct (decide (t = w_task w)) as [->|Hd].
    + rewrite lookup_insert_eq, Et, (decide_True (P := _ ∈ _ :: _)) by set_solver.
      rewrite decide_False; [done|]. subst ms. by intros Hin%elem_of_take_task.
    + rewrite lookup_insert_ne by done. repeat case_decide; set_solver.
Qed.
End requeue_cons.

Lemma requeue_loop_spec q st wn wl rn rl pa mv rt :
  keys_ok q →
  ∃ st' ws ms rs,
    requeue_loop st q wn wl rn rl pa mv rt = (st', wn + Z.of_nat (length ws), mv ++ ms, rt ++ rs) ∧
    requeue_post st q (Z.to_nat (wl - wn)) (Z.to_nat (rl - rn)) pa st' ws ms rs.
Proof.
  revert st wn rn mv rt. induction q as [|w q IH]; intros st wn rn mv rt Hk.
  { exists st, [], [], []. simpl. rewrite !app_nil_r, Z.add_0_r. split; [done|].
    split; simpl; first [done|by rewrite ?drop_nil, ?take_nil|by rewrite app_nil_r
      |intros w Hw; by apply elem_of_nil in Hw|intros t; by rewrite !decide_False by set_solver]. }
  apply keys_ok_cons in Hk as (Hz&Hk&Hne). cbn [requeue_loop].
  destruct (fx_tasks st !! w_task w) as [tk|] eqn:Et.
  2: { destruct (IH st wn rn mv rt Hk) as (st'&ws&ms&rs&->&Hp). exists st', ws, ms, rs. split; [done|].
       apply requeue_post_drop; [|done]. unfold live. by rewrite Et. }
  assert (live (fx_tasks st) w = waits_with tk (w_key w)) as El by (unfold live; by rewrite Et).
  destruct (Z.ltb_spec wn wl) as [Hlt|Hge]; [|destruct (Z.ltb_spec rn rl) as [Hlt'|Hge']].
  - unfold wakeup_futex_task. destruct (waits_with tk (w_key w)) eqn:Ew.
    + set (st1 := fx_add_ready _ _). destruct (IH st1 (wn + 1) rn mv rt Hk) as (st'&ws&ms&rs&->&Hp).
      exists st', (w :: ws), ms, rs. split; [do 3 f_equal; simpl length; lia|].
      replace (Z.to_nat (wl - wn)) with (S (Z.to_nat (wl - (wn + 1)))) by lia. by eapply requeue_post_wake.
    + destruct (IH st wn rn mv rt Hk) as (st'&ws&ms&rs&->&Hp). exists st', ws, ms, rs. split; [done|].
      by apply requeue_post_drop.
  - unfold requeue_futex_task. destruct (waits_with tk (w_key w)) eqn:Ew.
    + set (st1 := fx_set_task _ _ _). destruct (IH st1 wn (rn + 1) (mv ++ [w]) rt Hk) as (st'&ws&ms&rs&->&Hp).
      exists st', ws, (w :: ms), rs. split; [by rewrite <- app_assoc|].
      replace (Z.to_nat (rl - rn)) with (S (Z.to_nat (rl - (rn + 1)))) by lia.
      replace (Z.to_nat (wl - wn)) with 0%nat in * by lia. by eapply requeue_post_move.
    + destruct (IH st wn rn mv rt Hk) as (st'&ws&ms&rs&->&Hp). exists st', ws, ms, rs. split; [done|].
      by apply requeue_post_drop.
  - destruct (IH st wn rn mv (rt ++ [w]) Hk) as (st'&ws&ms&rs&->&Hp). exists st', ws, ms, (w :: rs).
    split; [by rewrite <- (app_assoc rt)|].
    replace (Z.to_nat (wl - wn)) with 0%nat in * by lia. replace (Z.to_nat (rl - rn)) with 0%nat in * by lia.
    by apply requeue_post_keep.
Qed.

(** The waiters of a key. *)
Definition queue_of (queues : gmap Z (list FutexWaiter)) (pa : Z) : list FutexWaiter := default [] (queues !! pa).

Lemma queue_of_insert_nonempty pa q m pa' :
  m !! pa = None → queue_of (insert_nonempty pa q m) pa' = if decide (pa' = pa) then q else queue_of m pa'.
Proof.
  intros Hm. unfold insert_nonempty, queue_of. destruct q as [|w q].
  - case_decide; [subst; by rewrite Hm|done].
  - case_decide; [subst; by rewrite lookup_insert_eq|by rewrite lookup_insert_ne].
Qed.

Lemma queue_of_extend pa q m pa' :
  queue_of (extend_queue pa q m) pa' = if decide (pa' = pa) then queue_of m pa ++ q else queue_of m pa'.
Proof.
  unfold extend_queue, queue_of. case_decide; [subst; by rewrite lookup_insert_eq|by rewrite lookup_insert_ne].
Qed.

Lemma requeue_queues queues old_pa new_pa ms rs pa :
  queues !! old_pa = None → old_pa ≠ new_pa →
  queue_of (let m := insert_nonempty old_pa rs queues in match ms with [] => m | _ => extend_queue new_pa ms m end) pa =
    if decide (pa = old_pa) then rs
    else if decide (pa = new_pa) then queue_of queues new_pa ++ ms else queue_of queues pa.
Proof.
  intros Hold Hne. cbv zeta. destruct ms as [|w ms].
  - rewrite queue_of_insert_nonempty by done. repeat case_decide; subst; try done. by rewrite app_nil_r.
  - rewrite queue_of_extend, !queue_of_insert_nonempty by done. repeat case_decide; subst; done.
Qed.

(** [FUTEX_REQUEUE] loses nobody: of the waiters of the old key that sleep
    in that very wait, the first [n] are woken and counted, the next [m] are
    appended to the queue of the new key in their order and know it as their
    key, and the others are still in the old queue, in their order; no other
    queue and no other task changes. *)
Theorem futex_requeue_exact (st : FutexState) (old_pa n new_pa m : Z) (q : list FutexWaiter) :
  fx_queues st !! old_pa = Some q → keys_ok q → old_pa ≠ new_pa →
  let sleeping := retain (live (fx_tasks st)) q in
  let ws := take (Z.to_nat n) sleeping in
  let ms := take (Z.to_nat m) (drop (Z.to_nat n) sleeping) in
  ∃ st' rs, futex_requeue st old_pa n new_pa m = (st', Z.of_nat (length ws)) ∧
    requeued new_pa ws ms (fx_tasks st) (fx_tasks st') ∧
    fx_ready st' = fx_ready st ++ (w_task <$> ws) ∧
    rs `sublist_of` q ∧ (∀ w, w ∈ q → live (fx_tasks st) w = true → w ∈ ws ∨ w ∈ ms ∨ w ∈ rs) ∧
    ∀ pa, queue_of (fx_queues st') pa =
      if decide (pa = old_pa) then rs
      else if decide (pa = new_pa) then queue_of (fx_queues st) new_pa ++ ms else queue_of (fx_queues st) pa.
Proof.
  intros Hq Hk Hne sleeping ws ms. unfold futex_requeue. cbn [bump_futex_queue_version fx_queues]. rewrite Hq.
  set (st1 := fx_set_queues _ _).
  destruct (requeue_loop_spec q st1 0 (Z.max n 0) 0 (Z.max m 0) new_pa [] [] Hk)
    as (st'&ws'&ms'&rs&Hl&[Hws Hms Hrs _ Hall Hts Hrd [Hfq _]]).
  rewrite Hl, (proj2 (Z.eqb_neq _ _) Hne). cbn [app].
  replace (Z.to_nat (Z.max n 0 - 0)) with (Z.to_nat n) in * by lia.
  replace (Z.to_nat (Z.max m 0 - 0)) with (Z.to_nat m) in * by lia.
  change (fx_tasks st1) with (fx_tasks st) in *. change (fx_ready st1) with (fx_ready st) in *.
  subst ws' ms'. fold sleeping in Hts, Hrd, Hall |- *. fold ws ms in Hts, Hrd, Hall |- *.
  eexists _, rs. split; [f_equal; lia|]. cbn [fx_set_queues fx_tasks fx_ready fx_queues].
  split; [done|]. split; [done|]. split; [done|]. split; [done|]. intros pa.
  rewrite requeue_queues; [|by rewrite Hfq; apply lookup_delete_eq|done]. rewrite Hfq. cbn [fx_queues st1 fx_set_queues].
  unfold queue_of. repeat case_decide; subst; try done; by rewrite lookup_delete_ne.
Qed.

Lemma futex_requeue_exact_witness :
  ∃ st', futex_requeue demo_futexes 100 1 200 1 = (st', 1) ∧ fx_ready st' = [1] ∧
    queue_of (fx_queues st') 200 = [mkWaiter 2 2 12] ∧ mkWaiter 3 1 13 ∈ queue_of (fx_queues st') 100.
Proof.
  destruct (futex_requeue_exact demo_futexes 100 1 200 1 demo_queue) as (st'&rs&He&_&Hr&_&Hall&Hq);
    [reflexivity|exact demo_keys|discriminate|].
  exists st'. split; [exact He|]. split; [exact Hr|]. split; [exact (Hq 200)|]. rewrite (Hq 100). simpl.
  destruct (Hall (mkWaiter 3 1 13)) as [Hc|[Hc|Hc]]; [set_solver|reflexivity|..|exact Hc];
    vm_compute in Hc; apply list_elem_of_singleton in Hc; discriminate.
Defined.
