(* ===== verification/FutexLife.v ===== *)
(** * Futexes under concurrency

    The steps of threads at futexes, as a relation: waits with their unlocked
    parts, wake-ups, requeues, time-outs, signals, exits and stores of user
    programs, in any order.  On top of it: no sleeping waiter is ever lost from
    the queues, and closed executions that exhibit the defects of the wait
    protocol. *)

From S2P Require Import Prelude Errno Wake Timers Futex.
(** ** Threads at futexes

    Where a thread is in [futex_wait_bitset]: outside, about to read the word,
    past the comparison, past the load of the version, or asleep. *)

Record WaitArgs : Type := mkWait { wa_key : Z; wa_queue : Z; wa_uaddr : Z; wa_expected : Z; wa_bitset : Z }.
Inductive WaitPc : Type :=
| Outside
| Reading (a : WaitArgs)
| Compared (a : WaitArgs)
| Versioned (a : WaitArgs) (version : Z)
| Parked.

(** The kernel's state, the threads, the futex words by user address, and the
    queue entries that resumed or released threads still have to take out. *)
Record FutexWorld : Type := mkFw {
  fw_st : FutexState; fw_pcs : gmap Z WaitPc; fw_words : gmap Z Z; fw_cleanups : list (Z * Z) }.

Definition set_ft_status (tk : FutexTask) (s : TaskStatus) : FutexTask :=
  mkFt s (futex_key tk) (futex_pa tk) (futex_timedout tk) (ft_signalled tk) (sigtimedwait_timedout tk).
Definition set_ft_signalled (tk : FutexTask) (b : bool) : FutexTask :=
  mkFt (ft_status tk) (futex_key tk) (futex_pa tk) (futex_timedout tk) b (sigtimedwait_timedout tk).

Definition fw_set_pc (w : FutexWorld) (t : Z) (pc : WaitPc) : FutexWorld :=
  mkFw (fw_st w) (<[t := pc]> (fw_pcs w)) (fw_words w) (fw_cleanups w).
Definition fw_set_st (w : FutexWorld) (st : FutexState) : FutexWorld :=
  mkFw st (fw_pcs w) (fw_words w) (fw_cleanups w).

Inductive futex_step : FutexWorld → FutexWorld → Prop :=
(** Threads appear, are dispatched, sleep and are woken for other reasons,
    receive signals, and disappear. *)
| fs_spawn w t :
    fx_tasks (fw_st w) !! t = None →
    futex_step w (fw_set_pc (fw_set_st w (fx_set_task (fw_st w) t (mkFt Ready 0 0 false false false))) t Outside)
| fs_dispatch w t tk :
    fx_tasks (fw_st w) !! t = Some tk → ft_status tk = Ready →
    futex_step w (fw_set_st w (fx_set_task (fw_st w) t (set_ft_status tk Running)))
| fs_block w t tk :
    fx_tasks (fw_st w) !! t = Some tk → ft_status tk = Running → fw_pcs w !! t = Some Outside →
    futex_step w (fw_set_st w (fx_set_task (fw_st w) t (set_ft_status tk Blocked)))
| fs_unblock w t tk :
    fx_tasks (fw_st w) !! t = Some tk → ft_status tk = Blocked →
    futex_step w (fw_set_st w (fx_add_ready (fx_set_task (fw_st w) t (set_ft_status tk Ready)) t))
| fs_signal w t tk b :
    fx_tasks (fw_st w) !! t = Some tk →
    futex_step w (fw_set_st w (fx_set_task (fw_st w) t (set_ft_signalled tk b)))
| fs_exit w t tk :
    fx_tasks (fw_st w) !! t = Some tk → ft_status tk = Running → fw_pcs w !! t = Some Outside →
    futex_step w (fw_set_st w (mkFx (fx_queues (fw_st w)) (fx_version (fw_st w)) (fx_counter (fw_st w))
                                 (delete t (fx_tasks (fw_st w))) (fx_ready (fw_st w))))
(** User programs store to futex words. *)
| fs_store w a v : futex_step w (mkFw (fw_st w) (fw_pcs w) (<[a := v]> (fw_words w)) (fw_cleanups w))
(** The steps of a wait. *)
| fs_wait w t tk q a e b st key :
    fx_tasks (fw_st w) !! t = Some tk → ft_status tk = Running → fw_pcs w !! t = Some Outside →
    fx_counter (fw_st w) < usize_max →
    new_futex_key (fw_st w) = (st, key) →
    futex_step w (fw_set_pc (fw_set_st w st) t (Reading (mkWait key q a e b)))
| fs_compare w t a v :
    fw_pcs w !! t = Some (Reading a) → fw_words w !! wa_uaddr a = Some v →
    futex_step w (fw_set_pc w t (if v =? wa_expected a then Compared a else Outside))
| fs_fault w t a :
    fw_pcs w !! t = Some (Reading a) → fw_words w !! wa_uaddr a = None → futex_step w (fw_set_pc w t Outside)
| fs_version w t a :
    fw_pcs w !! t = Some (Compared a) → futex_step w (fw_set_pc w t (Versioned a (fx_version (fw_st w))))
| fs_enqueue w t tk a v :
    fw_pcs w !! t = Some (Versioned a v) → fx_tasks (fw_st w) !! t = Some tk → ft_status tk = Running →
    futex_step w (match wait_enqueue (fw_st w) t tk v (wa_queue a) (wa_key a) (wa_bitset a) with
                  | Retry => fw_set_pc w t (Reading a)
                  | Interrupted => fw_set_pc w t Outside
                  | Asleep st => fw_set_pc (fw_set_st w st) t Parked
                  end)
| fs_resume w t tk tk' r entry :
    fw_pcs w !! t = Some Parked → fx_tasks (fw_st w) !! t = Some tk → ft_status tk = Running →
    wait_resume tk = (tk', r, entry) →
    futex_step w (mkFw (fx_set_task (fw_st w) t tk') (<[t := Outside]> (fw_pcs w)) (fw_words w)
                    (option_list entry ++ fw_cleanups w))
(** The second critical section of [fs_resume] and [fs_release]. *)
| fs_cleanup w l1 e l2 :
    fw_cleanups w = l1 ++ e :: l2 →
    futex_step w (mkFw (remove_waiter (fw_st w) e.1 e.2) (fw_pcs w) (fw_words w) (l1 ++ l2))
| fs_bump w : futex_step w (fw_set_st w (bump_futex_queue_version (fw_st w)))
(** Other threads, timers and exits. *)
| fs_wake w pa n b : futex_step w (fw_set_st w (futex_wake_up_bitset (fw_st w) pa n b).1)
| fs_requeue w pa n pa' n' : futex_step w (fw_set_st w (futex_requeue (fw_st w) pa n pa' n').1)
| fs_timer w t key st : handle_timer (fw_st w) t key = Done st → futex_step w (fw_set_st w st)
| fs_release w t tk st entry :
    fx_tasks (fw_st w) !! t = Some tk →
    release_sibling (fw_st w) t tk = (st, entry) →
    futex_step w (mkFw st (fw_pcs w) (fw_words w) (option_list entry ++ fw_cleanups w)).

Definition futex_init : FutexWorld := mkFw (mkFx ∅ 0 0 ∅ []) ∅ ∅ [].

(** ** No sleeping waiter is lost *)

Definition pc_key (pc : WaitPc) : option Z :=
  match pc with Reading a | Compared a | Versioned a _ => Some (wa_key a) | _ => None end.

(** A thread that sleeps in [futex_wait_bitset]. *)
Definition waiting (w : FutexWorld) (t : Z) (tk : FutexTask) : Prop :=
  fw_pcs w !! t = Some Parked ∧ fx_tasks (fw_st w) !! t = Some tk ∧ ft_status tk = Blocked.
Definition waiters (w : FutexWorld) (pa : Z) : list FutexWaiter := queue_of (fx_queues (fw_st w)) pa.
(** Its entry is where it looks for it. *)
Definition findable (w : FutexWorld) (t : Z) (tk : FutexTask) : Prop :=
  ∃ wt, wt ∈ waiters w (futex_pa tk) ∧ w_task wt = t ∧ w_key wt = futex_key tk.

Record futex_inv (w : FutexWorld) : Prop := {
  fi_keys pa : keys_ok (waiters w pa);
  fi_apart pa1 pa2 w1 w2 : w1 ∈ waiters w pa1 → w2 ∈ waiters w pa2 → w_key w1 = w_key w2 → pa1 = pa2;
  fi_bound pa wt : wt ∈ waiters w pa → w_key wt ≤ fx_counter (fw_st w);
  fi_counter : 0 ≤ fx_counter (fw_st w) ≤ usize_max;
  fi_task t tk : fx_tasks (fw_st w) !! t = Some tk → futex_key tk ≤ fx_counter (fw_st w);
  fi_unique t t' tk tk' : fx_tasks (fw_st w) !! t = Some tk → fx_tasks (fw_st w) !! t' = Some tk' →
    futex_key tk = futex_key tk' → futex_key tk ≠ 0 → t = t';
  fi_fresh t pc k : fw_pcs w !! t = Some pc → pc_key pc = Some k →
    0 < k ≤ fx_counter (fw_st w) ∧ (∀ pa wt, wt ∈ waiters w pa → w_key wt ≠ k) ∧
    (∀ t' tk', fx_tasks (fw_st w) !! t' = Some tk' → futex_key tk' ≠ k) ∧ (∀ e, e ∈ fw_cleanups w → e.2 ≠ k);
  fi_pcs t t' pc pc' k : fw_pcs w !! t = Some pc → fw_pcs w !! t' = Some pc' →
    pc_key pc = Some k → pc_key pc' = Some k → t = t';
  fi_parked t tk : waiting w t tk → findable w t tk;
  fi_clean e : e ∈ fw_cleanups w → e.2 ≤ fx_counter (fw_st w) ∧ ∀ t tk, waiting w t tk → futex_key tk ≠ e.2
}.

(** A step that starts no wait. *)
Record tame (w w' : FutexWorld) : Prop := {
  tm_counter : fx_counter (fw_st w') = fx_counter (fw_st w);
  tm_keys pa : keys_ok (waiters w' pa);
  tm_apart pa1 pa2 w1 w2 : w1 ∈ waiters w' pa1 → w2 ∈ waiters w' pa2 → w_key w1 = w_key w2 → pa1 = pa2;
  tm_from pa wt : wt ∈ waiters w' pa → ∃ pa0, wt ∈ waiters w pa0;
  tm_task t tk' : fx_tasks (fw_st w') !! t = Some tk' →
    futex_key tk' = 0 ∨ ∃ tk, fx_tasks (fw_st w) !! t = Some tk ∧ futex_key tk = futex_key tk';
  tm_pcs t pc' k : fw_pcs w' !! t = Some pc' → pc_key pc' = Some k → ∃ pc, fw_pcs w !! t = Some pc ∧ pc_key pc = Some k;
  tm_waiting t tk' : waiting w' t tk' → findable w' t tk' ∧ ∃ tk, waiting w t tk ∧ futex_key tk = futex_key tk';
  tm_clean e : e ∈ fw_cleanups w' → e ∈ fw_cleanups w ∨
    ∃ t tk, fx_tasks (fw_st w) !! t = Some tk ∧ futex_key tk = e.2 ∧ e.2 ≠ 0 ∧ ∀ tk', waiting w' t tk' → futex_key tk' ≠ e.2
}.

Lemma futex_inv_tame w w' : futex_inv w → tame w w' → futex_inv w'.
Proof.
  intros [Hk Ha Hb Hc Ht Hu Hf Hp Hw Hcl] [Tc Tk Ta Tf Tt Tp Tw Tcl]. split; rewrite ?Tc; try done.
  - intros pa wt (pa0&?)%Tf. eauto.
  - intros t tk' [->|(tk&?&<-)]%Tt; [lia|eauto].
  - intros t t' tk tk' H1 H2 E Hne. destruct (Tt _ _ H1) as [?|(k1&?&E1)], (Tt _ _ H2) as [?|(k2&?&E2)]; try lia.
    eapply Hu; [done..| |]; congruence.
  - intros t pc' k H1 H2. destruct (Tp _ _ _ H1 H2) as (pc&H3&H4). destruct (Hf _ _ _ H3 H4) as (B&Q&T&C).
    split; [done|]. split; [intros pa wt (pa0&?)%Tf; eauto|]. split.
    + intros t' tk' [?|(tk&?&<-)]%Tt; [lia|eauto].
    + intros e [?|(t1&tk&?&<-&_)]%Tcl; eauto.
  - intros t t' pc pc' k H1 H2 H3 H4. destruct (Tp _ _ _ H1 H3) as (?&?&?), (Tp _ _ _ H2 H4) as (?&?&?). eauto.
  - intros t tk' H1. by apply Tw.
  - intros e [He|(t&tk&H1&H2&H3&H4)]%Tcl.
    + destruct (Hcl e He) as [? Hn]. split; [done|]. intros t tk' (_&tk&?&<-)%Tw. eauto.
    + split; [rewrite <- H2; eauto|]. intros t' tk' Hwt E. destruct (Tw _ _ Hwt) as (_&tk0&(?&H5&_)&E0).
      assert (t = t') as -> by (eapply Hu; [exact H1|exact H5|congruence|congruence]). eapply H4; eauto.
Qed.

Lemma keys_ok_submseteq q' q : q' ⊆+ q → keys_ok q → keys_ok q'.
Proof.
  intros Hs [Hnd Hz]. split.
  - apply (fmap_submseteq w_key), submseteq_Permutation in Hs as [k Hk]. rewrite Hk in Hnd. by apply NoDup_app in Hnd as [? _].
  - apply Forall_forall. intros w Hw. rewrite Forall_forall in Hz. apply Hz. by eapply elem_of_submseteq.
Qed.

(** The common case: queues only lose entries, and none that a sleeper needs. *)
Lemma tame_sub w w' :
  futex_inv w → fx_counter (fw_st w') = fx_counter (fw_st w) →
  (∀ pa, waiters w' pa ⊆+ waiters w pa) →
  (∀ t tk', fx_tasks (fw_st w') !! t = Some tk' →
     futex_key tk' = 0 ∨ ∃ tk, fx_tasks (fw_st w) !! t = Some tk ∧ futex_key tk = futex_key tk') →
  (∀ t pc' k, fw_pcs w' !! t = Some pc' → pc_key pc' = Some k → ∃ pc, fw_pcs w !! t = Some pc ∧ pc_key pc = Some k) →
  (∀ t tk', waiting w' t tk' → ∃ tk, waiting w t tk ∧ futex_key tk = futex_key tk' ∧ futex_pa tk = futex_pa tk' ∧
     ∀ wt, wt ∈ waiters w (futex_pa tk) → w_task wt = t → w_key wt = futex_key tk → wt ∈ waiters w' (futex_pa tk)) →
  (∀ e, e ∈ fw_cleanups w' → e ∈ fw_cleanups w ∨
     ∃ t tk, fx_tasks (fw_st w) !! t = Some tk ∧ futex_key tk = e.2 ∧ e.2 ≠ 0 ∧ ∀ tk', waiting w' t tk' → futex_key tk' ≠ e.2) →
  futex_inv w'.
Proof.
  intros Hi Hc Hq Ht Hp Hw Hcl. eapply futex_inv_tame; [done|]. split; try done.
  - intros pa. eapply keys_ok_submseteq; [apply Hq|apply Hi].
  - intros pa1 pa2 w1 w2 H1 H2. eapply (fi_apart _ Hi); by eapply elem_of_submseteq.
  - intros pa wt Hwt. exists pa. by eapply elem_of_submseteq.
  - intros t tk' Hwt. destruct (Hw _ _ Hwt) as (tk&Hwt0&E1&E2&Hk). split; [|eauto].
    destruct (fi_parked _ Hi _ _ Hwt0) as (wt&Hin&H1&H2). exists wt. rewrite <- E1, <- E2. eauto.
Qed.

(** Steps that leave the queues and all sleepers as they are. *)
Lemma tame_still w w' :
  futex_inv w → fx_counter (fw_st w') = fx_counter (fw_st w) → fx_queues (fw_st w') = fx_queues (fw_st w) →
  (∀ t tk', fx_tasks (fw_st w') !! t = Some tk' →
     futex_key tk' = 0 ∨ ∃ tk, fx_tasks (fw_st w) !! t = Some tk ∧ futex_key tk = futex_key tk') →
  (∀ t pc' k, fw_pcs w' !! t = Some pc' → pc_key pc' = Some k → ∃ pc, fw_pcs w !! t = Some pc ∧ pc_key pc = Some k) →
  (∀ t tk', waiting w' t tk' → ∃ tk, waiting w t tk ∧ futex_key tk = futex_key tk' ∧ futex_pa tk = futex_pa tk') →
  (∀ e, e ∈ fw_cleanups w' → e ∈ fw_cleanups w ∨
     ∃ t tk, fx_tasks (fw_st w) !! t = Some tk ∧ futex_key tk = e.2 ∧ e.2 ≠ 0 ∧ ∀ tk', waiting w' t tk' → futex_key tk' ≠ e.2) →
  futex_inv w'.
Proof.
  intros Hi Hc Hq Ht Hp Hw Hcl. eapply tame_sub; [done..| |done|done| |done].
  - intros pa. unfold waiters. by rewrite Hq.
  - intros t tk' Hwt. destruct (Hw _ _ Hwt) as (tk&?&?&?). exists tk. split; [done|]. split; [done|]. split; [done|].
    intros. unfold waiters. by rewrite Hq.
Qed.

(** Replacing one task, with its key or without one, and its place. *)
Lemma inv_set_task w t tk tk' st :
  futex_inv w → fx_tasks (fw_st w) !! t = Some tk →
  fx_counter st = fx_counter (fw_st w) → fx_queues st = fx_queues (fw_st w) →
  fx_tasks st = <[t := tk']> (fx_tasks (fw_st w)) →
  futex_key tk' = futex_key tk → futex_pa tk' = futex_pa tk →
  (ft_status tk' = Blocked → fw_pcs w !! t = Some Parked → ft_status tk = Blocked) →
  futex_inv (fw_set_st w st).
Proof.
  intros Hi Ht Hc Hq Hts Hk Hp Hb. apply (tame_still w); try done; cbn [fw_set_st fw_st fw_pcs fw_cleanups].
  - intros t0 tk0. rewrite Hts. destruct (decide (t0 = t)) as [->|?].
    + rewrite lookup_insert_eq. intros [= <-]. right. exists tk. by rewrite Hk.
    + rewrite lookup_insert_ne by done. intros. right. eauto.
  - eauto.
  - unfold waiting. cbn [fw_set_st fw_st fw_pcs]. rewrite Hts. intros t0 tk0 (H1&H2&H3).
    destruct (decide (t0 = t)) as [->|?].
    + rewrite lookup_insert_eq in H2. injection H2 as <-. exists tk. by auto.
    + rewrite lookup_insert_ne in H2 by done. by exists tk0.
  - auto.
Qed.

(** Moving one thread to another place outside the queues. *)
Lemma inv_set_pc w t pc pc' :
  futex_inv w → fw_pcs w !! t = Some pc → pc' ≠ Parked → (∀ k, pc_key pc' = Some k → pc_key pc = Some k) →
  futex_inv (fw_set_pc w t pc').
Proof.
  intros Hi Hpc Hn Hk. apply (tame_still w); try done; cbn [fw_set_pc fw_st fw_pcs fw_cleanups].
  - eauto.
  - intros t0 pc0 k. destruct (decide (t0 = t)) as [->|?].
    + rewrite lookup_insert_eq. intros [= <-] Hpk. eauto.
    + rewrite lookup_insert_ne by done. eauto.
  - unfold waiting. cbn [fw_set_pc fw_st fw_pcs]. intros t0 tk0 (H1&H2&H3). destruct (decide (t0 = t)) as [->|?].
    + rewrite lookup_insert_eq in H1. congruence.
    + rewrite lookup_insert_ne in H1 by done. by exists tk0.
  - auto.
Qed.

(** *** Wake, requeue, time-out, cleanup *)

Lemma waiters_insert w st pa q pa' :
  fx_queues st = <[pa := q]> (fx_queues (fw_st w)) →
  waiters (fw_set_st w st) pa' = if decide (pa' = pa) then q else waiters w pa'.
Proof.
  intros E. unfold waiters, queue_of. cbn [fw_set_st fw_st]. rewrite E.
  case_decide; [subst; by rewrite lookup_insert_eq|by rewrite lookup_insert_ne].
Qed.

Lemma waiting_live w t tk wt :
  waiting w t tk → w_task wt = t → w_key wt = futex_key tk → live (fx_tasks (fw_st w)) wt = true.
Proof. intros (_&H2&H3) E1 E2. unfold live. rewrite E1, H2. by apply waits_with_spec. Qed.

(** Tasks that [updated] leaves asleep have not changed. *)
Lemma updated_task f ws tasks tasks' t tk' :
  updated f ws tasks tasks' → (∀ tk, ft_status (f tk) ≠ Blocked ∧ futex_key (f tk) = 0) → tasks' !! t = Some tk' →
  futex_key tk' = 0 ∧ ft_status tk' ≠ Blocked ∨ tasks !! t = Some tk' ∧ t ∉ w_task <$> ws.
Proof.
  intros Hu Hf. rewrite Hu. case_decide; [|auto].
  intros (tk&_&->)%fmap_Some. left. destruct (Hf tk). auto.
Qed.

Lemma woken_spec tk : ft_status (woken tk) ≠ Blocked ∧ futex_key (woken tk) = 0.
Proof. done. Qed.

Lemma inv_wake w pa n b : futex_inv w → futex_inv (fw_set_st w (futex_wake_up_bitset (fw_st w) pa n b).1).
Proof.
  intros Hi. unfold futex_wake_up_bitset. destruct (b =? 0); [by destruct w|].
  cbn [bump_futex_queue_version fx_queues]. destruct (fx_queues (fw_st w) !! pa) as [q|] eqn:Hq.
  2: { apply (tame_still w); try done; eauto. }
  set (m := if n <=? 0 then 1 else n).
  assert (waiters w pa = q) as Eq by (unfold waiters, queue_of; by rewrite Hq).
  destruct (wake_loop_spec m b q [] (bump_futex_queue_version (fw_st w)) 0) as
    (st'&q'&num'&r1&r2&Hl&[Hr Hq' Hn Hmax Hend Hts Hrd (Hfq&Hfv&Hfc)]); [rewrite <- Eq; apply Hi|].
  rewrite app_nil_r in Hl. rewrite Hl. cbn [fst]. cbn [bump_futex_queue_version fx_tasks fx_queues fx_counter] in *.
  set (st1 := fx_set_queues _ _).
  assert (fx_queues st1 = <[pa := q']> (fx_queues (fw_st w))) as E1 by (subst st1; simpl; by rewrite Hfq).
  apply (tame_sub w); [done|done|..]; cbn [fw_set_st fw_st fw_pcs fw_cleanups]; [|..|by auto].
  - intros pa'. rewrite (waiters_insert _ _ pa q') by done. case_decide; [subst pa'; rewrite Eq, Hq', Hr|done]. cbn [app].
    rewrite (Permutation_app_comm r1). apply submseteq_app; [done|]. apply sublist_submseteq, retain_sublist.
  - intros t tk' Ht. destruct (updated_task _ _ _ _ _ _ Hts woken_spec Ht) as [[? _]|[? _]]; eauto.
  - eauto.
  - intros t tk' (H1&H2&H3). destruct (updated_task _ _ _ _ _ _ Hts woken_spec H2) as [[_ ?]|[H4 H5]]; [done|].
    exists tk'. split; [done|]. split; [done|]. split; [done|]. intros wt Hwt E2 E3.
    rewrite (waiters_insert _ _ pa q') by done. case_decide as Hd; [|done]. rewrite Hd, Eq, Hr in Hwt. rewrite Hq'. cbn [app].
    assert (live (fx_tasks (fw_st w)) wt = true) as Hlv by by eapply (waiting_live w t tk').
    apply elem_of_app in Hwt as [Hwt|?]; [|set_solver]. apply elem_of_app. right. apply elem_of_retain. split; [done|].
    destruct (matching b wt) eqn:Em.
    + exfalso. apply H5, list_elem_of_fmap. exists wt. split; [done|]. apply elem_of_retain. by rewrite Hlv, Em.
    + rewrite andb_true_r. apply bool_decide_eq_true. rewrite E2, H4. eauto.
Qed.

Lemma drop_at_spec (key : Z) (q : list FutexWaiter) i :
  position (λ w, w_key w =? key) q = Some i →
  take i q ++ drop (S i) q ⊆+ q ∧ ∀ wt, wt ∈ q → w_key wt ≠ key → wt ∈ take i q ++ drop (S i) q.
Proof.
  intros (x&Hx&Hk%Z.eqb_eq&_)%position_Some. pose proof (take_drop_middle q i x Hx) as E. split.
  - rewrite <- E at 3. apply submseteq_app; [done|]. by apply submseteq_cons.
  - intros wt Hwt Hne. rewrite <- E in Hwt. set_solver.
Qed.

(** A world whose queue [pa] lost the entry of [key]. *)
Record lost_entry (st st' : FutexState) (key : Z) : Prop := {
  le_counter : fx_counter st' = fx_counter st;
  le_sub pa : queue_of (fx_queues st') pa ⊆+ queue_of (fx_queues st) pa;
  le_others pa wt : wt ∈ queue_of (fx_queues st) pa → w_key wt ≠ key → wt ∈ queue_of (fx_queues st') pa
}.

Lemma lost_entry_at st st' pa q key i :
  fx_queues st !! pa = Some q → position (λ w, w_key w =? key) q = Some i →
  fx_counter st' = fx_counter st → fx_queues st' = <[pa := take i q ++ drop (S i) q]> (fx_queues st) →
  lost_entry st st' key.
Proof.
  intros Hq Hp Hc E. destruct (drop_at_spec key q i Hp) as [Hs Hk].
  split; [done|..]; intros pa'; unfold queue_of; rewrite E; destruct (decide (pa' = pa)) as [->|Hd].
  - by rewrite lookup_insert_eq, Hq.
  - by rewrite lookup_insert_ne.
  - rewrite lookup_insert_eq, Hq. apply Hk.
  - by rewrite lookup_insert_ne.
Qed.

Lemma remove_waiter_spec st pa key :
  lost_entry st (remove_waiter st pa key) key ∧ fx_tasks (remove_waiter st pa key) = fx_tasks st.
Proof.
  unfold remove_waiter. destruct (fx_queues st !! pa) as [q|] eqn:Hq; [|by split].
  destruct (position _ q) as [i|] eqn:Hp; [|by split]. split; [|done]. by eapply lost_entry_at.
Qed.

Lemma inv_cleanup w l1 e l2 :
  futex_inv w → fw_cleanups w = l1 ++ e :: l2 →
  futex_inv (mkFw (remove_waiter (fw_st w) e.1 e.2) (fw_pcs w) (fw_words w) (l1 ++ l2)).
Proof.
  intros Hi He. destruct (remove_waiter_spec (fw_st w) e.1 e.2) as [[Hc Hs Ho] Ht].
  apply (tame_sub w); cbn [fw_st fw_pcs fw_cleanups]; try done.
  - intros t tk'. rewrite Ht. eauto.
  - eauto.
  - intros t tk'. unfold waiting. cbn [fw_st fw_pcs]. rewrite Ht. intros Hw. exists tk'.
    split; [done|]. split; [done|]. split; [done|]. intros wt Hwt E1 E2. apply Ho; [done|]. rewrite E2.
    apply (proj2 (fi_clean _ Hi e ltac:(rewrite He; set_solver)) t tk'). done.
  - intros e' He'. left. rewrite He. set_solver.
Qed.

Lemma inv_timer w t key st : futex_inv w → handle_timer (fw_st w) t key = Done st → futex_inv (fw_set_st w st).
Proof.
  intros Hi. unfold handle_timer. cbn [bump_futex_queue_version fx_tasks fx_queues].
  destruct (fx_tasks (fw_st w) !! t) as [tk|] eqn:Ht; [|done]. cbn [unwrap mbind comp_bind].
  assert (∀ st, st = bump_futex_queue_version (fw_st w) → futex_inv (fw_set_st w st)) as Hbump.
  { intros ? ->. apply (tame_still w); try done; eauto. }
  destruct (Z.eqb_spec (futex_key tk) key) as [<-|]; cbn [negb]; [|intros [= <-]; by apply Hbump].
  destruct (fx_queues (fw_st w) !! futex_pa tk) as [q|] eqn:Hq; [|done]. cbn [unwrap mbind comp_bind].
  destruct (position _ q) as [i|] eqn:Hp; [|intros [= <-]; by apply Hbump].
  intros [= <-]. unfold timeout_futex_task. set (st1 := fx_set_queues _ _). fold (fx_tasks st1).
  assert (∃ tk', fx_tasks (if waits_with tk (futex_key tk) then
      (fx_add_ready (fx_set_task st1 t (timed_out tk)) t, true) else (st1, false)).1 = <[t := tk']> (fx_tasks (fw_st w)) ∧
      ft_status tk' ≠ Blocked ∧ (futex_key tk' = 0 ∨ futex_key tk' = futex_key tk)) as (tk'&Ets&Hnb&Hk).
  { destruct (waits_with tk (futex_key tk)) eqn:E; [by exists (timed_out tk); auto|].
    exists tk. cbn [fst]. split; [by rewrite insert_id|]. split; [|by right]. intros Hb.
    assert (waits_with tk (futex_key tk) = true) by by apply waits_with_spec. congruence. }
  set (st2 := (if waits_with tk (futex_key tk) then _ else _).1) in *.
  assert (lost_entry (fw_st w) st2 (futex_key tk)) as [Hc Hs Ho].
  { eapply lost_entry_at; [exact Hq|exact Hp|..]; subst st2; by destruct (waits_with tk (futex_key tk)). }
  clearbody st2. apply (tame_sub w); cbn [fw_set_st fw_st fw_pcs fw_cleanups]; try done; [..|by auto].
  - intros t0 tk0. rewrite Ets. destruct (decide (t0 = t)) as [->|?].
    + rewrite lookup_insert_eq. intros [= <-]. destruct Hk as [?|Hk]; [by left|]. right. exists tk. auto.
    + rewrite lookup_insert_ne by done. eauto.
  - eauto.
  - unfold waiting. cbn [fw_set_st fw_st fw_pcs]. rewrite Ets. intros t0 tk0 (H1&H2&H3).
    destruct (decide (t0 = t)) as [->|Hd]; [rewrite lookup_insert_eq in H2; congruence|].
    rewrite lookup_insert_ne in H2 by done. exists tk0. split; [done|]. split; [done|]. split; [done|].
    intros wt Hwt E1 E2. apply Ho; [done|]. rewrite E2. intros E. apply Hd.
    destruct (decide (futex_key tk = 0)) as [Hz|Hz]; [|eapply (fi_unique _ Hi); [exact H2|exact Ht|done|congruence]].
    exfalso. pose proof (fi_keys _ Hi (futex_pa tk0)) as [_ Hkz]. rewrite Forall_forall in Hkz.
    apply (Hkz wt Hwt). congruence.
Qed.

(** The waiters after a requeue, by where they come from. *)
Lemma requeue_waiters queues old_pa new_pa q ms rs :
  queues !! old_pa = Some q →
  let queues' :=
    if old_pa =? new_pa then insert_nonempty old_pa (rs ++ ms) (delete old_pa queues)
    else let m := insert_nonempty old_pa rs (delete old_pa queues) in
         match ms with [] => m | _ => extend_queue new_pa ms m end in
  ∀ pa, queue_of queues' pa ≡ₚ
    (if decide (pa = old_pa) then rs else queue_of queues pa) ++ (if decide (pa = new_pa) then ms else []).
Proof.
  intros Hq queues' pa. subst queues'. destruct (Z.eqb_spec old_pa new_pa) as [->|Hne].
  - rewrite queue_of_insert_nonempty by apply lookup_delete_eq. case_decide; [done|].
    rewrite app_nil_r. unfold queue_of. by rewrite lookup_delete_ne.
  - rewrite requeue_queues by (apply lookup_delete_eq || done). unfold queue_of.
    repeat case_decide; subst; rewrite ?app_nil_r; try done; by rewrite lookup_delete_ne.
Qed.

Section requeue_inv.
Context (w w' : FutexWorld) (pa pa' : Z) (ws ms rs : list FutexWaiter).
Context (Hi : futex_inv w).
Context (Hwt : ∀ pa0, waiters w' pa0 ≡ₚ
  (if decide (pa0 = pa) then rs else waiters w pa0) ++ (if decide (pa0 = pa') then ms else [])).
Context (Hsub : ms ++ rs ⊆+ waiters w pa).
Context (Hlive : ∀ x, x ∈ ms → live (fx_tasks (fw_st w)) x = true).
Context (Hall : ∀ x, x ∈ waiters w pa → live (fx_tasks (fw_st w)) x = true → x ∈ ws ∨ x ∈ ms ∨ x ∈ rs).
Context (Hts : requeued pa' ws ms (fx_tasks (fw_st w)) (fx_tasks (fw_st w'))).
Context (Ec : fx_counter (fw_st w') = fx_counter (fw_st w)) (Ep : fw_pcs w' = fw_pcs w).
Context (Ecl : fw_cleanups w' = fw_cleanups w).

(** Where an entry comes from, and where it is. *)
Lemma requeue_origin pa0 x : x ∈ waiters w' pa0 →
  x ∈ waiters w pa0 ∧ pa0 ≠ pa ∨ x ∈ rs ∧ pa0 = pa ∨ x ∈ ms ∧ pa0 = pa'.
Proof. rewrite Hwt, elem_of_app. repeat case_decide; set_solver. Qed.

Lemma requeue_from x : x ∈ rs ∨ x ∈ ms → x ∈ waiters w pa.
Proof. intros Hx. eapply elem_of_submseteq; [|exact Hsub]. set_solver. Qed.

Lemma same_key_same x y : x ∈ waiters w pa → y ∈ waiters w pa → w_key x = w_key y → x = y.
Proof.
  intros Hx Hy E. destruct (fi_keys _ Hi pa) as [Hnd _].
  apply list_elem_of_lookup in Hx as [i Hi'], Hy as [j Hj].
  assert (i = j) as ->; [|congruence].
  eapply (NoDup_lookup _ _ _ (w_key x) Hnd); rewrite list_lookup_fmap; [by rewrite Hi'|rewrite Hj; simpl; by rewrite E].
Qed.

Lemma requeue_keys pa0 : keys_ok (waiters w' pa0).
Proof.
  assert (keys_ok (ms ++ rs)) as Hmr by (eapply keys_ok_submseteq; [exact Hsub|apply Hi]).
  assert (waiters w' pa0 ⊆+ ms ++ rs ∨ waiters w' pa0 ⊆+ waiters w pa0 ++ ms ∧ pa0 ≠ pa) as [?|[Hs Hd]].
  { rewrite Hwt. repeat case_decide; subst; rewrite ?app_nil_r.
    - left. by rewrite (Permutation_app_comm ms).
    - left. by apply submseteq_inserts_l.
    - right. done.
    - right. split; [by apply submseteq_inserts_r|done]. }
  { by eapply keys_ok_submseteq. }
  eapply keys_ok_submseteq; [exact Hs|]. destruct (fi_keys _ Hi pa0) as [Hn Hz]. destruct Hmr as [Hn' Hz'].
  rewrite fmap_app in Hn'. apply NoDup_app in Hn' as (Hnm&_&_). apply Forall_app in Hz' as [Hzm _].
  split; [|by apply Forall_app]. rewrite fmap_app. apply NoDup_app. split; [done|]. split; [|done].
  intros k (x&->&Hx)%list_elem_of_fmap (y&E&Hy)%list_elem_of_fmap. apply Hd.
  eapply (fi_apart _ Hi); [exact Hx|apply requeue_from; by right|done].
Qed.

Lemma requeue_apart pa1 pa2 x y : x ∈ waiters w' pa1 → y ∈ waiters w' pa2 → w_key x = w_key y → pa1 = pa2.
Proof.
  assert (∀ z, z ∈ rs → z ∈ ms → False) as Hdis.
  { intros z H1 H2. destruct (fi_keys _ Hi pa) as [Hnd _].
    assert (keys_ok (ms ++ rs)) as [Hn _] by (eapply keys_ok_submseteq; [exact Hsub|apply Hi]).
    rewrite fmap_app in Hn. apply NoDup_app in Hn as (_&Hn&_). apply (Hn (w_key z)); apply list_elem_of_fmap; eauto. }
  intros Hx%requeue_origin Hy%requeue_origin E.
  destruct Hx as [[Hx Hd]|[[Hx ->]|[Hx ->]]], Hy as [[Hy Hd']|[[Hy ->]|[Hy ->]]]; try done.
  1: by eapply (fi_apart _ Hi).
  all: try (exfalso; apply Hd, (fi_apart _ Hi _ _ x y Hx); [apply requeue_from; by auto|done]).
  all: try (exfalso; apply Hd', (fi_apart _ Hi _ _ y x Hy); [apply requeue_from; by auto|done]).
  all: assert (x = y) as -> by (apply same_key_same; auto using requeue_from); exfalso; eauto.
Qed.

Lemma requeue_waiting t tk' : waiting w' t tk' →
  findable w' t tk' ∧ ∃ tk, waiting w t tk ∧ futex_key tk = futex_key tk'.
Proof.
  intros (H1&H2&H3). rewrite Ep in H1. rewrite Hts in H2. case_decide as Hws.
  { apply fmap_Some in H2 as (tk&_&->). done. }
  case_decide as Hms.
  - apply fmap_Some in H2 as (tk&H2&->). split; [|by exists tk]. apply list_elem_of_fmap in Hms as (x&->&Hx).
    exists x. split; [rewrite Hwt, (decide_True (P := futex_pa (moved_to tk pa') = pa')) by done; set_solver|]. split; [done|].
    specialize (Hlive x Hx). unfold live in Hlive. rewrite H2 in Hlive. by apply waits_with_spec in Hlive as [_ ?].
  - split; [|by exists tk']. destruct (fi_parked _ Hi t tk') as (x&Hx&E1&E2); [done|]. exists x. split; [|done].
    rewrite Hwt. case_decide as Hd; [|set_solver]. rewrite Hd in Hx. apply elem_of_app. left.
    destruct (Hall x Hx) as [?|[?|?]]; [unfold live; rewrite E1, H2; by apply waits_with_spec|..|done].
    + destruct Hws. apply list_elem_of_fmap. eauto.
    + destruct Hms. apply list_elem_of_fmap. eauto.
Qed.

Lemma requeue_inv : futex_inv w'.
Proof.
  apply (futex_inv_tame w); [done|]. split; [done|apply requeue_keys|apply requeue_apart|..].
  - intros pa0 x [[? _]|[[? _]|[? _]]]%requeue_origin; eauto using requeue_from.
  - intros t tk'. rewrite Hts. repeat case_decide; [|intros (tk&?&->)%fmap_Some; right; by exists tk|by eauto].
    intros (tk&_&->)%fmap_Some. by left.
  - rewrite Ep. eauto.
  - apply requeue_waiting.
  - rewrite Ecl. auto.
Qed.
End requeue_inv.

Lemma inv_requeue w pa n pa' n' : futex_inv w → futex_inv (fw_set_st w (futex_requeue (fw_st w) pa n pa' n').1).
Proof.
  intros Hi. unfold futex_requeue. cbn [bump_futex_queue_version fx_queues].
  destruct (fx_queues (fw_st w) !! pa) as [q|] eqn:Hq.
  2: { apply (tame_still w); try done; eauto. }
  assert (waiters w pa = q) as Eq by (unfold waiters, queue_of; by rewrite Hq).
  assert (keys_ok q) as Hkq by (rewrite <- Eq; apply Hi).
  set (st1 := fx_set_queues _ _).
  destruct (requeue_loop_spec q st1 0 (Z.max n 0) 0 (Z.max n' 0) pa' [] [] Hkq)
    as (st'&ws&ms&rs&Hl&[Hws Hms _ Hsub Hall Hts Hrd (Hfq&_&Hfc)]). rewrite Hl. cbn [app fst].
  apply (requeue_inv w _ pa pa' ws ms rs); rewrite ?Eq; try done.
  - intros pa0. unfold waiters. cbn [fw_set_st fw_st fx_set_queues fx_queues]. rewrite Hfq.
    by apply (requeue_waiters _ _ _ q).
  - etrans; [|exact Hsub]. by apply submseteq_inserts_l.
  - intros x Hx. subst ms. assert (x ∈ retain (live (fx_tasks (fw_st w))) q) as [_ ?]%elem_of_retain; [|done].
    eapply elem_of_submseteq; [exact Hx|]. apply sublist_submseteq. etrans; [apply sublist_take|apply sublist_drop].
Qed.

(** *** The steps of a wait *)

Lemma inv_resume w t tk tk' r entry :
  futex_inv w → fw_pcs w !! t = Some Parked → fx_tasks (fw_st w) !! t = Some tk → ft_status tk = Running →
  wait_resume tk = (tk', r, entry) →
  futex_inv (mkFw (fx_set_task (fw_st w) t tk') (<[t := Outside]> (fw_pcs w)) (fw_words w)
               (option_list entry ++ fw_cleanups w)).
Proof.
  intros Hi Hp Ht Hs Hr.
  assert (futex_key tk' = futex_key tk ∧ (entry = None ∨ entry = Some (futex_pa tk, futex_key tk) ∧ futex_key tk ≠ 0))
    as [Hk He].
  { unfold wait_resume in Hr. destruct (Z.eqb_spec (futex_key tk) 0), (ft_signalled tk), (futex_timedout tk);
      injection Hr as <- <- <-; auto. }
  apply (tame_still w); cbn [fw_st fw_pcs fw_cleanups fx_set_task fx_tasks]; try done.
  - intros t0 tk0. destruct (decide (t0 = t)) as [->|?].
    + rewrite lookup_insert_eq. intros [= <-]. right. exists tk. by rewrite Hk.
    + rewrite lookup_insert_ne by done. eauto.
  - intros t0 pc0 k. destruct (decide (t0 = t)) as [->|?]; [by rewrite lookup_insert_eq; intros [= <-]|].
    rewrite lookup_insert_ne by done. eauto.
  - unfold waiting. cbn [fw_st fw_pcs fx_set_task fx_tasks]. intros t0 tk0 (H1&H2&H3).
    destruct (decide (t0 = t)) as [->|?]; [by rewrite lookup_insert_eq in H1|].
    rewrite lookup_insert_ne in H1 by done. rewrite lookup_insert_ne in H2 by done. by exists tk0.
  - intros e [Hin|?]%elem_of_app; [right|by left]. destruct He as [->|[-> Hz]]; [by apply elem_of_nil in Hin|].
    apply list_elem_of_singleton in Hin as ->. exists t, tk. cbn [snd]. split; [done|]. split; [done|]. split; [done|].
    intros tk0 (H1&_). cbn [fw_pcs] in H1. by rewrite lookup_insert_eq in H1.
Qed.

Lemma inv_release w t tk st entry :
  futex_inv w → fx_tasks (fw_st w) !! t = Some tk → release_sibling (fw_st w) t tk = (st, entry) →
  futex_inv (mkFw st (fw_pcs w) (fw_words w) (option_list entry ++ fw_cleanups w)).
Proof.
  intros Hi Ht. unfold release_sibling. case_bool_decide as Hb; [|intros [= <- <-]; by destruct w].
  intros [= <- <-]. apply (tame_still w); cbn [fw_st fw_pcs fw_cleanups fx_add_ready fx_set_task fx_tasks]; try done.
  - intros t0 tk0. destruct (decide (t0 = t)) as [->|?].
    + rewrite lookup_insert_eq. intros [= <-]. by left.
    + rewrite lookup_insert_ne by done. eauto.
  - eauto.
  - unfold waiting. cbn [fw_st fw_pcs fx_add_ready fx_set_task fx_tasks]. intros t0 tk0 (H1&H2&H3).
    destruct (decide (t0 = t)) as [->|?]; [rewrite lookup_insert_eq in H2; injection H2 as <-; done|].
    rewrite lookup_insert_ne in H2 by done. by exists tk0.
  - intros e [Hin|?]%elem_of_app; [right|by left].
    destruct (Z.eqb_spec (futex_key tk) 0); [by apply elem_of_nil in Hin|].
    apply list_elem_of_singleton in Hin as ->. exists t, tk. cbn [snd]. split; [done|]. split; [done|]. split; [done|].
    intros tk0 (_&H2&H3). cbn [fw_st fx_add_ready fx_set_task fx_tasks] in H2. rewrite lookup_insert_eq in H2.
    by injection H2 as <-.
Qed.

Lemma inv_wait w t tk q a e b st key :
  futex_inv w → fx_tasks (fw_st w) !! t = Some tk → ft_status tk = Running → fw_pcs w !! t = Some Outside →
  fx_counter (fw_st w) < usize_max → new_futex_key (fw_st w) = (st, key) →
  futex_inv (fw_set_pc (fw_set_st w st) t (Reading (mkWait key q a e b))).
Proof.
  intros [Hk Ha Hb Hc Ht Hu Hf Hp Hw Hcl] Htk Hs Hpc Hmax Hn. unfold new_futex_key in Hn. injection Hn as <- <-.
  assert (wrap64 (fx_counter (fw_st w) + 1) = fx_counter (fw_st w) + 1) as -> by (apply wrap64_small; unfold is_usize; lia).
  assert (∀ t0 tk0, waiting (fw_set_pc (fw_set_st w (mkFx (fx_queues (fw_st w)) (fx_version (fw_st w))
    (fx_counter (fw_st w) + 1) (fx_tasks (fw_st w)) (fx_ready (fw_st w)))) t
    (Reading (mkWait (fx_counter (fw_st w) + 1) q a e b))) t0 tk0 → waiting w t0 tk0) as Hwt.
  { unfold waiting. simpl. intros t0 tk0 (H1&H2&H3). destruct (decide (t0 = t)) as [->|?].
    - by rewrite lookup_insert_eq in H1.
    - by rewrite lookup_insert_ne in H1. }
  split; cbn [fw_set_pc fw_set_st fw_st fw_pcs fw_cleanups fx_counter fx_tasks]; try done.
  - intros pa wt Hin. specialize (Hb pa wt Hin). lia.
  - lia.
  - intros t0 tk0 H0. specialize (Ht t0 tk0 H0). lia.
  - intros t0 pc k. destruct (decide (t0 = t)) as [->|?].
    + rewrite lookup_insert_eq. intros [= <-] [= <-]. split; [lia|].
      split; [intros pa wt Hin; specialize (Hb pa wt Hin); lia|].
      split; [intros t' tk' H0; specialize (Ht t' tk' H0); lia|]. intros e0 He. specialize (Hcl e0 He). lia.
    + rewrite lookup_insert_ne by done. intros H1 H2. destruct (Hf _ _ _ H1 H2) as ([? ?]&?). split; [lia|done].
  - assert (∀ t0 pc k, fw_pcs w !! t0 = Some pc → pc_key pc = Some k → k ≤ fx_counter (fw_st w)) as Hle.
    { intros t0 pc k H1 H2. by destruct (Hf _ _ _ H1 H2) as ([? ?]&_). }
    intros t0 t1 pc pc' k H1 H2 E1 E2.
    destruct (decide (t0 = t)) as [->|?], (decide (t1 = t)) as [->|?];
      rewrite ?lookup_insert_eq in *; rewrite ?lookup_insert_ne in * by done; try done; simplify_eq/=.
    + specialize (Hle _ _ _ H2 E2). lia.
    + specialize (Hle _ _ _ H1 E1). lia.
    + by eapply Hp.
  - intros t0 tk0 H0%Hwt. by apply Hw.
  - intros e0 He. destruct (Hcl e0 He) as [? Hcl']. split; [lia|]. intros t0 tk0 H0%Hwt. eauto.
Qed.

Lemma inv_asleep w t tk a v st :
  futex_inv w → fw_pcs w !! t = Some (Versioned a v) → fx_tasks (fw_st w) !! t = Some tk →
  wait_enqueue (fw_st w) t tk v (wa_queue a) (wa_key a) (wa_bitset a) = Asleep st →
  futex_inv (fw_set_pc (fw_set_st w st) t Parked).
Proof.
  intros [Hk Ha Hb Hc Ht Hu Hf Hp Hw Hcl] Hpc Htk. unfold wait_enqueue.
  destruct (negb _); [done|]. destruct (ft_signalled tk); [done|]. intros [= <-].
  destruct (Hf _ _ _ Hpc eq_refl) as ([Hk0 Hkc]&Hfq&Hft&Hfc).
  set (nw := mkWaiter t (wa_bitset a) (wa_key a)). set (w' := fw_set_pc _ _ _).
  assert (∀ pa, waiters w' pa = if decide (pa = wa_queue a) then waiters w pa ++ [nw] else waiters w pa) as Hwt.
  { intros pa. unfold waiters, queue_of. subst w'. simpl. case_decide; [subst; by rewrite lookup_insert_eq|by rewrite lookup_insert_ne]. }
  assert (∀ pa x, x ∈ waiters w' pa → x ∈ waiters w pa ∨ x = nw ∧ pa = wa_queue a) as Hin.
  { intros pa x. rewrite Hwt. case_decide; set_solver. }
  assert (∀ t0 tk0, fx_tasks (fw_st w') !! t0 = Some tk0 →
    t0 = t ∧ futex_key tk0 = wa_key a ∧ futex_pa tk0 = wa_queue a ∨ t0 ≠ t ∧ fx_tasks (fw_st w) !! t0 = Some tk0) as Htin.
  { intros t0 tk0. subst w'. simpl. destruct (decide (t0 = t)) as [->|?]; [rewrite lookup_insert_eq; intros [= <-]; auto|].
    rewrite lookup_insert_ne by done. auto. }
  assert (∀ t0 pc, fw_pcs w' !! t0 = Some pc → t0 = t ∧ pc = Parked ∨ t0 ≠ t ∧ fw_pcs w !! t0 = Some pc) as Hpin.
  { intros t0 pc. subst w'. simpl. destruct (decide (t0 = t)) as [->|?]; [rewrite lookup_insert_eq; intros [= <-]; auto|].
    rewrite lookup_insert_ne by done. auto. }
  assert (fx_counter (fw_st w') = fx_counter (fw_st w) ∧ fw_cleanups w' = fw_cleanups w) as [Ec Ecl] by done. clearbody w'.
  split; rewrite ?Ec, ?Ecl.
  - intros pa. rewrite Hwt. case_decide; [|done]. destruct (Hk pa) as [Hnd Hz]. split.
    + rewrite fmap_app. apply NoDup_app. split; [done|]. split; [|apply NoDup_singleton].
      intros k (x&->&Hx)%list_elem_of_fmap E%list_elem_of_singleton. by apply (Hfq pa x).
    + apply Forall_app. split; [done|]. constructor; [simpl; lia|constructor].
  - intros pa1 pa2 x y [Hx|[-> ->]]%Hin [Hy|[-> ->]]%Hin E; [by eapply Ha|..|done]; exfalso.
    + by apply (Hfq pa1 x).
    + by apply (Hfq pa2 y).
  - intros pa x [Hx|[-> ->]]%Hin; [by eapply Hb|done].
  - done.
  - intros t0 tk0 [(->&->&_)|[_ H0]]%Htin; [lia|by eapply Ht].
  - intros t0 t1 tk0 tk1 [(->&E0&_)|[? H0]]%Htin [(->&E1&_)|[? H1]]%Htin E Hne; [done|..|by eapply Hu]; exfalso.
    + apply (Hft t1 tk1 H1). congruence.
    + apply (Hft t0 tk0 H0). congruence.
  - intros t0 pc k [[-> ->]|[Hd H0]]%Hpin Hpk; [done|]. destruct (Hf _ _ _ H0 Hpk) as (?&Q&T&C). split; [done|].
    assert (k ≠ wa_key a) as Hka by (intros ->; apply Hd; by eapply Hp).
    split; [intros pa x [Hx|[-> ->]]%Hin; [by eapply Q|simpl; congruence]|]. split; [|done].
    intros t1 tk1 [(->&->&_)|[_ Ht1]]%Htin; [congruence|by eapply T].
  - intros t0 t1 pc pc' k [[-> ->]|[? H0]]%Hpin [[-> ->]|[? H1]]%Hpin E0 E1; try done. by eapply Hp.
  - intros t0 tk0 (H1&H2&H3). destruct (Htin _ _ H2) as [(->&E1&E2)|[Hd H4]].
    + exists nw. rewrite Hwt, E2, decide_True by done. split; [set_solver|done].
    + destruct (Hpin _ _ H1) as [[-> _]|[_ H5]]; [done|]. destruct (Hw t0 tk0) as (x&Hx&?&?); [done|].
      exists x. split; [rewrite Hwt; case_decide; set_solver|done].
  - intros e He. destruct (Hcl e He) as [? Hn]. split; [done|]. intros t0 tk0 (H1&H2&H3).
    destruct (Htin _ _ H2) as [(->&E1&E2)|[Hd H4]]; [rewrite E1; intros E; by apply (Hfc e He)|].
    destruct (Hpin _ _ H1) as [[-> _]|[_ H5]]; [done|]. by apply (Hn t0 tk0).
Qed.

Lemma futex_step_inv w w' : futex_inv w → futex_step w w' → futex_inv w'.
Proof.
  intros Hi Hst. destruct Hst as
    [w t Ht|w t tk Ht Hs|w t tk Ht Hs Hp|w t tk Ht Hs|w t tk b Ht|w t tk Ht Hs Hp|w a v|w t tk q a e b st key Ht Hs Hp Hc Hn
    |w t a v Hp Hv|w t a Hp Hv|w t a Hp|w t tk a v Hp Ht Hs|w t tk tk' r entry Hp Ht Hs Hr|w l1 e l2 He|w|w pa n b|w pa n pa' n'
    |w t key st Hh|w t tk st entry Ht Hr].
  - apply (tame_still w); simpl; try done; [..|by auto].
    + intros t0 tk0. destruct (decide (t0 = t)) as [->|?]; [rewrite lookup_insert_eq; intros [= <-]; by left|].
      rewrite lookup_insert_ne by done. eauto.
    + intros t0 pc k. destruct (decide (t0 = t)) as [->|?]; [by rewrite lookup_insert_eq; intros [= <-]|].
      rewrite lookup_insert_ne by done. eauto.
    + unfold waiting. simpl. intros t0 tk0 (H1&H2&H3). destruct (decide (t0 = t)) as [->|?];
        [by rewrite lookup_insert_eq in H1|]. rewrite lookup_insert_ne in H1 by done. rewrite lookup_insert_ne in H2 by done. by exists tk0.
  - by apply (inv_set_task w t tk (set_ft_status tk Running)).
  - apply (inv_set_task w t tk (set_ft_status tk Blocked)); try done. simpl. congruence.
  - by apply (inv_set_task w t tk (set_ft_status tk Ready)).
  - by apply (inv_set_task w t tk (set_ft_signalled tk b)).
  - apply (tame_still w); simpl; try done; [..|by auto].
    + intros t0 tk0 [_ H0]%lookup_delete_Some. eauto.
    + eauto.
    + unfold waiting. simpl. intros t0 tk0 (H1&[_ H2]%lookup_delete_Some&H3). by exists tk0.
  - apply (tame_still w); simpl; try done; eauto.
  - by eapply inv_wait.
  - eapply inv_set_pc; [done|exact Hp|by destruct (v =? _)|]. by destruct (v =? wa_expected a).
  - by eapply inv_set_pc.
  - by eapply inv_set_pc.
  - destruct (wait_enqueue _ _ _ _ _ _ _) eqn:He; [by eapply inv_set_pc..|by eapply inv_asleep].
  - by eapply inv_resume.
  - by apply inv_cleanup.
  - apply (tame_still w); simpl; try done; eauto.
  - by apply inv_wake.
  - by apply inv_requeue.
  - by eapply inv_timer.
  - by eapply inv_release.
Qed.

Lemma futex_init_inv : futex_inv futex_init.
Proof.
  assert (∀ pa, waiters futex_init pa = []) as E by done.
  split; try (intros *; rewrite ?E); simpl; try done; try (by intros ?%elem_of_nil).
  - split; constructor.
  - by intros (?&?&?).
Qed.


(** The next step of an execution; its premises and the new state by evaluation. *)
Lemma step_to w w1 w2 w3 : futex_step w w1 → w1 = w2 → rtc futex_step w2 w3 → rtc futex_step w w3.
Proof. intros Hs <- Hr. by eapply rtc_l. Qed.
Local Tactic Notation "go" uconstr(c) :=
  eapply step_to; [eapply c; first [reflexivity|done|vm_compute; reflexivity]|vm_compute; reflexivity|].

(** Thread 1 starts and is about to wait for the word at 100 to change from 0. *)
Definition word_world (v : Z) : FutexWorld := mkFw (mkFx ∅ 0 0 ∅ []) ∅ {[100 := v]} [].

Lemma reach_word : rtc futex_step futex_init (word_world 0).
Proof. eapply rtc_l; [apply (fs_store _ 100 0)|]. apply rtc_refl. Qed.


(** ** Defects of the protocol *)

(** A wake-up can be lost: the version is read after the comparison, so it
    does not cover it.  Thread 1 reads the word and finds the expected value;
    another thread changes the word and calls [FUTEX_WAKE], which finds nobody;
    thread 1 then reads the version, which no longer changes, and goes to sleep
    although the word differs from the expected value. *)
Theorem futex_wait_lost_wakeup :
  ∃ w1 w2 w3 a tk,
    rtc futex_step futex_init w1 ∧ fw_pcs w1 !! 1 = Some (Compared a) ∧ wa_uaddr a = 100 ∧ wa_expected a = 0 ∧
    futex_step w1 w2 ∧ fw_words w2 !! 100 = Some 1 ∧
    (futex_wake_up (fw_st w2) 100 1).2 = 0 ∧
    rtc futex_step (fw_set_st w2 (futex_wake_up (fw_st w2) 100 1).1) w3 ∧
    waiting w3 1 tk ∧ fw_words w3 !! 100 = Some 1.
Proof.
  eexists _, _, _, _, _. split.
  { etrans; [exact reach_word|]. go (fs_spawn _ 1). go (fs_dispatch _ 1). go (fs_wait _ 1 _ 100 100 0 u32_max).
    go (fs_compare _ 1). apply rtc_refl. }
  split; [vm_compute; reflexivity|]. split; [reflexivity|]. split; [reflexivity|].
  split; [apply (fs_store _ 100 1)|]. split; [vm_compute; reflexivity|]. split; [vm_compute; reflexivity|].
  split; [go (fs_version _ 1); go (fs_enqueue _ 1); apply rtc_refl|].
  split; [split; [vm_compute; reflexivity|]; split; [vm_compute; reflexivity|reflexivity]|vm_compute; reflexivity].
Qed.

(** A wake-up can go to a thread that does not wait: after a wake-up for
    another reason (a signal that is masked), a wait returns success and leaves
    its entry in the queue and its generation in the task.  When the thread
    later sleeps elsewhere, [FUTEX_WAKE] of one takes it for a waiter, counts
    it and interrupts its sleep, and thread 2, which does wait, sleeps on. *)
Theorem stale_waiter_steals_wake :
  ∃ w1 tk1 tk2 w2 tk1' tk2',
    rtc futex_step futex_init w1 ∧
    fw_pcs w1 !! 1 = Some Outside ∧ fx_tasks (fw_st w1) !! 1 = Some tk1 ∧ ft_status tk1 = Blocked ∧
    waiting w1 2 tk2 ∧ futex_pa tk2 = 100 ∧
    futex_wake_up (fw_st w1) 100 1 = (w2, 1) ∧
    fx_tasks w2 !! 1 = Some tk1' ∧ ft_status tk1' = Ready ∧ fx_tasks w2 !! 2 = Some tk2' ∧ ft_status tk2' = Blocked.
Proof.
  eexists _, _, _, _, _, _. split.
  { etrans; [exact reach_word|]. go (fs_spawn _ 1). go (fs_dispatch _ 1). go (fs_wait _ 1 _ 100 100 0 u32_max).
    go (fs_compare _ 1). go (fs_version _ 1). go (fs_enqueue _ 1).
    go (fs_unblock _ 1). go (fs_dispatch _ 1). go (fs_resume _ 1). go (fs_block _ 1).
    go (fs_spawn _ 2). go (fs_dispatch _ 2). go (fs_wait _ 2 _ 100 100 0 u32_max).
    go (fs_compare _ 2). go (fs_version _ 2). go (fs_enqueue _ 2). apply rtc_refl. }
  split; [vm_compute; reflexivity|]. split; [vm_compute; reflexivity|]. split; [reflexivity|].
  split; [split; [vm_compute; reflexivity|]; split; [vm_compute; reflexivity|reflexivity]|].
  split; [reflexivity|]. split; [vm_compute; reflexivity|]. split; [vm_compute; reflexivity|].
  split; [reflexivity|]. split; [vm_compute; reflexivity|reflexivity].
Qed.

(** The expiry of a time-out can panic the kernel: a wait that a signal
    interrupts takes its entry out of the queue but leaves its generation in
    the task; a [FUTEX_REQUEUE] then removes the empty queue, and the timer,
    which still matches the generation, unwraps the missing queue. *)
Theorem futex_timer_panics :
  ∃ w, rtc futex_step futex_init w ∧ fw_cleanups w = [] ∧ fw_pcs w !! 1 = Some Outside ∧
    handle_timer (fw_st w) 1 1 = Panic ∧
    futex_timers demo_freq (fw_st w) (add_futex_timer [] (mkTs 1 0) 1 1) (mkTs 2 0) = Panic.
Proof.
  eexists. split.
  { etrans; [exact reach_word|]. go (fs_spawn _ 1). go (fs_dispatch _ 1). go (fs_wait _ 1 _ 100 100 0 u32_max).
    go (fs_compare _ 1). go (fs_version _ 1). go (fs_enqueue _ 1).
    go (fs_signal _ 1 _ true). go (fs_unblock _ 1). go (fs_dispatch _ 1). go (fs_resume _ 1).
    go (fs_cleanup _ [] (100, 1) []). go (fs_requeue _ 100 1 200 1). apply rtc_refl. }
  split; [reflexivity|]. split; [vm_compute; reflexivity|]. split; vm_compute; reflexivity.
Qed.

(** ** Robust lists *)

(** Memory of 32-bit and 64-bit words, some of them read-only. *)
Record DemoMemory : Type := mkDm { dm_words : gmap Z Z; dm_readonly : list Z }.
Definition dm_write (m : DemoMemory) (a v : Z) : DemoMemory :=
  if existsb (Z.eqb a) (dm_readonly m) then m else mkDm (<[a := v]> (dm_words m)) (dm_readonly m).
#[export] Instance demo_memory : UserMemory DemoMemory := {
  try_read_u32 m a := dm_words m !! a; write_u32 := dm_write;
  try_read_usize m a := dm_words m !! a; write_usize := dm_write
}.

(** A robust list with one entry at 2000, whose word at 2008 is owned by thread
    7 and lies on a read-only page. *)
Definition stuck_memory : DemoMemory := mkDm {[1000 := 2000; 1008 := 8; 1016 := 0; 2000 := 1000; 2008 := 7]} [2008].

(** The exit of a thread can hang the kernel: for a futex word on a
    read-only page that names the thread as its owner, the write fails
    silently, the read-back differs, and the loop starts again: no number of
    rounds is enough. *)
Theorem robust_exit_hangs (fuel : nat) (translate : Z → result SysErrNo Z) (token : Z) (st : FutexState) :
  handle_futex_death_entry translate token fuel stuck_memory st 2008 7 = None ∧
  handle_futex_when_exit translate token fuel stuck_memory st 1000 7 = None.
Proof.
  assert (handle_futex_death_entry translate token fuel stuck_memory st 2008 7 = None) as E.
  { induction fuel as [|fuel IH]; [reflexivity|]. cbn [handle_futex_death_entry]. exact IH. }
  split; [exact E|]. unfold handle_futex_when_exit. change (1000 =? 0) with false. cbv iota.
  assert (try_read_usize stuck_memory (wrap64 (1000 + 8)) = Some 8) as -> by reflexivity.
  assert (try_read_usize stuck_memory (wrap64 (1000 + 16)) = Some 0) as -> by reflexivity.
  change (0 =? 0) with true. cbv iota beta. cbn [mbind option_bind].
  assert (try_read_usize stuck_memory 1000 = Some 2000) as -> by reflexivity.
  change ROBUST_LIST_LIMIT with (S 2047). cbn [robust_walk].
  assert (try_read_usize stuck_memory 2000 = Some 1000) as -> by reflexivity.
  change (2000 =? 1000) with false. cbv iota beta. change (futex_word_addr 2000 8) with 2008. by rewrite E.
Qed.
