(* ===== verification/Signal.v ===== *)
(** * Signals

    [signal/types.rs], [signal/action_table.rs], [signal/pending.rs],
    the place of a handler's frame, the masks and the alternate stacks of
    [signal/frame.rs], and the system calls of [syscall/signal.rs].

    A [SigSet] is its 64 bits.  A task is known by its tid and a process by its
    pid.  The registers and the frame that a handler gets on the user stack are
    not modelled, except for the mask and the alternate stack saved in it.
    Whether an interruptible wait is registered is a flag of the task. *)

From S2P Require Import Prelude Errno Wake.

Definition SIGHUP : Z := 1.
Definition SIGINT : Z := 2.
Definition SIGQUIT : Z := 3.
Definition SIGILL : Z := 4.
Definition SIGTRAP : Z := 5.
Definition SIGABRT : Z := 6.
Definition SIGBUS : Z := 7.
Definition SIGFPE : Z := 8.
Definition SIGKILL : Z := 9.
Definition SIGUSR1 : Z := 10.
Definition SIGSEGV : Z := 11.
Definition SIGUSR2 : Z := 12.
Definition SIGPIPE : Z := 13.
Definition SIGALRM : Z := 14.
Definition SIGTERM : Z := 15.
Definition SIGSTKFLT : Z := 16.
Definition SIGCHLD : Z := 17.
Definition SIGCONT : Z := 18.
Definition SIGSTOP : Z := 19.
Definition SIGTSTP : Z := 20.
Definition SIGTTIN : Z := 21.
Definition SIGTTOU : Z := 22.
Definition SIGURG : Z := 23.
Definition SIGXCPU : Z := 24.
Definition SIGXFSZ : Z := 25.
Definition SIGVTALRM : Z := 26.
Definition SIGPROF : Z := 27.
Definition SIGWINCH : Z := 28.
Definition SIGIO : Z := 29.
Definition SIGPWR : Z := 30.
Definition SIGSYS : Z := 31.
Definition SIGRTMIN : Z := 32.
Definition SIGRT_1 : Z := 33.
Definition SIG_MAX_NUM : Z := 64.
Definition SIG_DFL : Z := 0.
Definition SIG_IGN : Z := 1.

(** ** Sets of signals *)

(** The flag of a signal, and the union of flags. *)
Definition sig_bit (signo : Z) : Z := Z.shiftl 1 (signo - 1).
Definition sigs (l : list Z) : Z := foldr (λ s acc, Z.lor (sig_bit s) acc) 0 l.
(** The flags that [SigSet] defines: signals 1 to 33. *)
Definition SIGSET_ALL : Z := 8589934591.

(** [SigSet::from_bits_truncate]. *)
Definition sig_truncate (bits : Z) : Z := Z.land bits SIGSET_ALL.

Inductive SigOp : Type := OpTerminate | OpCoreDump | OpIgnore | OpStop | OpContinue.
#[export] Instance SigOp_eq_dec : EqDecision SigOp.
Proof. solve_decision. Defined.

Definition default_op (s : Z) : SigOp :=
  let terminate_signals := sigs [SIGHUP; SIGINT; SIGKILL; SIGUSR1; SIGUSR2; SIGPIPE; SIGALRM; SIGTERM; SIGSTKFLT;
                                 SIGVTALRM; SIGPROF; SIGIO; SIGPWR] in
  let dump_signals := sigs [SIGQUIT; SIGILL; SIGTRAP; SIGABRT; SIGBUS; SIGFPE; SIGSEGV; SIGXCPU; SIGXFSZ; SIGSYS] in
  let ignore_signals := sigs [SIGCHLD; SIGURG; SIGWINCH] in
  let stop_signals := sigs [SIGSTOP; SIGTSTP; SIGTTIN; SIGTTOU] in
  if contains terminate_signals s then OpTerminate
  else if contains dump_signals s then OpCoreDump
  else if contains ignore_signals s || (s =? 0) then OpIgnore
  else if contains stop_signals s then OpStop
  else if contains (sig_bit SIGCONT) s then OpContinue
  else OpTerminate.

Definition from_sig (signo : Z) : comp Z :=
  if (signo =? 0) || (SIG_MAX_NUM <? signo) then Panic else Done (sig_truncate (sig_bit signo)).

(** [usize::trailing_zeros]. *)
Fixpoint pos_trailing_zeros (p : positive) : Z :=
  match p with xO p => 1 + pos_trailing_zeros p | _ => 0 end.
Definition trailing_zeros (z : Z) : Z := match z with Z.pos p => pos_trailing_zeros p | _ => 64 end.
Definition peek_front (s : Z) : option Z := if s =? 0 then None else Some (trailing_zeros s + 1).

(** ** Actions *)

Definition SA_NOCLDSTOP : Z := 1.
Definition SA_SIGINFO : Z := 4.
Definition SA_ONSTACK : Z := 134217728.
Definition SA_RESTART : Z := 268435456.
Definition SA_NODEFER : Z := 1073741824.
Definition SA_RESETHAND : Z := 2147483648.
(** All bits that [SigActionFlags] defines. *)
Definition SA_ALL : Z := 4227858439.

Record SigAction : Type := mkAct { sa_handler : Z; sa_flags : Z; sa_restore : Z; sa_mask : Z }.
Inductive SigDisposition : Type := DispDefault | DispIgnore | DispHandler.
Record KSigAction : Type := mkKact { k_act : SigAction; disposition : SigDisposition }.

Definition default_action : KSigAction := mkKact (mkAct SIG_DFL 0 0 0) DispDefault.
Definition ignore_action : KSigAction := mkKact (mkAct SIG_IGN 0 0 0) DispIgnore.
Definition handler_action (act : SigAction) : KSigAction := mkKact act DispHandler.
Definition is_ignored (a : KSigAction) : bool := match disposition a with DispIgnore => true | _ => false end.
Definition is_handler (a : KSigAction) : bool := match disposition a with DispHandler => true | _ => false end.

(** [SigTable]: an array of [SIG_MAX_NUM + 1] actions; indexing panics beyond. *)
Definition SigTable : Type := list KSigAction.
Definition sigtable_new : SigTable := replicate (Z.to_nat (SIG_MAX_NUM + 1)) default_action.
Definition sigtable_action (tbl : SigTable) (signo : Z) : comp KSigAction := unwrap (tbl !! Z.to_nat signo).
Definition sigtable_set_action (tbl : SigTable) (signo : Z) (a : KSigAction) : comp SigTable :=
  if (Z.to_nat signo <? length tbl)%nat then Done (<[Z.to_nat signo := a]> tbl) else Panic.

(** The user layout of an action on RISC-V; the mask is two words. *)
Record RawSigAction : Type := mkRaw { raw_handler : Z; raw_flags : Z; raw_restorer : Z; raw_mask : Z * Z }.
Definition from_sigaction (act : SigAction) : RawSigAction :=
  mkRaw (sa_handler act) (sa_flags act) (sa_restore act) (as_u32 (sa_mask act), as_u32 (Z.shiftr (sa_mask act) 32)).
Definition into_sigaction (raw : RawSigAction) : SigAction :=
  let mask := Z.lor (raw_mask raw).1 (Z.shiftl (raw_mask raw).2 32) in
  mkAct (raw_handler raw) (Z.land (as_u32 (raw_flags raw)) SA_ALL) (raw_restorer raw) (sig_truncate mask).

(** ** Alternate stacks *)

Definition SS_ONSTACK : Z := 1.
Definition SS_DISABLE : Z := 2.
Definition SS_AUTODISARM : Z := 2147483648.
Definition MINSIGSTKSZ : Z := 2048.
Record SignalStack : Type := mkStack { ss_sp : Z; ss_flags : Z; ss_size : Z }.

Definition stack_disabled : SignalStack := mkStack 0 SS_DISABLE 0.
Definition stack_is_disabled (s : SignalStack) : bool := ss_size s =? 0.
Definition is_autodisarm (s : SignalStack) : bool := negb (Z.land (ss_flags s) SS_AUTODISARM =? 0).
Definition is_on_stack (s : SignalStack) (sp : Z) : bool :=
  negb (stack_is_disabled s) && negb (is_autodisarm s) && (ss_sp s <? sp) && (sp - ss_sp s <=? ss_size s).
Definition should_switch_for_signal (s : SignalStack) (sp : Z) : bool :=
  negb (stack_is_disabled s) && negb (is_on_stack s sp).
Definition stack_top (s : SignalStack) : option Z := checked_add (ss_sp s) (ss_size s).
Definition user_view (s : SignalStack) (sp : Z) : SignalStack :=
  let flags := Z.land (ss_flags s) SS_AUTODISARM in
  let flags := if stack_is_disabled s then Z.lor flags SS_DISABLE
               else if is_on_stack s sp then Z.lor flags SS_ONSTACK else flags in
  mkStack (ss_sp s) flags (ss_size s).
Definition replace_from_user (s requested : SignalStack) (sp : Z) : result SysErrNo SignalStack :=
  if is_on_stack s sp then Err EPERM
  else
    let mode := Z.ldiff (ss_flags requested) SS_AUTODISARM in
    if negb (mode =? 0) && negb (mode =? SS_DISABLE) && negb (mode =? SS_ONSTACK) then Err EINVAL
    else if mode =? SS_DISABLE then Ok (mkStack 0 (ss_flags requested) 0)
    else if ss_size requested <? MINSIGSTKSZ then Err ENOMEM
    else Ok requested.

(** ** The signal state of a task *)

Record SigInfo : Type := mkInfo { si_signo : Z; si_errno : Z; si_code : Z; si_pid : Z; si_uid : Z; si_status : Z }.
Definition siginfo_new (signo errno code si_16 : Z) : SigInfo := mkInfo signo errno code si_16 0 0.
Definition siginfo_new_user (signo pid uid : Z) : SigInfo := mkInfo signo 0 0 pid uid 0.
Definition siginfo_new_tkill (signo pid uid : Z) : SigInfo := mkInfo signo 0 (as_u32 (-6)) pid uid 0.

Record SigTask : Type := mkSigTask {
  sg_status : TaskStatus; sig_pending : Z; sig_mask : Z; sig_pending_info : gmap Z SigInfo;
  exec_teardown_kill : bool; sigsuspend_restore_mask : option Z; alt_signal_stack : SignalStack;
  sg_waiter : bool; sg_interrupted : bool; vfork_wait_child : Z }.

Definition with_pending (t : SigTask) (p : Z) (i : gmap Z SigInfo) : SigTask :=
  mkSigTask (sg_status t) p (sig_mask t) i (exec_teardown_kill t) (sigsuspend_restore_mask t) (alt_signal_stack t)
    (sg_waiter t) (sg_interrupted t) (vfork_wait_child t).
Definition with_mask (t : SigTask) (m : Z) (r : option Z) : SigTask :=
  mkSigTask (sg_status t) (sig_pending t) m (sig_pending_info t) (exec_teardown_kill t) r (alt_signal_stack t)
    (sg_waiter t) (sg_interrupted t) (vfork_wait_child t).
Definition with_sg_status (t : SigTask) (s : TaskStatus) : SigTask :=
  mkSigTask s (sig_pending t) (sig_mask t) (sig_pending_info t) (exec_teardown_kill t) (sigsuspend_restore_mask t)
    (alt_signal_stack t) (sg_waiter t) (sg_interrupted t) (vfork_wait_child t).
Definition with_teardown (t : SigTask) (b : bool) : SigTask :=
  mkSigTask (sg_status t) (sig_pending t) (sig_mask t) (sig_pending_info t) b (sigsuspend_restore_mask t)
    (alt_signal_stack t) (sg_waiter t) (sg_interrupted t) (vfork_wait_child t).
Definition with_stack (t : SigTask) (s : SignalStack) : SigTask :=
  mkSigTask (sg_status t) (sig_pending t) (sig_mask t) (sig_pending_info t) (exec_teardown_kill t)
    (sigsuspend_restore_mask t) s (sg_waiter t) (sg_interrupted t) (vfork_wait_child t).

Definition SIG_UNBLOCKABLE : Z := sigs [SIGKILL; SIGSTOP].

(** [check_if_any_sig_for_current_task]. *)
Definition check_if_any_sig (t : SigTask) : option Z := peek_front (bits_remove (sig_pending t) (sig_mask t)).

(** [consume_ignorable_pending_signal_for_current_task]. *)
Definition consume_ignorable (tbl : SigTable) (t : SigTask) : comp (SigTask * bool) :=
  match check_if_any_sig t with
  | None => Done (t, false)
  | Some signo =>
      signal ← from_sig signo;
      action ← sigtable_action tbl signo;
      let ignorable := is_ignored action || (negb (is_handler action) && bool_decide (default_op signal = OpIgnore)) in
      if negb ignorable then Done (t, false)
      else if negb (contains (sig_pending t) signal) then Done (t, false)
      else Done (with_pending t (bits_remove (sig_pending t) signal) (delete signo (sig_pending_info t)), true)
  end.

(** What [handle_signal] decides to do. *)
Inductive SigEffect : Type :=
| RunHandler (act : SigAction) (info : option SigInfo)
| Ignored
| StopTask
| ContinueTask
| ExitThread (code : Z)
| ExitGroup (code : Z) (core : bool).

Definition handle_signal (tbl : SigTable) (t : SigTask) (signo : Z) : comp (SigTask * SigEffect) :=
  action ← sigtable_action tbl signo;
  signal ← from_sig signo;
  let info := sig_pending_info t !! signo in
  let t := with_pending t (bits_remove (sig_pending t) signal) (delete signo (sig_pending_info t)) in
  let teardown := (signo =? SIGKILL) && exec_teardown_kill t in
  let t := if teardown then with_teardown t false else t in
  if is_handler action then Done (t, RunHandler (k_act action) info)
  else if is_ignored action then Done (t, Ignored)
  else
    match default_op signal with
    | OpIgnore => Done (t, Ignored)
    | OpStop => Done (t, StopTask)
    | OpContinue => Done (t, ContinueTask)
    | op => Done (t, if teardown then ExitThread (signo + 128)
                     else ExitGroup (signo + 128) (bool_decide (op = OpCoreDump)))
    end.

(** ** Masks across a handler *)

Definition SIGNAL_STACK_ALIGN : Z := 16.
Definition USER_STACK_SIZE : Z := 8388608.

(** Where [setup_frame] puts the frame: its address, its size with the padding,
    and the end of the stack it chose; [None] when the task must exit.
    [area_start] is the start of the area that has the stack pointer, if any. *)
Definition frame_place (flags : Z) (alt : SignalStack) (interrupted_sp : Z) (area_start : option Z) (raw_frame_size : Z) :
    option (Z * Z * Z) :=
  '(user_sp, stack_bottom) ←
    (if contains flags SA_ONSTACK && should_switch_for_signal alt interrupted_sp then
       top ← stack_top alt; Some (top, ss_sp alt)
     else if is_on_stack alt interrupted_sp then Some (interrupted_sp, ss_sp alt)
     else Some (interrupted_sp, default (saturating_sub interrupted_sp USER_STACK_SIZE) area_start));
  raw_frame_start ← checked_sub user_sp raw_frame_size;
  let frame_padding := Z.land raw_frame_start (SIGNAL_STACK_ALIGN - 1) in
  let frame_size := raw_frame_size + frame_padding in
  let frame_start := raw_frame_start - frame_padding in
  if frame_start <? stack_bottom then None else Some (frame_start, frame_size, user_sp).

(** What [setup_frame] finds: the interrupted stack pointer, the start of the
    area that has it, the size of the frame without and with [SA_SIGINFO], and
    whether a range of user memory can be written. *)
Record FrameEnv : Type := mkFrameEnv {
  fe_sp : Z; fe_area : option Z; fe_size : bool → Z; fe_writable : Z → Z → bool }.

(** [setup_frame], without the registers: the table after [SA_RESETHAND], the
    task, and the mask, the alternate stack and the address of the frame, or
    [None] when there is no room for it and the task exits. *)
Definition setup_frame (tbl : SigTable) (t : SigTask) (signo : Z) (act : SigAction) (env : FrameEnv) :
    comp (SigTable * SigTask * option (Z * SignalStack * Z)) :=
  tbl ← (if contains (sa_flags act) SA_RESETHAND then sigtable_set_action tbl signo default_action else Done tbl);
  let active_sig_mask := sig_mask t in
  let restore_sig_mask := default active_sig_mask (sigsuspend_restore_mask t) in
  let alt := alt_signal_stack t in
  let t := with_mask t (sig_mask t) None in
  let raw_frame_size := fe_size env (contains (sa_flags act) SA_SIGINFO) in
  match frame_place (sa_flags act) alt (fe_sp env) (fe_area env) raw_frame_size with
  | None => Done (tbl, t, None)
  | Some (frame_start, frame_size, _) =>
      if negb (fe_writable env frame_start frame_size) then Done (tbl, t, None)
      else
        own ← (if contains (sa_flags act) SA_NODEFER then Done 0 else from_sig signo);
        let new_mask := Z.lor (sa_mask act) own in
        let t := with_mask t (Z.lor active_sig_mask new_mask) None in
        Done (tbl, if is_autodisarm alt then with_stack t stack_disabled else t,
              Some (restore_sig_mask, alt, frame_start))
  end.

(** [restore_frame] with the mask and the stack read from the frame at the
    user's stack pointer, and the restored stack pointer. *)
Definition restore_frame (t : SigTask) (frame : Z * SignalStack) (restored_sp : Z) : SigTask :=
  let t := with_mask t frame.1 (sigsuspend_restore_mask t) in
  match replace_from_user (alt_signal_stack t) frame.2 restored_sp with
  | Ok stack => with_stack t stack
  | Err _ => t
  end.

(** The end of [trap_return] when no signal is left. *)
Definition trap_return_mask (t : SigTask) : SigTask :=
  match sigsuspend_restore_mask t with Some m => with_mask t m None | None => t end.

(** ** System calls of a thread on its own state *)

Definition SIG_BLOCK : Z := 0.
Definition SIG_UNBLOCK : Z := 1.
Definition SIG_SETMASK : Z := 2.

(** [set] is the mask read from user memory and [old_set] the outcome of the
    copy of the old mask, each if its pointer is not null. *)
Definition sys_rt_sigprocmask (t : SigTask) (how : Z) (set : option (result SysErrNo Z))
    (old_set : option (result SysErrNo unit)) : SigTask * SyscallRet :=
  if negb (Z.land how 3 =? how) then (t, Err EINVAL)
  else
    match old_set, set with
    | Some (Err e), _ => (t, Err e)
    | _, None => (t, Ok 0)
    | _, Some (Err e) => (t, Err e)
    | _, Some (Ok mask) =>
        let mask := bits_remove mask SIG_UNBLOCKABLE in
        let update m := (with_mask t (bits_remove m SIG_UNBLOCKABLE) (sigsuspend_restore_mask t), Ok 0) in
        if how =? SIG_BLOCK then update (Z.lor (sig_mask t) mask)
        else if how =? SIG_UNBLOCK then update (Z.land (sig_mask t) (sig_truncate (Z.lnot mask)))
        else if how =? SIG_SETMASK then update mask
        else (t, Err EINVAL)
    end.

(** [act] is the action read from user memory, if the pointer is not null;
    [old_act] is the outcome of the copy of the old action, which depends on
    its bytes. *)
Definition sys_rt_sigaction (tbl : SigTable) (signo : Z) (act : option (result SysErrNo RawSigAction))
    (old_act : option (RawSigAction → result SysErrNo unit)) (sigsetsize : Z) : comp (SigTable * SyscallRet) :=
  if negb (sigsetsize =? 8) then Done (tbl, Err EINVAL)
  else if (signo =? 0) || (SIG_MAX_NUM <? signo) then Done (tbl, Err EINVAL)
  else if ((signo =? SIGKILL) || (signo =? SIGSTOP)) && bool_decide (is_Some act) then Done (tbl, Err EINVAL)
  else
    copied ← match old_act with
             | None => Done None
             | Some copy => old ← sigtable_action tbl signo; Done (Some (copy (from_sigaction (k_act old))))
             end;
    match copied, act with
    | Some (Err e), _ => Done (tbl, Err e)
    | _, None => Done (tbl, Ok 0)
    | _, Some (Err e) => Done (tbl, Err e)
    | _, Some (Ok raw) =>
        let new_act := into_sigaction raw in
        let new_act := mkAct (sa_handler new_act) (sa_flags new_act) (sa_restore new_act)
                         (bits_remove (sa_mask new_act) SIG_UNBLOCKABLE) in
        let new_sig := if sa_handler new_act =? SIG_DFL then default_action
                       else if sa_handler new_act =? SIG_IGN then ignore_action
                       else handler_action new_act in
        tbl ← sigtable_set_action tbl signo new_sig; Done (tbl, Ok 0)
    end.

Definition sys_sigaltstack (t : SigTask) (user_sp : Z) (requested : option SignalStack) :
    SigTask * result SysErrNo SignalStack :=
  let previous := user_view (alt_signal_stack t) user_sp in
  match requested with
  | None => (t, Ok previous)
  | Some r =>
      match replace_from_user (alt_signal_stack t) r user_sp with
      | Err e => (t, Err e)
      | Ok s => (with_stack t s, Ok previous)
      end
  end.

(** [rt_sigsuspend]: the mask while it waits, and what it leaves when an
    unmasked signal that is not ignorable is pending. *)
Definition sigsuspend_begin (t : SigTask) (mask : Z) : SigTask :=
  with_mask t (bits_remove mask SIG_UNBLOCKABLE) (sigsuspend_restore_mask t).
Definition sigsuspend_end (t : SigTask) (old_mask : Z) : SigTask := with_mask t (sig_mask t) (Some old_mask).

(** [rt_sigtimedwait] takes the lowest pending signal of the set. *)
Definition sigtimedwait_take (t : SigTask) (set : Z) : comp (SigTask * option (Z * SigInfo)) :=
  match peek_front (Z.land set (sig_pending t)) with
  | None => Done (t, None)
  | Some signo =>
      signal ← from_sig signo;
      let info := default (siginfo_new signo 0 0 0) (sig_pending_info t !! signo) in
      Done (with_pending t (bits_remove (sig_pending t) signal) (delete signo (sig_pending_info t)), Some (signo, info))
  end.

(** ** Lemmas on sets *)

Lemma testbit_sig_bit s i : 1 ≤ s → Z.testbit (sig_bit s) i = bool_decide (i = s - 1).
Proof.
  intros Hs. unfold sig_bit. rewrite Z.shiftl_1_l.
  destruct (decide (i < 0)) as [?|Hi]; [rewrite Z.testbit_neg_r by done; symmetry; apply bool_decide_eq_false; lia|].
  rewrite Z.pow2_bits_eqb by lia. apply eq_true_iff_eq. rewrite Z.eqb_eq, bool_decide_eq_true. lia.
Qed.

Lemma from_sig_low s : 1 ≤ s ≤ 33 → from_sig s = Done (sig_bit s).
Proof.
  intros Hs. unfold from_sig, SIG_MAX_NUM. rewrite (proj2 (Z.eqb_neq s 0)), (proj2 (Z.ltb_ge 64 s)) by lia. simpl. f_equal.
  unfold sig_truncate. apply Z.bits_inj'; intros i Hi. rewrite Z.land_spec, testbit_sig_bit by lia.
  case_bool_decide as He; [|done]. subst i. change SIGSET_ALL with (Z.ones 33). rewrite Z.testbit_ones_nonneg by lia.
  simpl. apply Z.ltb_lt. lia.
Qed.

Lemma from_sig_high s : 34 ≤ s ≤ 64 → from_sig s = Done 0.
Proof.
  intros Hs. unfold from_sig, SIG_MAX_NUM. rewrite (proj2 (Z.eqb_neq s 0)), (proj2 (Z.ltb_ge 64 s)) by lia. simpl. f_equal.
  unfold sig_truncate. apply Z.bits_inj'; intros i Hi. rewrite Z.land_spec, testbit_sig_bit, Z.bits_0 by lia.
  case_bool_decide as He; [|done]. subst i. change SIGSET_ALL with (Z.ones 33). rewrite Z.testbit_ones_nonneg by lia.
  simpl. apply Z.ltb_ge. lia.
Qed.

Lemma pos_trailing_zeros_spec p :
  0 ≤ pos_trailing_zeros p ∧ Z.testbit (Z.pos p) (pos_trailing_zeros p) = true ∧
  ∀ i, i < pos_trailing_zeros p → Z.testbit (Z.pos p) i = false.
Proof.
  induction p as [p IH|p (IH1 & IH2 & IH3)|]; cbn [pos_trailing_zeros].
  - split_and!; [done|done|]. intros i Hi. by apply Z.testbit_neg_r.
  - rewrite Pos2Z.inj_xO, Z.add_1_l, Z.double_bits_succ. split_and!; [lia|done|]. intros i Hi.
    destruct (decide (i < 0)); [by apply Z.testbit_neg_r|]. rewrite Z.double_bits.
    apply IH3. lia.
  - split_and!; [done|done|]. intros i Hi. by apply Z.testbit_neg_r.
Qed.

(** [peek_front] is the least member. *)
Lemma peek_front_Some m s : 0 ≤ m →
  peek_front m = Some s ↔ Z.testbit m (s - 1) = true ∧ ∀ i, i < s - 1 → Z.testbit m i = false.
Proof.
  intros Hm. unfold peek_front, trailing_zeros. destruct m as [|p|]; [..|lia]; cbn [Z.eqb].
  { rewrite Z.bits_0. naive_solver. }
  destruct (pos_trailing_zeros_spec p) as (Ha & Hb & Hc). split.
  - intros [= <-]. rewrite Z.add_simpl_r. done.
  - intros [H1 H2]. f_equal. destruct (Z.lt_trichotomy (pos_trailing_zeros p) (s - 1)) as [?|[?|?]]; [|lia|].
    + rewrite H2 in Hb by done. done.
    + rewrite Hc in H1 by done. done.
Qed.

Lemma peek_front_None m : 0 ≤ m → peek_front m = None ↔ ∀ i, Z.testbit m i = false.
Proof.
  intros Hm. destruct (peek_front m) as [s|] eqn:E.
  - apply peek_front_Some in E as [E _]; [|done]. split; [done|]. intros H. by rewrite H in E.
  - split; [intros _|done]. unfold peek_front in E. destruct (Z.eqb_spec m 0) as [->|]; [|done].
    intros i. apply Z.bits_0.
Qed.

Lemma testbit_remove f m i : Z.testbit (bits_remove f m) i = Z.testbit f i && negb (Z.testbit m i).
Proof.
  unfold bits_remove. rewrite Z.land_spec. destruct (decide (i < 0)).
  - by rewrite !Z.testbit_neg_r by done.
  - by rewrite Z.lnot_spec by lia.
Qed.

Lemma remove_nonneg f m : 0 ≤ f → 0 ≤ bits_remove f m.
Proof. intros. apply Z.land_nonneg. by left. Qed.

(** A signal is in a set; it is deliverable if it is pending and not masked. *)
Definition sig_in (s m : Z) : bool := Z.testbit m (s - 1).
Definition deliverable (t : SigTask) (s : Z) : bool := sig_in s (sig_pending t) && negb (sig_in s (sig_mask t)).

Lemma check_if_any_sig_Some t s : 0 ≤ sig_pending t →
  check_if_any_sig t = Some s ↔ deliverable t s = true ∧ ∀ r, r < s → deliverable t r = false.
Proof.
  intros Ht. unfold check_if_any_sig, deliverable, sig_in. rewrite peek_front_Some by by apply remove_nonneg.
  rewrite testbit_remove. f_equiv. split; intros H r Hr.
  - rewrite <- testbit_remove. apply H. lia.
  - rewrite testbit_remove. replace r with (r + 1 - 1) by lia. apply H. lia.
Qed.

Lemma check_if_any_sig_None t : 0 ≤ sig_pending t → check_if_any_sig t = None ↔ ∀ s, deliverable t s = false.
Proof.
  intros Ht. unfold check_if_any_sig, deliverable, sig_in. rewrite peek_front_None by by apply remove_nonneg.
  split; intros H s; [rewrite <- testbit_remove; apply H|].
  rewrite testbit_remove. replace s with (s + 1 - 1) by lia. apply H.
Qed.

(** Two signals share no flag. *)
Lemma sig_in_bit s r : 1 ≤ r → sig_in s (sig_bit r) = bool_decide (s = r).
Proof. intros. unfold sig_in. rewrite testbit_sig_bit by done. apply bool_decide_ext. lia. Qed.

Lemma sig_in_lor s a b : sig_in s (Z.lor a b) = sig_in s a || sig_in s b.
Proof. apply Z.lor_spec. Qed.

Lemma sig_in_remove s a b : sig_in s (bits_remove a b) = sig_in s a && negb (sig_in s b).
Proof. apply testbit_remove. Qed.
#[export] Hint Rewrite sig_in_lor sig_in_remove : ya2y.

(** ** The user layout of an action *)

Lemma land_sub_ones a n : 0 ≤ n → 0 ≤ a < 2 ^ n → Z.land a (Z.ones n) = a.
Proof. intros. rewrite Z.land_ones by done. by apply Z.mod_small. Qed.

(** The two words of a mask put together again. *)
Lemma mask_words m : 0 ≤ m < 2 ^ 64 → Z.lor (as_u32 m) (Z.shiftl (as_u32 (Z.shiftr m 32)) 32) = m.
Proof.
  intros Hm. unfold as_u32. change 4294967296 with (2 ^ 32). rewrite <- !Z.land_ones by lia.
  apply Z.bits_inj'. intros i Hi. rewrite Z.lor_spec, Z.land_spec, Z.testbit_ones_nonneg by lia.
  destruct (decide (i < 32)).
  - rewrite Z.shiftl_spec_low, (proj2 (Z.ltb_lt i 32)) by lia. by rewrite andb_true_r, orb_false_r.
  - rewrite Z.shiftl_spec_high, Z.land_spec, Z.shiftr_spec, Z.testbit_ones_nonneg, (proj2 (Z.ltb_ge i 32)) by lia.
    rewrite andb_false_r. simpl. replace (i - 32 + 32) with i by lia. destruct (decide (i < 64)).
    + rewrite (proj2 (Z.ltb_lt _ _)) by lia. by rewrite andb_true_r.
    + rewrite <- (Z.mod_small m (2 ^ 64)), Z.mod_pow2_bits_high by lia. done.
Qed.

(** An action as [sigaction] can make it. *)
Definition action_wf (act : SigAction) : Prop :=
  0 ≤ sa_mask act ∧ sig_truncate (sa_mask act) = sa_mask act ∧
  0 ≤ sa_flags act ∧ Z.land (sa_flags act) SA_ALL = sa_flags act.

Lemma land_bound a b : 0 ≤ b → 0 ≤ a → Z.land a b = a → a ≤ b.
Proof.
  intros Hb Ha Hl. rewrite <- Hl. destruct (Z.le_gt_cases (Z.land a b) b) as [|Hgt]; [done|].
  pose proof (Z.add_lor_land a b). assert (Z.ldiff b (Z.land a b) = b - Z.land a b) as Hd.
  { rewrite Z.sub_nocarry_ldiff; [done|]. apply Z.bits_inj'; intros i Hi. rewrite Z.ldiff_spec, Z.land_spec, Z.bits_0.
    by destruct (Z.testbit a i), (Z.testbit b i). }
  assert (0 ≤ Z.ldiff b (Z.land a b)) by (apply Z.ldiff_nonneg; by left). lia.
Qed.

(** The bytes of an action that [rt_sigaction] reports decode to the same
    action: a saved action can be installed again. *)
Theorem raw_sigaction_round_trip act : action_wf act → into_sigaction (from_sigaction act) = act.
Proof.
  intros (Hm & Hmt & Hf & Hft). destruct act as [h f r m]. unfold into_sigaction, from_sigaction; simpl in *.
  assert (m ≤ SIGSET_ALL) by by apply land_bound. assert (f ≤ SA_ALL) by by apply land_bound.
  unfold SIGSET_ALL, SA_ALL in *. rewrite mask_words by lia. f_equal; [|done].
  unfold as_u32. by rewrite Z.mod_small by lia.
Qed.

Lemma raw_sigaction_round_trip_witness :
  let act := mkAct 65536 (Z.lor SA_SIGINFO SA_RESTART) 4096 (sigs [SIGINT; SIGTERM; SIGRT_1]) in
  action_wf act ∧ into_sigaction (from_sigaction act) = act.
Proof.
  intros act. assert (action_wf act) as H by (split_and!; vm_compute; done). split; [exact H|].
  exact (raw_sigaction_round_trip act H).
Defined.

(** The frame below [user_sp] and above [stack_bottom]. *)
Lemma frame_below user_sp bottom size start fsize top :
  (raw_frame_start ← checked_sub user_sp size;
   let frame_padding := Z.land raw_frame_start (SIGNAL_STACK_ALIGN - 1) in
   if raw_frame_start - frame_padding <? bottom then None
   else Some (raw_frame_start - frame_padding, size + frame_padding, user_sp)) = Some (start, fsize, top) →
  top = user_sp ∧ start mod SIGNAL_STACK_ALIGN = 0 ∧ start + fsize = top ∧
  size ≤ fsize < size + SIGNAL_STACK_ALIGN ∧ bottom ≤ start.
Proof.
  unfold checked_sub, SIGNAL_STACK_ALIGN. destruct (size <=? user_sp) eqn:E; cbn [mbind option_bind]; [|done].
  change (16 - 1) with (Z.ones 4). rewrite Z.land_ones by done. change (2 ^ 4) with 16.
  destruct (_ <? bottom) eqn:Eb; [done|]. intros [= <- <- <-]. apply Z.ltb_ge in Eb. apply Z.leb_le in E.
  split; [done|]. split; [|split; [|split; [|done]]]; Z.to_euclidean_division_equations; lia.
Qed.

(** The frame of a handler is aligned to 16 bytes, ends at the top of the
    chosen stack, has room for the raw frame and less than 16 bytes of padding.
    With [SA_ONSTACK] and an enabled alternate stack it lies within the stack
    that the user registered; without an alternate stack it ends at the
    interrupted stack pointer and does not cross the bottom of its area. *)
Theorem frame_place_fits flags alt sp area size start fsize top :
  frame_place flags alt sp area size = Some (start, fsize, top) →
  start mod SIGNAL_STACK_ALIGN = 0 ∧ start + fsize = top ∧ size ≤ fsize < size + SIGNAL_STACK_ALIGN ∧
  (contains flags SA_ONSTACK = true → stack_is_disabled alt = false →
     ss_sp alt ≤ start ∧ top ≤ ss_sp alt + ss_size alt) ∧
  (stack_is_disabled alt = true → top = sp ∧ default (saturating_sub sp USER_STACK_SIZE) area ≤ start).
Proof.
  unfold frame_place. assert (∀ x, is_on_stack alt x = true → x ≤ ss_sp alt + ss_size alt) as Hon.
  { intros x. unfold is_on_stack. rewrite !andb_true_iff, Z.leb_le. lia. }
  destruct (contains flags SA_ONSTACK && should_switch_for_signal alt sp) eqn:Esw.
  - unfold stack_top, checked_add. destruct (_ <=? usize_max); cbn [mbind option_bind]; [|done].
    intros (-> & ? & ? & ? & ?)%frame_below. split_and!; [lia..|].
    intros Hd. unfold should_switch_for_signal in Esw. rewrite Hd, andb_false_r in Esw. done.
  - destruct (is_on_stack alt sp) eqn:Eon; cbn [mbind option_bind]; intros (-> & ? & ? & ? & ?)%frame_below.
    + specialize (Hon _ Eon). split_and!; [lia..|]. intros Hd. unfold is_on_stack in Eon. by rewrite Hd in Eon.
    + split_and!; [lia..| |lia]. intros Ho He. unfold should_switch_for_signal in Esw. by rewrite Ho, He, Eon in Esw.
Qed.

Lemma frame_place_fits_witness :
  frame_place SA_ONSTACK (mkStack 4096 0 8192) 1000000 None 1100 = Some (11184, 1104, 12288) ∧
  11184 mod SIGNAL_STACK_ALIGN = 0 ∧ 4096 ≤ 11184.
Proof.
  assert (frame_place SA_ONSTACK (mkStack 4096 0 8192) 1000000 None 1100 = Some (11184, 1104, 12288)) as H by done.
  split; [exact H|]. destruct (frame_place_fits _ _ _ _ _ _ _ _ H) as (Ha & _ & _ & Hb & _).
  split; [exact Ha|]. apply (Hb eq_refl eq_refl).
Defined.
