(* ===== verification/SigSend.v ===== *)
(** * Sending signals

    [signal/delivery.rs] and the system calls [kill], [tkill] and [tgkill] of
    [syscall/signal.rs].

    The threads are a store by tid and the processes a store by pid; a thread is
    in the task table, and a process in the process table, as long as it is in
    its store.  [ss_ready] lists the threads given to [ready_queue::add_task],
    [ss_woken] the processes whose [child_exit_event] was woken. *)

From S2P Require Import Prelude Errno Wake Signal.

(** ** The state *)

Record SigThread : Type := mkSigThread {
  st_pid : Z; user_id : Z; effective_uid : Z; saved_uid : Z; st_task : SigTask }.
Record SigProc : Type := mkSigProc {
  sp_sid : Z; sp_pgid : Z; sp_ppid : Z; sp_tasks : list Z; sp_sigtable : SigTable;
  group_exit_code : option Z; termination_signal : option (Z * bool); continued_signal : option Z }.
Record SigSys : Type := mkSigSys {
  ss_threads : gmap Z SigThread; ss_procs : gmap Z SigProc; ss_ready : list Z; ss_woken : list Z }.

Definition with_task (th : SigThread) (t : SigTask) : SigThread :=
  mkSigThread (st_pid th) (user_id th) (effective_uid th) (saved_uid th) t.
Definition with_termination (p : SigProc) (x : option (Z * bool)) : SigProc :=
  mkSigProc (sp_sid p) (sp_pgid p) (sp_ppid p) (sp_tasks p) (sp_sigtable p) (group_exit_code p) x (continued_signal p).
Definition with_continued (p : SigProc) (x : option Z) : SigProc :=
  mkSigProc (sp_sid p) (sp_pgid p) (sp_ppid p) (sp_tasks p) (sp_sigtable p) (group_exit_code p) (termination_signal p) x.
Definition update_proc (y : SigSys) (pid : Z) (f : SigProc → SigProc) : SigSys :=
  mkSigSys (ss_threads y) (alter f pid (ss_procs y)) (ss_ready y) (ss_woken y).

(** ** One thread *)

Inductive SignalDeliverySource : Type := Normal | ExecTeardown.

(** Whether the signal interrupts a blocking system call: read from the table
    before the task is locked. *)
Definition interrupt_wait (tbl : SigTable) (signal : Z) : comp bool :=
  match peek_front signal with
  | None => Done false
  | Some signo =>
      if signo =? SIGCHLD then action ← sigtable_action tbl SIGCHLD; Done (is_handler action)
      else
        action ← sigtable_action tbl signo;
        s ← from_sig signo;
        Done (negb (is_ignored action) && (is_handler action || negb (bool_decide (default_op s = OpIgnore))))
  end.

(** [wake_interruptible]: the waker of the interruptible wait makes a blocked
    task ready. *)
Definition wake_interruptible (t : SigTask) : SigTask * bool :=
  if sg_waiter t
  then (mkSigTask (if bool_decide (sg_status t = Blocked) then Ready else sg_status t) (sig_pending t) (sig_mask t)
          (sig_pending_info t) (exec_teardown_kill t) (sigsuspend_restore_mask t) (alt_signal_stack t)
          false true (vfork_wait_child t), true)
  else (t, false).

Definition clear_vfork (t : SigTask) : SigTask :=
  mkSigTask (sg_status t) (sig_pending t) (sig_mask t) (sig_pending_info t) (exec_teardown_kill t)
    (sigsuspend_restore_mask t) (alt_signal_stack t) (sg_waiter t) (sg_interrupted t) 0.

(** The part of [add_signal_with_info] under the task's lock that records the
    signal. *)
Definition record_signal (t : SigTask) (signal : Z) (siginfo : option SigInfo) (source : SignalDeliverySource) : SigTask :=
  let t := if contains signal (sig_bit SIGKILL) then
             match source with
             | Normal => with_teardown t false
             | ExecTeardown => if contains (sig_pending t) (sig_bit SIGKILL) then t else with_teardown t true
             end
           else t in
  let info := match peek_front signal with
              | Some signo =>
                  if contains (sig_pending t) signal then sig_pending_info t
                  else match siginfo with
                       | Some i => <[signo := i]> (sig_pending_info t)
                       | None => delete signo (sig_pending_info t)
                       end
              | None => sig_pending_info t
              end in
  with_pending t (Z.lor (sig_pending t) signal) info.

(** The rest of [add_signal_with_info]: the task afterwards, whether it is
    given to the ready queue, and the result. *)
Definition wake_for_signal (t : SigTask) (signal : Z) (iw : bool) : SigTask * bool * bool :=
  let wake_stopped := bool_decide (sg_status t = Stopped) && intersects signal (sigs [SIGCONT; SIGKILL]) in
  let wake_vfork_parent := bool_decide (sg_status t = VforkBlocked) && intersects signal (sig_bit SIGKILL) in
  if wake_stopped || wake_vfork_parent then
    (with_sg_status (if wake_vfork_parent then clear_vfork t else t) Ready, true, true)
  else if bool_decide (sg_status t = Blocked) then
    match (if iw then wake_interruptible t else (t, false)) with
    | (t, true) => (t, true, false)
    | (t, false) => (with_sg_status t Ready, true, false)
    end
  else (t, false, false).

Definition add_signal_task (t : SigTask) (signal : Z) (siginfo : option SigInfo) (source : SignalDeliverySource)
    (iw : bool) : SigTask * bool * bool :=
  wake_for_signal (record_signal t signal siginfo source) signal iw.

Definition add_signal_with_info (y : SigSys) (tid signal : Z) (siginfo : option SigInfo) (source : SignalDeliverySource) :
    comp (SigSys * bool) :=
  th ← unwrap (ss_threads y !! tid);
  let y := if contains signal (sig_bit SIGKILL) && bool_decide (is_Some siginfo) then
             update_proc y (st_pid th) (λ p,
               if bool_decide (group_exit_code p = None)
               then with_termination p (Some (default (SIGKILL, false) (termination_signal p)))
               else p)
           else y in
  proc ← unwrap (ss_procs y !! st_pid th);
  iw ← interrupt_wait (sp_sigtable proc) signal;
  let '(t, enqueue, ret) := add_signal_task (st_task th) signal siginfo source iw in
  Done (mkSigSys (<[tid := with_task th t]> (ss_threads y)) (ss_procs y)
          (ss_ready y ++ (if enqueue then [tid] else [])) (ss_woken y), ret).

(** ** Permission *)

Record SignalCred : Type := mkCred {
  cred_pid : Z; cred_real_uid : Z; cred_effective_uid : Z; cred_saved_uid : Z; cred_sid : Z }.
Definition cred_of (sid : Z) (th : SigThread) : SignalCred :=
  mkCred (st_pid th) (as_u32 (user_id th)) (effective_uid th) (saved_uid th) sid.
Definition signal_cred_from_task (y : SigSys) (tid : Z) : option SignalCred :=
  th ← ss_threads y !! tid; p ← ss_procs y !! st_pid th; Some (cred_of (sp_sid p) th).
Definition signal_cred_from_process (y : SigSys) (p : SigProc) : option SignalCred :=
  th ← head (omap (λ tid, ss_threads y !! tid) (sp_tasks p)); Some (cred_of (sp_sid p) th).

Definition can_send_signal (sender target : SignalCred) (signo : Z) : bool :=
  if cred_effective_uid sender =? 0 then true
  else if (signo =? SIGCONT) && (cred_sid sender =? cred_sid target) then true
  else (cred_real_uid sender =? cred_real_uid target) || (cred_real_uid sender =? cred_saved_uid target)
       || (cred_effective_uid sender =? cred_real_uid target) || (cred_effective_uid sender =? cred_saved_uid target).

Definition siginfo_from_sender (sender : SignalCred) (signo : Z) : option SigInfo :=
  if signo =? 0 then None else Some (siginfo_new_user (as_u32 signo) (as_u32 (cred_pid sender)) (cred_real_uid sender)).

(** ** Thread groups *)

Fixpoint deliver_loop (y : SigSys) (tids : list Z) (sig : Z) (siginfo : option SigInfo) (resumed : Z) : comp (SigSys * Z) :=
  match tids with
  | [] => Done (y, resumed)
  | tid :: tids =>
      match ss_threads y !! tid with
      | None => deliver_loop y tids sig siginfo resumed
      | Some _ =>
          '(y, b) ← add_signal_with_info y tid sig siginfo Normal;
          deliver_loop y tids sig siginfo (if b : bool then resumed + 1 else resumed)
      end
  end.

Definition deliver_signal_to_thread_group (y : SigSys) (pid : Z) (p : SigProc) (sig : Z) (siginfo : option SigInfo) :
    comp (SigSys * Z) :=
  if sig =? 0 then Done (y, 0)
  else
    '(y, resumed) ← deliver_loop y (sp_tasks p) sig siginfo 0;
    if (0 <? resumed) && contains sig (sig_bit SIGCONT) then
      let y := update_proc y pid (λ p, with_continued p (Some SIGCONT)) in
      let y := match ss_procs y !! sp_ppid p with
               | Some _ => mkSigSys (ss_threads y) (ss_procs y) (ss_ready y) (ss_woken y ++ [sp_ppid p])
               | None => y
               end in
      Done (y, resumed)
    else Done (y, resumed).

Definition send_permitted_signal_to_process (y : SigSys) (sender : SignalCred) (pid : Z) (p : SigProc) (sig signo : Z) :
    comp (SigSys * result SysErrNo Z) :=
  match signal_cred_from_process y p with
  | None => Done (y, Err ESRCH)
  | Some target =>
      if negb (can_send_signal sender target signo) then Done (y, Err EPERM)
      else
        '(y, n) ← deliver_signal_to_thread_group y pid p sig (siginfo_from_sender sender signo);
        Done (y, Ok n)
  end.

Definition send_user_signal_to_thread_group (y : SigSys) (cur pid sig signo : Z) : comp (SigSys * result SysErrNo Z) :=
  match signal_cred_from_task y cur with
  | None => Done (y, Err ESRCH)
  | Some sender =>
      match ss_procs y !! pid with
      | None => Done (y, Err ESRCH)
      | Some p => send_permitted_signal_to_process y sender pid p sig signo
      end
  end.

(** [get_all_tasks]: the tids in the order of the [BTreeMap]. *)
Definition get_all_tasks (y : SigSys) : list Z := merge_sort Z.le (elements (dom (ss_threads y))).

(** The loops of [send_user_signal_to_process_group] and
    [send_user_signal_to_accessible_processes], which differ in the processes
    they select.  [seen] are the processes visited. *)
Fixpoint send_loop (y : SigSys) (select : Z → SigProc → bool) (sender : SignalCred) (sig signo : Z) (tids : list Z)
    (seen : gset Z) (found permitted : bool) (resumed : Z) : comp (SigSys * result SysErrNo Z) :=
  match tids with
  | [] => Done (y, if negb found then Err ESRCH else if negb permitted then Err EPERM else Ok resumed)
  | tid :: tids =>
      th ← unwrap (ss_threads y !! tid);
      p ← unwrap (ss_procs y !! st_pid th);
      if negb (select (st_pid th) p) || bool_decide (st_pid th ∈ seen)
      then send_loop y select sender sig signo tids seen found permitted resumed
      else
        let seen := {[st_pid th]} ∪ seen in
        '(y, r) ← send_permitted_signal_to_process y sender (st_pid th) p sig signo;
        match r with
        | Ok n => send_loop y select sender sig signo tids seen true true (resumed + n)
        | Err EPERM => send_loop y select sender sig signo tids seen true permitted resumed
        | Err e => Done (y, Err e)
        end
  end.

Definition in_group (pgid : Z) (_ : Z) (p : SigProc) : bool := sp_pgid p =? pgid.
Definition not_init_or_self (self_pid pid : Z) (_ : SigProc) : bool := negb (pid =? 1) && negb (pid =? self_pid).

Definition send_user_signal_to_process_group (y : SigSys) (cur pgid sig signo : Z) : comp (SigSys * result SysErrNo Z) :=
  match signal_cred_from_task y cur with
  | None => Done (y, Err ESRCH)
  | Some sender => send_loop y (in_group pgid) sender sig signo (get_all_tasks y) ∅ false false 0
  end.

Definition send_user_signal_to_accessible_processes (y : SigSys) (cur sig signo : Z) : comp (SigSys * result SysErrNo Z) :=
  match signal_cred_from_task y cur with
  | None => Done (y, Err ESRCH)
  | Some sender =>
      send_loop y (not_init_or_self (cred_pid sender)) sender sig signo (get_all_tasks y) ∅ false false 0
  end.

(** ** The system calls *)

(** The targets by the sign of [pid]. *)
Definition kill_targets (y : SigSys) (cur pid sig signo : Z) : comp (SigSys * result SysErrNo Z) :=
  if 0 <? pid then send_user_signal_to_thread_group y cur pid sig signo
  else if pid =? 0 then
    th ← unwrap (ss_threads y !! cur);
    p ← unwrap (ss_procs y !! st_pid th);
    send_user_signal_to_process_group y cur (sp_pgid p) sig signo
  else if pid =? -1 then send_user_signal_to_accessible_processes y cur sig signo
  else send_user_signal_to_process_group y cur (wrap64 (- pid)) sig signo.

(** The yield after a [SIGCONT] that resumed a task is left out: it does not
    change the state modelled here. *)
Definition sys_kill (y : SigSys) (cur pid signo : Z) : comp (SigSys * SyscallRet) :=
  if SIG_MAX_NUM <? signo then Done (y, Err EINVAL)
  else
    sig ← (if signo =? 0 then Done 0 else from_sig signo);
    '(y, ret) ← kill_targets y cur pid sig signo;
    Done (y, match ret with Ok _ => Ok 0 | Err e => Err e end).

Definition tkill_info (y : SigSys) (cur signo : Z) : option SigInfo :=
  sender ← signal_cred_from_task y cur;
  Some (siginfo_new_tkill (as_u32 signo) (as_u32 (cred_pid sender)) (cred_real_uid sender)).

Definition send_user_signal_to_thread (y : SigSys) (cur tid sig signo : Z) : comp SigSys :=
  match ss_threads y !! tid with
  | None => Done y
  | Some _ => fst <$> add_signal_with_info y tid sig (tkill_info y cur signo) Normal
  end.

Definition send_user_signal_to_thread_of_proc (y : SigSys) (cur pid tid sig signo : Z) : comp SigSys :=
  match ss_threads y !! tid with
  | None => Done y
  | Some th =>
      if st_pid th =? pid then fst <$> add_signal_with_info y tid sig (tkill_info y cur signo) Normal else Done y
  end.

Definition sys_tkill (y : SigSys) (cur tid signo : Z) : comp (SigSys * SyscallRet) :=
  if signo =? 0 then Done (y, Ok 0)
  else if SIG_MAX_NUM <? signo then Done (y, Err EINVAL)
  else sig ← from_sig signo; y ← send_user_signal_to_thread y cur tid sig signo; Done (y, Ok 0).

Definition sys_tgkill (y : SigSys) (cur tgid tid signo : Z) : comp (SigSys * SyscallRet) :=
  if signo =? 0 then Done (y, Ok 0)
  else if SIG_MAX_NUM <? signo then Done (y, Err EINVAL)
  else sig ← from_sig signo; y ← send_user_signal_to_thread_of_proc y cur tgid tid sig signo; Done (y, Ok 0).

(** Signals the kernel sends itself. *)
Definition send_signal_to_thread_group (y : SigSys) (pid sig : Z) : comp (SigSys * result SysErrNo Z) :=
  match ss_procs y !! pid with
  | None => Done (y, Err ESRCH)
  | Some p => '(y, n) ← deliver_signal_to_thread_group y pid p sig None; Done (y, Ok n)
  end.

Definition send_signal_to_thread (y : SigSys) (tid sig : Z) : comp SigSys :=
  match ss_threads y !! tid with
  | None => Done y
  | Some _ => fst <$> add_signal_with_info y tid sig None Normal
  end.

Definition send_exec_teardown_kill (y : SigSys) (tid : Z) : comp SigSys :=
  match ss_threads y !! tid with
  | None => Done y
  | Some _ => fst <$> add_signal_with_info y tid (sig_bit SIGKILL) None ExecTeardown
  end.

(** ** Well-formed systems *)

Record sys_wf (y : SigSys) : Prop := {
  wf_listed tid th : ss_threads y !! tid = Some th → ∃ p, ss_procs y !! st_pid th = Some p ∧ tid ∈ sp_tasks p;
  wf_owner pid p tid th :
    ss_procs y !! pid = Some p → tid ∈ sp_tasks p → ss_threads y !! tid = Some th → st_pid th = pid;
  wf_nodup pid p : ss_procs y !! pid = Some p → NoDup (sp_tasks p);
  wf_table pid p : ss_procs y !! pid = Some p → length (sp_sigtable p) = Z.to_nat (SIG_MAX_NUM + 1) }.

(** What delivery needs: it also holds while a thread exits, when its process no
    longer lists it. *)
Record sys_base (y : SigSys) : Prop := {
  sb_proc tid th : ss_threads y !! tid = Some th → is_Some (ss_procs y !! st_pid th);
  sb_nodup pid p : ss_procs y !! pid = Some p → NoDup (sp_tasks p);
  sb_table pid p : ss_procs y !! pid = Some p → length (sp_sigtable p) = Z.to_nat (SIG_MAX_NUM + 1) }.
Lemma sys_wf_base y : sys_wf y → sys_base y.
Proof. intros [Hl _ Hn Ht]. split; [|done|done]. intros tid th Hth. destruct (Hl _ _ Hth) as (p & -> & _). done. Qed.
Coercion sys_wf_base : sys_wf >-> sys_base.

(** The signals a process can get. *)
Definition sig_small (sig : Z) : Prop := sig = 0 ∨ ∃ s, 1 ≤ s ≤ 33 ∧ sig = sig_bit s.

Lemma peek_front_bit s : 1 ≤ s → peek_front (sig_bit s) = Some s.
Proof.
  intros Hs. apply peek_front_Some.
  { unfold sig_bit. rewrite Z.shiftl_1_l. lia. }
  split; [by rewrite testbit_sig_bit, bool_decide_eq_true by lia|].
  intros i Hi. rewrite testbit_sig_bit by lia. apply bool_decide_eq_false. lia.
Qed.

Lemma sigtable_action_done tbl s :
  length tbl = Z.to_nat (SIG_MAX_NUM + 1) → 0 ≤ s ≤ SIG_MAX_NUM → ∃ a, sigtable_action tbl s = Done a.
Proof.
  intros Hl Hs. destruct (lookup_lt_is_Some_2 tbl (Z.to_nat s)) as [a Ha]; [lia|].
  exists a. by apply unwrap_done.
Qed.

Lemma interrupt_wait_done tbl sig :
  length tbl = Z.to_nat (SIG_MAX_NUM + 1) → sig_small sig → ∃ b, interrupt_wait tbl sig = Done b.
Proof.
  intros Hl [->|(s & Hs & ->)]; [by eexists|]. unfold interrupt_wait. rewrite peek_front_bit by lia.
  destruct (s =? SIGCHLD).
  - destruct (sigtable_action_done tbl SIGCHLD Hl) as [a ->]; [done|]. by eexists.
  - destruct (sigtable_action_done tbl s Hl) as [a ->]; [unfold SIG_MAX_NUM; lia|].
    rewrite from_sig_low by lia. by eexists.
Qed.

Section delivery.
Context (y0 : SigSys) (Hwf : sys_base y0) (sig : Z) (Hsig : sig_small sig) (info : option SigInfo).

(** Whether the signal interrupts the waits of a process. *)
Definition interrupts (pid : Z) : bool :=
  match ss_procs y0 !! pid with
  | Some p => match interrupt_wait (sp_sigtable p) sig with Done b => b | Panic => false end
  | None => false
  end.

(** A thread after it got the signal. *)
Definition sent (th : SigThread) : SigThread :=
  if sig =? 0 then th
  else with_task th (add_signal_task (st_task th) sig info Normal (interrupts (st_pid th))).1.1.

(** What a delivery does not change of a process. *)
Definition proc_same (p p' : SigProc) : Prop :=
  sp_sid p' = sp_sid p ∧ sp_pgid p' = sp_pgid p ∧ sp_ppid p' = sp_ppid p ∧ sp_tasks p' = sp_tasks p ∧
  sp_sigtable p' = sp_sigtable p ∧ group_exit_code p' = group_exit_code p.

(** [y] is [y0] after the threads that satisfy [P] got the signal. *)
Record delivered (P : Z → Prop) (y : SigSys) : Prop := {
  dl_dom tid : ss_threads y0 !! tid = None → ss_threads y !! tid = None;
  dl_hit tid th : ss_threads y0 !! tid = Some th → P tid → ss_threads y !! tid = Some (sent th);
  dl_miss tid th : ss_threads y0 !! tid = Some th → ¬ P tid → ss_threads y !! tid = Some th;
  dl_procs pid : option_Forall2 proc_same (ss_procs y0 !! pid) (ss_procs y !! pid) }.

Lemma delivered_ext P Q y :
  (∀ tid th, ss_threads y0 !! tid = Some th → P tid ↔ Q tid) → delivered P y → delivered Q y.
Proof using Type. clear. intros HPQ [? Hh Hm ?]. split; [done| | |done]; intros tid th ??; [apply Hh|apply Hm]; naive_solver. Qed.

Lemma delivered_none : delivered (λ _, False) y0.
Proof using Type. clear. split; [done|done|done|]. intros pid. destruct (ss_procs y0 !! pid); constructor; by repeat split. Qed.

(** Updates of a process that keep what matters. *)
Lemma delivered_update P y pid f :
  (∀ p, proc_same p (f p)) → delivered P y → delivered P (update_proc y pid f).
Proof using Type.
  clear. intros Hf [? ? ? Hp]. split; [done|done|done|]. intros q. simpl. specialize (Hp q).
  destruct (decide (q = pid)) as [->|]; [|by rewrite lookup_alter_ne].
  rewrite lookup_alter_eq. destruct Hp as [p p' Hpp|]; constructor.
  destruct (Hf p') as (?&?&?&?&?&?), Hpp as (?&?&?&?&?&?). unfold proc_same. split_and!; congruence.
Qed.

Lemma delivered_frame P y ready woken :
  delivered P y → delivered P (mkSigSys (ss_threads y) (ss_procs y) ready woken).
Proof using Type. clear. by intros [????]. Qed.

Lemma delivered_thread P y tid th : delivered P y → ss_threads y0 !! tid = Some th → ¬ P tid →
  ss_threads y !! tid = Some th.
Proof using Type. clear. intros [????]. eauto. Qed.

Lemma delivered_iw P y pid p : delivered P y → ss_procs y !! pid = Some p →
  interrupt_wait (sp_sigtable p) sig = Done (interrupts pid).
Proof using Hwf Hsig.
  intros [_ _ _ Hp] Hpid. specialize (Hp pid). rewrite Hpid in Hp. inversion Hp as [q ? (_&_&_&_&Hq&_) Hq0|]; subst.
  unfold interrupts. rewrite <- Hq0, Hq.
  destruct (interrupt_wait_done (sp_sigtable q) sig) as [b ->]; [|done..]. eapply sb_table; eauto.
Qed.

(** ** Delivery to a thread and to a thread group *)

Lemma delivered_proc P y pid p0 : delivered P y → ss_procs y0 !! pid = Some p0 →
  ∃ p, ss_procs y !! pid = Some p ∧ proc_same p0 p.
Proof using Type. clear. intros [_ _ _ Hp] H0. specialize (Hp pid). rewrite H0 in Hp. inversion Hp; subst; eauto. Qed.

Lemma add_signal_delivered P y tid th : sig ≠ 0 → delivered P y → ¬ P tid → ss_threads y0 !! tid = Some th →
  ∃ y' b, add_signal_with_info y tid sig info Normal = Done (y', b) ∧ delivered (λ t, P t ∨ t = tid) y'.
Proof using Hwf Hsig.
  intros H0 Hd HP Hth. destruct (sb_proc _ Hwf _ _ Hth) as [p0 Hp0].
  unfold add_signal_with_info. rewrite (delivered_thread _ _ _ _ Hd Hth HP). cbn [unwrap mbind comp_bind].
  set (y1 := if _ && _ then update_proc y _ _ else y).
  assert (ss_threads y1 = ss_threads y ∧ delivered P y1) as [Hy1 Hd1].
  { subst y1. case_match; [|done]. split; [done|]. apply delivered_update; [|done].
    intros p. case_match; by repeat split. }
  destruct (delivered_proc _ _ _ _ Hd1 Hp0) as (p & Hp & _). rewrite Hp. cbn [unwrap mbind comp_bind].
  rewrite (delivered_iw _ _ _ _ Hd1 Hp). cbn [mbind comp_bind].
  destruct (add_signal_task _ _ _ _ _) as [[t enq] ret] eqn:Et. eexists _, _. split; [done|].
  destruct Hd1 as [Ha Hb Hc Hpr]. assert (sent th = with_task th t) as Hs.
  { unfold sent. rewrite (proj2 (Z.eqb_neq sig 0)) by done. by rewrite Et. }
  split; simpl; [..|done]; intros t' th'.
  - rewrite lookup_insert_None. split; [by apply Ha|]. intros ->. congruence.
  - intros Ht' [Hp'| ->]; [|by rewrite lookup_insert_eq; simplify_eq; rewrite Hs].
    rewrite lookup_insert_ne by (intros ->; done). by apply Hb.
  - intros Ht' Hn. rewrite lookup_insert_ne by (intros ->; apply Hn; by right). apply Hc; tauto.
Qed.

Lemma deliver_loop_delivered tids P y n : sig ≠ 0 → delivered P y → NoDup tids → (∀ t, t ∈ tids → ¬ P t) →
  ∃ y' n', deliver_loop y tids sig info n = Done (y', n') ∧ delivered (λ t, P t ∨ t ∈ tids) y'.
Proof using Hwf Hsig.
  intros H0. revert P y n. induction tids as [|tid tids IH]; intros P y n Hd Hnd HP; simpl.
  { eexists _, _. split; [done|]. eapply delivered_ext; [|done]. set_solver. }
  apply NoDup_cons in Hnd as [Hni Hnd]. destruct (ss_threads y0 !! tid) as [th|] eqn:Eth.
  - rewrite (delivered_thread _ _ _ _ Hd Eth) by set_solver.
    destruct (add_signal_delivered P y tid th) as (y' & b & -> & Hd'); [done|done|set_solver|done|].
    cbn [mbind comp_bind]. edestruct IH as (y2 & n2 & -> & Hd2); [exact Hd'|done|set_solver|].
    eexists _, _. split; [done|]. eapply delivered_ext; [|done]. set_solver.
  - rewrite (dl_dom _ _ Hd _ Eth). edestruct IH as (y2 & n2 & -> & Hd2); [exact Hd|done|set_solver|].
    eexists _, _. split; [done|]. eapply delivered_ext; [|done]. intros t th Ht. set_unfold. naive_solver.
Qed.

Lemma deliver_group_delivered P y pid p0 p : delivered P y → ss_procs y0 !! pid = Some p0 → proc_same p0 p →
  (∀ t, t ∈ sp_tasks p0 → ¬ P t) →
  ∃ y' n', deliver_signal_to_thread_group y pid p sig info = Done (y', n') ∧ delivered (λ t, P t ∨ t ∈ sp_tasks p0) y'.
Proof using Hwf Hsig.
  intros Hd Hp0 Hsame HP. unfold deliver_signal_to_thread_group. destruct (Z.eqb_spec sig 0) as [He|Hne].
  { eexists _, _. split; [done|]. destruct Hd as [Ha Hb Hc Hpr].
    assert (∀ th, sent th = th) as Hid by (intros th; unfold sent; by rewrite (proj2 (Z.eqb_eq _ _) He)).
    split; [done| | |done]; intros t th Ht H1.
    - rewrite Hid. destruct H1 as [H1|H1]; [rewrite <- (Hid th); eauto|]. apply Hc; auto.
    - apply Hc; tauto. }
  destruct Hsame as (_ & _ & Hpp & Ht & _ & _). rewrite Ht.
  destruct (deliver_loop_delivered (sp_tasks p0) P y 0) as (y' & n' & -> & Hd'); [done|done| |done|].
  { by eapply sb_nodup. }
  cbn [mbind comp_bind]. case_match; [|by eexists _, _]. eexists _, _. split; [done|].
  assert (delivered (λ t, P t ∨ t ∈ sp_tasks p0) (update_proc y' pid (λ p, with_continued p (Some SIGCONT)))) as Hu.
  { apply delivered_update; [|done]. by repeat split. }
  case_match; [by apply delivered_frame|done].
Qed.

(** ** Permission *)

(** The credentials of a process are those of its first live thread. *)
Lemma delivered_cred P y p0 p : delivered P y → (∀ tid, P tid ∨ ¬ P tid) → proc_same p0 p →
  signal_cred_from_process y p = signal_cred_from_process y0 p0.
Proof using Type.
  clear -y0. intros [Ha Hb Hc _] Hdec (Hs & _ & _ & Ht & _ & _). unfold signal_cred_from_process. rewrite Ht, Hs.
  assert (∀ tid, cred_of (sp_sid p0) <$> ss_threads y !! tid = cred_of (sp_sid p0) <$> ss_threads y0 !! tid) as Hext.
  { intros tid. destruct (ss_threads y0 !! tid) as [th|] eqn:E; [|by rewrite Ha].
    destruct (Hdec tid) as [H|H]; [rewrite (Hb _ _ E H)|by rewrite (Hc _ _ E H)].
    simpl. unfold sent. by case_match. }
  clear Ht. induction (sp_tasks p0) as [|tid tids IH]; [done|]. cbn. specialize (Hext tid).
  destruct (ss_threads y !! tid), (ss_threads y0 !! tid); [exact Hext|done|done|exact IH].
Qed.
End delivery.

(** ** The loop over the processes *)

Section send_loop.
Context (y0 : SigSys) (Hwf : sys_wf y0) (sig : Z) (Hsig : sig_small sig) (signo : Z) (sender : SignalCred).
Context (select : Z → SigProc → bool) (Hselect : ∀ pid p p', proc_same p p' → select pid p' = select pid p).
Let delivered := delivered y0 sig (siginfo_from_sender sender signo).

(** The sender may signal the process. *)
Definition may_signal (p : SigProc) : bool :=
  match signal_cred_from_process y0 p with Some c => can_send_signal sender c signo | None => false end.

(** The live threads of a set of processes. *)
Definition member (Q : gset Z) (tid : Z) : Prop := ∃ th, ss_threads y0 !! tid = Some th ∧ st_pid th ∈ Q.

Lemma member_dec Q tid : member Q tid ∨ ¬ member Q tid.
Proof using Type.
  clear. unfold member. destruct (ss_threads y0 !! tid) as [th|]; [|right; naive_solver].
  destruct (decide (st_pid th ∈ Q)); [left; eauto|right; naive_solver].
Qed.

Lemma live_cred tid th p : ss_threads y0 !! tid = Some th → tid ∈ sp_tasks p → ∃ c, signal_cred_from_process y0 p = Some c.
Proof using Type.
  clear. intros Hth Hin. unfold signal_cred_from_process.
  induction (sp_tasks p) as [|t l IH]; [set_solver|]. cbn. apply elem_of_cons in Hin as [<-|Hin].
  - rewrite Hth. cbn. eauto.
  - destruct (ss_threads y0 !! t); cbn; eauto.
Qed.

Lemma send_permitted_delivered Q y tid th p0 :
  delivered (member Q) y → ss_threads y0 !! tid = Some th → ss_procs y0 !! st_pid th = Some p0 → st_pid th ∉ Q →
  ∃ p, ss_procs y !! st_pid th = Some p ∧ proc_same p0 p ∧
  ∃ y' r, send_permitted_signal_to_process y sender (st_pid th) p sig signo = Done (y', r) ∧
    if may_signal p0 then (∃ n, r = Ok n) ∧ delivered (member ({[st_pid th]} ∪ Q)) y'
    else r = Err EPERM ∧ y' = y.
Proof using Hwf Hsig.
  clear select Hselect. intros Hd Hth Hp0 HQ. destruct (delivered_proc _ _ _ _ _ _ _ Hd Hp0) as (p & Hp & Hsame).
  exists p. split; [done|]. split; [done|]. unfold send_permitted_signal_to_process, may_signal.
  rewrite (delivered_cred _ _ _ _ _ _ _ Hd (member_dec Q) Hsame).
  destruct (wf_listed _ Hwf _ _ Hth) as (p1 & Hp1 & Hin). simplify_eq.
  destruct (live_cred _ _ _ Hth Hin) as [c ->]. destruct (can_send_signal sender c signo); simpl; [|by eexists _, _].
  edestruct (deliver_group_delivered y0 Hwf sig Hsig (siginfo_from_sender sender signo) (member Q) y)
    as (y' & n & -> & Hd'); [done|done|done| |].
  { intros t Ht (th' & Hth' & Hm). by rewrite (wf_owner _ Hwf _ _ _ _ Hp0 Ht Hth') in Hm. }
  eexists _, _. split; [done|]. split; [by eexists|]. eapply delivered_ext; [|done].
  intros t th' Ht. unfold member. rewrite Ht. split.
  - intros [(x & [= <-] & Hx)|Ht']; [eexists; split; [done|set_solver]|]. eexists. split; [done|].
    rewrite (wf_owner _ Hwf _ _ _ _ Hp0 Ht' Ht). set_solver.
  - intros (x & [= <-] & Hx). apply elem_of_union in Hx as [He%elem_of_singleton|Hx]; [right|left; eauto].
    destruct (wf_listed _ Hwf _ _ Ht) as (p1 & Hp1 & Hin1). rewrite He in Hp1. by simplify_eq.
Qed.

(** The invariant of the loop: the visited processes are selected and exactly
    those that may be signalled got the signal. *)
Record loop_inv (seen Q : gset Z) (y : SigSys) : Prop := {
  li_delivered : delivered (member Q) y;
  li_seen pid : pid ∈ seen → ∃ tid th p, ss_threads y0 !! tid = Some th ∧ st_pid th = pid ∧
    ss_procs y0 !! pid = Some p ∧ select pid p = true ∧ (pid ∈ Q ↔ may_signal p = true);
  li_sub : Q ⊆ seen }.

Lemma loop_inv_visit seen Q Q' y y' tid th p :
  loop_inv seen Q y → ss_threads y0 !! tid = Some th → ss_procs y0 !! st_pid th = Some p →
  select (st_pid th) p = true → st_pid th ∉ seen → delivered (member Q') y' →
  Q' = (if may_signal p then {[st_pid th]} ∪ Q else Q) → loop_inv ({[st_pid th]} ∪ seen) Q' y'.
Proof using Type.
  clear. intros [_ Hseen Hsub] Hth Hp Hsel Hnew Hd ->. split; [done| |destruct (may_signal p); set_solver].
  intros pid [->%elem_of_singleton|Hin]%elem_of_union.
  - exists tid, th, p. split_and!; [done..|]. destruct (may_signal p); set_solver.
  - destruct (Hseen _ Hin) as (t & h & q & ? & ? & ? & ? & HQ). exists t, h, q. split_and!; [done..|].
    rewrite <- HQ. destruct (may_signal p); [|done]. assert (pid ≠ st_pid th) by congruence. set_solver.
Qed.

(** What the loop achieves from the processes [seen] over the threads [tids]. *)
Definition loop_post (tids : list Z) (seen : gset Z) (x : comp (SigSys * result SysErrNo Z)) : Prop :=
  ∃ y' seen' Q' r, x = Done (y', r) ∧ loop_inv seen' Q' y' ∧ seen ⊆ seen' ∧
    (∀ tid th p, tid ∈ tids → ss_threads y0 !! tid = Some th → ss_procs y0 !! st_pid th = Some p →
       select (st_pid th) p = true → st_pid th ∈ seen') ∧
    (if bool_decide (seen' = ∅) then r = Err ESRCH
     else if bool_decide (Q' = ∅) then r = Err EPERM else ∃ n', r = Ok n').

Lemma loop_post_cons tid th p tids seen seen1 x :
  ss_threads y0 !! tid = Some th → ss_procs y0 !! st_pid th = Some p → seen ⊆ seen1 →
  (select (st_pid th) p = true → st_pid th ∈ seen1) → loop_post tids seen1 x → loop_post (tid :: tids) seen x.
Proof using Type.
  clear. intros Hth Hp Hsub Hin (y' & seen' & Q' & r & -> & G1 & G2 & G3 & G4).
  exists y', seen', Q', r. split_and!; [done|done|set_solver| |done].
  intros t h q [->|Ht]%elem_of_cons Hh Hq Hs; [|by eapply G3]. simplify_eq. auto.
Qed.

Lemma send_loop_spec tids seen Q y n :
  loop_inv seen Q y → (∀ tid, tid ∈ tids → is_Some (ss_threads y0 !! tid)) →
  loop_post tids seen
    (send_loop y select sender sig signo tids seen (bool_decide (seen ≠ ∅)) (bool_decide (Q ≠ ∅)) n).
Proof using Hwf Hsig Hselect.
  revert seen Q y n. induction tids as [|tid tids IH]; intros seen Q y n Hinv Hlive; simpl.
  { eexists _, seen, Q, _. split; [done|]. split_and!; [done|done|set_solver|].
    destruct (decide (seen = ∅)), (decide (Q = ∅)); repeat case_bool_decide; simpl; try done; by eexists. }
  destruct (Hlive tid) as [th Hth]; [set_solver|]. destruct (wf_listed _ Hwf _ _ Hth) as (p0 & Hp0 & _).
  assert (∀ t, t ∈ tids → is_Some (ss_threads y0 !! t)) as Hlive' by set_solver.
  assert (∃ th', ss_threads y !! tid = Some th' ∧ st_pid th' = st_pid th) as (th' & -> & Hpid).
  { destruct (li_delivered _ _ _ Hinv) as [_ Hb Hc _]. destruct (member_dec Q tid) as [Hm|Hm]; [|by eauto].
    eexists. split; [by apply Hb|]. unfold sent. by case_match. }
  destruct (delivered_proc _ _ _ _ _ _ _ (li_delivered _ _ _ Hinv) Hp0) as (p & Hp & Hsame).
  cbn [unwrap mbind comp_bind]. rewrite Hpid, Hp. cbn [unwrap mbind comp_bind]. rewrite (Hselect _ _ _ Hsame).
  destruct (negb (select (st_pid th) p0) || bool_decide (st_pid th ∈ seen)) eqn:Eskip.
  { eapply loop_post_cons; [done..| |by apply IH]. intros Hs. rewrite Hs in Eskip. by apply bool_decide_eq_true in Eskip. }
  apply orb_false_iff in Eskip as [Esel%negb_false_iff Enew%bool_decide_eq_false].
  destruct (send_permitted_delivered Q y tid th p0 (li_delivered _ _ _ Hinv) Hth Hp0) as (p' & Hp' & _ & y1 & r1 & Hsp & Hr).
  { intros ?. by apply Enew, (li_sub _ _ _ Hinv). }
  simplify_eq. rewrite Hsp. cbn [mbind comp_bind].
  apply (loop_post_cons _ _ _ _ _ ({[st_pid th]} ∪ seen) _ Hth Hp0); [set_solver|set_solver|].
  assert (bool_decide ({[st_pid th]} ∪ seen ≠ ∅) = true) as Ht by (apply bool_decide_eq_true_2; set_solver).
  destruct (may_signal p0) eqn:Em; destruct Hr as [Hr Hd1].
  - destruct Hr as [n1 ->]. rewrite <- Ht at 1.
    rewrite <- (bool_decide_eq_true_2 ({[st_pid th]} ∪ Q ≠ ∅)) at 1 by set_solver.
    apply IH; [|done]. eapply loop_inv_visit; [done..|]. by rewrite Em.
  - subst r1 y1. rewrite <- Ht at 1. apply IH; [|done]. eapply loop_inv_visit; [done..|by apply Hinv|]. by rewrite Em.
Qed.

(** ** Targets *)

(** A live thread of a selected process, and one whose process the sender may
    signal. *)
Definition target (tid : Z) : Prop :=
  ∃ th p, ss_threads y0 !! tid = Some th ∧ ss_procs y0 !! st_pid th = Some p ∧ select (st_pid th) p = true.
Definition permitted_target (tid : Z) : Prop :=
  ∃ th p, ss_threads y0 !! tid = Some th ∧ ss_procs y0 !! st_pid th = Some p ∧ select (st_pid th) p = true ∧
    may_signal p = true.

(** The signal reached exactly the permitted targets, and the result says
    whether there were targets and permitted ones. *)
Definition send_outcome (x : comp (SigSys * result SysErrNo Z)) : Prop :=
  ∃ y' r, x = Done (y', r) ∧ delivered permitted_target y' ∧
    (r = Err ESRCH ∧ (¬ ∃ tid, target tid) ∨
     r = Err EPERM ∧ (∃ tid, target tid) ∧ (¬ ∃ tid, permitted_target tid) ∨
     (∃ n, r = Ok n) ∧ ∃ tid, permitted_target tid).

Lemma permitted_target_target tid : permitted_target tid → target tid.
Proof using Type. clear. intros (th & p & ? & ? & ? & _). by exists th, p. Qed.

Lemma loop_post_outcome x : loop_post (get_all_tasks y0) ∅ x → send_outcome x.
Proof using Hwf.
  clear Hselect Hsig. intros (y' & seen & Q & r & -> & [Hd Hseen Hsub] & _ & Hall & Hr). exists y', r. split; [done|].
  assert (∀ tid, target tid ↔ ∃ th, ss_threads y0 !! tid = Some th ∧ st_pid th ∈ seen) as Htarget.
  { intros tid. split.
    - intros (th & p & Hth & Hp & Hs). exists th. split; [done|]. eapply Hall; [|done..].
      unfold get_all_tasks. rewrite merge_sort_Permutation. apply elem_of_elements, elem_of_dom. by eexists.
    - intros (th & Hth & Hin). destruct (Hseen _ Hin) as (_ & _ & p & _ & _ & Hp & Hs & _). by exists th, p. }
  assert (∀ tid, permitted_target tid ↔ member Q tid) as Hperm.
  { intros tid. split.
    - intros Hpt. destruct (proj1 (Htarget tid) (permitted_target_target _ Hpt)) as (th & Hth & Hin).
      destruct Hpt as (th' & p & Hth' & Hp & Hs & Hm). simplify_eq.
      destruct (Hseen _ Hin) as (_ & _ & p' & _ & _ & Hp' & _ & HQ). simplify_eq. eexists. naive_solver.
    - intros (th & Hth & Hin). destruct (Hseen _ (Hsub _ Hin)) as (_ & _ & p & _ & _ & Hp & Hs & HQ).
      exists th, p. naive_solver. }
  split; [eapply delivered_ext; [|done]; intros; by rewrite Hperm|].
  assert (∀ pid, pid ∈ seen → ∃ tid th, ss_threads y0 !! tid = Some th ∧ st_pid th = pid) as Hlive.
  { intros pid Hin. destruct (Hseen _ Hin) as (t & h & _ & ? & ? & _). eauto. }
  case_bool_decide as E1; [left|]; [|right; case_bool_decide as E2; [left|right]].
  - split; [done|]. intros (tid & (th & _ & Hin)%Htarget). set_solver.
  - split_and!; [done| |].
    + apply set_choose_L in E1 as [pid Hin]. destruct (Hlive _ Hin) as (t & h & ? & <-). exists t. apply Htarget. eauto.
    + intros (tid & (th & _ & Hin)%Hperm). set_solver.
  - split; [done|]. apply set_choose_L in E2 as [pid Hin]. destruct (Hlive _ (Hsub _ Hin)) as (t & h & ? & <-).
    exists t. apply Hperm. exists h. done.
Qed.

Lemma send_loop_outcome :
  send_outcome (send_loop y0 select sender sig signo (get_all_tasks y0) ∅ false false 0).
Proof using Hwf Hsig Hselect.
  apply loop_post_outcome.
  pose proof (send_loop_spec (get_all_tasks y0) ∅ ∅ y0 0) as H.
  rewrite !(bool_decide_eq_false_2 (∅ ≠ ∅)) in H by set_solver. apply H; clear H.
  - split; [|set_solver..]. eapply delivered_ext; [|apply delivered_none]. intros tid th _. unfold member. set_solver.
  - intros tid. unfold get_all_tasks. rewrite merge_sort_Permutation, elem_of_elements, elem_of_dom. done.
Qed.
End send_loop.

(** The case of one process. *)
Lemma cred_live y p c : signal_cred_from_process y p = Some c →
  ∃ tid th, tid ∈ sp_tasks p ∧ ss_threads y !! tid = Some th.
Proof.
  unfold signal_cred_from_process. induction (sp_tasks p) as [|t l IH]; cbn; [done|].
  destruct (ss_threads y !! t) as [th|] eqn:E; cbn; [intros _; exists t, th; set_solver|].
  intros (t' & th & ? & ?)%IH. exists t', th. set_solver.
Qed.

Lemma send_process_outcome y sig signo sender pid : sys_wf y → sig_small sig →
  send_outcome y sig signo sender (λ q _, q =? pid)
    (match ss_procs y !! pid with
     | None => Done (y, Err ESRCH)
     | Some p => send_permitted_signal_to_process y sender pid p sig signo
     end).
Proof.
  intros Hwf Hsig. set (sel := λ (q : Z) (_ : SigProc), q =? pid).
  assert (delivered y sig (siginfo_from_sender sender signo) (λ _, False) y) as Hd0 by apply delivered_none.
  assert ((¬ ∃ tid, target y sel tid) → send_outcome y sig signo sender sel (Done (y, Err ESRCH))) as Hno.
  { intros Hno. exists y, (Err ESRCH). split; [done|]. split; [|by left].
    eapply delivered_ext; [|exact Hd0]. intros tid th _. split; [done|].
    intros Hp%permitted_target_target. apply Hno. eauto. }
  destruct (ss_procs y !! pid) as [p|] eqn:Ep.
  2: { apply Hno. intros (tid & th & p & Hth & Hp & He%Z.eqb_eq). congruence. }
  destruct (signal_cred_from_process y p) as [c|] eqn:Ec.
  2: { unfold send_permitted_signal_to_process. rewrite Ec. apply Hno. intros (tid & th & q & Hth & Hp & He%Z.eqb_eq).
       subst pid. destruct (wf_listed _ Hwf _ _ Hth) as (p1 & Hp1 & Hin). simplify_eq.
       destruct (live_cred _ _ _ _ Hth Hin). congruence. }
  destruct (cred_live _ _ _ Ec) as (tid & th & Hin & Hth). pose proof (wf_owner _ Hwf _ _ _ _ Ep Hin Hth) as <-.
  assert (∀ P, (∀ t, ¬ P t) → delivered y sig (siginfo_from_sender sender signo) P y) as Hd.
  { intros P HP. eapply delivered_ext; [|exact Hd0]. naive_solver. }
  destruct (send_permitted_delivered y Hwf sig Hsig signo sender ∅ y tid th p) as (p' & Hp' & _ & y' & r & Hsp & Hr);
    [apply Hd; unfold member; set_solver|done|done|done|].
  rewrite Ep in Hp'. injection Hp' as <-. exists y', r. split; [done|].
  assert (target y sel tid) as Ht by (exists th, p; split_and!; [done..|]; apply Z.eqb_refl).
  destruct (may_signal y signo sender p) eqn:Em; destruct Hr as [Hr1 Hr2].
  - split; [|right; right; split; [done|]; exists tid, th, p; split_and!; [done..|apply Z.eqb_refl|done]].
    eapply delivered_ext; [|exact Hr2]. intros t h Hh. unfold member, permitted_target, sel. rewrite Hh. split.
    + intros (? & [= <-] & He%elem_of_union). assert (st_pid h = st_pid th) as He' by set_solver.
      exists h, p. rewrite He'. split_and!; [done..|apply Z.eqb_refl|done].
    + intros (? & ? & [= <-] & _ & He%Z.eqb_eq & _). exists h. set_solver.
  - subst r y'. assert (∀ t, ¬ permitted_target y signo sender sel t) as Hnp.
    { intros t (h & q & Hh & Hq & He%Z.eqb_eq & Hm). rewrite He in Hq. congruence. }
    split; [by apply Hd|]. right; left. split_and!; [done|by eexists|]. naive_solver.
Qed.

(** ** [kill] *)

(** The processes that [kill] of [pid] means. *)
Definition kill_selects (self_pid self_pgid pid : Z) (q : Z) (p : SigProc) : bool :=
  if 0 <? pid then q =? pid
  else if pid =? 0 then sp_pgid p =? self_pgid
  else if pid =? -1 then negb (q =? 1) && negb (q =? self_pid)
  else sp_pgid p =? - pid.

Lemma kill_targets_outcome y cur me mine pid sig signo :
  sys_wf y → sig_small sig → ss_threads y !! cur = Some me → ss_procs y !! st_pid me = Some mine →
  - 2 ^ 63 ≤ pid < 2 ^ 63 →
  send_outcome y sig signo (cred_of (sp_sid mine) me) (kill_selects (st_pid me) (sp_pgid mine) pid)
    (kill_targets y cur pid sig signo).
Proof.
  intros Hwf Hsig Hme Hmine Hpid.
  assert (signal_cred_from_task y cur = Some (cred_of (sp_sid mine) me)) as Hc.
  { unfold signal_cred_from_task. rewrite Hme. cbn. by rewrite Hmine. }
  unfold kill_targets, kill_selects, send_user_signal_to_thread_group, send_user_signal_to_process_group,
    send_user_signal_to_accessible_processes. rewrite Hc, Hme. cbn [unwrap mbind comp_bind]. rewrite Hmine.
  destruct (0 <? pid) eqn:E0; [by apply send_process_outcome|].
  destruct (pid =? 0) eqn:E1; [|destruct (pid =? -1) eqn:E2].
  - apply send_loop_outcome; [done|done|]. intros q p p' (_ & Hg & _). unfold in_group. by rewrite Hg.
  - apply send_loop_outcome; [done|done|]. by intros q p p' _.
  - assert (wrap64 (- pid) = - pid) as ->.
    { unfold wrap64. apply Z.mod_small. change (2 ^ 63) with 9223372036854775808 in Hpid. lia. }
    apply send_loop_outcome; [done|done|]. intros q p p' (_ & Hg & _). unfold in_group. by rewrite Hg.
Qed.

Lemma permitted_target_dec y signo sender sel tid :
  permitted_target y signo sender sel tid ∨ ¬ permitted_target y signo sender sel tid.
Proof.
  unfold permitted_target. destruct (ss_threads y !! tid) as [th|] eqn:Et; [|right; naive_solver].
  destruct (ss_procs y !! st_pid th) as [p|] eqn:Ep; [|right; naive_solver].
  destruct (sel (st_pid th) p && may_signal y signo sender p) eqn:E.
  - left. apply andb_true_iff in E. eauto.
  - right. intros (? & ? & [= <-] & ? & ? & ?). simplify_eq. rewrite andb_false_iff in E. naive_solver congruence.
Qed.

(** The empty set changes no thread. *)
Lemma delivered_nothing y info P y' :
  delivered y 0 info P y' → (∀ tid, P tid ∨ ¬ P tid) → ss_threads y' = ss_threads y.
Proof.
  intros [Ha Hb Hc _] Hdec. apply map_eq. intros t. destruct (ss_threads y !! t) as [th|] eqn:Et; [|by apply Ha].
  destruct (Hdec t); [by rewrite (Hb _ _ Et)|by rewrite (Hc _ _ Et)].
Qed.

(** The flag that [kill] sends: none for 0 and for the signals above 33. *)
Definition kill_set (signo : Z) : Z := if (1 <=? signo) && (signo <=? 33) then sig_bit signo else 0.

Lemma kill_set_spec signo : 0 ≤ signo ≤ SIG_MAX_NUM →
  (if signo =? 0 then Done 0 else from_sig signo) = Done (kill_set signo) ∧ sig_small (kill_set signo).
Proof.
  unfold SIG_MAX_NUM. intros Hs. unfold kill_set. destruct (decide (1 ≤ signo ≤ 33)) as [H|H].
  - rewrite (proj2 (Z.eqb_neq signo 0)), (proj2 (Z.leb_le 1 signo)), (proj2 (Z.leb_le signo 33)) by lia. simpl.
    split; [by apply from_sig_low|]. right. eauto.
  - assert ((1 <=? signo) && (signo <=? 33) = false) as -> by (apply andb_false_iff; rewrite !Z.leb_gt; lia).
    split; [|by left]. case_match eqn:E; [done|]. apply from_sig_high. apply Z.eqb_neq in E. lia.
Qed.


(** A system with a shell (process 2, user 0), and a process 3 of user 1000
    with two threads, the second asleep in an interruptible wait. *)
Definition demo_sigtask (s : TaskStatus) (w : bool) : SigTask :=
  mkSigTask s 0 0 ∅ false None stack_disabled w false 0.
Definition demo_sys : SigSys :=
  mkSigSys
    (<[2 := mkSigThread 2 0 0 0 (demo_sigtask Running false)]> $
     <[3 := mkSigThread 3 1000 1000 1000 (demo_sigtask Running false)]> $
     <[4 := mkSigThread 3 1000 1000 1000 (demo_sigtask Blocked true)]> ∅)
    (<[2 := mkSigProc 2 2 1 [2] sigtable_new None None None]> $
     <[3 := mkSigProc 2 3 2 [3; 4] sigtable_new None None None]> ∅) [] [].

Lemma demo_sys_wf : sys_wf demo_sys.
Proof.
  assert (∀ tid th, ss_threads demo_sys !! tid = Some th →
    tid = 2 ∧ st_pid th = 2 ∨ (tid = 3 ∨ tid = 4) ∧ st_pid th = 3) as Ht.
  { intros tid th. cbn. rewrite !lookup_insert_Some. naive_solver. }
  assert (∀ pid p, ss_procs demo_sys !! pid = Some p → sp_sigtable p = sigtable_new ∧
    (pid = 2 ∧ sp_tasks p = [2] ∨ pid = 3 ∧ sp_tasks p = [3; 4])) as Hp.
  { intros pid p. cbn [ss_procs demo_sys]. rewrite !lookup_insert_Some. naive_solver. }
  split.
  - intros tid th [(-> & ->)|(Htid & ->)]%Ht; eexists; (split; [reflexivity|]); set_solver.
  - intros pid p tid th (_ & Hc)%Hp Hin Hth%Ht. destruct Hc as [(-> & Hc)|(-> & Hc)]; rewrite Hc in Hin; set_unfold; lia.
  - intros pid p (_ & [(_ & ->)|(_ & ->)])%Hp; repeat constructor; set_solver.
  - by intros pid p (-> & _)%Hp.
Qed.


(** Signals 34 to 64 are accepted and lost: [sigaction] installs a handler
    for them, and [kill] by a permitted sender returns 0, but the set that it
    sends is empty and no thread changes. *)
Theorem realtime_signals_lost y cur me mine pid tid signo :
  sys_wf y → ss_threads y !! cur = Some me → ss_procs y !! st_pid me = Some mine →
  - 2 ^ 63 ≤ pid < 2 ^ 63 → 34 ≤ signo ≤ SIG_MAX_NUM →
  permitted_target y signo (cred_of (sp_sid mine) me) (kill_selects (st_pid me) (sp_pgid mine) pid) tid →
  (∀ raw, 1 < raw_handler raw →
     ∃ tbl act, sys_rt_sigaction (sp_sigtable mine) signo (Some (Ok raw)) None 8 = Done (tbl, Ok 0) ∧
       sigtable_action tbl signo = Done (handler_action act)) ∧
  ∃ y', sys_kill y cur pid signo = Done (y', Ok 0) ∧ ss_threads y' = ss_threads y.
Proof.
  intros Hwf Hme Hmine Hpid Hs Hpt. split.
  - intros raw Hraw. unfold sys_rt_sigaction, SIG_MAX_NUM, SIGKILL, SIGSTOP, SIG_DFL, SIG_IGN in *. simpl.
    rewrite (proj2 (Z.eqb_neq signo 0)), (proj2 (Z.eqb_neq signo 9)), (proj2 (Z.eqb_neq signo 19)),
      (proj2 (Z.ltb_ge 64 signo)), (proj2 (Z.eqb_neq (raw_handler raw) 0)), (proj2 (Z.eqb_neq (raw_handler raw) 1)) by lia.
    simpl. unfold sigtable_set_action, sigtable_action. pose proof (wf_table _ Hwf _ _ Hmine) as Hl.
    rewrite (proj2 (Nat.ltb_lt _ _)) by (rewrite Hl; unfold SIG_MAX_NUM; lia). eexists _, _. split; [reflexivity|].
    apply unwrap_done. apply list_lookup_insert_eq. rewrite Hl. unfold SIG_MAX_NUM. lia.
  - assert (0 ≤ signo ≤ SIG_MAX_NUM) as Hs' by lia. destruct (kill_set_spec signo Hs') as [Hset Hsmall].
    destruct (kill_targets_outcome y cur me mine pid _ signo Hwf Hsmall Hme Hmine Hpid) as (y' & r & Hk & Hd & Hr).
    unfold sys_kill. rewrite (proj2 (Z.ltb_ge _ _)) by apply Hs. rewrite Hset. cbn [mbind comp_bind]. rewrite Hk.
    exists y'. destruct Hr as [(-> & Hr)|[(-> & _ & Hr)|((n & ->) & _)]].
    + destruct Hr. exists tid. by eapply permitted_target_target.
    + destruct Hr. by exists tid.
    + split; [done|]. unfold kill_set in Hd. rewrite (proj2 (Z.leb_gt signo 33)), andb_false_r in Hd by lia.
      eapply delivered_nothing; [exact Hd|]. apply permitted_target_dec.
Qed.

Lemma realtime_signals_lost_witness :
  ∃ y', sys_kill demo_sys 2 3 40 = Done (y', Ok 0) ∧ ss_threads y' = ss_threads demo_sys.
Proof.
  refine (proj2 (realtime_signals_lost demo_sys 2 _ _ 3 3 40 demo_sys_wf eq_refl eq_refl _ _ _));
    [unfold SIG_MAX_NUM; lia..|].
  eexists _, _. split; [vm_compute; reflexivity|]. split; [vm_compute; reflexivity|].
  split; vm_compute; reflexivity.
Defined.
