(* ===== verification/SigLife.v ===== *)
(** * The life of signals in a task

    How the mask, the pending set and the action table of one task evolve while
    other harts send signals and other threads of the process change actions:
    system calls, [rt_sigsuspend], [trap_return], handlers and their return.

    Each step is what the code does under one lock, or a stretch that only the
    task itself can observe.  A frame is what [setup_frame] saved of the mask and
    the alternate stack; [sigreturn] finds the last frame as it was written. *)

From S2P Require Import Prelude Errno Wake Signal SigSend.

(** Where the task is: in user mode (or in a system call that does not touch its
    signals), in the loop of [rt_sigsuspend] before the check or before
    [block_current_and_run_next], in [trap_return], between the choice to stop
    and [stop_current_and_run_next], or exited. *)
Inductive SigPc : Type := InUser | Suspended (old_mask : Z) (at_block : bool) | Returning | Stopping | Gone.

Record SigWorld : Type := mkSigWorld {
  sw_tbl : SigTable; sw_task : SigTask; sw_frames : list (Z * SignalStack); sw_pc : SigPc }.

(** [block_current_and_run_next] looks at the pending signals again under the lock. *)
Definition block_current_and_run_next (t : SigTask) : SigTask :=
  if negb (bits_remove (sig_pending t) (sig_mask t) =? 0) then t else with_sg_status t Blocked.

Definition stop_current_and_run_next (t : SigTask) : SigTask := with_sg_status t Stopped.

(** The condition under which [exit_current_if_group_exited_or_killed] ends a
    task whose group has not exited. *)
Definition sigkill_pending (t : SigTask) : bool := contains (sig_pending t) (sig_bit SIGKILL).

(** [trap_return] with the lowest signal: where it goes on, the frame and the
    table afterwards. *)
Definition trap_return_signal (tbl : SigTable) (t : SigTask) (signo : Z) (frames : list (Z * SignalStack))
    (env : FrameEnv) : comp SigWorld :=
  '(t, eff) ← handle_signal tbl t signo;
  match eff with
  | RunHandler act _ =>
      '(tbl, t, saved) ← setup_frame tbl t signo act env;
      match saved with
      | Some frame => Done (mkSigWorld tbl t (frame.1 :: frames) InUser)
      | None => Done (mkSigWorld tbl t frames Gone)
      end
  | Ignored | ContinueTask => Done (mkSigWorld tbl t frames Returning)
  | StopTask => Done (mkSigWorld tbl t frames Stopping)
  | ExitThread _ | ExitGroup _ _ => Done (mkSigWorld tbl t frames Gone)
  end.

Definition signalled (w : SigWorld) (s : Z) (info : option SigInfo) (source : SignalDeliverySource) (iw : bool) : SigWorld :=
  mkSigWorld (sw_tbl w) (add_signal_task (sw_task w) (sig_bit s) info source iw).1.1 (sw_frames w) (sw_pc w).

Notation running w := (sg_status (sw_task w) = Running).

Inductive sig_step : SigWorld → SigWorld → Prop :=
| step_signal w s info source iw : 1 ≤ s ≤ 33 → sig_step w (signalled w s info source iw)
| step_action w signo act old size tbl r :
    0 ≤ signo → sys_rt_sigaction (sw_tbl w) signo act old size = Done (tbl, r) →
    sig_step w (mkSigWorld tbl (sw_task w) (sw_frames w) (sw_pc w))
| step_procmask w how set old :
    sw_pc w = InUser → running w →
    sig_step w (mkSigWorld (sw_tbl w) (sys_rt_sigprocmask (sw_task w) how set old).1 (sw_frames w) Returning)
| step_altstack w sp req :
    sw_pc w = InUser → running w →
    sig_step w (mkSigWorld (sw_tbl w) (sys_sigaltstack (sw_task w) sp req).1 (sw_frames w) Returning)
| step_timedwait w set t r :
    sw_pc w = InUser → running w → sigtimedwait_take (sw_task w) set = Done (t, r) →
    sig_step w (mkSigWorld (sw_tbl w) t (sw_frames w) Returning)
| step_trap w :
    sw_pc w = InUser → running w → sig_step w (mkSigWorld (sw_tbl w) (sw_task w) (sw_frames w) Returning)
| step_suspend w mask :
    sw_pc w = InUser → running w →
    sig_step w (mkSigWorld (sw_tbl w) (sigsuspend_begin (sw_task w) mask) (sw_frames w)
                  (Suspended (sig_mask (sw_task w)) false))
| step_suspend_empty w old :
    sw_pc w = Suspended old false → running w → check_if_any_sig (sw_task w) = None →
    sig_step w (mkSigWorld (sw_tbl w) (sw_task w) (sw_frames w) (Suspended old true))
| step_suspend_consume w old s t :
    sw_pc w = Suspended old false → running w → check_if_any_sig (sw_task w) = Some s →
    consume_ignorable (sw_tbl w) (sw_task w) = Done (t, true) →
    sig_step w (mkSigWorld (sw_tbl w) t (sw_frames w) (Suspended old false))
| step_suspend_done w old s t :
    sw_pc w = Suspended old false → running w → check_if_any_sig (sw_task w) = Some s →
    consume_ignorable (sw_tbl w) (sw_task w) = Done (t, false) →
    sig_step w (mkSigWorld (sw_tbl w) (sigsuspend_end t old) (sw_frames w) Returning)
| step_suspend_block w old :
    sw_pc w = Suspended old true → running w →
    sig_step w (mkSigWorld (sw_tbl w) (block_current_and_run_next (sw_task w)) (sw_frames w) (Suspended old false))
| step_return_signal w s env w' :
    sw_pc w = Returning → running w → check_if_any_sig (sw_task w) = Some s →
    trap_return_signal (sw_tbl w) (sw_task w) s (sw_frames w) env = Done w' → sig_step w w'
| step_return_none w :
    sw_pc w = Returning → running w → check_if_any_sig (sw_task w) = None →
    sig_step w (mkSigWorld (sw_tbl w) (trap_return_mask (sw_task w)) (sw_frames w) InUser)
| step_stop w :
    sw_pc w = Stopping → running w →
    sig_step w (mkSigWorld (sw_tbl w) (stop_current_and_run_next (sw_task w)) (sw_frames w) Returning)
| step_sigreturn w frame frames sp :
    sw_pc w = InUser → running w → sw_frames w = frame :: frames →
    sig_step w (mkSigWorld (sw_tbl w) (restore_frame (sw_task w) frame sp) frames Returning)
| step_preempt w :
    running w → sig_step w (mkSigWorld (sw_tbl w) (with_sg_status (sw_task w) Ready) (sw_frames w) (sw_pc w))
| step_dispatch w :
    sg_status (sw_task w) = Ready →
    sig_step w (mkSigWorld (sw_tbl w) (with_sg_status (sw_task w) Running) (sw_frames w) (sw_pc w))
| step_killed w :
    running w → sigkill_pending (sw_task w) = true →
    sig_step w (mkSigWorld (sw_tbl w) (sw_task w) (sw_frames w) Gone).

Definition sig_start : SigWorld := mkSigWorld sigtable_new (demo_sigtask Running false) [] InUser.
Definition sig_reachable (w : SigWorld) : Prop := rtc sig_step sig_start w.

(** ** Masks without [SIGKILL] and [SIGSTOP] *)

Definition unblocked (m : Z) : Prop := sig_in SIGKILL m = false ∧ sig_in SIGSTOP m = false.

Lemma unblocked_remove m : unblocked (bits_remove m SIG_UNBLOCKABLE).
Proof. split; rewrite sig_in_remove; apply andb_false_r. Qed.
Lemma unblocked_lor a b : unblocked a → unblocked b → unblocked (Z.lor a b).
Proof. intros [] []. split; rewrite sig_in_lor; by apply orb_false_iff. Qed.
Lemma unblocked_remove_l a b : unblocked a → unblocked (bits_remove a b).
Proof. intros []. split; rewrite sig_in_remove; by apply andb_false_iff; left. Qed.
Lemma unblocked_0 : unblocked 0.
Proof. done. Qed.
Lemma unblocked_bit s : 1 ≤ s → s ≠ SIGKILL → s ≠ SIGSTOP → unblocked (sig_bit s).
Proof. intros. split; rewrite sig_in_bit by done; by apply bool_decide_eq_false. Qed.
#[export] Hint Resolve unblocked_remove unblocked_lor unblocked_remove_l unblocked_0 : ya2y.

(** ** Tables whose actions for [SIGKILL] and [SIGSTOP] are the default *)

Record table_ok (tbl : SigTable) : Prop := {
  tb_len : length tbl = Z.to_nat (SIG_MAX_NUM + 1);
  tb_kill : sigtable_action tbl SIGKILL = Done default_action;
  tb_stop : sigtable_action tbl SIGSTOP = Done default_action;
  tb_mask s a : sigtable_action tbl s = Done a → unblocked (sa_mask (k_act a)) }.

Lemma table_ok_new : table_ok sigtable_new.
Proof.
  split; [done..|]. intros s a Ha%unwrap_done. by apply lookup_replicate in Ha as [-> _].
Qed.

Lemma table_ok_set tbl s a tbl' : table_ok tbl → 1 ≤ s → s ≠ SIGKILL → s ≠ SIGSTOP → unblocked (sa_mask (k_act a)) →
  sigtable_set_action tbl s a = Done tbl' → table_ok tbl'.
Proof.
  intros [Hl Hk Hs Hm] H1 H2 H3 Ha. unfold sigtable_set_action. case_match; [|done]. intros [= <-].
  split; [by etrans; [apply length_insert|]|..].
  - apply unwrap_done. etrans; [apply list_lookup_insert_ne; unfold SIGKILL in *; lia|]. by apply unwrap_done.
  - apply unwrap_done. etrans; [apply list_lookup_insert_ne; unfold SIGSTOP in *; lia|]. by apply unwrap_done.
  - intros r b Hb%unwrap_done. destruct (decide (Z.to_nat r = Z.to_nat s)) as [Hr|Hr].
    + rewrite Hr in Hb. assert (Some a = Some b) as [= <-]; [|done]. rewrite <- Hb. symmetry.
      apply list_lookup_insert_eq. by apply Nat.ltb_lt.
    + apply (Hm r). apply unwrap_done. rewrite <- Hb. symmetry. by apply list_lookup_insert_ne.
Qed.

Lemma sigaction_ok tbl signo act old size tbl' r : table_ok tbl → 0 ≤ signo →
  sys_rt_sigaction tbl signo act old size = Done (tbl', r) → table_ok tbl'.
Proof.
  intros Hok Hs0. unfold sys_rt_sigaction. destruct (negb (size =? 8)); [by intros [= <- <-]|].
  destruct (signo =? 0) eqn:E0; [by intros [= <- <-]|]. simpl. destruct (SIG_MAX_NUM <? signo); [by intros [= <- <-]|].
  destruct (_ && bool_decide (is_Some act)) eqn:Ek; [by intros [= <- <-]|].
  rewrite comp_bind_done. intros (c & _ & H).
  destruct c as [[|]|], act as [[raw|]|]; try (by injection H as <- <-).
  all: apply comp_bind_done in H as (tbl1 & Hset & [= <- <-]).
  all: rewrite bool_decide_eq_true_2, andb_true_r in Ek by by eexists.
  all: apply orb_false_iff in Ek as [?%Z.eqb_neq ?%Z.eqb_neq]; apply Z.eqb_neq in E0.
  all: eapply table_ok_set; [exact Hok|..|exact Hset]; [lia|done|done|].
  all: repeat case_match; simpl; auto with ya2y.
Qed.

(** ** The invariant *)

(** The masks that can become the mask of the task. *)
Definition masks_ok (w : SigWorld) : Prop :=
  unblocked (sig_mask (sw_task w)) ∧ (∀ m, sigsuspend_restore_mask (sw_task w) = Some m → unblocked m) ∧
  (∀ old b, sw_pc w = Suspended old b → unblocked old) ∧ Forall (λ f, unblocked f.1) (sw_frames w).

(** Only the signals 1 to 33 are pending. *)
Definition pending_ok (t : SigTask) : Prop := 0 ≤ sig_pending t ∧ ∀ s, sig_in s (sig_pending t) = true → 1 ≤ s ≤ 33.

Record sig_inv (w : SigWorld) : Prop := {
  iv_masks : masks_ok w;
  iv_table : table_ok (sw_tbl w);
  iv_pending : pending_ok (sw_task w);
  iv_blocked : sg_status (sw_task w) = Blocked → ∀ s, deliverable (sw_task w) s = false }.

Lemma sig_in_pos s m : sig_in s m = true → 1 ≤ s.
Proof. unfold sig_in. intros H. destruct (decide (s - 1 < 0)); [|lia]. by rewrite Z.testbit_neg_r in H. Qed.

Lemma record_signal_fields t sig info source :
  let t' := record_signal t sig info source in
  sig_pending t' = Z.lor (sig_pending t) sig ∧ sig_mask t' = sig_mask t ∧ sg_status t' = sg_status t ∧
  sigsuspend_restore_mask t' = sigsuspend_restore_mask t.
Proof. unfold record_signal. repeat case_match; done. Qed.

(** A signal to a blocked task makes it ready; the masks do not change. *)
Lemma add_signal_task_fields t sig info source iw :
  let t' := (add_signal_task t sig info source iw).1.1 in
  sig_pending t' = Z.lor (sig_pending t) sig ∧ sig_mask t' = sig_mask t ∧ sg_status t' ≠ Blocked ∧
  sigsuspend_restore_mask t' = sigsuspend_restore_mask t.
Proof.
  unfold add_signal_task. destruct (record_signal_fields t sig info source) as (H1 & H2 & _ & H4).
  unfold wake_for_signal, wake_interruptible. repeat case_match; simplify_eq/=; split_and!; try done.
  all: repeat case_bool_decide; try done; congruence.
Qed.

Lemma pending_ok_lor t p s i : pending_ok t → 1 ≤ s ≤ 33 → p = Z.lor (sig_pending t) (sig_bit s) →
  pending_ok (with_pending t p i).
Proof.
  intros [H0 H1] Hs ->. split; simpl.
  - apply Z.lor_nonneg. split; [done|]. unfold sig_bit. rewrite Z.shiftl_1_l. lia.
  - intros r. rewrite sig_in_lor, sig_in_bit, orb_true_iff, bool_decide_eq_true by lia. naive_solver.
Qed.

Lemma pending_ok_remove t sig i : pending_ok t → pending_ok (with_pending t (bits_remove (sig_pending t) sig) i).
Proof.
  intros [H0 H1]. split; simpl; [by apply remove_nonneg|]. intros s. rewrite sig_in_remove, andb_true_iff. naive_solver.
Qed.

Lemma pending_ok_ext t t' : sig_pending t' = sig_pending t → pending_ok t → pending_ok t'.
Proof. intros He [??]. split; by rewrite He. Qed.

(** What the steps of the task itself leave of the invariant. *)
Lemma sig_inv_running w tbl t frames pc :
  sig_inv w → table_ok tbl → pending_ok t → sg_status t ≠ Blocked → masks_ok (mkSigWorld tbl t frames pc) →
  sig_inv (mkSigWorld tbl t frames pc).
Proof. by split. Qed.

(** ** Preservation *)

(** A task that differs in the pending set only. *)
Definition drops_pending (t t' : SigTask) : Prop :=
  (pending_ok t → pending_ok t') ∧ sig_mask t' = sig_mask t ∧ sg_status t' = sg_status t ∧
  sigsuspend_restore_mask t' = sigsuspend_restore_mask t.

Lemma drops_pending_remove t sig i : drops_pending t (with_pending t (bits_remove (sig_pending t) sig) i).
Proof. split_and!; [apply pending_ok_remove|done..]. Qed.

Lemma consume_drops tbl t t' b : consume_ignorable tbl t = Done (t', b) → drops_pending t t'.
Proof.
  unfold consume_ignorable. destruct (check_if_any_sig t); [|by intros [= <- <-]].
  rewrite comp_bind_done. intros (sg & _ & (a & _ & H)%comp_bind_done).
  repeat case_match; injection H as <- <-; [done|done|apply drops_pending_remove].
Qed.

Lemma timedwait_drops t set t' r : sigtimedwait_take t set = Done (t', r) → drops_pending t t'.
Proof.
  unfold sigtimedwait_take. case_match; [|by intros [= <- <-]].
  rewrite comp_bind_done. intros (sg & _ & [= <- <-]). apply drops_pending_remove.
Qed.

Lemma handle_signal_drops tbl t s t' eff : handle_signal tbl t s = Done (t', eff) →
  drops_pending t t' ∧
  ∀ act info, eff = RunHandler act info → ∃ a, sigtable_action tbl s = Done a ∧ k_act a = act ∧ is_handler a = true.
Proof.
  unfold handle_signal. rewrite comp_bind_done. intros (a & Ha & (sg & _ & H)%comp_bind_done).
  assert (∀ c : bool, drops_pending t
    (if c then with_teardown (with_pending t (bits_remove (sig_pending t) sg) (delete s (sig_pending_info t))) false
     else with_pending t (bits_remove (sig_pending t) sg) (delete s (sig_pending_info t)))) as Hd.
  { intros c. destruct (drops_pending_remove t sg (delete s (sig_pending_info t))) as (?&?&?&?).
    destruct c; split_and!; try done. }
  destruct (is_handler a) eqn:Eh.
  - injection H as <- <-. split; [apply Hd|]. intros act info [= <- <-]. by exists a.
  - assert (∃ c : bool, t' = (if c
      then with_teardown (with_pending t (bits_remove (sig_pending t) sg) (delete s (sig_pending_info t))) false
      else with_pending t (bits_remove (sig_pending t) sg) (delete s (sig_pending_info t))) ∧
      ∀ act info, eff ≠ RunHandler act info) as (c & -> & Hne).
    { cbn [exec_teardown_kill with_pending] in H.
      destruct ((s =? SIGKILL) && exec_teardown_kill t); [exists true|exists false];
        repeat case_match; injection H as <- <-; split; done. }
    split; [apply Hd|]. naive_solver.
Qed.

Lemma setup_frame_ok tbl t s act env tbl' t' saved : table_ok tbl → 1 ≤ s ≤ 33 → s ≠ SIGKILL → s ≠ SIGSTOP →
  unblocked (sa_mask act) → unblocked (sig_mask t) → (∀ m, sigsuspend_restore_mask t = Some m → unblocked m) →
  setup_frame tbl t s act env = Done (tbl', t', saved) →
  table_ok tbl' ∧ unblocked (sig_mask t') ∧ sigsuspend_restore_mask t' = None ∧
  (∀ f, saved = Some f → unblocked f.1.1) ∧ sig_pending t' = sig_pending t ∧ sg_status t' = sg_status t.
Proof.
  intros Hok Hs Hk Hst Ha Hm Hr. unfold setup_frame. rewrite comp_bind_done. intros (tbl1 & Ht & H).
  assert (table_ok tbl1) as Hok1.
  { destruct (contains (sa_flags act) SA_RESETHAND); [|by injection Ht as <-].
    eapply table_ok_set; [exact Hok|..|exact Ht]; [lia|done|done|done]. }
  destruct (frame_place _ _ _ _ _) as [[[start size] top]|]; [|by injection H as <- <- <-].
  destruct (negb (fe_writable env start size)); [by injection H as <- <- <-|].
  apply comp_bind_done in H as (own & Hown & [= <- <- <-]).
  assert (unblocked own) as Ho.
  { destruct (contains (sa_flags act) SA_NODEFER); [by injection Hown as <-|]. rewrite from_sig_low in Hown by done.
    injection Hown as <-. by apply unblocked_bit; [lia|..]. }
  split_and!; [done| | | | |]; try by destruct (is_autodisarm _).
  - destruct (is_autodisarm _); simpl; auto with ya2y.
  - intros f [= <-]. simpl. destruct (sigsuspend_restore_mask t); simpl; auto.
Qed.

Lemma trap_return_signal_inv w s env w' : sig_inv w → running w → check_if_any_sig (sw_task w) = Some s →
  trap_return_signal (sw_tbl w) (sw_task w) s (sw_frames w) env = Done w' → sig_inv w'.
Proof.
  intros Hi Hrun Hc. pose proof Hi as [(Hm & Hr & _ & Hf) Ht Hp _].
  apply check_if_any_sig_Some in Hc as [Hc _]; [|apply Hp]. apply andb_true_iff in Hc as [Hc _]. apply Hp in Hc.
  unfold trap_return_signal. rewrite comp_bind_done. intros ([t eff] & Hh & H).
  apply handle_signal_drops in Hh as ((Hdp & Hdm & Hds & Hdr) & Hact).
  destruct eff as [act info| | | | |].
  2-6: injection H as <-; apply (sig_inv_running w); auto; [congruence|];
    split_and!; simpl; rewrite ?Hdm, ?Hdr; done.
  destruct (Hact act info eq_refl) as (a & Ha & <- & Hhandler).
  assert (s ≠ SIGKILL) as Hk by (intros ->; rewrite (tb_kill _ Ht) in Ha; by injection Ha as <-).
  assert (s ≠ SIGSTOP) as Hst by (intros ->; rewrite (tb_stop _ Ht) in Ha; by injection Ha as <-).
  apply comp_bind_done in H as ([[tbl1 t1] saved] & Hset & H).
  eapply setup_frame_ok in Hset as (G1 & G2 & G3 & G4 & G5 & G6); [|done|done|done|done|by eapply tb_mask| |].
  2: by rewrite Hdm. 2: by rewrite Hdr.
  assert (pending_ok t1) as Hp1 by (eapply pending_ok_ext; [exact G5|auto]).
  destruct saved as [frame|]; injection H as <-; (apply (sig_inv_running w); [done|done|done|congruence|]).
  - split_and!; simpl; [done|by rewrite G3|done|constructor; auto].
  - split_and!; simpl; [done|by rewrite G3|done|done].
Qed.

Lemma procmask_fields t how set old :
  let t' := (sys_rt_sigprocmask t how set old).1 in
  sig_pending t' = sig_pending t ∧ sg_status t' = sg_status t ∧
  sigsuspend_restore_mask t' = sigsuspend_restore_mask t ∧ (unblocked (sig_mask t) → unblocked (sig_mask t')).
Proof. unfold sys_rt_sigprocmask. repeat case_match; simpl; split_and!; auto with ya2y. Qed.

Lemma altstack_fields t sp req :
  let t' := (sys_sigaltstack t sp req).1 in
  sig_pending t' = sig_pending t ∧ sg_status t' = sg_status t ∧
  sigsuspend_restore_mask t' = sigsuspend_restore_mask t ∧ sig_mask t' = sig_mask t.
Proof. unfold sys_sigaltstack. repeat case_match; done. Qed.

Lemma restore_frame_fields t f sp :
  let t' := restore_frame t f sp in
  sig_pending t' = sig_pending t ∧ sg_status t' = sg_status t ∧
  sigsuspend_restore_mask t' = sigsuspend_restore_mask t ∧ sig_mask t' = f.1.
Proof. unfold restore_frame. case_match; done. Qed.

(** A step of the task itself: what it must keep. *)
Lemma sig_inv_next w t frames pc :
  sig_inv w → pending_ok t → sg_status t ≠ Blocked → unblocked (sig_mask t) →
  sigsuspend_restore_mask t = sigsuspend_restore_mask (sw_task w) ∨
    (∀ m, sigsuspend_restore_mask t = Some m → unblocked m) →
  (∀ old b, pc = Suspended old b → unblocked old) → Forall (λ f, unblocked f.1) frames →
  sig_inv (mkSigWorld (sw_tbl w) t frames pc).
Proof.
  intros Hi ??? Hr ??. apply (sig_inv_running w); [done|apply Hi|done|done|]. split_and!; [done| |done|done].
  destruct Hr as [Hr|Hr]; [|done]. simpl. rewrite Hr. apply Hi.
Qed.

Lemma sig_step_inv w w' : sig_step w w' → sig_inv w → sig_inv w'.
Proof.
  intros Hstep Hi.
  destruct Hstep as [w s info source iw Hsig|w signo act old size tbl r H0 Hact|w how set old Hpc Hrun
    |w sp req Hpc Hrun|w set t r Hpc Hrun Htake|w Hpc Hrun|w mask Hpc Hrun|w old Hpc Hrun Hc|w old s t Hpc Hrun Hc Hcons
    |w old s t Hpc Hrun Hc Hcons|w old Hpc Hrun|w s env w' Hpc Hrun Hc Htr|w Hpc Hrun Hc|w Hpc Hrun|w f fs sp Hpc Hrun Hfs
    |w Hrun|w Hrdy|w Hrun Hkill]; pose proof Hi as [(Hm & Hr & Hs & Hf) Ht Hp Hb].
  - destruct (add_signal_task_fields (sw_task w) (sig_bit s) info source iw) as (H1 & H2 & H3 & H4).
    apply sig_inv_next; [done| |done|by rewrite H2|by left|done|done].
    apply (pending_ok_ext (with_pending (sw_task w) (Z.lor (sig_pending (sw_task w)) (sig_bit s)) ∅)); [done|].
    by eapply pending_ok_lor.
  - split; [done|by eapply sigaction_ok|done|done].
  - destruct (procmask_fields (sw_task w) how set old) as (H1 & H2 & H3 & H4).
    apply sig_inv_next; [done|by eapply pending_ok_ext|congruence|auto|by left|done|done].
  - destruct (altstack_fields (sw_task w) sp req) as (H1 & H2 & H3 & H4).
    apply sig_inv_next; [done|by eapply pending_ok_ext|congruence|by rewrite H4|by left|done|done].
  - apply timedwait_drops in Htake as (H1 & H2 & H3 & H4).
    apply sig_inv_next; [done|auto|congruence|by rewrite H2|by left|done|done].
  - apply sig_inv_next; [done|done|congruence|done|by left|done|done].
  - apply sig_inv_next; [done|done|simpl; congruence|simpl; auto with ya2y|by left|by intros ?? [= <- <-]|done].
  - apply sig_inv_next; [done|done|congruence|done|by left|intros ?? [= <- <-]; by eapply Hs|done].
  - apply consume_drops in Hcons as (H1 & H2 & H3 & H4).
    apply sig_inv_next; [done|auto|congruence|by rewrite H2|by left|intros ?? [= <- <-]; by eapply Hs|done].
  - apply consume_drops in Hcons as (H1 & H2 & H3 & H4).
    apply sig_inv_next; [done|by apply H1|simpl; congruence|simpl; by rewrite H2| |done|done].
    right. intros m [= <-]. by eapply Hs.
  - unfold block_current_and_run_next. destruct (negb _) eqn:Eb.
    { apply sig_inv_next; [done|done|congruence|done|by left|intros ?? [= <- <-]; by eapply Hs|done]. }
    split; [|done|done|].
    + split_and!; [done|done|intros ?? [= <- <-]; by eapply Hs|done].
    + intros _ s. apply negb_false_iff, Z.eqb_eq in Eb. unfold deliverable, sig_in. simpl.
      by rewrite <- testbit_remove, Eb, Z.bits_0.
  - by eapply trap_return_signal_inv.
  - unfold trap_return_mask. destruct (sigsuspend_restore_mask (sw_task w)) as [m|] eqn:Em.
    + apply sig_inv_next; [done|done|simpl; congruence|simpl; auto|by right|done|done].
    + apply sig_inv_next; [done|done|congruence|done|by left|done|done].
  - apply sig_inv_next; [done|done|done|done|by left|done|done].
  - destruct (restore_frame_fields (sw_task w) f sp) as (H1 & H2 & H3 & H4). rewrite Hfs in Hf. inversion Hf; subst.
    apply sig_inv_next; [done|by eapply pending_ok_ext|congruence|by rewrite H4|by left|done|done].
  - by apply sig_inv_next; [| | | |left| |].
  - by apply sig_inv_next; [| | | |left| |].
  - apply sig_inv_next; [done|done|congruence|done|by left|done|done].
Qed.

Lemma sig_start_inv : sig_inv sig_start.
Proof. split; [by repeat split; try constructor|apply table_ok_new|split; [done|intros s; unfold sig_in; by rewrite Z.bits_0]|done]. Qed.

Lemma sig_reachable_inv w : sig_reachable w → sig_inv w.
Proof. intros H. eapply rtc_invariant; [intros; by eapply sig_step_inv|exact H|apply sig_start_inv]. Qed.

(** ** Properties *)

(** Evaluate a step and go on from the state it gives. *)
Lemma sig_step_to w w1 w2 w3 : sig_step w w1 → w1 = w2 → rtc sig_step w2 w3 → rtc sig_step w w3.
Proof. intros Hs <- Hr. by eapply rtc_l. Qed.
Tactic Notation "sig_go" uconstr(step) :=
  eapply sig_step_to;
  [eapply step; first [vm_compute; reflexivity | vm_compute; split; discriminate | idtac]
  |vm_compute; reflexivity|].





(** A user stack with room for any frame. *)
Definition demo_env : FrameEnv := mkFrameEnv 1048576 None (λ _, 1024) (λ _ _, true).

(** The default action of [SIGSTOP] is not atomic: a [SIGKILL] (or
    [SIGCONT]) that another hart sends between the choice of the signal and
    [stop_current_and_run_next] finds the task running and wakes nobody, and
    the task then stops with the signal pending; no step but another signal
    takes it out of that state. *)
Theorem stop_loses_sigkill :
  ∃ w, sig_reachable w ∧ sg_status (sw_task w) = Stopped ∧ sig_in SIGKILL (sig_pending (sw_task w)) = true ∧
    ∀ w', sig_step w w' → sg_status (sw_task w') = Stopped ∨ ∃ s info source iw, w' = signalled w s info source iw.
Proof.
  eassert (sig_reachable _) as Hr.
  { sig_go (step_signal _ SIGSTOP None Normal true). sig_go step_trap. sig_go (step_return_signal _ SIGSTOP demo_env).
    sig_go (step_signal _ SIGKILL None Normal true). sig_go step_stop. apply rtc_refl. }
  eexists. split; [exact Hr|]. split; [vm_compute; reflexivity|]. split; [vm_compute; reflexivity|].
  intros w' Hstep. inversion Hstep; subst; simpl in *; try done; [right|by left].
  by eexists _, _, _, _.
Qed.

(** [rt_sigreturn] installs the mask it finds on the user stack as it is:
    a program that forges a frame masks [SIGSTOP], and a later [SIGSTOP] is
    never chosen. *)
Theorem forged_sigreturn_blocks_sigstop t stack sp info iw :
  0 ≤ sig_pending t →
  let t' := restore_frame t (18446744073709551615, stack) sp in
  sig_in SIGSTOP (sig_mask t') = true ∧
  check_if_any_sig (add_signal_task t' (sig_bit SIGSTOP) info Normal iw).1.1 ≠ Some SIGSTOP.
Proof.
  intros Hp t'. destruct (restore_frame_fields t (18446744073709551615, stack) sp) as (H1 & _ & _ & H4).
  fold t' in H1, H4. split; [by rewrite H4|].
  destruct (add_signal_task_fields t' (sig_bit SIGSTOP) info Normal iw) as (G1 & G2 & _ & _).
  intros [Hd _]%check_if_any_sig_Some; [|rewrite G1, H1; apply Z.lor_nonneg; by split].
  unfold deliverable in Hd. rewrite G2, H4 in Hd. by rewrite andb_false_r in Hd.
Qed.

Lemma forged_sigreturn_blocks_sigstop_witness :
  let t' := restore_frame (demo_sigtask Running false) (18446744073709551615, stack_disabled) 0 in
  check_if_any_sig (add_signal_task t' (sig_bit SIGSTOP) None Normal true).1.1 ≠ Some SIGSTOP.
Proof.
  exact (proj2 (forged_sigreturn_blocks_sigstop (demo_sigtask Running false) stack_disabled 0 None true
    (ltac:(simpl; lia) : 0 ≤ sig_pending (demo_sigtask Running false)))).
Defined.
