(* ===== verification/ProcTree.v ===== *)
(** * The process tree: exit, adoption and wait

    [task/process/process.rs], the process part of [exit_current_and_run_next]
    and [exit_current_group_and_run_next] in [task/mod.rs], the system calls of
    [syscall/task/wait.rs], and process groups and sessions in
    [syscall/task/job.rs].

    The state extends the state of the signals ([SigSend.SigSys], the thread
    table and the process table) by what [ProcessMeta] keeps besides and by the
    time accounts of the threads, so that the signals the exit path sends are
    those of [SigSend].  A weak reference can be upgraded as long as its key is
    in its table.  The functions of this file run undisturbed; [ProcLife] has
    the interleavings. *)

From S2P Require Import Prelude Errno Wake Signal SigSend.

(** ** The state *)

Record ProcessUsage : Type := mkUsage {
  pu_utime : Z; pu_stime : Z; pu_cutime : Z; pu_cstime : Z; pu_maxrss : Z; pu_cmaxrss : Z }.
Record TimeData : Type := mkTime {
  td_utime : Z; td_stime : Z; td_cutime : Z; td_cstime : Z; td_cmaxrss : Z }.

(** The fields of [ProcessMeta] that [SigProc] does not have. *)
Record ProcExt : Type := mkExt {
  px_children : list Z; px_subreaper : bool; px_event : option Z; px_exit_signal : Z;
  px_stopped : option Z; px_usage : ProcessUsage }.

Record PSys : Type := mkPSys {
  ps_sig : SigSys; ps_ext : gmap Z ProcExt; ps_time : gmap Z TimeData }.

Definition procs (s : PSys) : gmap Z SigProc := ss_procs (ps_sig s).
Definition threads (s : PSys) : gmap Z SigThread := ss_threads (ps_sig s).

Definition with_sig (s : PSys) (y : SigSys) : PSys := mkPSys y (ps_ext s) (ps_time s).
Definition upd_proc (s : PSys) (pid : Z) (f : SigProc → SigProc) : PSys := with_sig s (update_proc (ps_sig s) pid f).
Definition upd_ext (s : PSys) (pid : Z) (f : ProcExt → ProcExt) : PSys :=
  mkPSys (ps_sig s) (alter f pid (ps_ext s)) (ps_time s).
Definition upd_thread (s : PSys) (tid : Z) (f : SigThread → SigThread) : PSys :=
  with_sig s (mkSigSys (alter f tid (threads s)) (procs s) (ss_ready (ps_sig s)) (ss_woken (ps_sig s))).
Definition upd_time (s : PSys) (tid : Z) (f : TimeData → TimeData) : PSys :=
  mkPSys (ps_sig s) (ps_ext s) (alter f tid (ps_time s)).
Definition add_ready (s : PSys) (tids : list Z) : PSys :=
  with_sig s (mkSigSys (threads s) (procs s) (ss_ready (ps_sig s) ++ tids) (ss_woken (ps_sig s))).

Definition with_ppid (ppid : Z) (p : SigProc) : SigProc :=
  mkSigProc (sp_sid p) (sp_pgid p) ppid (sp_tasks p) (sp_sigtable p) (group_exit_code p) (termination_signal p)
    (continued_signal p).
Definition with_tasks (tids : list Z) (p : SigProc) : SigProc :=
  mkSigProc (sp_sid p) (sp_pgid p) (sp_ppid p) tids (sp_sigtable p) (group_exit_code p) (termination_signal p)
    (continued_signal p).
Definition with_exit_code (code : option Z) (p : SigProc) : SigProc :=
  mkSigProc (sp_sid p) (sp_pgid p) (sp_ppid p) (sp_tasks p) (sp_sigtable p) code (termination_signal p)
    (continued_signal p).
Definition with_group (sid pgid : Z) (p : SigProc) : SigProc :=
  mkSigProc sid pgid (sp_ppid p) (sp_tasks p) (sp_sigtable p) (group_exit_code p) (termination_signal p)
    (continued_signal p).
Definition with_children (l : list Z) (x : ProcExt) : ProcExt :=
  mkExt l (px_subreaper x) (px_event x) (px_exit_signal x) (px_stopped x) (px_usage x).
Definition with_event (e : option Z) (x : ProcExt) : ProcExt :=
  mkExt (px_children x) (px_subreaper x) e (px_exit_signal x) (px_stopped x) (px_usage x).
Definition with_exit_signal (n : Z) (x : ProcExt) : ProcExt :=
  mkExt (px_children x) (px_subreaper x) (px_event x) n (px_stopped x) (px_usage x).
Definition with_stopped (o : option Z) (x : ProcExt) : ProcExt :=
  mkExt (px_children x) (px_subreaper x) (px_event x) (px_exit_signal x) o (px_usage x).
Definition with_usage (u : ProcessUsage) (x : ProcExt) : ProcExt :=
  mkExt (px_children x) (px_subreaper x) (px_event x) (px_exit_signal x) (px_stopped x) u.

(** ** Queries *)

(** [all_tasks_exited]: every weak reference to a thread is dead. *)
Definition all_tasks_exited (s : PSys) (p : SigProc) : bool :=
  bool_decide (is_Some (group_exit_code p)) &&
  forallb (λ tid, bool_decide (threads s !! tid = None)) (sp_tasks p).
Definition zombie (s : PSys) (pid : Z) : bool :=
  match procs s !! pid with Some p => all_tasks_exited s p | None => false end.
(** The children that can be upgraded. *)
Definition upgraded (s : PSys) (l : list Z) : list Z :=
  retain (λ pid, bool_decide (is_Some (procs s !! pid))) l.
Definition children_of (s : PSys) (pid : Z) : list Z :=
  match ps_ext s !! pid with Some x => px_children x | None => [] end.

(** ** Adoption *)

Definition INIT_PID : Z := 1.

Definition link_child_to_parent (s : PSys) (parent child : Z) : PSys :=
  if existsb (λ p, p =? child) (upgraded s (children_of s parent)) then s
  else upd_ext s parent (λ x, with_children (px_children x ++ [child]) x).

Definition is_reaper (s : PSys) (pid : Z) (p : SigProc) : bool :=
  match ps_ext s !! pid with
  | Some x => px_subreaper x && bool_decide (group_exit_code p = None)
  | None => false
  end.

(** The loop of [find_child_reaper].  [None]: it does not end within the fuel. *)
Fixpoint reaper_loop (fuel : nat) (s : PSys) (ancestor : Z) : option Z :=
  match fuel with
  | O => None
  | S fuel =>
      if (ancestor =? 0) || (ancestor =? INIT_PID) then Some INIT_PID
      else match procs s !! ancestor with
           | None => Some INIT_PID
           | Some p =>
               if is_reaper s ancestor p then Some ancestor
               else if sp_ppid p =? ancestor then Some INIT_PID
               else reaper_loop fuel s (sp_ppid p)
           end
  end.

(** Every round goes to a smaller pid (see [tree_wf]), so the pid is fuel enough. *)
Definition find_child_reaper (s : PSys) (pid : Z) : comp Z :=
  p ← unwrap (procs s !! pid);
  r ← unwrap (reaper_loop (S (Z.to_nat (sp_ppid p))) s (sp_ppid p));
  _ ← unwrap (procs s !! r);
  Done r.

(** [AtomicWaker::wake] of [child_exit_event]: the registered task, if it sleeps,
    becomes ready. *)
Definition wake_child_exit (s : PSys) (pid : Z) : PSys :=
  match ps_ext s !! pid with
  | None => s
  | Some x =>
      let s := upd_ext s pid (with_event None) in
      match px_event x with
      | None => s
      | Some tid =>
          match threads s !! tid with
          | Some th =>
              if bool_decide (sg_status (st_task th) = Blocked)
              then add_ready (upd_thread s tid (λ th, with_task th (with_sg_status (st_task th) Ready))) [tid]
              else s
          | None => s
          end
      end
  end.

Definition notify (s : PSys) (pid sig : Z) : comp PSys :=
  '(y, _) ← send_signal_to_thread_group (ps_sig s) pid sig; Done (with_sig s y).

(** One round of the loop over the orphans: the child gets its new parent. *)
Definition adopt (reaper : Z) (acc : PSys * bool) (child : Z) : PSys * bool :=
  let '(s, has_zombie) := acc in
  let s := upd_ext (upd_proc s child (with_ppid reaper)) child (with_exit_signal SIGCHLD) in
  (link_child_to_parent s reaper child, has_zombie || zombie s child).

Definition exit_and_reparent (s : PSys) (pid : Z) : comp PSys :=
  let orphans := upgraded s (children_of s pid) in
  let s := upd_proc (upd_ext s pid (with_children [])) pid (with_tasks []) in
  if bool_decide (orphans = []) then Done s
  else
    reaper ← find_child_reaper s pid;
    let '(s, has_zombie) := foldl (adopt reaper) (s, false) orphans in
    if has_zombie : bool then notify (wake_child_exit s reaper) reaper (sig_bit SIGCHLD)
    else Done s.

(** ** Creation *)

Definition CSIGNAL : Z := 255.
Definition CLONE_VM : Z := Z.shiftl 1 8.
Definition CLONE_FS : Z := Z.shiftl 1 9.
Definition CLONE_SIGHAND : Z := Z.shiftl 1 11.
Definition CLONE_PIDFD : Z := Z.shiftl 1 12.
Definition CLONE_VFORK : Z := Z.shiftl 1 14.
Definition CLONE_PARENT : Z := Z.shiftl 1 15.
Definition CLONE_THREAD : Z := Z.shiftl 1 16.
Definition CLONE_NEWNS : Z := Z.shiftl 1 17.
Definition CLONE_PARENT_SETTID : Z := Z.shiftl 1 20.
Definition CLONE_CLEAR_SIGHAND : Z := Z.shiftl 1 32.
(** The namespaces and the control group, bits 25 to 30, 17 and 33. *)
Definition CLONE_REFUSED : Z :=
  foldr (λ i acc, Z.lor (Z.shiftl 1 i) acc) 0 [12; 25; 27; 30; 17; 29; 28; 26; 33].
(** The flags that [CloneFlags] defines: [SIGCHLD] (bits 0 and 4) and bits 8 to 33. *)
Definition CLONE_ALL : Z := Z.lor 17 (Z.shiftl (Z.ones 26) 8).

Definition validate_clone_flags (flags : Z) : result SysErrNo unit :=
  if contains flags CLONE_THREAD && (negb (contains flags CLONE_SIGHAND) || negb (contains flags CLONE_VM)) then Err EINVAL
  else if contains flags CLONE_SIGHAND && negb (contains flags CLONE_VM) then Err EINVAL
  else if contains flags CLONE_CLEAR_SIGHAND && contains flags CLONE_SIGHAND then Err EINVAL
  else if contains flags CLONE_PIDFD && contains flags CLONE_PARENT_SETTID then Err EINVAL
  else if intersects flags CLONE_REFUSED then Err EINVAL
  else if contains flags CLONE_NEWNS && contains flags CLONE_FS then Err EINVAL
  else Ok tt.

Definition parse_clone_flags (raw_flags : Z) : result SysErrNo (Z * Z) :=
  let exit_signal := Z.land raw_flags CSIGNAL in
  if SIG_MAX_NUM <? exit_signal then Err EINVAL
  else
    let flags := Z.land raw_flags (Z.lnot CSIGNAL) in
    if negb (Z.land flags CLONE_ALL =? flags) then Err EINVAL
    else
      _ ← validate_clone_flags flags;
      Ok (flags, if exit_signal =? 0 then -1 else exit_signal).

Definition new_ext : ProcExt := mkExt [] false None (-1) None (mkUsage 0 0 0 0 0 0).

(** [Process::new_on_hart]: link to the parent, insert into the process table. *)
Definition process_new (s : PSys) (pid parent_pid pgid sid : Z) (tbl : SigTable) : PSys :=
  let ps := insert pid (mkSigProc sid pgid parent_pid [] tbl None None None) in
  let s1 := mkPSys (ps_sig s) (<[pid := new_ext]> (ps_ext s)) (ps_time s) in
  let s2 := if negb (parent_pid =? 0) && bool_decide (is_Some (procs s !! parent_pid))
            then upd_ext s1 parent_pid (λ x,
                   if existsb (λ p, p =? pid) (upgraded s (px_children x)) then x
                   else with_children (px_children x ++ [pid]) x)
            else s1 in
  with_sig s2 (mkSigSys (threads s) (ps (procs s)) (ss_ready (ps_sig s)) (ss_woken (ps_sig s))).

(** The first thread of the child. *)
Definition child_thread (me : SigThread) (pid flags : Z) : SigThread :=
  let t := st_task me in
  let alt := if contains flags CLONE_VM && negb (contains flags CLONE_VFORK) then stack_disabled else alt_signal_stack t in
  mkSigThread pid (user_id me) (effective_uid me) (saved_uid me)
    (mkSigTask Ready 0 (sig_mask t) ∅ false None alt false false 0).

Definition vfork_block (child : Z) (th : SigThread) : SigThread :=
  let t := st_task th in
  with_task th (mkSigTask VforkBlocked (sig_pending t) (sig_mask t) (sig_pending_info t) (exec_teardown_kill t)
                  (sigsuspend_restore_mask t) (alt_signal_stack t) (sg_waiter t) (sg_interrupted t) child).

(** The part of [clone_process] and [sys_clone] that creates a process (not a
    thread) with a fresh identifier and its own copy of the actions. *)
Definition fork_process (s : PSys) (cur tid flags exit_signal : Z) : comp PSys :=
  me ← unwrap (threads s !! cur);
  p ← unwrap (procs s !! st_pid me);
  let ppid := if contains flags CLONE_PARENT then sp_ppid p else st_pid me in
  let tbl := if contains flags CLONE_CLEAR_SIGHAND then sigtable_new else sp_sigtable p in
  let s := process_new s tid ppid (sp_pgid p) (sp_sid p) tbl in
  let s := upd_proc s tid (with_tasks [tid]) in
  let s := upd_ext s tid (with_exit_signal exit_signal) in
  let s := if contains flags CLONE_VFORK then upd_thread s cur (vfork_block tid) else s in
  Done (add_ready (mkPSys (mkSigSys (<[tid := child_thread me tid flags]> (threads s)) (procs s) (ss_ready (ps_sig s))
                             (ss_woken (ps_sig s)))
                     (ps_ext s) (<[tid := mkTime 0 0 0 0 0]> (ps_time s))) [tid]).

(** The same call when the store of [CLONE_CHILD_SETTID] fails: the process is
    linked and in the table, its thread is dropped. *)
Definition fork_process_fault (s : PSys) (cur tid flags : Z) : comp (PSys * SyscallRet) :=
  me ← unwrap (threads s !! cur);
  p ← unwrap (procs s !! st_pid me);
  let ppid := if contains flags CLONE_PARENT then sp_ppid p else st_pid me in
  let tbl := if contains flags CLONE_CLEAR_SIGHAND then sigtable_new else sp_sigtable p in
  Done (upd_proc (process_new s tid ppid (sp_pgid p) (sp_sid p) tbl) tid (with_tasks [tid]), Err EFAULT).

(** ** Exit *)

(** [set_group_exit_code_once]. *)
Definition set_group_exit_code_once (s : PSys) (pid code : Z) : PSys :=
  upd_proc s pid (λ p, match group_exit_code p with Some _ => p | None => with_exit_code (Some code) p end).

(** The parent's threads that wait for this child by [vfork]. *)
Definition release_vfork (s : PSys) (tid : Z) (t : Z) : PSys :=
  match threads s !! t with
  | Some th =>
      if vfork_wait_child (st_task th) =? tid then
        let s' := upd_thread s t (λ th, with_task th (clear_vfork (st_task th))) in
        if bool_decide (sg_status (st_task th) = VforkBlocked)
        then add_ready (upd_thread s' t (λ th, with_task th (with_sg_status (st_task th) Ready))) [t]
        else s'
      else s
  | None => s
  end.

(** A blocked sibling is made ready. *)
Definition wake_sibling (self : Z) (s : PSys) (t : Z) : PSys :=
  match threads s !! t with
  | Some th =>
      if negb (t =? self) && bool_decide (sg_status (st_task th) = Blocked)
      then add_ready (upd_thread s t (λ th, with_task th (with_sg_status (st_task th) Ready))) [t]
      else s
  | None => s
  end.

Definition add_usage (u : ProcessUsage) (d : TimeData) : ProcessUsage :=
  mkUsage (pu_utime u + td_utime d) (pu_stime u + td_stime d) (pu_cutime u + td_cutime d) (pu_cstime u + td_cstime d)
    (pu_maxrss u) (Z.max (pu_cmaxrss u) (td_cmaxrss d)).
Definition usage_of (s : PSys) (maxrss : Z) (tids : list Z) : ProcessUsage :=
  foldl add_usage (mkUsage 0 0 0 0 maxrss 0) (omap (λ t, ps_time s !! t) tids).

Definition is_zombie_or_dead (s : PSys) (t : Z) : bool :=
  match threads s !! t with
  | Some th => bool_decide (sg_status (st_task th) = Zombie)
  | None => true
  end.

(** The branch for the last thread of a process: freeze the usage, publish the
    exit code, give the children away, notify and wake the parent. *)
Definition exit_process (s : PSys) (tid pid exit_code maxrss : Z) : comp PSys :=
  p ← unwrap (procs s !! pid);
  let s := upd_ext s pid (with_usage (usage_of s maxrss (tid :: sp_tasks p))) in
  let s := set_group_exit_code_once s pid exit_code in
  s ← exit_and_reparent s pid;
  p ← unwrap (procs s !! pid);
  x ← unwrap (ps_ext s !! pid);
  s ← (if 0 <=? px_exit_signal x then sig ← from_sig (px_exit_signal x); notify s (sp_ppid p) sig else Done s);
  Done (if bool_decide (is_Some (procs s !! sp_ppid p)) then wake_child_exit s (sp_ppid p) else s).

(** The thread leaves its group: the parent's [vfork] ends, the thread becomes a
    zombie and is taken off the list, its blocked siblings are made ready. *)
Definition leave_group (s : PSys) (tid pid : Z) (p : SigProc) : PSys * list Z :=
  let s := match procs s !! sp_ppid p with
           | Some parent => foldl (λ s t, release_vfork s tid t) s (sp_tasks parent)
           | None => s
           end in
  let s := upd_thread s tid (λ th, with_task th (with_sg_status (st_task th) Zombie)) in
  let tasks := retain (λ t, bool_decide (is_Some (threads s !! t)) && negb (t =? tid)) (sp_tasks p) in
  let s := upd_proc s pid (with_tasks tasks) in
  (foldl (wake_sibling tid) s tasks, tasks).

(** The idle loop takes the thread out of the table. *)
Definition drop_thread (s : PSys) (tid : Z) : PSys :=
  mkPSys (mkSigSys (delete tid (threads s)) (procs s) (ss_ready (ps_sig s)) (ss_woken (ps_sig s)))
    (ps_ext s) (delete tid (ps_time s)).

(** [exit_current_and_run_next] with the switch to the idle loop.  What it releases
    in the other components (futexes, locks, memory, descriptors) is modelled with
    them. *)
Definition exit_current_and_run_next (s : PSys) (tid exit_code maxrss : Z) : comp PSys :=
  th ← unwrap (threads s !! tid);
  p ← unwrap (procs s !! st_pid th);
  let '(s, tasks) := leave_group s tid (st_pid th) p in
  s ← (if forallb (is_zombie_or_dead s) tasks then exit_process s tid (st_pid th) exit_code maxrss else Done s);
  Done (drop_thread s tid).

(** [exit_current_group_and_run_next]. *)
Definition exit_current_group_and_run_next (s : PSys) (tid exit_code maxrss : Z) : comp PSys :=
  th ← unwrap (threads s !! tid);
  p ← unwrap (procs s !! st_pid th);
  let s := foldl (wake_sibling tid) s (sp_tasks p) in
  match group_exit_code p with
  | None =>
      s ← notify (set_group_exit_code_once s (st_pid th) exit_code) (st_pid th) (sig_bit SIGKILL);
      exit_current_and_run_next s tid exit_code maxrss
  | Some code => exit_current_and_run_next s tid code maxrss
  end.

(** ** Wait *)

Definition WNOHANG : Z := 1.
Definition WUNTRACED : Z := 2.
Definition WSTOPPED : Z := 2.
Definition WEXITED : Z := 4.
Definition WCONTINUED : Z := 8.
Definition WNOWAIT : Z := 16777216.
Definition WNOTHREAD : Z := 536870912.
Definition WALL : Z := 1073741824.
Definition WCLONE : Z := 2147483648.
Definition WAIT_ALL : Z :=
  foldr Z.lor 0 [WNOHANG; WUNTRACED; WEXITED; WCONTINUED; WNOWAIT; WNOTHREAD; WALL; WCLONE].
Definition wait_options (bits : Z) : result SysErrNo Z :=
  if Z.land bits WAIT_ALL =? bits then Ok bits else Err EINVAL.

Inductive WaitPid : Type := WaitAny | WaitOne (pid : Z) | WaitPgid (pgid : Z).

Definition wait_apply (w : WaitPid) (pid : Z) (p : SigProc) : bool :=
  match w with
  | WaitAny => true
  | WaitOne q => pid =? q
  | WaitPgid g => sp_pgid p =? g
  end.

(** The selector of [waitpid], with the caller's process group. *)
Definition waitpid_selector (pid pgid : Z) : WaitPid :=
  if pid <=? -2 then WaitPgid (as_u32 (- pid))
  else if pid =? -1 then WaitAny
  else if pid =? 0 then WaitPgid (as_u32 pgid)
  else WaitOne pid.

Definition P_ALL : Z := 0.
Definition P_PID : Z := 1.
Definition P_PGID : Z := 2.
Definition P_PIDFD : Z := 3.
Definition waitid_selector (idtype id pgid : Z) : result SysErrNo WaitPid :=
  if idtype =? P_ALL then Ok WaitAny
  else if idtype =? P_PID then if 0 <? id then Ok (WaitOne id) else Err EINVAL
  else if idtype =? P_PGID then
    if id =? 0 then Ok (WaitPgid (as_u32 pgid)) else if 0 <? id then Ok (WaitPgid id) else Err EINVAL
  else if idtype =? P_PIDFD then Err EBADF
  else Err EINVAL.

(** Which children a call may wait for. *)
Definition waitable (s : PSys) (w : WaitPid) (options pid : Z) : bool :=
  match procs s !! pid, ps_ext s !! pid with
  | Some p, Some x =>
      wait_apply w pid p &&
      (contains options WALL ||
       if contains options WCLONE then px_exit_signal x =? -1 else px_exit_signal x =? SIGCHLD)
  | _, _ => false
  end.

(** [find_map] over the children. *)
Definition first_stopped (s : PSys) (l : list Z) : option (Z * Z) :=
  head (omap (λ pid, x ← ps_ext s !! pid; sig ← px_stopped x; Some (pid, sig)) l).
Definition first_continued (s : PSys) (l : list Z) : option (Z * Z) :=
  head (omap (λ pid, p ← procs s !! pid; sig ← continued_signal p; Some (pid, sig)) l).
Definition first_zombie (s : PSys) (l : list Z) : option Z := head (retain (zombie s) l).

Definition wait_status_from_exit_code (exit_code : Z) (term : option (Z * bool)) : Z :=
  match term with
  | Some (signo, dumped) => Z.lor (as_i32 signo) (if dumped : bool then 128 else 0)
  | None => as_i32 (Z.shiftl exit_code 8)
  end.
Definition stop_status (signo : Z) : Z := Z.lor (as_i32 (Z.shiftl (as_i32 signo) 8)) 127.

(** What is left to do about a pending signal before sleeping: [None] to go on. *)
Definition wait_pending_signal_errno (s : PSys) (cur pid signo : Z) : comp (PSys * option SysErrNo) :=
  p ← unwrap (procs s !! pid);
  signal ← from_sig signo;
  action ← sigtable_action (sp_sigtable p) signo;
  if (signo =? SIGCHLD) || is_ignored action || (negb (is_handler action) && bool_decide (default_op signal = OpIgnore))
  then Done (upd_thread s cur (λ th, with_task th
               (with_pending (st_task th) (bits_remove (sig_pending (st_task th)) signal) (sig_pending_info (st_task th)))),
             None)
  else if contains (sa_flags (k_act action)) SA_RESTART then Done (s, Some ERESTART)
  else Done (s, Some EINTR).

(** [remove_child_from_parent]: whether the child was still listed. *)
Definition remove_child_from_parent (s : PSys) (parent child : Z) : PSys * bool :=
  let is_child p := (p =? child) && bool_decide (is_Some (procs s !! p)) in
  match position is_child (children_of s parent) with
  | Some i => (upd_ext s parent (λ x, with_children (delete i (px_children x)) x), true)
  | None => (s, false)
  end.

(** [remove_from_global_map] panics if the process is not there. *)
Definition remove_from_global_map (s : PSys) (pid : Z) : comp PSys :=
  _ ← unwrap (procs s !! pid);
  Done (mkPSys (mkSigSys (threads s) (delete pid (procs s)) (ss_ready (ps_sig s)) (ss_woken (ps_sig s)))
          (delete pid (ps_ext s)) (ps_time s)).

Definition account_child (u : ProcessUsage) (d : TimeData) : TimeData :=
  mkTime (td_utime d) (td_stime d) (td_cutime d + (pu_utime u + pu_cutime u)) (td_cstime d + (pu_stime u + pu_cstime u))
    (Z.max (Z.max (td_cmaxrss d) (pu_maxrss u)) (pu_cmaxrss u)).

Inductive Poll (A : Type) : Type := PollReady (a : A) | PollPending.
Arguments PollReady {A} a.
Arguments PollPending {A}.

(** What a call tells the user: the return value and what it stored at the
    pointer, if it is not null.  [copy_ok] is the outcome of the store. *)
Notation WaitRet U := (Poll (result SysErrNo Z * option U)).

(** Take a zombie: [waitpid] and [waitid] share it.  [ret] is the return value. *)
Definition reap (s : PSys) (cur pid child options ret : Z) {U} (stored : option U) : comp (PSys * WaitRet U) :=
  x ← unwrap (ps_ext s !! child);
  if contains options WNOWAIT then Done (s, PollReady (Ok ret, stored))
  else
    let '(s, won) := remove_child_from_parent s pid child in
    if negb won then Done (s, PollReady (Err ECHILD, stored))
    else
      s ← remove_from_global_map (upd_time s cur (account_child (px_usage x))) child;
      Done (s, PollReady (Ok ret, stored)).

(** The end of a poll that found nothing. *)
Definition wait_nothing (s : PSys) (cur pid : Z) {U} : comp (PSys * WaitRet U) :=
  th ← unwrap (threads s !! cur);
  match check_if_any_sig (st_task th) with
  | None => Done (s, PollPending)
  | Some signo =>
      '(s, e) ← wait_pending_signal_errno s cur pid signo;
      Done (s, match e with Some e => PollReady (Err e, None) | None => PollPending end)
  end.

(** A store to user memory through a pointer that may be null. *)
Definition stored_at {U} (ptr copy_ok : bool) (u : U) : result SysErrNo (option U) :=
  if negb ptr then Ok None else if copy_ok then Ok (Some u) else Err EFAULT.

(** One poll of [sys_waitpid]. *)
Definition waitpid_poll (s : PSys) (cur : Z) (w : WaitPid) (options : Z) (wstatus copy_ok : bool) :
    comp (PSys * WaitRet Z) :=
  th ← unwrap (threads s !! cur);
  let pid := st_pid th in
  let s := upd_ext s pid (λ x, with_event (aw_register cur (px_event x)) x) in
  let children := retain (waitable s w options) (upgraded s (children_of s pid)) in
  if bool_decide (children = []) then Done (s, PollReady (Err ECHILD, None))
  else
    let stopped := if intersects options (Z.lor WUNTRACED WSTOPPED) then first_stopped s children else None in
    match stopped with
    | Some (child, sig) =>
        match stored_at wstatus copy_ok (stop_status sig) with
        | Err e => Done (s, PollReady (Err e, None))
        | Ok st => Done (upd_ext s child (with_stopped None), PollReady (Ok child, st))
        end
    | None =>
        match first_zombie s children with
        | Some child =>
            p ← unwrap (procs s !! child);
            code ← unwrap (group_exit_code p);
            match stored_at wstatus copy_ok (wait_status_from_exit_code code (termination_signal p)) with
            | Err e => Done (s, PollReady (Err e, None))
            | Ok st => reap s cur pid child options child st
            end
        | None =>
            if contains options WNOHANG then Done (s, PollReady (Ok 0, None)) else wait_nothing s cur pid
        end
    end.

Definition CLD_EXITED : Z := 1.
Definition CLD_KILLED : Z := 2.
Definition CLD_DUMPED : Z := 3.
Definition CLD_STOPPED : Z := 5.
Definition CLD_CONTINUED : Z := 6.
Definition siginfo_new_child (signo code pid status : Z) : SigInfo := mkInfo signo 0 code pid 0 status.
Definition exit_siginfo (child code : Z) (term : option (Z * bool)) : SigInfo :=
  match term with
  | Some (signo, dumped) =>
      siginfo_new_child SIGCHLD (if dumped : bool then CLD_DUMPED else CLD_KILLED) (as_u32 child) (as_u32 signo)
  | None => siginfo_new_child SIGCHLD CLD_EXITED (as_u32 child) (as_u32 code)
  end.

(** One poll of [sys_waitid]. *)
Definition waitid_poll (s : PSys) (cur : Z) (w : WaitPid) (options : Z) (infop copy_ok : bool) :
    comp (PSys * WaitRet SigInfo) :=
  th ← unwrap (threads s !! cur);
  let pid := st_pid th in
  let s := upd_ext s pid (λ x, with_event (aw_register cur (px_event x)) x) in
  let children := retain (waitable s w options) (upgraded s (children_of s pid)) in
  if bool_decide (children = []) then Done (s, PollReady (Err ECHILD, None))
  else
    let ret child := if infop then 0 else child in
    match (if contains options WSTOPPED then first_stopped s children else None) with
    | Some (child, sig) =>
        match stored_at infop copy_ok (siginfo_new_child SIGCHLD CLD_STOPPED (as_u32 child) (as_u32 sig)) with
        | Err e => Done (s, PollReady (Err e, None))
        | Ok st => Done (if contains options WNOWAIT then s else upd_ext s child (with_stopped None),
                         PollReady (Ok (ret child), st))
        end
    | None =>
        match (if contains options WCONTINUED then first_continued s children else None) with
        | Some (child, sig) =>
            match stored_at infop copy_ok (siginfo_new_child SIGCHLD CLD_CONTINUED (as_u32 child) (as_u32 sig)) with
            | Err e => Done (s, PollReady (Err e, None))
            | Ok st => Done (if contains options WNOWAIT then s else upd_proc s child (λ p, with_continued p None),
                             PollReady (Ok (ret child), st))
            end
        | None =>
            match (if contains options WEXITED then first_zombie s children else None) with
            | Some child =>
                p ← unwrap (procs s !! child);
                code ← unwrap (group_exit_code p);
                match stored_at infop copy_ok (exit_siginfo child code (termination_signal p)) with
                | Err e => Done (s, PollReady (Err e, None))
                | Ok st => reap s cur pid child options (ret child) st
                end
            | None =>
                if contains options WNOHANG then
                  match stored_at infop copy_ok (siginfo_new 0 0 0 0) with
                  | Err e => Done (s, PollReady (Err e, None))
                  | Ok st => Done (s, PollReady (Ok 0, st))
                  end
                else wait_nothing s cur pid
            end
        end
    end.

(** The arguments of the calls, checked before the first poll. *)
Definition waitpid_args (pid pgid options : Z) : result SysErrNo (WaitPid * Z) :=
  options ← wait_options options;
  if pid =? -2147483648 then Err ESRCH else Ok (waitpid_selector pid pgid, options).
Definition waitid_args (idtype id pgid options : Z) : result SysErrNo (WaitPid * Z) :=
  options ← wait_options (as_u32 options);
  if negb (contains options WEXITED || contains options WSTOPPED || contains options WCONTINUED) then Err EINVAL
  else w ← waitid_selector (as_u32 idtype) id pgid; Ok (w, options).

(** ** Groups and sessions *)

Definition group_target (s : PSys) (cur pid : Z) : result SysErrNo SigProc :=
  target ← ok_or ESRCH (if pid =? 0 then st_pid <$> threads s !! cur else Some pid);
  ok_or ESRCH (procs s !! target).
Definition sys_getsid (s : PSys) (cur pid : Z) : SyscallRet := p ← group_target s cur pid; Ok (sp_sid p).
Definition sys_getpgid (s : PSys) (cur pid : Z) : SyscallRet := p ← group_target s cur pid; Ok (sp_pgid p).

Definition sys_setsid (s : PSys) (cur : Z) : PSys * SyscallRet :=
  match (th ← threads s !! cur; p ← procs s !! st_pid th; Some (st_pid th, p)) with
  | None => (s, Err ESRCH)
  | Some (pid, p) =>
      if sp_pgid p =? pid then (s, Err EPERM)
      else (upd_proc s pid (with_group pid pid), Ok pid)
  end.

Definition sys_setpgid (s : PSys) (cur pid pgid : Z) : PSys * SyscallRet :=
  match (th ← threads s !! cur; me ← procs s !! st_pid th; Some (st_pid th, me)) with
  | None => (s, Err ESRCH)
  | Some (self, me) =>
      let target_pid := if pid =? 0 then self else pid in
      let new_pgid := if pgid =? 0 then target_pid else pgid in
      match procs s !! target_pid with
      | None => (s, Err ESRCH)
      | Some target =>
          if negb (target_pid =? self) && negb (sp_ppid target =? self) then (s, Err ESRCH)
          else if negb (sp_sid target =? sp_sid me) || (sp_sid target =? target_pid) then (s, Err EPERM)
          else (upd_proc s target_pid (with_group (sp_sid target) new_pgid), Ok 0)
      end
  end.
