(* ===== verification/ProcInv.v ===== *)
(** * The process tree is kept by every operation

    The invariant [tree_wf] of [ProcTree] and that fork, exit, wait and the
    group calls keep it, without a panic; what [exit_and_reparent] and [waitpid]
    do, exactly. *)

From S2P Require Import Prelude Errno Wake Signal SigSend ProcTree.

Lemma Forall2_Some_l {A B} (R : A → B → Prop) x o : option_Forall2 R (Some x) o → ∃ y, o = Some y ∧ R x y.
Proof. inversion 1; eauto. Qed.
Lemma Forall2_Some_r {A B} (R : A → B → Prop) y o : option_Forall2 R o (Some y) → ∃ x, o = Some x ∧ R x y.
Proof. inversion 1; eauto. Qed.

Lemma Forall2_trans {A B C} (R : A → B → Prop) (S : B → C → Prop) (T : A → C → Prop) a b c :
  option_Forall2 R a b → option_Forall2 S b c → (∀ x y z, R x y → S y z → T x z) → option_Forall2 T a c.
Proof. intros [x y Hxy|] Hbc HT; inversion Hbc; constructor; eauto. Qed.

(** Relating a map before and after the update of one entry. *)
Lemma Forall2_alter {A} (R : Z → A → A → Prop) f i (m : gmap Z A) :
  (∀ k a, k ≠ i → R k a a) → (∀ a, m !! i = Some a → R i a (f a)) → ∀ k, option_Forall2 (R k) (m !! k) (alter f i m !! k).
Proof.
  intros Hr Hf k. destruct (decide (k = i)) as [->|]; [rewrite lookup_alter_eq|rewrite lookup_alter_ne by done].
  - destruct (m !! i) eqn:E; simpl; constructor. by apply Hf.
  - destruct (m !! k); constructor; auto.
Qed.

(** ** States with the same tree

    Waking and signalling change statuses, pending sets and wakers only. *)

Definition ext_same (x x' : ProcExt) : Prop :=
  px_children x' = px_children x ∧ px_subreaper x' = px_subreaper x ∧ px_exit_signal x' = px_exit_signal x ∧
  px_usage x' = px_usage x.

(** What waking keeps of a thread: its process and whether it has exited. *)
Definition exited (th : SigThread) : bool := bool_decide (sg_status (st_task th) = Zombie).
Definition th_key (th : SigThread) : Z * bool := (st_pid th, exited th).

Record tree_eq (s s' : PSys) : Prop := {
  te_procs pid : option_Forall2 proc_same (procs s !! pid) (procs s' !! pid);
  te_ext pid : option_Forall2 ext_same (ps_ext s !! pid) (ps_ext s' !! pid);
  te_threads tid : th_key <$> threads s' !! tid = th_key <$> threads s !! tid;
  te_time : ps_time s' = ps_time s }.

#[export] Instance tree_eq_equiv : Equivalence tree_eq.
Proof.
  split.
  - intros s. split; try done; intros i; [destruct (procs s !! i)|destruct (ps_ext s !! i)]; constructor; by repeat split.
  - intros s s' [Hp Hx Ht Hd]. split; try congruence; intros i.
    + specialize (Hp i). destruct Hp as [p p' H|]; constructor. unfold proc_same in *. naive_solver.
    + specialize (Hx i). destruct Hx as [p p' H|]; constructor. unfold ext_same in *. naive_solver.
  - intros a b c [Hp Hx Ht Hd] [Hp' Hx' Ht' Hd']. split; try congruence; intros i.
    + specialize (Hp i). specialize (Hp' i). destruct Hp as [p p' H|]; inversion Hp' as [? ? H'|]; subst; constructor.
      unfold proc_same in *. destruct H as (?&?&?&?&?&?), H' as (?&?&?&?&?&?). split_and!; congruence.
    + specialize (Hx i). specialize (Hx' i). destruct Hx as [p p' H|]; inversion Hx' as [? ? H'|]; subst; constructor.
      unfold ext_same in *. destruct H as (?&?&?&?), H' as (?&?&?&?). split_and!; congruence.
Qed.

Lemma te_proc s s' pid p : tree_eq s s' → procs s !! pid = Some p → ∃ p', procs s' !! pid = Some p' ∧ proc_same p p'.
Proof. intros [Hp _ _ _] H. specialize (Hp pid). rewrite H in Hp. inversion Hp; subst; eauto. Qed.
Lemma te_is_proc s s' pid : tree_eq s s' → is_Some (procs s' !! pid) ↔ is_Some (procs s !! pid).
Proof. intros [Hp _ _ _]. specialize (Hp pid). destruct Hp; [split; intros; eauto|done]. Qed.
Lemma te_is_ext s s' pid : tree_eq s s' → is_Some (ps_ext s' !! pid) ↔ is_Some (ps_ext s !! pid).
Proof. intros [_ Hp _ _]. specialize (Hp pid). destruct Hp; [split; intros; eauto|done]. Qed.
Lemma te_children s s' pid : tree_eq s s' → children_of s' pid = children_of s pid.
Proof. intros [_ Hx _ _]. unfold children_of. specialize (Hx pid). destruct Hx as [? ? (?&_)|]; [done|done]. Qed.
Lemma te_alive s s' tid : tree_eq s s' → threads s' !! tid = None ↔ threads s !! tid = None.
Proof. intros [_ _ Ht _]. specialize (Ht tid). destruct (threads s !! tid), (threads s' !! tid); naive_solver. Qed.
Lemma te_pids s s' tid : tree_eq s s' → st_pid <$> threads s' !! tid = st_pid <$> threads s !! tid.
Proof.
  intros [_ _ Ht _]. specialize (Ht tid). destruct (threads s !! tid), (threads s' !! tid); try done. simpl in *. by injection Ht as ->.
Qed.
Lemma te_thread s s' tid th : tree_eq s s' → threads s !! tid = Some th → ∃ th', threads s' !! tid = Some th' ∧ st_pid th' = st_pid th.
Proof.
  intros He Hth. pose proof (te_pids _ _ tid He) as H. rewrite Hth in H. destruct (threads s' !! tid); [|done].
  injection H as H. eauto.
Qed.
Lemma te_zombie s s' pid : tree_eq s s' → zombie s' pid = zombie s pid.
Proof.
  intros Ht. unfold zombie. pose proof (te_procs _ _ Ht pid) as Hp. destruct Hp as [p p' (_&_&_&Htk&_&Hc)|]; [|done].
  unfold all_tasks_exited. rewrite Htk, Hc. f_equal. clear Htk Hc. induction (sp_tasks p) as [|t l IH]; simpl; [done|].
  rewrite IH. f_equal. apply bool_decide_ext. by apply te_alive.
Qed.

(** Changing one thread's task, or the ready queue. *)
Lemma te_frame s s' : procs s' = procs s → ps_ext s' = ps_ext s →
  (∀ tid, th_key <$> threads s' !! tid = th_key <$> threads s !! tid) → ps_time s' = ps_time s → tree_eq s s'.
Proof.
  intros Hp Hx Ht Hd. split; [intros i..|done|done].
  - rewrite Hp. destruct (procs s !! i); constructor; by repeat split.
  - rewrite Hx. destruct (ps_ext s !! i); constructor; by repeat split.
Qed.
Lemma te_add_ready s l : tree_eq s (add_ready s l).
Proof. by apply te_frame. Qed.
Lemma te_upd_thread s tid f : (∀ th, threads s !! tid = Some th → th_key (f th) = th_key th) → tree_eq s (upd_thread s tid f).
Proof.
  intros Hf. apply te_frame; try done. intros t. change (threads (upd_thread s tid f)) with (alter f tid (threads s)).
  destruct (decide (t = tid)) as [->|]; [|by rewrite lookup_alter_ne].
  rewrite lookup_alter_eq. destruct (threads s !! tid); simpl; [by rewrite Hf|done].
Qed.
(** A sleeping thread is made ready. *)
Lemma te_make_ready s tid th : threads s !! tid = Some th → sg_status (st_task th) ≠ Zombie →
  tree_eq s (add_ready (upd_thread s tid (λ th, with_task th (with_sg_status (st_task th) Ready))) [tid]).
Proof.
  intros Hth Hs. etrans; [|apply te_add_ready]. apply te_upd_thread. intros th' Hth'. simplify_eq. unfold th_key, exited.
  simpl. by rewrite !bool_decide_eq_false_2.
Qed.
Lemma te_upd_ext s pid f : (∀ x, ext_same x (f x)) → tree_eq s (upd_ext s pid f).
Proof.
  intros Hf. split; try done.
  - intros i. change (procs (upd_ext s pid f)) with (procs s). destruct (procs s !! i); constructor; by repeat split.
  - apply (Forall2_alter (λ _, ext_same)); [by repeat split|]. intros. apply Hf.
Qed.
Lemma te_upd_event s pid e : tree_eq s (upd_ext s pid (with_event e)).
Proof. apply te_upd_ext. by repeat split. Qed.
#[export] Hint Resolve te_upd_thread te_add_ready te_upd_event : ya2y.
#[export] Hint Extern 0 (tree_eq ?s ?s) => reflexivity : ya2y.

Lemma te_wake_child_exit s pid : tree_eq s (wake_child_exit s pid).
Proof.
  unfold wake_child_exit. destruct (ps_ext s !! pid) as [x|]; [|done].
  set (s1 := upd_ext s pid (with_event None)). assert (tree_eq s s1) as H1 by apply te_upd_event.
  destruct (px_event x) as [tid|]; [|done]. destruct (threads s1 !! tid) eqn:Et; [|done]. case_bool_decide as Hb; [|done].
  etrans; [exact H1|]. eapply te_make_ready; [done|]. by rewrite Hb.
Qed.
Lemma te_wake_sibling self s t : tree_eq s (wake_sibling self s t).
Proof.
  unfold wake_sibling. destruct (threads s !! t) eqn:Et; [|done]. destruct (_ && _) eqn:Eb; [|done]. split_bools.
  eapply te_make_ready; [done|]. congruence.
Qed.
Lemma te_release_vfork tid s t : tree_eq s (release_vfork s tid t).
Proof.
  unfold release_vfork. destruct (threads s !! t) as [th|] eqn:Et; [|done]. destruct (_ =? _); [|done].
  set (s1 := upd_thread s t _). assert (tree_eq s s1) as H1 by by apply te_upd_thread.
  case_bool_decide as Hb; [|done]. etrans; [exact H1|]. eapply te_make_ready.
  - change (threads s1) with (alter (λ th, with_task th (clear_vfork (st_task th))) t (threads s)). by rewrite lookup_alter_eq, Et.
  - simpl. by rewrite Hb.
Qed.
Lemma te_foldl {A} (f : PSys → A → PSys) l s : (∀ s a, tree_eq s (f s a)) → tree_eq s (foldl f s l).
Proof. intros Hf. revert s. induction l as [|a l IH]; intros s; simpl; [done|]. etrans; [apply Hf|apply IH]. Qed.

Lemma add_signal_exited t sig info src iw :
  bool_decide (sg_status (add_signal_task t sig info src iw).1.1 = Zombie) = bool_decide (sg_status t = Zombie).
Proof.
  unfold add_signal_task. assert (sg_status (record_signal t sig info src) = sg_status t) as <-.
  { unfold record_signal. by repeat case_match. }
  generalize (record_signal t sig info src) as t'. intros t'. unfold wake_for_signal, wake_interruptible, clear_vfork.
  destruct (sg_status t') eqn:Es, iw, (sg_waiter t'); cbn; rewrite ?Es; try done; repeat (case_match; try done); cbn; rewrite ?Es; done.
Qed.

(** A notification from the kernel never panics and keeps the tree. *)
Lemma notify_done s pid sig : sys_base (ps_sig s) → sig_small sig →
  ∃ s', notify s pid sig = Done s' ∧ tree_eq s s'.
Proof.
  intros Hb Hs. unfold notify, send_signal_to_thread_group. destruct (ss_procs (ps_sig s) !! pid) as [p|] eqn:Ep; cbn.
  2:{ eexists. split; [done|]. destruct s; reflexivity. }
  edestruct (deliver_group_delivered _ Hb sig Hs None (λ _, False) (ps_sig s) pid p p)
    as (y' & n & -> & Hd); [apply delivered_none|done|by repeat split|by intros ?? []|]. cbn. eexists. split; [done|].
  destruct Hd as [Hn Hh Hm Hp]. split; [done| |intros tid|done].
  { intros i. change (ps_ext (with_sig s y')) with (ps_ext s). destruct (ps_ext s !! i); constructor; by repeat split. }
  change (threads (with_sig s y')) with (ss_threads y'). unfold threads.
  destruct (ss_threads (ps_sig s) !! tid) as [th|] eqn:Et; [|by rewrite Hn].
  destruct (decide (tid ∈ sp_tasks p)); [rewrite (Hh _ _ Et); [|tauto]|by rewrite (Hm _ _ Et); [|tauto]].
  simpl. unfold sent. case_match; [done|]. unfold th_key, exited. simpl. by rewrite add_signal_exited.
Qed.

(** ** The invariant *)

(** The children lists are the inverse of the parent pointers: every process but
    [init] is listed exactly once, by its parent, and parents have smaller
    numbers, so the pointers lead to [init].  A zombie has given its children
    away. *)
Record forest (s : PSys) : Prop := {
  fo_ext pid : is_Some (ps_ext s !! pid) ↔ is_Some (procs s !! pid);
  fo_init : ∃ p, procs s !! INIT_PID = Some p ∧ group_exit_code p = None;
  fo_order pid p : procs s !! pid = Some p → 0 ≤ sp_ppid p < pid;
  fo_child pid c : c ∈ children_of s pid → ∃ q, procs s !! c = Some q ∧ sp_ppid q = pid;
  fo_parent c q : procs s !! c = Some q → c ≠ INIT_PID → c ∈ children_of s (sp_ppid q);
  fo_nodup pid : NoDup (children_of s pid);
  fo_signal pid x : ps_ext s !! pid = Some x → px_exit_signal x = -1 ∨ 1 ≤ px_exit_signal x ≤ SIG_MAX_NUM }.

Record tree_wf (s : PSys) : Prop := {
  tw_forest : forest s;
  tw_sys : sys_wf (ps_sig s);
  tw_exited tid th : threads s !! tid = Some th → exited th = false;
  tw_zombie pid : zombie s pid = true → children_of s pid = [] }.
Coercion tw_forest : tree_wf >-> forest.

(** The parts of the state the forest depends on. *)
Record shape_eq (s s' : PSys) : Prop := {
  se_procs pid : option_Forall2 (λ p p', sp_ppid p' = sp_ppid p ∧
    (pid = INIT_PID → group_exit_code p' = group_exit_code p)) (procs s !! pid) (procs s' !! pid);
  se_ext pid : option_Forall2 (λ x x', px_children x' = px_children x ∧ px_exit_signal x' = px_exit_signal x)
    (ps_ext s !! pid) (ps_ext s' !! pid) }.

Lemma shape_children s s' pid : shape_eq s s' → children_of s' pid = children_of s pid.
Proof. intros [_ Hx]. unfold children_of. specialize (Hx pid). destruct Hx as [? ? (?&_)|]; done. Qed.

Lemma shape_forest s s' : shape_eq s s' → forest s → forest s'.
Proof.
  intros Ht [Hx (pi & Hi & Hic) Ho Hc Hp Hn Hsig].
  assert (∀ pid p', procs s' !! pid = Some p' → ∃ p, procs s !! pid = Some p ∧ sp_ppid p' = sp_ppid p) as Hpr.
  { intros pid p' Hp'. pose proof (se_procs _ _ Ht pid) as H. rewrite Hp' in H. inversion H as [? ? []|]; subst; eauto. }
  split.
  - intros pid. specialize (Hx pid). destruct (se_ext _ _ Ht pid), (se_procs _ _ Ht pid); unfold is_Some in *; naive_solver.
  - pose proof (se_procs _ _ Ht INIT_PID) as H. rewrite Hi in H. inversion H as [? p' [_ Hcode]|]; subst.
    exists p'. split; [done|]. by rewrite Hcode.
  - intros pid p' (p & Hp1 & ->)%Hpr. eauto.
  - intros pid c Hin. rewrite (shape_children _ _ _ Ht) in Hin. destruct (Hc _ _ Hin) as (q & Hq & <-).
    pose proof (se_procs _ _ Ht c) as H. rewrite Hq in H. inversion H as [? q' [? _]|]; subst; eauto.
  - intros c q' (q & Hq & ->)%Hpr. rewrite (shape_children _ _ _ Ht). eauto.
  - intros pid. by rewrite (shape_children _ _ _ Ht).
  - intros pid x' Hx'. pose proof (se_ext _ _ Ht pid) as H. rewrite Hx' in H. inversion H as [x ? [_ He]|]; subst.
    rewrite He. eauto.
Qed.

Lemma tree_eq_shape s s' : tree_eq s s' → shape_eq s s'.
Proof.
  intros [Hp Hx _ _]. split; intros i; [specialize (Hp i); destruct Hp as [? ? (?&?&?&?&?&?)|]; by constructor|].
  specialize (Hx i). destruct Hx as [? ? (?&?&?&?)|]; by constructor.
Qed.
Lemma sys_wf_te s s' : tree_eq s s' → sys_wf (ps_sig s) → sys_wf (ps_sig s').
Proof.
  intros Ht [Hl Ho Hn Htb].
  assert (∀ tid th', ss_threads (ps_sig s') !! tid = Some th' →
    ∃ th, ss_threads (ps_sig s) !! tid = Some th ∧ st_pid th' = st_pid th) as Hth.
  { intros tid th' Hth'. pose proof (te_threads _ _ Ht tid) as H. unfold threads in H. rewrite Hth' in H. simpl in H.
    destruct (ss_threads (ps_sig s) !! tid); [|done]. unfold th_key in H. naive_solver. }
  assert (∀ pid p', ss_procs (ps_sig s') !! pid = Some p' → ∃ p, ss_procs (ps_sig s) !! pid = Some p ∧ proc_same p p') as Hpr.
  { intros pid p' Hp'. pose proof (te_procs _ _ Ht pid) as H. unfold procs in H. rewrite Hp' in H. inversion H; eauto. }
  split.
  - intros tid th' (th & H1 & ->)%Hth. destruct (Hl _ _ H1) as (p & Hp & Hin).
    destruct (te_proc _ _ _ _ Ht Hp) as (p' & ? & (_&_&_&Htk&_)). exists p'. by rewrite Htk.
  - intros pid p' tid th' (p & Hp & (_&_&_&Htk&_))%Hpr Hin (th & H1 & ->)%Hth. rewrite Htk in Hin. eauto.
  - intros pid p' (p & Hp & (_&_&_&->&_))%Hpr. eauto.
  - intros pid p' (p & Hp & (_&_&_&_&->&_))%Hpr. eauto.
Qed.

#[export] Instance forest_proper : Proper (tree_eq ==> iff) forest.
Proof. intros s s' Ht. split; apply shape_forest, tree_eq_shape; [done|by symmetry]. Qed.

#[export] Instance tree_wf_proper : Proper (tree_eq ==> iff) tree_wf.
Proof.
  assert (∀ s s', tree_eq s s' → tree_wf s → tree_wf s') as H; [|intros s s' ?; split; apply H; [done|by symmetry]].
  intros s s' Ht [Hf Hs He Hz]. split; [by rewrite <- Ht|by eapply sys_wf_te| |].
  { intros tid th' Hth'. pose proof (te_threads _ _ Ht tid) as H. rewrite Hth' in H. simpl in H.
    destruct (threads s !! tid) as [th|] eqn:Eth; [|done]. simpl in H. injection H as _ ->. eauto. }
  intros pid. rewrite (te_zombie _ _ _ Ht), (te_children _ _ _ Ht). apply Hz.
Qed.

Lemma fo_alive_child s pid c : forest s → c ∈ children_of s pid → is_Some (procs s !! c).
Proof. intros Hw Hc. destruct (fo_child _ Hw _ _ Hc) as (q & -> & _). done. Qed.

(** Every listed child can be upgraded. *)
Lemma upgraded_children s pid : forest s → upgraded s (children_of s pid) = children_of s pid.
Proof. intros Hw. apply retain_all. intros c Hc. apply bool_decide_eq_true. by eapply fo_alive_child. Qed.

(** ** The nearest reaper *)

(** [up s a b]: [b] is a proper ancestor of the process [a]; [between] are the
    ancestors passed on the way. *)
Inductive up (s : PSys) : Z → list Z → Z → Prop :=
| up_parent a p : procs s !! a = Some p → up s a [] (sp_ppid p)
| up_step a p l b : procs s !! a = Some p → up s (sp_ppid p) l b → up s a (sp_ppid p :: l) b.

Definition live_reaper (s : PSys) (pid : Z) : Prop :=
  pid ≠ INIT_PID ∧ ∃ p, procs s !! pid = Some p ∧ is_reaper s pid p = true.

(** The nearest ancestor of [a] that is a live child subreaper, [init] if there
    is none. *)
Definition nearest_reaper (s : PSys) (a r : Z) : Prop :=
  (live_reaper s r ∧ ∃ l, up s a l r ∧ ∀ x, x ∈ l → ¬ live_reaper s x) ∨
  (r = INIT_PID ∧ ∀ l x, up s a l x → ¬ live_reaper s x).

Section reaper.
Context (s : PSys) (Horder : ∀ pid p, procs s !! pid = Some p → 0 ≤ sp_ppid p < pid).

Lemma up_inv a l b : up s a l b → ∃ p, procs s !! a = Some p ∧
  (l = [] ∧ b = sp_ppid p ∨ ∃ l', l = sp_ppid p :: l' ∧ up s (sp_ppid p) l' b).
Proof using Type. destruct 1; eauto 10. Qed.

(** Nothing is above [init] or above a process that is not in the table. *)
Lemma up_end a l x : (a = 0 ∨ a = INIT_PID ∨ procs s !! a = None) → up s a l x → ¬ live_reaper s x.
Proof using Horder.
  intros Ha Hup (Hx & p & Hp & _). destruct (up_inv _ _ _ Hup) as (q & Hq & Hc).
  pose proof (Horder _ _ Hq) as H0. pose proof (Horder _ _ Hp) as H1. unfold INIT_PID in *.
  destruct Ha as [->|[->|Ha]]; [lia| |congruence]. assert (sp_ppid q = 0) as Hz by lia. rewrite Hz in Hc.
  destruct Hc as [(_ & ->)|(l' & _ & Hu)]; [lia|]. destruct (up_inv _ _ _ Hu) as (r & Hr & _).
  pose proof (Horder _ _ Hr). lia.
Qed.

Lemma reaper_loop_spec fuel a pa : procs s !! a = Some pa → (Z.to_nat (sp_ppid pa) < fuel)%nat →
  ∃ r, reaper_loop fuel s (sp_ppid pa) = Some r ∧ nearest_reaper s a r.
Proof using Horder.
  revert a pa. induction fuel as [|fuel IH]; intros a pa Ha Hf; [lia|]. cbn [reaper_loop].
  set (b := sp_ppid pa) in *.
  assert (∀ l x, up s a l x → live_reaper s x → x = b ∨ ∃ l', up s b l' x) as Hsplit.
  { intros l x Hu _. destruct (up_inv _ _ _ Hu) as (p & Hp & [(_ & ->)|(l' & _ & Hu')]); simplify_eq; eauto. }
  assert ((b = 0 ∨ b = INIT_PID ∨ procs s !! b = None) → nearest_reaper s a INIT_PID) as Hend.
  { intros Hb. right. split; [done|]. intros l x Hu Hl. destruct (Hsplit _ _ Hu Hl) as [->|(l' & Hu')].
    - destruct Hl as (? & p & Hp & _). pose proof (Horder _ _ Hp). destruct Hb as [?|[?|?]]; [lia|done|congruence].
    - by eapply up_end. }
  destruct (Z.eqb_spec b 0) as [H0|H0]; [exists INIT_PID; auto|].
  destruct (Z.eqb_spec b INIT_PID) as [H1|H1]; [exists INIT_PID; auto|]. cbn [orb].
  destruct (procs s !! b) as [p|] eqn:Ep; [|exists INIT_PID; auto].
  destruct (is_reaper s b p) eqn:Er.
  { exists b. split; [done|]. left. split; [split; [done|eauto]|]. exists []. split; [by constructor|set_solver]. }
  pose proof (Horder _ _ Ep) as Hlt. destruct (Z.eqb_spec (sp_ppid p) b) as [|_]; [lia|].
  destruct (IH b p Ep) as (r & -> & Hr); [lia|]. exists r. split; [done|].
  assert (¬ live_reaper s b) as Hnb. { intros (_ & p' & Hp' & Hr'). simplify_eq. congruence. }
  destruct Hr as [(Hl & l & Hu & Hnone)|(-> & Hnone)].
  - left. split; [done|]. exists (b :: l). split; [by constructor|]. intros x [->|Hx]%elem_of_cons; auto.
  - right. split; [done|]. intros l x Hu Hl. destruct (Hsplit _ _ Hu Hl) as [->|(l' & Hu')]; [done|]. by eapply Hnone.
Qed.
End reaper.

(** ** Adoption *)

(** The children [l] are given to [r]. *)
Record adopted (r : Z) (l : list Z) (s s' : PSys) : Prop := {
  ad_procs i : procs s' !! i = (λ p, if bool_decide (i ∈ l) then with_ppid r p else p) <$> procs s !! i;
  ad_ext i : ps_ext s' !! i = (λ x, if i =? r then with_children (px_children x ++ l) x
                                    else if bool_decide (i ∈ l) then with_exit_signal SIGCHLD x else x) <$> ps_ext s !! i;
  ad_threads : threads s' = threads s;
  ad_time : ps_time s' = ps_time s }.

Lemma children_upd_ext s i f r :
  children_of (upd_ext s i f) r =
  if r =? i then match ps_ext s !! i with Some x => px_children (f x) | None => [] end else children_of s r.
Proof.
  unfold children_of. change (ps_ext (upd_ext s i f)) with (alter f i (ps_ext s)). destruct (Z.eqb_spec r i) as [->|].
  - rewrite lookup_alter_eq. by destruct (ps_ext s !! i).
  - by rewrite lookup_alter_ne.
Qed.
Lemma children_push s r c d :
  d ∈ children_of (upd_ext s r (λ x, with_children (px_children x ++ [c]) x)) r → d ∈ children_of s r ∨ d = c.
Proof.
  rewrite children_upd_ext, Z.eqb_refl. unfold children_of. destruct (ps_ext s !! r); simpl; [|set_solver].
  rewrite elem_of_app, list_elem_of_singleton. done.
Qed.

Lemma adopted_nil r s : adopted r [] s s.
Proof.
  split; try done; intros i.
  - by destruct (procs s !! i).
  - destruct (ps_ext s !! i) as [x|]; [|done]. simpl. destruct (i =? r); [|done]. by destruct x; rewrite app_nil_r.
Qed.

Lemma adopt_fold r l s b s' b' :
  foldl (adopt r) (s, b) l = (s', b') → NoDup l → r ∉ l → (∀ c, c ∈ l → c ∉ children_of s r) →
  adopted r l s s' ∧ b' = b || existsb (zombie s) l.
Proof.
  revert s b. induction l as [|c l IH]; intros s b; simpl.
  { intros [= <- <-] _ _ _. split; [apply adopted_nil|by rewrite orb_false_r]. }
  intros Hf [Hcl Hnd]%NoDup_cons Hr Hch.
  set (s1 := upd_ext (upd_proc s c (with_ppid r)) c (with_exit_signal SIGCHLD)) in Hf.
  assert (r ≠ c) as Hrc by set_solver.
  assert (∀ i, ps_ext s1 !! i = (if i =? c then with_exit_signal SIGCHLD else id) <$> ps_ext s !! i) as Hx1.
  { intros i. change (ps_ext s1) with (alter (with_exit_signal SIGCHLD) c (ps_ext s)). destruct (Z.eqb_spec i c) as [->|].
    - by rewrite lookup_alter_eq.
    - rewrite lookup_alter_ne by done. by destruct (ps_ext s !! i). }
  assert (∀ i, procs s1 !! i = (if i =? c then with_ppid r else id) <$> procs s !! i) as Hp1.
  { intros i. change (procs s1) with (alter (with_ppid r) c (procs s)). destruct (Z.eqb_spec i c) as [->|].
    - by rewrite lookup_alter_eq.
    - rewrite lookup_alter_ne by done. by destruct (procs s !! i). }
  assert (children_of s1 r = children_of s r) as Hc1.
  { unfold children_of. rewrite Hx1. rewrite (proj2 (Z.eqb_neq _ _) Hrc). by destruct (ps_ext s !! r). }
  assert (∀ i, zombie s1 i = zombie s i) as Hz1.
  { intros i. unfold zombie. rewrite Hp1. destruct (procs s !! i); simpl; [|done]. by destruct (i =? c). }
  set (s2 := link_child_to_parent s1 r c) in Hf.
  assert (s2 = upd_ext s1 r (λ x, with_children (px_children x ++ [c]) x)) as Hs2.
  { subst s2. unfold link_child_to_parent. rewrite existsb_none; [done|]. intros x [Hx _]%elem_of_retain.
    apply Z.eqb_neq. intros ->. rewrite Hc1 in Hx. by apply (Hch c); [set_solver|]. }
  assert (∀ i, zombie s2 i = zombie s i) as Hz2. { intros i. rewrite Hs2, <- Hz1. done. }
  destruct (IH _ _ Hf Hnd) as [[Ap Ax At Ad] ->]; [set_solver| |].
  { intros d Hd. rewrite Hs2. intros [Hin| ->]%children_push; [|done]. rewrite Hc1 in Hin.
    by apply (Hch d); [right|]. }
  assert (existsb (zombie s2) l = existsb (zombie s) l) as ->.
  { clear -Hz2. induction l as [|x l IHl]; simpl; [done|]. by rewrite Hz2, IHl. }
  split; [|by rewrite Hz1, orb_assoc].
  split; [..|by rewrite At, Hs2|by rewrite Ad, Hs2]; intros i.
  - rewrite Ap, Hs2. change (procs (upd_ext s1 r _)) with (procs s1). rewrite Hp1, <- option_fmap_compose.
    destruct (procs s !! i) as [p|]; [|done]. simpl. f_equal. destruct (Z.eqb_spec i c) as [->|].
    + rewrite bool_decide_eq_false_2, bool_decide_eq_true_2 by set_solver. done.
    + rewrite (bool_decide_ext (i ∈ c :: l) (i ∈ l)) by set_solver. done.
  - rewrite Ax, Hs2. unfold upd_ext. simpl. destruct (Z.eqb_spec i r) as [->|Hir].
    + rewrite lookup_alter_eq. fold (ps_ext s1). rewrite Hx1, (proj2 (Z.eqb_neq _ _) Hrc).
      destruct (ps_ext s !! r) as [x|]; simpl; [|done]. by rewrite <- app_assoc.
    + rewrite lookup_alter_ne by done. fold (ps_ext s1). rewrite Hx1. destruct (ps_ext s !! i) as [x|]; simpl; [|done].
      f_equal. destruct (Z.eqb_spec i c) as [->|].
      * rewrite bool_decide_eq_false_2, bool_decide_eq_true_2 by set_solver. done.
      * rewrite (bool_decide_ext (i ∈ c :: l) (i ∈ l)) by set_solver. done.
Qed.

Lemma reaper_loop_ext s s' fuel a :
  (∀ i, option_Forall2 (λ p p', sp_ppid p' = sp_ppid p ∧ is_reaper s' i p' = is_reaper s i p) (procs s !! i) (procs s' !! i)) →
  reaper_loop fuel s' a = reaper_loop fuel s a.
Proof.
  intros H. revert a. induction fuel as [|fuel IH]; intros a; cbn [reaper_loop]; [done|].
  destruct (_ || _); [done|]. destruct (H a) as [p p' [-> ->]|]; [|done]. by rewrite IH.
Qed.

(** What [exit_and_reparent] achieves. *)
Record given_away (s : PSys) (pid r : Z) (s' : PSys) : Prop := {
  ga_children i : children_of s' i =
    if i =? pid then [] else if i =? r then children_of s r ++ children_of s pid else children_of s i;
  ga_procs i : option_Forall2 (λ p p',
      sp_ppid p' = (if bool_decide (i ∈ children_of s pid) then r else sp_ppid p) ∧
      sp_tasks p' = (if i =? pid then [] else sp_tasks p) ∧ group_exit_code p' = group_exit_code p ∧
      sp_sid p' = sp_sid p ∧ sp_pgid p' = sp_pgid p ∧ sp_sigtable p' = sp_sigtable p) (procs s !! i) (procs s' !! i);
  ga_ext i : option_Forall2 (λ x x',
      px_exit_signal x' = (if bool_decide (i ∈ children_of s pid) then SIGCHLD else px_exit_signal x) ∧
      px_subreaper x' = px_subreaper x ∧ px_usage x' = px_usage x) (ps_ext s !! i) (ps_ext s' !! i);
  ga_threads tid : th_key <$> threads s' !! tid = th_key <$> threads s !! tid;
  ga_time : ps_time s' = ps_time s }.

Lemma ga_pids s pid r s' tid : given_away s pid r s' → st_pid <$> threads s' !! tid = st_pid <$> threads s !! tid.
Proof.
  intros [_ _ _ Ht _]. specialize (Ht tid). destruct (threads s !! tid), (threads s' !! tid); try done. simpl in *. by injection Ht as ->.
Qed.

Lemma given_away_te s pid r s1 s' : given_away s pid r s1 → tree_eq s1 s' → given_away s pid r s'.
Proof.
  intros [Hc Hp Hx Ht Hd] He. split.
  - intros i. by rewrite (te_children _ _ _ He).
  - intros i. specialize (Hp i). pose proof (te_procs _ _ He i) as H. destruct Hp as [p p1 Hpp|]; inversion H as [? ? H'|]; subst; constructor.
    destruct Hpp as (?&?&?&?&?&?), H' as (?&?&?&?&?&?). split_and!; congruence.
  - intros i. specialize (Hx i). pose proof (te_ext _ _ He i) as H. destruct Hx as [x x1 Hxx|]; inversion H as [? ? H'|]; subst; constructor.
    destruct Hxx as (?&?&?), H' as (?&?&?&?). split_and!; congruence.
  - intros tid. by rewrite (te_threads _ _ He).
  - by rewrite (te_time _ _ He).
Qed.

Lemma sys_base_weaken y y' :
  (∀ tid, st_pid <$> ss_threads y' !! tid = st_pid <$> ss_threads y !! tid) →
  (∀ i, option_Forall2 (λ p p', (NoDup (sp_tasks p) → NoDup (sp_tasks p')) ∧ sp_sigtable p' = sp_sigtable p)
          (ss_procs y !! i) (ss_procs y' !! i)) → sys_base y → sys_base y'.
Proof.
  intros Ht Hp [H1 H2 H3]. split.
  - intros tid th' Hth'. specialize (Ht tid). rewrite Hth' in Ht. destruct (ss_threads y !! tid) as [th|] eqn:E; [|done].
    simplify_eq/=. destruct (H1 _ _ E) as [p Hpp]. rewrite Ht. specialize (Hp (st_pid th)). rewrite Hpp in Hp. inversion Hp. by eexists.
  - intros pid p' Hp'. specialize (Hp pid). rewrite Hp' in Hp. inversion Hp as [p ? [Hn _] E|]; subst. by apply Hn, (H2 pid).
  - intros pid p' Hp'. specialize (Hp pid). rewrite Hp' in Hp. inversion Hp as [p ? [_ Htb] E|]; subst. rewrite Htb. by apply (H3 pid).
Qed.
Lemma sys_base_te s s' : tree_eq s s' → sys_base (ps_sig s) → sys_base (ps_sig s').
Proof.
  intros He. apply sys_base_weaken; [intros tid; by apply te_pids|]. intros i. pose proof (te_procs _ _ He i) as H. unfold procs in H.
  destruct H as [p p' (_&_&_&E1&E2&_)|]; constructor. by rewrite E1, E2.
Qed.
Lemma sys_base_given s pid r s' : given_away s pid r s' → sys_base (ps_sig s) → sys_base (ps_sig s').
Proof.
  intros Hg. apply sys_base_weaken; [intros tid; by eapply ga_pids|]. intros i. pose proof (ga_procs _ _ _ _ Hg i) as H. unfold procs in H.
  destruct H as [p p' (_&E1&_&_&_&E2)|]; constructor. rewrite E1, E2. split; [|done]. by case_match; [constructor|].
Qed.

Lemma nearest_reaper_lt s a r pa : forest s → procs s !! a = Some pa → a ≠ INIT_PID → nearest_reaper s a r →
  r < a ∧ is_Some (procs s !! r) ∧ zombie s r = false.
Proof.
  intros Hf Ha Hne [((Hr & p & Hp & Hl) & l & Hu & _)|(-> & _)].
  - split; [|split; [by eexists|]].
    + clear -Hf Hu. induction Hu as [a p H|a p l b H Hu IH]; pose proof (fo_order _ Hf _ _ H); lia.
    + unfold zombie, all_tasks_exited. rewrite Hp. unfold is_reaper in Hl. destruct (ps_ext s !! r); [|done].
      split_bools. by rewrite bool_decide_eq_false_2 by (intros []; congruence).
  - pose proof (fo_order _ Hf _ _ Ha). destruct (fo_init _ Hf) as (pi & Hpi & Hc). unfold INIT_PID in *.
    split; [lia|]. split; [by eexists|]. unfold zombie, all_tasks_exited. rewrite Hpi.
    by rewrite bool_decide_eq_false_2 by (intros []; congruence).
Qed.

Lemma reparent_done s pid p : forest s → sys_base (ps_sig s) → procs s !! pid = Some p → pid ≠ INIT_PID →
  ∃ r s', exit_and_reparent s pid = Done s' ∧ nearest_reaper s pid r ∧ given_away s pid r s'.
Proof.
  intros Hf Hb Hp Hne. pose proof (fo_order _ Hf _ _ Hp) as Hlt.
  destruct (reaper_loop_spec s (fo_order _ Hf) (S (Z.to_nat (sp_ppid p))) pid p Hp) as (r & Hloop & Hr); [lia|].
  destruct (nearest_reaper_lt _ _ _ _ Hf Hp Hne Hr) as (Hrp & [pr Hpr] & _).
  exists r. unfold exit_and_reparent. rewrite upgraded_children by done.
  set (s0 := upd_proc (upd_ext s pid (with_children [])) pid (with_tasks [])).
  assert (∀ i, procs s0 !! i = (if i =? pid then with_tasks [] else id) <$> procs s !! i) as Hp0.
  { intros i. change (procs s0) with (alter (with_tasks []) pid (procs s)). destruct (Z.eqb_spec i pid) as [->|].
    - by rewrite lookup_alter_eq.
    - rewrite lookup_alter_ne by done. by destruct (procs s !! i). }
  assert (∀ i, ps_ext s0 !! i = (if i =? pid then with_children [] else id) <$> ps_ext s !! i) as Hx0.
  { intros i. change (ps_ext s0) with (alter (with_children []) pid (ps_ext s)). destruct (Z.eqb_spec i pid) as [->|].
    - by rewrite lookup_alter_eq.
    - rewrite lookup_alter_ne by done. by destruct (ps_ext s !! i). }
  set (l := children_of s pid).
  assert (r ∉ l ∧ pid ∉ l) as [Hrl Hpl].
  { split; intros (q & Hq & Hqp)%(fo_child _ Hf); pose proof (fo_order _ Hf _ _ Hq); lia. }
  assert (∀ s1, adopted r l s0 s1 → given_away s pid r s1) as Hga.
  { intros s1 [Ap Ax At Ad]. split.
    - intros i. unfold children_of. rewrite Ax, Hx0. fold l. destruct (Z.eqb_spec i pid) as [->|].
      + rewrite (proj2 (Z.eqb_neq pid r)), bool_decide_eq_false_2 by (lia || done). by destruct (ps_ext s !! pid).
      + destruct (Z.eqb_spec i r) as [->|]; [|by destruct (ps_ext s !! i); simpl; [case_bool_decide|]].
        assert (is_Some (ps_ext s !! r)) as [x ->] by (apply (fo_ext _ Hf); by eexists). done.
    - intros i. rewrite Ap, Hp0. fold l. destruct (procs s !! i) as [q|]; simpl; constructor.
      destruct (Z.eqb_spec i pid) as [->|]; [rewrite bool_decide_eq_false_2 by done; by repeat split|].
      by case_bool_decide; repeat split.
    - intros i. rewrite Ax, Hx0. fold l. destruct (ps_ext s !! i) as [x|]; simpl; constructor.
      destruct (Z.eqb_spec i r) as [->|].
      { rewrite (proj2 (Z.eqb_neq r pid)), bool_decide_eq_false_2 by (lia || done). by repeat split. }
      destruct (Z.eqb_spec i pid) as [->|]; [rewrite bool_decide_eq_false_2 by done; by repeat split|].
      by case_bool_decide; repeat split.
    - intros tid. by rewrite At.
    - by rewrite Ad. }
  case_bool_decide as Hl.
  { eexists. split; [done|]. split; [done|]. apply Hga. rewrite Hl. apply adopted_nil. }
  assert (find_child_reaper s0 pid = Done r) as ->.
  { unfold find_child_reaper. rewrite Hp0, Z.eqb_refl, Hp. cbn [fmap option_fmap option_map unwrap mbind comp_bind].
    change (sp_ppid (with_tasks [] p)) with (sp_ppid p). rewrite (reaper_loop_ext s s0), Hloop.
    - cbn. by rewrite Hp0, Hpr.
    - intros i. rewrite Hp0. destruct (procs s !! i) as [q|]; simpl; constructor. unfold is_reaper. rewrite Hx0.
      destruct (ps_ext s !! i); simpl; by destruct (i =? pid). }
  cbn [mbind comp_bind]. destruct (foldl (adopt r) (s0, false) l) as [s1 b] eqn:Hfold.
  apply adopt_fold in Hfold as [Had _]; [|by apply (fo_nodup _ Hf)|done|].
  2:{ intros c Hc Hin. unfold children_of in Hin. rewrite Hx0, (proj2 (Z.eqb_neq r pid)) in Hin by lia.
      destruct (fo_child _ Hf r c) as (q & Hq & <-).
      { unfold children_of. by destruct (ps_ext s !! r). }
      destruct (fo_child _ Hf pid c Hc) as (q' & Hq' & ?). simplify_eq. lia. }
  specialize (Hga _ Had). destruct b; [|by eexists].
  pose proof (te_wake_child_exit s1 r) as He. destruct (notify_done (wake_child_exit s1 r) r (sig_bit SIGCHLD)) as (s2 & -> & He2).
  { by eapply sys_base_te, sys_base_given. }
  { right. exists SIGCHLD. by split. }
  eexists. split; [done|]. split; [done|]. eapply given_away_te; [done|]. by etrans.
Qed.

Lemma forest_given s pid r s' p : forest s → procs s !! pid = Some p → pid ≠ INIT_PID → nearest_reaper s pid r →
  given_away s pid r s' → forest s'.
Proof.
  intros Hf Hp Hne Hr [Gc Gp Gx _ _].
  destruct (nearest_reaper_lt _ _ _ _ Hf Hp Hne Hr) as (Hrp & [pr Hpr] & _).
  assert (∀ i q', procs s' !! i = Some q' → ∃ q, procs s !! i = Some q ∧
    sp_ppid q' = if bool_decide (i ∈ children_of s pid) then r else sp_ppid q) as Hback.
  { intros i q' Hq'. specialize (Gp i). rewrite Hq' in Gp. inversion Gp as [q ? [? _]|]; subst; eauto. }
  assert (∀ i q, procs s !! i = Some q → ∃ q', procs s' !! i = Some q' ∧ group_exit_code q' = group_exit_code q ∧
    sp_ppid q' = if bool_decide (i ∈ children_of s pid) then r else sp_ppid q) as Hforw.
  { intros i q Hq. specialize (Gp i). rewrite Hq in Gp. inversion Gp as [? q' (?&?&?&_)|]; subst; eauto. }
  split.
  - intros i. pose proof (fo_ext _ Hf i). destruct (Gp i), (Gx i); unfold is_Some in *; naive_solver.
  - destruct (fo_init _ Hf) as (pi & Hpi & Hc). destruct (Hforw _ _ Hpi) as (q' & ? & ? & _). exists q'. split; [done|congruence].
  - intros i q' (q & Hq & ->)%Hback. pose proof (fo_order _ Hf _ _ Hq). case_bool_decide as Hin; [|done].
    destruct (fo_child _ Hf _ _ Hin) as (q1 & ? & ?). simplify_eq. pose proof (fo_order _ Hf _ _ Hpr). lia.
  - intros i c. rewrite Gc. destruct (Z.eqb_spec i pid) as [->|Hip]; [by intros ?%elem_of_nil|].
    intros Hc. assert (c ∈ children_of s i ∧ c ∉ children_of s pid ∨ i = r ∧ c ∈ children_of s pid) as [[H1 H2]|[-> H1]].
    { destruct (Z.eqb_spec i r) as [->|]; [apply elem_of_app in Hc as [Hc|Hc]; [left|by right]|left]; (split; [done|]).
      all: destruct (fo_child _ Hf _ _ Hc) as (q & Hq & <-); intros (q1 & ? & ?)%(fo_child _ Hf); by simplify_eq. }
    + destruct (fo_child _ Hf _ _ H1) as (q & Hq & <-). destruct (Hforw _ _ Hq) as (q' & ? & _ & Hq').
      rewrite bool_decide_eq_false_2 in Hq' by done. eauto.
    + destruct (fo_child _ Hf _ _ H1) as (q & Hq & _). destruct (Hforw _ _ Hq) as (q' & ? & _ & Hq').
      rewrite bool_decide_eq_true_2 in Hq' by done. eauto.
  - intros c q' (q & Hq & ->)%Hback Hc1. rewrite Gc. case_bool_decide as Hin.
    + rewrite (proj2 (Z.eqb_neq r pid)), Z.eqb_refl by lia. apply elem_of_app. by right.
    + pose proof (fo_parent _ Hf _ _ Hq Hc1) as Hpar. destruct (Z.eqb_spec (sp_ppid q) pid) as [Heq|]; [by rewrite Heq in Hpar|].
      destruct (Z.eqb_spec (sp_ppid q) r) as [Heq|]; [|done]. rewrite Heq in Hpar. apply elem_of_app. by left.
  - intros i. rewrite Gc. destruct (i =? pid); [constructor|]. destruct (Z.eqb_spec i r) as [->|]; [|by apply (fo_nodup _ Hf)].
    apply NoDup_app. split_and!; [by apply (fo_nodup _ Hf)| |by apply (fo_nodup _ Hf)].
    intros c (q & Hq & <-)%(fo_child _ Hf) (q1 & ? & ?)%(fo_child _ Hf). simplify_eq. lia.
  - intros i x' Hx'. specialize (Gx i). rewrite Hx' in Gx. inversion Gx as [x ? [He _]|]; subst. rewrite He.
    case_bool_decide; [right; unfold SIGCHLD, SIG_MAX_NUM; lia|]. by eapply (fo_signal _ Hf).
Qed.

(** ** Identifiers in use *)

(** Every process and thread of [s'] is one of [s]. *)
Definition narrows (s s' : PSys) : Prop :=
  (∀ i p', procs s' !! i = Some p' → ∃ p, procs s !! i = Some p ∧ ∀ t, t ∈ sp_tasks p' → t ∈ sp_tasks p) ∧
  (∀ t, is_Some (threads s' !! t) → is_Some (threads s !! t)).

Lemma tree_eq_narrows s s' : tree_eq s s' → narrows s s'.
Proof.
  intros He. split.
  - intros i p' Hp'. pose proof (te_procs _ _ He i) as H. rewrite Hp' in H.
    apply Forall2_Some_r in H as (p & Hp & (_&_&_&Ht&_)). exists p. split; [done|]. by rewrite Ht.
  - intros t [th Hth]. pose proof (te_pids _ _ t He) as H. rewrite Hth in H. destruct (threads s !! t); [by eexists|done].
Qed.
Lemma narrows_trans a b c : narrows a b → narrows b c → narrows a c.
Proof.
  intros [H1 H2] [H3 H4]. split; [|auto]. intros i p' (p & Hp & Ht)%H3. destruct (H1 _ _ Hp) as (q & Hq & Ht'). exists q. auto.
Qed.

(** An identifier above all that are in use. *)
Definition fresh_id (s : PSys) (n : Z) : Prop :=
  1 < n ∧ (∀ pid p, procs s !! pid = Some p → pid < n ∧ ∀ t, t ∈ sp_tasks p → t < n) ∧
  (∀ tid, is_Some (threads s !! tid) → tid < n).
Lemma fresh_narrows s s' n : narrows s s' → fresh_id s n → fresh_id s' n.
Proof.
  intros [Hp Ht] (H1 & H2 & H3). split; [done|]. split; [|auto]. intros pid p' (p & Hpp & Hs)%Hp. destruct (H2 _ _ Hpp). auto.
Qed.

(** ** Exit *)

(** The state at the end of an exit: the forest, and the threads but the one that
    leaves are those of the start. *)
Lemma exit_process_done s tid pid p code rss :
  forest s → sys_base (ps_sig s) → procs s !! pid = Some p → pid ≠ INIT_PID →
  ∃ s' r s1, exit_process s tid pid code rss = Done s' ∧ nearest_reaper s1 pid r ∧ forest s' ∧
    s1 = set_group_exit_code_once (upd_ext s pid (with_usage (usage_of s rss (tid :: sp_tasks p)))) pid code ∧
    given_away s1 pid r s'.
Proof.
  intros Hf Hb Hp Hne. unfold exit_process. rewrite Hp. cbn [unwrap mbind comp_bind].
  set (s1 := set_group_exit_code_once _ _ _).
  assert (shape_eq s s1) as Hsh.
  { split; [eapply (Forall2_alter (λ i p p', _ ∧ (i = INIT_PID → _)) _ pid)|eapply (Forall2_alter (λ _ x x', _) _ pid)]; try done.
    intros a _. by case_match. }
  assert (∃ p1, procs s1 !! pid = Some p1) as [p1 Hp1].
  { pose proof (se_procs _ _ Hsh pid) as H. rewrite Hp in H. inversion H; eauto. }
  assert (sys_base (ps_sig s1)) as Hb1.
  { revert Hb. apply sys_base_weaken; [done|]. eapply (Forall2_alter (λ _ p p', _) _ pid); [done|]. intros a _. by case_match. }
  pose proof (shape_forest _ _ Hsh Hf) as Hf1.
  destruct (reparent_done s1 pid p1 Hf1 Hb1 Hp1 Hne) as (r & s2 & -> & Hr & Hg).
  pose proof (forest_given _ _ _ _ _ Hf1 Hp1 Hne Hr Hg) as Hf2. cbn [mbind comp_bind].
  pose proof (ga_procs _ _ _ _ Hg pid) as H2. rewrite Hp1 in H2. inversion H2 as [? p2 _ E1 E2|]; subst. cbn [unwrap mbind comp_bind].
  destruct (proj2 (fo_ext _ Hf2 pid)) as [x Hx]; [by rewrite <- E2; eexists|]. rewrite Hx. cbn [unwrap mbind comp_bind].
  assert (∃ s3, (if 0 <=? px_exit_signal x then sig ← from_sig (px_exit_signal x); notify s2 (sp_ppid p2) sig else Done s2) = Done s3 ∧
    tree_eq s2 s3) as (s3 & -> & He).
  { destruct (0 <=? px_exit_signal x) eqn:Esig; [|by eexists]. apply Z.leb_le in Esig.
    destruct (fo_signal _ Hf2 _ _ Hx) as [|Hs]; [lia|]. destruct (kill_set_spec (px_exit_signal x)) as [Hk Hsm]; [lia|].
    rewrite (proj2 (Z.eqb_neq _ 0)) in Hk by lia. rewrite Hk. cbn [mbind comp_bind]. apply notify_done; [|done].
    by eapply sys_base_given. }
  cbn [mbind comp_bind].
  assert (∀ s4, tree_eq s3 s4 → ∃ s' r s5, Done s4 = Done s' ∧ nearest_reaper s5 pid r ∧ forest s' ∧ s5 = s1 ∧ given_away s5 pid r s') as Hend.
  { intros s4 H4. exists s4, r, s1. assert (tree_eq s2 s4) as H24 by (by etrans). split_and!; [done|done|by rewrite <- H24|done|by eapply given_away_te]. }
  clear H2. apply Hend. case_match; [apply te_wake_child_exit|done].
Qed.

Section exit_frame.
Context (s s' : PSys) (Hw : tree_wf s) (pid tid : Z) (p : SigProc) (tasks : list Z).
Context (Hp : procs s !! pid = Some p) (Hin : tid ∈ sp_tasks p).
Context (Htasks : tasks = retain (λ t, bool_decide (is_Some (threads s !! t)) && negb (t =? tid)) (sp_tasks p)).
Context (Hprocs : ∀ i, option_Forall2 (λ q q', sp_tasks q' = (if i =? pid then tasks else sp_tasks q) ∧
  sp_sigtable q' = sp_sigtable q ∧ (i ≠ pid → group_exit_code q' = group_exit_code q)) (procs s !! i) (procs s' !! i)).
Context (Hthreads : ∀ t, th_key <$> threads s' !! t = if t =? tid then None else th_key <$> threads s !! t).
Context (th : SigThread) (Hth : threads s !! tid = Some th) (Hpid : st_pid th = pid).

Lemma exit_thread t th' : threads s' !! t = Some th' →
  t ≠ tid ∧ ∃ th0, threads s !! t = Some th0 ∧ st_pid th' = st_pid th0 ∧ exited th' = exited th0.
Proof using Hthreads.
  intros Ht. specialize (Hthreads t). rewrite Ht in Hthreads. simpl in Hthreads.
  destruct (Z.eqb_spec t tid) as [->|Hne]; [done|]. split; [done|].
  destruct (threads s !! t) as [th0|]; [|done]. simpl in Hthreads. injection Hthreads as ??. eauto.
Qed.
Lemma exit_alive t : t ≠ tid → threads s' !! t = None ↔ threads s !! t = None.
Proof using Hthreads.
  intros Hne. specialize (Hthreads t). rewrite (proj2 (Z.eqb_neq _ _) Hne) in Hthreads.
  destruct (threads s !! t), (threads s' !! t); done.
Qed.

Lemma exit_sys_wf : sys_wf (ps_sig s').
Proof using Hw Hp Htasks Hprocs Hthreads Hpid.
  destruct (tw_sys _ Hw) as [Hl Ho Hn Htb].
  assert (∀ i q', procs s' !! i = Some q' → ∃ q, procs s !! i = Some q ∧
    sp_tasks q' = (if i =? pid then tasks else sp_tasks q) ∧ sp_sigtable q' = sp_sigtable q) as Hback.
  { intros i q' Hq'. specialize (Hprocs i). rewrite Hq' in Hprocs.
    apply Forall2_Some_r in Hprocs as (q & ? & ? & ? & _). eauto. }
  split.
  - intros t th' Ht. change (threads s' !! t = Some th') in Ht. destruct (exit_thread _ _ Ht) as (Hne & th0 & Ht0 & -> & _).
    destruct (Hl _ _ Ht0) as (q & Hq & Hqt). change (procs s !! st_pid th0 = Some q) in Hq.
    specialize (Hprocs (st_pid th0)). rewrite Hq in Hprocs.
    apply Forall2_Some_l in Hprocs as (q' & ? & Hq' & _). exists q'. split; [done|]. rewrite Hq'. destruct (Z.eqb_spec (st_pid th0) pid) as [He|]; [|done].
    rewrite He in Hq. simplify_eq. apply elem_of_retain. split; [done|]. rewrite bool_decide_eq_true_2 by by eexists.
    simpl. by apply negb_true_iff, Z.eqb_neq.
  - intros i q' t th' (q & Hq & Hqt & _)%Hback Hint Ht. destruct (exit_thread _ _ Ht) as (_ & th0 & Ht0 & -> & _).
    apply (Ho i q t th0 Hq); [|done]. rewrite Hqt in Hint. destruct (Z.eqb_spec i pid) as [->|]; [|done].
    simplify_eq. by apply elem_of_retain in Hint as [? _].
  - intros i q' (q & Hq & -> & _)%Hback. destruct (Z.eqb_spec i pid) as [->|]; [|by eapply Hn]. subst tasks.
    by eapply retain_NoDup, Hn.
  - intros i q' (q & Hq & _ & ->)%Hback. by eapply Htb.
Qed.

Lemma exit_exited t th' : threads s' !! t = Some th' → exited th' = false.
Proof using Hw Hthreads. intros (_ & th0 & ? & _ & ->)%exit_thread. by eapply tw_exited. Qed.

(** No other process becomes a zombie. *)
Lemma exit_zombie i : i ≠ pid → zombie s' i = true → zombie s i = true.
Proof using Hw Hprocs Hthreads Hth Hpid.
  intros Hne. unfold zombie. specialize (Hprocs i). destruct (procs s' !! i) as [q'|]; [|done].
  apply Forall2_Some_r in Hprocs as (q & Eq & Ht & _ & Hc). rewrite Eq. unfold all_tasks_exited. rewrite Hc, Ht, (proj2 (Z.eqb_neq _ _) Hne) by done.
  intros [-> Hall]%andb_true_iff. simpl. apply forallb_forall. intros t Hin'. rewrite forallb_forall in Hall. specialize (Hall t Hin').
  split_bools. apply bool_decide_eq_true. apply exit_alive; [|done]. intros ->.
  apply list_elem_of_In in Hin'. apply Hne. rewrite <- Hpid. symmetry. exact (wf_owner _ (tw_sys _ Hw) _ _ _ _ Eq Hin' Hth).
Qed.
End exit_frame.

(** A process whose last thread leaves. *)
Lemma last_thread_tasks s4 s tid tasks l :
  tasks = retain (λ t, bool_decide (is_Some (threads s !! t)) && negb (t =? tid)) l →
  (∀ t, t ≠ tid → th_key <$> threads s4 !! t = th_key <$> threads s !! t) →
  (∀ t th, threads s !! t = Some th → exited th = false) →
  forallb (is_zombie_or_dead s4) tasks = bool_decide (tasks = []).
Proof.
  intros Ht Hth Hne. case_bool_decide as Hnil; [by rewrite Hnil|]. apply not_true_is_false. intros Hall.
  destruct tasks as [|t tasks]; [done|]. simpl in Hall. apply andb_true_iff in Hall as [Hz _].
  assert (t ∈ t :: tasks) as Hin by left. rewrite Ht in Hin. apply elem_of_retain in Hin as [_ Hb].
  apply andb_true_iff in Hb as [[th E]%bool_decide_eq_true Htt%negb_true_iff%Z.eqb_neq]. specialize (Hth t Htt). rewrite E in Hth. unfold is_zombie_or_dead in Hz.
  destruct (threads s4 !! t) as [th4|]; [|done]. simpl in Hth. injection Hth as _ Hx. unfold exited in Hx at 1.
  rewrite Hz in Hx. rewrite (Hne _ _ E) in Hx. done.
Qed.

(** What [leave_group] does. *)
Record left_group (s : PSys) (tid pid : Z) (p : SigProc) (s' : PSys) (tasks : list Z) : Prop := {
  lg_tasks : tasks = retain (λ t, bool_decide (is_Some (threads s !! t)) && negb (t =? tid)) (sp_tasks p);
  lg_procs i : option_Forall2 (λ q q', sp_tasks q' = (if i =? pid then tasks else sp_tasks q) ∧
    sp_sigtable q' = sp_sigtable q ∧ group_exit_code q' = group_exit_code q ∧ sp_ppid q' = sp_ppid q) (procs s !! i) (procs s' !! i);
  lg_ext i : option_Forall2 ext_same (ps_ext s !! i) (ps_ext s' !! i);
  lg_threads t : t ≠ tid → th_key <$> threads s' !! t = th_key <$> threads s !! t;
  lg_pids t : st_pid <$> threads s' !! t = st_pid <$> threads s !! t }.

Lemma leave_group_spec s tid pid p s' tasks : procs s !! pid = Some p →
  leave_group s tid pid p = (s', tasks) → left_group s tid pid p s' tasks.
Proof.
  intros Hp. unfold leave_group. set (s1 := match procs s !! sp_ppid p with Some parent => _ | None => _ end).
  assert (tree_eq s s1) as He1. { subst s1. case_match; [|done]. apply te_foldl. intros. apply te_release_vfork. }
  set (f := λ th : SigThread, with_task th (with_sg_status (st_task th) Zombie)). set (s2 := upd_thread s1 tid f).
  change (threads s2) with (alter f tid (threads s1)).
  assert (∀ t, st_pid <$> alter f tid (threads s1) !! t = st_pid <$> threads s !! t) as Hpids.
  { intros t. rewrite <- (te_pids _ _ _ He1). destruct (decide (t = tid)) as [->|]; [|by rewrite lookup_alter_ne].
    rewrite lookup_alter_eq. by destruct (threads s1 !! tid). }
  intros [= <- Htasks]. rewrite Htasks. set (s3 := upd_proc s2 pid (with_tasks tasks)).
  assert (tree_eq s3 (foldl (wake_sibling tid) s3 tasks)) as He4 by (apply te_foldl; intros; apply te_wake_sibling).
  split.
  - rewrite <- Htasks. apply retain_ext. intros t _. f_equal. apply bool_decide_ext. specialize (Hpids t).
    destruct (alter f tid (threads s1) !! t), (threads s !! t); unfold is_Some; naive_solver.
  - intros i. eapply Forall2_trans; [apply (te_procs _ _ He1 i)| |].
    { eapply Forall2_trans; [|apply (te_procs _ _ He4 i)|].
      - eapply (Forall2_alter (λ i q q', q' = if i =? pid then with_tasks tasks q else q) (with_tasks tasks) pid (procs s1)).
        + intros k a Hk. by rewrite (proj2 (Z.eqb_neq _ _) Hk).
        + intros a _. by rewrite Z.eqb_refl.
      - intros q q1 q2 -> H. exact H. }
    intros q q1 q2 (?&?&?&?&?&?). case_match; intros (?&?&?&?&?&?); simpl in *; split_and!; congruence.
  - intros i. eapply Forall2_trans; [apply (te_ext _ _ He1 i)|apply (te_ext _ _ He4 i)|].
    intros x y z (?&?&?&?) (?&?&?&?). split_and!; congruence.
  - intros t Ht. rewrite (te_threads _ _ He4). change (threads s3) with (alter f tid (threads s1)).
    rewrite lookup_alter_ne by done. apply He1.
  - intros t. rewrite (te_pids _ _ _ He4). apply Hpids.
Qed.

Lemma left_shape s tid pid p s' tasks : left_group s tid pid p s' tasks → shape_eq s s'.
Proof.
  intros [_ Hp Hx _ _]. split; intros i; [destruct (Hp i) as [?? (?&?&?&?)|]|destruct (Hx i) as [?? (?&?&?&?)|]]; by constructor.
Qed.
Lemma left_base s tid pid p s' tasks : left_group s tid pid p s' tasks → procs s !! pid = Some p → sys_base (ps_sig s) → sys_base (ps_sig s').
Proof.
  intros [Ht Hp _ _ Hpid] Hpp. apply sys_base_weaken; [done|]. intros i. specialize (Hp i). unfold procs in *.
  destruct (ss_procs (ps_sig s) !! i) as [q|] eqn:Eq; inversion Hp as [? q' (E1&E2&_)|]; subst; constructor.
  rewrite E1, E2. split; [|done]. destruct (Z.eqb_spec i pid) as [->|]; [|done]. simplify_eq. apply retain_NoDup.
Qed.

(** After the switch the invariant holds again, whichever branch was taken. *)
Lemma drop_thread_wf s s5 tid th p tasks : tree_wf s → threads s !! tid = Some th → procs s !! st_pid th = Some p →
  tasks = retain (λ t, bool_decide (is_Some (threads s !! t)) && negb (t =? tid)) (sp_tasks p) →
  (∀ i, option_Forall2 (λ q q', sp_tasks q' = (if i =? st_pid th then tasks else sp_tasks q) ∧
     sp_sigtable q' = sp_sigtable q ∧ (i ≠ st_pid th → group_exit_code q' = group_exit_code q)) (procs s !! i) (procs s5 !! i)) →
  (∀ t, t ≠ tid → th_key <$> threads s5 !! t = th_key <$> threads s !! t) → forest s5 →
  (∀ i, i ≠ st_pid th → zombie s i = true → children_of s5 i = []) →
  (tasks = [] → children_of s5 (st_pid th) = []) → tree_wf (drop_thread s5 tid).
Proof.
  intros Hw Hth Hp Htasks Hprocs Hthr Hf Hz Hz'. set (s6 := drop_thread s5 tid).
  assert (∀ t, th_key <$> threads s6 !! t = if t =? tid then None else th_key <$> threads s !! t) as Hthr'.
  { intros t. change (threads s6) with (delete tid (threads s5)). destruct (Z.eqb_spec t tid) as [->|Hne].
    - by rewrite lookup_delete_eq.
    - rewrite lookup_delete_ne by done. auto. }
  split.
  - eapply shape_forest; [|done]. split; intros i; [change (procs s6) with (procs s5); destruct (procs s5 !! i)|
      change (ps_ext s6) with (ps_ext s5); destruct (ps_ext s5 !! i)]; by constructor.
  - eapply (exit_sys_wf s s6); eauto.
  - intros t th'. eapply (exit_exited s s6); eauto.
  - intros i Hi. change (children_of s6 i) with (children_of s5 i). destruct (decide (i = st_pid th)) as [->|Hne].
    + apply Hz'. destruct tasks as [|t l] eqn:El; [done|exfalso].
      assert (t ∈ t :: l) as Hin by left. rewrite Htasks in Hin. apply elem_of_retain in Hin as [_ Hb].
      apply andb_true_iff in Hb as [[tht E]%bool_decide_eq_true Htt%negb_true_iff].
      unfold zombie in Hi. change (procs s6) with (procs s5) in Hi. specialize (Hprocs (st_pid th)). rewrite Hp in Hprocs.
      apply Forall2_Some_l in Hprocs as (q & Hq & Hqt & _). rewrite Hq, Z.eqb_refl in *.
      apply andb_true_iff in Hi as [_ Hi]. rewrite Hqt in Hi. simpl in Hi. apply andb_true_iff in Hi as [Hi%bool_decide_eq_true _].
      specialize (Hthr' t). rewrite Hi, Htt, E in Hthr'. done.
    + apply Hz; [done|]. by eapply (exit_zombie s s6 Hw (st_pid th)).
Qed.

Lemma nearest_reaper_live s a r q : nearest_reaper s a r → procs s !! r = Some q → (r = INIT_PID → group_exit_code q = None) →
  group_exit_code q = None.
Proof.
  intros [((_ & p & Hp & Hr) & _)|(-> & _)] Hq Hi; [|auto]. simplify_eq. unfold is_reaper in Hr.
  destruct (ps_ext s !! r); [|done]. by split_bools.
Qed.

(** The processes after the last thread has left. *)
Lemma exited_procs s pid code u r s' s1 : s1 = set_group_exit_code_once (upd_ext s pid (with_usage u)) pid code →
  given_away s1 pid r s' →
  ∀ i, option_Forall2 (λ q q', sp_tasks q' = (if i =? pid then [] else sp_tasks q) ∧ sp_sigtable q' = sp_sigtable q ∧
    (i ≠ pid → group_exit_code q' = group_exit_code q)) (procs s !! i) (procs s' !! i).
Proof.
  intros -> Hg i. eapply Forall2_trans; [|apply (ga_procs _ _ _ _ Hg i)|].
  - eapply (Forall2_alter (λ i q q', sp_tasks q' = sp_tasks q ∧ sp_sigtable q' = sp_sigtable q ∧
      (i ≠ pid → group_exit_code q' = group_exit_code q)) _ pid (procs s)); [done|]. intros a _. by case_match.
  - intros q q1 q2 (?&?&Hc) (?&?&?&?&?&?). split_and!; [case_match; congruence|congruence|]. intros Hi. rewrite <- Hc; done.
Qed.

Lemma children_exit_code s pid code u i :
  children_of (set_group_exit_code_once (upd_ext s pid (with_usage u)) pid code) i = children_of s i.
Proof.
  change (children_of (upd_ext s pid (with_usage u)) i = children_of s i). rewrite children_upd_ext. unfold children_of.
  destruct (Z.eqb_spec i pid) as [->|]; [by destruct (ps_ext s !! pid)|done].
Qed.

Lemma live_not_zombie s i : (∀ q, procs s !! i = Some q → group_exit_code q = None) → zombie s i = false.
Proof.
  intros H. unfold zombie, all_tasks_exited. destruct (procs s !! i) as [q|] eqn:E; [|done].
  by rewrite (H q), bool_decide_eq_false_2 by (done || intros []; done).
Qed.
Lemma drop_thread_narrows s s5 tid pid p tasks : procs s !! pid = Some p → (∀ t, t ∈ tasks → t ∈ sp_tasks p) →
  (∀ i, option_Forall2 (λ q q', sp_tasks q' = (if i =? pid then tasks else sp_tasks q) ∧
     sp_sigtable q' = sp_sigtable q ∧ (i ≠ pid → group_exit_code q' = group_exit_code q)) (procs s !! i) (procs s5 !! i)) →
  (∀ t, t ≠ tid → th_key <$> threads s5 !! t = th_key <$> threads s !! t) → narrows s (drop_thread s5 tid).
Proof.
  intros Hp Hsub Hprocs Hthr. split.
  - intros i q' Hq'. change (procs s5 !! i = Some q') in Hq'. specialize (Hprocs i). rewrite Hq' in Hprocs.
    apply Forall2_Some_r in Hprocs as (q & Hq & Ht & _). exists q. split; [done|]. rewrite Ht.
    destruct (Z.eqb_spec i pid) as [->|]; [|done]. by simplify_eq.
  - intros t [th Hth]. change (delete tid (threads s5) !! t = Some th) in Hth. apply lookup_delete_Some in Hth as [Hne Hth].
    specialize (Hthr t (not_eq_sym Hne)). rewrite Hth in Hthr. destruct (threads s !! t); [by eexists|done].
Qed.

Lemma exit_keeps s tid th code rss : tree_wf s → threads s !! tid = Some th → st_pid th ≠ INIT_PID →
  ∃ s', exit_current_and_run_next s tid code rss = Done s' ∧ tree_wf s' ∧ narrows s s'.
Proof.
  intros Hw Hth Hne. destruct (wf_listed _ (tw_sys _ Hw) _ _ Hth) as (p & Hp & Hin).
  change (procs s !! st_pid th = Some p) in Hp. unfold exit_current_and_run_next. rewrite Hth. cbn [unwrap mbind comp_bind].
  rewrite Hp. cbn [unwrap mbind comp_bind]. destruct (leave_group s tid (st_pid th) p) as [s4 tasks] eqn:Hlg.
  apply leave_group_spec in Hlg; [|done]. assert (∀ t, t ∈ tasks → t ∈ sp_tasks p) as Hsub.
  { intros t. rewrite (lg_tasks _ _ _ _ _ _ Hlg). by intros [? _]%elem_of_retain. }
  pose proof (left_shape _ _ _ _ _ _ Hlg) as Hsh.
  pose proof (shape_forest _ _ Hsh Hw) as Hf4. pose proof (left_base _ _ _ _ _ _ Hlg Hp (tw_sys _ Hw)) as Hb4.
  destruct Hlg as [Htasks Hprocs _ Hthr _].
  rewrite (last_thread_tasks s4 s tid tasks (sp_tasks p) Htasks Hthr (tw_exited _ Hw)). case_bool_decide as Hnil.
  - pose proof (Hprocs (st_pid th)) as Hp4. rewrite Hp in Hp4. apply Forall2_Some_l in Hp4 as (p4 & Hp4 & _).
    destruct (exit_process_done s4 tid (st_pid th) p4 code rss Hf4 Hb4 Hp4 Hne) as (s5 & r & s1 & -> & Hr & Hf5 & Hs1 & Hg).
    assert (∀ i, option_Forall2 (λ q q', sp_tasks q' = (if i =? st_pid th then tasks else sp_tasks q) ∧
      sp_sigtable q' = sp_sigtable q ∧ (i ≠ st_pid th → group_exit_code q' = group_exit_code q)) (procs s !! i) (procs s5 !! i)) as Hp5.
    { intros i. eapply Forall2_trans; [apply (Hprocs i)|apply (exited_procs _ _ _ _ _ _ _ Hs1 Hg i)|].
      intros q q1 q2 (?&?&?&?) (?&?&Hc). rewrite Hnil in *. split_and!; [|congruence|intros Hi; rewrite Hc; done].
      destruct (i =? st_pid th); congruence. }
    assert (∀ t, t ≠ tid → th_key <$> threads s5 !! t = th_key <$> threads s !! t) as Ht5.
    { intros t Ht. rewrite (ga_threads _ _ _ _ Hg t). subst s1. by apply Hthr. }
    cbn [mbind comp_bind]. eexists. split; [done|]. split; [|by eapply drop_thread_narrows].
    eapply (drop_thread_wf s s5 tid th p tasks); try done.
    + intros i Hi Hz. rewrite (ga_children _ _ _ _ Hg i), (proj2 (Z.eqb_neq _ _) Hi). subst s1.
      destruct (Z.eqb_spec i r) as [->|].
      * exfalso. revert Hz. eapply not_true_iff_false, live_not_zombie. intros q Hq.
        pose proof (Hprocs r) as H4. rewrite Hq in H4. apply Forall2_Some_l in H4 as (q4 & Hq4 & _ & _ & <- & _).
        apply (nearest_reaper_live _ _ _ _ Hr).
        -- by rewrite <- Hq4; apply lookup_alter_ne.
        -- intros ->. destruct (fo_init _ Hf4) as (? & ? & ?). by simplify_eq.
      * rewrite children_exit_code, (shape_children _ _ _ Hsh). by apply (tw_zombie _ Hw).
    + intros _. by rewrite (ga_children _ _ _ _ Hg), Z.eqb_refl.
  - assert (∀ i, option_Forall2 (λ q q', sp_tasks q' = (if i =? st_pid th then tasks else sp_tasks q) ∧
      sp_sigtable q' = sp_sigtable q ∧ (i ≠ st_pid th → group_exit_code q' = group_exit_code q)) (procs s !! i) (procs s4 !! i)) as Hp4.
    { intros i. destruct (Hprocs i) as [?? (?&?&?&_)|]; by constructor. }
    cbn [mbind comp_bind]. eexists. split; [done|]. split; [|by eapply drop_thread_narrows].
    eapply (drop_thread_wf s s4 tid th p tasks); try done.
    intros i _ Hz. rewrite (shape_children _ _ _ Hsh). by apply (tw_zombie _ Hw).
Qed.

(** ** Wait *)

(** A zombie [child] of [pid] is gone from the tables. *)
Record reaped (s : PSys) (pid child : Z) (s' : PSys) : Prop := {
  rp_procs : procs s' = delete child (procs s);
  rp_children i : children_of s' i =
    if i =? child then [] else retain (λ c, negb ((i =? pid) && (c =? child))) (children_of s i);
  rp_ext i : i ≠ child → option_Forall2 (λ x x', px_exit_signal x' = px_exit_signal x ∧ px_subreaper x' = px_subreaper x ∧
    px_usage x' = px_usage x ∧ px_stopped x' = px_stopped x) (ps_ext s !! i) (ps_ext s' !! i);
  rp_gone : ps_ext s' !! child = None;
  rp_threads : threads s' = threads s }.

Lemma delete_position (l : list Z) c i : NoDup l → position (λ p, p =? c) l = Some i →
  delete i l = retain (λ p, negb (p =? c)) l.
Proof.
  revert i. induction l as [|x l IH]; intros i Hnd; simpl; [done|].
  apply NoDup_cons in Hnd as [Hx Hnd]. destruct (Z.eqb_spec x c) as [->|Hne].
  - intros [= <-]. simpl. rewrite retain_all; [done|]. intros y Hy. apply negb_true_iff, Z.eqb_neq. by intros ->.
  - intros (j & Hj & ->)%fmap_Some. simpl. f_equal. by apply IH.
Qed.

Lemma position_ext {A} (p q : A → bool) l : (∀ x, x ∈ l → p x = q x) → position p l = position q l.
Proof.
  induction l as [|x l IH]; intros H; simpl; [done|]. rewrite (H x) by left. rewrite IH; [done|].
  intros y Hy. apply H. by right.
Qed.

Lemma child_ne s pid c : forest s → c ∈ children_of s pid → c ≠ pid ∧ c ≠ INIT_PID.
Proof.
  intros Hf Hc. destruct (fo_child _ Hf _ _ Hc) as (q & Hq & Hqp). pose proof (fo_order _ Hf _ _ Hq). split; [lia|].
  intros ->. unfold INIT_PID in *. assert (pid = 0) as -> by lia. unfold children_of in Hc.
  destruct (ps_ext s !! 0) eqn:E; [|set_solver]. destruct (proj1 (fo_ext _ Hf 0)) as [p0 Hp0]; [by eexists|].
  pose proof (fo_order _ Hf _ _ Hp0). lia.
Qed.

Lemma reap_done s cur pid child options ret {U} (st : option U) : forest s → child ∈ children_of s pid →
  ∃ s', reap s cur pid child options ret st = Done (s', PollReady (Ok ret, st)) ∧
    (if contains options WNOWAIT then s' = s else reaped s pid child s').
Proof.
  intros Hf Hc. destruct (fo_alive_child _ _ _ Hf Hc) as [q Hq]. unfold reap.
  destruct (proj2 (fo_ext _ Hf child)) as [x Hx]; [by eexists|]. rewrite Hx. cbn [unwrap mbind comp_bind].
  destruct (contains options WNOWAIT); [by eexists|]. unfold remove_child_from_parent.
  rewrite (position_ext _ (λ p, p =? child)).
  2:{ intros c Hcc. rewrite bool_decide_eq_true_2; [by rewrite andb_true_r|]. by eapply fo_alive_child. }
  destruct (position (λ p, p =? child) (children_of s pid)) as [i|] eqn:Epos.
  2:{ pose proof (proj1 (position_None _ _) Epos child Hc) as Hn. cbn in Hn. by rewrite Z.eqb_refl in Hn. }
  apply delete_position in Epos; [|by apply (fo_nodup _ Hf)].
  unfold remove_from_global_map. cbn [negb]. set (s1 := upd_time _ _ _).
  change (procs s1) with (procs s). rewrite Hq. cbn [unwrap mbind comp_bind]. eexists. split; [done|].
  destruct (child_ne _ _ _ Hf Hc) as [Hne _].
  assert (∀ i, i ≠ child → ps_ext s1 !! i = (if i =? pid then with_children (retain (λ p, negb (p =? child)) (children_of s pid)) else id) <$> ps_ext s !! i) as Hx1.
  { intros k Hk. change (ps_ext s1) with (alter (λ x, with_children (delete i (px_children x)) x) pid (ps_ext s)).
    destruct (Z.eqb_spec k pid) as [->|]; [|rewrite lookup_alter_ne by done; by destruct (ps_ext s !! k)].
    rewrite lookup_alter_eq. unfold children_of in Epos. unfold children_of. destruct (ps_ext s !! pid); [|done]. simpl. by rewrite Epos. }
  set (s2 := mkPSys _ _ _). assert (ps_ext s2 = delete child (ps_ext s1)) as Hx2 by done.
  split; [done| | | |done]; clearbody s1.
  - intros k. unfold children_of at 1. rewrite Hx2. destruct (Z.eqb_spec k child) as [->|Hk]; [by rewrite lookup_delete_eq|].
    rewrite lookup_delete_ne, Hx1 by done. unfold children_of.
    destruct (Z.eqb_spec k pid) as [->|]; [by destruct (ps_ext s !! pid)|].
    destruct (ps_ext s !! k); simpl; by rewrite ?retain_all.
  - intros k Hk. rewrite Hx2, lookup_delete_ne, Hx1 by done.
    destruct (ps_ext s !! k); simpl; constructor. by destruct (k =? pid).
  - by rewrite Hx2, lookup_delete_eq.
Qed.

Lemma reaped_wf s pid child s' : tree_wf s → child ∈ children_of s pid → zombie s child = true → reaped s pid child s' → tree_wf s'.
Proof.
  intros Hw Hc Hz [Hp Hch Hx Hgone Ht]. destruct (child_ne _ _ _ Hw Hc) as [Hne Hni].
  assert (∀ i q, procs s' !! i = Some q ↔ procs s !! i = Some q ∧ i ≠ child) as Hp'.
  { intros i q. rewrite Hp, lookup_delete_Some. naive_solver. }
  assert (∀ t th, threads s !! t = Some th → st_pid th ≠ child) as Hno.
  { intros t th Hth Heq. destruct (wf_listed _ (tw_sys _ Hw) _ _ Hth) as (q & Hq & Hin). unfold zombie in Hz.
    change (procs s !! st_pid th = Some q) in Hq. rewrite Heq in Hq. rewrite Hq in Hz.
    apply andb_true_iff in Hz as [_ Hall]. rewrite forallb_forall in Hall. apply list_elem_of_In in Hin.
    apply Hall, bool_decide_eq_true in Hin. congruence. }
  split.
  - split.
    + intros i. rewrite Hp. destruct (decide (i = child)) as [->|Hi]; [by rewrite Hgone, lookup_delete_eq|].
      rewrite lookup_delete_ne by done. pose proof (fo_ext _ Hw i) as Hxi. destruct (Hx i Hi); unfold is_Some in *; naive_solver.
    + destruct (fo_init _ Hw) as (pi & ? & ?). exists pi. rewrite Hp'. done.
    + intros i q [Hq _]%Hp'. by eapply (fo_order _ Hw).
    + intros i c. rewrite Hch. destruct (i =? child); [by intros ?%elem_of_nil|].
      intros [Hin Hb]%elem_of_retain. destruct (fo_child _ Hw _ _ Hin) as (q & Hq & <-). exists q. split; [|done].
      apply Hp'. split; [done|]. intros ->. destruct (fo_child _ Hw _ _ Hc) as (q' & Hq' & Hqp). simplify_eq.
      by rewrite !Z.eqb_refl in Hb.
    + intros c q [Hq Hcc]%Hp' Hc1. pose proof (fo_parent _ Hw _ _ Hq Hc1) as Hin. rewrite Hch.
      destruct (Z.eqb_spec (sp_ppid q) child) as [Heq|].
      { rewrite Heq, (tw_zombie _ Hw _ Hz) in Hin. by apply elem_of_nil in Hin. }
      apply elem_of_retain. split; [done|]. by rewrite (proj2 (Z.eqb_neq c child)), andb_false_r.
    + intros i. rewrite Hch. destruct (i =? child); [constructor|]. apply retain_NoDup, (fo_nodup _ Hw).
    + intros i x' Hx'. destruct (decide (i = child)) as [->|Hi]; [congruence|]. specialize (Hx i Hi). rewrite Hx' in Hx.
      apply Forall2_Some_r in Hx as (x & Hxi & -> & _). by eapply (fo_signal _ Hw).
  - destruct (tw_sys _ Hw) as [Hl Ho Hn Htb]. split; unfold threads, procs in *.
    + intros t th Hth. rewrite Ht in Hth. destruct (Hl _ _ Hth) as (q & Hq & Hin). exists q. split; [|done].
      apply Hp'. split; [done|]. by eapply Hno.
    + intros i q t th [Hq _]%Hp' Hin Hth. rewrite Ht in Hth. eauto.
    + intros i q [Hq _]%Hp'. eauto.
    + intros i q [Hq _]%Hp'. eauto.
  - intros t th Hth. rewrite Ht in Hth. by eapply tw_exited.
  - intros i Hzi. rewrite Hch. destruct (Z.eqb_spec i child) as [|Hi]; [done|]. unfold zombie, all_tasks_exited in Hzi.
    rewrite Hp, lookup_delete_ne, Ht in Hzi by done. by rewrite (tw_zombie _ Hw i).
Qed.

Lemma waitable_te s s' w o c : tree_eq s s' → waitable s' w o c = waitable s w o c.
Proof.
  intros He. unfold waitable. pose proof (te_procs _ _ He c) as Hp. pose proof (te_ext _ _ He c) as Hx.
  destruct Hp as [p p' (_&Hg&_)|]; [|done]. destruct Hx as [x x' (_&_&->&_)|]; [|done].
  f_equal. destruct w; simpl; by rewrite ?Hg.
Qed.

(** The children of a process by the parent pointers. *)
Definition child_of (s : PSys) (pid c : Z) : Prop := ∃ q, procs s !! c = Some q ∧ sp_ppid q = pid.

Lemma children_pointers s pid c : forest s → is_Some (procs s !! pid) → c ∈ children_of s pid ↔ child_of s pid c.
Proof.
  intros Hf [p Hp]. split; [apply (fo_child _ Hf)|]. intros (q & Hq & <-). apply (fo_parent _ Hf); [done|].
  intros ->. pose proof (fo_order _ Hf _ _ Hq). pose proof (fo_order _ Hf _ _ Hp). unfold INIT_PID in *. lia.
Qed.

Lemma head_retain {A} (p : A → bool) l x : head (retain p l) = Some x → x ∈ l ∧ p x = true.
Proof.
  intros H. apply elem_of_retain. destruct (retain p l); [done|]. injection H as ->. by left.
Qed.
Lemma head_retain_None {A} (p : A → bool) l : head (retain p l) = None → ∀ x, x ∈ l → p x = false.
Proof.
  intros H x Hx. apply not_true_is_false. intros Hp. assert (x ∈ retain p l) as Hin by by apply elem_of_retain.
  destruct (retain p l); [by apply elem_of_nil in Hin|done].
Qed.

Lemma first_stopped_spec s l c sig : first_stopped s l = Some (c, sig) →
  ∃ x, c ∈ l ∧ ps_ext s !! c = Some x ∧ px_stopped x = Some sig.
Proof.
  unfold first_stopped. induction l as [|d l IH]; simpl; [done|]. destruct (ps_ext s !! d) as [x|] eqn:Ex; simpl.
  - destruct (px_stopped x) as [n|] eqn:En; simpl; [intros [= -> ->]; eauto using list_elem_of_here|].
    intros (y & ? & ?)%IH. exists y. split; [by right|done].
  - intros (y & ? & ?)%IH. exists y. split; [by right|done].
Qed.

(** What one poll of [waitpid] by a thread of [pid] may do. *)
Inductive wait_case (s : PSys) (pid : Z) (w : WaitPid) (o : Z) (wstatus copy_ok : bool) : PSys → WaitRet Z → Prop :=
| wc_nobody s' :
    (∀ c, child_of s pid c → waitable s w o c = false) → tree_eq s s' →
    wait_case s pid w o wstatus copy_ok s' (PollReady (Err ECHILD, None))
| wc_stopped c x sig s' :
    child_of s pid c → waitable s w o c = true → ps_ext s !! c = Some x → px_stopped x = Some sig → intersects o WUNTRACED = true →
    tree_eq s s' → (∀ x', ps_ext s' !! c = Some x' → px_stopped x' = None) → (wstatus = true → copy_ok = true) →
    wait_case s pid w o wstatus copy_ok s' (PollReady (Ok c, if wstatus then Some (stop_status sig) else None))
| wc_zombie c q code s' :
    child_of s pid c → waitable s w o c = true → zombie s c = true → procs s !! c = Some q → group_exit_code q = Some code →
    (if contains o WNOWAIT then tree_eq s s' else ∃ s1, tree_eq s s1 ∧ reaped s1 pid c s') → (wstatus = true → copy_ok = true) →
    wait_case s pid w o wstatus copy_ok s'
      (PollReady (Ok c, if wstatus then Some (wait_status_from_exit_code code (termination_signal q)) else None))
| wc_fault s' : wstatus = true → copy_ok = false → tree_eq s s' →
    wait_case s pid w o wstatus copy_ok s' (PollReady (Err EFAULT, None))
| wc_quiet s' r :
    (∃ c, child_of s pid c ∧ waitable s w o c = true) →
    (∀ c, child_of s pid c → waitable s w o c = true → zombie s c = false) → tree_eq s s' →
    (if contains o WNOHANG then r = PollReady (Ok 0, None)
     else r = PollPending ∨ r = PollReady (Err EINTR, None) ∨ r = PollReady (Err ERESTART, None)) →
    wait_case s pid w o wstatus copy_ok s' r.

Lemma wait_nothing_done {U} s cur th pid p : threads s !! cur = Some th → procs s !! pid = Some p →
  length (sp_sigtable p) = Z.to_nat (SIG_MAX_NUM + 1) →
  0 ≤ sig_pending (st_task th) → (∀ i, sig_in i (sig_pending (st_task th)) = true → 1 ≤ i ≤ 33) →
  ∃ s' (r : WaitRet U), wait_nothing s cur pid = Done (s', r) ∧ tree_eq s s' ∧
    (r = PollPending ∨ r = PollReady (Err EINTR, None) ∨ r = PollReady (Err ERESTART, None)).
Proof.
  intros Hth Hp Htb Hpos Hpend. unfold wait_nothing. rewrite Hth. cbn [unwrap mbind comp_bind].
  destruct (check_if_any_sig (st_task th)) as [signo|] eqn:Es; [|eexists _, _; split; [done|split; [reflexivity|auto]]].
  unfold check_if_any_sig in Es. apply peek_front_Some in Es as [Hbit _]; [|by apply remove_nonneg].
  rewrite testbit_remove in Hbit. apply andb_true_iff in Hbit as [Hbit _]. apply Hpend in Hbit.
  unfold wait_pending_signal_errno. rewrite Hp. cbn [unwrap mbind comp_bind]. rewrite from_sig_low by lia. cbn [mbind comp_bind].
  destruct (sigtable_action_done (sp_sigtable p) signo Htb) as [a ->]; [unfold SIG_MAX_NUM; lia|]. cbn [mbind comp_bind].
  destruct (_ || _); cbn [mbind comp_bind].
  - eexists _, _. split; [done|]. split; [|auto]. by apply te_upd_thread.
  - destruct (contains _ SA_RESTART); cbn [mbind comp_bind]; eexists _, _; (split; [done|split; [reflexivity|auto]]).
Qed.

Lemma ext_registered s pid f c x :
  ps_ext (upd_ext s pid (λ x, with_event (f x) x)) !! c = Some x → ∃ x0, ps_ext s !! c = Some x0 ∧ px_stopped x0 = px_stopped x.
Proof.
  change (ps_ext (upd_ext s pid _)) with (alter (λ x, with_event (f x) x) pid (ps_ext s)).
  rewrite lookup_alter_Some. intros [(-> & y & -> & ->)|(_ & ->)]; eauto.
Qed.
Lemma zombie_code s c : zombie s c = true → ∃ q code, procs s !! c = Some q ∧ group_exit_code q = Some code.
Proof.
  unfold zombie. destruct (procs s !! c) as [q|]; [|done]. intros [[code Hc]%bool_decide_eq_true _]%andb_true_iff. eauto.
Qed.

Lemma waitpid_case s cur th w o wstatus copy_ok : tree_wf s → threads s !! cur = Some th →
  0 ≤ sig_pending (st_task th) → (∀ i, sig_in i (sig_pending (st_task th)) = true → 1 ≤ i ≤ 33) →
  ∃ s' r, waitpid_poll s cur w o wstatus copy_ok = Done (s', r) ∧ wait_case s (st_pid th) w o wstatus copy_ok s' r.
Proof.
  intros Hw Hth Hpos Hpend. unfold waitpid_poll. rewrite Hth. cbn [unwrap mbind comp_bind]. set (pid := st_pid th) in *.
  destruct (wf_listed _ (tw_sys _ Hw) _ _ Hth) as (p & Hp & _). change (procs s !! pid = Some p) in Hp.
  set (s1 := upd_ext s pid _). assert (tree_eq s s1) as He1 by (apply te_upd_ext; intros; by repeat split).
  assert (forest s1) as Hf1 by (rewrite <- He1; apply Hw). rewrite upgraded_children by done.
  rewrite (te_children _ _ _ He1). set (l := retain _ (children_of s pid)).
  assert (∀ c, c ∈ l ↔ child_of s pid c ∧ waitable s w o c = true) as Hl.
  { intros c. unfold l. rewrite elem_of_retain, (waitable_te _ _ _ _ _ He1), (children_pointers s pid c (tw_forest _ Hw)) by by eexists. done. }
  case_bool_decide as Hnil.
  { eexists _, _. split; [done|]. apply wc_nobody; [|done]. intros c Hc. apply not_true_is_false. intros Hwt.
    assert (c ∈ l) as Hin by by apply Hl. rewrite Hnil in Hin. by apply elem_of_nil in Hin. }
  destruct (if intersects o (Z.lor WUNTRACED WSTOPPED) then first_stopped s1 l else None) as [[c sig]|] eqn:Est.
  { destruct (intersects o (Z.lor WUNTRACED WSTOPPED)) eqn:Eo; [|done].
    apply first_stopped_spec in Est as (x & Hin & Hx & Hs). apply Hl in Hin as [Hc Hwt].
    destruct (ext_registered _ _ _ _ _ Hx) as (x0 & Hx0 & Hs0). rewrite Hs in Hs0.
    assert (tree_eq s (upd_ext s1 c (with_stopped None))) as He2 by (etrans; [exact He1|]; apply te_upd_ext; by repeat split).
    assert (∀ x', ps_ext (upd_ext s1 c (with_stopped None)) !! c = Some x' → px_stopped x' = None) as Hcl.
    { intros x'. change (ps_ext (upd_ext s1 c _)) with (alter (with_stopped None) c (ps_ext s1)). rewrite lookup_alter_eq, Hx.
      by intros [= <-]. }
    assert ((wstatus = true → copy_ok = true) → wait_case s pid w o wstatus copy_ok (upd_ext s1 c (with_stopped None))
      (PollReady (Ok c, if wstatus then Some (stop_status sig) else None))) as Hst by (intros; by eapply wc_stopped).
    unfold stored_at. destruct wstatus, copy_ok; cbn [negb]; eexists _, _; (split; [done|]); first [by apply wc_fault|by apply Hst]. }
  destruct (first_zombie s1 l) as [c|] eqn:Ez.
  { apply head_retain in Ez as [Hin Hz]. assert (c ∈ children_of s1 pid) as Hch by (rewrite (te_children _ _ _ He1); by apply elem_of_retain in Hin as [? _]).
    apply Hl in Hin as [Hc Hwt]. destruct (zombie_code _ _ Hz) as (q1 & code & Hq1 & Hcode). rewrite Hq1. cbn [unwrap mbind comp_bind].
    rewrite Hcode. cbn [unwrap mbind comp_bind]. change (procs s !! c = Some q1) in Hq1. rewrite (te_zombie _ _ _ He1) in Hz.
    assert (∀ st : option Z, (wstatus = true → copy_ok = true) →
      st = (if wstatus then Some (wait_status_from_exit_code code (termination_signal q1)) else None) →
      ∃ s' r, reap s1 cur pid c o c st = Done (s', r) ∧ wait_case s pid w o wstatus copy_ok s' r) as Hreap.
    { intros st Hcp Hst. destruct (reap_done s1 cur pid c o c st Hf1 Hch) as (s' & -> & Hr).
      eexists _, _. split; [done|]. rewrite Hst. eapply wc_zombie; [done..| |done]. destruct (contains o WNOWAIT); [by subst|by exists s1]. }
    unfold stored_at. destruct wstatus, copy_ok; cbn [negb]; first [by apply Hreap|eexists _, _; split; [done|]; by apply wc_fault]. }
  pose proof (head_retain_None _ _ Ez) as Hnoz.
  assert (∃ c, child_of s pid c ∧ waitable s w o c = true) as Hex.
  { destruct l as [|c l']; [done|]. exists c. apply Hl. by left. }
  assert (∀ c, child_of s pid c → waitable s w o c = true → zombie s c = false) as Hall.
  { intros c Hc Hwt. rewrite <- (te_zombie _ _ _ He1). apply Hnoz, Hl. done. }
  destruct (contains o WNOHANG) eqn:Eh.
  { eexists _, _. split; [done|]. apply wc_quiet; [done|done|done|]. by rewrite Eh. }
  destruct (wait_nothing_done (U := Z) s1 cur th pid p Hth Hp (sb_table _ (tw_sys _ Hw) _ _ Hp) Hpos Hpend) as (s' & r & -> & He2 & Hr).
  eexists _, _. split; [done|]. apply wc_quiet; [done|done|by etrans|]. by rewrite Eh.
Qed.

Lemma reaped_narrows s pid child s' : reaped s pid child s' → narrows s s'.
Proof.
  intros [Hp _ _ _ Ht]. split; [|by rewrite Ht]. intros i p'. rewrite Hp, lookup_delete_Some. intros [_ ?]. by exists p'.
Qed.

Lemma wait_case_wf s pid w o wstatus copy_ok s' r : tree_wf s → is_Some (procs s !! pid) →
  wait_case s pid w o wstatus copy_ok s' r → tree_wf s' ∧ narrows s s'.
Proof.
  intros Hw Hpid Hc. inversion Hc as [? _ He|???? _ _ _ _ _ He|c q code ? Hch _ Hz _ _ Hr _|? _ _ He|?? _ _ He]; subst;
    try (split; [by rewrite <- He|by apply tree_eq_narrows]).
  destruct (contains o WNOWAIT); [split; [by rewrite <- Hr|by apply tree_eq_narrows]|]. destruct Hr as (s1 & He & Hr).
  split; [|eapply narrows_trans; [by apply tree_eq_narrows|by eapply reaped_narrows]].
  eapply (reaped_wf s1); [by rewrite <- He| | |done].
  - rewrite (te_children _ _ _ He). by apply children_pointers; [apply tw_forest|..].
  - by rewrite (te_zombie _ _ _ He).
Qed.

(** ** Fork *)

Record forked (s : PSys) (ppid n e : Z) (sid pgid : Z) (s' : PSys) : Prop := {
  fk_procs : ∃ tbl, procs s' = <[n := mkSigProc sid pgid ppid [n] tbl None None None]> (procs s) ∧
    length tbl = Z.to_nat (SIG_MAX_NUM + 1);
  fk_children i : children_of s' i = if i =? n then [] else if i =? ppid then children_of s i ++ [n] else children_of s i;
  fk_ext i : i ≠ n → option_Forall2 (λ x x', px_exit_signal x' = px_exit_signal x ∧ px_subreaper x' = px_subreaper x)
    (ps_ext s !! i) (ps_ext s' !! i);
  fk_new : ∃ x, ps_ext s' !! n = Some x ∧ px_exit_signal x = e ∧ px_subreaper x = false;
  fk_threads t : t ≠ n → th_key <$> threads s' !! t = th_key <$> threads s !! t;
  fk_thread : ∃ th, threads s' !! n = Some th ∧ th_key th = (n, false) }.

Lemma fork_done s cur me p n flags e : tree_wf s → threads s !! cur = Some me → procs s !! st_pid me = Some p →
  fresh_id s n → (contains flags CLONE_PARENT = true → st_pid me ≠ INIT_PID) → exited me = false →
  ∃ s', fork_process s cur n flags e = Done s' ∧
    forked s (if contains flags CLONE_PARENT then sp_ppid p else st_pid me) n e (sp_sid p) (sp_pgid p) s'.
Proof.
  intros Hw Hme Hp (Hn1 & Hfp & Hft) Hpar Hex. unfold fork_process. rewrite Hme. cbn [unwrap mbind comp_bind].
  rewrite Hp. cbn [unwrap mbind comp_bind]. set (ppid := if contains flags CLONE_PARENT then _ else _).
  set (tbl := if contains flags CLONE_CLEAR_SIGHAND then _ else _).
  assert (length tbl = Z.to_nat (SIG_MAX_NUM + 1)) as Htbl.
  { unfold tbl. destruct (contains flags CLONE_CLEAR_SIGHAND); [done|]. exact (sb_table _ (tw_sys _ Hw) _ _ Hp). }
  assert (is_Some (procs s !! ppid) ∧ ppid ≠ 0) as [[pp Hpp] Hpp0].
  { unfold ppid. destruct (contains flags CLONE_PARENT).
    - pose proof (fo_parent _ Hw _ _ Hp (Hpar eq_refl)) as Hin. unfold children_of in Hin.
      destruct (ps_ext s !! sp_ppid p) eqn:Ex; [|by apply elem_of_nil in Hin].
      destruct (proj1 (fo_ext _ Hw (sp_ppid p))) as [q Hq]; [by eexists|]. split; [by eexists|].
      pose proof (fo_order _ Hw _ _ Hq). lia.
    - split; [by eexists|]. pose proof (fo_order _ Hw _ _ Hp). lia. }
  clearbody ppid. destruct (Hfp _ _ Hpp) as [Hlt _].
  assert (procs s !! n = None) as Hpn. { destruct (procs s !! n) eqn:E; [|done]. destruct (Hfp _ _ E). lia. }
  assert (ps_ext s !! n = None) as Hxn.
  { apply eq_None_not_Some. intros Hx%(fo_ext _ Hw). rewrite Hpn in Hx. by destruct Hx. }
  assert (threads s !! n = None) as Htn. { apply eq_None_not_Some. intros Hx%Hft. lia. }
  destruct (proj2 (fo_ext _ Hw ppid)) as [px Hpx]; [by eexists|].
  unfold process_new. rewrite (proj2 (Z.eqb_neq _ _) Hpp0), bool_decide_eq_true_2 by by eexists. cbn [negb andb].
  eexists. split; [done|]. set (s' := add_ready _ _).
  set (f := λ x, if existsb (λ p, p =? n) (upgraded s (px_children x)) then x else with_children (px_children x ++ [n]) x).
  assert (ps_ext s' = alter (with_exit_signal e) n (alter f ppid (<[n := new_ext]> (ps_ext s)))) as Hx' by (subst s'; by case_match).
  assert (procs s' = alter (with_tasks [n]) n (<[n := mkSigProc (sp_sid p) (sp_pgid p) ppid [] tbl None None None]> (procs s))) as Hp'
    by (subst s'; by case_match).
  assert (threads s' = <[n := child_thread me n flags]> (if contains flags CLONE_VFORK then alter (vfork_block n) cur (threads s) else threads s)) as Ht'
    by (subst s'; by case_match).
  assert (f px = with_children (px_children px ++ [n]) px) as Hfpx.
  { unfold f. rewrite existsb_none; [done|]. intros c [_ Hc%bool_decide_eq_true]%elem_of_retain. apply Z.eqb_neq. intros ->. rewrite Hpn in Hc. by destruct Hc. }
  clearbody s'. split.
  - exists tbl. split; [|done]. rewrite Hp'. apply map_eq. intros i. destruct (decide (i = n)) as [->|].
    + by rewrite lookup_alter_eq, !lookup_insert_eq.
    + by rewrite lookup_alter_ne, !lookup_insert_ne.
  - intros i. unfold children_of. rewrite Hx'. destruct (Z.eqb_spec i n) as [->|Hin].
    + by rewrite lookup_alter_eq, lookup_alter_ne, lookup_insert_eq by lia.
    + rewrite lookup_alter_ne by done. destruct (Z.eqb_spec i ppid) as [->|].
      * rewrite lookup_alter_eq, lookup_insert_ne, Hpx by done. simpl. by rewrite Hfpx.
      * by rewrite lookup_alter_ne, lookup_insert_ne.
  - intros i Hi. rewrite Hx', lookup_alter_ne by done. destruct (decide (i = ppid)) as [->|].
    + rewrite lookup_alter_eq, lookup_insert_ne, Hpx by done. simpl. rewrite Hfpx. by constructor.
    + rewrite lookup_alter_ne, lookup_insert_ne by done. destruct (ps_ext s !! i); by constructor.
  - exists (with_exit_signal e new_ext). by rewrite Hx', lookup_alter_eq, lookup_alter_ne, lookup_insert_eq by lia.
  - intros t Ht. rewrite Ht', lookup_insert_ne by done. destruct (contains flags CLONE_VFORK); [|done].
    destruct (decide (t = cur)) as [->|]; [|by rewrite lookup_alter_ne]. rewrite lookup_alter_eq, Hme. simpl. unfold th_key. by rewrite Hex.
  - exists (child_thread me n flags). by rewrite Ht', lookup_insert_eq.
Qed.

Lemma children_pointers_dom s pid c : forest s → c ∈ children_of s pid → is_Some (procs s !! pid).
Proof.
  intros Hf Hc. apply (fo_ext _ Hf). unfold children_of in Hc. destruct (ps_ext s !! pid); [by eexists|]. by apply elem_of_nil in Hc.
Qed.

Lemma forked_forest s ppid n e sid pgid s' : tree_wf s → fresh_id s n → is_Some (procs s !! ppid) →
  (e = -1 ∨ 1 ≤ e ≤ SIG_MAX_NUM) → forked s ppid n e sid pgid s' → forest s'.
Proof.
  intros Hw (Hn1 & Hfp & _) [pp Hpp] He [(tbl & Hp & _) Hc Hx (xn & Hxn & Hxe & _) _ _].
  assert (procs s !! n = None) as Hpn. { destruct (procs s !! n) eqn:E; [|done]. destruct (Hfp _ _ E). lia. }
  destruct (Hfp _ _ Hpp) as [Hlt _]. pose proof (fo_order _ Hw _ _ Hpp) as Hord.
  assert (∀ i, n ∉ children_of s i) as Hnew.
  { intros i Hin. destruct (fo_child _ Hw _ _ Hin) as (q & Hq & _). congruence. }
  split.
  - intros i. rewrite Hp. destruct (decide (i = n)) as [->|Hi]; [by rewrite Hxn, lookup_insert_eq|].
    rewrite lookup_insert_ne by done. pose proof (fo_ext _ Hw i) as Hxi. destruct (Hx i Hi); unfold is_Some in *; naive_solver.
  - destruct (fo_init _ Hw) as (pi & ? & ?). exists pi. rewrite Hp, lookup_insert_ne by (unfold INIT_PID; lia). done.
  - intros i q. rewrite Hp, lookup_insert_Some. intros [(<- & <-)|(_ & Hq)]; [simpl; lia|by eapply (fo_order _ Hw)].
  - intros i c. rewrite Hc, Hp. destruct (Z.eqb_spec i n) as [->|Hi]; [by intros ?%elem_of_nil|]. intros Hin.
    assert (c ∈ children_of s i ∨ i = ppid ∧ c = n) as [Hin'|[-> ->]].
    { destruct (Z.eqb_spec i ppid) as [->|]; [|by left]. apply elem_of_app in Hin as [|?%list_elem_of_singleton]; auto. }
    + destruct (fo_child _ Hw _ _ Hin') as (q & Hq & <-). exists q. rewrite lookup_insert_ne; [done|]. intros ->. congruence.
    + eexists. by rewrite lookup_insert_eq.
  - intros c q. rewrite Hp, lookup_insert_Some. intros [(<- & <-)|(Hne & Hq)] Hc1; rewrite Hc; cbn [sp_ppid].
    + rewrite (proj2 (Z.eqb_neq ppid n)), Z.eqb_refl by lia. apply elem_of_app. right. by left.
    + pose proof (fo_parent _ Hw _ _ Hq Hc1) as Hin. destruct (Z.eqb_spec (sp_ppid q) n) as [Heq|].
      { rewrite Heq in Hin. apply (children_pointers_dom _ _ _ (tw_forest _ Hw)) in Hin as [??]. congruence. }
      destruct (sp_ppid q =? ppid); [|done]. apply elem_of_app. by left.
  - intros i. rewrite Hc. destruct (i =? n); [constructor|]. destruct (i =? ppid); [|by apply (fo_nodup _ Hw)].
    apply NoDup_app. split_and!; [by apply (fo_nodup _ Hw)| |apply NoDup_singleton].
    intros c Hin ->%list_elem_of_singleton. by apply (Hnew i).
  - intros i x' Hx'. destruct (decide (i = n)) as [->|Hi]; [naive_solver|]. specialize (Hx i Hi). rewrite Hx' in Hx.
    apply Forall2_Some_r in Hx as (x & Hxi & -> & _). by eapply (fo_signal _ Hw).
Qed.

Lemma forked_wf s ppid n e sid pgid s' : tree_wf s → fresh_id s n → is_Some (procs s !! ppid) → zombie s ppid = false →
  (e = -1 ∨ 1 ≤ e ≤ SIG_MAX_NUM) → forked s ppid n e sid pgid s' → tree_wf s'.
Proof.
  intros Hw Hfr Hpp Hz He Hfk. split; [by eapply forked_forest|..].
  all: destruct Hfk as [(tbl & Hp & Htbl) Hc _ _ Ht (thn & Hthn & Hkey)], Hfr as (_ & Hfp & Hft).
  all: unfold th_key in Hkey; injection Hkey as Hkp Hkx.
  all: assert (∀ t th', threads s' !! t = Some th' → t = n ∧ th' = thn ∨ t ≠ n ∧ ∃ th, threads s !! t = Some th ∧ th_key th' = th_key th) as Hth.
  1,3,5: intros t th' Hth'; destruct (decide (t = n)) as [->|Hne]; [left; split; congruence|right; split; [done|]];
    specialize (Ht t Hne); rewrite Hth' in Ht; destruct (threads s !! t) as [th|]; [|done]; injection Ht as ??; exists th; split; [done|];
    unfold th_key; congruence.
  - destruct (tw_sys _ Hw) as [Hl Ho Hn Htb]. split; unfold procs, threads in *; rewrite Hp in *.
    + intros t th' [(-> & ->)|(Hne & th & Ht0 & [= Hk _])]%Hth.
      * eexists. rewrite Hkp, lookup_insert_eq. split; [done|]. by left.
      * destruct (Hl _ _ Ht0) as (q & Hq & Hin). exists q. rewrite Hk, lookup_insert_ne; [done|]. intros ->. destruct (Hfp _ _ Hq). lia.
    + intros i q t th'. rewrite lookup_insert_Some. intros [(<- & <-)|(Hne & Hq)] Hin [(-> & ->)|(Hnt & th & Ht0 & [= Hk _])]%Hth.
      * done.
      * by apply list_elem_of_singleton in Hin.
      * destruct (Hfp _ _ Hq) as [_ Hl']. specialize (Hl' _ Hin). lia.
      * rewrite Hk. eauto.
    + intros i q. rewrite lookup_insert_Some. intros [(<- & <-)|(_ & Hq)]; [apply NoDup_singleton|eauto].
    + intros i q. rewrite lookup_insert_Some. intros [(<- & <-)|(_ & Hq)]; [done|eauto].
  - intros t th' [(-> & ->)|(_ & th & Ht0 & [= _ ->])]%Hth; [done|]. by eapply tw_exited.
  - intros i Hzi. rewrite Hc. destruct (Z.eqb_spec i n) as [->|Hi]; [done|].
    assert (zombie s i = true) as Hzs.
    { unfold zombie in *. rewrite Hp, lookup_insert_ne in Hzi by done. destruct (procs s !! i) as [q|] eqn:Eq; [|done].
      apply andb_true_iff in Hzi as [Hcode Hall]. apply andb_true_iff. split; [done|]. rewrite forallb_forall in *.
      intros t Hin. specialize (Hall t Hin). apply bool_decide_eq_true in Hall. apply bool_decide_eq_true.
      assert (t ≠ n) as Hne. { destruct (Hfp _ _ Eq) as [_ Hl]. apply list_elem_of_In in Hin. specialize (Hl _ Hin). lia. }
      specialize (Ht t Hne). rewrite Hall in Ht. by destruct (threads s !! t). }
    destruct (Z.eqb_spec i ppid) as [->|]; [congruence|]. by apply (tw_zombie _ Hw).
Qed.

(** A process that is listed as a parent, or has a live thread, is no zombie. *)
Lemma parent_not_zombie s pid c : tree_wf s → c ∈ children_of s pid → zombie s pid = false.
Proof.
  intros Hw Hc. apply not_true_is_false. intros Hz. rewrite (tw_zombie _ Hw _ Hz) in Hc. by apply elem_of_nil in Hc.
Qed.
Lemma thread_not_zombie s tid th : tree_wf s → threads s !! tid = Some th → zombie s (st_pid th) = false.
Proof.
  intros Hw Hth. destruct (wf_listed _ (tw_sys _ Hw) _ _ Hth) as (p & Hp & Hin). unfold zombie.
  change (procs s !! st_pid th = Some p) in Hp. rewrite Hp. apply not_true_is_false. intros [_ Hall]%andb_true_iff.
  rewrite forallb_forall in Hall. apply list_elem_of_In, Hall, bool_decide_eq_true in Hin. congruence.
Qed.

Lemma fork_keeps s cur me n flags e : tree_wf s → threads s !! cur = Some me → fresh_id s n →
  (contains flags CLONE_PARENT = true → st_pid me ≠ INIT_PID) → (e = -1 ∨ 1 ≤ e ≤ SIG_MAX_NUM) →
  ∃ s' ppid sid pgid, fork_process s cur n flags e = Done s' ∧ forked s ppid n e sid pgid s' ∧ tree_wf s'.
Proof.
  intros Hw Hme Hfr Hpar He. destruct (wf_listed _ (tw_sys _ Hw) _ _ Hme) as (p & Hp & _). change (procs s !! st_pid me = Some p) in Hp.
  destruct (fork_done s cur me p n flags e Hw Hme Hp Hfr Hpar (tw_exited _ Hw _ _ Hme)) as (s' & Hs' & Hfk).
  eexists s', _, _, _. split; [done|]. split; [done|]. eapply forked_wf; [done|done| | |done|done].
  - destruct (contains flags CLONE_PARENT); [|by eexists]. eapply (children_pointers_dom s _ (st_pid me) (tw_forest _ Hw)).
    apply (fo_parent _ Hw); auto.
  - destruct (contains flags CLONE_PARENT); [|by eapply thread_not_zombie]. eapply parent_not_zombie; [done|].
    apply (fo_parent _ Hw); eauto.
Qed.

(** ** The other operations *)

Lemma set_code_keeps s pid p t code : tree_wf s → procs s !! pid = Some p → pid ≠ INIT_PID → t ∈ sp_tasks p →
  is_Some (threads s !! t) → tree_wf (set_group_exit_code_once s pid code).
Proof.
  intros Hw Hp Hne Hin [th Hth]. set (s' := set_group_exit_code_once s pid code).
  set (f := λ p : SigProc, match group_exit_code p with Some _ => p | None => with_exit_code (Some code) p end).
  change (threads s') with (threads s) in *. assert (procs s' = alter f pid (procs s)) as Hp' by done.
  assert (∀ q, sp_tasks (f q) = sp_tasks q ∧ sp_sigtable (f q) = sp_sigtable q ∧ sp_ppid (f q) = sp_ppid q) as Hfq
    by (intros q; unfold f; by case_match).
  assert (∀ i q', procs s' !! i = Some q' → ∃ q, procs s !! i = Some q ∧ sp_tasks q' = sp_tasks q ∧ sp_sigtable q' = sp_sigtable q ∧
    (i ≠ pid → q' = q)) as Hback.
  { intros i q'. rewrite Hp', lookup_alter_Some. intros [(-> & q & Hq & ->)|(? & Hq)]; [|by exists q'].
    destruct (Hfq q) as (?&?&?). by exists q. }
  split.
  - eapply shape_forest; [|apply Hw]. split; [|intros i; change (ps_ext s') with (ps_ext s); destruct (ps_ext s !! i); by constructor].
    intros i. rewrite Hp'. eapply (Forall2_alter (λ i q q', sp_ppid q' = sp_ppid q ∧ (i = INIT_PID → group_exit_code q' = group_exit_code q))); [done|].
    intros q _. by destruct (Hfq q) as (?&?&?).
  - destruct (tw_sys _ Hw) as [Hl Ho Hn Htb]. split.
    + intros t' th' Ht'. destruct (Hl _ _ Ht') as (q & Hq & Hqin). change (procs s !! st_pid th' = Some q) in Hq.
      destruct (decide (st_pid th' = pid)) as [He|].
      * exists (f q). change (ss_procs (ps_sig s')) with (procs s'). rewrite Hp', <- He, lookup_alter_eq, Hq. by rewrite (proj1 (Hfq q)).
      * exists q. change (ss_procs (ps_sig s')) with (procs s'). by rewrite Hp', lookup_alter_ne.
    + intros i q' t' th' (q & Hq & Ht & _)%Hback Hqin Hth'. rewrite Ht in Hqin. eauto.
    + intros i q' (q & Hq & -> & _)%Hback. eauto.
    + intros i q' (q & Hq & _ & -> & _)%Hback. eauto.
  - apply (tw_exited _ Hw).
  - intros i Hz. change (children_of s' i) with (children_of s i). destruct (decide (i = pid)) as [->|Hi].
    + exfalso. unfold zombie, all_tasks_exited in Hz. rewrite Hp', lookup_alter_eq, Hp in Hz. simpl in Hz. apply andb_true_iff in Hz as [_ Hall].
      rewrite forallb_forall in Hall. rewrite (proj1 (Hfq p)) in Hall. apply list_elem_of_In, Hall, bool_decide_eq_true in Hin.
      change (threads s !! t = None) in Hin. congruence.
    + apply (tw_zombie _ Hw). unfold zombie in *. by rewrite Hp', lookup_alter_ne in Hz.
Qed.

Lemma set_code_narrows s pid code : narrows s (set_group_exit_code_once s pid code).
Proof.
  split; [|done]. intros i p'. change (procs (set_group_exit_code_once s pid code)) with
    (alter (λ p, match group_exit_code p with Some _ => p | None => with_exit_code (Some code) p end) pid (procs s)).
  rewrite lookup_alter_Some. intros [(-> & q & Hq & ->)|(_ & Hq)]; [|by exists p']. exists q. split; [done|]. by case_match.
Qed.

Lemma exit_group_keeps s tid th code rss : tree_wf s → threads s !! tid = Some th → st_pid th ≠ INIT_PID →
  ∃ s', exit_current_group_and_run_next s tid code rss = Done s' ∧ tree_wf s' ∧ narrows s s'.
Proof.
  intros Hw Hth Hne. destruct (wf_listed _ (tw_sys _ Hw) _ _ Hth) as (p & Hp & Hin). change (procs s !! st_pid th = Some p) in Hp.
  unfold exit_current_group_and_run_next. rewrite Hth. cbn [unwrap mbind comp_bind]. rewrite Hp. cbn [unwrap mbind comp_bind].
  set (s1 := foldl (wake_sibling tid) s (sp_tasks p)).
  assert (tree_eq s s1) as He by (apply te_foldl; intros; apply te_wake_sibling). assert (tree_wf s1) as Hw1 by by rewrite <- He.
  assert (∃ th1, threads s1 !! tid = Some th1 ∧ st_pid th1 = st_pid th) as (th1 & Hth1 & Hpid1) by by eapply te_thread.
  destruct (group_exit_code p) as [code'|].
  { destruct (exit_keeps s1 tid th1 code' rss) as (s2 & ? & ? & ?); [done|done|congruence|]. exists s2. split_and!; [done..|].
    eapply narrows_trans; [|done]. by apply tree_eq_narrows. }
  destruct (te_proc _ _ _ _ He Hp) as (p1 & Hp1 & (_&_&_&Htk&_)).
  assert (tree_wf (set_group_exit_code_once s1 (st_pid th) code)) as Hw2.
  { eapply set_code_keeps; [done|done|done|by rewrite Htk|by eexists]. }
  destruct (notify_done (set_group_exit_code_once s1 (st_pid th) code) (st_pid th) (sig_bit SIGKILL)) as (s3 & -> & He3).
  { exact (tw_sys _ Hw2). }
  { right. by exists SIGKILL. }
  cbn [mbind comp_bind]. assert (∃ th3, threads s3 !! tid = Some th3 ∧ st_pid th3 = st_pid th1) as (th3 & Hth3 & Hpid3) by by eapply te_thread.
  destruct (exit_keeps s3 tid th3 code rss) as (s4 & ? & ? & Hn); [by rewrite <- He3|done|congruence|].
  exists s4. split_and!; [done..|]. eapply narrows_trans; [by apply tree_eq_narrows|].
  eapply narrows_trans; [|done]. eapply narrows_trans; [|by apply tree_eq_narrows]. apply set_code_narrows.
Qed.
