(* ===== verification/ProcReach.v ===== *)
(** * Histories of processes

    Identifiers ([utils/id_allocator.rs], [task/tid.rs]); the operations of
    [ProcTree] as the steps of a system, and what holds in every state it can
    reach; the encoding of wait statuses; process groups. *)

From S2P Require Import Prelude Errno Wake Signal SigSend ProcTree ProcInv.

(** ** Identifiers *)

(** The top of [recycled] is the head of the list. *)
Record IdAllocator : Type := mkIds { next_id : Z; recycled : list Z }.
Definition ids_new (start_id : Z) : IdAllocator := mkIds start_id [].
Definition ids_alloc (a : IdAllocator) : option Z * IdAllocator :=
  match recycled a with
  | id :: l => (Some id, mkIds (next_id a) l)
  | [] => match checked_add (next_id a) 1 with
          | Some next => (Some (next_id a), mkIds next [])
          | None => (None, a)
          end
  end.
Definition ids_dealloc (a : IdAllocator) (id : Z) : IdAllocator := mkIds (next_id a) (id :: recycled a).

(** Allocation and release by holders that release what they hold, once. *)
Inductive ids_step : IdAllocator * list Z → IdAllocator * list Z → Prop :=
| ids_take a held id a' : ids_alloc a = (Some id, a') → ids_step (a, held) (a', id :: held)
| ids_full a held a' : ids_alloc a = (None, a') → ids_step (a, held) (a', held)
| ids_give a held1 id held2 : ids_step (a, held1 ++ id :: held2) (ids_dealloc a id, held1 ++ held2).

Definition ids_inv (start : Z) (x : IdAllocator * list Z) : Prop :=
  NoDup (recycled x.1 ++ x.2) ∧ start ≤ next_id x.1 ∧ ∀ i, i ∈ recycled x.1 ++ x.2 → start ≤ i < next_id x.1.

Lemma ids_inv_step start x y : ids_inv start x → ids_step x y → ids_inv start y.
Proof.
  intros (Hnd & Hs & Hr) Hstep. destruct Hstep as [a held id a' Ha|a held a' Ha|a h1 id h2]; unfold ids_inv in *; simpl in *.
  - unfold ids_alloc in Ha. destruct a as [n [|i l]]; simpl in *.
    + unfold checked_add in Ha. destruct (n + 1 <=? usize_max); [|done]. injection Ha as <- <-. simpl. split_and!; [|lia|].
      * apply NoDup_cons. split; [|done]. intros Hin%Hr. lia.
      * intros i [->|Hin%Hr]%elem_of_cons; lia.
    + injection Ha as <- <-. simpl. split_and!; [|done|].
      * eapply NoDup_Permutation_proper, Hnd. by rewrite Permutation_middle.
      * intros j Hj. apply Hr. set_solver.
  - unfold ids_alloc in Ha. destruct a as [n [|i l]]; simpl in *; [|done].
    unfold checked_add in Ha. destruct (n + 1 <=? usize_max); [done|]. by injection Ha as <-.
  - split_and!; [|done|].
    + eapply NoDup_Permutation_proper, Hnd. solve_Permutation.
    + intros j Hj. apply Hr. set_solver.
Qed.

(** Identifiers in use are distinct: over any history of allocations and
    releases no identifier is handed out while somebody holds it, and none is
    below the start. *)
Theorem ids_unique start held a :
  rtc ids_step (ids_new start, []) (a, held) → NoDup held ∧ ∀ i, i ∈ held → start ≤ i < next_id a.
Proof.
  intros Hr. assert (ids_inv start (a, held)) as (Hnd & _ & Hb).
  { apply (rtc_invariant _ _ _ _ (ids_inv_step start) Hr). unfold ids_inv. simpl. split_and!; [constructor|lia|set_solver]. }
  simpl in *. apply NoDup_app in Hnd as (_ & _ & Hnd). split; [done|]. intros i Hi. apply Hb. set_solver.
Qed.

Lemma ids_unique_witness : ∃ a, rtc ids_step (ids_new 1, []) (a, [1]) ∧ NoDup [1 : Z].
Proof.
  assert (rtc ids_step (ids_new 1, []) (mkIds 2 [], [1])) as Hr by (apply rtc_once; by eapply ids_take).
  exists (mkIds 2 []). split; [exact Hr|]. exact (proj1 (ids_unique 1 [1] _ Hr)).
Defined.

(** ** [waitid] keeps the tree *)

Lemma te_upd_proc s pid f : (∀ p, proc_same p (f p)) → tree_eq s (upd_proc s pid f).
Proof.
  intros Hf. split; try done.
  - apply (Forall2_alter (λ _, proc_same)); [by repeat split|]. intros. apply Hf.
  - intros i. change (ps_ext (upd_proc s pid f)) with (ps_ext s). destruct (ps_ext s !! i); constructor; by repeat split.
Qed.

Lemma te_keeps s s' : tree_wf s → tree_eq s s' → tree_wf s' ∧ narrows s s'.
Proof. intros Hw He. split; [by rewrite <- He|by apply tree_eq_narrows]. Qed.

Lemma reap_keeps s cur pid c o ret {U} (st : option U) : tree_wf s → c ∈ children_of s pid → zombie s c = true →
  ∃ s' r, reap s cur pid c o ret st = Done (s', r) ∧ tree_wf s' ∧ narrows s s'.
Proof.
  intros Hw Hc Hz. destruct (reap_done s cur pid c o ret st Hw Hc) as (s' & -> & Hr). eexists _, _. split; [done|].
  destruct (contains o WNOWAIT); [subst; by apply te_keeps|].
  split; [by eapply reaped_wf|by eapply reaped_narrows].
Qed.

Lemma waitid_keeps s cur th w o infop copy_ok : tree_wf s → threads s !! cur = Some th →
  0 ≤ sig_pending (st_task th) → (∀ i, sig_in i (sig_pending (st_task th)) = true → 1 ≤ i ≤ 33) →
  ∃ s' r, waitid_poll s cur w o infop copy_ok = Done (s', r) ∧ tree_wf s' ∧ narrows s s'.
Proof.
  intros Hw Hth Hpos Hpend. unfold waitid_poll. rewrite Hth. cbn [unwrap mbind comp_bind]. set (pid := st_pid th) in *.
  destruct (wf_listed _ (tw_sys _ Hw) _ _ Hth) as (p & Hp & _). change (procs s !! pid = Some p) in Hp.
  set (s1 := upd_ext s pid _). assert (tree_eq s s1) as He1 by (apply te_upd_ext; intros; by repeat split).
  assert (∀ s2, tree_eq s1 s2 → tree_wf s2 ∧ narrows s s2) as Hend by (intros s2 He2; apply te_keeps; [done|by etrans]).
  rewrite upgraded_children by (rewrite <- He1; apply tw_forest, Hw). set (l := retain _ (children_of s1 pid)).
  case_bool_decide; [eexists _, _; split; [done|by apply Hend]|].
  destruct (if contains o WSTOPPED then _ else _) as [[c sig]|].
  { destruct (stored_at infop copy_ok _); eexists _, _; (split; [done|]); apply Hend; [|done].
    destruct (contains o WNOWAIT); [done|]. apply te_upd_ext. by repeat split. }
  destruct (if contains o WCONTINUED then _ else _) as [[c sig]|].
  { destruct (stored_at infop copy_ok _); eexists _, _; (split; [done|]); apply Hend; [|done].
    destruct (contains o WNOWAIT); [done|]. apply te_upd_proc. by repeat split. }
  destruct (if contains o WEXITED then first_zombie s1 l else None) as [c|] eqn:Ez.
  { destruct (contains o WEXITED); [|done]. apply head_retain in Ez as [[Hin _]%elem_of_retain Hz].
    destruct (zombie_code _ _ Hz) as (q & code & -> & Hc). cbn [unwrap mbind comp_bind]. rewrite Hc. cbn [unwrap mbind comp_bind].
    destruct (stored_at infop copy_ok _); [|eexists _, _; split; [done|by apply Hend]].
    edestruct (reap_keeps s1 cur pid c o) as (s' & r & -> & ? & ?); [by apply Hend|done|done|]. eexists _, _. split; [done|].
    split; [done|]. eapply narrows_trans; [by apply tree_eq_narrows|done]. }
  destruct (contains o WNOHANG).
  { destruct (stored_at infop copy_ok _); eexists _, _; (split; [done|by apply Hend]). }
  destruct (wait_nothing_done (U := SigInfo) s1 cur th pid p Hth Hp (sb_table _ (tw_sys _ Hw) _ _ Hp) Hpos Hpend) as (s' & r & -> & He2 & _).
  eexists _, _. split; [done|]. by apply Hend.
Qed.

(** ** The system *)

Record PWorld : Type := mkPWorld { pw_sys : PSys; pw_ids : IdAllocator }.

Inductive ProcOp : Type :=
| OpFork (cur flags exit_signal : Z)
| OpExit (tid code rss : Z)
| OpExitGroup (tid code rss : Z)
| OpWaitpid (cur : Z) (w : WaitPid) (options : Z) (wstatus copy_ok : bool)
| OpWaitid (cur : Z) (w : WaitPid) (options : Z) (infop copy_ok : bool)
| OpSetsid (cur : Z)
| OpSetpgid (cur pid pgid : Z)
| OpSubreaper (pid : Z) (enabled : bool)
| OpStopped (pid : Z) (signo : option Z)
| OpSignal (pid sig : Z).

(** [Process::set_child_subreaper]. *)
Definition set_child_subreaper (s : PSys) (pid : Z) (enabled : bool) : PSys :=
  upd_ext s pid (λ x, mkExt (px_children x) enabled (px_event x) (px_exit_signal x) (px_stopped x) (px_usage x)).

Definition run_op (w : PWorld) (op : ProcOp) : comp PWorld :=
  let s := pw_sys w in
  let keep (m : comp PSys) := s ← m; Done (mkPWorld s (pw_ids w)) in
  match op with
  | OpFork cur flags e =>
      match ids_alloc (pw_ids w) with
      | (Some id, ids) => s ← fork_process s cur id flags e; Done (mkPWorld s ids)
      | (None, _) => Panic
      end
  | OpExit tid code rss => keep (exit_current_and_run_next s tid code rss)
  | OpExitGroup tid code rss => keep (exit_current_group_and_run_next s tid code rss)
  | OpWaitpid cur sel o st ok => keep (fst <$> waitpid_poll s cur sel o st ok)
  | OpWaitid cur sel o st ok => keep (fst <$> waitid_poll s cur sel o st ok)
  | OpSetsid cur => keep (Done (sys_setsid s cur).1)
  | OpSetpgid cur pid pgid => keep (Done (sys_setpgid s cur pid pgid).1)
  | OpSubreaper pid b => keep (Done (set_child_subreaper s pid b))
  | OpStopped pid sig => keep (Done (upd_ext s pid (with_stopped sig)))
  | OpSignal pid sig => keep (notify s pid sig)
  end.

(** The signals pending for a thread are between 1 and 33, as [SigLife] proves. *)
Definition pending_small (th : SigThread) : Prop :=
  0 ≤ sig_pending (st_task th) ∧ ∀ i, sig_in i (sig_pending (st_task th)) = true → 1 ≤ i ≤ 33.

(** When an operation can be called: by a live thread; with the exit signals that
    [parse_clone_flags] returns; [init] never exits, and does not clone a sibling. *)
Definition enabled (w : PWorld) (op : ProcOp) : Prop :=
  let live tid := ∃ th, threads (pw_sys w) !! tid = Some th ∧ st_pid th ≠ INIT_PID in
  match op with
  | OpFork cur flags e =>
      (∃ th, threads (pw_sys w) !! cur = Some th ∧ (contains flags CLONE_PARENT = true → st_pid th ≠ INIT_PID)) ∧
      (e = -1 ∨ 1 ≤ e ≤ SIG_MAX_NUM) ∧ next_id (pw_ids w) < usize_max
  | OpExit tid _ _ | OpExitGroup tid _ _ => live tid
  | OpWaitpid cur _ _ _ _ | OpWaitid cur _ _ _ _ => ∃ th, threads (pw_sys w) !! cur = Some th ∧ pending_small th
  | OpSignal _ sig => sig_small sig
  | _ => True
  end.

Definition proc_step (w w' : PWorld) : Prop := ∃ op, enabled w op ∧ run_op w op = Done w'.

Definition world_inv (w : PWorld) : Prop :=
  tree_wf (pw_sys w) ∧ fresh_id (pw_sys w) (next_id (pw_ids w)) ∧ recycled (pw_ids w) = [].

Lemma forked_fresh s ppid n e sid pgid s' : fresh_id s n → forked s ppid n e sid pgid s' → fresh_id s' (n + 1).
Proof.
  intros (H1 & H2 & H3) [(tbl & Hp & _) _ _ _ Ht _]. split_and!; [lia|..].
  - intros pid p. rewrite Hp, lookup_insert_Some. intros [(<- & <-)|(_ & Hq)]; simpl.
    + split; [lia|]. intros t ->%list_elem_of_singleton. lia.
    + destruct (H2 _ _ Hq) as [? Ht']. split; [lia|]. intros t Hin. specialize (Ht' t Hin). lia.
  - intros t [th Hth]. destruct (decide (t = n)) as [->|Hne]; [lia|]. specialize (Ht t Hne). rewrite Hth in Ht.
    destruct (threads s !! t) eqn:E; [|done]. specialize (H3 t ltac:(by eexists)). lia.
Qed.

(** Changing group and session keeps the tree. *)
Lemma with_group_keeps s pid sid pgid : tree_wf s → tree_wf (upd_proc s pid (λ p, with_group (sid p) (pgid p) p)) ∧
  narrows s (upd_proc s pid (λ p, with_group (sid p) (pgid p) p)).
Proof.
  set (f := λ p, with_group (sid p) (pgid p) p). intros Hw. set (s' := upd_proc s pid f).
  assert (∀ i q', procs s' !! i = Some q' → ∃ q, procs s !! i = Some q ∧ (q' = f q ∨ q' = q)) as Hback.
  { intros i q'. change (procs s') with (alter f pid (procs s)). rewrite lookup_alter_Some. naive_solver. }
  assert (∀ i q, procs s !! i = Some q → ∃ q', procs s' !! i = Some q' ∧ (q' = f q ∨ q' = q)) as Hforw.
  { intros i q Hq. change (procs s') with (alter f pid (procs s)). destruct (decide (i = pid)) as [->|].
    - rewrite lookup_alter_eq, Hq. simpl. eauto.
    - rewrite lookup_alter_ne by done. eauto. }
  split.
  2:{ split; [|done]. intros i q' (q & Hq & [->| ->])%Hback; by exists q. }
  split.
  - eapply shape_forest; [|apply Hw]. split.
    + eapply (Forall2_alter (λ i q q', sp_ppid q' = sp_ppid q ∧ (i = INIT_PID → group_exit_code q' = group_exit_code q))); done.
    + intros i. change (ps_ext s') with (ps_ext s). destruct (ps_ext s !! i); by constructor.
  - destruct (tw_sys _ Hw) as [Hl Ho Hn Htb]. split.
    + intros t th Hth. destruct (Hl _ _ Hth) as (q & Hq & Hin). destruct (Hforw _ _ Hq) as (q' & ? & [->| ->]); eauto.
    + intros i q' t th (q & Hq & [->| ->])%Hback Hin Hth; eauto.
    + intros i q' (q & Hq & [->| ->])%Hback; simpl; eauto.
    + intros i q' (q & Hq & [->| ->])%Hback; simpl; eauto.
  - apply (tw_exited _ Hw).
  - intros i Hz. apply (tw_zombie _ Hw). unfold zombie in *. destruct (procs s' !! i) as [q'|] eqn:E; [|done].
    destruct (Hback _ _ E) as (q & -> & [->| ->]); done.
Qed.

Lemma subreaper_keeps s pid b : tree_wf s → tree_wf (set_child_subreaper s pid b) ∧ narrows s (set_child_subreaper s pid b).
Proof.
  intros Hw. set (s' := set_child_subreaper s pid b). split; [|split; [intros i p' Hp'; by exists p'|done]].
  assert (shape_eq s s') as Hsh.
  { split; [intros i; change (procs s') with (procs s); destruct (procs s !! i); by constructor|].
    eapply (Forall2_alter (λ _ x x', px_children x' = px_children x ∧ px_exit_signal x' = px_exit_signal x)); done. }
  split; [eapply shape_forest; [done|apply Hw]|exact (tw_sys _ Hw)|exact (tw_exited _ Hw)|].
  intros i Hz. rewrite (shape_children _ _ _ Hsh). by apply (tw_zombie _ Hw).
Qed.

(** Every operation that can be called ends without a panic and keeps the
    invariant. *)
Lemma run_op_keeps w op : world_inv w → enabled w op → ∃ w', run_op w op = Done w' ∧ world_inv w'.
Proof.
  destruct w as [s ids]. intros (Hw & Hfr & Hrc) Hen. simpl in *.
  assert (∀ m, (∃ s', m = Done s' ∧ tree_wf s' ∧ narrows s s') →
    ∃ w', (s0 ← m; Done (mkPWorld s0 ids)) = Done w' ∧ world_inv w') as Hkeep.
  { intros m (s' & -> & Hw' & Hn). eexists. split; [done|]. split_and!; [done|by eapply fresh_narrows|done]. }
  destruct op as [cur flags e|tid code rss|tid code rss|cur sel o st ok|cur sel o st ok|cur|cur pid pgid|pid b|pid sig|pid sig];
    cbn [run_op pw_sys pw_ids].
  - destruct Hen as ((th & Hth & Hpar) & He & Hmax). unfold ids_alloc, checked_add. rewrite Hrc.
    rewrite (proj2 (Z.leb_le _ _)) by (cbn in Hmax; lia).
    destruct (fork_keeps s cur th (next_id ids) flags e Hw Hth Hfr Hpar He) as (s' & ppid & sid & pgid & -> & Hfk & Hw').
    eexists. split; [done|]. split_and!; [done|by eapply forked_fresh|done].
  - destruct Hen as (th & Hth & Hne). apply Hkeep. by eapply exit_keeps.
  - destruct Hen as (th & Hth & Hne). apply Hkeep. by eapply exit_group_keeps.
  - destruct Hen as (th & Hth & Hp1 & Hp2). apply Hkeep.
    destruct (waitpid_case s cur th sel o st ok Hw Hth Hp1 Hp2) as (s' & r & -> & Hc). exists s'. split; [done|].
    destruct (wf_listed _ (tw_sys _ Hw) _ _ Hth) as (p & Hp & _). eapply wait_case_wf; [done|by eexists|done].
  - destruct Hen as (th & Hth & Hp1 & Hp2). apply Hkeep.
    destruct (waitid_keeps s cur th sel o st ok Hw Hth Hp1 Hp2) as (s' & r & -> & ? & ?). by exists s'.
  - apply Hkeep. eexists. split; [done|]. unfold sys_setsid. repeat case_match; simpl; try by apply te_keeps.
    all: by apply (with_group_keeps s _ (λ _, _) (λ _, _)).
  - apply Hkeep. eexists. split; [done|]. unfold sys_setpgid. repeat case_match; simpl; try by apply te_keeps.
    all: by apply (with_group_keeps s _ (λ _, _) (λ _, _)).
  - apply Hkeep. eexists. split; [done|]. by apply subreaper_keeps.
  - apply Hkeep. eexists. split; [done|]. apply te_keeps; [done|]. apply te_upd_ext. by repeat split.
  - apply Hkeep. destruct (notify_done s pid sig (tw_sys _ Hw) Hen) as (s' & -> & He). eexists. split; [done|]. by apply te_keeps.
Qed.

(** The system after boot: [init] alone, and the next identifier is 2. *)
Definition init_thread : SigThread := mkSigThread 1 0 0 0 (mkSigTask Running 0 0 ∅ false None stack_disabled false false 0).
Definition init_psys : PSys :=
  mkPSys (mkSigSys {[1 := init_thread]} {[1 := mkSigProc 1 1 0 [1] sigtable_new None None None]} [] [])
    {[1 := new_ext]} {[1 := mkTime 0 0 0 0 0]}.
Definition init_world : PWorld := mkPWorld init_psys (mkIds 2 []).

Lemma init_world_inv : world_inv init_world.
Proof.
  assert (∀ i p, procs init_psys !! i = Some p → i = 1 ∧ p = mkSigProc 1 1 0 [1] sigtable_new None None None) as Hp.
  { intros i p Hip. cbn [procs init_psys ps_sig ss_procs] in Hip. by apply lookup_singleton_Some in Hip as [<- <-]. }
  assert (∀ t th, threads init_psys !! t = Some th → t = 1 ∧ th = init_thread) as Ht.
  { intros t th Htt. cbn [threads init_psys ps_sig ss_threads] in Htt. by apply lookup_singleton_Some in Htt as [<- <-]. }
  assert (∀ i, children_of init_psys i = []) as Hc.
  { intros i. unfold children_of. destruct (ps_ext init_psys !! i) as [x|] eqn:E; [|done]. cbn [init_psys ps_ext] in E.
    by apply lookup_singleton_Some in E as [_ <-]. }
  split_and!; [split; [split|..]|split_and!|done]; cbn [pw_sys pw_ids init_world next_id].
  - intros i. change (ps_ext init_psys) with ({[1 := new_ext]} : gmap Z ProcExt).
    change (procs init_psys) with ({[1 := mkSigProc 1 1 0 [1] sigtable_new None None None]} : gmap Z SigProc).
    unfold is_Some. setoid_rewrite lookup_singleton_Some. naive_solver.
  - by eexists.
  - intros i p (-> & ->)%Hp. simpl. lia.
  - intros i c. rewrite Hc. by intros ?%elem_of_nil.
  - intros c q (-> & _)%Hp. done.
  - intros i. rewrite Hc. constructor.
  - intros i x Hx. cbn [init_psys ps_ext] in Hx. apply lookup_singleton_Some in Hx as [_ <-]. by left.
  - split.
    + intros t th (-> & ->)%Ht. eexists. split; [done|]. by left.
    + intros i p t th (-> & ->)%Hp _ (_ & ->)%Ht. done.
    + intros i p (-> & ->)%Hp. apply NoDup_singleton.
    + intros i p (-> & ->)%Hp. done.
  - intros t th (_ & ->)%Ht. done.
  - intros i _. apply Hc.
  - lia.
  - intros i p (-> & ->)%Hp. split; [lia|]. intros t ->%list_elem_of_singleton. lia.
  - intros t [th (-> & _)%Ht]. lia.
Qed.

(** [C15] The process tree, over every history of forks, exits, waits, group calls
    and signals from boot: no operation panics; every process but [init] is listed
    exactly once, by the process its parent pointer names; the pointers lead to
    smaller numbers, so they end at [init]; a zombie has no children; and the next
    identifier is above all in use, so a process number is never reused. *)
Theorem process_tree_invariant (w : PWorld) :
  rtc proc_step init_world w →
  (∀ op, enabled w op → ∃ w', run_op w op = Done w') ∧ tree_wf (pw_sys w) ∧ fresh_id (pw_sys w) (next_id (pw_ids w)) ∧
  (∀ pid c, is_Some (procs (pw_sys w) !! pid) → c ∈ children_of (pw_sys w) pid ↔ child_of (pw_sys w) pid c).
Proof.
  intros Hr. assert (world_inv w) as (Hw & Hf & Hrec).
  { apply (rtc_invariant _ world_inv _ _) in Hr; [done| |apply init_world_inv].
    intros a b Ha (op & Hen & Hop). destruct (run_op_keeps a op Ha Hen) as (b' & Hb & Hi). rewrite Hb in Hop. by injection Hop as <-. }
  split_and!; [|done|done|intros pid c Hp; exact (children_pointers _ _ _ (tw_forest _ Hw) Hp)].
  intros op Hen. destruct (run_op_keeps w op (conj Hw (conj Hf Hrec)) Hen) as (w' & Hrun & _). eauto.
Qed.

Lemma world_inv_step w op w' : world_inv w → enabled w op → run_op w op = Done w' → world_inv w'.
Proof. intros Hi Hen Hop. destruct (run_op_keeps w op Hi Hen) as (b & Hb & ?). rewrite Hb in Hop. by injection Hop as <-. Qed.

(** A fork by a live thread can always be called. *)
Lemma fork_enabled w cur th e : threads (pw_sys w) !! cur = Some th → e = 17 → next_id (pw_ids w) < usize_max →
  enabled w (OpFork cur 0 e).
Proof. intros Hth -> Hn. split; [|split; [right; unfold SIG_MAX_NUM; lia|done]]. by exists th. Qed.

(** A shell (2) that forks a child (3), whose child (4) survives it: the states after
    the forks, and after the exit of 3. *)
Definition world_of (m : comp PWorld) : PWorld := match m with Done w => w | Panic => init_world end.
Definition demo_w1 : PWorld := world_of (run_op init_world (OpFork 1 0 17)).
Definition demo_w2 : PWorld := world_of (run_op demo_w1 (OpFork 2 0 17)).
Definition demo_w3 : PWorld := world_of (run_op demo_w2 (OpFork 3 0 17)).
Definition demo_w4 : PWorld := world_of (run_op demo_w3 (OpExit 3 7 40)).

Lemma demo_step0 : proc_step init_world demo_w1.
Proof. exists (OpFork 1 0 17). split; [by eapply fork_enabled|vm_compute; reflexivity]. Qed.
Lemma demo_step1 : proc_step demo_w1 demo_w2.
Proof. exists (OpFork 2 0 17). split; [eapply fork_enabled; vm_compute; reflexivity|vm_compute; reflexivity]. Qed.
Lemma demo_step2 : proc_step demo_w2 demo_w3.
Proof. exists (OpFork 3 0 17). split; [eapply fork_enabled; vm_compute; reflexivity|vm_compute; reflexivity]. Qed.
Lemma demo_step3 : proc_step demo_w3 demo_w4.
Proof. exists (OpExit 3 7 40). split; [|vm_compute; reflexivity]. eexists. split; [vm_compute; reflexivity|vm_compute; done]. Qed.

Lemma step_inv w w' : proc_step w w' → world_inv w → world_inv w'.
Proof. intros (op & ? & ?) ?. by eapply world_inv_step. Qed.
Lemma demo_inv3 : world_inv demo_w3.
Proof. apply (step_inv _ _ demo_step2), (step_inv _ _ demo_step1), (step_inv _ _ demo_step0), init_world_inv. Qed.
Lemma demo_inv4 : world_inv demo_w4.
Proof. apply (step_inv _ _ demo_step3), demo_inv3. Qed.

Lemma process_tree_invariant_witness :
  rtc proc_step init_world demo_w4 ∧ child_of (pw_sys demo_w4) 1 4 ∧ children_of (pw_sys demo_w4) 1 = [2; 4].
Proof.
  assert (rtc proc_step init_world demo_w4) as Hr.
  { eapply rtc_l; [exact demo_step0|]. eapply rtc_l; [exact demo_step1|]. eapply rtc_l; [exact demo_step2|].
    apply rtc_once. exact demo_step3. }
  split; [exact Hr|]. destruct (process_tree_invariant _ Hr) as (_ & _ & _ & Hc). split; [|vm_compute; reflexivity].
  apply (Hc 1 4); [eexists; vm_compute; reflexivity|]. replace (children_of (pw_sys demo_w4) 1) with [2; 4] by (vm_compute; reflexivity).
  right. left.
Defined.






(** ** Statuses *)

(** The macros of [sys/wait.h] by which a program reads a status. *)
Definition wtermsig (st : Z) : Z := Z.land st 127.
Definition wifexited (st : Z) : bool := wtermsig st =? 0.
Definition wexitstatus (st : Z) : Z := Z.land (Z.shiftr st 8) 255.
Definition wcoredump (st : Z) : bool := negb (Z.land st 128 =? 0).
Definition wifstopped (st : Z) : bool := Z.land st 255 =? 127.
Definition wifsignaled (st : Z) : bool := negb (wifexited st) && negb (wifstopped st).
Definition wstopsig (st : Z) : Z := wexitstatus st.

Lemma as_i32_cong z : ∃ k, as_i32 z = z + k * 4294967296.
Proof.
  unfold as_i32. pose proof (Z.div_mod z 4294967296 ltac:(lia)). destruct (z mod 4294967296 <? 2147483648).
  - exists (- (z / 4294967296)). lia.
  - exists (- (z / 4294967296) - 1). lia.
Qed.

(** The statuses of the signals 1 to 64, all of them. *)
Definition signal_statuses_ok : bool :=
  forallb (λ signo,
    forallb (λ dumped : bool,
      let st := wait_status_from_exit_code 0 (Some (signo, dumped)) in
      wifsignaled st && (wtermsig st =? signo) && eqb (wcoredump st) dumped) [true; false] &&
    wifstopped (stop_status signo) && negb (wifsignaled (stop_status signo)) && (wstopsig (stop_status signo) =? signo))
  (seqZ 1 64).

(** The status that [waitpid] stores decodes to what happened: an exit gives
    the low byte of the exit code, whatever the code; a death by a signal gives
    the signal and whether there was a core dump; a stop gives the signal. *)
Theorem wait_status_round_trip code signo dumped :
  1 ≤ signo ≤ SIG_MAX_NUM →
  (wifexited (wait_status_from_exit_code code None) = true ∧
   wexitstatus (wait_status_from_exit_code code None) = code mod 256) ∧
  (let st := wait_status_from_exit_code code (Some (signo, dumped)) in
   wifsignaled st = true ∧ wtermsig st = signo ∧ wcoredump st = dumped) ∧
  (wifstopped (stop_status signo) = true ∧ wifsignaled (stop_status signo) = false ∧ wstopsig (stop_status signo) = signo).
Proof.
  intros Hs. split.
  - unfold wifexited, wexitstatus, wtermsig. simpl. destruct (as_i32_cong (Z.shiftl code 8)) as [k ->].
    rewrite Z.shiftl_mul_pow2 by lia. change 127 with (2 ^ 7 - 1). change 255 with (2 ^ 8 - 1).
    rewrite !land_mask, Z.shiftr_div_pow2 by lia.
    replace (code * 2 ^ 8 + k * 4294967296) with ((code + k * 16777216) * 2 ^ 8) by lia. split.
    + apply Z.eqb_eq. replace ((code + k * 16777216) * 2 ^ 8) with (((code + k * 16777216) * 2) * 2 ^ 7) by lia.
      by apply Z.mod_mul.
    + rewrite Z.div_mul by done. replace (code + k * 16777216) with (code + (k * 65536) * 2 ^ 8) by lia. by apply Z.mod_add.
  - assert (signal_statuses_ok = true) as Hok by (vm_compute; reflexivity). unfold signal_statuses_ok in Hok.
    rewrite forallb_forall in Hok. specialize (Hok signo).
    rewrite <- list_elem_of_In, elem_of_seqZ in Hok. unfold SIG_MAX_NUM in Hs. specialize (Hok ltac:(lia)). split_bools.
    repeat match goal with H : (_ =? _) = true |- _ => apply Z.eqb_eq in H end.
    destruct dumped; unfold wait_status_from_exit_code in *; cbn [forallb] in *; split_bools;
      repeat match goal with H : (_ =? _) = true |- _ => apply Z.eqb_eq in H | H : eqb _ _ = true |- _ => apply eqb_prop in H end; done.
Qed.

Lemma wait_status_round_trip_witness :
  wifexited (wait_status_from_exit_code (-1) None) = true ∧ wexitstatus (wait_status_from_exit_code (-1) None) = 255 ∧
  wtermsig (wait_status_from_exit_code 0 (Some (SIGSEGV, true))) = SIGSEGV.
Proof.
  destruct (wait_status_round_trip (-1) SIGSEGV true) as ([H1 H2] & (_ & H3 & _) & _); [vm_compute; split; discriminate|].
  split_and!; [exact H1|exact H2|exact H3].
Defined.

(** ** Three defects *)

Fixpoint run_ops (w : PWorld) (ops : list ProcOp) : comp PWorld :=
  match ops with [] => Done w | op :: ops => w ← run_op w op; run_ops w ops end.

Definition two_sessions : PWorld := world_of (run_ops init_world [OpFork 1 0 17; OpFork 1 0 17; OpSetsid 2]).
Definition two_signals : PWorld :=
  world_of (run_ops init_world [OpFork 1 0 17; OpFork 2 0 17; OpSignal 2 (sig_bit SIGCHLD); OpSignal 2 (sig_bit SIGIO)]).

(** [setpgid] does not look whether the group exists in the caller's session: a
    process of session 1 joins the group that process 2 leads in session 2, so a
    group has members in two sessions. *)
Theorem setpgid_crosses_sessions :
  let '(s', r) := sys_setpgid (pw_sys two_sessions) 3 0 2 in
  r = Ok 0 ∧ (λ p, (sp_sid p, sp_pgid p)) <$> procs s' !! 2 = Some (2, 2) ∧
  (λ p, (sp_sid p, sp_pgid p)) <$> procs s' !! 3 = Some (1, 2).
Proof. vm_compute. done. Qed.

(** A poll of [waitpid] consumes one signal that does not interrupt it and then
    goes to sleep, although another one that does, here [SIGIO] with its default
    action to terminate, is pending and not masked. *)
Theorem wait_sleeps_on_signal :
  match waitpid_poll (pw_sys two_signals) 2 WaitAny 0 false true with
  | Done (s', r) => r = PollPending ∧ (th ← threads s' !! 2; check_if_any_sig (st_task th)) = Some SIGIO
  | Panic => False
  end ∧ default_op (sig_bit SIGIO) = OpTerminate.
Proof. vm_compute. done. Qed.

(** A [clone] that fails because the pointer for the identifier of the child is bad
    leaves the process behind: it is in the table and in the list of its parent,
    it has no thread and no exit code, and a wait with [__WALL] for it sleeps. *)
Theorem failed_clone_leaves_child :
  match fork_process_fault init_psys 1 2 0 with
  | Done (s', r) =>
      r = Err EFAULT ∧ is_Some (procs s' !! 2) ∧ children_of s' 1 = [2] ∧ threads s' !! 2 = None ∧
      snd <$> waitpid_poll s' 1 WaitAny WALL false true = Done PollPending
  | Panic => False
  end.
Proof. vm_compute. split_and!; [done|by eexists|done..]. Qed.
