(* ===== verification/ProcLife.v ===== *)
(** * Exit, adoption and wait on several harts

    The same code as in [ProcTree], cut at its locks: every step is what one task
    does under one lock ([ProcessMeta] of one process, or the process table), so
    that exits, adoptions and waits of many processes and threads interleave.

    A task is at a point of [exit_current_and_run_next] ([X..]), of the loop of
    [waitpid] ([W..]), or elsewhere ([Run]).  There are no child subreapers here:
    orphans go to [init].  Waits are for any child, with the status of exit only.
    A waker is the task it wakes; [lt_woke] is the flag of its [MyWaker]. *)

From S2P Require Import Prelude Wake ProcTree.

(** ** The state *)

Inductive Pc : Type :=
| Run
| XMark | XLeave | XCheck | XUsage | XPublish | XTake | XAdopt (l : list Z) (hz : bool) | XLink (c : Z) (l : list Z) (hz : bool)
| XSignal | XWake
| WPoll | WScan (any : bool) (l : list Z) | WTake (c : Z) | WReap (c : Z) | WBlock | WSleep
| Gone.

Record LProc : Type := mkLProc {
  lp_parent : Z; lp_children : list Z; lp_tasks : list Z; lp_code : bool; lp_usage : bool; lp_sigchld : bool;
  lp_event : option Z; lp_released : nat }.
Record LTask : Type := mkLTask { lt_pid : Z; lt_pc : Pc; lt_woke : bool }.
Record LSys : Type := mkLSys { ls_procs : gmap Z LProc; ls_tasks : gmap Z LTask; ls_table : gset Z }.

Definition set_pc (t : Z) (pc : Pc) (s : LSys) : LSys :=
  mkLSys (ls_procs s) (alter (λ x, mkLTask (lt_pid x) pc (lt_woke x)) t (ls_tasks s)) (ls_table s).
Definition upd (p : Z) (f : LProc → LProc) (s : LSys) : LSys := mkLSys (alter f p (ls_procs s)) (ls_tasks s) (ls_table s).

Definition lp_with_children (l : list Z) (x : LProc) : LProc :=
  mkLProc (lp_parent x) l (lp_tasks x) (lp_code x) (lp_usage x) (lp_sigchld x) (lp_event x) (lp_released x).
Definition lp_with_tasks (l : list Z) (x : LProc) : LProc :=
  mkLProc (lp_parent x) (lp_children x) l (lp_code x) (lp_usage x) (lp_sigchld x) (lp_event x) (lp_released x).
Definition lp_with_code (x : LProc) : LProc :=
  mkLProc (lp_parent x) (lp_children x) (lp_tasks x) true (lp_usage x) (lp_sigchld x) (lp_event x) (lp_released x).
Definition lp_with_event (e : option Z) (x : LProc) : LProc :=
  mkLProc (lp_parent x) (lp_children x) (lp_tasks x) (lp_code x) (lp_usage x) (lp_sigchld x) e (lp_released x).
Definition lp_with_parent (q : Z) (x : LProc) : LProc :=
  mkLProc q (lp_children x) (lp_tasks x) (lp_code x) (lp_usage x) true (lp_event x) (lp_released x).
(** The usage is stored and the owners of the descriptors are released. *)
Definition lp_teardown (x : LProc) : LProc :=
  mkLProc (lp_parent x) (lp_children x) (lp_tasks x) (lp_code x) true (lp_sigchld x) (lp_event x) (S (lp_released x)).

(** The status [Zombie] of a task, and whether its group can be reaped. *)
Definition marked (pc : Pc) : bool :=
  match pc with
  | Run | XMark | WPoll | WScan _ _ | WTake _ | WReap _ | WBlock | WSleep => false
  | _ => true
  end.
Definition task_zombie (s : LSys) (t : Z) : bool :=
  match ls_tasks s !! t with Some x => marked (lt_pc x) | None => true end.
Definition reapable (s : LSys) (c : Z) : bool :=
  match ls_procs s !! c with
  | Some x => lp_code x && forallb (λ t, bool_decide (ls_tasks s !! t = None)) (lp_tasks x)
  | None => false
  end.

(** ** Wakers and signals *)

Definition wake_task (t : Z) (s : LSys) : LSys :=
  mkLSys (ls_procs s)
    (alter (λ x, mkLTask (lt_pid x) (match lt_pc x with WSleep => WPoll | pc => pc end) true) t (ls_tasks s)) (ls_table s).
Definition wake_event (p : Z) (s : LSys) : LSys :=
  match ls_procs s !! p with
  | Some x => let s := upd p (lp_with_event None) s in
              match lp_event x with Some t => wake_task t s | None => s end
  | None => s
  end.
(** A signal makes the sleeping tasks of a process ready; it sets no flag. *)
Definition signal_task (s : LSys) (t : Z) : LSys :=
  mkLSys (ls_procs s)
    (alter (λ x, mkLTask (lt_pid x) (match lt_pc x with WSleep => WPoll | pc => pc end) (lt_woke x)) t (ls_tasks s)) (ls_table s).
Definition signal_group (p : Z) (s : LSys) : LSys :=
  match ls_procs s !! p with
  | Some x => if bool_decide (p ∈ ls_table s) then foldl signal_task s (lp_tasks x) else s
  | None => s
  end.

(** ** The steps of a task *)

Definition parent_of (s : LSys) (p : Z) : Z := match ls_procs s !! p with Some x => lp_parent x | None => 0 end.
Definition kids (s : LSys) (p : Z) : list Z := match ls_procs s !! p with Some x => lp_children x | None => [] end.

(** The next step of a task of process [p] that is neither running nor gone. *)
Definition next (s : LSys) (t p : Z) (x : LProc) (pc : Pc) (woke : bool) : option LSys :=
  match pc with
  | XMark => Some (set_pc t XLeave s)
  | XLeave => Some (set_pc t XCheck (upd p (λ x, lp_with_tasks (filter (λ u, u ≠ t) (lp_tasks x)) x) s))
  | XCheck => Some (set_pc t (if forallb (task_zombie s) (lp_tasks x) then XUsage else Gone) s)
  | XUsage => Some (set_pc t XPublish (upd p lp_teardown s))
  | XPublish => Some (set_pc t XTake (upd p lp_with_code s))
  | XTake =>
      let l := lp_children x in
      let s := upd p (λ x, lp_with_tasks [] (lp_with_children [] x)) s in
      Some (set_pc t (match l with [] => XSignal | _ => XAdopt l false end) s)
  | XAdopt (c :: l) hz => Some (set_pc t (XLink c l (hz || reapable s c)) (upd c (lp_with_parent INIT_PID) s))
  | XAdopt [] hz =>
      Some (set_pc t XSignal (if hz : bool then signal_group INIT_PID (wake_event INIT_PID s) else s))
  | XLink c l hz =>
      Some (set_pc t (XAdopt l hz)
        (upd INIT_PID (λ y, if bool_decide (c ∈ lp_children y) then y else lp_with_children (lp_children y ++ [c]) y) s))
  | XSignal => Some (set_pc t XWake (if lp_sigchld x then signal_group (lp_parent x) s else s))
  | XWake => Some (set_pc t Gone (if bool_decide (lp_parent x ∈ ls_table s) then wake_event (lp_parent x) s else s))
  | WPoll =>
      if lp_code x then Some (set_pc t XMark s)
      else Some (set_pc t (WScan (bool_decide (lp_children x ≠ [])) (lp_children x)) (upd p (lp_with_event (Some t)) s))
  | WScan any (c :: l) => Some (set_pc t (if reapable s c then WTake c else WScan any l) s)
  | WScan any [] => Some (set_pc t (if any : bool then WBlock else Run) s)
  | WTake c =>
      if bool_decide (c ∈ lp_children x)
      then Some (set_pc t (WReap c) (upd p (λ x, lp_with_children (filter (λ d, d ≠ c) (lp_children x)) x) s))
      else Some (set_pc t Run s)
  | WReap c => Some (set_pc t Run (mkLSys (ls_procs s) (ls_tasks s) (ls_table s ∖ {[c]})))
  | WBlock =>
      Some (mkLSys (ls_procs s)
              (alter (λ y, mkLTask (lt_pid y) (if woke then WPoll else WSleep) false) t (ls_tasks s)) (ls_table s))
  | Run | WSleep | Gone => None
  end.

(** What a task in user mode may ask for. *)
Inductive LifeOp : Type :=
| LNext (t : Z)
| LFork (t c : Z) (sigchld : bool)
| LThread (t u : Z)
| LExit (t : Z)
| LExitGroup (t : Z)
| LWait (t : Z)
| LFree (t : Z).

Definition running_in (s : LSys) (t : Z) : option (Z * LProc) :=
  x ← ls_tasks s !! t;
  match lt_pc x with Run => p ← ls_procs s !! lt_pid x; Some (lt_pid x, p) | _ => None end.

Definition life_exec (s : LSys) (op : LifeOp) : option LSys :=
  match op with
  | LNext t => x ← ls_tasks s !! t; p ← ls_procs s !! lt_pid x; next s t (lt_pid x) p (lt_pc x) (lt_woke x)
  | LFork t c sg =>
      '(p, _) ← running_in s t;
      match ls_procs s !! c, ls_tasks s !! c with
      | None, None =>
          let s := upd p (λ x, lp_with_children (lp_children x ++ [c]) x) s in
          Some (mkLSys (<[c := mkLProc p [] [c] false false sg None 0]> (ls_procs s))
                  (<[c := mkLTask c Run false]> (ls_tasks s)) ({[c]} ∪ ls_table s))
      | _, _ => None
      end
  | LThread t u =>
      '(p, _) ← running_in s t;
      match ls_procs s !! u, ls_tasks s !! u with
      | None, None =>
          let s := upd p (λ x, lp_with_tasks (lp_tasks x ++ [u]) x) s in
          Some (mkLSys (ls_procs s) (<[u := mkLTask p Run false]> (ls_tasks s)) (ls_table s))
      | _, _ => None
      end
  | LExit t => _ ← running_in s t; Some (set_pc t XMark s)
  | LExitGroup t =>
      '(p, x) ← running_in s t;
      Some (set_pc t XMark (foldl signal_task (upd p lp_with_code s) (lp_tasks x)))
  | LWait t =>
      _ ← running_in s t;
      Some (mkLSys (ls_procs s) (alter (λ y, mkLTask (lt_pid y) WPoll false) t (ls_tasks s)) (ls_table s))
  | LFree t =>
      x ← ls_tasks s !! t;
      match lt_pc x with Gone => Some (mkLSys (ls_procs s) (delete t (ls_tasks s)) (ls_table s)) | _ => None end
  end.

Definition life_step (s s' : LSys) : Prop := ∃ op, life_exec s op = Some s'.
Definition life_start : LSys :=
  mkLSys {[1 := mkLProc 0 [] [1] false false false None 0]} {[1 := mkLTask 1 Run false]} {[1]}.
Definition life_run (ops : list LifeOp) : option LSys := foldl (λ m op, s ← m; life_exec s op) (Some life_start) ops.

Lemma life_run_rtc ops s : life_run ops = Some s → rtc life_step life_start s.
Proof.
  revert s. induction ops as [|op ops IH] using rev_ind; intros s Hr; [by injection Hr as <-; constructor|].
  unfold life_run in Hr. rewrite foldl_app in Hr. simpl in Hr. fold (life_run ops) in Hr.
  destruct (life_run ops) as [s1|]; [|done]. eapply rtc_r; [by apply IH|]. by exists op.
Qed.

(** ** Three races *)

Definition life_state (ops : list LifeOp) : LSys := default life_start (life_run ops).
Definition steps (t : Z) (n : nat) : list LifeOp := replicate n (LNext t).

(** Process 3 exits and gives its child 4 to [init]; 4 exits, and wakes [init],
    between the update of its parent pointer and its insertion into the list. *)
Definition adoption_race : list LifeOp :=
  [LFork 1 2 true; LFork 2 3 true; LFork 3 4 true; LWait 1] ++ steps 1 4 ++
  [LExit 3] ++ steps 3 7 ++ [LExit 4] ++ steps 4 8 ++ steps 1 8 ++ steps 3 4.

(** Two threads leave their group before either looks whether it was the last. *)
Definition teardown_race : list LifeOp :=
  [LFork 1 2 true; LThread 2 3; LExit 2; LExit 3] ++ steps 2 2 ++ steps 3 2 ++ steps 2 2 ++ steps 3 2.

(** A process that called [exit_group] is reaped as soon as its thread is off the
    list. *)
Definition usage_race : list LifeOp :=
  [LFork 1 2 true; LWait 1; LExitGroup 2] ++ steps 1 1 ++ steps 2 2 ++ steps 1 3.

Lemma life_state_rtc ops : is_Some (life_run ops) → rtc life_step life_start (life_state ops).
Proof. intros [s Hs]. unfold life_state. rewrite Hs. by apply (life_run_rtc ops). Qed.

Definition pc_of (s : LSys) (t : Z) : option Pc := lt_pc <$> ls_tasks s !! t.

(** A wake-up lost by adoption: [init] sleeps in [waitpid] although its list has
    a dead child, and neither that child nor the process that gave it away has a
    step left that would wake [init]. *)
Theorem adoption_loses_wakeup :
  ∃ s, rtc life_step life_start s ∧ pc_of s 1 = Some WSleep ∧ 4 ∈ kids s 1 ∧ reapable s 4 = true ∧
    pc_of s 3 = Some Gone ∧ pc_of s 4 = Some Gone.
Proof.
  exists (life_state adoption_race). split; [apply life_state_rtc; eexists; vm_compute; reflexivity|].
  split_and!; [vm_compute; reflexivity| |vm_compute; reflexivity..].
  replace (kids (life_state adoption_race) 1) with [2; 4] by (vm_compute; reflexivity). by right; left.
Qed.

(** The teardown of a process can run twice: of two threads that exit together
    both find that no other is left, so the owner counts of the descriptor table
    and of the file system context drop by two for one process. *)
Theorem teardown_runs_twice :
  ∃ s, rtc life_step life_start s ∧ lp_released <$> ls_procs s !! 2 = Some 2%nat ∧
    pc_of s 2 = Some XPublish ∧ pc_of s 3 = Some XPublish.
Proof.
  exists (life_state teardown_race). split; [apply life_state_rtc; eexists; vm_compute; reflexivity|].
  split_and!; vm_compute; reflexivity.
Qed.

(** A child that called [exit_group] can be reaped before its usage is stored,
    while its thread is still in the exit path: the parent accounts nothing. *)
Theorem reaped_before_usage :
  ∃ s, rtc life_step life_start s ∧ 2 ∉ ls_table s ∧ lp_usage <$> ls_procs s !! 2 = Some false ∧
    pc_of s 2 = Some XCheck.
Proof.
  exists (life_state usage_race). split; [apply life_state_rtc; eexists; vm_compute; reflexivity|].
  split; [|split; vm_compute; reflexivity]. refine (bool_decide_eq_false_1 (2 ∈ ls_table _) _). vm_compute. reflexivity.
Qed.

(** ** Who holds a child

    A live child is in exactly one place: the list of a process, the orphans that
    an exiting task has taken and not yet given away, or the hands of the task
    that reaps it. *)

Inductive Holder : Type := HProc (p : Z) | HTask (t : Z).
#[export] Instance Holder_eq_dec : EqDecision Holder.
Proof. solve_decision. Defined.

Definition held_by (pc : Pc) : list Z :=
  match pc with XAdopt l _ => l | XLink c l _ => c :: l | WReap c => [c] | _ => [] end.
Definition hold (s : LSys) (h : Holder) : list Z :=
  match h with
  | HProc p => kids s p
  | HTask t => match ls_tasks s !! t with Some x => held_by (lt_pc x) | None => [] end
  end.

Record unique_holders (f : Holder → list Z) (M : gset Z) : Prop := {
  uh_nodup h : NoDup (f h);
  uh_one h1 h2 c : c ∈ f h1 → c ∈ f h2 → h1 = h2;
  uh_in h c : c ∈ f h → c ∈ M }.

Section unique.
Context (f g : Holder → list Z) (M : gset Z) (Hu : unique_holders f M).

(** Children are dropped. *)
Lemma unique_drop M' : (∀ h, g h `sublist_of` f h) → (∀ h c, c ∈ g h → c ∈ M') → unique_holders g M'.
Proof using Hu.
  intros Hs HM. assert (∀ h c, c ∈ g h → c ∈ f h) as Hin.
  { intros h c Hc. by eapply elem_of_sublist. }
  split; [|by intros h1 h2 c ?%Hin ?%Hin; eapply (uh_one _ _ Hu)|done].
  intros h. eapply sublist_NoDup; [apply (uh_nodup _ _ Hu)|done].
Qed.

(** Children move from one holder to another. *)
Lemma unique_move h1 h2 : h1 ≠ h2 → g h1 ++ g h2 ⊆+ f h1 ++ f h2 → (∀ h, h ≠ h1 → h ≠ h2 → g h = f h) → unique_holders g M.
Proof using Hu.
  intros Hne Hsub Hother.
  assert (NoDup (f h1 ++ f h2)) as Hnd.
  { apply NoDup_app. split_and!; [apply (uh_nodup _ _ Hu)| |apply (uh_nodup _ _ Hu)]. intros c H1 H2.
    by apply Hne, (uh_one _ _ Hu _ _ c). }
  assert (NoDup (g h1 ++ g h2)) as Hnd' by (apply submseteq_Permutation in Hsub as [k Hk]; rewrite Hk in Hnd; by apply NoDup_app in Hnd as (? & _)).
  apply NoDup_app in Hnd' as (Hn1 & Hd & Hn2).
  assert (∀ h c, c ∈ g h → ∃ h', c ∈ f h' ∧ (h = h' ∨ (h = h1 ∨ h = h2) ∧ (h' = h1 ∨ h' = h2))) as Hfrom.
  { intros h c Hc. destruct (decide (h = h1)) as [->|]; [|destruct (decide (h = h2)) as [->|]].
    - assert (c ∈ f h1 ++ f h2) as [?|?]%elem_of_app; [|eauto 10..]. eapply elem_of_submseteq; [|done]. apply elem_of_app. by left.
    - assert (c ∈ f h1 ++ f h2) as [?|?]%elem_of_app; [|eauto 10..]. eapply elem_of_submseteq; [|done]. apply elem_of_app. by right.
    - rewrite Hother in Hc by done. eauto. }
  split.
  - intros h. destruct (decide (h = h1)) as [->|]; [done|]. destruct (decide (h = h2)) as [->|]; [done|].
    rewrite Hother by done. apply (uh_nodup _ _ Hu).
  - intros a b c Ha Hb. destruct (Hfrom _ _ Ha) as (a' & Ha' & Hca), (Hfrom _ _ Hb) as (b' & Hb' & Hcb).
    pose proof (uh_one _ _ Hu _ _ _ Ha' Hb') as <-.
    destruct Hca as [->|[[->| ->] Hca]], Hcb as [->|[[->| ->] Hcb]]; try done.
    all: repeat match goal with H : _ ∨ _ |- _ => destruct H end; subst; try done; exfalso; by apply (Hd c).
  - intros h c Hc. destruct (Hfrom _ _ Hc) as (h' & ? & _). by eapply (uh_in _ _ Hu).
Qed.

(** A new child. *)
Lemma unique_new h0 c0 : c0 ∉ M → g h0 = f h0 ++ [c0] → (∀ h, h ≠ h0 → g h = f h) → unique_holders g ({[c0]} ∪ M).
Proof using Hu.
  intros Hc0 H0 Hother.
  assert (∀ h c, c ∈ g h → c ∈ f h ∨ h = h0 ∧ c = c0) as Hfrom.
  { intros h c Hc. destruct (decide (h = h0)) as [->|]; [|left; by rewrite <- Hother].
    rewrite H0 in Hc. apply elem_of_app in Hc as [|?%list_elem_of_singleton]; auto. }
  assert (∀ h, c0 ∉ f h) as Hnew by (intros h Hc; by apply Hc0, (uh_in _ _ Hu h)).
  split.
  - intros h. destruct (decide (h = h0)) as [->|]; [|rewrite Hother by done; apply (uh_nodup _ _ Hu)].
    rewrite H0. apply NoDup_app. split_and!; [apply (uh_nodup _ _ Hu)| |apply NoDup_singleton].
    intros c Hc ->%list_elem_of_singleton. by eapply Hnew.
  - intros a b c [Ha|(-> & ->)]%Hfrom [Hb|(-> & Hb)]%Hfrom; subst; [by eapply (uh_one _ _ Hu)|by apply Hnew in Ha|by apply Hnew in Hb|done].
  - intros h c [Hc|(_ & ->)]%Hfrom; [|set_solver]. apply elem_of_union. right. by eapply (uh_in _ _ Hu).
Qed.
End unique.

(** ** What a step does to the lists *)

Lemma hold_set_pc s t pc h x : ls_tasks s !! t = Some x →
  hold (set_pc t pc s) h = if decide (h = HTask t) then held_by pc else hold s h.
Proof.
  intros Ht. destruct h as [p|u]; [done|]. destruct (decide (HTask u = HTask t)) as [[= ->]|Hne]; simpl.
  - by rewrite lookup_alter_eq, Ht.
  - rewrite lookup_alter_ne by congruence. done.
Qed.

Lemma hold_upd s p f h x : ls_procs s !! p = Some x →
  hold (upd p f s) h = if decide (h = HProc p) then lp_children (f x) else hold s h.
Proof.
  intros Hp. destruct h as [q|u]; [|done]. destruct (decide (HProc q = HProc p)) as [[= ->]|Hne]; simpl; unfold kids; simpl.
  - by rewrite lookup_alter_eq, Hp.
  - rewrite lookup_alter_ne by congruence. done.
Qed.

Lemma hold_upd_same s p f h : (∀ x, lp_children (f x) = lp_children x) → hold (upd p f s) h = hold s h.
Proof.
  intros Hf. destruct h as [q|u]; [|done]. simpl. unfold kids. simpl. rewrite lookup_alter.
  destruct (decide (p = q)) as [->|]; [|done]. by destruct (ls_procs s !! q); simpl.
Qed.

(** A step on the tasks keeps their processes, and never revives one. *)
Record task_frame (s s' : LSys) : Prop := {
  tf_hold h : hold s' h = hold s h;
  tf_table : ls_table s' = ls_table s;
  tf_procs p : is_Some (ls_procs s' !! p) ↔ is_Some (ls_procs s !! p);
  tf_group p : lp_tasks <$> ls_procs s' !! p = lp_tasks <$> ls_procs s !! p;
  tf_some t : is_Some (ls_tasks s' !! t) ↔ is_Some (ls_tasks s !! t);
  tf_task t x' : ls_tasks s' !! t = Some x' → ∃ x, ls_tasks s !! t = Some x ∧ lt_pid x' = lt_pid x ∧
    (lt_pc x' = lt_pc x ∨ lt_pc x = WSleep ∧ lt_pc x' = WPoll) }.

#[export] Instance task_frame_preorder : PreOrder task_frame.
Proof.
  split; [split; eauto; done|]. intros s1 s2 s3 [a1 a2 a3 a4 a5 a6] [b1 b2 b3 b4 b5 b6].
  split; [intros; by rewrite b1|by rewrite b2|intros; by rewrite b3|intros; by rewrite b4|intros; by rewrite b5|].
  intros t x' (x & Hx & Hpid & Hpc)%b6. destruct (a6 _ _ Hx) as (y & Hy & Hpid' & Hpc').
  exists y. split; [done|]. split; [congruence|]. naive_solver congruence.
Qed.

Lemma task_frame_alter s t w :
  task_frame s (mkLSys (ls_procs s)
    (alter (λ x, mkLTask (lt_pid x) (match lt_pc x with WSleep => WPoll | pc => pc end) (w x)) t (ls_tasks s)) (ls_table s)).
Proof.
  split; simpl; try done.
  - intros [p|u]; [done|]. simpl. rewrite lookup_alter. destruct (decide (t = u)) as [->|]; [|done].
    destruct (ls_tasks s !! u) as [[pid pc wk]|]; simpl; [|done]. by destruct pc.
  - intros u. rewrite lookup_alter. destruct (decide (t = u)) as [->|]; [|done]. by rewrite fmap_is_Some.
  - intros u x'. rewrite lookup_alter. destruct (decide (t = u)) as [->|]; [|eauto].
    destruct (ls_tasks s !! u) as [[pid pc wk]|]; simpl; [|done]. intros [= <-]. eexists. split; [done|]. simpl. split; [done|].
    destruct pc; auto.
Qed.

Lemma task_frame_upd s p f : (∀ x, lp_children (f x) = lp_children x) → (∀ x, lp_tasks (f x) = lp_tasks x) → task_frame s (upd p f s).
Proof.
  intros Hc Ht. split; simpl; try done; [by intros; apply hold_upd_same| | |].
  - intros q. rewrite lookup_alter. destruct (decide (p = q)) as [->|]; [|done]. by rewrite fmap_is_Some.
  - intros q. rewrite lookup_alter. destruct (decide (p = q)) as [->|]; [|done]. destruct (ls_procs s !! q); simpl; [by rewrite Ht|done].
  - eauto.
Qed.

Lemma task_frame_foldl s l : task_frame s (foldl signal_task s l).
Proof.
  revert s. induction l as [|t l IH]; intros s; simpl; [done|]. etrans; [|apply IH]. apply (task_frame_alter s t lt_woke).
Qed.

Lemma task_frame_signal s p : task_frame s (signal_group p s).
Proof. unfold signal_group. destruct (ls_procs s !! p); [|done]. case_bool_decide; [apply task_frame_foldl|done]. Qed.

Lemma task_frame_wake s p : task_frame s (wake_event p s).
Proof.
  unfold wake_event. destruct (ls_procs s !! p) as [x|]; [|done]. cbn zeta.
  etrans; [by apply (task_frame_upd s p (lp_with_event None))|].
  destruct (lp_event x) as [t|]; [|done]. apply (task_frame_alter _ t (λ _, true)).
Qed.

(** ** Every live child has one holder *)

Record held_inv (s : LSys) : Prop := {
  hi_unique : unique_holders (hold s) (ls_table s);
  hi_procs c : c ∈ ls_table s → is_Some (ls_procs s !! c) }.

Lemma held_frame s s' : held_inv s → task_frame s s' → held_inv s'.
Proof.
  intros [Hu Hp] Hf. split.
  - rewrite (tf_table _ _ Hf). apply (unique_drop _ _ _ Hu); intros h; rewrite (tf_hold _ _ Hf); [done|]. apply (uh_in _ _ Hu).
  - intros c. rewrite (tf_table _ _ Hf), (tf_procs _ _ Hf). apply Hp.
Qed.

(** Any step after which no holder has more. *)
Lemma held_less s s' : held_inv s → (∀ h, hold s' h `sublist_of` hold s h) → ls_table s' = ls_table s →
  (∀ p, is_Some (ls_procs s !! p) → is_Some (ls_procs s' !! p)) → held_inv s'.
Proof.
  intros [Hu Hp] Hs Ht Hpr. split; rewrite Ht; [|by intros c ?%Hp%Hpr].
  apply (unique_drop _ _ _ Hu); [done|]. intros h c Hc. eapply (uh_in _ _ Hu h), elem_of_sublist; done.
Qed.

Lemma upd_some s p f q : is_Some (ls_procs (upd p f s) !! q) ↔ is_Some (ls_procs s !! q).
Proof. simpl. rewrite lookup_alter. destruct (decide (p = q)) as [->|]; [by rewrite fmap_is_Some|done]. Qed.

Lemma held_set_pc s t pc x : held_inv s → ls_tasks s !! t = Some x → held_by pc `sublist_of` held_by (lt_pc x) → held_inv (set_pc t pc s).
Proof.
  intros Hi Ht Hh. eapply held_less; [done| |done|done]. intros h. rewrite (hold_set_pc _ _ _ _ x) by done.
  destruct (decide (h = HTask t)) as [->|]; [|done]. simpl. by rewrite Ht.
Qed.

Lemma held_frame_pc s s' t pc x : held_inv s → task_frame s s' → ls_tasks s !! t = Some x → lt_pc x ≠ WSleep →
  held_by pc `sublist_of` held_by (lt_pc x) → held_inv (set_pc t pc s').
Proof.
  intros Hi Hf Ht Hns Hh. destruct (proj2 (tf_some _ _ Hf t)) as [x' Hx']; [by rewrite Ht|].
  destruct (tf_task _ _ Hf _ _ Hx') as (y & Hy & _ & Hpc). simplify_eq.
  eapply held_set_pc; [by eapply held_frame|done|]. destruct Hpc as [->|[? _]]; done.
Qed.

(** The exit path takes all children of its process. *)
Lemma held_take s t p x y f pc : held_inv s → ls_tasks s !! t = Some x → held_by (lt_pc x) = [] → ls_procs s !! p = Some y →
  (∀ c, lp_children (f c) = []) → held_by pc = lp_children y → held_inv (set_pc t pc (upd p f s)).
Proof.
  intros [Hu Hp] Ht Hh Hy Hf Hpc. split; [|by intros c ?%Hp; apply upd_some].
  assert (∀ h, hold (set_pc t pc (upd p f s)) h = if decide (h = HTask t) then lp_children y else if decide (h = HProc p) then [] else hold s h) as Hold.
  { intros h. rewrite (hold_set_pc _ _ _ _ x), Hpc by done. destruct (decide _); [done|].
    rewrite (hold_upd _ _ _ _ y) by done. by rewrite Hf. }
  apply (unique_move _ _ _ Hu (HTask t) (HProc p)); [done| |].
  - rewrite !Hold, decide_True by done. rewrite decide_False, decide_True by done. simpl. rewrite Ht, Hh. unfold kids. rewrite Hy.
    by rewrite app_nil_r.
  - intros h H1 H2. by rewrite Hold, !decide_False by done.
Qed.

(** An orphan goes from the hands of the exiting task to the list of [init]. *)
Lemma held_link s t x q c l f pc : held_inv s → ls_tasks s !! t = Some x → held_by (lt_pc x) = c :: l → held_by pc = l →
  (∀ y, lp_children (f y) = lp_children y ∨ lp_children (f y) = lp_children y ++ [c]) → held_inv (set_pc t pc (upd q f s)).
Proof.
  intros [Hu Hp] Ht Hh Hpc Hf. split; [|by intros d ?%Hp; apply upd_some].
  apply (unique_move _ _ _ Hu (HTask t) (HProc q)); [done| |].
  - rewrite (hold_set_pc _ _ _ _ x), decide_True, Hpc by done. rewrite (hold_set_pc _ _ _ _ x), decide_False by done.
    simpl. rewrite Ht, Hh. unfold kids. simpl. rewrite lookup_alter_eq. destruct (ls_procs s !! q) as [y|]; simpl.
    + destruct (Hf y) as [-> | ->]; [by apply submseteq_cons|]. rewrite (assoc_L (++)), (Permutation_app_comm _ [c]). done.
    + by apply submseteq_cons.
  - intros h H1 H2. rewrite (hold_set_pc _ _ _ _ x), decide_False by done. destruct h as [r|]; [|done]. simpl. unfold kids. simpl.
    rewrite lookup_alter_ne by congruence. done.
Qed.

(** The task that reaps takes the child from the list. *)
Lemma held_pick s t x p y c : held_inv s → ls_tasks s !! t = Some x → held_by (lt_pc x) = [] → ls_procs s !! p = Some y →
  c ∈ lp_children y →
  held_inv (set_pc t (WReap c) (upd p (λ z, lp_with_children (filter (λ d, d ≠ c) (lp_children z)) z) s)).
Proof.
  intros [Hu Hp] Ht Hh Hy Hc. split; [|by intros d ?%Hp; apply upd_some].
  pose proof (uh_nodup _ _ Hu (HProc p)) as Hnd. simpl in Hnd. unfold kids in Hnd. rewrite Hy in Hnd.
  apply (unique_move _ _ _ Hu (HTask t) (HProc p)); [done| |].
  - rewrite (hold_set_pc _ _ _ _ x), decide_True by done. rewrite (hold_set_pc _ _ _ _ x), decide_False by done.
    rewrite (hold_upd _ _ _ _ y), decide_True by done. simpl. rewrite Ht, Hh. unfold kids. rewrite Hy. simpl.
    apply NoDup_submseteq; [|intros d [->|[_ Hd]%list_elem_of_filter]%elem_of_cons; done].
    constructor; [by intros [? _]%list_elem_of_filter|by apply NoDup_filter].
  - intros h H1 H2. rewrite (hold_set_pc _ _ _ _ x), decide_False by done. by rewrite (hold_upd _ _ _ _ y), decide_False by done.
Qed.

(** The reaped child leaves the table. *)
Lemma held_reap s t x c : held_inv s → ls_tasks s !! t = Some x → lt_pc x = WReap c →
  held_inv (set_pc t Run (mkLSys (ls_procs s) (ls_tasks s) (ls_table s ∖ {[c]}))).
Proof.
  intros [Hu Hp] Ht Hpc. split; [|intros d Hd; apply Hp; simpl in Hd; set_solver].
  assert (∀ h, hold (set_pc t Run (mkLSys (ls_procs s) (ls_tasks s) (ls_table s ∖ {[c]}))) h = if decide (h = HTask t) then [] else hold s h) as Hold.
  { intros h. by rewrite (hold_set_pc _ _ _ _ x) by done. }
  assert (c ∈ hold s (HTask t)) as Hct by (simpl; rewrite Ht, Hpc; by left).
  apply (unique_drop _ _ _ Hu).
  - intros h. rewrite Hold. destruct (decide _); [apply sublist_nil_l|done].
  - intros h d. rewrite Hold. destruct (decide (h = HTask t)) as [|Hne]; [by intros ?%not_elem_of_nil|]. intros Hd. simpl.
    apply elem_of_difference. split; [by eapply (uh_in _ _ Hu)|]. intros ->%elem_of_singleton.
    by apply Hne, (uh_one _ _ Hu _ _ c).
Qed.

Lemma running_inv s t p y : running_in s t = Some (p, y) →
  ∃ x, ls_tasks s !! t = Some x ∧ lt_pid x = p ∧ lt_pc x = Run ∧ ls_procs s !! p = Some y.
Proof.
  unfold running_in. destruct (ls_tasks s !! t) as [[pid pc w]|]; simpl; [|done]. destruct pc; try done.
  destruct (ls_procs s !! pid) as [z|] eqn:Hz; simpl; [|done]. intros [= <- <-]. eauto.
Qed.

Lemma held_fork s p y c z u : held_inv s → ls_procs s !! p = Some y → ls_procs s !! c = None → ls_tasks s !! c = None →
  lp_children z = [] → lt_pc u = Run →
  held_inv (mkLSys (<[c := z]> (alter (λ x, lp_with_children (lp_children x ++ [c]) x) p (ls_procs s))) (<[c := u]> (ls_tasks s)) ({[c]} ∪ ls_table s)).
Proof.
  intros [Hu Hp] Hy Hc Htc Hz Hr. assert (p ≠ c) as Hpc by congruence. split.
  - apply (unique_new _ _ _ Hu (HProc p)); [intros [? ?]%Hp; congruence| |].
    + simpl. unfold kids. simpl. rewrite lookup_insert_ne, lookup_alter_eq, Hy by done. done.
    + intros [q|t] Hne; simpl; unfold kids; simpl.
      * destruct (decide (q = c)) as [->|]; [by rewrite lookup_insert_eq, Hc|].
        rewrite lookup_insert_ne, lookup_alter_ne by congruence. done.
      * destruct (decide (t = c)) as [->|]; [by rewrite lookup_insert_eq, Htc, Hr|]. by rewrite lookup_insert_ne by done.
  - simpl. intros d [->%elem_of_singleton|Hd%Hp]%elem_of_union; [by rewrite lookup_insert_eq|].
    destruct (decide (d = c)) as [->|]; [by rewrite lookup_insert_eq|]. rewrite lookup_insert_ne by done.
    change (is_Some (ls_procs (upd p (λ x, lp_with_children (lp_children x ++ [c]) x) s) !! d)). by apply upd_some.
Qed.

Lemma held_next s t p y pc w s' x : held_inv s → ls_tasks s !! t = Some x → lt_pc x = pc → ls_procs s !! p = Some y →
  next s t p y pc w = Some s' → held_inv s'.
Proof.
  intros Hi Ht Hpc Hy Hn.
  assert (∀ s1 pc', task_frame s s1 → pc ≠ WSleep → held_by pc' `sublist_of` held_by pc → held_inv (set_pc t pc' s1)) as Hfr.
  { intros s1 pc' Hf Hs Hh. eapply held_frame_pc; [done|done|done| |]; by rewrite Hpc. }
  assert (∀ pc', held_by pc' `sublist_of` held_by pc → pc ≠ WSleep → held_inv (set_pc t pc' s)) as Hst by (intros; by apply Hfr).
  destruct pc; simpl in Hn; simplify_eq; try (apply Hst; simpl; done).
  - eapply held_less; [exact Hi| |done|intros q; apply upd_some].
    intros h. rewrite (hold_set_pc _ _ _ _ x) by done. destruct (decide (h = HTask t)) as [->|]; [apply sublist_nil_l|].
    by rewrite hold_upd_same.
  - destruct (forallb _ _); by apply Hst.
  - apply Hfr; [by apply task_frame_upd|done|done].
  - apply Hfr; [by apply task_frame_upd|done|done].
  - eapply held_take; [done|done|by rewrite Hpc|done|done|]. by destruct (lp_children y).
  - destruct l as [|c l]; simplify_eq; apply Hfr; try done; [|by apply task_frame_upd].
    destruct hz; [|done]. etrans; [apply task_frame_wake|apply task_frame_signal].
  - eapply held_link; [done|done|by rewrite Hpc|done|]. intros z. case_bool_decide; [by left|by right].
  - apply Hfr; [|done|done]. destruct (lp_sigchld y); [apply task_frame_signal|done].
  - apply Hfr; [|done|done]. case_bool_decide; [apply task_frame_wake|done].
  - destruct (lp_code y); simplify_eq; [by apply Hst|]. apply Hfr; [by apply task_frame_upd|done|done].
  - destruct l as [|c l]; simplify_eq; apply Hst; try done; repeat case_match; done.
  - case_bool_decide; simplify_eq; [|by apply Hst]. eapply held_pick; [done|done|by rewrite Hpc|done|done].
  - by eapply held_reap.
  - eapply held_less; [exact Hi| |done|done]. intros [q|u]; [done|]. simpl. rewrite lookup_alter.
    destruct (decide (t = u)) as [->|]; [|done]. rewrite Ht. simpl. destruct w; apply sublist_nil_l.
Qed.

Lemma held_step s s' : life_step s s' → held_inv s → held_inv s'.
Proof.
  intros [op Hop] Hi. destruct op as [t|t c sg|t u|t|t|t|t]; simpl in Hop.
  - destruct (ls_tasks s !! t) as [x|] eqn:Ht; simpl in Hop; [|done]. destruct (ls_procs s !! lt_pid x) eqn:Hp; simpl in Hop; [|done].
    by eapply held_next.
  - destruct (running_in s t) as [[p y]|] eqn:Hr; simpl in Hop; [|done]. apply running_inv in Hr as (x & Ht & Hpid & Hpc & Hy).
    destruct (ls_procs s !! c) eqn:Hc; [done|]. destruct (ls_tasks s !! c) eqn:Htc; [done|]. simplify_eq. by eapply held_fork.
  - destruct (running_in s t) as [[p y]|] eqn:Hr; simpl in Hop; [|done]. apply running_inv in Hr as (x & Ht & Hpid & Hpc & Hy).
    destruct (ls_procs s !! u) eqn:Hu; [done|]. destruct (ls_tasks s !! u) eqn:Htu; [done|]. simplify_eq.
    eapply held_less; [exact Hi| |done|intros q; apply upd_some]. intros [q|v].
    + change (hold (upd (lt_pid x) (λ z, lp_with_tasks (lp_tasks z ++ [u]) z) s) (HProc q) `sublist_of` hold s (HProc q)).
      by rewrite hold_upd_same.
    + simpl. destruct (decide (u = v)) as [->|]; [by rewrite lookup_insert_eq, Htu|by rewrite lookup_insert_ne].
  - destruct (running_in s t) as [[p y]|] eqn:Hr; simpl in Hop; [|done]. apply running_inv in Hr as (x & Ht & Hpid & Hpc & Hy).
    simplify_eq. eapply held_set_pc; [done|done|]. by rewrite Hpc.
  - destruct (running_in s t) as [[p y]|] eqn:Hr; simpl in Hop; [|done]. apply running_inv in Hr as (x & Ht & Hpid & Hpc & Hy).
    simplify_eq. eapply held_frame_pc; [done| |done|by rewrite Hpc|by rewrite Hpc].
    etrans; [by apply (task_frame_upd s (lt_pid x) lp_with_code)|apply task_frame_foldl].
  - destruct (running_in s t) as [[p y]|] eqn:Hr; simpl in Hop; [|done]. apply running_inv in Hr as (x & Ht & Hpid & Hpc & Hy).
    simplify_eq. eapply held_less; [exact Hi| |done|done]. intros [q|u]; [done|]. simpl. rewrite lookup_alter.
    destruct (decide (t = u)) as [->|]; [|done]. rewrite Ht. simpl. apply sublist_nil_l.
  - destruct (ls_tasks s !! t) as [x|] eqn:Ht; simpl in Hop; [|done]. destruct (lt_pc x) eqn:Hpc; try done. simplify_eq.
    eapply held_less; [exact Hi| |done|done]. intros [q|u]; [done|]. simpl.
    destruct (decide (t = u)) as [->|]; [rewrite lookup_delete_eq; apply sublist_nil_l|by rewrite lookup_delete_ne].
Qed.

Lemma held_start : held_inv life_start.
Proof.
  split; [|simpl; intros c ->%elem_of_singleton; by rewrite lookup_singleton_eq].
  assert (∀ h, hold life_start h = []) as Hh.
  { intros [i|i]; simpl; unfold kids; simpl; (destruct (decide (1 = i)) as [<-|]; [by rewrite lookup_singleton_eq|by rewrite lookup_singleton_ne]). }
  split; intros h; rewrite Hh; [apply NoDup_nil_2|by intros h2 c ?%not_elem_of_nil..|by intros c ?%not_elem_of_nil].
Qed.

Lemma held_reachable s : rtc life_step life_start s → held_inv s.
Proof. intros Hr. eapply rtc_invariant; [|exact Hr|apply held_start]. intros a b Ha Hab. by eapply held_step. Qed.

(** ** A reaped process has no running thread

    A process is finished when all its tasks are past the point where they are
    marked [Zombie]: none of them returns to user mode, forks or waits again. *)

Definition finished (s : LSys) (c : Z) : Prop :=
  is_Some (ls_procs s !! c) ∧ ∀ t x, ls_tasks s !! t = Some x → lt_pid x = c → marked (lt_pc x) = true.

Definition tearing (pc : Pc) : Prop := pc = XUsage ∨ pc = XPublish ∨ pc = XTake.
Definition reaping (pc : Pc) (c : Z) : Prop := pc = WTake c ∨ pc = WReap c.

Record group_inv (s : LSys) : Prop := {
  gi_pid t x : ls_tasks s !! t = Some x → is_Some (ls_procs s !! lt_pid x);
  gi_group t x p : ls_tasks s !! t = Some x → marked (lt_pc x) = false → ls_procs s !! lt_pid x = Some p → t ∈ lp_tasks p;
  gi_last t x : ls_tasks s !! t = Some x → tearing (lt_pc x) → finished s (lt_pid x);
  gi_reap t x c : ls_tasks s !! t = Some x → reaping (lt_pc x) c → finished s c;
  gi_gone c : is_Some (ls_procs s !! c) → c ∉ ls_table s → finished s c }.

(** What a step may do to the tasks: the old ones keep their process and are not
    revived, and an unmarked task of an old process comes from an unmarked one. *)
Record no_revival (s s' : LSys) : Prop := {
  nr_procs p : is_Some (ls_procs s !! p) → is_Some (ls_procs s' !! p);
  nr_task t x' : ls_tasks s' !! t = Some x' → marked (lt_pc x') = false → is_Some (ls_procs s !! lt_pid x') →
    ∃ u x, ls_tasks s !! u = Some x ∧ lt_pid x = lt_pid x' ∧ marked (lt_pc x) = false }.

Lemma finished_mono s s' c : no_revival s s' → finished s c → finished s' c.
Proof.
  intros [Hp Ht] [Hc Hall]. split; [by apply Hp|]. intros t x' Hx' Hpid. destruct (marked (lt_pc x')) eqn:Hm; [done|].
  destruct (Ht t x') as (u & x & Hx & Hpid' & Hm'); [done|done|by rewrite Hpid|]. rewrite (Hall u x) in Hm'; congruence.
Qed.

(** The step of one task [t] to [pc], its process list changed as [Hgrp] allows. *)
Lemma group_step s s' t x pc w : group_inv s → ls_tasks s !! t = Some x →
  (∀ u, u ≠ t → ls_tasks s' !! u = ls_tasks s !! u) → ls_tasks s' !! t = Some (mkLTask (lt_pid x) pc w) →
  (marked (lt_pc x) = true → marked pc = true) →
  (∀ q, is_Some (ls_procs s !! q) ↔ is_Some (ls_procs s' !! q)) →
  (∀ q y y' u z, ls_procs s !! q = Some y → ls_procs s' !! q = Some y' → ls_tasks s' !! u = Some z → lt_pid z = q →
     marked (lt_pc z) = false → u ∈ lp_tasks y → u ∈ lp_tasks y') →
  (tearing pc → finished s (lt_pid x)) → (∀ c, reaping pc c → finished s c) →
  (∀ c, c ∉ ls_table s' → c ∉ ls_table s ∨ finished s c) →
  group_inv s'.
Proof.
  intros Hi Ht Hother Htt Hm Hp Hgrp Htear Hreap Htab.
  assert (∀ u z, ls_tasks s' !! u = Some z → ∃ z0, ls_tasks s !! u = Some z0 ∧ lt_pid z0 = lt_pid z ∧
    (u ≠ t ∧ z = z0 ∨ u = t ∧ z0 = x ∧ z = mkLTask (lt_pid x) pc w)) as Hfrom.
  { intros u z Hz. destruct (decide (u = t)) as [->|Hne]; [|rewrite Hother in Hz by done; eauto 10].
    rewrite Htt in Hz. simplify_eq. eauto 10. }
  assert (no_revival s s') as Hnr.
  { split; [apply Hp|]. intros u z (z0 & Hz0 & Hpid & Hcase)%Hfrom Hmk _. exists u, z0. split_and!; [done|done|].
    destruct Hcase as [[_ ->]|(-> & -> & ->)]; [done|]. simpl in Hmk. destruct (marked (lt_pc x)); [|done]. by rewrite Hm in Hmk. }
  split.
  - intros u z (z0 & Hz0 & Hpid & _)%Hfrom. rewrite <- Hp, <- Hpid. by eapply (gi_pid _ Hi).
  - intros u z y' Hz Hmk Hy'. destruct (Hfrom _ _ Hz) as (z0 & Hz0 & Hpid & Hcase).
    destruct (proj2 (Hp (lt_pid z))) as [y Hy]; [by rewrite Hy'|]. eapply Hgrp; [done|done|done|done|done|].
    eapply (gi_group _ Hi); [exact Hz0| |by rewrite Hpid]. destruct Hcase as [[_ ->]|(-> & -> & ->)]; [done|].
    simpl in Hmk. destruct (marked (lt_pc x)); [by rewrite Hm in Hmk|done].
  - intros u z Hz Htr. destruct (Hfrom _ _ Hz) as (z0 & Hz0 & Hpid & [[_ ->]|(-> & -> & ->)]); eapply finished_mono; try done.
    + by eapply (gi_last _ Hi).
    + by apply Htear.
  - intros u z c Hz Htr. destruct (Hfrom _ _ Hz) as (z0 & Hz0 & Hpid & [[_ ->]|(-> & -> & ->)]); eapply finished_mono; try done.
    + by eapply (gi_reap _ Hi).
    + by apply Hreap.
  - intros c Hc Hn. eapply finished_mono; [done|]. destruct (Htab _ Hn); [|done]. apply (gi_gone _ Hi); [by apply Hp|done].
Qed.

Lemma group_frame s s' : group_inv s → task_frame s s' → group_inv s'.
Proof.
  intros Hi Hf.
  assert (no_revival s s') as Hnr.
  { split; [apply (tf_procs _ _ Hf)|]. intros t x' Hx' Hm _. destruct (tf_task _ _ Hf _ _ Hx') as (x & Hx & Hpid & Hpc).
    exists t, x. split_and!; [done|done|]. destruct Hpc as [Hpc|[-> _]]; [congruence|done]. }
  split.
  - intros t x' Hx'. destruct (tf_task _ _ Hf _ _ Hx') as (x & Hx & Hpid & _). rewrite (tf_procs _ _ Hf), Hpid. by eapply (gi_pid _ Hi).
  - intros t x' p Hx' Hm Hp. destruct (tf_task _ _ Hf _ _ Hx') as (x & Hx & Hpid & Hpc).
    pose proof (tf_group _ _ Hf (lt_pid x')) as Hg. rewrite Hp, Hpid in Hg. simpl in Hg.
    destruct (ls_procs s !! lt_pid x) as [y|] eqn:Hy; simplify_eq/=. rewrite Hg. eapply (gi_group _ Hi); [done| |done].
    destruct Hpc as [Hpc|[-> _]]; [congruence|done].
  - intros t x' Hx' Htr. destruct (tf_task _ _ Hf _ _ Hx') as (x & Hx & Hpid & Hpc). eapply finished_mono; [done|]. rewrite Hpid.
    eapply (gi_last _ Hi); [done|]. destruct Hpc as [<-|[_ E]]; [done|]. rewrite E in Htr. unfold tearing in Htr. naive_solver.
  - intros t x' c Hx' Htr. destruct (tf_task _ _ Hf _ _ Hx') as (x & Hx & Hpid & Hpc). eapply finished_mono; [done|].
    eapply (gi_reap _ Hi); [done|]. destruct Hpc as [<-|[_ E]]; [done|]. rewrite E in Htr. unfold reaping in Htr. naive_solver.
  - intros c Hc Hn. eapply finished_mono; [done|]. apply (gi_gone _ Hi); [by apply (tf_procs _ _ Hf)|by rewrite <- (tf_table _ _ Hf)].
Qed.

(** A step of [t] over a process update [f] and a table [M]. *)
Lemma group_upd s t x pc p f M : group_inv s → ls_tasks s !! t = Some x →
  (marked (lt_pc x) = true → marked pc = true) →
  (∀ y u z, ls_procs s !! p = Some y → ls_tasks s !! u = Some z → lt_pid z = p → (u ≠ t → marked (lt_pc z) = false) → (u = t → marked pc = false) →
     u ∈ lp_tasks y → u ∈ lp_tasks (f y)) →
  (tearing pc → finished s (lt_pid x)) → (∀ c, reaping pc c → finished s c) →
  (∀ c, c ∉ M → c ∉ ls_table s ∨ finished s c) →
  group_inv (set_pc t pc (mkLSys (ls_procs (upd p f s)) (ls_tasks s) M)).
Proof.
  intros Hi Ht Hm Hf Htear Hreap HM.
  apply (group_step s _ t x pc (lt_woke x)); try done; simpl.
  - intros u Hu. by rewrite lookup_alter_ne.
  - by rewrite lookup_alter_eq, Ht.
  - intros q. symmetry. apply (upd_some s p f).
  - intros q y y' u z Hy. rewrite lookup_alter. destruct (decide (p = q)) as [->|]; [|intros; congruence].
    rewrite Hy. intros [= <-] Hz Hpid Hmk. rewrite lookup_alter in Hz. destruct (decide (t = u)) as [->|Hne].
    + rewrite Ht in Hz. simplify_eq/=. eapply Hf; eauto; done.
    + eapply Hf; eauto. intros ->. done.
Qed.

Lemma group_frame_pc s s' t pc x : group_inv s → task_frame s s' → ls_tasks s !! t = Some x → lt_pc x ≠ WSleep →
  (marked (lt_pc x) = true → marked pc = true) → (tearing pc → finished s (lt_pid x)) → (∀ c, reaping pc c → finished s c) →
  group_inv (set_pc t pc s').
Proof.
  intros Hi Hf Ht Hns Hm Htear Hreap. destruct (proj2 (tf_some _ _ Hf t)) as [x' Hx']; [by rewrite Ht|].
  destruct (tf_task _ _ Hf _ _ Hx') as (y & Hy & Hpid & Hpc). assert (lt_pc x' = lt_pc x) as E by (destruct Hpc as [?|[? _]]; congruence).
  assert (∀ c, finished s c → finished s' c) as Hfin.
  { intros c [Hc Hall]. split; [by apply (tf_procs _ _ Hf)|]. intros u z Hz <-. destruct (tf_task _ _ Hf _ _ Hz) as (z0 & Hz0 & Hp0 & Hpc0).
    pose proof (Hall u z0 Hz0 (eq_sym Hp0)) as H0. destruct Hpc0 as [->|[E0 _]]; [done|]. by rewrite E0 in H0. }
  simplify_eq. eapply (group_step s' _ t x' pc (lt_woke x')); simpl; try done.
  - by eapply group_frame.
  - intros u Hu. by rewrite lookup_alter_ne.
  - by rewrite lookup_alter_eq, Hx'.
  - by rewrite E.
  - intros q z z' u v Hz Hz' _ _ _. congruence.
  - intros Hp%Htear. rewrite Hpid. by apply Hfin.
  - intros c Hp%Hreap. by apply Hfin.
  - auto.
Qed.

(** Only the record of [t] changes. *)
Lemma group_retask s t x pc w : group_inv s → ls_tasks s !! t = Some x → (marked (lt_pc x) = true → marked pc = true) →
  ¬ tearing pc → (∀ c, ¬ reaping pc c) →
  group_inv (mkLSys (ls_procs s) (alter (λ y, mkLTask (lt_pid y) pc w) t (ls_tasks s)) (ls_table s)).
Proof.
  intros Hi Ht Hm H1 H2. apply (group_step s _ t x pc w); simpl; try done; [by intros; apply lookup_alter_ne|by rewrite lookup_alter_eq, Ht| | |auto].
  - intros q z z' u v Hz Hz'. congruence.
  - by intros c ?%H2.
Qed.

(** Nobody in the group is unmarked: the test of the last thread. *)
Lemma last_thread s p y : group_inv s → ls_procs s !! p = Some y → forallb (task_zombie s) (lp_tasks y) = true → finished s p.
Proof.
  intros Hi Hy Hall. split; [by rewrite Hy|]. intros u z Hz <-. destruct (marked (lt_pc z)) eqn:Hm; [done|].
  assert (u ∈ lp_tasks y) as Hu by (by eapply (gi_group _ Hi)).
  rewrite forallb_forall in Hall. specialize (Hall u (proj1 (list_elem_of_In _ _) Hu)). unfold task_zombie in Hall.
  rewrite Hz, Hm in Hall. done.
Qed.

Lemma reapable_finished s c : group_inv s → reapable s c = true → finished s c.
Proof.
  intros Hi. unfold reapable. destruct (ls_procs s !! c) as [y|] eqn:Hy; [|done]. intros [_ Hall]%andb_prop.
  split; [by rewrite Hy|]. intros u z Hz <-. destruct (marked (lt_pc z)) eqn:Hm; [done|].
  assert (u ∈ lp_tasks y) as Hu by (by eapply (gi_group _ Hi)).
  rewrite forallb_forall in Hall. specialize (Hall u (proj1 (list_elem_of_In _ _) Hu)). apply bool_decide_eq_true_1 in Hall. congruence.
Qed.

(** The new place is none where something is claimed of a process. *)
Local Ltac not_here := try solve [done | intros [[=]|[[=]|[=]]] | intros ? [[=]|[=]] | auto].

Lemma group_next s t p y pc w s' x : group_inv s → ls_tasks s !! t = Some x → lt_pc x = pc → lt_pid x = p → ls_procs s !! p = Some y →
  next s t p y pc w = Some s' → group_inv s'.
Proof.
  intros Hi Ht Hpc Hpid Hy Hn.
  assert (∀ s1 pc', task_frame s s1 → pc ≠ WSleep → (marked pc = true → marked pc' = true) → (tearing pc' → finished s p) →
    (∀ c, reaping pc' c → finished s c) → group_inv (set_pc t pc' s1)) as Hfr.
  { intros s1 pc' Hf Hs Hm H1 H2. eapply group_frame_pc; [done|done|done|by rewrite Hpc|by rewrite Hpc|by rewrite Hpid|done]. }
  assert (∀ s1 pc', task_frame s s1 → pc ≠ WSleep → (marked pc = true → marked pc' = true) → ¬ tearing pc' →
    (∀ c, ¬ reaping pc' c) → group_inv (set_pc t pc' s1)) as Hfq.
  { intros s1 pc' Hf Hs Hm H1 H2. apply Hfr; try done. by intros c ?%H2. }
  assert (tearing pc → finished s p) as Hlast by (intros H; rewrite <- Hpid; eapply (gi_last _ Hi); [done|by rewrite Hpc]).
  assert (∀ c, reaping pc c → finished s c) as Hre by (intros c H; eapply (gi_reap _ Hi); [done|by rewrite Hpc]).
  unfold tearing, reaping in *.
  destruct pc; simpl in Hn; simplify_eq; try (apply Hfq; simpl; [done|done|done|not_here|not_here]).
  - apply (group_upd s t x XCheck (lt_pid x) _ (ls_table s)); try done; unfold tearing, reaping; not_here.
    intros z u v Hz Hv Hpv Hne Heq Hu. simpl. apply list_elem_of_filter. split; [|done]. intros ->. by specialize (Heq eq_refl).
  - destruct (forallb _ _) eqn:Hall; [|apply Hfq; [done|done|done|not_here|not_here]].
    apply Hfr; try done; [|not_here]. intros _. by eapply last_thread.
  - apply Hfr; [by apply task_frame_upd|done|done|auto|not_here].
  - apply Hfr; [by apply task_frame_upd|done|done|auto|not_here].
  - destruct Hlast as [_ Hall]; [auto|]. apply (group_upd s t x _ (lt_pid x) _ (ls_table s)); try done.
    + by destruct (lp_children y).
    + intros z u v Hz Hv Hpv Hne Heq Hu. exfalso. destruct (decide (u = t)) as [->|Hd].
      * specialize (Heq eq_refl). by destruct (lp_children y).
      * specialize (Hne Hd). by rewrite (Hall u v) in Hne.
    + unfold tearing. destruct (lp_children y); not_here.
    + unfold reaping. destruct (lp_children y); not_here.
  - destruct l as [|c l]; simplify_eq; (apply Hfq; [|done|done|not_here|not_here]); [|by apply task_frame_upd].
    destruct hz; [|done]. etrans; [apply task_frame_wake|apply task_frame_signal].
  - apply (group_upd s t x _ INIT_PID _ (ls_table s)); try done; unfold tearing, reaping; not_here.
    intros z u v _ _ _ _ _ Hu. case_bool_decide; done.
  - apply Hfq; [|done|done|not_here|not_here]. destruct (lp_sigchld y); [apply task_frame_signal|done].
  - apply Hfq; [|done|done|not_here|not_here]. case_bool_decide; [apply task_frame_wake|done].
  - destruct (lp_code y); simplify_eq; (apply Hfq; [|done|done|not_here|not_here]); [done|by apply task_frame_upd].
  - destruct l as [|c l]; simplify_eq.
    + destruct any; (apply Hfq; [done|done|done|not_here|not_here]).
    + destruct (reapable s c) eqn:Hc; [|apply Hfq; [done|done|done|not_here|not_here]].
      apply Hfr; [done|done|done|not_here|]. intros d [[= <-]|[=]]. by apply reapable_finished.
  - case_bool_decide; simplify_eq; [|apply Hfq; [done|done|done|not_here|not_here]].
    apply (group_upd s t x _ (lt_pid x) _ (ls_table s)); try done; unfold tearing, reaping; not_here.
    { by rewrite Hpc. }
    intros d [[=]|[= <-]]. apply Hre. auto.
  - apply (group_step s _ t x Run (lt_woke x)); simpl; try done; unfold tearing, reaping; not_here.
    + intros u Hu. by rewrite lookup_alter_ne.
    + by rewrite lookup_alter_eq, Ht.
    + by rewrite Hpc.
    + intros q z z' u v Hz Hz'. congruence.
    + intros d Hd. destruct (decide (d = c)) as [->|]; [right; apply Hre; auto|left; set_solver].
  - eapply (group_retask s t x (if w then WPoll else WSleep) false); try done; [by rewrite Hpc|unfold tearing; by destruct w; intros [|[]]|].
    unfold reaping. by destruct w; intros c []. 
Qed.

(** New tasks and tasks that are freed. *)
Lemma group_fork s p y c z w : group_inv s → ls_procs s !! p = Some y → ls_procs s !! c = None → ls_tasks s !! c = None →
  lp_tasks z = [c] →
  group_inv (mkLSys (<[c := z]> (alter (λ x, lp_with_children (lp_children x ++ [c]) x) p (ls_procs s)))
               (<[c := mkLTask c Run w]> (ls_tasks s)) ({[c]} ∪ ls_table s)).
Proof.
  intros Hi Hy Hc Htc Hz. set (f := λ x, lp_with_children (lp_children x ++ [c]) x).
  assert (∀ q, q ≠ c → ∃ g, (∀ x, lp_tasks (g x) = lp_tasks x) ∧ <[c := z]> (alter f p (ls_procs s)) !! q = g <$> ls_procs s !! q) as Hq.
  { intros q Hne. rewrite lookup_insert_ne, lookup_alter by done. destruct (decide (p = q)) as [->|]; [by exists f|].
    exists id. split; [done|]. by destruct (ls_procs s !! q). }
  assert (∀ t x, ls_tasks s !! t = Some x → lt_pid x ≠ c) as Hpid by (intros t x [? ?]%(gi_pid _ Hi) E; congruence).
  assert (∀ t x, <[c := mkLTask c Run w]> (ls_tasks s) !! t = Some x → ls_tasks s !! t = Some x ∨ x = mkLTask c Run w ∧ t = c) as Hfrom.
  { intros t x. destruct (decide (t = c)) as [->|]; [rewrite lookup_insert_eq; intros [= <-]; auto|rewrite lookup_insert_ne by done; auto]. }
  set (s' := mkLSys _ _ _).
  assert (∀ d, finished s d → finished s' d) as Hfin.
  { intros d [Hd Hall]. assert (d ≠ c) as Hne by (intros ->; destruct Hd; congruence). split; simpl.
    - destruct (Hq d Hne) as (g & _ & ->). by apply fmap_is_Some.
    - intros t x [Hx|[-> ->]]%Hfrom Hdx; [by eapply Hall|]. simpl in Hdx. congruence. }
  split; simpl.
  - intros t x [Hx|[-> ->]]%Hfrom; [|by rewrite lookup_insert_eq]. destruct (Hq (lt_pid x)) as (g & _ & ->); [by eapply Hpid|].
    apply fmap_is_Some. by eapply (gi_pid _ Hi).
  - intros t x q [Hx|[-> ->]]%Hfrom Hm; [|rewrite lookup_insert_eq; intros [= <-]; rewrite Hz; by left].
    destruct (Hq (lt_pid x)) as (g & Hg & ->); [by eapply Hpid|]. intros (q0 & Hq0 & ->)%fmap_Some. rewrite Hg. by eapply (gi_group _ Hi).
  - intros t x [Hx|[-> ->]]%Hfrom Htr; [|by destruct Htr as [|[]]]. eapply Hfin, (gi_last _ Hi); done.
  - intros t x d [Hx|[-> ->]]%Hfrom Htr; [|by destruct Htr]. eapply Hfin, (gi_reap _ Hi); done.
  - intros d Hd [Hdc Hdt]%not_elem_of_union. apply not_elem_of_singleton in Hdc. destruct (Hq d) as (g & _ & E); [done|].
    rewrite E in Hd. apply Hfin, (gi_gone _ Hi); [by apply fmap_is_Some in Hd|done].
Qed.

Lemma group_thread s t x y u w : group_inv s → ls_tasks s !! t = Some x → lt_pc x = Run → ls_procs s !! lt_pid x = Some y →
  ls_tasks s !! u = None →
  group_inv (mkLSys (alter (λ z, lp_with_tasks (lp_tasks z ++ [u]) z) (lt_pid x) (ls_procs s))
               (<[u := mkLTask (lt_pid x) Run w]> (ls_tasks s)) (ls_table s)).
Proof.
  intros Hi Ht Hpc Hy Hu. set (s' := mkLSys _ _ _).
  assert (∀ v z, <[u := mkLTask (lt_pid x) Run w]> (ls_tasks s) !! v = Some z → ls_tasks s !! v = Some z ∨ z = mkLTask (lt_pid x) Run w ∧ v = u) as Hfrom.
  { intros v z. destruct (decide (v = u)) as [->|]; [rewrite lookup_insert_eq; intros [= <-]; auto|rewrite lookup_insert_ne by done; auto]. }
  assert (∀ q, is_Some (ls_procs s' !! q) ↔ is_Some (ls_procs s !! q)) as Hq by apply upd_some.
  assert (∀ d, finished s d → finished s' d) as Hfin.
  { intros d. apply finished_mono. split; [intros q; apply Hq|]. intros v z [Hz|[-> ->]]%Hfrom Hm _; [eauto|].
    exists t, x. by rewrite Hpc. }
  split; simpl.
  - intros v z [Hz|[-> ->]]%Hfrom; apply Hq; [by eapply (gi_pid _ Hi)|by exists y].
  - intros v z q [Hz|[-> ->]]%Hfrom Hm; simpl; rewrite lookup_alter.
    + destruct (decide (lt_pid x = lt_pid z)) as [E|]; [|by eapply (gi_group _ Hi)]. intros (q0 & Hq0 & ->)%fmap_Some. simpl.
      apply elem_of_app. left. eapply (gi_group _ Hi v z); [done|done|congruence].
    + rewrite decide_True, Hy by done. intros [= <-]. simpl. apply elem_of_app. right. by left.
  - intros v z [Hz|[-> ->]]%Hfrom Htr; [|by destruct Htr as [|[]]]. eapply Hfin, (gi_last _ Hi); done.
  - intros v z d [Hz|[-> ->]]%Hfrom Htr; [|by destruct Htr]. eapply Hfin, (gi_reap _ Hi); done.
  - intros d Hd Hn. apply Hfin, (gi_gone _ Hi); [by apply Hq|done].
Qed.

Lemma group_free s t : group_inv s → group_inv (mkLSys (ls_procs s) (delete t (ls_tasks s)) (ls_table s)).
Proof.
  intros Hi. set (s' := mkLSys _ _ _).
  assert (∀ v z, delete t (ls_tasks s) !! v = Some z → ls_tasks s !! v = Some z) as Hfrom by (intros v z [_ ?]%lookup_delete_Some; done).
  assert (∀ d, finished s d → finished s' d) as Hfin.
  { intros d. apply finished_mono. split; [done|]. intros v z Hz%Hfrom Hm _. eauto. }
  split; simpl.
  - intros v z Hz%Hfrom. by eapply (gi_pid _ Hi).
  - intros v z q Hz%Hfrom. by eapply (gi_group _ Hi).
  - intros v z Hz%Hfrom Htr. eapply Hfin, (gi_last _ Hi); done.
  - intros v z d Hz%Hfrom Htr. eapply Hfin, (gi_reap _ Hi); done.
  - intros d Hd Hn. apply Hfin, (gi_gone _ Hi); done.
Qed.

Lemma group_step_op s s' : life_step s s' → group_inv s → group_inv s'.
Proof.
  intros [op Hop] Hi. destruct op as [t|t c sg|t u|t|t|t|t]; simpl in Hop.
  - destruct (ls_tasks s !! t) as [x|] eqn:Ht; simpl in Hop; [|done]. destruct (ls_procs s !! lt_pid x) eqn:Hp; simpl in Hop; [|done].
    by eapply group_next.
  - destruct (running_in s t) as [[p y]|] eqn:Hr; simpl in Hop; [|done]. apply running_inv in Hr as (x & Ht & Hpid & Hpc & Hy).
    destruct (ls_procs s !! c) eqn:Hc; [done|]. destruct (ls_tasks s !! c) eqn:Htc; [done|]. simplify_eq. by eapply group_fork.
  - destruct (running_in s t) as [[p y]|] eqn:Hr; simpl in Hop; [|done]. apply running_inv in Hr as (x & Ht & Hpid & Hpc & Hy).
    destruct (ls_procs s !! u) eqn:Hu; [done|]. destruct (ls_tasks s !! u) eqn:Htu; [done|]. simplify_eq. by eapply group_thread.
  - destruct (running_in s t) as [[p y]|] eqn:Hr; simpl in Hop; [|done]. apply running_inv in Hr as (x & Ht & Hpid & Hpc & Hy).
    simplify_eq. by eapply group_frame_pc; [done|reflexivity|done|rewrite Hpc..|intros [|[]]|intros ? []].
  - destruct (running_in s t) as [[p y]|] eqn:Hr; simpl in Hop; [|done]. apply running_inv in Hr as (x & Ht & Hpid & Hpc & Hy).
    simplify_eq. eapply group_frame_pc; [done| |done|by rewrite Hpc|by rewrite Hpc|by intros [|[]]|by intros ? []].
    etrans; [by apply (task_frame_upd s (lt_pid x) lp_with_code)|apply task_frame_foldl].
  - destruct (running_in s t) as [[p y]|] eqn:Hr; simpl in Hop; [|done]. apply running_inv in Hr as (x & Ht & Hpid & Hpc & Hy).
    simplify_eq. by eapply group_retask; [done|done|rewrite Hpc|intros [|[]]|intros ? []].
  - destruct (ls_tasks s !! t) as [x|] eqn:Ht; simpl in Hop; [|done]. destruct (lt_pc x) eqn:Hpc; try done. simplify_eq.
    by eapply group_free.
Qed.

Lemma group_start : group_inv life_start.
Proof.
  assert (∀ t x, ls_tasks life_start !! t = Some x → t = 1 ∧ x = mkLTask 1 Run false) as Ht.
  { simpl. intros t x [<- <-]%lookup_singleton_Some. done. }
  split.
  - intros t x [_ ->]%Ht. simpl. by rewrite lookup_singleton_eq.
  - intros t x p [-> ->]%Ht _. simpl. rewrite lookup_singleton_eq. intros [= <-]. by left.
  - by intros t x [_ ->]%Ht [|[]].
  - by intros t x c [_ ->]%Ht [].
  - simpl. intros c [x [<- _]%lookup_singleton_Some]. set_solver.
Qed.

Lemma group_reachable s : rtc life_step life_start s → group_inv s.
Proof. intros Hr. eapply rtc_invariant; [|exact Hr|apply group_start]. intros a b Ha Hab. by eapply group_step_op. Qed.

(** [C16] In every interleaving of forks, exits, adoptions and waits a child is in the
    list of at most one process and once in it; the task that is about to remove a
    reaped child from the process table finds it there, no list has it any more,
    and no other task is reaping it. *)
Theorem one_holder s : rtc life_step life_start s →
  (∀ p, NoDup (kids s p)) ∧
  (∀ p q c, c ∈ kids s p → c ∈ kids s q → p = q) ∧
  (∀ p c, c ∈ kids s p → c ∈ ls_table s) ∧
  (∀ t c, pc_of s t = Some (WReap c) → c ∈ ls_table s ∧ (∀ p, c ∉ kids s p) ∧ ∀ u, pc_of s u = Some (WReap c) → u = t).
Proof.
  intros [Hu _]%held_reachable. split_and!.
  - intros p. apply (uh_nodup _ _ Hu (HProc p)).
  - intros p q c Hp Hq. by injection (uh_one _ _ Hu (HProc p) (HProc q) c Hp Hq).
  - intros p c. apply (uh_in _ _ Hu (HProc p)).
  - assert (∀ t c, pc_of s t = Some (WReap c) → c ∈ hold s (HTask t)) as Hin.
    { unfold pc_of. intros t c. simpl. destruct (ls_tasks s !! t); simpl; [|done]. intros [= ->]. by left. }
    intros t c Ht%Hin. split_and!; [by eapply (uh_in _ _ Hu)| |].
    + intros p Hp. by pose proof (uh_one _ _ Hu (HTask t) (HProc p) c Ht Hp).
    + intros u Hu'%Hin. by injection (uh_one _ _ Hu (HTask u) (HTask t) c Hu' Ht).
Qed.

Definition reap_run : list LifeOp :=
  [LFork 1 2 true; LWait 1; LExitGroup 2] ++ steps 1 1 ++ steps 2 2 ++ steps 1 2.

Lemma one_holder_witness :
  pc_of (life_state reap_run) 1 = Some (WReap 2) ∧ 2 ∈ ls_table (life_state reap_run).
Proof.
  assert (pc_of (life_state reap_run) 1 = Some (WReap 2)) as Hp by (vm_compute; reflexivity). split; [exact Hp|].
  refine (proj1 (proj2 (proj2 (proj2 (one_holder (life_state reap_run) _))) 1 2 Hp)).
  apply life_state_rtc. eexists. vm_compute. reflexivity.
Defined.


