(* ===== verification/Memfd.v ===== *)
(** * Anonymous files and their shared mappings

    [fs/files/tmp_file.rs]: the files of [O_TMPFILE] and [memfd_create], with
    seals, shared mappings of their pages and write-back.

    The state shared by all descriptors of a file is [MemFd]; a descriptor adds
    its access, its append flag and its offset.  A page frame is known by the
    identity of its [Arc]; a weak reference upgrades as long as the frame is in
    [mf_frames].  Growing a [Vec] beyond [vec_limit] bytes panics; the limit is a
    parameter, at most [isize::MAX]. *)

From S2P Require Import Prelude Errno Bytes.

(** ** The state *)

Definition F_SEAL_SEAL : Z := 1.
Definition F_SEAL_SHRINK : Z := 2.
Definition F_SEAL_GROW : Z := 4.
Definition F_SEAL_WRITE : Z := 8.
Definition F_SEAL_FUTURE_WRITE : Z := 16.
Definition F_SEAL_EXEC : Z := 32.
Definition WRITE_SEALS : Z := Z.lor F_SEAL_WRITE F_SEAL_FUTURE_WRITE.
Definition SUPPORTED_SEALS : Z := 63.
Definition FALLOC_FL_KEEP_SIZE : Z := 1.
Definition FALLOC_FL_PUNCH_HOLE : Z := 2.
Definition PAGE : Z := 4096.

Record MemFd : Type := mkMemFd {
  mf_data : list Z; mf_seals : Z; writable_shared_mappings : Z; shared_pages : gmap Z Z; mf_frames : gmap Z (list Z) }.
Record TmpFile : Type := mkTmpFile {
  tf_readable : bool; tf_writable : bool; is_memfd : bool; allow_sealing : bool; tf_append : bool; tf_offset : Z }.
Record TmpFileMmapBacking : Type := mkBacking { b_shared : bool; b_writable_shared : bool }.

Definition with_data (st : MemFd) (d : list Z) : MemFd :=
  mkMemFd d (mf_seals st) (writable_shared_mappings st) (shared_pages st) (mf_frames st).
Definition with_seals (st : MemFd) (s : Z) : MemFd :=
  mkMemFd (mf_data st) s (writable_shared_mappings st) (shared_pages st) (mf_frames st).
Definition with_mappings (st : MemFd) (n : Z) : MemFd :=
  mkMemFd (mf_data st) (mf_seals st) n (shared_pages st) (mf_frames st).
Definition with_pages (st : MemFd) (p : gmap Z Z) (f : gmap Z (list Z)) : MemFd :=
  mkMemFd (mf_data st) (mf_seals st) (writable_shared_mappings st) p f.
Definition with_offset (fl : TmpFile) (o : Z) : TmpFile :=
  mkTmpFile (tf_readable fl) (tf_writable fl) (is_memfd fl) (allow_sealing fl) (tf_append fl) o.

Definition new_with_seals (readable writable allow noexec memfd : bool) : MemFd * TmpFile :=
  (mkMemFd [] (Z.lor (if allow then 0 else F_SEAL_SEAL) (if noexec then F_SEAL_EXEC else 0)) 0 ∅ ∅,
   mkTmpFile readable writable memfd allow false 0).

Definition has (flags m : Z) : bool := negb (Z.land flags m =? 0).

(** ** Shared pages *)

Definition page_bounds (len page_index : Z) : option (Z * Z) :=
  start ← checked_mul page_index PAGE;
  if start <? len then Some (start, Z.min (len - start) PAGE) else None.

Definition live_pages (st : MemFd) : gmap Z Z :=
  filter (λ p, is_Some (mf_frames st !! p.2)) (shared_pages st).

Definition flush_page (frames : gmap Z (list Z)) (d : list Z) (p : Z * Z) : list Z :=
  match frames !! p.2 with
  | None => d
  | Some bytes =>
      match page_bounds (data_len d) p.1 with
      | None => d
      | Some (start, valid_len) => splice d start (slice bytes 0 valid_len)
      end
  end.
Definition flush_shared_pages (st : MemFd) : MemFd :=
  let pages := live_pages st in
  mkMemFd (foldl (flush_page (mf_frames st)) (mf_data st) (map_to_list pages)) (mf_seals st)
    (writable_shared_mappings st) pages (mf_frames st).

(** What a page of a file shows: its bytes and zeros beyond the end. *)
Definition page_bytes (d : list Z) (page_index : Z) : list Z :=
  match page_bounds (data_len d) page_index with
  | None => zeros PAGE
  | Some (start, valid_len) => slice d start valid_len ++ zeros (PAGE - valid_len)
  end.
Definition refresh_page (d : list Z) (frames : gmap Z (list Z)) (p : Z * Z) : gmap Z (list Z) :=
  match frames !! p.2 with None => frames | Some _ => <[p.2 := page_bytes d p.1]> frames end.
Definition refresh_shared_pages (st : MemFd) : MemFd :=
  let pages := live_pages st in
  with_pages st pages (foldl (refresh_page (mf_data st)) (mf_frames st) (map_to_list pages)).

(** [allows_write], [shared_page] with the frame the allocator gives,
    [load_page], [writeback_page]. *)
Definition allows_write (st : MemFd) (b : TmpFileMmapBacking) : bool :=
  negb (b_shared b) || negb (has (mf_seals st) WRITE_SEALS).

Definition shared_page (st : MemFd) (b : TmpFileMmapBacking) (page_index : Z) (alloc : option Z) :
    MemFd * result SysErrNo (option Z) :=
  if negb (b_shared b) then (st, Ok None)
  else
    match (f ← shared_pages st !! page_index; _ ← mf_frames st !! f; Some f) with
    | Some f => (st, Ok (Some f))
    | None =>
        match page_bounds (data_len (mf_data st)) page_index with
        | None => (st, Ok None)
        | Some (start, valid_len) =>
            match alloc with
            | None => (st, Err ENOMEM)
            | Some f =>
                let bytes := slice (mf_data st) start valid_len ++ zeros (PAGE - valid_len) in
                (with_pages st (<[page_index := f]> (shared_pages st)) (<[f := bytes]> (mf_frames st)), Ok (Some f))
            end
        end
    end.

(** The bytes that [load_page] copies into the frame of the caller. *)
Definition load_page (st : MemFd) (page_index : Z) : MemFd * option (list Z) :=
  let st := flush_shared_pages st in
  (st, '(start, valid_len) ← page_bounds (data_len (mf_data st)) page_index; Some (slice (mf_data st) start valid_len)).

Definition writeback_page (st : MemFd) (b : TmpFileMmapBacking) (page_index : Z) (frame : list Z) : MemFd :=
  if negb (b_shared b) then st
  else
    match page_bounds (data_len (mf_data st)) page_index with
    | None => st
    | Some (start, valid_len) => with_data st (splice (mf_data st) start (slice frame 0 valid_len))
    end.

(** ** Operations of a descriptor *)

Section operations.
Context (vec_limit : Z).

(** [Vec::resize(size, 0)]. *)
Definition vec_resize (d : list Z) (size : Z) : comp (list Z) :=
  if vec_limit <? size then Panic
  else Done (take (Z.to_nat size) d ++ zeros (size - data_len d)).

(** [tmp_read] into a buffer of [n] bytes. *)
Definition tmp_read (st : MemFd) (fl : TmpFile) (n : Z) : MemFd * TmpFile * list Z :=
  let st := flush_shared_pages st in
  if data_len (mf_data st) <=? tf_offset fl then (st, fl, [])
  else
    let end_ := Z.min (tf_offset fl + n) (data_len (mf_data st)) in
    let bytes := slice (mf_data st) (tf_offset fl) (end_ - tf_offset fl) in
    (st, with_offset fl (tf_offset fl + data_len bytes), bytes).

Definition tmp_write (st : MemFd) (fl : TmpFile) (bytes : list Z) : comp (MemFd * TmpFile * SyscallRet) :=
  let st := flush_shared_pages st in
  let seals := mf_seals st in
  if has seals WRITE_SEALS then Done (st, fl, Err EPERM)
  else
    let fl := if tf_append fl then with_offset fl (data_len (mf_data st)) else fl in
    match checked_add (tf_offset fl) (data_len bytes) with
    | None => Done (st, fl, Err EFBIG)
    | Some end_ =>
        let grows := data_len (mf_data st) <? end_ in
        if grows && has seals F_SEAL_GROW then Done (st, fl, Err EPERM)
        else
          d ← (if grows then vec_resize (mf_data st) end_ else Done (mf_data st));
          let st := refresh_shared_pages (with_data st (splice d (tf_offset fl) bytes)) in
          Done (st, with_offset fl end_, Ok (data_len bytes))
    end.

Definition tmp_truncate (st : MemFd) (fl : TmpFile) (size : Z) : comp (MemFd * TmpFile * SyscallRet) :=
  let st := flush_shared_pages st in
  let seals := mf_seals st in
  if ((size <? data_len (mf_data st)) && has seals F_SEAL_SHRINK)
     || ((data_len (mf_data st) <? size) && has seals F_SEAL_GROW) then Done (st, fl, Err EPERM)
  else
    d ← vec_resize (mf_data st) size;
    let fl := if size <? tf_offset fl then with_offset fl size else fl in
    Done (refresh_shared_pages (with_data st d), fl, Ok 0).

Definition tmp_fallocate (st : MemFd) (fl : TmpFile) (mode offset len : Z) : comp (MemFd * SyscallRet) :=
  if negb (is_memfd fl) then Done (st, Err EOPNOTSUPP)
  else if negb (Z.ldiff mode (Z.lor FALLOC_FL_KEEP_SIZE FALLOC_FL_PUNCH_HOLE) =? 0) then Done (st, Err EOPNOTSUPP)
  else if has mode FALLOC_FL_PUNCH_HOLE && negb (has mode FALLOC_FL_KEEP_SIZE) then Done (st, Err EINVAL)
  else
    match checked_add offset len with
    | None => Done (st, Err EFBIG)
    | Some end_ =>
        let st := flush_shared_pages st in
        let seals := mf_seals st in
        let d := mf_data st in
        if has mode FALLOC_FL_PUNCH_HOLE then
          if has seals WRITE_SEALS then Done (st, Err EPERM)
          else
            let punch_end := Z.min end_ (data_len d) in
            let d := if offset <? punch_end then splice d offset (zeros (punch_end - offset)) else d in
            Done (refresh_shared_pages (with_data st d), Ok 0)
        else if negb (has mode FALLOC_FL_KEEP_SIZE) && (data_len d <? end_) then
          if has seals F_SEAL_GROW then Done (st, Err EPERM)
          else d ← vec_resize d end_; Done (refresh_shared_pages (with_data st d), Ok 0)
        else Done (refresh_shared_pages st, Ok 0)
    end.
End operations.

Definition tmp_lseek (st : MemFd) (fl : TmpFile) (offset whence : Z) : TmpFile * SyscallRet :=
  match (if whence =? 0 then Some 0
         else if whence =? 1 then Some (tf_offset fl)
         else if whence =? 2 then Some (data_len (mf_data st)) else None) with
  | None => (fl, Err EINVAL)
  | Some base =>
      let new_offset := base + offset in
      if negb (new_offset <=? i64_max) || (new_offset <? 0) then (fl, Err EINVAL)
      else (with_offset fl new_offset, Ok new_offset)
  end.

Definition get_seals (st : MemFd) (fl : TmpFile) : result SysErrNo Z := if is_memfd fl then Ok (mf_seals st) else Err EINVAL.

Definition add_seals (st : MemFd) (fl : TmpFile) (seals : Z) : MemFd * result SysErrNo unit :=
  if negb (is_memfd fl) || negb (Z.ldiff seals SUPPORTED_SEALS =? 0) then (st, Err EINVAL)
  else if negb (allow_sealing fl) then (st, Err EPERM)
  else if has seals F_SEAL_WRITE && negb (writable_shared_mappings st =? 0) then (st, Err EBUSY)
  else if has (mf_seals st) F_SEAL_SEAL then (st, Err EPERM)
  else (with_seals st (Z.lor (mf_seals st) seals), Ok tt).

Definition reopen (fl : TmpFile) (readable writable append : bool) : result SysErrNo TmpFile :=
  if negb (is_memfd fl) then Err EINVAL
  else Ok (mkTmpFile readable writable true (allow_sealing fl) append 0).

Definition mmap_backing (st : MemFd) (fl : TmpFile) (shared writable : bool) : MemFd * result SysErrNo TmpFileMmapBacking :=
  if negb (is_memfd fl) then (st, Err EINVAL)
  else if shared && writable then
    if has (mf_seals st) WRITE_SEALS then (st, Err EPERM)
    else (with_mappings st (writable_shared_mappings st + 1), Ok (mkBacking true true))
  else (st, Ok (mkBacking shared false)).

(** [Drop for TmpFileMmapBacking]. *)
Definition drop_backing (st : MemFd) (b : TmpFileMmapBacking) : MemFd :=
  if b_writable_shared b then with_mappings st (writable_shared_mappings st - 1) else st.

(** ** What a descriptor sees *)

(** The bytes of the file with the stores through its mappings. *)
Definition content (st : MemFd) : list Z := mf_data (flush_shared_pages st).
Arguments content : simpl never.

Record memfd_wf (limit : Z) (st : MemFd) : Prop := {
  mw_keys k f : shared_pages st !! k = Some f → 0 ≤ k;
  mw_inj k k' f : shared_pages st !! k = Some f → shared_pages st !! k' = Some f → k = k';
  mw_frames k f b : shared_pages st !! k = Some f → mf_frames st !! f = Some b → length b = Z.to_nat PAGE;
  mw_len : data_len (mf_data st) ≤ limit }.

Lemma page_bounds_some len k : 0 ≤ k → len ≤ usize_max →
  page_bounds len k = if k * PAGE <? len then Some (k * PAGE, Z.min (len - k * PAGE) PAGE) else None.
Proof.
  intros Hk Hl. unfold page_bounds, checked_mul. destruct (k * PAGE <=? usize_max) eqn:E; simpl; [done|].
  apply Z.leb_gt in E. by rewrite (proj2 (Z.ltb_ge _ _)) by lia.
Qed.

(** The page of a position. *)
Definition page_of (i : nat) : Z := Z.of_nat i / PAGE.
Definition in_page (i : nat) : nat := Z.to_nat (Z.of_nat i mod PAGE).

Lemma page_of_spec i : Z.of_nat i = page_of i * PAGE + Z.of_nat (in_page i) ∧ 0 ≤ page_of i ∧ (in_page i < Z.to_nat PAGE)%nat.
Proof. unfold page_of, in_page, PAGE. pose proof (Z.mod_pos_bound (Z.of_nat i) 4096). Z.to_euclidean_division_equations; lia. Qed.

Lemma page_of_unique i k : k * PAGE ≤ Z.of_nat i < k * PAGE + PAGE → k = page_of i.
Proof. unfold page_of, PAGE. intros. Z.to_euclidean_division_equations; lia. Qed.

Lemma flush_page_spec frames d k f :
  0 ≤ k → data_len d ≤ usize_max → (∀ b, frames !! f = Some b → length b = Z.to_nat PAGE) →
  length (flush_page frames d (k, f)) = length d ∧
  ∀ i, (i < length d)%nat → flush_page frames d (k, f) !! i =
    match frames !! f with
    | Some b => if decide (page_of i = k) then b !! in_page i else d !! i
    | None => d !! i
    end.
Proof.
  intros Hk Hl Hf. unfold flush_page. cbn [fst snd]. destruct (frames !! f) as [b|] eqn:Ef; [|done].
  specialize (Hf b eq_refl). rewrite page_bounds_some by done. destruct (k * PAGE <? data_len d) eqn:E.
  - apply Z.ltb_lt in E. set (n := Z.min _ _).
    assert (0 ≤ n ≤ PAGE ∧ k * PAGE + n ≤ data_len d) as Hn by (subst n; unfold PAGE in *; lia).
    assert (length (slice b 0 n) = Z.to_nat n) as Hs by (apply length_slice; unfold data_len; lia).
    assert (0 ≤ k * PAGE) as Hk0 by (unfold PAGE; lia).
    assert (Z.to_nat (k * PAGE) + length (slice b 0 n) ≤ length d)%nat as Hfit by (rewrite Hs; unfold data_len in *; lia).
    split; [by apply length_splice|]. intros i Hi. rewrite lookup_splice by done. rewrite Hs.
    destruct (page_of_spec i) as (Hpi & Hp0 & Hip). case_decide as Hin.
    + assert (k = page_of i) as -> by (apply page_of_unique; lia). rewrite decide_True by done.
      rewrite lookup_slice by lia. f_equal. lia.
    + rewrite decide_False; [done|]. intros <-. apply Hin. subst n. unfold data_len in *. lia.
  - split; [done|]. intros i Hi. apply Z.ltb_ge in E. destruct (page_of_spec i) as (Hpi & Hp0 & Hip).
    rewrite decide_False; [done|]. intros <-. unfold data_len in *. lia.
Qed.

Lemma flush_fold_spec frames l d :
  Forall (λ p, 0 ≤ p.1 ∧ ∀ b, frames !! p.2 = Some b → length b = Z.to_nat PAGE) l → NoDup l.*1 →
  data_len d ≤ usize_max →
  length (foldl (flush_page frames) d l) = length d ∧
  ∀ i, (i < length d)%nat → foldl (flush_page frames) d l !! i =
    match (f ← (list_to_map l : gmap Z Z) !! page_of i; frames !! f) with
    | Some b => b !! in_page i
    | None => d !! i
    end.
Proof.
  revert d. induction l as [|[k f] l IH]; intros d Hl Hnd Hd; [done|].
  apply Forall_cons in Hl as [[Hk Hf] Hl]. apply NoDup_cons in Hnd as [Hk' Hnd]. cbn [foldl fst snd] in *.
  destruct (flush_page_spec frames d k f Hk Hd Hf) as [Hlen Hlook].
  destruct (IH (flush_page frames d (k, f)) Hl Hnd) as [IH1 IH2]; [unfold data_len in *; lia|].
  split; [lia|]. intros i Hi. rewrite IH2, Hlook by lia. rewrite list_to_map_cons.
  destruct (decide (page_of i = k)) as [->|Hne].
  - rewrite lookup_insert_eq. rewrite (not_elem_of_list_to_map_1 _ _ Hk'). cbn. by destruct (frames !! f).
  - rewrite lookup_insert_ne by done. destruct (_ ≫= _); [done|]. by destruct (frames !! f).
Qed.

Section refinement.
Context (limit : Z) (Hlimit : limit ≤ i64_max).
Implicit Types (st : MemFd).

(** The byte a position shows. *)
Lemma live_sub st k f : live_pages st !! k = Some f ↔ shared_pages st !! k = Some f ∧ is_Some (mf_frames st !! f).
Proof using Type. clear. apply map_lookup_filter_Some. Qed.

Lemma live_lookup st k :
  (f ← live_pages st !! k; mf_frames st !! f) = (f ← shared_pages st !! k; mf_frames st !! f).
Proof using Type.
  clear. destruct (live_pages st !! k) as [f|] eqn:E; [by apply live_sub in E as [-> _]|].
  destruct (shared_pages st !! k) as [f|] eqn:Es; [|done]. cbn. destruct (mf_frames st !! f) as [b|] eqn:Ef; [|done].
  assert (live_pages st !! k = Some f) by (apply live_sub; eauto). congruence.
Qed.

Lemma content_spec st : memfd_wf limit st →
  length (content st) = length (mf_data st) ∧
  ∀ i, (i < length (mf_data st))%nat → content st !! i =
    match (f ← shared_pages st !! page_of i; mf_frames st !! f) with
    | Some b => b !! in_page i
    | None => mf_data st !! i
    end.
Proof using Hlimit.
  intros [Hk Hi Hf Hl]. unfold content, flush_shared_pages. cbn [mf_data].
  destruct (flush_fold_spec (mf_frames st) (map_to_list (live_pages st)) (mf_data st)) as [H1 H2].
  - apply Forall_forall. intros [k f] [Hin _]%elem_of_map_to_list%live_sub. cbn. split; [eauto|]. intros b. eauto.
  - apply NoDup_fst_map_to_list.
  - unfold i64_max, usize_max in *. lia.
  - split; [done|]. intros i Hi'. rewrite H2 by done. by rewrite list_to_map_to_list, live_lookup.
Qed.

Lemma content_ext st c : memfd_wf limit st → length c = length (mf_data st) →
  (∀ i, (i < length (mf_data st))%nat →
    match (f ← shared_pages st !! page_of i; mf_frames st !! f) with
    | Some b => b !! in_page i
    | None => mf_data st !! i
    end = c !! i) → content st = c.
Proof using Hlimit.
  intros Hwf Hl Hc. destruct (content_spec st Hwf) as [H1 H2]. apply list_eq_same_length with (length c); [done|lia|].
  intros i x y Hi Hx Hy. rewrite H2, Hc in Hx by lia. congruence.
Qed.

Lemma flush_wf st : memfd_wf limit st → memfd_wf limit (flush_shared_pages st).
Proof using Hlimit.
  intros Hwf. pose proof (content_spec st Hwf) as [Hlen _]. destruct Hwf as [Hk Hi Hf Hl].
  split; cbn [shared_pages flush_shared_pages mf_frames].
  - intros k f [? _]%live_sub. eauto.
  - intros k k' f [? _]%live_sub [? _]%live_sub. eauto.
  - intros k f b [? _]%live_sub. eauto.
  - change (data_len (content st) ≤ limit). unfold data_len in *. lia.
Qed.

Lemma flush_content st : memfd_wf limit st → content (flush_shared_pages st) = content st.
Proof using Hlimit.
  intros Hwf. pose proof (content_spec st Hwf) as [H1 H2]. apply content_ext; [by apply flush_wf|done|].
  cbn [shared_pages flush_shared_pages mf_frames]. change (mf_data (flush_shared_pages st)) with (content st).
  intros i Hi. rewrite live_lookup. rewrite !H2 by lia. by destruct (_ ≫= _).
Qed.

(** Refreshing makes the mapped pages show the data. *)
Lemma refresh_fold_spec d l frames : NoDup l.*2 →
  (∀ k f, (k, f) ∈ l → is_Some (frames !! f) → foldl (refresh_page d) frames l !! f = Some (page_bytes d k)) ∧
  (∀ f, f ∉ l.*2 → foldl (refresh_page d) frames l !! f = frames !! f).
Proof using Type.
  clear. revert frames. induction l as [|[k f] l IH]; intros frames Hnd; [split; [set_solver|done]|].
  apply NoDup_cons in Hnd as [Hf Hnd]. cbn [foldl fst snd] in *. destruct (IH (refresh_page d frames (k, f)) Hnd) as [IH1 IH2].
  assert (∀ f', f' ≠ f → refresh_page d frames (k, f) !! f' = frames !! f') as Hne.
  { intros f' Hf'. unfold refresh_page. cbn. destruct (frames !! f); [by rewrite lookup_insert_ne by done|done]. }
  split.
  - intros k' f' [[= -> ->]|Hin]%elem_of_cons Hs.
    + rewrite IH2 by done. unfold refresh_page. cbn. destruct Hs as [b ->]. apply lookup_insert_eq.
    + apply IH1; [done|]. rewrite Hne; [done|]. intros ->. apply Hf. apply list_elem_of_fmap. by exists (k', f).
  - intros f' Hf'. cbn in Hf'. rewrite IH2, Hne by set_solver. done.
Qed.

Lemma length_page_bytes d k : 0 ≤ k → data_len d ≤ limit → length (page_bytes d k) = Z.to_nat PAGE.
Proof using Hlimit.
  intros Hk Hl. unfold page_bytes, zeros. rewrite page_bounds_some by (unfold i64_max, usize_max in *; lia).
  destruct (k * PAGE <? data_len d) eqn:E; [|by rewrite length_replicate].
  apply Z.ltb_lt in E. rewrite length_app, length_replicate, length_slice; unfold PAGE in *; lia.
Qed.

Lemma lookup_page_bytes d i : data_len d ≤ limit → (i < length d)%nat → page_bytes d (page_of i) !! in_page i = d !! i.
Proof using Hlimit.
  intros Hl Hi. destruct (page_of_spec i) as (Hp & H0 & Hin). unfold page_bytes.
  rewrite page_bounds_some by (unfold i64_max, usize_max in *; lia).
  rewrite (proj2 (Z.ltb_lt _ _)) by (unfold data_len; lia).
  rewrite lookup_app_l by (rewrite length_slice; unfold PAGE, data_len in *; lia).
  rewrite lookup_slice by (unfold PAGE, data_len in *; lia). f_equal. lia.
Qed.

Lemma refresh_frames st k f : memfd_wf limit st → live_pages st !! k = Some f →
  mf_frames (refresh_shared_pages st) !! f = Some (page_bytes (mf_data st) k).
Proof using Type.
  clear. intros [_ Hi _ _] Hk. cbn.
  destruct (refresh_fold_spec (mf_data st) (map_to_list (live_pages st)) (mf_frames st)) as [H _].
  - apply NoDup_fmap_2_strong; [|apply NoDup_map_to_list].
    intros [k1 f1] [k2 f2] [H1 _]%elem_of_map_to_list%live_sub [H2 _]%elem_of_map_to_list%live_sub ?; simplify_eq/=.
    f_equal. eauto.
  - apply H; [by apply elem_of_map_to_list|]. by apply live_sub in Hk as [_ ?].
Qed.

Lemma refresh_wf st : memfd_wf limit st → memfd_wf limit (refresh_shared_pages st).
Proof using Hlimit.
  intros Hwf. pose proof (refresh_frames st) as Hr. pose proof Hwf as [Hk Hi Hf Hl].
  split; cbn [shared_pages refresh_shared_pages with_pages]; [| | |done].
  - intros k f [? _]%live_sub. eauto.
  - intros k k' f [? _]%live_sub [? _]%live_sub. eauto.
  - intros k f b Hkf. rewrite (Hr k f Hwf Hkf). intros [= <-]. apply length_page_bytes; [|done].
    apply live_sub in Hkf as [? _]. eauto.
Qed.

Lemma refresh_content st : memfd_wf limit st → content (refresh_shared_pages st) = mf_data st.
Proof using Hlimit.
  intros Hwf. apply content_ext; [by apply refresh_wf|done|]. intros i Hi.
  change (shared_pages (refresh_shared_pages st)) with (live_pages st).
  destruct (live_pages st !! page_of i) as [f|] eqn:E; [|done]. cbn [mbind option_bind].
  rewrite (refresh_frames st _ _ Hwf E). apply lookup_page_bytes; [apply Hwf|done].
Qed.

Lemma with_data_wf st d : memfd_wf limit st → data_len d ≤ limit → memfd_wf limit (with_data st d).
Proof using Type. clear. intros [Hk Hi Hf _] Hl. by split. Qed.

Lemma refresh_with_data st d : memfd_wf limit st → data_len d ≤ limit →
  memfd_wf limit (refresh_shared_pages (with_data st d)) ∧ content (refresh_shared_pages (with_data st d)) = d.
Proof using Hlimit.
  intros Hwf Hl. split; [by apply refresh_wf, with_data_wf|]. by rewrite refresh_content by by apply with_data_wf.
Qed.

(** Growing or cutting a list to a length. *)
Definition resized (d : list Z) (size : Z) : list Z := take (Z.to_nat size) d ++ zeros (size - data_len d).

Lemma length_resized d size : 0 ≤ size → data_len (resized d size) = size.
Proof using Type. clear. intros. unfold resized, zeros, data_len. rewrite length_app, length_take, length_replicate. lia. Qed.

Lemma vec_resize_done d size : size ≤ limit → vec_resize limit d size = Done (resized d size).
Proof using Type. clear. intros. unfold vec_resize. by rewrite (proj2 (Z.ltb_ge _ _)) by lia. Qed.

Lemma vec_resize_panic d size : limit < size → vec_resize limit d size = Panic.
Proof using Type. clear. intros. unfold vec_resize. by rewrite (proj2 (Z.ltb_lt _ _)) by lia. Qed.
End refinement.

(** ** The file as a flat sequence of bytes *)

(** Operations of a descriptor, and of the shared mappings of the file: the
    fault that takes a page, a store to it, a private load, and the removal of
    the last mapping of a page, which writes it back. *)
Inductive MemOp : Type :=
| ORead (n : Z) | OWrite (bytes : list Z) | OTruncate (size : Z) | OFallocate (mode offset len : Z)
| OSeek (offset whence : Z) | OFault (k : Z) (alloc : option Z) | OStore (k o byte : Z) | OLoad (k : Z) | OUnmap (k : Z).
Inductive OpResult : Type := RBytes (bytes : list Z) | RRet (r : SyscallRet) | RLoad (bytes : option (list Z)) | RNone.

Definition store_byte (st : MemFd) (k o byte : Z) : MemFd :=
  match (f ← shared_pages st !! k; b ← mf_frames st !! f; Some (f, b)) with
  | Some (f, b) => with_pages st (shared_pages st) (<[f := <[Z.to_nat o := byte]> b]> (mf_frames st))
  | None => st
  end.
Definition unmap_page (st : MemFd) (k : Z) : MemFd :=
  match (f ← shared_pages st !! k; b ← mf_frames st !! f; Some (f, b)) with
  | Some (f, b) =>
      let st := writeback_page st (mkBacking true true) k b in
      with_pages st (shared_pages st) (delete f (mf_frames st))
  | None => st
  end.

Definition run_op (limit : Z) (st : MemFd) (fl : TmpFile) (op : MemOp) : comp (MemFd * TmpFile * OpResult) :=
  match op with
  | ORead n => let '(st, fl, bytes) := tmp_read st fl n in Done (st, fl, RBytes bytes)
  | OWrite bytes => '(st, fl, r) ← tmp_write limit st fl bytes; Done (st, fl, RRet r)
  | OTruncate size => '(st, fl, r) ← tmp_truncate limit st fl size; Done (st, fl, RRet r)
  | OFallocate mode offset len => '(st, r) ← tmp_fallocate limit st fl mode offset len; Done (st, fl, RRet r)
  | OSeek offset whence => let '(fl, r) := tmp_lseek st fl offset whence in Done (st, fl, RRet r)
  | OFault k alloc => Done ((shared_page st (mkBacking true true) k alloc).1, fl, RNone)
  | OStore k o byte => Done (store_byte st k o byte, fl, RNone)
  | OLoad k => let '(st, bytes) := load_page st k in Done (st, fl, RLoad bytes)
  | OUnmap k => Done (unmap_page st k, fl, RNone)
  end.

(** The same operations on the bytes alone. *)
Definition spec_write (c : list Z) (seals : Z) (fl : TmpFile) (bytes : list Z) : list Z * TmpFile * OpResult :=
  if has seals WRITE_SEALS then (c, fl, RRet (Err EPERM))
  else
    let fl := if tf_append fl then with_offset fl (data_len c) else fl in
    let end_ := tf_offset fl + data_len bytes in
    if usize_max <? end_ then (c, fl, RRet (Err EFBIG))
    else if (data_len c <? end_) && has seals F_SEAL_GROW then (c, fl, RRet (Err EPERM))
    else (splice (resized c (Z.max (data_len c) end_)) (tf_offset fl) bytes, with_offset fl end_, RRet (Ok (data_len bytes))).

Definition spec_truncate (c : list Z) (seals : Z) (fl : TmpFile) (size : Z) : list Z * TmpFile * OpResult :=
  if (size <? data_len c) && has seals F_SEAL_SHRINK || (data_len c <? size) && has seals F_SEAL_GROW
  then (c, fl, RRet (Err EPERM))
  else (resized c size, with_offset fl (Z.min (tf_offset fl) size), RRet (Ok 0)).

Definition spec_fallocate (c : list Z) (seals : Z) (fl : TmpFile) (mode offset len : Z) : list Z * OpResult :=
  let punch := has mode FALLOC_FL_PUNCH_HOLE in
  let keep := has mode FALLOC_FL_KEEP_SIZE in
  if negb (is_memfd fl) || negb (Z.ldiff mode 3 =? 0) then (c, RRet (Err EOPNOTSUPP))
  else if punch && negb keep then (c, RRet (Err EINVAL))
  else if usize_max <? offset + len then (c, RRet (Err EFBIG))
  else if punch then
    if has seals WRITE_SEALS then (c, RRet (Err EPERM))
    else (imap (λ i b, if decide (offset ≤ Z.of_nat i < offset + len) then 0 else b) c, RRet (Ok 0))
  else if keep || (offset + len <=? data_len c) then (c, RRet (Ok 0))
  else if has seals F_SEAL_GROW then (c, RRet (Err EPERM))
  else (resized c (offset + len), RRet (Ok 0)).

Definition spec_op (c : list Z) (seals : Z) (fl : TmpFile) (op : MemOp) : list Z * TmpFile * OpResult :=
  match op with
  | ORead n =>
      let bytes := slice c (tf_offset fl) n in (c, with_offset fl (tf_offset fl + data_len bytes), RBytes bytes)
  | OWrite bytes => spec_write c seals fl bytes
  | OTruncate size => spec_truncate c seals fl size
  | OFallocate mode offset len => let '(c, r) := spec_fallocate c seals fl mode offset len in (c, fl, r)
  | OSeek offset whence => let '(fl, r) := tmp_lseek (mkMemFd c 0 0 ∅ ∅) fl offset whence in (c, fl, RRet r)
  | OStore k o byte => (<[Z.to_nat (k * PAGE + o) := byte]> c, fl, RNone)
  | OLoad k => (c, fl, RLoad (if k * PAGE <? data_len c then Some (slice c (k * PAGE) PAGE) else None))
  | OFault _ _ | OUnmap _ => (c, fl, RNone)
  end.

(** What callers guarantee: sizes are unsigned, a store goes to a page that is
    mapped, and a new frame is new. *)
Definition op_ok (st : MemFd) (op : MemOp) : Prop :=
  match op with
  | ORead n => 0 ≤ n
  | OWrite _ => True
  | OTruncate size => 0 ≤ size
  | OFallocate _ offset len => 0 ≤ offset ∧ 0 ≤ len
  | OSeek _ _ => True
  | OFault k alloc =>
      0 ≤ k ∧ ∀ f, alloc = Some f → mf_frames st !! f = None ∧ ∀ j, shared_pages st !! j ≠ Some f
  | OStore k o _ => 0 ≤ o < PAGE ∧ is_Some (f ← shared_pages st !! k; mf_frames st !! f)
  | OLoad k => 0 ≤ k
  | OUnmap _ => True
  end.

(** The state implements the bytes [c'] after an operation on [st]. *)
Definition implements (limit : Z) (st st' : MemFd) (c' : list Z) : Prop :=
  memfd_wf limit st' ∧ content st' = c' ∧ mf_seals st' = mf_seals st ∧
  writable_shared_mappings st' = writable_shared_mappings st.

(** The outcome of an operation against its specification: it panics only if
    the file would grow beyond the limit. *)
Definition refines (limit : Z) (st : MemFd) (x : comp (MemFd * TmpFile * OpResult)) (y : list Z * TmpFile * OpResult) : Prop :=
  match x with
  | Done (st', fl', r) => implements limit st st' y.1.1 ∧ fl' = y.1.2 ∧ r = y.2
  | Panic => limit < data_len y.1.1
  end.

Section op_proofs.
Context (limit : Z) (Hlimit : limit ≤ i64_max) (st : MemFd) (Hwf : memfd_wf limit st).

Lemma content_len : data_len (content st) = data_len (mf_data st).
Proof using Hlimit Hwf. unfold data_len. by rewrite (proj1 (content_spec limit Hlimit st Hwf)). Qed.

Lemma content_limit : data_len (content st) ≤ limit.
Proof using Hlimit Hwf. rewrite content_len. apply Hwf. Qed.

Lemma flush_implements : implements limit st (flush_shared_pages st) (content st).
Proof using Hlimit Hwf. split_and!; [by apply flush_wf|by eapply flush_content|done|done]. Qed.

Lemma refresh_implements d : data_len d ≤ limit →
  implements limit st (refresh_shared_pages (with_data (flush_shared_pages st) d)) d.
Proof using Hlimit Hwf.
  intros Hd. destruct (refresh_with_data limit Hlimit (flush_shared_pages st) d) as [? ?]; [by apply flush_wf|done|].
  by split_and!.
Qed.

Lemma with_offset_id fl : with_offset fl (tf_offset fl) = fl.
Proof using Type. clear. by destruct fl. Qed.

Lemma read_refines fl n : 0 ≤ n → 0 ≤ tf_offset fl → refines limit st (run_op limit st fl (ORead n)) (spec_op (content st) (mf_seals st) fl (ORead n)).
Proof using Hlimit Hwf.
  intros Hn Ho. cbn [run_op spec_op]. unfold tmp_read. change (mf_data (flush_shared_pages st)) with (content st).
  destruct (data_len (content st) <=? tf_offset fl) eqn:E.
  - apply Z.leb_le in E. assert (slice (content st) (tf_offset fl) n = []) as ->.
    { apply nil_length_inv. unfold slice, data_len in *. rewrite length_take, length_drop. lia. }
    split; [apply flush_implements|]. cbn. rewrite Z.add_0_r, with_offset_id. done.
  - apply Z.leb_gt in E. assert (slice (content st) (tf_offset fl)
      (Z.min (tf_offset fl + n) (data_len (content st)) - tf_offset fl) = slice (content st) (tf_offset fl) n) as ->.
    { unfold slice. destruct (Z.min_spec (tf_offset fl + n) (data_len (content st))) as [[Hc ->]|[Hc ->]].
      - f_equal. lia.
      - rewrite !take_ge; [done|..]; rewrite length_drop; unfold data_len in *; lia. }
    split; [apply flush_implements|done].
Qed.

Lemma resized_same d : resized d (data_len d) = d.
Proof using Type. clear. unfold resized, data_len, zeros. rewrite Z.sub_diag, Nat2Z.id, firstn_all, app_nil_r. done. Qed.

Lemma write_refines fl bytes : 0 ≤ tf_offset fl → refines limit st (run_op limit st fl (OWrite bytes)) (spec_op (content st) (mf_seals st) fl (OWrite bytes)).
Proof using Hlimit Hwf.
  intros Ho. cbn [run_op spec_op]. unfold tmp_write, spec_write. change (mf_data (flush_shared_pages st)) with (content st).
  change (mf_seals (flush_shared_pages st)) with (mf_seals st).
  destruct (has (mf_seals st) WRITE_SEALS); [split; [apply flush_implements|done]|].
  set (fl1 := if tf_append fl then _ else fl).
  assert (0 ≤ tf_offset fl1) as Ho1 by (subst fl1; destruct (tf_append fl); cbn; unfold data_len; lia).
  unfold checked_add. set (end_ := tf_offset fl1 + data_len bytes).
  assert (tf_offset fl1 ≤ end_) as He by (subst end_; unfold data_len; lia).
  destruct (end_ <=? usize_max) eqn:Eu.
  2: { apply Z.leb_gt in Eu. rewrite (proj2 (Z.ltb_lt usize_max end_)) by done. split; [apply flush_implements|done]. }
  apply Z.leb_le in Eu. rewrite (proj2 (Z.ltb_ge usize_max end_)) by done.
  destruct (data_len (content st) <? end_) eqn:Eg; cbn [andb].
  - apply Z.ltb_lt in Eg. rewrite Z.max_r by lia.
    destruct (has (mf_seals st) F_SEAL_GROW); [split; [apply flush_implements|done]|].
    assert (data_len (splice (resized (content st) end_) (tf_offset fl1) bytes) = end_) as Hlen.
    { rewrite length_splice_Z; [apply length_resized; lia|done|rewrite length_resized by lia; done]. }
    destruct (decide (end_ ≤ limit)).
    + rewrite vec_resize_done by done. split; [|done]. apply refresh_implements. cbn [fst]. lia.
    + rewrite vec_resize_panic by lia. cbn [refines mbind comp_bind fst]. lia.
  - apply Z.ltb_ge in Eg. rewrite Z.max_l, resized_same by lia. split; [|done]. apply refresh_implements.
    cbn [fst]. rewrite length_splice_Z by (subst end_; lia). apply content_limit.
Qed.

Lemma truncate_refines fl size : 0 ≤ size → refines limit st (run_op limit st fl (OTruncate size)) (spec_op (content st) (mf_seals st) fl (OTruncate size)).
Proof using Hlimit Hwf.
  intros Hs. cbn [run_op spec_op]. unfold tmp_truncate, spec_truncate. change (mf_data (flush_shared_pages st)) with (content st).
  change (mf_seals (flush_shared_pages st)) with (mf_seals st).
  destruct (_ || _); [split; [apply flush_implements|done]|].
  destruct (decide (size ≤ limit)).
  - rewrite vec_resize_done by done. split_and!; [apply refresh_implements; cbn [fst]; by rewrite length_resized| |done]. cbn.
    destruct (size <? tf_offset fl) eqn:E.
    + apply Z.ltb_lt in E. by rewrite Z.min_r by lia.
    + apply Z.ltb_ge in E. by rewrite Z.min_l, with_offset_id by lia.
  - rewrite vec_resize_panic by lia. cbn [refines mbind comp_bind fst]. rewrite length_resized; lia.
Qed.

(** Zeros in a range. *)
Lemma punch_spec d offset len : 0 ≤ offset → 0 ≤ len →
  (if offset <? Z.min (offset + len) (data_len d)
   then splice d offset (zeros (Z.min (offset + len) (data_len d) - offset)) else d) =
  imap (λ i b, if decide (offset ≤ Z.of_nat i < offset + len) then 0 else b) d.
Proof using Type.
  clear. intros Ho Hl. set (e := Z.min _ _). assert (e ≤ data_len d ∧ e ≤ offset + len) as He by (subst e; lia).
  apply list_eq. intros i. rewrite list_lookup_imap. destruct (offset <? e) eqn:E.
  - apply Z.ltb_lt in E. assert (length (zeros (e - offset)) = Z.to_nat (e - offset)) as Hz by apply length_replicate.
    rewrite lookup_splice by (rewrite ?Hz; unfold data_len in *; lia). rewrite Hz. case_decide as Hin.
    + unfold zeros. rewrite lookup_replicate_2 by lia. destruct (lookup_lt_is_Some_2 d i) as [b ->]; [unfold data_len in *; lia|].
      cbn. by rewrite decide_True by lia.
    + destruct (d !! i) as [b|] eqn:Eb; [|done]. cbn. apply lookup_lt_Some in Eb. rewrite decide_False; [done|].
      subst e. unfold data_len in *. lia.
  - apply Z.ltb_ge in E. destruct (d !! i) as [b|] eqn:Eb; [|done]. cbn. apply lookup_lt_Some in Eb.
    rewrite decide_False; [done|]. subst e. unfold data_len in *. lia.
Qed.

Lemma fallocate_refines fl mode offset len : 0 ≤ offset → 0 ≤ len →
  refines limit st (run_op limit st fl (OFallocate mode offset len))
    (spec_op (content st) (mf_seals st) fl (OFallocate mode offset len)).
Proof using Hlimit Hwf.
  intros Ho Hl. cbn [run_op spec_op]. unfold tmp_fallocate, spec_fallocate.
  change (Z.lor FALLOC_FL_KEEP_SIZE FALLOC_FL_PUNCH_HOLE) with 3.
  assert (implements limit st st (content st)) as Hsame by by split_and!.
  destruct (is_memfd fl); [|split; [exact Hsame|done]]. destruct (Z.ldiff mode 3 =? 0); [|split; [exact Hsame|done]].
  cbn [negb orb]. destruct (has mode FALLOC_FL_PUNCH_HOLE && _); [split; [exact Hsame|done]|].
  unfold checked_add. destruct (offset + len <=? usize_max) eqn:Eu.
  2: { apply Z.leb_gt in Eu. rewrite (proj2 (Z.ltb_lt usize_max _)) by done. split; [exact Hsame|done]. }
  apply Z.leb_le in Eu. rewrite (proj2 (Z.ltb_ge usize_max _)) by done.
  change (mf_data (flush_shared_pages st)) with (content st). change (mf_seals (flush_shared_pages st)) with (mf_seals st).
  destruct (has mode FALLOC_FL_PUNCH_HOLE).
  { destruct (has (mf_seals st) WRITE_SEALS); [split; [apply flush_implements|done]|].
    split; [|done]. rewrite punch_spec by done. apply refresh_implements. cbn [fst]. unfold data_len. rewrite length_imap.
    apply content_limit. }
  assert (refines limit st (Done (refresh_shared_pages (flush_shared_pages st), fl, RRet (Ok 0))) (content st, fl, RRet (Ok 0))) as Hkeep.
  { split; [|done]. apply (refresh_implements (content st)), content_limit. }
  destruct (has mode FALLOC_FL_KEEP_SIZE); cbn [negb andb orb]; [exact Hkeep|].
  destruct (data_len (content st) <? offset + len) eqn:Eg.
  2: { apply Z.ltb_ge in Eg. rewrite (proj2 (Z.leb_le _ _)) by done. exact Hkeep. }
  apply Z.ltb_lt in Eg. rewrite (proj2 (Z.leb_gt _ _)) by done.
  destruct (has (mf_seals st) F_SEAL_GROW); [split; [apply flush_implements|done]|].
  destruct (decide (offset + len ≤ limit)).
  - rewrite vec_resize_done by done. split; [|done]. apply refresh_implements. cbn [fst]. rewrite length_resized; lia.
  - rewrite vec_resize_panic by lia. cbn [refines mbind comp_bind fst]. rewrite length_resized; lia.
Qed.

Lemma load_refines fl k : 0 ≤ k →
  refines limit st (run_op limit st fl (OLoad k)) (spec_op (content st) (mf_seals st) fl (OLoad k)).
Proof using Hlimit Hwf.
  intros Hk. cbn [run_op spec_op]. unfold load_page. change (mf_data (flush_shared_pages st)) with (content st).
  rewrite page_bounds_some by (pose proof content_limit; unfold i64_max, usize_max in *; lia).
  split; [apply flush_implements|]. split; [done|]. cbn [snd]. apply f_equal.
  destruct (k * PAGE <? data_len (content st)) eqn:E; [|done]. apply Z.ltb_lt in E. cbn [mbind option_bind]. apply f_equal. unfold slice.
  destruct (Z.min_spec (data_len (content st) - k * PAGE) PAGE) as [[Hc ->]|[Hc ->]]; [|done].
  rewrite !take_ge; [done|..]; rewrite length_drop; unfold data_len in *; lia.
Qed.

Lemma seek_refines fl offset whence :
  refines limit st (run_op limit st fl (OSeek offset whence)) (spec_op (content st) (mf_seals st) fl (OSeek offset whence)).
Proof using Hlimit Hwf.
  cbn [run_op spec_op]. unfold tmp_lseek. cbn [mf_data]. rewrite content_len.
  destruct (if whence =? 0 then _ else _) as [base|]; [|split; [by split_and!|done]].
  destruct (_ || _); split; try done; by split_and!.
Qed.

(** The frame of a page, if it is mapped. *)
Let frame_of (st : MemFd) (k : Z) : option (list Z) := f ← shared_pages st !! k; mf_frames st !! f.

Lemma fault_refines fl k alloc : op_ok st (OFault k alloc) →
  refines limit st (run_op limit st fl (OFault k alloc)) (spec_op (content st) (mf_seals st) fl (OFault k alloc)).
Proof using Hlimit Hwf.
  intros [Hk Hfresh]. cbn [run_op spec_op]. split; [|done]. cbn [fst]. unfold shared_page. cbn [b_shared negb].
  assert (implements limit st st (content st)) as Hsame by by split_and!.
  destruct (_ ≫= _) as [f0|] eqn:Ef; [done|]. pose proof Hwf as [Wk Wi Wf Wl].
  destruct (page_bounds _ k) as [[start n]|] eqn:Eb; [|done]. destruct alloc as [f|]; [|done].
  destruct (Hfresh f eq_refl) as [Hf1 Hf2]. set (bytes := slice _ _ _ ++ _).
  assert (bytes = page_bytes (mf_data st) k) as Hb by (unfold page_bytes; by rewrite Eb).
  assert (∀ j g, shared_pages st !! j = Some g → g ≠ f) as Hne by (intros j g Hj ->; by apply (Hf2 j)).
  assert (memfd_wf limit (with_pages st (<[k := f]> (shared_pages st)) (<[f := bytes]> (mf_frames st)))) as Hw.
  { split; cbn; [| | |done].
    - intros j g [[<- _]|[_ Hj]]%lookup_insert_Some; eauto.
    - intros j j' g [[<- <-]|[? Hj]]%lookup_insert_Some [[<- ?]|[? Hj']]%lookup_insert_Some; eauto; by exfalso; eapply Hne.
    - intros j g b [[<- <-]|[? Hj]]%lookup_insert_Some.
      + rewrite lookup_insert_eq. intros [= <-]. rewrite Hb. by apply (length_page_bytes limit).
      + rewrite lookup_insert_ne by (symmetry; by eapply Hne). eauto. }
  split_and!; [done| |done|done]. pose proof (content_spec limit Hlimit st Hwf) as [C1 C2].
  apply (content_ext limit Hlimit); [done|done|]. cbn. intros i Hi. rewrite C2 by done.
  destruct (decide (page_of i = k)) as [<-|Hki].
  - rewrite lookup_insert_eq. cbn. rewrite lookup_insert_eq, Hb, (lookup_page_bytes limit) by done.
    destruct (shared_pages st !! page_of i) as [g|]; [|done]. cbn in *. by destruct (mf_frames st !! g).
  - rewrite lookup_insert_ne by done. destruct (shared_pages st !! page_of i) as [g|] eqn:Eg; [|done]. cbn.
    by rewrite lookup_insert_ne by (symmetry; by eapply Hne).
Qed.

Lemma store_refines fl k o byte : op_ok st (OStore k o byte) →
  refines limit st (run_op limit st fl (OStore k o byte)) (spec_op (content st) (mf_seals st) fl (OStore k o byte)).
Proof using Hlimit Hwf.
  intros [Ho [b Hb]]. cbn [run_op spec_op]. split; [|done]. cbn [fst]. unfold store_byte.
  destruct (shared_pages st !! k) as [f|] eqn:Ek; [|done]. cbn in Hb. cbn [mbind option_bind]. rewrite Hb. cbn [mbind option_bind].
  pose proof Hwf as [Wk Wi Wf Wl].
  assert (memfd_wf limit (with_pages st (shared_pages st) (<[f := <[Z.to_nat o := byte]> b]> (mf_frames st)))) as Hw.
  { split; cbn; [done|done| |done]. intros j g b' Hj. rewrite lookup_insert_Some. intros [[<- <-]|[_ Hg]]; [|eauto].
    rewrite length_insert. eauto. }
  split_and!; [done| |done|done]. pose proof (content_spec limit Hlimit st Hwf) as [C1 C2].
  apply (content_ext limit Hlimit); [done|by rewrite length_insert|]. cbn. intros i Hi.
  assert (0 ≤ k) as Hk by eauto. destruct (page_of_spec i) as (Hp & Hp0 & Hin).
  assert (length b = Z.to_nat PAGE) as Hlb by eauto.
  destruct (decide (page_of i = k)) as [He|Hki].
  - rewrite He, Ek. cbn. rewrite lookup_insert_eq. destruct (decide (in_page i = Z.to_nat o)) as [Hio|Hio].
    + replace (Z.to_nat (k * PAGE + o)) with i by lia.
      rewrite Hio, !list_lookup_insert_eq by lia. done.
    + rewrite !list_lookup_insert_ne by (unfold PAGE in *; lia). rewrite C2 by done. rewrite He, Ek. cbn. by rewrite Hb.
  - rewrite list_lookup_insert_ne, C2 by (done || (intros <-; apply Hki; symmetry; apply page_of_unique; unfold PAGE in *; lia)).
    destruct (shared_pages st !! page_of i) as [g|] eqn:Eg; [|done]. cbn. rewrite lookup_insert_ne; [done|].
    intros <-. apply Hki. eauto.
Qed.

Lemma unmap_refines fl k :
  refines limit st (run_op limit st fl (OUnmap k)) (spec_op (content st) (mf_seals st) fl (OUnmap k)).
Proof using Hlimit Hwf.
  cbn [run_op spec_op]. split; [|done]. cbn [fst]. unfold unmap_page. pose proof Hwf as [Wk Wi Wf Wl].
  assert (implements limit st st (content st)) as Hsame by by split_and!.
  destruct (shared_pages st !! k) as [f|] eqn:Ek; [|done]. cbn [mbind option_bind].
  destruct (mf_frames st !! f) as [b|] eqn:Ef; [|done]. cbn [mbind option_bind]. unfold writeback_page. cbn [b_shared negb].
  set (st1 := match page_bounds _ k with Some _ => _ | None => _ end).
  assert (st1 = with_data st (flush_page (mf_frames st) (mf_data st) (k, f))) as ->.
  { subst st1. unfold flush_page. cbn [fst snd]. rewrite Ef. destruct (page_bounds _ k) as [[s n]|]; [done|]. by destruct st. }
  destruct (flush_page_spec (mf_frames st) (mf_data st) k f) as [Hl Hlook]; [eauto|unfold i64_max, usize_max in *; lia|eauto|].
  rewrite Ef in Hlook.
  assert (memfd_wf limit (with_pages (with_data st (flush_page (mf_frames st) (mf_data st) (k, f))) (shared_pages st)
    (delete f (mf_frames st)))) as Hw.
  { split; cbn; [done|done| |unfold data_len in *; lia]. intros j g b' Hj [_ Hg]%lookup_delete_Some. eauto. }
  split_and!; [done| |done|done]. pose proof (content_spec limit Hlimit st Hwf) as [C1 C2].
  apply (content_ext limit Hlimit); [done|cbn; lia|]. cbn. intros i Hi. rewrite Hl in Hi. rewrite C2, Hlook by done.
  destruct (decide (page_of i = k)) as [He|Hki].
  - rewrite He, Ek. cbn. by rewrite lookup_delete_eq, Ef.
  - destruct (shared_pages st !! page_of i) as [g|] eqn:Eg; [|done]. cbn. rewrite lookup_delete_ne; [done|].
    intros <-. apply Hki. eauto.
Qed.
End op_proofs.

Lemma op_refines limit st fl op :
  limit ≤ i64_max → memfd_wf limit st → 0 ≤ tf_offset fl → op_ok st op →
  refines limit st (run_op limit st fl op) (spec_op (content st) (mf_seals st) fl op).
Proof.
  intros Hl Hwf Ho Hok. destruct op; cbn [op_ok] in Hok.
  - by apply read_refines.
  - by apply write_refines.
  - by apply truncate_refines.
  - destruct Hok. by apply fallocate_refines.
  - by apply seek_refines.
  - by apply fault_refines.
  - by apply store_refines.
  - by apply load_refines.
  - by apply unmap_refines.
Qed.

(** [C29] An anonymous file with shared mappings behaves as a flat sequence of
    bytes: whatever pages are mapped, read, write, truncate, fallocate and seek
    return what the sequence gives and leave what the sequence becomes, a store
    through a mapping changes exactly its byte if it is within the file and
    nothing otherwise, and faults, private loads and removals of mappings change
    nothing.  An operation panics only where the file would outgrow the limit
    of a vector. *)
Theorem memfd_refines limit st fl op :
  limit ≤ i64_max → memfd_wf limit st → 0 ≤ tf_offset fl → op_ok st op →
  refines limit st (run_op limit st fl op) (spec_op (content st) (mf_seals st) fl op).
Proof. apply op_refines. Qed.

(** A file of three bytes whose only page is mapped and was stored to. *)
Definition demo_page : list Z := [7; 65; 9] ++ replicate (Z.to_nat (PAGE - 3)) 0.
Definition demo_memfd : MemFd := mkMemFd [7; 8; 9] 0 1 {[0 := 100]} {[100 := demo_page]}.
Definition demo_tmpfile : TmpFile := mkTmpFile true true true true false 0.

Lemma demo_memfd_wf : memfd_wf i64_max demo_memfd.
Proof.
  split; cbn [demo_memfd shared_pages mf_frames mf_data]; [| | |done].
  - by intros k f [<- _]%lookup_singleton_Some.
  - by intros k k' f [<- _]%lookup_singleton_Some [<- _]%lookup_singleton_Some.
  - by intros k f b _ [_ <-]%lookup_singleton_Some.
Qed.

Lemma memfd_refines_witness :
  refines i64_max demo_memfd (run_op i64_max demo_memfd demo_tmpfile (ORead 10))
    (spec_op (content demo_memfd) 0 demo_tmpfile (ORead 10)) ∧
  ∃ st fl, run_op i64_max demo_memfd demo_tmpfile (ORead 10) = Done (st, fl, RBytes [7; 65; 9]).
Proof.
  split; [|eexists _, _; vm_compute; reflexivity].
  apply (memfd_refines i64_max demo_memfd demo_tmpfile (ORead 10)); [lia|exact demo_memfd_wf|cbn; lia|cbn; lia].
Defined.

(** ** Seals *)

Lemma has_lor a b m : has (Z.lor a b) m = has a m || has b m.
Proof.
  unfold has. rewrite Z.land_lor_distr_l. apply eq_true_iff_eq.
  rewrite orb_true_iff, !negb_true_iff, !Z.eqb_neq, Z.lor_eq_0_iff. destruct (decide (Z.land a m = 0)); tauto.
Qed.

Lemma has_write s : has s F_SEAL_WRITE = true → has s WRITE_SEALS = true.
Proof.
  unfold has. rewrite !negb_true_iff, !Z.eqb_neq. intros H He. apply H. unfold WRITE_SEALS in He.
  rewrite Z.land_lor_distr_r in He. by apply Z.lor_eq_0_iff in He as [? _].
Qed.

Definition sealed (st : MemFd) : Prop :=
  has (mf_seals st) F_SEAL_WRITE = true ∧ has (mf_seals st) F_SEAL_SHRINK = true ∧ has (mf_seals st) F_SEAL_GROW = true.

Definition is_store (op : MemOp) : bool := match op with OStore _ _ _ => true | _ => false end.

Lemma spec_sealed st fl op : sealed st → is_store op = false → (spec_op (content st) (mf_seals st) fl op).1.1 = content st.
Proof.
  intros (Hw & Hs & Hg) Hop. apply has_write in Hw. destruct op; cbn [spec_op is_store] in *; try done.
  - unfold spec_write. by rewrite Hw.
  - unfold spec_truncate. rewrite Hs, Hg, !andb_true_r. destruct (_ || _) eqn:E; [done|].
    apply orb_false_iff in E as [?%Z.ltb_ge ?%Z.ltb_ge]. cbn [fst].
    replace size with (data_len (content st)) by lia. apply resized_same.
  - unfold spec_fallocate. rewrite Hw, Hg. repeat case_match; simplify_eq/=; done.
  - by destruct (tmp_lseek _ _ _ _).
Qed.

(** A file with its descriptors and mappings; a mapping has its backing and
    whether its pages can be written. *)
Record MemWorld : Type := mkMemWorld {
  mw_file : MemFd; mw_fds : list TmpFile; mw_maps : list (TmpFileMmapBacking * bool) }.

(** The steps of the programs that share the file; [mprotect] says whether they
    may also make a mapping writable by [mprotect], which asks [allows_write]. *)
Inductive mem_step (limit : Z) (mprotect : bool) : MemWorld → MemWorld → Prop :=
| ms_op st fds maps i fl op st' fl' r :
    fds !! i = Some fl → is_store op = false → op_ok st op → run_op limit st fl op = Done (st', fl', r) →
    mem_step limit mprotect (mkMemWorld st fds maps) (mkMemWorld st' (<[i := fl']> fds) maps)
| ms_store st fds maps b k o byte :
    (b, true) ∈ maps → b_shared b = true → op_ok st (OStore k o byte) →
    mem_step limit mprotect (mkMemWorld st fds maps) (mkMemWorld (store_byte st k o byte) fds maps)
| ms_seal st fds maps i fl seals :
    fds !! i = Some fl →
    mem_step limit mprotect (mkMemWorld st fds maps) (mkMemWorld (add_seals st fl seals).1 fds maps)
| ms_reopen st fds maps i fl fl' r w a :
    fds !! i = Some fl → reopen fl r w a = Ok fl' →
    mem_step limit mprotect (mkMemWorld st fds maps) (mkMemWorld st (fds ++ [fl']) maps)
| ms_mmap st fds maps i fl shared writable st' b :
    fds !! i = Some fl → mmap_backing st fl shared writable = (st', Ok b) →
    mem_step limit mprotect (mkMemWorld st fds maps) (mkMemWorld st' fds ((b, writable) :: maps))
| ms_munmap st fds l1 l2 b w :
    mem_step limit mprotect (mkMemWorld st fds (l1 ++ (b, w) :: l2)) (mkMemWorld (drop_backing st b) fds (l1 ++ l2))
| ms_mprotect st fds l1 l2 b w :
    mprotect = true → allows_write st b = true →
    mem_step limit mprotect (mkMemWorld st fds (l1 ++ (b, w) :: l2)) (mkMemWorld st fds (l1 ++ (b, true) :: l2)).

Definition mem_start : MemWorld :=
  let '(st, fl) := new_with_seals true true true false true in mkMemWorld st [fl] [].

(** The counter of writable shared mappings is exact, and they exclude
    [F_SEAL_WRITE]. *)
Definition counted (maps : list (TmpFileMmapBacking * bool)) : Z :=
  Z.of_nat (length (filter (λ p, b_writable_shared p.1 = true) maps)).
Record mem_inv (limit : Z) (w : MemWorld) : Prop := {
  mi_wf : memfd_wf limit (mw_file w);
  mi_offsets : Forall (λ fl, 0 ≤ tf_offset fl) (mw_fds w);
  mi_count : writable_shared_mappings (mw_file w) = counted (mw_maps w);
  mi_maps : Forall (λ p, b_shared p.1 = true → p.2 = true → b_writable_shared p.1 = true) (mw_maps w);
  mi_seal : has (mf_seals (mw_file w)) F_SEAL_WRITE = true → counted (mw_maps w) = 0 }.

Lemma spec_offset c seals fl op st : op_ok st op → 0 ≤ tf_offset fl → 0 ≤ tf_offset (spec_op c seals fl op).1.2.
Proof.
  intros Hok Ho. destruct op; cbn [spec_op op_ok] in *; try done.
  - cbn. unfold data_len. lia.
  - unfold spec_write. repeat case_match; cbn; unfold data_len; lia.
  - unfold spec_truncate. case_match; cbn; lia.
  - by destruct (spec_fallocate _ _ _ _ _ _).
  - unfold tmp_lseek. destruct (if whence =? 0 then _ else _) as [base|]; [|done].
    destruct (_ || _) eqn:E; [done|]. cbn. apply orb_false_iff in E as [_ E%Z.ltb_ge]. done.
Qed.

Lemma counted_app l1 l2 : counted (l1 ++ l2) = counted l1 + counted l2.
Proof. unfold counted. rewrite filter_app, length_app. lia. Qed.
Lemma counted_cons b w l : counted ((b, w) :: l) = (if b_writable_shared b then 1 else 0) + counted l.
Proof. unfold counted. rewrite filter_cons. cbn. destruct (b_writable_shared b); repeat case_decide; cbn; try done; lia. Qed.
Lemma counted_nonneg l : 0 ≤ counted l.
Proof. unfold counted. lia. Qed.

(** What an operation or a store keeps of the invariant. *)
Lemma mem_inv_implements limit st st' fds fds' maps c : mem_inv limit (mkMemWorld st fds maps) → implements limit st st' c →
  Forall (λ fl, 0 ≤ tf_offset fl) fds' → mem_inv limit (mkMemWorld st' fds' maps).
Proof. intros [Hw Ho Hc Hm Hs] (H1 & _ & H3 & H4) Hf. split; cbn in *; [done|done|congruence|done|]. by rewrite H3. Qed.

Lemma mem_step_inv limit w w' : limit ≤ i64_max → mem_step limit false w w' → mem_inv limit w → mem_inv limit w'.
Proof.
  intros Hl Hstep Hi. pose proof Hi as [Hw Ho Hc Hm Hs].
  destruct Hstep as [st fds maps i fl op st' fl' r Hfd Hop Hok Hrun|st fds maps b k o byte Hb Hsh Hok
    |st fds maps i fl seals Hfd|st fds maps i fl fl' r wr a Hfd Hre|st fds maps i fl shared writable st' b Hfd Hmm
    |st fds l1 l2 b wr|st fds l1 l2 b wr Hmp]; cbn [mw_file mw_fds mw_maps] in *; [..|done].
  - pose proof (Forall_lookup_1 _ _ _ _ Ho Hfd) as Hfo.
    pose proof (op_refines limit st fl op Hl Hw Hfo Hok) as Href. rewrite Hrun in Href. destruct Href as (Himp & -> & _).
    eapply mem_inv_implements; [exact Hi|exact Himp|]. apply Forall_insert; [done|]. by eapply spec_offset.
  - pose proof (store_refines limit Hl st Hw demo_tmpfile k o byte Hok) as (Himp & _).
    eapply mem_inv_implements; [exact Hi|exact Himp|done].
  - unfold add_seals. repeat case_match; try exact Hi. split; cbn; [|done|done|done|].
    + destruct Hw. by split.
    + rewrite has_lor, orb_true_iff. intros [Hh|Hh]; [by apply Hs|]. rewrite <- Hc.
      destruct (writable_shared_mappings st =? 0) eqn:Ez; [by apply Z.eqb_eq|].
      repeat match goal with H : (_ && _) = false |- _ => rewrite Hh in H; done end.
  - unfold reopen in Hre. destruct (is_memfd fl); [|done]. injection Hre as <-. split; cbn; try done.
    apply Forall_app. split; [done|]. by repeat constructor.
  - unfold mmap_backing in Hmm. destruct (is_memfd fl); [|done]. cbn [negb] in Hmm.
    destruct (shared && writable) eqn:Esw.
    + destruct (has (mf_seals st) WRITE_SEALS) eqn:Eh; [done|]. injection Hmm as <- <-. split; cbn.
      * destruct Hw. by split.
      * done.
      * rewrite counted_cons. cbn. lia.
      * by constructor.
      * intros Hh%has_write. congruence.
    + injection Hmm as <- <-. split; cbn; [done|done|by rewrite counted_cons| |by rewrite counted_cons].
      constructor; [|done]. cbn. intros -> ->. done.
  - rewrite counted_app, counted_cons in Hc, Hs. apply Forall_app in Hm as [Hm1 Hm2]. apply Forall_cons in Hm2 as [_ Hm2].
    pose proof (counted_nonneg l1). pose proof (counted_nonneg l2).
    assert (mf_seals (drop_backing st b) = mf_seals st) as Hse by (unfold drop_backing; by case_match).
    split; cbn; [|done| |by apply Forall_app|].
    + unfold drop_backing. case_match; [|done]. destruct Hw. by split.
    + rewrite counted_app. unfold drop_backing. destruct (b_writable_shared b); cbn; lia.
    + rewrite Hse, counted_app. intros Hh%Hs. destruct (b_writable_shared b); lia.
Qed.

Lemma mem_start_inv limit : 0 ≤ limit → mem_inv limit mem_start.
Proof. intros. split; cbn; [|by repeat constructor|done|constructor|done]. split; cbn; try done; intros *; by rewrite lookup_empty. Qed.

(** Under the three seals nothing but a store can change the content, and there
    is no mapping to store through. *)
Lemma mem_step_sealed limit w w' : limit ≤ i64_max → mem_inv limit w → sealed (mw_file w) → mem_step limit false w w' →
  content (mw_file w') = content (mw_file w) ∧ sealed (mw_file w').
Proof.
  intros Hl [Hw Ho Hc Hm Hs] Hse Hstep.
  destruct Hstep as [st fds maps i fl op st' fl' r Hfd Hop Hok Hrun|st fds maps b k o byte Hb Hsh Hok
    |st fds maps i fl seals Hfd| |st fds maps i fl shared writable st' b Hfd Hmm
    |st fds l1 l2 b wr|st fds l1 l2 b wr Hmp]; cbn [mw_file mw_fds mw_maps] in *; [..|done]; try done.
  - pose proof (Forall_lookup_1 _ _ _ _ Ho Hfd) as Hfo.
    pose proof (op_refines limit st fl op Hl Hw Hfo Hok) as Href. rewrite Hrun in Href.
    destruct Href as ((_ & Hco & Hs2 & _) & _). rewrite Hco, spec_sealed by done. split; [done|]. unfold sealed. by rewrite Hs2.
  - exfalso. rewrite Forall_forall in Hm. specialize (Hm _ Hb Hsh eq_refl). cbn in Hm.
    apply list_elem_of_split in Hb as (l1 & l2 & ->). destruct Hse as (Hse & _). specialize (Hs Hse).
    rewrite counted_app, counted_cons, Hm in Hs. pose proof (counted_nonneg l1). pose proof (counted_nonneg l2). lia.
  - unfold add_seals. repeat case_match; try done. split; [done|]. unfold sealed in *. cbn. rewrite !has_lor.
    destruct Hse as (-> & -> & ->). done.
  - unfold mmap_backing in Hmm. repeat case_match; simplify_eq; done.
  - unfold drop_backing. by case_match.
Qed.

Lemma mem_reachable_inv limit w : 0 ≤ limit ≤ i64_max → rtc (mem_step limit false) mem_start w → mem_inv limit w.
Proof.
  intros Hl Hr. eapply rtc_invariant; [|exact Hr|apply mem_start_inv; lia].
  intros w1 w2 ??. eapply mem_step_inv; [|done..]. lia.
Qed.

(** [C30] A file sealed against writing, shrinking and growing never changes
    again: whatever descriptors, mappings and further seals its users create
    and drop, in any order, its content stays what it was, provided that no
    mapping that was created read-only is made writable by [mprotect]. *)
Theorem sealed_content_fixed limit w0 w1 :
  0 ≤ limit ≤ i64_max → rtc (mem_step limit false) mem_start w0 → sealed (mw_file w0) →
  rtc (mem_step limit false) w0 w1 → content (mw_file w1) = content (mw_file w0).
Proof.
  intros Hl Hr Hs Hr1. pose proof (mem_reachable_inv _ _ Hl Hr) as Hi.
  enough (content (mw_file w1) = content (mw_file w0) ∧ sealed (mw_file w1) ∧ mem_inv limit w1) by tauto.
  eapply (rtc_invariant _ (λ w, content (mw_file w) = content (mw_file w0) ∧ sealed (mw_file w) ∧ mem_inv limit w));
    [|exact Hr1|done].
  intros w w' (Hc & Hse & Hin) Hstep. destruct (mem_step_sealed limit w w') as [H1 H2]; [lia|done|done|done|].
  split_and!; [congruence|done|]. eapply mem_step_inv; [|done..]. lia.
Qed.

(** Evaluate a step and go on from the state it gives. *)
Lemma mem_step_to limit mp w w1 w2 w3 :
  mem_step limit mp w w1 → w1 = w2 → rtc (mem_step limit mp) w2 w3 → rtc (mem_step limit mp) w w3.
Proof. intros Hs <- Hr. by eapply rtc_l. Qed.

Tactic Notation "mem_go" uconstr(step) :=
  eapply mem_step_to; [eapply step; first [reflexivity|vm_compute; reflexivity|cbn; lia|idtac]|vm_compute; reflexivity|].

Definition ALL_SEALS : Z := Z.lor F_SEAL_WRITE (Z.lor F_SEAL_SHRINK F_SEAL_GROW).

(** A sealed file of two bytes. *)
Definition demo_sealed : MemWorld := mkMemWorld (mkMemFd [1; 2] 14 0 ∅ ∅) [with_offset demo_tmpfile 2] [].

Lemma sealed_content_fixed_witness :
  ∃ w1, sealed (mw_file demo_sealed) ∧ rtc (mem_step i64_max false) demo_sealed w1 ∧ mw_fds w1 ≠ mw_fds demo_sealed ∧
    content (mw_file w1) = content (mw_file demo_sealed).
Proof.
  assert (rtc (mem_step i64_max false) mem_start demo_sealed) as Hr.
  { mem_go (ms_op _ _ _ _ _ 0%nat _ (OWrite [1; 2])). mem_go (ms_seal _ _ _ _ _ 0%nat _ ALL_SEALS). apply rtc_refl. }
  eassert (rtc (mem_step i64_max false) demo_sealed _) as Hr1.
  { mem_go (ms_op _ _ _ _ _ 0%nat _ (OTruncate 0)). mem_go (ms_op _ _ _ _ _ 0%nat _ (OSeek 0 0)). apply rtc_refl. }
  assert (sealed (mw_file demo_sealed)) as Hs by (split_and!; vm_compute; reflexivity).
  assert (0 ≤ i64_max ≤ i64_max) as Hl by (unfold i64_max; lia).
  eexists. split; [exact Hs|]. split; [exact Hr1|]. split; [discriminate|].
  exact (sealed_content_fixed i64_max _ _ Hl Hr Hs Hr1).
Defined.

(** The seals can be bypassed: a mapping created read-only is not counted
    as writable, [mprotect] makes it writable, [F_SEAL_WRITE] is then installed
    although a writable shared mapping exists, and a store through it changes
    the sealed file. *)
Theorem mprotect_bypasses_seals :
  ∃ w0 w1, rtc (mem_step i64_max true) mem_start w0 ∧ sealed (mw_file w0) ∧
    rtc (mem_step i64_max true) w0 w1 ∧ content (mw_file w0) = [1; 2] ∧ content (mw_file w1) = [9; 2].
Proof.
  set (b := mkBacking true false).
  assert (∃ w0, rtc (mem_step i64_max true) mem_start w0 ∧
    w0 = mkMemWorld (mkMemFd [1; 2] ALL_SEALS 0 {[0 := 100]} {[100 := [1; 2] ++ zeros (PAGE - 2)]})
           [with_offset demo_tmpfile 2] [(b, true)]) as (w0 & Hr & ->).
  { eexists. split; [|reflexivity].
    mem_go (ms_op _ _ _ _ _ 0%nat _ (OWrite [1; 2])). mem_go (ms_mmap _ _ _ _ _ 0%nat _ true false).
    mem_go (ms_op _ _ _ _ _ 0%nat _ (OFault 0 (Some 100))); [split; [lia|]; intros f [= <-]; by split|].
    eapply rtc_l; [eapply (ms_mprotect _ _ _ _ [] [] b false); reflexivity|]. cbn [app].
    mem_go (ms_seal _ _ _ _ _ 0%nat _ ALL_SEALS). apply rtc_refl. }
  eexists _, _. split; [exact Hr|]. split; [split_and!; vm_compute; reflexivity|].
  split; [eapply rtc_once, (ms_store _ _ _ _ _ b 0 0 9)|split; vm_compute; reflexivity].
  - by left.
  - done.
  - split; [unfold PAGE; lia|]. by eexists.
Qed.

(** A write beyond the limit of a vector panics. *)
Lemma write_beyond_panics limit st fl off byte :
  limit ≤ i64_max → memfd_wf limit st → mf_seals st = 0 → tf_append fl = false → 0 ≤ off → limit < off + 1 ≤ usize_max →
  tmp_write limit st (with_offset fl off) [byte] = Panic.
Proof.
  intros Hl Hwf Hs Ha Ho Hoff.
  pose proof (write_refines limit Hl st Hwf (with_offset fl off) [byte] Ho) as H.
  pose proof (content_limit limit Hl st Hwf) as Hc. unfold refines in H. cbn [run_op spec_op] in H.
  destruct (tmp_write limit st (with_offset fl off) [byte]) as [[[st' fl'] r]|]; [|done]. exfalso.
  destruct H as ((Hw & Hct & _) & _). pose proof (content_limit limit Hl st' Hw) as Hc'. rewrite Hct in Hc'.
  unfold spec_write in Hc'. rewrite Hs in Hc'. assert (∀ m, has 0 m = false) as H0 by done. rewrite !H0, andb_false_r in Hc'.
  assert (tf_append (with_offset fl off) = false) as Ha' by done. rewrite Ha' in Hc'.
  assert (tf_offset (with_offset fl off) = off) as Hof by done. rewrite Hof in Hc'.
  assert (data_len [byte] = 1) as H1 by done. rewrite H1, (proj2 (Z.ltb_ge usize_max _)), Z.max_r in Hc' by lia.
  cbn [fst] in Hc'. rewrite length_splice_Z in Hc'; [|lia|rewrite length_resized by lia; lia].
  rewrite length_resized in Hc'; lia.
Qed.

(** A seek to the largest offset and a write panic, whatever the limit of a
    vector. *)
Theorem seek_write_panics limit st fl byte :
  limit ≤ i64_max → memfd_wf limit st → mf_seals st = 0 → tf_append fl = false →
  ∃ fl', tmp_lseek st fl i64_max 0 = (fl', Ok i64_max) ∧ tmp_write limit st fl' [byte] = Panic.
Proof.
  intros Hl Hwf Hs Ha. exists (with_offset fl i64_max). split; [reflexivity|].
  apply write_beyond_panics; try done; unfold i64_max, usize_max in *; lia.
Qed.
