(* ===== verification/FileCache.v ===== *)
(** * The cache of file pages

    [fs/page_cache.rs]: the pages of regular files that [read], [mmap] and
    [splice] share, the CLOCK queues, reservation of capacity, eviction, loading
    with read-ahead, and invalidation.

    A page object lives behind an [Arc] and holds one frame of its own, so both
    are known by the number of the frame; their strong counts are kept, and the
    last drop of a frame gives it back to the frame pool.  The code inside one
    critical section is one function.  The capacity is a parameter: 192 * 1024
    pages in the ordinary build, 2 * 1024 in the test build. *)

From S2P Require Import Prelude Errno Bytes FrameAlloc FramePool.

Definition PAGE_SIZE : Z := 4096.
Definition SEQUENTIAL_READAHEAD_MAX_PAGES : Z := 4.
Definition EVICTION_SCAN_BUDGET : nat := 128.
Definition EVICTION_DEFERRED_RETRY_BATCH : nat := 16.
Definition EVICTION_DEFERRED_RETRY_MISS_INTERVAL : Z := 256.
Definition MAX_FILE_PAGE_CACHE_PAGES : Z := 192 * 1024.

(** ** The inode interface, [fs/vfs.rs] *)

Inductive InodeType : Set := Unknown | Fifo | CharDevice | Dir | BlockDevice | File | SymLink | Socket.
#[export] Instance InodeType_eq_dec : EqDecision InodeType.
Proof. solve_decision. Defined.

(** The methods of the trait that the cache and open files use.  [read_at] with a
    buffer of [n] bytes returns the bytes it put at its start. *)
Class Inode (I : Type) : Type := {
  types : I → InodeType;
  size : I → Z;
  path : I → string;
  page_cache_path : I → option string;
  read_at : I → Z → Z → result SysErrNo (list Z);
  write_at : I → Z → list Z → I * result SysErrNo Z;
  file_truncate : I → Z → I * result SysErrNo Z;
  seek_data : I → Z → result SysErrNo Z;
  seek_hole : I → Z → result SysErrNo Z
}.

(** [inode.page_cache_path().unwrap_or_else(|| inode.path())]. *)
Definition cache_path {I} `{!Inode I} (i : I) : string := default (path i) (page_cache_path i).

(** ** State *)

Record FilePageKey : Type := mkKey { k_path : string; page_index : Z }.
#[export] Instance FilePageKey_eq_dec : EqDecision FilePageKey.
Proof. solve_decision. Defined.

Record FilePage : Type := mkPage { key : FilePageKey; valid_len : Z; dirty : bool; referenced : bool; p_strong : nat }.
Record Frame : Type := mkFrame { f_bytes : list Z; f_strong : nat }.
Record EvictionQueues : Type := mkQueues { active : list FilePageKey; deferred : list FilePageKey; retry_misses : Z }.

Definition queues_new : EvictionQueues := mkQueues [] [] 0.

Record FilePageCache (Src : Type) : Type := mkCache {
  pages : gmap string (gmap Z Z); page_count : Z; eviction_queues : EvictionQueues;
  objs : gmap Z FilePage; frames : gmap Z Frame; source : Src }.
Arguments mkCache {Src}.
Arguments pages {Src}.
Arguments page_count {Src}.
Arguments eviction_queues {Src}.
Arguments objs {Src}.
Arguments frames {Src}.
Arguments source {Src}.

(** Why a page is kept or evicted. *)
Inductive EvictionState : Set := Evict | SecondChance | Dirty | InUse.

Definition set_referenced (b : bool) (p : FilePage) : FilePage := mkPage (key p) (valid_len p) (dirty p) b (p_strong p).
Definition mark_dirty (p : FilePage) : FilePage := mkPage (key p) (valid_len p) true (referenced p) (p_strong p).
Definition set_strong (n : nat) (p : FilePage) : FilePage := mkPage (key p) (valid_len p) (dirty p) (referenced p) n.

(** ** The eviction queues *)

Fixpoint refill_loop (n : nat) (q : EvictionQueues) : comp EvictionQueues :=
  match n with
  | O => Done q
  | S n =>
      match deferred q with
      | [] => Panic
      | k :: d => refill_loop n (mkQueues (active q ++ [k]) d (retry_misses q))
      end
  end.
Definition refill_active_from_deferred (q : EvictionQueues) : comp EvictionQueues :=
  refill_loop (Nat.min (length (deferred q)) EVICTION_DEFERRED_RETRY_BATCH) q.

Definition nonempty {A} (l : list A) : bool := match l with [] => false | _ => true end.
Definition retain_keys (p : FilePageKey → bool) (q : EvictionQueues) : EvictionQueues :=
  mkQueues (retain p (active q)) (retain p (deferred q)) (retry_misses q).

Section cache.
Context {Src : Type} `{!FrameSource Src} `{!FramePool Src} (cap : Z).
Notation Cache := (FilePageCache Src).
Implicit Types (c : Cache) (k : FilePageKey) (f : Z).

Definition with_pages c (p : gmap string (gmap Z Z)) : Cache :=
  mkCache p (page_count c) (eviction_queues c) (objs c) (frames c) (source c).
Definition with_count c (n : Z) : Cache := mkCache (pages c) n (eviction_queues c) (objs c) (frames c) (source c).
Definition with_queues c (q : EvictionQueues) : Cache := mkCache (pages c) (page_count c) q (objs c) (frames c) (source c).
Definition with_objs c (o : gmap Z FilePage) : Cache :=
  mkCache (pages c) (page_count c) (eviction_queues c) o (frames c) (source c).
Definition with_frames c (m : gmap Z Frame) (s : Src) : Cache :=
  mkCache (pages c) (page_count c) (eviction_queues c) (objs c) m s.

Definition cache_new (s : Src) : Cache := mkCache ∅ 0 queues_new ∅ ∅ s.

(** ** Reference counts *)

Definition frame_alloc c : option (Z * Cache) :=
  match fs_alloc (source c) with
  | None => None
  | Some (f, s) => Some (f, with_frames c (<[f := mkFrame (zeros PAGE_SIZE) 1]> (frames c)) s)
  end.
Definition frame_drop c f : Cache :=
  match frames c !! f with
  | None => c
  | Some fr =>
      if (f_strong fr =? 1)%nat then with_frames c (delete f (frames c)) (fs_dealloc (source c) f)
      else with_frames c (<[f := mkFrame (f_bytes fr) (f_strong fr - 1)]> (frames c)) (source c)
  end.
Definition frame_clone c f : Cache :=
  match frames c !! f with
  | None => c
  | Some fr => with_frames c (<[f := mkFrame (f_bytes fr) (S (f_strong fr))]> (frames c)) (source c)
  end.
(** [frame.ppn.bytes_array_mut()[..bytes.len()].copy_from_slice(bytes)]. *)
Definition frame_write c f (bytes : list Z) : Cache :=
  match frames c !! f with
  | None => c
  | Some fr => with_frames c (<[f := mkFrame (splice (f_bytes fr) 0 bytes) (f_strong fr)]> (frames c)) (source c)
  end.

Definition arc_clone c f : Cache :=
  match objs c !! f with
  | None => c
  | Some p => with_objs c (<[f := set_strong (S (p_strong p)) p]> (objs c))
  end.
Definition arc_drop c f : Cache :=
  match objs c !! f with
  | None => c
  | Some p =>
      if (p_strong p =? 1)%nat then frame_drop (with_objs c (delete f (objs c))) f
      else with_objs c (<[f := set_strong (p_strong p - 1) p]> (objs c))
  end.
(** [Arc::new(FilePage { key, frame, valid_len, dirty: false, referenced: true })]. *)
Definition new_page c f k (len : Z) : Cache := with_objs c (<[f := mkPage k len false true 1]> (objs c)).

(** ** Capacity *)

(** The [compare_exchange] loop ends with the update of the count it read. *)
Definition try_reserve_page c : Cache * bool :=
  if cap <=? page_count c then (c, false) else (with_count c (page_count c + 1), true).
Definition release_page_reservation c : Cache := with_count c (wrap64 (page_count c - 1)).

(** ** Eviction *)

Definition resident c k : option Z := m ← pages c !! k_path k; m !! page_index k.
Definition contains_page c (pth : string) (i : Z) : bool := bool_decide (is_Some (resident c (mkKey pth i))).

Definition examine c k : comp (Cache * option EvictionState) :=
  match resident c k with
  | None => Done (c, None)
  | Some f =>
      p ← unwrap (objs c !! f);
      fr ← unwrap (frames c !! f);
      Done (with_objs c (<[f := set_referenced false p]> (objs c)),
        Some (if referenced p then SecondChance
              else if dirty p then Dirty
              else if negb (p_strong p =? 1)%nat || negb (f_strong fr =? 1)%nat then InUse
              else Evict))
  end.

(** The map of a path without one page; a path without pages leaves the map. *)
Definition unpublish c k (m : gmap Z Z) : Cache :=
  let m' := delete (page_index k) m in
  with_pages c (if decide (m' = ∅) then delete (k_path k) (pages c) else <[k_path k := m']> (pages c)).
Definition evict_page c k : comp Cache :=
  m ← unwrap (pages c !! k_path k);
  let removed := m !! page_index k in
  let c := unpublish c k m in
  let c := match removed with Some f => arc_drop c f | None => c end in
  Done (with_count c (wrap64 (page_count c - 1))).

Definition push_active c k : Cache :=
  let q := eviction_queues c in with_queues c (mkQueues (active q ++ [k]) (deferred q) (retry_misses q)).
Definition push_deferred c k : Cache :=
  let q := eviction_queues c in with_queues c (mkQueues (active q) (deferred q ++ [k]) (retry_misses q)).
Definition pop_active c : option (FilePageKey * Cache) :=
  let q := eviction_queues c in
  match active q with
  | [] => None
  | k :: a => Some (k, with_queues c (mkQueues a (deferred q) (retry_misses q)))
  end.

Fixpoint scan (n : nat) c : comp (Cache * bool) :=
  match n with
  | O => Done (c, false)
  | S n =>
      match pop_active c with
      | None => Done (c, false)
      | Some (k, c) =>
          '(c, state) ← examine c k;
          match state with
          | Some Evict => c ← evict_page c k; Done (c, true)
          | Some SecondChance => scan n (push_active c k)
          | Some Dirty => scan n (push_deferred c k)
          | Some InUse => scan n (push_deferred c k)
          | None => scan n c
          end
      end
  end.

Definition set_misses c (n : Z) : Cache :=
  with_queues c (mkQueues (active (eviction_queues c)) (deferred (eviction_queues c)) n).
Definition starved c : bool := negb (nonempty (active (eviction_queues c))) && nonempty (deferred (eviction_queues c)).

(** The scan once the cooldown has passed. *)
Definition run_scan c : comp (Cache * bool) :=
  '(c, evicted) ← scan (Nat.min (length (active (eviction_queues c))) EVICTION_SCAN_BUDGET) c;
  if evicted : bool then Done (c, true)
  else Done (if starved c then set_misses c EVICTION_DEFERRED_RETRY_MISS_INTERVAL else c, false).
Definition try_evict_one c : comp (Cache * bool) :=
  if starved c then
    if negb (retry_misses (eviction_queues c) =? 0) then Done (set_misses c (retry_misses (eviction_queues c) - 1), false)
    else q ← refill_active_from_deferred (eviction_queues c); run_scan (with_queues c q)
  else run_scan c.

Definition reserve_page_or_evict c : comp (Cache * bool) :=
  let '(c, ok) := try_reserve_page c in
  if ok : bool then Done (c, true)
  else
    '(c, evicted) ← try_evict_one c;
    if evicted : bool then Done (try_reserve_page c) else Done (c, false).

(** ** Publication and lookup *)

(** The reference to the page moves into the map or is dropped. *)
Definition publish_reserved_page c f : comp (Cache * bool) :=
  p ← unwrap (objs c !! f);
  let k := key p in
  let m := default ∅ (pages c !! k_path k) in
  match m !! page_index k with
  | Some _ => Done (arc_drop (with_pages c (<[k_path k := m]> (pages c))) f, false)
  | None => Done (push_active (with_pages c (<[k_path k := <[page_index k := f]> m]> (pages c))) k, true)
  end.

Definition mark_referenced c f : Cache :=
  match objs c !! f with
  | None => c
  | Some p => with_objs c (<[f := set_referenced true p]> (objs c))
  end.
Definition lookup_page c (pth : string) (i : Z) : Cache * option Z :=
  match resident c (mkKey pth i) with
  | None => (c, None)
  | Some f => (mark_referenced (arc_clone c f) f, Some f)
  end.
Definition get_inode {I} `{!Inode I} c (i : I) (idx : Z) : Cache * option Z := lookup_page c (cache_path i) idx.

(** ** Reading cached pages *)

(** One round of the copy: the new state, how far it has come, and whether to go on. *)
Record CopyState : Type := mkCopy { cp_cache : Cache; cp_buf : list Z; copied : Z; cp_miss : bool; cp_stop : bool }.

Definition copy_round (pth : string) (offset : Z) (s : CopyState) : comp CopyState :=
  match checked_add offset (copied s) with
  | None => Done (mkCopy (cp_cache s) (cp_buf s) (copied s) true true)
  | Some file_offset =>
      let idx := file_offset / PAGE_SIZE in
      let page_offset := file_offset mod PAGE_SIZE in
      match lookup_page (cp_cache s) pth idx with
      | (c, None) => Done (mkCopy c (cp_buf s) (copied s) true true)
      | (c, Some f) =>
          p ← unwrap (objs c !! f);
          fr ← unwrap (frames c !! f);
          if valid_len p <=? page_offset then Done (mkCopy (arc_drop c f) (cp_buf s) (copied s) false true)
          else
            let count := Z.min (valid_len p - page_offset) (data_len (cp_buf s) - copied s) in
            let buf := splice (cp_buf s) (copied s) (slice (f_bytes fr) page_offset count) in
            Done (mkCopy (arc_drop c f) buf (copied s + count) false (count =? 0))
      end
  end.
Definition copy_guard (s : CopyState) : option unit :=
  if negb (cp_stop s) && (copied s <? data_len (cp_buf s)) then Some () else None.

Definition read_cached_at c (pth : string) (offset : Z) (buf : list Z) : comp (Cache * list Z * option Z) :=
  if negb (nonempty buf) then Done (c, buf, Some 0)
  else
    s ← while_some copy_guard (λ s _, copy_round pth offset s) (mkCopy c buf 0 false false);
    Done (cp_cache s, cp_buf s, if cp_miss s then None else Some (copied s)).

(** ** Publishing what a read covered *)

(** One page of [insert_read_range]: [Done (c, false)] ends the loop. *)
Definition insert_one c (pth : string) (offset : Z) (data : list Z) (file_size idx : Z) : comp (Cache * bool) :=
  let page_start := saturating_mul idx PAGE_SIZE in
  let len := Z.min PAGE_SIZE (saturating_sub file_size page_start) in
  if (len =? 0) || (page_start <? offset) then Done (c, true)
  else
    let source_start := page_start - offset in
    match checked_add source_start len with
    | None => Done (c, true)
    | Some source_end =>
        if data_len data <? source_end then Done (c, true)
        else if contains_page c pth idx then Done (c, true)
        else
          '(c, reserved) ← reserve_page_or_evict c;
          if negb reserved then Done (c, true)
          else
            match frame_alloc c with
            | None => Done (release_page_reservation c, false)
            | Some (f, c) =>
                let c := frame_write c f (slice data source_start len) in
                '(c, published) ← publish_reserved_page (new_page c f (mkKey pth idx) len) f;
                Done (if published : bool then c else release_page_reservation c, true)
            end
    end.
Fixpoint insert_loop c (pth : string) (offset : Z) (data : list Z) (file_size : Z) (idxs : list Z) : comp Cache :=
  match idxs with
  | [] => Done c
  | i :: idxs =>
      '(c, go_on) ← insert_one c pth offset data file_size i;
      if go_on : bool then insert_loop c pth offset data file_size idxs else Done c
  end.
(** [first..=last]. *)
Definition range_incl (first last : Z) : list Z := seqZ first (last + 1 - first).
Definition insert_read_range c (pth : string) (offset : Z) (data : list Z) (file_size : Z) : comp Cache :=
  if negb (nonempty data) || (file_size <=? offset) then Done c
  else
    let end_ := Z.min (saturating_add offset (data_len data)) file_size in
    insert_loop c pth offset data file_size
      (range_incl (offset / PAGE_SIZE) (saturating_sub end_ 1 / PAGE_SIZE)).

(** ** Loading *)

Fixpoint alloc_more (n : nat) c (fs : list Z) : Cache * list Z :=
  match n with
  | O => (c, fs)
  | S n => match frame_alloc c with None => (c, fs) | Some (f, c) => alloc_more n c (fs ++ [f]) end
  end.

Section load.
Context {I : Type} `{!Inode I}.

Definition wanted_pages c (i : I) (idx : Z) : Z :=
  let file_size := size i in
  let file_offset := wrap64 (idx * PAGE_SIZE) in
  let has_cached_previous := negb (idx =? 0) && contains_page c (cache_path i) (idx - 1) in
  let should_readahead := has_cached_previous && (saturating_add file_offset PAGE_SIZE <? file_size) &&
    bool_decide (is_Some (checked_add idx 1)) in
  let n := if should_readahead then saturating_add (saturating_sub file_size file_offset) (PAGE_SIZE - 1) / PAGE_SIZE else 1 in
  Z.max 1 (Z.min SEQUENTIAL_READAHEAD_MAX_PAGES n).

(** The bytes of page [n] of what one read returned. *)
Definition page_len (read_len : Z) (n : Z) : Z := Z.min (saturating_sub read_len (n * PAGE_SIZE)) PAGE_SIZE.

Fixpoint fill_frames c (buf : list Z) (read_len n : Z) (fs : list Z) : Cache :=
  match fs with
  | [] => c
  | f :: fs =>
      let len := page_len read_len n in
      if len =? 0 then c else fill_frames (frame_write c f (slice buf (n * PAGE_SIZE) len)) buf read_len (n + 1) fs
  end.

(** The read into the frames: the number of bytes. *)
Definition read_frames c (i : I) (file_offset : Z) (fs : list Z) : Cache * result SysErrNo Z :=
  if size i <=? file_offset then (c, Ok 0)
  else match fs with
  | [f] =>
      match read_at i file_offset PAGE_SIZE with
      | Ok bytes => (frame_write c f bytes, Ok (data_len bytes))
      | Err e => (c, Err e)
      end
  | _ =>
      let n := Z.of_nat (length fs) * PAGE_SIZE in
      match read_at i file_offset n with
      | Ok bytes =>
          (fill_frames c (bytes ++ zeros (n - data_len bytes)) (data_len bytes) 0 fs, Ok (data_len bytes))
      | Err e => (c, Err e)
      end
  end.

(** The frames become pages; those that are not used are dropped. *)
Fixpoint make_pages c (pth : string) (idx read_len n : Z) (fs : list Z) : Cache * list Z :=
  match fs with
  | [] => (c, [])
  | f :: fs' =>
      let len := page_len read_len n in
      if negb (n =? 0) && (len =? 0) then (foldl frame_drop c fs, [])
      else
        match checked_add idx n with
        | None => (foldl frame_drop c fs, [])
        | Some j => let '(c, ids) := make_pages (new_page c f (mkKey pth j) len) pth idx read_len (n + 1) fs' in (c, f :: ids)
        end
  end.

(** The part of [get_or_load] between the first lookup and the second: the pages
    it read, the first one apart. *)
Definition load_pages c (i : I) (idx : Z) : comp (Cache * result SysErrNo (Z * list Z)) :=
  let wanted := wanted_pages c i idx in
  match frame_alloc c with
  | None => Done (c, Err ENOMEM)
  | Some (f, c) =>
      let '(c, fs) := alloc_more (Z.to_nat (wanted - 1)) c [f] in
      match read_frames c i (wrap64 (idx * PAGE_SIZE)) fs with
      | (c, Err e) => Done (foldl frame_drop c fs, Err e)
      | (c, Ok read_len) =>
          let '(c, ids) := make_pages c (cache_path i) idx read_len 0 fs in
          match ids with
          | [] => Panic
          | page :: rest => Done (c, Ok (page, rest))
          end
      end
  end.

Fixpoint readahead_loop c (pth : string) (rest : list Z) : comp Cache :=
  match rest with
  | [] => Done c
  | f :: rest' =>
      p ← unwrap (objs c !! f);
      if contains_page c pth (page_index (key p)) then readahead_loop (arc_drop c f) pth rest'
      else
        '(c, reserved) ← reserve_page_or_evict c;
        if negb reserved then Done (foldl arc_drop c rest)
        else
          '(c, published) ← publish_reserved_page c f;
          readahead_loop (if published : bool then c else release_page_reservation c) pth rest'
  end.

(** The part of [get_or_load] from the second lookup. *)
Definition publish_loaded c (pth : string) (idx page : Z) (rest : list Z) : comp (Cache * Z) :=
  match lookup_page c pth idx with
  | (c, Some existing) => Done (foldl arc_drop c (page :: rest), existing)
  | (c, None) =>
      '(c, reserved) ← reserve_page_or_evict c;
      if negb reserved then Done (foldl arc_drop c rest, page)
      else
        '(c, published) ← publish_reserved_page (arc_clone c page) page;
        if negb published then
          match lookup_page (release_page_reservation c) pth idx with
          | (c, Some existing) => Done (foldl arc_drop c (page :: rest), existing)
          | (c, None) => Done (foldl arc_drop c rest, page)
          end
        else c ← readahead_loop c pth rest; Done (c, page)
  end.

(** The page comes with a reference that the caller owns. *)
Definition get_or_load c (i : I) (idx : Z) : comp (Cache * result SysErrNo Z) :=
  match lookup_page c (cache_path i) idx with
  | (c, Some f) => Done (c, Ok f)
  | (c, None) =>
      '(c, loaded) ← load_pages c i idx;
      match loaded with
      | Err e => Done (c, Err e)
      | Ok (page, rest) => '(c, f) ← publish_loaded c (cache_path i) idx page rest; Done (c, Ok f)
      end
  end.
End load.

(** ** Invalidation *)

Fixpoint remove_range c (pth : string) (idxs : list Z) (removed : Z) : Cache * Z :=
  match idxs with
  | [] => (c, removed)
  | i :: idxs =>
      match (pages c !! pth) ≫= (.!! i) with
      | Some f =>
          let m := default ∅ (pages c !! pth) in
          remove_range (arc_drop (with_pages c (<[pth := delete i m]> (pages c))) f) pth idxs (removed + 1)
      | None => remove_range c pth idxs removed
      end
  end.
Definition drop_empty c (pth : string) : Cache :=
  if decide (pages c !! pth = Some ∅) then with_pages c (delete pth (pages c)) else c.

Definition invalidate_path_range c (pth : string) (start len : Z) : Cache :=
  if len =? 0 then c
  else
    let first := start / PAGE_SIZE in
    let last := saturating_add (saturating_add start len) (PAGE_SIZE - 1) / PAGE_SIZE in
    let '(c, removed) := remove_range c pth (seqZ first (last - first)) 0 in
    let c := drop_empty c pth in
    if removed =? 0 then c
    else with_queues (with_count c (wrap64 (page_count c - removed)))
      (retain_keys (λ k, negb (bool_decide (k_path k = pth)) || (page_index k <? first) || (last <=? page_index k)) (eviction_queues c)).

(** The pages of the removed map are dropped at the end. *)
Definition invalidate_path c (pth : string) : Cache :=
  match pages c !! pth with
  | None => c
  | Some m =>
      let c := with_pages c (delete pth (pages c)) in
      let c := with_count c (wrap64 (page_count c - Z.of_nat (base.size m))) in
      let c := with_queues c (retain_keys (λ k, negb (bool_decide (k_path k = pth))) (eviction_queues c)) in
      foldl arc_drop c (map_to_list m).*2
  end.
End cache.
