(* ===== verification/FileCacheInv.v ===== *)
(** * The invariant of the file page cache

    Who refers to a page or a frame: [ph f] counts the references to page [f]
    outside the cache, [fh f] those to its frame outside page objects.  Every
    operation of [FileCache] keeps the invariant, and what it does to pages is
    stated through [obj_data] and [resident]. *)

From S2P Require Import Prelude Errno Bytes RefCount FrameAlloc FramePool FileCache.

Section inv.
Context {Src : Type} `{!FrameSource Src} `{!FramePool Src}.
Notation Cache := (FilePageCache Src).
Implicit Types (c : Cache) (k : FilePageKey) (f : Z) (ph fh : Z → nat).

(** What a page holds: its key, its length and its bytes. *)
Definition obj_data c f : option (FilePageKey * Z * list Z) :=
  p ← objs c !! f; fr ← frames c !! f; Some (key p, valid_len p, f_bytes fr).

Record heap_ok c ph fh : Prop := {
  ho_source : fs_ok (source c);
  ho_resident k f : resident c k = Some f → ∃ p, objs c !! f = Some p ∧ key p = k;
  ho_strong f p : objs c !! f = Some p → p_strong p = (one_if (resident c (key p) = Some f) + ph f)%nat;
  ho_live f p : objs c !! f = Some p → (0 < p_strong p)%nat;
  ho_framed f p : objs c !! f = Some p → is_Some (frames c !! f) ∧ 0 ≤ valid_len p ≤ PAGE_SIZE;
  ho_noobj f : objs c !! f = None → ph f = 0%nat;
  ho_fstrong f fr : frames c !! f = Some fr → f_strong fr = (one_if (is_Some (objs c !! f)) + fh f)%nat;
  ho_flive f fr : frames c !! f = Some fr → (0 < f_strong fr)%nat ∧ data_len (f_bytes fr) = PAGE_SIZE;
  ho_used f fr : frames c !! f = Some fr → fs_used (source c) f;
  ho_noframe f : frames c !! f = None → fh f = 0%nat }.

(** A path without pages is not in the map. *)
Definition no_empty c : Prop := ∀ p m, pages c !! p = Some m → m ≠ ∅.

(** No page appears and no page changes what it holds. *)
Definition shrinks c c' : Prop :=
  (∀ f d, obj_data c' f = Some d → obj_data c f = Some d) ∧ (∀ k f, resident c' k = Some f → resident c k = Some f).
#[export] Instance shrinks_preorder : PreOrder shrinks.
Proof. split; [intros c; split; auto|intros c1 c2 c3 [? ?] [? ?]; split; auto]. Qed.

Lemma obj_data_None c f : objs c !! f = None → obj_data c f = None.
Proof. intros H. unfold obj_data. by rewrite H. Qed.
Lemma obj_data_live c ph fh f : heap_ok c ph fh → is_Some (objs c !! f) → is_Some (obj_data c f).
Proof. intros H [p Hp]. destruct (ho_framed c ph fh H f p Hp) as [[fr Hfr] _]. unfold obj_data. rewrite Hp, Hfr. simpl. eauto. Qed.
Lemma held_obj c ph fh f : heap_ok c ph fh → (0 < ph f)%nat → is_Some (objs c !! f).
Proof. intros H Hf. destruct (objs c !! f) eqn:E; [eauto|]. apply (ho_noobj c ph fh H) in E. lia. Qed.
Lemma holder_frame c ph fh f : heap_ok c ph fh → (0 < fh f)%nat → is_Some (frames c !! f).
Proof. intros H Hf. destruct (frames c !! f) eqn:E; [eauto|]. apply (ho_noframe c ph fh H) in E. lia. Qed.
Lemma resident_obj c ph fh k f : heap_ok c ph fh → resident c k = Some f → is_Some (objs c !! f).
Proof. intros H Hr. destruct (ho_resident c ph fh H k f Hr) as (p & ? & _). eauto. Qed.
Lemma resident_inj c ph fh k k' f : heap_ok c ph fh → resident c k = Some f → resident c k' = Some f → k = k'.
Proof. intros H H1 H2. destruct (ho_resident c ph fh H k f H1) as (p & Hp & <-). destruct (ho_resident c ph fh H k' f H2) as (p' & Hp' & <-). by simplify_eq. Qed.
(** A page that is held keeps its data when the cache shrinks. *)
Lemma shrinks_held c c' ph fh f : shrinks c c' → heap_ok c' ph fh → (0 < ph f)%nat → obj_data c' f = obj_data c f.
Proof.
  intros [H1 _] H Hf. destruct (obj_data_live c' ph fh f H (held_obj c' ph fh f H Hf)) as [d Hd]. rewrite Hd. symmetry. by apply H1.
Qed.

Lemma heap_ok_ext c ph ph' fh fh' : heap_ok c ph fh → (∀ g, ph g = ph' g) → (∀ g, fh g = fh' g) → heap_ok c ph' fh'.
Proof.
  intros H Hp Hf. split; try apply H.
  - intros f p Hfp. rewrite <- Hp. by apply H.
  - intros f Hfp. rewrite <- Hp. by apply H.
  - intros f p Hfp. rewrite <- Hf. by apply H.
  - intros f Hfp. rewrite <- Hf. by apply H.
Qed.

(** ** Frames *)


(** A frame changes its bytes or its count. *)
Lemma frame_update_ok c ph fh fh' f fr fr' : heap_ok c ph fh → frames c !! f = Some fr → f_strong fr' = (one_if (is_Some (objs c !! f)) + fh' f)%nat →
  (0 < f_strong fr')%nat → data_len (f_bytes fr') = PAGE_SIZE → (∀ g, g ≠ f → fh' g = fh g) →
  heap_ok (with_frames c (<[f := fr']> (frames c)) (source c)) ph fh'.
Proof.
  intros H Hf Hs Hl Hb Hne. split; simpl; try apply H.
  - intros g p Hg. destruct (ho_framed c ph fh H g p Hg) as [Hfr ?]. split; [|done]. by apply lookup_insert_is_Some'; right.
  - intros g fg. destruct (decide (g = f)) as [->|Hn].
    + rewrite lookup_insert_eq. intros [= <-]. done.
    + rewrite lookup_insert_ne by done. intros Hg. rewrite Hne by done. by apply H.
  - intros g fg. destruct (decide (g = f)) as [->|Hn].
    + rewrite lookup_insert_eq. intros [= <-]. done.
    + rewrite lookup_insert_ne by done. apply H.
  - intros g fg. destruct (decide (g = f)) as [->|Hn].
    + intros _. by eapply H.
    + rewrite lookup_insert_ne by done. apply H.
  - intros g [Hg Hn]%lookup_insert_None. rewrite Hne by done. by apply H.
Qed.

Lemma frame_clone_ok c ph fh f : heap_ok c ph fh → is_Some (frames c !! f) → heap_ok (frame_clone c f) ph (bump fh f).
Proof.
  intros H [fr Hfr]. unfold frame_clone. rewrite Hfr. pose proof (ho_fstrong c ph fh H f fr Hfr). destruct (ho_flive c ph fh H f fr Hfr).
  apply (frame_update_ok c ph fh _ f fr); simpl; try done; [rewrite bump_eq; lia|lia|intros; by apply bump_ne].
Qed.

Lemma data_len_splice_le d b : data_len b ≤ data_len d → data_len (splice d 0 b) = data_len d.
Proof. intros. apply length_splice_Z; lia. Qed.
Lemma frame_write_ok c ph fh f bytes : heap_ok c ph fh → data_len bytes ≤ PAGE_SIZE → heap_ok (frame_write c f bytes) ph fh.
Proof.
  intros H Hb. unfold frame_write. destruct (frames c !! f) as [fr|] eqn:Hfr; [|done]. pose proof (ho_fstrong c ph fh H f fr Hfr).
  destruct (ho_flive c ph fh H f fr Hfr). apply (frame_update_ok c ph fh _ f fr); simpl; try done. rewrite data_len_splice_le; lia.
Qed.

Lemma frame_alloc_ok c ph fh f c' : heap_ok c ph fh → frame_alloc c = Some (f, c') →
  heap_ok c' ph (bump fh f) ∧ objs c !! f = None ∧ frames c !! f = None ∧ frames c' !! f = Some (mkFrame (zeros PAGE_SIZE) 1).
Proof.
  intros H. unfold frame_alloc. destruct (fs_alloc (source c)) as [[g s]|] eqn:E; [|done]. intros [= -> <-].
  pose proof (ho_source c ph fh H) as Hs. destruct (fs_alloc_law _ _ _ Hs E) as (Hs' & _). destruct (fs_alloc_used _ _ _ Hs E) as [Hu Hk].
  assert (frames c !! f = None) as Hfr.
  { destruct (frames c !! f) as [fr|] eqn:Hfr; [|done]. destruct (Hk f (ho_used c ph fh H f fr Hfr)). done. }
  assert (objs c !! f = None) as Ho.
  { destruct (objs c !! f) as [p|] eqn:Ho; [|done]. destruct (ho_framed c ph fh H f p Ho) as [[? ?] _]. congruence. }
  split; [|split; [done|]; split; [done|]; simpl; by rewrite lookup_insert_eq].
  split; simpl; try apply H; [done|..].
  - intros g p Hg. destruct (ho_framed c ph fh H g p Hg) as [? ?]. split; [|done]. by apply lookup_insert_is_Some'; right.
  - intros g fg. destruct (decide (g = f)) as [->|Hn].
    + rewrite lookup_insert_eq. intros [= <-]. simpl. rewrite bump_eq, (ho_noframe c ph fh H f Hfr), Ho. done.
    + rewrite lookup_insert_ne by done. rewrite bump_ne by done. apply H.
  - intros g fg. destruct (decide (g = f)) as [->|Hn].
    + rewrite lookup_insert_eq. intros [= <-]. split; [simpl; lia|by apply data_len_zeros].
    + rewrite lookup_insert_ne by done. apply H.
  - intros g fg. destruct (decide (g = f)) as [->|Hn]; [done|]. rewrite lookup_insert_ne by done. intros Hg. apply Hk. by eapply H.
  - intros g [Hg Hn]%lookup_insert_None. rewrite bump_ne by done. by apply H.
Qed.

Lemma frame_drop_ok c ph fh f : heap_ok c ph (bump fh f) → heap_ok (frame_drop c f) ph fh.
Proof.
  intros H. destruct (holder_frame c ph _ f H) as [fr Hfr]; [rewrite bump_eq; lia|]. unfold frame_drop. rewrite Hfr.
  pose proof (ho_fstrong c ph _ H f fr Hfr) as Hst. rewrite bump_eq in Hst. destruct (ho_flive c ph _ H f fr Hfr) as [Hl Hb].
  destruct (Nat.eqb_spec (f_strong fr) 1) as [E|E].
  - assert (objs c !! f = None ∧ fh f = 0%nat) as [Ho Hf0].
    { unfold one_if in Hst. case_decide as Hd; [lia|]. split; [|lia]. by apply eq_None_not_Some. }
    destruct (fs_dealloc_law _ _ (ho_source c ph _ H) (ho_used c ph _ H f fr Hfr)) as (Hs' & _ & Hu).
    split; simpl; try apply H; [done|..].
    + intros g p Hg. destruct (ho_framed c ph _ H g p Hg) as [? ?]. split; [|done]. rewrite lookup_delete_ne; [done|]. intros ->. congruence.
    + intros g fg [Hn Hg]%lookup_delete_Some. rewrite (ho_fstrong c ph _ H g fg Hg), bump_ne by done. done.
    + intros g fg [Hn Hg]%lookup_delete_Some. by eapply H.
    + intros g fg [Hn Hg]%lookup_delete_Some. apply Hu; [by eapply H|done].
    + intros g Hg%lookup_delete_None. destruct (decide (g = f)) as [->|Hn]; [done|].
      destruct Hg as [?|Hg]; [by subst|]. apply (ho_noframe c ph _ H) in Hg. by rewrite bump_ne in Hg.
  - apply (frame_update_ok c ph (bump fh f) _ f fr); simpl; try done; [lia|lia|]. intros g Hg. by rewrite bump_ne.
Qed.

(** ** Page objects *)

Lemma resident_with_objs c o k : resident (with_objs c o) k = resident c k.
Proof. done. Qed.

(** A page changes its flags or its count. *)
Lemma obj_update_ok c ph ph' fh f p p' : heap_ok c ph fh → objs c !! f = Some p → key p' = key p → valid_len p' = valid_len p →
  p_strong p' = (one_if (resident c (key p) = Some f) + ph' f)%nat → (0 < p_strong p')%nat → (∀ g, g ≠ f → ph' g = ph g) →
  heap_ok (with_objs c (<[f := p']> (objs c))) ph' fh.
Proof.
  intros H Hp Hk Hv Hs Hl Hne. split; simpl; try apply H.
  - intros k g Hg. rewrite resident_with_objs in Hg. destruct (ho_resident c ph fh H k g Hg) as (q & Hq & <-). destruct (decide (g = f)) as [->|Hn].
    + exists p'. rewrite lookup_insert_eq. by simplify_eq.
    + exists q. by rewrite lookup_insert_ne.
  - intros g q. rewrite resident_with_objs. destruct (decide (g = f)) as [->|Hn].
    + rewrite lookup_insert_eq. intros [= <-]. by rewrite Hk.
    + rewrite lookup_insert_ne by done. rewrite Hne by done. apply H.
  - intros g q. destruct (decide (g = f)) as [->|Hn].
    + rewrite lookup_insert_eq. by intros [= <-].
    + rewrite lookup_insert_ne by done. apply H.
  - intros g q. destruct (decide (g = f)) as [->|Hn].
    + rewrite lookup_insert_eq. intros [= <-]. rewrite Hv. by apply H.
    + rewrite lookup_insert_ne by done. apply H.
  - intros g [Hg Hn]%lookup_insert_None. rewrite Hne by done. by apply H.
  - intros g fr Hg. rewrite (ho_fstrong c ph fh H g fr Hg). f_equal. apply one_if_ext. destruct (decide (g = f)) as [->|Hn].
    + rewrite lookup_insert_eq, Hp. split; eauto.
    + by rewrite lookup_insert_ne.
Qed.
Lemma obj_update_shrinks c f p p' : objs c !! f = Some p → key p' = key p → valid_len p' = valid_len p →
  shrinks c (with_objs c (<[f := p']> (objs c))).
Proof.
  intros Hp Hk Hv. split; [|done]. intros g d. unfold obj_data. simpl. destruct (decide (g = f)) as [->|Hn].
  - rewrite lookup_insert_eq, Hp. simpl. by rewrite Hk, Hv.
  - by rewrite lookup_insert_ne.
Qed.

Lemma arc_clone_ok c ph fh f : heap_ok c ph fh → is_Some (objs c !! f) → heap_ok (arc_clone c f) (bump ph f) fh.
Proof.
  intros H [p Hp]. unfold arc_clone. rewrite Hp. pose proof (ho_strong c ph fh H f p Hp). pose proof (ho_live c ph fh H f p Hp).
  apply (obj_update_ok c ph _ fh f p); simpl; try done; [rewrite bump_eq; lia|lia|intros; by apply bump_ne].
Qed.
Lemma arc_clone_shrinks c f : shrinks c (arc_clone c f).
Proof. unfold arc_clone. destruct (objs c !! f) as [p|] eqn:E; [|done]. by apply (obj_update_shrinks c f p). Qed.

Lemma flags_ok c ph fh f p p' : heap_ok c ph fh → objs c !! f = Some p → key p' = key p → valid_len p' = valid_len p → p_strong p' = p_strong p →
  heap_ok (with_objs c (<[f := p']> (objs c))) ph fh.
Proof.
  intros H Hp Hk Hv Hs. pose proof (ho_strong c ph fh H f p Hp). pose proof (ho_live c ph fh H f p Hp).
  apply (obj_update_ok c ph _ fh f p); try done; lia.
Qed.
Lemma mark_referenced_ok c ph fh f : heap_ok c ph fh → heap_ok (mark_referenced c f) ph fh.
Proof. intros H. unfold mark_referenced. destruct (objs c !! f) as [p|] eqn:E; [|done]. by apply (flags_ok c ph fh f p). Qed.
Lemma mark_referenced_shrinks c f : shrinks c (mark_referenced c f).
Proof. unfold mark_referenced. destruct (objs c !! f) as [p|] eqn:E; [|done]. by apply (obj_update_shrinks c f p). Qed.

(** The frame passes from its owner to the new page. *)
Lemma new_page_ok c ph fh f k len : heap_ok c ph (bump fh f) → objs c !! f = None → 0 ≤ len ≤ PAGE_SIZE →
  heap_ok (new_page c f k len) (bump ph f) fh.
Proof.
  intros H Ho Hlen. pose proof (ho_noobj c ph _ H f Ho) as Hph.
  assert (∀ k', resident c k' ≠ Some f) as Hres.
  { intros k' Hk. destruct (resident_obj c ph _ k' f H Hk). congruence. }
  destruct (holder_frame c ph _ f H) as [fr Hfr]; [rewrite bump_eq; lia|]. split; simpl; try apply H.
  - intros k' g Hg. destruct (ho_resident c ph _ H k' g Hg) as (q & Hq & <-). exists q. rewrite lookup_insert_ne; [done|]. intros ->. congruence.
  - intros g q. destruct (decide (g = f)) as [->|Hn].
    + rewrite lookup_insert_eq. intros [= <-]. simpl. rewrite bump_eq, Hph. unfold one_if. rewrite decide_False; [done|apply Hres].
    + rewrite lookup_insert_ne by done. rewrite bump_ne by done. apply H.
  - intros g q. destruct (decide (g = f)) as [->|Hn].
    + rewrite lookup_insert_eq. intros [= <-]. simpl. lia.
    + rewrite lookup_insert_ne by done. apply H.
  - intros g q. destruct (decide (g = f)) as [->|Hn].
    + rewrite lookup_insert_eq. intros [= <-]. simpl. eauto.
    + rewrite lookup_insert_ne by done. apply H.
  - intros g [Hg Hn]%lookup_insert_None. rewrite bump_ne by done. by apply H.
  - intros g fg Hg. rewrite (ho_fstrong c ph _ H g fg Hg). destruct (decide (g = f)) as [->|Hn].
    + rewrite Ho, lookup_insert_eq, bump_eq. unfold one_if. rewrite decide_False, decide_True; [done|eauto|by intros [? ?]].
    + by rewrite lookup_insert_ne, bump_ne.
  - intros g Hg. apply (ho_noframe c ph _ H) in Hg. unfold bump in Hg. case_decide; lia.
Qed.
Lemma new_page_data c f k len fr : frames c !! f = Some fr → obj_data (new_page c f k len) f = Some (k, len, f_bytes fr).
Proof. intros Hf. unfold obj_data. simpl. by rewrite lookup_insert_eq, Hf. Qed.
Lemma new_page_data_ne c f k len g : g ≠ f → obj_data (new_page c f k len) g = obj_data c g.
Proof. intros Hn. unfold obj_data. simpl. by rewrite lookup_insert_ne. Qed.

(** An object nobody refers to goes away with its frame reference. *)
Lemma delete_obj_ok c ph fh f p : heap_ok c (bump ph f) fh → objs c !! f = Some p → p_strong p = 1%nat →
  heap_ok (with_objs c (delete f (objs c))) ph (bump fh f).
Proof.
  intros H Hp Hs. pose proof (ho_strong c _ fh H f p Hp) as Hst. rewrite bump_eq, Hs in Hst.
  assert (ph f = 0%nat ∧ resident c (key p) ≠ Some f) as [Hph Hr].
  { unfold one_if in Hst. case_decide; split; try done; lia. }
  assert (∀ k', resident c k' ≠ Some f) as Hres.
  { intros k' Hk. destruct (ho_resident c _ fh H k' f Hk) as (q & Hq & <-). by simplify_eq. }
  split; simpl; try apply H.
  - intros k' g Hg. destruct (ho_resident c _ fh H k' g Hg) as (q & Hq & <-). exists q. rewrite lookup_delete_ne; [done|]. intros ->. by apply (Hres (key q)).
  - intros g q [Hn Hg]%lookup_delete_Some. change (resident (with_objs c (delete f (objs c))) (key q)) with (resident c (key q)).
    rewrite (ho_strong c _ fh H g q Hg). by rewrite bump_ne.
  - intros g q [Hn Hg]%lookup_delete_Some. by eapply H.
  - intros g q [Hn Hg]%lookup_delete_Some. by eapply H.
  - intros g Hg%lookup_delete_None. destruct (decide (g = f)) as [->|Hn]; [done|]. destruct Hg as [?|Hg]; [by subst|].
    apply (ho_noobj c _ fh H) in Hg. by rewrite bump_ne in Hg.
  - intros g fg Hg. rewrite (ho_fstrong c _ fh H g fg Hg). destruct (decide (g = f)) as [->|Hn].
    + rewrite Hp, lookup_delete_eq, bump_eq. unfold one_if. rewrite decide_True, decide_False; [done|by intros [? ?]|eauto].
    + by rewrite lookup_delete_ne, bump_ne.
  - intros g Hg. pose proof (ho_noframe c _ fh H g Hg). destruct (decide (g = f)) as [->|Hn]; [|by rewrite bump_ne].
    destruct (ho_framed c _ fh H f p Hp) as [[? ?] _]. congruence.
Qed.

Lemma frame_drop_objs c f : objs (frame_drop c f) = objs c.
Proof. unfold frame_drop. destruct (frames c !! f); [|done]. by destruct (_ =? _)%nat. Qed.
Lemma frame_drop_frames c f g fr : frames (frame_drop c f) !! g = Some fr →
  ∃ fr', frames c !! g = Some fr' ∧ f_bytes fr' = f_bytes fr.
Proof.
  unfold frame_drop. destruct (frames c !! f) as [ff|] eqn:E; [|eauto]. destruct (_ =? _)%nat; simpl.
  - intros [Hn Hg]%lookup_delete_Some. eauto.
  - destruct (decide (g = f)) as [->|Hn]; [rewrite lookup_insert_eq; intros [= <-]; eauto|]. rewrite lookup_insert_ne by done. eauto.
Qed.
Lemma frame_drop_shrinks c f : shrinks c (frame_drop c f).
Proof.
  split.
  - intros g d. unfold obj_data. rewrite frame_drop_objs. destruct (objs c !! g) as [p|]; [|done]. simpl.
    destruct (frames (frame_drop c f) !! g) as [fr|] eqn:E; [|done]. destruct (frame_drop_frames c f g fr E) as (fr' & -> & Hb). simpl. by rewrite Hb.
  - intros k g. unfold resident. replace (pages (frame_drop c f)) with (pages c); [done|].
    unfold frame_drop. destruct (frames c !! f); [|done]. by destruct (_ =? _)%nat.
Qed.
Lemma arc_drop_ok c ph fh f : heap_ok c (bump ph f) fh → heap_ok (arc_drop c f) ph fh.
Proof.
  intros H. destruct (held_obj c _ fh f H) as [p Hp]; [rewrite bump_eq; lia|]. unfold arc_drop. rewrite Hp.
  pose proof (ho_strong c _ fh H f p Hp) as Hst. rewrite bump_eq in Hst. pose proof (ho_live c _ fh H f p Hp).
  destruct (Nat.eqb_spec (p_strong p) 1) as [E|E].
  - apply frame_drop_ok. by apply (delete_obj_ok c ph fh f p).
  - apply (obj_update_ok c (bump ph f) _ fh f p); simpl; try done; [lia|lia|]. intros g Hg. by rewrite bump_ne.
Qed.
Lemma arc_drop_shrinks c f : shrinks c (arc_drop c f).
Proof.
  unfold arc_drop. destruct (objs c !! f) as [p|] eqn:E; [|done]. destruct (_ =? _)%nat.
  - etrans; [|apply frame_drop_shrinks]. split; [|done]. intros g d. unfold obj_data. simpl. destruct (decide (g = f)) as [->|Hn].
    + by rewrite lookup_delete_eq.
    + by rewrite lookup_delete_ne.
  - by apply (obj_update_shrinks c f p).
Qed.

Lemma drop_all_ok c ph fh fs : heap_ok c (bumps ph fs) fh → heap_ok (foldl arc_drop c fs) ph fh.
Proof. revert c. induction fs as [|f fs IH]; intros c H; [done|]. simpl. apply IH, arc_drop_ok, H. Qed.
Lemma drop_all_shrinks c fs : shrinks c (foldl arc_drop c fs).
Proof. revert c. induction fs as [|f fs IH]; intros c; [done|]. simpl. etrans; [apply arc_drop_shrinks|apply IH]. Qed.
Lemma drop_frames_ok c ph fh fs : heap_ok c ph (bumps fh fs) → heap_ok (foldl frame_drop c fs) ph fh.
Proof. revert c. induction fs as [|f fs IH]; intros c H; [done|]. simpl. apply IH, frame_drop_ok, H. Qed.
Lemma drop_frames_shrinks c fs : shrinks c (foldl frame_drop c fs).
Proof. revert c. induction fs as [|f fs IH]; intros c; [done|]. simpl. etrans; [apply frame_drop_shrinks|apply IH]. Qed.

(** ** The index *)

(** What the locks protect: the map, the count and the queues. *)
Definition index c : gmap string (gmap Z Z) * Z * EvictionQueues := (pages c, page_count c, eviction_queues c).

Lemma index_resident c c' k : index c' = index c → resident c' k = resident c k.
Proof. unfold index, resident. by intros [= -> _ _]. Qed.
Lemma frame_drop_index c f : index (frame_drop c f) = index c.
Proof. unfold frame_drop. destruct (frames c !! f); [|done]. by destruct (_ =? _)%nat. Qed.
Lemma arc_drop_index c f : index (arc_drop c f) = index c.
Proof. unfold arc_drop. destruct (objs c !! f); [|done]. destruct (_ =? _)%nat; [|done]. by rewrite frame_drop_index. Qed.
Lemma arc_clone_index c f : index (arc_clone c f) = index c.
Proof. unfold arc_clone. by destruct (objs c !! f). Qed.
Lemma mark_referenced_index c f : index (mark_referenced c f) = index c.
Proof. unfold mark_referenced. by destruct (objs c !! f). Qed.
Lemma frame_write_index c f b : index (frame_write c f b) = index c.
Proof. unfold frame_write. by destruct (frames c !! f). Qed.
Lemma frame_clone_index c f : index (frame_clone c f) = index c.
Proof. unfold frame_clone. by destruct (frames c !! f). Qed.
Lemma drop_all_index c fs : index (foldl arc_drop c fs) = index c.
Proof. revert c. induction fs as [|f fs IH]; intros c; [done|]. simpl. by rewrite IH, arc_drop_index. Qed.
Lemma drop_frames_index c fs : index (foldl frame_drop c fs) = index c.
Proof. revert c. induction fs as [|f fs IH]; intros c; [done|]. simpl. by rewrite IH, frame_drop_index. Qed.

(** The map without one page. *)
Lemma unpublish_resident c k m k' : pages c !! k_path k = Some m →
  resident (unpublish c k m) k' = if decide (k' = k) then None else resident c k'.
Proof.
  intros Hm. unfold unpublish, resident. simpl. destruct k as [p i], k' as [p' i']. simpl in *. case_decide as He; case_decide as Hk.
  - injection Hk as -> ->. by rewrite lookup_delete_eq.
  - destruct (decide (p' = p)) as [->|Hp]; [|by rewrite lookup_delete_ne]. rewrite lookup_delete_eq, Hm. simpl.
    symmetry. destruct (decide (i' = i)) as [->|Hi]; [done|]. rewrite <- (lookup_delete_ne m i i') by done. by rewrite He.
  - injection Hk as -> ->. rewrite lookup_insert_eq. simpl. by rewrite lookup_delete_eq.
  - destruct (decide (p' = p)) as [->|Hp]; [|by rewrite lookup_insert_ne]. rewrite lookup_insert_eq, Hm. simpl.
    destruct (decide (i' = i)) as [->|Hi]; [done|]. by rewrite lookup_delete_ne.
Qed.

(** The index changes; the heap is as before. *)
Lemma reindex_ok c ph ph' fh pgs : heap_ok c ph fh →
  (∀ k f, resident (with_pages c pgs) k = Some f → ∃ p, objs c !! f = Some p ∧ key p = k) →
  (∀ f p, objs c !! f = Some p → (one_if (resident (with_pages c pgs) (key p) = Some f) + ph' f)%nat = (one_if (resident c (key p) = Some f) + ph f)%nat) →
  (∀ f, objs c !! f = None → ph' f = ph f) → heap_ok (with_pages c pgs) ph' fh.
Proof.
  intros H Hr Hs Hn. split; simpl; try apply H; [exact Hr| |].
  - intros f p Hp. rewrite (ho_strong c ph fh H f p Hp). symmetry. by apply Hs.
  - intros f Hf. rewrite Hn by done. by apply H.
Qed.

Lemma unpublish_no_empty c k m : no_empty c → no_empty (unpublish c k m).
Proof.
  intros H p m'. unfold unpublish. simpl. destruct (decide (delete (page_index k) m = ∅)) as [He|He].
  - intros [_ ?]%lookup_delete_Some. by apply (H p).
  - intros [[<- <-]|[_ ?]]%lookup_insert_Some; [done|]. by apply (H p).
Qed.
(** A map that lacks one page. *)
Lemma unindex_ok c ph fh k f pgs : heap_ok c ph fh → resident c k = Some f →
  (∀ k', resident (with_pages c pgs) k' = if decide (k' = k) then None else resident c k') → heap_ok (with_pages c pgs) (bump ph f) fh.
Proof.
  intros H Hk Hres. apply (reindex_ok c ph); [done|..].
  - intros k' g. rewrite Hres. destruct (decide (k' = k)); [done|]. apply H.
  - intros g p Hp. rewrite (one_if_ext _ (key p ≠ k ∧ resident c (key p) = Some g)).
    2: { rewrite Hres. destruct (decide (key p = k)); [split; [done|by intros [? _]]|tauto]. }
    unfold bump. destruct (decide (g = f)) as [->|Hn].
    + destruct (ho_resident c ph fh H k f Hk) as (q & Hq & Hqk). simplify_eq. unfold one_if. rewrite decide_False by tauto. rewrite decide_True by done. lia.
    + f_equal. apply one_if_ext. split; [tauto|]. intros Hg. split; [|done]. intros He. rewrite He in Hg. congruence.
  - intros g Hg. rewrite bump_ne; [done|]. intros ->. destruct (resident_obj c ph fh k f H Hk). congruence.
Qed.
Lemma unpublish_ok c ph fh k f m : heap_ok c ph fh → pages c !! k_path k = Some m → m !! page_index k = Some f →
  heap_ok (unpublish c k m) (bump ph f) fh.
Proof.
  intros H Hm Hf. apply (unindex_ok c ph fh k f); [done|unfold resident; by rewrite Hm|]. intros k'. exact (unpublish_resident c k m k' Hm).
Qed.

(** The map with one more page. *)
Definition publish_at c f k : Cache := with_pages c (<[k_path k := <[page_index k := f]> (default ∅ (pages c !! k_path k))]> (pages c)).

Lemma publish_resident c f k k' : resident (publish_at c f k) k' = if decide (k' = k) then Some f else resident c k'.
Proof.
  unfold publish_at, resident. simpl. destruct k as [p i], k' as [p' i']. simpl in *. case_decide as Hk.
  - injection Hk as -> ->. rewrite lookup_insert_eq. simpl. by rewrite lookup_insert_eq.
  - destruct (decide (p' = p)) as [->|Hp]; [|by rewrite lookup_insert_ne]. rewrite lookup_insert_eq. simpl.
    assert (i' ≠ i) by congruence. rewrite lookup_insert_ne by done. destruct (pages c !! p); [done|]. simpl. by rewrite lookup_empty.
Qed.
Lemma publish_no_empty c f k : no_empty c → no_empty (publish_at c f k).
Proof. intros H q m. unfold publish_at. simpl. intros [[<- <-]|[_ ?]]%lookup_insert_Some; [apply insert_non_empty|]. by eapply H. Qed.
Lemma publish_ok c ph fh f p : heap_ok c (bump ph f) fh → objs c !! f = Some p → resident c (key p) = None →
  heap_ok (publish_at c f (key p)) ph fh.
Proof.
  intros H Hp Hk. pose proof (publish_resident c f (key p)) as Hres. unfold publish_at in *. apply (reindex_ok c (bump ph f)); [done|..].
  - intros k' g. rewrite Hres. case_decide as He; [intros [= <-]; subst; eauto|]. apply H.
  - intros g q Hq. rewrite (one_if_ext _ ((key q = key p ∧ f = g) ∨ (key q ≠ key p ∧ resident c (key q) = Some g))).
    2: { rewrite Hres. case_decide; naive_solver. }
    unfold bump. destruct (decide (g = f)) as [->|Hn].
    + simplify_eq. unfold one_if. rewrite decide_True by auto. rewrite Hk, decide_False by done. lia.
    + f_equal. apply one_if_ext. split; [intros [[_ ?]|[_ ?]]; [congruence|done]|]. intros Hg. right. split; [|done]. intros He. rewrite He in Hg. congruence.
  - intros g Hg. rewrite bump_ne; [done|]. intros ->. congruence.
Qed.

(** ** The queues *)

Definition queued c : list FilePageKey := active (eviction_queues c) ++ deferred (eviction_queues c).

(** The keys of the resident pages, once each. *)
Definition keys_ok c (ks : list FilePageKey) : Prop := NoDup ks ∧ ∀ k, k ∈ ks ↔ is_Some (resident c k).

Record cache_ok (cap : Z) c ph fh (resv : Z) : Prop := {
  ca_heap : heap_ok c ph fh;
  ca_nonempty : no_empty c;
  ca_keys : keys_ok c (queued c);
  ca_count : page_count c = Z.of_nat (length (queued c)) + resv;
  ca_resv : 0 ≤ resv;
  ca_cap : page_count c ≤ cap;
  ca_misses : 0 ≤ retry_misses (eviction_queues c) ≤ EVICTION_DEFERRED_RETRY_MISS_INTERVAL }.

Lemma keys_ok_perm c ks ks' : ks ≡ₚ ks' → keys_ok c ks → keys_ok c ks'.
Proof. intros Hp [Hn Hk]. split; [by rewrite <- Hp|]. intros k. by rewrite <- Hp. Qed.
Lemma keys_ok_unique c ks ks' : keys_ok c ks → keys_ok c ks' → ks ≡ₚ ks'.
Proof. intros [H1 H2] [H3 H4]. apply NoDup_Permutation; [done|done|]. intros k. by rewrite H2, H4. Qed.
Lemma keys_ok_resident c c' ks : (∀ k, resident c' k = resident c k) → keys_ok c ks → keys_ok c' ks.
Proof. intros Hr [Hn Hk]. split; [done|]. intros k. by rewrite Hr. Qed.

Lemma heap_ok_index c c' ph fh : heap_ok c ph fh → pages c' = pages c → objs c' = objs c → frames c' = frames c → source c' = source c → heap_ok c' ph fh.
Proof.
  intros H H1 H2 H3 H4. destruct H. assert (∀ k, resident c' k = resident c k) as Hr by (intros k; unfold resident; by rewrite H1).
  split; rewrite ?H1, ?H2, ?H3, ?H4; try done.
  - intros k f. rewrite Hr. auto.
  - intros f p. rewrite Hr. auto.
Qed.

(** ** Candidates *)

Definition evictable c k : bool :=
  match resident c k with
  | None => false
  | Some f =>
      match objs c !! f, frames c !! f with
      | Some p, Some fr => negb (referenced p) && negb (dirty p) && (p_strong p =? 1)%nat && (f_strong fr =? 1)%nat
      | _, _ => false
      end
  end.

(** The outcome of [examine] at a resident key. *)
Lemma examine_spec c ph fh k : heap_ok c ph fh → is_Some (resident c k) →
  ∃ f p, resident c k = Some f ∧ objs c !! f = Some p ∧
    ∃ st, examine c k = Done (with_objs c (<[f := set_referenced false p]> (objs c)), Some st) ∧ (st = Evict ↔ evictable c k = true).
Proof.
  intros H [f Hf]. destruct (ho_resident c ph fh H k f Hf) as (p & Hp & _). destruct (ho_framed c ph fh H f p Hp) as [[fr Hfr] _].
  exists f, p. split; [done|]. split; [done|]. unfold examine, evictable. rewrite Hf, Hp, Hfr. simpl. eexists. split; [done|].
  destruct (referenced p), (dirty p), (p_strong p =? 1)%nat, (f_strong fr =? 1)%nat; simpl; done.
Qed.

Lemma evictable_other c ph fh k k' f p : heap_ok c ph fh → resident c k = Some f → objs c !! f = Some p → k' ≠ k →
  evictable (with_objs c (<[f := set_referenced false p]> (objs c))) k' = evictable c k'.
Proof.
  intros H Hf Hp Hn. unfold evictable. rewrite resident_with_objs. destruct (resident c k') as [g|] eqn:Hg; [|done]. simpl.
  rewrite lookup_insert_ne; [done|]. intros ->. apply Hn. by apply (resident_inj c ph fh k' k g).
Qed.

Definition scan_state c ph fh (resv : Z) : Prop :=
  heap_ok c ph fh ∧ no_empty c ∧ keys_ok c (queued c) ∧ page_count c = Z.of_nat (length (queued c)) + resv ∧ 0 ≤ resv ∧ page_count c ≤ usize_max.

(** What a scan of the candidates [ks] does. *)
Definition scanned c c' (b : bool) (ks : list FilePageKey) : Prop :=
  shrinks c c' ∧ retry_misses (eviction_queues c') = retry_misses (eviction_queues c) ∧
  if b then ∃ k, k ∈ ks ∧ evictable c k = true ∧ (∀ k', resident c' k' = if decide (k' = k) then None else resident c k') ∧ page_count c' = page_count c - 1
  else (∀ k, k ∈ ks → evictable c k = false) ∧ (∀ k, resident c' k = resident c k) ∧ page_count c' = page_count c.

Lemma evict_page_spec c ph fh k : heap_ok c ph fh → is_Some (resident c k) → 1 ≤ page_count c ≤ usize_max →
  ∃ c', evict_page c k = Done c' ∧ heap_ok c' ph fh ∧ shrinks c c' ∧ (∀ k', resident c' k' = if decide (k' = k) then None else resident c k') ∧
    page_count c' = page_count c - 1 ∧ eviction_queues c' = eviction_queues c ∧ (no_empty c → no_empty c').
Proof.
  intros H [f Hf] Hc. unfold resident in Hf. destruct (pages c !! k_path k) as [m|] eqn:Hm; [|done]. simpl in Hf.
  unfold evict_page. rewrite Hm. simpl. rewrite Hf. eexists. split; [done|].
  pose proof (arc_drop_index (unpublish c k m) f) as Hi. injection Hi as Hi1 Hi2 Hi3.
  pose proof (arc_drop_ok _ ph fh f (unpublish_ok c ph fh k f m H Hm Hf)) as Hok. split.
  { by apply (heap_ok_index (arc_drop (unpublish c k m) f)). }
  pose proof (λ k', unpublish_resident c k m k' Hm) as Hr. split; [|split; [|split; [|split]; simpl]].
  - etrans; [|destruct (arc_drop_shrinks (unpublish c k m) f) as [H1 H2]; split; [exact H1|exact H2]]. split; [done|].
    intros k' g. rewrite Hr. by destruct (decide (k' = k)).
  - intros k'. rewrite <- Hr. unfold resident. simpl. by rewrite Hi1.
  - rewrite Hi2. unfold unpublish. simpl. rewrite wrap64_small; [done|]. unfold is_usize. lia.
  - rewrite Hi3. done.
  - intros Hne. pose proof (unpublish_no_empty c k m Hne) as Hne'. unfold no_empty. simpl. by rewrite Hi1.
Qed.

Lemma queued_pop c k a : active (eviction_queues c) = k :: a → queued c = k :: a ++ deferred (eviction_queues c).
Proof. intros H. unfold queued. by rewrite H. Qed.

(** The candidate at the head is kept: its bit is cleared and it goes to one of the
    queues. *)
Definition requeued c f p (q : EvictionQueues) : Cache := with_queues (with_objs c (<[f := set_referenced false p]> (objs c))) q.

Lemma requeued_state c ph fh resv k f p q : scan_state c ph fh resv → resident c k = Some f → objs c !! f = Some p →
  active q ++ deferred q ≡ₚ queued c → scan_state (requeued c f p q) ph fh resv ∧ shrinks c (requeued c f p q).
Proof.
  intros (H & Hne & Hk & Hc & Hr & Hu) Hf Hp Hq. split.
  - split; [|split; [exact Hne|split; [|split; [|done]]]].
    + apply (heap_ok_index (with_objs c (<[f := set_referenced false p]> (objs c)))); [|done..]. by apply (flags_ok c ph fh f p).
    + eapply keys_ok_perm; [symmetry; exact Hq|]. by apply (keys_ok_resident c).
    + change (page_count c = Z.of_nat (length (active q ++ deferred q)) + resv). by rewrite Hq.
  - by apply (obj_update_shrinks c f p).
Qed.

(** Scanning on after a candidate that was kept. *)
Lemma scanned_next c ph fh k f p q c' b ks : heap_ok c ph fh → resident c k = Some f → objs c !! f = Some p → evictable c k = false →
  k ∉ ks → shrinks c (requeued c f p q) → retry_misses q = retry_misses (eviction_queues c) → scanned (requeued c f p q) c' b ks → scanned c c' b (k :: ks).
Proof.
  intros H Hf Hp He Hk Hsh Hq (Hs1 & Hm & Hb). pose proof (λ k', evictable_other c ph fh k k' f p H Hf Hp) as Ho.
  split; [by etrans|]. split; [rewrite Hm; exact Hq|]. destruct b.
  - destruct Hb as (k' & Hin & Hev & Hr & Hc). exists k'. split; [by right|]. split; [|done]. rewrite <- Ho; [exact Hev|]. by intros ->.
  - destruct Hb as (Hev & Hr & Hc). split; [|done]. intros k' [->|Hin]%elem_of_cons; [done|]. rewrite <- Ho; [by apply Hev|]. by intros ->.
Qed.

Lemma scan_spec n c ph fh resv : scan_state c ph fh resv → (n ≤ length (active (eviction_queues c)))%nat →
  ∃ c' b, scan n c = Done (c', b) ∧ scan_state c' ph fh resv ∧ scanned c c' b (take n (active (eviction_queues c))).
Proof.
  revert c. induction n as [|n IH]; intros c Hst Hn.
  { exists c, false. split; [done|]. split; [done|]. split; [done|]. split; [done|]. split; [by intros k ?%elem_of_nil|done]. }
  destruct (active (eviction_queues c)) as [|k a] eqn:Ha; [simpl in Hn; lia|]. simpl in Hn.
  pose proof (queued_pop c k a Ha) as Hqd. pose proof Hst as (H & Hemp & [Hnd Hk] & Hcnt & Hr0 & Hu).
  rewrite Hqd in Hnd. apply NoDup_cons in Hnd as [Hka Hnd].
  assert (is_Some (resident c k)) as Hres by (apply Hk; rewrite Hqd; by left).
  cbn [scan]. unfold pop_active at 1. rewrite Ha.
  set (q0 := mkQueues a (deferred (eviction_queues c)) (retry_misses (eviction_queues c))).
  destruct (examine_spec (with_queues c q0) ph fh k) as (f & p & Hf & Hp & st & -> & Hst'); [by apply (heap_ok_index c)|done|].
  cbn [mbind]. simpl. change (evictable (with_queues c q0) k) with (evictable c k) in Hst'. change (resident c k = Some f) in Hf. change (objs c !! f = Some p) in Hp.
  assert (k ∉ take n a) as Hkt by (intros Hin; apply Hka, elem_of_app; left; rewrite <- (take_drop n a); apply elem_of_app; by left).
  assert (∀ q, active q ++ deferred q ≡ₚ queued c → retry_misses q = retry_misses (eviction_queues c) →
    (n ≤ length (active q))%nat → take n (active q) = take n a → evictable c k = false →
    ∃ c' b, scan n (requeued c f p q) = Done (c', b) ∧ scan_state c' ph fh resv ∧ scanned c c' b (k :: take n a)) as Hgo.
  { intros q Hq Hm Hlen Htk He. destruct (requeued_state c ph fh resv k f p q Hst Hf Hp Hq) as [Hst1 Hsh].
    destruct (IH (requeued c f p q) Hst1 Hlen) as (c' & b & Hsc & Hst2 & Hs). exists c', b. split; [exact Hsc|]. split; [done|].
    change (active (eviction_queues (requeued c f p q))) with (active q) in Hs. rewrite Htk in Hs. by apply (scanned_next c ph fh k f p q). }
  assert (st ≠ Evict → evictable c k = false) as Hnot by (destruct (evictable c k); [intros Hx; destruct Hx; by apply Hst'|done]).
  destruct st.
  - set (c1 := with_objs (with_queues c q0) (<[f := set_referenced false p]> (objs c))).
    destruct (evict_page_spec c1 ph fh k) as (c' & Hev & Hok & Hsh & Hr & Hcn & Heq & Hne').
    { apply (heap_ok_index (with_objs c (<[f := set_referenced false p]> (objs c)))); [|done..]. by apply (flags_ok c ph fh f p). }
    { done. }
    { change (page_count c1) with (page_count c). rewrite Hcnt, Hqd in *. simpl in *. lia. }
    change (with_objs (with_queues c q0) _) with c1. rewrite Hev. cbn [mbind]. simpl. exists c', true. split; [done|].
    assert (queued c' = a ++ deferred (eviction_queues c)) as Hq' by (unfold queued; by rewrite Heq). split.
    + split; [done|]. split; [by apply Hne'|]. rewrite Hq', Hcn. change (page_count c1) with (page_count c). split; [|split].
      * split; [done|]. intros k'. rewrite Hr. change (resident c1 k') with (resident c k'). destruct (decide (k' = k)) as [->|Hne].
        -- split; [done|]. by intros [? ?].
        -- rewrite <- Hk, Hqd, elem_of_cons. tauto.
      * rewrite Hcnt, Hqd. simpl. lia.
      * lia.
    + split; [etrans; [|exact Hsh]; by apply (obj_update_shrinks c f p)|]. split; [by rewrite Heq|]. exists k. split; [by left|]. split; [by apply Hst'|]. split; [exact Hr|exact Hcn].
  - apply (Hgo (mkQueues (a ++ [k]) (deferred (eviction_queues c)) (retry_misses (eviction_queues c)))); simpl; try done.
    + rewrite Hqd. solve_Permutation.
    + rewrite length_app. lia.
    + by rewrite take_app_le by lia.
    + by apply Hnot.
  - apply (Hgo (mkQueues a (deferred (eviction_queues c) ++ [k]) (retry_misses (eviction_queues c)))); simpl; try done.
    + rewrite Hqd. solve_Permutation.
    + lia.
    + by apply Hnot.
  - apply (Hgo (mkQueues a (deferred (eviction_queues c) ++ [k]) (retry_misses (eviction_queues c)))); simpl; try done.
    + rewrite Hqd. solve_Permutation.
    + lia.
    + by apply Hnot.
Qed.
End inv.
