(* ===== verification/FileCacheOps.v ===== *)
(** * Operations of the file page cache

    Each operation of [FileCache] returns, keeps the invariant of
    [FileCacheInv], and has the stated effect on resident pages and on what
    pages hold. *)

From S2P Require Import Prelude Errno Bytes RefCount FrameAlloc FramePool FileCache FileCacheInv.

Section ops.
Context {Src : Type} `{!FrameSource Src} `{!FramePool Src} (cap : Z) (Hcap : cap ≤ usize_max).
Notation Cache := (FilePageCache Src).
Implicit Types (c : Cache) (k : FilePageKey) (f : Z) (ph fh : Z → nat) (resv : Z).

(** ** Eviction and reservation *)

Lemma refill_loop_spec n q : (n ≤ length (deferred q))%nat →
  refill_loop n q = Done (mkQueues (active q ++ take n (deferred q)) (drop n (deferred q)) (retry_misses q)).
Proof using Type.
  revert q. induction n as [|n IH]; intros [a d r] Hn; simpl in *; [by rewrite app_nil_r|].
  destruct d as [|k d]; [simpl in Hn; lia|]. simpl in Hn. rewrite IH by (simpl; lia). simpl. by rewrite <- app_assoc.
Qed.

(** The candidates that a call of [try_evict_one] looks at. *)
Definition candidates c : list FilePageKey :=
  let q := eviction_queues c in
  if starved c then if retry_misses q =? 0 then take EVICTION_DEFERRED_RETRY_BATCH (deferred q) else []
  else take EVICTION_SCAN_BUDGET (active q).

Lemma scan_state_of c ph fh resv : cache_ok cap c ph fh resv → scan_state c ph fh resv.
Proof. intros []. split; [done|]. split; [done|]. split; [done|]. split; [done|]. split; [done|lia]. Qed.

Lemma set_misses_state c ph fh resv n : scan_state c ph fh resv → scan_state (set_misses c n) ph fh resv.
Proof using Type. intros (H & Hne & Hk & ?). split; [by apply (heap_ok_index c)|]. split; [exact Hne|]. split; [exact Hk|done]. Qed.
Lemma cache_ok_of c ph fh resv : scan_state c ph fh resv → page_count c ≤ cap →
  0 ≤ retry_misses (eviction_queues c) ≤ EVICTION_DEFERRED_RETRY_MISS_INTERVAL → cache_ok cap c ph fh resv.
Proof using Type. intros (? & ? & ? & ? & ? & ?) ? ?. by split. Qed.

(** What [try_evict_one] does; [ks] are the candidates. *)
Definition evicted c c' (b : bool) (ks : list FilePageKey) : Prop :=
  shrinks c c' ∧
  if b then ∃ k, k ∈ ks ∧ evictable c k = true ∧ (∀ k', resident c' k' = if decide (k' = k) then None else resident c k') ∧ page_count c' = page_count c - 1
  else (∀ k, k ∈ ks → evictable c k = false) ∧ (∀ k, resident c' k = resident c k) ∧ page_count c' = page_count c.

Lemma run_scan_spec c ph fh resv : scan_state c ph fh resv → page_count c ≤ cap →
  0 ≤ retry_misses (eviction_queues c) ≤ EVICTION_DEFERRED_RETRY_MISS_INTERVAL →
  ∃ c' b, run_scan c = Done (c', b) ∧ cache_ok cap c' ph fh resv ∧ evicted c c' b (take EVICTION_SCAN_BUDGET (active (eviction_queues c))).
Proof using Type.
  intros Hst Hle Hm. unfold run_scan. set (n := Nat.min _ _).
  destruct (scan_spec n c ph fh resv Hst) as (c' & b & -> & Hst' & Hsh & Hm' & Hb); [unfold n; lia|]. cbn [mbind]. simpl.
  assert (take n (active (eviction_queues c)) = take EVICTION_SCAN_BUDGET (active (eviction_queues c))) as Htk.
  { unfold n. destruct (Nat.min_spec (length (active (eviction_queues c))) EVICTION_SCAN_BUDGET) as [[? ->]|[? ->]]; [|done].
    rewrite !take_ge by lia. done. }
  rewrite Htk in Hb. assert (page_count c' ≤ cap) as Hle' by (destruct b; [destruct Hb as (?&?&?&?&->)|destruct Hb as (?&?&->)]; lia).
  destruct b; (eexists; eexists; split; [done|]; split).
  - apply cache_ok_of; [done|done|]. by rewrite Hm'.
  - by split.
  - destruct (starved c'); apply cache_ok_of; try done; [by apply set_misses_state|by rewrite Hm'].
  - by destruct (starved c').
Qed.

Lemma try_evict_one_spec c ph fh resv : cache_ok cap c ph fh resv →
  ∃ c' b, try_evict_one c = Done (c', b) ∧ cache_ok cap c' ph fh resv ∧ evicted c c' b (candidates c).
Proof.
  intros H. pose proof (scan_state_of _ _ _ _ H) as Hst. pose proof (ca_misses _ _ _ _ _ H) as Hm. pose proof (ca_cap _ _ _ _ _ H) as Hc.
  unfold try_evict_one, candidates. destruct (starved c) eqn:Hs; [|by apply run_scan_spec].
  destruct (Z.eqb_spec (retry_misses (eviction_queues c)) 0) as [E|E]; simpl.
  - unfold refill_active_from_deferred. set (n := Nat.min _ _). rewrite refill_loop_spec by (unfold n; lia). cbn [mbind].
    set (q := mkQueues _ _ _). unfold starved in Hs. apply andb_true_iff in Hs as [Ha Hd].
    destruct (active (eviction_queues c)) as [|? ?] eqn:Ea; [|done]. simpl in q.
    assert (take n (deferred (eviction_queues c)) = take EVICTION_DEFERRED_RETRY_BATCH (deferred (eviction_queues c))) as Htk.
    { unfold n. destruct (Nat.min_spec (length (deferred (eviction_queues c))) EVICTION_DEFERRED_RETRY_BATCH) as [[? ->]|[? ->]]; [|done].
      rewrite !take_ge by lia. done. }
    destruct (run_scan_spec (with_queues c q) ph fh resv) as (c' & b & Hr & Hok & Hev).
    + destruct Hst as (Hh & Hne & Hk & Hcn & ?). split; [by apply (heap_ok_index c)|]. split; [exact Hne|].
      assert (queued (with_queues c q) = queued c) as Hq by (unfold queued, q; simpl; by rewrite Ea, take_drop).
      rewrite Hq. split; [exact Hk|]. done.
    + done.
    + done.
    + exists c', b. split; [exact Hr|]. split; [done|]. change (active (eviction_queues (with_queues c q))) with (take n (deferred (eviction_queues c))) in Hev.
      rewrite Htk, (take_ge (take _ _)) in Hev by (rewrite length_take; unfold EVICTION_DEFERRED_RETRY_BATCH, EVICTION_SCAN_BUDGET; lia). exact Hev.
  - eexists _, false. split; [done|]. split; [|split; [done|]; split; [by intros k ?%elem_of_nil|done]].
    apply cache_ok_of; [by apply set_misses_state|done|]. simpl. lia.
Qed.

Lemma try_reserve_spec c ph fh resv : cache_ok cap c ph fh resv → let r := try_reserve_page cap c in
  cache_ok cap r.1 ph fh (resv + if r.2 then 1 else 0) ∧ shrinks c r.1 ∧ (∀ k, resident r.1 k = resident c k) ∧ r.2 = negb (cap <=? page_count c).
Proof using Type.
  intros H. unfold try_reserve_page. destruct (Z.leb_spec cap (page_count c)); simpl.
  - rewrite Z.add_0_r. done.
  - split; [|done]. destruct H as [Hh Hne Hk Hc Hr Hp Hm]. split; simpl; [by apply (heap_ok_index c)|exact Hne|exact Hk| |lia|lia|done].
    change (page_count c + 1 = Z.of_nat (length (queued c)) + (resv + 1)). lia.
Qed.

Lemma release_spec c ph fh resv : cache_ok cap c ph fh resv → 1 ≤ resv →
  cache_ok cap (release_page_reservation c) ph fh (resv - 1) ∧ shrinks c (release_page_reservation c).
Proof.
  intros [Hh Hne Hk Hc Hr Hp Hm] H1. split; [|done]. unfold release_page_reservation. rewrite wrap64_small by (unfold is_usize; lia).
  split; simpl; [by apply (heap_ok_index c)|exact Hne|exact Hk| |lia|lia|done]. change (page_count c - 1 = Z.of_nat (length (queued c)) + (resv - 1)). lia.
Qed.

Lemma reserve_page_or_evict_spec c ph fh resv : cache_ok cap c ph fh resv →
  ∃ c' b, reserve_page_or_evict cap c = Done (c', b) ∧ cache_ok cap c' ph fh (resv + if b then 1 else 0) ∧ shrinks c c' ∧
    (page_count c < cap → b = true ∧ ∀ k, resident c' k = resident c k).
Proof.
  intros H. unfold reserve_page_or_evict. pose proof (try_reserve_spec c ph fh resv H) as (Hok & Hsh & Hrs & Hb).
  destruct (try_reserve_page cap c) as [c1 b] eqn:E. cbn [fst snd] in *. destruct b.
  { eexists _, true. split; [done|]. split; [done|]. split; [done|]. done. }
  symmetry in Hb. apply negb_false_iff in Hb. rewrite Z.add_0_r in Hok. destruct (try_evict_one_spec c1 ph fh resv Hok) as (c2 & b & -> & Hok2 & Hev).
  cbn [mbind]. simpl. destruct b.
  - pose proof (try_reserve_spec c2 ph fh resv Hok2) as (Hok3 & Hsh3 & _). destruct (try_reserve_page cap c2) as [c3 b]. exists c3, b.
    split; [done|]. split; [done|]. split; [|lia]. etrans; [done|]. etrans; [apply Hev|done].
  - exists c2, false. split; [done|]. rewrite Z.add_0_r. split; [done|]. split; [|lia]. etrans; [done|]. apply Hev.
Qed.

(** ** Publication and lookup *)

Lemma cache_ok_heap c c' ph fh ph' fh' resv : cache_ok cap c ph fh resv → heap_ok c' ph' fh' → index c' = index c → cache_ok cap c' ph' fh' resv.
Proof using Type.
  intros [Hh Hne Hk Hc Hr Hp Hm] H Hi. injection Hi as Hi1 Hi2 Hi3. unfold queued in *. split; unfold queued; rewrite ?Hi2, ?Hi3; try done.
  { unfold no_empty. by rewrite Hi1. }
  apply (keys_ok_resident c); [|done]. intros k. unfold resident. by rewrite Hi1.
Qed.

(** Pages that exist keep what they hold. *)
Definition data_kept c c' : Prop := ∀ f d, obj_data c' f = Some d → obj_data c f = Some d.

Lemma publish_spec c ph fh resv f p : cache_ok cap c (bump ph f) fh resv → 1 ≤ resv → objs c !! f = Some p →
  ∃ c' b, publish_reserved_page c f = Done (c', b) ∧ cache_ok cap c' ph fh (if b then resv - 1 else resv) ∧ data_kept c c' ∧
    (if b then resident c (key p) = None ∧ ∀ k, resident c' k = if decide (k = key p) then Some f else resident c k
     else is_Some (resident c (key p)) ∧ ∀ k, resident c' k = resident c k).
Proof using Type.
  intros H Hr Hp. unfold publish_reserved_page. rewrite Hp. cbn [mbind]. simpl.
  assert (default ∅ (pages c !! k_path (key p)) !! page_index (key p) = resident c (key p)) as Hres.
  { unfold resident. destruct (pages c !! k_path (key p)); [done|]. simpl. by rewrite lookup_empty. }
  rewrite Hres. destruct (resident c (key p)) as [g|] eqn:Hg.
  - assert (with_pages c (<[k_path (key p) := default ∅ (pages c !! k_path (key p))]> (pages c)) = c) as ->.
    { unfold resident in Hg. destruct (pages c !! k_path (key p)) as [m|] eqn:Hm; [|done]. simpl. rewrite insert_id by done. by destruct c. }
    eexists _, false. split; [done|]. pose proof (arc_drop_index c f) as Hi. split; [|split; [exact (proj1 (arc_drop_shrinks c f))|split; [eauto|]]].
    + eapply cache_ok_heap; [done| |done]. apply arc_drop_ok, (ca_heap _ _ _ _ _ H).
    + intros k. by apply index_resident.
  - eexists _, true. split; [done|]. change (with_pages c _) with (publish_at c f (key p)). pose proof (publish_resident c f (key p)) as Hpr.
    split; [|split; [by intros ? ?|split; [done|exact Hpr]]]. destruct H as [Hh Hne [Hnd Hk] Hc Hr0 Hle Hm].
    assert (key p ∉ queued c) as Hn by (rewrite Hk, Hg; by intros [? ?]).
    assert (queued (push_active (publish_at c f (key p)) (key p)) ≡ₚ key p :: queued c) as Hq by (unfold queued; simpl; solve_Permutation).
    split; simpl; try done; [|by apply publish_no_empty| | |lia].
    + apply (heap_ok_index (publish_at c f (key p))); [|done..]. by apply publish_ok.
    + eapply keys_ok_perm; [symmetry; exact Hq|]. split; [by apply NoDup_cons|]. intros k.
      change (resident (push_active _ _) k) with (resident (publish_at c f (key p)) k). rewrite Hpr, elem_of_cons, Hk. case_decide; [subst|tauto]. split; eauto.
    + rewrite Hq, Hc. simpl. lia.
Qed.

Lemma lookup_spec c ph fh resv pth i : cache_ok cap c ph fh resv →
  match lookup_page c pth i with
  | (c', None) => c' = c ∧ resident c (mkKey pth i) = None
  | (c', Some f) => resident c (mkKey pth i) = Some f ∧ cache_ok cap c' (bump ph f) fh resv ∧ shrinks c c' ∧ index c' = index c
  end.
Proof using Type.
  intros H. unfold lookup_page. destruct (resident c (mkKey pth i)) as [f|] eqn:E; [|done]. split; [done|].
  pose proof (resident_obj c ph fh _ f (ca_heap _ _ _ _ _ H) E) as Ho. split; [|split].
  - eapply cache_ok_heap; [done|apply mark_referenced_ok, arc_clone_ok; [apply H|done]|]. by rewrite mark_referenced_index, arc_clone_index.
  - etrans; [apply arc_clone_shrinks|apply mark_referenced_shrinks].
  - by rewrite mark_referenced_index, arc_clone_index.
Qed.

Lemma drop_spec c ph fh resv f : cache_ok cap c (bump ph f) fh resv →
  cache_ok cap (arc_drop c f) ph fh resv ∧ shrinks c (arc_drop c f) ∧ index (arc_drop c f) = index c.
Proof using Type.
  intros H. split; [|split; [apply arc_drop_shrinks|apply arc_drop_index]].
  eapply cache_ok_heap; [done|apply arc_drop_ok, H|apply arc_drop_index].
Qed.
Lemma drops_spec c ph fh resv fs : cache_ok cap c (bumps ph fs) fh resv →
  cache_ok cap (foldl arc_drop c fs) ph fh resv ∧ shrinks c (foldl arc_drop c fs) ∧ index (foldl arc_drop c fs) = index c.
Proof using Type.
  intros H. split; [|split; [apply drop_all_shrinks|apply drop_all_index]].
  eapply cache_ok_heap; [done|apply drop_all_ok, H|apply drop_all_index].
Qed.

(** ** Invalidation *)

(** One page less: the map of its path may become empty on the way. *)
Definition del_page c (pth : string) (i : Z) : Cache := with_pages c (<[pth := delete i (default ∅ (pages c !! pth))]> (pages c)).
Lemma del_page_resident c pth i k : is_Some (pages c !! pth) →
  resident (del_page c pth i) k = if decide (k = mkKey pth i) then None else resident c k.
Proof using Type.
  intros [m Hm]. unfold del_page, resident. simpl. rewrite Hm. simpl. destruct k as [p j]. simpl. case_decide as Hk.
  - injection Hk as -> ->. rewrite lookup_insert_eq. simpl. apply lookup_delete_eq.
  - destruct (decide (p = pth)) as [->|Hp]; [|by rewrite lookup_insert_ne]. rewrite lookup_insert_eq, Hm. simpl.
    apply lookup_delete_ne. congruence.
Qed.

(** What removing pages leaves; [n] pages went. *)
Record removed_pages c c' ph fh (gone : FilePageKey → bool) (n : Z) : Prop := {
  rp_heap : heap_ok c' ph fh;
  rp_shrinks : shrinks c c';
  rp_resident k : resident c' k = if gone k then None else resident c k;
  rp_queues : page_count c' = page_count c ∧ eviction_queues c' = eviction_queues c;
  rp_count ks : keys_ok c ks → ∃ ks', keys_ok c' ks' ∧ Z.of_nat (length ks) = Z.of_nat (length ks') + n }.

(** Removing the queue entries too restores the invariant. *)
Lemma removed_ok c c' ph fh resv gone n p : cache_ok cap c ph fh resv → removed_pages c c' ph fh gone n → no_empty c' →
  (∀ k, p k = negb (gone k)) → cache_ok cap (with_queues (with_count c' (wrap64 (page_count c' - n))) (retain_keys p (eviction_queues c'))) ph fh resv.
Proof.
  intros [Hh Hne Hk Hc Hr Hle Hm] [Rh Rs Rr [Rc Rq] Rn] Hne' Hp. destruct (Rn _ Hk) as (ks' & Hks' & Hlen).
  assert (keys_ok c' (retain p (queued c))) as Hk'.
  { destruct Hk as [Hnd Hk]. split; [by apply retain_NoDup|]. intros k. rewrite elem_of_retain, Hk, Rr, Hp.
    destruct (gone k); simpl; [split; [by intros [_ ?]|by intros [? ?]]|tauto]. }
  assert (length (retain p (queued c)) = length ks') as Hl by (by rewrite (keys_ok_unique c' _ _ Hk' Hks')).
  assert (queued (with_queues (with_count c' (wrap64 (page_count c' - n))) (retain_keys p (eviction_queues c'))) = retain p (queued c)) as Hq.
  { unfold queued. simpl. by rewrite Rq, retain_app. }
  assert (0 ≤ n) as Hn.
  { pose proof (length_retain p (queued c)). lia. }
  assert (wrap64 (page_count c' - n) = page_count c - n) as Hw by (rewrite Rc; apply wrap64_small; unfold is_usize; lia).
  split; rewrite ?Hq; simpl; rewrite ?Hw; try done; [by apply (heap_ok_index c')|lia|lia|by rewrite Rq].
Qed.

Lemma removed_none c ph fh g : heap_ok c ph fh → (∀ k, g k = true → resident c k = None) → removed_pages c c ph fh g 0.
Proof using Type.
  intros H Hg. split; try done; [|intros ks Hk; exists ks; split; [done|lia]]. intros k. specialize (Hg k). by destruct (g k); [apply Hg|].
Qed.
Lemma removed_trans c1 c2 c3 ph fh g1 g2 n1 n2 : removed_pages c1 c2 ph fh g1 n1 → removed_pages c2 c3 ph fh g2 n2 →
  removed_pages c1 c3 ph fh (λ k, g1 k || g2 k) (n1 + n2).
Proof using Type.
  intros [H1 S1 R1 [Q1 Q1'] N1] [H2 S2 R2 [Q2 Q2'] N2]. split; [done|by etrans| |by rewrite Q2, Q1, Q2', Q1'|].
  - intros k. rewrite R2, R1. by destruct (g1 k), (g2 k).
  - intros ks Hk. destruct (N1 ks Hk) as (k1 & Hk1 & L1). destruct (N2 k1 Hk1) as (k2 & Hk2 & L2). exists k2. split; [done|lia].
Qed.
Lemma removed_ext c c' ph fh g g' n n' : (∀ k, g' k = g k) → n' = n → removed_pages c c' ph fh g n → removed_pages c c' ph fh g' n'.
Proof using Type. intros Hg -> [? ? R ? ?]. split; try done. intros k. by rewrite Hg, R. Qed.

Lemma remove_one_spec c ph fh pth i f : heap_ok c ph fh → resident c (mkKey pth i) = Some f → let c' := arc_drop (del_page c pth i) f in
  removed_pages c c' ph fh (λ k, bool_decide (k = mkKey pth i)) 1 ∧ pages c' = <[pth := delete i (default ∅ (pages c !! pth))]> (pages c).
Proof using Type.
  intros H Hf. assert (is_Some (pages c !! pth)) as Hp.
  { unfold resident in Hf. simpl in Hf. destruct (pages c !! pth); [eauto|done]. }
  pose proof (λ k, del_page_resident c pth i k Hp) as Hr. pose proof (arc_drop_index (del_page c pth i) f) as Hi. simpl. split; [|by injection Hi].
  assert (∀ k, resident (arc_drop (del_page c pth i) f) k = if decide (k = mkKey pth i) then None else resident c k) as Hr'.
  { intros k. by rewrite (index_resident _ _ k Hi). }
  split.
  - apply arc_drop_ok. by apply (unindex_ok c ph fh (mkKey pth i) f).
  - etrans; [|apply arc_drop_shrinks]. split; [done|]. intros k g. rewrite Hr. by destruct (decide (k = mkKey pth i)).
  - intros k. rewrite Hr'. case_bool_decide; [by rewrite decide_True|by rewrite decide_False].
  - by injection Hi.
  - intros ks [Hnd Hk]. assert (mkKey pth i ∈ ks) as Hin by (rewrite Hk; eauto). apply list_elem_of_split in Hin as (k1 & k2 & ->).
    exists (k1 ++ k2). split; [|rewrite !length_app; simpl; lia].
    assert (mkKey pth i ∉ k1 ++ k2 ∧ NoDup (k1 ++ k2)) as [Hnot Hnd'] by (apply NoDup_cons; by rewrite Permutation_middle).
    split; [done|]. intros k. rewrite Hr'. destruct (decide (k = mkKey pth i)) as [->|Hn]; [split; [done|by intros [? ?]]|].
    rewrite <- Hk, !elem_of_app, elem_of_cons. tauto.
Qed.

Lemma range_step pth i idxs k : bool_decide (k_path k = pth ∧ page_index k ∈ i :: idxs) =
  bool_decide (k = mkKey pth i) || bool_decide (k_path k = pth ∧ page_index k ∈ idxs).
Proof using Type.
  destruct k as [p j]. simpl. apply eq_iff_eq_true. rewrite orb_true_iff, !bool_decide_eq_true, elem_of_cons. naive_solver.
Qed.

Lemma remove_range_spec c ph fh pth idxs n : heap_ok c ph fh → let r := remove_range c pth idxs n in
  removed_pages c r.1 ph fh (λ k, bool_decide (k_path k = pth ∧ page_index k ∈ idxs)) (r.2 - n) ∧
  (∀ p, p ≠ pth → pages r.1 !! p = pages c !! p) ∧ (r.2 = n → r.1 = c) ∧ n ≤ r.2.
Proof using Type.
  revert c n. induction idxs as [|i idxs IH]; intros c n H.
  { simpl. rewrite Z.sub_diag. split; [|done]. apply removed_none; [done|]. intros k Hk. apply bool_decide_eq_true in Hk as [_ []%elem_of_nil]. }
  cbn [remove_range]. change (pages c !! pth ≫= (.!! i)) with (resident c (mkKey pth i)). destruct (resident c (mkKey pth i)) as [f|] eqn:Hf.
  - destruct (remove_one_spec c ph fh pth i f H Hf) as [R1 P1]. change (arc_drop (with_pages c _) f) with (arc_drop (del_page c pth i) f).
    destruct (IH (arc_drop (del_page c pth i) f) (n + 1) (rp_heap _ _ _ _ _ _ R1)) as (R2 & P2 & _ & L2).
    destruct (remove_range _ _ idxs _) as [c2 n2]. cbn [fst snd] in *. split; [|split; [|split]].
    + eapply removed_ext; [| |exact (removed_trans _ _ _ _ _ _ _ _ _ R1 R2)]; [|lia]. exact (range_step pth i idxs).
    + intros p Hp. rewrite P2, P1 by done. by apply lookup_insert_ne.
    + intros Hn. lia.
    + lia.
  - destruct (IH c n H) as (R2 & P2 & E2 & L2). split; [|done].
    assert (removed_pages c c ph fh (λ k, bool_decide (k = mkKey pth i)) 0) as R1 by (apply removed_none; [done|]; by intros k ->%bool_decide_eq_true).
    eapply removed_ext; [| |exact (removed_trans _ _ _ _ _ _ _ _ _ R1 R2)]; [|lia]. exact (range_step pth i idxs).
Qed.

Lemma drop_empty_spec c pth : no_empty (with_pages c (delete pth (pages c))) →
  no_empty (drop_empty c pth) ∧ (∀ k, resident (drop_empty c pth) k = resident c k).
Proof using Type.
  intros H. unfold drop_empty. case_decide as He.
  - split; [done|]. intros [p j]. unfold resident. simpl. destruct (decide (p = pth)) as [->|Hn]; [|by rewrite lookup_delete_ne].
    rewrite lookup_delete_eq, He. simpl. by rewrite lookup_empty.
  - split; [|done]. intros p m Hm ->. destruct (decide (p = pth)) as [->|Hn]; [done|]. apply (H p ∅); [|done]. simpl. by rewrite lookup_delete_ne.
Qed.
Lemma removed_drop_empty c c' ph fh g n pth : removed_pages c c' ph fh g n → (∀ k, resident (drop_empty c' pth) k = resident c' k) →
  removed_pages c (drop_empty c' pth) ph fh g n.
Proof using Type.
  intros [Rh Rs Rr Rq Rn] Hr. assert (∀ k f, resident (drop_empty c' pth) k = Some f → resident c' k = Some f) as Hr' by (intros; by rewrite <- Hr).
  unfold drop_empty in *. case_decide; [|done]. split; [|split; [apply Rs|intros k f Hk; by apply Rs, Hr']| |done|].
  - apply (reindex_ok c' ph); try done; [intros k f Hk; apply Rh, Hr', Hk|]. intros f p Hp. by rewrite Hr.
  - intros k. by rewrite Hr, Rr.
  - intros ks Hk. destruct (Rn ks Hk) as (ks' & Hk' & ?). exists ks'. split; [|done]. by apply (keys_ok_resident c').
Qed.

(** The bytes [[start, start + len)] meet the page. *)
Definition range_hits (pth : string) (start len : Z) (k : FilePageKey) : bool :=
  bool_decide (k_path k = pth) && (page_index k * PAGE_SIZE <? start + len) && (start <? (page_index k + 1) * PAGE_SIZE) && (0 <? len).

Lemma invalidate_path_range_spec c ph fh resv pth start len : cache_ok cap c ph fh resv → 0 ≤ start → 0 ≤ len → start + len + PAGE_SIZE ≤ usize_max →
  let c' := invalidate_path_range c pth start len in
  cache_ok cap c' ph fh resv ∧ shrinks c c' ∧ ∀ k, resident c' k = if range_hits pth start len k then None else resident c k.
Proof.
  intros H Hs Hl Hu. unfold invalidate_path_range. destruct (Z.eqb_spec len 0) as [->|Hlen].
  { split; [done|]. split; [done|]. intros k. unfold range_hits. by rewrite andb_false_r. }
  unfold saturating_add. rewrite (Z.min_r usize_max (start + len)), Z.min_r by (unfold PAGE_SIZE in *; lia).
  set (first := start / PAGE_SIZE). set (last := (start + len + (PAGE_SIZE - 1)) / PAGE_SIZE).
  destruct (remove_range_spec c ph fh pth (seqZ first (last - first)) 0 (ca_heap _ _ _ _ _ H)) as (R & Hp & Hz & Hpos).
  destruct (remove_range c pth _ 0) as [c1 n]. cbn [fst snd] in *. rewrite Z.sub_0_r in R.
  assert (∀ k, range_hits pth start len k = bool_decide (k_path k = pth ∧ page_index k ∈ seqZ first (last - first))) as Hg.
  { intros [p i]. unfold range_hits, first, last. simpl. apply eq_iff_eq_true. rewrite !andb_true_iff, !bool_decide_eq_true, elem_of_seqZ, !Z.ltb_lt.
    unfold PAGE_SIZE in *. split; [intros [[[-> ?] ?] ?]|intros [-> ?]]; (split_and!; [done|..]); Z.to_euclidean_division_equations; lia. }
  assert (no_empty (with_pages c1 (delete pth (pages c1)))) as Hne.
  { intros p m. simpl. intros [Hn Hm]%lookup_delete_Some. rewrite Hp in Hm by done. by apply (ca_nonempty _ _ _ _ _ H p). }
  destruct (drop_empty_spec c1 pth Hne) as [Hne' Hr]. pose proof (removed_drop_empty _ _ _ _ _ _ pth R Hr) as R'.
  destruct (Z.eqb_spec n 0) as [Hn|Hn].
  - pose proof (Hz Hn) as ->. assert (drop_empty c pth = c) as ->.
    { unfold drop_empty. rewrite decide_False; [done|]. intros He. by apply (ca_nonempty _ _ _ _ _ H pth ∅). }
    split; [done|]. split; [done|]. intros k. rewrite Hg. apply R.
  - split; [|split; [apply R'|]].
    + eapply removed_ok; [done|exact R'|done|]. intros [p i]. simpl. apply eq_iff_eq_true.
      rewrite !orb_true_iff, !negb_true_iff, !bool_decide_eq_false, elem_of_seqZ, Z.ltb_lt, Z.leb_le.
      destruct (decide (p = pth)); [|tauto]. split; [intros [[?|?]|?] [? ?]; [done|lia|lia]|]. intros Hx.
      destruct (decide (i < first)); [auto|]. destruct (decide (last ≤ i)); [auto|]. destruct Hx. split; [done|lia].
    + intros k. rewrite Hg. apply R'.
Qed.

(** The pages of a whole path. *)
Definition path_values (m : gmap Z Z) : list Z := (map_to_list m).*2.

Lemma resident_deleted c pth k : resident (with_pages c (delete pth (pages c))) k = if decide (k_path k = pth) then None else resident c k.
Proof using Type.
  unfold resident. simpl. case_decide as Hk; [by rewrite Hk, lookup_delete_eq|]. by rewrite lookup_delete_ne.
Qed.
Lemma path_values_NoDup c ph fh pth m : heap_ok c ph fh → pages c !! pth = Some m → NoDup (path_values m).
Proof using Type.
  intros H Hm. apply NoDup_fmap_2_strong; [|apply NoDup_map_to_list]. intros [i f] [j g] Hi%elem_of_map_to_list Hj%elem_of_map_to_list. simpl. intros ->.
  assert (mkKey pth i = mkKey pth j) as [= ->]; [|done]. apply (resident_inj c ph fh _ _ g H); unfold resident; simpl; by rewrite Hm.
Qed.
Lemma elem_of_path_values c ph fh pth m f p : heap_ok c ph fh → pages c !! pth = Some m → objs c !! f = Some p →
  f ∈ path_values m ↔ k_path (key p) = pth ∧ resident c (key p) = Some f.
Proof using Type.
  intros H Hm Hp. unfold path_values. rewrite list_elem_of_fmap. split.
  - intros ([i g] & -> & Hi%elem_of_map_to_list). simpl in *. assert (resident c (mkKey pth i) = Some g) as Hr by (unfold resident; simpl; by rewrite Hm).
    destruct (ho_resident c ph fh H _ _ Hr) as (q & Hq & Hk). simplify_eq. by rewrite Hk.
  - intros [Hk Hr]. exists (page_index (key p), f). split; [done|]. apply elem_of_map_to_list. unfold resident in Hr. by rewrite Hk, Hm in Hr.
Qed.
(** The map without a path: its pages are held by whoever drops them. *)
Lemma delete_path_ok c ph fh pth m : heap_ok c ph fh → pages c !! pth = Some m →
  heap_ok (with_pages c (delete pth (pages c))) (bumps ph (path_values m)) fh.
Proof using Type.
  intros H Hm. pose proof (path_values_NoDup c ph fh pth m H Hm) as Hnd. apply (reindex_ok c ph); [done|..].
  - intros k f. rewrite resident_deleted. case_decide; [done|]. apply H.
  - intros f p Hp. rewrite bumps_NoDup by done. pose proof (elem_of_path_values c ph fh pth m f p H Hm Hp) as He.
    rewrite (one_if_ext _ (k_path (key p) ≠ pth ∧ resident c (key p) = Some f)).
    2: { rewrite resident_deleted. case_decide; [split; [done|by intros [? _]]|tauto]. }
    unfold one_if. repeat case_decide; try lia; tauto.
  - intros f Hf. rewrite bumps_NoDup by done. rewrite decide_False; [lia|]. unfold path_values. rewrite list_elem_of_fmap.
    intros ([i g] & -> & Hi%elem_of_map_to_list). destruct (resident_obj c ph fh (mkKey pth i) g H); [unfold resident; simpl; by rewrite Hm|]. simpl in *. congruence.
Qed.
(** The keys of a path. *)
Definition path_keys (pth : string) (m : gmap Z Z) : list FilePageKey := (λ p : Z * Z, mkKey pth p.1) <$> map_to_list m.
Lemma path_keys_split c pth m ks : pages c !! pth = Some m → keys_ok c ks →
  ks ≡ₚ path_keys pth m ++ retain (λ k, negb (bool_decide (k_path k = pth))) ks.
Proof using Type.
  intros Hm [Hnd Hk]. assert (∀ k, k ∈ path_keys pth m ↔ k_path k = pth ∧ is_Some (resident c k)) as Hin.
  { intros [p i]. unfold path_keys. rewrite list_elem_of_fmap. unfold resident. simpl. split.
    - intros ([j f] & [= -> ->] & Hj%elem_of_map_to_list). rewrite Hm. simpl. simpl in Hj. rewrite Hj. eauto.
    - intros [-> [f Hf]]. rewrite Hm in Hf. exists (i, f). split; [done|]. by apply elem_of_map_to_list. }
  apply NoDup_Permutation; [done| |].
  - apply NoDup_app. split; [|split; [|by apply retain_NoDup]].
    + apply NoDup_fmap_2_strong; [|apply NoDup_map_to_list]. intros [i f] [j g] Hi%elem_of_map_to_list Hj%elem_of_map_to_list. simpl. intros [= ->]. by simplify_eq.
    + intros k [Hp _]%Hin [_ Hn]%elem_of_retain. apply negb_true_iff, bool_decide_eq_false in Hn. done.
  - intros k. rewrite elem_of_app, Hin, elem_of_retain, negb_true_iff, bool_decide_eq_false, Hk. destruct (decide (k_path k = pth)); tauto.
Qed.

Lemma invalidate_path_spec c ph fh resv pth : cache_ok cap c ph fh resv → let c' := invalidate_path c pth in
  cache_ok cap c' ph fh resv ∧ shrinks c c' ∧ ∀ k, resident c' k = if decide (k_path k = pth) then None else resident c k.
Proof.
  intros H. unfold invalidate_path. destruct (pages c !! pth) as [m|] eqn:Hm.
  2: { split; [done|]. split; [done|]. intros k. case_decide as Hk; [|done]. unfold resident. by rewrite Hk, Hm. }
  set (q := retain_keys _ _). set (c1 := with_queues _ q). change ((map_to_list m).*2) with (path_values m).
  destruct H as [Hh Hne Hk Hc Hr Hle Hmiss]. pose proof (path_keys_split c pth m _ Hm Hk) as Hp.
  assert (length (path_keys pth m) = base.size m) as Hlk by (unfold path_keys; by rewrite length_fmap, length_map_to_list).
  assert (active q ++ deferred q = retain (λ k, negb (bool_decide (k_path k = pth))) (queued c)) as Hq by (unfold q, queued; simpl; by rewrite retain_app).
  assert (Z.of_nat (length (queued c)) = Z.of_nat (base.size m) + Z.of_nat (length (active q ++ deferred q))) as Hlen.
  { rewrite Hq, <- Hlk. apply Permutation_length in Hp. rewrite length_app in Hp. lia. }
  assert (cache_ok cap c1 (bumps ph (path_values m)) fh resv) as Hok.
  { assert (wrap64 (page_count c - Z.of_nat (base.size m)) = page_count c - Z.of_nat (base.size m)) as Hw by (apply wrap64_small; unfold is_usize; lia).
    split; unfold c1; simpl; rewrite ?Hw; try done; [| | |change (queued _) with (active q ++ deferred q); lia|lia].
    - apply (heap_ok_index (with_pages c (delete pth (pages c)))); try done. by apply delete_path_ok.
    - intros p m'. simpl. intros [_ ?]%lookup_delete_Some. by apply (Hne p).
    - change (queued _) with (active q ++ deferred q). rewrite Hq. destruct Hk as [Hnd Hk]. split; [by apply retain_NoDup|]. intros k.
      change (resident _ k) with (resident (with_pages c (delete pth (pages c))) k). rewrite elem_of_retain, Hk, resident_deleted, negb_true_iff, bool_decide_eq_false.
      case_decide; [split; [tauto|by intros [? ?]]|tauto]. }
  destruct (drops_spec c1 ph fh resv (path_values m) Hok) as (Hok' & Hsh & Hi). split; [done|]. split.
  - etrans; [|exact Hsh]. split; [done|]. intros k f. change (resident c1 k) with (resident (with_pages c (delete pth (pages c))) k).
    rewrite resident_deleted. by case_decide.
  - intros k. rewrite (index_resident _ _ k Hi). exact (resident_deleted c pth k).
Qed.
End ops.
