(* ===== verification/FileCacheLoad.v ===== *)
(** * Loading pages, and coherence with the file

    The pages of the cache agree with the files they come from: [coherent img c]
    says that a resident page holds what [img] gives for its key.  Loading with
    read-ahead, publishing what a read covered and reading cached pages keep
    this and return the bytes of the file. *)

From S2P Require Import Prelude Errno Bytes RefCount FrameAlloc FramePool FileCache FileCacheInv FileCacheOps.

(** ** Pages of a sequence of bytes *)

Definition page_slice (d : list Z) (i : Z) : list Z := slice d (i * PAGE_SIZE) PAGE_SIZE.
Definition padded (b : list Z) : list Z := b ++ zeros (PAGE_SIZE - data_len b).
(** The length and the frame of page [i] of a file. *)
Definition image (d : list Z) (i : Z) : Z * list Z := (data_len (page_slice d i), padded (page_slice d i)).

Lemma data_len_slice d s n : 0 ≤ s → 0 ≤ n → data_len (slice d s n) = Z.min n (Z.max 0 (data_len d - s)).
Proof. intros. unfold data_len, slice. rewrite length_take, length_drop. lia. Qed.
Lemma page_slice_len d i : 0 ≤ i → data_len (page_slice d i) = Z.min PAGE_SIZE (Z.max 0 (data_len d - i * PAGE_SIZE)).
Proof. intros. unfold page_slice. apply data_len_slice; unfold PAGE_SIZE; lia. Qed.
Lemma slice_slice d s n t m : 0 ≤ s → 0 ≤ t → 0 ≤ m → t + m ≤ n → slice (slice d s n) t m = slice d (s + t) m.
Proof.
  intros. unfold slice. rewrite skipn_firstn_comm, firstn_firstn, drop_drop. f_equal; [lia|]. f_equal. lia.
Qed.
(** Part of a longer sequence. *)
Lemma slice_app d e s n : 0 ≤ s → 0 ≤ n → s + n ≤ data_len d → slice (d ++ e) s n = slice d s n.
Proof.
  intros. unfold slice, data_len in *. rewrite drop_app_le by lia. rewrite take_app_le; [done|]. rewrite length_drop. lia.
Qed.
Lemma slice_short d s n m : 0 ≤ s → data_len d - s ≤ n → data_len d - s ≤ m → slice d s n = slice d s m.
Proof. intros. unfold slice, data_len in *. rewrite !take_ge; [done|..]; rewrite length_drop; lia. Qed.
Lemma splice_zeros b : data_len b ≤ PAGE_SIZE → splice (zeros PAGE_SIZE) 0 b = padded b.
Proof.
  intros Hb. unfold splice, padded, zeros. simpl (Z.to_nat 0). rewrite take_0, drop_replicate. simpl. do 2 f_equal. unfold data_len. lia.
Qed.
Lemma slice_nil d s n : data_len d ≤ s → slice d s n = [].
Proof. intros. unfold slice, data_len in *. rewrite drop_ge by lia. apply take_nil. Qed.

(** ** Coherence *)

Section load.
Context {Src : Type} `{!FrameSource Src} `{!FramePool Src} (cap : Z) (Hcap : cap ≤ usize_max).
Notation Cache := (FilePageCache Src).
Implicit Types (c : Cache) (k : FilePageKey) (f : Z) (ph fh : Z → nat) (resv : Z).

Context (img : FilePageKey → Z * list Z).

Definition good c f k : Prop := obj_data c f = Some (k, (img k).1, (img k).2).
Definition coherent c : Prop := ∀ k f, resident c k = Some f → good c f k.

Lemma good_kept c c' ph fh f k : good c f k → data_kept c c' → heap_ok c' ph fh → is_Some (objs c' !! f) → good c' f k.
Proof using Type.
  intros Hg Hd H Ho. destruct (obj_data_live c' ph fh f H Ho) as [d Hf]. unfold good in *. rewrite Hf. rewrite <- Hg. symmetry. by apply Hd.
Qed.
Lemma good_held c c' ph fh f k : good c f k → data_kept c c' → heap_ok c' ph fh → (0 < ph f)%nat → good c' f k.
Proof using Type. intros Hg Hd H Hf. eapply good_kept; [done..|]. by eapply held_obj. Qed.
Lemma good_key c f k p : good c f k → objs c !! f = Some p → key p = k.
Proof using Type. unfold good, obj_data. intros Hg Hp. rewrite Hp in Hg. simpl in Hg. destruct (frames c !! f); [|done]. simpl in Hg. congruence. Qed.
Lemma coherent_shrinks c c' ph fh : coherent c → shrinks c c' → heap_ok c' ph fh → coherent c'.
Proof using Type. intros Hc [Hd Hr] H k f Hk. eapply good_kept; [by apply Hc, Hr|done|done|]. by eapply resident_obj. Qed.
Lemma coherent_publish c c' ph fh f k : coherent c → data_kept c c' → heap_ok c' ph fh → good c f k →
  (∀ k', resident c' k' = if decide (k' = k) then Some f else resident c k') → coherent c'.
Proof using Type.
  intros Hc Hd H Hg Hr k' f' Hk. pose proof (resident_obj c' ph fh k' f' H Hk). rewrite Hr in Hk. case_decide; [|by eapply good_kept; eauto]. simplify_eq. by eapply good_kept.
Qed.
Lemma cache_ok_ext c ph ph' fh fh' resv : cache_ok cap c ph fh resv → (∀ g, ph g = ph' g) → (∀ g, fh g = fh' g) → cache_ok cap c ph' fh' resv.
Proof using Type. intros [] Hp Hf. split; try done. by apply (heap_ok_ext c ph ph' fh fh'). Qed.

(** A page that is held is published or dropped. *)
Lemma publish_good c ph fh resv f k : cache_ok cap c (bump ph f) fh resv → 1 ≤ resv → coherent c → good c f k →
  ∃ c' b, publish_reserved_page c f = Done (c', b) ∧ cache_ok cap c' ph fh (if b then resv - 1 else resv) ∧ coherent c' ∧ data_kept c c' ∧
    (b = false → is_Some (resident c k)) ∧ (b = true → resident c' k = Some f).
Proof using Type.
  intros H Hr Hc Hg. destruct (held_obj c _ fh f (ca_heap _ _ _ _ _ H)) as [p Hp]; [rewrite bump_eq; lia|].
  destruct (publish_spec cap c ph fh resv f p H Hr Hp) as (c' & b & Hpub & Hok & Hd & Hb). rewrite (good_key c f k p Hg Hp) in Hb.
  exists c', b. split; [done|]. split; [done|]. split; [|split; [done|]].
  - destruct b; destruct Hb as [Hn Hb].
    + eapply coherent_publish; [done..|apply Hok|done|done].
    + eapply coherent_shrinks; [done| |apply Hok]. split; [done|]. intros k' f'. by rewrite Hb.
  - destruct b; destruct Hb as [Hn Hb]; [|done]. split; [done|]. intros _. rewrite Hb. by rewrite decide_True.
Qed.

(** The pages of the read-ahead: held, good and of one path. *)
Definition prepared c (pth : string) (fs : list Z) : Prop := ∀ f, f ∈ fs → ∃ k, k_path k = pth ∧ good c f k.
Lemma prepared_kept c c' ph fh pth fs gs : prepared c pth fs → data_kept c c' → heap_ok c' (bumps ph gs) fh → (∀ f, f ∈ gs → f ∈ fs) → prepared c' pth gs.
Proof using Type.
  intros Hp Hd H Hs f Hf. destruct (Hp f) as (k & Hk & Hg); [by apply Hs|]. exists k. split; [done|]. eapply good_held; [done..|]. by apply bumps_elem.
Qed.

Lemma data_kept_trans c1 c2 c3 : data_kept c1 c2 → data_kept c2 c3 → data_kept c1 c3.
Proof using Type. intros H1 H2 f d Hd. by apply H1, H2. Qed.
Lemma shrinks_data c c' : shrinks c c' → data_kept c c'.
Proof using Type. by intros [? _]. Qed.

Lemma readahead_loop_spec c ph fh resv pth rest : cache_ok cap c (bumps ph rest) fh resv → coherent c → prepared c pth rest →
  ∃ c', readahead_loop cap c pth rest = Done c' ∧ cache_ok cap c' ph fh resv ∧ coherent c' ∧ data_kept c c'.
Proof.
  revert c. induction rest as [|f rest IH]; intros c H Hc Hp; [exists c; split; [done|]; split; [done|]; split; [done|by intros ? ?]|].
  destruct (Hp f) as (k & Hk & Hg); [by left|]. cbn [readahead_loop].
  destruct (held_obj c _ fh f (ca_heap _ _ _ _ _ H)) as [p Hpf]; [simpl; rewrite bump_eq; lia|]. rewrite Hpf. cbn [mbind]. simpl.
  destruct (contains_page c pth (page_index (key p))).
  - destruct (drop_spec cap c (bumps ph rest) fh resv f H) as (H1 & Hs & _).
    destruct (IH (arc_drop c f) H1) as (c' & -> & ? & ? & ?).
    + eapply coherent_shrinks; [done..|apply H1].
    + eapply prepared_kept; [done|by apply shrinks_data|apply H1|]. intros; by right.
    + exists c'. split; [done|]. split; [done|]. split; [done|]. eapply data_kept_trans; [by apply shrinks_data|done].
  - destruct (reserve_page_or_evict_spec cap Hcap c _ fh resv H) as (c1 & b & -> & H1 & Hs & _). cbn [mbind]. simpl. destruct b; simpl.
    + assert (good c1 f k) as Hg1 by (eapply good_held; [done|by apply shrinks_data|apply H1|simpl; rewrite bump_eq; lia]).
      destruct (publish_good c1 (bumps ph rest) fh (resv + 1) f k H1) as (c2 & b & -> & H2 & Hc2 & Hd2 & _);
        [pose proof (ca_resv _ _ _ _ _ H); lia|eapply coherent_shrinks; [done..|apply H1]|done|]. cbn [mbind]. simpl.
      set (c3 := if b then c2 else release_page_reservation c2). assert (cache_ok cap c3 (bumps ph rest) fh resv ∧ shrinks c2 c3) as [H3 Hs3].
      { unfold c3. destruct b; [split; [|done]; by replace (resv + 1 - 1) with resv in H2 by lia|].
        pose proof (ca_resv _ _ _ _ _ H). replace resv with (resv + 1 - 1) by lia. apply release_spec; [done|done|lia]. }
      assert (data_kept c c3) as Hd3 by (eapply data_kept_trans; [by apply shrinks_data|]; eapply data_kept_trans; [done|by apply shrinks_data]).
      destruct (IH c3 H3) as (c' & -> & ? & ? & ?).
      * eapply coherent_shrinks; [done..|apply H3].
      * eapply prepared_kept; [done|done|apply H3|]. intros; by right.
      * exists c'. split; [done|]. split; [done|]. split; [done|]. by eapply data_kept_trans.
    + rewrite Z.add_0_r in H1. destruct (drops_spec cap c1 ph fh resv (f :: rest) H1) as (H2 & Hs2 & _).
      eexists. split; [done|]. split; [exact H2|]. split.
      * eapply coherent_shrinks; [eapply coherent_shrinks; [done|exact Hs|apply H1]|exact Hs2|apply H2].
      * apply shrinks_data. by etrans.
Qed.

(** The tail of [get_or_load]. *)
Lemma publish_loaded_spec c ph fh resv pth idx page rest : cache_ok cap c (bumps ph (page :: rest)) fh resv → coherent c →
  good c page (mkKey pth idx) → prepared c pth rest →
  ∃ c' f, publish_loaded cap c pth idx page rest = Done (c', f) ∧ cache_ok cap c' (bump ph f) fh resv ∧ coherent c' ∧ good c' f (mkKey pth idx).
Proof.
  intros H Hc Hg Hp. unfold publish_loaded. pose proof (lookup_spec cap c _ fh resv pth idx H) as Hl. destruct (lookup_page c pth idx) as [c0 [e|]].
  - destruct Hl as (He & H0 & Hs & Hi). assert (cache_ok cap c0 (bumps (bump ph e) (page :: rest)) fh resv) as H1.
    { eapply cache_ok_ext; [exact H0| |done]. intros g. symmetry. exact (bumps_bump ph (page :: rest) e g). }
    destruct (drops_spec cap c0 (bump ph e) fh resv (page :: rest) H1) as (H2 & Hs2 & _). eexists _, e. split; [done|]. split; [exact H2|].
    assert (coherent (foldl arc_drop c0 (page :: rest))) as Hc2 by (eapply coherent_shrinks; [exact Hc|etrans; [exact Hs|exact Hs2]|apply H2]).
    split; [exact Hc2|]. eapply good_held; [by apply (Hc _ e He)| |apply H2|rewrite bump_eq; lia]. apply shrinks_data. by etrans.
  - destruct Hl as [-> Hnone]. destruct (reserve_page_or_evict_spec cap Hcap c _ fh resv H) as (c1 & b & -> & H1 & Hs & _). cbn [mbind]. simpl. destruct b; simpl.
    + pose proof (ca_resv _ _ _ _ _ H) as Hr0. assert (good c1 page (mkKey pth idx)) as Hg1 by (eapply good_held; [done|by apply shrinks_data|apply H1|simpl; rewrite bump_eq; lia]).
      assert (coherent c1) as Hc1 by (eapply coherent_shrinks; [done..|apply H1]).
      assert (cache_ok cap (arc_clone c1 page) (bump (bumps ph (page :: rest)) page) fh (resv + 1)) as H1'.
      { eapply cache_ok_heap; [done|apply arc_clone_ok; [apply H1|eapply held_obj; [apply H1|simpl; rewrite bump_eq; lia]]|apply arc_clone_index]. }
      pose proof (arc_clone_shrinks c1 page) as Hs1. assert (good (arc_clone c1 page) page (mkKey pth idx)) as Hg1'.
      { eapply good_held; [exact Hg1|by apply shrinks_data|apply H1'|rewrite bump_eq; lia]. }
      destruct (publish_good (arc_clone c1 page) _ fh (resv + 1) page (mkKey pth idx) H1') as (c2 & b & -> & H2 & Hc2 & Hd2 & Hb1 & Hb2);
        [lia|eapply coherent_shrinks; [done..|apply H1']|done|]. cbn [mbind]. simpl.
      destruct b; simpl; [|destruct (Hb1 eq_refl) as [e He]; apply Hs1, Hs in He; congruence].
      assert (cache_ok cap c2 (bumps (bump ph page) rest) fh resv) as H2'.
      { eapply cache_ok_ext; [replace resv with (resv + 1 - 1) by lia; exact H2| |done]. intros g. symmetry. apply bumps_bump. }
      assert (data_kept c c2) as Hd by (eapply data_kept_trans; [|exact Hd2]; apply shrinks_data; by etrans).
      destruct (readahead_loop_spec c2 (bump ph page) fh resv pth rest H2') as (c' & -> & H3 & Hc3 & Hd3); [done|eapply prepared_kept; [done|done|apply H2'|done]|].
      eexists _, page. split; [done|]. split; [done|]. split; [done|]. eapply good_held; [exact Hg|by eapply data_kept_trans|apply H3|rewrite bump_eq; lia].
    + rewrite Z.add_0_r in H1. assert (cache_ok cap c1 (bumps (bump ph page) rest) fh resv) as H1'.
      { eapply cache_ok_ext; [exact H1| |done]. intros g. symmetry. apply bumps_bump. }
      destruct (drops_spec cap c1 (bump ph page) fh resv rest H1') as (H2 & Hs2 & _). eexists _, page. split; [done|]. split; [exact H2|].
      assert (shrinks c (foldl arc_drop c1 rest)) as Hs' by (by etrans). split; [eapply coherent_shrinks; [exact Hc|exact Hs'|apply H2]|].
      eapply good_held; [exact Hg|by apply shrinks_data|apply H2|rewrite bump_eq; lia].
Qed.

(** ** Reading into fresh frames *)

(** Nothing that exists changes. *)
Definition grows c c' : Prop := index c' = index c ∧ ∀ g d, obj_data c g = Some d → obj_data c' g = Some d.
Lemma grows_refl c : grows c c.
Proof using Type. by split. Qed.
Lemma grows_trans c1 c2 c3 : grows c1 c2 → grows c2 c3 → grows c1 c3.
Proof using Type. intros [I1 D1] [I2 D2]. split; [by rewrite I2|auto]. Qed.
Lemma coherent_grows c c' : coherent c → grows c c' → coherent c'.
Proof using Type. intros Hc [Hi Hd] k f Hk. apply Hd, Hc. by rewrite <- (index_resident c c' k Hi). Qed.

(** A frame that belongs to no page, with its bytes. *)
Definition raw c f (b : list Z) : Prop := objs c !! f = None ∧ ∃ n, frames c !! f = Some (mkFrame b n).

(** Changing frames of no page. *)
Lemma raw_grows c f fs src : objs c !! f = None → (∀ g, g ≠ f → fs !! g = frames c !! g) → grows c (with_frames c fs src).
Proof using Type.
  intros Ho Hf. split; [done|]. intros g d. unfold obj_data. simpl. destruct (decide (g = f)) as [->|Hn]; [by rewrite Ho|]. by rewrite Hf.
Qed.
Lemma frame_drop_grows c f : objs c !! f = None → grows c (frame_drop c f).
Proof using Type.
  intros Ho. unfold frame_drop. destruct (frames c !! f); [|apply grows_refl]. destruct (_ =? _)%nat; (eapply raw_grows; [exact Ho|]); intros g Hg; [by rewrite lookup_delete_ne|by rewrite lookup_insert_ne].
Qed.
Lemma drop_frames_grows c fs : (∀ f, f ∈ fs → objs c !! f = None) → grows c (foldl frame_drop c fs).
Proof using Type.
  revert c. induction fs as [|f fs IH]; intros c Hf; [apply grows_refl|]. simpl. eapply grows_trans; [apply frame_drop_grows, Hf; by left|].
  apply IH. intros g Hg. rewrite frame_drop_objs. apply Hf. by right.
Qed.

Lemma frame_alloc_grows c ph fh f c' : heap_ok c ph fh → frame_alloc c = Some (f, c') → grows c c' ∧ raw c' f (zeros PAGE_SIZE) ∧ objs c' = objs c ∧
  frames c !! f = None ∧ (∀ g, g ≠ f → frames c' !! g = frames c !! g).
Proof using Type.
  intros H Ha. destruct (frame_alloc_ok c ph fh f c' H Ha) as (_ & Ho & Hf & Hf'). unfold frame_alloc in Ha.
  destruct (fs_alloc (source c)) as [[g s]|]; [|done]. injection Ha as -> <-. split; [|split; [|split; [done|split; [done|]]]].
  - apply (raw_grows c f); [done|]. intros g Hg. by rewrite lookup_insert_ne.
  - split; [done|]. eauto.
  - intros g Hg. simpl. by rewrite lookup_insert_ne.
Qed.

(** The frames a load has taken. *)
Record taken c0 c ph fh (fs : list Z) : Prop := {
  tk_heap : heap_ok c ph (bumps fh fs);
  tk_nodup : NoDup fs;
  tk_raw f : f ∈ fs → raw c f (zeros PAGE_SIZE);
  tk_grows : grows c0 c }.

Lemma alloc_more_spec n c0 c ph fh fs : taken c0 c ph fh fs → let r := alloc_more n c fs in
  taken c0 r.1 ph fh r.2 ∧ (length r.2 ≤ length fs + n)%nat ∧ ∃ more, r.2 = fs ++ more.
Proof using Type.
  revert c fs. induction n as [|n IH]; intros c fs H; simpl; [split; [done|]; split; [lia|]; exists []; by rewrite app_nil_r|].
  destruct (frame_alloc c) as [[f c']|] eqn:Ha; [|simpl; split; [done|]; split; [lia|]; exists []; by rewrite app_nil_r].
  destruct H as [Hh Hnd Hraw Hg]. destruct (frame_alloc_ok c _ _ f c' Hh Ha) as (Hh' & _). destruct (frame_alloc_grows c _ _ f c' Hh Ha) as (Hg' & Hr & Ho & Hnf & Hfs).
  assert (f ∉ fs) as Hfn by (intros Hin; destruct (Hraw f Hin) as [_ [? ?]]; congruence).
  destruct (IH c' (fs ++ [f])) as (Ht & Hl & more & Hm).
  - split.
    + eapply heap_ok_ext; [exact Hh'|done|]. intros g. rewrite bumps_app. symmetry. apply (bumps_bump fh fs f g).
    + apply NoDup_app. split; [done|]. split; [|apply NoDup_singleton]. intros g Hgf ->%list_elem_of_singleton. done.
    + intros g [Hgf| ->%list_elem_of_singleton]%elem_of_app; [|done]. destruct (Hraw g Hgf) as [? [m ?]]. split; [by rewrite Ho|].
      exists m. rewrite Hfs; [done|]. by intros ->.
    + by eapply grows_trans.
  - split; [done|]. rewrite length_app in Hl. simpl in Hl. split; [lia|]. exists (f :: more). by rewrite Hm, <- app_assoc.
Qed.

Lemma page_slice_buf d e n : 0 ≤ n → slice (d ++ e) (n * PAGE_SIZE) (page_len (data_len d) n) = page_slice d n.
Proof using Type.
  intros Hn. unfold page_len, page_slice, saturating_sub. assert (0 ≤ data_len d) by (unfold data_len; lia).
  destruct (decide (data_len d ≤ n * PAGE_SIZE)) as [Hle|Hgt].
  - rewrite (slice_nil d) by done. rewrite Z.max_l, Z.min_l by (unfold PAGE_SIZE in *; lia). done.
  - rewrite slice_app by (unfold PAGE_SIZE in *; lia).
    destruct (decide (data_len d - n * PAGE_SIZE ≤ PAGE_SIZE)); [apply slice_short; unfold PAGE_SIZE in *; lia|].
    f_equal. unfold PAGE_SIZE in *. lia.
Qed.
Lemma page_len_slice d n : 0 ≤ n → page_len (data_len d) n = data_len (page_slice d n).
Proof using Type. intros. rewrite page_slice_len by done. unfold page_len, saturating_sub. lia. Qed.
Lemma page_slice_empty d n m : 0 ≤ n → n ≤ m → data_len (page_slice d n) = 0 → page_slice d m = [].
Proof using Type.
  intros Hn Hm. rewrite page_slice_len by done. intros H. unfold page_slice. apply slice_nil. unfold PAGE_SIZE in *. lia.
Qed.

Lemma frame_write_raw c f b : raw c f (zeros PAGE_SIZE) → data_len b ≤ PAGE_SIZE → let c' := frame_write c f b in
  raw c' f (padded b) ∧ objs c' = objs c ∧ grows c c' ∧ (∀ g, g ≠ f → frames c' !! g = frames c !! g).
Proof using Type.
  intros [Ho [m Hm]] Hb. unfold frame_write. rewrite Hm. simpl. rewrite splice_zeros by done.
  assert (∀ g, g ≠ f → <[f := mkFrame (padded b) m]> (frames c) !! g = frames c !! g) as Hne by (intros g Hg; by rewrite lookup_insert_ne).
  split; [|split; [done|]; split; [by apply (raw_grows c f)|done]]. split; [done|]. exists m. simpl. by rewrite lookup_insert_eq.
Qed.

Lemma fill_frames_spec d e fs c ph fh n : heap_ok c ph fh → NoDup fs → (∀ f, f ∈ fs → raw c f (zeros PAGE_SIZE)) → 0 ≤ n →
  let c' := fill_frames c (d ++ e) (data_len d) n fs in
  heap_ok c' ph fh ∧ grows c c' ∧ (∀ j f, fs !! j = Some f → raw c' f (padded (page_slice d (n + Z.of_nat j)))) ∧
  (∀ g b, g ∉ fs → raw c g b → raw c' g b).
Proof using Type.
  revert c n. induction fs as [|f fs IH]; intros c n H Hnd Hraw Hn; cbn [fill_frames].
  { split; [done|]. split; [apply grows_refl|]. split; [by intros ? ?|done]. }
  apply NoDup_cons in Hnd as [Hf Hnd]. rewrite page_len_slice by done. destruct (Z.eqb_spec (data_len (page_slice d n)) 0) as [E|E].
  - split; [done|]. split; [apply grows_refl|]. split; [|done]. intros j g Hj. rewrite (page_slice_empty d n) by (done || lia).
    apply Hraw. by eapply list_elem_of_lookup_2.
  - rewrite <- page_len_slice, page_slice_buf by done. assert (data_len (page_slice d n) ≤ PAGE_SIZE) as Hle by (rewrite page_slice_len by done; lia).
    destruct (frame_write_raw c f (page_slice d n)) as (Hr & Ho & Hg & Hne); [apply Hraw; by left|done|].
    assert (∀ g b, g ≠ f → raw c g b → raw (frame_write c f (page_slice d n)) g b) as Hother.
    { intros g b Hgf [? [m ?]]. split; [by rewrite Ho|]. exists m. by rewrite Hne. }
    destruct (IH (frame_write c f (page_slice d n)) (n + 1)) as (H' & Hg' & Hj' & Hk').
    + by apply frame_write_ok.
    + done.
    + intros g Hgf. apply Hother; [by intros ->|]. apply Hraw. by right.
    + lia.
    + split; [done|]. split; [by eapply grows_trans|]. split.
      * intros [|j] g; simpl; [intros [= <-]; rewrite Z.add_0_r; by apply Hk'|]. intros Hj. replace (n + Z.of_nat (S j)) with (n + 1 + Z.of_nat j) by lia. by apply Hj'.
      * intros g b [Hgf Hgn]%not_elem_of_cons Hrg. apply Hk'; [done|]. by apply Hother.
Qed.

Lemma make_pages_spec pth idx d fs c ph fh n : heap_ok c ph (bumps fh fs) → NoDup fs → 0 ≤ n → 0 ≤ idx → idx + n + Z.of_nat (length fs) ≤ usize_max →
  (∀ j f, fs !! j = Some f → raw c f (padded (page_slice d (n + Z.of_nat j)))) → let r := make_pages c pth idx (data_len d) n fs in
  heap_ok r.1 (bumps ph r.2) fh ∧ grows c r.1 ∧ (n = 0 → fs ≠ [] → r.2 ≠ []) ∧ (length r.2 ≤ length fs)%nat ∧
  ∀ j f, r.2 !! j = Some f → obj_data r.1 f = Some (mkKey pth (idx + n + Z.of_nat j), (image d (n + Z.of_nat j)).1, (image d (n + Z.of_nat j)).2).
Proof using Type.
  revert c ph n. induction fs as [|f fs IH]; intros c ph n H Hnd Hn Hidx Hu Hraw.
  { simpl. split; [done|]. split; [apply grows_refl|]. split; [done|]. split; [done|]. by intros ? ?. }
  assert (∀ g, g ∈ f :: fs → objs c !! g = None) as Hobj by (intros g [j Hj]%list_elem_of_lookup; by apply (Hraw j)).
  cbn [make_pages]. rewrite page_len_slice by done. destruct (negb (n =? 0) && _) eqn:Hstop.
  - cbn [fst snd]. split; [exact (drop_frames_ok c ph fh (f :: fs) H)|]. split; [by apply (drop_frames_grows c (f :: fs))|]. split; [|split; [simpl; lia|by intros ? ?]].
    by intros ->.
  - simpl in Hu. unfold checked_add. rewrite (proj2 (Z.leb_le (idx + n) usize_max)) by lia. apply NoDup_cons in Hnd as [Hf Hnd].
    destruct (Hraw 0%nat f eq_refl) as [Ho [m Hm]]. rewrite Z.add_0_r in Hm.
    assert (0 ≤ data_len (page_slice d n) ≤ PAGE_SIZE) as Hle by (rewrite page_slice_len by done; unfold PAGE_SIZE; lia).
    set (c1 := new_page c f (mkKey pth (idx + n)) (data_len (page_slice d n))).
    assert (grows c c1) as Hg1.
    { split; [done|]. intros g b Hb. unfold c1. rewrite new_page_data_ne; [done|]. intros ->. by rewrite (obj_data_None c f) in Hb. }
    destruct (IH c1 (bump ph f) (n + 1)) as (H2 & Hg2 & _ & Hl2 & Hd2); try done.
    + apply new_page_ok; [exact H|done|done].
    + lia.
    + lia.
    + intros j g Hj. destruct (Hraw (S j) g Hj) as [Hg0 [m' Hm']]. replace (n + 1 + Z.of_nat j) with (n + Z.of_nat (S j)) by lia. split; [|by exists m'].
      unfold c1. simpl. rewrite lookup_insert_ne; [done|]. intros ->. apply Hf. by eapply list_elem_of_lookup_2.
    + destruct (make_pages c1 pth idx (data_len d) (n + 1) fs) as [c2 ids]. cbn [fst snd] in *. split; [|split; [by eapply grows_trans|split; [done|split; [simpl; lia|]]]].
      * eapply heap_ok_ext; [exact H2| |done]. intros g. apply bumps_bump.
      * intros [|j] g; simpl.
        -- intros [= <-]. rewrite !Z.add_0_r. apply Hg2. unfold c1. by rewrite (new_page_data c f _ _ _ Hm).
        -- intros Hj. replace (idx + n + Z.of_nat (S j)) with (idx + (n + 1) + Z.of_nat j) by lia. replace (n + Z.of_nat (S j)) with (n + 1 + Z.of_nat j) by lia. by apply Hd2.
Qed.

(** ** Loading from an inode *)

Section inode.
Context {I : Type} `{!Inode I} (i : I) (ct : list Z).
Context (Hsize : size i = data_len ct).
Context (Hread : ∀ off n b, 0 ≤ off → 0 < n → read_at i off n = Ok b → b = slice ct off n).
Context (Himg : ∀ j, 0 ≤ j → img (mkKey (cache_path i) j) = image ct j).

Lemma image_of_read idx n j : 0 ≤ idx → 0 ≤ j < n → image (slice ct (idx * PAGE_SIZE) (n * PAGE_SIZE)) j = image ct (idx + j).
Proof using Type.
  intros Hidx Hj. unfold image, page_slice. rewrite slice_slice by (unfold PAGE_SIZE; nia).
  by replace (idx * PAGE_SIZE + j * PAGE_SIZE) with ((idx + j) * PAGE_SIZE) by lia.
Qed.

Lemma page_slice_nil j : page_slice [] j = [].
Proof using Type. unfold page_slice, slice. by rewrite drop_nil, take_nil. Qed.

Lemma read_frames_spec c0 c ph fh fs off : taken c0 c ph fh fs → fs ≠ [] → 0 ≤ off →
  match read_frames c i off fs with
  | (c', Ok n) => n = data_len (slice ct off (Z.of_nat (length fs) * PAGE_SIZE)) ∧ heap_ok c' ph (bumps fh fs) ∧ grows c c' ∧
      ∀ j f, fs !! j = Some f → raw c' f (padded (page_slice (slice ct off (Z.of_nat (length fs) * PAGE_SIZE)) (Z.of_nat j)))
  | (c', Err e) => c' = c ∧ ∃ off n, read_at i off n = Err e
  end.
Proof using Hread Hsize.
  intros [Hh Hnd Hraw Hg] Hne Hoff. unfold read_frames. rewrite Hsize. destruct (Z.leb_spec (data_len ct) off) as [Hle|Hlt].
  { rewrite slice_nil by done. split; [done|]. split; [done|]. split; [apply grows_refl|]. intros j f Hj. rewrite page_slice_nil.
    apply Hraw. by eapply list_elem_of_lookup_2. }
  destruct fs as [|f [|f2 fs]]; [done| |].
  - destruct (read_at i off PAGE_SIZE) as [b|e] eqn:Hr; [|eauto]. apply Hread in Hr; [|done|unfold PAGE_SIZE; lia].
    replace (Z.of_nat (length [f]) * PAGE_SIZE) with PAGE_SIZE by (simpl; lia). rewrite <- Hr.
    assert (data_len b ≤ PAGE_SIZE) as Hb by (rewrite Hr, data_len_slice by (unfold PAGE_SIZE; lia); lia).
    destruct (frame_write_raw c f b) as (Hr' & _ & Hg' & _); [apply Hraw; by left|done|].
    split; [done|]. split; [by apply frame_write_ok|]. split; [done|]. intros [|j] g; [|by rewrite lookup_cons, lookup_nil]. intros [= <-].
    assert (page_slice b (Z.of_nat 0) = b) as ->; [|done]. unfold page_slice, slice, data_len in *. simpl. rewrite drop_0. apply take_ge. unfold PAGE_SIZE in *. lia.
  - set (fs' := f :: f2 :: fs) in *. set (n := Z.of_nat (length fs') * PAGE_SIZE). assert (0 < n) as Hn by (unfold n, fs', PAGE_SIZE; simpl; lia).
    destruct (read_at i off n) as [b|e] eqn:Hr; [|eauto]. apply Hread in Hr; [|done|done]. rewrite <- Hr.
    destruct (fill_frames_spec b (zeros (n - data_len b)) fs' c ph (bumps fh fs') 0) as (H' & Hg' & Hj & _); try done.
Qed.

Lemma wanted_pages_range c idx : 1 ≤ wanted_pages c i idx ≤ 4.
Proof using Type. unfold wanted_pages, SEQUENTIAL_READAHEAD_MAX_PAGES. lia. Qed.

(** Why a load fails. *)
Definition load_error c (e : SysErrNo) : Prop := (e = ENOMEM ∧ fs_alloc (source c) = None) ∨ ∃ off n, read_at i off n = Err e.

Lemma load_pages_spec c ph fh idx : heap_ok c ph fh → 0 ≤ idx → (idx + 4) * PAGE_SIZE ≤ usize_max →
  ∃ c' r, load_pages c i idx = Done (c', r) ∧ grows c c' ∧
    match r with
    | Err e => heap_ok c' ph fh ∧ load_error c e
    | Ok (page, rest) => heap_ok c' (bumps ph (page :: rest)) fh ∧ good c' page (mkKey (cache_path i) idx) ∧ prepared c' (cache_path i) rest
    end.
Proof using Hread Hsize Himg.
  intros H Hidx Hu. unfold load_pages. destruct (frame_alloc c) as [[f c1]|] eqn:Ha.
  2: { eexists _, _. split; [done|]. split; [apply grows_refl|]. split; [done|]. left. split; [done|]. unfold frame_alloc in Ha. by destruct (fs_alloc (source c)) as [[? ?]|]. }
  destruct (frame_alloc_ok c ph fh f c1 H Ha) as (H1 & _). destruct (frame_alloc_grows c ph fh f c1 H Ha) as (Hg1 & Hr1 & _).
  assert (taken c c1 ph fh [f]) as Ht.
  { split; [exact H1|apply NoDup_singleton| |done]. by intros g ->%list_elem_of_singleton. }
  pose proof (wanted_pages_range c idx) as Hw.
  destruct (alloc_more_spec (Z.to_nat (wanted_pages c i idx - 1)) c c1 ph fh [f] Ht) as (Ht2 & Hl & more & Hm).
  destruct (alloc_more (Z.to_nat (wanted_pages c i idx - 1)) c1 [f]) as [c2 fs]. cbn [fst snd] in *.
  assert (fs ≠ []) as Hne by (by rewrite Hm). assert (length fs ≤ 4)%nat as Hl4 by (simpl in Hl; lia).
  rewrite wrap64_small by (unfold is_usize, PAGE_SIZE in *; lia).
  pose proof (read_frames_spec c c2 ph fh fs (idx * PAGE_SIZE) Ht2 Hne) as Hrd. destruct (read_frames c2 i (idx * PAGE_SIZE) fs) as [c3 [n|e]].
  2: { destruct Hrd as [-> He]; [unfold PAGE_SIZE; lia|]. eexists _, _. split; [done|]. split; [|split].
    - eapply grows_trans; [apply Ht2|]. apply drop_frames_grows. intros g Hgf. by apply Ht2.
    - apply drop_frames_ok, Ht2.
    - by right. }
  destruct Hrd as (-> & H3 & Hg3 & Hraw3); [unfold PAGE_SIZE; lia|]. set (d := slice ct _ _) in *.
  destruct (make_pages_spec (cache_path i) idx d fs c3 ph fh 0 H3) as (H4 & Hg4 & Hne4 & Hl5 & Hd4); try done; [apply Ht2|unfold PAGE_SIZE in *; lia|].
  destruct (make_pages c3 (cache_path i) idx (data_len d) 0 fs) as [c4 ids]. cbn [fst snd] in *.
  assert (∀ j g, ids !! j = Some g → good c4 g (mkKey (cache_path i) (idx + Z.of_nat j))) as Hgood.
  { intros j g Hj. unfold good. rewrite (Hd4 j g Hj). rewrite Himg by lia. pose proof (lookup_lt_Some _ _ _ Hj).
    rewrite !Z.add_0_l, Z.add_0_r. unfold d. rewrite image_of_read by lia. done. }
  destruct ids as [|page rest]; [by destruct Hne4|]. eexists _, _. split; [done|]. split; [|split; [exact H4|split]].
  - eapply grows_trans; [apply Ht2|]. by eapply grows_trans.
  - rewrite <- (Z.add_0_r idx). by apply (Hgood 0%nat).
  - intros g [j Hj]%list_elem_of_lookup. eexists. split; [|by apply (Hgood (S j))]. done.
Qed.

(** [get_or_load] returns a page that holds what the file has there. *)
Lemma get_or_load_spec c ph fh resv idx : cache_ok cap c ph fh resv → coherent c → 0 ≤ idx → (idx + 4) * PAGE_SIZE ≤ usize_max →
  ∃ c' r, get_or_load cap c i idx = Done (c', r) ∧ coherent c' ∧
    match r with
    | Ok f => cache_ok cap c' (bump ph f) fh resv ∧ good c' f (mkKey (cache_path i) idx)
    | Err e => cache_ok cap c' ph fh resv ∧ load_error c e ∧ index c' = index c
    end.
Proof.
  intros H Hc Hidx Hu. unfold get_or_load. pose proof (lookup_spec cap c ph fh resv (cache_path i) idx H) as Hl.
  destruct (lookup_page c (cache_path i) idx) as [c0 [f|]].
  - destruct Hl as (Hf & H0 & Hs & Hi). eexists _, _. split; [done|]. split; [eapply coherent_shrinks; [done..|apply H0]|]. split; [done|].
    eapply good_held; [by apply Hc|by apply shrinks_data|apply H0|rewrite bump_eq; lia].
  - destruct Hl as [-> Hn]. destruct (load_pages_spec c ph fh idx (ca_heap _ _ _ _ _ H) Hidx Hu) as (c1 & r & -> & Hg & Hr). cbn [mbind]. simpl.
    assert (coherent c1) as Hc1 by (by eapply coherent_grows). destruct r as [[page rest]|e].
    + destruct Hr as (H1 & Hgp & Hpr). destruct (publish_loaded_spec c1 ph fh resv (cache_path i) idx page rest) as (c' & f & -> & H2 & Hc2 & Hg2); try done.
      { eapply cache_ok_heap; [done|exact H1|apply Hg]. }
      cbn [mbind]. simpl. eexists _, _. done.
    + destruct Hr as [H1 He]. eexists _, _. split; [done|]. split; [done|]. split; [|split; [done|apply Hg]]. eapply cache_ok_heap; [done|exact H1|apply Hg].
Qed.
End inode.

(** ** Publishing what a read covered *)

Lemma page_slice_short d idx : 0 ≤ idx → slice d (idx * PAGE_SIZE) (data_len (page_slice d idx)) = page_slice d idx.
Proof using Type.
  intros Hi. rewrite page_slice_len by done. unfold page_slice. assert (0 ≤ data_len d) by (unfold data_len; lia).
  destruct (decide (data_len d - idx * PAGE_SIZE ≤ PAGE_SIZE)); [|f_equal; unfold PAGE_SIZE in *; lia].
  apply slice_short; unfold PAGE_SIZE in *; lia.
Qed.

Section insert.
Context (pth : string) (ct : list Z) (Himg : ∀ j, 0 ≤ j → img (mkKey pth j) = image ct j) (Hct : data_len ct ≤ i64_max).

Lemma insert_one_spec c ph fh resv offset n idx : cache_ok cap c ph fh resv → coherent c → 0 ≤ offset → 0 ≤ n → offset + n ≤ data_len ct → 0 ≤ idx →
  ∃ c' b, insert_one cap c pth offset (slice ct offset n) (data_len ct) idx = Done (c', b) ∧ cache_ok cap c' ph fh resv ∧ coherent c'.
Proof using Hct Himg Hcap.
  intros H Hc Ho Hn Hon Hidx. unfold insert_one. assert (0 ≤ data_len ct) as H0 by (unfold data_len; lia).
  assert (Z.min PAGE_SIZE (saturating_sub (data_len ct) (saturating_mul idx PAGE_SIZE)) = data_len (page_slice ct idx)) as Hlen.
  { rewrite page_slice_len by done. unfold saturating_sub, saturating_mul, usize_max, i64_max, PAGE_SIZE in *. lia. }
  rewrite Hlen. pose proof (page_slice_len ct idx Hidx) as Hpl. destruct (Z.eqb_spec (data_len (page_slice ct idx)) 0) as [E|E]; [by eexists _, _|].
  assert (saturating_mul idx PAGE_SIZE = idx * PAGE_SIZE) as -> by (unfold saturating_mul, usize_max, i64_max, PAGE_SIZE in *; lia).
  cbn [orb]. destruct (Z.ltb_spec (idx * PAGE_SIZE) offset) as [|Hs]; [by eexists _, _|].
  destruct (checked_add (idx * PAGE_SIZE - offset) (data_len (page_slice ct idx))) as [e|] eqn:He; [|by eexists _, _].
  assert (e = idx * PAGE_SIZE - offset + data_len (page_slice ct idx)) as -> by (unfold checked_add in He; destruct (_ <=? _); by simplify_eq).
  rewrite data_len_slice by done. destruct (Z.ltb_spec (Z.min n (Z.max 0 (data_len ct - offset))) (idx * PAGE_SIZE - offset + data_len (page_slice ct idx))) as [|Hfit]; [by eexists _, _|].
  destruct (contains_page c pth idx); [by eexists _, _|].
  destruct (reserve_page_or_evict_spec cap Hcap c ph fh resv H) as (c1 & b & -> & H1 & Hs1 & _). cbn [mbind]. simpl.
  assert (coherent c1) as Hc1 by (eapply coherent_shrinks; [done..|apply H1]).
  destruct b; simpl; [|rewrite Z.add_0_r in H1; by eexists _, _]. pose proof (ca_resv _ _ _ _ _ H) as Hr0.
  destruct (frame_alloc c1) as [[f c2]|] eqn:Ha.
  2: { destruct (release_spec cap Hcap c1 ph fh (resv + 1) H1) as [H2 Hs2]; [lia|]. replace (resv + 1 - 1) with resv in H2 by lia.
    eexists _, _. split; [done|]. split; [exact H2|]. eapply coherent_shrinks; [done..|apply H2]. }
  destruct (frame_alloc_ok c1 ph fh f c2 (ca_heap _ _ _ _ _ H1) Ha) as (H2 & _). destruct (frame_alloc_grows c1 ph fh f c2 (ca_heap _ _ _ _ _ H1) Ha) as (Hg2 & Hraw & _).
  assert (0 ≤ data_len (page_slice ct idx)) as Hpos by (unfold data_len; lia).
  rewrite slice_slice by lia. replace (offset + (idx * PAGE_SIZE - offset)) with (idx * PAGE_SIZE) by lia. rewrite page_slice_short by done.
  assert (data_len (page_slice ct idx) ≤ PAGE_SIZE) as Hle by lia.
  destruct (frame_write_raw c2 f (page_slice ct idx) Hraw Hle) as ([Ho3 [m Hm]] & _ & Hg3 & _).
  pose proof (frame_write_ok c2 ph (bump fh f) f (page_slice ct idx) H2 Hle) as H3. set (c3 := frame_write c2 f _) in *. set (k := mkKey pth idx).
  pose proof (new_page_ok c3 ph fh f k (data_len (page_slice ct idx)) H3 Ho3 ltac:(lia)) as H4. set (c4 := new_page c3 f k _) in *.
  assert (good c4 f k) as Hgood by (unfold good, k; rewrite Himg by done; exact (new_page_data c3 f k _ _ Hm)).
  assert (grows c1 c4) as Hg4.
  { eapply grows_trans; [exact Hg2|]. eapply grows_trans; [exact Hg3|]. split; [done|]. intros g d Hd. unfold c4. rewrite new_page_data_ne; [done|].
    intros ->. by rewrite obj_data_None in Hd. }
  destruct (publish_good c4 ph fh (resv + 1) f k) as (c5 & b & -> & H5 & Hc5 & _); [|lia|by eapply coherent_grows|done|].
  { eapply cache_ok_heap; [exact H1|exact H4|apply Hg4]. }
  cbn [mbind]. simpl. eexists _, _. split; [done|]. destruct b; [by replace (resv + 1 - 1) with resv in H5 by lia|].
  destruct (release_spec cap Hcap c5 ph fh (resv + 1) H5) as [H6 Hs6]; [lia|]. replace (resv + 1 - 1) with resv in H6 by lia.
  split; [exact H6|]. eapply coherent_shrinks; [done..|apply H6].
Qed.

Lemma insert_read_range_spec c ph fh resv offset n : cache_ok cap c ph fh resv → coherent c → 0 ≤ offset → 0 ≤ n → offset + n ≤ data_len ct →
  ∃ c', insert_read_range cap c pth offset (slice ct offset n) (data_len ct) = Done c' ∧ cache_ok cap c' ph fh resv ∧ coherent c'.
Proof using Hct Himg Hcap.
  intros H Hc Ho Hn Hon. unfold insert_read_range. destruct (_ || _); [by eexists|].
  set (idxs := range_incl _ _). assert (∀ i, i ∈ idxs → 0 ≤ i) as Hi.
  { intros i. unfold idxs, range_incl. rewrite elem_of_seqZ. pose proof (Z.div_pos offset PAGE_SIZE Ho). unfold PAGE_SIZE in *. lia. }
  clearbody idxs. revert c H Hc. induction idxs as [|i idxs IH]; intros c H Hc; [by eexists|]. cbn [insert_loop].
  destruct (insert_one_spec c ph fh resv offset n i H Hc Ho Hn Hon) as (c1 & b & -> & H1 & Hc1); [apply Hi; by left|]. cbn [mbind]. simpl.
  destruct b; [|by eexists]. apply IH; [|done|done]. intros j Hj. apply Hi. by right.
Qed.

(** ** Reading cached pages *)

Lemma slice_snoc d s a b : 0 ≤ s → 0 ≤ a → 0 ≤ b → slice d s a ++ slice d (s + a) b = slice d s (a + b).
Proof using Type.
  intros. unfold slice. rewrite (Z2Nat.inj_add a b), (Z2Nat.inj_add s a) by lia. rewrite <- drop_drop. apply take_take_drop.
Qed.

(** The bytes of a good page are bytes of the file. *)
Lemma good_page c f idx p fr : good c f (mkKey pth idx) → 0 ≤ idx → objs c !! f = Some p → frames c !! f = Some fr →
  valid_len p = data_len (page_slice ct idx) ∧
  ∀ po n, 0 ≤ po → 0 ≤ n → po + n ≤ valid_len p → slice (f_bytes fr) po n = slice ct (idx * PAGE_SIZE + po) n.
Proof using Himg.
  unfold good, obj_data. intros Hg Hidx Hp Hf. rewrite Hp, Hf, Himg in Hg by done. simpl in Hg. injection Hg as Hk Hv Hb. split; [done|].
  intros po n Hpo Hn Hle. rewrite Hb, Hv in *. unfold padded. rewrite slice_app by done. unfold page_slice.
  rewrite page_slice_len in Hle by done. rewrite slice_slice; [done|unfold PAGE_SIZE; lia|done|done|lia].
Qed.

(** A page of the cache, looked up by the reader and given back. *)
Lemma lookup_good c ph fh resv idx c1 f : cache_ok cap c ph fh resv → coherent c → lookup_page c pth idx = (c1, Some f) →
  ∃ p fr, objs c1 !! f = Some p ∧ frames c1 !! f = Some fr ∧ good c1 f (mkKey pth idx) ∧
    cache_ok cap (arc_drop c1 f) ph fh resv ∧ coherent (arc_drop c1 f) ∧ index (arc_drop c1 f) = index c.
Proof using Type.
  intros H Hc Hl. pose proof (lookup_spec cap c ph fh resv pth idx H) as Hs. rewrite Hl in Hs. destruct Hs as (Hr & H1 & Hs & Hi).
  destruct (held_obj c1 _ fh f (ca_heap _ _ _ _ _ H1)) as [p Hp]; [rewrite bump_eq; lia|]. destruct (ho_framed c1 _ fh (ca_heap _ _ _ _ _ H1) f p Hp) as [[fr Hfr] _].
  destruct (drop_spec cap c1 ph fh resv f H1) as (H2 & Hs2 & Hi2). exists p, fr. split; [done|]. split; [done|]. split; [|split; [done|split; [|by rewrite Hi2]]].
  - eapply good_held; [by apply Hc|by apply shrinks_data|apply H1|rewrite bump_eq; lia].
  - eapply coherent_shrinks; [exact Hc|by etrans|apply H2].
Qed.

(** [buf] with its first [n] bytes read from [off]. *)
Definition read_into (buf : list Z) (off n : Z) : list Z := slice ct off n ++ drop (Z.to_nat n) buf.
Lemma read_into_more buf off n m : 0 ≤ off → 0 ≤ n → 0 ≤ m → data_len (slice ct off n) = n → n + m ≤ data_len buf → data_len (slice ct (off + n) m) = m →
  splice (read_into buf off n) n (slice ct (off + n) m) = read_into buf off (n + m).
Proof using Type.
  intros Ho Hn Hm Hl Hb Hlm. unfold read_into, splice. rewrite take_app_length' by (unfold data_len in Hl; lia).
  rewrite drop_app_ge by (unfold data_len in *; lia). rewrite drop_drop, <- slice_snoc by done. rewrite <- app_assoc. do 3 f_equal. unfold data_len in *. lia.
Qed.

Definition copy_inv c ph fh resv (buf : list Z) (offset : Z) (s : CopyState) : Prop :=
  cache_ok cap (cp_cache s) ph fh resv ∧ coherent (cp_cache s) ∧ index (cp_cache s) = index c ∧
  0 ≤ copied s ≤ data_len buf ∧ cp_buf s = read_into buf offset (copied s) ∧ data_len (slice ct offset (copied s)) = copied s ∧
  (cp_stop s = true → cp_miss s = true ∨ data_len ct ≤ offset + copied s) ∧ (cp_miss s = true → cp_stop s = true).

Lemma read_into_len buf off n : 0 ≤ n ≤ data_len buf → data_len (slice ct off n) = n → data_len (read_into buf off n) = data_len buf.
Proof using Type. unfold read_into, data_len. intros ? ?. rewrite length_app, length_drop. lia. Qed.

Lemma copy_round_spec c ph fh resv buf offset s : copy_inv c ph fh resv buf offset s → 0 ≤ offset → offset + data_len buf ≤ usize_max →
  cp_stop s = false → copied s < data_len buf →
  ∃ s', copy_round pth offset s = Done s' ∧ copy_inv c ph fh resv buf offset s' ∧ (cp_stop s' = true ∨ (cp_stop s' = false ∧ copied s < copied s')).
Proof using Himg.
  intros (H & Hc & Hi & Hr & Hb & Hl & Hst & Hms) Ho Hu Hgo Hlt. unfold copy_round, checked_add.
  rewrite (proj2 (Z.leb_le (offset + copied s) usize_max)) by lia. set (fo := offset + copied s). set (idx := fo / PAGE_SIZE). set (po := fo mod PAGE_SIZE).
  assert (0 ≤ idx ∧ 0 ≤ po < PAGE_SIZE ∧ fo = idx * PAGE_SIZE + po) as (Hidx & Hpo & Hfo).
  { unfold idx, po, PAGE_SIZE. pose proof (Z.div_pos fo 4096). pose proof (Z.mod_pos_bound fo 4096). pose proof (Z.div_mod fo 4096). lia. }
  destruct (lookup_page (cp_cache s) pth idx) as [c1 [f|]] eqn:Hlk.
  2: { pose proof (lookup_spec cap (cp_cache s) ph fh resv pth idx H) as Hs. rewrite Hlk in Hs. destruct Hs as [-> _].
    eexists. split; [done|]. split; [|by left]. unfold copy_inv. simpl. split; [done|]. split; [done|]. split; [done|]. split; [done|]. split; [done|]. split; [done|]. auto. }
  destruct (lookup_good (cp_cache s) ph fh resv idx c1 f H Hc Hlk) as (p & fr & Hp & Hfr & Hg & H2 & Hc2 & Hi2). rewrite Hp, Hfr. cbn [mbind]. simpl.
  destruct (good_page c1 f idx p fr Hg Hidx Hp Hfr) as [Hv Hsl]. pose proof (page_slice_len ct idx Hidx) as Hpl.
  destruct (Z.leb_spec (valid_len p) po) as [Hle|Hgt].
  - eexists. split; [done|]. split; [|by left]. unfold copy_inv. simpl. split; [done|]. split; [done|]. split; [by rewrite Hi2|]. split; [done|]. split; [done|]. split; [done|].
    split; [|done]. intros _. right. fold fo. rewrite Hv, Hpl in Hle. unfold PAGE_SIZE in *. lia.
  - rewrite Hb. rewrite read_into_len by done. set (count := Z.min (valid_len p - po) (data_len buf - copied s)). assert (0 < count) as Hcnt by (unfold count; lia).
    rewrite Hsl by (unfold count; lia). rewrite <- Hfo. assert (data_len (slice ct fo count) = count) as Hlc.
    { rewrite data_len_slice by (unfold fo; lia). rewrite Hv, Hpl in *. unfold count, PAGE_SIZE in *. lia. }
    unfold fo in *. rewrite read_into_more by (unfold count in *; lia). rewrite (proj2 (Z.eqb_neq count 0)) by lia.
    eexists. split; [done|]. simpl. split; [|right; split; [done|lia]]. unfold copy_inv. simpl. split; [done|]. split; [done|]. split; [by rewrite Hi2|].
    split; [unfold count; lia|]. split; [done|]. split; [|done]. rewrite <- slice_snoc by lia. unfold data_len in *. rewrite length_app. lia.
Qed.

Lemma read_cached_at_spec c ph fh resv offset buf : cache_ok cap c ph fh resv → coherent c → 0 ≤ offset → offset + data_len buf < usize_max →
  ∃ c' buf' r, read_cached_at c pth offset buf = Done (c', buf', r) ∧ cache_ok cap c' ph fh resv ∧ coherent c' ∧ index c' = index c ∧
    (∀ n, r = Some n → n = Z.min (data_len buf) (Z.max 0 (data_len ct - offset)) ∧ buf' = read_into buf offset n).
Proof using Himg.
  intros H Hc Ho Hu. unfold read_cached_at. destruct buf as [|x buf0]; simpl.
  { eexists _, _, _. split; [done|]. split; [done|]. split; [done|]. split; [done|]. intros n [= <-]. split; [unfold data_len; simpl; lia|]. done. }
  set (buf := x :: buf0) in *. assert (0 < data_len buf) as Hpos by (unfold buf, data_len; simpl; lia).
  destruct (while_some_done copy_guard (λ s (_ : unit), copy_round pth offset s) (copy_inv c ph fh resv buf offset)
    (λ s, if cp_stop s then 0 else 1 + data_len buf - copied s) (mkCopy c buf 0 false false)) as (s & -> & Hinv & Hg).
  - intros s [] Hinv Hg. unfold copy_guard in Hg. destruct (cp_stop s) eqn:Hst; [done|]. simpl in Hg.
    pose proof Hinv as (_ & _ & _ & Hr & Hb & Hl & _). rewrite Hb, read_into_len in Hg by done. destruct (Z.ltb_spec (copied s) (data_len buf)); [|done].
    destruct (copy_round_spec c ph fh resv buf offset s Hinv) as (s' & -> & Hinv' & Hd); try done; [lia|]. exists s'. split; [done|]. split; [done|].
    pose proof Hinv' as (_ & _ & _ & Hr' & _). destruct Hd as [->|[-> ?]]; lia.
  - unfold copy_inv. simpl. split; [done|]. split; [done|]. split; [done|]. split; [lia|]. split; [done|]. split; [done|]. done.
  - unfold usize_max in *. simpl. lia.
  - cbn [mbind]. destruct Hinv as (H' & Hc' & Hi' & Hr & Hb & Hl & Hst & Hms). eexists _, _, _. split; [done|]. split; [done|]. split; [done|]. split; [done|].
    intros n Hn. destruct (cp_miss s) eqn:Hm; [done|]. injection Hn as <-. split; [|done]. unfold copy_guard in Hg. rewrite data_len_slice in Hl by lia.
    destruct (cp_stop s); [destruct (Hst eq_refl); [done|lia]|]. simpl in Hg. rewrite Hb, read_into_len in Hg by (rewrite ?data_len_slice; lia).
    destruct (Z.ltb_spec (copied s) (data_len buf)); [done|lia].
Qed.
End insert.
End load.
