(* ===== verification/OsFile.v ===== *)
(** * Open regular files

    [fs/files/os_file.rs]: an open file description binds an inode to an offset;
    reads go through the page cache, writes to the inode with invalidation of the
    cached pages; and the tables of open files, writers and file flags.

    The inodes are [disk], by path: the cache knows a file by its path, and the
    pointer of the inode stands for it in the table of open files.  Fanotify
    events are the list [events].  [UserBuffer] ([mm/translate.rs]) is the list
    of its slices. *)

From S2P Require Import Prelude Errno Bytes FrameAlloc FramePool FileCache.

(** ** User buffers *)

Definition UserBuffer : Type := list (list Z).
Definition ub_len (b : UserBuffer) : Z := data_len (concat b).

(** The byte-wise branch of [UserBuffer::write] on one slice. *)
Fixpoint write_bytewise (sub buff : list Z) (len : nat) : list Z * nat :=
  match sub with
  | [] => ([], O)
  | x :: sub =>
      match len, buff with
      | S len, y :: buff => let '(sub', n) := write_bytewise sub buff len in (y :: sub', S n)
      | _, _ => (x :: sub, O)
      end
  end.
(** The rest of [buff] goes into the rest of the slices; [len] bytes are left. *)
Fixpoint write_slices (bulk : bool) (b : UserBuffer) (buff : list Z) (len : nat) : UserBuffer :=
  match b with
  | [] => []
  | sub :: b =>
      let '(sub', n) :=
        if bulk then let n := Nat.min (length sub) len in (take n buff ++ drop n sub, n) else write_bytewise sub buff len in
      if (n =? len)%nat then sub' :: b else sub' :: write_slices bulk b (drop n buff) (len - n)
  end.
Definition ub_write (b : UserBuffer) (buff : list Z) : UserBuffer :=
  let len := Z.min (ub_len b) (data_len buff) in
  if len =? 0 then b else write_slices (10 <? data_len buff) b buff (Z.to_nat len).

(** ** Offsets *)

Definition SEEK_SET : Z := 0.
Definition SEEK_CUR : Z := 1.
Definition SEEK_END : Z := 2.
Definition SEEK_DATA : Z := 3.
Definition SEEK_HOLE : Z := 4.
Definition isize_max : Z := i64_max.

(** [checked_neg] fails at [isize::MIN] only. *)
Definition seek_offset (base offset : Z) : result SysErrNo Z :=
  if offset <? 0 then
    if offset =? i64_min then Err EINVAL else ok_or EINVAL (checked_sub base (- offset))
  else ok_or EINVAL (checked_add base offset).

(** ** State *)

Definition FS_IMMUTABLE_FL : Z := 16.
Definition FS_APPEND_FL : Z := 32.
Definition FAN_ACCESS : Z := 1.
Definition FAN_MODIFY : Z := 2.
Definition FAN_CLOSE_WRITE : Z := 8.
Definition FAN_CLOSE_NOWRITE : Z := 16.
Definition PIPE_MAX_SIZE_PATH : string := "/proc/sys/fs/pipe-max-size".
Definition PIPE_MAX_SIZE : Z := 65536.
Definition MAX_AGGREGATED_READ : Z := 64 * 1024.
Definition MAX_PAGE_CACHED_READ_FILE_SIZE : Z := 32 * 1024 * 1024.

Record OSFile : Type := mkOSFile {
  f_readable : bool; f_writable : bool; append : bool; inode : string; seek_type : InodeType;
  write_path : option string; suppress_fanotify : bool; ofd_lock_owner : Z; f_offset : Z }.

Definition with_offset (fl : OSFile) (o : Z) : OSFile :=
  mkOSFile (f_readable fl) (f_writable fl) (append fl) (inode fl) (seek_type fl) (write_path fl) (suppress_fanotify fl) (ofd_lock_owner fl) o.

Record FsState (Src I : Type) : Type := mkFs {
  cache : FilePageCache Src; disk : gmap string I;
  WRITE_OPEN_COUNTS : gmap string Z; OPEN_FILE_COUNTS : gmap string Z; FILE_FLAGS : gmap string Z;
  NEXT_OFD_LOCK_OWNER : Z; special_nodes : gmap string InodeType; pipe_max_size : Z;
  events_suppressed : bool; events : list (string * Z) }.
Arguments mkFs {Src I}.
Arguments cache {Src I}.
Arguments disk {Src I}.
Arguments WRITE_OPEN_COUNTS {Src I}.
Arguments OPEN_FILE_COUNTS {Src I}.
Arguments FILE_FLAGS {Src I}.
Arguments NEXT_OFD_LOCK_OWNER {Src I}.
Arguments special_nodes {Src I}.
Arguments pipe_max_size {Src I}.
Arguments events_suppressed {Src I}.
Arguments events {Src I}.

Section files.
Context {Src : Type} `{!FrameSource Src} `{!FramePool Src} {I : Type} `{!Inode I} (cap : Z).
Notation St := (FsState Src I).
Implicit Types (st : St) (fl : OSFile) (pth : string).

Definition with_cache st (c : FilePageCache Src) : St :=
  mkFs c (disk st) (WRITE_OPEN_COUNTS st) (OPEN_FILE_COUNTS st) (FILE_FLAGS st) (NEXT_OFD_LOCK_OWNER st) (special_nodes st) (pipe_max_size st) (events_suppressed st) (events st).
Definition with_disk st (d : gmap string I) : St :=
  mkFs (cache st) d (WRITE_OPEN_COUNTS st) (OPEN_FILE_COUNTS st) (FILE_FLAGS st) (NEXT_OFD_LOCK_OWNER st) (special_nodes st) (pipe_max_size st) (events_suppressed st) (events st).
Definition with_counts st (w o : gmap string Z) (next : Z) : St :=
  mkFs (cache st) (disk st) w o (FILE_FLAGS st) next (special_nodes st) (pipe_max_size st) (events_suppressed st) (events st).
Definition with_flags st (f : gmap string Z) : St :=
  mkFs (cache st) (disk st) (WRITE_OPEN_COUNTS st) (OPEN_FILE_COUNTS st) f (NEXT_OFD_LOCK_OWNER st) (special_nodes st) (pipe_max_size st) (events_suppressed st) (events st).
Definition with_pipe_max st (n : Z) : St :=
  mkFs (cache st) (disk st) (WRITE_OPEN_COUNTS st) (OPEN_FILE_COUNTS st) (FILE_FLAGS st) (NEXT_OFD_LOCK_OWNER st) (special_nodes st) n (events_suppressed st) (events st).
Definition notify_path_event st pth (mask : Z) : St :=
  mkFs (cache st) (disk st) (WRITE_OPEN_COUNTS st) (OPEN_FILE_COUNTS st) (FILE_FLAGS st) (NEXT_OFD_LOCK_OWNER st) (special_nodes st) (pipe_max_size st)
    (events_suppressed st) (events st ++ [(pth, mask)]).

(** ** Tables of open files *)

Definition count_up (m : gmap string Z) (k : string) : gmap string Z := <[k := default 0 (m !! k) + 1]> m.
Definition count_down (m : gmap string Z) (k : string) : gmap string Z :=
  match m !! k with
  | None => m
  | Some n => if wrap64 (n - 1) =? 0 then delete k m else <[k := wrap64 (n - 1)]> m
  end.
Definition register_write_open st pth : St := with_counts st (count_up (WRITE_OPEN_COUNTS st) pth) (OPEN_FILE_COUNTS st) (NEXT_OFD_LOCK_OWNER st).
Definition unregister_write_open st pth : St := with_counts st (count_down (WRITE_OPEN_COUNTS st) pth) (OPEN_FILE_COUNTS st) (NEXT_OFD_LOCK_OWNER st).
Definition register_open_inode st pth : St := with_counts st (WRITE_OPEN_COUNTS st) (count_up (OPEN_FILE_COUNTS st) pth) (NEXT_OFD_LOCK_OWNER st).
Definition unregister_open_inode st pth : St := with_counts st (WRITE_OPEN_COUNTS st) (count_down (OPEN_FILE_COUNTS st) pth) (NEXT_OFD_LOCK_OWNER st).
Definition has_other_open_inode st pth : bool := 1 <? default 0 (OPEN_FILE_COUNTS st !! pth).
Definition is_write_open_path st pth : bool := negb (default 0 (WRITE_OPEN_COUNTS st !! pth) =? 0).
Definition alloc_ofd_lock_owner st : St * Z :=
  (with_counts st (WRITE_OPEN_COUNTS st) (OPEN_FILE_COUNTS st) (as_i32 (NEXT_OFD_LOCK_OWNER st + 1)), as_i32 (- NEXT_OFD_LOCK_OWNER st)).

Definition get_file_flags st pth : Z := default 0 (FILE_FLAGS st !! pth).
Definition set_file_flags st pth (flags : Z) : St :=
  with_flags st (if flags =? 0 then delete pth (FILE_FLAGS st) else <[pth := flags]> (FILE_FLAGS st)).
Definition is_immutable_path st pth : bool := intersects (get_file_flags st pth) FS_IMMUTABLE_FL.
Definition xattr_write_protected_path st pth : bool := intersects (get_file_flags st pth) (Z.lor FS_IMMUTABLE_FL FS_APPEND_FL).

Definition resolve_seek_type st (i : I) : InodeType := default (types i) (special_nodes st !! path i).

Definition osfile_new st (readable writable app : bool) pth : comp (St * OSFile) :=
  i ← unwrap (disk st !! pth);
  let st := register_open_inode st pth in
  let st := if writable then register_write_open st (path i) else st in
  let '(st, owner) := alloc_ofd_lock_owner st in
  Done (st, mkOSFile readable writable app pth (resolve_seek_type st i) (if writable then Some (path i) else None) false owner 0).
Definition new_fanotify_event st (readable writable app : bool) pth : comp (St * OSFile) :=
  i ← unwrap (disk st !! pth);
  let st := register_open_inode st pth in
  let '(st, owner) := alloc_ofd_lock_owner st in
  Done (st, mkOSFile readable writable app pth (resolve_seek_type st i) None true owner 0).
Definition osfile_drop st fl : comp St :=
  i ← unwrap (disk st !! inode fl);
  let st := match write_path fl with Some p => unregister_write_open st p | None => st end in
  let st := unregister_open_inode st (inode fl) in
  Done (if negb (suppress_fanotify fl) && negb (events_suppressed st)
        then notify_path_event st (path i) (if f_writable fl then FAN_CLOSE_WRITE else FAN_CLOSE_NOWRITE) else st).

(** ** The pipe size setting *)

Definition is_ascii_digit (b : Z) : bool := (48 <=? b) && (b <=? 57).
Fixpoint parse_digits (acc : Z) (bytes : list Z) : option Z :=
  match bytes with
  | [] => Some acc
  | b :: bytes => v ← checked_mul acc 10; v ← checked_add v (b - 48); parse_digits v bytes
  end.
Definition page_round_up (v : Z) : Z := if v mod PAGE_SIZE =? 0 then v else v - v mod PAGE_SIZE + PAGE_SIZE.
Definition set_pipe_max_size st (value : Z) : St * result SysErrNo unit :=
  if (value <? PAGE_SIZE) || (PIPE_MAX_SIZE <? value) then (st, Err EINVAL)
  else (with_pipe_max st (page_round_up value), Ok ()).
Definition sync_pipe_max_size_sysctl st pth (bytes : list Z) : St * result SysErrNo unit :=
  if negb (bool_decide (pth = PIPE_MAX_SIZE_PATH)) then (st, Ok ())
  else if negb (nonempty bytes) then (st, Ok ())
  else
    let end_ := default (length bytes) (position (λ b, negb (is_ascii_digit b)) bytes) in
    if (end_ =? 0)%nat then (st, Err EINVAL)
    else match parse_digits 0 (take end_ bytes) with
         | None => (st, Err EINVAL)
         | Some v => set_pipe_max_size st v
         end.

(** ** Reads through the page cache *)

(** The end of the page with number [idx] that the request reaches, as an offset into
    the request. *)
Definition page_end (offset available idx : Z) : Z :=
  Z.min (saturating_sub (saturating_mul (saturating_add idx 1) PAGE_SIZE) offset) available.

(** The search for the end of a run of cold pages. *)
Record RunState : Type := mkRun { rn_cache : FilePageCache Src; run_end : Z; rn_stop : bool }.
Definition run_guard (available : Z) (s : RunState) : option unit :=
  if negb (rn_stop s) && (run_end s <? available) then Some () else None.
Definition run_round pth (offset available : Z) (s : RunState) : comp RunState :=
  let next := saturating_add offset (run_end s) / PAGE_SIZE in
  match lookup_page (rn_cache s) pth next with
  | (c, Some f) => Done (mkRun (arc_drop c f) (run_end s) true)
  | (c, None) =>
      let e := page_end offset available next in
      if e <=? run_end s then Done (mkRun c (run_end s) true) else Done (mkRun c e false)
  end.

(** The loop of a large read: [rd_end] says how it ended. *)
Record ReadState : Type := mkRead { rd_cache : FilePageCache Src; kernel_buf : list Z; cursor : Z; rd_end : option (result SysErrNo unit) }.
Definition read_guard (available : Z) (s : ReadState) : option unit :=
  match rd_end s with Some _ => None | None => if cursor s <? available then Some () else None end.
Definition read_round (i : I) pth (offset available file_size : Z) (s : ReadState) : comp ReadState :=
  let file_offset := saturating_add offset (cursor s) in
  let idx := file_offset / PAGE_SIZE in
  let page_offset := file_offset mod PAGE_SIZE in
  match lookup_page (rd_cache s) pth idx with
  | (c, Some f) =>
      p ← unwrap (objs c !! f);
      fr ← unwrap (frames c !! f);
      if valid_len p <=? page_offset then Done (mkRead (arc_drop c f) (kernel_buf s) (cursor s) (Some (Ok ())))
      else
        let n := Z.min (valid_len p - page_offset) (available - cursor s) in
        Done (mkRead (arc_drop c f) (splice (kernel_buf s) (cursor s) (slice (f_bytes fr) page_offset n)) (cursor s + n) None)
  | (c, None) =>
      let run_start := cursor s in
      r ← while_some (run_guard available) (λ r _, run_round pth offset available r)
        (mkRun c (Z.max (page_end offset available idx) (saturating_add run_start 1)) false);
      match read_at i (saturating_add offset run_start) (run_end r - run_start) with
      | Err e => Done (mkRead (rn_cache r) (kernel_buf s) (cursor s) (Some (Err e)))
      | Ok bytes =>
          let buf := splice (kernel_buf s) run_start bytes in
          let n := data_len bytes in
          let ended := if n <? run_end r - run_start then Some (Ok ()) else None in
          if n =? 0 then Done (mkRead (rn_cache r) buf (cursor s) ended)
          else
            c ← insert_read_range cap (rn_cache r) pth (saturating_add offset run_start) (slice buf run_start n) file_size;
            Done (mkRead c buf (saturating_add (cursor s) n) ended)
      end
  end.

(** [Ok None]: the read does not use the cache. *)
Definition try_page_cached_read (c : FilePageCache Src) (i : I) (offset : Z) (buf : UserBuffer) :
    comp (FilePageCache Src * UserBuffer * result SysErrNo (option Z)) :=
  let requested := ub_len buf in
  if MAX_AGGREGATED_READ <? requested then Done (c, buf, Ok None)
  else if negb (bool_decide (types i = File)) then Done (c, buf, Ok None)
  else
    let file_size := size i in
    if MAX_PAGE_CACHED_READ_FILE_SIZE <? file_size then Done (c, buf, Ok None)
    else if file_size <=? offset then Done (c, buf, Ok (Some 0))
    else if requested <=? PAGE_SIZE then
      '(c, r) ← get_or_load cap c i (offset / PAGE_SIZE);
      match r with
      | Err e => Done (c, buf, Err e)
      | Ok f =>
          p ← unwrap (objs c !! f);
          fr ← unwrap (frames c !! f);
          let page_offset := offset mod PAGE_SIZE in
          if valid_len p <=? page_offset then Done (arc_drop c f, buf, Ok (Some 0))
          else
            let n := Z.min (valid_len p - page_offset) requested in
            Done (arc_drop c f, ub_write buf (slice (f_bytes fr) page_offset n), Ok (Some n))
      end
    else
      let available := Z.min requested (saturating_sub file_size offset) in
      s ← while_some (read_guard available) (λ s _, read_round i (cache_path i) offset available file_size s)
        (mkRead c (zeros available) 0 None);
      match rd_end s with
      | Some (Err e) => Done (rd_cache s, buf, Err e)
      | _ =>
          Done (rd_cache s, if cursor s =? 0 then buf else ub_write buf (slice (kernel_buf s) 0 (cursor s)), Ok (Some (cursor s)))
      end.

(** ** Read *)

(** Large requests: slice by slice. *)
Fixpoint read_stream (i : I) (offset total : Z) (bufs : UserBuffer) : UserBuffer * Z * result SysErrNo Z :=
  match bufs with
  | [] => ([], offset, Ok total)
  | b :: rest =>
      match read_at i offset (data_len b) with
      | Err e => (b :: rest, offset, Err e)
      | Ok bytes =>
          let n := data_len bytes in
          if n =? 0 then (b :: rest, offset, Ok total)
          else
            let '(rest', o, r) := read_stream i (wrap64 (offset + n)) (wrap64 (total + n)) rest in
            (splice b 0 bytes :: rest', o, r)
      end
  end.

(** The buffers, the new offset and the number of bytes. *)
Definition read_bytes (c : FilePageCache Src) (i : I) (offset : Z) (buf : UserBuffer) :
    comp (FilePageCache Src * UserBuffer * Z * result SysErrNo Z) :=
  '(c, buf', cached) ← try_page_cached_read c i offset buf;
  match cached with
  | Err e => Done (c, buf', offset, Err e)
  | Ok (Some n) => Done (c, buf', wrap64 (offset + n), Ok n)
  | Ok None =>
      match buf with
      | [b] =>
          match read_at i offset (data_len b) with
          | Err e => Done (c, buf, offset, Err e)
          | Ok bytes => Done (c, [splice b 0 bytes], wrap64 (offset + data_len bytes), Ok (data_len bytes))
          end
      | _ =>
          if ub_len buf <=? MAX_AGGREGATED_READ then
            match read_at i offset (ub_len buf) with
            | Err e => Done (c, buf, offset, Err e)
            | Ok bytes =>
                if data_len bytes =? 0 then Done (c, buf, offset, Ok 0)
                else Done (c, ub_write buf bytes, wrap64 (offset + data_len bytes), Ok (data_len bytes))
            end
          else let '(buf', o, r) := read_stream i offset 0 buf in Done (c, buf', o, r)
      end
  end.

Definition os_read st fl (buf : UserBuffer) : comp (St * OSFile * UserBuffer * result SysErrNo Z) :=
  i ← unwrap (disk st !! inode fl);
  if negb (nonempty buf) || (ub_len buf =? 0) then Done (st, fl, buf, Ok 0)
  else
    '(c, buf', o, r) ← read_bytes (cache st) i (f_offset fl) buf;
    let st := with_cache st c in
    match r with
    | Err e => Done (st, with_offset fl o, buf', Err e)
    | Ok n =>
        Done (if (0 <? n) && negb (suppress_fanotify fl) && negb (events_suppressed st) then notify_path_event st (path i) FAN_ACCESS else st,
              with_offset fl o, buf', Ok n)
    end.

(** ** Write *)

(** The slices in turn; the offset moves with each. *)
Fixpoint write_loop st pth (fpath : string) (offset total : Z) (bufs : UserBuffer) : comp (St * Z * result SysErrNo Z) :=
  match bufs with
  | [] => Done (st, offset, Ok total)
  | b :: rest =>
      match sync_pipe_max_size_sysctl st fpath b with
      | (st, Err e) => Done (st, offset, Err e)
      | (st, Ok _) =>
          i ← unwrap (disk st !! pth);
          match write_at i offset b with
          | (i', Err e) => Done (with_disk st (<[pth := i']> (disk st)), offset, Err e)
          | (i', Ok n) =>
              let st := with_disk st (<[pth := i']> (disk st)) in
              assert! (n =? data_len b);
              let st := with_cache st (invalidate_path_range (cache st) fpath offset n) in
              write_loop st pth fpath (wrap64 (offset + n)) (wrap64 (total + n)) rest
          end
      end
  end.

Definition os_write st fl (bufs : UserBuffer) : comp (St * OSFile * result SysErrNo Z) :=
  i ← unwrap (disk st !! inode fl);
  let fpath := path i in
  if is_immutable_path st fpath then Done (st, fl, Err EPERM)
  else
    let offset := if append fl then size i else f_offset fl in
    '(st, o, r) ← write_loop st (inode fl) fpath offset 0 bufs;
    match r with
    | Err e => Done (st, with_offset fl o, Err e)
    | Ok n =>
        Done (if (0 <? n) && negb (suppress_fanotify fl) && negb (events_suppressed st) then notify_path_event st fpath FAN_MODIFY else st,
              with_offset fl o, Ok n)
    end.

(** ** The other methods *)

Definition set_append fl (a : bool) : OSFile :=
  mkOSFile (f_readable fl) (f_writable fl) a (inode fl) (seek_type fl) (write_path fl) (suppress_fanotify fl) (ofd_lock_owner fl) (f_offset fl).

Definition POLLIN : Z := 1.
Definition POLLOUT : Z := 4.
Definition os_poll fl (requested : Z) : Z :=
  Z.lor (if contains requested POLLIN && f_readable fl then POLLIN else 0) (if contains requested POLLOUT && f_writable fl then POLLOUT else 0).

Definition new_offset (i : I) fl (offset whence : Z) : result SysErrNo Z :=
  if whence =? SEEK_SET then if offset <? 0 then Err EINVAL else Ok offset
  else if whence =? SEEK_CUR then seek_offset (f_offset fl) offset
  else if whence =? SEEK_END then seek_offset (size i) offset
  else if whence =? SEEK_DATA then if offset <? 0 then Err ENXIO else seek_data i offset
  else if whence =? SEEK_HOLE then if offset <? 0 then Err ENXIO else seek_hole i offset
  else Err EINVAL.
Definition os_lseek (i : I) fl (offset whence : Z) : OSFile * result SysErrNo Z :=
  if bool_decide (seek_type fl = Fifo) || bool_decide (seek_type fl = Socket) then (fl, Err ESPIPE)
  else match new_offset i fl offset whence with
       | Err e => (fl, Err e)
       | Ok o => if isize_max <? o then (fl, Err EOVERFLOW) else (with_offset fl o, Ok o)
       end.

(** The two requests on flags, with the user memory they reach: a word that may not be
    writable, a word that may not be readable. *)
Inductive FlagsIoctl : Type := GetFlags (writable : bool) | SetFlags (word : option Z).
(** The word that is copied to the user comes with the result. *)
Definition os_ioctl st fl (cmd : option FlagsIoctl) : comp (St * option Z * result SysErrNo Z) :=
  i ← unwrap (disk st !! inode fl);
  match cmd with
  | Some (GetFlags true) => Done (st, Some (get_file_flags st (path i)), Ok 0)
  | Some (GetFlags false) => Done (st, None, Err EFAULT)
  | Some (SetFlags (Some flags)) => Done (set_file_flags st (path i) flags, None, Ok 0)
  | Some (SetFlags None) => Done (st, None, Err EFAULT)
  | None => Done (st, None, Err ENOTTY)
  end.

(** [truncate_impl] of an ext4 inode: after [file_truncate] the path is invalidated. *)
Definition os_truncate st pth (n : Z) : comp (St * result SysErrNo Z) :=
  i ← unwrap (disk st !! pth);
  let '(i', r) := file_truncate i n in
  let st := with_disk st (<[pth := i']> (disk st)) in
  match r with
  | Err e => Done (st, Err e)
  | Ok _ => Done (with_cache st (invalidate_path (cache st) (path i)), Ok 0)
  end.
End files.
