(* ===== verification/OsFileSpec.v ===== *)
(** * Open files against flat sequences of bytes

    The laws of the inode interface, what a read and a write of an open file do
    to the bytes of its file, and that the cache stays coherent. *)

From S2P Require Import Prelude Errno Bytes RefCount FrameAlloc FramePool FileCache FileCacheInv FileCacheOps FileCacheLoad OsFile.

(** ** The inode interface *)

(** The file with [b] at [off]; a gap before [off] is filled with zeros. *)
Definition write_bytes (d : list Z) (off : Z) (b : list Z) : list Z :=
  splice (d ++ zeros (off + data_len b - data_len d)) off b.
Definition truncate_bytes (d : list Z) (n : Z) : list Z := take (Z.to_nat n) d ++ zeros (n - data_len d).

(** What the callers rely on for regular files: [size] and [read_at] agree with one
    sequence of bytes, [write_at] writes all bytes or fails without an effect. *)
Class InodeLaws (I : Type) `{!Inode I} : Type := {
  contents : I → list Z;
  il_size i : types i = File → size i = data_len (contents i) ∧ data_len (contents i) ≤ i64_max;
  il_read i off n b : types i = File → 0 ≤ off → 0 < n → read_at i off n = Ok b → b = slice (contents i) off n;
  il_cache_path i : cache_path i = path i;
  il_write i off b : types i = File → 0 ≤ off → b ≠ [] →
    let r := write_at i off b in
    types r.1 = File ∧ path r.1 = path i ∧
    match r.2 with
    | Ok n => n = data_len b ∧ off + data_len b ≤ i64_max ∧ contents r.1 = write_bytes (contents i) off b
    | Err _ => contents r.1 = contents i
    end;
  il_truncate i n : types i = File → 0 ≤ n →
    let r := file_truncate i n in
    types r.1 = File ∧ path r.1 = path i ∧
    match r.2 with Ok _ => n ≤ i64_max ∧ contents r.1 = truncate_bytes (contents i) n | Err _ => contents r.1 = contents i end;
  il_seek i off n : 0 ≤ off → seek_data i off = Ok n ∨ seek_hole i off = Ok n → 0 ≤ n
}.

(** ** User buffers *)

Lemma write_bytewise_spec sub buff len : (len ≤ length buff)%nat →
  write_bytewise sub buff len = (take (Nat.min (length sub) len) buff ++ drop (Nat.min (length sub) len) sub, Nat.min (length sub) len).
Proof.
  revert buff len. induction sub as [|x sub IH]; intros buff len Hl; simpl; [done|].
  destruct len as [|len]; [done|]. destruct buff as [|y buff]; [simpl in Hl; lia|]. simpl in Hl. by rewrite IH by lia.
Qed.
(** The slices in turn receive the bytes, in both branches. *)
Lemma write_slices_spec bulk b buff len : (len ≤ length buff)%nat → (len ≤ length (concat b))%nat →
  concat (write_slices bulk b buff len) = take len buff ++ drop len (concat b) ∧ length <$> write_slices bulk b buff len = length <$> b.
Proof.
  revert buff len. induction b as [|sub b IH]; intros buff len Hl Hc; simpl in *; [assert (len = 0)%nat as -> by lia; done|].
  rewrite length_app in Hc. set (n := Nat.min (length sub) len).
  assert ((if bulk then (take n buff ++ drop n sub, n) else write_bytewise sub buff len) = (take n buff ++ drop n sub, n)) as ->.
  { destruct bulk; [done|]. by apply write_bytewise_spec. }
  assert (length (take n buff ++ drop n sub) = length sub) as Hlen by (rewrite length_app, length_take, length_drop; unfold n; lia).
  destruct (Nat.eqb_spec n len) as [E|E].
  - rewrite fmap_cons, Hlen. split; [|done]. simpl. rewrite E, <- app_assoc. f_equal. rewrite drop_app. replace (len - length sub)%nat with 0%nat by (unfold n in E; lia).
    by rewrite drop_0.
  - assert (n = length sub) as Hn by (unfold n in *; lia). destruct (IH (drop n buff) (len - n)%nat) as [IH1 IH2]; [rewrite length_drop; lia|lia|].
    rewrite fmap_cons, Hlen, IH2. split; [|done]. simpl. rewrite IH1, Hn. rewrite (drop_ge sub) by lia. rewrite app_nil_r, app_assoc.
    rewrite take_take_drop. f_equal; [f_equal; lia|]. rewrite drop_app, (drop_ge sub) by lia. done.
Qed.
Lemma ub_write_spec b buff : data_len buff ≤ ub_len b →
  concat (ub_write b buff) = buff ++ drop (length buff) (concat b) ∧ length <$> ub_write b buff = length <$> b.
Proof.
  intros Hl. unfold ub_write. unfold ub_len, data_len in *. rewrite Z.min_r by lia. destruct (Z.eqb_spec (Z.of_nat (length buff)) 0) as [E|E].
  - destruct buff; [done|]. simpl in E. lia.
  - rewrite Nat2Z.id. destruct (write_slices_spec (10 <? Z.of_nat (length buff)) b buff (length buff)) as [-> ->]; [done|lia|]. by rewrite firstn_all.
Qed.

(** ** Bytes of a file *)

Lemma ub_write_read (ct : list Z) b off n : data_len (slice ct off n) = n → n ≤ ub_len b →
  concat (ub_write b (slice ct off n)) = read_into ct (concat b) off n ∧ length <$> ub_write b (slice ct off n) = length <$> b.
Proof.
  intros Hl Hn. destruct (ub_write_spec b (slice ct off n)) as [-> ->]; [by rewrite Hl|]. split; [|done]. unfold read_into. do 2 f_equal. unfold data_len in Hl. lia.
Qed.

(** How many bytes a read returns: at most up to the end of the file, and for a
    request of at most a page, up to the end of the page. *)
Definition direct (ct : list Z) (len : Z) : bool := (MAX_AGGREGATED_READ <? len) || (MAX_PAGE_CACHED_READ_FILE_SIZE <? data_len ct).
Definition read_count (ct : list Z) (offset len : Z) : Z :=
  let left := Z.max 0 (data_len ct - offset) in
  if negb (direct ct len) && (len <=? PAGE_SIZE) then Z.min len (Z.min left (PAGE_SIZE - offset mod PAGE_SIZE)) else Z.min len left.

(** What a reader sees. *)
Definition read_result (ct : list Z) (offset : Z) (buf buf' : UserBuffer) (n : Z) : Prop :=
  n = read_count ct offset (ub_len buf) ∧ concat buf' = read_into ct (concat buf) offset n ∧ length <$> buf' = length <$> buf.

Section read.
Context {Src : Type} `{!FrameSource Src} `{!FramePool Src} {I : Type} `{!Inode I} `{!InodeLaws I} (cap : Z) (Hcap : cap ≤ usize_max).
Context (img : FilePageKey → Z * list Z) (i : I) (Hfile : types i = File).
Notation ct := (contents i).
Context (Himg : ∀ j, 0 ≤ j → img (mkKey (cache_path i) j) = image ct j).
Context (ph fh : Z → nat) (resv : Z).
Notation ok c := (cache_ok cap c ph fh resv ∧ coherent img c).

Lemma i_size : size i = data_len ct.
Proof using Hfile. by apply il_size. Qed.
Lemma i_small : data_len ct ≤ i64_max.
Proof using Hfile. by apply il_size. Qed.
Lemma i_read off n b : 0 ≤ off → 0 < n → read_at i off n = Ok b → b = slice ct off n.
Proof using Hfile. by apply il_read. Qed.

(** The search for the end of a cold run stays inside the request. *)
Definition run_inv (start available : Z) (s : RunState) : Prop := ok (rn_cache s) ∧ start < run_end s ≤ available.
Lemma run_loop_spec offset available start c e : ok c → 0 ≤ start → start < e ≤ available → available < 2 ^ 63 →
  ∃ s, while_some (run_guard available) (λ s (_ : unit), run_round (cache_path i) offset available s) (mkRun c e false) = Done s ∧ run_inv start available s.
Proof using Type.
  intros Hok Hst0 He Hav. destruct (while_some_done (run_guard available) (λ s (_ : unit), run_round (cache_path i) offset available s) (run_inv start available)
    (λ s, if rn_stop s then 0 else 1 + available - run_end s) (mkRun c e false)) as (s & Hs & Hinv & _); [| | |by exists s].
  - intros s [] [[H Hc] Hr] Hg. unfold run_guard in Hg. destruct (rn_stop s) eqn:Hst; [done|]. simpl in Hg. destruct (Z.ltb_spec (run_end s) available) as [Hlt|]; [|done].
    unfold run_round. set (nx := saturating_add offset (run_end s) / PAGE_SIZE). destruct (lookup_page (rn_cache s) (cache_path i) nx) as [c1 [f|]] eqn:Hl.
    + destruct (lookup_good cap img (cache_path i) (rn_cache s) ph fh resv nx c1 f H Hc Hl) as (_ & _ & _ & _ & _ & H2 & Hc2 & _).
      eexists. split; [done|]. simpl. split; [done|lia].
    + pose proof (lookup_spec cap (rn_cache s) ph fh resv (cache_path i) nx H) as Hs. rewrite Hl in Hs. destruct Hs as [-> _].
      destruct (Z.leb_spec (page_end offset available nx) (run_end s)) as [|Hgt];
        (eexists; split; [done|]; simpl; split; [split; [done|simpl; unfold page_end in *; lia]|unfold page_end in *; lia]).
  - split; [done|]. simpl. lia.
  - simpl. lia.
Qed.

Definition read_inv (offset available : Z) (s : ReadState) : Prop :=
  ok (rd_cache s) ∧ 0 ≤ cursor s ≤ available ∧ kernel_buf s = read_into ct (zeros available) offset (cursor s) ∧
  match rd_end s with None => True | Some (Ok _) => False | Some (Err e) => ∃ off n, read_at i off n = Err e end.

Lemma slice_full off n : 0 ≤ off → 0 ≤ n → off + n ≤ data_len ct → data_len (slice ct off n) = n.
Proof using Type. intros. rewrite data_len_slice by done. lia. Qed.

(** A step of the loop: a cached page, or a run read from the inode. *)
Lemma read_round_spec offset available s : read_inv offset available s → 0 ≤ offset → offset + available ≤ data_len ct → rd_end s = None → cursor s < available →
  ∃ s', read_round cap i (cache_path i) offset available (size i) s = Done s' ∧ read_inv offset available s' ∧ (is_Some (rd_end s') ∨ cursor s < cursor s').
Proof using Hcap Hfile Himg.
  intros ([H Hc] & Hr & Hb & _) Ho Hav Hend Hlt. pose proof i_small as Hsm. unfold read_round. cbv zeta.
  assert (saturating_add offset (cursor s) = offset + cursor s) as -> by (unfold saturating_add, usize_max, i64_max in *; lia). set (fo := offset + cursor s).
  set (idx := fo / PAGE_SIZE). set (po := fo mod PAGE_SIZE).
  assert (0 ≤ idx ∧ 0 ≤ po < PAGE_SIZE ∧ fo = idx * PAGE_SIZE + po) as (Hidx & Hpo & Hfo).
  { unfold idx, po, PAGE_SIZE. pose proof (Z.div_pos fo 4096). pose proof (Z.mod_pos_bound fo 4096). pose proof (Z.div_mod fo 4096). lia. }
  clearbody idx po. assert (data_len (zeros available) = available) as Hz by (apply data_len_zeros; lia).
  assert (data_len (slice ct offset (cursor s)) = cursor s) as Hcs by (apply slice_full; lia).
  destruct (lookup_page (rd_cache s) (cache_path i) idx) as [c1 [f|]] eqn:Hl.
  - destruct (lookup_good cap img (cache_path i) (rd_cache s) ph fh resv idx c1 f H Hc Hl) as (p & fr & Hp & Hfr & Hg & H2 & Hc2 & _).
    rewrite Hp, Hfr. cbn [mbind]. simpl. destruct (good_page img (cache_path i) ct Himg c1 f idx p fr Hg Hidx Hp Hfr) as [Hv Hsl].
    pose proof (page_slice_len ct idx Hidx) as Hpl. destruct (Z.leb_spec (valid_len p) po) as [Hle|Hgt].
    { exfalso. rewrite Hv, Hpl in Hle. unfold fo, PAGE_SIZE in *. lia. }
    set (n := Z.min (valid_len p - po) (available - cursor s)). assert (0 < n ∧ n ≤ valid_len p - po ∧ n ≤ available - cursor s) as (Hn & Hn1 & Hn2) by (unfold n; lia).
    clearbody n. eexists. split; [done|]. split; [|right; cbn [cursor]; lia]. split; [done|]. cbn [cursor kernel_buf rd_end]. split; [lia|]. split; [|done].
    rewrite Hsl by lia. rewrite <- Hfo, Hb. unfold fo. apply read_into_more; try lia. apply slice_full; lia.
  - pose proof (lookup_spec cap (rd_cache s) ph fh resv (cache_path i) idx H) as Hs. rewrite Hl in Hs. destruct Hs as [-> _].
    assert (saturating_add (cursor s) 1 = cursor s + 1) as -> by (unfold saturating_add, usize_max, i64_max in *; lia).
    destruct (run_loop_spec offset available (cursor s) (rd_cache s) (Z.max (page_end offset available idx) (cursor s + 1))) as (r & -> & [H2 Hc2] & Hre);
      [done|lia|unfold page_end; lia|unfold i64_max in *; lia|]. cbn [mbind]. simpl.
    destruct (read_at i fo (run_end r - cursor s)) as [bytes|e] eqn:Hrd.
    2: { eexists. split; [done|]. simpl. split; [|left; eauto]. split; [done|]. simpl. split; [lia|]. split; [done|]. eauto. }
    apply i_read in Hrd; [|unfold fo; lia|lia]. set (n := run_end r - cursor s) in *.
    assert (data_len bytes = n) as Hlen by (rewrite Hrd; apply slice_full; unfold fo, n in *; lia). rewrite Hlen, Z.ltb_irrefl, (proj2 (Z.eqb_neq n 0)) by lia.
    rewrite Hb, Hrd. change (slice ct fo n) with (slice ct (offset + cursor s) n).
    rewrite read_into_more by first [unfold fo, n in *; lia|apply slice_full; unfold fo, n in *; lia].
    assert (slice (read_into ct (zeros available) offset (cursor s + n)) (cursor s) n = slice ct fo n) as Hsl.
    { unfold read_into. rewrite slice_app; [|lia|unfold n; lia|rewrite slice_full by (unfold n in *; lia); lia]. rewrite slice_slice by (unfold n in *; lia). done. }
    rewrite Hsl, i_size. destruct (insert_read_range_spec cap Hcap img (cache_path i) ct Himg i_small (rn_cache r) ph fh resv fo n) as (c2 & -> & H3 & Hc3);
      [done|done|unfold fo; lia|unfold n; lia|unfold fo, n in *; lia|]. cbn [mbind]. simpl.
    assert (saturating_add (cursor s) n = cursor s + n) as -> by (unfold saturating_add, usize_max, i64_max, n in *; lia).
    eexists. split; [done|]. simpl. split; [|right; unfold n; lia]. split; [done|]. simpl. split; [unfold n in *; lia|]. done.
Qed.

Lemma read_loop_spec c offset available : ok c → 0 ≤ offset → 0 < available → offset + available ≤ data_len ct →
  ∃ s, while_some (read_guard available) (λ s (_ : unit), read_round cap i (cache_path i) offset available (size i) s) (mkRead c (zeros available) 0 None) = Done s ∧
    read_inv offset available s ∧ (rd_end s = None → cursor s = available).
Proof using Hcap Hfile Himg.
  intros Hok Ho Hpos Hav. pose proof i_small as Hsm.
  destruct (while_some_done (read_guard available) (λ s (_ : unit), read_round cap i (cache_path i) offset available (size i) s) (read_inv offset available)
    (λ s, match rd_end s with Some _ => 0 | None => 1 + available - cursor s end) (mkRead c (zeros available) 0 None)) as (s & Hs & Hinv & Hg).
  - intros s [] Hinv Hg. unfold read_guard in Hg. destruct (rd_end s) eqn:Hend; [done|]. destruct (Z.ltb_spec (cursor s) available) as [Hlt|]; [|done].
    destruct (read_round_spec offset available s Hinv Ho Hav Hend Hlt) as (s' & Hr & Hinv' & Hd). exists s'. split; [exact Hr|]. split; [done|].
    pose proof Hinv' as (_ & Hc' & _). destruct Hd as [[e ->]|Hd]; [lia|]. destruct (rd_end s'); lia.
  - split; [done|]. cbn [cursor kernel_buf rd_end]. split; [lia|]. split; [|done]. unfold read_into, slice. by rewrite take_0.
  - cbn [rd_end cursor]. unfold i64_max in *. lia.
  - exists s. split; [exact Hs|]. split; [done|]. intros Hend. unfold read_guard in Hg. rewrite Hend in Hg. destruct (Z.ltb_spec (cursor s) available); [done|].
    destruct Hinv as (_ & ? & _). lia.
Qed.

Definition read_failed c (e : SysErrNo) : Prop := load_error i c e.

Lemma read_nothing buf offset : concat buf = read_into ct (concat buf) offset 0.
Proof using Type. unfold read_into, slice. by rewrite take_0. Qed.

Lemma try_page_cached_read_spec c offset buf : ok c → 0 ≤ offset → 0 < ub_len buf →
  ∃ c' buf' r, try_page_cached_read cap c i offset buf = Done (c', buf', r) ∧ ok c' ∧
    match r with
    | Ok None => direct ct (ub_len buf) = true ∧ buf' = buf
    | Ok (Some n) => direct ct (ub_len buf) = false ∧ read_result ct offset buf buf' n
    | Err e => buf' = buf ∧ read_failed c e
    end.
Proof using Hcap Hfile Himg.
  intros [H Hc] Ho Hlen. unfold try_page_cached_read, read_result, read_count, direct. pose proof i_small as Hsm. rewrite i_size.
  assert (0 ≤ data_len ct) as H0 by (unfold data_len; lia).
  destruct (Z.ltb_spec MAX_AGGREGATED_READ (ub_len buf)) as [|Hagg]; [eexists _, _, _; by split|]. rewrite bool_decide_eq_true_2 by done. cbn [negb orb].
  destruct (Z.ltb_spec MAX_PAGE_CACHED_READ_FILE_SIZE (data_len ct)) as [|Hmax]; [eexists _, _, _; by split|].
  destruct (Z.leb_spec (data_len ct) offset) as [Heof|Hin].
  { eexists _, _, _. split; [done|]. split; [done|]. split; [done|]. simpl. split; [|split; [apply read_nothing|done]].
    destruct (_ <=? _); pose proof (Z.mod_pos_bound offset PAGE_SIZE); unfold PAGE_SIZE in *; lia. }
  destruct (Z.leb_spec (ub_len buf) PAGE_SIZE) as [Hpg|Hbig].
  - set (idx := offset / PAGE_SIZE). set (po := offset mod PAGE_SIZE).
    assert (0 ≤ idx ∧ 0 ≤ po < PAGE_SIZE ∧ offset = idx * PAGE_SIZE + po) as (Hidx & Hpo & Hfo).
    { unfold idx, po, PAGE_SIZE. pose proof (Z.div_pos offset 4096). pose proof (Z.mod_pos_bound offset 4096). pose proof (Z.div_mod offset 4096). lia. }
    clearbody idx po. destruct (get_or_load_spec cap Hcap img i ct i_size i_read Himg c ph fh resv idx H Hc Hidx) as (c1 & r & -> & Hc1 & Hr);
      [unfold usize_max, i64_max, PAGE_SIZE in *; lia|]. cbn [mbind]. simpl. destruct r as [f|e].
    2: { destruct Hr as (H1 & He & _). eexists _, _, _. by split. }
    destruct Hr as [H1 Hg]. destruct (held_obj c1 _ fh f (ca_heap _ _ _ _ _ H1)) as [p Hp]; [rewrite bump_eq; lia|].
    destruct (ho_framed c1 _ fh (ca_heap _ _ _ _ _ H1) f p Hp) as [[fr Hfr] _]. rewrite Hp, Hfr. cbn [mbind]. simpl.
    destruct (drop_spec cap c1 ph fh resv f H1) as (H2 & Hs2 & _). assert (coherent img (arc_drop c1 f)) as Hc2 by (eapply coherent_shrinks; [done..|apply H2]).
    destruct (good_page img (cache_path i) ct Himg c1 f idx p fr Hg Hidx Hp Hfr) as [Hv Hsl]. pose proof (page_slice_len ct idx Hidx) as Hpl.
    destruct (Z.leb_spec (valid_len p) po) as [Hle|Hgt]; [exfalso; rewrite Hv, Hpl in Hle; unfold PAGE_SIZE in *; lia|].
    set (n := Z.min (valid_len p - po) (ub_len buf)). assert (n = Z.min (ub_len buf) (Z.min (Z.max 0 (data_len ct - offset)) (PAGE_SIZE - po))) as Hn.
    { unfold n. rewrite Hv, Hpl. unfold PAGE_SIZE in *. lia. }
    eexists _, _, _. split; [done|]. split; [done|]. split; [done|]. split; [exact Hn|]. rewrite Hsl by (unfold n; lia). rewrite <- Hfo.
    apply ub_write_read; [apply slice_full; lia|lia].
  - set (av := Z.min (ub_len buf) (saturating_sub (data_len ct) offset)). assert (0 < av ∧ offset + av ≤ data_len ct ∧ av ≤ ub_len buf ∧ av = Z.min (ub_len buf) (Z.max 0 (data_len ct - offset))) as (Hav & Hav2 & Hav3 & Hav4).
    { unfold av, saturating_sub, PAGE_SIZE in *. lia. }
    clearbody av. destruct (read_loop_spec c offset av) as (s & Hs & (Hok & Hcur & Hb & Hend) & Hdone); [done..|]. rewrite i_size in Hs. rewrite Hs. cbn [mbind]. simpl.
    destruct (rd_end s) as [[u|e]|] eqn:Ee; [done| |].
    + eexists _, _, _. split; [done|]. split; [done|]. split; [done|]. by right.
    + rewrite (Hdone eq_refl) in *. eexists _, _, _. split; [done|]. split; [done|]. split; [done|]. split; [exact Hav4|].
      rewrite (proj2 (Z.eqb_neq av 0)) by lia. assert (slice (kernel_buf s) 0 av = slice ct offset av) as ->.
      { rewrite Hb. unfold read_into. rewrite slice_app by (rewrite ?slice_full; lia). rewrite slice_slice by lia. by rewrite Z.add_0_r. }
      apply ub_write_read; [apply slice_full; lia|done].
Qed.

(** Bytes into one slice and then into the rest. *)
Lemma stream_join (b : list Z) (rest : UserBuffer) bytes offset k : 0 ≤ offset → 0 ≤ k → bytes = slice ct offset (data_len b) → (k = 0 ∨ data_len bytes = data_len b) →
  splice b 0 bytes ++ read_into ct (concat rest) (offset + data_len bytes) k = read_into ct (b ++ concat rest) offset (data_len bytes + k).
Proof using Type.
  intros Ho Hk Hr Hfull. assert (length bytes ≤ length b)%nat as Hle by (rewrite Hr; unfold slice, data_len; rewrite length_take; lia).
  assert (bytes = slice ct offset (data_len bytes)) as Hr'.
  { rewrite Hr at 2. rewrite data_len_slice by (unfold data_len; lia). rewrite Hr. destruct (decide (data_len b ≤ data_len ct - offset)).
    - f_equal. lia.
    - apply slice_short; lia. }
  unfold splice, read_into. rewrite Z2Nat.inj_0, take_0. cbn [app]. rewrite Nat.add_0_l, <- (slice_snoc ct offset (data_len bytes) k) by (unfold data_len; lia).
  rewrite <- Hr'. rewrite <- !app_assoc. f_equal. rewrite drop_app. destruct Hfull as [->|Hf].
  - rewrite Z.add_0_r. unfold slice. rewrite Z2Nat.inj_0, !take_0, drop_0. cbn [app]. unfold data_len. rewrite Nat2Z.id.
    replace (length bytes - length b)%nat with 0%nat by lia. by rewrite drop_0.
  - unfold data_len in Hf. rewrite (drop_ge b (length bytes)), (drop_ge b) by (unfold data_len; lia). cbn [app]. do 2 f_equal. unfold data_len. lia.
Qed.

Lemma read_stream_spec bufs offset total : Forall (λ b, b ≠ []) bufs → 0 ≤ offset → 0 ≤ total → offset + ub_len bufs ≤ usize_max → total + ub_len bufs ≤ usize_max →
  match read_stream i offset total bufs with
  | (bufs', o, Ok n) => let k := Z.min (ub_len bufs) (Z.max 0 (data_len ct - offset)) in
      n = total + k ∧ o = offset + k ∧ concat bufs' = read_into ct (concat bufs) offset k ∧ length <$> bufs' = length <$> bufs
  | (bufs', o, Err e) => (∃ off n, read_at i off n = Err e) ∧ offset ≤ o ≤ Z.max offset (data_len ct) ∧ length <$> bufs' = length <$> bufs
  end.
Proof using Hfile.
  revert offset total. induction bufs as [|b rest IH]; intros offset total Hne Ho Ht Hu1 Hu2.
  { simpl. unfold ub_len, data_len. simpl. split; [lia|]. split; [lia|]. split; [|done]. rewrite Z.min_l by lia. apply (read_nothing []). }
  apply Forall_cons in Hne as [Hb Hne]. assert (ub_len (b :: rest) = data_len b + ub_len rest) as Hul by (unfold ub_len, data_len; simpl; rewrite length_app; lia).
  assert (0 < data_len b) as Hbp by (unfold data_len; destruct b; [done|simpl; lia]). assert (0 ≤ ub_len rest) as Hrp by (unfold ub_len, data_len; lia).
  cbn [read_stream]. destruct (read_at i offset (data_len b)) as [bytes|e] eqn:Hr; [|split; [eauto|]; split; [lia|done]].
  apply i_read in Hr; [|done|done]. assert (data_len bytes = Z.min (data_len b) (Z.max 0 (data_len ct - offset))) as Hbl by (rewrite Hr, data_len_slice by lia; lia).
  remember (Z.max 0 (data_len ct - offset)) as left eqn:Hleft. set (n := data_len bytes) in *. destruct (Z.eqb_spec n 0) as [E|E].
  { assert (left = 0) as -> by lia. rewrite Z.min_r by lia. split; [lia|]. split; [lia|]. split; [apply read_nothing|done]. }
  rewrite !wrap64_small by (unfold is_usize; lia). specialize (IH (offset + n) (total + n) Hne ltac:(lia) ltac:(lia) ltac:(lia) ltac:(lia)).
  assert (length (splice b 0 bytes) = length b) as Hsl by (apply length_splice; [lia|]; unfold n, data_len in *; simpl; lia).
  destruct (read_stream i (offset + n) (total + n) rest) as [[rest' o] [m|e]].
  2: { destruct IH as (He & Hoo & Hl). split; [done|]. split; [lia|]. by rewrite !fmap_cons, Hsl, Hl. }
  destruct IH as (Hm & Hoo & Hc & Hl). assert (Z.max 0 (data_len ct - (offset + n)) = left - n) as Hln by lia. rewrite Hln in *.
  set (k := Z.min (ub_len rest) (left - n)) in *. assert (0 ≤ k) as Hk by (unfold k; lia).
  assert (Z.min (ub_len (b :: rest)) left = n + k) as -> by (unfold k; lia). split; [lia|]. split; [lia|].
  split; [|by rewrite !fmap_cons, Hsl, Hl]. simpl. rewrite Hc. apply (stream_join b rest bytes offset k Ho Hk Hr).
  destruct (decide (n = data_len b)) as [?|?]; [by right|]. left. unfold k. lia.
Qed.

(** The bytes of a whole slice are those that there are. *)
Lemma slice_trim off n : 0 ≤ off → 0 ≤ n → slice ct off n = slice ct off (data_len (slice ct off n)).
Proof using Type.
  intros Ho Hn. rewrite data_len_slice by done. destruct (decide (n ≤ data_len ct - off)); [f_equal; lia|]. apply slice_short; lia.
Qed.

Lemma read_bytes_spec c offset buf : ok c → 0 ≤ offset → Forall (λ b, b ≠ []) buf → buf ≠ [] → offset + ub_len buf ≤ usize_max →
  ∃ c' buf' o r, read_bytes cap c i offset buf = Done (c', buf', o, r) ∧ ok c' ∧ length <$> buf' = length <$> buf ∧
    match r with
    | Ok n => read_result ct offset buf buf' n ∧ o = offset + n
    | Err e => read_failed c e ∧ offset ≤ o ≤ Z.max offset (data_len ct)
    end.
Proof using Hcap Hfile Himg.
  intros Hok Ho Hne Hnil Hu. assert (0 < ub_len buf) as Hpos.
  { destruct buf as [|[|x b] buf]; [done|by apply Forall_cons in Hne as [? _]|]. unfold ub_len, data_len. simpl. lia. }
  unfold read_bytes. destruct (try_page_cached_read_spec c offset buf Hok Ho Hpos) as (c' & buf' & r & -> & Hok' & Hr). cbn [mbind]. simpl.
  assert (∀ n, direct ct (ub_len buf) = true → n = Z.min (ub_len buf) (Z.max 0 (data_len ct - offset)) → n = read_count ct offset (ub_len buf)) as Hdir.
  { intros n Hd ->. unfold read_count. by rewrite Hd. }
  destruct r as [[n|]|e].
  - destruct Hr as (_ & Hn & Hb & Hl). eexists _, _, _, _. split; [done|]. split; [done|]. split; [done|]. split; [done|]. apply wrap64_small. unfold is_usize.
    rewrite Hn. unfold read_count. pose proof (Z.mod_pos_bound offset PAGE_SIZE). unfold PAGE_SIZE in *. destruct (_ && _); lia.
  - destruct Hr as [Hd ->]. assert (∀ b bytes, data_len b = ub_len buf → concat buf = b → bytes = slice ct offset (data_len b) →
      data_len bytes = read_count ct offset (ub_len buf) ∧ read_into ct (concat buf) offset (data_len bytes) = bytes ++ drop (length bytes) b ∧ wrap64 (offset + data_len bytes) = offset + data_len bytes) as Hsingle.
    { intros b bytes Hbl -> Hbs. assert (data_len bytes = Z.min (ub_len buf) (Z.max 0 (data_len ct - offset))) as Hc by (rewrite Hbs, data_len_slice by lia; by rewrite Hbl).
      split; [by apply Hdir|]. split; [|apply wrap64_small; unfold is_usize; lia]. unfold read_into. rewrite Hbs. rewrite <- slice_trim by lia. f_equal. f_equal. unfold data_len. lia. }
    destruct buf as [|b [|b2 buf]]; [done| |].
    + destruct (read_at i offset (data_len b)) as [bytes|e] eqn:Hr.
      2: { eexists _, _, _, _. split; [done|]. split; [done|]. split; [done|]. split; [by right; eauto|lia]. }
      assert (ub_len [b] = data_len b) as Hub by (unfold ub_len; simpl; by rewrite app_nil_r).
      apply i_read in Hr; [|done|lia]. destruct (Hsingle b bytes) as (H1 & H2 & H3); [done|simpl; apply app_nil_r|done|].
      assert (length bytes ≤ length b)%nat as Hle by (rewrite Hr; unfold slice, data_len; rewrite length_take; lia).
      eexists _, _, _, _. split; [done|]. split; [done|]. assert (length <$> [splice b 0 bytes] = length <$> [b]) as Hl by (rewrite !fmap_cons; by rewrite length_splice by (simpl; lia)).
      split; [done|]. split; [|done]. split; [done|]. split; [|done]. rewrite H2. simpl. rewrite app_nil_r. unfold splice. simpl (Z.to_nat 0). by rewrite take_0.
    + set (buf0 := b :: b2 :: buf) in *. destruct (Z.leb_spec (ub_len buf0) MAX_AGGREGATED_READ) as [Hagg|Hbig].
      * destruct (read_at i offset (ub_len buf0)) as [bytes|e] eqn:Hr.
        2: { eexists _, _, _, _. split; [done|]. split; [done|]. split; [done|]. split; [by right; eauto|lia]. }
        apply i_read in Hr; [|done|lia]. destruct (Hsingle (concat buf0) bytes) as (H1 & H2 & H3); [done|done|done|].
        destruct (Z.eqb_spec (data_len bytes) 0) as [E|E]; (eexists _, _, _, _; split; [done|]; split; [done|]).
        -- split; [done|]. split; [|lia]. split; [by rewrite <- E|]. split; [apply read_nothing|done].
        -- assert (data_len bytes ≤ ub_len buf0) as Hle by (rewrite Hr, data_len_slice by lia; lia). destruct (ub_write_spec buf0 bytes Hle) as [Hw1 Hw2].
           split; [done|]. split; [|done]. split; [done|]. split; [by rewrite Hw1, H2|done].
      * pose proof (read_stream_spec buf0 offset 0 Hne Ho ltac:(lia) Hu ltac:(lia)) as Hs. destruct (read_stream i offset 0 buf0) as [[buf' o] [n|e]].
        -- destruct Hs as (Hn & Hoo & Hc & Hl). rewrite Z.add_0_l in Hn. eexists _, _, _, _. split; [done|]. split; [done|]. split; [done|]. subst n o. split; [|done].
           split; [by apply Hdir|]. split; [done|done].
        -- destruct Hs as (He & Hoo & Hl). eexists _, _, _, _. split; [done|]. split; [done|]. split; [done|]. split; [by right|lia].
  - destruct Hr as [-> He]. eexists _, _, _, _. split; [done|]. split; [done|]. split; [done|]. split; [done|lia].
Qed.
End read.
