(* ===== verification/OsFileWrite.v ===== *)
(** * Writes, and the files of a system

    What a write does to the bytes of a file and to the pages of it that the cache
    holds; the invariant of the files together with the cache. *)

From S2P Require Import Prelude Errno Bytes RefCount FrameAlloc FramePool FileCache FileCacheInv FileCacheOps FileCacheLoad OsFile OsFileSpec.

(** ** Bytes of a file after a write *)

Lemma data_len_write d off b : 0 ≤ off → data_len (write_bytes d off b) = Z.max (data_len d) (off + data_len b).
Proof.
  intros Ho. unfold write_bytes. assert (data_len (d ++ zeros (off + data_len b - data_len d)) = Z.max (data_len d) (off + data_len b)) as Hl.
  { unfold zeros, data_len. rewrite length_app, length_replicate. unfold data_len in *. lia. }
  rewrite length_splice_Z; [done|lia|]. rewrite Hl. lia.
Qed.
(** A byte outside the range is as before. *)
Lemma lookup_write d off b n : 0 ≤ off ≤ data_len d →
  write_bytes d off b !! n = if decide (off ≤ Z.of_nat n < off + data_len b) then b !! (n - Z.to_nat off)%nat else d !! n.
Proof.
  intros Ho. unfold write_bytes. assert (Z.of_nat (length (zeros (off + data_len b - data_len d))) = Z.max 0 (off + data_len b - data_len d)) as Hz.
  { unfold zeros. rewrite length_replicate. lia. }
  unfold data_len in *. rewrite lookup_splice; [|lia|rewrite length_app; lia].
  destruct (decide (off ≤ Z.of_nat n < off + Z.of_nat (length b))) as [Hin|Hout]; [by rewrite decide_True by lia|]. rewrite decide_False by lia.
  destruct (decide (n < length d)%nat); [by rewrite lookup_app_l|]. rewrite lookup_app_r by lia. rewrite (lookup_ge_None_2 d) by lia. apply lookup_ge_None_2. lia.
Qed.
Lemma write_bytes_app d off a b : 0 ≤ off ≤ data_len d → write_bytes (write_bytes d off a) (off + data_len a) b = write_bytes d off (a ++ b).
Proof.
  intros Ho. apply list_eq. intros n. assert (0 ≤ data_len a) as Ha by (unfold data_len; lia). assert (data_len (a ++ b) = data_len a + data_len b) as Hab by (unfold data_len; rewrite length_app; lia).
  rewrite !lookup_write by (rewrite ?data_len_write; lia). rewrite Hab.
  destruct (decide (off + data_len a ≤ Z.of_nat n < off + data_len a + data_len b)) as [H1|H1].
  - rewrite decide_True by lia. rewrite lookup_app_r by (unfold data_len in *; lia). f_equal. unfold data_len in *. lia.
  - destruct (decide (off ≤ Z.of_nat n < off + data_len a)) as [H2|H2].
    + rewrite decide_True by (unfold data_len in *; lia). rewrite lookup_app_l by (unfold data_len in *; lia). done.
    + rewrite decide_False by lia. done.
Qed.
Lemma write_bytes_nil d off : 0 ≤ off ≤ data_len d → write_bytes d off [] = d.
Proof. intros Ho. apply list_eq. intros n. rewrite lookup_write by done. rewrite decide_False; [done|]. unfold data_len. simpl. lia. Qed.

Lemma lookup_page_slice d j m : 0 ≤ j → page_slice d j !! m = if decide (Z.of_nat m < PAGE_SIZE) then d !! (Z.to_nat (j * PAGE_SIZE) + m)%nat else None.
Proof.
  intros Hj. unfold page_slice. case_decide as Hm.
  - apply lookup_slice; unfold PAGE_SIZE in *; lia.
  - apply lookup_ge_None_2. unfold slice. rewrite length_take. unfold PAGE_SIZE in *. lia.
Qed.
(** Pages outside the range keep their image, if the write leaves no gap. *)
Lemma image_write d off b j : 0 ≤ off ≤ data_len d → 0 ≤ j → (j + 1) * PAGE_SIZE ≤ off ∨ off + data_len b ≤ j * PAGE_SIZE →
  image (write_bytes d off b) j = image d j.
Proof.
  intros Ho Hj Hout. unfold image. assert (page_slice (write_bytes d off b) j = page_slice d j) as ->; [|done].
  apply list_eq. intros m. rewrite !lookup_page_slice by done. case_decide as Hm; [|done]. rewrite lookup_write by done. rewrite decide_False; [done|].
  unfold PAGE_SIZE in *. lia.
Qed.

(** ** A file in memory: the simplest inode *)

Record MemInode : Type := mkMem { mi_path : string; mi_data : list Z }.
Definition mem_fits (n : Z) : bool := n <=? i64_max.
#[export] Instance MemInode_ops : Inode MemInode := {
  types i := if mem_fits (data_len (mi_data i)) then File else Unknown;
  size i := data_len (mi_data i);
  path := mi_path;
  page_cache_path i := Some (mi_path i);
  read_at i off n := Ok (slice (mi_data i) off n);
  write_at i off b := if mem_fits (off + data_len b) then (mkMem (mi_path i) (write_bytes (mi_data i) off b), Ok (data_len b)) else (i, Err EFBIG);
  file_truncate i n := if mem_fits n then (mkMem (mi_path i) (truncate_bytes (mi_data i) n), Ok 0) else (i, Err EFBIG);
  seek_data i off := if off <? data_len (mi_data i) then Ok off else Err ENXIO;
  seek_hole i off := if off <? data_len (mi_data i) then Ok (data_len (mi_data i)) else Err ENXIO
}.

Lemma mem_type n : (if mem_fits n then File else Unknown) = File ↔ n ≤ i64_max.
Proof. unfold mem_fits. destruct (Z.leb_spec n i64_max); split; (done || lia). Qed.
Lemma data_len_truncate d n : 0 ≤ n → data_len (truncate_bytes d n) = n.
Proof. intros Hn. unfold truncate_bytes, zeros, data_len. rewrite length_app, length_take, length_replicate. unfold data_len. lia. Qed.

#[export, refine] Instance MemInode_laws : InodeLaws MemInode := { contents := mi_data }.
Proof.
  - intros i Hf. simpl in *. apply mem_type in Hf. done.
  - by intros i off n b _ _ _ [= <-].
  - done.
  - intros i off b Hf Ho Hb. simpl in *. pose proof Hf as Hf'. apply mem_type in Hf'. destruct (mem_fits (off + data_len b)) eqn:E; simpl; [|done].
    unfold mem_fits in E. apply Z.leb_le in E. split; [|done]. apply mem_type. rewrite data_len_write by done. lia.
  - intros i n Hf Hn. simpl in *. destruct (mem_fits n) eqn:E; simpl; [|done]. unfold mem_fits in E. apply Z.leb_le in E. split; [|done]. apply mem_type. by rewrite data_len_truncate.
  - intros i off n Ho. simpl. destruct (off <? _); [|by intros [?|?]]. intros [[= <-]|[= <-]]; [done|unfold data_len; lia].
Defined.

Section files.
Context {Src : Type} `{!FrameSource Src} `{!FramePool Src} {I : Type} `{!Inode I} `{!InodeLaws I} (cap : Z) (Hcap : cap ≤ usize_max).
Notation St := (FsState Src I).
Implicit Types (st : St) (fl : OSFile) (pth : string).

(** The page that a key stands for; a length of -1 means that there is none. *)
Definition img_of (d : gmap string I) (k : FilePageKey) : Z * list Z :=
  match d !! k_path k with
  | Some i => if 0 <=? page_index k then image (contents i) (page_index k) else (-1, [])
  | None => (-1, [])
  end.

(** Cache and files: the invariant. *)
Record files_ok st (ph fh : Z → nat) (resv : Z) : Prop := {
  fo_cache : cache_ok cap (cache st) ph fh resv;
  fo_coherent : coherent (img_of (disk st)) (cache st);
  fo_paths p i : disk st !! p = Some i → path i = p }.

Lemma img_of_inode st ph fh resv p i : files_ok st ph fh resv → disk st !! p = Some i → ∀ j, 0 ≤ j → img_of (disk st) (mkKey (cache_path i) j) = image (contents i) j.
Proof using Type.
  intros H Hi j Hj. unfold img_of. simpl. rewrite il_cache_path, (fo_paths st ph fh resv H p i Hi), Hi. by rewrite (proj2 (Z.leb_le 0 j)).
Qed.
(** Only pages of files are resident. *)
Lemma resident_file st ph fh resv k f : files_ok st ph fh resv → resident (cache st) k = Some f → ∃ i, disk st !! k_path k = Some i ∧ 0 ≤ page_index k.
Proof using Type.
  intros H Hr. pose proof (fo_coherent st ph fh resv H k f Hr) as Hg. unfold good, obj_data in Hg.
  destruct (objs (cache st) !! f) as [p|] eqn:Hp; [|done]. destruct (ho_framed _ _ _ (ca_heap _ _ _ _ _ (fo_cache st ph fh resv H)) f p Hp) as [[fr Hfr] Hv].
  rewrite Hfr in Hg. simpl in Hg. injection Hg as _ Hvl _. unfold img_of in Hvl. destruct (disk st !! k_path k) as [i|]; [|simpl in Hvl; lia].
  exists i. split; [done|]. destruct (Z.leb_spec 0 (page_index k)); [done|]. simpl in Hvl. lia.
Qed.

(** New contents and a cache without the pages they concern. *)
Lemma files_ok_update st ph fh resv c i pth d' : files_ok st ph fh resv → d' = <[pth := i]> (disk st) → path i = pth → cache_ok cap c ph fh resv → shrinks (cache st) c →
  (∀ k f i0, resident c k = Some f → k_path k = pth → disk st !! pth = Some i0 → 0 ≤ page_index k → image (contents i) (page_index k) = image (contents i0) (page_index k)) →
  files_ok (with_cache (with_disk st d') c) ph fh resv.
Proof using Type.
  intros H -> Hp Hok Hsh Himg. split; simpl; [done| |].
  - intros k f Hr. pose proof Hsh as [_ Hres]. pose proof (Hres k f Hr) as Hr0. destruct (resident_file st ph fh resv k f H Hr0) as (i0 & Hi0 & Hj).
    assert (img_of (<[pth := i]> (disk st)) k = img_of (disk st) k) as Heq.
    { unfold img_of. destruct (decide (k_path k = pth)) as [He|He]; [|by rewrite lookup_insert_ne]. rewrite He, lookup_insert_eq. rewrite He in Hi0. rewrite Hi0.
      rewrite (proj2 (Z.leb_le _ _) Hj). by apply (Himg k f i0). }
    unfold good. rewrite Heq. by apply (coherent_shrinks (img_of (disk st)) (cache st) c ph fh (fo_coherent _ _ _ _ H) Hsh (ca_heap _ _ _ _ _ Hok)).
  - intros p i' [[<- <-]|[_ Hi]]%lookup_insert_Some; [done|]. by apply (fo_paths st ph fh resv H).
Qed.

(** ** Reads *)

Lemma os_read_spec st ph fh resv fl i buf : files_ok st ph fh resv → disk st !! inode fl = Some i → types i = File → 0 ≤ f_offset fl →
  Forall (λ b, b ≠ []) buf → f_offset fl + ub_len buf ≤ usize_max →
  ∃ st' o buf' r, os_read cap st fl buf = Done (st', with_offset fl o, buf', r) ∧ files_ok st' ph fh resv ∧ disk st' = disk st ∧ FILE_FLAGS st' = FILE_FLAGS st ∧ length <$> buf' = length <$> buf ∧
    match r with
    | Ok n => read_result (contents i) (f_offset fl) buf buf' n ∧ o = f_offset fl + n
    | Err e => read_failed i (cache st) e ∧ f_offset fl ≤ o ≤ Z.max (f_offset fl) (data_len (contents i))
    end.
Proof using Hcap.
  intros H Hi Hf Ho Hne Hu. unfold os_read. rewrite Hi. cbn [mbind]. simpl. destruct buf as [|b buf].
  { exists st, (f_offset fl), [], (Ok 0). simpl. split; [by destruct fl|]. split; [done|]. split; [done|]. split; [done|]. split; [done|]. split; [|lia]. split; [|split; [apply (read_nothing i [])|done]].
    unfold read_count, ub_len, data_len. simpl. destruct (_ && _); [|lia]. pose proof (Z.mod_pos_bound (f_offset fl) PAGE_SIZE). unfold PAGE_SIZE in *. lia. }
  assert (ub_len (b :: buf) ≠ 0) as Hnz.
  { apply Forall_cons in Hne as [Hb _]. unfold ub_len, data_len. destruct b; [done|]. simpl. lia. }
  rewrite (proj2 (Z.eqb_neq _ 0)) by done. cbn [nonempty negb orb].
  destruct (read_bytes_spec cap Hcap (img_of (disk st)) i Hf (img_of_inode st ph fh resv _ i H Hi) ph fh resv (cache st) (f_offset fl) (b :: buf)) as (c' & buf' & o & r & -> & [Hok Hc] & Hl & Hr);
    [split; apply H|done|done|done|done|]. cbn [mbind]. simpl.
  assert (files_ok (with_cache st c') ph fh resv) as Hfo by (split; [done|done|apply H]).
  destruct r as [n|e]; [|eexists _, _, _, _; split; [done|]; split; [done|]; split; [done|]; split; [done|]; split; [done|exact Hr]].
  destruct (_ && _); (eexists _, _, _, _; split; [done|]; split; [by split; [done|done|apply H]|]; split; [done|]; split; [done|]; split; [done|exact Hr]).
Qed.

(** ** Writes *)

Lemma sync_pipe_spec st pth b : let r := sync_pipe_max_size_sysctl st pth b in
  cache r.1 = cache st ∧ disk r.1 = disk st ∧ FILE_FLAGS r.1 = FILE_FLAGS st ∧ ∀ e, r.2 = Err e → e = EINVAL ∧ pth = PIPE_MAX_SIZE_PATH.
Proof using Type.
  unfold sync_pipe_max_size_sysctl, set_pipe_max_size. case_bool_decide as Hp; [|by simpl]. simpl. destruct (nonempty b); simpl; [|done].
  destruct (_ =? _)%nat; simpl; [by split_and!; [..|intros e [= <-]]|]. destruct (parse_digits 0 _); simpl; [|by split_and!; [..|intros e [= <-]]].
  destruct (_ || _); simpl; [by split_and!; [..|intros e [= <-]]|done].
Qed.
Lemma files_ok_same st st' ph fh resv : files_ok st ph fh resv → cache st' = cache st → disk st' = disk st → files_ok st' ph fh resv.
Proof using Type. intros [? ? ?] Hc Hd. by split; rewrite ?Hc, ?Hd. Qed.

(** One slice: the bytes change and the pages they touch leave the cache. *)
Lemma write_slice_spec st ph fh resv pth i off b i' n : files_ok st ph fh resv → disk st !! pth = Some i → types i = File → 0 ≤ off ≤ data_len (contents i) → b ≠ [] →
  write_at i off b = (i', Ok n) →
  n = data_len b ∧ off + data_len b ≤ i64_max ∧ types i' = File ∧ path i' = pth ∧ contents i' = write_bytes (contents i) off b ∧
  files_ok (with_cache (with_disk st (<[pth := i']> (disk st))) (invalidate_path_range (cache st) pth off n)) ph fh resv.
Proof using Hcap.
  intros H Hi Hf Ho Hb Hw. destruct (il_write i off b Hf (proj1 Ho) Hb) as (Hf' & Hp' & Hr). rewrite Hw in *. simpl in *. destruct Hr as (-> & Hle & Hc).
  rewrite (fo_paths st ph fh resv H pth i Hi) in Hp'. split; [done|]. split; [done|]. split; [done|]. split; [done|]. split; [done|].
  assert (0 ≤ data_len b) as Hbl by (unfold data_len; lia).
  destruct (invalidate_path_range_spec cap Hcap (cache st) ph fh resv pth off (data_len b) (fo_cache _ _ _ _ H)) as (Hok & Hsh & Hres);
    [lia|done|unfold i64_max, usize_max, PAGE_SIZE in *; lia|]. eapply (files_ok_update st ph fh resv _ i' pth); [exact H|reflexivity|exact Hp'|exact Hok|exact Hsh|]. intros k f i0 Hk Hpath Hi0 Hj. rewrite Hi in Hi0. injection Hi0 as <-.
  rewrite Hc. apply image_write; [done|done|]. rewrite Hres in Hk. unfold range_hits in Hk. rewrite bool_decide_eq_true_2 in Hk by done. simpl in Hk.
  destruct (Z.ltb_spec (page_index k * PAGE_SIZE) (off + data_len b)); [|lia]. destruct (Z.ltb_spec off ((page_index k + 1) * PAGE_SIZE)); [|lia]. simpl in Hk.
  destruct (Z.ltb_spec 0 (data_len b)) as [|Hz]; [done|]. exfalso. unfold data_len in Hz. destruct b; [done|]. simpl in Hz. lia.
Qed.

(** Why a write fails. *)
Definition write_failed pth (e : SysErrNo) : Prop := (e = EINVAL ∧ pth = PIPE_MAX_SIZE_PATH) ∨ ∃ (j j' : I) off b, write_at j off b = (j', Err e).

(** The file after a write of the first [m] slices of [bufs]. *)
Definition written st st' pth (i : I) (off : Z) (bufs : UserBuffer) (m : nat) : Prop :=
  (∃ i', disk st' !! pth = Some i' ∧ types i' = File ∧ contents i' = write_bytes (contents i) off (concat (take m bufs))) ∧
  (∀ p, p ≠ pth → disk st' !! p = disk st !! p) ∧ FILE_FLAGS st' = FILE_FLAGS st.

Lemma write_loop_spec bufs st ph fh resv pth i off total : files_ok st ph fh resv → disk st !! pth = Some i → types i = File → 0 ≤ off ≤ data_len (contents i) →
  Forall (λ b, b ≠ []) bufs → 0 ≤ total → total + ub_len bufs ≤ usize_max →
  ∃ st' o r m, write_loop st pth pth off total bufs = Done (st', o, r) ∧ files_ok st' ph fh resv ∧ written st st' pth i off bufs m ∧
    o = off + data_len (concat (take m bufs)) ∧
    match r with Ok n => m = length bufs ∧ n = total + ub_len bufs | Err e => write_failed pth e end.
Proof using Hcap.
  revert st i off total. induction bufs as [|b bufs IH]; intros st i off total H Hi Hf Ho Hne Ht Hu.
  { eexists _, _, _, 0%nat. split; [done|]. split; [done|]. simpl. split; [|split; [unfold data_len; simpl; lia|split; [done|unfold ub_len, data_len; simpl; lia]]].
    split; [|done]. exists i. split; [done|]. split; [done|]. by rewrite write_bytes_nil. }
  apply Forall_cons in Hne as [Hb Hne]. cbn [write_loop]. destruct (sync_pipe_spec st pth b) as (Hc1 & Hd1 & Hf1 & He1).
  assert (written st (sync_pipe_max_size_sysctl st pth b).1 pth i off (b :: bufs) 0) as Hw0.
  { split; [|by rewrite Hd1]. exists i. rewrite Hd1. split; [done|]. split; [done|]. simpl. by rewrite write_bytes_nil. }
  destruct (sync_pipe_max_size_sysctl st pth b) as [st1 [u|e]]; cbn [fst snd] in *.
  2: { eexists _, _, _, 0%nat. split; [done|]. split; [by apply (files_ok_same st)|]. split; [exact Hw0|]. split; [unfold data_len; simpl; lia|]. left. by apply He1. }
  assert (files_ok st1 ph fh resv) as H1 by (by apply (files_ok_same st)). assert (disk st1 !! pth = Some i) as Hi1 by (by rewrite Hd1). rewrite Hi1. cbn [mbind]. simpl.
  destruct (write_at i off b) as [i' [n|e]] eqn:Hw.
  2: { destruct (il_write i off b Hf (proj1 Ho) Hb) as (Hf' & Hp' & Hr). rewrite Hw in *. simpl in *. rewrite (fo_paths st1 ph fh resv H1 pth i Hi1) in Hp'.
    eexists _, _, _, 0%nat. split; [done|]. split; [|split; [|split; [unfold data_len; simpl; lia|right; eauto]]].
    - apply (files_ok_same (with_cache (with_disk st1 (<[pth := i']> (disk st1))) (cache st1))); [|done|done]. eapply (files_ok_update st1 ph fh resv _ i' pth); [exact H1|reflexivity|exact Hp'|apply H1|reflexivity|].
      intros k f i0 _ _ Hi0 _. rewrite Hi1 in Hi0. injection Hi0 as <-. by rewrite Hr.
    - split; [exists i'; simpl; rewrite lookup_insert_eq; split; [done|]; split; [done|]; by rewrite Hr, write_bytes_nil|]. split; [|done]. intros p Hp. simpl. by rewrite lookup_insert_ne, Hd1. }
  destruct (write_slice_spec st1 ph fh resv pth i off b i' n H1 Hi1 Hf Ho Hb Hw) as (-> & Hle & Hf' & Hp' & Hc' & H2). rewrite Z.eqb_refl. cbn [mbind assert_that]. simpl.
  assert (ub_len (b :: bufs) = data_len b + ub_len bufs) as Hul by (unfold ub_len, data_len; simpl; rewrite length_app; lia).
  assert (0 ≤ data_len b ∧ 0 ≤ ub_len bufs) as [Hbl Hrl] by (unfold ub_len, data_len; lia). rewrite !wrap64_small by (unfold is_usize, i64_max, usize_max in *; lia).
  set (st2 := with_cache _ _) in *. destruct (IH st2 i' (off + data_len b) (total + data_len b) H2) as (st' & o & r & m & Hrun & H3 & Hw3 & Ho3 & Hr3).
  - simpl. by rewrite lookup_insert_eq.
  - done.
  - rewrite Hc', data_len_write by lia. lia.
  - done.
  - lia.
  - lia.
  - exists st', o, r, (S m). split; [exact Hrun|]. split; [done|]. split; [|split].
    + destruct Hw3 as ((i3 & Hi3 & Hf3 & Hc3) & Hd3 & Hfl). split; [|split; [intros p Hp; rewrite Hd3 by done; simpl; by rewrite lookup_insert_ne, Hd1|by rewrite Hfl]].
      exists i3. split; [done|]. split; [done|]. rewrite Hc3, Hc'. simpl. by apply write_bytes_app.
    + rewrite Ho3. unfold data_len. simpl. rewrite length_app. lia.
    + destruct r; [|done]. destruct Hr3 as [-> ->]. split; [done|lia].
Qed.

Lemma os_write_spec st ph fh resv fl i bufs : files_ok st ph fh resv → disk st !! inode fl = Some i → types i = File →
  0 ≤ f_offset fl → (append fl = true ∨ f_offset fl ≤ data_len (contents i)) → Forall (λ b, b ≠ []) bufs → ub_len bufs ≤ usize_max →
  let off := if append fl then data_len (contents i) else f_offset fl in
  ∃ st' o r m, os_write st fl bufs = Done (st', with_offset fl o, r) ∧ files_ok st' ph fh resv ∧ written st st' (inode fl) i off bufs m ∧
    match r with
    | Ok n => m = length bufs ∧ n = ub_len bufs ∧ o = off + n
    | Err EPERM => (is_immutable_path st (inode fl) = true ∧ m = 0%nat ∧ o = f_offset fl) ∨ (write_failed (inode fl) EPERM ∧ o = off + data_len (concat (take m bufs)))
    | Err e => write_failed (inode fl) e ∧ o = off + data_len (concat (take m bufs))
    end.
Proof using Hcap.
  intros H Hi Hf Ho Hgap Hne Hu off. unfold os_write. rewrite Hi. cbn [mbind]. simpl. rewrite (fo_paths st ph fh resv H _ i Hi).
  assert (0 ≤ off ≤ data_len (contents i)) as Hoff by (unfold off; destruct (append fl); [unfold data_len; lia|destruct Hgap; [done|lia]]).
  destruct (is_immutable_path st (inode fl)) eqn:Him.
  { exists st, (f_offset fl), (Err EPERM), 0%nat. split; [by destruct fl|]. split; [done|]. split; [|by left]. split; [|done]. exists i. split; [done|]. split; [done|]. simpl. by rewrite write_bytes_nil. }
  assert ((if append fl then size i else f_offset fl) = off) as -> by (unfold off; destruct (append fl); [by apply il_size|done]).
  destruct (write_loop_spec bufs st ph fh resv (inode fl) i off 0 H Hi Hf Hoff Hne) as (st' & o & r & m & -> & H' & Hw & Hoo & Hr); [lia|lia|]. cbn [mbind]. simpl.
  destruct r as [n|e].
  - destruct Hr as [-> ->]. rewrite Z.add_0_l. assert (o = off + ub_len bufs) as Ho' by (rewrite Hoo, firstn_all; done).
    destruct (_ && _); (eexists _, _, _, (length bufs); split; [done|]; split; [|split; [exact Hw|done]]); [|done]. by apply (files_ok_same st').
  - exists st', o, (Err e), m. split; [done|]. split; [done|]. split; [done|]. destruct e; try (split; [done|done]). right. done.
Qed.

Lemma os_truncate_spec st ph fh resv pth i n : files_ok st ph fh resv → disk st !! pth = Some i → types i = File → 0 ≤ n →
  ∃ st' r, os_truncate st pth n = Done (st', r) ∧ files_ok st' ph fh resv ∧ FILE_FLAGS st' = FILE_FLAGS st ∧ (∀ p, p ≠ pth → disk st' !! p = disk st !! p) ∧
    ∃ i', disk st' !! pth = Some i' ∧ types i' = File ∧
    match r with
    | Ok m => m = 0 ∧ contents i' = truncate_bytes (contents i) n
    | Err e => contents i' = contents i ∧ ∃ j j' m, file_truncate j m = (j', Err e)
    end.
Proof using Hcap.
  intros H Hi Hf Hn. unfold os_truncate. rewrite Hi. cbn [mbind]. simpl. destruct (il_truncate i n Hf Hn) as (Hf' & Hp' & Hr).
  destruct (file_truncate i n) as [i' [m|e]] eqn:Ht; simpl in *; rewrite (fo_paths st ph fh resv H pth i Hi) in *.
  - destruct (invalidate_path_spec cap Hcap (cache st) ph fh resv pth (fo_cache _ _ _ _ H)) as (Hok & Hsh & Hres).
    eexists _, _. split; [done|]. split; [|split; [done|split; [intros p Hp; simpl; by rewrite lookup_insert_ne|]]].
    + eapply (files_ok_update st ph fh resv _ i' pth); [exact H|reflexivity|apply Hp'|exact Hok|exact Hsh|]. intros k f i0 Hk Hpath _ _. rewrite Hres in Hk. rewrite decide_True in Hk by exact Hpath. discriminate Hk.
    + exists i'. simpl. rewrite lookup_insert_eq. split; [done|]. split; [done|]. split; [done|]. apply Hr.
  - eexists _, _. split; [done|]. split; [|split; [done|split; [intros p Hp; simpl; by rewrite lookup_insert_ne|]]].
    + apply (files_ok_same (with_cache (with_disk st (<[pth := i']> (disk st))) (cache st))); [|done|done]. eapply (files_ok_update st ph fh resv _ i' pth); [exact H|reflexivity|apply Hp'|apply H|reflexivity|].
      intros k f i0 _ _ Hi0 _. rewrite Hi in Hi0. injection Hi0 as <-. by rewrite Hr.
    + exists i'. simpl. rewrite lookup_insert_eq. split; [done|]. split; [done|]. split; [done|]. eauto.
Qed.
End files.
