(* ===== verification/OsFileRefine.v ===== *)
(** * Regular files refine flat sequences of bytes

    The files of a system with several descriptors per file: descriptors, files
    and the page cache together implement one sequence of bytes per file and one
    offset per open file description, as long as no write leaves a gap behind the
    end of a file.  The closed examples at the end show what happens if one does,
    if a load races with a write, and where a short read ends. *)

From S2P Require Import Prelude Errno Bytes RefCount FrameAlloc FramePool FileCache FileCacheInv FileCacheOps FileCacheLoad OsFile OsFileSpec OsFileWrite.

(** ** Operations of a system *)

Inductive FileOp : Type :=
| FOpen (fd : Z) (pth : string) (readable writable app : bool)
| FRead (fd : Z) (buf : UserBuffer)
| FWrite (fd : Z) (bufs : UserBuffer)
| FSeek (fd offset whence : Z)
| FTruncate (pth : string) (n : Z)
| FSetFlags (fd flags : Z)
| FClose (fd : Z).

(** What the caller gets: a number or an error, and its buffer. *)
Definition Out : Type := result SysErrNo Z * UserBuffer.

(** ** The flat specification *)

Record Flat : Type := mkFlat { fl_data : gmap string (list Z); fl_files : gmap Z OSFile; fl_flags : gmap string Z }.
Definition flat_seek (a : Flat) (fd : Z) (fl : OSFile) (o : Z) : Flat := mkFlat (fl_data a) (<[fd := with_offset fl o]> (fl_files a)) (fl_flags a).
Definition flat_put (a : Flat) (pth : string) (d : list Z) : Flat := mkFlat (<[pth := d]> (fl_data a)) (fl_files a) (fl_flags a).

(** One operation.  A failed read leaves the files alone; a failed write has written
    whole slices from the front, and the offset stands behind them. *)
Inductive flat_step : Flat → FileOp → Out → Flat → Prop :=
| flat_open a fd pth fl d r w app : fl_data a !! pth = Some d → inode fl = pth → f_offset fl = 0 → f_readable fl = r → f_writable fl = w → append fl = app →
    flat_step a (FOpen fd pth r w app) (Ok fd, []) (mkFlat (fl_data a) (<[fd := fl]> (fl_files a)) (fl_flags a))
| flat_read a fd fl d buf buf' n : fl_files a !! fd = Some fl → fl_data a !! inode fl = Some d → read_result d (f_offset fl) buf buf' n →
    flat_step a (FRead fd buf) (Ok n, buf') (flat_seek a fd fl (f_offset fl + n))
| flat_read_err a fd fl d buf buf' e o : fl_files a !! fd = Some fl → fl_data a !! inode fl = Some d →
    f_offset fl ≤ o ≤ Z.max (f_offset fl) (data_len d) → length <$> buf' = length <$> buf →
    flat_step a (FRead fd buf) (Err e, buf') (flat_seek a fd fl o)
| flat_write a fd fl d bufs off : fl_files a !! fd = Some fl → fl_data a !! inode fl = Some d → off = (if append fl then data_len d else f_offset fl) →
    flat_step a (FWrite fd bufs) (Ok (ub_len bufs), [])
      (flat_seek (flat_put a (inode fl) (write_bytes d off (concat bufs))) fd fl (off + ub_len bufs))
| flat_write_immutable a fd fl bufs : fl_files a !! fd = Some fl → intersects (default 0 (fl_flags a !! inode fl)) FS_IMMUTABLE_FL = true →
    flat_step a (FWrite fd bufs) (Err EPERM, []) a
| flat_write_err a fd fl d bufs off m e : fl_files a !! fd = Some fl → fl_data a !! inode fl = Some d → off = (if append fl then data_len d else f_offset fl) →
    flat_step a (FWrite fd bufs) (Err e, [])
      (flat_seek (flat_put a (inode fl) (write_bytes d off (concat (take m bufs)))) fd fl (off + data_len (concat (take m bufs))))
| flat_lseek a fd fl offset whence o : fl_files a !! fd = Some fl → 0 ≤ o ≤ i64_max →
    (whence = SEEK_SET → o = offset) → (whence = SEEK_CUR → o = f_offset fl + offset) →
    (whence = SEEK_END → ∃ d, fl_data a !! inode fl = Some d ∧ o = data_len d + offset) →
    flat_step a (FSeek fd offset whence) (Ok o, []) (flat_seek a fd fl o)
| flat_lseek_err a fd offset whence e : flat_step a (FSeek fd offset whence) (Err e, []) a
| flat_truncate a pth d n : fl_data a !! pth = Some d → flat_step a (FTruncate pth n) (Ok 0, []) (flat_put a pth (truncate_bytes d n))
| flat_truncate_err a pth n e : flat_step a (FTruncate pth n) (Err e, []) a
| flat_flags a fd fl flags : fl_files a !! fd = Some fl →
    flat_step a (FSetFlags fd flags) (Ok 0, [])
      (mkFlat (fl_data a) (fl_files a) (if flags =? 0 then delete (inode fl) (fl_flags a) else <[inode fl := flags]> (fl_flags a)))
| flat_close a fd : flat_step a (FClose fd) (Ok 0, []) (mkFlat (fl_data a) (delete fd (fl_files a)) (fl_flags a)).

Section system.
Context {Src : Type} `{!FrameSource Src} `{!FramePool Src} {I : Type} `{!Inode I} `{!InodeLaws I} (cap : Z) (Hcap : cap ≤ usize_max).
Notation St := (FsState Src I).

Record System : Type := mkSystem { fs : St; open_files : gmap Z OSFile }.

Definition run_op (s : System) (op : FileOp) : comp (System * Out) :=
  match op with
  | FOpen fd pth r w app =>
      '(st, fl) ← osfile_new (fs s) r w app pth; Done (mkSystem st (<[fd := fl]> (open_files s)), (Ok fd, []))
  | FRead fd buf =>
      fl ← unwrap (open_files s !! fd);
      '(st, fl, buf, r) ← os_read cap (fs s) fl buf; Done (mkSystem st (<[fd := fl]> (open_files s)), (r, buf))
  | FWrite fd bufs =>
      fl ← unwrap (open_files s !! fd);
      '(st, fl, r) ← os_write (fs s) fl bufs; Done (mkSystem st (<[fd := fl]> (open_files s)), (r, []))
  | FSeek fd offset whence =>
      fl ← unwrap (open_files s !! fd);
      i ← unwrap (disk (fs s) !! inode fl);
      let '(fl, r) := os_lseek i fl offset whence in Done (mkSystem (fs s) (<[fd := fl]> (open_files s)), (r, []))
  | FTruncate pth n => '(st, r) ← os_truncate (fs s) pth n; Done (mkSystem st (open_files s), (r, []))
  | FSetFlags fd flags =>
      fl ← unwrap (open_files s !! fd);
      '(st, _, r) ← os_ioctl (fs s) fl (Some (SetFlags (Some flags))); Done (mkSystem st (open_files s), (r, []))
  | FClose fd =>
      fl ← unwrap (open_files s !! fd);
      st ← osfile_drop (fs s) fl; Done (mkSystem st (delete fd (open_files s)), (Ok 0, []))
  end.

Definition flat (s : System) : Flat := mkFlat (contents <$> disk (fs s)) (open_files s) (FILE_FLAGS (fs s)).

(** Buffers as the system calls make them: no empty slices, at most [isize::MAX] bytes. *)
Definition buffer_ok (buf : UserBuffer) : Prop := Forall (λ b, b ≠ []) buf ∧ ub_len buf ≤ i64_max.

(** The operations considered: on open descriptors of regular files; a write starts
    within the file or at its end. *)
Definition allowed (s : System) (op : FileOp) : Prop :=
  match op with
  | FOpen fd pth _ _ _ => open_files s !! fd = None ∧ ∃ i, disk (fs s) !! pth = Some i ∧ types i = File
  | FRead fd buf => is_Some (open_files s !! fd) ∧ buffer_ok buf
  | FWrite fd bufs => buffer_ok bufs ∧ ∃ fl i, open_files s !! fd = Some fl ∧ disk (fs s) !! inode fl = Some i ∧
      (append fl = true ∨ f_offset fl ≤ data_len (contents i))
  | FTruncate pth n => 0 ≤ n ∧ ∃ i, disk (fs s) !! pth = Some i ∧ types i = File
  | FSeek fd _ _ | FSetFlags fd _ | FClose fd => is_Some (open_files s !! fd)
  end.

Record system_ok (s : System) : Prop := {
  so_files : files_ok cap (fs s) (λ _, 0%nat) (λ _, 0%nat) 0;
  so_open fd fl : open_files s !! fd = Some fl → 0 ≤ f_offset fl ≤ i64_max ∧ ∃ i, disk (fs s) !! inode fl = Some i ∧ types i = File }.

(** ** Each operation refines the specification *)

Definition refines (s : System) (op : FileOp) : Prop :=
  ∃ s' out, run_op s op = Done (s', out) ∧ system_ok s' ∧ flat_step (flat s) op out (flat s').

Lemma flat_data s p i : disk (fs s) !! p = Some i → fl_data (flat s) !! p = Some (contents i).
Proof using Type. intros Hi. simpl. by rewrite lookup_fmap, Hi. Qed.
Lemma contents_update (d d' : gmap string I) p i b : d' !! p = Some i → contents i = b → (∀ q, q ≠ p → d' !! q = d !! q) → contents <$> d' = <[p := b]> (contents <$> d).
Proof using Type.
  intros Hi Hb Hne. apply map_eq. intros q. rewrite lookup_fmap. destruct (decide (q = p)) as [->|Hn].
  - by rewrite Hi, lookup_insert_eq, <- Hb.
  - by rewrite Hne, lookup_insert_ne, lookup_fmap.
Qed.
(** A descriptor moves; the files are as they were or one has new bytes. *)
Lemma system_ok_step s st fd fl o : system_ok s → open_files s !! fd = Some fl → files_ok cap st (λ _, 0%nat) (λ _, 0%nat) 0 → 0 ≤ o ≤ i64_max →
  (∀ p i, disk (fs s) !! p = Some i → types i = File → ∃ i', disk st !! p = Some i' ∧ types i' = File) →
  system_ok (mkSystem st (<[fd := with_offset fl o]> (open_files s))).
Proof using Type.
  intros H Hfd Hst Ho Hd. split; simpl; [done|]. intros fd' fl'. destruct (decide (fd' = fd)) as [->|Hn].
  - rewrite lookup_insert_eq. intros [= <-]. destruct (so_open s H fd fl Hfd) as (_ & i & Hi & Hf). split; [done|]. by apply (Hd (inode fl) i).
  - rewrite lookup_insert_ne by done. intros Hfl. destruct (so_open s H fd' fl' Hfl) as (Hoff & i & Hi & Hf). split; [done|]. by apply (Hd _ i).
Qed.

Lemma file_read_refines s fd buf : system_ok s → allowed s (FRead fd buf) →
  ∃ s' r buf', run_op s (FRead fd buf) = Done (s', (r, buf')) ∧ system_ok s' ∧ flat_step (flat s) (FRead fd buf) (r, buf') (flat s') ∧
    (∀ e, r = Err e → ∃ i : I, read_failed i (cache (fs s)) e).
Proof using Hcap.
  intros H ([fl Hfd] & Hne & Hlen). destruct (so_open s H fd fl Hfd) as ([Ho Ho'] & i & Hi & Hf). cbn [run_op]. rewrite Hfd. cbn [mbind]. simpl.
  destruct (il_size i Hf) as [_ Hsm].
  destruct (os_read_spec cap Hcap (fs s) _ _ _ fl i buf (so_files s H) Hi Hf Ho Hne) as (st' & o & buf' & r & -> & Hst & Hd & Hfl & Hl & Hr); [unfold i64_max, usize_max in *; lia|].
  cbn [mbind]. simpl. eexists _, r, buf'. split; [done|].
  assert (0 ≤ o ≤ i64_max) as Hoo.
  { destruct r as [n|e]; [|lia]. destruct Hr as [(Hn & _) ->]. rewrite Hn. unfold read_count, ub_len in *. pose proof (Z.mod_pos_bound (f_offset fl) PAGE_SIZE). unfold PAGE_SIZE, data_len in *. destruct (_ && _); lia. }
  assert (flat (mkSystem st' (<[fd := with_offset fl o]> (open_files s))) = flat_seek (flat s) fd fl o) as Hflat by (unfold flat, flat_seek; simpl; by rewrite Hd, Hfl).
  split; [|split].
  - apply system_ok_step; try done. intros p j Hj Hjf. rewrite Hd. eauto.
  - rewrite Hflat. pose proof (flat_data s _ i Hi) as Hdat. destruct r as [n|e].
    + destruct Hr as [Hr ->]. by apply (flat_read _ _ _ (contents i)).
    + destruct Hr as [_ Hr]. by apply (flat_read_err _ _ _ (contents i)).
  - intros e ->. exists i. apply Hr.
Qed.

Lemma file_write_refines s fd bufs : system_ok s → allowed s (FWrite fd bufs) → refines s (FWrite fd bufs).
Proof using Hcap.
  intros H ([Hne Hlen] & fl & i & Hfd & Hi & Hgap). destruct (so_open s H fd fl Hfd) as ([Ho Ho'] & i0 & Hi0 & Hf). rewrite Hi in Hi0. injection Hi0 as <-.
  unfold refines. cbn [run_op]. rewrite Hfd. cbn [mbind]. simpl.
  destruct (os_write_spec cap Hcap (fs s) _ _ _ fl i bufs (so_files s H) Hi Hf Ho Hgap Hne) as (st' & o & r & m & -> & Hst & ((i' & Hi' & Hf' & Hc') & Hd & Hfl) & Hr); [unfold i64_max, usize_max in *; lia|].
  cbn [mbind]. simpl. set (off := if append fl then data_len (contents i) else f_offset fl) in *.
  assert (0 ≤ off ≤ data_len (contents i)) as Hoff by (unfold off; destruct (append fl); [unfold data_len; lia|destruct Hgap; [done|lia]]).
  assert (∀ p j, disk (fs s) !! p = Some j → types j = File → ∃ j', disk st' !! p = Some j' ∧ types j' = File) as Hkeep.
  { intros p j Hj Hjf. destruct (decide (p = inode fl)) as [->|Hn]; [eauto|]. rewrite Hd by done. eauto. }
  assert (off + data_len (concat (take m bufs)) ≤ i64_max) as Hend.
  { destruct (il_size i' Hf') as [_ Hsm]. rewrite Hc', data_len_write in Hsm by lia. lia. }
  pose proof (flat_data s _ i Hi) as Hdat.
  assert (∀ o', flat (mkSystem st' (<[fd := with_offset fl o']> (open_files s))) = flat_seek (flat_put (flat s) (inode fl) (write_bytes (contents i) off (concat (take m bufs)))) fd fl o') as Hflat.
  { intros o'. unfold flat, flat_seek, flat_put. simpl. rewrite Hfl. f_equal. by apply (contents_update _ _ _ i'). }
  assert (∀ o', 0 ≤ o' ≤ i64_max → system_ok (mkSystem st' (<[fd := with_offset fl o']> (open_files s)))) as Hok by (intros o' ?; by apply system_ok_step).
  assert (0 ≤ data_len (concat (take m bufs))) as Hnn by (unfold data_len; lia).
  assert (∀ e, o = off + data_len (concat (take m bufs)) → flat_step (flat s) (FWrite fd bufs) (Err e, []) (flat (mkSystem st' (<[fd := with_offset fl o]> (open_files s))))) as Herr.
  { intros e ->. rewrite Hflat. by apply (flat_write_err _ _ _ (contents i)). }
  assert (r = Err EPERM ∧ is_immutable_path (fs s) (inode fl) = true ∧ m = 0%nat ∧ o = f_offset fl ∨ o = off + data_len (concat (take m bufs)) ∧
    match r with Ok n => m = length bufs ∧ n = ub_len bufs | Err e => True end) as [(-> & Him & -> & ->)|[Hoo Hr']].
  { destruct r as [n|e].
    - destruct Hr as (-> & -> & ->). right. by rewrite firstn_all.
    - destruct e; first [by right; destruct Hr|idtac]. destruct Hr as [(? & ? & ?)|[_ ?]]; [left|right]; auto. }
  - eexists _, _. split; [done|]. split; [apply Hok; lia|]. rewrite Hflat. simpl. rewrite write_bytes_nil by done.
    assert (flat_seek (flat_put (flat s) (inode fl) (contents i)) fd fl (f_offset fl) = flat s) as ->; [|by apply (flat_write_immutable _ _ fl)].
    unfold flat_seek, flat_put. simpl. rewrite insert_id by done. rewrite insert_id; [done|]. rewrite Hfd. by destruct fl.
  - eexists _, _. split; [done|]. split; [apply Hok; lia|]. destruct r as [n|e]; [|by apply Herr]. destruct Hr' as [Hm ->]. rewrite Hflat, Hoo.
    rewrite Hm, firstn_all. by apply (flat_write _ _ _ (contents i)).
Qed.

Lemma seek_offset_spec base offset o : 0 ≤ base → seek_offset base offset = Ok o → o = base + offset ∧ 0 ≤ o.
Proof using Type.
  intros Hb. unfold seek_offset, checked_sub, checked_add. destruct (Z.ltb_spec offset 0).
  - destruct (_ =? _); [done|]. destruct (Z.leb_spec (- offset) base); simpl; [|done]. intros [= <-]. lia.
  - destruct (Z.leb_spec (base + offset) usize_max); simpl; [|done]. intros [= <-]. lia.
Qed.
Lemma new_offset_spec i fl offset whence o : types i = File → 0 ≤ f_offset fl → new_offset i fl offset whence = Ok o →
  0 ≤ o ∧ (whence = SEEK_SET → o = offset) ∧ (whence = SEEK_CUR → o = f_offset fl + offset) ∧ (whence = SEEK_END → o = data_len (contents i) + offset).
Proof using Type.
  intros Hf Ho. unfold new_offset, SEEK_SET, SEEK_CUR, SEEK_END, SEEK_DATA, SEEK_HOLE.
  destruct (Z.eqb_spec whence 0); [destruct (Z.ltb_spec offset 0); [done|]; intros [= <-]; lia|].
  destruct (Z.eqb_spec whence 1); [intros ?%seek_offset_spec; lia|].
  destruct (Z.eqb_spec whence 2); [intros Hs; apply seek_offset_spec in Hs; rewrite (proj1 (il_size i Hf)) in *; unfold data_len in *; lia|].
  destruct (Z.eqb_spec whence 3); [destruct (Z.ltb_spec offset 0); [done|]; intros Hs; assert (0 ≤ o) by (eapply il_seek; eauto); lia|].
  destruct (Z.eqb_spec whence 4); [|done]. destruct (Z.ltb_spec offset 0); [done|]. intros Hs. assert (0 ≤ o) by (eapply il_seek; eauto). lia.
Qed.

Lemma file_seek_refines s fd offset whence : system_ok s → allowed s (FSeek fd offset whence) → refines s (FSeek fd offset whence).
Proof using Type.
  intros H [fl Hfd]. destruct (so_open s H fd fl Hfd) as ([Ho Ho'] & i & Hi & Hf). unfold refines. cbn [run_op]. rewrite Hfd. cbn [mbind]. simpl. rewrite Hi. cbn [mbind]. simpl.
  assert (∀ e, ∃ s' out, Done (mkSystem (fs s) (<[fd := fl]> (open_files s)), (Err e, [])) = Done (s', out) ∧ system_ok s' ∧ flat_step (flat s) (FSeek fd offset whence) out (flat s')) as Herr.
  { intros e. rewrite insert_id by done. eexists _, _. split; [done|]. destruct s as [st fds]. split; [done|]. apply flat_lseek_err. }
  unfold os_lseek. destruct (_ || _); [apply Herr|]. destruct (new_offset i fl offset whence) as [o|e] eqn:Hn; [|apply Herr].
  destruct (Z.ltb_spec isize_max o) as [|Hle]; [apply Herr|]. destruct (new_offset_spec i fl offset whence o Hf Ho Hn) as (H0 & H1 & H2 & H3). unfold isize_max in Hle.
  eexists _, _. split; [done|]. split; [apply system_ok_step; try done; [apply H|eauto]|]. apply (flat_lseek (flat s) fd fl offset whence o); try done. intros Hw. exists (contents i). split; [by apply (flat_data s)|auto].
Qed.

Lemma flat_same s st fds : disk st = disk (fs s) → FILE_FLAGS st = FILE_FLAGS (fs s) → flat (mkSystem st fds) = mkFlat (fl_data (flat s)) fds (fl_flags (flat s)).
Proof using Type. intros Hd Hf. unfold flat. simpl. by rewrite Hd, Hf. Qed.
Lemma other_refines s op : system_ok s → allowed s op →
  match op with FOpen _ _ _ _ _ | FTruncate _ _ | FSetFlags _ _ | FClose _ => refines s op | _ => True end.
Proof using Hcap.
  intros H Hal. destruct op as [fd pth r w app| | | |pth n|fd flags|fd]; try done; unfold refines; cbn [run_op allowed] in *.
  - destruct Hal as (Hfd & i & Hi & Hf). unfold osfile_new. rewrite Hi. cbn [mbind]. simpl. eexists _, _. split; [done|].
    assert (∀ st, cache st = cache (fs s) → disk st = disk (fs s) → ∀ fl, inode fl = pth → f_offset fl = 0 → system_ok (mkSystem st (<[fd := fl]> (open_files s)))) as Hnew.
    { intros st Hc Hd fl Hin Hof. split; simpl; [apply (files_ok_same cap (fs s)); [apply H|done|done]|]. intros fd' fl' [[<- <-]|[_ Hfl]]%lookup_insert_Some; rewrite Hd; [|by apply (so_open s H fd')].
      rewrite Hof, Hin. split; [unfold i64_max; lia|eauto]. }
    split; [apply Hnew; by destruct w|]. rewrite (flat_same s) by (by destruct w). by eapply (flat_open (flat s)); [apply (flat_data s)|..].
  - destruct Hal as (Hn & i & Hi & Hf). destruct (os_truncate_spec cap Hcap (fs s) _ _ _ pth i n (so_files s H) Hi Hf Hn) as (st' & r & -> & Hst & Hfl & Hd & i' & Hi' & Hf' & Hr).
    cbn [mbind]. simpl. eexists _, _. split; [done|]. split.
    + split; simpl; [done|]. intros fd fl Hfd. destruct (so_open s H fd fl Hfd) as (? & j & Hj & Hjf). split; [done|].
      destruct (decide (inode fl = pth)) as [->|Hne]; [eauto|]. rewrite Hd by done. eauto.
    + pose proof (flat_data s _ i Hi) as Hdat. assert (flat (mkSystem st' (open_files s)) = flat_put (flat s) pth (contents i')) as ->.
      { unfold flat, flat_put. simpl. rewrite Hfl. f_equal. by apply (contents_update _ _ _ i'). }
      destruct r as [m|e].
      * destruct Hr as [-> ->]. by apply flat_truncate.
      * destruct Hr as [-> _]. unfold flat_put. rewrite insert_id by done. apply flat_truncate_err.
  - destruct Hal as [fl Hfd]. destruct (so_open s H fd fl Hfd) as (_ & i & Hi & Hf). rewrite Hfd. cbn [mbind]. simpl. unfold os_ioctl. rewrite Hi. cbn [mbind]. simpl.
    rewrite (fo_paths _ _ _ _ _ (so_files s H) _ i Hi). eexists _, _. split; [done|]. split.
    + split; simpl; [apply (files_ok_same cap (fs s)); [apply H|done|done]|]. apply (so_open s H).
    + apply (flat_flags (flat s) fd fl flags Hfd).
  - destruct Hal as [fl Hfd]. destruct (so_open s H fd fl Hfd) as (_ & i & Hi & Hf). rewrite Hfd. cbn [mbind]. simpl. unfold osfile_drop. rewrite Hi. cbn [mbind]. simpl.
    eexists _, _. split; [done|]. split.
    + split; simpl; [apply (files_ok_same cap (fs s)); [apply H|by destruct (write_path fl), (_ && _)|by destruct (write_path fl), (_ && _)]|].
      intros fd' fl' [_ Hfl]%lookup_delete_Some. replace (disk _) with (disk (fs s)) by (by destruct (write_path fl), (_ && _)). by apply (so_open s H fd').
    + rewrite (flat_same s) by (by destruct (write_path fl), (_ && _)). apply flat_close.
Qed.

Lemma file_op_refines s op : system_ok s → allowed s op → refines s op.
Proof using Hcap.
  intros H Hal. pose proof (other_refines s op H Hal) as Ho. destruct op as [| | |fd offset whence| | |]; try exact Ho.
  - destruct (file_read_refines s fd buf H Hal) as (s' & r & buf' & Hr & Hs & Hf & _). by exists s', (r, buf').
  - by apply file_write_refines.
  - by apply file_seek_refines.
Qed.

(** ** Systems over time *)

Definition sys_step (s s' : System) : Prop := ∃ op out, allowed s op ∧ run_op s op = Done (s', out).
Definition fs_init (src : Src) (d : gmap string I) : System := mkSystem (mkFs (cache_new src) d ∅ ∅ ∅ 1 ∅ PIPE_MAX_SIZE false []) ∅.

Lemma init_ok src d : fs_ok src → 0 ≤ cap → (∀ p i, d !! p = Some i → path i = p) → system_ok (fs_init src d).
Proof using Type.
  intros Hs Hc Hp. split; [|by intros fd fl]. split; simpl; [|by intros k f|done]. split; simpl; try done.
  split; [constructor|]. intros k. split; [by intros ?%elem_of_nil|by intros [? ?]].
Qed.
Lemma file_reachable_ok s s' : rtc sys_step s s' → system_ok s → system_ok s'.
Proof using Hcap.
  apply rtc_invariant. intros a b Ha (op & out & Hal & Hrun). destruct (file_op_refines a op Ha Hal) as (b' & out' & Hrun' & Hb & _). rewrite Hrun in Hrun'. by simplify_eq.
Qed.
End system.

(** ** Properties *)


(** ** Examples *)

Fixpoint run_ops {Src I} `{!FrameSource Src, !FramePool Src, !Inode I} (cap : Z) (s : System (Src := Src) (I := I)) (ops : list FileOp) : comp (System * list Out) :=
  match ops with
  | [] => Done (s, [])
  | op :: ops => '(s, out) ← run_op cap s op; '(s, outs) ← run_ops cap s ops; Done (s, out :: outs)
  end.

Definition demo_file (n : Z) : gmap string MemInode := {["/a" := mkMem "/a" (replicate (Z.to_nat n) 7)]}.
Definition demo_system (n : Z) : System (Src := list Z) (I := MemInode) := fs_init (seqZ 100 10) (demo_file n).
Definition demo_buf (n : Z) : UserBuffer := [zeros n].
(** The numbers that the calls return. *)
Definition numbers (r : comp (System (Src := list Z) (I := MemInode) * list Out)) : option (list (result SysErrNo Z)) :=
  match r with Done (_, outs) => Some outs.*1 | Panic => None end.
Definition file_size (r : comp (System (Src := list Z) (I := MemInode) * list Out)) : option Z :=
  match r with Done (s, _) => size <$> disk (fs s) !! "/a" | Panic => None end.

(** A read of 200 bytes at offset 4000 of a file of 5000 bytes returns 96: a request
    of at most a page ends with the page. *)
Theorem read_short_at_page_end :
  numbers (run_ops 4 (demo_system 5000) [FOpen 3 "/a" true true false; FSeek 3 4000 0; FRead 3 (demo_buf 200)]) = Some [Ok 3; Ok 4000; Ok 96].
Proof. vm_compute. reflexivity. Qed.

(** A write behind the end of a file of 100 bytes makes it 8193 bytes long, but the
    cached page keeps its length of 100: at offset 100 the reader is told that the
    file ends. *)
Theorem sparse_write_leaves_stale_page :
  let r := run_ops 4 (demo_system 100) [FOpen 3 "/a" true true false; FRead 3 (demo_buf 50); FSeek 3 8192 0; FWrite 3 [[1]]; FSeek 3 100 0; FRead 3 (demo_buf 50)] in
  file_size r = Some 8193 ∧ numbers r = Some [Ok 3; Ok 50; Ok 8192; Ok 1; Ok 100; Ok 0].
Proof. vm_compute. done. Qed.

(** A reader that has read the page from the inode and not yet published it, a writer
    that writes and invalidates, and then the publication: the next reader gets the
    old byte, which is no longer in the file. *)
Definition race_reader : comp (result SysErrNo Z * list Z * list Z) :=
  let st := fs (demo_system 100) in
  i ← unwrap (disk st !! "/a");
  '(c, loaded) ← load_pages (cache st) i 0;
  match loaded with
  | Err e => Done (Err e, [], [])
  | Ok (page, rest) =>
      '(st, w) ← osfile_new (with_cache st c) true true false "/a";
      '(st, w, _) ← os_write st w [[1]];
      '(c, f) ← publish_loaded 4 (cache st) "/a" 0 page rest;
      '(st, r) ← osfile_new (with_cache st (arc_drop c f)) true true false "/a";
      '(st, r, buf, n) ← os_read 4 st r (demo_buf 1);
      i ← unwrap (disk st !! "/a");
      Done (n, concat buf, take 1 (contents i))
  end.
Theorem load_race_keeps_old_page : race_reader = Done (Ok 1, [7], [1]).
Proof. vm_compute. reflexivity. Qed.

Definition state_after (s : System (Src := list Z) (I := MemInode)) (op : FileOp) : System := match run_op 4 s op with Done (s', _) => s' | Panic => s end.
Definition runs (s : System (Src := list Z) (I := MemInode)) (op : FileOp) : bool := match run_op 4 s op with Done _ => true | Panic => false end.
Lemma step_next s op : allowed s op → runs s op = true → sys_step 4 s (state_after s op).
Proof. intros Ha Hr. unfold runs, state_after in *. destruct (run_op 4 s op) as [[s' out]|] eqn:E; [|done]. by exists op, out. Qed.

Definition demo_open : FileOp := FOpen 3 "/a" true true false.
Definition demo_read : FileOp := FRead 3 (demo_buf 10).
Definition demo_one : System := state_after (demo_system 100) demo_open.
Definition demo_two : System := state_after demo_one demo_read.
Definition demo_inode (s : System (Src := list Z) (I := MemInode)) : MemInode := default (mkMem "" []) (disk (fs s) !! "/a").
Definition demo_fd (s : System (Src := list Z) (I := MemInode)) : OSFile := default (mkOSFile false false false "" Unknown None false 0 0) (open_files s !! 3).

Lemma file_demo_reached : rtc (sys_step 4) (demo_system 100) demo_two.
Proof.
  apply rtc_l with demo_one; [apply step_next; [|vm_compute; reflexivity]|apply rtc_once, step_next; [|vm_compute; reflexivity]].
  - split; [vm_compute; reflexivity|]. exists (demo_inode (demo_system 100)). split; vm_compute; reflexivity.
  - split; [exists (demo_fd demo_one); vm_compute; reflexivity|]. split; [by constructor|vm_compute; congruence].
Qed.
Lemma demo_write_allowed : allowed demo_two (FWrite 3 [[1; 2]]).
Proof.
  split; [split; [by constructor|vm_compute; congruence]|]. exists (demo_fd demo_two), (demo_inode demo_two).
  split; [vm_compute; reflexivity|]. split; [vm_compute; reflexivity|]. right. vm_compute. congruence.
Qed.
Lemma demo_source_ok : fs_ok (seqZ 100 10).
Proof. split; [apply NoDup_seqZ|]. apply Forall_forall. intros f ?%elem_of_seqZ. lia. Qed.
Lemma demo_paths p i : demo_file 100 !! p = Some i → path i = p.
Proof. unfold demo_file. intros [<- <-]%lookup_singleton_Some. done. Qed.

