(* ===== verification/FileCacheLife.v ===== *)
(** * Interleavings of users of the file page cache

    Any number of readers, mappings, loaders and invalidations, each critical
    section of [fs/page_cache.rs] a step: the state carries the references that
    users hold and the reservations they have not used.  What holds in every
    reachable state, what an eviction does, and what a load returns. *)

From S2P Require Import Prelude Errno Bytes RefCount FrameAlloc FramePool FileCache FileCacheInv FileCacheOps FileCacheLoad OsFile OsFileSpec OsFileWrite.

Section life.
Context {Src : Type} `{!FrameSource Src} `{!FramePool Src} (cap : Z).
Notation Cache := (FilePageCache Src).

(** The cache, the references to pages and to frames that users hold, and their
    reservations. *)
Record Users : Type := mkUsers { u_cache : Cache; u_pages : Z → nat; u_frames : Z → nat; u_reserved : Z }.

Inductive cache_step : Users → Users → Prop :=
| step_reserve c ph fh n c' b : try_reserve_page cap c = (c', b) → cache_step (mkUsers c ph fh n) (mkUsers c' ph fh (n + if b then 1 else 0))
| step_release c ph fh n : 1 ≤ n → cache_step (mkUsers c ph fh n) (mkUsers (release_page_reservation c) ph fh (n - 1))
| step_evict c ph fh n c' b : try_evict_one c = Done (c', b) → cache_step (mkUsers c ph fh n) (mkUsers c' ph fh n)
| step_alloc c ph fh n f c' : frame_alloc c = Some (f, c') → cache_step (mkUsers c ph fh n) (mkUsers c' ph (bump fh f) n)
| step_store c ph fh n f bytes : data_len bytes ≤ PAGE_SIZE → cache_step (mkUsers c ph fh n) (mkUsers (frame_write c f bytes) ph fh n)
| step_page c ph fh n f k len : objs c !! f = None → 0 ≤ len ≤ PAGE_SIZE →
    cache_step (mkUsers c ph (bump fh f) n) (mkUsers (new_page c f k len) (bump ph f) fh n)
| step_publish c ph fh n f c' b : 1 ≤ n → publish_reserved_page c f = Done (c', b) →
    cache_step (mkUsers c (bump ph f) fh n) (mkUsers c' ph fh (if b then n - 1 else n))
| step_lookup c ph fh n pth i c' f : lookup_page c pth i = (c', Some f) → cache_step (mkUsers c ph fh n) (mkUsers c' (bump ph f) fh n)
| step_clone c ph fh n f : (0 < ph f)%nat → cache_step (mkUsers c ph fh n) (mkUsers (arc_clone c f) (bump ph f) fh n)
| step_drop c ph fh n f : cache_step (mkUsers c (bump ph f) fh n) (mkUsers (arc_drop c f) ph fh n)
| step_map c ph fh n f : (0 < ph f)%nat ∨ (0 < fh f)%nat → cache_step (mkUsers c ph fh n) (mkUsers (frame_clone c f) ph (bump fh f) n)
| step_unmap c ph fh n f : cache_step (mkUsers c ph (bump fh f) n) (mkUsers (frame_drop c f) ph fh n)
| step_dirty c ph fh n f p : objs c !! f = Some p → cache_step (mkUsers c ph fh n) (mkUsers (with_objs c (<[f := mark_dirty p]> (objs c))) ph fh n)
| step_invalidate_range c ph fh n pth start len : 0 ≤ start → 0 ≤ len → start + len + PAGE_SIZE ≤ usize_max →
    cache_step (mkUsers c ph fh n) (mkUsers (invalidate_path_range c pth start len) ph fh n)
| step_invalidate c ph fh n pth : cache_step (mkUsers c ph fh n) (mkUsers (invalidate_path c pth) ph fh n).

Definition users_ok (u : Users) : Prop := cache_ok cap (u_cache u) (u_pages u) (u_frames u) (u_reserved u).

Context (Hcap : 0 ≤ cap ≤ usize_max).

Lemma cache_step_ok u u' : users_ok u → cache_step u u' → users_ok u'.
Proof using Hcap.
  assert (cap ≤ usize_max) as Hc by lia. intros H Hst. unfold users_ok in *. destruct Hst; simpl in *.
  - pose proof (try_reserve_spec cap c ph fh n H) as (Hok & _). by rewrite H0 in Hok.
  - by apply release_spec.
  - destruct (try_evict_one_spec cap Hc c ph fh n H) as (c1 & b1 & Hr & Hok & _). rewrite H0 in Hr. by simplify_eq.
  - destruct (frame_alloc_grows c ph fh f c' (ca_heap _ _ _ _ _ H) H0) as ([Hi _] & _). eapply cache_ok_heap; [done| |done]. by eapply frame_alloc_ok; [apply H|].
  - eapply cache_ok_heap; [done|apply frame_write_ok; [apply H|done]|apply frame_write_index].
  - eapply cache_ok_heap; [done|apply new_page_ok; [apply H|done|done]|done].
  - destruct (held_obj c _ fh f (ca_heap _ _ _ _ _ H)) as [p Hp]; [rewrite bump_eq; lia|].
    destruct (publish_spec cap c ph fh n f p H H0 Hp) as (c1 & b1 & Hr & Hok & _). rewrite H1 in Hr. by simplify_eq.
  - pose proof (lookup_spec cap c ph fh n pth i H) as Hl. rewrite H0 in Hl. by destruct Hl as (_ & Hok & _).
  - eapply cache_ok_heap; [done|apply arc_clone_ok; [apply H|by eapply held_obj; [apply H|]]|apply arc_clone_index].
  - by apply drop_spec.
  - eapply cache_ok_heap; [done|apply frame_clone_ok; [apply H|]|apply frame_clone_index]. destruct H0 as [Hp|Hf]; [|by eapply holder_frame; [apply H|]].
    destruct (held_obj c ph fh f (ca_heap _ _ _ _ _ H) Hp) as [p Hpp]. by eapply ho_framed; [apply H|].
  - eapply cache_ok_heap; [done|apply frame_drop_ok, H|apply frame_drop_index].
  - eapply cache_ok_heap; [done|by apply (flags_ok c ph fh f p); [apply H|..]|done].
  - by apply invalidate_path_range_spec.
  - by apply invalidate_path_spec.
Qed.

Definition users_init (src : Src) : Users := mkUsers (cache_new src) (λ _, 0%nat) (λ _, 0%nat) 0.
Lemma users_init_ok src : fs_ok src → users_ok (users_init src).
Proof using Hcap.
  intros Hs. split; simpl; try done; [|lia]. split; [constructor|]. intros k. split; [by intros ?%elem_of_nil|by intros [? ?]].
Qed.
Lemma users_reachable src u : fs_ok src → rtc cache_step (users_init src) u → users_ok u.
Proof using Hcap. intros Hs Hr. eapply rtc_invariant; [exact cache_step_ok|exact Hr|by apply users_init_ok]. Qed.
End life.

(** ** Properties *)

Section properties.
Context {Src : Type} `{!FrameSource Src} `{!FramePool Src} (cap : Z).

(** [C5] In every state of any interleaving of readers, mappings, loads, evictions
    and invalidations: each resident page is queued exactly once and nothing else
    is; the count is the resident pages plus the reservations in flight, within
    the capacity; a resident page has the key it is stored under, a frame of its
    own that is in use, and one reference more than its users hold, as has its
    frame; and an eviction can run. *)
Theorem page_cache_invariant src (u : Users) : 0 ≤ cap ≤ usize_max → fs_ok src → rtc (cache_step cap) (users_init src) u →
  let c := u_cache u in
  NoDup (queued c) ∧ (∀ k, k ∈ queued c ↔ is_Some (resident c k)) ∧
  page_count c = Z.of_nat (length (queued c)) + u_reserved u ∧ 0 ≤ u_reserved u ∧ page_count c ≤ cap ∧
  (∀ k f, resident c k = Some f → ∃ p fr, objs c !! f = Some p ∧ key p = k ∧ p_strong p = S (u_pages u f) ∧
    frames c !! f = Some fr ∧ fs_used (source c) f ∧ f_strong fr = S (u_frames u f)) ∧
  (∃ r, try_evict_one c = Done r).
Proof.
  intros Hc Hs Hr. pose proof (users_reachable cap Hc src u Hs Hr) as H. unfold users_ok in H. cbv zeta. destruct (ca_keys _ _ _ _ _ H) as [Hnd Hk].
  split; [done|]. split; [done|]. split; [apply H|]. split; [apply H|]. split; [apply H|]. split.
  - intros k f Hf. pose proof (ca_heap _ _ _ _ _ H) as Hh. destruct (ho_resident _ _ _ Hh k f Hf) as (p & Hp & Hkey). destruct (ho_framed _ _ _ Hh f p Hp) as [[fr Hfr] _].
    exists p, fr. split; [done|]. split; [done|]. split; [|split; [done|split; [by eapply ho_used|]]].
    + rewrite (ho_strong _ _ _ Hh f p Hp). unfold one_if. rewrite decide_True by (by rewrite Hkey). lia.
    + rewrite (ho_fstrong _ _ _ Hh f fr Hfr). unfold one_if. rewrite decide_True by eauto. lia.
  - destruct (try_evict_one_spec cap (proj2 Hc) _ _ _ _ H) as (c' & b & Hev & _). eauto.
Qed.

(** [C13] An eviction takes at most one page, and only a clean one that was not used
    since the last scan and that nobody holds or maps; it gives back the frame
    and one unit of capacity and leaves all other pages; it takes none only if
    none of the candidates it looks at (the first 128 of the active queue, or 16
    of the deferred one when it is due) can be taken. *)
Theorem eviction_exact src (u : Users) : 0 ≤ cap ≤ usize_max → fs_ok src → rtc (cache_step cap) (users_init src) u →
  let c := u_cache u in
  ∃ c' b, try_evict_one c = Done (c', b) ∧
    if b : bool then ∃ k f p, k ∈ candidates c ∧ resident c k = Some f ∧ objs c !! f = Some p ∧ dirty p = false ∧ referenced p = false ∧
      u_pages u f = 0%nat ∧ u_frames u f = 0%nat ∧ (∀ k', resident c' k' = if decide (k' = k) then None else resident c k') ∧
      frames c' !! f = None ∧ page_count c' = page_count c - 1
    else (∀ k, k ∈ candidates c → evictable c k = false) ∧ (∀ k, resident c' k = resident c k) ∧ page_count c' = page_count c.
Proof.
  intros Hc Hs Hr. pose proof (users_reachable cap Hc src u Hs Hr) as H. unfold users_ok in H. cbv zeta.
  destruct (try_evict_one_spec cap (proj2 Hc) _ _ _ _ H) as (c' & b & Hev & Hok & Hsh & Hb). exists c', b. split; [done|]. destruct b; [|done].
  destruct Hb as (k & Hin & He & Hres & Hcnt). unfold evictable in He. destruct (resident (u_cache u) k) as [f|] eqn:Hf; [|done].
  destruct (objs (u_cache u) !! f) as [p|] eqn:Hp; [|done]. destruct (frames (u_cache u) !! f) as [fr|] eqn:Hfr; [|done]. split_bools.
  apply Nat.eqb_eq in H1, H2. pose proof (ca_heap _ _ _ _ _ H) as Hh. destruct (ho_resident _ _ _ Hh k f Hf) as (p' & Hp' & Hkey). simplify_eq.
  pose proof (ho_strong _ _ _ Hh f p Hp) as Hst. pose proof (ho_fstrong _ _ _ Hh f fr Hfr) as Hfst. unfold one_if in *. rewrite decide_True in Hst by done. rewrite decide_True in Hfst by eauto.
  assert (u_pages u f = 0%nat ∧ u_frames u f = 0%nat) as [Hu1 Hu2] by lia. exists (key p), f, p. do 7 (split; [done|]). split; [done|]. split; [|done].
  pose proof (ca_heap _ _ _ _ _ Hok) as Hh'. assert (objs c' !! f = None) as Ho'.
  { destruct (objs c' !! f) as [q|] eqn:Hq; [|done]. exfalso. pose proof (ho_live _ _ _ Hh' f q Hq) as Hl. rewrite (ho_strong _ _ _ Hh' f q Hq), Hu1 in Hl. unfold one_if in Hl.
    case_decide as Hd; [|lia]. rewrite Hres in Hd. destruct (decide (key q = key p)) as [|Hne]; [done|]. apply Hne. by apply (resident_inj _ _ _ _ _ f Hh). }
  destruct (frames c' !! f) as [fr'|] eqn:Hfr'; [|done]. exfalso. destruct (ho_flive _ _ _ Hh' f fr' Hfr') as [Hl _]. rewrite (ho_fstrong _ _ _ Hh' f fr' Hfr'), Hu2 in Hl.
  unfold one_if in Hl. rewrite decide_False in Hl; [lia|]. rewrite Ho'. by intros [? ?].
Qed.

(** [C14] Loading a page, whatever is cached and however many pages are read ahead or
    evicted for it: with a cache whose pages agree with their files, [get_or_load]
    returns a page with exactly the bytes of the file there, zero behind its end,
    with one reference for the caller, and all cached pages still agree; it fails
    only with [ENOMEM] when no frame is free or with an error of [read_at], and
    then the cache is as before. *)
Theorem get_or_load_correct {I} `{!Inode I, !InodeLaws I} (img : FilePageKey → Z * list Z) (i : I) (c : FilePageCache Src) ph fh resv idx :
  cap ≤ usize_max → types i = File → (∀ j, 0 ≤ j → img (mkKey (cache_path i) j) = image (contents i) j) →
  cache_ok cap c ph fh resv → coherent img c → 0 ≤ idx → (idx + 4) * PAGE_SIZE ≤ usize_max →
  ∃ c' r, get_or_load cap c i idx = Done (c', r) ∧ coherent img c' ∧
    match r with
    | Ok f => cache_ok cap c' (bump ph f) fh resv ∧
        obj_data c' f = Some (mkKey (cache_path i) idx, data_len (page_slice (contents i) idx), padded (page_slice (contents i) idx))
    | Err e => cache_ok cap c' ph fh resv ∧ load_error i c e ∧ index c' = index c
    end.
Proof.
  intros Hc Hf Himg Hok Hcoh Hidx Hu.
  destruct (get_or_load_spec cap Hc img i (contents i) (proj1 (il_size i Hf)) (λ off n b, il_read i off n b Hf) Himg c ph fh resv idx Hok Hcoh Hidx Hu) as (c' & r & Hr & Hcoh' & Hres).
  exists c', r. split; [done|]. split; [done|]. destruct r as [f|e]; [|done]. destruct Hres as [H1 H2]. split; [done|]. unfold good in H2. by rewrite Himg in H2.
Qed.
End properties.

(** ** Examples *)

Definition no_refs : Z → nat := λ _, 0%nat.
Definition demo_start : FilePageCache (list Z) := cache_new [100; 101; 102].
Definition demo_reserved : FilePageCache (list Z) := (try_reserve_page 2 demo_start).1.
Definition demo_frame : FilePageCache (list Z) := match frame_alloc demo_reserved with Some (_, c) => c | None => demo_reserved end.
Definition demo_key : FilePageKey := mkKey "/a" 0.
Definition demo_page : FilePageCache (list Z) := new_page demo_frame 100 demo_key 10.
Definition done_or {A} (d : A) (r : comp (A * bool)) : A := match r with Done (a, _) => a | Panic => d end.
Definition demo_published : FilePageCache (list Z) := done_or demo_page (publish_reserved_page demo_page 100).
Definition demo_scanned : FilePageCache (list Z) := done_or demo_published (try_evict_one demo_published).
(** One page that nobody uses, scanned once. *)
Definition demo_users : Users (Src := list Z) := mkUsers demo_scanned no_refs no_refs 0.

Lemma demo_users_reached : rtc (cache_step 2) (users_init [100; 101; 102]) demo_users.
Proof.
  apply rtc_l with (mkUsers demo_reserved no_refs no_refs 1); [refine (step_reserve 2 _ _ _ _ _ true _); reflexivity|].
  apply rtc_l with (mkUsers demo_frame no_refs (bump no_refs 100) 1); [apply step_alloc; reflexivity|].
  apply rtc_l with (mkUsers demo_page (bump no_refs 100) no_refs 1); [apply step_page; [reflexivity|unfold PAGE_SIZE; lia]|].
  apply rtc_l with (mkUsers demo_published no_refs no_refs 0); [refine (step_publish 2 _ _ _ 1 _ _ true _ _); [lia|vm_compute; reflexivity]|].
  apply rtc_once. refine (step_evict 2 _ _ _ _ _ false _). vm_compute. reflexivity.
Qed.
Lemma demo_pool_ok : fs_ok [100; 101; 102].
Proof. split; [by repeat constructor; set_solver|]. repeat constructor; lia. Qed.

Lemma page_cache_invariant_witness : NoDup (queued demo_scanned) ∧ ∃ r, try_evict_one demo_scanned = Done r.
Proof.
  destruct (page_cache_invariant 2 [100; 101; 102] demo_users ltac:(unfold usize_max; lia) demo_pool_ok demo_users_reached) as (H1 & _ & _ & _ & _ & _ & H2).
  exact (conj H1 H2).
Defined.

(** The second scan evicts the page. *)
Lemma demo_evicts : try_evict_one demo_scanned = Done (done_or demo_scanned (try_evict_one demo_scanned), true).
Proof. vm_compute. reflexivity. Qed.
Lemma eviction_exact_witness : ∃ c' k, try_evict_one demo_scanned = Done (c', true) ∧ resident c' k = None ∧ page_count c' = 0.
Proof.
  destruct (eviction_exact 2 [100; 101; 102] demo_users ltac:(unfold usize_max; lia) demo_pool_ok demo_users_reached) as (c' & b & Hev & Hb).
  pose proof (eq_trans (eq_sym Hev) demo_evicts) as Heq. injection Heq as _ Hbt. rewrite Hbt in *.
  destruct Hb as (k & f & p & _ & _ & _ & _ & _ & _ & _ & Hres & _ & Hcnt). exists c', k. split; [exact Hev|]. split; [rewrite Hres; apply decide_True; reflexivity|exact Hcnt].
Defined.

(** A file of ten bytes. *)
Definition demo_mem : MemInode := mkMem "/a" (replicate 10 7).
Definition demo_img (k : FilePageKey) : Z * list Z := image (replicate 10 7) (page_index k).
Lemma demo_is_file : types demo_mem = File.
Proof. vm_compute. reflexivity. Qed.
Lemma demo_img_ok j : 0 ≤ j → demo_img (mkKey (cache_path demo_mem) j) = image (contents demo_mem) j.
Proof. reflexivity. Qed.
Lemma demo_empty_ok : cache_ok 2 demo_start no_refs no_refs 0.
Proof. apply (users_init_ok 2 ltac:(unfold usize_max; lia) [100; 101; 102] demo_pool_ok). Qed.
Lemma demo_coherent : coherent demo_img demo_start.
Proof. by intros k f. Qed.
Lemma get_or_load_correct_witness : ∃ c' r, get_or_load 2 demo_start demo_mem 0 = Done (c', r) ∧ coherent demo_img c'.
Proof.
  destruct (get_or_load_correct 2 demo_img demo_mem demo_start no_refs no_refs 0 0 ltac:(unfold usize_max; lia) demo_is_file demo_img_ok demo_empty_ok demo_coherent
    ltac:(lia) ltac:(unfold PAGE_SIZE, usize_max; lia)) as (c' & r & H1 & H2 & _). exists c', r. exact (conj H1 H2).
Defined.
