(* ===== verification/Mount.v ===== *)
(** * The mount table

    [fs/mount.rs]: the layers of mounts by path, their propagation groups, moves,
    and the logical quota that the mounts of one image share.

    Paths are lists of bytes, as in [Path].  A quota lives behind an [Arc], so an
    entry holds its number in the store [usages].  The receiver index [usize::MAX],
    which stands for no receiver, is [None]. *)

From Stdlib Require Import Ascii.
From S2P Require Import Prelude Errno Path.

Definition MNT_MAXLEN : Z := 256.

(** ** Flags *)

Definition MS_RDONLY : Z := 1.
Definition MS_REMOUNT : Z := 32.
Definition MS_BIND : Z := 4096.
Definition MS_MOVE : Z := 8192.
Definition MS_REC : Z := 16384.
Definition MS_UNBINDABLE : Z := 131072.
Definition MS_PRIVATE : Z := 262144.
Definition MS_SLAVE : Z := 524288.
Definition MS_SHARED : Z := 1048576.

Definition PROPAGATION_MASK : Z := Z.lor MS_SHARED (Z.lor MS_PRIVATE (Z.lor MS_SLAVE MS_UNBINDABLE)).
Definition OPERATION_MASK : Z := Z.lor MS_BIND (Z.lor MS_MOVE MS_REMOUNT).

Definition is_move (flags : Z) : bool := contains flags MS_MOVE.
Definition flag_bind (flags : Z) : bool := contains flags MS_BIND.
Definition is_remount (flags : Z) : bool := contains flags MS_REMOUNT.
Definition is_propagation_only (flags : Z) : bool := intersects flags PROPAGATION_MASK && negb (intersects flags OPERATION_MASK).

(** ** State *)

Record MountUsage : Type := mkUsage { u_limit : Z; u_used : Z; u_files : gmap str Z }.
Record MountEntry : Type := mkMount {
  special : str; m_dir : str; fstype : str; m_flags : Z; is_bind : bool;
  shared_group : option Z; master_group : option Z; unbindable : bool; event_group : Z; quota : option nat }.
Record MountTable : Type := mkTable { mnt_list : list MountEntry; next_group : Z; usages : list MountUsage }.

Definition table_new : MountTable := mkTable [] 1 [].
Definition with_list (t : MountTable) (l : list MountEntry) : MountTable := mkTable l (next_group t) (usages t).

Definition take_group (t : MountTable) : MountTable * Z :=
  (mkTable (mnt_list t) (Z.max 1 (wrap64 (next_group t + 1))) (usages t), next_group t).

(** ** Paths *)

(** [s.strip_prefix(p)]. *)
Fixpoint strip_prefix (s p : str) : option str :=
  match p, s with
  | [], _ => Some s
  | c :: p, d :: s => if decide (c = d) then strip_prefix s p else None
  | _ :: _, [] => None
  end.
(** [s.trim_end_matches('/')]. *)
Definition trim_end_matches (s : str) : str := reverse (trim_start_matches (reverse s)).

Definition path_is_at_or_below (path base : str) : bool :=
  bool_decide (base = [slash]) || bool_decide (path = base) ||
  match strip_prefix path base with Some rest => is_abs_path rest | None => false end.

Definition append_relative (base relative : str) : str :=
  if decide (relative = []) then base
  else if decide (base = [slash]) then slash :: relative
  else trim_end_matches base ++ slash :: relative.

(** [path.strip_prefix(base).unwrap_or("").trim_start_matches('/')]. *)
Definition relative_to (path base : str) : str := trim_start_matches (default [] (strip_prefix path base)).

(** The entry with the longest directory that covers [path], the last one of equal length. *)
Fixpoint top_for (path : str) (i : nat) (l : list MountEntry) (best : option (nat * nat)) : option (nat * nat) :=
  match l with
  | [] => best
  | m :: l =>
      let len := length (m_dir m) in
      let best' :=
        if path_is_at_or_below path (m_dir m) then
          match best with
          | Some (blen, _) => if (blen <=? len)%nat then Some (len, i) else best
          | None => Some (len, i)
          end
        else best in
      top_for path (S i) l best'
  end.
Definition top_mount_index_for_path (l : list MountEntry) (path : str) : option nat := snd <$> top_for path 0 l None.

(** The last entry at [path]. *)
Fixpoint top_at (path : str) (i : nat) (l : list MountEntry) (found : option nat) : option nat :=
  match l with
  | [] => found
  | m :: l => top_at path (S i) l (if decide (m_dir m = path) then Some i else found)
  end.
Definition top_mount_index_at_path (l : list MountEntry) (path : str) : option nat := top_at path 0 l None.

(** [iter().enumerate().filter_map(..)]: the numbers of the entries with [p]. *)
Definition indices (p : nat → MountEntry → bool) (l : list MountEntry) : list nat :=
  fst <$> retain (λ im : nat * MountEntry, p im.1 im.2) (imap pair l).

(** ** Propagation type *)

Definition set_groups (m : MountEntry) (s ma : option Z) (u : bool) : MountEntry :=
  mkMount (special m) (m_dir m) (fstype m) (m_flags m) (is_bind m) s ma u (event_group m) (quota m).
Definition set_dir (m : MountEntry) (d : str) : MountEntry :=
  mkMount (special m) d (fstype m) (m_flags m) (is_bind m) (shared_group m) (master_group m) (unbindable m) (event_group m) (quota m).
Definition option_or {A} (a b : option A) : option A := match a with Some _ => a | None => b end.

Definition alter_all (f : MountEntry → MountEntry) (l : list MountEntry) (idxs : list nat) : list MountEntry :=
  foldl (λ l i, alter f i l) l idxs.

Definition set_propagation (t : MountTable) (d : str) (flags : Z) : comp MountTable :=
  let recursive := contains flags MS_REC in
  match top_mount_index_at_path (mnt_list t) d with
  | None => Done t
  | Some root =>
      root ← unwrap (mnt_list t !! root);
      let copies := contains flags MS_SHARED in
      let selected := indices (λ _ m, bool_decide (m_dir m = d) || (recursive && path_is_at_or_below (m_dir m) d)
        || (copies && (event_group m =? event_group root))) (mnt_list t) in
      Done (
        if contains flags MS_SHARED then
          let '(t, group) := take_group t in
          with_list t (alter_all (λ m, set_groups m (Some group) (master_group m) false) (mnt_list t) selected)
        else if contains flags MS_SLAVE then
          with_list t (alter_all (λ m, set_groups m None (option_or (master_group m) (shared_group m)) false) (mnt_list t) selected)
        else
          with_list t (alter_all (λ m, set_groups m None None (contains flags MS_UNBINDABLE)) (mnt_list t) selected))
  end.

(** ** Propagation of a new mount *)

(** The visible entries that hear of a mount under entry [i]: copies of the same
    event, peers, and slaves. *)
Definition visible (l : list MountEntry) (i : nat) (m : MountEntry) : bool :=
  bool_decide (top_mount_index_at_path l (m_dir m) = Some i).
Definition receivers (l : list MountEntry) (idx : nat) (m : MountEntry) : list nat :=
  match shared_group m with
  | None => []
  | Some group =>
      indices (λ i c, negb (i =? idx)%nat && (event_group c =? event_group m) && visible l i c) l ++
      indices (λ i c, bool_decide (shared_group c = Some group) && visible l i c) l ++
      indices (λ i c, bool_decide (master_group c = Some group) && visible l i c) l
  end.

(** Where the event under [m] at [relative] is seen under [receiver]. *)
Definition target_for (m receiver : MountEntry) (relative : str) : str :=
  if is_bind m && path_is_at_or_below (special m) (m_dir receiver) then
    let source_relative := relative_to (special m) (m_dir receiver) in
    let mapped :=
      if decide (source_relative = []) then relative
      else if decide (relative = []) then source_relative
      else source_relative ++ slash :: relative in
    append_relative (m_dir receiver) mapped
  else append_relative (m_dir receiver) relative.

(** The stack [pending] has its top first. *)
Record PropState : Type := mkProp { targets : list (str * option nat); pending : list nat; visited : list nat }.

Definition known (ts : list (str * option nat)) (target : str) : bool := existsb (λ t, bool_decide (t.1 = target)) ts.
Fixpoint add_receivers (l : list MountEntry) (m : MountEntry) (relative : str) (rs : list nat) (ts : list (str * option nat)) (pend : list nat) :
    comp (list (str * option nat) * list nat) :=
  match rs with
  | [] => Done (ts, pend)
  | r :: rs =>
      receiver ← unwrap (l !! r);
      let target := target_for m receiver relative in
      add_receivers l m relative rs (if known ts target then ts else ts ++ [(target, Some r)]) (r :: pend)
  end.

Definition prop_guard (s : PropState) : option (nat * list nat) :=
  match pending s with [] => None | i :: p => Some (i, p) end.
Definition prop_round (l : list MountEntry) (relative : str) (s : PropState) (ip : nat * list nat) : comp PropState :=
  let '(idx, pend) := ip in
  if existsb (Nat.eqb idx) (visited s) then Done (mkProp (targets s) pend (visited s))
  else
    m ← unwrap (l !! idx);
    '(ts, pend) ← add_receivers l m relative (receivers l idx m) (targets s) pend;
    Done (mkProp ts pend (visited s ++ [idx])).

Definition propagation_targets (l : list MountEntry) (d : str) (parent_idx : nat) : comp (list (str * option nat)) :=
  parent ← unwrap (l !! parent_idx);
  s ← while_some prop_guard (prop_round l (relative_to d (m_dir parent))) (mkProp [(d, Some parent_idx)] [parent_idx] []);
  Done (targets s).

(** The targets of an event at [d], whatever covers it. *)
Definition event_targets (l : list MountEntry) (d : str) : comp (list (str * option nat)) :=
  match top_mount_index_for_path l d with
  | Some idx => propagation_targets l d idx
  | None => Done [(d, None)]
  end.

(** ** Move *)

Definition inherit (m : MountEntry) (state : option (option Z * option Z * bool)) : MountEntry :=
  match state with Some (s, ma, u) => set_groups m s ma u | None => m end.
Definition receiver_state (l : list MountEntry) (r : option nat) : comp (option (option Z * option Z * bool)) :=
  match r with
  | None => Done None
  | Some idx => m ← unwrap (l !! idx); Done (Some (shared_group m, master_group m, unbindable m))
  end.
Fixpoint receiver_states (l : list MountEntry) (ts : list (str * option nat)) : comp (list (option (option Z * option Z * bool))) :=
  match ts with
  | [] => Done []
  | (_, r) :: ts => s ← receiver_state l r; ss ← receiver_states l ts; Done (s :: ss)
  end.

(** An entry of the moved tree at its new place. *)
Definition relocate (source target : str) (state : option (option Z * option Z * bool)) (m : MountEntry) : MountEntry :=
  let relative := default [] (strip_prefix (m_dir m) source) in
  let m' := set_dir m (append_relative target (trim_start_matches relative)) in
  if decide (relative = []) then inherit m' state else m'.

Definition move_mount (t : MountTable) (source d : str) : comp (MountTable * result SysErrNo (list (str * str))) :=
  let l := mnt_list t in
  if bool_decide (top_mount_index_at_path l source = None) then Done (t, Err EINVAL)
  else if path_is_at_or_below d source then Done (t, Err EINVAL)
  else
    ts ← event_targets l d;
    let subtree := retain (λ m, path_is_at_or_below (m_dir m) source) l in
    if bool_decide (subtree = []) then Done (t, Err EINVAL)
    else if MNT_MAXLEN <? Z.of_nat (length l + length subtree * (length ts - 1)) then Done (t, Err ENOSPC)
    else
      states ← receiver_states l ts;
      first ← unwrap (head states);
      let moved := (λ m, if path_is_at_or_below (m_dir m) source then relocate source d first m else m) <$> l in
      let copies := concat (zip_with (λ tr s, relocate source tr.1 s <$> subtree) (tail ts) (tail states)) in
      Done (with_list t (moved ++ copies), Ok ((λ tr : str * option nat, (source, tr.1)) <$> ts)).

(** ** Mount *)

Definition ext4 : str := String.list_ascii_of_string "ext4".

Definition new_usage (fst_ : str) (flags : Z) (capacity : option Z) : option MountUsage :=
  if bool_decide (fst_ = ext4) && negb (flag_bind flags) then
    match capacity with
    | Some limit => if limit =? 0 then None else Some (mkUsage (Z.max (limit / 3) (1024 * 1024)) 0 ∅)
    | None => None
    end
  else None.

Definition new_entry (l : list MountEntry) (sp fst_ : str) (flags : Z) (source : option MountEntry) (event : Z) (q : option nat)
    (target : str * option nat) : comp MountEntry :=
  receiver ← match target.2 with Some i => Some <$> unwrap (l !! i) | None => Done None end;
  Done (mkMount sp target.1 fst_ flags (flag_bind flags)
    (option_or (source ≫= shared_group) (receiver ≫= shared_group))
    (option_or (source ≫= master_group) (receiver ≫= master_group))
    false event (option_or q (source ≫= quota))).

(** The loop pushes the entries one by one and looks the receivers up by number, which
    pushing does not change. *)
Fixpoint push_entries (l : list MountEntry) (mk : list MountEntry → str * option nat → comp MountEntry) (ts : list (str * option nat)) :
    comp (list MountEntry) :=
  match ts with
  | [] => Done l
  | t :: ts => m ← mk l t; push_entries (l ++ [m]) mk ts
  end.

Definition mount (t : MountTable) (sp d fst_ : str) (flags : Z) (capacity : option Z) :
    comp (MountTable * result SysErrNo (list (str * str))) :=
  let l := mnt_list t in
  if is_move flags then move_mount t sp d
  else if is_propagation_only flags then t ← set_propagation t d flags; Done (t, Ok [])
  else if is_remount flags then
    match top_mount_index_at_path l d with
    | None => Done (t, Err EINVAL)
    | Some idx =>
        Done (with_list t (alter (λ m, mkMount sp (m_dir m) fst_ flags (is_bind m) (shared_group m) (master_group m) (unbindable m)
          (event_group m) (quota m)) idx l), Ok [])
    end
  else
    source ← (if flag_bind flags then
      match top_mount_index_for_path l sp with Some idx => Some <$> unwrap (l !! idx) | None => Done None end
      else Done None);
    if from_option unbindable false source then Done (t, Err EINVAL)
    else if negb (flag_bind flags) && bool_decide (is_Some (top_mount_index_at_path l d)) then Done (t, Err EBUSY)
    else
      ts ← event_targets l d;
      if MNT_MAXLEN <? Z.of_nat (length l + length ts) then Done (t, Err ENOSPC)
      else
        let '(t, event) := take_group t in
        let '(us, q) := match new_usage fst_ flags capacity with
          | Some u => (usages t ++ [u], Some (length (usages t)))
          | None => (usages t, None)
          end in
        l' ← push_entries l (λ l, new_entry l sp fst_ flags source event q) ts;
        Done (mkTable l' (next_group t) us,
          Ok (if negb (flag_bind flags) then []
              else (λ tr : str * option nat, (sp, tr.1)) <$> retain (λ tr, negb (bool_decide (tr.1 = sp))) ts)).

(** The number that the caller compares with -1. *)
Definition umount (t : MountTable) (d : str) : comp (MountTable * Z) :=
  match top_mount_index_at_path (mnt_list t) d with
  | None => Done (t, -1)
  | Some idx =>
      m ← unwrap (mnt_list t !! idx);
      Done (with_list t (retain (λ x, negb (event_group x =? event_group m)) (mnt_list t)), 0)
  end.

(** ** Queries *)

Definition describe (m : MountEntry) : str * str * str * Z := (special m, m_dir m, fstype m, m_flags m).
Definition got_mount (t : MountTable) (d : str) : comp (option (str * str * str * Z)) :=
  match top_mount_index_at_path (mnt_list t) d with
  | None => Done None
  | Some idx => m ← unwrap (mnt_list t !! idx); Done (Some (describe m))
  end.
Definition mount_for_path (t : MountTable) (path : str) : comp (option (str * str * str * Z)) :=
  match top_mount_index_for_path (mnt_list t) path with
  | None => Done None
  | Some idx => m ← unwrap (mnt_list t !! idx); Done (Some (describe m))
  end.

Definition lit (s : string) : str := String.list_ascii_of_string s.
Definition newline : str := [ascii_of_nat 10].
Definition proc_line (m : MountEntry) : str :=
  (if is_bind m then lit "none" else special m) ++ lit " " ++ m_dir m ++ lit " " ++ fstype m ++ lit " " ++
  (if contains (m_flags m) MS_RDONLY then lit "ro" else lit "rw") ++ lit " 0 0" ++ newline.
Definition proc_mounts_content (t : MountTable) : str :=
  foldl (λ c m, c ++ proc_line m) (lit " ext4 / ext rw 0 0" ++ newline) (mnt_list t).

(** ** Quotas *)

(** The quota that a write to [path] is charged to. *)
Definition quota_for (t : MountTable) (path : str) : comp (option (nat * MountUsage)) :=
  match top_mount_index_for_path (mnt_list t) path with
  | None => Done None
  | Some idx =>
      m ← unwrap (mnt_list t !! idx);
      match quota m with
      | None => Done None
      | Some q => u ← unwrap (usages t !! q); Done (Some (q, u))
      end
  end.
Definition with_usage (t : MountTable) (q : nat) (u : MountUsage) : MountTable :=
  mkTable (mnt_list t) (next_group t) (<[q := u]> (usages t)).

(** A file that is not known counts with its old size from now on. *)
Definition usage_reserve (u : MountUsage) (path : str) (old_size new_size : Z) : MountUsage * result SysErrNo unit :=
  let '(u, current) := match u_files u !! path with
    | Some n => (u, n)
    | None => (mkUsage (u_limit u) (saturating_add (u_used u) old_size) (u_files u), old_size)
    end in
  if new_size <=? current then
    (mkUsage (u_limit u) (u_used u) (<[path := default current (u_files u !! path)]> (u_files u)), Ok ())
  else
    let growth := new_size - current in
    if saturating_sub (u_limit u) (u_used u) <? growth then (u, Err ENOSPC)
    else (mkUsage (u_limit u) (wrap64 (u_used u + growth)) (<[path := new_size]> (u_files u)), Ok ()).
Definition reserve_write (t : MountTable) (path : str) (old_size new_size : Z) : comp (MountTable * result SysErrNo unit) :=
  qu ← quota_for t path;
  Done match qu with
       | None => (t, Ok ())
       | Some (q, u) => let '(u, r) := usage_reserve u path old_size new_size in (with_usage t q u, r)
       end.

Definition usage_rollback (u : MountUsage) (path : str) (previous_size new_size : Z) : MountUsage :=
  match u_files u !! path with
  | None => u
  | Some current =>
      let rollback := Z.min (saturating_sub new_size previous_size) (saturating_sub current previous_size) in
      mkUsage (u_limit u) (saturating_sub (u_used u) rollback)
        (if current =? new_size then <[path := previous_size]> (u_files u) else u_files u)
  end.
Definition rollback_reservation (t : MountTable) (path : str) (previous_size new_size : Z) : comp MountTable :=
  qu ← quota_for t path;
  Done match qu with None => t | Some (q, u) => with_usage t q (usage_rollback u path previous_size new_size) end.

Definition usage_remove (u : MountUsage) (path : str) : MountUsage :=
  match u_files u !! path with
  | None => u
  | Some size => mkUsage (u_limit u) (saturating_sub (u_used u) size) (delete path (u_files u))
  end.
Definition remove_file (t : MountTable) (path : str) : comp MountTable :=
  qu ← quota_for t path;
  Done match qu with None => t | Some (q, u) => with_usage t q (usage_remove u path) end.
