(* ===== verification/MountSpec.v ===== *)
(** * What the mount table does

    The entry that covers a path; propagation as reachability between entries; the
    invariant of the table over all operations; unmounting as the inverse of
    mounting; quotas. *)

From Stdlib Require Import Ascii.
From S2P Require Import Prelude Errno Path Mount.

(** ** Lookups *)

Lemma retain_none {A} (p : A → bool) l : (∀ x, x ∈ l → p x = false) → retain p l = [].
Proof. induction l as [|x l IH]; intros Hl; simpl; [done|]. rewrite Hl by left. apply IH. intros y Hy. apply Hl. by right. Qed.

Lemma elem_of_indices p l i : i ∈ indices p l ↔ ∃ m, l !! i = Some m ∧ p i m = true.
Proof.
  unfold indices. rewrite list_elem_of_fmap. split.
  - intros ([j m] & -> & [Hin Hp]%elem_of_retain). apply elem_of_lookup_imap_1 in Hin as (j' & m' & [= -> ->] & Hl). eauto.
  - intros (m & Hl & Hp). exists (i, m). split; [done|]. apply elem_of_retain. split; [|done]. by apply (elem_of_lookup_imap_2 pair l m).
Qed.
Lemma length_indices p l : (length (indices p l) ≤ length l)%nat.
Proof. unfold indices. rewrite length_fmap. etrans; [apply length_retain|]. by rewrite length_imap. Qed.

(** The last entry at a path. *)
Definition last_at (l : list MountEntry) (path : str) (i : nat) : Prop :=
  ∃ m, l !! i = Some m ∧ m_dir m = path ∧ ∀ j m', (i < j)%nat → l !! j = Some m' → m_dir m' ≠ path.

Lemma top_at_app path i l k found : top_at path i (l ++ k) found = top_at path (i + length l) k (top_at path i l found).
Proof.
  revert i found. induction l as [|m l IH]; intros i found; simpl; [by rewrite Nat.add_0_r|]. rewrite IH. f_equal. lia.
Qed.
Lemma top_at_skip path i l found : (∀ m, m ∈ l → m_dir m ≠ path) → top_at path i l found = found.
Proof.
  revert i found. induction l as [|m l IH]; intros i found Hl; simpl; [done|]. rewrite decide_False by (apply Hl; left). apply IH. intros x Hx. apply Hl. by right.
Qed.
Lemma top_at_spec l path : match top_mount_index_at_path l path with Some i => last_at l path i | None => ∀ m, m ∈ l → m_dir m ≠ path end.
Proof.
  unfold top_mount_index_at_path. induction l as [|m l IH] using rev_ind; simpl; [by intros m ?%elem_of_nil|]. rewrite top_at_app. simpl. case_decide as Hd.
  - exists m. rewrite list_lookup_middle by done. split; [done|]. split; [done|]. intros j m' Hj Hm. apply lookup_lt_Some in Hm. rewrite length_app in Hm. simpl in Hm. lia.
  - destruct (top_at path 0 l None) as [i|].
    + destruct IH as (x & Hx & Hp & Hlast). exists x. split; [by apply lookup_app_l_Some|]. split; [done|]. intros j m' Hj [Hm|[Hle Hm]]%lookup_app_Some; [by apply (Hlast j)|].
      by apply list_lookup_singleton_Some in Hm as [_ <-].
    + intros x [Hx|Hx]%elem_of_app; [by apply IH|]. by apply list_elem_of_singleton in Hx as ->.
Qed.
Lemma top_at_valid l path i : top_mount_index_at_path l path = Some i → ∃ m, l !! i = Some m ∧ m_dir m = path.
Proof. intros H. pose proof (top_at_spec l path) as Hs. rewrite H in Hs. destruct Hs as (m & ? & ? & _). eauto. Qed.

(** The entry that covers a path: the longest directory, and the last of these. *)
Definition covers (path : str) (m : MountEntry) : Prop := path_is_at_or_below path (m_dir m) = true.
Definition best_for (l : list MountEntry) (path : str) (i : nat) : Prop :=
  ∃ m, l !! i = Some m ∧ covers path m ∧
    ∀ j m', l !! j = Some m' → covers path m' → (length (m_dir m') < length (m_dir m))%nat ∨ length (m_dir m') = length (m_dir m) ∧ (j ≤ i)%nat.

Lemma top_for_app path i l k best : top_for path i (l ++ k) best = top_for path (i + length l) k (top_for path i l best).
Proof.
  revert i best. induction l as [|m l IH]; intros i best; simpl; [by rewrite Nat.add_0_r|]. rewrite IH. f_equal. lia.
Qed.
Lemma top_for_full l path :
  match top_for path 0 l None with
  | Some (len, i) => best_for l path i ∧ ∃ m, l !! i = Some m ∧ len = length (m_dir m)
  | None => ∀ m, m ∈ l → ¬ covers path m
  end.
Proof.
  induction l as [|m l IH] using rev_ind; simpl; [by intros m ?%elem_of_nil|]. rewrite top_for_app. simpl.
  assert (∀ j m', (l ++ [m]) !! j = Some m' → l !! j = Some m' ∨ j = length l ∧ m' = m) as Hsplit.
  { intros j m' [Hm|[Hle Hm]]%lookup_app_Some; [by left|]. apply list_lookup_singleton_Some in Hm as [? <-]. right. split; [lia|done]. }
  assert ((l ++ [m]) !! length l = Some m) as Hlast by (by apply list_lookup_middle).
  destruct (top_for path 0 l None) as [[len i]|].
  - destruct IH as ((x & Hx & Hc & Hbest) & x' & Hx' & ->). rewrite Hx in Hx'. injection Hx' as <-. assert ((l ++ [m]) !! i = Some x) as Hx2 by (by apply lookup_app_l_Some).
    apply lookup_lt_Some in Hx as Hlt. destruct (path_is_at_or_below path (m_dir m)) eqn:Hm; [destruct (Nat.leb_spec (length (m_dir x)) (length (m_dir m)))|].
    + split; [|by exists m]. exists m. split; [done|]. split; [done|]. intros j m' [Hj|[-> ->]]%Hsplit Hcj; [|lia]. apply lookup_lt_Some in Hj as ?. destruct (Hbest j m' Hj Hcj); lia.
    + split; [|by exists x]. exists x. split; [done|]. split; [done|]. intros j m' [Hj|[-> ->]]%Hsplit Hcj; [by apply Hbest|lia].
    + split; [|by exists x]. exists x. split; [done|]. split; [done|]. intros j m' [Hj|[-> ->]]%Hsplit Hcj; [by apply Hbest|]. unfold covers in Hcj. congruence.
  - destruct (path_is_at_or_below path (m_dir m)) eqn:Hm.
    + split; [|by exists m]. exists m. split; [done|]. split; [done|]. intros j m' [Hj|[-> ->]]%Hsplit Hcj; [|lia]. apply list_elem_of_lookup_2 in Hj. by apply IH in Hj.
    + intros x [Hx|Hx]%elem_of_app; [by apply IH|]. apply list_elem_of_singleton in Hx as ->. unfold covers. by rewrite Hm.
Qed.
Lemma top_for_spec l path : match top_mount_index_for_path l path with Some i => best_for l path i | None => ∀ m, m ∈ l → ¬ covers path m end.
Proof. unfold top_mount_index_for_path. pose proof (top_for_full l path) as H. destruct (top_for path 0 l None) as [[len i]|]; simpl; [by destruct H|done]. Qed.
Lemma top_for_valid l path i : top_mount_index_for_path l path = Some i → ∃ m, l !! i = Some m.
Proof. intros H. pose proof (top_for_spec l path) as Hs. rewrite H in Hs. destruct Hs as (m & ? & _). eauto. Qed.

(** ** Propagation *)

(** Entry [j] hears of mounts under entry [i]. *)
Definition hears (l : list MountEntry) (i j : nat) : Prop := ∃ m, l !! i = Some m ∧ j ∈ receivers l i m.

Lemma receivers_valid l i m j : j ∈ receivers l i m → is_Some (l !! j).
Proof.
  unfold receivers. destruct (shared_group m); [|by intros ?%elem_of_nil].
  rewrite !elem_of_app, !elem_of_indices. intros [(x & -> & _)|[(x & -> & _)|(x & -> & _)]]; eauto.
Qed.
Lemma length_receivers l i m : (length (receivers l i m) ≤ 3 * length l)%nat.
Proof.
  unfold receivers. destruct (shared_group m); simpl; [|lia]. rewrite !length_app.
  pose proof (length_indices (λ j c, negb (j =? i)%nat && (event_group c =? event_group m) && visible l j c) l).
  pose proof (length_indices (λ j c, bool_decide (shared_group c = Some z) && visible l j c) l).
  pose proof (length_indices (λ j c, bool_decide (master_group c = Some z) && visible l j c) l). lia.
Qed.
Lemma known_spec ts tg : known ts tg = true ↔ tg ∈ ts.*1.
Proof.
  unfold known. rewrite existsb_elem, list_elem_of_fmap. split; intros (x & H1 & H2); [apply bool_decide_eq_true in H2; eauto|].
  exists x. split; [done|]. by apply bool_decide_eq_true.
Qed.

(** The place of the copy that [j] gets from [i]. *)
Definition copy_at (l : list MountEntry) (relative : str) (i j : nat) (tg : str) : Prop :=
  ∃ m rm, l !! i = Some m ∧ j ∈ receivers l i m ∧ l !! j = Some rm ∧ tg = target_for m rm relative.

Lemma add_receivers_spec l m relative rs ts pend : (∀ r, r ∈ rs → is_Some (l !! r)) →
  ∃ ts', add_receivers l m relative rs ts pend = Done (ts', reverse rs ++ pend) ∧ ts `prefix_of` ts' ∧ (NoDup ts.*1 → NoDup ts'.*1) ∧
    (∀ tg o, (tg, o) ∈ ts' → (tg, o) ∈ ts ∨ ∃ r rm, r ∈ rs ∧ l !! r = Some rm ∧ tg = target_for m rm relative ∧ o = Some r) ∧
    (∀ r rm, r ∈ rs → l !! r = Some rm → target_for m rm relative ∈ ts'.*1).
Proof.
  revert ts pend. induction rs as [|r rs IH]; intros ts pend Hrs; simpl.
  { exists ts. split; [done|]. split; [done|]. split; [done|]. split; [by left|]. by intros r rm ?%elem_of_nil. }
  destruct (Hrs r ltac:(left)) as [rm Hr]. rewrite Hr. cbn [mbind]. simpl. set (tg0 := target_for m rm relative).
  set (ts1 := if known ts tg0 then ts else ts ++ [(tg0, Some r)]).
  assert (ts `prefix_of` ts1 ∧ (NoDup ts.*1 → NoDup ts1.*1) ∧ tg0 ∈ ts1.*1 ∧ ∀ x, x ∈ ts1 → x ∈ ts ∨ x = (tg0, Some r)) as (Hp1 & Hn1 & Hin1 & Hs1).
  { unfold ts1. destruct (known ts tg0) eqn:Hk.
    - apply known_spec in Hk. split; [done|]. split; [done|]. split; [done|]. by left.
    - apply not_true_iff_false in Hk. rewrite known_spec in Hk. split; [by eexists|]. rewrite fmap_app. simpl.
      split; [intros Hn; apply NoDup_app; split; [done|]; split; [by intros x Hx ->%list_elem_of_singleton|apply NoDup_singleton]|].
      split; [apply elem_of_app; right; by left|]. intros x [?| ->%list_elem_of_singleton]%elem_of_app; auto. }
  destruct (IH ts1 (r :: pend)) as (ts' & -> & Hp & Hn & Hs & Hc); [intros x Hx; apply Hrs; by right|].
  exists ts'. split; [by rewrite reverse_cons, <- app_assoc|]. split; [by etrans|]. split; [auto|]. split.
  - intros tg o Hx. destruct (Hs tg o Hx) as [Hx1|(r' & rm' & ? & ? & ? & ?)]; [|right; exists r', rm'; split; [by right|done]].
    destruct (Hs1 _ Hx1) as [?|[= -> ->]]; [by left|]. right. exists r, rm. split; [by left|done].
  - intros r' rm' [->|Hr']%elem_of_cons Hl; [|by apply (Hc r')]. rewrite Hr in Hl. injection Hl as <-.
    destruct Hp as [k ->]. rewrite fmap_app. apply elem_of_app. by left.
Qed.

Section propagation.
Context (l : list MountEntry) (d relative : str) (parent : nat).

Record prop_inv (s : PropState) : Prop := {
  pi_first : ∃ ts, targets s = (d, Some parent) :: ts;
  pi_nodup : NoDup (targets s).*1;
  pi_visited : NoDup (visited s);
  pi_reach i : i ∈ visited s ∨ i ∈ pending s → rtc (hears l) parent i ∧ is_Some (l !! i);
  pi_parent : parent ∈ visited s ∨ parent ∈ pending s;
  pi_sound tg o : (tg, o) ∈ targets s → (tg = d ∧ o = Some parent) ∨ ∃ i j, rtc (hears l) parent i ∧ copy_at l relative i j tg ∧ o = Some j;
  pi_closed i m j : i ∈ visited s → l !! i = Some m → j ∈ receivers l i m → j ∈ visited s ∨ j ∈ pending s;
  pi_complete i j tg : i ∈ visited s → copy_at l relative i j tg → tg ∈ (targets s).*1 }.

Definition prop_size (s : PropState) : Z :=
  (Z.of_nat (length l) - Z.of_nat (length (visited s))) * (3 * Z.of_nat (length l) + 1) + Z.of_nat (length (pending s)).

Lemma visited_few s : prop_inv s → (length (visited s) ≤ length l)%nat.
Proof using Type.
  intros H. replace (length l) with (length (seq 0 (length l))) by apply length_seq. apply submseteq_length, NoDup_submseteq; [apply H|]. intros i Hi.
  destruct (pi_reach s H i (or_introl Hi)) as [_ Hl]. apply lookup_lt_is_Some in Hl. apply elem_of_seq. lia.
Qed.
Lemma visited_new s i : prop_inv s → i ∉ visited s → is_Some (l !! i) → (length (visited s) < length l)%nat.
Proof using Type.
  intros H Hi Hl. assert (length (i :: visited s) ≤ length l)%nat as Hle; [|simpl in Hle; lia]. replace (length l) with (length (seq 0 (length l))) by apply length_seq. apply submseteq_length, NoDup_submseteq.
  - constructor; [done|apply H].
  - intros j [->|Hj]%elem_of_cons; apply elem_of_seq; [apply lookup_lt_is_Some in Hl; lia|]. destruct (pi_reach s H j (or_introl Hj)) as [_ Hj']. apply lookup_lt_is_Some in Hj'. lia.
Qed.

Lemma prop_round_ok s i pend : prop_inv s → prop_guard s = Some (i, pend) →
  ∃ s', prop_round l relative s (i, pend) = Done s' ∧ prop_inv s' ∧ 0 ≤ prop_size s' < prop_size s.
Proof using Type.
  intros H Hg. unfold prop_guard in Hg. destruct (pending s) as [|i0 p0] eqn:Hp; [done|]. injection Hg as -> ->.
  assert (∀ j, j ∈ i :: pend → rtc (hears l) parent j ∧ is_Some (l !! j)) as Hpend by (intros j Hj; apply (pi_reach s H); right; by rewrite Hp).
  unfold prop_round. pose proof (visited_few s H) as Hfew. destruct (existsb (Nat.eqb i) (visited s)) eqn:Hv.
  - apply existsb_elem in Hv as (x & Hx & He). apply Nat.eqb_eq in He. subst x. eexists. split; [done|]. split.
    + split; simpl; try apply H.
      * intros j [Hj|Hj]; [apply (pi_reach s H); by left|apply Hpend; by right].
      * destruct (pi_parent s H) as [?|Hq]; [by left|]. rewrite Hp in Hq. apply elem_of_cons in Hq as [->|?]; auto.
      * intros a m j Ha Hm Hj. destruct (pi_closed s H a m j Ha Hm Hj) as [?|Hq]; [by left|]. rewrite Hp in Hq. apply elem_of_cons in Hq as [->|?]; auto.
    + unfold prop_size. simpl. rewrite Hp. simpl. nia.
  - assert (i ∉ visited s) as Hni.
    { intros Hin. apply not_true_iff_false in Hv. apply Hv. apply existsb_elem. exists i. split; [done|apply Nat.eqb_refl]. }
    destruct (Hpend i ltac:(left)) as [Hri [m Hm]]. rewrite Hm. cbn [mbind]. simpl.
    destruct (add_receivers_spec l m relative (receivers l i m) (targets s) pend) as (ts' & -> & Hpre & Hnd & Hs & Hc); [intros r; apply receivers_valid|].
    cbn [mbind]. simpl. eexists. split; [done|]. assert (∀ r, r ∈ receivers l i m → rtc (hears l) parent r) as Hrr.
    { intros r Hr. eapply rtc_r; [exact Hri|]. exists m. done. }
    split.
    + split; simpl.
      * destruct (pi_first s H) as [ts Hts]. rewrite Hts in Hpre. destruct Hpre as [k ->]. by eexists.
      * apply Hnd, H.
      * apply NoDup_app. split; [apply H|]. split; [by intros x Hx ->%list_elem_of_singleton|apply NoDup_singleton].
      * intros j. rewrite !elem_of_app, list_elem_of_singleton, elem_of_reverse. intros [[Hj| ->]|[Hj|Hj]].
        -- apply (pi_reach s H). by left.
        -- eauto.
        -- split; [by apply Hrr|by eapply receivers_valid].
        -- apply Hpend. by right.
      * rewrite !elem_of_app, list_elem_of_singleton. destruct (pi_parent s H) as [?|Hq]; [auto|]. rewrite Hp in Hq. apply elem_of_cons in Hq as [->|?]; auto.
      * intros tg o Hx. destruct (Hs tg o Hx) as [Hx'|(r & rm & Hr & Hl & -> & ->)]; [by apply (pi_sound s H)|].
        right. exists i, r. split; [done|]. split; [|done]. by exists m, rm.
      * intros a x j. rewrite !elem_of_app, !list_elem_of_singleton, elem_of_reverse. intros [Ha| ->] Hx Hj.
        -- destruct (pi_closed s H a x j Ha Hx Hj) as [?|Hq]; [auto|]. rewrite Hp in Hq. apply elem_of_cons in Hq as [->|?]; auto.
        -- rewrite Hm in Hx. injection Hx as <-. auto.
      * intros a j tg. rewrite elem_of_app, list_elem_of_singleton. intros [Ha| ->] Hca.
        -- destruct Hpre as [k ->]. rewrite fmap_app. apply elem_of_app. left. by apply (pi_complete s H a j).
        -- destruct Hca as (x & rm & Hx & Hj & Hrm & ->). rewrite Hm in Hx. injection Hx as <-. by apply (Hc j).
    + pose proof (visited_new s i H Hni ltac:(eauto)) as Hlt. pose proof (length_receivers l i m) as Hlr. unfold prop_size. simpl.
      rewrite !length_app, length_reverse, Hp. simpl. nia.
Qed.
End propagation.

(** What an event at [d] reaches: [d] first, then one copy per place, exactly where
    the entries that hear of it, directly or through others, see it. *)
Definition copied (l : list MountEntry) (d tg : str) (o : option nat) : Prop :=
  ∃ parent pm i j, top_mount_index_for_path l d = Some parent ∧ l !! parent = Some pm ∧ rtc (hears l) parent i ∧
    copy_at l (relative_to d (m_dir pm)) i j tg ∧ o = Some j.
Record targets_exact (l : list MountEntry) (d : str) (ts : list (str * option nat)) : Prop := {
  te_first : ∃ ts', ts = (d, top_mount_index_for_path l d) :: ts';
  te_nodup : NoDup ts.*1;
  te_sound tg o : (tg, o) ∈ ts → (tg = d ∧ o = top_mount_index_for_path l d) ∨ copied l d tg o;
  te_complete tg o : copied l d tg o → tg ∈ ts.*1 }.

Lemma prop_size_init l d parent : (length l ≤ 256)%nat → prop_size l (mkProp [(d, Some parent)] [parent] []) < 2 ^ 64.
Proof.
  intros Hlen. unfold prop_size. simpl length. assert (0 ≤ Z.of_nat (length l) ≤ 256) as Hz by lia. generalize dependent (Z.of_nat (length l)). intros z Hz.
  assert (z * (3 * z + 1) ≤ 256 * 769) by nia. lia.
Qed.
Lemma prop_inv_init l d relative parent : is_Some (l !! parent) → prop_inv l d relative parent (mkProp [(d, Some parent)] [parent] []).
Proof.
  intros Hp. split; simpl.
  - by eexists.
  - apply NoDup_singleton.
  - apply NoDup_nil_2.
  - intros i [Hi%elem_of_nil|Hi%list_elem_of_singleton]; [done|]. subst i. split; [apply rtc_refl|done].
  - right. by left.
  - intros tg o Hx. apply list_elem_of_singleton in Hx. injection Hx as -> ->. by left.
  - by intros i m j ?%elem_of_nil.
  - by intros i j tg ?%elem_of_nil.
Qed.
(** The loop ends, with the entries that hear of the event visited. *)
Lemma propagation_loop l d relative parent : (length l ≤ 256)%nat → is_Some (l !! parent) →
  ∃ s, while_some prop_guard (prop_round l relative) (mkProp [(d, Some parent)] [parent] []) = Done s ∧ prop_inv l d relative parent s ∧ prop_guard s = None.
Proof.
  intros Hlen Hp. apply (while_some_done prop_guard (prop_round l relative) (prop_inv l d relative parent) (prop_size l)).
  - intros s [i p] Hs Hg. by apply prop_round_ok.
  - by apply prop_inv_init.
  - by apply prop_size_init.
Qed.
Lemma prop_inv_done l d relative parent s : prop_inv l d relative parent s → prop_guard s = None → ∀ i, rtc (hears l) parent i → i ∈ visited s.
Proof.
  intros Hinv Hg i Hi. assert (pending s = []) as Hp by (unfold prop_guard in Hg; by destruct (pending s)).
  apply (rtc_invariant (hears l) (λ a, a ∈ visited s) parent i); [|done|].
  - intros a b Ha (m & Hm & Hj). destruct (pi_closed _ _ _ _ _ Hinv a m b Ha Hm Hj) as [?|Hq]; [done|]. rewrite Hp in Hq. by apply elem_of_nil in Hq.
  - destruct (pi_parent _ _ _ _ _ Hinv) as [?|Hq]; [done|]. rewrite Hp in Hq. by apply elem_of_nil in Hq.
Qed.
Lemma propagation_targets_done l d parent pm s : l !! parent = Some pm →
  while_some prop_guard (prop_round l (relative_to d (m_dir pm))) (mkProp [(d, Some parent)] [parent] []) = Done s → propagation_targets l d parent = Done (targets s).
Proof.
  intros Hpm Hw. unfold propagation_targets. apply comp_bind_done. exists pm. split; [by apply unwrap_done|]. apply comp_bind_done. exists s. split; [exact Hw|reflexivity].
Qed.
Lemma event_targets_spec l d : (length l ≤ 256)%nat → ∃ ts, event_targets l d = Done ts ∧ targets_exact l d ts.
Proof.
  intros Hlen. destruct (top_mount_index_for_path l d) as [parent|] eqn:Htop.
  2: { exists [(d, None)]. split; [unfold event_targets; by rewrite Htop|]. split; simpl.
    - rewrite Htop. by eexists.
    - apply NoDup_singleton.
    - intros tg o Hx. apply list_elem_of_singleton in Hx. injection Hx as -> ->. by left.
    - intros tg o (parent & pm & i & j & Hp & _). congruence. }
  destruct (top_for_valid l d parent Htop) as [pm Hpm].
  destruct (propagation_loop l d (relative_to d (m_dir pm)) parent Hlen ltac:(eauto)) as (s & Hw & Hinv & Hg).
  exists (targets s). split; [unfold event_targets; rewrite Htop; by apply (propagation_targets_done l d parent pm)|].
  split; rewrite ?Htop.
  - apply Hinv.
  - apply Hinv.
  - intros tg o Hx. destruct (pi_sound _ _ _ _ _ Hinv tg o Hx) as [?|(i & j & ? & ? & ?)]; [by left|]. right. by exists parent, pm, i, j.
  - intros tg o (parent' & pm' & i & j & Hp' & Hpm' & Hi & Hc & _). assert (parent' = parent) as -> by congruence. assert (pm' = pm) as -> by congruence.
    apply (pi_complete _ _ _ _ _ Hinv i j); [|done]. by eapply prop_inv_done.
Qed.
Lemma targets_valid l d ts tg j : targets_exact l d ts → (tg, Some j) ∈ ts → is_Some (l !! j).
Proof.
  intros H Hin. destruct (te_sound _ _ _ H tg (Some j) Hin) as [[_ Ht]|(parent & pm & i & j' & _ & _ & _ & (m & rm & _ & _ & Hj & _) & [= ->])].
  - destruct (top_for_valid l d j (eq_sym Ht)) as [m ->]. eauto.
  - eauto.
Qed.

(** ** The invariant of the table *)

Definition group_ok (g : Z) (o : option Z) : Prop := ∀ x, o = Some x → 1 ≤ x < g.
Record entry_ok (g : Z) (q : nat) (m : MountEntry) : Prop := {
  eo_event : 1 ≤ event_group m < g;
  eo_shared : group_ok g (shared_group m);
  eo_master : group_ok g (master_group m);
  eo_quota n : quota m = Some n → (n < q)%nat }.
Record table_ok (t : MountTable) : Prop := {
  to_len : (length (mnt_list t) ≤ 256)%nat;
  to_group : 1 ≤ next_group t;
  to_entries : Forall (entry_ok (next_group t) (length (usages t))) (mnt_list t) }.

Lemma entry_ok_mono g q g' q' m : entry_ok g q m → g ≤ g' → (q ≤ q')%nat → entry_ok g' q' m.
Proof. intros [H1 H2 H3 H4] Hg Hq. split; [lia|intros x Hx; apply H2 in Hx; lia|intros x Hx; apply H3 in Hx; lia|intros n Hn; apply H4 in Hn; lia]. Qed.
Lemma Forall_entry_mono g q g' q' l : Forall (entry_ok g q) l → g ≤ g' → (q ≤ q')%nat → Forall (entry_ok g' q') l.
Proof. intros H Hg Hq. eapply Forall_impl; [exact H|]. intros m Hm. by eapply entry_ok_mono. Qed.
Lemma group_ok_or g a b : group_ok g a → group_ok g b → group_ok g (option_or a b).
Proof. intros Ha Hb x. destruct a; simpl; [apply Ha|apply Hb]. Qed.
Lemma group_ok_none g : group_ok g None.
Proof. by intros x. Qed.
Lemma group_ok_bind g q (o : option MountEntry) f : (∀ m, o = Some m → entry_ok g q m) → (∀ m, entry_ok g q m → group_ok g (f m)) → group_ok g (o ≫= f).
Proof. intros Ho Hf x. destruct o as [m|]; simpl; [|done]. apply Hf. by apply Ho. Qed.
Lemma entry_lookup t i m : table_ok t → mnt_list t !! i = Some m → entry_ok (next_group t) (length (usages t)) m.
Proof. intros H Hl. apply (proj1 (Forall_lookup _ _) (to_entries t H) i m Hl). Qed.
Lemma set_groups_ok g q m s ma u : entry_ok g q m → group_ok g s → group_ok g ma → entry_ok g q (set_groups m s ma u).
Proof. intros [H1 _ _ H4] Hs Hm. by split. Qed.

Lemma alter_all_Forall (P : MountEntry → Prop) f l idxs : Forall P l → (∀ m, P m → P (f m)) → Forall P (alter_all f l idxs).
Proof.
  intros Hl Hf. unfold alter_all. revert l Hl. induction idxs as [|i idxs IH]; intros l Hl; simpl; [done|]. apply IH, Forall_alter; auto.
Qed.
Lemma length_alter_all f l idxs : length (alter_all f l idxs) = length l.
Proof. unfold alter_all. revert l. induction idxs as [|i idxs IH]; intros l; simpl; [done|]. by rewrite IH, length_alter. Qed.

(** The group number counts up, unless it has come to the end. *)
Lemma take_group_spec t : 1 ≤ next_group t < usize_max → next_group (take_group t).1 = next_group t + 1.
Proof. intros H. unfold take_group, usize_max in *. simpl. rewrite wrap64_small by (unfold is_usize, usize_max; lia). lia. Qed.

Lemma set_propagation_ok t d flags : table_ok t → next_group t < usize_max →
  ∃ t', set_propagation t d flags = Done t' ∧ table_ok t' ∧ next_group t ≤ next_group t' ≤ next_group t + 1.
Proof.
  intros H Hg. unfold set_propagation. destruct (top_mount_index_at_path (mnt_list t) d) as [root|] eqn:Ht; [|exists t; split; [done|]; split; [done|lia]].
  destruct (top_at_valid _ _ _ Ht) as (m & Hm & _). rewrite Hm. cbn [mbind]. simpl. eexists. split; [done|]. pose proof (to_group t H) as Hg1.
  pose proof (take_group_spec t ltac:(lia)) as Htg. destruct (contains flags MS_SHARED); [|destruct (contains flags MS_SLAVE)]; simpl in *.
  - rewrite Htg. split; [|lia]. split; simpl; [rewrite length_alter_all; apply H|lia|]. apply alter_all_Forall.
    + eapply Forall_entry_mono; [apply H|lia|done].
    + intros x Hx. apply set_groups_ok; [done|intros y [= <-]; lia|apply Hx].
  - split; [|lia]. split; simpl; [rewrite length_alter_all; apply H|done|]. apply alter_all_Forall; [apply H|]. intros x Hx. apply set_groups_ok; [done|apply group_ok_none|].
    apply group_ok_or; apply Hx.
  - split; [|lia]. split; simpl; [rewrite length_alter_all; apply H|done|]. apply alter_all_Forall; [apply H|]. intros x Hx. apply set_groups_ok; [done|apply group_ok_none|apply group_ok_none].
Qed.

(** Moves. *)
Definition state_ok (g : Z) (o : option (option Z * option Z * bool)) : Prop := ∀ s ma u, o = Some (s, ma, u) → group_ok g s ∧ group_ok g ma.
Lemma receiver_states_spec t ts : table_ok t → (∀ tg j, (tg, Some j) ∈ ts → is_Some (mnt_list t !! j)) →
  ∃ ss, receiver_states (mnt_list t) ts = Done ss ∧ length ss = length ts ∧ Forall (state_ok (next_group t)) ss.
Proof.
  intros H. induction ts as [|[tg r] ts IH]; intros Hv; simpl; [by exists []|].
  destruct IH as (ss & Hss & Hl & Hf); [intros tg' j Hj; apply (Hv tg'); by right|].
  assert (∃ s, receiver_state (mnt_list t) r = Done s ∧ state_ok (next_group t) s) as (s & Hs & Hok).
  { destruct r as [j|]; simpl; [|by exists None]. destruct (Hv tg j ltac:(left)) as [m Hm]. rewrite Hm. cbn [mbind]. simpl. eexists. split; [done|].
    intros a b u [= <- <- <-]. pose proof (entry_lookup t j m H Hm) as He. split; apply He. }
  rewrite Hs. cbn [mbind]. simpl. rewrite Hss. cbn [mbind]. simpl. exists (s :: ss). split; [done|]. split; [simpl; by rewrite Hl|by constructor].
Qed.
Lemma relocate_ok g q source target state m : entry_ok g q m → state_ok g state → entry_ok g q (relocate source target state m).
Proof.
  intros [H1 H2 H3 H4] Hs. unfold relocate. case_decide; [|by split]. destruct state as [[[s ma] u]|]; simpl; [|by split]. destruct (Hs s ma u eq_refl). by split.
Qed.
Lemma copies_spec g q source subtree ts ss : Forall (entry_ok g q) subtree → Forall (state_ok g) ss → length ss = length ts →
  let cs := concat (zip_with (λ (tr : str * option nat) s, relocate source tr.1 s <$> subtree) ts ss) in
  Forall (entry_ok g q) cs ∧ length cs = (length subtree * length ts)%nat.
Proof.
  intros Hsub. revert ss. induction ts as [|t ts IH]; intros [|s ss] Hss Hl; simpl in *; try done; try (split; [done|lia]).
  apply Forall_cons in Hss as [Hs Hss]. destruct (IH ss Hss ltac:(lia)) as [H1 H2]. split.
  - apply Forall_app. split; [|done]. apply Forall_fmap. eapply Forall_impl; [exact Hsub|]. intros m Hm. by apply relocate_ok.
  - rewrite length_app, length_fmap. simpl in H2. rewrite H2. lia.
Qed.

Lemma move_mount_ok t source d : table_ok t →
  ∃ t' r, move_mount t source d = Done (t', r) ∧ table_ok t' ∧ next_group t' = next_group t ∧ (∀ e, r = Err e → t' = t).
Proof.
  intros H. unfold move_mount. assert (∀ e : SysErrNo, ∃ t' (r : result SysErrNo (list (str * str))), Done (t, Err e) = Done (t', r) ∧ table_ok t' ∧ next_group t' = next_group t ∧ (∀ e', r = Err e' → t' = t)) as Herr by eauto 10.
  destruct (bool_decide _); [apply Herr|]. destruct (path_is_at_or_below d source); [apply Herr|].
  destruct (event_targets_spec (mnt_list t) d (to_len t H)) as (ts & Hts & Hex). rewrite Hts. cbn [mbind comp_bind].
  set (subtree := retain (λ m, path_is_at_or_below (m_dir m) source) (mnt_list t)). destruct (bool_decide (subtree = [])); [apply Herr|].
  destruct (Z.ltb_spec MNT_MAXLEN (Z.of_nat (length (mnt_list t) + length subtree * (length ts - 1)))) as [|Hmax]; [apply Herr|].
  destruct (receiver_states_spec t ts H) as (ss & Hss & Hl & Hf); [intros tg j; by apply (targets_valid _ d)|]. rewrite Hss. cbn [mbind comp_bind].
  destruct (te_first _ _ _ Hex) as [ts' Hts']. destruct ss as [|s ss]; [rewrite Hts' in Hl; simpl in Hl; lia|]. apply Forall_cons in Hf as [Hs Hf]. cbn [head unwrap mbind comp_bind tail].
  eexists _, _. split; [done|]. split; [|split; [done|by intros e]].
  assert (Forall (entry_ok (next_group t) (length (usages t))) subtree) as Hsub.
  { apply Forall_forall. intros m [Hm _]%elem_of_retain. by apply (proj1 (Forall_forall _ _) (to_entries t H)). }
  destruct (copies_spec (next_group t) (length (usages t)) source subtree (tail ts) ss Hsub Hf) as [Hc1 Hc2]; [rewrite Hts' in *; simpl in *; lia|].
  split; simpl; [|apply H|].
  - rewrite length_app, length_fmap. cbv zeta in Hc2. rewrite Hc2. unfold MNT_MAXLEN in Hmax. rewrite Hts' in *. simpl in *. lia.
  - apply Forall_app. split; [|exact Hc1]. apply Forall_fmap. eapply Forall_impl; [apply H|]. intros m Hm. simpl. destruct (path_is_at_or_below (m_dir m) source); [by apply relocate_ok|done].
Qed.

(** New entries. *)
Definition entry_for (l : list MountEntry) (sp fst_ : str) (flags : Z) (source : option MountEntry) (event : Z) (q : option nat) (t : str * option nat) (m : MountEntry) : Prop :=
  special m = sp ∧ m_dir m = t.1 ∧ fstype m = fst_ ∧ m_flags m = flags ∧ is_bind m = flag_bind flags ∧ unbindable m = false ∧ event_group m = event ∧
  let receiver := t.2 ≫= (l !!.) in
  shared_group m = option_or (source ≫= shared_group) (receiver ≫= shared_group) ∧
  master_group m = option_or (source ≫= master_group) (receiver ≫= master_group) ∧
  quota m = option_or q (source ≫= quota).
Lemma push_entries_spec l acc sp fst_ flags source event q ts : (∀ tg j, (tg, Some j) ∈ ts → is_Some (l !! j)) →
  ∃ new, push_entries (l ++ acc) (λ l, new_entry l sp fst_ flags source event q) ts = Done (l ++ acc ++ new) ∧ Forall2 (entry_for l sp fst_ flags source event q) ts new.
Proof.
  revert acc. induction ts as [|[tg r] ts IH]; intros acc Hv; simpl; [exists []; by rewrite !app_nil_r|].
  assert (∃ m, new_entry (l ++ acc) sp fst_ flags source event q (tg, r) = Done m ∧ entry_for l sp fst_ flags source event q (tg, r) m) as (m & Hm & He).
  { unfold new_entry, entry_for. simpl. destruct r as [j|]; simpl; [|by eexists]. destruct (Hv tg j ltac:(left)) as [x Hx].
    rewrite (lookup_app_l_Some l acc j x Hx), Hx. simpl. by eexists. }
  rewrite Hm. cbn [mbind comp_bind]. destruct (IH (acc ++ [m])) as (new & Hnew & Hf); [intros tg' j Hj; apply (Hv tg'); by right|].
  exists (m :: new). rewrite <- (app_assoc l acc [m]), Hnew, <- app_assoc. split; [done|by constructor].
Qed.
Lemma entry_for_ok t sp fst_ flags source event q g n ts new : table_ok t → next_group t ≤ g → (length (usages t) ≤ n)%nat → 1 ≤ event < g →
  (∀ m, source = Some m → entry_ok (next_group t) (length (usages t)) m) → (∀ x, q = Some x → (x < n)%nat) →
  Forall2 (entry_for (mnt_list t) sp fst_ flags source event q) ts new → Forall (entry_ok g n) new.
Proof.
  intros H Hg Hn Hev Hsrc Hq Hf. assert (∀ m, source = Some m → entry_ok g n m) as Hsrc' by (intros m Hm; eapply entry_ok_mono; eauto).
  induction Hf as [|[tg r] m ts new (Hs & Hd & Hfs & Hfl & Hb & Hu & He & Hsh & Hma & Hqu) _ IH]; constructor; [|done].
  assert (∀ x, r ≫= (mnt_list t !!.) = Some x → entry_ok g n x) as Hr.
  { intros x Hx. destruct r as [j|]; simpl in Hx; [|done]. eapply entry_ok_mono; [by eapply entry_lookup|done|done]. }
  simpl in *. split; [lia| | |].
  - rewrite Hsh. apply group_ok_or; (eapply group_ok_bind; [eassumption|]); intros x Hx; apply Hx.
  - rewrite Hma. apply group_ok_or; (eapply group_ok_bind; [eassumption|]); intros x Hx; apply Hx.
  - intros x. rewrite Hqu. destruct q as [y|]; simpl; [intros [= <-]; auto|]. destruct source as [s|]; simpl; [|done]. by apply Hsrc'.
Qed.

(** A new mount. *)
Definition is_new (flags : Z) : Prop := is_move flags = false ∧ is_propagation_only flags = false ∧ is_remount flags = false.
Definition source_of (t : MountTable) (flags : Z) (sp : str) : option MountEntry :=
  if flag_bind flags then top_mount_index_for_path (mnt_list t) sp ≫= (mnt_list t !!.) else None.
Definition mirrored (flags : Z) (sp : str) (ts : list (str * option nat)) : list (str * str) :=
  if flag_bind flags then (λ tr : str * option nat, (sp, tr.1)) <$> retain (λ tr, negb (bool_decide (tr.1 = sp))) ts else [].
(** Why it is refused. *)
Definition refused (t : MountTable) (sp d : str) (flags : Z) (e : SysErrNo) : Prop :=
  (e = EINVAL ∧ from_option unbindable false (source_of t flags sp) = true) ∨
  (e = EBUSY ∧ flag_bind flags = false ∧ ∃ m, m ∈ mnt_list t ∧ m_dir m = d) ∨
  (e = ENOSPC ∧ ∃ ts, targets_exact (mnt_list t) d ts ∧ (256 < length (mnt_list t) + length ts)%nat).

Lemma source_spec t flags sp :
  (if flag_bind flags then match top_mount_index_for_path (mnt_list t) sp with Some idx => Some <$> unwrap (mnt_list t !! idx) | None => Done None end else Done None)
  = Done (source_of t flags sp).
Proof.
  unfold source_of. destruct (flag_bind flags); [|done]. destruct (top_mount_index_for_path (mnt_list t) sp) as [i|] eqn:Hi; [|done].
  destruct (top_for_valid _ _ _ Hi) as [m Hm]. simpl. by rewrite Hm.
Qed.
Lemma source_ok t flags sp m : table_ok t → source_of t flags sp = Some m → entry_ok (next_group t) (length (usages t)) m.
Proof.
  intros H. unfold source_of. destruct (flag_bind flags); [|done]. destruct (top_mount_index_for_path (mnt_list t) sp) as [i|]; [|done]. simpl. by apply entry_lookup.
Qed.

Lemma mount_new_spec t sp d fst_ flags capacity : table_ok t → next_group t < usize_max → is_new flags →
  ∃ t' r, mount t sp d fst_ flags capacity = Done (t', r) ∧
    match r with
    | Ok copies => ∃ ts new q, targets_exact (mnt_list t) d ts ∧ mnt_list t' = mnt_list t ++ new ∧
        Forall2 (entry_for (mnt_list t) sp fst_ flags (source_of t flags sp) (next_group t) q) ts new ∧
        copies = mirrored flags sp ts ∧ table_ok t' ∧ next_group t' = next_group t + 1 ∧ usages t `prefix_of` usages t'
    | Err e => t' = t ∧ refused t sp d flags e
    end.
Proof.
  intros H Hg (Hm & Hp & Hr). unfold mount. rewrite Hm, Hp, Hr, source_spec. cbn [mbind comp_bind].
  destruct (from_option unbindable false (source_of t flags sp)) eqn:Hu; [eexists _, _; split; [done|]; split; [done|]; by left|].
  destruct (negb (flag_bind flags) && bool_decide (is_Some (top_mount_index_at_path (mnt_list t) d))) eqn:Hb.
  { eexists _, _. split; [done|]. split; [done|]. right. left. split_bools. destruct H1 as [i Hi]. destruct (top_at_valid _ _ _ Hi) as (m & Hl & Hd).
    split; [done|]. split; [done|]. exists m. split; [by eapply list_elem_of_lookup_2|done]. }
  destruct (event_targets_spec (mnt_list t) d (to_len t H)) as (ts & Hts & Hex). rewrite Hts. cbn [mbind comp_bind].
  destruct (Z.ltb_spec MNT_MAXLEN (Z.of_nat (length (mnt_list t) + length ts))) as [Hfull|Hmax].
  { eexists _, _. split; [done|]. split; [done|]. right. right. split; [done|]. exists ts. split; [done|]. unfold MNT_MAXLEN in Hfull. lia. }
  pose proof (to_group t H) as Hg1. pose proof (take_group_spec t ltac:(lia)) as Htg. unfold take_group in *. cbn [fst] in Htg. simpl usages. simpl next_group in *.
  set (uq := match new_usage fst_ flags capacity with Some u => (usages t ++ [u], Some (length (usages t))) | None => (usages t, None) end).
  assert (usages t `prefix_of` uq.1 ∧ ∀ x, uq.2 = Some x → (x < length uq.1)%nat) as [Hpre Hq].
  { unfold uq. destruct (new_usage fst_ flags capacity); simpl; split; try done; [by eexists|]. intros x [= <-]. rewrite length_app. simpl. lia. }
  destruct uq as [us q]. simpl in Hpre, Hq.
  destruct (push_entries_spec (mnt_list t) [] sp fst_ flags (source_of t flags sp) (next_group t) q ts) as (new & Hpush & Hf); [intros tg j; by apply (targets_valid _ d)|].
  rewrite app_nil_r in Hpush. rewrite Hpush. cbn [mbind comp_bind]. eexists _, _. split; [done|]. simpl. exists ts, new, q. split; [done|]. split; [done|]. split; [done|].
  split; [unfold mirrored; by destruct (flag_bind flags)|]. rewrite Htg. split; [|done].
  pose proof (Forall2_length _ _ _ Hf) as Hlen. assert (length (usages t) ≤ length us)%nat as Hus by (by apply prefix_length). split; simpl.
  - rewrite length_app. unfold MNT_MAXLEN in Hmax. lia.
  - lia.
  - apply Forall_app. split; [eapply Forall_entry_mono; [apply H|lia|done]|].
    eapply entry_for_ok; [done| |done| | |done|done]; [lia|lia|]. intros m Hs. by eapply source_ok.
Qed.

(** Every call. *)
Lemma mount_ok t sp d fst_ flags capacity : table_ok t → next_group t < usize_max →
  ∃ t' r, mount t sp d fst_ flags capacity = Done (t', r) ∧ table_ok t' ∧ next_group t ≤ next_group t' ≤ next_group t + 1 ∧ (∀ e, r = Err e → t' = t).
Proof.
  intros H Hg. destruct (is_move flags) eqn:Hm; [|destruct (is_propagation_only flags) eqn:Hp; [|destruct (is_remount flags) eqn:Hr]].
  - unfold mount. rewrite Hm. destruct (move_mount_ok t sp d H) as (t' & r & -> & Hok & Hn & He). eexists _, _. split; [done|]. split; [done|]. split; [lia|done].
  - unfold mount. rewrite Hm, Hp. destruct (set_propagation_ok t d flags H Hg) as (t' & -> & Hok & Hn). cbn [mbind comp_bind]. eexists _, _. split; [done|]. by split.
  - unfold mount. rewrite Hm, Hp, Hr. destruct (top_mount_index_at_path (mnt_list t) d) as [i|]; [|eexists _, _; split; [done|]; split; [done|]; split; [lia|done]].
    eexists _, _. split; [done|]. split; [|split; [simpl; lia|done]]. split; simpl; [rewrite length_alter; apply H|apply H|]. apply Forall_alter; [apply H|]. intros m _ [H1 H2 H3 H4]. by split.
  - destruct (mount_new_spec t sp d fst_ flags capacity H Hg) as (t' & r & Hrun & Hres); [done|]. exists t', r. split; [done|]. destruct r as [c|e].
    + destruct Hres as (ts & new & q & _ & _ & _ & _ & Hok & Hn & _). split; [done|]. split; [lia|done].
    + destruct Hres as [-> _]. split; [done|]. split; [lia|done].
Qed.

Lemma umount_spec t d : table_ok t →
  ∃ t' z, umount t d = Done (t', z) ∧ table_ok t' ∧ next_group t' = next_group t ∧
    match top_mount_index_at_path (mnt_list t) d with
    | None => t' = t ∧ z = -1
    | Some i => ∃ m, mnt_list t !! i = Some m ∧ mnt_list t' = retain (λ x, negb (event_group x =? event_group m)) (mnt_list t) ∧ z = 0
    end.
Proof.
  intros H. unfold umount. destruct (top_mount_index_at_path (mnt_list t) d) as [i|] eqn:Hi; [|by exists t, (-1)].
  destruct (top_at_valid _ _ _ Hi) as (m & Hm & _). rewrite Hm. cbn [mbind comp_bind unwrap]. eexists _, _. split; [done|]. split; [|split; [done|eauto]].
  split; simpl; [etrans; [apply length_retain|apply H]|apply H|]. apply Forall_forall. intros x [Hx _]%elem_of_retain. by apply (proj1 (Forall_forall _ _) (to_entries t H)).
Qed.
