(* ===== verification/MountLife.v ===== *)
(** * Mount tables over time

    The histories of a mount table and its quotas, the properties that hold in all
    of them, and closed examples of what does not. *)

From Stdlib Require Import Ascii.
From S2P Require Import Prelude Errno Path Mount MountSpec.

(** ** Histories *)

Inductive table_step : MountTable → MountTable → Prop :=
| step_mount t t' sp d fst_ flags capacity r : mount t sp d fst_ flags capacity = Done (t', r) → table_step t t'
| step_umount t t' d z : umount t d = Done (t', z) → table_step t t'
| step_reserve_write t t' path old new r : reserve_write t path old new = Done (t', r) → table_step t t'
| step_rollback t t' path old new : rollback_reservation t path old new = Done t' → table_step t t'
| step_remove t t' path : remove_file t path = Done t' → table_step t t'.

Lemma quota_for_spec t path : table_ok t → ∃ o, quota_for t path = Done o ∧ ∀ q u, o = Some (q, u) → usages t !! q = Some u.
Proof.
  intros H. unfold quota_for. destruct (top_mount_index_for_path (mnt_list t) path) as [i|] eqn:Hi; [|by exists None].
  destruct (top_for_valid _ _ _ Hi) as [m Hm]. rewrite Hm. cbn [mbind comp_bind unwrap]. destruct (quota m) as [q|] eqn:Hq; [|by exists None].
  destruct (lookup_lt_is_Some_2 (usages t) q (eo_quota _ _ _ (entry_lookup t i m H Hm) q Hq)) as [u Hu]. rewrite Hu. cbn [mbind comp_bind unwrap].
  eexists. split; [done|]. by intros q' u' [= <- <-].
Qed.
Lemma with_usage_ok t q u : table_ok t → table_ok (with_usage t q u).
Proof. intros H. split; simpl; [apply H|apply H|]. rewrite length_insert. apply H. Qed.

Lemma reserve_write_ok t path old new : table_ok t →
  ∃ t' r, reserve_write t path old new = Done (t', r) ∧ table_ok t' ∧ next_group t' = next_group t ∧ mnt_list t' = mnt_list t.
Proof.
  intros H. destruct (quota_for_spec t path H) as (o & Ho & _). unfold reserve_write. rewrite Ho. cbn [mbind comp_bind]. destruct o as [[q u]|]; [|eauto 10].
  destruct (usage_reserve u path old new) as [u' r]. eexists _, _. split; [done|]. split; [by apply with_usage_ok|done].
Qed.
Lemma rollback_ok t path old new : table_ok t → ∃ t', rollback_reservation t path old new = Done t' ∧ table_ok t' ∧ next_group t' = next_group t ∧ mnt_list t' = mnt_list t.
Proof.
  intros H. destruct (quota_for_spec t path H) as (o & Ho & _). unfold rollback_reservation. rewrite Ho. cbn [mbind comp_bind]. destruct o as [[q u]|]; [|eauto 10].
  eexists. split; [done|]. split; [by apply with_usage_ok|done].
Qed.
Lemma remove_file_ok t path : table_ok t → ∃ t', remove_file t path = Done t' ∧ table_ok t' ∧ next_group t' = next_group t ∧ mnt_list t' = mnt_list t.
Proof.
  intros H. destruct (quota_for_spec t path H) as (o & Ho & _). unfold remove_file. rewrite Ho. cbn [mbind comp_bind]. destruct o as [[q u]|]; [|eauto 10].
  eexists. split; [done|]. split; [by apply with_usage_ok|done].
Qed.

Lemma table_step_ok t t' : table_ok t → next_group t < usize_max → table_step t t' → table_ok t' ∧ next_group t ≤ next_group t' ≤ next_group t + 1.
Proof.
  intros H Hg Hst. destruct Hst as [t t' sp d fst_ flags capacity r Hr|t t' d z Hr|t t' path old new r Hr|t t' path old new Hr|t t' path Hr].
  - destruct (mount_ok t sp d fst_ flags capacity H Hg) as (t1 & r1 & Hr1 & ? & ? & _). rewrite Hr in Hr1. by simplify_eq.
  - destruct (umount_spec t d H) as (t1 & z1 & Hr1 & ? & ? & _). rewrite Hr in Hr1. simplify_eq. split; [done|lia].
  - destruct (reserve_write_ok t path old new H) as (t1 & r1 & Hr1 & ? & ? & _). rewrite Hr in Hr1. simplify_eq. split; [done|lia].
  - destruct (rollback_ok t path old new H) as (t1 & Hr1 & ? & ? & _). rewrite Hr in Hr1. simplify_eq. split; [done|lia].
  - destruct (remove_file_ok t path H) as (t1 & Hr1 & ? & ? & _). rewrite Hr in Hr1. simplify_eq. split; [done|lia].
Qed.
Lemma table_new_ok : table_ok table_new.
Proof. split; simpl; [lia|lia|constructor]. Qed.
Lemma history_ok n t t' : nsteps table_step n t t' → table_ok t → next_group t + Z.of_nat n < usize_max → table_ok t' ∧ next_group t' ≤ next_group t + Z.of_nat n.
Proof.
  induction 1 as [t|n t1 t2 t3 Hst _ IH]; intros H Hg; [split; [done|lia]|]. destruct (table_step_ok t1 t2 H ltac:(lia) Hst) as [H2 Hg2].
  destruct (IH H2 ltac:(lia)) as [H3 Hg3]. split; [done|lia].
Qed.
Lemma history_new n t : nsteps table_step n table_new t → Z.of_nat n < usize_max - 1 → table_ok t ∧ next_group t < usize_max.
Proof. intros Hn Hlt. destruct (history_ok n table_new t Hn table_new_ok) as [H Hg]; simpl in *; [lia|]. split; [done|lia]. Qed.

(** ** Mounting and unmounting *)

(** The entry that a new mount puts at its own directory is the one that is seen there. *)
Lemma top_of_new l new d i : (∃ m, m ∈ new ∧ m_dir m = d) → top_mount_index_at_path (l ++ new) d = Some i → ∃ m, (l ++ new) !! i = Some m ∧ m ∈ new.
Proof.
  intros (m & Hm & Hd) Hi. apply list_elem_of_lookup in Hm as [j Hj]. pose proof (top_at_spec (l ++ new) d) as Hs. rewrite Hi in Hs. destruct Hs as (x & Hx & _ & Hlast).
  exists x. split; [done|]. destruct (decide (i < length l)%nat) as [Hlt|Hge].
  - exfalso. apply (Hlast (length l + j)%nat m); [lia| |done]. rewrite lookup_app_r by lia. by replace (length l + j - length l)%nat with j by lia.
  - rewrite lookup_app_r in Hx by lia. by eapply list_elem_of_lookup_2.
Qed.


(** [C22] Unmounting undoes mounting: in every state that a history of a mount table
    leads to, a new mount that succeeds, followed by an unmount of its directory,
    gives back the entries as they were, with all copies that were propagated;
    and an unmount reports -1 exactly when nothing is mounted there. *)
Theorem umount_undoes_mount n t sp d fst_ flags capacity t1 copies : nsteps table_step n table_new t → Z.of_nat n < usize_max - 1 → is_new flags →
  mount t sp d fst_ flags capacity = Done (t1, Ok copies) →
  (∃ t2, umount t1 d = Done (t2, 0) ∧ mnt_list t2 = mnt_list t) ∧
  (∀ d', (∃ t2, umount t1 d' = Done (t2, -1)) ↔ ∀ m, m ∈ mnt_list t1 → m_dir m ≠ d').
Proof.
  intros Hn Hlt Hnew Hmount. destruct (history_new n t Hn Hlt) as [H Hg]. destruct (mount_new_spec t sp d fst_ flags capacity H Hg Hnew) as (t' & r & Hr & Hres).
  rewrite Hmount in Hr. injection Hr as <- <-. destruct Hres as (ts & new & q & Hex & Hl & Hf & _ & H1 & _). split.
  - destruct (umount_spec t1 d H1) as (t2 & z & Hu & _ & _ & Hres). destruct (te_first _ _ _ Hex) as [ts' ->]. inversion Hf as [|? m0 ? new' He Hf' Heq1 Heq2]. subst.
    assert (∀ m, m ∈ m0 :: new' → event_group m = next_group t) as Hev.
    { intros m Hm. apply list_elem_of_lookup in Hm as [j Hj]. destruct (Forall2_lookup_r _ _ _ j m Hf Hj) as (? & _ & Hm'). apply Hm'. }
    destruct (top_mount_index_at_path (mnt_list t1) d) as [i|] eqn:Hi.
    + rewrite Hl in Hi. destruct (top_of_new (mnt_list t) (m0 :: new') d i) as (m & Hm & Hin); [exists m0; split; [by left|apply He]|done|].
      destruct Hres as (m' & Hm' & Hl2 & ->). rewrite Hl in Hm', Hl2. assert (m' = m) as -> by congruence. exists t2. split; [done|]. rewrite Hl2, retain_app, (Hev m Hin).
      rewrite retain_all, retain_none; [by rewrite app_nil_r| |].
      * intros x Hx. by rewrite (Hev x Hx), Z.eqb_refl.
      * intros x Hx. pose proof (proj1 (Forall_forall _ _) (to_entries t H) x Hx) as Hox. destruct (Z.eqb_spec (event_group x) (next_group t)); [|done]. destruct Hox as [? _ _ _]. lia.
    + exfalso. pose proof (top_at_spec (mnt_list t1) d) as Hs. rewrite Hi in Hs. apply (Hs m0); [rewrite Hl; apply elem_of_app; right; by left|apply He].
  - intros d'. destruct (umount_spec t1 d' H1) as (t2 & z & Hu & _ & _ & Hres). pose proof (top_at_spec (mnt_list t1) d') as Hs.
    destruct (top_mount_index_at_path (mnt_list t1) d') as [i|].
    + destruct Hres as (m' & _ & _ & ->). destruct Hs as (m & Hm & Hd & _). split.
      * intros (t3 & Ht3). rewrite Hu in Ht3. by simplify_eq.
      * intros Hno. exfalso. apply (Hno m); [by eapply list_elem_of_lookup_2|done].
    + destruct Hres as [-> ->]. split; [done|eauto].
Qed.

(** ** Quotas *)

Definition file_sum (m : gmap str Z) : Z := map_fold (λ _ n a, n + a) 0 m.
Lemma file_sum_insert_new m p n : m !! p = None → file_sum (<[p := n]> m) = n + file_sum m.
Proof. intros Hp. unfold file_sum. rewrite map_fold_insert_L; [done| |done]. intros. lia. Qed.
Lemma file_sum_delete m p n : m !! p = Some n → file_sum m = n + file_sum (delete p m).
Proof. intros Hp. unfold file_sum. rewrite (map_fold_delete_L _ _ p n) by (done || (intros; lia)). done. Qed.
Lemma file_sum_insert m p n : file_sum (<[p := n]> m) = n + file_sum (delete p m).
Proof. rewrite <- insert_delete_eq. apply file_sum_insert_new, lookup_delete_eq. Qed.
Lemma file_sum_nonneg m : (∀ p n, m !! p = Some n → 0 ≤ n) → 0 ≤ file_sum m.
Proof.
  induction m as [|p n m Hp IH] using map_ind; intros Hm; [done|]. rewrite file_sum_insert_new by done.
  assert (0 ≤ n) by (apply (Hm p); apply lookup_insert_eq). assert (0 ≤ file_sum m); [|lia]. apply IH. intros q k Hq. apply (Hm q). rewrite lookup_insert_ne; [done|]. intros ->. congruence.
Qed.

(** The count is the sum of the files and within the limit. *)
Record usage_ok (u : MountUsage) : Prop := {
  uo_sum : u_used u = file_sum (u_files u);
  uo_limit : u_used u ≤ u_limit u ≤ usize_max;
  uo_sizes p n : u_files u !! p = Some n → 0 ≤ n }.
Lemma usage_known u p n : usage_ok u → u_files u !! p = Some n → 0 ≤ n ∧ u_used u = n + file_sum (delete p (u_files u)) ∧ 0 ≤ file_sum (delete p (u_files u)).
Proof.
  intros H Hp. split; [by apply (uo_sizes u H p)|]. split; [rewrite (uo_sum u H); by apply file_sum_delete|]. apply file_sum_nonneg. intros q k [_ Hq]%lookup_delete_Some. by apply (uo_sizes u H q).
Qed.
(** The record of a file, the rest of the count. *)
Lemma usage_split u p : usage_ok u → ∃ n rest, default 0 (u_files u !! p) = n ∧ 0 ≤ n ∧ 0 ≤ rest ∧ rest = file_sum (delete p (u_files u)) ∧ u_used u = n + rest.
Proof.
  intros H. destruct (u_files u !! p) as [n|] eqn:Hp.
  - destruct (usage_known u p n H Hp) as (? & ? & ?). by exists n, (file_sum (delete p (u_files u))).
  - exists 0, (file_sum (delete p (u_files u))). rewrite delete_id by done. pose proof (file_sum_nonneg _ (uo_sizes u H)). rewrite <- (uo_sum u H) in *. done.
Qed.
Lemma usage_set u p n rest : usage_ok u → rest = file_sum (delete p (u_files u)) → 0 ≤ n → n + rest ≤ u_limit u → usage_ok (mkUsage (u_limit u) (n + rest) (<[p := n]> (u_files u))).
Proof.
  intros H -> Hn Hl. split; simpl; [by rewrite file_sum_insert|pose proof (uo_limit u H); lia|]. intros q k [[<- <-]|[_ Hq]]%lookup_insert_Some; [done|by apply (uo_sizes u H q)].
Qed.

Lemma usage_reserve_spec u p old new : usage_ok u → (u_files u !! p = None → old = 0) → 0 ≤ new →
  let n := default 0 (u_files u !! p) in
  match usage_reserve u p old new with
  | (u', Ok _) => u' = mkUsage (u_limit u) (Z.max n new + file_sum (delete p (u_files u))) (<[p := Z.max n new]> (u_files u)) ∧ Z.max n new + file_sum (delete p (u_files u)) ≤ u_limit u
  | (u', Err _) => u' = u
  end.
Proof.
  intros H Hold Hnew n. destruct (usage_split u p H) as (n' & rest & Hn' & Hn0 & Hr0 & Hr & Hu). subst n'. fold n in Hn0, Hu. rewrite <- Hr. pose proof (uo_limit u H) as Hl.
  unfold usage_reserve.
  assert ((match u_files u !! p with Some k => (u, k) | None => (mkUsage (u_limit u) (saturating_add (u_used u) old) (u_files u), old) end) = (u, n)) as ->.
  { unfold n. destruct (u_files u !! p) eqn:Hp; [done|]. rewrite Hold by done. unfold saturating_add. rewrite Z.min_r by lia. rewrite Z.add_0_r. by destruct u. }
  destruct (Z.leb_spec new n) as [Hle|Hgt].
  - rewrite Z.max_l by lia. split; [|lia]. rewrite Hu. f_equal. unfold n. by destruct (u_files u !! p).
  - unfold saturating_sub. destruct (Z.ltb_spec (Z.max 0 (u_limit u - u_used u)) (new - n)) as [|Hfit]; [done|]. rewrite Z.max_r by lia. split; [|lia].
    rewrite wrap64_small by (unfold is_usize; lia). f_equal. lia.
Qed.
Lemma usage_reserve_ok u p old new : usage_ok u → (u_files u !! p = None → old = 0) → 0 ≤ new → usage_ok (usage_reserve u p old new).1.
Proof.
  intros H Hold Hnew. pose proof (usage_reserve_spec u p old new H Hold Hnew) as Hs. destruct (usage_split u p H) as (n & rest & Hn & ? & ? & Hr & ?). rewrite Hn in Hs.
  destruct (usage_reserve u p old new) as [u' [[]|e]]; simpl; [|by rewrite Hs]. destruct Hs as [-> Hle]. apply usage_set; [done|done|lia|done].
Qed.
Lemma usage_remove_ok u p : usage_ok u → usage_ok (usage_remove u p).
Proof.
  intros H. unfold usage_remove. destruct (u_files u !! p) as [n|] eqn:Hp; [|done]. destruct (usage_known u p n H Hp) as (Hn & Hu & Hr). pose proof (uo_limit u H).
  unfold saturating_sub. split; simpl; [lia|lia|]. intros q k [_ Hq]%lookup_delete_Some. by apply (uo_sizes u H q).
Qed.
(** A reservation that grew a file, taken back. *)
Lemma usage_failed_ok u p old new u1 : usage_ok u → default 0 (u_files u !! p) = old → old < new → usage_reserve u p old new = (u1, Ok ()) → usage_ok (usage_rollback u1 p old new).
Proof.
  intros H Hold Hlt Hres. destruct (usage_split u p H) as (n & rest & Hn & Hn0 & Hr0 & Hr & Hu). rewrite Hn in Hold. subst n.
  pose proof (usage_reserve_spec u p old new H ltac:(intros Hp; by rewrite Hp in Hn) ltac:(lia)) as Hs. cbv zeta in Hs. rewrite Hres in Hs. rewrite Hn, Z.max_r, <- Hr in Hs by lia. destruct Hs as [-> Hle].
  unfold usage_rollback. simpl. rewrite lookup_insert_eq, Z.eqb_refl, insert_insert_eq. unfold saturating_sub. rewrite Z.min_id. replace (Z.max 0 (new + rest - Z.max 0 (new - old))) with (old + rest) by lia.
  apply usage_set; [done|done|done|pose proof (uo_limit u H); lia].
Qed.

(** Histories in which unknown files are empty when they are first written, and a
    reservation is taken back only by the write that made it. *)
Definition charged (t : MountTable) (path : str) (old : Z) : Prop :=
  ∀ q u, quota_for t path = Done (Some (q, u)) → u_files u !! path = None → old = 0.
Definition recorded (t : MountTable) (path : str) (old : Z) : Prop :=
  ∀ q u, quota_for t path = Done (Some (q, u)) → default 0 (u_files u !! path) = old.
Inductive quota_step : MountTable → MountTable → Prop :=
| quota_mount t t' sp d fst_ flags capacity r : (∀ c, capacity = Some c → is_usize c) → mount t sp d fst_ flags capacity = Done (t', r) → quota_step t t'
| quota_umount t t' d z : umount t d = Done (t', z) → quota_step t t'
| quota_reserve t t' path old new r : charged t path old → 0 ≤ new → reserve_write t path old new = Done (t', r) → quota_step t t'
| quota_failed t t1 t' path old new : recorded t path old → old < new → reserve_write t path old new = Done (t1, Ok ()) →
    rollback_reservation t1 path old new = Done t' → quota_step t t'
| quota_remove t t' path : remove_file t path = Done t' → quota_step t t'.

Lemma move_usages t source d t' r : move_mount t source d = Done (t', r) → usages t' = usages t.
Proof.
  unfold move_mount. intros H. destruct (bool_decide _); [by exec|]. destruct (path_is_at_or_below d source); [by exec|]. apply comp_bind_done in H as (ts & _ & H).
  destruct (bool_decide _); [by exec|]. destruct (_ <? _); [by exec|]. apply comp_bind_done in H as (ss & _ & H). apply comp_bind_done in H as (s & _ & H). by injection H as <- _.
Qed.
Lemma propagation_usages t d flags t' : set_propagation t d flags = Done t' → usages t' = usages t.
Proof.
  unfold set_propagation. intros H. destruct (top_mount_index_at_path (mnt_list t) d); [|by exec]. apply comp_bind_done in H as (m & _ & H). injection H as <-.
  by destruct (contains flags MS_SHARED), (contains flags MS_SLAVE).
Qed.
Lemma mount_usages t sp d fst_ flags capacity t' r u : mount t sp d fst_ flags capacity = Done (t', r) → u ∈ usages t' → u ∈ usages t ∨ new_usage fst_ flags capacity = Some u.
Proof.
  unfold mount. intros H Hu. destruct (is_move flags); [left; by erewrite <- move_usages|].
  destruct (is_propagation_only flags); [exec; left; by erewrite <- propagation_usages|].
  destruct (is_remount flags); [destruct (top_mount_index_at_path (mnt_list t) d); exec; by left|].
  apply comp_bind_done in H as (src & _ & H). destruct (from_option unbindable false src); [exec; by left|]. destruct (negb _ && _); [exec; by left|].
  apply comp_bind_done in H as (ts & _ & H). destruct (_ <? _); [exec; by left|]. unfold take_group in H.
  destruct (new_usage fst_ flags capacity) as [v|]; apply comp_bind_done in H as (l' & _ & H); injection H as <- <-; simpl in Hu; [|by left].
  apply elem_of_app in Hu as [?|Hu]; [by left|]. apply list_elem_of_singleton in Hu as ->. by right.
Qed.
Lemma new_usage_ok fst_ flags capacity u : (∀ c, capacity = Some c → is_usize c) → new_usage fst_ flags capacity = Some u → usage_ok u.
Proof.
  intros Hc. unfold new_usage. destruct (_ && _); [|done]. destruct capacity as [c|]; [|done]. destruct (c =? 0); [done|]. intros [= <-].
  destruct (Hc c eq_refl) as [H0 H1]. pose proof (Z.div_le_upper_bound c 3 c ltac:(lia) ltac:(lia)). unfold usize_max in *. split; simpl; [done|unfold usize_max; lia|by intros p n].
Qed.

Definition usages_ok (t : MountTable) : Prop := ∀ u, u ∈ usages t → usage_ok u.
Lemma with_usage_elem t q u v : v ∈ usages (with_usage t q u) → v ∈ usages t ∨ v = u.
Proof.
  simpl. intros [i Hi]%list_elem_of_lookup. apply list_lookup_insert_Some in Hi as [(_ & -> & _)|[_ Hi]]; [by right|]. left. by eapply list_elem_of_lookup_2.
Qed.
(** What a quota becomes, when [quota_for] finds it. *)
Lemma quota_for_elem t path q u : quota_for t path = Done (Some (q, u)) → u ∈ usages t ∧ usages t !! q = Some u.
Proof.
  unfold quota_for. intros H. destruct (top_mount_index_for_path (mnt_list t) path); [|by exec]. apply comp_bind_done in H as (m & _ & H). destruct (quota m) as [q'|]; [|by exec].
  apply comp_bind_done in H as (v & Hv & H). apply unwrap_done in Hv. injection H as -> ->. split; [by eapply list_elem_of_lookup_2|done].
Qed.
Lemma usages_ok_with t q u : usages_ok t → usage_ok u → usages_ok (with_usage t q u).
Proof. intros H Hu v [Hv| ->]%with_usage_elem; [by apply H|done]. Qed.
Lemma with_usage_twice t q u u' : with_usage (with_usage t q u) q u' = with_usage t q u'.
Proof. unfold with_usage. simpl. by rewrite list_insert_insert_eq. Qed.
Lemma quota_for_with t path q u u' : quota_for t path = Done (Some (q, u)) → quota_for (with_usage t q u') path = Done (Some (q, u')).
Proof.
  intros H. pose proof (quota_for_elem t path q u H) as [_ Hu]. unfold quota_for in *. simpl. destruct (top_mount_index_for_path (mnt_list t) path); [|by exec].
  apply comp_bind_done in H as (m & -> & H). cbn [mbind comp_bind]. destruct (quota m) as [q'|]; [|by exec]. apply comp_bind_done in H as (v & Hv & H). injection H as -> ->.
  rewrite list_lookup_insert_eq; [done|]. by eapply lookup_lt_Some.
Qed.

Lemma quota_step_ok t t' : usages_ok t → quota_step t t' → usages_ok t'.
Proof.
  intros H Hst. destruct Hst as [t t' sp d fst_ flags capacity r Hc Hr|t t' d z Hr|t t' path old new r Hch Hnew Hr|t t1 t' path old new Hrec Hlt Hr Hb|t t' path Hr].
  - intros u Hu. destruct (mount_usages _ _ _ _ _ _ _ _ u Hr Hu) as [?|Hn]; [by apply H|]. by eapply new_usage_ok.
  - unfold umount in Hr. destruct (top_mount_index_at_path (mnt_list t) d); exec; done.
  - unfold reserve_write in Hr. apply comp_bind_done in Hr as ([[q u]|] & Hq & Hr); [|by injection Hr as <- <-].
    pose proof (usage_reserve_ok u path old new (H u (proj1 (quota_for_elem _ _ _ _ Hq))) (Hch q u Hq) Hnew) as Hok.
    destruct (usage_reserve u path old new) as [u' r']. injection Hr as <- <-. by apply usages_ok_with.
  - unfold reserve_write in Hr. apply comp_bind_done in Hr as ([[q u]|] & Hq & Hr).
    + destruct (usage_reserve u path old new) as [u' r'] eqn:Hu. injection Hr as <- ->. unfold rollback_reservation in Hb. rewrite (quota_for_with _ _ _ _ u' Hq) in Hb. cbn [mbind comp_bind] in Hb.
      pose proof (usage_failed_ok u path old new u' (H u (proj1 (quota_for_elem _ _ _ _ Hq))) (Hrec q u Hq) Hlt Hu) as Hok. injection Hb as <-.
      rewrite with_usage_twice. by apply usages_ok_with.
    + injection Hr as <-. unfold rollback_reservation in Hb. rewrite Hq in Hb. by injection Hb as <-.
  - unfold remove_file in Hr. apply comp_bind_done in Hr as ([[q u]|] & Hq & Hr); injection Hr as <-; [|done]. apply usages_ok_with; [done|]. apply usage_remove_ok, H. by eapply quota_for_elem.
Qed.


(** ** Examples *)

Definition after {A} (r : comp (MountTable * A)) : MountTable := match r with Done (t, _) => t | Panic => table_new end.
Definition dirs (t : MountTable) : list string := (λ m, String.string_of_list_ascii (m_dir m)) <$> mnt_list t.
Definition mount_at (t : MountTable) (sp d : string) (flags : Z) : MountTable := after (mount t (lit sp) (lit d) (lit "tmpfs") flags None).

(** A directory with a shared mount and a peer. *)
Definition demo_shared : MountTable := mount_at (mount_at table_new "dev" "/mnt" 0) "" "/mnt" MS_SHARED.
Definition demo_peer : MountTable := mount_at demo_shared "/mnt" "/peer" MS_BIND.

Definition runs {A} (r : comp A) : bool := match r with Done _ => true | Panic => false end.
Lemma step_mount_at t sp d flags : runs (mount t (lit sp) (lit d) (lit "tmpfs") flags None) = true → table_step t (mount_at t sp d flags).
Proof. unfold mount_at, runs. destruct (mount t (lit sp) (lit d) (lit "tmpfs") flags None) as [[t' r]|] eqn:E; [|done]. intros _. by eapply step_mount. Qed.
Lemma demo_peer_reached : nsteps table_step 3 table_new demo_peer.
Proof.
  apply nsteps_l with (mount_at table_new "dev" "/mnt" 0); [apply step_mount_at; vm_compute; reflexivity|].
  apply nsteps_l with demo_shared; [apply step_mount_at; vm_compute; reflexivity|].
  apply nsteps_l with demo_peer; [apply step_mount_at; vm_compute; reflexivity|]. apply nsteps_O.
Qed.
Lemma new_zero : is_new 0.
Proof. by repeat split. Qed.

(** A mount under the shared directory reaches the peer. *)
Definition demo_mounted : MountTable := mount_at demo_peer "dev" "/mnt/a" 0.
Lemma demo_mounted_run : mount demo_peer (lit "dev") (lit "/mnt/a") (lit "tmpfs") 0 None = Done (demo_mounted, Ok []).
Proof. vm_compute. reflexivity. Qed.

Lemma umount_undoes_mount_witness : ∃ t2, umount demo_mounted (lit "/mnt/a") = Done (t2, 0) ∧ mnt_list t2 = mnt_list demo_peer.
Proof.
  exact (proj1 (umount_undoes_mount 3 demo_peer (lit "dev") (lit "/mnt/a") (lit "tmpfs") 0 None demo_mounted [] demo_peer_reached ltac:(unfold usize_max; lia) new_zero demo_mounted_run)).
Defined.

(** A mount of an image of six megabytes, and a file of 100 bytes. *)
Definition demo_image : MountTable := after (mount table_new (lit "img") (lit "/m") ext4 0 (Some 6291456)).
Definition demo_file : str := lit "/m/f".
Definition demo_written : MountTable := after (reserve_write demo_image demo_file 0 100).
Lemma demo_image_run : mount table_new (lit "img") (lit "/m") ext4 0 (Some 6291456) = Done (demo_image, Ok []).
Proof. vm_compute. reflexivity. Qed.
Lemma demo_written_run : reserve_write demo_image demo_file 0 100 = Done (demo_written, Ok tt).
Proof. vm_compute. reflexivity. Qed.
Lemma demo_written_reached : rtc quota_step table_new demo_written.
Proof.
  apply rtc_l with demo_image.
  - refine (quota_mount _ _ _ _ _ _ (Some 6291456) _ _ demo_image_run). intros c Hc. injection Hc as <-. unfold is_usize, usize_max. lia.
  - apply rtc_once. refine (quota_reserve _ _ demo_file 0 100 _ _ _ demo_written_run); [intros q u _ _; reflexivity|lia].
Qed.
Definition demo_usage : MountUsage := mkUsage 2097152 100 {[demo_file := 100]}.
Lemma demo_usage_found : usages demo_written !! 0%nat = Some demo_usage.
Proof. vm_compute. reflexivity. Qed.

(** A mount under a shared directory joins the group of its parent, so the next mount
    beside it appears below it as well. *)
Theorem sibling_mount_nests :
  dirs (mount_at (mount_at demo_shared "dev" "/mnt/a" 0) "dev" "/mnt/b" 0) = ["/mnt"; "/mnt/a"; "/mnt/b"; "/mnt/a/b"]%string.
Proof. vm_compute. reflexivity. Qed.
(** Making a tree shared puts all its mounts into one group, with the same effect. *)
Theorem recursive_shared_merges :
  dirs (mount_at (mount_at (mount_at (mount_at table_new "dev" "/mnt" 0) "dev" "/mnt/a" 0) "" "/mnt" (Z.lor MS_SHARED MS_REC)) "dev" "/mnt/b" 0)
  = ["/mnt"; "/mnt/a"; "/mnt/b"; "/mnt/a/b"]%string.
Proof. vm_compute. reflexivity. Qed.

Definition used_of (t : MountTable) : option Z := u_used <$> usages t !! 0%nat.
(** A file of one megabyte that the quota of two does not know: a reservation that is
    refused counts it, and the one that is tried next counts it again and is
    refused although the file fits. *)
Theorem refused_reservation_counts_twice :
  let t1 := after (reserve_write demo_image demo_file 1048576 2162688) in
  let t2 := reserve_write t1 demo_file 1048576 1048577 in
  used_of demo_image = Some 0 ∧ used_of t1 = Some 1048576 ∧ (snd <$> t2) = Done (Err ENOSPC) ∧ used_of (after t2) = Some 2097152.
Proof. vm_compute. repeat split; reflexivity. Qed.
(** A file that is known with 100 bytes: a write that needs no growth fails and gives
    back bytes it did not reserve; the count is 41 although the file still counts
    100. *)
Theorem rollback_gives_back_too_much :
  let t := (t1 ← Done (after (reserve_write demo_written demo_file 1 60)); rollback_reservation t1 demo_file 1 60) in
  (used_of <$> t) = Done (Some 41) ∧ ((λ t, u_files <$> usages t !! 0%nat) <$> t) = Done (Some {[demo_file := 100]}).
Proof. vm_compute. repeat split; reflexivity. Qed.
