(* ===== verification/UnixSock.v ===== *)
(** * AF_UNIX sockets

    [net/unix.rs]: stream, datagram and seqpacket sockets with bounded receive
    queues, the table of bound addresses, connection, shutdown and destruction.

    A socket is shared by its handle, the binding table, the queue of pending
    connections of a listener and the calls that send to it; these hold an [Arc],
    whose count is [strong].  A peer holds a [Weak]: it is alive as long as the
    socket is in the store.  The closures that [poll_io] repeats are functions of
    their own; the source of a [send] is its bytes and the destination of a [recv]
    its length.  Woken tasks are appended to [woken].  Creating the file of a path
    address is an argument. *)

From S2P Require Import Prelude Errno Bytes Wake.

Definition UNIX_BUF_SIZE : Z := 64 * 1024.

Inductive UnixSocketAddr : Type := Unnamed | Abstract (name : list Z) | PathAddr (path : string).
#[export] Instance UnixSocketAddr_eq_dec : EqDecision UnixSocketAddr.
Proof. solve_decision. Defined.
#[export] Instance UnixSocketAddr_countable : Countable UnixSocketAddr.
Proof.
  refine (inj_countable' (λ a, match a with Unnamed => None | Abstract n => Some (inl n) | PathAddr p => Some (inr p) end)
    (λ o, match o with None => Unnamed | Some (inl n) => Abstract n | Some (inr p) => PathAddr p end) _).
  by intros [].
Defined.

Inductive UnixSocketKind : Set := Stream | Dgram | SeqPacket.
#[export] Instance UnixSocketKind_eq_dec : EqDecision UnixSocketKind.
Proof. solve_decision. Defined.

Record UnixMessage : Type := mkMsg { data : list Z; sender : UnixSocketAddr }.
Record UnixRecvQueue : Type := mkQueue { messages : list UnixMessage; queued_bytes : Z; q_closed : bool }.
Definition queue_new : UnixRecvQueue := mkQueue [] 0 false.

Inductive QueuePushError : Set := Closed | Full.

Record UnixSocketInner : Type := mkInner {
  kind : UnixSocketKind; local_addr : UnixSocketAddr; peer_addr : UnixSocketAddr; peer_ref : option Z;
  recv_queue : UnixRecvQueue; pending : list Z; recv_poll : list Z; write_poll : list Z; accept_poll : list Z;
  listening : bool; nonblocking : bool; send_closed : bool; pid : Z; strong : nat }.
Record Unix : Type := mkUnix { socks : gmap Z UnixSocketInner; UNIX_BINDS : gmap UnixSocketAddr Z; next_id : Z; woken : list Z }.

Definition unix_init : Unix := mkUnix ∅ ∅ 0 [].

(** ** Updates of one field *)

Definition inner_new (k : UnixSocketKind) (p : Z) : UnixSocketInner :=
  mkInner k Unnamed Unnamed None queue_new [] [] [] [] false false false p 1.
Definition set_local (a : UnixSocketAddr) (s : UnixSocketInner) : UnixSocketInner :=
  mkInner (kind s) a (peer_addr s) (peer_ref s) (recv_queue s) (pending s) (recv_poll s) (write_poll s) (accept_poll s) (listening s) (nonblocking s) (send_closed s) (pid s) (strong s).
Definition set_peer (p : Z) (a : UnixSocketAddr) (s : UnixSocketInner) : UnixSocketInner :=
  mkInner (kind s) (local_addr s) a (Some p) (recv_queue s) (pending s) (recv_poll s) (write_poll s) (accept_poll s) (listening s) (nonblocking s) (send_closed s) (pid s) (strong s).
Definition set_queue (q : UnixRecvQueue) (s : UnixSocketInner) : UnixSocketInner :=
  mkInner (kind s) (local_addr s) (peer_addr s) (peer_ref s) q (pending s) (recv_poll s) (write_poll s) (accept_poll s) (listening s) (nonblocking s) (send_closed s) (pid s) (strong s).
Definition set_pending (l : list Z) (s : UnixSocketInner) : UnixSocketInner :=
  mkInner (kind s) (local_addr s) (peer_addr s) (peer_ref s) (recv_queue s) l (recv_poll s) (write_poll s) (accept_poll s) (listening s) (nonblocking s) (send_closed s) (pid s) (strong s).
Definition set_polls (r w a : list Z) (s : UnixSocketInner) : UnixSocketInner :=
  mkInner (kind s) (local_addr s) (peer_addr s) (peer_ref s) (recv_queue s) (pending s) r w a (listening s) (nonblocking s) (send_closed s) (pid s) (strong s).
Definition set_state (l n c : bool) (s : UnixSocketInner) : UnixSocketInner :=
  mkInner (kind s) (local_addr s) (peer_addr s) (peer_ref s) (recv_queue s) (pending s) (recv_poll s) (write_poll s) (accept_poll s) l n c (pid s) (strong s).
Definition set_strong (n : nat) (s : UnixSocketInner) : UnixSocketInner :=
  mkInner (kind s) (local_addr s) (peer_addr s) (peer_ref s) (recv_queue s) (pending s) (recv_poll s) (write_poll s) (accept_poll s) (listening s) (nonblocking s) (send_closed s) (pid s) n.

Definition with_socks (st : Unix) (m : gmap Z UnixSocketInner) : Unix := mkUnix m (UNIX_BINDS st) (next_id st) (woken st).
Definition with_binds (st : Unix) (b : gmap UnixSocketAddr Z) : Unix := mkUnix (socks st) b (next_id st) (woken st).
Definition upd (st : Unix) (i : Z) (f : UnixSocketInner → UnixSocketInner) : Unix := with_socks st (alter f i (socks st)).
Definition wake_up (st : Unix) (l : list Z) : Unix := mkUnix (socks st) (UNIX_BINDS st) (next_id st) (woken st ++ l).

(** The three poll sets. *)
Definition wake_recv (st : Unix) (i : Z) : Unix :=
  match socks st !! i with
  | None => st
  | Some s => let '(l, es) := poll_wake (recv_poll s) in wake_up (upd st i (set_polls es (write_poll s) (accept_poll s))) l
  end.
Definition wake_write (st : Unix) (i : Z) : Unix :=
  match socks st !! i with
  | None => st
  | Some s => let '(l, es) := poll_wake (write_poll s) in wake_up (upd st i (set_polls (recv_poll s) es (accept_poll s))) l
  end.
Definition wake_accept (st : Unix) (i : Z) : Unix :=
  match socks st !! i with
  | None => st
  | Some s => let '(l, es) := poll_wake (accept_poll s) in wake_up (upd st i (set_polls (recv_poll s) (write_poll s) es)) l
  end.

(** ** References *)

Definition arc_clone (st : Unix) (i : Z) : Unix := upd st i (λ s, set_strong (S (strong s)) s).
(** The last drop of a socket drops its pending connections. *)
Fixpoint arc_drop_fuel (fuel : nat) (st : Unix) (i : Z) : Unix :=
  match socks st !! i with
  | None => st
  | Some s =>
      if (strong s =? 1)%nat then
        let st := with_socks st (delete i (socks st)) in
        match fuel with O => st | S fuel => foldl (arc_drop_fuel fuel) st (pending s) end
      else upd st i (set_strong (strong s - 1))
  end.
Definition arc_drop (st : Unix) (i : Z) : Unix := arc_drop_fuel (size (socks st)) st i.

(** ** The receive queue *)

Definition try_enqueue (q : UnixRecvQueue) (m : UnixMessage) : result QueuePushError UnixRecvQueue :=
  if q_closed q then Err Closed
  else if wrap64 (UNIX_BUF_SIZE - queued_bytes q) <? data_len (data m) then Err Full
  else Ok (mkQueue (messages q ++ [m]) (wrap64 (queued_bytes q + data_len (data m))) false).
Definition available_write_bytes (q : UnixRecvQueue) : result QueuePushError Z :=
  if q_closed q then Err Closed else Ok (wrap64 (UNIX_BUF_SIZE - queued_bytes q)).
Definition close_recv (st : Unix) (i : Z) : Unix :=
  wake_write (wake_recv (upd st i (set_queue (mkQueue [] 0 true))) i) i.

(** ** Creation *)

Definition add_sock (st : Unix) (s : UnixSocketInner) : Unix * Z :=
  (mkUnix (<[next_id st := s]> (socks st)) (UNIX_BINDS st) (next_id st + 1) (woken st), next_id st).
Definition unix_new (st : Unix) (k : UnixSocketKind) (p : Z) : Unix * Z := add_sock st (inner_new k p).
Definition new_pair (st : Unix) (k : UnixSocketKind) (p : Z) : Unix * Z * Z :=
  let '(st, l) := unix_new st k p in
  let '(st, r) := unix_new st k p in
  (upd (upd st l (set_peer r Unnamed)) r (set_peer l Unnamed), l, r).

Definition is_connection_oriented (s : UnixSocketInner) : bool :=
  match kind s with Stream | SeqPacket => true | Dgram => false end.
(** [Weak::upgrade]. *)
Definition upgrade (st : Unix) (o : option Z) : option Z :=
  match o with Some p => if socks st !! p then Some p else None | None => None end.
Definition peer (st : Unix) (s : UnixSocketInner) : result SysErrNo Z := ok_or ENOTCONN (upgrade st (peer_ref s)).
Definition peer_closed (st : Unix) (s : UnixSocketInner) : bool :=
  match peer_ref s with Some _ => negb (bool_decide (is_Some (upgrade st (peer_ref s)))) | None => false end.
Definition bound_peer (st : Unix) (a : UnixSocketAddr) : result SysErrNo Z := ok_or ECONNREFUSED (UNIX_BINDS st !! a).

(** ** Addresses and connections *)

(** The file of a path is made between two looks at the table. *)
Definition bind (st : Unix) (i : Z) (a : UnixSocketAddr) (create : result SysErrNo unit) : comp (Unix * result SysErrNo unit) :=
  if bool_decide (a = Unnamed) then Done (st, Err EINVAL)
  else
    s ← unwrap (socks st !! i);
    if negb (bool_decide (local_addr s = Unnamed)) then Done (st, Err EINVAL)
    else if UNIX_BINDS st !! a then Done (st, Err EADDRINUSE)
    else
      match (match a with PathAddr _ => create | _ => Ok tt end) with
      | Err e => Done (st, Err e)
      | Ok _ =>
          let st := arc_clone (with_binds st (<[a := i]> (UNIX_BINDS st))) i in
          Done (upd st i (set_local a), Ok tt)
      end.

Definition connect (st : Unix) (i : Z) (a : UnixSocketAddr) : comp (Unix * result SysErrNo unit) :=
  match bound_peer st a with
  | Err e => Done (st, Err e)
  | Ok r =>
      remote ← unwrap (socks st !! r);
      s ← unwrap (socks st !! i);
      if negb (bool_decide (kind remote = kind s)) then Done (st, Err ECONNREFUSED)
      else if peer_ref s then Done (st, Err EISCONN)
      else if is_connection_oriented s then
        if negb (listening remote) then Done (st, Err ECONNREFUSED)
        else
          let server := set_peer i (local_addr s) (set_local a (inner_new (kind s) (pid remote))) in
          let '(st, n) := add_sock st server in
          let st := upd st i (set_peer n a) in
          let st := upd st r (λ x, set_pending (pending x ++ [n]) x) in
          Done (wake_accept st r, Ok tt)
      else Done (upd st i (set_peer r a), Ok tt)
  end.

Definition listen (st : Unix) (i : Z) : comp (Unix * result SysErrNo unit) :=
  s ← unwrap (socks st !! i);
  if negb (is_connection_oriented s) then Done (st, Err EOPNOTSUPP)
  else if bool_decide (local_addr s = Unnamed) then Done (st, Err EINVAL)
  else Done (upd st i (set_state true (nonblocking s) (send_closed s)), Ok tt).

Definition accept_check (s : UnixSocketInner) : result SysErrNo unit :=
  if negb (is_connection_oriented s) || negb (listening s) then Err EINVAL else Ok tt.
(** The reference moves from the queue to the new handle. *)
Definition accept_once (st : Unix) (i : Z) : comp (Unix * result SysErrNo Z) :=
  s ← unwrap (socks st !! i);
  match pending s with
  | [] => Done (st, Err EAGAIN)
  | n :: l => Done (upd st i (set_pending l), Ok n)
  end.

(** ** Sending *)

(** The part before the loop: the target, whose reference the call keeps. *)
Definition send_begin (st : Unix) (i : Z) (to : option UnixSocketAddr) : comp (Unix * result SysErrNo Z) :=
  s ← unwrap (socks st !! i);
  if send_closed s then Done (st, Err EPIPE)
  else
    match to with
    | Some a =>
        match bound_peer st a with
        | Err e => Done (st, Err e)
        | Ok r =>
            remote ← unwrap (socks st !! r);
            if negb (bool_decide (kind remote = kind s)) then Done (st, Err ECONNREFUSED) else Done (arc_clone st r, Ok r)
        end
    | None => match peer st s with Err e => Done (st, Err e) | Ok r => Done (arc_clone st r, Ok r) end
    end.
(** How much of [len] bytes goes into a queue with [available] bytes of space. *)
Definition write_len (k : UnixSocketKind) (len available : Z) : result SysErrNo Z :=
  match k with
  | Stream => Ok (Z.min len available)
  | Dgram | SeqPacket => if UNIX_BUF_SIZE <? len then Err EMSGSIZE else if available <? len then Err EAGAIN else Ok len
  end.
(** The closure. *)
Definition send_once (st : Unix) (i target : Z) (from : UnixSocketAddr) (src : list Z) : comp (Unix * result SysErrNo Z) :=
  s ← unwrap (socks st !! i);
  t ← unwrap (socks st !! target);
  if send_closed s then Done (st, Err EPIPE)
  else
    match available_write_bytes (recv_queue t) with
    | Err _ => Done (st, Err EPIPE)
    | Ok available =>
        if data_len src =? 0 then Done (st, Ok 0)
        else
          match write_len (kind s) (data_len src) available with
          | Err e => Done (st, Err e)
          | Ok n =>
              if n =? 0 then Done (st, Err EAGAIN)
              else
                match try_enqueue (recv_queue t) (mkMsg (take (Z.to_nat n) src) from) with
                | Ok q => Done (upd st target (set_queue q), Ok n)
                | Err Closed => Done (st, Err EPIPE)
                | Err Full => Done (st, Err EAGAIN)
                end
          end
    end.
(** After the loop; an error leaves without the wake-up. *)
Definition send_end (st : Unix) (target : Z) (r : result SysErrNo Z) : Unix :=
  arc_drop (match r with Ok _ => wake_recv st target | Err _ => st end) target.

(** ** Receiving *)

(** The bytes, the sender and the number that is returned; [None] at the end of the
    stream. *)
Record Received : Type := mkReceived { rc_bytes : list Z; rc_from : option UnixSocketAddr; rc_ret : Z }.
Definition recv_once (st : Unix) (i : Z) (dst_len : Z) (trunc : bool) : comp (Unix * result SysErrNo Received) :=
  s ← unwrap (socks st !! i);
  let q := recv_queue s in
  if q_closed q then Done (st, Ok (mkReceived [] None 0))
  else
    match messages q with
    | [] =>
        if is_connection_oriented s && peer_closed st s then Done (st, Ok (mkReceived [] None 0)) else Done (st, Err EAGAIN)
    | m :: ms =>
        let message_len := data_len (data m) in
        let written := Z.min dst_len message_len in
        let bytes := take (Z.to_nat written) (data m) in
        if bool_decide (kind s = Stream) && (written <? message_len) then
          let m' := mkMsg (drop (Z.to_nat written) (data m)) (sender m) in
          let remaining := data_len (data m') in
          Done (upd st i (set_queue (mkQueue (if remaining =? 0 then ms else m' :: ms) (wrap64 (queued_bytes q - (message_len - remaining))) false)),
                Ok (mkReceived bytes None written))
        else
          Done (upd st i (set_queue (mkQueue ms (wrap64 (queued_bytes q - message_len)) false)),
                Ok (mkReceived bytes (Some (sender m)) (if trunc then message_len else written)))
    end.
Definition recv_closed (s : UnixSocketInner) : bool := q_closed (recv_queue s).
(** After the loop. *)
Definition recv_end (st : Unix) (i : Z) : Unix := wake_write st i.

(** ** Options and names *)

Definition set_nonblocking (st : Unix) (i : Z) (b : bool) : Unix := upd st i (λ s, set_state (listening s) b (send_closed s) s).
(** [SO_SNDBUF] and [SO_RCVBUF] are [UNIX_BUF_SIZE]; [SO_PEERCRED] holds this. *)
Definition peer_pid (st : Unix) (s : UnixSocketInner) : Z :=
  match peer st s with Ok p => match socks st !! p with Some t => pid t | None => pid s end | Err _ => pid s end.
Definition get_peer_addr (s : UnixSocketInner) : result SysErrNo UnixSocketAddr :=
  match peer_ref s with Some _ => Ok (peer_addr s) | None => Err ENOTCONN end.

(** ** Shutdown, poll and destruction *)

Inductive Shutdown : Set := ShutRead | ShutWrite | ShutBoth.
Definition has_read (h : Shutdown) : bool := match h with ShutRead | ShutBoth => true | ShutWrite => false end.
Definition has_write (h : Shutdown) : bool := match h with ShutWrite | ShutBoth => true | ShutRead => false end.
Definition shutdown (st : Unix) (i : Z) (how : Shutdown) : comp Unix :=
  let st := if has_read how then close_recv st i else st in
  s ← unwrap (socks st !! i);
  if has_write how then
    let st := upd st i (set_state (listening s) (nonblocking s) true) in
    Done (match peer st s with Ok p => wake_recv st p | Err _ => st end)
  else Done st.

Definition IN_RDNORM : Z := 65.
Definition OUT_WRNORM : Z := 260.
Definition unix_poll (st : Unix) (s : UnixSocketInner) : Z :=
  let q := recv_queue s in
  let readable := negb (bool_decide (messages q = [])) || negb (bool_decide (pending s = [])) || q_closed q ||
    (is_connection_oriented s && peer_closed st s) in
  let writable := negb (send_closed s) &&
    match peer st s with
    | Ok p => match socks st !! p with
              | Some t => match available_write_bytes (recv_queue t) with Ok space => negb (space =? 0) | Err _ => false end
              | None => true
              end
    | Err _ => true
    end in
  Z.lor (if readable then IN_RDNORM else 0) (if writable then OUT_WRNORM else 0).
Definition register_recv (st : Unix) (i w : Z) : Unix :=
  match socks st !! i with
  | None => st
  | Some s =>
      let '(d1, r) := poll_register w (recv_poll s) in
      let '(d2, a) := poll_register w (accept_poll s) in
      wake_up (upd st i (set_polls r (write_poll s) a)) (d1 ++ d2)
  end.
(** [UnixSocketWriteWaiter::register]: with the target. *)
Definition register_write (st : Unix) (t w : Z) : Unix :=
  match socks st !! t with
  | None => st
  | Some s => let '(d, es) := poll_register w (write_poll s) in wake_up (upd st t (set_polls (recv_poll s) es (accept_poll s))) d
  end.
Definition unix_register (st : Unix) (i w events : Z) : comp Unix :=
  let st := if intersects events IN_RDNORM then register_recv st i w else st in
  s ← unwrap (socks st !! i);
  Done (if intersects events OUT_WRNORM then match peer st s with Ok p => register_write st p w | Err _ => st end else st).
(** [UnixSocketWriteWaiter::poll]. *)
Definition waiter_poll (t : UnixSocketInner) : Z :=
  match available_write_bytes (recv_queue t) with Ok space => if space =? 0 then 0 else OUT_WRNORM | Err _ => 0 end.

(** [Drop::drop]; the reference of the handle goes when it has returned. *)
Definition unix_drop (st : Unix) (i : Z) : comp Unix :=
  s ← unwrap (socks st !! i);
  let st := match peer st s with Ok p => wake_write (wake_recv st p) p | Err _ => st end in
  let st := wake_accept (wake_write (wake_recv st i) i) i in
  Done (if bool_decide (local_addr s = Unnamed) then st
        else if bool_decide (UNIX_BINDS st !! local_addr s = Some i)
             then arc_drop (with_binds st (delete (local_addr s) (UNIX_BINDS st))) i
             else st).
Definition close_handle (st : Unix) (i : Z) : comp Unix := st ← unix_drop st i; Done (arc_drop st i).
