(* ===== verification/UnixInv.v ===== *)
(** * The invariant of AF_UNIX sockets

    What holds of the sockets between any two steps: the accounting of the queues,
    the reference counts, the binding table, the pending connections and the links
    between peers; and that each update keeps it. *)

From S2P Require Import Prelude Errno Bytes RefCount Wake UnixSock.

(** ** Queues *)

Definition flat_queue (q : UnixRecvQueue) : list Z := concat (data <$> messages q).
Record queue_ok (q : UnixRecvQueue) : Prop := {
  qo_bytes : queued_bytes q = data_len (flat_queue q);
  qo_bound : queued_bytes q ≤ UNIX_BUF_SIZE;
  qo_closed : q_closed q = true → messages q = [];
  qo_full m : m ∈ messages q → data m ≠ [] }.

Lemma data_len_app (a b : list Z) : data_len (a ++ b) = data_len a + data_len b.
Proof. unfold data_len. rewrite length_app. lia. Qed.
Lemma data_len_nonneg (a : list Z) : 0 ≤ data_len a.
Proof. unfold data_len. lia. Qed.
Lemma queue_new_ok : queue_ok queue_new.
Proof. split; simpl; [done|unfold UNIX_BUF_SIZE; lia|done|by intros m ?%elem_of_nil]. Qed.
Lemma closed_ok : queue_ok (mkQueue [] 0 true).
Proof. split; simpl; [done|unfold UNIX_BUF_SIZE; lia|done|by intros m ?%elem_of_nil]. Qed.

Lemma available_spec q : queue_ok q → q_closed q = false → available_write_bytes q = Ok (UNIX_BUF_SIZE - queued_bytes q).
Proof.
  intros H Hc. unfold available_write_bytes. rewrite Hc. f_equal. apply wrap64_small. pose proof (qo_bound q H). pose proof (data_len_nonneg (flat_queue q)). rewrite <- (qo_bytes q H) in *.
  unfold is_usize, usize_max, UNIX_BUF_SIZE in *. lia.
Qed.
Lemma try_enqueue_spec q m : queue_ok q → data m ≠ [] →
  match try_enqueue q m with
  | Ok q' => queue_ok q' ∧ q_closed q = false ∧ q_closed q' = false ∧ flat_queue q' = flat_queue q ++ data m ∧ messages q' = messages q ++ [m]
  | Err Closed => q_closed q = true
  | Err Full => q_closed q = false ∧ UNIX_BUF_SIZE < queued_bytes q + data_len (data m)
  end.
Proof.
  intros H Hm. unfold try_enqueue. destruct (q_closed q) eqn:Hc; [done|]. pose proof (qo_bound q H) as Hb. pose proof (data_len_nonneg (flat_queue q)) as Hn. rewrite <- (qo_bytes q H) in Hn.
  pose proof (data_len_nonneg (data m)) as Hdm.
  rewrite wrap64_small by (unfold is_usize, usize_max, UNIX_BUF_SIZE in *; lia). destruct (Z.ltb_spec (UNIX_BUF_SIZE - queued_bytes q) (data_len (data m))) as [|Hfit]; [split; [done|lia]|].
  assert (flat_queue (mkQueue (messages q ++ [m]) (wrap64 (queued_bytes q + data_len (data m))) false) = flat_queue q ++ data m) as Hf.
  { unfold flat_queue. simpl. rewrite fmap_app, concat_app. simpl. by rewrite app_nil_r. }
  split; [|done]. split; simpl.
  - rewrite Hf, data_len_app, <- (qo_bytes q H). apply wrap64_small. unfold is_usize, usize_max, UNIX_BUF_SIZE in *. lia.
  - rewrite wrap64_small by (unfold is_usize, usize_max, UNIX_BUF_SIZE in *; lia). lia.
  - done.
  - intros x [Hx|Hx]%elem_of_app; [by apply (qo_full q H)|]. by apply list_elem_of_singleton in Hx as ->.
Qed.

(** ** References *)

Definition bound (st : Unix) (i : Z) (s : UnixSocketInner) : nat := one_if (UNIX_BINDS st !! local_addr s = Some i).

(** [refs]: the references that calls and handles hold; [handles]: those of handles;
    [owner]: the listener whose queue a socket is in. *)
Record unix_inv (st : Unix) (refs handles : Z → nat) (owner : Z → option Z) : Prop := {
  ui_fresh i : is_Some (socks st !! i) → i < next_id st;
  ui_queue i s : socks st !! i = Some s → queue_ok (recv_queue s);
  ui_strong i s : socks st !! i = Some s → strong s = (refs i + bound st i s + one_if (is_Some (owner i)))%nat ∧ (1 ≤ strong s)%nat;
  ui_dead i : socks st !! i = None → refs i = 0%nat;
  ui_handles i : (handles i ≤ refs i)%nat;
  ui_binds a i : UNIX_BINDS st !! a = Some i → a ≠ Unnamed ∧ ∃ s, socks st !! i = Some s ∧ local_addr s = a;
  ui_pending j s i : socks st !! j = Some s → i ∈ pending s ↔ owner i = Some j;
  ui_nodup j s : socks st !! j = Some s → NoDup (pending s);
  ui_owned i j : owner i = Some j → is_Some (socks st !! j) ∧ handles i = 0%nat ∧ (∀ a, UNIX_BINDS st !! a ≠ Some i) ∧ ∃ s, socks st !! i = Some s ∧ pending s = [];
  ui_peer i s p : socks st !! i = Some s → peer_ref s = Some p → p < next_id st ∧
    ∀ t, socks st !! p = Some t → kind t = kind s ∧ (is_connection_oriented s = true → peer_ref t = Some i) }.

(** An update that keeps the links of a socket. *)
Definition neutral (f : UnixSocketInner → UnixSocketInner) : Prop :=
  ∀ s, kind (f s) = kind s ∧ local_addr (f s) = local_addr s ∧ peer_ref (f s) = peer_ref s ∧ pending (f s) = pending s.

Lemma upd_lookup st i f j s : socks (upd st i f) !! j = Some s → ∃ s0, socks st !! j = Some s0 ∧ (j = i ∧ s = f s0 ∨ j ≠ i ∧ s = s0).
Proof.
  simpl. destruct (decide (j = i)) as [->|Hn].
  - rewrite lookup_alter_eq. destruct (socks st !! i) as [s0|]; [|done]. intros [= <-]. eauto.
  - rewrite lookup_alter_ne by done. eauto 10.
Qed.
Lemma upd_alive st i f j : is_Some (socks (upd st i f) !! j) ↔ is_Some (socks st !! j).
Proof.
  simpl. destruct (decide (j = i)) as [->|Hn]; [|by rewrite lookup_alter_ne by done]. rewrite lookup_alter_eq. by rewrite fmap_is_Some.
Qed.
Lemma upd_dead st i f j : socks (upd st i f) !! j = None ↔ socks st !! j = None.
Proof. rewrite <- !not_elem_of_dom. simpl. by rewrite dom_alter_L. Qed.
Lemma upd_at st i f s : socks st !! i = Some s → socks (upd st i f) !! i = Some (f s).
Proof. intros H. simpl. by rewrite lookup_alter_eq, H. Qed.
Lemma upd_ne st i f j : j ≠ i → socks (upd st i f) !! j = socks st !! j.
Proof. intros H. simpl. by rewrite lookup_alter_ne. Qed.

(** The queue and the references of one socket change. *)
Lemma update_inv st refs refs' handles owner i f : unix_inv st refs handles owner → neutral f → (∀ j, j ≠ i → refs' j = refs j) → (handles i ≤ refs' i)%nat →
  (socks st !! i = None → refs' i = 0%nat) →
  (∀ s, socks st !! i = Some s → queue_ok (recv_queue (f s)) ∧ strong (f s) = (refs' i + bound st i s + one_if (is_Some (owner i)))%nat ∧ (1 ≤ strong (f s))%nat) →
  unix_inv (upd st i f) refs' handles owner.
Proof.
  intros H Hf Hr Hh Hd Hq. assert (∀ j s, socks (upd st i f) !! j = Some s → ∃ s0, socks st !! j = Some s0 ∧ kind s = kind s0 ∧ local_addr s = local_addr s0 ∧ peer_ref s = peer_ref s0 ∧ pending s = pending s0) as Hinv.
  { intros j s Hs. destruct (upd_lookup _ _ _ _ _ Hs) as (s0 & Hs0 & [[-> ->]|[_ ->]]); exists s0; (split; [done|]); [apply Hf|done]. }
  assert (∀ j s0, socks st !! j = Some s0 → ∃ s, socks (upd st i f) !! j = Some s ∧ kind s = kind s0 ∧ local_addr s = local_addr s0 ∧ peer_ref s = peer_ref s0 ∧ pending s = pending s0) as Hfwd.
  { intros j s0 Hs0. destruct (decide (j = i)) as [->|Hn]; [exists (f s0); split; [by apply upd_at|apply Hf]|exists s0; split; [by rewrite upd_ne|done]]. }
  split.
  - intros j Hj. apply (ui_fresh _ _ _ _ H). by eapply upd_alive.
  - intros j s Hs. destruct (upd_lookup _ _ _ _ _ Hs) as (s0 & Hs0 & [[-> ->]|[_ ->]]); [by apply Hq|by apply (ui_queue _ _ _ _ H j)].
  - intros j s Hs. destruct (upd_lookup _ _ _ _ _ Hs) as (s0 & Hs0 & [[-> ->]|[Hn ->]]).
    + destruct (Hq s0 Hs0) as (_ & H1 & H2). split; [|done]. rewrite H1. unfold bound. simpl. by rewrite (proj1 (proj2 (Hf s0))).
    + rewrite Hr by done. by apply (ui_strong _ _ _ _ H).
  - intros j Hj. apply upd_dead in Hj. destruct (decide (j = i)) as [->|Hn]; [by apply Hd|]. rewrite Hr by done. by apply (ui_dead _ _ _ _ H).
  - intros j. destruct (decide (j = i)) as [->|Hn]; [done|]. rewrite Hr by done. apply H.
  - intros a j Ha. destruct (ui_binds _ _ _ _ H a j Ha) as (? & s0 & Hs0 & Hl). split; [done|]. destruct (Hfwd j s0 Hs0) as (s & Hs & _ & Hl' & _). exists s. split; [done|]. by rewrite Hl'.
  - intros j s k Hs. destruct (Hinv j s Hs) as (s0 & Hs0 & _ & _ & _ & ->). by apply (ui_pending _ _ _ _ H).
  - intros j s Hs. destruct (Hinv j s Hs) as (s0 & Hs0 & _ & _ & _ & ->). by apply (ui_nodup _ _ _ _ H j).
  - intros k j Ho. destruct (ui_owned _ _ _ _ H k j Ho) as (Hj & Hk & Hb & s0 & Hs0 & Hp). split; [by apply upd_alive|]. split; [done|]. split; [done|].
    destruct (Hfwd k s0 Hs0) as (s & Hs & _ & _ & _ & Hp'). exists s. split; [done|]. by rewrite Hp'.
  - intros j s p Hs Hp. destruct (Hinv j s Hs) as (s0 & Hs0 & Hk & _ & Hpr & _). rewrite Hpr in Hp. destruct (ui_peer _ _ _ _ H j s0 p Hs0 Hp) as (H1 & H3). split; [done|].
    intros t Ht. destruct (Hinv p t Ht) as (t0 & Ht0 & Hkt & _ & Hpt & _). destruct (H3 t0 Ht0) as [H4 H5]. split; [congruence|]. intros Hc. rewrite Hpt. apply H5. unfold is_connection_oriented in *. by rewrite <- Hk.
Qed.
Lemma neutral_inv st refs handles owner i f : unix_inv st refs handles owner → neutral f → (∀ s, strong (f s) = strong s) → (∀ s, socks st !! i = Some s → queue_ok (recv_queue (f s))) →
  unix_inv (upd st i f) refs handles owner.
Proof.
  intros H Hf Hst Hq. apply (update_inv st refs refs); try done; [apply H|by apply H|]. intros s Hs. split; [by apply Hq|]. rewrite Hst. by apply (ui_strong _ _ _ _ H).
Qed.

(** ** Poll sets *)

Lemma unix_inv_ext st st' refs refs' handles handles' owner owner' : unix_inv st refs handles owner → socks st' = socks st → UNIX_BINDS st' = UNIX_BINDS st → next_id st' = next_id st →
  (∀ i, refs' i = refs i) → (∀ i, handles' i = handles i) → (∀ i, owner' i = owner i) → unix_inv st' refs' handles' owner'.
Proof.
  intros H Hs Hb Hn Hr Hh Ho. split; unfold bound; rewrite ?Hs, ?Hb, ?Hn; try apply H.
  - intros i s Hi. rewrite Hr, Ho. by apply (ui_strong _ _ _ _ H).
  - intros i Hi. rewrite Hr. by apply (ui_dead _ _ _ _ H).
  - intros i. rewrite Hr, Hh. apply H.
  - intros j s i Hj. rewrite Ho. by apply (ui_pending _ _ _ _ H).
  - intros i j. rewrite Ho, Hh. apply (ui_owned _ _ _ _ H).
Qed.
Lemma wake_up_inv st refs handles owner l : unix_inv st refs handles owner → unix_inv (wake_up st l) refs handles owner.
Proof. intros H. by eapply unix_inv_ext. Qed.
Lemma polls_inv st refs handles owner i r w a l : unix_inv st refs handles owner → unix_inv (wake_up (upd st i (set_polls r w a)) l) refs handles owner.
Proof. intros H. apply wake_up_inv, neutral_inv; [done|intros s; by repeat split|done|]. intros s Hs. exact (ui_queue _ _ _ _ H i s Hs). Qed.
Lemma wake_recv_inv st refs handles owner i : unix_inv st refs handles owner → unix_inv (wake_recv st i) refs handles owner.
Proof. intros H. unfold wake_recv. destruct (socks st !! i); [by apply polls_inv|done]. Qed.
Lemma wake_write_inv st refs handles owner i : unix_inv st refs handles owner → unix_inv (wake_write st i) refs handles owner.
Proof. intros H. unfold wake_write. destruct (socks st !! i); [by apply polls_inv|done]. Qed.
Lemma wake_accept_inv st refs handles owner i : unix_inv st refs handles owner → unix_inv (wake_accept st i) refs handles owner.
Proof. intros H. unfold wake_accept. destruct (socks st !! i); [by apply polls_inv|done]. Qed.
Lemma register_recv_inv st refs handles owner i w : unix_inv st refs handles owner → unix_inv (register_recv st i w) refs handles owner.
Proof.
  intros H. unfold register_recv. destruct (socks st !! i) as [s|]; [|done]. destruct (poll_register w (recv_poll s)), (poll_register w (accept_poll s)). by apply polls_inv.
Qed.
Lemma register_write_inv st refs handles owner i w : unix_inv st refs handles owner → unix_inv (register_write st i w) refs handles owner.
Proof. intros H. unfold register_write. destruct (socks st !! i) as [s|]; [|done]. destruct (poll_register w (write_poll s)). by apply polls_inv. Qed.

(** What the poll sets of others do not touch. *)
Definition same_but_polls (st st' : Unix) : Prop :=
  UNIX_BINDS st' = UNIX_BINDS st ∧ next_id st' = next_id st ∧
  ∀ i, (λ s, (kind s, local_addr s, peer_ref s, recv_queue s, pending s, send_closed s)) <$> socks st' !! i = (λ s, (kind s, local_addr s, peer_ref s, recv_queue s, pending s, send_closed s)) <$> socks st !! i.
#[export] Instance same_but_polls_preorder : PreOrder same_but_polls.
Proof. split; [by intros st|]. intros a b c (H1 & H2 & H3) (H4 & H5 & H6). split; [congruence|]. split; [congruence|]. intros i. by rewrite H6. Qed.
Lemma polls_same st i r w a l : same_but_polls st (wake_up (upd st i (set_polls r w a)) l).
Proof.
  split; [done|]. split; [done|]. intros j. simpl. destruct (decide (j = i)) as [->|Hn]; [rewrite lookup_alter_eq; by destruct (socks st !! i)|by rewrite lookup_alter_ne].
Qed.
Lemma wake_recv_same st i : same_but_polls st (wake_recv st i).
Proof. unfold wake_recv. destruct (socks st !! i); [apply polls_same|done]. Qed.
Lemma wake_write_same st i : same_but_polls st (wake_write st i).
Proof. unfold wake_write. destruct (socks st !! i); [apply polls_same|done]. Qed.
Lemma wake_accept_same st i : same_but_polls st (wake_accept st i).
Proof. unfold wake_accept. destruct (socks st !! i); [apply polls_same|done]. Qed.
Lemma same_alive st st' i s : same_but_polls st st' → socks st !! i = Some s → ∃ s', socks st' !! i = Some s' ∧ kind s' = kind s ∧ local_addr s' = local_addr s ∧ peer_ref s' = peer_ref s ∧ recv_queue s' = recv_queue s ∧ pending s' = pending s.
Proof.
  intros (_ & _ & H) Hs. specialize (H i). rewrite Hs in H. destruct (socks st' !! i) as [s'|]; [|done]. simpl in H. injection H as ? ? ? ? ? ?. by exists s'.
Qed.

(** ** References *)

Lemma arc_clone_inv st refs handles owner i : unix_inv st refs handles owner → is_Some (socks st !! i) → unix_inv (arc_clone st i) (bump refs i) handles owner.
Proof.
  intros H [s0 Hs0]. apply (update_inv st refs); [done|intros s; by repeat split|intros j Hj; by apply bump_ne| | |].
  - rewrite bump_eq. pose proof (ui_handles _ _ _ _ H i). lia.
  - congruence.
  - intros s Hs. destruct (ui_strong _ _ _ _ H i s Hs) as [Hst _]. split; [exact (ui_queue _ _ _ _ H i s Hs)|]. rewrite bump_eq. simpl. lia.
Qed.
(** One reference less, when others are left. *)
Lemma unclone_inv st refs handles owner i s : unix_inv st (bump refs i) handles owner → (handles i ≤ refs i)%nat → socks st !! i = Some s → strong s ≠ 1%nat → unix_inv (upd st i (set_strong (strong s - 1))) refs handles owner.
Proof.
  intros H Hh Hs0 Hne. apply (update_inv st (bump refs i)); [done|intros x; by repeat split|intros j Hj; by rewrite bump_ne|done|congruence|].
  intros x Hx. assert (x = s) as -> by congruence. destruct (ui_strong _ _ _ _ H i s Hs0) as [Hst Hp]. rewrite bump_eq in Hst. split; [exact (ui_queue _ _ _ _ H i s Hs0)|]. simpl. lia.
Qed.

(** The last reference: the socket goes, and its pending connections lose their place. *)
Definition disowned (owner : Z → option Z) (i : Z) : Z → option Z := λ k, if decide (owner k = Some i) then None else owner k.
Lemma last_ref st refs handles owner i s : unix_inv st (bump refs i) handles owner → socks st !! i = Some s → strong s = 1%nat →
  refs i = 0%nat ∧ owner i = None ∧ ∀ a, UNIX_BINDS st !! a ≠ Some i.
Proof.
  intros H Hs H1. destruct (ui_strong _ _ _ _ H i s Hs) as [Hst _]. rewrite bump_eq, H1 in Hst. unfold bound, one_if in Hst. split; [lia|]. split.
  - destruct (owner i); [|done]. destruct (decide (is_Some (Some z))) as [|Hn]; [lia|]. exfalso. eauto.
  - intros a Ha. destruct (ui_binds _ _ _ _ H a i Ha) as (_ & s' & Hs' & <-). assert (s' = s) as -> by congruence. rewrite (decide_True (P := UNIX_BINDS st !! local_addr s = Some i)) in Hst by done. lia.
Qed.
Lemma delete_inv st refs handles owner i s : unix_inv st (bump refs i) handles owner → (handles i ≤ refs i)%nat → socks st !! i = Some s → strong s = 1%nat →
  unix_inv (with_socks st (delete i (socks st))) (bumps refs (pending s)) handles (disowned owner i).
Proof.
  intros H Hh Hs H1. destruct (last_ref st refs handles owner i s H Hs H1) as (Hr0 & Ho & Hb).
  assert (∀ k, k ∈ pending s ↔ owner k = Some i) as Hpend by (intros k; by apply (ui_pending _ _ _ _ H)).
  assert (∀ k, bumps refs (pending s) k = ((if decide (owner k = Some i) then 1 else 0) + refs k)%nat) as Hbumps.
  { intros k. rewrite bumps_NoDup by (by apply (ui_nodup _ _ _ _ H i)). destruct (decide (k ∈ pending s)) as [Hk|Hk]; rewrite Hpend in Hk; [by rewrite decide_True|by rewrite decide_False]. }
  assert (∀ j x, socks (with_socks st (delete i (socks st))) !! j = Some x ↔ j ≠ i ∧ socks st !! j = Some x) as Hl.
  { intros j x. simpl. rewrite lookup_delete_Some. naive_solver. }
  split.
  - intros j [x [_ Hx]%Hl]. apply (ui_fresh _ _ _ _ H). eauto.
  - intros j x [_ Hx]%Hl. by apply (ui_queue _ _ _ _ H j).
  - intros j x [Hn Hx]%Hl. destruct (ui_strong _ _ _ _ H j x Hx) as [Hst Hp]. split; [|done]. rewrite bump_ne in Hst by done. rewrite Hst, Hbumps. unfold disowned, bound, one_if. simpl.
    destruct (decide (owner j = Some i)) as [->|Hj]; [|done]. rewrite (decide_True (P := is_Some (Some i))) by eauto. rewrite (decide_False (P := is_Some None)) by (by intros [? ?]). lia.
  - intros j Hj. rewrite Hbumps. destruct (decide (j = i)) as [->|Hn]; [rewrite decide_False by congruence; lia|].
    assert (socks st !! j = None) as Hd by (destruct (socks st !! j) as [x|] eqn:Hx; [rewrite (proj2 (Hl j x) (conj Hn Hx)) in Hj; done|done]).
    pose proof (ui_dead _ _ _ _ H j Hd) as Hz. rewrite bump_ne in Hz by done. rewrite decide_False; [lia|]. intros Hoj. destruct (ui_owned _ _ _ _ H j i Hoj) as (_ & _ & _ & x & Hx & _). congruence.
  - intros j. rewrite Hbumps. destruct (decide (j = i)) as [->|Hn]; [lia|]. pose proof (ui_handles _ _ _ _ H j) as Hj. rewrite bump_ne in Hj by done. lia.
  - intros a j Ha. destruct (ui_binds _ _ _ _ H a j Ha) as (Hna & x & Hx & Hlx). split; [done|]. exists x. split; [|done]. apply Hl. split; [|done]. intros ->. by apply (Hb a).
  - intros j x k [Hn Hx]%Hl. rewrite (ui_pending _ _ _ _ H j x k Hx). unfold disowned. case_decide as Hd; [|done]. split; intros Hj; congruence.
  - intros j x [_ Hx]%Hl. by apply (ui_nodup _ _ _ _ H j).
  - intros k j. unfold disowned. case_decide as Hd; [done|]. intros Hk. destruct (ui_owned _ _ _ _ H k j Hk) as ([x Hx] & H2 & H3 & y & Hy & Hp).
    split; [exists x; apply Hl; split; [congruence|done]|]. split; [done|]. split; [done|]. exists y. split; [|done]. apply Hl. split; [congruence|done].
  - intros j x p [Hn Hx]%Hl Hp. destruct (ui_peer _ _ _ _ H j x p Hx Hp) as (H2 & H4). split; [done|]. intros t [_ Ht]%Hl. by apply H4.
Qed.

Lemma drop_leaf fuel st refs handles owner i s : unix_inv st (bump refs i) handles owner → (handles i ≤ refs i)%nat → socks st !! i = Some s → pending s = [] →
  unix_inv (arc_drop_fuel fuel st i) refs handles owner ∧ ∀ j, j ≠ i → socks (arc_drop_fuel fuel st i) !! j = socks st !! j.
Proof.
  intros H Hh Hs Hp. assert (arc_drop_fuel fuel st i = if (strong s =? 1)%nat then with_socks st (delete i (socks st)) else upd st i (set_strong (strong s - 1))) as ->.
  { destruct fuel; simpl; rewrite Hs, ?Hp; by destruct (strong s =? 1)%nat. }
  destruct (Nat.eqb_spec (strong s) 1) as [H1|H1].
  - split; [|intros j Hj; simpl; by rewrite lookup_delete_ne]. eapply unix_inv_ext; [by apply (delete_inv st refs handles owner i s)|done|done|done|by rewrite Hp|done|].
    intros k. unfold disowned. case_decide as Hd; [|done]. apply (ui_pending _ _ _ _ H i s k Hs) in Hd. rewrite Hp in Hd. by apply elem_of_nil in Hd.
  - split; [by apply unclone_inv|intros j Hj; by apply upd_ne].
Qed.
Lemma drop_leaves fuel l st refs handles owner : NoDup l → unix_inv st (bumps refs l) handles owner →
  (∀ n, n ∈ l → (handles n ≤ refs n)%nat ∧ ∃ s, socks st !! n = Some s ∧ pending s = []) → unix_inv (foldl (arc_drop_fuel fuel) st l) refs handles owner.
Proof.
  revert st. induction l as [|n l IH]; intros st Hnd H Hl; simpl; [done|]. apply NoDup_cons in Hnd as [Hn Hnd]. simpl in H.
  destruct (Hl n ltac:(left)) as (Hhn & s & Hs & Hp). destruct (drop_leaf fuel st (bumps refs l) handles owner n s H) as [H2 Hk]; [pose proof (bumps_mono refs l n); lia|done|done|].
  apply IH; [done|done|]. intros m Hm. destruct (Hl m ltac:(by right)) as (Hhm & x & Hx & Hpx). split; [done|]. exists x. split; [|done]. rewrite Hk; [done|]. intros ->. done.
Qed.
Lemma arc_drop_inv st refs handles owner i : unix_inv st (bump refs i) handles owner → (handles i ≤ refs i)%nat → ∃ owner', unix_inv (arc_drop st i) refs handles owner'.
Proof.
  intros H Hh. destruct (socks st !! i) as [s|] eqn:Hs.
  2: { pose proof (ui_dead _ _ _ _ H i Hs) as Hd. rewrite bump_eq in Hd. done. }
  unfold arc_drop. destruct (size (socks st)) as [|n] eqn:Hsz; [apply map_size_empty_iff in Hsz; rewrite Hsz in Hs; done|]. simpl. rewrite Hs. destruct (Nat.eqb_spec (strong s) 1) as [H1|H1].
  - exists (disowned owner i). destruct (last_ref st refs handles owner i s H Hs H1) as (_ & Ho & _). apply drop_leaves; [by apply (ui_nodup _ _ _ _ H i)|by apply delete_inv|].
    intros k Hk. apply (ui_pending _ _ _ _ H i s k Hs) in Hk. destruct (ui_owned _ _ _ _ H k i Hk) as (_ & Hhk & _ & x & Hx & Hp). split; [lia|]. exists x. split; [|done].
    simpl. rewrite lookup_delete_ne; [done|]. congruence.
  - exists owner. by apply unclone_inv.
Qed.

(** The queues of the sockets are as they were; new sockets have empty ones. *)
Definition kept (st st' : Unix) : Prop :=
  next_id st ≤ next_id st' ∧ ∀ j s', socks st' !! j = Some s' →
    (∃ s, socks st !! j = Some s ∧ kind s' = kind s ∧ recv_queue s' = recv_queue s) ∨ next_id st ≤ j ∧ recv_queue s' = queue_new.
#[export] Instance kept_preorder : PreOrder kept.
Proof.
  split; [intros st; split; [done|]; intros j s Hs; left; by exists s|]. intros a b c [Hn Hab] [Hn' Hbc]. split; [lia|]. intros j s Hs. destruct (Hbc j s Hs) as [(s1 & Hs1 & Hk1 & Hq1)|[? ?]]; [|right; split; [lia|done]].
  destruct (Hab j s1 Hs1) as [(s2 & Hs2 & ? & ?)|[? ?]]; [left; exists s2; split; [done|]; split; congruence|right; split; [done|congruence]].
Qed.
Lemma kept_upd st i f : (∀ s, kind (f s) = kind s ∧ recv_queue (f s) = recv_queue s) → kept st (upd st i f).
Proof. intros Hf. split; [done|]. intros j s' Hs. left. destruct (upd_lookup _ _ _ _ _ Hs) as (s & Hs0 & [[-> ->]|[_ ->]]); exists s; (split; [done|]); [apply Hf|done]. Qed.
Lemma kept_same st st' : same_but_polls st st' → kept st st'.
Proof.
  intros (_ & Hn & H). split; [lia|]. intros j s' Hs. specialize (H j). rewrite Hs in H. destruct (socks st !! j) as [s|]; [|done]. simpl in H. injection H as ? ? ? ? ? ?. left. by exists s.
Qed.
Lemma kept_delete st i : kept st (with_socks st (delete i (socks st))).
Proof. split; [done|]. intros j x. simpl. rewrite lookup_delete_Some. intros [_ Hx]. left. by exists x. Qed.
Lemma kept_drop fuel st i : kept st (arc_drop_fuel fuel st i).
Proof.
  revert st i. induction fuel as [|fuel IH]; intros st i; simpl; destruct (socks st !! i) as [s|]; try done; destruct (strong s =? 1)%nat; try (by apply kept_upd); [apply kept_delete|].
  trans (with_socks st (delete i (socks st))); [apply kept_delete|].
  generalize (with_socks st (delete i (socks st))). induction (pending s) as [|n l IHl]; intros st'; simpl; [done|]. etrans; [apply IH|apply IHl].
Qed.
Lemma kept_add st s : recv_queue s = queue_new → kept st (add_sock st s).1.
Proof.
  intros Hq. split; [simpl; lia|]. intros j x. simpl. intros [[<- <-]|[_ Hx]]%lookup_insert_Some; [by right|left; by exists x].
Qed.
