(* ===== verification/UnixOps.v ===== *)
(** * The operations of AF_UNIX sockets keep the invariant *)

From S2P Require Import Prelude Errno Bytes RefCount Wake UnixSock UnixInv.

(** ** Creation and links *)

Definition fresh_sock (s : UnixSocketInner) : Prop :=
  queue_ok (recv_queue s) ∧ strong s = 1%nat ∧ pending s = [] ∧ peer_ref s = None.
Lemma add_sock_inv st refs handles handles' owner s : unix_inv st refs handles owner → fresh_sock s →
  (∀ j, j ≠ next_id st → handles' j = handles j) → (handles' (next_id st) ≤ 1)%nat → unix_inv (add_sock st s).1 (bump refs (next_id st)) handles' owner.
Proof.
  intros H (Hq & Hst & Hp & Hpr) Hh Hh1. unfold add_sock. simpl. remember (next_id st) as n eqn:Hnn.
  assert (socks st !! n = None) as Hn by (destruct (socks st !! n) eqn:E; [pose proof (ui_fresh _ _ _ _ H n ltac:(eauto)); lia|done]).
  assert (owner n = None) as Hon by (destruct (owner n) as [j|] eqn:E; [destruct (ui_owned _ _ _ _ H n j E) as (_ & _ & _ & x & Hx & _); congruence|done]).
  assert (∀ a, UNIX_BINDS st !! a ≠ Some n) as Hbn by (intros a Ha; destruct (ui_binds _ _ _ _ H a n Ha) as (_ & x & Hx & _); congruence).
  split; simpl.
  - intros j [x [[<- _]|[_ Hx]]%lookup_insert_Some]; [lia|]. pose proof (ui_fresh _ _ _ _ H j ltac:(eauto)). lia.
  - intros j x [[<- <-]|[_ Hx]]%lookup_insert_Some; [done|by apply (ui_queue _ _ _ _ H j)].
  - intros j x [[<- <-]|[Hne Hx]]%lookup_insert_Some.
    + rewrite bump_eq, (ui_dead _ _ _ _ H n Hn), Hst, Hon. unfold bound. rewrite one_if_no by (simpl; apply Hbn). rewrite one_if_no by (by intros [? ?]). lia.
    + rewrite bump_ne by done. by apply (ui_strong _ _ _ _ H).
  - intros j [Hj Hne]%lookup_insert_None. rewrite bump_ne by done. by apply (ui_dead _ _ _ _ H).
  - intros j. destruct (decide (j = n)) as [->|Hne]; [rewrite bump_eq; lia|]. rewrite bump_ne, Hh by done. apply H.
  - intros a j Ha. destruct (ui_binds _ _ _ _ H a j Ha) as (? & x & Hx & ?). split; [done|]. exists x. split; [|done]. rewrite lookup_insert_ne; [done|]. congruence.
  - intros j x k [[<- <-]|[_ Hx]]%lookup_insert_Some; [|by apply (ui_pending _ _ _ _ H)]. rewrite Hp. split; [by intros ?%elem_of_nil|]. intros Hk.
    destruct (ui_owned _ _ _ _ H k n Hk) as ([x Hx] & _). congruence.
  - intros j x [[<- <-]|[_ Hx]]%lookup_insert_Some; [rewrite Hp; apply NoDup_nil_2|by apply (ui_nodup _ _ _ _ H j)].
  - intros k j Hk. destruct (ui_owned _ _ _ _ H k j Hk) as ([x Hx] & H2 & H3 & y & Hy & Hpy). split; [exists x; rewrite lookup_insert_ne; [done|congruence]|]. split; [rewrite Hh; congruence|]. split; [done|].
    exists y. split; [|done]. rewrite lookup_insert_ne; [done|congruence].
  - intros j x p [[<- <-]|[_ Hx]]%lookup_insert_Some Hpx; [congruence|]. destruct (ui_peer _ _ _ _ H j x p Hx Hpx) as (H1 & H3). split; [lia|].
    intros t [[<- _]|[_ Ht]]%lookup_insert_Some; [lia|by apply H3].
Qed.

(** Only links between peers change. *)
Definition links_only (s s' : UnixSocketInner) : Prop :=
  kind s' = kind s ∧ local_addr s' = local_addr s ∧ recv_queue s' = recv_queue s ∧ pending s' = pending s ∧ strong s' = strong s.
Lemma relink_inv st st' refs handles owner : unix_inv st refs handles owner → UNIX_BINDS st' = UNIX_BINDS st → next_id st' = next_id st →
  (∀ j, option_Forall2 links_only (socks st !! j) (socks st' !! j)) →
  (∀ i s p, socks st' !! i = Some s → peer_ref s = Some p → p < next_id st' ∧ ∀ t, socks st' !! p = Some t → kind t = kind s ∧ (is_connection_oriented s = true → peer_ref t = Some i)) →
  unix_inv st' refs handles owner.
Proof.
  intros H Hb Hn Hl Hpeer. assert (∀ j s', socks st' !! j = Some s' → ∃ s, socks st !! j = Some s ∧ links_only s s') as Hinv.
  { intros j s' Hs'. specialize (Hl j). rewrite Hs' in Hl. inversion Hl as [? ? Hlo|]. eauto. }
  assert (∀ j s, socks st !! j = Some s → ∃ s', socks st' !! j = Some s' ∧ links_only s s') as Hfwd.
  { intros j s Hs. specialize (Hl j). rewrite Hs in Hl. inversion Hl as [? ? Hlo|]. eauto. }
  split; rewrite ?Hb, ?Hn in *.
  - intros j [s' Hs']. destruct (Hinv j s' Hs') as (s & Hs & _). apply (ui_fresh _ _ _ _ H). eauto.
  - intros j s' Hs'. destruct (Hinv j s' Hs') as (s & Hs & _ & _ & -> & _). by apply (ui_queue _ _ _ _ H j).
  - intros j s' Hs'. destruct (Hinv j s' Hs') as (s & Hs & _ & Hlo & _ & _ & ->). unfold bound. rewrite Hlo, Hb. by apply (ui_strong _ _ _ _ H).
  - intros j Hj. apply (ui_dead _ _ _ _ H). specialize (Hl j). rewrite Hj in Hl. by inversion Hl.
  - apply H.
  - intros a j Ha. destruct (ui_binds _ _ _ _ H a j Ha) as (? & s & Hs & Hla). split; [done|]. destruct (Hfwd j s Hs) as (s' & Hs' & _ & Hlo & _). exists s'. split; [done|]. by rewrite Hlo.
  - intros j s' k Hs'. destruct (Hinv j s' Hs') as (s & Hs & _ & _ & _ & -> & _). by apply (ui_pending _ _ _ _ H).
  - intros j s' Hs'. destruct (Hinv j s' Hs') as (s & Hs & _ & _ & _ & -> & _). by apply (ui_nodup _ _ _ _ H j).
  - intros k j Hk. destruct (ui_owned _ _ _ _ H k j Hk) as ([x Hx] & H2 & H3 & y & Hy & Hpy). destruct (Hfwd j x Hx) as (x' & Hx' & _). destruct (Hfwd k y Hy) as (y' & Hy' & _ & _ & _ & Hpy' & _).
    split; [eauto|]. split; [done|]. split; [done|]. exists y'. split; [done|]. by rewrite Hpy'.
  - done.
Qed.
Lemma set_peer_links p a s : links_only s (set_peer p a s).
Proof. by repeat split. Qed.
Lemma upd_links st i p a j : option_Forall2 links_only (socks st !! j) (socks (upd st i (set_peer p a)) !! j).
Proof.
  simpl. destruct (decide (j = i)) as [->|Hn]; [rewrite lookup_alter_eq|rewrite lookup_alter_ne by done]; destruct (socks st !! _); simpl; constructor; [apply set_peer_links|by repeat split].
Qed.
Lemma links_trans a b c : links_only a b → links_only b c → links_only a c.
Proof. intros (? & ? & ? & ? & ?) (? & ? & ? & ? & ?). repeat split; congruence. Qed.

(** Nobody is linked to a socket without a link, but datagram sockets. *)
Lemma unlinked st refs handles owner i s j x : unix_inv st refs handles owner → socks st !! i = Some s → peer_ref s = None → socks st !! j = Some x → peer_ref x = Some i → is_connection_oriented x = false.
Proof.
  intros H Hs Hp Hx Hpx. destruct (ui_peer _ _ _ _ H j x i Hx Hpx) as (_ & H3). destruct (H3 s Hs) as [_ Hc]. destruct (is_connection_oriented x); [|done]. specialize (Hc eq_refl). congruence.
Qed.
Lemma link_inv st refs handles owner i p s t a b : unix_inv st refs handles owner → i ≠ p → socks st !! i = Some s → socks st !! p = Some t → peer_ref s = None → peer_ref t = None → kind s = kind t →
  unix_inv (upd (upd st i (set_peer p a)) p (set_peer i b)) refs handles owner.
Proof.
  intros H Hne Hs Ht Hps Hpt Hk. set (st1 := upd st i (set_peer p a)). set (st2 := upd st1 p (set_peer i b)).
  assert (socks st2 !! i = Some (set_peer p a s)) as Hi by (unfold st2; rewrite upd_ne by done; by apply upd_at).
  assert (socks st2 !! p = Some (set_peer i b t)) as Hpp by (apply upd_at; unfold st1; by rewrite upd_ne).
  assert (∀ j, j ≠ i → j ≠ p → socks st2 !! j = socks st !! j) as Ho by (intros j ? ?; unfold st2, st1; by rewrite !upd_ne).
  pose proof (ui_fresh _ _ _ _ H i ltac:(eauto)) as Hfi. pose proof (ui_fresh _ _ _ _ H p ltac:(eauto)) as Hfp.
  apply (relink_inv st); [done|done|done| |].
  - intros j. pose proof (upd_links st i p a j) as L1. pose proof (upd_links st1 p i b j) as L2. fold st1 in L1. fold st2 in L2.
    destruct (socks st !! j), (socks st1 !! j), (socks st2 !! j); inversion L1; inversion L2; constructor. by eapply links_trans.
  - intros j x q Hx Hq. simpl next_id. destruct (decide (j = i)) as [->|Hji]; [|destruct (decide (j = p)) as [->|Hjp]].
    + rewrite Hi in Hx. injection Hx as <-. simpl in Hq. injection Hq as <-. split; [done|]. intros y Hy. rewrite Hpp in Hy. injection Hy as <-. by split.
    + rewrite Hpp in Hx. injection Hx as <-. simpl in Hq. injection Hq as <-. split; [done|]. intros y Hy. rewrite Hi in Hy. injection Hy as <-. by split.
    + rewrite Ho in Hx by done. destruct (ui_peer _ _ _ _ H j x q Hx Hq) as (H1 & H3). split; [done|]. intros y Hy.
      destruct (decide (q = i)) as [->|Hqi]; [|destruct (decide (q = p)) as [->|Hqp]].
      * rewrite Hi in Hy. injection Hy as <-. destruct (H3 s Hs) as [H4 _]. split; [done|]. by rewrite (unlinked _ _ _ _ i s j x H Hs Hps Hx Hq).
      * rewrite Hpp in Hy. injection Hy as <-. destruct (H3 t Ht) as [H4 _]. split; [done|]. by rewrite (unlinked _ _ _ _ p t j x H Ht Hpt Hx Hq).
      * rewrite Ho in Hy by done. by apply H3.
Qed.
(** A datagram socket gets a peer. *)
Lemma attach_inv st refs handles owner i p s t a : unix_inv st refs handles owner → socks st !! i = Some s → socks st !! p = Some t → peer_ref s = None → kind s = kind t → is_connection_oriented s = false →
  unix_inv (upd st i (set_peer p a)) refs handles owner.
Proof.
  intros H Hs Ht Hps Hk Hc. apply (relink_inv st); [done|done|done|intros j; apply upd_links|].
  intros j x q Hx Hq. simpl next_id. destruct (decide (j = i)) as [->|Hji].
  - rewrite (upd_at _ _ _ s Hs) in Hx. injection Hx as <-. simpl in Hq. injection Hq as <-. split; [apply (ui_fresh _ _ _ _ H); eauto|]. intros y Hy.
    destruct (upd_lookup _ _ _ _ _ Hy) as (y0 & Hy0 & [[_ ->]|[_ ->]]); assert (y0 = t) as -> by congruence; (split; [done|]); intros Hc'; unfold is_connection_oriented in *; simpl in Hc'; congruence.
  - rewrite upd_ne in Hx by done. destruct (ui_peer _ _ _ _ H j x q Hx Hq) as (H1 & H3). split; [done|]. intros y Hy. destruct (decide (q = i)) as [->|Hqi].
    + rewrite (upd_at _ _ _ s Hs) in Hy. injection Hy as <-. destruct (H3 s Hs) as [H4 _]. split; [done|]. by rewrite (unlinked _ _ _ _ i s j x H Hs Hps Hx Hq).
    + rewrite upd_ne in Hy by done. by apply H3.
Qed.

(** ** Pending connections *)

Lemma owned_alive st refs handles owner k j : unix_inv st refs handles owner → owner k = Some j → is_Some (socks st !! k).
Proof. intros H Ho. destruct (ui_owned _ _ _ _ H k j Ho) as (_ & _ & _ & s & Hs & _). eauto. Qed.
Lemma handle_unowned st refs handles owner i : unix_inv st refs handles owner → (0 < handles i)%nat → owner i = None.
Proof. intros H Hh. destruct (owner i) as [j|] eqn:Ho; [|done]. destruct (ui_owned _ _ _ _ H i j Ho) as (_ & Hz & _). lia. Qed.
Lemma handle_alive st refs handles owner i : unix_inv st refs handles owner → (0 < refs i)%nat → ∃ s, socks st !! i = Some s.
Proof. intros H Hh. destruct (socks st !! i) as [s|] eqn:Hs; [eauto|]. pose proof (ui_dead _ _ _ _ H i Hs). lia. Qed.
Lemma bound_unowned st refs handles owner a i : unix_inv st refs handles owner → UNIX_BINDS st !! a = Some i → owner i = None.
Proof. intros H Ha. destruct (owner i) as [j|] eqn:Ho; [|done]. destruct (ui_owned _ _ _ _ H i j Ho) as (_ & _ & Hz & _). by destruct (Hz a). Qed.

(** References move between the queue of [j] and the callers. *)
Lemma repend_inv st refs refs' handles handles' owner owner' j l : unix_inv st refs handles owner →
  (∀ k, refs' k + one_if (is_Some (owner' k)) = refs k + one_if (is_Some (owner k)))%nat → (∀ k, handles' k ≤ refs' k)%nat →
  NoDup l → (∀ k, k ∈ l ↔ owner' k = Some j) → (∀ k m, m ≠ j → owner' k = Some m ↔ owner k = Some m) → owner' j = None → is_Some (socks st !! j) →
  (∀ k m, owner' k = Some m → handles' k = 0%nat ∧ (∀ a, UNIX_BINDS st !! a ≠ Some k) ∧ ∃ s, socks st !! k = Some s ∧ pending s = []) →
  unix_inv (upd st j (set_pending l)) refs' handles' owner'.
Proof.
  intros H Hsum Hh Hnd Hl Hother Hj Hja Hown. assert (∀ k s, socks (upd st j (set_pending l)) !! k = Some s → ∃ s0, socks st !! k = Some s0 ∧ kind s = kind s0 ∧ local_addr s = local_addr s0 ∧ recv_queue s = recv_queue s0 ∧ peer_ref s = peer_ref s0 ∧ strong s = strong s0 ∧ pending s = (if decide (k = j) then l else pending s0)) as Hinv.
  { intros k s Hs. destruct (upd_lookup _ _ _ _ _ Hs) as (s0 & Hs0 & [[-> ->]|[Hn ->]]); exists s0; [rewrite decide_True by done|rewrite decide_False by done]; done. }
  split.
  - intros k Hk. apply (ui_fresh _ _ _ _ H). by eapply upd_alive.
  - intros k s Hs. destruct (Hinv k s Hs) as (s0 & Hs0 & _ & _ & -> & _). by apply (ui_queue _ _ _ _ H k).
  - intros k s Hs. destruct (Hinv k s Hs) as (s0 & Hs0 & _ & Hla & _ & _ & -> & _). unfold bound. rewrite Hla. destruct (ui_strong _ _ _ _ H k s0 Hs0) as [Hst Hp]. split; [|done].
    rewrite Hst. unfold bound. simpl. specialize (Hsum k). lia.
  - intros k Hk%upd_dead. pose proof (ui_dead _ _ _ _ H k Hk) as Hz. specialize (Hsum k). assert (owner k = None) as Ho.
    { destruct (owner k) eqn:Ho; [|done]. apply (owned_alive _ _ _ _ _ _ H) in Ho as [? ?]. congruence. }
    rewrite Hz, Ho, (one_if_no (is_Some None)) in Hsum by (by intros [? ?]). lia.
  - done.
  - intros a k Ha. destruct (ui_binds _ _ _ _ H a k Ha) as (? & s & Hs & Hls). split; [done|]. destruct (decide (k = j)) as [->|Hn]; [exists (set_pending l s); by rewrite (upd_at _ _ _ s Hs)|exists s; by rewrite upd_ne].
  - intros k s m Hs. destruct (Hinv k s Hs) as (s0 & Hs0 & _ & _ & _ & _ & _ & ->). destruct (decide (k = j)) as [->|Hn]; [apply Hl|]. rewrite Hother by done. by apply (ui_pending _ _ _ _ H).
  - intros k s Hs. destruct (Hinv k s Hs) as (s0 & Hs0 & _ & _ & _ & _ & _ & ->). destruct (decide (k = j)) as [->|Hn]; [done|]. by apply (ui_nodup _ _ _ _ H k).
  - intros k m Hk. destruct (Hown k m Hk) as (H1 & H2 & s & Hs & Hp). split.
    { apply upd_alive. destruct (decide (m = j)) as [->|Hn]; [done|]. apply Hother in Hk; [|done]. by destruct (ui_owned _ _ _ _ H k m Hk). }
    split; [done|]. split; [done|]. exists s. split; [|done]. rewrite upd_ne; [done|]. intros ->. congruence.
  - intros k s p Hs Hp. destruct (Hinv k s Hs) as (s0 & Hs0 & Hk & _ & _ & Hpr & _). rewrite Hpr in Hp. destruct (ui_peer _ _ _ _ H k s0 p Hs0 Hp) as [H1 H2]. split; [done|]. intros t Ht.
    destruct (Hinv p t Ht) as (t0 & Ht0 & Hkt & _ & _ & Hpt & _). destruct (H2 t0 Ht0) as [H3 H4]. split; [congruence|]. intros Hc. rewrite Hpt. apply H4. unfold is_connection_oriented in *. by rewrite <- Hk.
Qed.
Definition owned_by (owner : Z → option Z) (n : Z) (o : option Z) : Z → option Z := λ k, if decide (k = n) then o else owner k.
Lemma owned_by_eq owner n o : owned_by owner n o n = o.
Proof. unfold owned_by. by rewrite decide_True. Qed.
Lemma owned_by_ne owner n o k : k ≠ n → owned_by owner n o k = owner k.
Proof. intros H. unfold owned_by. by rewrite decide_False. Qed.

Lemma give_pending_inv st refs handles owner r n x s : unix_inv st (bump refs n) handles owner → handles n = 0%nat → owner n = None → owner r = None → r ≠ n →
  (∀ a, UNIX_BINDS st !! a ≠ Some n) → socks st !! n = Some s → pending s = [] → socks st !! r = Some x →
  unix_inv (upd st r (set_pending (pending x ++ [n]))) refs handles (owned_by owner n (Some r)).
Proof.
  intros H Hh Hon Hor Hne Hb Hs Hp Hx. apply (repend_inv st (bump refs n) refs handles handles owner); [done| | | | | | |eauto|].
  - intros k. destruct (decide (k = n)) as [->|Hk]; [rewrite owned_by_eq, bump_eq, Hon, one_if_yes, one_if_no by (eauto || by intros [? ?]); lia|by rewrite owned_by_ne, bump_ne].
  - intros k. destruct (decide (k = n)) as [->|Hk]; [lia|]. pose proof (ui_handles _ _ _ _ H k) as Hle. by rewrite bump_ne in Hle.
  - apply NoDup_app. split; [by apply (ui_nodup _ _ _ _ H r)|]. split; [|apply NoDup_singleton]. intros k Hk Hk2%list_elem_of_singleton. subst k. apply (ui_pending _ _ _ _ H r x n Hx) in Hk. congruence.
  - intros k. rewrite elem_of_app, list_elem_of_singleton. destruct (decide (k = n)) as [->|Hk]; [rewrite owned_by_eq; tauto|]. rewrite owned_by_ne by done. rewrite (ui_pending _ _ _ _ H r x k Hx). naive_solver.
  - intros k m Hm. destruct (decide (k = n)) as [->|Hk]; [rewrite owned_by_eq, Hon; naive_solver|by rewrite owned_by_ne].
  - by rewrite owned_by_ne.
  - intros k m. destruct (decide (k = n)) as [->|Hk]; [intros _; eauto|]. rewrite owned_by_ne by done. intros Ho. by destruct (ui_owned _ _ _ _ H k m Ho).
Qed.
Lemma take_pending_inv st refs handles owner i s n l : unix_inv st refs handles owner → socks st !! i = Some s → pending s = n :: l →
  unix_inv (upd st i (set_pending l)) (bump refs n) (bump handles n) (owned_by owner n None).
Proof.
  intros H Hs Hp. assert (owner n = Some i) as Hon by (apply (ui_pending _ _ _ _ H i s n Hs); rewrite Hp; left). destruct (ui_owned _ _ _ _ H n i Hon) as (_ & Hhn & Hbn & y & Hy & Hpy).
  assert (n ≠ i) as Hni by (intros ->; congruence). assert (owner i = None) as Hoi.
  { destruct (owner i) as [j|] eqn:Ho; [|done]. destruct (ui_owned _ _ _ _ H i j Ho) as (_ & _ & _ & x & Hx & Hpx). congruence. }
  pose proof (ui_nodup _ _ _ _ H i s Hs) as Hnd. rewrite Hp in Hnd. apply NoDup_cons in Hnd as [Hnl Hnd].
  apply (repend_inv st refs (bump refs n) handles (bump handles n) owner); [done| | |done| | | |eauto|].
  - intros k. destruct (decide (k = n)) as [->|Hk]; [rewrite owned_by_eq, bump_eq, Hon, one_if_no, one_if_yes by (eauto || by intros [? ?]); lia|by rewrite owned_by_ne, bump_ne].
  - intros k. pose proof (ui_handles _ _ _ _ H k). unfold bump. case_decide; lia.
  - intros k. destruct (decide (k = n)) as [->|Hk]; [by rewrite owned_by_eq|]. rewrite owned_by_ne by done. rewrite <- (ui_pending _ _ _ _ H i s k Hs), Hp, elem_of_cons. naive_solver.
  - intros k m Hm. destruct (decide (k = n)) as [->|Hk]; [rewrite owned_by_eq, Hon; naive_solver|by rewrite owned_by_ne].
  - by rewrite owned_by_ne.
  - intros k m. destruct (decide (k = n)) as [->|Hk]; [by rewrite owned_by_eq|]. rewrite owned_by_ne, bump_ne by done. intros Ho. by destruct (ui_owned _ _ _ _ H k m Ho).
Qed.

(** ** The binding table *)

(** The table and the address of one socket change. *)
Lemma rebind_inv st st' refs refs' handles owner i : unix_inv st refs handles owner → next_id st' = next_id st → is_Some (socks st !! i) →
  (∀ j, j ≠ i → socks st' !! j = socks st !! j ∧ ∀ a, UNIX_BINDS st' !! a = Some j ↔ UNIX_BINDS st !! a = Some j) →
  (∀ j, j ≠ i → refs' j = refs j) → (handles i ≤ refs' i)%nat →
  (∀ a, UNIX_BINDS st' !! a = Some i → a ≠ Unnamed ∧ owner i = None) →
  (∀ s, socks st !! i = Some s → ∃ s', socks st' !! i = Some s' ∧ kind s' = kind s ∧ peer_ref s' = peer_ref s ∧ recv_queue s' = recv_queue s ∧ pending s' = pending s ∧
     strong s' = (refs' i + bound st' i s' + one_if (is_Some (owner i)))%nat ∧ (1 ≤ strong s')%nat ∧ ∀ a, UNIX_BINDS st' !! a = Some i → local_addr s' = a) →
  unix_inv st' refs' handles owner.
Proof.
  intros H Hn [s0 Hs0] Ho Hr Hh Hb Hi. destruct (Hi s0 Hs0) as (s' & Hs' & Hk & Hpr & Hq & Hp & Hst & Hpos & Hla).
  assert (∀ j x', socks st' !! j = Some x' → ∃ x, socks st !! j = Some x ∧ kind x' = kind x ∧ peer_ref x' = peer_ref x ∧ recv_queue x' = recv_queue x ∧ pending x' = pending x) as Hinv.
  { intros j x' Hx'. destruct (decide (j = i)) as [->|Hne]; [assert (x' = s') as -> by congruence; by exists s0|]. exists x'. rewrite <- (proj1 (Ho j Hne)). by repeat split. }
  assert (∀ j, is_Some (socks st !! j) → is_Some (socks st' !! j)) as Halive.
  { intros j Hj. destruct (decide (j = i)) as [->|Hne]; [eauto|]. by rewrite (proj1 (Ho j Hne)). }
  split.
  - intros j [x' Hx']. destruct (Hinv j x' Hx') as (x & Hx & _). rewrite Hn. apply (ui_fresh _ _ _ _ H). eauto.
  - intros j x' Hx'. destruct (Hinv j x' Hx') as (x & Hx & _ & _ & -> & _). by apply (ui_queue _ _ _ _ H j).
  - intros j x' Hx'. destruct (decide (j = i)) as [->|Hne]; [assert (x' = s') as -> by congruence; done|]. destruct (Ho j Hne) as [Hsj Hbj]. rewrite Hsj in Hx'. rewrite Hr by done.
    destruct (ui_strong _ _ _ _ H j x' Hx') as [H1 H2]. split; [|done]. rewrite H1. f_equal. f_equal. unfold bound. apply one_if_ext. by rewrite Hbj.
  - intros j Hj. destruct (decide (j = i)) as [->|Hne]; [congruence|]. rewrite Hr by done. apply (ui_dead _ _ _ _ H). by rewrite <- (proj1 (Ho j Hne)).
  - intros j. destruct (decide (j = i)) as [->|Hne]; [done|]. rewrite Hr by done. apply H.
  - intros a j Ha. destruct (decide (j = i)) as [->|Hne]; [split; [by apply (Hb a)|exists s'; auto]|]. destruct (Ho j Hne) as [Hsj Hbj]. rewrite Hsj. apply (ui_binds _ _ _ _ H). by apply Hbj.
  - intros j x' k Hx'. destruct (Hinv j x' Hx') as (x & Hx & _ & _ & _ & ->). by apply (ui_pending _ _ _ _ H).
  - intros j x' Hx'. destruct (Hinv j x' Hx') as (x & Hx & _ & _ & _ & ->). by apply (ui_nodup _ _ _ _ H j).
  - intros k j Hkj. destruct (ui_owned _ _ _ _ H k j Hkj) as (H1 & H2 & H3 & y & Hy & Hpy). split; [auto|]. split; [done|]. split.
    + intros a Ha. destruct (decide (k = i)) as [->|Hne]; [destruct (Hb a Ha); congruence|]. apply (H3 a). by apply (Ho k Hne).
    + destruct (decide (k = i)) as [->|Hne]; [exists s'; split; [done|congruence]|]. exists y. by rewrite (proj1 (Ho k Hne)).
  - intros j x' p Hx' Hpx. destruct (Hinv j x' Hx') as (x & Hx & Hkx & Hprx & _). rewrite Hprx in Hpx. destruct (ui_peer _ _ _ _ H j x p Hx Hpx) as [H1 H2]. rewrite Hn. split; [done|].
    intros t' Ht'. destruct (Hinv p t' Ht') as (t & Ht & Hkt & Hpt & _). destruct (H2 t Ht) as [H3 H4]. split; [congruence|]. intros Hc. rewrite Hpt. apply H4. unfold is_connection_oriented in *. by rewrite <- Hkx.
Qed.
Lemma bind_inv st refs handles owner i s a : unix_inv st refs handles owner → socks st !! i = Some s → owner i = None → local_addr s = Unnamed → UNIX_BINDS st !! a = None → a ≠ Unnamed →
  unix_inv (upd (arc_clone (with_binds st (<[a := i]> (UNIX_BINDS st))) i) i (set_local a)) refs handles owner.
Proof.
  intros H Hs Ho Hl Hb Ha. apply (rebind_inv st _ refs refs handles owner i); [done|done|eauto| |done|apply H| |].
  - intros j Hj. simpl. rewrite !lookup_alter_ne by done. split; [done|]. intros b. destruct (decide (b = a)) as [->|Hne]; [rewrite lookup_insert_eq, Hb; naive_solver|by rewrite lookup_insert_ne].
  - intros b. simpl. destruct (decide (b = a)) as [->|Hne]; [done|]. rewrite lookup_insert_ne by done. intros Hbi. destruct (ui_binds _ _ _ _ H b i Hbi) as (? & x & Hx & Hlx). congruence.
  - intros s' Hs'. assert (s' = s) as -> by congruence. exists (set_local a (set_strong (S (strong s)) s)). split; [simpl; by rewrite !lookup_alter_eq, Hs|].
    destruct (ui_strong _ _ _ _ H i s Hs) as [H1 H2]. unfold bound in H1. rewrite one_if_no in H1 by (rewrite Hl; intros Hu; by destruct (ui_binds _ _ _ _ H _ _ Hu)).
    do 4 (split; [done|]). split; [|split].
    + unfold bound. simpl. rewrite one_if_yes by apply lookup_insert_eq. lia.
    + simpl. lia.
    + intros b. simpl. destruct (decide (b = a)) as [->|Hne]; [done|]. rewrite lookup_insert_ne by done. intros Hbi. destruct (ui_binds _ _ _ _ H b i Hbi) as (? & x & Hx & Hlx). congruence.
Qed.
Lemma unbind_inv st refs handles owner i s : unix_inv st refs handles owner → socks st !! i = Some s → UNIX_BINDS st !! local_addr s = Some i →
  unix_inv (with_binds st (delete (local_addr s) (UNIX_BINDS st))) (bump refs i) handles owner.
Proof.
  intros H Hs Hb. apply (rebind_inv st _ refs (bump refs i) handles owner i); [done|done|eauto| |intros j Hj; by apply bump_ne| | |].
  - intros j Hj. split; [done|]. intros a. simpl. rewrite lookup_delete_Some. split; [by intros [_ ?]|]. intros Ha. split; [congruence|done].
  - rewrite bump_eq. pose proof (ui_handles _ _ _ _ H i). lia.
  - intros a. simpl. rewrite lookup_delete_Some. intros [Hne Ha]. destruct (ui_binds _ _ _ _ H a i Ha) as (_ & x & Hx & Hlx). congruence.
  - intros s' Hs'. assert (s' = s) as -> by congruence. exists s. split; [done|]. destruct (ui_strong _ _ _ _ H i s Hs) as [H1 H2]. unfold bound in H1. rewrite one_if_yes in H1 by done.
    do 4 (split; [done|]). split; [|split; [done|]].
    + unfold bound. rewrite one_if_no by (simpl; by rewrite lookup_delete_eq). rewrite bump_eq. lia.
    + intros a. simpl. rewrite lookup_delete_Some. intros [Hne Ha]. destruct (ui_binds _ _ _ _ H a i Ha) as (_ & x & Hx & Hlx). congruence.
Qed.
Lemma rehandle_inv st refs handles handles' owner : unix_inv st refs handles owner → (∀ i, handles' i ≤ refs i)%nat → (∀ i, handles i = 0%nat → is_Some (owner i) → handles' i = 0%nat) → unix_inv st refs handles' owner.
Proof.
  intros H Hle Ho. split; try apply H; [done|]. intros i j Hij. destruct (ui_owned _ _ _ _ H i j Hij) as (H1 & H2 & H3). split; [done|]. split; [|done]. apply Ho; eauto.
Qed.
