(* ===== verification/UnixSpec.v ===== *)
(** * What each operation on an AF_UNIX socket does

    Every operation of a socket that has a handle returns, keeps the invariant of
    [UnixInv] and, where it moves bytes, moves them as its specification says. *)

From S2P Require Import Prelude Errno Bytes RefCount Wake UnixSock UnixInv UnixOps.

Section operations.
Context (st : Unix) (refs handles : Z → nat) (owner : Z → option Z).
Hypothesis H : unix_inv st refs handles owner.

Lemma alive_of i : (0 < handles i)%nat → ∃ s, socks st !! i = Some s.
Proof. intros Hh. apply (handle_alive _ _ _ _ _ H). pose proof (ui_handles _ _ _ _ H i). lia. Qed.

(** ** Creation *)

Lemma new_ok k p st' i : unix_new st k p = (st', i) → unix_inv st' (bump refs i) (bump handles i) owner ∧ kept st st'.
Proof.
  intros Hn. change st' with (st', i).1. rewrite <- Hn. assert (i = next_id st) as -> by (by injection Hn). split; [|by apply kept_add].
  apply (add_sock_inv st refs handles (bump handles (next_id st))); [done| | |].
  - split; [apply queue_new_ok|done].
  - intros j Hj. by apply bump_ne.
  - rewrite bump_eq. pose proof (ui_handles _ _ _ _ H (next_id st)). destruct (socks st !! next_id st) as [x|] eqn:Hx; [pose proof (ui_fresh _ _ _ _ H (next_id st) ltac:(eauto)); lia|].
    rewrite (ui_dead _ _ _ _ H _ Hx) in *. lia.
Qed.
Lemma bind_ok i a c : (0 < handles i)%nat → ∃ st' r, bind st i a c = Done (st', r) ∧ unix_inv st' refs handles owner ∧ kept st st'.
Proof.
  intros Hh. destruct (alive_of i Hh) as [s Hs]. unfold bind. destruct (bool_decide_reflect (a = Unnamed)) as [|Hu]; [by eexists _, _|]. rewrite Hs. simpl. destruct (bool_decide_reflect (local_addr s = Unnamed)) as [Hl|]; simpl; [|by eexists _, _].
  destruct (UNIX_BINDS st !! a) eqn:Hb; [by eexists _, _|]. destruct (match a with PathAddr _ => c | _ => Ok tt end); [|by eexists _, _]. eexists _, _. split; [done|]. split.
  - by apply (bind_inv st refs handles owner i s a H Hs (handle_unowned _ _ _ _ _ H Hh)).
  - etrans; [|by apply kept_upd]. etrans; [|by apply kept_upd]. split; [done|]. intros j x Hx. left. by exists x.
Qed.
Lemma listen_ok i : (0 < handles i)%nat → ∃ st' r, listen st i = Done (st', r) ∧ unix_inv st' refs handles owner ∧ kept st st'.
Proof.
  intros Hh. destruct (alive_of i Hh) as [s Hs]. unfold listen. rewrite Hs. simpl. destruct (negb (is_connection_oriented s)); [by eexists _, _|]. destruct (bool_decide (local_addr s = Unnamed)); [by eexists _, _|].
  eexists _, _. split; [done|]. split; [|by apply kept_upd]. apply neutral_inv; [done|intros x; by repeat split|done|]. intros x Hx. exact (ui_queue _ _ _ _ H i x Hx).
Qed.
Lemma accept_ok i : (0 < handles i)%nat → ∃ st' r, accept_once st i = Done (st', r) ∧ kept st st' ∧
  match r with Ok n => ∃ owner', unix_inv st' (bump refs n) (bump handles n) owner' | Err e => st' = st ∧ e = EAGAIN end.
Proof.
  intros Hh. destruct (alive_of i Hh) as [s Hs]. unfold accept_once. rewrite Hs. simpl. destruct (pending s) as [|n l] eqn:Hp; [by eexists _, _|]. eexists _, _. split; [done|]. split; [by apply kept_upd|].
  exists (owned_by owner n None). by apply (take_pending_inv st refs handles owner i s).
Qed.
End operations.

Lemma pair_ok st refs handles owner k p st' l r : unix_inv st refs handles owner → new_pair st k p = (st', l, r) →
  unix_inv st' (bump (bump refs l) r) (bump (bump handles l) r) owner ∧ kept st st'.
Proof.
  intros H. unfold new_pair. destruct (unix_new st k p) as [st1 i1] eqn:H1. destruct (unix_new st1 k p) as [st2 i2] eqn:H2. intros [= <- <- <-].
  destruct (new_ok st refs handles owner H k p st1 i1 H1) as [I1 K1]. destruct (new_ok st1 _ _ owner I1 k p st2 i2 H2) as [I2 K2].
  unfold unix_new, add_sock in H1, H2. injection H1 as <- <-. simpl in H2. injection H2 as <- <-. split.
  - eapply link_inv; [exact I2|lia|simpl; rewrite lookup_insert_ne by lia; apply lookup_insert_eq|simpl; apply lookup_insert_eq|done|done|done].
  - etrans; [exact K1|]. etrans; [exact K2|]. etrans; by apply kept_upd.
Qed.

(** ** Connection *)

(** A server that is added with its link is one that is added and then linked. *)
Lemma add_linked st s i f g : i ≠ next_id st → upd (add_sock st (g s)).1 i f = upd (upd (add_sock st s).1 i f) (next_id st) g.
Proof.
  intros Hne. unfold upd, add_sock, with_socks. simpl. f_equal. apply map_eq. intros j.
  destruct (decide (j = next_id st)) as [->|Hj]; [rewrite lookup_alter_eq, !lookup_alter_ne, !lookup_insert_eq by done; done|].
  rewrite (lookup_alter_ne g) by done. destruct (decide (j = i)) as [->|Hi]; [by rewrite !lookup_alter_eq, !lookup_insert_ne by done|by rewrite !lookup_alter_ne, !lookup_insert_ne by done].
Qed.
Lemma upd_set_pending st r x n : socks st !! r = Some x → upd st r (λ y, set_pending (pending y ++ [n]) y) = upd st r (set_pending (pending x ++ [n])).
Proof. intros Hx. unfold upd. f_equal. apply map_eq. intros j. destruct (decide (j = r)) as [->|Hj]; [by rewrite !lookup_alter_eq, Hx|by rewrite !lookup_alter_ne]. Qed.

(** A new server in the queue of a listener, linked to the client. *)
Lemma serve_inv st refs handles owner i r s a b pid0 : unix_inv st refs handles owner → UNIX_BINDS st !! a = Some r → socks st !! i = Some s → peer_ref s = None →
  let server := set_peer i b (set_local a (inner_new (kind s) pid0)) in
  let st2 := upd (add_sock st server).1 i (set_peer (next_id st) a) in
  unix_inv (upd st2 r (λ x, set_pending (pending x ++ [next_id st]) x)) refs handles (owned_by owner (next_id st) (Some r)).
Proof.
  intros H Ha Hs Hp server st2. set (n := next_id st). set (s0 := set_local a (inner_new (kind s) pid0)).
  assert (∀ j, is_Some (socks st !! j) → j ≠ n) as Hfr by (intros j Hj ->; pose proof (ui_fresh _ _ _ _ H n Hj); unfold n in *; lia).
  assert (socks st !! n = None) as Hnn by (destruct (socks st !! n) eqn:E; [by destruct (Hfr n ltac:(eauto))|done]).
  assert (handles n = 0%nat) as Hhn by (pose proof (ui_handles _ _ _ _ H n); rewrite (ui_dead _ _ _ _ H n Hnn) in *; lia).
  destruct (ui_binds _ _ _ _ H a r Ha) as (Hau & x & Hx & Hlx). assert (i ≠ n) as Hin by eauto. assert (r ≠ n) as Hrn by eauto.
  assert (unix_inv (add_sock st s0).1 (bump refs n) handles owner) as H1 by (apply (add_sock_inv st refs handles); [done|split; [apply queue_new_ok|done]|done|fold n; lia]).
  assert (unix_inv st2 (bump refs n) handles owner) as H2.
  { replace st2 with (upd (upd (add_sock st s0).1 i (set_peer n a)) n (set_peer i b)) by (symmetry; by apply (add_linked st s0 i (set_peer n a) (set_peer i b))).
    eapply link_inv; [exact H1|done|simpl; by rewrite lookup_insert_ne|simpl; apply lookup_insert_eq|done|done|done]. }
  assert (∃ y, socks st2 !! r = Some y) as [y Hy].
  { assert (is_Some (socks st2 !! r)) as [y Hy]; [|eauto]. unfold st2. apply upd_alive. simpl. rewrite lookup_insert_ne by done. eauto. }
  rewrite (upd_set_pending _ _ y) by done. apply (give_pending_inv st2 refs handles owner r n y server); [done|done| | |done| | |done|done].
  - destruct (owner n) eqn:E; [|done]. destruct (owned_alive _ _ _ _ _ _ H E) as [? ?]. congruence.
  - by apply (bound_unowned st refs handles owner a).
  - intros c Hc. simpl in Hc. destruct (ui_binds _ _ _ _ H c n Hc) as (_ & z & Hz & _). congruence.
  - unfold st2. rewrite upd_ne by done. simpl. apply lookup_insert_eq.
Qed.
Lemma connect_ok st refs handles owner i a : unix_inv st refs handles owner → (0 < handles i)%nat → ∃ st' r, connect st i a = Done (st', r) ∧ (∃ owner', unix_inv st' refs handles owner') ∧ kept st st'.
Proof.
  intros H Hh. destruct (alive_of st refs handles owner H i Hh) as [s Hs]. unfold connect, bound_peer. destruct (UNIX_BINDS st !! a) as [r|] eqn:Ha; simpl; [|eexists _, _; split; [done|]; split; [by exists owner|done]].
  destruct (ui_binds _ _ _ _ H a r Ha) as (Hau & x & Hx & Hlx). rewrite Hx. simpl. rewrite Hs. simpl.
  destruct (bool_decide_reflect (kind x = kind s)) as [Hk|]; simpl; [|eexists _, _; split; [done|]; split; [by exists owner|done]].
  destruct (peer_ref s) eqn:Hp; [eexists _, _; split; [done|]; split; [by exists owner|done]|]. destruct (is_connection_oriented s) eqn:Hc.
  - destruct (listening x); simpl; [|eexists _, _; split; [done|]; split; [by exists owner|done]]. eexists _, _. split; [done|]. split.
    + eexists. apply wake_accept_inv. by apply (serve_inv st refs handles owner i r s a (local_addr s) (pid x)).
    + etrans; [|apply kept_same, wake_accept_same]. etrans; [|by apply kept_upd]. etrans; [|by apply kept_upd]. by apply (kept_add st).
  - eexists _, _. split; [done|]. split; [|by apply kept_upd]. exists owner. by apply (attach_inv st refs handles owner i r s x).
Qed.

(** ** Sending *)

Lemma send_begin_ok st refs handles owner i to : unix_inv st refs handles owner → (0 < handles i)%nat → ∃ st' r, send_begin st i to = Done (st', r) ∧ kept st st' ∧
  match r with Ok t => unix_inv st' (bump refs t) handles owner ∧ st' = arc_clone st t | Err _ => st' = st end.
Proof.
  intros H Hh. destruct (alive_of st refs handles owner H i Hh) as [s Hs]. unfold send_begin. rewrite Hs. simpl. destruct (send_closed s); [by eexists _, _|]. destruct to as [a|].
  - unfold bound_peer. destruct (UNIX_BINDS st !! a) as [r|] eqn:Ha; simpl; [|by eexists _, _]. destruct (ui_binds _ _ _ _ H a r Ha) as (_ & x & Hx & _). rewrite Hx. simpl.
    destruct (bool_decide (kind x = kind s)); simpl; [|by eexists _, _]. eexists _, _. split; [done|]. split; [by apply kept_upd|]. split; [|done]. apply arc_clone_inv; eauto.
  - unfold peer, upgrade. destruct (peer_ref s) as [p|]; simpl; [|by eexists _, _]. destruct (socks st !! p) as [t|] eqn:Ht; simpl; [|by eexists _, _].
    eexists _, _. split; [done|]. split; [by apply kept_upd|]. split; [|done]. apply arc_clone_inv; eauto.
Qed.

(** One message at the end of the queue of the target. *)
Definition enqueued (st st' : Unix) (t : Z) (m : UnixMessage) : Prop :=
  ∃ x q, socks st !! t = Some x ∧ q_closed (recv_queue x) = false ∧ q_closed q = false ∧ st' = upd st t (set_queue q) ∧ messages q = messages (recv_queue x) ++ [m].
Lemma write_len_spec k len available n : 0 ≤ available → 0 ≤ len → write_len k len available = Ok n → 0 ≤ n ≤ len ∧ n ≤ available ∧ (k ≠ Stream → n = len).
Proof.
  intros Ha Hl. unfold write_len. destruct k.
  - intros [= <-]. split; [lia|]. split; [lia|done].
  - destruct (UNIX_BUF_SIZE <? len); [done|]. destruct (Z.ltb_spec available len); [done|]. intros [= <-]. split; [lia|]. by split.
  - destruct (UNIX_BUF_SIZE <? len); [done|]. destruct (Z.ltb_spec available len); [done|]. intros [= <-]. split; [lia|]. by split.
Qed.
Lemma send_once_ok st refs handles owner i t from src s x : unix_inv st refs handles owner → socks st !! i = Some s → socks st !! t = Some x →
  ∃ st' r, send_once st i t from src = Done (st', r) ∧ unix_inv st' refs handles owner ∧
    match r with
    | Ok n => 0 ≤ n ≤ data_len src ∧ (kind s ≠ Stream → n = data_len src) ∧ send_closed s = false ∧ q_closed (recv_queue x) = false ∧
        (n = 0 ∧ src = [] ∧ st' = st ∨ 0 < n ∧ enqueued st st' t (mkMsg (take (Z.to_nat n) src) from))
    | Err _ => st' = st
    end.
Proof.
  intros H Hs Hx. pose proof (ui_queue _ _ _ _ H t x Hx) as Hq. pose proof (data_len_nonneg src) as Hl. unfold send_once. rewrite Hs. simpl. rewrite Hx. simpl. destruct (send_closed s) eqn:Hsc; [by eexists _, _|].
  destruct (q_closed (recv_queue x)) eqn:Hcl; [unfold available_write_bytes; rewrite Hcl; by eexists _, _|]. rewrite available_spec by done. pose proof (qo_bound _ Hq) as Hb.
  destruct (Z.eqb_spec (data_len src) 0) as [Hz|Hz].
  { eexists _, _. split; [done|]. split; [done|]. repeat (split; [done || lia|]). left. by destruct src. }
  destruct (write_len _ _ _) as [n|e] eqn:Hw; [|by eexists _, _]. apply write_len_spec in Hw as (Hn & Hav & Hk); [|lia|done]. destruct (Z.eqb_spec n 0) as [|Hn0]; [by eexists _, _|].
  set (m := mkMsg (take (Z.to_nat n) src) from). assert (data m ≠ []) as Hm.
  { simpl. destruct src as [|b src]; [done|]. destruct (Z.to_nat n) eqn:E; [lia|done]. }
  pose proof (try_enqueue_spec (recv_queue x) m Hq Hm) as He. destruct (try_enqueue _ _) as [q|[]]; [|congruence|].
  - destruct He as (Hqo & _ & Hqc & _ & Hms). eexists _, _. split; [done|]. split; [apply neutral_inv; [done|intros y; by repeat split|done|done]|].
    split; [lia|]. do 3 (split; [done|]). right. split; [lia|]. exists x, q. by repeat split.
  - exfalso. destruct He as [_ He]. simpl in He. unfold data_len in He, Hn. rewrite length_take in He. lia.
Qed.
Lemma send_end_ok st refs handles owner t r : unix_inv st (bump refs t) handles owner → (handles t ≤ refs t)%nat → (∃ owner', unix_inv (send_end st t r) refs handles owner') ∧ kept st (send_end st t r).
Proof.
  intros H Hh. unfold send_end. destruct r.
  - split; [eapply arc_drop_inv; [by apply wake_recv_inv|done]|]. etrans; [apply kept_same, wake_recv_same|apply kept_drop].
  - split; [by eapply arc_drop_inv|apply kept_drop].
Qed.

(** ** Receiving *)

Definition eof : Received := mkReceived [] None 0.
#[export] Instance Received_eq_dec : EqDecision Received.
Proof. solve_decision. Defined.
(** What a call takes from the front of the queue. *)
Definition dequeued (k : UnixSocketKind) (q q' : UnixRecvQueue) (dst_len : Z) (trunc : bool) (r : Received) : Prop :=
  ∃ m ms, messages q = m :: ms ∧ rc_bytes r = take (Z.to_nat (Z.min dst_len (data_len (data m)))) (data m) ∧
    if bool_decide (k = Stream)
    then flat_queue q = rc_bytes r ++ flat_queue q' ∧ (rc_from r = None ∨ messages q' = ms)
    else messages q' = ms ∧ rc_from r = Some (sender m) ∧ rc_ret r = (if trunc then data_len (data m) else data_len (rc_bytes r)).

Lemma pop_ok q m ms : queue_ok q → messages q = m :: ms → queue_ok (mkQueue ms (wrap64 (queued_bytes q - data_len (data m))) false).
Proof.
  intros H Hm. pose proof (qo_bytes q H) as Hb. unfold flat_queue in Hb. rewrite Hm, fmap_cons in Hb. simpl concat in Hb. rewrite data_len_app in Hb. pose proof (qo_bound q H) as Hbd.
  pose proof (data_len_nonneg (data m)). pose proof (data_len_nonneg (concat (data <$> ms))). assert (wrap64 (queued_bytes q - data_len (data m)) = data_len (concat (data <$> ms))) as Hw.
  { rewrite wrap64_small; unfold is_usize, usize_max, UNIX_BUF_SIZE in *; lia. }
  split; cbn [messages queued_bytes q_closed]; [exact Hw|rewrite Hw; lia|done|]. intros x Hx. apply (qo_full q H). rewrite Hm. by right.
Qed.
Lemma split_ok q m ms n : queue_ok q → messages q = m :: ms → 0 ≤ n < data_len (data m) →
  let m' := mkMsg (drop (Z.to_nat n) (data m)) (sender m) in
  data_len (data m') = data_len (data m) - n ∧ queue_ok (mkQueue (m' :: ms) (wrap64 (queued_bytes q - n)) false).
Proof.
  intros H Hm Hn m'. assert (data_len (data m') = data_len (data m) - n) as Hl by (unfold m', data_len in *; simpl; rewrite length_drop; lia). split; [done|].
  pose proof (qo_bytes q H) as Hb. unfold flat_queue in Hb. rewrite Hm, fmap_cons in Hb. simpl concat in Hb. rewrite data_len_app in Hb. pose proof (qo_bound q H) as Hbd. pose proof (data_len_nonneg (concat (data <$> ms))).
  assert (wrap64 (queued_bytes q - n) = queued_bytes q - n) as Hw by (apply wrap64_small; unfold is_usize, usize_max, UNIX_BUF_SIZE in *; lia).
  split; cbn [messages queued_bytes q_closed]; [|lia|done|].
  - rewrite Hw. unfold flat_queue. cbn [messages]. rewrite fmap_cons. cbn [concat]. rewrite data_len_app. lia.
  - intros x [->|Hx]%elem_of_cons; [|apply (qo_full q H); rewrite Hm; by right]. intros E. rewrite E in Hl. change (data_len []) with 0 in Hl. lia.
Qed.
Lemma recv_ok st refs handles owner i s dst_len trunc : unix_inv st refs handles owner → socks st !! i = Some s → 0 ≤ dst_len →
  ∃ st' r, recv_once st i dst_len trunc = Done (st', r) ∧ unix_inv st' refs handles owner ∧
    match r with
    | Ok r => r = eof ∧ st' = st ∧ (q_closed (recv_queue s) = true ∨ messages (recv_queue s) = [] ∧ peer_closed st s = true) ∨
        ∃ q', st' = upd st i (set_queue q') ∧ q_closed (recv_queue s) = false ∧ q_closed q' = false ∧ dequeued (kind s) (recv_queue s) q' dst_len trunc r
    | Err e => st' = st ∧ e = EAGAIN ∧ messages (recv_queue s) = []
    end.
Proof.
  intros H Hs Hd. pose proof (ui_queue _ _ _ _ H i s Hs) as Hq. unfold recv_once. rewrite Hs. simpl. destruct (q_closed (recv_queue s)) eqn:Hc.
  { eexists _, _. split; [done|]. split; [done|]. left. by repeat split; left. }
  destruct (messages (recv_queue s)) as [|m ms] eqn:Hm.
  { destruct (is_connection_oriented s && peer_closed st s) eqn:Hpc; [|by eexists _, _]. apply andb_true_iff in Hpc as [_ Hpc]. eexists _, _. split; [done|]. split; [done|]. left. split; [done|]. split; [done|]. by right. }
  pose proof (data_len_nonneg (data m)) as Hlm. set (written := Z.min dst_len (data_len (data m))). destruct (bool_decide (kind s = Stream) && (written <? data_len (data m))) eqn:Hbr.
  - apply andb_true_iff in Hbr as [Hk Hw]. apply Z.ltb_lt in Hw. destruct (split_ok (recv_queue s) m ms written Hq Hm) as [Hl Hqo]; [lia|]. cbv zeta in Hl, Hqo. cbn [data] in Hl |- *. rewrite Hl.
    destruct (Z.eqb_spec (data_len (data m) - written) 0) as [|_]; [lia|]. replace (data_len (data m) - (data_len (data m) - written)) with written by lia.
    eexists _, _. split; [done|]. split; [apply neutral_inv; [done|intros y; by repeat split|done|done]|]. right. eexists. split; [done|]. split; [done|]. split; [done|].
    exists m, ms. split; [done|]. split; [done|]. rewrite Hk. split; [|by left]. unfold flat_queue. rewrite Hm. cbn [messages rc_bytes]. rewrite !fmap_cons. simpl concat. cbn [data]. by rewrite app_assoc, take_drop.
  - pose proof (pop_ok (recv_queue s) m ms Hq Hm) as Hqo. eexists _, _. split; [done|]. split; [apply neutral_inv; [done|intros y; by repeat split|done|done]|]. right. eexists. split; [done|]. split; [done|]. split; [done|].
    exists m, ms. split; [done|]. split; [done|]. destruct (bool_decide (kind s = Stream)) eqn:Hk.
    + simpl in Hbr. apply Z.ltb_ge in Hbr. split; [|by right]. unfold flat_queue. rewrite Hm. cbn [messages rc_bytes]. rewrite fmap_cons. simpl concat. rewrite take_ge; [done|]. unfold data_len in *. lia.
    + split; [done|]. split; [done|]. cbn [rc_ret rc_bytes]. destruct trunc; [done|]. unfold data_len in *. rewrite length_take. lia.
Qed.

(** ** Shutdown, poll and destruction *)

Lemma close_recv_inv st refs handles owner i : unix_inv st refs handles owner → unix_inv (close_recv st i) refs handles owner.
Proof.
  intros H. unfold close_recv. apply wake_write_inv, wake_recv_inv, neutral_inv; [done|intros s; by repeat split|done|]. intros s _. apply closed_ok.
Qed.
(** The queue of [i] may be closed. *)
Definition kept_or_closed (i : Z) (st st' : Unix) : Prop :=
  next_id st ≤ next_id st' ∧ ∀ j s', socks st' !! j = Some s' →
    ∃ s, socks st !! j = Some s ∧ kind s' = kind s ∧ (recv_queue s' = recv_queue s ∨ j = i ∧ recv_queue s' = mkQueue [] 0 true).
Lemma same_shape st st' j s' : same_but_polls st st' → socks st' !! j = Some s' → ∃ s, socks st !! j = Some s ∧ kind s' = kind s ∧ recv_queue s' = recv_queue s.
Proof. intros (_ & _ & Hs) Hs'. specialize (Hs j). rewrite Hs' in Hs. destruct (socks st !! j) as [s|]; [|done]. simpl in Hs. injection Hs as ? ? ? ? ? ?. by exists s. Qed.
Lemma close_recv_kept st i : kept_or_closed i st (close_recv st i).
Proof.
  set (st0 := upd st i (set_queue (mkQueue [] 0 true))). assert (same_but_polls st0 (close_recv st i)) as Hsame by (unfold close_recv; etrans; [apply wake_recv_same|apply wake_write_same]).
  split; [destruct Hsame as (_ & -> & _); done|]. intros j s' Hs'. destruct (same_shape _ _ _ _ Hsame Hs') as (s0 & Hs0 & Hk & Hq).
  destruct (upd_lookup _ _ _ _ _ Hs0) as (s & Hs & [[-> ->]|[_ ->]]); exists s; (split; [done|]); (split; [done|]); [right; by split|by left].
Qed.
Lemma shutdown_ok st refs handles owner i how : unix_inv st refs handles owner → (0 < handles i)%nat → ∃ st', shutdown st i how = Done st' ∧ unix_inv st' refs handles owner ∧ kept_or_closed i st st'.
Proof.
  intros H Hh. unfold shutdown. set (st1 := if has_read how then close_recv st i else st).
  assert (unix_inv st1 refs handles owner ∧ kept_or_closed i st st1) as [H1 [Hn K1]].
  { unfold st1. destruct (has_read how); [split; [by apply close_recv_inv|apply close_recv_kept]|]. split; [done|]. split; [done|]. intros j s Hs. exists s. split; [done|]. split; [done|]. by left. }
  destruct (alive_of st1 refs handles owner H1 i Hh) as [s Hs]. rewrite Hs. simpl. destruct (has_write how); [|exists st1; split; [done|]; split; [done|]; by split].
  set (st2 := upd st1 i (set_state (listening s) (nonblocking s) true)). assert (unix_inv st2 refs handles owner) as H2.
  { apply neutral_inv; [done|intros x; by repeat split|done|]. intros x Hx. exact (ui_queue _ _ _ _ H1 i x Hx). }
  assert (∀ st', same_but_polls st2 st' → kept_or_closed i st st') as K2.
  { intros st' Hsame. split; [destruct Hsame as (_ & -> & _); done|]. intros j s' Hs'. destruct (same_shape _ _ _ _ Hsame Hs') as (s2 & Hs2 & Hk2 & Hq2).
    destruct (upd_lookup _ _ _ _ _ Hs2) as (x & Hx & Hx2). assert (kind s2 = kind x ∧ recv_queue s2 = recv_queue x) as [Hk3 Hq3] by (by destruct Hx2 as [[_ ->]|[_ ->]]).
    destruct (K1 j x Hx) as (y & Hy & Hky & Hqy). exists y. split; [done|]. split; [congruence|]. by rewrite Hq2, Hq3. }
  eexists. split; [done|]. destruct (peer st2 s) as [p|]; [split; [by apply wake_recv_inv|by apply K2, wake_recv_same]|split; [done|by apply K2]].
Qed.

Lemma register_ok st refs handles owner i w events : unix_inv st refs handles owner → (0 < handles i)%nat → ∃ st', unix_register st i w events = Done st' ∧ unix_inv st' refs handles owner ∧ kept st st'.
Proof.
  intros H Hh. unfold unix_register. set (st1 := if intersects events IN_RDNORM then register_recv st i w else st). assert (unix_inv st1 refs handles owner ∧ kept st st1) as [H1 K1].
  { unfold st1. destruct (intersects events IN_RDNORM); [|done]. split; [by apply register_recv_inv|]. unfold register_recv. destruct (socks st !! i) as [s|]; [|done]. destruct (poll_register w (recv_poll s)), (poll_register w (accept_poll s)). apply kept_same, polls_same. }
  destruct (alive_of st1 refs handles owner H1 i Hh) as [s Hs]. rewrite Hs. simpl. eexists. split; [done|]. destruct (intersects events OUT_WRNORM); [|done]. destruct (peer st1 s) as [p|]; [|done].
  split; [by apply register_write_inv|]. etrans; [exact K1|]. unfold register_write. destruct (socks st1 !! p) as [x|]; [|done]. destruct (poll_register w (write_poll x)). apply kept_same, polls_same.
Qed.

(** The table no longer holds the socket, and its handle is still to go. *)
Lemma drop_ok st refs handles owner i : unix_inv st refs handles owner → (0 < handles i)%nat →
  ∃ st', unix_drop st i = Done st' ∧ (∃ owner', unix_inv st' refs handles owner') ∧ kept st st'.
Proof.
  intros H Hh. destruct (alive_of st refs handles owner H i Hh) as [s Hs]. unfold unix_drop. rewrite Hs. simpl.
  set (st1 := match peer st s with Ok p => wake_write (wake_recv st p) p | Err _ => st end). assert (unix_inv st1 refs handles owner ∧ same_but_polls st st1) as [H1 S1].
  { unfold st1. destruct (peer st s) as [p|]; [|done]. split; [by apply wake_write_inv, wake_recv_inv|]. etrans; [apply wake_recv_same|apply wake_write_same]. }
  set (st2 := wake_accept (wake_write (wake_recv st1 i) i) i). assert (unix_inv st2 refs handles owner ∧ same_but_polls st st2) as [H2 S2].
  { unfold st2. split; [by apply wake_accept_inv, wake_write_inv, wake_recv_inv|]. etrans; [exact S1|]. etrans; [apply wake_recv_same|]. etrans; [apply wake_write_same|apply wake_accept_same]. }
  eexists. split; [done|]. pose proof (kept_same _ _ S2) as K2. destruct (bool_decide (local_addr s = Unnamed)); [split; [by exists owner|done]|]. destruct (bool_decide_reflect (UNIX_BINDS st2 !! local_addr s = Some i)) as [Hb|]; [|split; [by exists owner|done]].
  destruct (same_alive _ _ i s S2 Hs) as (s2 & Hs2 & _ & Hl & _). split.
  - pose proof (unbind_inv st2 refs handles owner i s2 H2 Hs2) as Hu. rewrite Hl in Hu. eapply arc_drop_inv; [by apply Hu|apply H].
  - etrans; [exact K2|]. etrans; [|apply kept_drop]. split; [done|]. intros j x Hx. left. by exists x.
Qed.
Lemma gone_ok st refs handles owner i : unix_inv st (bump refs i) handles owner → (handles i ≤ refs i)%nat → (∃ owner', unix_inv (arc_drop st i) refs handles owner') ∧ kept st (arc_drop st i).
Proof. intros H Hh. split; [by eapply arc_drop_inv|apply kept_drop]. Qed.
