(* ===== verification/UnixLife.v ===== *)
(** * Processes that use AF_UNIX sockets

    Any sequence of operations: sockets are made, bound, connected and accepted, calls
    send and receive and wait in between, handles are copied and dropped.  A [send]
    is three steps, its beginning, the turns of its loop and its end; the drop of a
    handle is two, its body and the release of its reference.  The world keeps what
    was put into each queue and what came out of it. *)

From S2P Require Import Prelude Errno Bytes RefCount Wake UnixSock UnixInv UnixOps UnixSpec.

(** ** The world *)

(** A [send] that is under way; [c_res] is what its loop returned. *)
Record Call : Type := mkCall { c_from : Z; c_to : Z; c_addr : UnixSocketAddr; c_src : list Z; c_res : option (result SysErrNo Z) }.
Definition finished (c : Call) (r : result SysErrNo Z) : Call := mkCall (c_from c) (c_to c) (c_addr c) (c_src c) (Some r).
Record World : Type := mkWorld {
  net : Unix; handles : Z → nat; calls : list Call; closing : list Z; sent : Z → list UnixMessage; got : Z → list Received }.
Definition world_init : World := mkWorld unix_init (λ _, 0%nat) [] [] (λ _, []) (λ _, []).
Definition held (w : World) : Z → nat := bumps (handles w) ((c_to <$> calls w) ++ closing w).
Definition with_net (w : World) (st : Unix) : World := mkWorld st (handles w) (calls w) (closing w) (sent w) (got w).
Definition append {A} (f : Z → list A) (i : Z) (x : A) : Z → list A := λ j, if decide (j = i) then f j ++ [x] else f j.

Inductive ustep (w : World) : World → Prop :=
| us_new k p st i : unix_new (net w) k p = (st, i) →
    ustep w (mkWorld st (bump (handles w) i) (calls w) (closing w) (sent w) (got w))
| us_pair k p st l r : new_pair (net w) k p = (st, l, r) →
    ustep w (mkWorld st (bump (bump (handles w) l) r) (calls w) (closing w) (sent w) (got w))
| us_clone i : (0 < handles w i)%nat →
    ustep w (mkWorld (arc_clone (net w) i) (bump (handles w) i) (calls w) (closing w) (sent w) (got w))
| us_bind i a c st r : (0 < handles w i)%nat → bind (net w) i a c = Done (st, r) → ustep w (with_net w st)
| us_connect i a st r : (0 < handles w i)%nat → connect (net w) i a = Done (st, r) → ustep w (with_net w st)
| us_listen i st r : (0 < handles w i)%nat → listen (net w) i = Done (st, r) → ustep w (with_net w st)
| us_option i b : (0 < handles w i)%nat → ustep w (with_net w (set_nonblocking (net w) i b))
| us_accept i s st n : (0 < handles w i)%nat → socks (net w) !! i = Some s → accept_check s = Ok tt → accept_once (net w) i = Done (st, Ok n) →
    ustep w (mkWorld st (bump (handles w) n) (calls w) (closing w) (sent w) (got w))
| us_send i to src s st t : (0 < handles w i)%nat → socks (net w) !! i = Some s → send_begin (net w) i to = Done (st, Ok t) →
    ustep w (mkWorld st (handles w) (mkCall i t (local_addr s) src None :: calls w) (closing w) (sent w) (got w))
| us_try c1 c c2 st r : calls w = c1 ++ c :: c2 → c_res c = None → send_once (net w) (c_from c) (c_to c) (c_addr c) (c_src c) = Done (st, r) →
    ustep w (mkWorld st (handles w) (c1 ++ finished c r :: c2) (closing w)
      (match r with Ok n => if n =? 0 then sent w else append (sent w) (c_to c) (mkMsg (take (Z.to_nat n) (c_src c)) (c_addr c)) | Err _ => sent w end) (got w))
| us_wait c waker : c ∈ calls w → c_res c = None → send_once (net w) (c_from c) (c_to c) (c_addr c) (c_src c) = Done (net w, Err EAGAIN) →
    ustep w (with_net w (register_write (net w) (c_to c) waker))
| us_sent c1 c c2 r : calls w = c1 ++ c :: c2 → c_res c = Some r →
    ustep w (mkWorld (send_end (net w) (c_to c) r) (handles w) (c1 ++ c2) (closing w) (sent w) (got w))
| us_recv i len trunc st r : (0 < handles w i)%nat → 0 ≤ len → recv_once (net w) i len trunc = Done (st, Ok r) →
    ustep w (mkWorld st (handles w) (calls w) (closing w) (sent w) (if bool_decide (r = eof) then got w else append (got w) i r))
| us_received i : (0 < handles w i)%nat → ustep w (with_net w (recv_end (net w) i))
| us_register i waker events st : (0 < handles w i)%nat → unix_register (net w) i waker events = Done st → ustep w (with_net w st)
| us_shutdown i how st : (0 < handles w i)%nat → shutdown (net w) i how = Done st → ustep w (with_net w st)
| us_drop i st : (0 < handles w i)%nat → (∀ c, c ∈ calls w → c_from c = i → (1 < handles w i)%nat) → unix_drop (net w) i = Done st →
    ustep w (mkWorld st (unbump (handles w) i) (calls w) (i :: closing w) (sent w) (got w))
| us_gone l1 i l2 : closing w = l1 ++ i :: l2 →
    ustep w (mkWorld (arc_drop (net w) i) (handles w) (calls w) (l1 ++ l2) (sent w) (got w)).

(** ** What goes in comes out *)

Definition delivers (r : Received) (m : UnixMessage) : Prop := rc_bytes r `prefix_of` data m ∧ rc_from r = Some (sender m).
(** What came out and what is in the queue is what was put in, in order; a closed
    queue has lost the rest. *)
Definition flow_ok (k : UnixSocketKind) (q : UnixRecvQueue) (snt : list UnixMessage) (gt : list Received) : Prop :=
  if bool_decide (k = Stream)
  then ∃ rest, concat (data <$> snt) = concat (rc_bytes <$> gt) ++ rest ∧ (q_closed q = false → rest = flat_queue q)
  else ∃ past rest, snt = past ++ rest ∧ Forall2 delivers gt past ∧ (q_closed q = false → rest = messages q).
Definition flows (st : Unix) (snt : Z → list UnixMessage) (gt : Z → list Received) : Prop :=
  (∀ j, next_id st ≤ j → snt j = [] ∧ gt j = []) ∧ ∀ j s, socks st !! j = Some s → flow_ok (kind s) (recv_queue s) (snt j) (gt j).

Lemma flow_new k : flow_ok k queue_new [] [].
Proof. unfold flow_ok. destruct (bool_decide (k = Stream)); [by exists []|exists [], []; split; [done|]; split; [constructor|done]]. Qed.
Lemma flow_close k q snt gt : flow_ok k q snt gt → flow_ok k (mkQueue [] 0 true) snt gt.
Proof. unfold flow_ok. destruct (bool_decide (k = Stream)); [intros (rest & ? & ?); by exists rest|intros (past & rest & ? & ? & ?); by exists past, rest]. Qed.
Lemma flow_send k q q' m snt gt : flow_ok k q snt gt → q_closed q = false → messages q' = messages q ++ [m] → flow_ok k q' (snt ++ [m]) gt.
Proof.
  intros Hf Hc Hm. unfold flow_ok in *. destruct (bool_decide (k = Stream)).
  - destruct Hf as (rest & Hs & Hr). rewrite (Hr Hc) in Hs. exists (flat_queue q'). split; [|done]. rewrite fmap_app, concat_app, Hs. unfold flat_queue. rewrite Hm, fmap_app, concat_app. by rewrite <- app_assoc.
  - destruct Hf as (past & rest & Hs & Hd & Hr). rewrite (Hr Hc) in Hs. exists past, (messages q'). split; [by rewrite Hs, Hm, <- app_assoc|done].
Qed.
Lemma flow_recv k q q' len trunc r snt gt : flow_ok k q snt gt → q_closed q = false → dequeued k q q' len trunc r → flow_ok k q' snt (if bool_decide (r = eof) then gt else gt ++ [r]).
Proof.
  intros Hf Hc (m & ms & Hm & Hb & Hd). unfold flow_ok in *. destruct (bool_decide (k = Stream)).
  - destruct Hf as (rest & Hs & Hr). destruct Hd as [Hfl _]. rewrite (Hr Hc), Hfl in Hs. exists (flat_queue q'). split; [|done]. rewrite Hs. destruct (bool_decide_reflect (r = eof)) as [->|]; [done|].
    rewrite fmap_app, concat_app. simpl. by rewrite app_nil_r, <- app_assoc.
  - destruct Hf as (past & rest & Hs & Hp & Hr). destruct Hd as (Hms & Hfrom & _). destruct (bool_decide_reflect (r = eof)) as [->|_]; [done|]. exists (past ++ [m]), (messages q').
    split; [|split; [|done]]. { by rewrite Hs, (Hr Hc), Hm, Hms, <- app_assoc. } apply Forall2_app; [done|]. apply Forall2_cons. split; [|constructor]. split; [|done]. rewrite Hb. apply prefix_take.
Qed.

Lemma flows_kept st st' snt gt : kept st st' → flows st snt gt → flows st' snt gt.
Proof.
  intros [Hn Hk] [Hf Hs]. split; [intros j Hj; apply Hf; lia|]. intros j s' Hs'. destruct (Hk j s' Hs') as [(s & Hs0 & -> & ->)|[Hj ->]]; [by apply Hs|]. destruct (Hf j Hj) as [-> ->]. apply flow_new.
Qed.
Lemma flows_closed i st st' snt gt : kept_or_closed i st st' → flows st snt gt → flows st' snt gt.
Proof.
  intros [Hn Hk] [Hf Hs]. split; [intros j Hj; apply Hf; lia|]. intros j s' Hs'. destruct (Hk j s' Hs') as (s & Hs0 & -> & [->|[_ ->]]); [by apply Hs|]. by eapply flow_close, Hs.
Qed.
Lemma append_eq {A} (f : Z → list A) i x : append f i x i = f i ++ [x].
Proof. unfold append. by rewrite decide_True. Qed.
Lemma append_ne {A} (f : Z → list A) i x j : j ≠ i → append f i x j = f j.
Proof. intros. unfold append. by rewrite decide_False. Qed.
(** The queue of one socket moves with its history. *)
Lemma flows_upd st i s q snt snt' gt gt' : flows st snt gt → socks st !! i = Some s → i < next_id st → (∀ j, j ≠ i → snt' j = snt j ∧ gt' j = gt j) → flow_ok (kind s) q (snt' i) (gt' i) → flows (upd st i (set_queue q)) snt' gt'.
Proof.
  intros [Hf Hs] Hi Hlt Ho Hq. split; [intros j Hj; simpl in Hj; destruct (Ho j) as [-> ->]; [lia|by apply Hf]|]. intros j x Hx.
  destruct (upd_lookup _ _ _ _ _ Hx) as (x0 & Hx0 & [[-> ->]|[Hn ->]]); [assert (x0 = s) as -> by congruence; done|]. destruct (Ho j Hn) as [-> ->]. by apply Hs.
Qed.

(** ** The invariant *)

Record world_ok (w : World) : Prop := {
  wo_inv : ∃ owner, unix_inv (net w) (held w) (handles w) owner;
  wo_calls c : c ∈ calls w → (0 < handles w (c_from c))%nat;
  wo_flows : flows (net w) (sent w) (got w) }.
Lemma unix_init_ok : world_ok world_init.
Proof.
  split; [exists (λ _, None)|by intros c ?%elem_of_nil|].
  - split; simpl; try done; try (by intros ? [? ?]); try (by intros ? ? ?).
  - split; [done|]. intros j s Hs. done.
Qed.
(** Same references, written differently. *)
Lemma held_eq w h cs cl : (∀ k, h k + count_occ Z.eq_dec ((c_to <$> cs) ++ cl) k = handles w k + count_occ Z.eq_dec ((c_to <$> calls w) ++ closing w) k)%nat →
  ∀ k, bumps h ((c_to <$> cs) ++ cl) k = held w k.
Proof. intros H k. unfold held. rewrite !bumps_count. apply H. Qed.
Lemma net_ok w st owner : world_ok w → unix_inv st (held w) (handles w) owner → flows st (sent w) (got w) → world_ok (with_net w st).
Proof. intros H Hi Hf. split; [by exists owner|apply H|done]. Qed.
Lemma more_handles w st h owner : world_ok w → unix_inv st (bumps h ((c_to <$> calls w) ++ closing w)) h owner → (∀ k, handles w k ≤ h k)%nat → flows st (sent w) (got w) →
  world_ok (mkWorld st h (calls w) (closing w) (sent w) (got w)).
Proof. intros H Hi Hle Hf. split; [by exists owner| |done]. simpl. intros c Hc. pose proof (wo_calls w H c Hc). specialize (Hle (c_from c)). lia. Qed.
Lemma bump_le h i k : (h k ≤ bump h i k)%nat.
Proof. unfold bump. case_decide; lia. Qed.

Lemma new_step w st owner i : world_ok w → unix_inv st (bump (held w) i) (bump (handles w) i) owner → kept (net w) st →
  world_ok (mkWorld st (bump (handles w) i) (calls w) (closing w) (sent w) (got w)).
Proof.
  intros H Hi Hk. apply (more_handles w st _ owner); [done| |intros k; apply bump_le|by eapply flows_kept, H]. eapply unix_inv_ext; [exact Hi|done|done|done|intros k; apply bumps_bump|done|done].
Qed.
Lemma send_step w i t a src st owner : world_ok w → (0 < handles w i)%nat → unix_inv st (bump (held w) t) (handles w) owner → kept (net w) st →
  world_ok (mkWorld st (handles w) (mkCall i t a src None :: calls w) (closing w) (sent w) (got w)).
Proof.
  intros H Hh Hi Hk. split; [by exists owner| |by eapply flows_kept, H]. simpl. intros c [->|Hc]%elem_of_cons; [done|by apply H].
Qed.
Lemma call_alive w c : world_ok w → c ∈ calls w → (∃ s, socks (net w) !! c_from c = Some s) ∧ ∃ x, socks (net w) !! c_to c = Some x.
Proof.
  intros H Hc. destruct (wo_inv w H) as [owner Hi]. split.
  - apply (alive_of _ _ _ _ Hi). by apply H.
  - apply (handle_alive _ _ _ _ _ Hi). apply bumps_elem, elem_of_app. left. by apply list_elem_of_fmap_2.
Qed.
Lemma try_step w c1 c c2 st r : world_ok w → calls w = c1 ++ c :: c2 → send_once (net w) (c_from c) (c_to c) (c_addr c) (c_src c) = Done (st, r) →
  world_ok (mkWorld st (handles w) (c1 ++ finished c r :: c2) (closing w)
      (match r with Ok n => if n =? 0 then sent w else append (sent w) (c_to c) (mkMsg (take (Z.to_nat n) (c_src c)) (c_addr c)) | Err _ => sent w end) (got w)).
Proof.
  intros H Hc Hso. assert (c ∈ calls w) as Hcw by (rewrite Hc; apply elem_of_app; right; left). destruct (call_alive w c H Hcw) as [[s Hs] [x Hx]]. destruct (wo_inv w H) as [owner Hi].
  destruct (send_once_ok _ _ _ _ (c_from c) (c_to c) (c_addr c) (c_src c) s x Hi Hs Hx) as (st' & r' & Heq & Hi' & Hr). rewrite Hso in Heq. injection Heq as <- <-. split.
  - exists owner. eapply unix_inv_ext; [exact Hi'|done|done|done| |done|done]. apply held_eq. simpl. intros k. by rewrite Hc, !fmap_app.
  - simpl. intros d [Hd|[->|Hd]%elem_of_cons]%elem_of_app; [|by apply (wo_calls w H c)|]; apply (wo_calls w H); rewrite Hc; apply elem_of_app; [by left|right; by right].
  - simpl. destruct r as [n|e]; [|subst st; apply H]. destruct Hr as (_ & _ & _ & _ & [(-> & _ & ->)|[Hn (y & q & Hy & Hcl & _ & -> & Hm)]]); [apply H|]. destruct (Z.eqb_spec n 0) as [|_]; [lia|]. destruct (wo_flows w H) as [Hf Hfl].
    eapply flows_upd; [exact (wo_flows w H)|exact Hy|apply (ui_fresh _ _ _ _ Hi); eauto|intros j Hj; split; [by apply append_ne|done]|]. rewrite append_eq. by eapply flow_send, Hm; [apply Hfl|].
Qed.
Lemma sent_step w c1 c c2 r : world_ok w → calls w = c1 ++ c :: c2 → world_ok (mkWorld (send_end (net w) (c_to c) r) (handles w) (c1 ++ c2) (closing w) (sent w) (got w)).
Proof.
  intros H Hc. destruct (wo_inv w H) as [owner Hi]. set (refs := bumps (handles w) ((c_to <$> (c1 ++ c2)) ++ closing w)).
  assert (unix_inv (net w) (bump refs (c_to c)) (handles w) owner) as Hb.
  { eapply unix_inv_ext; [exact Hi|done|done|done| |done|done]. intros k. unfold refs, held. rewrite Hc. unfold bump. rewrite !bumps_count, !fmap_app, fmap_cons, !count_occ_app. simpl. destruct (Z.eq_dec (c_to c) k), (decide (k = c_to c)); try congruence; lia. }
  destruct (send_end_ok _ refs _ _ _ r Hb) as [Ho Hk]; [unfold refs; rewrite bumps_count; lia|]. split; [exact Ho| |by eapply flows_kept, H].
  simpl. intros d [Hd|Hd]%elem_of_app; apply (wo_calls w H); rewrite Hc; apply elem_of_app; [by left|right; by right].
Qed.
Lemma recv_step w i len trunc st r : world_ok w → (0 < handles w i)%nat → 0 ≤ len → recv_once (net w) i len trunc = Done (st, Ok r) →
  world_ok (mkWorld st (handles w) (calls w) (closing w) (sent w) (if bool_decide (r = eof) then got w else append (got w) i r)).
Proof.
  intros H Hh Hl Hr. destruct (wo_inv w H) as [owner Hi]. destruct (alive_of _ _ _ _ Hi i Hh) as [s Hs]. destruct (recv_ok _ _ _ _ i s len trunc Hi Hs Hl) as (st' & r' & Heq & Hi' & Hsp). rewrite Hr in Heq. injection Heq as <- <-.
  split; [by exists owner|apply H|]. simpl. destruct Hsp as [(-> & -> & _)|(q & -> & Hc & _ & Hd)]; [rewrite bool_decide_true by done; apply H|].
  assert (flow_ok (kind s) q (sent w i) (if bool_decide (r = eof) then got w i else got w i ++ [r])) as Hf by (eapply flow_recv; [by apply (wo_flows w H)|done|exact Hd]).
  eapply flows_upd; [exact (wo_flows w H)|exact Hs|apply (ui_fresh _ _ _ _ Hi); eauto|intros j Hj; split; [done|]; destruct (bool_decide (r = eof)); [done|by apply append_ne]|].
  destruct (bool_decide (r = eof)); [done|by rewrite append_eq].
Qed.
Lemma drop_step w i st : world_ok w → (0 < handles w i)%nat → (∀ c, c ∈ calls w → c_from c = i → (1 < handles w i)%nat) → unix_drop (net w) i = Done st →
  world_ok (mkWorld st (unbump (handles w) i) (calls w) (i :: closing w) (sent w) (got w)).
Proof.
  intros H Hh Hcs Hd. destruct (wo_inv w H) as [owner Hi]. destruct (drop_ok _ _ _ _ i Hi Hh) as (st' & Heq & [owner' Hi'] & Hk). rewrite Hd in Heq. injection Heq as <-. split.
  - exists owner'. simpl. assert (∀ k, unbump (handles w) i k ≤ handles w k)%nat as Hle by (intros k; unfold unbump; case_decide; lia).
    apply (rehandle_inv _ _ (handles w)); [|intros k; apply bumps_mono|intros k Hz _; specialize (Hle k); lia]. eapply unix_inv_ext; [exact Hi'|done|done|done| |done|done].
    apply (held_eq w (unbump (handles w) i) (calls w) (i :: closing w)). intros k. rewrite !count_occ_app. simpl. unfold unbump. destruct (Z.eq_dec i k) as [->|Hn]; [rewrite decide_True by done; lia|rewrite decide_False by done; lia].
  - simpl. intros c Hc. unfold unbump. case_decide as Heq; [|by apply H]. pose proof (Hcs c Hc Heq). rewrite Heq. lia.
  - by eapply flows_kept, H.
Qed.
Lemma gone_step w l1 i l2 : world_ok w → closing w = l1 ++ i :: l2 → world_ok (mkWorld (arc_drop (net w) i) (handles w) (calls w) (l1 ++ l2) (sent w) (got w)).
Proof.
  intros H Hc. destruct (wo_inv w H) as [owner Hi]. set (refs := bumps (handles w) ((c_to <$> calls w) ++ l1 ++ l2)).
  assert (unix_inv (net w) (bump refs i) (handles w) owner) as Hb.
  { eapply unix_inv_ext; [exact Hi|done|done|done| |done|done]. intros k. unfold refs, held. rewrite Hc. unfold bump. rewrite !bumps_count, !count_occ_app. simpl. destruct (Z.eq_dec i k), (decide (k = i)); try congruence; lia. }
  destruct (gone_ok _ refs _ _ i Hb) as [Ho Hk]; [unfold refs; rewrite bumps_count; lia|]. split; [exact Ho|apply H|by eapply flows_kept, H].
Qed.

Lemma ustep_ok w w' : world_ok w → ustep w w' → world_ok w'.
Proof.
  intros H Hst. destruct (wo_inv w H) as [owner Hi]. destruct Hst as [k p st i Hn|k p st l r Hn|i Hh|i a c st r Hh He|i a st r Hh He|i st r Hh He|i b Hh|i s st n Hh Hs Hc He|i to src s st t Hh Hs He|c1 c c2 st r Hc Hr He|c waker Hc Hr He|c1 c c2 r Hc Hr|i len trunc st r Hh Hl He|i Hh|i waker events st Hh He|i how st Hh He|i st Hh Hcs He|l1 i l2 Hc].
  - destruct (new_ok _ _ _ _ Hi k p st i Hn) as [Hi' Hk]. by eapply new_step.
  - destruct (pair_ok _ _ _ _ k p st l r Hi Hn) as [Hi' Hk]. apply (more_handles w st _ owner); [done| |intros j; etrans; apply bump_le|by eapply flows_kept, H].
    eapply unix_inv_ext; [exact Hi'|done|done|done| |done|done]. intros j. rewrite bumps_bump. unfold bump at 1. rewrite bumps_bump. done.
  - eapply new_step; [done| |by apply kept_upd]. destruct (alive_of _ _ _ _ Hi i Hh) as [s Hs]. apply (rehandle_inv _ _ (handles w)); [apply arc_clone_inv; eauto| |].
    + intros j. pose proof (ui_handles _ _ _ _ Hi j). unfold bump. case_decide; lia.
    + intros j Hz Ho. rewrite bump_ne; [done|]. intros ->. lia.
  - destruct (bind_ok _ _ _ _ Hi i a c Hh) as (st' & r' & Heq & Hi' & Hk). rewrite He in Heq. injection Heq as <- <-. eapply net_ok; [done|exact Hi'|by eapply flows_kept, H].
  - destruct (connect_ok _ _ _ _ i a Hi Hh) as (st' & r' & Heq & [owner' Hi'] & Hk). rewrite He in Heq. injection Heq as <- <-. eapply net_ok; [done|exact Hi'|by eapply flows_kept, H].
  - destruct (listen_ok _ _ _ _ Hi i Hh) as (st' & r' & Heq & Hi' & Hk). rewrite He in Heq. injection Heq as <- <-. eapply net_ok; [done|exact Hi'|by eapply flows_kept, H].
  - eapply net_ok; [done| |eapply flows_kept, H; by apply kept_upd]. apply neutral_inv; [exact Hi|intros x; by repeat split|done|]. intros x Hx. exact (ui_queue _ _ _ _ Hi i x Hx).
  - destruct (accept_ok _ _ _ _ Hi i Hh) as (st' & r' & Heq & Hk & Hr). rewrite He in Heq. injection Heq as <- <-. destruct Hr as [owner' Hi']. by eapply new_step.
  - destruct (send_begin_ok _ _ _ _ i to Hi Hh) as (st' & r' & Heq & Hk & Hr). rewrite He in Heq. injection Heq as <- <-. destruct Hr as [Hi' _]. by eapply send_step.
  - by eapply try_step.
  - eapply net_ok; [done|by apply register_write_inv|]. eapply flows_kept, H. unfold register_write. destruct (socks (net w) !! c_to c) as [x|]; [|done]. destruct (poll_register waker (write_poll x)). apply kept_same, polls_same.
  - by apply sent_step.
  - by eapply recv_step.
  - eapply net_ok; [done|by apply wake_write_inv|]. eapply flows_kept, H. apply kept_same, wake_write_same.
  - destruct (register_ok _ _ _ _ i waker events Hi Hh) as (st' & Heq & Hi' & Hk). rewrite He in Heq. injection Heq as <-. eapply net_ok; [done|exact Hi'|by eapply flows_kept, H].
  - destruct (shutdown_ok _ _ _ _ i how Hi Hh) as (st' & Heq & Hi' & Hk). rewrite He in Heq. injection Heq as <-. eapply net_ok; [done|exact Hi'|by eapply flows_closed, H].
  - by apply drop_step.
  - by apply gone_step.
Qed.
Lemma reach_ok w : rtc ustep world_init w → world_ok w.
Proof. intros Hr. assert (∀ v, rtc ustep v w → world_ok v → world_ok w) as Hind by (clear; intros v Hr; induction Hr as [|x y z Hxy Hyz IH]; [done|]; intros Hx; eapply IH, ustep_ok, Hxy; done). eapply Hind; [exact Hr|apply unix_init_ok]. Qed.

(** ** Only sockets with a handle are bound *)

Definition bound_handles (st : Unix) (h : Z → nat) : Prop := ∀ a i, UNIX_BINDS st !! a = Some i → (0 < h i)%nat.
Lemma bound_same st st' h h' : bound_handles st h → UNIX_BINDS st' = UNIX_BINDS st → (∀ i, h i ≤ h' i)%nat → bound_handles st' h'.
Proof. intros H Hb Hle a i. rewrite Hb. intros Ha. pose proof (H a i Ha). specialize (Hle i). lia. Qed.
Lemma binds_drop fuel st i : UNIX_BINDS (arc_drop_fuel fuel st i) = UNIX_BINDS st.
Proof.
  revert st i. induction fuel as [|fuel IH]; intros st i; simpl; destruct (socks st !! i) as [s|]; try done; destruct (strong s =? 1)%nat; try done.
  trans (UNIX_BINDS (with_socks st (delete i (socks st)))); [|done]. generalize (with_socks st (delete i (socks st))). induction (pending s) as [|n l IHl]; intros st'; simpl; [done|]. by rewrite IHl, IH.
Qed.
Lemma binds_polls st st' : same_but_polls st st' → UNIX_BINDS st' = UNIX_BINDS st.
Proof. by intros (? & _). Qed.
Lemma binds_bind st i a c st' r : bind st i a c = Done (st', r) → UNIX_BINDS st' = UNIX_BINDS st ∨ UNIX_BINDS st' = <[a := i]> (UNIX_BINDS st).
Proof.
  unfold bind. destruct (bool_decide (a = Unnamed)); [intros [= <- _]; by left|]. destruct (socks st !! i) as [s|]; simpl; [|done]. destruct (negb _); [intros [= <- _]; by left|]. destruct (UNIX_BINDS st !! a); [intros [= <- _]; by left|].
  destruct (match a with PathAddr _ => c | _ => Ok tt end); [|intros [= <- _]; by left]. intros [= <- _]. by right.
Qed.
Lemma binds_connect st i a st' r : connect st i a = Done (st', r) → UNIX_BINDS st' = UNIX_BINDS st.
Proof.
  unfold connect. destruct (bound_peer st a) as [q|]; [|by intros [= <- _]]. destruct (socks st !! q) as [x|]; simpl; [|done]. destruct (socks st !! i) as [s|]; simpl; [|done]. destruct (negb _); [by intros [= <- _]|].
  destruct (peer_ref s); [by intros [= <- _]|]. destruct (is_connection_oriented s); [|by intros [= <- _]]. destruct (negb _); [by intros [= <- _]|]. intros [= <- _]. by rewrite (binds_polls _ _ (wake_accept_same _ _)).
Qed.
Lemma binds_listen st i st' r : listen st i = Done (st', r) → UNIX_BINDS st' = UNIX_BINDS st.
Proof. unfold listen. destruct (socks st !! i); simpl; [|done]. destruct (negb _); [by intros [= <- _]|]. destruct (bool_decide _); by intros [= <- _]. Qed.
Lemma binds_send_begin st refs h owner i to st' t : unix_inv st refs h owner → (0 < h i)%nat → send_begin st i to = Done (st', Ok t) → UNIX_BINDS st' = UNIX_BINDS st.
Proof. intros H Hh He. destruct (send_begin_ok _ _ _ _ i to H Hh) as (? & ? & Heq & _ & Hr). rewrite He in Heq. injection Heq as <- <-. by destruct Hr as [_ ->]. Qed.
Lemma binds_close st i : UNIX_BINDS (close_recv st i) = UNIX_BINDS st.
Proof. unfold close_recv. by rewrite (binds_polls _ _ (wake_write_same _ _)), (binds_polls _ _ (wake_recv_same _ _)). Qed.
Lemma binds_shutdown st i how st' : shutdown st i how = Done st' → UNIX_BINDS st' = UNIX_BINDS st.
Proof.
  unfold shutdown. assert (UNIX_BINDS (if has_read how then close_recv st i else st) = UNIX_BINDS st) as E by (destruct (has_read how); [apply binds_close|done]). revert E. generalize (if has_read how then close_recv st i else st). intros st1 E.
  destruct (socks st1 !! i) as [s|]; simpl; [|done]. destruct (has_write how); intros [= <-]; [|done]. destruct (peer _ s) as [p|]; [by rewrite (binds_polls _ _ (wake_recv_same _ _))|done].
Qed.
Lemma binds_register st i w events st' : unix_register st i w events = Done st' → UNIX_BINDS st' = UNIX_BINDS st.
Proof.
  unfold unix_register. assert (UNIX_BINDS (if intersects events IN_RDNORM then register_recv st i w else st) = UNIX_BINDS st) as E.
  { destruct (intersects events IN_RDNORM); [|done]. unfold register_recv. destruct (socks st !! i) as [s|]; [|done]. by destruct (poll_register w (recv_poll s)), (poll_register w (accept_poll s)). }
  revert E. generalize (if intersects events IN_RDNORM then register_recv st i w else st). intros st1 E. destruct (socks st1 !! i) as [s|]; simpl; [|done]. intros [= <-]. destruct (intersects events OUT_WRNORM); [|done].
  destruct (peer st1 s) as [p|]; [|done]. unfold register_write. destruct (socks st1 !! p) as [x|]; [|done]. by destruct (poll_register w (write_poll x)).
Qed.
(** The body of a drop leaves no binding of the socket. *)
Lemma binds_unix_drop st refs h owner i st' : unix_inv st refs h owner → unix_drop st i = Done st' →
  (∀ a, UNIX_BINDS st' !! a ≠ Some i) ∧ ∀ a j, UNIX_BINDS st' !! a = Some j → UNIX_BINDS st !! a = Some j.
Proof.
  intros H. unfold unix_drop. destruct (socks st !! i) as [s|] eqn:Hs; simpl; [|done].
  set (st1 := match peer st s with Ok p => wake_write (wake_recv st p) p | Err _ => st end). set (st2 := wake_accept (wake_write (wake_recv st1 i) i) i).
  assert (UNIX_BINDS st2 = UNIX_BINDS st) as E2.
  { unfold st2. rewrite (binds_polls _ _ (wake_accept_same _ _)), (binds_polls _ _ (wake_write_same _ _)), (binds_polls _ _ (wake_recv_same _ _)). unfold st1. destruct (peer st s); [by rewrite (binds_polls _ _ (wake_write_same _ _)), (binds_polls _ _ (wake_recv_same _ _))|done]. }
  assert (∀ a, UNIX_BINDS st !! a = Some i → a ≠ Unnamed ∧ local_addr s = a) as Hloc by (intros a Ha; destruct (ui_binds _ _ _ _ H a i Ha) as (? & x & ? & ?); split; congruence).
  intros [= <-]. destruct (bool_decide_reflect (local_addr s = Unnamed)) as [Hu|Hu]; [rewrite E2; split; [intros a Ha; by destruct (Hloc a Ha); congruence|done]|].
  destruct (bool_decide_reflect (UNIX_BINDS st2 !! local_addr s = Some i)) as [Hb|Hb]; rewrite E2 in Hb.
  - unfold arc_drop. rewrite binds_drop. simpl. rewrite E2. split; [intros a [Hne Ha]%lookup_delete_Some; by destruct (Hloc a Ha)|by intros a j [_ ?]%lookup_delete_Some].
  - rewrite E2. split; [intros a Ha; destruct (Hloc a Ha); congruence|done].
Qed.
Lemma bound_step w w' : world_ok w → bound_handles (net w) (handles w) → ustep w w' → bound_handles (net w') (handles w').
Proof.
  intros H Hb Hst. destruct (wo_inv w H) as [owner Hi]. destruct Hst as [k p st i Hn|k p st l r Hn|i Hh|i a c st r Hh He|i a st r Hh He|i st r Hh He|i b Hh|i s st n Hh Hs Hc He|i to src s st t Hh Hs He|c1 c c2 st r Hc Hr He|c waker Hc Hr He|c1 c c2 r Hc Hr|i len trunc st r Hh Hl He|i Hh|i waker events st Hh He|i how st Hh He|i st Hh Hcs He|l1 i l2 Hc]; simpl.
  - injection Hn as <- <-. eapply bound_same; [exact Hb|done|apply bump_le].
  - unfold new_pair in Hn. simpl in Hn. injection Hn as <- <- <-. eapply bound_same; [exact Hb|done|intros j; etrans; apply bump_le].
  - eapply bound_same; [exact Hb|done|apply bump_le].
  - apply binds_bind in He as [He|He]; [by eapply bound_same|]. intros b j. simpl. rewrite He. intros [[_ <-]|[_ Hj]]%lookup_insert_Some; [done|by apply (Hb b)].
  - eapply bound_same; [exact Hb|by eapply binds_connect|done].
  - eapply bound_same; [exact Hb|by eapply binds_listen|done].
  - by eapply bound_same.
  - eapply bound_same; [exact Hb| |apply bump_le]. unfold accept_once in He. rewrite Hs in He. simpl in He. destruct (pending s); by injection He as <-.
  - eapply bound_same; [exact Hb|by eapply binds_send_begin|done].
  - eapply bound_same; [exact Hb| |done]. destruct (call_alive w c H) as [[s Hs] [x Hx]]; [rewrite Hc; apply elem_of_app; right; left|].
    destruct (send_once_ok _ _ _ _ _ _ (c_addr c) (c_src c) s x Hi Hs Hx) as (st' & r' & Heq & _ & Hr'). rewrite He in Heq. injection Heq as <- <-.
    destruct r; [|by subst]. by destruct Hr' as (_ & _ & _ & _ & [(_ & _ & ->)|[_ (? & ? & _ & _ & _ & -> & _)]]).
  - eapply bound_same; [exact Hb| |done]. unfold register_write. destruct (socks (net w) !! c_to c) as [x|]; [|done]. by destruct (poll_register waker (write_poll x)).
  - eapply bound_same; [exact Hb| |done]. unfold send_end, arc_drop. rewrite binds_drop. destruct r; [apply binds_polls, wake_recv_same|done].
  - eapply bound_same; [exact Hb| |done]. destruct (alive_of _ _ _ _ Hi i Hh) as [s Hs]. destruct (recv_ok _ _ _ _ i s len trunc Hi Hs Hl) as (st' & r' & Heq & _ & Hr). rewrite He in Heq. injection Heq as <- <-.
    by destruct Hr as [(_ & -> & _)|(q & -> & _)].
  - eapply bound_same; [exact Hb|apply binds_polls, wake_write_same|done].
  - eapply bound_same; [exact Hb|by eapply binds_register|done].
  - eapply bound_same; [exact Hb|by eapply binds_shutdown|done].
  - intros a j Ha. destruct (binds_unix_drop _ _ _ _ i st Hi He) as [H1 H2]. unfold unbump. rewrite decide_False by (intros ->; by destruct (H1 a)). by apply (Hb a), H2.
  - eapply bound_same; [exact Hb|apply binds_drop|done].
Qed.
Lemma reach_bound w : rtc ustep world_init w → bound_handles (net w) (handles w).
Proof.
  intros Hr. assert (∀ v, rtc ustep v w → world_ok v → bound_handles (net v) (handles v) → bound_handles (net w) (handles w)) as Hind.
  { clear. intros v Hr. induction Hr as [|x y z Hxy Hyz IH]; [done|]. intros Hx Hb. apply IH; [by eapply ustep_ok|by eapply bound_step]. }
  eapply Hind; [exact Hr|apply unix_init_ok|]. by intros a i Ha.
Qed.
(** Without handles and calls no socket is left. *)
Lemma no_socket_left w : world_ok w → bound_handles (net w) (handles w) → (∀ i, handles w i = 0%nat) → calls w = [] → closing w = [] → socks (net w) = ∅ ∧ UNIX_BINDS (net w) = ∅.
Proof.
  intros H Hb Hh Hc Hcl. destruct (wo_inv w H) as [owner Hi]. assert (∀ a i, UNIX_BINDS (net w) !! a ≠ Some i) as Hnb by (intros a i Ha; specialize (Hb a i Ha); rewrite Hh in Hb; lia).
  assert (∀ i, held w i = 0%nat) as Hz by (intros i; unfold held; rewrite Hc, Hcl; apply Hh). assert (∀ i s, socks (net w) !! i = Some s → is_Some (owner i)) as Ho.
  { intros i s Hs. destruct (ui_strong _ _ _ _ Hi i s Hs) as [H1 H2]. rewrite Hz in H1. unfold bound in H1. rewrite one_if_no in H1 by apply Hnb. destruct (owner i); [eauto|]. rewrite one_if_no in H1 by (by intros [? ?]). lia. }
  split; apply map_empty; [|intros a; destruct (UNIX_BINDS (net w) !! a) as [i|] eqn:E; [by destruct (Hnb a i)|done]].
  intros i. destruct (socks (net w) !! i) as [s|] eqn:Hs; [|done]. destruct (Ho i s Hs) as [j Hj]. destruct (ui_owned _ _ _ _ Hi i j Hj) as ([x Hx] & _). destruct (Ho j x Hx) as [m Hm].
  destruct (ui_owned _ _ _ _ Hi j m Hm) as (_ & _ & _ & y & Hy & Hp). assert (y = x) as -> by congruence. apply (ui_pending _ _ _ _ Hi j x i Hx) in Hj. rewrite Hp in Hj. by apply elem_of_nil in Hj.
Qed.

Definition returns {A} (c : comp A) : Prop := ∃ a, c = Done a.


(** [C19] A socket delivers what it was sent, in order: of a stream, the bytes that all
    receiving calls returned, followed by those in its queue, are the bytes that the
    sending calls put there; of a datagram or seqpacket socket, each received message
    is a prefix of the message sent in its place, with its sender, and the messages
    after these are in the queue.  Only a queue closed by [SHUT_RD] loses bytes. *)
Theorem unix_order w j s : rtc ustep world_init w → socks (net w) !! j = Some s →
  (kind s = Stream → ∃ rest, concat (data <$> sent w j) = concat (rc_bytes <$> got w j) ++ rest ∧ (recv_closed s = false → rest = flat_queue (recv_queue s))) ∧
  (kind s ≠ Stream → ∃ past rest, sent w j = past ++ rest ∧ Forall2 delivers (got w j) past ∧ (recv_closed s = false → rest = messages (recv_queue s))).
Proof.
  intros Hr Hs. destruct (wo_flows w (reach_ok w Hr)) as [_ Hf]. specialize (Hf j s Hs). unfold flow_ok in Hf. unfold recv_closed. destruct (bool_decide_reflect (kind s = Stream)); by split.
Qed.

(** ** A conversation *)

Definition run_or (st : Unix) (c : comp (Unix * result SysErrNo Z)) : Unix := match c with Done (st', _) => st' | Panic => st end.
Definition demo_pair : World := mkWorld (new_pair unix_init Stream 7).1.1 (bump (bump (λ _, 0%nat) 0) 1) [] [] (λ _, []) (λ _, []).
Definition demo_call : Call := mkCall 0 1 Unnamed [10; 20; 30] None.
Definition demo_begun : World := mkWorld (arc_clone (net demo_pair) 1) (handles demo_pair) [demo_call] [] (λ _, []) (λ _, []).
Definition demo_tried : World :=
  mkWorld (run_or (net demo_begun) (send_once (net demo_begun) 0 1 Unnamed [10; 20; 30])) (handles demo_pair) [finished demo_call (Ok 3)] [] (append (λ _, []) 1 (mkMsg [10; 20; 30] Unnamed)) (λ _, []).
Definition demo_sent : World := mkWorld (send_end (net demo_tried) 1 (Ok 3)) (handles demo_pair) [] [] (sent demo_tried) (λ _, []).
Definition demo_rest : Unix := upd (net demo_sent) 1 (set_queue (mkQueue [mkMsg [30] Unnamed] 1 false)).
Definition demo_read : World := mkWorld demo_rest (handles demo_pair) [] [] (sent demo_tried) (append (λ _, []) 1 (mkReceived [10; 20] None 2)).
Lemma demo_reach : rtc ustep world_init demo_read.
Proof.
  apply (rtc_l _ _ demo_pair); [exact (us_pair world_init Stream 7 _ 0 1 eq_refl)|].
  apply (rtc_l _ _ demo_begun); [refine (us_send demo_pair 0 None [10; 20; 30] (set_peer 1 Unnamed (inner_new Stream 7)) (net demo_begun) 1 _ _ _); vm_compute; first [lia|reflexivity]|].
  apply (rtc_l _ _ demo_tried); [refine (us_try demo_begun [] demo_call [] (net demo_tried) (Ok 3) eq_refl eq_refl _); vm_compute; reflexivity|].
  apply (rtc_l _ _ demo_sent); [exact (us_sent demo_tried [] (finished demo_call (Ok 3)) [] (Ok 3) eq_refl eq_refl)|].
  apply (rtc_l _ _ demo_read); [refine (us_recv demo_sent 1 2 false demo_rest (mkReceived [10; 20] None 2) _ _ _); [vm_compute; lia|lia|vm_compute; reflexivity]|apply rtc_refl].
Qed.

Definition demo_reader : UnixSocketInner := set_queue (mkQueue [mkMsg [30] Unnamed] 1 false) (set_peer 0 Unnamed (inner_new Stream 7)).
Lemma demo_reader_found : socks (net demo_read) !! 1 = Some demo_reader.
Proof. vm_compute. reflexivity. Qed.
Lemma unix_order_witness : rtc ustep world_init demo_read ∧ ∃ rest, concat (data <$> sent demo_read 1) = concat (rc_bytes <$> got demo_read 1) ++ rest ∧ rest = [30].
Proof.
  split; [exact demo_reach|]. destruct (unix_order demo_read 1 demo_reader demo_reach demo_reader_found) as [H _]. destruct (H eq_refl) as (rest & H1 & H2). exists rest. split; [exact H1|]. rewrite (H2 eq_refl). reflexivity.
Defined.

(** ** Ends that nobody is told of *)

Definition result_of {A} (c : comp (Unix * result SysErrNo A)) : option (result SysErrNo A) := match c with Done (_, r) => Some r | Panic => None end.
Definition state_of (st : Unix) (c : comp Unix) : Unix := match c with Done st' => st' | Panic => st end.
Definition stream_pair : Unix := (new_pair unix_init Stream 7).1.1.

(** After [shutdown(SHUT_WR)] of a socket its peer finds an empty queue and waits: the
    end of the stream is only seen when the socket is gone. *)
Lemma shut_write_no_eof :
  result_of (recv_once (state_of stream_pair (shutdown stream_pair 0 ShutWrite)) 1 8 false) = Some (Err EAGAIN) ∧
  result_of (recv_once (state_of stream_pair (close_handle stream_pair 0)) 1 8 false) = Some (Ok eof).
Proof. vm_compute. by split. Qed.

(** A drop wakes the reader of the peer and then gives its reference back: a reader
    that looks in between waits again, and nothing wakes it when the socket has gone. *)
Definition waiting_reader : Unix := register_recv stream_pair 1 55.
Definition dropped_body : Unix := state_of waiting_reader (unix_drop waiting_reader 0).
Definition waiting_again : Unix := register_recv dropped_body 1 55.
Lemma close_lost_wakeup :
  woken dropped_body = [55] ∧ result_of (recv_once dropped_body 1 8 false) = Some (Err EAGAIN) ∧
  woken (arc_drop waiting_again 0) = [55] ∧ recv_poll <$> socks (arc_drop waiting_again 0) !! 1 = Some [55] ∧
  result_of (recv_once (arc_drop waiting_again 0) 1 8 false) = Some (Ok eof).
Proof. vm_compute. by repeat split. Qed.

(** A sender that waits for space holds the socket it sends to.  When the reader
    drops its handle the sender is woken, finds the queue full and open, and waits for
    a reader that no longer exists. *)
Definition full_pair : Unix := run_or stream_pair (send_once stream_pair 0 1 Unnamed (replicate (Z.to_nat UNIX_BUF_SIZE) 0)).
Definition blocked_sender : Unix := register_write (arc_clone full_pair 1) 1 44.
Definition reader_closed : Unix := state_of blocked_sender (close_handle blocked_sender 1).
Lemma blocked_sender_left :
  woken reader_closed = [44] ∧ result_of (send_once reader_closed 0 1 Unnamed [1]) = Some (Err EAGAIN) ∧ strong <$> socks reader_closed !! 1 = Some 1%nat.
Proof. vm_compute. by repeat split. Qed.

(** A listener that closes drops the connections nobody accepted; their clients, which
    may already wait for an answer, are not woken. *)
Definition listener : Unix :=
  let st := (unix_new (unix_new unix_init Stream 7).1 Stream 8).1 in
  let st := match bind st 0 (Abstract [1]) (Ok tt) with Done (st, _) => st | Panic => st end in
  match listen st 0 with Done (st, _) => st | Panic => st end.
Definition connected : Unix := match connect listener 1 (Abstract [1]) with Done (st, _) => st | Panic => listener end.
Definition client_waits : Unix := register_recv connected 1 66.
Definition listener_closed : Unix := state_of client_waits (close_handle client_waits 0).
Lemma pending_client_not_woken :
  result_of (recv_once client_waits 1 8 false) = Some (Err EAGAIN) ∧ woken listener_closed = [] ∧
  recv_poll <$> socks listener_closed !! 1 = Some [66] ∧ result_of (recv_once listener_closed 1 8 false) = Some (Ok eof) ∧ size (socks listener_closed) = 1%nat.
Proof. vm_compute. by repeat split. Qed.
