(* ===== verification/PosixMq.v ===== *)
(** * POSIX message queues

    [fs/files/mqueue.rs] and [syscall/fs/mqueue.rs].  A queue is shared by the
    registry of names and by open descriptors; [MQUEUE_TABLE] maps descriptor
    numbers, of whatever process, to queues it does not keep alive.  The
    descriptors of all processes that refer to queues are in [fds].  What is read
    from and written to user memory, and the allocation of a descriptor number, are
    arguments.

    The lookup of a name in [sys_mq_open] is the scrutinee of an [if let], so its lock
    is held in the [else] branch too, where the insertion takes the same spin lock: a
    call that would create a queue never returns.  [None] stands for this. *)

From S2P Require Import Prelude Errno Bytes.

Record MqMessage : Type := mkMqMsg { mq_data : list Z; mq_prio : Z }.
Record MqueueInner : Type := mkMq { mq_queue : list MqMessage; maxmsg : Z; mq_msgsize : Z; unlinked : bool; mq_nonblocking : bool }.
Record Mqs : Type := mkMqs {
  mqs : gmap Z MqueueInner; MQUEUE_TABLE : gmap Z Z; NAME_REGISTRY : gmap string Z; fds : gmap (Z * Z) Z }.
Definition mqs_init : Mqs := mkMqs ∅ ∅ ∅ ∅.

Definition with_mqs (st : Mqs) (m : gmap Z MqueueInner) : Mqs := mkMqs m (MQUEUE_TABLE st) (NAME_REGISTRY st) (fds st).
Definition with_registry (st : Mqs) (r : gmap string Z) : Mqs := mkMqs (mqs st) (MQUEUE_TABLE st) r (fds st).
Definition upd_mq (st : Mqs) (id : Z) (f : MqueueInner → MqueueInner) : Mqs := with_mqs st (alter f id (mqs st)).
Definition with_queue (q : list MqMessage) (m : MqueueInner) : MqueueInner := mkMq q (maxmsg m) (mq_msgsize m) (unlinked m) (mq_nonblocking m).

(** ** The object *)

Definition mqueue_new (maxm msgs : Z) : MqueueInner :=
  mkMq [] (if maxm =? 0 then 10 else maxm) (if msgs =? 0 then 8192 else msgs) false false.
Definition register_fd (st : Mqs) (fd id : Z) : Mqs := mkMqs (mqs st) (<[fd := id]> (MQUEUE_TABLE st)) (NAME_REGISTRY st) (fds st).
(** Some strong reference is left. *)
Definition mq_alive (st : Mqs) (id : Z) : bool :=
  existsb (λ p, p.2 =? id) (map_to_list (NAME_REGISTRY st)) || existsb (λ p, p.2 =? id) (map_to_list (fds st)).
Definition mq_lookup (st : Mqs) (fd : Z) : result SysErrNo Z :=
  ok_or EBADF (match MQUEUE_TABLE st !! fd with Some id => if mq_alive st id then Some id else None | None => None end).
Definition mark_unlinked (m : MqueueInner) : MqueueInner := mkMq (mq_queue m) (maxmsg m) (mq_msgsize m) true (mq_nonblocking m).
Definition unlink_name (st : Mqs) (name : string) : Mqs * bool :=
  match NAME_REGISTRY st !! name with
  | Some id => (upd_mq (with_registry st (delete name (NAME_REGISTRY st))) id mark_unlinked, true)
  | None => (st, false)
  end.
Definition mq_try_send (m : MqueueInner) (data : list Z) (prio : Z) : MqueueInner * SyscallRet :=
  if maxmsg m <=? Z.of_nat (length (mq_queue m)) then (m, Err EAGAIN)
  else if mq_msgsize m <? data_len data then (m, Err EMSGSIZE)
  else (with_queue (mq_queue m ++ [mkMqMsg data prio]) m, Ok 0).
(** The bytes that land in a buffer of [len] bytes. *)
Definition mq_try_receive (m : MqueueInner) (len : Z) : MqueueInner * result SysErrNo (list Z * Z) :=
  match mq_queue m with
  | [] => (m, Err EAGAIN)
  | msg :: q => (with_queue q m, Ok (take (Z.to_nat (Z.min len (data_len (mq_data msg)))) (mq_data msg), data_len (mq_data msg)))
  end.
Definition mq_set_nonblocking (b : bool) (m : MqueueInner) : MqueueInner := mkMq (mq_queue m) (maxmsg m) (mq_msgsize m) (unlinked m) b.

Record MqAttr : Type := mkAttr { a_flags : Z; a_maxmsg : Z; a_msgsize : Z; a_curmsgs : Z }.
Definition get_attr (m : MqueueInner) : MqAttr := mkAttr (if mq_nonblocking m then 2048 else 0) (maxmsg m) (mq_msgsize m) (Z.of_nat (length (mq_queue m))).
Definition mq_poll (m : MqueueInner) (events : Z) : Z :=
  Z.lor (if contains events 1 && negb (bool_decide (mq_queue m = [])) then 1 else 0)
        (if contains events 4 && (Z.of_nat (length (mq_queue m)) <? maxmsg m) then 4 else 0).

(** ** The system calls *)

Definition MQ_CREATE : Z := 64.
Definition MQ_EXCL : Z := 128.
Definition MQ_NONBLOCK : Z := 2048.
Definition starts_with_slash (s : string) : bool := match s with String c _ => bool_decide (c = Ascii.ascii_of_nat 47) | EmptyString => false end.
(** The two sizes of the attributes; [attr] is [None] for a null pointer. *)
Definition open_sizes (attr : option (result SysErrNo (Z * Z))) : result SysErrNo (Z * Z) :=
  match attr with
  | None => Ok (10, 8192)
  | Some (Err e) => Err e
  | Some (Ok (m, s)) => Ok (if 0 <? m then m else 10, if 0 <? s then s else 8192)
  end.
(** The queue of a name; where it is to be made, the lock is taken twice. *)
Definition open_queue (st : Mqs) (name : string) (create : bool) : option (result SysErrNo Z) :=
  match NAME_REGISTRY st !! name with
  | Some id => Some (Ok id)
  | None => if create then None else Some (Err ENOENT)
  end.
Definition sys_mq_open (st : Mqs) (pid : Z) (name : result SysErrNo string) (oflag : Z) (attr : option (result SysErrNo (Z * Z)))
    (alloc : result SysErrNo Z) (set : result SysErrNo unit) : option (Mqs * SyscallRet) :=
  match name with
  | Err e => Some (st, Err e)
  | Ok name =>
      if negb (starts_with_slash name) then Some (st, Err EINVAL)
      else
        match open_sizes attr with
        | Err e => Some (st, Err e)
        | Ok sizes =>
            if contains oflag MQ_CREATE && contains oflag MQ_EXCL && bool_decide (is_Some (NAME_REGISTRY st !! name)) then Some (st, Err EEXIST)
            else
              match open_queue st name (contains oflag MQ_CREATE) with
              | None => None
              | Some (Err e) => Some (st, Err e)
              | Some (Ok id) =>
                  let st := if contains oflag MQ_NONBLOCK then upd_mq st id (mq_set_nonblocking true) else st in
                  match alloc with
                  | Err e => Some (st, Err e)
                  | Ok fd =>
                      match set with
                      | Err e => Some (st, Err e)
                      | Ok _ => Some (register_fd (mkMqs (mqs st) (MQUEUE_TABLE st) (NAME_REGISTRY st) (<[(pid, fd) := id]> (fds st))) fd id, Ok fd)
                      end
                  end
              end
        end
  end.
Definition sys_mq_unlink (st : Mqs) (name : result SysErrNo string) : Mqs * SyscallRet :=
  match name with
  | Err e => (st, Err e)
  | Ok name =>
      if negb (starts_with_slash name) then (st, Err EINVAL)
      else let '(st, b) := unlink_name st name in (st, if b : bool then Ok 0 else Err ENOENT)
  end.
(** [src]: what the copy from user memory gives. *)
Definition sys_mq_timedsend (st : Mqs) (fd len : Z) (null : bool) (src : result SysErrNo (list Z)) (prio : Z) : comp (Mqs * SyscallRet) :=
  if len =? 0 then Done (st, Err EINVAL)
  else if null then Done (st, Err EFAULT)
  else
    match mq_lookup st fd with
    | Err e => Done (st, Err e)
    | Ok id =>
        match src with
        | Err e => Done (st, Err e)
        | Ok data =>
            m ← unwrap (mqs st !! id);
            let '(m, r) := mq_try_send m data prio in Done (upd_mq st id (λ _, m), r)
        end
    end.
(** [copy]: whether the message and the priority can be copied out; the priority
    written is always 0. *)
Definition sys_mq_timedreceive (st : Mqs) (fd len : Z) (null : bool) (copy : result SysErrNo unit) : comp (Mqs * result SysErrNo (list Z * Z)) :=
  if len =? 0 then Done (st, Err EINVAL)
  else if null then Done (st, Err EFAULT)
  else
    match mq_lookup st fd with
    | Err e => Done (st, Err e)
    | Ok id =>
        m ← unwrap (mqs st !! id);
        let '(m, r) := mq_try_receive m len in
        let st := upd_mq st id (λ _, m) in
        Done (st, match r with Ok x => match copy with Ok _ => Ok x | Err e => Err e end | Err e => Err e end)
    end.
(** A descriptor goes; the table keeps its number. *)
Definition mq_close (st : Mqs) (pid fd : Z) : Mqs := mkMqs (mqs st) (MQUEUE_TABLE st) (NAME_REGISTRY st) (delete (pid, fd) (fds st)).

(** ** Histories

    [q_sent]: the messages put into each queue; [q_got]: for each message taken out the
    bytes and the length its receiver got, or nothing when the copy failed. *)

Record MqWorld : Type := mkMqWorld { mw : Mqs; q_sent : Z → list MqMessage; q_got : Z → list (option (list Z * Z)) }.
Definition log {A} (f : Z → list A) (i : Z) (l : list A) : Z → list A := λ j, if decide (j = i) then f j ++ l else f j.
Inductive mqstep (w : MqWorld) : MqWorld → Prop :=
| mqs_open pid name oflag attr alloc set st r : sys_mq_open (mw w) pid name oflag attr alloc set = Some (st, r) → mqstep w (mkMqWorld st (q_sent w) (q_got w))
| mqs_unlink name st r : sys_mq_unlink (mw w) name = (st, r) → mqstep w (mkMqWorld st (q_sent w) (q_got w))
| mqs_close pid fd : mqstep w (mkMqWorld (mq_close (mw w) pid fd) (q_sent w) (q_got w))
| mqs_send fd len null data prio id st r : mq_lookup (mw w) fd = Ok id → sys_mq_timedsend (mw w) fd len null (Ok data) prio = Done (st, r) →
    mqstep w (mkMqWorld st (match r with Ok _ => log (q_sent w) id [mkMqMsg data prio] | Err _ => q_sent w end) (q_got w))
| mqs_receive fd len null copy id m st r : mq_lookup (mw w) fd = Ok id → mqs (mw w) !! id = Some m → 0 ≤ len → sys_mq_timedreceive (mw w) fd len null copy = Done (st, r) →
    mqstep w (mkMqWorld st (q_sent w) (log (q_got w) id (if bool_decide (len = 0) || null || bool_decide (mq_queue m = []) then [] else [match r with Ok x => Some x | Err _ => None end]))).

(** A message and what its receiver got of it. *)
Definition taken (g : option (list Z * Z)) (m : MqMessage) : Prop :=
  match g with Some (bytes, n) => bytes `prefix_of` mq_data m ∧ n = data_len (mq_data m) | None => True end.
Record mq_ok (sent : list MqMessage) (got : list (option (list Z * Z))) (m : MqueueInner) : Prop := {
  mo_flow : ∃ past, sent = past ++ mq_queue m ∧ Forall2 taken got past;
  mo_len : Z.of_nat (length (mq_queue m)) ≤ maxmsg m;
  mo_size x : x ∈ mq_queue m → data_len (mq_data x) ≤ mq_msgsize m }.
Record mq_inv (w : MqWorld) : Prop := {
  mi_ok i m : mqs (mw w) !! i = Some m → mq_ok (q_sent w i) (q_got w i) m;
  mi_names n i : NAME_REGISTRY (mw w) !! n = Some i → is_Some (mqs (mw w) !! i);
  mi_table fd i : MQUEUE_TABLE (mw w) !! fd = Some i → is_Some (mqs (mw w) !! i) }.

Lemma mq_lookup_some st fd id : mq_lookup st fd = Ok id → MQUEUE_TABLE st !! fd = Some id.
Proof. unfold mq_lookup. destruct (MQUEUE_TABLE st !! fd) as [i|]; [|done]. destruct (mq_alive st i); [|done]. by intros [= ->]. Qed.
Lemma log_eq {A} (f : Z → list A) i l : log f i l i = f i ++ l.
Proof. unfold log. by rewrite decide_True. Qed.
Lemma log_ne {A} (f : Z → list A) i l j : j ≠ i → log f i l j = f j.
Proof. intros. unfold log. by rewrite decide_False. Qed.
Lemma alter_alive {A} (f : A → A) (m : gmap Z A) i j : is_Some (alter f i m !! j) ↔ is_Some (m !! j).
Proof. destruct (decide (j = i)) as [->|Hn]; [rewrite lookup_alter_eq; by rewrite fmap_is_Some|by rewrite lookup_alter_ne]. Qed.
(** One queue moves with its history. *)
Lemma upd_mq_inv w i f sent got : mq_inv w → (∀ m, mqs (mw w) !! i = Some m → mq_ok (sent i) (got i) (f m)) → (∀ j, j ≠ i → sent j = q_sent w j ∧ got j = q_got w j) →
  mq_inv (mkMqWorld (upd_mq (mw w) i f) sent got).
Proof.
  intros H Hm Ho. split; simpl.
  - intros j m. destruct (decide (j = i)) as [->|Hne].
    + rewrite lookup_alter_eq. destruct (mqs (mw w) !! i) as [m0|] eqn:E; [|done]. intros [= <-]. by apply Hm.
    + rewrite lookup_alter_ne by done. destruct (Ho j Hne) as [-> ->]. apply H.
  - intros n j Hj. apply alter_alive. by eapply mi_names.
  - intros fd j Hj. apply alter_alive. by eapply mi_table.
Qed.
Lemma mq_ok_flags sent got m m' : mq_ok sent got m → mq_queue m' = mq_queue m → maxmsg m' = maxmsg m → mq_msgsize m' = mq_msgsize m → mq_ok sent got m'.
Proof. intros [H1 H2 H3] Hq Hm Hs. split; rewrite ?Hq, ?Hm, ?Hs; done. Qed.
Lemma same_world_inv w st : mq_inv w → mqs st = mqs (mw w) → (∀ n i, NAME_REGISTRY st !! n = Some i → is_Some (mqs (mw w) !! i)) → (∀ fd i, MQUEUE_TABLE st !! fd = Some i → is_Some (mqs (mw w) !! i)) → mq_inv (mkMqWorld st (q_sent w) (q_got w)).
Proof. intros H Hm Hr Ht. split; simpl; rewrite ?Hm; [apply H|done|done]. Qed.

Lemma open_inv w pid name oflag attr alloc set st r : mq_inv w → sys_mq_open (mw w) pid name oflag attr alloc set = Some (st, r) → mq_inv (mkMqWorld st (q_sent w) (q_got w)).
Proof.
  intros H. assert (mq_inv (mkMqWorld (mw w) (q_sent w) (q_got w))) as Hsame by (by apply same_world_inv; try apply H). unfold sys_mq_open. destruct name as [name|]; [|by intros [= <- _]].
  destruct (negb (starts_with_slash name)); [by intros [= <- _]|]. destruct (open_sizes attr) as [sizes|]; [|by intros [= <- _]]. destruct (_ && bool_decide _); [by intros [= <- _]|].
  unfold open_queue. destruct (NAME_REGISTRY (mw w) !! name) as [id|] eqn:Hn; [|destruct (contains oflag MQ_CREATE); [done|by intros [= <- _]]]. pose proof (mi_names w H name id Hn) as Hid.
  set (st2 := if contains oflag MQ_NONBLOCK then upd_mq (mw w) id (mq_set_nonblocking true) else mw w).
  assert (mq_inv (mkMqWorld st2 (q_sent w) (q_got w)) ∧ is_Some (mqs st2 !! id)) as [H2 Hid2].
  { unfold st2. destruct (contains oflag MQ_NONBLOCK); [|done]. split; [|by apply alter_alive]. apply upd_mq_inv; [done| |done]. intros m Hm. by eapply mq_ok_flags; [apply (mi_ok _ H id m Hm)|..]. }
  destruct alloc as [fd|]; [|by intros [= <- _]]. destruct set; [|by intros [= <- _]]. intros [= <- _].
  apply (same_world_inv (mkMqWorld st2 (q_sent w) (q_got w))); [done|done|apply H2|]. intros n i. simpl. intros [[_ <-]|[_ Hi]]%lookup_insert_Some; [done|by apply (mi_table _ H2 n)].
Qed.
Lemma unlink_inv w name st r : mq_inv w → sys_mq_unlink (mw w) name = (st, r) → mq_inv (mkMqWorld st (q_sent w) (q_got w)).
Proof.
  intros H. assert (mq_inv (mkMqWorld (mw w) (q_sent w) (q_got w))) as Hsame by (by apply same_world_inv; try apply H). unfold sys_mq_unlink, unlink_name. destruct name as [name|]; [|by intros [= <- _]].
  destruct (negb (starts_with_slash name)); [by intros [= <- _]|]. destruct (NAME_REGISTRY (mw w) !! name) as [id|] eqn:Hn; [|by intros [= <- _]]. intros [= <- _].
  set (st1 := with_registry (mw w) (delete name (NAME_REGISTRY (mw w)))). assert (mq_inv (mkMqWorld st1 (q_sent w) (q_got w))) as H1.
  { apply same_world_inv; [done|done| |apply H]. intros n i. simpl. intros [_ Hi]%lookup_delete_Some. by eapply mi_names. }
  apply (upd_mq_inv _ id _ (q_sent w) (q_got w) H1); [|done]. intros m Hm. by eapply mq_ok_flags; [apply (mi_ok _ H1 id m Hm)|..].
Qed.
Lemma mq_try_send_ok sent got m data prio : mq_ok sent got m → match mq_try_send m data prio with (m', Ok _) => mq_ok (sent ++ [mkMqMsg data prio]) got m' | (m', Err _) => m' = m end.
Proof.
  intros [(past & Hs & Hp) Hl Hz]. unfold mq_try_send. destruct (Z.leb_spec (maxmsg m) (Z.of_nat (length (mq_queue m)))) as [|Hlt]; [done|]. destruct (Z.ltb_spec (mq_msgsize m) (data_len data)) as [|Hle]; [done|]. split; simpl.
  - exists past. split; [by rewrite Hs, <- app_assoc|done].
  - rewrite length_app. simpl. lia.
  - intros x [Hx|Hx]%elem_of_app; [auto|]. apply list_elem_of_singleton in Hx as ->. done.
Qed.
Lemma send_inv w fd len null data prio id st r : mq_inv w → mq_lookup (mw w) fd = Ok id → sys_mq_timedsend (mw w) fd len null (Ok data) prio = Done (st, r) →
  mq_inv (mkMqWorld st (match r with Ok _ => log (q_sent w) id [mkMqMsg data prio] | Err _ => q_sent w end) (q_got w)).
Proof.
  intros H Hid. assert (mq_inv (mkMqWorld (mw w) (q_sent w) (q_got w))) as Hsame by (by apply same_world_inv; try apply H). unfold sys_mq_timedsend. destruct (len =? 0); [by intros [= <- <-]|]. destruct null; [by intros [= <- <-]|]. rewrite Hid.
  destruct (mqs (mw w) !! id) as [m|] eqn:Hm; simpl; [|done]. pose proof (mq_try_send_ok _ _ m data prio (mi_ok w H id m Hm)) as Hok. destruct (mq_try_send m data prio) as [m' r'] eqn:Ht. intros [= <- <-].
  apply upd_mq_inv; [done| |].
  - intros m0 Hm0. destruct r' as [?|?]; [by rewrite log_eq|]. rewrite Hok. by apply H.
  - intros j Hj. destruct r'; [by rewrite log_ne|done].
Qed.
Lemma receive_inv w fd len null copy id m st r : mq_inv w → mq_lookup (mw w) fd = Ok id → mqs (mw w) !! id = Some m → 0 ≤ len → sys_mq_timedreceive (mw w) fd len null copy = Done (st, r) →
  mq_inv (mkMqWorld st (q_sent w) (log (q_got w) id (if bool_decide (len = 0) || null || bool_decide (mq_queue m = []) then [] else [match r with Ok x => Some x | Err _ => None end]))).
Proof.
  intros H Hid Hm Hl. assert (∀ st' f, (∀ m, mqs (mw w) !! id = Some m → mq_ok (q_sent w id) (q_got w id) (f m)) → upd_mq (mw w) id f = st' → mq_inv (mkMqWorld st' (q_sent w) (log (q_got w) id []))) as Hsame.
  { intros st' f Hf <-. apply upd_mq_inv; [done|intros m0 Hm0; rewrite log_eq, app_nil_r; by apply Hf|intros j Hj; by rewrite log_ne]. }
  assert (upd_mq (mw w) id (λ x, x) = mw w) as Hid0.
  { unfold upd_mq, with_mqs. destruct (mw w) as [ms ? ? ?]. simpl. f_equal. apply map_eq. intros j. destruct (decide (j = id)) as [->|Hn]; [rewrite lookup_alter_eq; by destruct (ms !! id)|by rewrite lookup_alter_ne]. }
  assert (mq_inv (mkMqWorld (mw w) (q_sent w) (log (q_got w) id []))) as Hsame0 by (eapply Hsame, Hid0; intros m0 Hm0; by apply H).
  unfold sys_mq_timedreceive. destruct (Z.eqb_spec len 0) as [->|Hne]; [by intros [= <- <-]|]. rewrite bool_decide_false by done. destruct null; [by intros [= <- <-]|]. rewrite Hid, Hm. simpl.
  unfold mq_try_receive. destruct (mi_ok w H id m Hm) as [(past & Hs & Hp) Hlen Hsz]. destruct (mq_queue m) as [|x q] eqn:Hq.
  - intros [= <- <-]. rewrite bool_decide_true by done. eapply Hsame; [|done]. intros m0 Hm0. assert (m0 = m) as -> by congruence. by apply H.
  - intros [= <- <-]. rewrite bool_decide_false by done. apply upd_mq_inv; [done| |intros j Hj; by rewrite log_ne].
    intros m0 _. rewrite log_eq. split; simpl; [|simpl in Hlen; lia|intros y Hy; apply Hsz; by right]. exists (past ++ [x]). split; [by rewrite Hs, <- app_assoc|].
    apply Forall2_app; [done|]. apply Forall2_cons. split; [|constructor]. destruct copy; simpl; [|done]. split; [apply prefix_take|done].
Qed.

Lemma mq_history v w : rtc mqstep v w → mq_inv v → mq_inv w.
Proof.
  intros Hr. induction Hr as [|x y z Hxy Hyz IH]; [done|]. intros Hx. apply IH. clear IH Hyz. destruct Hxy.
  - by eapply open_inv.
  - by eapply unlink_inv.
  - by apply same_world_inv; try apply Hx.
  - by eapply send_inv.
  - by eapply receive_inv.
Qed.
(** In every history of existing queues a queue gives its messages back in the order in
    which they were sent, whatever their priorities, at most [maxmsg] of at most
    [mq_msgsize] bytes wait, and no call panics. *)
Theorem mq_fifo v w : mq_inv v → rtc mqstep v w →
  (∀ i m, mqs (mw w) !! i = Some m → mq_ok (q_sent w i) (q_got w i) m) ∧
  (∀ fd len null src prio, ∃ r, sys_mq_timedsend (mw w) fd len null src prio = Done r) ∧
  ∀ fd len null copy, ∃ r, sys_mq_timedreceive (mw w) fd len null copy = Done r.
Proof.
  intros Hv Hr. pose proof (mq_history v w Hr Hv) as H. split; [apply H|]. assert (∀ fd id, mq_lookup (mw w) fd = Ok id → ∃ m, mqs (mw w) !! id = Some m) as Hl.
  { intros fd id Hid%mq_lookup_some. destruct (mi_table w H fd id Hid) as [m Hm]. eauto. }
  split.
  - intros fd len null src prio. unfold sys_mq_timedsend. destruct (len =? 0); [eauto|]. destruct null; [eauto|]. destruct (mq_lookup (mw w) fd) as [id|] eqn:E; [|eauto]. destruct src; [|eauto]. destruct (Hl fd id E) as [m ->]. simpl. destruct (mq_try_send m _ _). eauto.
  - intros fd len null copy. unfold sys_mq_timedreceive. destruct (len =? 0); [eauto|]. destruct null; [eauto|]. destruct (mq_lookup (mw w) fd) as [id|] eqn:E; [|eauto]. destruct (Hl fd id E) as [m ->]. simpl. destruct (mq_try_receive m _). eauto.
Qed.

(** ** No queue is ever made *)

Definition mqw_init : MqWorld := mkMqWorld mqs_init (λ _, []) (λ _, []).
Lemma open_without_queues st pid name oflag attr alloc set x : NAME_REGISTRY st = ∅ → sys_mq_open st pid name oflag attr alloc set = Some x → x.1 = st.
Proof.
  intros Hn. unfold sys_mq_open. destruct name as [name|]; [|by intros [= <-]]. destruct (negb (starts_with_slash name)); [by intros [= <-]|]. destruct (open_sizes attr); [|by intros [= <-]].
  destruct (_ && bool_decide _); [by intros [= <-]|]. unfold open_queue. rewrite Hn. destruct (contains oflag MQ_CREATE); [done|by intros [= <-]].
Qed.
(** From the start of the kernel on, the call that creates a queue never returns and
    the others find none: there is no message queue. *)
Theorem mq_never_created w : rtc mqstep mqw_init w →
  mqs (mw w) = ∅ ∧
  (∀ pid name oflag attr sizes alloc set, starts_with_slash name = true → contains oflag MQ_CREATE = true → open_sizes attr = Ok sizes → sys_mq_open (mw w) pid (Ok name) oflag attr alloc set = None) ∧
  ∀ fd, mq_lookup (mw w) fd = Err EBADF.
Proof.
  intros Hr. assert (mqs (mw w) = ∅ ∧ NAME_REGISTRY (mw w) = ∅ ∧ MQUEUE_TABLE (mw w) = ∅) as (H1 & H2 & H3).
  { assert (∀ v, rtc mqstep v w → mqs (mw v) = ∅ ∧ NAME_REGISTRY (mw v) = ∅ ∧ MQUEUE_TABLE (mw v) = ∅ → mqs (mw w) = ∅ ∧ NAME_REGISTRY (mw w) = ∅ ∧ MQUEUE_TABLE (mw w) = ∅) as Hind; [|by apply (Hind mqw_init)].
    clear. intros v Hr. induction Hr as [|x y z Hxy _ IH]; [done|]. intros (H1 & H2 & H3). apply IH. assert (∀ fd id, mq_lookup (mw x) fd ≠ Ok id) as Hl by (intros fd id Hid%mq_lookup_some; by rewrite H3 in Hid).
    destruct Hxy as [? ? ? ? ? ? ? ? Ho|? ? ? Hu| |? ? ? ? ? ? ? ? Hid|? ? ? ? ? ? ? ? Hid]; [apply open_without_queues in Ho; [|done]; simpl in *; by subst| |done|by destruct (Hl _ _ Hid)..].
    unfold sys_mq_unlink, unlink_name in Hu. destruct name as [name|]; [|by injection Hu as <- _]. destruct (negb (starts_with_slash name)); [by injection Hu as <- _|]. rewrite H2 in Hu. by injection Hu as <- _. }
  split; [done|]. split.
  - intros pid name oflag attr sizes alloc set Hs Hc Hz. unfold sys_mq_open, open_queue. rewrite Hs, Hc, Hz, H2. simpl. by rewrite andb_false_r.
  - intros fd. unfold mq_lookup. by rewrite H3.
Qed.

(** ** Numbers of other processes *)

Definition open_at (st : Mqs) (pid : Z) (name : string) (fd : Z) : Mqs := match sys_mq_open st pid (Ok name) 0 None (Ok fd) (Ok tt) with Some (st, _) => st | None => st end.
(** Two processes open two existing queues, each as its descriptor 3. *)
Definition named_queues : Mqs := mkMqs {[ 0 := mqueue_new 0 0; 1 := mqueue_new 0 0 ]} ∅ {[ "/a" := 0; "/b" := 1 ]} ∅.
Definition two_queues : Mqs := open_at (open_at named_queues 1 "/a" 3) 2 "/b" 3.
Definition sent_by_first : Mqs := match sys_mq_timedsend two_queues 3 2 false (Ok [7; 8]) 0 with Done (st, _) => st | Panic => two_queues end.
(** What the first process sends to its descriptor goes to the queue of the second;
    after both have closed theirs the number still names it. *)
Lemma mq_descriptor_of_other_process :
  fds two_queues !! (1, 3) = Some 0 ∧ mq_queue <$> mqs sent_by_first !! 0 = Some [] ∧ mq_queue <$> mqs sent_by_first !! 1 = Some [mkMqMsg [7; 8] 0] ∧
  mq_lookup (mq_close (mq_close two_queues 1 3) 2 3) 3 = Ok 1.
Proof. vm_compute. by repeat split. Qed.
(** The message of higher priority, sent second, is received second. *)
Lemma mq_priority_ignored :
  let m := (mq_try_send (mq_try_send (mqueue_new 10 16) [1] 0).1 [2] 9).1 in (mq_try_receive m 16).2 = Ok ([1], 1).
Proof. by vm_compute. Qed.
(** Worlds in which the theorem on histories applies. *)
Lemma named_queues_ok : mq_inv (mkMqWorld named_queues (λ _, []) (λ _, [])).
Proof.
  split; simpl; [|intros n i [[_ <-]|[_ [_ <-]%lookup_singleton_Some]]%lookup_insert_Some; vm_compute; eauto|done].
  intros i m [[_ <-]|[_ [_ <-]%lookup_singleton_Some]]%lookup_insert_Some; (split; simpl; [by exists []|lia|by intros x ?%elem_of_nil]).
Qed.
