(* ===== verification/Events.v ===== *)
(** * Event counters and epoll

    [fs/files/events.rs]: the counter behind [eventfd], its reads and writes
    through [poll_io] ([task/future/poll.rs]), and its wait protocol.
    [fs/files/epoll/]: the interest list of an epoll instance, the translation of
    event masks and the collection of ready events; [syscall/io_mpx/epoll.rs] for
    the order of checks.

    The files behind the descriptors of an epoll instance are a function that
    polls them. *)

From S2P Require Import Prelude Errno Wake.

(** ** Event masks *)

Definition POLLIN : Z := 1.
Definition POLLPRI : Z := 2.
Definition POLLOUT : Z := 4.
Definition POLLERR : Z := 8.
Definition POLLHUP : Z := 16.
Definition POLLRDNORM : Z := 64.
Definition POLLWRNORM : Z := 256.
Definition POLLRDHUP : Z := 8192.
Definition EPOLLIN : Z := 1.
Definition EPOLLOUT : Z := 4.
Definition EPOLLERR : Z := 8.
Definition EPOLLHUP : Z := 16.
Definition EPOLLRDHUP : Z := 8192.
Definition EPOLLONESHOT : Z := 1073741824.
Definition EPOLLET : Z := 2147483648.

(** ** [EventFd] *)

Definition u64_max : Z := 18446744073709551615.
Record EventFd : Type := mkEventFd { counter : Z; semaphore : bool; poll_rx : list Z; poll_tx : list Z }.
Definition eventfd_new (initval : Z) (sem : bool) : EventFd := mkEventFd initval sem [] [].
Definition with_counter (e : EventFd) (c : Z) : EventFd := mkEventFd c (semaphore e) (poll_rx e) (poll_tx e).

(** The two closures given to [poll_io], up to their wake-ups: the value that is
    copied to the user. *)
Definition read_once (e : EventFd) : EventFd * result SysErrNo Z :=
  if 0 <? counter e
  then (with_counter e (counter e - (if semaphore e then 1 else counter e)), Ok (counter e))
  else (e, Err EAGAIN).
Definition write_once (e : EventFd) (val : Z) : EventFd * result SysErrNo Z :=
  if val <? u64_max - counter e then (with_counter e (counter e + val), Ok 8) else (e, Err EAGAIN).

(** The checks before. *)
Definition eventfd_read_len (len : Z) : result SysErrNo unit := if len <? 8 then Err EINVAL else Ok tt.
Definition eventfd_write_val (len val : Z) : result SysErrNo unit :=
  if len <? 8 then Err EINVAL else if val =? u64_max then Err EINVAL else Ok tt.

Definition eventfd_poll (e : EventFd) (events : Z) : Z :=
  Z.lor (if contains events POLLIN && (0 <? counter e) then POLLIN else 0)
        (if contains events POLLOUT && (counter e <? u64_max - 1) then POLLOUT else 0).

(** *** Readers and writers at one counter *)

Inductive EvOp : Type := EvRead | EvWrite (val : Z).
(** Where a task is in [poll_io] under [block_on]: before the first attempt,
    before [register], before the second attempt, asleep, or after a successful
    update and before the wake-up. *)
Inductive EvPc : Type := EvIdle | Try1 (op : EvOp) | Registering (op : EvOp) | Try2 (op : EvOp) | EvAsleep (op : EvOp)
  | EvWaking (op : EvOp).
Record EvTask : Type := mkEvTask { ev_pc : EvPc; ev_woken : bool }.
Record EvWorld : Type := mkEvWorld { ev_fd : EventFd; ev_tasks : gmap Z EvTask }.

Definition attempt (e : EventFd) (op : EvOp) : EventFd * bool :=
  match op with
  | EvRead => let '(e, r) := read_once e in (e, match r with Ok _ => true | Err _ => false end)
  | EvWrite v => let '(e, r) := write_once e v in (e, match r with Ok _ => true | Err _ => false end)
  end.
(** [register]: the set of the operation. *)
Definition ev_register (e : EventFd) (op : EvOp) (t : Z) : EventFd * list Z :=
  match op with
  | EvRead => let '(displaced, rx) := poll_register t (poll_rx e) in (mkEventFd (counter e) (semaphore e) rx (poll_tx e), displaced)
  | EvWrite _ => let '(displaced, tx) := poll_register t (poll_tx e) in (mkEventFd (counter e) (semaphore e) (poll_rx e) tx, displaced)
  end.
(** The wake-up after a successful operation: of the other side. *)
Definition ev_wake (e : EventFd) (op : EvOp) : EventFd * list Z :=
  match op with
  | EvRead => let '(woken, tx) := poll_wake (poll_tx e) in (mkEventFd (counter e) (semaphore e) (poll_rx e) tx, woken)
  | EvWrite _ => let '(woken, rx) := poll_wake (poll_rx e) in (mkEventFd (counter e) (semaphore e) rx (poll_tx e), woken)
  end.
Definition set_woken (ts : gmap Z EvTask) (l : list Z) : gmap Z EvTask :=
  map_imap (λ t x, Some (if decide (t ∈ l) then mkEvTask (ev_pc x) true else x)) ts.

Inductive ev_step : EvWorld → EvWorld → Prop :=
| ev_spawn e ts t : ts !! t = None → ev_step (mkEvWorld e ts) (mkEvWorld e (<[t := mkEvTask EvIdle false]> ts))
| ev_start e ts t w op :
    ts !! t = Some (mkEvTask EvIdle w) → (∀ v, op = EvWrite v → 0 ≤ v < u64_max) →
    ev_step (mkEvWorld e ts) (mkEvWorld e (<[t := mkEvTask (Try1 op) false]> ts))
| ev_try1 e ts t w op e' b :
    ts !! t = Some (mkEvTask (Try1 op) w) → attempt e op = (e', b) →
    ev_step (mkEvWorld e ts) (mkEvWorld e' (<[t := mkEvTask (if b : bool then EvWaking op else Registering op) w]> ts))
| ev_reg e ts t w op e' l :
    ts !! t = Some (mkEvTask (Registering op) w) → ev_register e op t = (e', l) →
    ev_step (mkEvWorld e ts) (mkEvWorld e' (set_woken (<[t := mkEvTask (Try2 op) w]> ts) l))
| ev_try2 e ts t w op e' b :
    ts !! t = Some (mkEvTask (Try2 op) w) → attempt e op = (e', b) →
    ev_step (mkEvWorld e ts) (mkEvWorld e' (<[t := mkEvTask (if b : bool then EvWaking op else EvAsleep op) w]> ts))
| ev_do_wake e ts t w op e' l :
    ts !! t = Some (mkEvTask (EvWaking op) w) → ev_wake e op = (e', l) →
    ev_step (mkEvWorld e ts) (mkEvWorld e' (set_woken (<[t := mkEvTask EvIdle w]> ts) l))
| ev_repoll e ts t op :
    ts !! t = Some (mkEvTask (EvAsleep op) true) →
    ev_step (mkEvWorld e ts) (mkEvWorld e (<[t := mkEvTask (Try1 op) false]> ts)).

Definition ev_init (initval : Z) (sem : bool) : EvWorld := mkEvWorld (eventfd_new initval sem) ∅.

(** ** epoll *)

Record EpollEntry : Type := mkEntry { ep_events : Z; ep_data : Z; last_events : Z }.
Record EpollReady : Type := mkReady { rd_events : Z; rd_data : Z }.
Definition Interests : Type := gmap Z EpollEntry.

Definition bit_on (m flag bit : Z) : Z := if negb (Z.land m flag =? 0) then bit else 0.
Definition epoll_events_to_poll (ep : Z) : Z :=
  Z.lor (bit_on ep EPOLLIN POLLIN) (Z.lor (bit_on ep EPOLLOUT POLLOUT) (Z.lor (bit_on ep EPOLLHUP POLLHUP)
    (Z.lor (Z.lor POLLERR POLLHUP) (bit_on ep EPOLLRDHUP POLLRDHUP)))).
Definition flag_on (m flag bit : Z) : Z := if contains m flag then bit else 0.
Definition poll_to_epoll_events (pe : Z) : Z :=
  Z.lor (flag_on pe POLLIN EPOLLIN) (Z.lor (flag_on pe POLLPRI EPOLLIN) (Z.lor (flag_on pe POLLOUT EPOLLOUT)
    (Z.lor (flag_on pe POLLERR EPOLLERR) (Z.lor (flag_on pe POLLHUP EPOLLHUP) (Z.lor (flag_on pe POLLRDHUP EPOLLRDHUP)
      (Z.lor (flag_on pe POLLRDNORM EPOLLIN) (flag_on pe POLLWRNORM EPOLLOUT))))))).
(** [poll_mask] of a file whose [poll] is the argument. *)
Definition poll_mask (file_poll : Z → Z) (registered : Z) : Z :=
  poll_to_epoll_events (file_poll (epoll_events_to_poll registered)).

Definition ctl_add (m : Interests) (fd events data : Z) : Interests * result SysErrNo unit :=
  match m !! fd with
  | Some _ => (m, Err EEXIST)
  | None => (<[fd := mkEntry events data 0]> m, Ok tt)
  end.
Definition ctl_mod (m : Interests) (fd events data : Z) : Interests * result SysErrNo unit :=
  match m !! fd with
  | None => (m, Err ENOENT)
  | Some entry => (<[fd := mkEntry events data (last_events entry)]> m, Ok tt)
  end.
Definition ctl_del (m : Interests) (fd : Z) : Interests * result SysErrNo unit :=
  match m !! fd with None => (m, Err ENOENT) | Some _ => (delete fd m, Ok tt) end.

(** [snapshot_interests]: the entries in the order of the descriptors. *)
Definition snapshot_interests (m : Interests) : list (Z * EpollEntry) :=
  omap (λ fd, (λ e, (fd, e)) <$> m !! fd) (merge_sort Z.le (elements (dom m))).

(** The loop of [collect_ready] over the snapshot, with the live list. *)
Fixpoint collect_loop (poll_one : Z → Z → option Z) (maxevents : nat) (l : list (Z * EpollEntry)) (m : Interests)
    (ready : list EpollReady) (to_remove : list Z) : Interests * list EpollReady * list Z :=
  match l with
  | [] => (m, ready, to_remove)
  | (fd, entry) :: l =>
      if (maxevents <=? length ready)%nat then (m, ready, to_remove)
      else
        match poll_one fd (ep_events entry) with
        | None =>
            let revents := Z.lor EPOLLERR EPOLLHUP in
            let events := Z.lor (Z.land revents (ep_events entry)) (Z.land revents EPOLLERR) in
            collect_loop poll_one maxevents l m (ready ++ [mkReady events (ep_data entry)]) (to_remove ++ [fd])
        | Some current =>
            let is_et := negb (Z.land (ep_events entry) EPOLLET =? 0) in
            let fired := if is_et then Z.land current (Z.lnot (last_events entry)) else current in
            let m := alter (λ e, mkEntry (ep_events e) (ep_data e) current) fd m in
            let to_report := Z.lor (Z.land fired (ep_events entry)) (Z.land fired (Z.lor EPOLLERR EPOLLHUP)) in
            if to_report =? 0 then collect_loop poll_one maxevents l m ready to_remove
            else
              collect_loop poll_one maxevents l m (ready ++ [mkReady to_report (ep_data entry)])
                (if negb (Z.land (ep_events entry) EPOLLONESHOT =? 0) then to_remove ++ [fd] else to_remove)
        end
  end.

Definition collect_ready (m : Interests) (poll_one : Z → Z → option Z) (maxevents : nat) : Interests * list EpollReady :=
  let interests := snapshot_interests m in
  if bool_decide (interests = []) || (maxevents =? 0)%nat then (m, [])
  else
    let '(m, ready, to_remove) := collect_loop poll_one maxevents interests m [] [] in
    (foldl (λ m fd, delete fd m) m to_remove, ready).

(** ** No wake-up is lost *)

Definition is_read (op : EvOp) : bool := match op with EvRead => true | EvWrite _ => false end.
Definition set_of (e : EventFd) (op : EvOp) : list Z := if is_read op then poll_rx e else poll_tx e.
(** The operation cannot proceed. *)
Definition ev_blocked (e : EventFd) (op : EvOp) : Prop :=
  match op with EvRead => counter e = 0 | EvWrite v => u64_max - counter e ≤ v end.
(** Some task has done an operation of the other kind and is about to wake. *)
Definition waker_due (ts : gmap Z EvTask) (op : EvOp) : Prop :=
  ∃ t x op', ts !! t = Some x ∧ ev_pc x = EvWaking op' ∧ is_read op' ≠ is_read op.

Record ev_inv (w : EvWorld) : Prop := {
  ei_counter : 0 ≤ counter (ev_fd w) < u64_max;
  ei_sets t x op : ev_tasks w !! t = Some x → ev_pc x = Try2 op ∨ ev_pc x = EvAsleep op → ev_woken x = false →
    t ∈ set_of (ev_fd w) op;
  ei_sleep t x op : ev_tasks w !! t = Some x → ev_pc x = EvAsleep op → ev_woken x = false →
    ev_blocked (ev_fd w) op ∨ waker_due (ev_tasks w) op;
  ei_vals t x v : ev_tasks w !! t = Some x →
    ev_pc x = Try1 (EvWrite v) ∨ ev_pc x = Registering (EvWrite v) ∨ ev_pc x = Try2 (EvWrite v) ∨
    ev_pc x = EvAsleep (EvWrite v) → 0 ≤ v < u64_max }.

Lemma attempt_fails e op e' : 0 ≤ counter e → attempt e op = (e', false) → e' = e ∧ ev_blocked e op.
Proof.
  intros Hc. destruct op as [|v]; cbn [attempt]; unfold read_once, write_once.
  - destruct (0 <? counter e) eqn:E; [done|]. intros [= <-]. split; [done|]. apply Z.ltb_ge in E. cbn. lia.
  - destruct (v <? _) eqn:E; [done|]. intros [= <-]. split; [done|]. by apply Z.ltb_ge in E.
Qed.

Lemma attempt_works e op e' : 0 ≤ counter e < u64_max → (∀ v, op = EvWrite v → 0 ≤ v) → attempt e op = (e', true) →
  poll_rx e' = poll_rx e ∧ poll_tx e' = poll_tx e ∧ 0 ≤ counter e' < u64_max ∧
  ∀ op1, is_read op1 = is_read op → ev_blocked e op1 → ev_blocked e' op1.
Proof.
  intros Hc Hv. destruct op as [|v]; cbn [attempt]; unfold read_once, write_once.
  - destruct (0 <? counter e) eqn:E; [|done]. apply Z.ltb_lt in E. intros [= <-]. cbn.
    split_and!; [done|done|destruct (semaphore e); lia..|]. intros [|] ?; cbn; [lia|done].
  - specialize (Hv v eq_refl). destruct (v <? _) eqn:E; [|done]. apply Z.ltb_lt in E. intros [= <-]. cbn.
    split_and!; [done|done|lia|lia|]. intros [|v1] ?; cbn; [done|lia].
Qed.

Lemma set_woken_lookup ts l t x : set_woken ts l !! t = Some x →
  ∃ y, ts !! t = Some y ∧ ev_pc x = ev_pc y ∧ (ev_woken x = false → ev_woken y = false ∧ t ∉ l).
Proof.
  unfold set_woken. rewrite map_lookup_imap. destruct (ts !! t) as [y|] eqn:E; [|done]. cbn. intros [= <-].
  exists y. case_decide; done.
Qed.

Lemma set_woken_pc ts l t y : ts !! t = Some y → ∃ x, set_woken ts l !! t = Some x ∧ ev_pc x = ev_pc y.
Proof. intros H. unfold set_woken. rewrite map_lookup_imap, H. cbn. case_decide; by eexists. Qed.

Lemma waker_due_set_woken ts l op : waker_due ts op → waker_due (set_woken ts l) op.
Proof. intros (t & x & op' & Ht & Hp & Hr). destruct (set_woken_pc ts l t x Ht) as (y & Hy & He). exists t, y, op'. split_and!; congruence. Qed.

(** A task that is not about to wake can move without losing a due waker. *)
Lemma waker_due_insert ts t y x op : ts !! t = Some y → (∀ op', ev_pc y ≠ EvWaking op') → waker_due ts op → waker_due (<[t := x]> ts) op.
Proof.
  intros Ht Hy (t' & x' & op' & Ht' & Hp & Hr). exists t', x', op'. split_and!; [|done|done].
  rewrite lookup_insert_ne; [done|]. intros <-. simplify_eq. by eapply Hy.
Qed.

(** The members of a poll set after a registration. *)
Lemma register_members t ps l ps' : poll_register t ps = (l, ps') → t ∈ ps' ∧ ∀ u, u ∈ ps → u ∈ ps' ∨ u ∈ l.
Proof.
  unfold poll_register, inner_register. destruct (existsb _ ps) eqn:E.
  - intros [= <- <-]. split; [|by left]. by apply existsb_eqb_elem.
  - destruct (Nat.eqb _ _); intros [= <- <-]; (split; [set_solver|]); intros u Hu; [|set_solver].
    destruct ps as [|p ps]; [set_solver|]. cbn. set_solver.
Qed.

Lemma ev_register_spec e op t e' l : ev_register e op t = (e', l) →
  counter e' = counter e ∧ t ∈ set_of e' op ∧ ∀ op1 u, u ∈ set_of e op1 → u ∈ set_of e' op1 ∨ u ∈ l.
Proof.
  destruct op; cbn [ev_register]; destruct (poll_register t _) as [d ps] eqn:E; intros [= <- <-].
  all: destruct (register_members _ _ _ _ E) as [H1 H2]; split_and!; [done|done|].
  all: intros [|v1] u; cbn; auto.
Qed.

Lemma ev_wake_spec e op e' l : ev_wake e op = (e', l) →
  counter e' = counter e ∧ ∀ op1 u, u ∈ set_of e op1 → if decide (is_read op1 = is_read op) then u ∈ set_of e' op1 else u ∈ l.
Proof. destruct op; cbn [ev_wake poll_wake]; intros [= <- <-]; (split; [done|]); intros [|v1] u; cbn; done. Qed.

(** The step of a task [t] that is not about to wake, to a state in which it is
    not asleep, or asleep and blocked. *)
Lemma ev_inv_move e e' ts t y x :
  ev_inv (mkEvWorld e ts) → ts !! t = Some y → (∀ op, ev_pc y ≠ EvWaking op) → 0 ≤ counter e' < u64_max →
  poll_rx e' = poll_rx e → poll_tx e' = poll_tx e →
  (∀ op, ev_pc x = Try2 op ∨ ev_pc x = EvAsleep op → ev_pc y = Try2 op ∧ ev_woken x = ev_woken y) →
  (∀ op, ev_pc x = EvAsleep op → ev_blocked e' op) →
  (∀ op, ev_blocked e op → ev_blocked e' op ∨ waker_due (<[t := x]> ts) op) →
  (∀ v, ev_pc x = Try1 (EvWrite v) ∨ ev_pc x = Registering (EvWrite v) ∨ ev_pc x = Try2 (EvWrite v) ∨
        ev_pc x = EvAsleep (EvWrite v) → 0 ≤ v < u64_max) →
  ev_inv (mkEvWorld e' (<[t := x]> ts)).
Proof.
  intros [Ic Is Isl Iv] Ht Hy Hc Hrx Htx Hx Hxb Hb Hv. cbn [ev_fd ev_tasks] in *.
  assert (∀ op, set_of e' op = set_of e op) as Hset by (intros []; cbn; done).
  split; cbn [ev_fd ev_tasks]; [done|..].
  - intros u z op [[<- <-]|[Hu Hz]]%lookup_insert_Some Hp Hw; rewrite Hset; [|eauto].
    destruct (Hx _ Hp) as [Hpy Hwy]. eapply Is; [exact Ht|by left|congruence].
  - intros u z op [[<- <-]|[Hu Hz]]%lookup_insert_Some Hp Hw; [left; eauto|].
    destruct (Isl _ _ _ Hz Hp Hw) as [H|H]; [auto|]. right. by eapply waker_due_insert.
  - intros u z v [[<- <-]|[Hu Hz]]%lookup_insert_Some Hp; eauto.
Qed.

Lemma ev_inv_attempt e ts t w op e' b pc1 (pcf : EvPc) :
  ev_inv (mkEvWorld e ts) → ts !! t = Some (mkEvTask pc1 w) → pc1 = Try1 op ∧ pcf = Registering op ∨ pc1 = Try2 op ∧ pcf = EvAsleep op →
  attempt e op = (e', b) → ev_inv (mkEvWorld e' (<[t := mkEvTask (if b then EvWaking op else pcf) w]> ts)).
Proof.
  intros Hi Ht Hpc Ha. pose proof (ei_counter _ Hi) as Hc. cbn in Hc.
  assert (∀ v, op = EvWrite v → 0 ≤ v < u64_max) as Hv.
  { intros v ->. eapply (ei_vals _ Hi t); [exact Ht|]. destruct Hpc as [[-> _]|[-> _]]; cbn; auto. }
  assert (∀ op', pc1 ≠ EvWaking op') as Hnw by (destruct Hpc as [[-> _]|[-> _]]; done).
  destruct b.
  - destruct (attempt_works e op e' Hc) as (H1 & H2 & H3 & H4); [intros v Hv'; by apply Hv|done|].
    eapply ev_inv_move; [done|exact Ht|done|done|done|done|cbn; naive_solver|done| |cbn; naive_solver].
    intros op1 Hb. destruct (decide (is_read op1 = is_read op)) as [He|He]; [left; auto|right].
    exists t, (mkEvTask (EvWaking op) w), op. rewrite lookup_insert_eq. split_and!; [done|done|congruence].
  - destruct (attempt_fails e op e') as [-> Hb]; [lia|done|].
    eapply ev_inv_move; [done|exact Ht|done|done|done|done| | |auto|]; destruct Hpc as [[-> ->]|[-> ->]]; cbn; naive_solver.
Qed.

Lemma ev_inv_register e ts t w op e' l :
  ev_inv (mkEvWorld e ts) → ts !! t = Some (mkEvTask (Registering op) w) → ev_register e op t = (e', l) →
  ev_inv (mkEvWorld e' (set_woken (<[t := mkEvTask (Try2 op) w]> ts) l)).
Proof.
  intros [Ic Is Isl Iv] Ht Hr. destruct (ev_register_spec _ _ _ _ _ Hr) as (H1 & H2 & H3). cbn [ev_fd ev_tasks] in *.
  assert (∀ op1, ev_blocked e op1 → ev_blocked e' op1) as Hb by (intros []; cbn; by rewrite H1).
  split; cbn [ev_fd ev_tasks]; [by rewrite H1|..].
  - intros u z op1 (z0 & Hz & Hpz & Hw)%set_woken_lookup Hp Hf. destruct (Hw Hf) as [Hf0 Hl]. rewrite Hpz in Hp.
    apply lookup_insert_Some in Hz as [[<- <-]|[_ Hz]]; [destruct Hp; simplify_eq/=; done|].
    destruct (H3 op1 u) as [|]; [by eapply Is|done|done].
  - intros u z op1 (z0 & Hz & Hpz & Hw)%set_woken_lookup Hp Hf. destruct (Hw Hf) as [Hf0 Hl]. rewrite Hpz in Hp.
    apply lookup_insert_Some in Hz as [[<- <-]|[_ Hz]]; [done|].
    destruct (Isl _ _ _ Hz Hp Hf0) as [|]; [left; auto|right]. by eapply waker_due_set_woken, waker_due_insert.
  - intros u z v (z0 & Hz & Hpz & _)%set_woken_lookup Hp. rewrite Hpz in Hp.
    apply lookup_insert_Some in Hz as [[<- <-]|[_ Hz]]; [|by eapply Iv]. apply (Iv t _ v Ht). cbn in *. naive_solver.
Qed.

Lemma ev_inv_wake e ts t w op e' l :
  ev_inv (mkEvWorld e ts) → ts !! t = Some (mkEvTask (EvWaking op) w) → ev_wake e op = (e', l) →
  ev_inv (mkEvWorld e' (set_woken (<[t := mkEvTask EvIdle w]> ts) l)).
Proof.
  intros [Ic Is Isl Iv] Ht Hr. destruct (ev_wake_spec _ _ _ _ Hr) as (H1 & H3). cbn [ev_fd ev_tasks] in *.
  assert (∀ op1, ev_blocked e op1 → ev_blocked e' op1) as Hb by (intros []; cbn; by rewrite H1).
  split; cbn [ev_fd ev_tasks]; [by rewrite H1|..].
  - intros u z op1 (z0 & Hz & Hpz & Hw)%set_woken_lookup Hp Hf. destruct (Hw Hf) as [Hf0 Hl]. rewrite Hpz in Hp.
    apply lookup_insert_Some in Hz as [[<- <-]|[_ Hz]]; [destruct Hp; done|].
    pose proof (Is _ _ _ Hz Hp Hf0) as Hin. apply H3 in Hin. by case_decide.
  - intros u z op1 (z0 & Hz & Hpz & Hw)%set_woken_lookup Hp Hf. destruct (Hw Hf) as [Hf0 Hl]. rewrite Hpz in Hp.
    apply lookup_insert_Some in Hz as [[<- <-]|[_ Hz]]; [done|].
    pose proof (Is _ _ _ Hz (or_intror Hp) Hf0) as Hin. apply H3 in Hin. case_decide as Hrd; [|done].
    destruct (Isl _ _ _ Hz Hp Hf0) as [|(t' & x' & op' & Ht' & Hp' & Hr')]; [left; auto|right].
    apply waker_due_set_woken. exists t', x', op'. split_and!; [|done|done]. rewrite lookup_insert_ne; [done|].
    intros <-. by simplify_eq/=.
  - intros u z v (z0 & Hz & Hpz & _)%set_woken_lookup Hp. rewrite Hpz in Hp.
    apply lookup_insert_Some in Hz as [[<- <-]|[_ Hz]]; [naive_solver|by eapply Iv].
Qed.

Lemma ev_step_inv w w' : ev_inv w → ev_step w w' → ev_inv w'.
Proof.
  intros Hi Hstep. pose proof (ei_counter _ Hi) as Hc.
  destruct Hstep as [e ts t Hn|e ts t w op Ht Hv|e ts t w op e' b Ht Ha|e ts t w op e' l Ht Hr|e ts t w op e' b Ht Ha
    |e ts t w op e' l Ht Hw|e ts t op Ht].
  - destruct Hi as [Ic Is Isl Iv]. split; cbn [ev_fd ev_tasks] in *; [done|..].
    + intros u x op [[<- <-]|[_ Hu]]%lookup_insert_Some; [naive_solver|eauto].
    + intros u x op [[<- <-]|[_ Hu]]%lookup_insert_Some Hp Hf; [done|]. destruct (Isl _ _ _ Hu Hp Hf) as [|Hd]; [by left|right].
      destruct Hd as (t' & x' & op' & Ht' & ? & ?). exists t', x', op'. rewrite lookup_insert_ne; [done|congruence].
    + intros u x v [[<- <-]|[_ Hu]]%lookup_insert_Some; [naive_solver|eauto].
  - eapply ev_inv_move; [done|exact Ht|done|done|done|done|cbn; naive_solver|done|auto|cbn; naive_solver].
  - eapply ev_inv_attempt; [done|exact Ht|by left|done].
  - by eapply ev_inv_register.
  - eapply ev_inv_attempt; [done|exact Ht|by right|done].
  - by eapply ev_inv_wake.
  - eapply ev_inv_move; [done|exact Ht|done|done|done|done|cbn; naive_solver|done|auto|].
    cbn. intros v [[= ->]|[?|[?|?]]]; try done. eapply (ei_vals _ Hi t); [exact Ht|]. cbn. auto.
Qed.

(** No reader or writer of an event counter sleeps for ever: whenever a
    task sleeps on an operation that could proceed and no waker has reached it,
    some other task has just done the operation that made this possible and is
    about to wake the poll set, which has the sleeping task in it; in every
    interleaving of any number of readers and writers. *)
Theorem eventfd_no_lost_wakeup initval sem w t x op :
  0 ≤ initval < u64_max → rtc ev_step (ev_init initval sem) w →
  ev_tasks w !! t = Some x → ev_pc x = EvAsleep op → ev_woken x = false → ¬ ev_blocked (ev_fd w) op →
  t ∈ set_of (ev_fd w) op ∧
  ∃ t' x' op', ev_tasks w !! t' = Some x' ∧ ev_pc x' = EvWaking op' ∧ t ∈ (ev_wake (ev_fd w) op').2.
Proof.
  intros Hv Hr Ht Hp Hf Hb. assert (ev_inv w) as Hi.
  { eapply rtc_invariant; [exact ev_step_inv|exact Hr|]. split; cbn; [done|..]; intros *; by rewrite lookup_empty. }
  pose proof (ei_sets _ Hi _ _ _ Ht (or_intror Hp) Hf) as Hin. split; [done|].
  destruct (ei_sleep _ Hi _ _ _ Ht Hp Hf) as [|(t' & x' & op' & Ht' & Hp' & Hrd)]; [done|].
  exists t', x', op'. split_and!; [done|done|]. destruct (ev_wake (ev_fd w) op') as [e' l] eqn:Ew.
  destruct (ev_wake_spec _ _ _ _ Ew) as [_ H]. apply H in Hin. case_decide; [congruence|done].
Qed.

Lemma ev_step_to w w1 w2 w3 : ev_step w w1 → w1 = w2 → rtc ev_step w2 w3 → rtc ev_step w w3.
Proof. intros Hs <- Hr. by eapply rtc_l. Qed.
Tactic Notation "ev_go" uconstr(step) :=
  eapply ev_step_to; [eapply step; first [intros ? [= <-]; by split|intros ? [=]|vm_compute; exact eq_refl]
                     |vm_compute; reflexivity|].

Lemma eventfd_no_lost_wakeup_witness :
  ∃ w x, rtc ev_step (ev_init 0 false) w ∧ ev_tasks w !! 1 = Some x ∧ ev_pc x = EvAsleep EvRead ∧
    counter (ev_fd w) = 5 ∧ 1 ∈ set_of (ev_fd w) EvRead ∧
    ∃ t' x' op', ev_tasks w !! t' = Some x' ∧ ev_pc x' = EvWaking op' ∧ 1 ∈ (ev_wake (ev_fd w) op').2.
Proof.
  eassert (rtc ev_step (ev_init 0 false) _) as Hr.
  { ev_go (ev_spawn _ _ 1). ev_go (ev_start _ _ 1 _ EvRead). ev_go (ev_try1 _ _ 1). ev_go (ev_reg _ _ 1).
    ev_go (ev_try2 _ _ 1). ev_go (ev_spawn _ _ 2). ev_go (ev_start _ _ 2 _ (EvWrite 5)). ev_go (ev_try1 _ _ 2).
    apply rtc_refl. }
  eexists _, _. split; [exact Hr|]. split; [vm_compute; reflexivity|]. split; [reflexivity|]. split; [reflexivity|].
  refine (eventfd_no_lost_wakeup 0 false _ 1 _ EvRead _ Hr _ _ _ _).
  - unfold u64_max. lia.
  - vm_compute. reflexivity.
  - reflexivity.
  - reflexivity.
  - discriminate.
Defined.

(** Reads and writes conserve the total: what a successful operation moves. *)
Lemma read_once_total e e' n : read_once e = (e', Ok n) → semaphore e = false → counter e' + n = counter e.
Proof. unfold read_once. case_match; [|done]. intros [= <- <-] ->. cbn. lia. Qed.

(** In semaphore mode a read returns the whole counter although it takes one
    from it. *)
Theorem semaphore_read_returns_counter n : 0 < n →
  read_once (eventfd_new n true) = (eventfd_new (n - 1) true, Ok n).
Proof. intros Hn. unfold read_once. cbn. by rewrite (proj2 (Z.ltb_lt 0 n) Hn). Qed.

Lemma semaphore_read_returns_counter_witness : read_once (eventfd_new 3 true) = (eventfd_new 2 true, Ok 3).
Proof. exact (semaphore_read_returns_counter 3 eq_refl). Defined.

(** ** What a scan of an epoll instance reports *)

(** The report of one entry, if it has something to report. *)
Definition report (poll_one : Z → Z → option Z) (p : Z * EpollEntry) : option EpollReady :=
  let entry := p.2 in
  match poll_one p.1 (ep_events entry) with
  | None => Some (mkReady (Z.lor EPOLLERR (Z.land EPOLLHUP (ep_events entry))) (ep_data entry))
  | Some current =>
      let fired := if Z.land (ep_events entry) EPOLLET =? 0 then current else Z.ldiff current (last_events entry) in
      let events := Z.land fired (Z.lor (ep_events entry) (Z.lor EPOLLERR EPOLLHUP)) in
      if events =? 0 then None else Some (mkReady events (ep_data entry))
  end.

Lemma land_err_mask ev : Z.lor (Z.land (Z.lor EPOLLERR EPOLLHUP) ev) (Z.land (Z.lor EPOLLERR EPOLLHUP) EPOLLERR) =
  Z.lor EPOLLERR (Z.land EPOLLHUP ev).
Proof.
  change (Z.land (Z.lor EPOLLERR EPOLLHUP) EPOLLERR) with EPOLLERR. rewrite Z.land_lor_distr_l.
  apply Z.bits_inj'; intros i Hi. rewrite !Z.lor_spec, !Z.land_spec.
  by destruct (Z.testbit EPOLLERR i), (Z.testbit ev i), (Z.testbit EPOLLHUP i).
Qed.

Lemma report_open poll_one fd entry current : poll_one fd (ep_events entry) = Some current →
  report poll_one (fd, entry) =
  let fired := if negb (Z.land (ep_events entry) EPOLLET =? 0) then Z.land current (Z.lnot (last_events entry)) else current in
  let to_report := Z.lor (Z.land fired (ep_events entry)) (Z.land fired (Z.lor EPOLLERR EPOLLHUP)) in
  if to_report =? 0 then None else Some (mkReady to_report (ep_data entry)).
Proof.
  intros H. unfold report. cbn [fst snd]. rewrite H. cbv zeta. rewrite <- Z.land_lor_distr_r, <- Z.ldiff_land.
  by destruct (Z.land (ep_events entry) EPOLLET =? 0).
Qed.

Lemma report_closed poll_one fd entry : poll_one fd (ep_events entry) = None →
  report poll_one (fd, entry) = Some (mkReady (Z.lor (Z.land (Z.lor EPOLLERR EPOLLHUP) (ep_events entry))
    (Z.land (Z.lor EPOLLERR EPOLLHUP) EPOLLERR)) (ep_data entry)).
Proof. intros H. unfold report. cbn [fst snd]. by rewrite H, land_err_mask. Qed.

Lemma collect_loop_ready poll_one maxevents l m ready rm :
  (collect_loop poll_one maxevents l m ready rm).1.2 =
  ready ++ take (maxevents - length ready) (omap (report poll_one) l).
Proof.
  revert m ready rm. induction l as [|[fd entry] l IH]; intros m ready rm; cbn [collect_loop].
  { cbn. by rewrite take_nil, app_nil_r. }
  destruct (maxevents <=? length ready)%nat eqn:E.
  { apply Nat.leb_le in E. replace (maxevents - length ready)%nat with 0%nat by lia. by rewrite take_0, app_nil_r. }
  apply Nat.leb_gt in E.
  assert (∀ x, ready ++ take (maxevents - length ready) (x :: omap (report poll_one) l) =
    (ready ++ [x]) ++ take (maxevents - length (ready ++ [x])) (omap (report poll_one) l)) as Hstep.
  { intros x. rewrite length_app. cbn [length]. rewrite <- app_assoc.
    replace (maxevents - length ready)%nat with (S (maxevents - (length ready + 1))) by lia. done. }
  destruct (poll_one fd (ep_events entry)) as [current|] eqn:Ep; cbn [omap list_omap].
  - rewrite (report_open _ _ _ _ Ep). cbv zeta. destruct (_ =? 0) eqn:Er at 1; rewrite Er; [apply IH|]. rewrite IH. by rewrite Hstep.
  - rewrite (report_closed _ _ _ Ep), Hstep, IH. done.
Qed.

(** A scan of an epoll instance reports, in the order of the descriptors,
    the entries that have something to report, up to [maxevents]: a closed
    descriptor reports an error, an open one the events it asked for together
    with errors and hang-ups, an edge-triggered one only what was not set at its
    last scan. *)
Theorem epoll_scan_reports m poll_one maxevents :
  (collect_ready m poll_one maxevents).2 = take maxevents (omap (report poll_one) (snapshot_interests m)) ∧
  StronglySorted Z.le (snapshot_interests m).*1 ∧
  ∀ fd entry, (fd, entry) ∈ snapshot_interests m ↔ m !! fd = Some entry.
Proof.
  split_and!.
  - unfold collect_ready. destruct (bool_decide _ || _) eqn:E.
    + apply orb_true_iff in E as [E%bool_decide_eq_true|E%Nat.eqb_eq]; [rewrite E; cbn; by rewrite take_nil|by subst].
    + destruct (collect_loop _ _ _ _ _ _) as [[m' ready] rm] eqn:Ec. cbn [snd].
      pose proof (collect_loop_ready poll_one maxevents (snapshot_interests m) m [] []) as H. rewrite Ec in H. cbn in H.
      by rewrite Nat.sub_0_r in H.
  - unfold snapshot_interests.
    assert (∀ l, (∀ fd, fd ∈ l → is_Some (m !! fd)) → (omap (λ fd, (λ e, (fd, e)) <$> m !! fd) l).*1 = l) as ->.
    { induction l as [|fd l IH]; intros Hl; [done|]. destruct (Hl fd) as [e He]; [set_solver|]. cbn. rewrite He. cbn.
      f_equal. apply IH. set_solver. }
    + apply Sorted_StronglySorted; [intros x y z; lia|]. apply Sorted_merge_sort. intros x y; lia.
    + intros fd. rewrite merge_sort_Permutation, elem_of_elements. apply elem_of_dom.
  - intros fd entry. unfold snapshot_interests. rewrite list_elem_of_omap. split.
    + intros (fd' & _ & H). destruct (m !! fd') eqn:E; [|done]. by injection H as -> ->.
    + intros H. exists fd. rewrite merge_sort_Permutation, elem_of_elements, H. split; [|done]. apply elem_of_dom. by eexists.
Qed.

(** Level-triggered descriptors that are always ready keep the later ones from
    being reported: with room for one event, every scan reports the lowest. *)
Theorem epoll_starves :
  let m0 : Interests := {[3 := mkEntry EPOLLIN 30 EPOLLIN; 4 := mkEntry EPOLLIN 40 0]} in
  collect_ready m0 (λ _ _, Some EPOLLIN) 1 = (m0, [mkReady EPOLLIN 30]).
Proof. vm_compute. reflexivity. Qed.

(** An edge-triggered entry reports nothing while its descriptor stays ready,
    whatever arrives in between, and re-arming it with [EPOLL_CTL_MOD] does not
    help. *)
Theorem edge_not_rearmed :
  let ev := Z.lor EPOLLET EPOLLIN in
  let m0 : Interests := {[3 := mkEntry ev 30 0]} in
  ∃ m1, collect_ready m0 (λ _ _, Some EPOLLIN) 8 = (m1, [mkReady EPOLLIN 30]) ∧
    (collect_ready m1 (λ _ _, Some EPOLLIN) 8).2 = [] ∧
    (collect_ready (ctl_mod m1 3 ev 30).1 (λ _ _, Some EPOLLIN) 8).2 = [].
Proof. eexists. split; [vm_compute; reflexivity|]. split; vm_compute; reflexivity. Qed.
